(* ===== verification/_CoqProject ===== *)
-Q . S2P
Prelude.v
Bytes.v
Protocol.v
Codec.v
Bundle.v
Spsc.v
Voice.v
Video.v
Core.v
Keys.v
Json.v
Endpoint.v
SubErrors.v
Tasks.v
ExecWire.v
ExecConn.v
ExecSpec.v
ExecLive.v
ExecSends.v
ExecPin.v
ExecLate.v
ExecRuns.v
Subscription.v
SubscriptionLaws.v
SubscriptionSpec.v
SubscriptionRuns.v
Types.v
Stores.v
ChunkStore.v
Connection.v
ConnectionLaws.v
ConnLife.v
ConnectionSpec.v
WorldSession.v
SessionSpec.v
SessionRuns.v
Services.v
KitProtocol.v
KitRuntime.v
KitCalls.v
KitCallbacks.v
KitResends.v
KitTopics.v
KitBudget.v
KitEnds.v
KitRuntimeRuns.v
Mirror.v
PrivateState.v
KitThreads.v
MirrorSpec.v
MirrorCalls.v
PrivateSpec.v
KitRuns.v
