(* ===== verification/Prelude.v ===== *)
(** * CrowdyCPP: a verification development of the realtime client

    CrowdyCPP is a C++ client of a multiplayer world service. An application drives a replication
    connection (UDP, authenticated messages, bundles) and a world session on top of it (the local
    actor, the other actors, the voxel chunks, the message inboxes); media frames travel as payloads
    of the same messages. Everything durable goes over GraphQL: requests over HTTP and subscriptions
    over one WebSocket. This library is a shallow embedding of that core with the theorems that make
    it correct. Paths are under [src/].

    ** The parts and their files

    - [Prelude]: machine integers ([wrapU], [wrapS]), octet buffers ([sub], [memcpy]; an access out
      of bounds is [None], read as undefined behaviour), the hint database [crowdy].
    - [Bytes] ([include/crowdy/core/bytes.hpp], [core/result.hpp]): little-endian access, error
      codes, [Result].
    - [Protocol] ([include/crowdy/wire/protocol.hpp]): opcodes, sizes and offsets, classification
      predicates.
    - [Codec] ([include/crowdy/wire/codec.hpp]): every encoder, parser and verifier. The HMAC
      provider is the record [ICrypto] with the contract [CryptoLaws].
    - [Bundle] (the same file): [BundleWriter] and [forEachMessage].
    - [Spsc] ([include/crowdy/core/spsc.hpp]): the event ring, as operations and as a step relation
      of the interleaved producer and consumer.
    - [Voice], [Video] ([include/crowdy/media/]): voice packets and the jitter buffer; video
      fragments and the assembler.
    - [Core] ([src/core/base64.cpp], [uuid.cpp], [clock.cpp]): base64, actor uuids, ISO-8601.
    - [Keys] ([include/crowdy/session/keys.hpp], [codec.hpp]): voxel and chunk coordinates,
      actor-state codecs.
    - [Types] ([include/crowdy/replication/types.hpp]): the data the connection and the stores
      exchange, and the class [Sender] of the sends the stores use.
    - [Stores] ([include/crowdy/session/stores.hpp]): local actor, remote actors, errors, inboxes,
      event router. What the local actor hands to the connection is read off a connection that keeps
      a log of it ([Logged]).
    - [ChunkStore] ([include/crowdy/session/chunk_store.hpp], [src/session/world_session.cpp]): the
      voxel cache with optimistic edits, hydration ([ChunkSource]) and write-back.
    - [Connection] ([include/crowdy/replication/connection.hpp], [src/replication/connection.cpp]):
      the connection's members as the record [Conn], each method a computation of the state monad
      [M] over it, the operating system and the session provider the class [Net].
    - [ConnectionLaws], [ConnLife]: the rules of those computations. [wp m Q c] is total
      correctness; [conn_at] relates a state to the events queued and the messages pending; [ok_at]
      is the invariant between two operations. The class [NetLaws] states what is relied on of the
      world.
    - [ConnectionSpec]: the public operations as steps of one state machine, the states reachable
      from a new connection, the guarantees in all of them, and a concrete world for witnesses.

    - [WorldSession] ([include/crowdy/session/world_session.hpp], [src/session/world_session.cpp]):
      the session that wires the stores to the connection: construction, the handlers, [tick],
      [join]. [Services] (the same files): the durable source and the host election over the Game
      API. [SessionSpec]: the session's invariant, and what a tick does with what the connection
      queued. [SessionRuns]: concrete sessions.

    - [Json] ([src/graphql/json.cpp], [include/crowdy/graphql/json.hpp]): JSON values, their text,
      MessagePack. [Endpoint] ([src/graphql/subscription_client.cpp]): UTF-8, WebSocket URLs.
    - [SubErrors] ([src/graphql/error_extensions.hpp], [subscription_client.cpp]): error details,
      the classification of every failure, the reconnect delay.
    - [Subscription] ([src/graphql/subscription_client.cpp],
      [include/crowdy/graphql/dispatcher.hpp], [src/graphql/auth_state.cpp]): the subscription
      client. A method is a program of atomic critical sections and calls to the outside ([Prog]);
      [System] is the client with any number of threads that run such programs; [move] is one step
      of one of them.
    - [SubscriptionLaws]: the rules of those programs among other threads, [wp p c r ds Q]: [r] are
      rights a thread holds (each exists once), [ds] duties it has still to do.
    - [SubscriptionSpec]: what holds of every reachable [System]. [SubscriptionRuns]: what a call
      does when nobody interferes.

    - [Tasks]: the frame of the classes that run on many threads as tasks, a critical section or a
      call each ([Worker]), with every interleaving a sequence of moves, and the rule for invariants
      ([tasks_invariant]); the dispatcher ([include/crowdy/graphql/dispatcher.hpp]).
    - [ExecWire] ([src/domains/exec.cpp], [include/crowdy/domains/exec.hpp],
      [include/crowdy/graphql/estate.hpp]): the frames of the game host's protocol, its statuses,
      which gateway a connect token may go to, SHA-256.
    - [ExecConn] ([ExecConnection::Impl] of [src/domains/exec.cpp]): the connection to a game host,
      with its calls, subscriptions, deadlines and reconnects, as a [Worker]. [ExecSpec]: who is
      called back. [ExecLive]: attempts to connect and the timer. [ExecSends]: how often a request
      is written. [ExecPin]: where connect tokens go. [ExecLate]: late requests and the turns of the
      timer thread. [ExecRuns]: concrete runs.

    - [KitProtocol] ([src/kit/protocol.cpp]): the game kit's messages, refusals, action ids, shard
      keys.
    - [KitRuntime] ([src/kit/runtime.cpp]): the kit's calls with their resends, the budget that
      paces them, the timer thread, subscriptions under the gateway's cap, as a [Worker]; [double]
      is the class [Dbl]. [KitCalls], [KitCallbacks]: a call is never forgotten, and called back
      once. [KitResends]: when a call is sent again. [KitTopics]: the count of each topic's handles.
      [KitBudget]: the token bucket in exact arithmetic. [KitEnds]: threads end, [close] once the
      timer thread's turn is over. [KitRuntimeRuns]: concrete runs.
    - [Mirror], [PrivateState] ([src/kit/mirror.cpp]): the client's copies of a hub's topics and of
      private state, each method a task of critical sections and calls. [KitThreads]: any number of
      threads that run such tasks (the class [Machine]), and the runtime answering at any time.
    - [MirrorSpec]: an abstract hub and what a collection mirror holds of it. [MirrorCalls],
      [PrivateSpec]: who is called back, and how fresh a private read is. [KitRuns]: concrete runs.

    They interact as the code does: [Connection] sends through [Codec] and [Bundle] and queues
    through [Spsc]; [Stores] and [ChunkStore] are proved against the interface [Sender].

    ** What the theorems show

    - The connection ([ConnectionSpec]): every operation of every reachable connection is defined
      and ends, except that [connect] must not find the net thread of a session that failed still
      joinable ([connectable]; [connect_twice] is what happens then); what a send puts on the wire
      parses and verifies; messages leave in the order of the sends but where the socket refuses a
      flush (its buffer is full: a message too large for a bundle may overtake what is pending; a
      fault: what was pending is dropped and counted); what is received is queued only when
      verified; a wait is decided by the first answer and never outlives its deadline; no wake-up is
      lost or repeated; the counters agree with the wire and with what is pending; [disconnect]
      closes the session, its socket and its thread; events are dispatched once and in order; a
      session is only ever replaced under the next epoch.
    - The wire (Codec, Bundle): encoders refine the documented layout, parsers are memory safe on
      every input and invert the encoders, verification accepts exactly the authentic messages; a
      bundle unpacks to what was packed.
    - The ring (Spsc): items leave in order, none lost or duplicated, and no two threads touch a
      slot at once, in every interleaving; alone, it refines a bounded queue.
    - Media (Voice, Video): round trips; the jitter buffer stays well formed and in bounds for any
      input and plays due slots in order; a frame's fragments reassemble it in any order.
    - Helpers (Core, Keys): base64 and timestamps against their specifications, voxel addressing in
      bounds.
    - Stores: a tick hands the local actor's newest pose to the connection when it is dirty, failed
      or due and the interval is over, and nothing otherwise; presence events of a lane follow a
      protocol; no store admits the local actor as a remote one; the error log.
    - ChunkStore: the cache stays well formed, an edit reads back, concurrent edits whose sends
      succeed converge with the server's order, and write-back settles; with up to 65 attempts at a
      write-back (beyond, the code's shift is undefined).

    - The world session (SessionSpec): under the conditions of the connection and the chunk store
      every operation of every reachable session is defined and ends; a tick gives each event the
      connection queued to exactly one store, sends the presence that is due, writes back what was
      edited and tells the game who hosts, each at most once.

    - Json, Endpoint: MessagePack and JSON text round trips, the unpacker safe on every input; UTF-8
      exactly as RFC 3629 has it; normalised URLs.
    - The subscription client: with any interleaving of threads, an operation ends at most once and
      nothing is called back after a cancel; on a connection [connection_init] and each [subscribe]
      go out at most once and [subscribe] only after the acknowledgement; a live subscription always
      has someone who acts next once the threads have returned: the transport, or the timer thread,
      whose next turn does something. Alone: the reconnect policy, the replay, the timer. The
      terminal errors are the same ones whichever way they arrive.

    - The game host connection, with any interleaving of threads, dialer, gateway and timer: every
      callback is called once or still somewhere; while it is not closed there is at most one
      attempt to connect, and one is under way or due whenever something waits, unless a dispatcher
      that was closed dropped it; a late request is answered by a turn of the one timer thread,
      which waits at most 250 ms longer; a call is written at most twice, anything else once; a
      connect token only goes where the gateway check allows, and the check is exactly the estate
      rule. [ExecRuns.ExecFaults] has the runs where the code does otherwise than it says.

    - The kit's runtime, with any interleaving of threads, timer, connection and [close]: a callback
      is called at most once, and exactly once when the runtime is at rest; a thread reaches the end
      of its method, [close] once the turn of the timer thread it joins is over; a call is sent
      again only after an answer that makes that safe, the same call each time; a stretch of time
      takes at most a budget of tokens and what comes in meanwhile (without the rounding of
      [double]); the counts of topics are those of their handles and under the cap.
      [KitRuntimeRuns.RuntimeFaults] has the runs where the code does otherwise than it says.
    - The game kit's mirrors: unless its last call failed, a collection mirror holds the hub's
      collection at its position or has asked for a snapshot; a snapshot and the messages held back
      catch up with the hub; each request of a mirror is answered to its caller at most once; a
      private read started after a change returns it; refusals round trip, and the claimed shards
      cover what they claim.

    ** Bounds and fuel

    Integers carry their width where the code's do; clocks are unbounded integers, which is the same
    while they stay in 63 bits, and so are deadlines; the session reads one clock, where the code
    calls [systemClock()] beside the connection's. [receiveBatch] takes a number of batches; it ends
    with more than a sixteenth of the datagrams yet to arrive ([inbound]), since every full batch
    takes sixteen ([receiveBatch_wp]). A wait takes the schedule of what the other threads do in
    each turn; as long as every turn takes a millisecond, a schedule as long as the timeout in
    milliseconds suffices ([awaitSequence_wp]). The unpacker's fuel exceeds the number of octets it
    is given, of which every value takes one ([fromMsgpack_safe]). The other loops are structural;
    programs are inductive trees, so every thread ends by itself.

    ** Not modelled

    System calls (the UDP socket, the clock, OpenSSL, libopus, libcurl) and yyjson are parameters.
    Mutexes of the replication connection are left out: a method of it runs without interleaving
    with another (the ring, where the threads do meet, is interleaved), and a callback does not call
    back into the object that calls it. The subscription client is interleaved at every critical
    section and call; the mutexes that only take interleavings away are left out there. The same
    holds of the game host connection and the kit's runtime, whose waits may end at any time. That a
    thread blocks for ever on a mutex or a join is therefore not seen, except for the join of the
    kit's timer thread, which is a task. Logging is left out. Of the world session the sends that
    wait for an answer and the chunk store's own clock option are left out (the connection and the
    chunk store have theirs). The durable-data facade, the GraphQL HTTP client, the kit's modules
    and the studio are not modelled; generated code, the API domains that only fill variables
    ([ExecAPI] among them), third-party code, examples and tests are not meant to be. *)

From stdpp Require Export prelude gmap strings list numbers.
From Stdlib Require Export ZArith Lia.

#[global] Open Scope nat_scope.

(** ** Machine integers

    A [w]-bit integer is a [Z]; conversions to a width are written out.
    [wrapU w] is the conversion to an unsigned type, [wrapS w] the conversion
    to a two's-complement signed type. *)

Definition wrapU (w z : Z) : Z := (z `mod` 2 ^ w)%Z.
Definition wrapS (w z : Z) : Z := ((z + 2 ^ (w - 1)) `mod` 2 ^ w - 2 ^ (w - 1))%Z.

Definition in_u (w z : Z) : Prop := (0 ≤ z < 2 ^ w)%Z.
Definition in_s (w z : Z) : Prop := (- 2 ^ (w - 1) ≤ z < 2 ^ (w - 1))%Z.
Definition is_byte (z : Z) : Prop := in_u 8 z.

Abbreviation u8 := (wrapU 8).
Abbreviation u16 := (wrapU 16).
Abbreviation u32 := (wrapU 32).
Abbreviation u64 := (wrapU 64).
Abbreviation i16 := (wrapS 16).
Abbreviation i64 := (wrapS 64).

#[global] Instance in_u_dec w z : Decision (in_u w z).
Proof. unfold in_u; apply _. Defined.
#[global] Instance in_s_dec w z : Decision (in_s w z).
Proof. unfold in_s; apply _. Defined.

(** The hint database of the development: range facts and the arithmetic of
    conversions. *)
Create HintDb crowdy.
Create Rewrite HintDb crowdy.

Lemma pow2_pos w : (0 ≤ w)%Z → (0 < 2 ^ w)%Z.
Proof. intros; by apply Z.pow_pos_nonneg. Qed.

Lemma wrapU_range w z : (0 ≤ w)%Z → in_u w (wrapU w z).
Proof. intros. unfold in_u, wrapU. by apply Z.mod_pos_bound, pow2_pos. Qed.

Lemma wrapU_id w z : in_u w z → wrapU w z = z.
Proof. intros. by apply Z.mod_small. Qed.

Lemma wrapU_idemp w z : (0 ≤ w)%Z → wrapU w (wrapU w z) = wrapU w z.
Proof. intros. by apply wrapU_id, wrapU_range. Qed.

Lemma pow2_half w : (0 < w)%Z → (2 ^ w = 2 * 2 ^ (w - 1))%Z.
Proof. intros. rewrite <- Z.pow_succ_r by lia. f_equal; lia. Qed.

Lemma wrapS_range w z : (0 < w)%Z → in_s w (wrapS w z).
Proof.
  intros. unfold in_s, wrapS. rewrite (pow2_half w) by lia.
  pose proof (pow2_pos (w - 1) ltac:(lia)).
  pose proof (Z.mod_pos_bound (z + 2 ^ (w - 1)) (2 * 2 ^ (w - 1)) ltac:(lia)). lia.
Qed.

Lemma wrapS_id w z : (0 < w)%Z → in_s w z → wrapS w z = z.
Proof.
  unfold in_s, wrapS; intros. rewrite (pow2_half w) by lia.
  rewrite Z.mod_small; lia.
Qed.

(** Reinterpreting the unsigned image of a signed value gives it back. *)
Lemma wrapS_wrapU w z : (0 < w)%Z → wrapS w (wrapU w z) = wrapS w z.
Proof.
  intros. unfold wrapS, wrapU. by rewrite Zplus_mod_idemp_l.
Qed.

Lemma wrapU_wrapS w z : (0 < w)%Z → wrapU w (wrapS w z) = wrapU w z.
Proof.
  intros. unfold wrapS, wrapU. rewrite Zminus_mod_idemp_l. f_equal; lia.
Qed.

Lemma wrapU_inj_s w a b :
  (0 < w)%Z → in_s w a → in_s w b → wrapU w a = wrapU w b → a = b.
Proof.
  intros Hw Ha Hb Heq. apply (f_equal (wrapS w)) in Heq.
  by rewrite !wrapS_wrapU, !wrapS_id in Heq by done.
Qed.

Lemma wrapU_add_l w a b : wrapU w (wrapU w a + b) = wrapU w (a + b).
Proof. unfold wrapU. by rewrite Zplus_mod_idemp_l. Qed.

Lemma wrapU_add_r w a b : wrapU w (a + wrapU w b) = wrapU w (a + b).
Proof. unfold wrapU. by rewrite Zplus_mod_idemp_r. Qed.

#[export] Hint Resolve wrapU_range wrapS_range wrapU_id : crowdy.
#[export] Hint Extern 1 (_ ≤ _)%Z => lia : crowdy.
#[export] Hint Extern 1 (_ < _)%Z => lia : crowdy.
#[export] Hint Rewrite wrapU_idemp wrapS_wrapU wrapU_wrapS using lia : crowdy.

(** ** Memory

    A buffer is the list of its octets. A read or a write outside the buffer
    is undefined behaviour, which the model makes visible: [None]. *)

Definition bytes := list Z.

Notation "'UB'" := (@None _) (only parsing).

(** [sub b off n]: the [n] octets at [off] (a pointer read or a span view). *)
Definition sub (b : bytes) (off n : nat) : option bytes :=
  if decide (off + n ≤ length b) then Some (take n (drop off b)) else UB.

(** [memcpy b off src]: copy [src] into [b] at [off]. *)
Definition memcpy (b : bytes) (off : nat) (src : bytes) : option bytes :=
  if decide (off + length src ≤ length b)
  then Some (take off b ++ src ++ drop (off + length src) b) else UB.

Lemma length_sub b off n r : sub b off n = Some r → length r = n.
Proof.
  unfold sub. case_decide; [|done]. intros [= <-].
  rewrite length_take, length_drop. lia.
Qed.

Lemma sub_Some b off n :
  off + n ≤ length b → sub b off n = Some (take n (drop off b)).
Proof. intros. unfold sub. by rewrite decide_True. Qed.

(** The octets at [off] of a buffer that is a known concatenation. *)
Lemma sub_app_here (pre x post : bytes) off n :
  off = length pre → n = length x → sub (pre ++ x ++ post) off n = Some x.
Proof.
  intros -> ->. rewrite sub_Some by (rewrite !length_app; lia).
  rewrite drop_app_length, take_app_length. done.
Qed.

Lemma sub_skip (pre rest : bytes) off n :
  length pre ≤ off → sub (pre ++ rest) off n = sub rest (off - length pre) n.
Proof.
  intros. unfold sub. rewrite drop_app_ge by lia. rewrite length_app.
  destruct (decide (off - length pre + n ≤ length rest)).
  - by rewrite decide_True by lia.
  - by rewrite decide_False by lia.
Qed.

Lemma sub_first (x post : bytes) off n :
  off = 0 → n = length x → sub (x ++ post) off n = Some x.
Proof. intros -> ->. by apply (sub_app_here []). Qed.

Lemma sub_last (x : bytes) off n : off = 0 → n = length x → sub x off n = Some x.
Proof. intros. rewrite <- (app_nil_r x) at 1. by apply sub_first. Qed.

Lemma memcpy_Some b off src :
  off + length src ≤ length b →
  memcpy b off src = Some (take off b ++ src ++ drop (off + length src) b).
Proof. intros. unfold memcpy. by rewrite decide_True. Qed.

Lemma length_memcpy b off src b' :
  memcpy b off src = Some b' → length b' = length b.
Proof.
  unfold memcpy. case_decide; [|done]. intros [= <-].
  rewrite !length_app, length_take, length_drop. lia.
Qed.

(** Two adjacent writes are one write of the concatenation. *)
Lemma memcpy_app b off s1 s2 :
  memcpy b off (s1 ++ s2) =
  (b' ← memcpy b off s1; memcpy b' (off + length s1) s2).
Proof.
  destruct (decide (off + length s1 ≤ length b)) as [H1|H1].
  - rewrite (memcpy_Some b off s1) by done; simpl. unfold memcpy.
    assert (length (take off b ++ s1) = off + length s1) as Hl
      by (rewrite length_app, length_take; lia).
    assert (length (take off b ++ s1 ++ drop (off + length s1) b) = length b) as ->
      by (rewrite !length_app, length_take, length_drop; lia).
    rewrite length_app. destruct (decide (off + length s1 + length s2 ≤ length b)) as [H2|H2].
    + rewrite decide_True by lia. f_equal.
      rewrite (app_assoc (take off b) s1 (drop _ b)).
      rewrite <- Hl, take_app_length, <- app_assoc.
      rewrite drop_app_ge by lia. rewrite drop_drop, <- app_assoc.
      rewrite Hl. do 4 f_equal. lia.
    + by rewrite decide_False by lia.
  - unfold memcpy. rewrite length_app. by rewrite !decide_False by lia.
Qed.

Lemma memcpy_nil b off : off ≤ length b → memcpy b off [] = Some b.
Proof.
  intros. rewrite memcpy_Some by (simpl; lia).
  simpl. by rewrite Nat.add_0_r, take_drop.
Qed.

(** A write right after a known prefix extends the prefix. *)
Lemma memcpy_step (pre rest : bytes) off src :
  off = length pre → length src ≤ length rest →
  memcpy (pre ++ rest) off src = Some ((pre ++ src) ++ drop (length src) rest).
Proof.
  intros -> Hl. rewrite memcpy_Some by (rewrite length_app; lia).
  rewrite take_app_length, <- app_assoc. do 3 f_equal.
  rewrite drop_app_ge by lia. f_equal. lia.
Qed.

(** ** Generic list facts *)

Lemma take_drop_middle_app {A} (l : list A) i n :
  take i l ++ take n (drop i l) ++ drop (i + n) l = l.
Proof.
  rewrite <- drop_drop, (take_drop n (drop i l)). apply take_drop.
Qed.

Lemma foldr_andb_true {A} (f : A → bool) (l : list A) :
  forallb f l = true ↔ ∀ x, x ∈ l → f x = true.
Proof.
  rewrite forallb_forall. by setoid_rewrite list_elem_of_In.
Qed.

(** ** Tactics *)

(** Destruct every guard of an early-return function in the goal. *)
Ltac guards :=
  repeat (case_decide || case_bool_decide || case_match); simplify_eq/=.

(** Solve length side conditions of buffers. *)
Ltac blen :=
  repeat match goal with
  | H : sub _ _ _ = Some _ |- _ => apply length_sub in H
  | H : memcpy _ _ _ = Some _ |- _ => apply length_memcpy in H
  end;
  rewrite ?length_app, ?length_take, ?length_drop, ?length_cons, ?length_nil,
    ?length_replicate in *; simpl; try lia.

(** Equality of applications that differ in lengths. *)
Ltac lfeq := repeat (lia || reflexivity || f_equal).
