(* ===== verification/Bytes.v ===== *)
(** * Core: error carriers and little-endian memory access

    [include/crowdy/core/result.hpp] ([Errc], [Status], [Result]) and
    [include/crowdy/core/bytes.hpp] (the [le] namespace). A pointer access is a
    [sub] or a [memcpy] on the buffer it points into, so an access past the
    end of the buffer is [UB]. *)

From S2P Require Import Prelude.

(** ** core/result.hpp *)

Inductive Errc : Set :=
| Ok | InvalidArgument | BufferTooSmall | Malformed | HmacMismatch | NotConnected
| SocketError | Timeout | TokenExpired | Rejected | Closed | CryptoUnavailable
| WouldBlock | Cancelled.

#[global] Instance Errc_eq_dec : EqDecision Errc.
Proof. solve_decision. Defined.

(** [Status] is an error code; [Ok] means success. *)
Definition Status := Errc.
Definition ok (st : Status) : bool := bool_decide (st = Ok).

Inductive Result (A : Type) : Type :=
| Val (a : A)
| Err (e : Errc).
Arguments Val {A} _.
Arguments Err {A} _.

Definition Result_ok {A} (r : Result A) : bool :=
  match r with Val _ => true | Err _ => false end.

(** [Result::error]: [Ok] when the result holds a value. *)
Definition Result_error {A} (r : Result A) : Errc :=
  match r with Val _ => Ok | Err e => e end.

Lemma ok_true st : ok st = true ↔ st = Ok.
Proof. unfold ok. by rewrite bool_decide_eq_true. Qed.

Lemma Some_Val_inj {A B} (a a' : A) (b b' : B) :
  Some (a, Val b) = Some (a', Val b') → a' = a ∧ b' = b.
Proof. intros [=]. by subst. Qed.

(** ** core/bytes.hpp *)

Module le.

(** [dst[i] = (v >> (8 * i)) & 0xff] for [i < n]. *)
Definition octets (n : nat) (v : Z) : bytes :=
  (λ i : nat, u8 (Z.land (Z.shiftr v (8 * Z.of_nat i)) 255)) <$> seq 0 n.

(** [for (i = n-1; i >= 0; --i) v = (v << 8) | src[i]] in a [w]-bit register. *)
Definition value (w : Z) (src : bytes) : Z :=
  foldr (λ x v, wrapU w (Z.lor (Z.shiftl v 8) x)) 0%Z src.

#[global] Arguments octets : simpl never.
#[global] Arguments value : simpl never.

Definition writeU16 (b : bytes) (off : nat) (v : Z) : option bytes :=
  memcpy b off [u8 (Z.land v 255); u8 (Z.land (Z.shiftr v 8) 255)].
Definition writeU32 (b : bytes) (off : nat) (v : Z) : option bytes :=
  memcpy b off (octets 4 v).
Definition writeU64 (b : bytes) (off : nat) (v : Z) : option bytes :=
  memcpy b off (octets 8 v).
Definition writeI16 (b : bytes) (off : nat) (v : Z) : option bytes :=
  writeU16 b off (u16 v).
Definition writeI64 (b : bytes) (off : nat) (v : Z) : option bytes :=
  writeU64 b off (u64 v).
(** A [float] or [double] is modelled by its IEEE bit pattern: the code only
    moves the bits. *)
Definition writeF32 (b : bytes) (off : nat) (bits : Z) : option bytes :=
  writeU32 b off bits.
Definition writeF64 (b : bytes) (off : nat) (bits : Z) : option bytes :=
  writeU64 b off bits.

Definition readU8 (b : bytes) (off : nat) : option Z :=
  s ← sub b off 1; head s.
Definition readU16 (b : bytes) (off : nat) : option Z :=
  s ← sub b off 2;
  match s with
  | [x0; x1] => Some (u16 (Z.lor x0 (Z.shiftl x1 8)))
  | _ => UB
  end.
Definition readU32 (b : bytes) (off : nat) : option Z :=
  s ← sub b off 4; Some (value 32 s).
Definition readU64 (b : bytes) (off : nat) : option Z :=
  s ← sub b off 8; Some (value 64 s).
Definition readI16 (b : bytes) (off : nat) : option Z :=
  v ← readU16 b off; Some (i16 v).
Definition readI64 (b : bytes) (off : nat) : option Z :=
  v ← readU64 b off; Some (i64 v).
Definition readF32 (b : bytes) (off : nat) : option Z := readU32 b off.
Definition readF64 (b : bytes) (off : nat) : option Z := readU64 b off.

(** ** Octets of a value *)

Lemma length_octets n v : length (octets n v) = n.
Proof. unfold octets. by rewrite length_fmap, length_seq. Qed.

Lemma octet_mod v : u8 (Z.land v 255) = (v `mod` 256)%Z.
Proof.
  change 255%Z with (Z.ones 8). rewrite Z.land_ones by lia.
  by apply Z.mod_mod.
Qed.

Lemma octets_S n v : octets (S n) v = u8 (Z.land v 255) :: octets n (Z.shiftr v 8).
Proof.
  unfold octets. cbn [seq fmap list_fmap]. f_equal.
  rewrite <- fmap_S_seq, <- list_fmap_compose. apply list_fmap_ext.
  intros i x _. simpl. rewrite Z.shiftr_shiftr by lia. do 3 f_equal. lia.
Qed.

Lemma octets_bytes n v : Forall is_byte (octets n v).
Proof. apply Forall_fmap, Forall_true. intros; simpl. apply wrapU_range; lia. Qed.

Lemma octets_2 v :
  [u8 (Z.land v 255); u8 (Z.land (Z.shiftr v 8) 255)] = octets 2 v.
Proof. reflexivity. Qed.

Lemma lor_shiftl_add k a r :
  (0 ≤ k)%Z → (0 ≤ r < 2 ^ k)%Z → Z.lor (Z.shiftl a k) r = (2 ^ k * a + r)%Z.
Proof.
  intros Hk Hr. assert (Z.land (Z.shiftl a k) r = 0%Z) as H0.
  { apply Z.bits_inj'. intros i Hi. rewrite Z.land_spec, Z.bits_0.
    destruct (decide (i < k)%Z).
    - by rewrite Z.shiftl_spec_low by lia.
    - rewrite (proj1 (Z.bounded_iff_bits_nonneg k r Hk ltac:(lia)) ltac:(lia) i) by lia.
      apply andb_false_r. }
  rewrite <- (Z.add_nocarry_lor _ _ H0), Z.shiftl_mul_pow2 by lia. lia.
Qed.

Lemma lor_shift_add a r :
  (0 ≤ r < 256)%Z → Z.lor (Z.shiftl a 8) r = (256 * a + r)%Z.
Proof. intros. by apply (lor_shiftl_add 8). Qed.

Lemma value_nil w : value w [] = 0%Z.
Proof. reflexivity. Qed.
Lemma value_cons w x l : value w (x :: l) = wrapU w (Z.lor (Z.shiftl (value w l) 8) x).
Proof. reflexivity. Qed.

(** Reading the octets of [v] gives [v] modulo their width. *)
Lemma value_octets w n v :
  (8 * Z.of_nat n ≤ w)%Z → value w (octets n v) = (v `mod` 2 ^ (8 * Z.of_nat n))%Z.
Proof.
  revert v; induction n as [|n IH]; intros v Hw; [by rewrite Z.mod_1_r|].
  rewrite octets_S, value_cons.
  rewrite IH, octet_mod, lor_shift_add by (try apply Z.mod_pos_bound; lia).
  rewrite Z.shiftr_div_pow2 by lia. change (2 ^ 8)%Z with 256%Z.
  replace (8 * Z.of_nat (S n))%Z with (8 + 8 * Z.of_nat n)%Z by lia.
  rewrite Z.pow_add_r by lia. change (2 ^ 8)%Z with 256%Z.
  rewrite Z.rem_mul_r by (try apply Z.pow_pos_nonneg; lia).
  rewrite Z.add_comm. apply wrapU_id. unfold in_u.
  pose proof (Z.mod_pos_bound v 256 ltac:(lia)).
  assert (0 < 2 ^ (8 * Z.of_nat n))%Z as Hp by (apply pow2_pos; lia).
  pose proof (Z.mod_pos_bound (v / 256) (2 ^ (8 * Z.of_nat n)) Hp).
  assert (256 * 2 ^ (8 * Z.of_nat n) ≤ 2 ^ w)%Z; [|lia].
  change 256%Z with (2 ^ 8)%Z. rewrite <- Z.pow_add_r by lia.
  apply Z.pow_le_mono_r; lia.
Qed.

Lemma value_range w l : (0 ≤ w)%Z → in_u w (value w l).
Proof.
  intros. destruct l; [|rewrite value_cons; by apply wrapU_range].
  rewrite value_nil. unfold in_u. pose proof (pow2_pos w). lia.
Qed.

(** Without the register's wrap-around: each octet shifts the rest by 8 bits. *)
Lemma value_cons_byte w x l :
  is_byte x → (8 * Z.of_nat (S (length l)) ≤ w)%Z → Forall is_byte l →
  value w (x :: l) = (256 * value w l + x)%Z ∧
  in_u (8 * Z.of_nat (S (length l))) (value w (x :: l)).
Proof.
  revert x; induction l as [|y l IH]; intros x Hx Hw Hl.
  - rewrite value_cons, value_nil, lor_shift_add by done.
    unfold is_byte, in_u in *. change (2 ^ 8)%Z with 256%Z in Hx.
    assert (2 ^ 8 ≤ 2 ^ w)%Z by (apply Z.pow_le_mono_r; simpl in Hw; lia).
    unfold wrapU. rewrite Z.mod_small by lia. simpl. lia.
  - apply Forall_cons_1 in Hl as [Hy Hl]. simpl length in Hw.
    destruct (IH y Hy ltac:(lia) Hl) as [_ Hr].
    rewrite value_cons, lor_shift_add by done.
    assert (2 ^ (8 * Z.of_nat (S (length (y :: l)))) ≤ 2 ^ w)%Z as Hp
      by (apply Z.pow_le_mono_r; simpl length; lia).
    replace (8 * Z.of_nat (S (length (y :: l))))%Z
      with (8 + 8 * Z.of_nat (S (length l)))%Z in * by (simpl length; lia).
    rewrite Z.pow_add_r in Hp by lia. unfold is_byte, in_u in *.
    rewrite Z.pow_add_r by lia. change (2 ^ 8)%Z with 256%Z in *.
    unfold wrapU. rewrite Z.mod_small by lia. lia.
Qed.

(** Writing back the value of octets that were read gives the octets. *)
Lemma octets_value w l :
  Forall is_byte l → (8 * Z.of_nat (length l) ≤ w)%Z → octets (length l) (value w l) = l.
Proof.
  induction 1 as [|x l Hx Hl IH]; intros Hw; [done|].
  simpl length in *. rewrite octets_S, octet_mod.
  destruct (value_cons_byte w x l Hx Hw Hl) as [-> _].
  unfold is_byte, in_u in Hx. change (2 ^ 8)%Z with 256%Z in Hx.
  rewrite Z.shiftr_div_pow2 by lia. change (2 ^ 8)%Z with 256%Z.
  rewrite (Z.mul_comm 256), Z.div_add_l, (Z.div_small x), Z.add_0_r by lia.
  rewrite Z.add_comm, Z.mod_add, Z.mod_small by lia. f_equal. apply IH. lia.
Qed.

Lemma value_pair x0 x1 :
  is_byte x1 → value 16 [x0; x1] = u16 (Z.lor x0 (Z.shiftl x1 8)).
Proof.
  intros. rewrite !value_cons, value_nil. rewrite Z.shiftl_0_l, Z.lor_0_l, Z.lor_comm.
  do 3 f_equal. apply wrapU_id. unfold is_byte, in_u in *. lia.
Qed.

(** ** Reading the fields of a concatenation: skip to a field, read it *)

Section Skip.
Context (pre rest : bytes) (off : nat).
Hypothesis Hoff : length pre ≤ off.

Lemma readU8_skip : readU8 (pre ++ rest) off = readU8 rest (off - length pre).
Proof. unfold readU8. by rewrite sub_skip. Qed.
Lemma readU16_skip : readU16 (pre ++ rest) off = readU16 rest (off - length pre).
Proof. unfold readU16. by rewrite sub_skip. Qed.
Lemma readU32_skip : readU32 (pre ++ rest) off = readU32 rest (off - length pre).
Proof. unfold readU32. by rewrite sub_skip. Qed.
Lemma readU64_skip : readU64 (pre ++ rest) off = readU64 rest (off - length pre).
Proof. unfold readU64. by rewrite sub_skip. Qed.
Lemma readI16_skip : readI16 (pre ++ rest) off = readI16 rest (off - length pre).
Proof. unfold readI16. by rewrite readU16_skip. Qed.
Lemma readI64_skip : readI64 (pre ++ rest) off = readI64 rest (off - length pre).
Proof. unfold readI64. by rewrite readU64_skip. Qed.
End Skip.

Section First.
Context (post : bytes) (off : nat).
Hypothesis Hoff : off = 0.

Lemma readU8_first v : readU8 ([v] ++ post) off = Some v.
Proof. unfold readU8. by rewrite sub_first. Qed.

Lemma readU16_first v : readU16 (octets 2 v ++ post) off = Some (u16 v).
Proof.
  unfold readU16. rewrite sub_first by done.
  transitivity (Some (value 16 (octets 2 v))); [|by rewrite value_octets].
  pose proof (octets_bytes 2 v) as Hb. pose proof (length_octets 2 v) as Hl. revert Hl Hb.
  destruct (octets 2 v) as [|x0 [|x1 [|]]]; try done.
  intros _ [_ [Hx _]%Forall_cons_1]%Forall_cons_1. cbn [mbind option_bind]. f_equal.
  by rewrite value_pair.
Qed.

Lemma readU32_first v : readU32 (octets 4 v ++ post) off = Some (u32 v).
Proof.
  unfold readU32. rewrite sub_first by (rewrite ?length_octets; done). simpl.
  by rewrite value_octets by lia.
Qed.

Lemma readU64_first v : readU64 (octets 8 v ++ post) off = Some (u64 v).
Proof.
  unfold readU64. rewrite sub_first by (rewrite ?length_octets; done). simpl.
  by rewrite value_octets by lia.
Qed.

Lemma readI16_first v :
  in_s 16 v → readI16 (octets 2 (u16 v) ++ post) off = Some v.
Proof.
  intros. unfold readI16. rewrite readU16_first. simpl.
  by rewrite wrapU_idemp, wrapS_wrapU, wrapS_id by done.
Qed.

Lemma readI64_first v :
  in_s 64 v → readI64 (octets 8 (u64 v) ++ post) off = Some v.
Proof.
  intros. unfold readI64. rewrite readU64_first. simpl.
  by rewrite wrapU_idemp, wrapS_wrapU, wrapS_id by done.
Qed.
End First.

(** ** Reads inside the buffer are defined *)

Lemma readU8_Some b off : off < length b → ∃ v, readU8 b off = Some v.
Proof.
  intros. unfold readU8. rewrite sub_Some by lia. simpl.
  destruct (drop off b) as [|x l] eqn:E; [|by eauto].
  apply (f_equal length) in E. rewrite length_drop in E. simpl in E. lia.
Qed.

Lemma readU16_Some b off : off + 2 ≤ length b → ∃ v, readU16 b off = Some v ∧ in_u 16 v.
Proof.
  intros. unfold readU16. rewrite sub_Some by done. simpl.
  pose proof (length_drop b off) as Hl.
  destruct (drop off b) as [|x [|y l]]; simpl in *; [lia|lia|].
  eexists; split; [done|]. apply wrapU_range; lia.
Qed.

(** What [readU16] reads determines the two octets it read. *)
Lemma readU16_octets b off v :
  Forall is_byte b → readU16 b off = Some v → sub b off 2 = Some (octets 2 v).
Proof.
  intros Hb. unfold readU16. destruct (sub b off 2) as [s|] eqn:E; [|done].
  assert (Forall is_byte s) as Hs.
  { unfold sub in E. case_decide; simplify_eq. by apply Forall_take, Forall_drop. }
  apply length_sub in E as Hl. destruct s as [|x0 [|x1 [|]]]; try done.
  cbn [mbind option_bind]. intros [= <-]. f_equal.
  rewrite <- value_pair by by apply (Forall_lookup_1 _ _ 1 _ Hs).
  symmetry. by apply (octets_value 16 [x0; x1]).
Qed.

Lemma readU32_Some b off : off + 4 ≤ length b → ∃ v, readU32 b off = Some v.
Proof. intros. unfold readU32. rewrite sub_Some by done. simpl. by eauto. Qed.

Lemma readU64_Some b off : off + 8 ≤ length b → ∃ v, readU64 b off = Some v.
Proof. intros. unfold readU64. rewrite sub_Some by done. simpl. by eauto. Qed.

Lemma readI16_Some b off : off + 2 ≤ length b → ∃ v, readI16 b off = Some v.
Proof. intros. unfold readI16. destruct (readU16_Some b off) as (v&->&_); simpl; eauto. Qed.

Lemma readI64_Some b off : off + 8 ≤ length b → ∃ v, readI64 b off = Some v.
Proof. intros. unfold readI64. destruct (readU64_Some b off) as (v&->); simpl; eauto. Qed.
End le.

#[export] Hint Rewrite le.length_octets : crowdy.

(** [rdf len]: read one field of a right-nested concatenation of octets; [len] solves the
    length side conditions. *)
Ltac rdf len :=
  rewrite <- ?app_assoc;
  repeat first
    [ rewrite le.readU8_skip by len | rewrite le.readU16_skip by len
    | rewrite le.readU32_skip by len | rewrite le.readU64_skip by len
    | rewrite le.readI16_skip by len | rewrite le.readI64_skip by len
    | rewrite sub_skip by len ];
  first
    [ apply le.readU8_first; len | apply le.readU16_first; len
    | apply le.readU32_first; len | apply le.readU64_first; len
    | apply le.readI16_first; [len|assumption] | apply le.readI64_first; [len|assumption]
    | apply sub_first; len | apply sub_last; len ].
