(* ===== verification/Protocol.v ===== *)
(** * Wire protocol constants and classification

    [include/crowdy/wire/protocol.hpp]. A C++ [enum class] with a fixed
    underlying type holds any value of that type (the parsers cast raw octets
    to it), so an opcode, an error code or a decay rate is its octet and the
    enumerators are named constants. Sizes and offsets are [nat]. *)

From S2P Require Import Prelude.

(** ** MessageType *)

Definition BadMessage : Z := 0.
Definition MessageBundle : Z := 2.
Definition GenericErrorMsg : Z := 3.
Definition ChannelMessageRequest : Z := 17.
Definition ChannelMessageNotification : Z := 18.
Definition ChannelMessageRangedRequest : Z := 32.
Definition ChannelAudioRequest : Z := 35.
Definition ChannelAudioNotification : Z := 36.
Definition CommandReconnect : Z := 22.
Definition ClientActorHeartbeat : Z := 26.
Definition ClientCapabilities : Z := 29.
Definition MessageBundleSigned : Z := 30.
Definition ActorUpdateRequest : Z := 128.
Definition ActorUpdateNotification : Z := 130.
Definition VoxelUpdateRequest : Z := 131.
Definition VoxelUpdateNotification : Z := 133.
Definition ClientAudioPacket : Z := 134.
Definition ClientAudioNotification : Z := 135.
Definition ClientTextPacket : Z := 136.
Definition ClientTextNotification : Z := 137.
Definition ClientEventNotification : Z := 138.
Definition ServerEventNotification : Z := 139.
Definition GenericSpatial1 : Z := 140.
Definition SingleActorMessage : Z := 142.
Definition ClientVideoPacket : Z := 143.
Definition ClientVideoNotification : Z := 144.
Definition ActorLeftNotification : Z := 145.

(** ** ErrorCode (the two codes the client acts on) *)

Definition ErrorCode_Unauthorized : Z := 7.
Definition ErrorCode_TokenExpired : Z := 32.

(** ** DecayRate *)

Definition DecayRate_None : Z := 0.
Definition DecayRate_Exponential : Z := 1.

(** ** Classification *)

Definition kSpatialTypeBit : Z := 128.

Definition isSpatialType (t : Z) : bool := negb (Z.land t kSpatialTypeBit =? 0)%Z.

Definition ClientCapability_kBundleSigned : Z := Z.shiftl 1 0.
Definition ClientCapability_kAll : Z := ClientCapability_kBundleSigned.

Definition isLongSpatialLayout (t : Z) : bool :=
  ((128 <=? t)%Z && (t <=? 140)%Z) || ((142 <=? t)%Z && (t <=? 145)%Z) ||
  (t =? ClientActorHeartbeat)%Z || (t =? ClientCapabilities)%Z.

Definition isServerOnlySpatialType (t : Z) : bool :=
  (t =? 130)%Z || (t =? 133)%Z || (t =? 135)%Z || (t =? 137)%Z || (t =? 139)%Z ||
  (t =? 144)%Z || (t =? 145)%Z.

(** [(payloadLen >= 1 && payload[0] == 1) ? 1 : 0]. *)
Definition actorLeftReason (payload : bytes) : Z :=
  match payload with
  | x :: _ => if (x =? 1)%Z then 1 else 0
  | [] => 0
  end.

(** ** Long form spatial layout *)

Definition offsets_kType : nat := 0.
Definition offsets_kAppId : nat := 1.
Definition offsets_kChunkX : nat := 9.
Definition offsets_kChunkY : nat := 17.
Definition offsets_kChunkZ : nat := 25.
Definition offsets_kDistance : nat := 33.
Definition offsets_kDecay : nat := 34.
Definition offsets_kContainsAuth : nat := 35.
Definition offsets_kUuid : nat := 36.
Definition offsets_kPayload : nat := 68.

Definition kUuidSize : nat := 32.
Definition kHmacTagSize : nat := 32.
Definition kTokenOctets : nat := 64.
Definition kLongSpatialHeaderSize : nat := offsets_kPayload.
Definition kTailNoHmac : nat := 8 + 1.
Definition kTailWithHmac : nat := kHmacTagSize + kTailNoHmac.
Definition kMinLongSpatialNoHmac : nat := kLongSpatialHeaderSize + kTailNoHmac.
Definition kMinLongSpatialWithHmac : nat := kLongSpatialHeaderSize + kTailWithHmac.
Definition kMaxDatagramSize : nat := 1232.
Definition kMaxLongSpatialPayload : nat :=
  kMaxDatagramSize - kLongSpatialHeaderSize - kTailWithHmac.

Definition kGenericErrorSize : nat := 3.
Definition kCommandReconnectSize : nat := 1 + kHmacTagSize.

(** ** Channel messages *)

Definition channel_kHeaderSize : nat := 1 + 8 + kUuidSize + 2.
Definition channel_kChannelIdOffset : nat := 1.
Definition channel_kUuidOffset : nat := 9.
Definition channel_kPayloadLenOffset : nat := 41.
Definition channel_kPayloadOffset : nat := channel_kHeaderSize.
Definition channel_kRequestTailSize : nat := 1 + kHmacTagSize + 8 + 1.
Definition channel_kNotificationTailSize : nat := 8 + 1.
Definition channel_kMinRequestSize : nat := channel_kHeaderSize + channel_kRequestTailSize.
Definition channel_kMinNotificationSize : nat :=
  channel_kHeaderSize + channel_kNotificationTailSize.
Definition channel_kMaxPayload : nat := 1024.

Definition channel_ranged_kAppIdOffset : nat := 41.
Definition channel_ranged_kChunkXOffset : nat := 49.
Definition channel_ranged_kChunkYOffset : nat := 57.
Definition channel_ranged_kChunkZOffset : nat := 65.
Definition channel_ranged_kMaxDistanceOffset : nat := 73.
Definition channel_ranged_kPayloadLenOffset : nat := 77.
Definition channel_ranged_kHeaderSize : nat := 79.
Definition channel_ranged_kPayloadOffset : nat := channel_ranged_kHeaderSize.
Definition channel_ranged_kMinRequestSize : nat :=
  channel_ranged_kHeaderSize + channel_kRequestTailSize.
Definition channel_ranged_kMaxDistance : Z := 2147483647.

(** ** Event and voxel payloads *)

Definition kEventTypeSize : nat := 2.

Definition voxel_kFixedSize : nat := 10.
Definition voxel_kXOffset : nat := 0.
Definition voxel_kYOffset : nat := 2.
Definition voxel_kZOffset : nat := 4.
Definition voxel_kTypeOffset : nat := 6.
Definition voxel_kStateLenOffset : nat := 8.
Definition voxel_kStateOffset : nat := 10.
Definition voxel_kMaxStateSize : nat := 1024.

(** Unfold every size and offset of the protocol. *)
Ltac sizes :=
  unfold kMinLongSpatialNoHmac, kMinLongSpatialWithHmac, kMaxLongSpatialPayload,
    kCommandReconnectSize, kGenericErrorSize,
    channel_kMinNotificationSize, channel_kMinRequestSize, channel_kPayloadOffset,
    channel_kHeaderSize, channel_kRequestTailSize, channel_kNotificationTailSize,
    channel_kChannelIdOffset, channel_kUuidOffset, channel_kPayloadLenOffset,
    channel_kMaxPayload, channel_ranged_kMinRequestSize, channel_ranged_kPayloadOffset,
    channel_ranged_kHeaderSize, channel_ranged_kAppIdOffset, channel_ranged_kChunkXOffset,
    channel_ranged_kChunkYOffset, channel_ranged_kChunkZOffset,
    channel_ranged_kMaxDistanceOffset, channel_ranged_kPayloadLenOffset,
    kLongSpatialHeaderSize, kTailWithHmac, kTailNoHmac, kMaxDatagramSize, kUuidSize,
    kHmacTagSize, kTokenOctets, offsets_kType, offsets_kAppId, offsets_kChunkX,
    offsets_kChunkY, offsets_kChunkZ, offsets_kDistance, offsets_kDecay,
    offsets_kContainsAuth, offsets_kUuid, offsets_kPayload, kEventTypeSize,
    voxel_kFixedSize, voxel_kXOffset, voxel_kYOffset, voxel_kZOffset, voxel_kTypeOffset,
    voxel_kStateLenOffset, voxel_kStateOffset, voxel_kMaxStateSize in *.

(** ** Facts about the classification *)

(** The long-spatial layout is the spatial opcodes but the reserved 141 and those past
    145, plus the two client control opcodes that reuse it. *)
Lemma isLongSpatialLayout_spec t :
  in_u 8 t →
  isLongSpatialLayout t = true ↔
  (isSpatialType t = true ∧ (t ≤ 145)%Z ∧ t ≠ 141%Z) ∨
  t = ClientActorHeartbeat ∨ t = ClientCapabilities.
Proof.
  intros Ht. unfold isLongSpatialLayout, isSpatialType, kSpatialTypeBit.
  assert (Z.land t 128 = 0 ↔ t < 128)%Z as Hbit.
  { unfold in_u in Ht. change (2 ^ 8)%Z with 256%Z in Ht.
    change 128%Z with (2 ^ 7)%Z at 1. rewrite Z.land_comm.
    split; intros H.
    - destruct (decide (t < 128)%Z); [done|]. exfalso.
      assert (Z.testbit t 7 = true) as Hb.
      { rewrite Z.testbit_true by lia. change (2 ^ 7)%Z with 128%Z.
        replace (t / 128)%Z with 1%Z by (apply Z.div_unique with (t - 128)%Z; lia). done. }
      apply (f_equal (λ z, Z.testbit z 7)) in H.
      rewrite Z.land_spec, Hb, Z.bits_0 in H. done.
    - apply Z.bits_inj'. intros i Hi. rewrite Z.land_spec, Z.bits_0, Z.pow2_bits_eqb by lia.
      destruct (Z.eqb_spec 7 i) as [<-|]; [|done]. rewrite andb_true_l.
      rewrite Z.testbit_false by lia. change (2 ^ 7)%Z with 128%Z.
      rewrite Z.div_small by lia. done. }
  unfold ClientActorHeartbeat, ClientCapabilities, in_u in *.
  rewrite negb_true_iff, Z.eqb_neq, Hbit, !orb_true_iff, !andb_true_iff,
    !Z.leb_le, !Z.eqb_eq. lia.
Qed.
