(* ===== verification/Codec.v ===== *)
(** * Wire codec

    [include/crowdy/wire/codec.hpp] (the messages; the bundle framing is in
    [Bundle.v]). An encoder gets the caller's buffer, returns it as it leaves it,
    and its [Result]; a parser reads the datagram. An access outside the buffer
    is [UB], so "never [UB]" is memory safety. The crypto provider
    ([core/crypto.hpp], OpenSSL or an engine's own) is a parameter: the record
    [ICrypto], with the provider contract in the class [CryptoLaws]. *)

From S2P Require Import Prelude Bytes Protocol.

(** ** Crypto provider interface *)

(** [IMac::compute]: the MAC over the concatenation of the parts, [None] when
    the provider fails ([false]). *)
Record IMac := { compute : list bytes → option bytes }.

(** [ICrypto]. A [bool] method with an [out] parameter is an [option]. *)
Record ICrypto := {
  availability : Status;
  hmacSha256 : bytes → bytes → option bytes;
  makeHmacSha256 : bytes → option IMac;
  constantTimeEquals : bytes → bytes → bool;
  randomBytes : nat → option bytes;
}.

(** The documented contract of a provider: tags are 32 octets, a pre-keyed MAC
    gives the tag of the one-shot call on the concatenation, and comparison of
    equally long tags is equality. *)
Class CryptoLaws (c : ICrypto) : Prop := {
  hmac_length key msg tag : hmacSha256 c key msg = Some tag → length tag = kHmacTagSize;
  mac_compute key m parts :
    makeHmacSha256 c key = Some m → compute m parts = hmacSha256 c key (concat parts);
  cte_equal a b : length a = length b → constantTimeEquals c a b = bool_decide (a = b);
}.

(** ** Data *)

Record ChunkCoord := mkChunk { cx : Z; cy : Z; cz : Z }.

#[global] Instance ChunkCoord_eq_dec : EqDecision ChunkCoord.
Proof. solve_decision. Defined.
#[global] Instance ChunkCoord_countable : Countable ChunkCoord.
Proof.
  refine (inj_countable' (λ c, (cx c, cy c, cz c)) (λ t, mkChunk t.1.1 t.1.2 t.2) _).
  by intros [].
Defined.

Definition coord_ok (c : ChunkCoord) : Prop := in_s 64 (cx c) ∧ in_s 64 (cy c) ∧ in_s 64 (cz c).

Record LongSpatialParams := {
  p_type : Z; p_appId : Z; p_chunk : ChunkCoord; p_distance : Z; p_decay : Z;
  p_uuid : bytes; p_payload : bytes; p_gameTokenId : Z; p_sequence : Z;
}.

Record LongSpatialView := {
  v_type : Z; v_appId : Z; v_chunk : ChunkCoord; v_distance : Z; v_decay : Z;
  v_containsAuth : bool; v_uuid : bytes; v_payload : bytes;
  v_epochMillisOrTokenId : Z; v_sequence : Z;
}.

Record VoxelPayloadView := {
  vx : Z; vy : Z; vz : Z; v_voxelType : Z; v_state : bytes;
}.

Record EventPayloadView := { e_eventType : Z; e_state : bytes }.

Record ChannelMessageParams := {
  c_channelId : Z; c_uuid : bytes; c_payload : bytes; c_gameTokenId : Z; c_sequence : Z;
}.

Record RangedChannelMessageParams := {
  r_channelId : Z; r_uuid : bytes; r_appId : Z; r_origin : ChunkCoord;
  r_maxDistance : Z; r_payload : bytes; r_gameTokenId : Z; r_sequence : Z;
}.

Record ChannelNotificationView := {
  n_channelId : Z; n_senderUuid : bytes; n_payload : bytes; n_epochMillis : Z;
  n_sequence : Z;
}.

Record GenericErrorView := { ge_sequence : Z; ge_code : Z }.

(** ** Token and HMAC *)

(** [Token64::fromString]: exactly 64 octets. *)
Definition Token64_fromString (s : bytes) : option bytes :=
  if decide (length s = kTokenOctets) then Some s else None.

(** [None] is the C++ [false]. *)
Definition spatialHmac (c : ICrypto) (prefix token : bytes) (mac : option IMac)
    : option bytes :=
  if decide (kMaxDatagramSize < length prefix) then None else
  match mac with
  | Some m => compute m [prefix; token]
  | None => hmacSha256 c token (prefix ++ token)
  end.

(** ** Long form spatial messages *)

Definition longSpatialSize (payloadLen : nat) (withHmac : bool) : nat :=
  kLongSpatialHeaderSize + payloadLen + (if withHmac then kTailWithHmac else kTailNoHmac).

Definition encodeLongSpatial (c : ICrypto) (p : LongSpatialParams) (token out : bytes)
    (mac : option IMac) : option (bytes * Result nat) :=
  if negb (isLongSpatialLayout (p_type p)) then Some (out, Err InvalidArgument) else
  if decide (kMaxLongSpatialPayload < length (p_payload p))
    then Some (out, Err InvalidArgument) else
  let total := longSpatialSize (length (p_payload p)) true in
  if decide (length out < total) then Some (out, Err BufferTooSmall) else
  if negb (ok (availability c)) then Some (out, Err (availability c)) else
  b ← memcpy out offsets_kType [u8 (p_type p)];
  b ← le.writeI64 b offsets_kAppId (p_appId p);
  b ← le.writeI64 b offsets_kChunkX (cx (p_chunk p));
  b ← le.writeI64 b offsets_kChunkY (cy (p_chunk p));
  b ← le.writeI64 b offsets_kChunkZ (cz (p_chunk p));
  b ← memcpy b offsets_kDistance [p_distance p];
  b ← memcpy b offsets_kDecay [u8 (p_decay p)];
  b ← memcpy b offsets_kContainsAuth [1%Z];
  b ← memcpy b offsets_kUuid (p_uuid p);
  b ← memcpy b offsets_kPayload (p_payload p);
  let prefixLen := kLongSpatialHeaderSize + length (p_payload p) in
  prefix ← sub b 0 prefixLen;
  match spatialHmac c prefix token mac with
  | None => Some (b, Err Malformed)
  | Some tag =>
      b ← memcpy b prefixLen tag;
      b ← le.writeI64 b (prefixLen + kHmacTagSize) (p_gameTokenId p);
      b ← memcpy b (total - 1) [p_sequence p];
      Some (b, Val total)
  end.

Definition parseLongSpatial (datagram : bytes) : option (Result LongSpatialView) :=
  if decide (length datagram < kMinLongSpatialNoHmac) then Some (Err Malformed) else
  t ← le.readU8 datagram offsets_kType;
  if negb (isLongSpatialLayout t) then Some (Err Malformed) else
  a ← le.readU8 datagram offsets_kContainsAuth;
  let auth := negb (a =? 0)%Z in
  let tail := if auth then kTailWithHmac else kTailNoHmac in
  if decide (length datagram < kLongSpatialHeaderSize + tail) then Some (Err Malformed) else
  appId ← le.readI64 datagram offsets_kAppId;
  x ← le.readI64 datagram offsets_kChunkX;
  y ← le.readI64 datagram offsets_kChunkY;
  z ← le.readI64 datagram offsets_kChunkZ;
  distance ← le.readU8 datagram offsets_kDistance;
  decay ← le.readU8 datagram offsets_kDecay;
  uuid ← sub datagram offsets_kUuid kUuidSize;
  payload ← sub datagram offsets_kPayload (length datagram - kLongSpatialHeaderSize - tail);
  epoch ← le.readI64 datagram (length datagram - kTailNoHmac);
  seq ← le.readU8 datagram (length datagram - 1);
  Some (Val {| v_type := t; v_appId := appId; v_chunk := mkChunk x y z;
               v_distance := distance; v_decay := decay; v_containsAuth := auth;
               v_uuid := uuid; v_payload := payload; v_epochMillisOrTokenId := epoch;
               v_sequence := seq |}).

Definition verifyLongSpatial (c : ICrypto) (datagram token : bytes) (mac : option IMac)
    : option Status :=
  if decide (length datagram < kMinLongSpatialNoHmac) then Some Malformed else
  a ← le.readU8 datagram offsets_kContainsAuth;
  if (a =? 0)%Z then Some Ok else
  if negb (ok (availability c)) then Some (availability c) else
  if decide (length datagram < kMinLongSpatialWithHmac) then Some Malformed else
  let prefixLen := length datagram - kTailWithHmac in
  prefix ← sub datagram 0 prefixLen;
  match spatialHmac c prefix token mac with
  | None => Some Malformed
  | Some expected =>
      found ← sub datagram prefixLen kHmacTagSize;
      if negb (constantTimeEquals c expected found) then Some HmacMismatch else
      Some Ok
  end.

Definition verifySignedBundle (c : ICrypto) (datagram token : bytes) (mac : option IMac)
    : option Status :=
  if decide (length datagram ≤ kHmacTagSize + 1) then Some Malformed else
  t ← le.readU8 datagram 0;
  if negb (t =? MessageBundleSigned)%Z then Some Malformed else
  if negb (ok (availability c)) then Some (availability c) else
  let bodyLen := length datagram - kHmacTagSize in
  body ← sub datagram 0 bodyLen;
  match spatialHmac c body token mac with
  | None => Some Malformed
  | Some expected =>
      found ← sub datagram bodyLen kHmacTagSize;
      if negb (constantTimeEquals c expected found) then Some HmacMismatch else
      Some Ok
  end.

(** ** Voxel and event payloads *)

Definition parseVoxelPayload (payload : bytes) : option (Result VoxelPayloadView) :=
  if decide (length payload < voxel_kFixedSize) then Some (Err Malformed) else
  x ← le.readI16 payload voxel_kXOffset;
  y ← le.readI16 payload voxel_kYOffset;
  z ← le.readI16 payload voxel_kZOffset;
  ty ← le.readI16 payload voxel_kTypeOffset;
  stateLen ← le.readU16 payload voxel_kStateLenOffset;
  let n := Z.to_nat stateLen in
  if decide (length payload < voxel_kFixedSize + n) then Some (Err Malformed) else
  state ← sub payload voxel_kStateOffset n;
  Some (Val {| vx := x; vy := y; vz := z; v_voxelType := ty; v_state := state |}).

Definition encodeVoxelPayload (x y z voxelType : Z) (state out : bytes)
    : option (bytes * Result nat) :=
  let total := voxel_kFixedSize + length state in
  if decide (length out < total) then Some (out, Err BufferTooSmall) else
  if (65535 <? Z.of_nat (length state))%Z then Some (out, Err InvalidArgument) else
  b ← le.writeI16 out voxel_kXOffset x;
  b ← le.writeI16 b voxel_kYOffset y;
  b ← le.writeI16 b voxel_kZOffset z;
  b ← le.writeI16 b voxel_kTypeOffset voxelType;
  b ← le.writeU16 b voxel_kStateLenOffset (u16 (Z.of_nat (length state)));
  b ← memcpy b voxel_kStateOffset state;
  Some (b, Val total).

Definition parseEventPayload (payload : bytes) : option (Result EventPayloadView) :=
  if decide (length payload < kEventTypeSize) then Some (Err Malformed) else
  ty ← le.readU16 payload 0;
  state ← sub payload kEventTypeSize (length payload - kEventTypeSize);
  Some (Val {| e_eventType := ty; e_state := state |}).

Definition encodeEventPayload (eventType : Z) (state out : bytes)
    : option (bytes * Result nat) :=
  let total := kEventTypeSize + length state in
  if decide (length out < total) then Some (out, Err BufferTooSmall) else
  b ← le.writeU16 out 0 eventType;
  b ← memcpy b kEventTypeSize state;
  Some (b, Val total).

(** ** Channel messages *)

Definition channelRequestSize (payloadLen : nat) : nat :=
  channel_kHeaderSize + payloadLen + channel_kRequestTailSize.

Definition encodeChannelRequest (type : Z) (c : ICrypto) (p : ChannelMessageParams)
    (token out : bytes) (mac : option IMac) : option (bytes * Result nat) :=
  if negb (type =? ChannelMessageRequest)%Z && negb (type =? ChannelAudioRequest)%Z
    then Some (out, Err InvalidArgument) else
  if decide (channel_kMaxPayload < length (c_payload p))
    then Some (out, Err InvalidArgument) else
  let total := channelRequestSize (length (c_payload p)) in
  if decide (length out < total) then Some (out, Err BufferTooSmall) else
  if negb (ok (availability c)) then Some (out, Err (availability c)) else
  b ← memcpy out 0 [u8 type];
  b ← le.writeI64 b channel_kChannelIdOffset (c_channelId p);
  b ← memcpy b channel_kUuidOffset (c_uuid p);
  b ← le.writeU16 b channel_kPayloadLenOffset (u16 (Z.of_nat (length (c_payload p))));
  b ← memcpy b channel_kPayloadOffset (c_payload p);
  let authOffset := channel_kPayloadOffset + length (c_payload p) in
  b ← memcpy b authOffset [1%Z];
  let prefixLen := authOffset + 1 in
  prefix ← sub b 0 prefixLen;
  match spatialHmac c prefix token mac with
  | None => Some (b, Err Malformed)
  | Some tag =>
      b ← memcpy b prefixLen tag;
      b ← le.writeI64 b (prefixLen + kHmacTagSize) (c_gameTokenId p);
      b ← memcpy b (total - 1) [c_sequence p];
      Some (b, Val total)
  end.

Definition encodeChannelMessage c p token out mac :=
  encodeChannelRequest ChannelMessageRequest c p token out mac.
Definition encodeChannelAudio c p token out mac :=
  encodeChannelRequest ChannelAudioRequest c p token out mac.

Definition rangedChannelRequestSize (payloadLen : nat) : nat :=
  channel_ranged_kHeaderSize + payloadLen + channel_kRequestTailSize.

Definition encodeRangedChannelMessage (c : ICrypto) (p : RangedChannelMessageParams)
    (token out : bytes) (mac : option IMac) : option (bytes * Result nat) :=
  if decide (channel_kMaxPayload < length (r_payload p))
    then Some (out, Err InvalidArgument) else
  if (channel_ranged_kMaxDistance <? r_maxDistance p)%Z
    then Some (out, Err InvalidArgument) else
  let total := rangedChannelRequestSize (length (r_payload p)) in
  if decide (length out < total) then Some (out, Err BufferTooSmall) else
  if negb (ok (availability c)) then Some (out, Err (availability c)) else
  b ← memcpy out 0 [u8 ChannelMessageRangedRequest];
  b ← le.writeI64 b channel_kChannelIdOffset (r_channelId p);
  b ← memcpy b channel_kUuidOffset (r_uuid p);
  b ← le.writeI64 b channel_ranged_kAppIdOffset (r_appId p);
  b ← le.writeI64 b channel_ranged_kChunkXOffset (cx (r_origin p));
  b ← le.writeI64 b channel_ranged_kChunkYOffset (cy (r_origin p));
  b ← le.writeI64 b channel_ranged_kChunkZOffset (cz (r_origin p));
  b ← le.writeU32 b channel_ranged_kMaxDistanceOffset (r_maxDistance p);
  b ← le.writeU16 b channel_ranged_kPayloadLenOffset (u16 (Z.of_nat (length (r_payload p))));
  b ← memcpy b channel_ranged_kPayloadOffset (r_payload p);
  let authOffset := channel_ranged_kPayloadOffset + length (r_payload p) in
  b ← memcpy b authOffset [1%Z];
  let prefixLen := authOffset + 1 in
  prefix ← sub b 0 prefixLen;
  match spatialHmac c prefix token mac with
  | None => Some (b, Err Malformed)
  | Some tag =>
      b ← memcpy b prefixLen tag;
      b ← le.writeI64 b (prefixLen + kHmacTagSize) (r_gameTokenId p);
      b ← memcpy b (total - 1) [r_sequence p];
      Some (b, Val total)
  end.

Definition parseChannelNotification (datagram : bytes)
    : option (Result ChannelNotificationView) :=
  if decide (length datagram < channel_kMinNotificationSize) then Some (Err Malformed) else
  t ← le.readU8 datagram 0;
  if negb (t =? ChannelMessageNotification)%Z && negb (t =? ChannelAudioNotification)%Z
    then Some (Err Malformed) else
  payloadLen ← le.readU16 datagram channel_kPayloadLenOffset;
  let n := Z.to_nat payloadLen in
  if decide (length datagram < channel_kHeaderSize + n + channel_kNotificationTailSize)
    then Some (Err Malformed) else
  channelId ← le.readI64 datagram channel_kChannelIdOffset;
  uuid ← sub datagram channel_kUuidOffset kUuidSize;
  payload ← sub datagram channel_kPayloadOffset n;
  let tailStart := channel_kPayloadOffset + n in
  epoch ← le.readI64 datagram tailStart;
  seq ← le.readU8 datagram (tailStart + 8);
  Some (Val {| n_channelId := channelId; n_senderUuid := uuid; n_payload := payload;
               n_epochMillis := epoch; n_sequence := seq |}).

(** ** Error and reconnect frames *)

Definition parseGenericError (datagram : bytes) : option (Result GenericErrorView) :=
  if decide (length datagram < kGenericErrorSize) then Some (Err Malformed) else
  t ← le.readU8 datagram 0;
  if negb (t =? GenericErrorMsg)%Z then Some (Err Malformed) else
  s ← le.readU8 datagram 1;
  code ← le.readU8 datagram 2;
  Some (Val {| ge_sequence := s; ge_code := code |}).

Definition verifyCommandReconnect (c : ICrypto) (datagram token : bytes) : option Status :=
  if decide (length datagram ≠ kCommandReconnectSize) then Some Malformed else
  t ← le.readU8 datagram 0;
  if negb (t =? CommandReconnect)%Z then Some Malformed else
  if negb (ok (availability c)) then Some (availability c) else
  match hmacSha256 c token (t :: token) with
  | None => Some Malformed
  | Some expected =>
      found ← sub datagram 1 kHmacTagSize;
      if negb (constantTimeEquals c expected found) then Some HmacMismatch else
      Some Ok
  end.

(** * Specification of the layouts and correctness *)

(** ** Well-formed arguments: the ranges of the C++ types *)

Definition params_ok (p : LongSpatialParams) : Prop :=
  in_u 8 (p_type p) ∧ in_s 64 (p_appId p) ∧ coord_ok (p_chunk p) ∧
  in_u 8 (p_distance p) ∧ in_u 8 (p_decay p) ∧ length (p_uuid p) = kUuidSize ∧
  in_s 64 (p_gameTokenId p) ∧ in_u 8 (p_sequence p).

Definition channel_params_ok (p : ChannelMessageParams) : Prop :=
  in_s 64 (c_channelId p) ∧ length (c_uuid p) = kUuidSize ∧ in_s 64 (c_gameTokenId p).

(** The MAC context handed to the codec is the one keyed with the token. *)
Definition mac_ok (c : ICrypto) (token : bytes) (mac : option IMac) : Prop :=
  ∀ m, mac = Some m → makeHmacSha256 c token = Some m.

(** The octets a long-spatial message signs, and the whole message. *)
Definition longSpatialPrefix (p : LongSpatialParams) : bytes :=
  [u8 (p_type p)] ++ le.octets 8 (u64 (p_appId p)) ++
  le.octets 8 (u64 (cx (p_chunk p))) ++ le.octets 8 (u64 (cy (p_chunk p))) ++
  le.octets 8 (u64 (cz (p_chunk p))) ++ [p_distance p] ++ [u8 (p_decay p)] ++ [1%Z] ++
  p_uuid p ++ p_payload p.
Definition longSpatialFrame (p : LongSpatialParams) (tag : bytes) : bytes :=
  longSpatialPrefix p ++ tag ++ le.octets 8 (u64 (p_gameTokenId p)) ++ [p_sequence p].

Definition channelPrefix (type : Z) (p : ChannelMessageParams) : bytes :=
  [u8 type] ++ le.octets 8 (u64 (c_channelId p)) ++ c_uuid p ++
  le.octets 2 (u16 (Z.of_nat (length (c_payload p)))) ++ c_payload p ++ [1%Z].
Definition channelFrame (type : Z) (p : ChannelMessageParams) (tag : bytes) : bytes :=
  channelPrefix type p ++ tag ++ le.octets 8 (u64 (c_gameTokenId p)) ++ [c_sequence p].

Definition rangedPrefix (p : RangedChannelMessageParams) : bytes :=
  [u8 ChannelMessageRangedRequest] ++ le.octets 8 (u64 (r_channelId p)) ++ r_uuid p ++
  le.octets 8 (u64 (r_appId p)) ++ le.octets 8 (u64 (cx (r_origin p))) ++
  le.octets 8 (u64 (cy (r_origin p))) ++ le.octets 8 (u64 (cz (r_origin p))) ++
  le.octets 4 (r_maxDistance p) ++
  le.octets 2 (u16 (Z.of_nat (length (r_payload p)))) ++ r_payload p ++ [1%Z].
Definition rangedFrame (p : RangedChannelMessageParams) (tag : bytes) : bytes :=
  rangedPrefix p ++ tag ++ le.octets 8 (u64 (r_gameTokenId p)) ++ [r_sequence p].

Definition voxelPayloadBytes (x y z ty : Z) (state : bytes) : bytes :=
  le.octets 2 (u16 x) ++ le.octets 2 (u16 y) ++ le.octets 2 (u16 z) ++
  le.octets 2 (u16 ty) ++ le.octets 2 (u16 (Z.of_nat (length state))) ++ state.

(** ** Write chains *)

(** One write of a chain: the buffer is a known prefix and the rest of the
    caller's buffer. *)
Ltac wstep :=
  rewrite memcpy_step;
  [ cbn [mbind option_bind]; rewrite ?drop_drop
  | rewrite ?length_app, ?le.length_octets; simpl; sizes; lia
  | rewrite ?length_drop, ?le.length_octets; simpl; sizes; lia ].

(** Side conditions on lengths, given the length of the uuid. *)
Ltac slen Hu :=
  rewrite ?length_app, ?length_drop, ?le.length_octets, ?Hu; simpl; sizes; lia.

Lemma length_longSpatialPrefix p :
  length (p_uuid p) = kUuidSize →
  length (longSpatialPrefix p) = kLongSpatialHeaderSize + length (p_payload p).
Proof.
  intros Hu. unfold longSpatialPrefix.
  rewrite !length_app, !le.length_octets, Hu. simpl. sizes. lia.
Qed.

Lemma spatialHmac_length c `{!CryptoLaws c} prefix token mac tag :
  mac_ok c token mac → spatialHmac c prefix token mac = Some tag →
  length tag = kHmacTagSize.
Proof.
  intros Hmac. unfold spatialHmac. case_decide; [done|].
  destruct mac as [m|]; [|apply hmac_length].
  rewrite (mac_compute token); [apply hmac_length|by apply Hmac].
Qed.

(** The end of every signed request: sign the octets written so far, then the tag, the
    token id and the sequence number. *)
Lemma sign_tail c `{!CryptoLaws c} token mac (pre rest : bytes) n n1 n2 total tid seq :
  mac_ok c token mac →
  n = length pre → n1 = n + kHmacTagSize → n2 = n + kTailWithHmac - 1 →
  kTailWithHmac ≤ length rest →
  (prefix ← sub (pre ++ rest) 0 n;
   match spatialHmac c prefix token mac with
   | None => Some (pre ++ rest, Err Malformed)
   | Some tag =>
       b ← memcpy (pre ++ rest) n tag;
       b ← memcpy b n1 (le.octets 8 (u64 tid));
       b ← memcpy b n2 [seq];
       Some (b, Val total)
   end) =
  match spatialHmac c pre token mac with
  | None => Some (pre ++ rest, Err Malformed)
  | Some tag =>
      Some ((pre ++ tag ++ le.octets 8 (u64 tid) ++ [seq]) ++ drop kTailWithHmac rest,
            Val (A := nat) total)
  end.
Proof.
  intros Hmac -> -> -> Hr.
  rewrite (sub_app_here [] pre rest) by done. cbn [mbind option_bind].
  destruct (spatialHmac c pre token mac) as [tag|] eqn:E; [|done].
  apply spatialHmac_length in E as Ht; [|done..].
  do 3 wstep. rewrite <- !app_assoc, le.length_octets, Ht. simpl. sizes. lfeq.
Qed.

(** Every branch of [encodeLongSpatial] past its guards. *)
Lemma encodeLongSpatial_writes c `{!CryptoLaws c} p token out mac :
  length (p_uuid p) = kUuidSize → mac_ok c token mac →
  isLongSpatialLayout (p_type p) = true →
  length (p_payload p) ≤ kMaxLongSpatialPayload →
  longSpatialSize (length (p_payload p)) true ≤ length out →
  availability c = Ok →
  encodeLongSpatial c p token out mac =
    match spatialHmac c (longSpatialPrefix p) token mac with
    | None => Some (longSpatialPrefix p ++
                    drop (length (longSpatialPrefix p)) out, Err Malformed)
    | Some tag => Some (longSpatialFrame p tag ++
                        drop (longSpatialSize (length (p_payload p)) true) out,
                        Val (longSpatialSize (length (p_payload p)) true))
    end.
Proof.
  intros Hu Hmac Hl Hp Ho Ha.
  pose proof (length_longSpatialPrefix p Hu) as Hpl.
  unfold encodeLongSpatial. rewrite Hl, Ha. simpl negb.
  rewrite !decide_False by lia. cbv iota.
  unfold longSpatialSize, le.writeI64, le.writeU64 in *.
  change out with ([] ++ out) at 1. do 10 wstep.
  etransitivity; [apply sign_tail; first [done | slen Hu]|].
  rewrite drop_drop, Hpl. rewrite !le.length_octets, Hu.
  unfold longSpatialFrame, longSpatialPrefix. rewrite <- !app_assoc. simpl app.
  rewrite ?app_nil_l. sizes. case_match; rewrite <- ?app_assoc; cbn [length]; lfeq.
Qed.

(** ** Reading back a frame *)

Lemma length_longSpatialFrame p tag :
  length (p_uuid p) = kUuidSize → length tag = kHmacTagSize →
  length (longSpatialFrame p tag) = longSpatialSize (length (p_payload p)) true.
Proof.
  intros Hu Ht. unfold longSpatialFrame, longSpatialSize.
  rewrite !length_app, length_longSpatialPrefix, le.length_octets, Ht by done.
  simpl. sizes. lia.
Qed.

(** The fields of a frame, read back. *)
Lemma longSpatialFrame_fields p tag :
  params_ok p → length tag = kHmacTagSize →
  let F := longSpatialFrame p tag in
  let n := longSpatialSize (length (p_payload p)) true in
  le.readU8 F offsets_kType = Some (p_type p) ∧
  le.readI64 F offsets_kAppId = Some (p_appId p) ∧
  le.readI64 F offsets_kChunkX = Some (cx (p_chunk p)) ∧
  le.readI64 F offsets_kChunkY = Some (cy (p_chunk p)) ∧
  le.readI64 F offsets_kChunkZ = Some (cz (p_chunk p)) ∧
  le.readU8 F offsets_kDistance = Some (p_distance p) ∧
  le.readU8 F offsets_kDecay = Some (p_decay p) ∧
  le.readU8 F offsets_kContainsAuth = Some 1%Z ∧
  sub F offsets_kUuid kUuidSize = Some (p_uuid p) ∧
  sub F offsets_kPayload (length (p_payload p)) = Some (p_payload p) ∧
  sub F 0 (n - kTailWithHmac) = Some (longSpatialPrefix p) ∧
  sub F (n - kTailWithHmac) kHmacTagSize = Some tag ∧
  le.readI64 F (n - kTailNoHmac) = Some (p_gameTokenId p) ∧
  le.readU8 F (n - 1) = Some (p_sequence p).
Proof.
  intros (Hty&Happ&(Hx&Hy&Hz)&Hdi&Hdec&Hu&Htok&Hseq) Ht F n.
  pose proof (length_longSpatialPrefix p Hu) as Hpl.
  subst F n. unfold longSpatialFrame, longSpatialSize.
  split_and!.
  all: try (unfold longSpatialPrefix; rewrite ?(wrapU_id 8) by done;
    rdf ltac:(rewrite ?le.length_octets, ?Hu, ?Ht; simpl; sizes; lia)).
  apply sub_first; lia.
Qed.

Lemma parse_longSpatialFrame p tag :
  params_ok p → length tag = kHmacTagSize → isLongSpatialLayout (p_type p) = true →
  parseLongSpatial (longSpatialFrame p tag) =
  Some (Val {| v_type := p_type p; v_appId := p_appId p; v_chunk := p_chunk p;
               v_distance := p_distance p; v_decay := p_decay p; v_containsAuth := true;
               v_uuid := p_uuid p; v_payload := p_payload p;
               v_epochMillisOrTokenId := p_gameTokenId p; v_sequence := p_sequence p |}).
Proof.
  intros Hp Ht Hl. pose proof Hp as (_&_&_&_&_&Hu&_&_).
  pose proof (longSpatialFrame_fields p tag Hp Ht)
    as (E1&E2&E3&E4&E5&E6&E7&E8&E9&E10&_&_&E13&E14).
  pose proof (length_longSpatialFrame p tag Hu Ht) as Hlen.
  unfold parseLongSpatial. rewrite Hlen.
  rewrite decide_False by (unfold longSpatialSize; sizes; lia).
  rewrite E1. cbn [mbind option_bind]. rewrite Hl, E8. cbn [mbind option_bind negb Z.eqb].
  rewrite decide_False by (unfold longSpatialSize; sizes; lia).
  rewrite E2, E3, E4, E5, E6, E7, E9, E13, E14. cbn [mbind option_bind].
  replace (longSpatialSize _ _ - _ - _) with (length (p_payload p))
    by (unfold longSpatialSize; lia).
  rewrite E10. cbn [mbind option_bind]. by destruct (p_chunk p).
Qed.

Lemma spatialHmac_keyed c `{!CryptoLaws c} prefix token mac :
  mac_ok c token mac → length prefix ≤ kMaxDatagramSize →
  spatialHmac c prefix token mac = hmacSha256 c token (prefix ++ token).
Proof.
  intros Hmac Hl. unfold spatialHmac. rewrite decide_False by lia.
  destruct mac as [m|]; [|done]. rewrite (mac_compute token) by by apply Hmac.
  simpl. by rewrite app_nil_r.
Qed.

Lemma verify_longSpatialFrame c `{!CryptoLaws c} p tag token mac :
  params_ok p → mac_ok c token mac → availability c = Ok →
  length (p_payload p) ≤ kMaxLongSpatialPayload →
  spatialHmac c (longSpatialPrefix p) token mac = Some tag →
  verifyLongSpatial c (longSpatialFrame p tag) token mac = Some Ok.
Proof.
  intros Hp Hmac Ha Hl Hs. pose proof Hp as (_&_&_&_&_&Hu&_&_).
  apply spatialHmac_length in Hs as Ht; [|done..].
  pose proof (longSpatialFrame_fields p tag Hp Ht) as (_&_&_&_&_&_&_&E8&_&_&E11&E12&_&_).
  pose proof (length_longSpatialFrame p tag Hu Ht) as Hlen.
  unfold verifyLongSpatial. rewrite Hlen, Ha.
  rewrite decide_False by (unfold longSpatialSize; sizes; lia).
  rewrite E8. cbn [mbind option_bind Z.eqb]. change (negb (ok Ok)) with false. cbv iota.
  rewrite decide_False by (unfold longSpatialSize; sizes; lia).
  rewrite E11. cbn [mbind option_bind]. rewrite Hs, E12. cbn [mbind option_bind].
  rewrite cte_equal, bool_decide_true by done. done.
Qed.

(** ** Payload codecs *)

Lemma encodeVoxelPayload_writes x y z ty state out :
  voxel_kFixedSize + length state ≤ length out → (Z.of_nat (length state) ≤ 65535)%Z →
  encodeVoxelPayload x y z ty state out =
  Some (voxelPayloadBytes x y z ty state ++ drop (voxel_kFixedSize + length state) out,
        Val (voxel_kFixedSize + length state)).
Proof.
  intros Ho Hs. unfold encodeVoxelPayload. rewrite decide_False by lia.
  rewrite (proj2 (Z.ltb_ge _ _)) by lia.
  unfold le.writeI16, le.writeU16. rewrite !le.octets_2.
  change out with ([] ++ out) at 1. do 6 wstep.
  unfold voxelPayloadBytes. rewrite <- !app_assoc, !le.length_octets. sizes. simpl. lfeq.
Qed.

Lemma parse_voxelPayloadBytes x y z ty state rest :
  in_s 16 x → in_s 16 y → in_s 16 z → in_s 16 ty → (Z.of_nat (length state) ≤ 65535)%Z →
  parseVoxelPayload (voxelPayloadBytes x y z ty state ++ rest) =
  Some (Val {| vx := x; vy := y; vz := z; v_voxelType := ty; v_state := state |}).
Proof.
  intros Hx Hy Hz Hty Hs. set (F := voxelPayloadBytes x y z ty state ++ rest).
  assert (length F = voxel_kFixedSize + length state + length rest) as Hlen.
  { subst F. unfold voxelPayloadBytes. rewrite !length_app, !le.length_octets. sizes. lia. }
  assert (le.readI16 F voxel_kXOffset = Some x ∧ le.readI16 F voxel_kYOffset = Some y ∧
          le.readI16 F voxel_kZOffset = Some z ∧ le.readI16 F voxel_kTypeOffset = Some ty ∧
          le.readU16 F voxel_kStateLenOffset = Some (u16 (u16 (Z.of_nat (length state)))) ∧
          sub F voxel_kStateOffset (length state) = Some state) as (E1&E2&E3&E4&E5&E6).
  { subst F. unfold voxelPayloadBytes. split_and!;
      rdf ltac:(rewrite ?le.length_octets; simpl; sizes; lia). }
  rewrite wrapU_idemp, wrapU_id in E5 by (unfold in_u; lia).
  unfold parseVoxelPayload. rewrite Hlen, decide_False by lia.
  rewrite E1, E2, E3, E4, E5. cbn [mbind option_bind]. rewrite Nat2Z.id.
  rewrite decide_False by lia. rewrite E6. done.
Qed.

Lemma encodeEventPayload_writes ty state out :
  kEventTypeSize + length state ≤ length out →
  encodeEventPayload ty state out =
  Some ((le.octets 2 ty ++ state) ++ drop (kEventTypeSize + length state) out,
        Val (kEventTypeSize + length state)).
Proof.
  intros Ho. unfold encodeEventPayload. rewrite decide_False by lia.
  unfold le.writeU16. rewrite !le.octets_2. change out with ([] ++ out) at 1. do 2 wstep.
  rewrite !le.length_octets. sizes. simpl. lfeq.
Qed.

Lemma parse_eventPayload ty state :
  in_u 16 ty →
  parseEventPayload (le.octets 2 ty ++ state) =
  Some (Val {| e_eventType := ty; e_state := state |}).
Proof.
  intros Hty. unfold parseEventPayload. rewrite length_app, le.length_octets.
  rewrite decide_False by (sizes; lia).
  rewrite le.readU16_first by done. cbn [mbind option_bind].
  rewrite sub_skip, sub_last by (rewrite ?le.length_octets; sizes; lia).
  cbn [mbind option_bind]. by rewrite wrapU_id.
Qed.

(** ** Channel requests *)

Lemma encodeChannelRequest_writes type c `{!CryptoLaws c} p token out mac :
  length (c_uuid p) = kUuidSize → mac_ok c token mac →
  type = ChannelMessageRequest ∨ type = ChannelAudioRequest →
  length (c_payload p) ≤ channel_kMaxPayload →
  channelRequestSize (length (c_payload p)) ≤ length out →
  availability c = Ok →
  encodeChannelRequest type c p token out mac =
    match spatialHmac c (channelPrefix type p) token mac with
    | None => Some (channelPrefix type p ++
                    drop (channel_kPayloadOffset + length (c_payload p) + 1) out, Err Malformed)
    | Some tag => Some (channelFrame type p tag ++
                        drop (channelRequestSize (length (c_payload p))) out,
                        Val (channelRequestSize (length (c_payload p))))
    end.
Proof.
  intros Hu Hmac Hty Hp Ho Ha. unfold encodeChannelRequest. rewrite Ha.
  replace (negb (type =? ChannelMessageRequest)%Z && negb (type =? ChannelAudioRequest)%Z)
    with false by (by destruct Hty as [-> | ->]).
  change (negb (ok Ok)) with false. rewrite !decide_False by lia. cbv iota.
  unfold channelRequestSize, le.writeI64, le.writeU64, le.writeU16 in *.
  rewrite !le.octets_2. change out with ([] ++ out) at 1. do 6 wstep.
  etransitivity; [apply sign_tail; first [done | slen Hu]|].
  rewrite drop_drop, !le.length_octets, Hu.
  unfold channelFrame, channelPrefix. rewrite <- !app_assoc.
  rewrite ?app_nil_l. sizes. case_match; rewrite <- ?app_assoc; cbn [length]; lfeq.
Qed.

Lemma encodeRangedChannelMessage_writes c `{!CryptoLaws c} p token out mac :
  length (r_uuid p) = kUuidSize → mac_ok c token mac →
  length (r_payload p) ≤ channel_kMaxPayload →
  (r_maxDistance p ≤ channel_ranged_kMaxDistance)%Z →
  rangedChannelRequestSize (length (r_payload p)) ≤ length out →
  availability c = Ok →
  encodeRangedChannelMessage c p token out mac =
    match spatialHmac c (rangedPrefix p) token mac with
    | None => Some (rangedPrefix p ++
                    drop (channel_ranged_kPayloadOffset + length (r_payload p) + 1) out,
                    Err Malformed)
    | Some tag => Some (rangedFrame p tag ++
                        drop (rangedChannelRequestSize (length (r_payload p))) out,
                        Val (rangedChannelRequestSize (length (r_payload p))))
    end.
Proof.
  intros Hu Hmac Hp Hd Ho Ha. unfold encodeRangedChannelMessage.
  rewrite Ha, (proj2 (Z.ltb_ge _ _)) by done.
  change (negb (ok Ok)) with false. rewrite !decide_False by lia. cbv iota.
  unfold rangedChannelRequestSize, le.writeI64, le.writeU64, le.writeU32, le.writeU16 in *.
  rewrite !le.octets_2. change out with ([] ++ out) at 1. do 11 wstep.
  etransitivity; [apply sign_tail; first [done | slen Hu]|].
  rewrite drop_drop, !le.length_octets, Hu.
  unfold rangedFrame, rangedPrefix. rewrite <- !app_assoc.
  rewrite ?app_nil_l. sizes. case_match; rewrite <- ?app_assoc; cbn [length]; lfeq.
Qed.

(** ** Encoders are defined on every input *)

(** An encoder's answer over [out]: an error, or a message of [type] at the front. *)
Definition encoded_ok (type : Z) (out : bytes) (r : option (bytes * Result nat)) : Prop :=
  ∃ b res, r = Some (b, res) ∧
    match res with
    | Val n => ∃ m, sub b 0 n = Some m ∧ length m ≤ length out ∧ head m = Some (u8 type)
    | Err e => e ≠ Ok
    end.

Lemma encoded_ok_err type out b e : e ≠ Ok → encoded_ok type out (Some (b, Err e)).
Proof. intros. by exists b, (Err e). Qed.

Lemma encoded_ok_frame type out F n :
  n = length F → n ≤ length out → head F = Some (u8 type) →
  encoded_ok type out (Some (F ++ drop n out, Val n)).
Proof.
  intros -> Hl Hh. eexists _, (Val _). split; [done|]. exists F. split_and!; [|done..].
  by apply sub_first.
Qed.

Lemma not_ok_error e : ok e = false → e ≠ Ok.
Proof. by destruct e. Qed.

Lemma encodeLongSpatial_total c `{!CryptoLaws c} p token out mac :
  length (p_uuid p) = kUuidSize → mac_ok c token mac →
  encoded_ok (p_type p) out (encodeLongSpatial c p token out mac).
Proof.
  intros Hu Hmac.
  destruct (isLongSpatialLayout (p_type p)) eqn:Hl; [|unfold encodeLongSpatial; rewrite Hl; by apply encoded_ok_err].
  destruct (decide (kMaxLongSpatialPayload < length (p_payload p)));
    [unfold encodeLongSpatial; rewrite Hl, decide_True by done; by apply encoded_ok_err|].
  destruct (decide (length out < longSpatialSize (length (p_payload p)) true));
    [unfold encodeLongSpatial; rewrite Hl, decide_False, decide_True by done; by apply encoded_ok_err|].
  destruct (ok (availability c)) eqn:Ha; cycle 1.
  { unfold encodeLongSpatial. rewrite Hl, Ha, !decide_False by done. apply encoded_ok_err. by apply not_ok_error. }
  apply ok_true in Ha. rewrite encodeLongSpatial_writes by (done || lia).
  destruct (spatialHmac _ _ _ _) as [tag|] eqn:E; [|by apply encoded_ok_err].
  apply spatialHmac_length in E; [|done..].
  apply encoded_ok_frame; [by rewrite length_longSpatialFrame|lia|done].
Qed.

Lemma length_channelFrame type p tag :
  length (c_uuid p) = kUuidSize → length tag = kHmacTagSize →
  length (channelFrame type p tag) = channelRequestSize (length (c_payload p)).
Proof.
  intros Hu Ht. unfold channelFrame, channelPrefix, channelRequestSize.
  rewrite !length_app, !le.length_octets, Ht, Hu. simpl. sizes. lia.
Qed.

Lemma encodeChannelRequest_total type c `{!CryptoLaws c} p token out mac :
  length (c_uuid p) = kUuidSize → mac_ok c token mac →
  encoded_ok type out (encodeChannelRequest type c p token out mac).
Proof.
  intros Hu Hmac.
  destruct (negb (type =? ChannelMessageRequest)%Z && negb (type =? ChannelAudioRequest)%Z) eqn:Hty;
    [unfold encodeChannelRequest; rewrite Hty; by apply encoded_ok_err|].
  destruct (decide (channel_kMaxPayload < length (c_payload p)));
    [unfold encodeChannelRequest; rewrite Hty, decide_True by done; by apply encoded_ok_err|].
  destruct (decide (length out < channelRequestSize (length (c_payload p))));
    [unfold encodeChannelRequest; rewrite Hty, decide_False, decide_True by done; by apply encoded_ok_err|].
  destruct (ok (availability c)) eqn:Ha; cycle 1.
  { unfold encodeChannelRequest. rewrite Hty, Ha, !decide_False by done. apply encoded_ok_err. by apply not_ok_error. }
  apply ok_true in Ha. assert (type = ChannelMessageRequest ∨ type = ChannelAudioRequest).
  { apply andb_false_iff in Hty as [Hty|Hty]; apply negb_false_iff, Z.eqb_eq in Hty; auto. }
  rewrite encodeChannelRequest_writes by (done || lia).
  destruct (spatialHmac _ _ _ _) as [tag|] eqn:E; [|by apply encoded_ok_err].
  apply spatialHmac_length in E; [|done..].
  apply encoded_ok_frame; [by rewrite length_channelFrame|lia|done].
Qed.

Lemma length_rangedFrame p tag :
  length (r_uuid p) = kUuidSize → length tag = kHmacTagSize →
  length (rangedFrame p tag) = rangedChannelRequestSize (length (r_payload p)).
Proof.
  intros Hu Ht. unfold rangedFrame, rangedPrefix, rangedChannelRequestSize.
  rewrite !length_app, !le.length_octets, Ht, Hu. simpl. sizes. lia.
Qed.

Lemma encodeRangedChannelMessage_total c `{!CryptoLaws c} p token out mac :
  length (r_uuid p) = kUuidSize → mac_ok c token mac →
  encoded_ok ChannelMessageRangedRequest out (encodeRangedChannelMessage c p token out mac).
Proof.
  intros Hu Hmac.
  destruct (decide (channel_kMaxPayload < length (r_payload p)));
    [unfold encodeRangedChannelMessage; rewrite decide_True by done; by apply encoded_ok_err|].
  destruct (channel_ranged_kMaxDistance <? r_maxDistance p)%Z eqn:Hd;
    [unfold encodeRangedChannelMessage; rewrite decide_False, Hd by done; by apply encoded_ok_err|].
  destruct (decide (length out < rangedChannelRequestSize (length (r_payload p))));
    [unfold encodeRangedChannelMessage; rewrite decide_False, Hd, decide_True by done; by apply encoded_ok_err|].
  destruct (ok (availability c)) eqn:Ha; cycle 1.
  { unfold encodeRangedChannelMessage. rewrite Hd, Ha, !decide_False by done. apply encoded_ok_err. by apply not_ok_error. }
  apply ok_true in Ha. apply Z.ltb_ge in Hd.
  rewrite encodeRangedChannelMessage_writes by (done || lia).
  destruct (spatialHmac _ _ _ _) as [tag|] eqn:E; [|by apply encoded_ok_err].
  apply spatialHmac_length in E; [|done..].
  apply encoded_ok_frame; [by rewrite length_rangedFrame|lia|done].
Qed.

(** ** Decoders are defined on every input *)

(** One step of a decoder: a guard, a read inside the datagram, a verdict. *)
Ltac dstep :=
  match goal with
  | |- is_Some (Some _) => eauto
  | |- context [if ?b then kTailWithHmac else kTailNoHmac] => destruct b eqn:?
  | |- is_Some (if decide ?P then _ else _) => destruct (decide P)
  | |- is_Some (if ?b then _ else _) => destruct b eqn:?
  | |- is_Some (le.readU8 ?d ?o ≫= _) =>
      destruct (le.readU8_Some d o) as [? ->]; [sizes; lia|cbn [mbind option_bind]]
  | |- is_Some (le.readU16 ?d ?o ≫= _) =>
      destruct (le.readU16_Some d o) as (? & -> & ?); [sizes; lia|cbn [mbind option_bind]]
  | |- is_Some (le.readI16 ?d ?o ≫= _) =>
      destruct (le.readI16_Some d o) as [? ->]; [sizes; lia|cbn [mbind option_bind]]
  | |- is_Some (le.readI64 ?d ?o ≫= _) =>
      destruct (le.readI64_Some d o) as [? ->]; [sizes; lia|cbn [mbind option_bind]]
  | |- is_Some (sub ?d ?o ?n ≫= _) =>
      rewrite (sub_Some d o n) by (sizes; lia); cbn [mbind option_bind]
  | |- is_Some (match ?o with Some _ => _ | None => _ end) => destruct o
  end; cbv zeta.

Lemma parseLongSpatial_defined d : is_Some (parseLongSpatial d).
Proof. unfold parseLongSpatial. repeat dstep. Qed.

Lemma verifyLongSpatial_defined c d token mac : is_Some (verifyLongSpatial c d token mac).
Proof. unfold verifyLongSpatial. repeat dstep. Qed.

Lemma verifySignedBundle_defined c d token mac : is_Some (verifySignedBundle c d token mac).
Proof. unfold verifySignedBundle. repeat dstep. Qed.

Lemma verifyCommandReconnect_defined c d token : is_Some (verifyCommandReconnect c d token).
Proof. unfold verifyCommandReconnect. repeat dstep. Qed.

Lemma parseVoxelPayload_defined d : is_Some (parseVoxelPayload d).
Proof. unfold parseVoxelPayload. repeat dstep. Qed.

Lemma parseEventPayload_defined d : is_Some (parseEventPayload d).
Proof. unfold parseEventPayload. repeat dstep. Qed.

Lemma parseChannelNotification_defined d : is_Some (parseChannelNotification d).
Proof. unfold parseChannelNotification. repeat dstep. Qed.

Lemma parseGenericError_defined d : is_Some (parseGenericError d).
Proof. unfold parseGenericError. repeat dstep. Qed.

#[export] Hint Resolve parseLongSpatial_defined verifyLongSpatial_defined
  verifySignedBundle_defined verifyCommandReconnect_defined parseVoxelPayload_defined
  parseEventPayload_defined parseChannelNotification_defined parseGenericError_defined
  : crowdy.

(** ** A concrete provider, for evaluation *)

Definition demoHmac (key msg : bytes) : option bytes :=
  Some (replicate kHmacTagSize (u8 (foldr Z.add 0%Z key + 31 * foldr Z.add 7%Z msg))).

Definition demoCrypto : ICrypto := {|
  availability := Ok;
  hmacSha256 := demoHmac;
  makeHmacSha256 := λ key, Some {| compute := λ parts, demoHmac key (concat parts) |};
  constantTimeEquals := λ a b, bool_decide (a = b);
  randomBytes := λ n, Some (replicate n 171%Z);
|}.

#[global] Instance demoCrypto_laws : CryptoLaws demoCrypto.
Proof.
  split.
  - intros key msg tag [= <-]. done.
  - by intros key m parts [= <-].
  - done.
Qed.

Definition demoToken : bytes := replicate kTokenOctets 65%Z.
Definition demoUuid : bytes := replicate kUuidSize 97%Z.
Definition demoParams : LongSpatialParams := {|
  p_type := ActorUpdateRequest; p_appId := 42; p_chunk := mkChunk (-3) 0 7;
  p_distance := 8; p_decay := 1; p_uuid := demoUuid; p_payload := [1; 2; 3]%Z;
  p_gameTokenId := -5; p_sequence := 200 |}.

Lemma demoParams_ok : params_ok demoParams.
Proof. unfold params_ok, coord_ok, in_u, in_s; simpl. split_and!; try lia; done. Qed.

Lemma mac_ok_keyed c token : mac_ok c token (makeHmacSha256 c token).
Proof. by intros m. Qed.
Lemma mac_ok_none c token : mac_ok c token None.
Proof. by intros m. Qed.
#[export] Hint Resolve mac_ok_keyed mac_ok_none demoParams_ok : crowdy.

(** ** Theorems *)

Lemma encodeLongSpatial_success c p token out mac out' n :
  encodeLongSpatial c p token out mac = Some (out', Val n) →
  isLongSpatialLayout (p_type p) = true ∧ length (p_payload p) ≤ kMaxLongSpatialPayload ∧
  longSpatialSize (length (p_payload p)) true ≤ length out ∧ availability c = Ok.
Proof.
  unfold encodeLongSpatial. destruct (isLongSpatialLayout _); [|by intros [=]]. simpl negb.
  case_decide; [by intros [=]|]. case_decide; [by intros [=]|].
  destruct (ok (availability c)) eqn:E; [|by intros [=]].
  apply ok_true in E. intros _. repeat split; [lia|lia|done].
Qed.

Definition view_of (p : LongSpatialParams) : LongSpatialView :=
  {| v_type := p_type p; v_appId := p_appId p; v_chunk := p_chunk p;
     v_distance := p_distance p; v_decay := p_decay p; v_containsAuth := true;
     v_uuid := p_uuid p; v_payload := p_payload p;
     v_epochMillisOrTokenId := p_gameTokenId p; v_sequence := p_sequence p |}.

Lemma mac_irrelevant c `{!CryptoLaws c} prefix token mac mac' :
  mac_ok c token mac → mac_ok c token mac' →
  spatialHmac c prefix token mac = spatialHmac c prefix token mac'.
Proof.
  intros. destruct (decide (length prefix ≤ kMaxDatagramSize)).
  - by rewrite !spatialHmac_keyed.
  - unfold spatialHmac. by rewrite !decide_True by lia.
Qed.

(** A long-spatial message the encoder accepts is one datagram of the documented size
    that fits the server's limit; the caller's buffer past it is untouched; parsing it gives
    back every field that was sent; and the receiver's verification accepts it, whether it
    uses the pre-keyed MAC or the one-shot HMAC of the same token. *)
Theorem longSpatial_roundtrip c `{!CryptoLaws c} p token out mac out' n :
  params_ok p → mac_ok c token mac →
  encodeLongSpatial c p token out mac = Some (out', Val n) →
  n = longSpatialSize (length (p_payload p)) true ∧ n ≤ kMaxDatagramSize ∧
  drop n out' = drop n out ∧
  parseLongSpatial (take n out') = Some (Val (view_of p)) ∧
  ∀ mac', mac_ok c token mac' → verifyLongSpatial c (take n out') token mac' = Some Ok.
Proof.
  intros Hp Hmac He. pose proof (encodeLongSpatial_success _ _ _ _ _ _ _ He) as (Hl&Hs&Ho&Ha).
  pose proof Hp as (_&_&_&_&_&Hu&_&_).
  rewrite encodeLongSpatial_writes in He by done.
  destruct (spatialHmac c _ token mac) as [tag|] eqn:E; [|done]. apply Some_Val_inj in He as [-> ->].
  apply spatialHmac_length in E as Ht; [|done..].
  pose proof (length_longSpatialFrame p tag Hu Ht) as Hlen.
  rewrite take_app_le, firstn_all2, drop_app_ge by lia.
  rewrite Hlen, Nat.sub_diag. split_and!.
  - done.
  - unfold longSpatialSize. sizes. lia.
  - done.
  - by apply parse_longSpatialFrame.
  - intros mac' Hmac'. apply verify_longSpatialFrame; try done.
    by rewrite <- E, (mac_irrelevant c _ token mac mac').
Qed.

(** The in-place writes of [encodeLongSpatial] implement the layout of the protocol on
    every branch: each guard returns its error and leaves the buffer as it was; otherwise the
    buffer holds the concatenated header, uuid, payload, HMAC of exactly those octets and the
    token, token id and sequence, followed by what the caller had there; a failing HMAC
    provider is [Malformed]. No branch writes outside the buffer. *)
Theorem encodeLongSpatial_refines_layout c `{!CryptoLaws c} p token out mac :
  params_ok p → mac_ok c token mac →
  let size := longSpatialSize (length (p_payload p)) true in
  encodeLongSpatial c p token out mac = Some (
    if negb (isLongSpatialLayout (p_type p)) then (out, Err InvalidArgument)
    else if decide (1123 < length (p_payload p)) then (out, Err InvalidArgument)
    else if decide (length out < size) then (out, Err BufferTooSmall)
    else if negb (ok (availability c)) then (out, Err (availability c))
    else match hmacSha256 c token (longSpatialPrefix p ++ token) with
         | None => (longSpatialPrefix p ++ drop (length (longSpatialPrefix p)) out, Err Malformed)
         | Some tag => (longSpatialFrame p tag ++ drop size out, Val size)
         end).
Proof.
  intros Hp Hmac size. change 1123 with kMaxLongSpatialPayload.
  destruct (isLongSpatialLayout (p_type p)) eqn:Hl;
    [|unfold encodeLongSpatial; by rewrite Hl].
  destruct (decide (kMaxLongSpatialPayload < length (p_payload p)));
    [unfold encodeLongSpatial; by rewrite Hl, decide_True|].
  destruct (decide (length out < size));
    [unfold encodeLongSpatial; by rewrite Hl, decide_False, decide_True|].
  destruct (ok (availability c)) eqn:Ha;
    [|unfold encodeLongSpatial; by rewrite Hl, Ha, !decide_False].
  pose proof Hp as (_&_&_&_&_&Hu&_&_).
  apply ok_true in Ha. simpl negb. cbv iota. rewrite encodeLongSpatial_writes by (done || lia).
  rewrite spatialHmac_keyed by
    (try done; rewrite length_longSpatialPrefix by done; sizes; lia).
  by case_match.
Qed.

(** C11. Memory safety of the receive path: on any octets from the network no parser or
    verifier reads outside the datagram it was given, whatever the provider, token and MAC. *)
Theorem decoders_memory_safe c d token mac :
  parseLongSpatial d ≠ UB ∧ verifyLongSpatial c d token mac ≠ UB ∧
  verifySignedBundle c d token mac ≠ UB ∧ verifyCommandReconnect c d token ≠ UB ∧
  parseVoxelPayload d ≠ UB ∧ parseEventPayload d ≠ UB ∧
  parseChannelNotification d ≠ UB ∧ parseGenericError d ≠ UB.
Proof. split_and!; apply not_eq_None_Some; auto with crowdy. Qed.

(** What an accepted signature means: [verifyLongSpatial] answers [Ok] exactly when the
    datagram is long enough and either says it carries no signature, or the provider is
    available and the 32 octets in front of the tail are the HMAC, under the token, of every
    octet before them followed by the token. *)
Theorem verifyLongSpatial_Ok_iff c `{!CryptoLaws c} d token mac :
  mac_ok c token mac →
  verifyLongSpatial c d token mac = Some Ok ↔
  77 ≤ length d ∧
  (d !! 35 = Some 0%Z ∨
   109 ≤ length d ∧ length d - 41 ≤ kMaxDatagramSize ∧ availability c = Ok ∧
   hmacSha256 c token (take (length d - 41) d ++ token) =
     Some (take 32 (drop (length d - 41) d))).
Proof.
  intros Hmac. unfold verifyLongSpatial.
  destruct (decide (length d < kMinLongSpatialNoHmac)) as [Hs|Hs];
    [sizes; split; [done|lia]|].
  assert (le.readU8 d offsets_kContainsAuth = d !! 35) as ->.
  { unfold le.readU8. rewrite sub_Some by (sizes; lia). cbn [mbind option_bind].
    destruct (d !! 35) as [x|] eqn:E; [|apply lookup_ge_None in E; sizes; lia].
    unfold offsets_kContainsAuth. by rewrite (drop_S d x 35 E). }
  destruct (d !! 35) as [a|] eqn:Ea; [|apply lookup_ge_None in Ea; sizes; lia].
  cbn [mbind option_bind]. destruct (Z.eqb_spec a 0) as [->|Hz].
  { sizes. split; [|done]. intros _. split; [lia|by left]. }
  destruct (ok (availability c)) eqn:Ha; cbn [negb]; cycle 1.
  { split; [intros [= He]; rewrite He in Ha; done|].
    intros [_ [?|(_&_&He&_)]]; [congruence|rewrite He in Ha; done]. }
  apply ok_true in Ha.
  destruct (decide (length d < kMinLongSpatialWithHmac)) as [Hs'|Hs'].
  { sizes. split; [done|]. intros [_ [?|?]]; [congruence|lia]. }
  rewrite (sub_Some d 0) by lia. cbn [mbind option_bind]. rewrite drop_0.
  change kTailWithHmac with 41. change kHmacTagSize with 32.
  destruct (decide (length d - 41 ≤ kMaxDatagramSize)) as [Hd|Hd]; cycle 1.
  { unfold spatialHmac. rewrite decide_True by (rewrite length_take; lia).
    split; [done|]. intros [_ [?|?]]; [congruence|lia]. }
  rewrite spatialHmac_keyed by (try done; rewrite length_take; lia).
  destruct (hmacSha256 c token _) as [tag|] eqn:Et; cycle 1.
  { split; [done|]. intros [_ [?|(_&_&_&?)]]; congruence. }
  apply hmac_length in Et as Hlt.
  rewrite sub_Some by (sizes; lia). cbn [mbind option_bind].
  rewrite cte_equal by (rewrite length_take, length_drop; sizes; lia).
  case_bool_decide as Htag; simpl.
  - split; [|done]. intros _. split; [sizes; lia|]. right. sizes. rewrite Htag. split_and!; auto; lia.
  - split; [done|]. intros [_ [?|(_&_&_&?)]]; congruence.
Qed.

(** The channel requests (text and audio share one layout) and the ranged request are, on
    success, the documented concatenation, signed over every octet up to and including the
    containsAuth octet, and never longer than a datagram; the rest of the buffer is kept. *)
Theorem channel_requests_layout c `{!CryptoLaws c} token out mac :
  mac_ok c token mac → kMaxDatagramSize ≤ length out → availability c = Ok →
  (∀ type p tag, type = ChannelMessageRequest ∨ type = ChannelAudioRequest →
     length (c_uuid p) = kUuidSize → length (c_payload p) ≤ channel_kMaxPayload →
     hmacSha256 c token (channelPrefix type p ++ token) = Some tag →
     encodeChannelRequest type c p token out mac =
       Some (channelFrame type p tag ++ drop (length (channelFrame type p tag)) out,
             Val (length (channelFrame type p tag))) ∧
     length (channelFrame type p tag) ≤ kMaxDatagramSize) ∧
  (∀ p tag, length (r_uuid p) = kUuidSize → length (r_payload p) ≤ channel_kMaxPayload →
     (r_maxDistance p ≤ channel_ranged_kMaxDistance)%Z →
     hmacSha256 c token (rangedPrefix p ++ token) = Some tag →
     encodeRangedChannelMessage c p token out mac =
       Some (rangedFrame p tag ++ drop (length (rangedFrame p tag)) out,
             Val (length (rangedFrame p tag))) ∧
     length (rangedFrame p tag) ≤ kMaxDatagramSize).
Proof.
  intros Hmac Ho Ha. split.
  - intros type p tag Hty Hu Hp Hh. apply hmac_length in Hh as Ht.
    assert (length (channelPrefix type p) = 44 + length (c_payload p)) as Hpl.
    { unfold channelPrefix. slen Hu. }
    assert (length (channelFrame type p tag) = channelRequestSize (length (c_payload p))) as ->.
    { unfold channelFrame, channelRequestSize.
      rewrite !length_app, Hpl, le.length_octets, Ht. simpl. sizes. lia. }
    split; [|unfold channelRequestSize; sizes; lia].
    rewrite encodeChannelRequest_writes by (try done; unfold channelRequestSize; sizes; lia).
    rewrite spatialHmac_keyed by (try done; sizes; lia). by rewrite Hh.
  - intros p tag Hu Hp Hd Hh. apply hmac_length in Hh as Ht.
    assert (length (rangedPrefix p) = 80 + length (r_payload p)) as Hpl.
    { unfold rangedPrefix. slen Hu. }
    assert (length (rangedFrame p tag) = rangedChannelRequestSize (length (r_payload p))) as ->.
    { unfold rangedFrame, rangedChannelRequestSize.
      rewrite !length_app, Hpl, le.length_octets, Ht. simpl. sizes. lia. }
    split; [|unfold rangedChannelRequestSize; sizes; lia].
    rewrite encodeRangedChannelMessage_writes
      by (try done; unfold rangedChannelRequestSize; sizes; lia).
    rewrite spatialHmac_keyed by (try done; sizes; lia). by rewrite Hh.
Qed.

Definition demoChannel : ChannelMessageParams :=
  {| c_channelId := 9; c_uuid := demoUuid; c_payload := [5; 6]%Z; c_gameTokenId := 77;
     c_sequence := 3 |}.

(** Voxel and event payloads survive the wire: whatever buffer they were encoded into, the
    octets written parse back to the same coordinates, type and state (all signed 16-bit
    values and any state up to 65535 octets), and trailing octets of a voxel payload do not
    change what is read. *)
Theorem payload_roundtrip x y z ty ev state out :
  in_s 16 x → in_s 16 y → in_s 16 z → in_s 16 ty → in_u 16 ev →
  (Z.of_nat (length state) ≤ 65535)%Z →
  voxel_kFixedSize + length state ≤ length out →
  (∃ out', encodeVoxelPayload x y z ty state out = Some (out', Val (10 + length state)) ∧
     length out' = length out ∧ drop (10 + length state) out' = drop (10 + length state) out ∧
     ∀ rest, parseVoxelPayload (take (10 + length state) out' ++ rest) =
       Some (Val {| vx := x; vy := y; vz := z; v_voxelType := ty; v_state := state |})) ∧
  (∃ out', encodeEventPayload ev state out = Some (out', Val (2 + length state)) ∧
     length out' = length out ∧
     parseEventPayload (take (2 + length state) out') =
       Some (Val {| e_eventType := ev; e_state := state |})).
Proof.
  intros Hx Hy Hz Hty Hev Hs Ho. split.
  - assert (length (voxelPayloadBytes x y z ty state) = 10 + length state) as Hl.
    { unfold voxelPayloadBytes. rewrite !length_app, !le.length_octets. lia. }
    eexists. split; [by apply encodeVoxelPayload_writes|]. split_and!.
    + rewrite length_app, length_drop, Hl. sizes. lia.
    + rewrite drop_app_ge by lia. rewrite Hl, drop_drop. sizes. f_equal. lia.
    + intros rest. rewrite <- Hl, take_app_length. by apply parse_voxelPayloadBytes.
  - eexists. split; [apply encodeEventPayload_writes; sizes; lia|]. split.
    + rewrite !length_app, length_drop, le.length_octets. sizes. lia.
    + rewrite take_app_le, firstn_all2 by (rewrite length_app, le.length_octets; lia).
      by apply parse_eventPayload.
Qed.
