(* ===== verification/Bundle.v ===== *)
(** * Bundle framing

    The bundle part of [include/crowdy/wire/codec.hpp]: [BundleWriter], which packs complete
    messages into one datagram, and [forEachMessage], which unpacks one. The writer owns a
    caller's buffer; its abstract state is the list of the messages appended. *)

From S2P Require Import Prelude Bytes Protocol Codec.

Definition kBundleHeaderSize : nat := 1.
Definition kBundleLengthPrefix : nat := 2.
Definition kMaxBundleMembers : nat := 32.
Definition kMaxBundleMemberSize : nat :=
  kMaxDatagramSize - kBundleHeaderSize - kBundleLengthPrefix.

(** ** BundleWriter *)

Record BundleWriter := mkBundle { bw_buf : bytes; bw_offset : nat; bw_count : nat }.

Definition bw_reset (w : BundleWriter) : BundleWriter :=
  mkBundle (match bw_buf w with [] => [] | _ :: l => MessageBundle :: l end)
    kBundleHeaderSize 0.

(** The constructor: take the buffer, then [reset()]. *)
Definition bw_make (buffer : bytes) : BundleWriter :=
  bw_reset (mkBundle buffer kBundleHeaderSize 0).

Definition bw_empty (w : BundleWriter) : bool := bool_decide (bw_count w = 0).

Definition bw_fits (w : BundleWriter) (len : nat) : bool :=
  if bool_decide (len = 0) || (65535 <? Z.of_nat len)%Z ||
     bool_decide (kMaxBundleMembers ≤ bw_count w) then false
  else bool_decide (bw_offset w + kBundleLengthPrefix + len ≤ length (bw_buf w)).

Definition bw_append (w : BundleWriter) (message : bytes) : option (BundleWriter * bool) :=
  if negb (bw_fits w (length message)) then Some (w, false) else
  b ← le.writeU16 (bw_buf w) (bw_offset w) (u16 (Z.of_nat (length message)));
  b ← memcpy b (bw_offset w + kBundleLengthPrefix) message;
  Some (mkBundle b (bw_offset w + (kBundleLengthPrefix + length message)) (S (bw_count w)), true).

Definition bw_datagram (w : BundleWriter) : option bytes :=
  if bool_decide (bw_count w = 0) then Some [] else
  if bool_decide (bw_count w = 1) then
    len ← le.readU16 (bw_buf w) kBundleHeaderSize;
    sub (bw_buf w) (kBundleHeaderSize + kBundleLengthPrefix) (Z.to_nat len)
  else sub (bw_buf w) 0 (bw_offset w).

Definition bw_firstType (w : BundleWriter) : option Z :=
  if bool_decide (bw_count w = 0) then Some 0%Z
  else le.readU8 (bw_buf w) (kBundleHeaderSize + kBundleLengthPrefix).

(** ** forEachMessage

    The callback is the list of the messages it is invoked with, in order. *)

(** The [while (offset < size)] loop; [None] on exhausted fuel or an out-of-range read. *)
Fixpoint walkMembers (fuel : nat) (d : bytes) (offset : nat) : option (list bytes * Status) :=
  match fuel with
  | O => None
  | S fuel =>
      if decide (offset < length d) then
        if decide (length d < offset + 2) then Some ([], Malformed) else
        msgLen ← le.readU16 d offset;
        let offset := offset + 2 in
        if decide (length d < offset + Z.to_nat msgLen) then Some ([], Malformed) else
        m ← sub d offset (Z.to_nat msgLen);
        r ← walkMembers fuel d (offset + Z.to_nat msgLen);
        Some (m :: r.1, r.2)
      else Some ([], Ok)
  end.

Definition forEachMessage (datagram : bytes) : option (list bytes * Status) :=
  match datagram with
  | [] => Some ([], Malformed)
  | t :: _ =>
      if (t =? MessageBundleSigned)%Z then
        if decide (length datagram ≤ kHmacTagSize + 1) then Some ([], Malformed) else
        d ← sub datagram 0 (length datagram - kHmacTagSize);
        walkMembers (S (length d)) d 1
      else if negb (t =? MessageBundle)%Z then Some ([datagram], Ok)
      else walkMembers (S (length datagram)) datagram 1
  end.

(** ** Abstract state *)

(** One framed member, and the members of a bundle. *)
Definition framed (m : bytes) : bytes := le.octets 2 (Z.of_nat (length m)) ++ m.
Definition bundleBody (ms : list bytes) : bytes := concat (framed <$> ms).

Definition member_ok (m : bytes) : Prop := m ≠ [] ∧ (Z.of_nat (length m) ≤ 65535)%Z.

(** The writer holds exactly the messages [ms]. *)
Definition bw_rep (w : BundleWriter) (ms : list bytes) : Prop :=
  bw_count w = length ms ∧ length ms ≤ kMaxBundleMembers ∧ Forall member_ok ms ∧
  bw_offset w = 1 + length (bundleBody ms) ∧ bw_offset w ≤ length (bw_buf w) ∧
  take (bw_offset w) (bw_buf w) = MessageBundle :: bundleBody ms.

(** ** Facts *)

Lemma length_framed m : length (framed m) = 2 + length m.
Proof. unfold framed. by rewrite length_app, le.length_octets. Qed.

Lemma bundleBody_app ms1 ms2 : bundleBody (ms1 ++ ms2) = bundleBody ms1 ++ bundleBody ms2.
Proof. unfold bundleBody. by rewrite fmap_app, concat_app. Qed.

Lemma bundleBody_cons m ms : bundleBody (m :: ms) = framed m ++ bundleBody ms.
Proof. done. Qed.

Lemma bundleBody_one m : bundleBody [m] = framed m.
Proof. rewrite bundleBody_cons. apply app_nil_r. Qed.

Lemma bw_make_rep buffer : 1 ≤ length buffer → bw_rep (bw_make buffer) [].
Proof.
  intros. destruct buffer as [|x l]; [simpl in *; lia|].
  unfold bw_rep, bw_make, bw_reset, bundleBody; simpl in *. split_and!; auto; lia.
Qed.

Lemma bw_reset_rep w ms : bw_rep w ms → bw_rep (bw_reset w) [].
Proof. intros (_&_&_&Ho&Hl&_). destruct w. apply (bw_make_rep bw_buf0). simpl in *. lia. Qed.

Lemma bw_fits_spec w ms len :
  bw_rep w ms →
  bw_fits w len = true ↔
  0 < len ∧ (Z.of_nat len ≤ 65535)%Z ∧ length ms < kMaxBundleMembers ∧
  bw_offset w + 2 + len ≤ length (bw_buf w).
Proof.
  intros (Hc&_). unfold bw_fits. rewrite Hc.
  destruct (Z.ltb_spec 65535 (Z.of_nat len)); repeat case_bool_decide; simpl;
    unfold kBundleLengthPrefix in *; intuition lia.
Qed.

Lemma bw_append_rep w ms m :
  bw_rep w ms → bw_fits w (length m) = true →
  ∃ w', bw_append w m = Some (w', true) ∧ bw_rep w' (ms ++ [m]) ∧
        length (bw_buf w') = length (bw_buf w).
Proof.
  intros Hr Hf. pose proof (proj1 (bw_fits_spec w ms _ Hr) Hf) as (Hm0&Hm1&Hms&Hfit).
  unfold bw_append. rewrite Hf. simpl negb. cbv iota.
  destruct Hr as (Hc&Hn&Hok&Ho&Hl&Hb). destruct w as [buf off cnt]; simpl in *.
  assert (∃ rest, buf = (MessageBundle :: bundleBody ms) ++ rest) as [rest ->].
  { exists (drop off buf). rewrite <- Hb. by rewrite take_drop. }
  rewrite length_app in Hfit. simpl length in Hfit. clear Hb Hl Hf. subst off cnt.
  unfold le.writeU16. rewrite le.octets_2, wrapU_id by (unfold in_u; lia).
  rewrite memcpy_step by (rewrite ?le.length_octets; simpl; lia). cbn [mbind option_bind].
  rewrite memcpy_step by
    (rewrite ?length_app, ?length_drop, !le.length_octets || rewrite length_drop, le.length_octets;
     unfold kBundleLengthPrefix; simpl; lia).
  cbn [mbind option_bind]. eexists. split; [done|].
  rewrite le.length_octets, drop_drop. unfold kBundleLengthPrefix, bw_rep.
  cbn [bw_buf bw_offset bw_count].
  rewrite bundleBody_app, !length_app, length_drop. cbn [length].
  rewrite bundleBody_one, length_framed, le.length_octets. split_and!; try lia.
  - apply Forall_app_2; [done|]. constructor; [|constructor].
    split; [by intros ->; simpl in *; lia|lia].
  - rewrite <- (app_assoc _ (le.octets _ _) m). fold (framed m).
    rewrite take_app_le, firstn_all2; [done|..];
      rewrite length_app, length_framed; cbn [length]; lia.
Qed.

(** ** The walk *)

Lemma walkMembers_defined fuel d offset :
  length d - offset < fuel → is_Some (walkMembers fuel d offset).
Proof.
  revert offset; induction fuel as [|fuel IH]; intros offset Hf; [lia|]. cbn [walkMembers].
  case_decide; [|by eauto]. case_decide; [by eauto|].
  destruct (le.readU16_Some d offset) as (n&->&_); [lia|]. cbn [mbind option_bind].
  case_decide; [by eauto|]. rewrite sub_Some by lia. cbn [mbind option_bind].
  destruct (IH (offset + 2 + Z.to_nat n)) as [r ->]; [lia|]. by eauto.
Qed.

(** A well-formed body is walked to exactly its members. *)
Lemma walkMembers_body fuel pre ms :
  Forall (λ m, Z.of_nat (length m) ≤ 65535)%Z ms → length (bundleBody ms) < fuel →
  walkMembers fuel (pre ++ bundleBody ms) (length pre) = Some (ms, Ok).
Proof.
  revert pre fuel; induction ms as [|m ms IH]; intros pre fuel Hms Hf.
  - destruct fuel; [lia|]. cbn [walkMembers]. unfold bundleBody; simpl.
    rewrite app_nil_r, decide_False by lia. done.
  - apply Forall_cons_1 in Hms as [Hm Hms].
    rewrite bundleBody_cons, length_app, length_framed in Hf. destruct fuel as [|fuel]; [lia|].
    cbn [walkMembers]. rewrite bundleBody_cons.
    assert (length (pre ++ framed m ++ bundleBody ms) =
            length pre + (2 + length m + length (bundleBody ms))) as Hl.
    { by rewrite !length_app, length_framed. }
    rewrite Hl, decide_True, decide_False by lia.
    assert (le.readU16 (pre ++ framed m ++ bundleBody ms) (length pre) =
            Some (u16 (Z.of_nat (length m)))) as ->.
    { unfold framed. rdf ltac:(rewrite ?le.length_octets; lia). }
    cbn [mbind option_bind].
    rewrite wrapU_id, Nat2Z.id by (unfold in_u; lia). rewrite decide_False by lia.
    assert (sub (pre ++ framed m ++ bundleBody ms) (length pre + 2) (length m) = Some m) as ->.
    { unfold framed. rdf ltac:(rewrite ?le.length_octets; lia). }
    cbn [mbind option_bind].
    replace (length pre + 2 + length m) with (length (pre ++ framed m))
      by (rewrite length_app, length_framed; lia).
    rewrite (app_assoc pre (framed m)), IH by (try done; lia). done.
Qed.

(** What a walk of any octets delivers is the framing it found, and it stops at a truncation. *)
Lemma walkMembers_sound fuel d offset ms st :
  Forall is_byte d → offset ≤ length d → walkMembers fuel d offset = Some (ms, st) →
  ∃ rest, drop offset d = bundleBody ms ++ rest ∧
          (st = Ok ∧ rest = [] ∨ st = Malformed ∧ rest ≠ []).
Proof.
  intros Hd. revert offset ms st. induction fuel as [|fuel IH]; intros offset ms st Ho; [done|].
  cbn [walkMembers]. destruct (decide (offset < length d)); cycle 1.
  { intros [= <- <-]. exists []. rewrite drop_ge by lia. auto. }
  assert (drop offset d ≠ []) as Hne.
  { intros E%(f_equal length). rewrite length_drop in E. simpl in E. lia. }
  case_decide; [intros [= <- <-]; exists (drop offset d); auto|].
  destruct (le.readU16 d offset) as [n|] eqn:En; [|done]. cbn [mbind option_bind].
  case_decide; [intros [= <- <-]; exists (drop offset d); auto|].
  destruct (le.readU16_Some d offset ltac:(lia)) as (n'&En'&Hn). rewrite En in En'. injection En' as <-.
  rewrite sub_Some by lia. cbn [mbind option_bind].
  destruct (walkMembers fuel d _) as [[ms' st']|] eqn:Ew; [|done].
  cbn [mbind option_bind fst snd]. intros [= <- <-].
  apply IH in Ew as (rest & Hr & Hst); [|lia].
  exists rest. split; [|done]. rewrite bundleBody_cons, <- app_assoc, <- Hr.
  apply le.readU16_octets in En; [|done]. rewrite sub_Some in En by lia. injection En as En.
  assert (length (take (Z.to_nat n) (drop (offset + 2) d)) = Z.to_nat n) as Hl
    by (rewrite length_take, length_drop; lia).
  unfold framed. rewrite Hl, Z2Nat.id by (unfold in_u in Hn; lia).
  rewrite <- En, <- app_assoc.
  rewrite <- (take_drop_middle_app (drop offset d) 2 (Z.to_nat n)) at 1.
  rewrite !drop_drop. lfeq.
Qed.

Lemma forEachMessage_defined d : is_Some (forEachMessage d).
Proof.
  destruct d as [|t l]; [by eauto|]. cbn [forEachMessage].
  destruct (t =? MessageBundleSigned)%Z.
  - case_decide; [by eauto|]. rewrite sub_Some by lia. cbn [mbind option_bind].
    apply walkMembers_defined. lia.
  - destruct (negb _); [by eauto|]. apply walkMembers_defined. lia.
Qed.
#[export] Hint Resolve forEachMessage_defined : crowdy.

Lemma forEachMessage_single d t :
  head d = Some t → t ≠ MessageBundle → t ≠ MessageBundleSigned →
  forEachMessage d = Some ([d], Ok).
Proof.
  intros Hd H1 H2. destruct d as [|x l]; simplify_eq/=.
  by rewrite (proj2 (Z.eqb_neq _ _) H2), (proj2 (Z.eqb_neq _ _) H1).
Qed.

Lemma forEachMessage_bundle ms :
  Forall member_ok ms → forEachMessage (MessageBundle :: bundleBody ms) = Some (ms, Ok).
Proof.
  intros Hms. cbn [forEachMessage]. change (MessageBundle =? MessageBundleSigned)%Z with false.
  change (negb (MessageBundle =? MessageBundle)%Z) with false. cbv iota.
  apply (walkMembers_body _ [MessageBundle]); [|cbn [length]; lia].
  revert Hms. apply Forall_impl. by intros m [_ ?].
Qed.

(** The datagram of a writer. *)
Lemma bw_datagram_rep w ms :
  bw_rep w ms →
  bw_datagram w = Some (match ms with
                        | [] => []
                        | [m] => m
                        | _ => MessageBundle :: bundleBody ms
                        end).
Proof.
  intros (Hc&_&Hok&Ho&Hl&Hb). unfold bw_datagram. rewrite Hc.
  destruct ms as [|m [|m' ms]]; simpl length.
  - done.
  - rewrite bool_decide_false, bool_decide_true by lia.
    apply Forall_cons_1 in Hok as [[_ Hm] _].
    rewrite bundleBody_one, length_framed in Ho. rewrite bundleBody_one in Hb.
    rewrite <- (take_drop (bw_offset w) (bw_buf w)), Hb.
    change (MessageBundle :: framed m) with ([MessageBundle] ++ framed m).
    unfold framed. rewrite <- !app_assoc. unfold kBundleHeaderSize, kBundleLengthPrefix.
    rewrite le.readU16_skip, le.readU16_first by (simpl; lia). cbn [mbind option_bind].
    rewrite wrapU_id, Nat2Z.id by (unfold in_u; lia).
    rewrite !sub_skip, sub_first by (rewrite ?le.length_octets; simpl; lia). done.
  - rewrite !bool_decide_false by lia. rewrite sub_Some by lia. by rewrite drop_0, Hb.
Qed.

(** ** Reachable writers *)

Inductive bw_step : BundleWriter → BundleWriter → Prop :=
| bw_step_append w m w' b : bw_append w m = Some (w', b) → bw_step w w'
| bw_step_reset w : bw_step w (bw_reset w).

Definition bw_reachable (cap : nat) (w : BundleWriter) : Prop :=
  ∃ buffer, length buffer = cap ∧ rtc bw_step (bw_make buffer) w.

Lemma bw_step_rep w w' ms :
  bw_rep w ms → bw_step w w' →
  length (bw_buf w') = length (bw_buf w) ∧ ∃ ms', bw_rep w' ms'.
Proof.
  intros Hr Hs. revert Hr. destruct Hs as [w m w' b Ha|w]; intros Hr.
  - destruct (bw_fits w (length m)) eqn:Hf.
    + destruct (bw_append_rep _ _ _ Hr Hf) as (w2&E&Hr2&Hl). simplify_eq. eauto.
    + unfold bw_append in Ha. rewrite Hf in Ha. simplify_eq/=. eauto.
  - split; [by destruct w as [[|]]|]. eauto using bw_reset_rep.
Qed.

Lemma bw_reachable_rep cap w :
  1 ≤ cap → bw_reachable cap w → length (bw_buf w) = cap ∧ ∃ ms, bw_rep w ms.
Proof.
  intros Hcap (buffer & <- & Hs).
  assert (length (bw_buf (bw_make buffer)) = length buffer) as Hb by (by destruct buffer).
  assert (∃ ms, bw_rep (bw_make buffer) ms) as Hr by (eexists; by apply bw_make_rep).
  revert Hb Hr. induction Hs as [w|w w1 w2 Hst _ IH]; [done|].
  intros Hb [ms Hr]. destruct (bw_step_rep _ _ _ Hr Hst) as [Hl Hr1].
  apply IH; [congruence|done].
Qed.

(** ** Theorems *)

(** C12. The writer refines the list of its messages: in every reachable state of a writer
    over a buffer of [cap] octets, [append] takes a message exactly when it is non-empty, at
    most 65535 octets, the bundle holds fewer than 32 messages and the framed message still
    fits the buffer; then the message is appended behind the others, and otherwise nothing
    changes. Every datagram fits the buffer. *)
Theorem bundleWriter_refines_list cap w m :
  1 ≤ cap → bw_reachable cap w →
  ∃ ms, bw_rep w ms ∧ length (bw_buf w) = cap ∧
    (if decide (0 < length m ∧ length m ≤ Z.to_nat 65535 ∧ length ms < 32 ∧
                1 + length (bundleBody ms) + 2 + length m ≤ cap)
     then ∃ w', bw_append w m = Some (w', true) ∧ bw_rep w' (ms ++ [m])
     else bw_append w m = Some (w, false)) ∧
    ∃ d, bw_datagram w = Some d ∧ length d ≤ cap.
Proof.
  intros Hcap Hw. destruct (bw_reachable_rep cap w Hcap Hw) as [Hl [ms Hr]].
  exists ms. split_and!; [done|done| |].
  - pose proof (bw_fits_spec w ms (length m) Hr) as Hf. pose proof Hr as (_&_&_&Ho&_&_).
    destruct (bw_fits w (length m)) eqn:E.
    + destruct (proj1 Hf eq_refl) as (?&?&?&?). rewrite decide_True by
        (unfold kMaxBundleMembers in *; lia).
      destruct (bw_append_rep w ms m Hr E) as (w'&?&?&_). eauto.
    + rewrite decide_False.
      * unfold bw_append. by rewrite E.
      * intros (?&?&?&?). assert (false = true); [|done]. apply Hf.
        unfold kMaxBundleMembers. lia.
  - rewrite (bw_datagram_rep w ms Hr). eexists. split; [done|].
    destruct Hr as (_&_&_&Ho&Hle&_). rewrite <- Hl.
    destruct ms as [|x [|y ms]]; [simpl; lia| |cbn [length]; lia].
    rewrite bundleBody_one, length_framed in Ho. lia.
Qed.

Lemma bundleWriter_refines_list_witness :
  ∃ w' ms, bw_append (bw_make (replicate 16 0%Z)) [7; 7; 7]%Z = Some (w', true) ∧
           bw_rep w' (ms ++ [[7; 7; 7]%Z]).
Proof.
  assert (bw_reachable 16 (bw_make (replicate 16 0%Z))) as Hr
    by (exists (replicate 16 0%Z); split; [reflexivity|constructor]).
  destruct (bundleWriter_refines_list 16 _ [7; 7; 7]%Z ltac:(lia) Hr)
    as (ms & Hrep & _ & Ha & _).
  assert (ms = []) as -> by (destruct Hrep as (Hc&_); by destruct ms).
  rewrite decide_True in Ha by (simpl; lia). destruct Ha as (w'&?&?). eauto.
Defined.

(** C13. What a writer packs, the receiver unpacks: the datagram of any reachable non-empty
    writer is walked by [forEachMessage] to exactly the messages appended, in order. A lone
    message travels unwrapped, so it must not itself be a bundle opcode (the client never
    nests bundles). *)
Theorem bundle_roundtrip w ms :
  bw_rep w ms → ms ≠ [] →
  (∀ m, ms = [m] → ∃ t, head m = Some t ∧ t ≠ MessageBundle ∧ t ≠ MessageBundleSigned) →
  ∃ d, bw_datagram w = Some d ∧ forEachMessage d = Some (ms, Ok).
Proof.
  intros Hr Hne Hone. rewrite (bw_datagram_rep w ms Hr). eexists. split; [done|].
  destruct ms as [|m [|m' ms]]; [done| |].
  - destruct (Hone m eq_refl) as (t&?&?&?). by eapply forEachMessage_single.
  - apply forEachMessage_bundle. by destruct Hr as (_&_&?&_).
Qed.

Lemma bundle_roundtrip_witness :
  ∃ w d, bw_append (bw_make (replicate 16 0%Z)) [7]%Z = Some (w, true) ∧
         bw_datagram w = Some d ∧ forEachMessage d = Some ([[7]%Z], Ok).
Proof.
  destruct (bw_append_rep (bw_make (replicate 16 0%Z)) [] [7]%Z) as (w & E & Hr & _);
    [apply bw_make_rep; simpl; lia|reflexivity|].
  destruct (bundle_roundtrip w [[7]%Z] Hr ltac:(done)) as (d & Hd & Hw).
  - intros m [= <-]. exists 7%Z. split; [reflexivity|]. split; vm_compute; discriminate.
  - exists w, d. auto.
Defined.

(** Unpacking is total and honest on hostile input: for every octet sequence it
    terminates without reading outside the datagram, and the messages it delivers are exactly
    the framing present. An unsigned bundle is its opcode, the framed messages and a rest
    that is empty when the status is [Ok] and a truncated member when it is [Malformed]; a
    signed bundle is the same in front of its 32-octet tag; any other datagram is delivered
    whole. *)
Theorem forEachMessage_sound d :
  Forall is_byte d →
  ∃ ms st, forEachMessage d = Some (ms, st) ∧
    (ms = [] ∧ st = Malformed ∨ ms = [d] ∧ st = Ok ∨
     ∃ t tag rest, d = t :: bundleBody ms ++ rest ++ tag ∧
       (t = MessageBundle ∧ tag = [] ∨ t = MessageBundleSigned ∧ length tag = 32) ∧
       (st = Ok ∧ rest = [] ∨ st = Malformed ∧ rest ≠ [])).
Proof.
  intros Hd. destruct (forEachMessage_defined d) as [[ms st] E]. exists ms, st.
  split; [done|]. destruct d as [|t l]; [simplify_eq/=; auto|]. cbn [forEachMessage] in E.
  destruct (Z.eqb_spec t MessageBundleSigned) as [->|Hs].
  - case_decide as Hlen; [simplify_eq; auto|]. right; right.
    rewrite sub_Some in E by lia. cbn [mbind option_bind] in E. rewrite drop_0 in E.
    set (n := length (MessageBundleSigned :: l) - kHmacTagSize) in *.
    assert (length (take n (MessageBundleSigned :: l)) = n) as Hn by (rewrite length_take; lia).
    apply walkMembers_sound in E as (rest & Hr & Hst);
      [|by apply Forall_take|unfold kHmacTagSize in *; lia].
    exists MessageBundleSigned, (drop n (MessageBundleSigned :: l)), rest.
    split_and!; [|right; split; [done|rewrite length_drop; unfold kHmacTagSize in *; lia]|done].
    rewrite <- (take_drop n (MessageBundleSigned :: l)) at 1.
    destruct n as [|n'] eqn:En; [unfold kHmacTagSize in *; lia|].
    cbn [take drop] in *. rewrite drop_0 in Hr. rewrite Hr. simpl. by rewrite <- app_assoc.
  - destruct (Z.eqb_spec t MessageBundle) as [->|Hb]; simpl negb in E; cbv iota in E.
    + right; right. apply walkMembers_sound in E as (rest & Hr & Hst); [|done|simpl; lia].
      exists MessageBundle, [], rest. cbn [drop] in Hr. rewrite drop_0 in Hr.
      rewrite app_nil_r, Hr. auto.
    + simplify_eq. auto.
Qed.
