(* ===== verification/Spsc.v ===== *)
(** * The single-producer single-consumer ring

    [include/crowdy/core/spsc.hpp], [SpscRing]. The two counters are 64-bit and wrap; the
    slot of a counter is its low bits. First the operations as functions on the ring, then the
    two threads as a step relation whose steps are the single atomic loads and stores and the
    slot accesses of [tryPush] and [tryPop], interleaved in any order (the release stores and
    acquire loads order each slot access before the counter that publishes it, so the
    interleavings of these steps are the executions). *)

From S2P Require Import Prelude.

Section Ring.
Context {T : Type}.

Record SpscRing := mkRing { slots_ : list T; mask_ : Z; head_ : Z; tail_ : Z }.

(** [while (cap < capacity) cap <<= 1;] in a 64-bit register; [None] when it has not ended
    after [fuel] doublings. *)
Fixpoint roundCapacity (fuel : nat) (cap capacity : Z) : option Z :=
  if (cap <? capacity)%Z then
    match fuel with
    | O => None
    | S fuel => roundCapacity fuel (u64 (Z.shiftl cap 1)) capacity
    end
  else Some cap.

(** The constructor: 64 doublings exhaust the register. *)
Definition makeRing (d : T) (capacity : Z) : option SpscRing :=
  cap ← roundCapacity 64 1 capacity;
  Some (mkRing (replicate (Z.to_nat cap) d) (cap - 1) 0 0).

Definition slotIndex (mask counter : Z) : nat := Z.to_nat (Z.land counter mask).

Definition slotStore (r : SpscRing) (counter : Z) (x : T) : option SpscRing :=
  if decide (slotIndex (mask_ r) counter < length (slots_ r)) then
    Some (mkRing (<[slotIndex (mask_ r) counter := x]> (slots_ r)) (mask_ r) (head_ r) (tail_ r))
  else UB.

Definition tryPush (r : SpscRing) (item : T) : option (SpscRing * bool) :=
  let head := head_ r in
  let tail := tail_ r in
  if (mask_ r <? u64 (head - tail))%Z then Some (r, false) else
  r ← slotStore r head item;
  Some (mkRing (slots_ r) (mask_ r) (u64 (head + 1)) (tail_ r), true).

Definition tryPop (r : SpscRing) : option (SpscRing * option T) :=
  let tail := tail_ r in
  let head := head_ r in
  if (tail =? head)%Z then Some (r, None) else
  item ← slots_ r !! slotIndex (mask_ r) tail;
  Some (mkRing (slots_ r) (mask_ r) (head_ r) (u64 (tail + 1)), Some item).

Definition sizeApprox (r : SpscRing) : Z := u64 (head_ r - tail_ r).

(** ** The two threads *)

(** Where the producer is inside [tryPush]: the values it has loaded so far. *)
Inductive Producer :=
| PIdle
| PCalled (item : T)                 (* entered with [item] *)
| PHead (item : T) (head : Z)        (* head_ loaded *)
| PTail (item : T) (head tail : Z)   (* tail_ loaded *)
| PWrote (item : T) (head : Z).      (* slot written, head_ not yet published *)

Inductive Consumer :=
| CIdle
| CCalled
| CTail (tail : Z)                   (* tail_ loaded *)
| CHead (tail head : Z)              (* head_ loaded *)
| CRead (item : T) (tail : Z).       (* slot moved out, tail_ not yet published *)

(** The system with what the callers observed: the items whose push returned [true] and the
    items that were popped. *)
Record Sys := mkSys {
  ring : SpscRing; prod : Producer; cons : Consumer;
  pushed : list T; popped : list T;
}.

Inductive step : Sys → Sys → Prop :=
| step_push_call r c a b item :
    step (mkSys r PIdle c a b) (mkSys r (PCalled item) c a b)
| step_push_head r c a b item :
    step (mkSys r (PCalled item) c a b) (mkSys r (PHead item (head_ r)) c a b)
| step_push_tail r c a b item h :
    step (mkSys r (PHead item h) c a b) (mkSys r (PTail item h (tail_ r)) c a b)
| step_push_full r c a b item h t :
    (mask_ r < u64 (h - t))%Z →
    step (mkSys r (PTail item h t) c a b) (mkSys r PIdle c a b)
| step_push_write r r' c a b item h t :
    (u64 (h - t) ≤ mask_ r)%Z → slotStore r h item = Some r' →
    step (mkSys r (PTail item h t) c a b) (mkSys r' (PWrote item h) c a b)
| step_push_publish r c a b item h :
    step (mkSys r (PWrote item h) c a b)
         (mkSys (mkRing (slots_ r) (mask_ r) (u64 (h + 1)) (tail_ r)) PIdle c (a ++ [item]) b)
| step_pop_call r p a b :
    step (mkSys r p CIdle a b) (mkSys r p CCalled a b)
| step_pop_tail r p a b :
    step (mkSys r p CCalled a b) (mkSys r p (CTail (tail_ r)) a b)
| step_pop_head r p a b t :
    step (mkSys r p (CTail t) a b) (mkSys r p (CHead t (head_ r)) a b)
| step_pop_empty r p a b t :
    step (mkSys r p (CHead t t) a b) (mkSys r p CIdle a b)
| step_pop_read r r' p a b t h item moved :
    t ≠ h → slots_ r !! slotIndex (mask_ r) t = Some item →
    slotStore r t moved = Some r' →  (* the moved-from slot holds anything *)
    step (mkSys r p (CHead t h) a b) (mkSys r' p (CRead item t) a b)
| step_pop_publish r p a b t item :
    step (mkSys r p (CRead item t) a b)
         (mkSys (mkRing (slots_ r) (mask_ r) (head_ r) (u64 (t + 1))) p CIdle a (b ++ [item])).

Definition initial (d : T) (capacity : Z) (s : Sys) : Prop :=
  ∃ r, makeRing d capacity = Some r ∧ s = mkSys r PIdle CIdle [] [].

(** ** The abstract ring: counters without wrap-around *)

(** The slot of the [n]-th item in a ring of [2^k] slots. *)
Definition slot (k : Z) (n : nat) : nat := Z.to_nat (Z.of_nat n `mod` 2 ^ k).

(** [r] has [2^k] slots, has seen [H] pushes and [N] pops. *)
Definition counts (r : SpscRing) (k : Z) (H N : nat) : Prop :=
  (0 ≤ k < 64)%Z ∧ mask_ r = (2 ^ k - 1)%Z ∧ length (slots_ r) = Z.to_nat (2 ^ k) ∧
  head_ r = u64 (Z.of_nat H) ∧ tail_ r = u64 (Z.of_nat N) ∧
  N ≤ H ∧ (Z.of_nat H - Z.of_nat N ≤ 2 ^ k)%Z.

(** Slot [i] holds item [i] of [a] for [lo <= i < hi]. *)
Definition holds (r : SpscRing) (k : Z) (a : list T) (lo hi : nat) : Prop :=
  ∀ i, lo ≤ i < hi → slots_ r !! slot k i = a !! i.

(** The ring holds the queue [q] (oldest first). *)
Definition ring_rep (r : SpscRing) (k : Z) (q : list T) : Prop :=
  ∃ a N, counts r k (length a) N ∧ holds r k a N (length a) ∧ q = drop N a.

Definition producer_ok (s : Sys) (k : Z) : Prop :=
  let H := length (pushed s) in let N := length (popped s) in
  match prod s with
  | PIdle | PCalled _ => True
  | PHead _ h => h = u64 (Z.of_nat H)
  | PTail _ h t => h = u64 (Z.of_nat H) ∧
      ∃ N', N' ≤ N ∧ t = u64 (Z.of_nat N') ∧ (Z.of_nat H - Z.of_nat N' ≤ 2 ^ k)%Z
  | PWrote x h => h = u64 (Z.of_nat H) ∧ (Z.of_nat H - Z.of_nat N < 2 ^ k)%Z ∧
      slots_ (ring s) !! slot k H = Some x
  end.

Definition consumer_ok (s : Sys) (k : Z) : Prop :=
  let H := length (pushed s) in let N := length (popped s) in
  match cons s with
  | CIdle | CCalled => True
  | CTail t => t = u64 (Z.of_nat N)
  | CHead t h => t = u64 (Z.of_nat N) ∧ ∃ H', N ≤ H' ≤ H ∧ h = u64 (Z.of_nat H')
  | CRead x t => t = u64 (Z.of_nat N) ∧ N < H ∧ pushed s !! N = Some x
  end.

(** The first slot still owned by the ring: the consumer has taken one in [CRead]. *)
Definition taken (c : Consumer) : nat := match c with CRead _ _ => 1 | _ => 0 end.

Definition inv (s : Sys) : Prop :=
  ∃ k, counts (ring s) k (length (pushed s)) (length (popped s)) ∧
    holds (ring s) k (pushed s) (length (popped s) + taken (cons s)) (length (pushed s)) ∧
    popped s = take (length (popped s)) (pushed s) ∧
    producer_ok s k ∧ consumer_ok s k.

(** ** Arithmetic of the wrapped counters *)

Lemma slotIndex_counter k (n : nat) :
  (0 ≤ k < 64)%Z →
  slotIndex (2 ^ k - 1) (u64 (Z.of_nat n)) = slot k n.
Proof.
  intros Hk. unfold slotIndex, slot. f_equal.
  replace (2 ^ k - 1)%Z with (Z.ones k) by (rewrite Z.ones_equiv; lia).
  rewrite Z.land_ones by lia. unfold wrapU.
  apply Z.mod_mod_divide.
  exists (2 ^ (64 - k))%Z. rewrite <- Z.pow_add_r by lia. f_equal. lia.
Qed.

Lemma slot_in_range k (n : nat) :
  (0 ≤ k)%Z → slot k n < Z.to_nat (2 ^ k).
Proof.
  unfold slot. intros. pose proof (Z.mod_pos_bound (Z.of_nat n) (2 ^ k) (pow2_pos k H)). lia.
Qed.

(** Different counters less than a ring apart use different slots. *)
Lemma slots_differ k (i j : nat) :
  (0 ≤ k)%Z → i < j → (Z.of_nat j - Z.of_nat i < 2 ^ k)%Z →
  slot k i ≠ slot k j.
Proof.
  unfold slot. intros Hk Hij Hd Heq. pose proof (pow2_pos k Hk) as Hp.
  apply (f_equal Z.of_nat) in Heq.
  rewrite !Z2Nat.id in Heq by (apply Z.mod_pos_bound; lia).
  assert (((Z.of_nat j - Z.of_nat i) `mod` 2 ^ k)%Z = 0%Z) as Hz.
  { rewrite Zminus_mod, Heq, Z.sub_diag. apply Z.mod_0_l. lia. }
  rewrite Z.mod_small in Hz by lia. lia.
Qed.

Lemma counter_diff (H N : nat) (k : Z) :
  (0 ≤ k < 64)%Z → N ≤ H → (Z.of_nat H - Z.of_nat N ≤ 2 ^ k)%Z →
  u64 (u64 (Z.of_nat H) - u64 (Z.of_nat N)) = (Z.of_nat H - Z.of_nat N)%Z.
Proof.
  intros Hk HN Hd. assert (2 ^ k < 2 ^ 64)%Z by (apply Z.pow_lt_mono_r; lia).
  unfold wrapU in *. rewrite <- Zminus_mod. apply Z.mod_small. lia.
Qed.

Lemma counter_succ (n : nat) : u64 (u64 (Z.of_nat n) + 1) = u64 (Z.of_nat (S n)).
Proof. unfold wrapU. rewrite Zplus_mod_idemp_l. f_equal. lia. Qed.

Lemma counter_eq k (N H : nat) :
  (0 ≤ k < 64)%Z → N ≤ H → (Z.of_nat H - Z.of_nat N ≤ 2 ^ k)%Z →
  u64 (Z.of_nat N) = u64 (Z.of_nat H) → N = H.
Proof.
  intros Hk HN Hd Heq. pose proof (counter_diff H N k Hk HN Hd) as E.
  rewrite Heq, Z.sub_diag in E. unfold wrapU in E. rewrite Zmod_0_l in E. lia.
Qed.

(** ** Slot stores *)

Lemma slotStore_slot r k H N n x :
  counts r k H N →
  slotStore r (u64 (Z.of_nat n)) x =
    Some (mkRing (<[slot k n := x]> (slots_ r)) (mask_ r) (head_ r) (tail_ r)).
Proof.
  intros (Hk & Hm & Hl & _). unfold slotStore. rewrite Hm, slotIndex_counter by done.
  rewrite decide_True; [done|]. rewrite Hl. apply slot_in_range. lia.
Qed.

Lemma counts_store r k H N n x :
  counts r k H N →
  counts (mkRing (<[slot k n := x]> (slots_ r)) (mask_ r) (head_ r) (tail_ r)) k H N.
Proof. unfold counts. cbn. by rewrite length_insert. Qed.

Lemma counts_push r k H N :
  counts r k H N → (Z.of_nat H - Z.of_nat N < 2 ^ k)%Z →
  counts (mkRing (slots_ r) (mask_ r) (u64 (u64 (Z.of_nat H) + 1)) (tail_ r)) k (S H) N.
Proof. unfold counts. cbn. intros (?&?&?&?&?&?&?) ?. rewrite counter_succ. repeat split; try done; lia. Qed.

Lemma counts_pop r k H N :
  counts r k H N → N < H →
  counts (mkRing (slots_ r) (mask_ r) (head_ r) (u64 (u64 (Z.of_nat N) + 1))) k H (S N).
Proof. unfold counts. cbn. intros (?&?&?&?&?&?&?) ?. rewrite counter_succ. repeat split; try done; lia. Qed.

(** A store below or above the live range, less than a ring away, leaves the items. *)
Lemma holds_store r k a lo hi n x m h t :
  (0 ≤ k)%Z → holds r k a lo hi →
  (n < lo ∧ (Z.of_nat hi - Z.of_nat n ≤ 2 ^ k)%Z ∨ hi ≤ n ∧ (Z.of_nat n - Z.of_nat lo < 2 ^ k)%Z) →
  holds (mkRing (<[slot k n := x]> (slots_ r)) m h t) k a lo hi.
Proof.
  intros Hk Hh Hn i Hi. cbn. rewrite list_lookup_insert_ne; [by apply Hh|].
  destruct Hn as [[]|[]]; [|apply not_eq_sym]; apply slots_differ; lia.
Qed.

Lemma lookup_stored r k H N n x :
  counts r k H N → <[slot k n := x]> (slots_ r) !! slot k n = Some x.
Proof.
  intros (Hk & Hm & Hl & _). apply list_lookup_insert_eq. rewrite Hl. apply slot_in_range. lia.
Qed.

(** Publishing the item stored in slot [length a]. *)
Lemma holds_push r k a lo x m h t :
  holds r k a lo (length a) → slots_ r !! slot k (length a) = Some x →
  holds (mkRing (slots_ r) m h t) k (a ++ [x]) lo (length (a ++ [x])).
Proof.
  intros Hh Hx i Hi. rewrite length_app in Hi. cbn in Hi |- *.
  destruct (decide (i = length a)) as [->|].
  - rewrite Hx, lookup_app_r, Nat.sub_diag by lia. done.
  - rewrite lookup_app_l by lia. apply Hh. lia.
Qed.

Lemma holds_weaken r k a lo lo' hi :
  holds r k a lo hi → lo ≤ lo' → holds r k a lo' hi.
Proof. intros Hh Hl i Hi. apply Hh. lia. Qed.

(** ** Construction *)

Lemma roundCapacity_spec fuel j c :
  (0 ≤ j)%Z → (c ≤ 2 ^ 63)%Z → (j = 0 ∨ 2 ^ (j - 1) < c)%Z → (63 - j < Z.of_nat fuel)%Z →
  ∃ k, roundCapacity fuel (2 ^ j) c = Some (2 ^ k)%Z ∧ (0 ≤ k < 64)%Z ∧
    (c ≤ 2 ^ k)%Z ∧ (k = 0 ∨ 2 ^ (k - 1) < c)%Z.
Proof.
  revert j. induction fuel as [|fuel IH]; intros j Hj Hc Hlow Hf; cbn [roundCapacity].
  - assert (j < 64)%Z. { destruct Hlow as [->|Hlow]; [lia|].
      enough (j - 1 < 63)%Z by lia. apply (Z.pow_lt_mono_r_iff 2); lia. }
    lia.
  - destruct (Z.ltb_spec (2 ^ j) c) as [Hlt|Hge].
    + assert (j < 63)%Z by (apply (Z.pow_lt_mono_r_iff 2); lia).
      assert (2 ^ (j + 1) <= 2 ^ 63)%Z by (apply Z.pow_le_mono_r; lia).
      rewrite Z.shiftl_mul_pow2, Z.mul_comm, <- Z.pow_add_r, (Z.add_comm 1) by lia.
      rewrite wrapU_id by (pose proof (pow2_pos (j + 1)); unfold in_u; lia).
      apply IH; try lia. right. by replace (j + 1 - 1)%Z with j by lia.
    + exists j. repeat split; try done. destruct Hlow as [->|Hlow]; [lia|].
      enough (j - 1 < 63)%Z by lia. apply (Z.pow_lt_mono_r_iff 2); lia.
Qed.

Lemma makeRing_ok d c :
  (0 ≤ c ≤ 2 ^ 63)%Z →
  ∃ k, makeRing d c = Some (mkRing (replicate (Z.to_nat (2 ^ k)) d) (2 ^ k - 1) 0 0) ∧
    (0 ≤ k < 64)%Z ∧ (c ≤ 2 ^ k)%Z ∧ (k = 0 ∨ 2 ^ (k - 1) < c)%Z.
Proof.
  intros Hc. destruct (roundCapacity_spec 64 0 c) as (k & E & Hk); try lia.
  exists k. unfold makeRing. change (2 ^ 0)%Z with 1%Z in E. rewrite E. done.
Qed.

Lemma counts_new k d :
  (0 ≤ k < 64)%Z → counts (mkRing (replicate (Z.to_nat (2 ^ k)) d) (2 ^ k - 1) 0 0) k 0 0.
Proof.
  intros Hk. pose proof (pow2_pos k). unfold counts. cbn. rewrite length_replicate. 
  repeat split; try done; lia.
Qed.

(** ** The invariant of the two threads *)

Lemma inv_initial d c s : (0 ≤ c ≤ 2 ^ 63)%Z → initial d c s → inv s.
Proof.
  intros Hc (r & Hr & ->). destruct (makeRing_ok d c Hc) as (k & E & Hk & _).
  rewrite E in Hr. injection Hr as <-. exists k. cbn.
  split_and!; try done; [by apply counts_new | intros i Hi; lia].
Qed.

Lemma inv_producer_load r c a b item h :
  inv (mkSys r (PHead item h) c a b) → inv (mkSys r (PTail item h (tail_ r)) c a b).
Proof.
  intros (k & Hc & Hh & Hp & Hpr & Hco). exists k. cbn in *. split_and!; try done.
  destruct Hc as (?&?&?&?&Ht&?&?). exists (length b). done.
Qed.

Lemma inv_push_write r r' c a b item h t :
  inv (mkSys r (PTail item h t) c a b) → (u64 (h - t) ≤ mask_ r)%Z →
  slotStore r h item = Some r' → inv (mkSys r' (PWrote item h) c a b).
Proof.
  intros (k & Hc & Hh & Hp & (-> & N' & HN' & -> & Hle) & Hco) Hg Hs. cbn in *.
  erewrite slotStore_slot in Hs by done. injection Hs as <-.
  pose proof Hc as (Hk & Hm & _ & _ & _ & HN & _).
  rewrite Hm, (counter_diff _ _ k) in Hg by lia.
  exists k. split_and!; cbn; try done.
  - by apply counts_store.
  - apply holds_store; [lia|done|right; lia].
  - split_and!; [done|lia|by eapply lookup_stored].
Qed.

Lemma inv_push_publish r c a b item h :
  inv (mkSys r (PWrote item h) c a b) →
  inv (mkSys (mkRing (slots_ r) (mask_ r) (u64 (h + 1)) (tail_ r)) PIdle c (a ++ [item]) b).
Proof.
  intros (k & Hc & Hh & Hp & (-> & Hlt & Hx) & Hco). cbn in *. 
  pose proof Hc as (_ & _ & _ & _ & _ & HN & _).
  exists k. split_and!; cbn; try done.
  - rewrite length_app, Nat.add_1_r. by apply counts_push.
  - by apply holds_push.
  - rewrite take_app_le by lia. done.
  - destruct c; cbn in *; rewrite ?length_app; try done.
    + destruct Hco as (-> & H' & ? & ->). split; [done|]. exists H'. lia.
    + destruct Hco as (-> & ? & ?). split_and!; [done|lia|]. by rewrite lookup_app_l by lia.
Qed.

Lemma inv_pop_read r r' p a b t h item moved :
  inv (mkSys r p (CHead t h) a b) → t ≠ h → slots_ r !! slotIndex (mask_ r) t = Some item →
  slotStore r t moved = Some r' → inv (mkSys r' p (CRead item t) a b).
Proof.
  intros (k & Hc & Hh & Hp & Hpr & -> & H' & HH' & ->) Hne Hi Hs. cbn in *.
  erewrite slotStore_slot in Hs by done. injection Hs as <-.
  pose proof Hc as (Hk & Hm & _ & _ & _ & HN & Hd).
  rewrite Hm, slotIndex_counter in Hi by done.
  assert (length b ≠ H') by congruence.
  exists k. split_and!; cbn; try done.
  - by apply counts_store.
  - apply holds_store; [lia|eapply holds_weaken; [done|lia]|left; lia].
  - destruct p; cbn in *; try done. destruct Hpr as (-> & Hlt & Hx).
    split_and!; try done. rewrite list_lookup_insert_ne; [done|]. apply slots_differ; lia.
  - split_and!; [done|lia|]. rewrite <- Hi. symmetry. apply Hh. lia.
Qed.

Lemma inv_pop_publish r p a b t item :
  inv (mkSys r p (CRead item t) a b) →
  inv (mkSys (mkRing (slots_ r) (mask_ r) (head_ r) (u64 (t + 1))) p CIdle a (b ++ [item])).
Proof.
  intros (k & Hc & Hh & Hp & Hpr & -> & Hlt & Hx). cbn in *.
  exists k. split_and!; cbn; try done.
  - rewrite length_app, Nat.add_1_r. by apply counts_pop.
  - rewrite length_app. cbn. rewrite Nat.add_0_r. done.
  - rewrite length_app, Nat.add_1_r, (take_S_r _ _ _ Hx). by rewrite <- Hp.
  - destruct p; cbn in *; rewrite ?length_app; try done.
    + destruct Hpr as (-> & N' & ? & -> & ?). split; [done|]. exists N'. split_and!; try done; lia.
    + destruct Hpr as (-> & ? & ?). split_and!; try done. lia.
Qed.

Lemma inv_step s s' : inv s → step s s' → inv s'.
Proof.
  intros Hinv Hstep. destruct Hstep; eauto using inv_producer_load, inv_push_write,
    inv_push_publish, inv_pop_read, inv_pop_publish.
  all: destruct Hinv as (k & Hc & Hh & Hp & Hpr & Hco); exists k; cbn in *; split_and!; try done.
  all: destruct Hc as (?&?&?&?&?&?&?); try done.
  by eexists; split_and!; [..|done].
Qed.

Lemma inv_reachable d c s0 s :
  (0 ≤ c ≤ 2 ^ 63)%Z → initial d c s0 → rtc step s0 s → inv s.
Proof.
  intros Hc H0 Hr. apply (inv_initial d) in H0; [|done].
  induction Hr; eauto using inv_step.
Qed.

(** ** The ring used by one thread at a time *)

Lemma ring_rep_counts r k q :
  ring_rep r k q → ∃ a N, counts r k (length a) N ∧ holds r k a N (length a) ∧ q = drop N a ∧
    (Z.of_nat (length a) - Z.of_nat N)%Z = Z.of_nat (length q).
Proof.
  intros (a & N & Hc & Hh & ->). exists a, N. split_and!; try done.
  destruct Hc as (_&_&_&_&_&?&_). rewrite length_drop. lia.
Qed.

Lemma tryPush_full r k q x :
  ring_rep r k q → (2 ^ k ≤ Z.of_nat (length q))%Z → tryPush r x = Some (r, false).
Proof.
  intros (a & N & Hc & _ & _ & Hl)%ring_rep_counts Hq. pose proof Hc as (Hk & Hm & _ & Hhd & Htl & HN & ?).
  unfold tryPush. rewrite Hm, Hhd, Htl, (counter_diff _ _ k) by lia.
  rewrite (proj2 (Z.ltb_lt _ _)) by lia. done.
Qed.

Lemma tryPush_room r k q x :
  ring_rep r k q → (Z.of_nat (length q) < 2 ^ k)%Z →
  ∃ r', tryPush r x = Some (r', true) ∧ ring_rep r' k (q ++ [x]).
Proof.
  intros (a & N & Hc & Hh & -> & Hl)%ring_rep_counts Hq.
  pose proof Hc as (Hk & Hm & _ & Hhd & Htl & HN & ?).
  unfold tryPush. rewrite Hm, Hhd, Htl, (counter_diff _ _ k) by lia.
  rewrite (proj2 (Z.ltb_ge _ _)) by lia. erewrite slotStore_slot by done.
  eexists. split; [done|]. exists (a ++ [x]), N. split_and!.
  - rewrite length_app, Nat.add_1_r. eapply counts_push; [by apply counts_store|lia].
  - apply (holds_push (mkRing _ (mask_ r) (head_ r) (tail_ r))); [|by eapply lookup_stored].
    apply holds_store; [lia|done|right; lia].
  - by rewrite drop_app_le by lia.
Qed.

Lemma tryPop_empty r k : ring_rep r k [] → tryPop r = Some (r, None).
Proof.
  intros (a & N & Hc & _ & _ & Hl)%ring_rep_counts. destruct Hc as (_ & _ & _ & Hhd & Htl & _).
  cbn in Hl. assert (length a = N) as Ha by lia.
  unfold tryPop. by rewrite Hhd, Htl, Ha, Z.eqb_refl.
Qed.

Lemma tryPop_item r k x q :
  ring_rep r k (x :: q) → ∃ r', tryPop r = Some (r', Some x) ∧ ring_rep r' k q.
Proof.
  intros (a & N & Hc & Hh & Hd & Hl)%ring_rep_counts. cbn in Hl.
  pose proof Hc as (Hk & Hm & _ & Hhd & Htl & HN & Hle).
  assert (a !! N = Some x) as Hx by (rewrite <- (Nat.add_0_r N), <- lookup_drop, <- Hd; done).
  unfold tryPop. rewrite Hhd, Htl, (proj2 (Z.eqb_neq _ _)).
  2: { intros E%(counter_eq k); lia. }
  rewrite Hm, slotIndex_counter, Hh, Hx by (done || lia). cbn [mbind option_bind].
  eexists. split; [done|]. exists a, (S N). split_and!.
  - rewrite <- Hm, <- Hhd. apply counts_pop; [done|lia].
  - eapply holds_weaken; [exact Hh|lia].
  - rewrite <- Nat.add_1_r, <- drop_drop, <- Hd. done.
Qed.

(** ** What the ring promises *)

(** C14. Over every interleaving of one producer and one consumer, the popped items are a prefix
    of the items whose push returned true (nothing lost, duplicated or reordered), and the
    published items never exceed the slots. *)
Theorem spsc_fifo d capacity s0 s :
  (0 ≤ capacity ≤ 2 ^ 63)%Z → initial d capacity s0 → rtc step s0 s →
  popped s `prefix_of` pushed s ∧
  length (pushed s) - length (popped s) ≤ length (slots_ (ring s)).
Proof.
  intros Hc H0 Hr. destruct (inv_reachable _ _ _ _ Hc H0 Hr) as (k & Hcn & _ & Hp & _).
  destruct Hcn as (_ & _ & Hl & _ & _ & _ & Hd). split; [|lia].
  rewrite Hp. exists (drop (length (popped s)) (pushed s)). by rewrite take_drop.
Qed.

(** C15. No data race and no out-of-range access: when the producer has passed its capacity
    check and the consumer its emptiness check, both next accesses are inside the vector and
    they touch different slots. *)
Theorem spsc_race_free d capacity s0 r item h t a b t' h' :
  (0 ≤ capacity ≤ 2 ^ 63)%Z → initial d capacity s0 →
  rtc step s0 (mkSys r (PTail item h t) (CHead t' h') a b) →
  (u64 (h - t) ≤ mask_ r)%Z → t' ≠ h' →
  slotIndex (mask_ r) h < length (slots_ r) ∧ slotIndex (mask_ r) t' < length (slots_ r) ∧
  slotIndex (mask_ r) h ≠ slotIndex (mask_ r) t'.
Proof.
  intros Hc H0 Hr Hg Hne.
  destruct (inv_reachable _ _ _ _ Hc H0 Hr)
    as (k & Hcn & _ & _ & (Eh & N' & ? & Et & ?) & (Et' & H' & ? & Eh')). cbn in *. subst h t t' h'.
  destruct Hcn as (Hk & Hm & Hl & _ & _ & HN & _).
  rewrite Hm, (counter_diff _ _ k) in Hg by lia.
  assert (length b ≠ H') by congruence.
  rewrite Hm, !slotIndex_counter, Hl by done.
  split_and!; [apply slot_in_range; lia..|]. apply not_eq_sym, slots_differ; lia.
Qed.

(** A new ring is the empty queue. *)
Lemma makeRing_rep d capacity r :
  (0 ≤ capacity ≤ 2 ^ 63)%Z → makeRing d capacity = Some r → ∃ k, ring_rep r k [].
Proof.
  intros Hc Hr. destruct (makeRing_ok d capacity Hc) as (k & E & Hk & _). rewrite E in Hr. injection Hr as <-.
  exists k. exists [], 0. split_and!; [by apply counts_new|intros i Hi; cbn in Hi; lia|done].
Qed.

(** The constructor ends for every capacity up to 2^63 with the least power of two that
    holds it, and from then on [tryPush], [tryPop] and [sizeApprox] are the operations of a
    bounded FIFO queue of that many items, whatever the wrapped counters. *)
Theorem spscRing_refines_queue d capacity x :
  (0 ≤ capacity ≤ 2 ^ 63)%Z →
  ∃ k r, makeRing d capacity = Some r ∧ ring_rep r k [] ∧
    (capacity ≤ 2 ^ k)%Z ∧ (k = 0 ∨ 2 ^ (k - 1) < capacity)%Z ∧
    ∀ r q, ring_rep r k q →
      sizeApprox r = Z.of_nat (length q) ∧
      (if (2 ^ k <=? Z.of_nat (length q))%Z then tryPush r x = Some (r, false)
       else ∃ r', tryPush r x = Some (r', true) ∧ ring_rep r' k (q ++ [x])) ∧
      match q with
      | [] => tryPop r = Some (r, None)
      | y :: q' => ∃ r', tryPop r = Some (r', Some y) ∧ ring_rep r' k q'
      end.
Proof.
  intros Hc. destruct (makeRing_ok d capacity Hc) as (k & E & Hk & Hle & Hlow).
  exists k. eexists. split_and!; try done.
  - exists [], 0. split_and!; [by apply counts_new|intros i Hi; cbn in Hi; lia|done].
  - intros r q Hq. split_and!.
    + apply ring_rep_counts in Hq as (a & N & Hcn & _ & _ & Hl).
      destruct Hcn as (_ & _ & _ & Hhd & Htl & ? & ?).
      unfold sizeApprox. rewrite Hhd, Htl, (counter_diff _ _ k) by lia. done.
    + destruct (Z.leb_spec (2 ^ k) (Z.of_nat (length q)));
        [by eapply tryPush_full | by apply tryPush_room].
    + destruct q; [by eapply tryPop_empty | by apply tryPop_item].
Qed.
End Ring.

(** ** A run of two items through a ring of one slot *)

Definition demoStart : Sys (T := Z) := mkSys (mkRing [0%Z] 0 0 0) PIdle CIdle [] [].

(** The producer has published 7 and is about to try 8 with a stale tail; the consumer has
    seen 7. *)
Definition demoMiddle : Sys (T := Z) :=
  mkSys (mkRing [7%Z] 0 1 0) (PTail 8%Z 1 0) (CHead 0 1) [7%Z] [].

Lemma demoStart_initial : initial 0%Z 1 demoStart.
Proof. by eexists. Qed.

Lemma demoMiddle_reachable : rtc step demoStart demoMiddle.
Proof.
  eapply rtc_l; [apply (step_push_call _ _ _ _ 7%Z)|].
  eapply rtc_l; [apply step_push_head|]. eapply rtc_l; [apply step_push_tail|].
  eapply rtc_l; [apply step_push_write; [done|reflexivity]|].
  eapply rtc_l; [apply step_push_publish|].
  eapply rtc_l; [apply (step_push_call _ _ _ _ 8%Z)|].
  eapply rtc_l; [apply step_push_head|]. eapply rtc_l; [apply step_push_tail|].
  eapply rtc_l; [apply step_pop_call|]. eapply rtc_l; [apply step_pop_tail|].
  eapply rtc_l; [apply step_pop_head|]. apply rtc_refl.
Qed.

Lemma spsc_fifo_witness : popped demoMiddle `prefix_of` pushed demoMiddle.
Proof.
  apply (spsc_fifo 0%Z 1 demoStart demoMiddle); [lia|apply demoStart_initial|apply demoMiddle_reachable].
Defined.

(** In a ring of two slots the producer can be writing item 1 while the consumer takes item 0. *)
Definition demoStart2 : Sys (T := Z) := mkSys (mkRing [0; 0]%Z 1 0 0) PIdle CIdle [] [].

Lemma demo2_reachable :
  rtc step demoStart2 (mkSys (mkRing [7; 0]%Z 1 1 0) (PTail 8%Z 1 0) (CHead 0 1) [7%Z] []).
Proof.
  eapply rtc_l; [apply (step_push_call _ _ _ _ 7%Z)|].
  eapply rtc_l; [apply step_push_head|]. eapply rtc_l; [apply step_push_tail|].
  eapply rtc_l; [apply step_push_write; [done|reflexivity]|].
  eapply rtc_l; [apply step_push_publish|].
  eapply rtc_l; [apply (step_push_call _ _ _ _ 8%Z)|].
  eapply rtc_l; [apply step_push_head|]. eapply rtc_l; [apply step_push_tail|].
  eapply rtc_l; [apply step_pop_call|]. eapply rtc_l; [apply step_pop_tail|].
  eapply rtc_l; [apply step_pop_head|]. apply rtc_refl.
Qed.

Lemma spsc_race_free_witness :
  slotIndex 1 1 < 2 ∧ slotIndex 1 0 < 2 ∧ slotIndex 1 1 ≠ slotIndex 1 0.
Proof.
  apply (spsc_race_free 0%Z 2 demoStart2 _ _ _ _ _ _ _ _ ltac:(lia) ltac:(by eexists) demo2_reachable);
    [by vm_compute|done].
Defined.
