(* ===== verification/Voice.v ===== *)
(** * Voice payloads

    [include/crowdy/media/voice_frames.hpp]: the ten-byte voice header, the packetizer that
    numbers one sender's frames and the jitter buffer that plays every sender's frames in
    order after a fixed delay. Sequence numbers and timestamps wrap at their width. The
    millisecond clock is a C++ [int64_t] whose overflow is undefined; it is an unbounded
    integer here, which is the same while the caller's clock plus the configured delays stays
    within 63 bits. An [unordered_map] is a finite map; the one place where its iteration
    order shows ([poll]) takes that order as an argument. *)

From S2P Require Import Prelude Bytes.

Open Scope Z_scope.

(** ** Header *)

Definition kVoiceHeaderBytes : nat := 10.
Definition kVoiceHeaderVersion : Z := 1.
Definition kMaxVoiceFrameBytes : nat := 1113.
Definition kVoiceTargetDelayMs : Z := 60.
Definition kVoiceJitterMaxFrames : Z := 64.
Definition kVoiceResetAfterMs : Z := 200.

Definition VoiceCodec_Raw : Z := 0.
Definition VoiceCodec_Opus : Z := 1.
Definition VoiceCodec_Mulaw : Z := 2.
Definition VoiceFlag_kSpurtStart : Z := 1.
Definition VoiceFlag_kSpurtEnd : Z := 2.

Record VoiceHeader := mkVoiceHeader {
  vh_version : Z; vh_codec : Z; vh_seq : Z; vh_timestamp : Z; vh_frameMs : Z; vh_flags : Z }.

Record VoicePacket := mkVoicePacket { vp_header : VoiceHeader; vp_frame : bytes }.

#[global] Instance VoiceHeader_eq_dec : EqDecision VoiceHeader.
Proof. solve_decision. Defined.

Definition voiceClockRate (codec : Z) : Z :=
  if codec =? VoiceCodec_Opus then 48000
  else if codec =? VoiceCodec_Mulaw then 8000 else 1000.

Definition voiceSamplesPerFrame (codec frameMs : Z) : Z :=
  u32 (voiceClockRate codec / 1000 * frameMs).

Definition voiceSeqDiff (a b : Z) : Z :=
  let d := u16 (a - b) in if 32768 <=? d then d - 65536 else d.

Definition encodeVoiceHeader (header : VoiceHeader) : bytes :=
  [kVoiceHeaderVersion; vh_codec header; u8 (Z.land (vh_seq header) 255);
   u8 (Z.shiftr (vh_seq header) 8)] ++
  ((λ i : nat, u8 (Z.shiftr (vh_timestamp header) (8 * Z.of_nat i))) <$> seq 0 4) ++
  [vh_frameMs header; vh_flags header].

Definition encodeVoicePacket (header : VoiceHeader) (frame : bytes) : bytes :=
  if decide (kMaxVoiceFrameBytes < length frame)%nat then []
  else encodeVoiceHeader header ++ frame.

Definition decodeVoicePacket (packet : bytes) : option VoicePacket :=
  match packet with
  | p0 :: p1 :: p2 :: p3 :: p4 :: p5 :: p6 :: p7 :: p8 :: p9 :: frame =>
      if negb (p0 =? kVoiceHeaderVersion) then None else
      Some (mkVoicePacket
        (mkVoiceHeader p0 p1 (u16 (Z.lor p2 (Z.shiftl p3 8)))
           (Z.lor (Z.lor (Z.lor (u32 p4) (u32 (Z.shiftl (u32 p5) 8))) (u32 (Z.shiftl (u32 p6) 16)))
              (u32 (Z.shiftl (u32 p7) 24)))
           p8 p9) frame)
  | _ => None
  end.

(** ** Packetizer *)

Record VoicePacketizer := mkVoicePacketizer {
  pk_codec_ : Z; pk_frameMs_ : Z; pk_seq_ : Z; pk_timestamp_ : Z; pk_spurtStart_ : bool }.

Definition makeVoicePacketizer (codec frameMs seq timestamp : Z) : VoicePacketizer :=
  mkVoicePacketizer codec frameMs seq timestamp true.

Definition packetize (p : VoicePacketizer) (frame : bytes) (last : bool)
    : VoicePacketizer * bytes :=
  if (pk_frameMs_ p =? 0) || bool_decide (kMaxVoiceFrameBytes < length frame)%nat
  then (p, []) else
  let header := mkVoiceHeader kVoiceHeaderVersion (pk_codec_ p) (pk_seq_ p) (pk_timestamp_ p)
    (pk_frameMs_ p)
    (u8 (Z.lor (if pk_spurtStart_ p then VoiceFlag_kSpurtStart else 0)
               (if last then VoiceFlag_kSpurtEnd else 0))) in
  let packet := encodeVoicePacket header frame in
  (mkVoicePacketizer (pk_codec_ p) (pk_frameMs_ p) (u16 (pk_seq_ p + 1))
     (u32 (pk_timestamp_ p + voiceSamplesPerFrame (pk_codec_ p) (pk_frameMs_ p))) last,
   packet).

Definition skip (p : VoicePacketizer) (frames : Z) : VoicePacketizer :=
  mkVoicePacketizer (pk_codec_ p) (pk_frameMs_ p) (pk_seq_ p)
    (u32 (pk_timestamp_ p + u32 (frames * voiceSamplesPerFrame (pk_codec_ p) (pk_frameMs_ p))))
    true.

(** ** Jitter buffer *)

Inductive VoicePushResult := Buffered | Late | Duplicate | Malformed.

Record VoicePlayout := mkVoicePlayout {
  po_key : string; po_seq : Z; po_timestamp : Z; po_codec : Z; po_frameMs : Z; po_flags : Z;
  po_gap : bool; po_frame : bytes }.

Record Held := mkHeld { held_header : VoiceHeader; held_frame : bytes }.

Record Stream := mkStream {
  st_codec : Z; st_frameMs : Z; st_nextSeq : Z; st_nextAtMs : Z; st_nextTimestamp : Z;
  st_started : bool; st_highestSeq : Z; st_endSeq : option Z; st_ended : bool;
  st_lastArrivalMs : Z; st_frames : gmap Z Held }.

Record VoiceJitterBuffer := mkVoiceJitterBuffer {
  targetDelayMs_ : Z; maxFrames_ : Z; resetAfterMs_ : Z;
  streams_ : gmap string Stream;
  late : Z; duplicates : Z; malformed : Z; discarded : Z; gaps : Z }.

Definition makeVoiceJitterBuffer (targetDelayMs maxFrames resetAfterMs : Z) : VoiceJitterBuffer :=
  let target := if targetDelayMs <? 0 then 0 else targetDelayMs in
  mkVoiceJitterBuffer target
    (if maxFrames <? 1 then 1 else if 4096 <? maxFrames then 4096 else maxFrames)
    (if target <? resetAfterMs then resetAfterMs else target + 1)
    ∅ 0 0 0 0 0.

(** The buffer after a write to [streams_] and to a counter. *)
Definition withStreams (b : VoiceJitterBuffer) (m : gmap string Stream) : VoiceJitterBuffer :=
  mkVoiceJitterBuffer (targetDelayMs_ b) (maxFrames_ b) (resetAfterMs_ b) m
    (late b) (duplicates b) (malformed b) (discarded b) (gaps b).
Definition addLate (b : VoiceJitterBuffer) : VoiceJitterBuffer :=
  mkVoiceJitterBuffer (targetDelayMs_ b) (maxFrames_ b) (resetAfterMs_ b) (streams_ b)
    (u64 (late b + 1)) (duplicates b) (malformed b) (discarded b) (gaps b).
Definition addDuplicate (b : VoiceJitterBuffer) : VoiceJitterBuffer :=
  mkVoiceJitterBuffer (targetDelayMs_ b) (maxFrames_ b) (resetAfterMs_ b) (streams_ b)
    (late b) (u64 (duplicates b + 1)) (malformed b) (discarded b) (gaps b).
Definition addMalformed (b : VoiceJitterBuffer) : VoiceJitterBuffer :=
  mkVoiceJitterBuffer (targetDelayMs_ b) (maxFrames_ b) (resetAfterMs_ b) (streams_ b)
    (late b) (duplicates b) (u64 (malformed b + 1)) (discarded b) (gaps b).
Definition addDiscarded (b : VoiceJitterBuffer) (n : nat) : VoiceJitterBuffer :=
  mkVoiceJitterBuffer (targetDelayMs_ b) (maxFrames_ b) (resetAfterMs_ b) (streams_ b)
    (late b) (duplicates b) (malformed b) (u64 (discarded b + Z.of_nat n)) (gaps b).
Definition setGaps (b : VoiceJitterBuffer) (g : Z) : VoiceJitterBuffer :=
  mkVoiceJitterBuffer (targetDelayMs_ b) (maxFrames_ b) (resetAfterMs_ b) (streams_ b)
    (late b) (duplicates b) (malformed b) (discarded b) g.

Definition hasFlag (flags bit : Z) : bool := negb (Z.land flags bit =? 0).

Definition startsOver (b : VoiceJitterBuffer) (stream : Stream) (header : VoiceHeader) (nowMs : Z)
    : bool :=
  if resetAfterMs_ b <=? nowMs - st_lastArrivalMs stream then true else
  if negb (vh_codec header =? st_codec stream) || negb (vh_frameMs header =? st_frameMs stream)
  then true else
  if hasFlag (vh_flags header) VoiceFlag_kSpurtStart &&
     (0 <? voiceSeqDiff (vh_seq header) (st_highestSeq stream)) then true else
  if match st_endSeq stream with
     | Some e => 0 <? voiceSeqDiff (vh_seq header) e
     | None => false
     end then true else
  maxFrames_ b <=? voiceSeqDiff (vh_seq header) (st_nextSeq stream).

(** A stream that starts with this packet. *)
Definition newStream (b : VoiceJitterBuffer) (p : VoicePacket) (nowMs : Z) : Stream :=
  let header := vp_header p in
  mkStream (vh_codec header) (vh_frameMs header) (vh_seq header) (nowMs + targetDelayMs_ b)
    (vh_timestamp header) false (vh_seq header)
    (if hasFlag (vh_flags header) VoiceFlag_kSpurtEnd then Some (vh_seq header) else None)
    false nowMs {[ vh_seq header := mkHeld header (vp_frame p) ]}.

Definition slotAtMs (stream : Stream) (seq : Z) : Z :=
  st_nextAtMs stream + voiceSeqDiff seq (st_nextSeq stream) * st_frameMs stream.

(** The stream after accepting the packet into its window ([ahead], [slotAtMs] as in [push]). *)
Definition acceptFrame (stream : Stream) (p : VoicePacket) (nowMs : Z) : Stream :=
  let header := vp_header p in
  let ahead := voiceSeqDiff (vh_seq header) (st_nextSeq stream) in
  mkStream (st_codec stream) (st_frameMs stream)
    (if ahead <? 0 then vh_seq header else st_nextSeq stream)
    (if ahead <? 0 then slotAtMs stream (vh_seq header) else st_nextAtMs stream)
    (if ahead <? 0 then vh_timestamp header else st_nextTimestamp stream)
    (st_started stream)
    (if 0 <? voiceSeqDiff (vh_seq header) (st_highestSeq stream) then vh_seq header
     else st_highestSeq stream)
    (match st_endSeq stream with
     | Some e => Some e
     | None => if hasFlag (vh_flags header) VoiceFlag_kSpurtEnd then Some (vh_seq header) else None
     end)
    (st_ended stream) nowMs
    (<[vh_seq header := mkHeld header (vp_frame p)]> (st_frames stream)).

Definition push (b : VoiceJitterBuffer) (key : string) (packet : bytes) (nowMs : Z)
    : VoiceJitterBuffer * VoicePushResult :=
  match decodeVoicePacket packet with
  | None => (addMalformed b, Malformed)
  | Some parsed =>
  let header := vp_header parsed in
  if vh_frameMs header =? 0 then (addMalformed b, Malformed) else
  let b :=
    match streams_ b !! key with
    | Some stream =>
        if startsOver b stream header nowMs
        then withStreams (addDiscarded b (size (st_frames stream))) (delete key (streams_ b))
        else b
    | None => b
    end in
  match streams_ b !! key with
  | None => (withStreams b (<[key := newStream b parsed nowMs]> (streams_ b)), Buffered)
  | Some stream =>
      let ahead := voiceSeqDiff (vh_seq header) (st_nextSeq stream) in
      let behind := (ahead <? 0) &&
        (st_started stream || (maxFrames_ b <=? voiceSeqDiff (st_highestSeq stream) (vh_seq header))) in
      if behind || (slotAtMs stream (vh_seq header) <? nowMs) then (addLate b, Late) else
      match st_frames stream !! vh_seq header with
      | Some _ => (addDuplicate b, Duplicate)
      | None => (withStreams b (<[key := acceptFrame stream parsed nowMs]> (streams_ b)), Buffered)
      end
  end
  end.

(** One turn of the [while] of [pull]: the slot it appends and the stream after it. *)
Definition playSlot (key : string) (stream : Stream) : Stream * VoicePlayout :=
  let seq := st_nextSeq stream in
  let held := st_frames stream !! seq in
  let slot := match held with
    | Some (mkHeld h frame) =>
        mkVoicePlayout key seq (vh_timestamp h) (vh_codec h) (vh_frameMs h) (vh_flags h) false frame
    | None =>
        mkVoicePlayout key seq (st_nextTimestamp stream) (st_codec stream) (st_frameMs stream) 0 true []
    end in
  let timestamp := match held with
    | Some (mkHeld h _) => vh_timestamp h
    | None => st_nextTimestamp stream
    end in
  (mkStream (st_codec stream) (st_frameMs stream) (u16 (seq + 1))
     (st_nextAtMs stream + st_frameMs stream)
     (u32 (timestamp + voiceSamplesPerFrame (st_codec stream) (st_frameMs stream)))
     true (st_highestSeq stream) (st_endSeq stream)
     (match st_endSeq stream with
      | Some e => if e =? seq then true else st_ended stream
      | None => st_ended stream
      end)
     (st_lastArrivalMs stream) (delete seq (st_frames stream)),
   slot).

Definition due (stream : Stream) (nowMs silentAtMs : Z) : bool :=
  negb (st_ended stream) && (st_nextAtMs stream <=? nowMs) && (st_nextAtMs stream <? silentAtMs).

(** The [while] of [pull]: [None] when [fuel] turns were not enough. *)
Fixpoint pullLoop (fuel : nat) (key : string) (stream : Stream) (nowMs silentAtMs : Z)
    : option (Stream * list VoicePlayout) :=
  if due stream nowMs silentAtMs then
    match fuel with
    | O => None
    | S fuel =>
        let '(stream, slot) := playSlot key stream in
        '(stream, out) ← pullLoop fuel key stream nowMs silentAtMs;
        Some (stream, slot :: out)
    end
  else Some (stream, []).

Definition gapCount (out : list VoicePlayout) : Z := Z.of_nat (length (filter (λ s, po_gap s = true) out)).

(** One turn per millisecond is enough: every turn moves [nextAtMs] by at least one. *)
Definition pullFuel (stream : Stream) (nowMs : Z) : nat := Z.to_nat (nowMs - st_nextAtMs stream + 1).

Definition pull (b : VoiceJitterBuffer) (key : string) (nowMs : Z)
    : option (VoiceJitterBuffer * list VoicePlayout) :=
  match streams_ b !! key with
  | None => Some (b, [])
  | Some stream =>
      let silentAtMs := st_lastArrivalMs stream + resetAfterMs_ b in
      '(stream, out) ← pullLoop (pullFuel stream nowMs) key stream nowMs silentAtMs;
      let b := setGaps b (u64 (gaps b + gapCount out)) in
      if silentAtMs <=? nowMs
      then Some (withStreams (addDiscarded b (size (st_frames stream))) (delete key (streams_ b)), out)
      else Some (withStreams b (<[key := stream]> (streams_ b)), out)
  end.

(** [pull] for each key, in the map's iteration order [keys]. *)
Fixpoint pollKeys (b : VoiceJitterBuffer) (keys : list string) (nowMs : Z)
    : option (VoiceJitterBuffer * list VoicePlayout) :=
  match keys with
  | [] => Some (b, [])
  | key :: keys =>
      '(b, slots) ← pull b key nowMs;
      '(b, out) ← pollKeys b keys nowMs;
      Some (b, slots ++ out)
  end.

Definition poll (order : gmap string Stream → list string) (b : VoiceJitterBuffer) (nowMs : Z)
    : option (VoiceJitterBuffer * list VoicePlayout) :=
  pollKeys b (order (streams_ b)) nowMs.

Definition forget (b : VoiceJitterBuffer) (key : string) : VoiceJitterBuffer :=
  match streams_ b !! key with
  | None => b
  | Some stream => withStreams (addDiscarded b (size (st_frames stream))) (delete key (streams_ b))
  end.

Definition senderCount (b : VoiceJitterBuffer) : nat := size (streams_ b).

Definition bufferedCount (b : VoiceJitterBuffer) (key : string) : nat :=
  match streams_ b !! key with None => 0 | Some stream => size (st_frames stream) end.

(** ** The header round trip *)

Definition header_ok (h : VoiceHeader) : Prop :=
  vh_version h = kVoiceHeaderVersion ∧ is_byte (vh_codec h) ∧ in_u 16 (vh_seq h) ∧
  in_u 32 (vh_timestamp h) ∧ is_byte (vh_frameMs h) ∧ is_byte (vh_flags h).

(** [Forall is_byte] of an explicit list. *)
Ltac bytes_ok := repeat (apply Forall_cons_2; [assumption|]); apply Forall_nil_2.

Lemma shiftr_octet v i : u8 (Z.shiftr v i) = u8 (Z.land (Z.shiftr v i) 255).
Proof.
  rewrite le.octet_mod. reflexivity.
Qed.

Lemma timestamp_octets v :
  ((λ i : nat, u8 (Z.shiftr v (8 * Z.of_nat i))) <$> seq 0 4) = le.octets 4 v.
Proof. apply list_fmap_ext. intros i x _. apply shiftr_octet. Qed.

(** The four shifted octets or-ed low first are the little-endian value. *)
Lemma timestamp_value a b c d :
  is_byte a → is_byte b → is_byte c → is_byte d →
  Z.lor (Z.lor (Z.lor (u32 a) (u32 (Z.shiftl (u32 b) 8))) (u32 (Z.shiftl (u32 c) 16)))
    (u32 (Z.shiftl (u32 d) 24)) = le.value 32 [a; b; c; d].
Proof.
  unfold is_byte, in_u. change (2 ^ 8) with 256. intros Ha Hb Hc Hd.
  assert (∀ x k, 0 ≤ x < 256 → 0 ≤ k ≤ 24 → u32 (Z.shiftl (u32 x) k) = Z.shiftl x k) as E.
  { intros x k Hx Hk. rewrite (wrapU_id 32 x) by (unfold in_u; lia).
    apply wrapU_id. unfold in_u. rewrite Z.shiftl_mul_pow2 by lia.
    assert (2 ^ k <= 2 ^ 24) by (apply Z.pow_le_mono_r; lia).
    pose proof (pow2_pos k). nia. }
  rewrite !E, (wrapU_id 32 a) by (unfold in_u; lia).
  rewrite (Z.lor_comm a), (le.lor_shiftl_add 8) by lia.
  rewrite (Z.lor_comm (_ + _)), (le.lor_shiftl_add 16) by lia.
  rewrite (Z.lor_comm (_ + _)), (le.lor_shiftl_add 24) by lia.
  rewrite (proj1 (le.value_cons_byte 32 a [b; c; d] ltac:(done) ltac:(cbn; lia) ltac:(bytes_ok))),
    (proj1 (le.value_cons_byte 32 b [c; d] ltac:(done) ltac:(cbn; lia) ltac:(bytes_ok))),
    (proj1 (le.value_cons_byte 32 c [d] ltac:(done) ltac:(cbn; lia) ltac:(bytes_ok))),
    (proj1 (le.value_cons_byte 32 d [] ltac:(done) ltac:(cbn; lia) ltac:(bytes_ok))), le.value_nil.
  lia.
Qed.

Lemma seq_value a b :
  is_byte a → is_byte b → u16 (Z.lor a (Z.shiftl b 8)) = le.value 16 [a; b].
Proof.
  unfold is_byte, in_u. change (2 ^ 8) with 256. intros Ha Hb.
  rewrite !le.value_cons, le.value_nil. change (Z.shiftl 0 8) with 0.
  rewrite Z.lor_0_l, (wrapU_id 16 b), Z.lor_comm by (unfold in_u; lia). done.
Qed.

Lemma encodeVoiceHeader_eq h :
  encodeVoiceHeader h = [kVoiceHeaderVersion; vh_codec h] ++ le.octets 2 (vh_seq h) ++
    le.octets 4 (vh_timestamp h) ++ [vh_frameMs h; vh_flags h].
Proof.
  unfold encodeVoiceHeader. rewrite timestamp_octets, <- le.octets_2, shiftr_octet. done.
Qed.

Lemma length_encodeVoiceHeader h : length (encodeVoiceHeader h) = kVoiceHeaderBytes.
Proof. reflexivity. Qed.

Lemma decode_octets c s ts fm fl frame :
  length s = 2%nat → length ts = 4%nat → Forall is_byte s → Forall is_byte ts →
  decodeVoicePacket (([kVoiceHeaderVersion; c] ++ s ++ ts ++ [fm; fl]) ++ frame) =
    Some (mkVoicePacket (mkVoiceHeader kVoiceHeaderVersion c (le.value 16 s) (le.value 32 ts) fm fl) frame).
Proof.
  intros Hs Ht Fs Ft. destruct s as [|s0 [|s1 [|]]]; try done.
  destruct ts as [|t0 [|t1 [|t2 [|t3 [|]]]]]; try done.
  repeat match goal with H : Forall _ (_ :: _) |- _ => apply Forall_cons_1 in H as [? H] end.
  rewrite <- seq_value, <- timestamp_value by done. reflexivity.
Qed.

Lemma decode_encode_header h frame :
  header_ok h → decodeVoicePacket (encodeVoiceHeader h ++ frame) = Some (mkVoicePacket h frame).
Proof.
  intros (Hv & Hc & Hs & Ht & Hm & Hf). rewrite encodeVoiceHeader_eq, decode_octets;
    try apply le.length_octets; try apply le.octets_bytes.
  rewrite !le.value_octets by lia. destruct h; cbn in *. subst.
  change (8 * Z.of_nat 2) with 16. change (8 * Z.of_nat 4) with 32.
  rewrite !Z.mod_small by assumption. done.
Qed.

Lemma decodeVoicePacket_inv p v :
  decodeVoicePacket p = Some v → Forall is_byte p →
  p = encodeVoiceHeader (vp_header v) ++ vp_frame v ∧ header_ok (vp_header v) ∧ Forall is_byte (vp_frame v).
Proof.
  intros Hd Hb. destruct p as [|p0 [|p1 [|p2 [|p3 [|p4 [|p5 [|p6 [|p7 [|p8 [|p9 f]]]]]]]]]]; try done.
  cbn [decodeVoicePacket] in Hd.
  repeat match goal with H : Forall _ (_ :: _) |- _ => apply Forall_cons_1 in H as [? H] end.
  destruct (Z.eqb_spec p0 kVoiceHeaderVersion) as [->|]; [|done]. cbn [negb] in Hd.
  rewrite timestamp_value, seq_value in Hd by done. injection Hd as <-. cbn [vp_header vp_frame].
  split_and!; [|unfold header_ok; cbn; split_and!; (done || (apply wrapU_range; lia))|done].
  - rewrite encodeVoiceHeader_eq. cbn [vh_codec vh_seq vh_timestamp vh_frameMs vh_flags].
    rewrite (le.octets_value 16 [p2; p3] ltac:(bytes_ok) ltac:(cbn; lia) : le.octets 2 _ = _).
    by rewrite (le.octets_value 32 [p4; p5; p6; p7] ltac:(bytes_ok) ltac:(cbn; lia) : le.octets 4 _ = _).
Qed.

(** ** Sequence arithmetic *)

Ltac seqs :=
  unfold voiceSeqDiff, wrapU, in_u in *; change (2 ^ 16) with 65536 in *;
  repeat match goal with
  | H : context [?a <=? ?b] |- _ => destruct (Z.leb_spec a b)
  | |- context [?a <=? ?b] => destruct (Z.leb_spec a b)
  end; Z.div_mod_to_equations; lia.

Lemma voiceSeqDiff_wrapS a b : voiceSeqDiff a b = wrapS 16 (a - b).
Proof.
  unfold wrapS. change (2 ^ (16 - 1)) with 32768. change (2 ^ 16) with 65536. seqs.
Qed.

Lemma voiceSeqDiff_range a b : -32768 ≤ voiceSeqDiff a b < 32768.
Proof. seqs. Qed.

Lemma voiceSeqDiff_self a : voiceSeqDiff a a = 0.
Proof. unfold voiceSeqDiff. by rewrite Z.sub_diag. Qed.

(** A sequence number is its distance from any other. *)
Lemma voiceSeqDiff_plus a b : in_u 16 a → a = u16 (b + voiceSeqDiff a b).
Proof. seqs. Qed.

Lemma voiceSeqDiff_of_plus b d : -32768 ≤ d < 32768 → voiceSeqDiff (u16 (b + d)) b = d.
Proof. seqs. Qed.

Lemma voiceSeqDiff_inj a a' b :
  in_u 16 a → in_u 16 a' → voiceSeqDiff a b = voiceSeqDiff a' b → a = a'.
Proof. seqs. Qed.

Lemma voiceSeqDiff_trans a b c :
  -32768 ≤ voiceSeqDiff a b + voiceSeqDiff b c < 32768 →
  voiceSeqDiff a c = voiceSeqDiff a b + voiceSeqDiff b c.
Proof. seqs. Qed.

Lemma voiceSeqDiff_flip a b :
  voiceSeqDiff a b ≠ -32768 → voiceSeqDiff b a = - voiceSeqDiff a b.
Proof. seqs. Qed.

Lemma voiceSeqDiff_succ a b :
  0 < voiceSeqDiff a b → voiceSeqDiff a (u16 (b + 1)) = voiceSeqDiff a b - 1.
Proof. seqs. Qed.

(** ** The invariant of the jitter buffer *)

Definition held_ok (maxFrames : Z) (st : Stream) (s : Z) (h : Held) : Prop :=
  in_u 16 s ∧ vh_seq (held_header h) = s ∧
  0 ≤ voiceSeqDiff s (st_nextSeq st) < maxFrames ∧
  (st_started st = false → voiceSeqDiff s (st_nextSeq st) ≤ voiceSeqDiff (st_highestSeq st) (st_nextSeq st)).

(** [st] at clock [now]: its frames lie in the window of [maxFrames] seqs from the next one
    to play; before it plays, so does the highest seq, and it plays within the delay. *)
Definition stream_ok (target maxFrames now : Z) (st : Stream) : Prop :=
  in_u 16 (st_nextSeq st) ∧ 1 ≤ st_frameMs st ∧ st_lastArrivalMs st ≤ now ∧
  map_Forall (held_ok maxFrames st) (st_frames st) ∧
  (st_started st = false →
     st_nextAtMs st ≤ now + target ∧ in_u 16 (st_highestSeq st) ∧
     0 ≤ voiceSeqDiff (st_highestSeq st) (st_nextSeq st) < maxFrames).

(** The options: the constructor's clamps, and a delay and a window that together stay
    within half the sequence space. *)
Definition options_ok (b : VoiceJitterBuffer) : Prop :=
  0 ≤ targetDelayMs_ b < resetAfterMs_ b ∧ 1 ≤ maxFrames_ b ≤ 4096 ∧
  targetDelayMs_ b + maxFrames_ b ≤ 32768.

Definition buffer_ok (b : VoiceJitterBuffer) (now : Z) : Prop :=
  options_ok b ∧ map_Forall (λ _, stream_ok (targetDelayMs_ b) (maxFrames_ b) now) (streams_ b).

Lemma makeVoiceJitterBuffer_ok t m r now :
  t + Z.max 1 (Z.min 4096 m) ≤ 32768 → buffer_ok (makeVoiceJitterBuffer t m r) now.
Proof.
  intros H. unfold makeVoiceJitterBuffer. split; [|apply map_Forall_empty].
  unfold options_ok. cbn. repeat case_match; lia.
Qed.

Lemma stream_ok_later target m now now' st :
  stream_ok target m now st → now ≤ now' → stream_ok target m now' st.
Proof.
  intros (?&?&?&?&Hs) Hle. split_and!; try done; [lia|].
  intros E. destruct (Hs E) as (?&?&?). split_and!; try done; lia.
Qed.

Lemma buffer_ok_later b now now' : buffer_ok b now → now ≤ now' → buffer_ok b now'.
Proof.
  intros [? H] Hle. split; [done|]. intros k st E. eapply stream_ok_later; [by eapply H|done].
Qed.

Lemma newStream_ok b p now :
  options_ok b → in_u 16 (vh_seq (vp_header p)) → 1 ≤ vh_frameMs (vp_header p) →
  stream_ok (targetDelayMs_ b) (maxFrames_ b) now (newStream b p now).
Proof.
  intros Ho Hs Hf. unfold options_ok in Ho. split_and!; cbn; try done; try lia.
  - apply map_Forall_singleton. unfold held_ok. cbn. rewrite voiceSeqDiff_self. split_and!; try done; lia.
  - intros _. rewrite voiceSeqDiff_self. split_and!; try done; lia.
Qed.

(** A packet fitted in front of the spurt is at most the delay away, so distances from it to
    the seqs of the window do not wrap. *)
Lemma front_distance b st now s a :
  options_ok b → 1 ≤ st_frameMs st → st_nextAtMs st ≤ now + targetDelayMs_ b →
  voiceSeqDiff s (st_nextSeq st) < 0 → now ≤ slotAtMs st s →
  0 ≤ voiceSeqDiff a (st_nextSeq st) < maxFrames_ b →
  voiceSeqDiff a s = voiceSeqDiff a (st_nextSeq st) - voiceSeqDiff s (st_nextSeq st).
Proof.
  unfold options_ok, slotAtMs. intros Ho Hf Hat Hneg Hslot Ha.
  assert (- voiceSeqDiff s (st_nextSeq st) ≤ targetDelayMs_ b) by nia.
  assert (voiceSeqDiff (st_nextSeq st) s = - voiceSeqDiff s (st_nextSeq st)) as Efl
    by (apply voiceSeqDiff_flip; lia).
  rewrite (voiceSeqDiff_trans a (st_nextSeq st) s); lia.
Qed.

(** A packet that passed the guards of [push] keeps the window: in front of a spurt that has
    not started it is at most the delay away, so the distance to the highest seq is exact. *)
Lemma acceptFrame_ok b st p now :
  options_ok b → stream_ok (targetDelayMs_ b) (maxFrames_ b) now st →
  in_u 16 (vh_seq (vp_header p)) →
  let s := vh_seq (vp_header p) in
  voiceSeqDiff s (st_nextSeq st) < maxFrames_ b →
  (voiceSeqDiff s (st_nextSeq st) < 0 →
     st_started st = false ∧ voiceSeqDiff (st_highestSeq st) s < maxFrames_ b) →
  now ≤ slotAtMs st s →
  stream_ok (targetDelayMs_ b) (maxFrames_ b) now (acceptFrame st p now).
Proof.
  intros Ho (Hn & Hf & Hl & Hh & Hs) Hr s Hw Hb Hslot. unfold options_ok in Ho. fold s in Hr.
  pose proof (voiceSeqDiff_range s (st_nextSeq st)) as Hrange.
  destruct (Z.ltb_spec (voiceSeqDiff s (st_nextSeq st)) 0) as [Hneg|Hpos].
  - destruct (Hb Hneg) as [E Hd]. destruct (Hs E) as (Hat & Hhi & HD).
    assert (∀ a, 0 ≤ voiceSeqDiff a (st_nextSeq st) < maxFrames_ b →
       voiceSeqDiff a s = voiceSeqDiff a (st_nextSeq st) - voiceSeqDiff s (st_nextSeq st)) as Etr
      by (intros; by eapply front_distance).
    pose proof (Etr _ HD) as EH.
    assert ((0 <? voiceSeqDiff s (st_highestSeq st)) = false) as Ehi.
    { apply Z.ltb_ge. rewrite voiceSeqDiff_flip by lia. lia. }
    unfold acceptFrame. fold s. rewrite (proj2 (Z.ltb_lt _ _) Hneg), Ehi.
    split_and!; cbn; try done.
    + apply map_Forall_insert_2.
      * unfold held_ok. cbn. rewrite voiceSeqDiff_self. split_and!; try done; lia.
      * intros a h Ha. destruct (Hh a h Ha) as (?&?&Hwin&Hup). specialize (Hup E).
        unfold held_ok. cbn. rewrite (Etr a) by lia. split_and!; try done; lia.
    + intros _. unfold slotAtMs. split_and!; try done; nia.
  - unfold acceptFrame. fold s. rewrite (proj2 (Z.ltb_ge _ _) Hpos).
    split_and!; cbn; try done.
    + apply map_Forall_insert_2.
      * unfold held_ok. cbn. split_and!; try done; try lia. intros E. destruct (Hs E) as (?&?&?).
        destruct (Z.ltb_spec 0 (voiceSeqDiff s (st_highestSeq st))); [lia|]. seqs.
      * intros a h Ha. destruct (Hh a h Ha) as (?&?&?&Hup). unfold held_ok. cbn.
        split_and!; try done; try lia. intros E. specialize (Hup E). destruct (Hs E) as (?&?&?).
        destruct (Z.ltb_spec 0 (voiceSeqDiff s (st_highestSeq st))); [|done]. seqs.
    + intros E. destruct (Hs E) as (?&?&?).
      destruct (Z.ltb_spec 0 (voiceSeqDiff s (st_highestSeq st))); split_and!; try done; lia.
Qed.

Lemma decoded_seq_range p v : decodeVoicePacket p = Some v → in_u 16 (vh_seq (vp_header v)).
Proof.
  destruct p as [|p0 [|p1 [|p2 [|p3 [|p4 [|p5 [|p6 [|p7 [|p8 [|p9 f]]]]]]]]]]; try done.
  cbn [decodeVoicePacket]. case_match; [done|]. intros [= <-]. apply wrapU_range. lia.
Qed.

Lemma decoded_frameMs_pos p v :
  decodeVoicePacket p = Some v → Forall is_byte p → vh_frameMs (vp_header v) ≠ 0 →
  1 ≤ vh_frameMs (vp_header v).
Proof.
  intros Hd Hb Hne. destruct (decodeVoicePacket_inv _ _ Hd Hb) as (_ & (_&_&_&_&[]&_) & _). lia.
Qed.

Lemma startsOver_window b st h now :
  startsOver b st h now = false → voiceSeqDiff (vh_seq h) (st_nextSeq st) < maxFrames_ b.
Proof. unfold startsOver. repeat case_match; try done; intros ?%Z.leb_gt; lia. Qed.

(** What one [push] does to the streams and to the count of discarded frames. *)
Inductive push_outcome (b : VoiceJitterBuffer) (key : string) (packet : bytes) (now : Z)
    : VoiceJitterBuffer → VoicePushResult → Prop :=
| push_malformed : push_outcome b key packet now (addMalformed b) Malformed
| push_first p :
    decodeVoicePacket packet = Some p → vh_frameMs (vp_header p) ≠ 0 →
    streams_ b !! key = None →
    push_outcome b key packet now (withStreams b (<[key := newStream b p now]> (streams_ b))) Buffered
| push_restart p st :
    decodeVoicePacket packet = Some p → vh_frameMs (vp_header p) ≠ 0 →
    streams_ b !! key = Some st → startsOver b st (vp_header p) now = true →
    push_outcome b key packet now
      (withStreams (addDiscarded b (size (st_frames st)))
         (<[key := newStream b p now]> (delete key (streams_ b)))) Buffered
| push_late : push_outcome b key packet now (addLate b) Late
| push_duplicate : push_outcome b key packet now (addDuplicate b) Duplicate
| push_accept p st :
    decodeVoicePacket packet = Some p → vh_frameMs (vp_header p) ≠ 0 →
    streams_ b !! key = Some st → startsOver b st (vp_header p) now = false →
    st_frames st !! vh_seq (vp_header p) = None →
    (voiceSeqDiff (vh_seq (vp_header p)) (st_nextSeq st) < 0 →
       st_started st = false ∧ voiceSeqDiff (st_highestSeq st) (vh_seq (vp_header p)) < maxFrames_ b) →
    now ≤ slotAtMs st (vh_seq (vp_header p)) →
    push_outcome b key packet now (withStreams b (<[key := acceptFrame st p now]> (streams_ b))) Buffered.

Lemma push_spec b key packet now b' r :
  push b key packet now = (b', r) → push_outcome b key packet now b' r.
Proof.
  unfold push. destruct (decodeVoicePacket packet) as [p|] eqn:Hd.
  2: { intros [= <- <-]. constructor. }
  destruct (Z.eqb_spec (vh_frameMs (vp_header p)) 0) as [E0|E0].
  { intros [= <- <-]. constructor. }
  destruct (streams_ b !! key) as [st|] eqn:Hst.
  2: { rewrite Hst. intros [= <- <-]. by constructor. }
  destruct (startsOver b st (vp_header p) now) eqn:Hso.
  { cbn [withStreams addDiscarded streams_]. rewrite lookup_delete_eq. intros [= <- <-].
    exact (push_restart b key packet now p st Hd E0 Hst Hso). }
  rewrite Hst.
  match goal with |- context [if ?g || ?l then _ else _] =>
    destruct g eqn:Hb; destruct l eqn:Hl end; cbn [orb];
    try (intros [= <- <-]; constructor; fail).
  destruct (st_frames st !! vh_seq (vp_header p)) eqn:Hf; intros [= <- <-]; [constructor|].
  apply push_accept; try done.
  - intros Hneg%Z.ltb_lt. rewrite Hneg in Hb. cbn [andb] in Hb.
    apply orb_false_iff in Hb as [? ?%Z.leb_gt]. done.
  - by apply Z.ltb_ge.
Qed.

Lemma push_ok b key packet now b' r :
  Forall is_byte packet → buffer_ok b now → push b key packet now = (b', r) → buffer_ok b' now.
Proof.
  intros Hb [Ho Hs] [|p Hd H0 Hk|p st Hd H0 Hk _| | |p st Hd H0 Hk Hw _ Hneg Hslot]%push_spec;
    try (by split); pose proof (decoded_seq_range _ _ Hd); pose proof (decoded_frameMs_pos _ _ Hd Hb H0).
  - split; [done|]. apply map_Forall_insert_2; [by apply (newStream_ok b)|done].
  - split; [done|]. apply map_Forall_insert_2; [by apply (newStream_ok b)|].
    by apply map_Forall_delete.
  - split; [done|]. apply map_Forall_insert_2; [|done].
    apply (acceptFrame_ok b); try done; [by eapply Hs|by eapply startsOver_window].
Qed.

(** ** Playing out *)

(** The loop of [pull] as a relation. *)
Inductive plays (key : string) (now silent : Z) : Stream → list VoicePlayout → Stream → Prop :=
| plays_done st : due st now silent = false → plays key now silent st [] st
| plays_slot st out st' :
    due st now silent = true →
    plays key now silent (playSlot key st).1 out st' →
    plays key now silent st ((playSlot key st).2 :: out) st'.

Lemma due_true st now silent :
  due st now silent = true →
  st_ended st = false ∧ st_nextAtMs st ≤ now ∧ st_nextAtMs st < silent.
Proof.
  unfold due. intros [[?%negb_true_iff ?%Z.leb_le]%andb_true_iff ?%Z.ltb_lt]%andb_true_iff. done.
Qed.

Lemma pullLoop_plays fuel key st now silent :
  1 ≤ st_frameMs st → (pullFuel st now ≤ fuel)%nat →
  ∃ st' out, pullLoop fuel key st now silent = Some (st', out) ∧ plays key now silent st out st'.
Proof.
  revert st. induction fuel as [|fuel IH]; intros st Hf Hfuel; cbn [pullLoop];
    destruct (due st now silent) eqn:Hd; try (by eexists _, _; split; [|constructor]).
  - apply due_true in Hd as (_ & ? & _). unfold pullFuel in Hfuel. lia.
  - rewrite (surjective_pairing (playSlot key st)).
    destruct (IH (playSlot key st).1) as (st' & out & -> & Hp); cbn; [done| |].
    + apply due_true in Hd as (_ & ? & _). unfold pullFuel in *. cbn. lia.
    + eexists _, _. split; [done|]. by constructor.
Qed.

Lemma playSlot_ok target m now key st :
  stream_ok target m now st → stream_ok target m now (playSlot key st).1.
Proof.
  intros (Hn & Hf & Hl & Hh & _). split_and!; cbn; try done; try (apply wrapU_range; lia).
  intros s h [Hne Hs]%lookup_delete_Some. destruct (Hh s h Hs) as (Hr & ? & ? & _).
  assert (voiceSeqDiff s (st_nextSeq st) ≠ 0).
  { intros E. apply Hne. apply (voiceSeqDiff_inj _ _ (st_nextSeq st)); try done. by rewrite voiceSeqDiff_self. }
  unfold held_ok. cbn. rewrite voiceSeqDiff_succ by lia. split_and!; try done; lia.
Qed.

Lemma plays_ok target m now' key now silent st out st' :
  plays key now silent st out st' → stream_ok target m now' st → stream_ok target m now' st'.
Proof. induction 1; eauto using playSlot_ok. Qed.

Lemma pull_spec b key now :
  buffer_ok b now →
  match streams_ b !! key with
  | None => pull b key now = Some (b, [])
  | Some st => ∃ st' out,
      let silent := st_lastArrivalMs st + resetAfterMs_ b in
      let b1 := setGaps b (u64 (gaps b + gapCount out)) in
      plays key now silent st out st' ∧
      pull b key now = Some (
        if silent <=? now
        then withStreams (addDiscarded b1 (size (st_frames st'))) (delete key (streams_ b))
        else withStreams b1 (<[key := st']> (streams_ b)), out)
  end.
Proof.
  intros [_ Hs]. unfold pull. destruct (streams_ b !! key) as [st|] eqn:Hk; [|done].
  destruct (Hs _ _ Hk) as (_ & Hf & _).
  destruct (pullLoop_plays (pullFuel st now) key st now (st_lastArrivalMs st + resetAfterMs_ b) Hf
    ltac:(done)) as (st' & out & E & Hp).
  exists st', out. split; [done|]. rewrite E. cbn [mbind option_bind]. by case_match.
Qed.

Lemma pull_ok b key now :
  buffer_ok b now → ∃ b' out, pull b key now = Some (b', out) ∧ buffer_ok b' now.
Proof.
  intros Hok. pose proof (pull_spec b key now Hok) as H. destruct (streams_ b !! key) as [st|] eqn:Hk.
  - destruct H as (st' & out & Hp & ->). eexists _, _. split; [done|].
    destruct Hok as [Ho Hs]. case_match; split; try done.
    + by apply map_Forall_delete.
    + apply map_Forall_insert_2; [|done]. eapply plays_ok; [done|by eapply Hs].
  - by exists b, [].
Qed.

Lemma pollKeys_ok keys b now :
  buffer_ok b now → ∃ b' out, pollKeys b keys now = Some (b', out) ∧ buffer_ok b' now.
Proof.
  revert b. induction keys as [|key keys IH]; intros b Hok; cbn [pollKeys]; [by exists b, []|].
  destruct (pull_ok b key now Hok) as (b1 & o1 & -> & H1). cbn [mbind option_bind].
  destruct (IH b1 H1) as (b2 & o2 & -> & H2). by eexists _, _.
Qed.

Lemma forget_ok b key now : buffer_ok b now → buffer_ok (forget b key) now.
Proof.
  intros [Ho Hs]. unfold forget. case_match; split; try done. by apply map_Forall_delete.
Qed.

(** ** Counting frames *)

(** The frames of a stream are at most the seqs of its window. *)
Lemma frames_size target m now st :
  stream_ok target m now st → 1 ≤ m → Z.of_nat (size (st_frames st)) ≤ m.
Proof.
  intros (_ & _ & _ & Hh & _) Hm.
  set (w := (λ d : nat, u16 (st_nextSeq st + Z.of_nat d)) <$> seq 0 (Z.to_nat m)).
  assert (length (elements (dom (st_frames st))) ≤ length w)%nat as Hle.
  { apply submseteq_length, NoDup_submseteq; [apply NoDup_elements|].
    intros s [h Hs]%elem_of_elements%elem_of_dom. destruct (Hh s h Hs) as (Hr & _ & Hd & _).
    apply list_elem_of_fmap. exists (Z.to_nat (voiceSeqDiff s (st_nextSeq st))).
    rewrite Z2Nat.id, elem_of_seq by lia. split; [by apply voiceSeqDiff_plus|lia]. }
  unfold w in Hle. rewrite length_fmap, length_seq in Hle.
  rewrite <- (size_dom (D := gset Z)). unfold size, set_size. cbn [compose]. lia.
Qed.

(** Frames (not gaps) among the played slots. *)
Definition frameCount (out : list VoicePlayout) : Z :=
  Z.of_nat (length (filter (λ s, po_gap s = false) out)).

Definition sumSizes (l : list (string * Stream)) : Z :=
  foldr (λ kv n, Z.of_nat (size (st_frames kv.2)) + n) 0 l.

Definition heldTotal (b : VoiceJitterBuffer) : Z := sumSizes (map_to_list (streams_ b)).

Lemma sumSizes_perm l l' : l ≡ₚ l' → sumSizes l = sumSizes l'.
Proof. unfold sumSizes. induction 1; cbn [foldr]; lia. Qed.

Lemma sumSizes_cons kv l : sumSizes (kv :: l) = Z.of_nat (size (st_frames kv.2)) + sumSizes l.
Proof. reflexivity. Qed.

Lemma heldTotal_delete b key st :
  streams_ b !! key = Some st →
  heldTotal (withStreams b (delete key (streams_ b))) = heldTotal b - Z.of_nat (size (st_frames st)).
Proof.
  intros Hk. unfold heldTotal. cbn [streams_ withStreams].
  pose proof (sumSizes_perm _ _ (map_to_list_delete _ _ _ Hk)) as E. rewrite sumSizes_cons in E. cbn in E. lia.
Qed.

Lemma heldTotal_insert_new b m key st :
  m !! key = None →
  heldTotal (withStreams b (<[key := st]> m)) = heldTotal (withStreams b m) + Z.of_nat (size (st_frames st)).
Proof.
  intros Hk. unfold heldTotal. cbn [streams_ withStreams].
  pose proof (sumSizes_perm _ _ (map_to_list_insert _ _ st Hk)) as E. rewrite sumSizes_cons in E. cbn in E. lia.
Qed.

Lemma heldTotal_insert b key st st' :
  streams_ b !! key = Some st →
  heldTotal (withStreams b (<[key := st']> (streams_ b))) =
    heldTotal b - Z.of_nat (size (st_frames st)) + Z.of_nat (size (st_frames st')).
Proof.
  intros Hk. rewrite <- insert_delete_eq, heldTotal_insert_new by apply lookup_delete_eq.
  erewrite heldTotal_delete by done. lia.
Qed.

Lemma plays_count key now silent st out st' :
  plays key now silent st out st' →
  Z.of_nat (size (st_frames st)) = Z.of_nat (size (st_frames st')) + frameCount out.
Proof.
  induction 1 as [|st out st' _ _ IH]; [by rewrite Z.add_0_r|].
  revert IH. unfold frameCount. cbn [playSlot fst snd st_frames].
  destruct (st_frames st !! st_nextSeq st) as [[h f]|] eqn:E; rewrite filter_cons; cbn [po_gap]; intros IH.
  - rewrite decide_True by done. cbn [length]. rewrite map_size_delete_Some in IH by eauto.
    assert (size (st_frames st) ≠ 0%nat). { apply map_size_ne_0_lookup. eauto. } lia.
  - rewrite decide_False by done. by rewrite delete_id in IH.
Qed.

Definition accepted (r : VoicePushResult) : Z := match r with Buffered => 1 | _ => 0 end.

(** The ledger of frames: what was accepted is held, played or discarded. *)
Definition ledger (b : VoiceJitterBuffer) (played : Z) : Z := u64 (discarded b + heldTotal b + played).

Lemma push_ledger b key packet now b' r n :
  push b key packet now = (b', r) → ledger b' n = u64 (discarded b + heldTotal b + n + accepted r).
Proof.
  unfold ledger. intros [|p Hd H0 Hk|p st Hd H0 Hk _| | |p st Hd H0 Hk _ Hf _ _]%push_spec; cbn [accepted];
    try (cbn [addMalformed addLate addDuplicate discarded heldTotal streams_]; f_equal; unfold heldTotal; cbn; lia).
  - rewrite heldTotal_insert_new by done. cbn [discarded withStreams]. f_equal.
    cbn [newStream st_frames]. rewrite map_size_singleton. unfold heldTotal. cbn [withStreams streams_]. lia.
  - rewrite heldTotal_insert_new by apply lookup_delete_eq. cbn [discarded withStreams addDiscarded].
    cbn [newStream st_frames]. rewrite map_size_singleton.
    change (heldTotal (withStreams (addDiscarded b (size (st_frames st))) (delete key (streams_ b))))
      with (heldTotal (withStreams b (delete key (streams_ b)))).
    rewrite (heldTotal_delete _ _ _ Hk), <- !Z.add_assoc, wrapU_add_l. f_equal. lia.
  - rewrite (heldTotal_insert _ _ _ _ Hk). cbn [discarded withStreams acceptFrame st_frames].
    rewrite map_size_insert_None by done. f_equal. lia.
Qed.

Lemma pull_ledger b key now b' out n :
  buffer_ok b now → pull b key now = Some (b', out) →
  ledger b' (n + frameCount out) = ledger b n ∧ gaps b' = u64 (gaps b + gapCount out) ∨
  b' = b ∧ out = [].
Proof.
  intros Hok E. pose proof (pull_spec b key now Hok) as H. destruct (streams_ b !! key) as [st|] eqn:Hk.
  2: { right. rewrite E in H. by injection H. }
  destruct H as (st' & out' & Hp & E'). rewrite E in E'. injection E' as -> ->. left.
  pose proof (plays_count _ _ _ _ _ _ Hp) as Hc. unfold ledger. case_match; split; try done.
  - cbn [discarded withStreams addDiscarded setGaps].
    change (heldTotal (withStreams _ (delete key (streams_ b))))
      with (heldTotal (withStreams b (delete key (streams_ b)))).
    rewrite (heldTotal_delete _ _ _ Hk), <- !Z.add_assoc, wrapU_add_l. f_equal. lia.
  - cbn [discarded withStreams setGaps].
    change (heldTotal (withStreams _ (<[key := st']> (streams_ b))))
      with (heldTotal (withStreams b (<[key := st']> (streams_ b)))).
    rewrite (heldTotal_insert _ _ _ _ Hk). f_equal. lia.
Qed.

(** ** Runs of the jitter buffer *)

Inductive VoiceOp :=
| OpPush (key : string) (packet : bytes) (now : Z)
| OpPull (key : string) (now : Z)
| OpPoll (now : Z)
| OpForget (key : string).

(** The clock after an operation; a run passes a clock that never goes back, and octets. *)
Definition opClock (clock : Z) (op : VoiceOp) : Z :=
  match op with OpPush _ _ now | OpPull _ now | OpPoll now => now | OpForget _ => clock end.
Definition op_ok (clock : Z) (op : VoiceOp) : Prop :=
  clock ≤ opClock clock op ∧ match op with OpPush _ p _ => Forall is_byte p | _ => True end.

(** One operation: the buffer, the packets accepted (0 or 1) and the slots played. *)
Definition runOp (order : gmap string Stream → list string) (b : VoiceJitterBuffer) (op : VoiceOp)
    : option (VoiceJitterBuffer * Z * list VoicePlayout) :=
  match op with
  | OpPush key packet now => let '(b, r) := push b key packet now in Some (b, accepted r, [])
  | OpPull key now => '(b, out) ← pull b key now; Some (b, 0, out)
  | OpPoll now => '(b, out) ← poll order b now; Some (b, 0, out)
  | OpForget key => Some (forget b key, 0, [])
  end.

Fixpoint runOps (order : gmap string Stream → list string) (b : VoiceJitterBuffer) (ops : list VoiceOp)
    : option (VoiceJitterBuffer * Z * list VoicePlayout) :=
  match ops with
  | [] => Some (b, 0, [])
  | op :: ops =>
      '(b, n, out) ← runOp order b op;
      '(b, n', out') ← runOps order b ops;
      Some (b, n + n', out ++ out')
  end.

Fixpoint ops_ok (clock : Z) (ops : list VoiceOp) : Prop :=
  match ops with
  | [] => True
  | op :: ops => op_ok clock op ∧ ops_ok (opClock clock op) ops
  end.

Fixpoint opsClock (clock : Z) (ops : list VoiceOp) : Z :=
  match ops with [] => clock | op :: ops => opsClock (opClock clock op) ops end.

Lemma frameCount_app a b : frameCount (a ++ b) = frameCount a + frameCount b.
Proof. unfold frameCount. rewrite list.filter_app, length_app. lia. Qed.

Lemma gapCount_app a b : gapCount (a ++ b) = gapCount a + gapCount b.
Proof. unfold gapCount. rewrite list.filter_app, length_app. lia. Qed.

(** What every operation keeps. *)
Definition balanced (b b' : VoiceJitterBuffer) (n : Z) (out : list VoicePlayout) : Prop :=
  (∀ k, ledger b' (k + frameCount out) = u64 (discarded b + heldTotal b + k + n)) ∧
  u64 (gaps b') = u64 (gaps b + gapCount out) ∧
  maxFrames_ b' = maxFrames_ b.

Lemma balanced_refl b : balanced b b 0 [].
Proof.
  split_and!; [intros k; unfold ledger; change (frameCount []) with 0|change (gapCount []) with 0|done];
    f_equal; lia.
Qed.

Lemma balanced_trans b1 b2 b3 n n' o o' :
  balanced b1 b2 n o → balanced b2 b3 n' o' → balanced b1 b3 (n + n') (o ++ o').
Proof.
  intros (L1 & G1 & M1) (L2 & G2 & M2). split_and!; [intros k| |congruence].
  - rewrite frameCount_app, Z.add_assoc, L2.
    replace (discarded b2 + heldTotal b2 + (k + frameCount o) + n')
      with (discarded b2 + heldTotal b2 + (k + n' + frameCount o)) by lia.
    fold (ledger b2 (k + n' + frameCount o)). rewrite L1. f_equal. lia.
  - rewrite gapCount_app, G2, <- wrapU_add_l, G1, wrapU_add_l. f_equal. lia.
Qed.

Lemma pull_balanced b key now b' out :
  buffer_ok b now → pull b key now = Some (b', out) → balanced b b' 0 out.
Proof.
  intros Hok E. assert (maxFrames_ b' = maxFrames_ b) as Hm.
  { pose proof (pull_spec b key now Hok) as H. destruct (streams_ b !! key).
    - destruct H as (? & ? & _ & H). rewrite E in H. injection H as -> _. by case_match.
    - rewrite E in H. by injection H as -> ->. }
  split_and!; [intros k| |done]; destruct (pull_ledger b key now b' out 0 Hok E) as [[L G]|[-> ->]].
  - destruct (pull_ledger b key now b' out k Hok E) as [[L' _]|[-> ->]];
      [rewrite L'; unfold ledger; f_equal; lia|apply balanced_refl].
  - apply balanced_refl.
  - rewrite G. by rewrite wrapU_idemp.
  - apply balanced_refl.
Qed.

Lemma pollKeys_balanced keys b now b' out :
  buffer_ok b now → pollKeys b keys now = Some (b', out) → balanced b b' 0 out.
Proof.
  revert b out. induction keys as [|key keys IH]; intros b out Hok; cbn [pollKeys].
  - intros [= <- <-]. apply balanced_refl.
  - destruct (pull_ok b key now Hok) as (b1 & o1 & E1 & H1). rewrite E1. cbn [mbind option_bind].
    destruct (pollKeys b1 keys now) as [[b2 o2]|] eqn:E2; [|done]. intros [= <- <-].
    apply (balanced_trans _ b1 _ 0 0); [by eapply pull_balanced|by eapply IH].
Qed.

Lemma runOp_ok order b clock op :
  buffer_ok b clock → op_ok clock op →
  ∃ b' n out, runOp order b op = Some (b', n, out) ∧ buffer_ok b' (opClock clock op) ∧
    balanced b b' n out.
Proof.
  intros Hok [Hc Hp]. pose proof (buffer_ok_later _ _ _ Hok Hc) as Hok'.
  destruct op as [key p now|key now|now|key]; cbn [runOp opClock] in *.
  - destruct (push b key p now) as [b' r] eqn:E. eexists _, _, _. split_and!; [done|by eapply push_ok|].
    split_and!.
    + intros k. rewrite (push_ledger _ _ _ _ _ _ _ E). change (frameCount []) with 0. f_equal. lia.
    + apply push_spec in E. change (gapCount []) with 0. rewrite Z.add_0_r. by destruct E.
    + apply push_spec in E. by destruct E.
  - destruct (pull_ok b key now Hok') as (b' & out & E & H). rewrite E. cbn [mbind option_bind].
    eexists _, _, _. split_and!; [done|done|by eapply pull_balanced].
  - unfold poll. destruct (pollKeys_ok (order (streams_ b)) b now Hok') as (b' & out & E & H).
    rewrite E. cbn [mbind option_bind].
    eexists _, _, _. split_and!; [done|done|by eapply pollKeys_balanced].
  - eexists _, _, _. split_and!; [done|by apply forget_ok|]. unfold forget.
    destruct (streams_ b !! key) as [st|] eqn:Hk; [|apply balanced_refl].
    split_and!; [intros k; change (frameCount []) with 0|change (gapCount []) with 0|done];
      [|by rewrite Z.add_0_r]. unfold ledger.
    change (heldTotal (withStreams _ (delete key (streams_ b))))
      with (heldTotal (withStreams b (delete key (streams_ b)))).
    rewrite (heldTotal_delete _ _ _ Hk). cbn [discarded withStreams addDiscarded].
    rewrite <- !Z.add_assoc, wrapU_add_l. f_equal. lia.
Qed.

Lemma runOps_ok order ops b clock :
  buffer_ok b clock → ops_ok clock ops →
  ∃ b' n out, runOps order b ops = Some (b', n, out) ∧ buffer_ok b' (opsClock clock ops) ∧
    balanced b b' n out.
Proof.
  revert b clock. induction ops as [|op ops IH]; intros b clock Hok Hops; cbn [runOps ops_ok opsClock] in *.
  - eexists _, _, _. split_and!; [done|done|apply balanced_refl].
  - destruct Hops as [Hop Hops].
    destruct (runOp_ok order b clock op Hok Hop) as (b1 & n1 & o1 & -> & H1 & B1). cbn [mbind option_bind].
    destruct (IH b1 _ H1 Hops) as (b2 & n2 & o2 & -> & H2 & B2). cbn [mbind option_bind].
    eexists _, _, _. split_and!; [done|done|by eapply balanced_trans].
Qed.

(** ** Which slots a pull plays *)

(** Slot [i] of a pull that started with stream [st]. *)
Definition slot_of (st : Stream) (now silent : Z) (i : nat) (slot : VoicePlayout) : Prop :=
  po_seq slot = u16 (st_nextSeq st + Z.of_nat i) ∧
  st_nextAtMs st + Z.of_nat i * st_frameMs st ≤ now ∧
  st_nextAtMs st + Z.of_nat i * st_frameMs st < silent ∧
  (Z.of_nat i < 65536 →
     match st_frames st !! po_seq slot with
     | Some h => po_gap slot = false ∧ po_frame slot = held_frame h ∧
                 po_timestamp slot = vh_timestamp (held_header h)
     | None => po_gap slot = true ∧ po_frame slot = []
     end).

Lemma slot_of_next key st now silent :
  in_u 16 (st_nextSeq st) → due st now silent = true → slot_of st now silent 0 (playSlot key st).2.
Proof.
  intros Hn (_ & ? & ?)%due_true. cbn [playSlot snd]. unfold slot_of.
  rewrite Z.add_0_r, Z.mul_0_l, Z.add_0_r, wrapU_id by done.
  destruct (st_frames st !! st_nextSeq st) as [[h f]|] eqn:E; cbn; rewrite E; done.
Qed.

Lemma slot_of_later key st now silent i slot :
  in_u 16 (st_nextSeq st) →
  slot_of (playSlot key st).1 now silent i slot → slot_of st now silent (S i) slot.
Proof.
  cbn [playSlot fst]. unfold slot_of. cbn [st_nextSeq st_nextAtMs st_frameMs st_frames].
  intros Hn (Hs & Ha & Hb & Hf). split_and!; [rewrite Hs, wrapU_add_l; f_equal; lia|lia|lia|].
  intros Hi. rewrite lookup_delete_ne in Hf; [apply Hf; lia|].
  rewrite Hs. rewrite wrapU_add_l. seqs.
Qed.

Lemma plays_slots key now silent st out st' :
  plays key now silent st out st' → in_u 16 (st_nextSeq st) →
  ∀ i slot, out !! i = Some slot → slot_of st now silent i slot.
Proof.
  induction 1 as [|st out st' Hd _ IH]; intros Hn [|i] slot; try done.
  - cbn. intros [= <-]. by apply slot_of_next.
  - intros Hi. eapply slot_of_later; [done|]. apply IH; [|done]. apply wrapU_range; lia.
Qed.

Lemma plays_ended key now silent st out st' :
  plays key now silent st out st' → st_ended st = true → out = [].
Proof. destruct 1 as [|? ? ? (? & _)%due_true _]; congruence. Qed.

Lemma plays_final key now silent st out st' :
  plays key now silent st out st' →
  st_nextAtMs st' = st_nextAtMs st + Z.of_nat (length out) * st_frameMs st ∧
  due st' now silent = false ∧
  (st_ended st' = true → st_ended st = true ∨
     ∃ out0 slot, out = out0 ++ [slot] ∧ st_endSeq st = Some (po_seq slot)).
Proof.
  induction 1 as [|st out st' Hd Hp (IH1 & IH2 & IH3)]; [split_and!; [cbn; lia|done|by left]|].
  split_and!; [rewrite IH1; cbn; lia|done|]. intros E. destruct (IH3 E) as [E'|(out0 & slot & -> & He)].
  - right. cbn in E'. apply due_true in Hd as (Hne & _). destruct (st_endSeq st) as [e|] eqn:He.
    + destruct (Z.eqb_spec e (st_nextSeq st)) as [->|]; [|congruence].
      exists [], (playSlot key st).2. split.
      * rewrite (plays_ended _ _ _ _ _ _ Hp); [done|]. cbn. by rewrite He, Z.eqb_refl.
      * cbn. by repeat case_match.
    + congruence.
  - right. by exists ((playSlot key st).2 :: out0), slot.
Qed.

Lemma playSlot_slotAt key st s :
  0 < voiceSeqDiff s (st_nextSeq st) → slotAtMs (playSlot key st).1 s = slotAtMs st s.
Proof.
  intros H. unfold slotAtMs. cbn [playSlot fst st_nextAtMs st_nextSeq st_frameMs].
  rewrite voiceSeqDiff_succ by done. lia.
Qed.

Lemma plays_slotAt target m now' key now silent st out st' s h :
  plays key now silent st out st' → stream_ok target m now' st → st_frames st' !! s = Some h →
  st_frames st !! s = Some h ∧ slotAtMs st' s = slotAtMs st s.
Proof.
  intros Hp. induction Hp as [|st out st' _ Hp IH]; intros Hok Hs; [done|].
  destruct (IH (playSlot_ok _ _ _ key _ Hok) Hs) as [Hs' ->].
  cbn in Hs'. apply lookup_delete_Some in Hs' as [Hne Hs']. split; [done|].
  apply playSlot_slotAt. destruct Hok as (Hn & _ & _ & Hh & _). destruct (Hh s h Hs') as (Hr & _ & Hd & _).
  enough (voiceSeqDiff s (st_nextSeq st) ≠ 0) by lia. intros E. apply Hne.
  apply (voiceSeqDiff_inj _ _ (st_nextSeq st)); try done. by rewrite voiceSeqDiff_self.
Qed.

(** ** The packetizer's numbering *)

Fixpoint packetizeAll (p : VoicePacketizer) (frames : list (bytes * bool))
    : VoicePacketizer * list bytes :=
  match frames with
  | [] => (p, [])
  | (f, last) :: frames =>
      let '(p, packet) := packetize p f last in
      let '(p, packets) := packetizeAll p frames in (p, packet :: packets)
  end.

Definition packetizer_ok (p : VoicePacketizer) : Prop :=
  is_byte (pk_codec_ p) ∧ is_byte (pk_frameMs_ p) ∧ pk_frameMs_ p ≠ 0 ∧
  in_u 16 (pk_seq_ p) ∧ in_u 32 (pk_timestamp_ p).

(** The header of frame [i]: [start] tells whether it follows silence. *)
Definition numbered (p : VoicePacketizer) (i : nat) (start last : bool) : VoiceHeader :=
  mkVoiceHeader kVoiceHeaderVersion (pk_codec_ p) (u16 (pk_seq_ p + Z.of_nat i))
    (u32 (pk_timestamp_ p + Z.of_nat i * voiceSamplesPerFrame (pk_codec_ p) (pk_frameMs_ p)))
    (pk_frameMs_ p) (Z.b2z start + 2 * Z.b2z last).

Lemma packetize_ok p frame last :
  packetizer_ok p → (length frame ≤ kMaxVoiceFrameBytes)%nat →
  packetizer_ok (packetize p frame last).1 ∧
  decodeVoicePacket (packetize p frame last).2 =
    Some (mkVoicePacket (numbered p 0 (pk_spurtStart_ p) last) frame).
Proof.
  intros (Hc & Hm & H0 & Hs & Ht) Hl. unfold packetize.
  rewrite (proj2 (Z.eqb_neq _ _) H0), bool_decide_eq_false_2 by lia. cbn [orb fst snd].
  split; [split_and!; cbn; try done; apply wrapU_range; lia|].
  unfold encodeVoicePacket. rewrite decide_False by lia.
  rewrite decode_encode_header.
  - unfold numbered. rewrite Z.mul_0_l, !Z.add_0_r, (wrapU_id 16), (wrapU_id 32) by done.
    by destruct (pk_spurtStart_ p), last.
  - split_and!; cbn; try done. by destruct (pk_spurtStart_ p), last.
Qed.

Lemma numbered_next p frame last i start l :
  packetizer_ok p → (length frame ≤ kMaxVoiceFrameBytes)%nat →
  numbered (packetize p frame last).1 i start l = numbered p (S i) start l.
Proof.
  intros (_ & _ & H0 & _) Hl. unfold packetize.
  rewrite (proj2 (Z.eqb_neq _ _) H0), bool_decide_eq_false_2 by lia. cbn [orb fst].
  unfold numbered. cbn [pk_codec_ pk_frameMs_ pk_seq_ pk_timestamp_].
  rewrite !wrapU_add_l. f_equal; f_equal; lia.
Qed.

Lemma packetize_spurt p frame last :
  packetizer_ok p → (length frame ≤ kMaxVoiceFrameBytes)%nat →
  pk_spurtStart_ (packetize p frame last).1 = last.
Proof.
  intros (_ & _ & H0 & _) Hl. unfold packetize.
  by rewrite (proj2 (Z.eqb_neq _ _) H0), bool_decide_eq_false_2 by lia.
Qed.

(** ** What the module promises *)

(** A voice packet decodes to the header and the frame it was made from, and every packet
    of octets that decodes is the encoding of what it decodes to: refused are exactly the short
    packets and the other versions. *)
Theorem voicePacket_roundtrip :
  (∀ h frame, header_ok h → (length frame ≤ kMaxVoiceFrameBytes)%nat →
     decodeVoicePacket (encodeVoicePacket h frame) = Some (mkVoicePacket h frame)) ∧
  (∀ p v, Forall is_byte p → (length p ≤ kVoiceHeaderBytes + kMaxVoiceFrameBytes)%nat →
     decodeVoicePacket p = Some v → encodeVoicePacket (vp_header v) (vp_frame v) = p) ∧
  (∀ p, decodeVoicePacket p = None ↔
     (length p < kVoiceHeaderBytes)%nat ∨ head p ≠ Some kVoiceHeaderVersion).
Proof.
  split_and!.
  - intros h frame Hh Hl. unfold encodeVoicePacket. rewrite decide_False by lia.
    by apply decode_encode_header.
  - intros p v Hb Hl Hd. destruct (decodeVoicePacket_inv p v Hd Hb) as (E & _ & _).
    rewrite E, length_app, length_encodeVoiceHeader in Hl.
    unfold encodeVoicePacket. by rewrite decide_False by lia.
  - intros p. unfold kVoiceHeaderBytes.
    destruct p as [|p0 [|p1 [|p2 [|p3 [|p4 [|p5 [|p6 [|p7 [|p8 [|p9 f]]]]]]]]]]; cbn [decodeVoicePacket length head];
      try (split; [left; lia|done]).
    destruct (Z.eqb_spec p0 kVoiceHeaderVersion) as [->|]; cbn [negb]; split; try done.
    + intros [?|?]; [lia|done].
    + intros _. right. congruence.
Qed.

(** The packetizer numbers a run of frames: packet [i] decodes to its frame under the
    header with seq and timestamp advanced [i] times modulo their width, the talk-spurt start
    flag exactly on the first packet and after each last one, the end flag on the last ones. *)
Theorem packetizer_numbers_frames p frames :
  packetizer_ok p → pk_spurtStart_ p = true →
  Forall (λ f, (length f.1 ≤ kMaxVoiceFrameBytes)%nat) frames →
  ∀ i f last packet, frames !! i = Some (f, last) → (packetizeAll p frames).2 !! i = Some packet →
  let start := match i with O => true | S j => default true (snd <$> frames !! j) end in
  decodeVoicePacket packet = Some (mkVoicePacket (numbered p i start last) f).
Proof.
  intros Hp Hstart Hl i f last packet Hf Hpk start.
  assert (start = match i with O => pk_spurtStart_ p | S j => default true (snd <$> frames !! j) end)
    as -> by (destruct i; done). clear Hstart.
  revert p i Hp Hf Hpk. induction Hl as [|[f0 last0] frames Hf0 Hl IH]; intros p i Hp Hf Hpk; [done|].
  cbn [packetizeAll fst] in *. destruct (packetize_ok p f0 last0 Hp Hf0) as [Hp' Hd].
  pose proof (packetize_spurt p f0 last0 Hp Hf0) as Hs.
  pose proof (λ j, numbered_next p f0 last0 j) as Hn.
  destruct (packetize p f0 last0) as [p1 pk1] eqn:E1. destruct (packetizeAll p1 frames) as [p2 pks] eqn:E2.
  destruct i as [|j]; cbn in Hf, Hpk.
  - injection Hf as -> ->. by injection Hpk as <-.
  - cbn [fst snd] in *. rewrite <- Hn by done.
    specialize (IH p1 j Hp' Hf). rewrite E2 in IH. rewrite (IH Hpk). destruct j; [|done].
    cbn. by rewrite Hs.
Qed.

(** C16. Under a clock that never goes back, and options whose delay plus window is at most
    32768, every run of pushes, pulls, polls and forgets returns (each [pull] ends), no sender
    ever holds more than [maxFrames] frames, and every accepted frame is played once, held or
    counted as discarded (counters modulo 2^64). *)
Theorem jitterBuffer_runs_ok order target maxFrames resetAfter clock ops :
  target + Z.max 1 (Z.min 4096 maxFrames) ≤ 32768 → ops_ok clock ops →
  let b0 := makeVoiceJitterBuffer target maxFrames resetAfter in
  ∃ b n out, runOps order b0 ops = Some (b, n, out) ∧
    (∀ key, Z.of_nat (bufferedCount b key) ≤ maxFrames_ b0) ∧
    u64 (discarded b + heldTotal b + frameCount out) = u64 n ∧
    u64 (gaps b) = u64 (gapCount out).
Proof.
  intros Ho Hops b0. pose proof (makeVoiceJitterBuffer_ok target maxFrames resetAfter clock Ho) as H0.
  fold b0 in H0. destruct (runOps_ok order ops b0 clock H0 Hops) as (b & n & out & E & Hb & L & G & M).
  exists b, n, out. split_and!; [done| | |].
  - intros key. destruct Hb as [Hopt Hs]. unfold bufferedCount. rewrite <- M.
    destruct (streams_ b !! key) as [st|] eqn:Hk; [|unfold options_ok in Hopt; lia].
    eapply frames_size; [by eapply Hs|]. unfold options_ok in Hopt. lia.
  - specialize (L 0). unfold ledger in L. rewrite Z.add_0_l in L. by rewrite L.
  - by rewrite G.
Qed.

(** A pull returns the due slots and only them, in seq order from the next one to play:
    slot [i] has the next seq plus [i] and is due at its time; it is the held frame of that seq,
    or a gap when none is held. It stops at the first slot in the future or at the silence
    limit, or after the last packet of the spurt. *)
Theorem pull_plays_due_slots b key now st :
  buffer_ok b now → streams_ b !! key = Some st →
  let silent := st_lastArrivalMs st + resetAfterMs_ b in
  ∃ b' out, pull b key now = Some (b', out) ∧
    (∀ i slot, out !! i = Some slot → slot_of st now silent i slot) ∧
    (Z.min now (silent - 1) < st_nextAtMs st + Z.of_nat (length out) * st_frameMs st ∨
     st_ended st = true ∨
     ∃ out0 slot, out = out0 ++ [slot] ∧ st_endSeq st = Some (po_seq slot)).
Proof.
  intros Hok Hk silent. pose proof (pull_spec b key now Hok) as H. rewrite Hk in H.
  destruct H as (st' & out & Hp & E). eexists _, out. split; [exact E|].
  split; [eapply plays_slots; [exact Hp|by destruct (proj2 Hok _ _ Hk)]|].
  destruct (plays_final _ _ _ _ _ _ Hp) as (Hat & Hd & He).
  unfold due in Hd. rewrite <- Hat. apply andb_false_iff in Hd as [Hd|?%Z.ltb_ge].
  - apply andb_false_iff in Hd as [?%negb_false_iff|?%Z.leb_gt]; [right; auto|left; lia].
  - left. unfold silent. lia.
Qed.

(** A held frame's playout time never changes: neither a pull nor a packet accepted without
    starting the stream over (in front of the others included) moves the slot of a seq that
    stays held. *)
Theorem slot_times_fixed b key now st st' s h b' :
  buffer_ok b now → streams_ b !! key = Some st → st_frames st !! s = Some h →
  ((∃ out, pull b key now = Some (b', out)) ∨
   (∃ packet v r, Forall is_byte packet ∧ decodeVoicePacket packet = Some v ∧
      startsOver b st (vp_header v) now = false ∧ push b key packet now = (b', r))) →
  streams_ b' !! key = Some st' → is_Some (st_frames st' !! s) →
  slotAtMs st' s = slotAtMs st s.
Proof.
  intros Hok Hk Hs [[out E]|(packet & v & r & Hb & Hv & Hso & E)] Hk' [h' Hs'].
  - pose proof (pull_spec b key now Hok) as H. rewrite Hk in H. destruct H as (st1 & out1 & Hp & E1).
    rewrite E in E1. injection E1 as -> _. case_match; cbn in Hk'.
    + by rewrite lookup_delete_eq in Hk'.
    + rewrite lookup_insert_eq in Hk'. injection Hk' as ->.
      eapply plays_slotAt; [done|by eapply Hok|done].
  - apply push_spec in E. destruct E as [|p Hd H0 Hk2|p st2 Hd H0 Hk2 Hso2| | |p st2 Hd H0 Hk2 Hso2 Hn Hneg Hslot];
      cbn in Hk'; simplify_eq; try done; try congruence.
    rewrite lookup_insert_eq in Hk'. injection Hk' as <-.
    destruct (proj2 Hok _ _ Hk) as (Hnx & Hf & _ & Hh & Hst). destruct (Hh s h Hs) as (_ & _ & Hw & _).
    unfold slotAtMs at 1. cbn [acceptFrame st_nextAtMs st_nextSeq st_frameMs].
    destruct (Z.ltb_spec (voiceSeqDiff (vh_seq (vp_header v)) (st_nextSeq st)) 0) as [Hlt|]; [|done].
    destruct (Hneg Hlt) as [Es _]. destruct (Hst Es) as (Hat & _).
    rewrite (front_distance b st now _ s) by (done || apply Hok). unfold slotAtMs. lia.
Qed.

(** ** Concrete runs *)

Definition demoHeader (seq flags : Z) : VoiceHeader :=
  mkVoiceHeader kVoiceHeaderVersion VoiceCodec_Opus seq (u32 (seq * 960)) 20 flags.
Definition demoPacket (seq flags : Z) : bytes := encodeVoicePacket (demoHeader seq flags) [u8 seq; 7].
Definition demoOrder (m : gmap string Stream) : list string := (map_to_list m).*1.

(** Reordering across the wrap of the seq, a gap, a silence. *)
Definition demoOps : list VoiceOp :=
  [OpPush "a" (demoPacket 65535 1) 0; OpPush "a" (demoPacket 1 2) 5; OpPush "a" (demoPacket 65534 0) 10;
   OpPush "a" (demoPacket 1 2) 12; OpPoll 40; OpPull "a" 120; OpForget "b"; OpPoll 400].

Definition demoBuffer : VoiceJitterBuffer :=
  match runOps demoOrder (makeVoiceJitterBuffer 60 64 200) (take 3 demoOps) with
  | Some (b, _, _) => b
  | None => makeVoiceJitterBuffer 60 64 200
  end.

Example demo_run :
  match runOps demoOrder (makeVoiceJitterBuffer 60 64 200) demoOps with
  | Some (_, n, out) => Some (n, map po_seq out, map po_gap out)
  | None => None
  end = Some (3, [65534; 65535; 0; 1], [false; false; true; false]).
Proof. vm_compute. reflexivity. Qed.

Lemma demoBuffer_ok : buffer_ok demoBuffer 10.
Proof.
  destruct (runOps_ok demoOrder (take 3 demoOps) (makeVoiceJitterBuffer 60 64 200) 0)
    as (b & n & out & E & Hb & _).
  - apply makeVoiceJitterBuffer_ok. lia.
  - vm_compute. repeat split; try done; repeat (apply Forall_cons_2; [vm_compute; split; done|]); by apply Forall_nil_2.
  - unfold demoBuffer. rewrite E. exact Hb.
Qed.

(** With a delay of 700 seconds the documented bound on the frames of one sender does not hold:
    a packet 32760 seqs behind is fitted in front of the spurt because its distance to the
    highest seq wraps, and a whole new window fits beside the old frames. *)
Example window_exceeded_by_long_delay :
  let pushes := (λ i : nat, OpPush "a" (demoPacket (32776 + Z.of_nat i) 0) 0) <$> seq 0 64 in
  match runOps demoOrder (makeVoiceJitterBuffer 700000 64 800000)
    (OpPush "a" (demoPacket 0 1) 0 :: OpPush "a" (demoPacket 10 0) 0 :: pushes) with
  | Some (b, _, _) => bufferedCount b "a"
  | None => 0%nat
  end = 66%nat.
Proof. vm_compute. reflexivity. Qed.

Lemma jitterBuffer_runs_ok_witness :
  ∃ b n out, runOps demoOrder (makeVoiceJitterBuffer 60 64 200) demoOps = Some (b, n, out).
Proof.
  destruct (jitterBuffer_runs_ok demoOrder 60 64 200 0 demoOps ltac:(lia)) as (b & n & out & E & _).
  - vm_compute. repeat split; try done; repeat (apply Forall_cons_2; [vm_compute; split; done|]); by apply Forall_nil_2.
  - by exists b, n, out.
Defined.
