(* ===== verification/Video.v ===== *)
(** * Video fragments

    [include/crowdy/media/video_frames.hpp]: an encoded video frame crosses as up to sixteen
    fragments, each a six-byte header (frame id big-endian) and a slice; the assembler
    rebuilds frames per sender. The two [unordered_map]s are finite maps from the 32 uuid
    octets. Indexing a vector outside its size is undefined behaviour ([UB]). *)

From S2P Require Import Prelude.

Open Scope Z_scope.

Definition kVideoFragmentHeaderBytes : nat := 6.
Definition kMaxVideoFragmentBodyBytes : nat := 1117.
Definition kMaxVideoFragments : nat := 16.
Definition kVideoFrameTimeoutMs : Z := 500.
Definition kVideoFragmentVersion : Z := 1.

Definition VideoCodec_Jpeg : Z := 0.
Definition VideoCodec_WebP : Z := 1.

(** FNV-1a over the uuid octets. *)
Definition actorUuidHash (u : bytes) : Z :=
  foldl (λ h c, u64 (Z.lxor h (u8 c) * 1099511628211)) 1469598103934665603 u.

Record VideoFragmentHeader := mkVideoFragmentHeader {
  vf_version : Z; vf_codec : Z; vf_frameId : Z; vf_fragIndex : Z; vf_fragCount : Z }.

Record AssembledVideoFrame := mkAssembledVideoFrame {
  af_uuid : bytes; af_frameId : Z; af_codec : Z; af_bytes : bytes; af_completedAtMs : Z }.

Definition parseVideoFragmentHeader (packet : bytes) : option VideoFragmentHeader :=
  match packet with
  | p0 :: p1 :: p2 :: p3 :: p4 :: p5 :: _ =>
      let h := mkVideoFragmentHeader p0 p1 (u16 (Z.lor (Z.shiftl (u16 p2) 8) p3)) p4 p5 in
      if negb (vf_version h =? kVideoFragmentVersion) then None else
      if negb (vf_codec h =? VideoCodec_Jpeg) && negb (vf_codec h =? VideoCodec_WebP) then None else
      if (vf_fragCount h <? 1) || (Z.of_nat kMaxVideoFragments <? vf_fragCount h) then None else
      if vf_fragCount h <=? vf_fragIndex h then None else
      Some h
  | _ => None
  end.

Definition isNewerFrameId (a b : Z) : bool :=
  let d := u16 (a - b) in negb (d =? 0) && (d <? 32768).

(** The packet of fragment [i]: the six header octets, then the slice. *)
Definition fragmentPacket (frame : bytes) (frameId codec : Z) (maxBody fragCount i : nat) : bytes :=
  let begin := (i * maxBody)%nat in
  let len := Nat.min maxBody (length frame - begin) in
  [kVideoFragmentVersion; u8 codec; u8 (Z.shiftr frameId 8); u8 (Z.land frameId 255);
   u8 (Z.of_nat i); u8 (Z.of_nat fragCount)] ++ take len (drop begin frame).

Definition fragmentFrame (frame : bytes) (frameId codec : Z) (maxBody : nat) : list bytes :=
  if decide (length frame = 0%nat ∨ maxBody < 1 ∨ kMaxVideoFragmentBodyBytes < maxBody)%nat then [] else
  let fragCount := ((length frame + maxBody - 1) / maxBody)%nat in
  if decide (kMaxVideoFragments < fragCount)%nat then [] else
  fragmentPacket frame frameId codec maxBody fragCount <$> seq 0 fragCount.

(** ** The assembler *)

Record Pending := mkPending {
  pd_frameId : Z; pd_codec : Z; pd_fragCount : Z; pd_received : Z; pd_lastAtMs : Z;
  pd_parts : list bytes; pd_have : list bool }.

Record VideoFrameAssembler := mkVideoFrameAssembler {
  timeoutMs_ : Z;
  pending_ : gmap bytes Pending;
  lastDone_ : gmap bytes Z;
  dropped : Z; abandoned : Z }.

Definition makeVideoFrameAssembler (timeoutMs : Z) : VideoFrameAssembler :=
  mkVideoFrameAssembler timeoutMs ∅ ∅ 0 0.

Definition addDropped (a : VideoFrameAssembler) : VideoFrameAssembler :=
  mkVideoFrameAssembler (timeoutMs_ a) (pending_ a) (lastDone_ a) (u64 (dropped a + 1)) (abandoned a).
(** [++abandoned] with the frame erased. *)
Definition abandonPending (a : VideoFrameAssembler) (uuid : bytes) : VideoFrameAssembler :=
  mkVideoFrameAssembler (timeoutMs_ a) (delete uuid (pending_ a)) (lastDone_ a) (dropped a)
    (u64 (abandoned a + 1)).
Definition setLastDone (a : VideoFrameAssembler) (uuid : bytes) (frameId : Z) : VideoFrameAssembler :=
  mkVideoFrameAssembler (timeoutMs_ a) (pending_ a) (<[uuid := frameId]> (lastDone_ a)) (dropped a)
    (abandoned a).
Definition setPending (a : VideoFrameAssembler) (uuid : bytes) (p : Pending) : VideoFrameAssembler :=
  mkVideoFrameAssembler (timeoutMs_ a) (<[uuid := p]> (pending_ a)) (lastDone_ a) (dropped a)
    (abandoned a).
Definition erasePending (a : VideoFrameAssembler) (uuid : bytes) : VideoFrameAssembler :=
  mkVideoFrameAssembler (timeoutMs_ a) (delete uuid (pending_ a)) (lastDone_ a) (dropped a)
    (abandoned a).

(** The frame-id decision of [ingest] (lines 156-173): [None] drops the fragment. *)
Definition admitFragment (a : VideoFrameAssembler) (uuid : bytes) (h : VideoFragmentHeader)
    : option VideoFrameAssembler :=
  match pending_ a !! uuid with
  | None =>
      match lastDone_ a !! uuid with
      | Some done => if negb (isNewerFrameId (vf_frameId h) done) then None else Some a
      | None => Some a
      end
  | Some p =>
      if negb (pd_frameId p =? vf_frameId h) then
        if isNewerFrameId (vf_frameId h) (pd_frameId p)
        then Some (setLastDone (abandonPending a uuid) uuid (pd_frameId p))
        else None
      else Some a
  end.

(** Lines 174-179: the same frame id with another shape restarts the frame. *)
Definition checkShape (a : VideoFrameAssembler) (uuid : bytes) (h : VideoFragmentHeader)
    : VideoFrameAssembler :=
  match pending_ a !! uuid with
  | Some p =>
      if negb (pd_fragCount p =? vf_fragCount h) || negb (pd_codec p =? vf_codec h)
      then abandonPending a uuid else a
  | None => a
  end.

(** Lines 180-189: the frame in progress, created when there is none. *)
Definition openFrame (a : VideoFrameAssembler) (uuid : bytes) (h : VideoFragmentHeader) : Pending :=
  match pending_ a !! uuid with
  | Some p => p
  | None =>
      mkPending (vf_frameId h) (vf_codec h) (vf_fragCount h) 0 0
        (replicate (Z.to_nat (vf_fragCount h)) []) (replicate (Z.to_nat (vf_fragCount h)) false)
  end.

(** Lines 190-196: the fragment stored once, the clock always. *)
Definition storePart (p : Pending) (h : VideoFragmentHeader) (body : bytes) (nowMs : Z)
    : option Pending :=
  have ← pd_have p !! Z.to_nat (vf_fragIndex h);
  if negb have then
    _ ← pd_parts p !! Z.to_nat (vf_fragIndex h);
    Some (mkPending (pd_frameId p) (pd_codec p) (pd_fragCount p) (u8 (pd_received p + 1)) nowMs
      (<[Z.to_nat (vf_fragIndex h) := body]> (pd_parts p))
      (<[Z.to_nat (vf_fragIndex h) := true]> (pd_have p)))
  else
    Some (mkPending (pd_frameId p) (pd_codec p) (pd_fragCount p) (pd_received p) nowMs
      (pd_parts p) (pd_have p)).

Definition ingest (a : VideoFrameAssembler) (uuid packet : bytes) (nowMs : Z)
    : option (VideoFrameAssembler * option AssembledVideoFrame) :=
  match parseVideoFragmentHeader packet with
  | None => Some (addDropped a, None)
  | Some h =>
      match admitFragment a uuid h with
      | None => Some (addDropped a, None)
      | Some a =>
          let a := checkShape a uuid h in
          frame ← storePart (openFrame a uuid h) h (drop kVideoFragmentHeaderBytes packet) nowMs;
          if pd_received frame <? pd_fragCount frame
          then Some (setPending a uuid frame, None) else
          let out := mkAssembledVideoFrame uuid (pd_frameId frame) (pd_codec frame)
            (concat (pd_parts frame)) nowMs in
          Some (erasePending (setLastDone a uuid (pd_frameId frame)) uuid, Some out)
      end
  end.

(** Every pending frame past the timeout, whatever the iteration order. *)
Definition expired (a : VideoFrameAssembler) (nowMs : Z) : gmap bytes Pending :=
  filter (λ kv, timeoutMs_ a < nowMs - pd_lastAtMs kv.2) (pending_ a).

Definition prune (a : VideoFrameAssembler) (nowMs : Z) : VideoFrameAssembler * nat :=
  let gone := expired a nowMs in
  (mkVideoFrameAssembler (timeoutMs_ a) (pending_ a ∖ gone) ((pd_frameId <$> gone) ∪ lastDone_ a)
     (dropped a) (u64 (abandoned a + Z.of_nat (size gone))), size gone).

Definition forgetSender (a : VideoFrameAssembler) (uuid : bytes) : VideoFrameAssembler :=
  let a := match pending_ a !! uuid with Some _ => abandonPending a uuid | None => a end in
  mkVideoFrameAssembler (timeoutMs_ a) (pending_ a) (delete uuid (lastDone_ a)) (dropped a)
    (abandoned a).

Definition pendingCount (a : VideoFrameAssembler) : nat := size (pending_ a).

(** ** Fragments *)

Definition codec_ok (codec : Z) : Prop := codec = VideoCodec_Jpeg ∨ codec = VideoCodec_WebP.

(** The fragments [frame] is cut into. *)
Definition fragments (frame : bytes) (maxBody : nat) : nat := (length frame + maxBody - 1) / maxBody.
Definition slice (frame : bytes) (maxBody i : nat) : bytes :=
  take (Nat.min maxBody (length frame - i * maxBody)) (drop (i * maxBody) frame).
Definition cut_ok (frame : bytes) (maxBody : nat) : Prop :=
  (length frame ≠ 0 ∧ 1 ≤ maxBody ≤ kMaxVideoFragmentBodyBytes ∧ fragments frame maxBody ≤ kMaxVideoFragments)%nat.

Lemma fragments_cover frame maxBody :
  (1 ≤ maxBody)%nat → (length frame ≤ fragments frame maxBody * maxBody)%nat.
Proof.
  intros H. unfold fragments.
  pose proof (Nat.div_mod (length frame + maxBody - 1) maxBody ltac:(lia)).
  pose proof (Nat.mod_upper_bound (length frame + maxBody - 1) maxBody ltac:(lia)). lia.
Qed.

Lemma fragments_pos frame maxBody : cut_ok frame maxBody → (1 ≤ fragments frame maxBody ≤ 16)%nat.
Proof.
  intros (H0 & Hm & Hn). unfold kMaxVideoFragments in Hn. split; [|done].
  unfold fragments. apply Nat.div_str_pos. lia.
Qed.

Lemma slices_concat frame maxBody k :
  concat (slice frame maxBody <$> seq 0 k) = take (k * maxBody) frame.
Proof.
  induction k as [|k IH]; [done|].
  rewrite seq_S, Nat.add_0_l, fmap_app, concat_app, IH. cbn [fmap list_fmap concat]. rewrite app_nil_r.
  replace (S k * maxBody)%nat with (k * maxBody + maxBody)%nat by lia.
  rewrite <- (take_take_drop frame (k * maxBody) maxBody). f_equal.
  unfold slice. destruct (Nat.min_spec maxBody (length frame - k * maxBody)) as [[_ ->]|[Hle ->]]; [done|].
  rewrite !take_ge; [done| |]; rewrite length_drop; lia.
Qed.

Lemma slices_whole frame maxBody :
  (1 ≤ maxBody)%nat → concat (slice frame maxBody <$> seq 0 (fragments frame maxBody)) = frame.
Proof. intros H. rewrite slices_concat. by apply take_ge, fragments_cover. Qed.

Lemma fragmentFrame_cut frame frameId codec maxBody :
  cut_ok frame maxBody →
  fragmentFrame frame frameId codec maxBody =
    fragmentPacket frame frameId codec maxBody (fragments frame maxBody) <$> seq 0 (fragments frame maxBody).
Proof.
  intros (H0 & Hm & Hn). unfold fragmentFrame. fold (fragments frame maxBody).
  by rewrite !decide_False by lia.
Qed.

Lemma fragmentFrame_refused frame frameId codec maxBody :
  fragmentFrame frame frameId codec maxBody = [] ↔ ¬ cut_ok frame maxBody.
Proof.
  split.
  - intros E Hc. pose proof (fragments_pos _ _ Hc). rewrite fragmentFrame_cut in E by done.
    apply (f_equal length) in E. rewrite length_fmap, length_seq in E. cbn in E. lia.
  - intros Hn. unfold fragmentFrame. fold (fragments frame maxBody). unfold cut_ok in Hn.
    repeat case_decide; try done. lia.
Qed.

(** A frame id in big-endian octets. *)
Lemma frameId_octets id :
  in_u 16 id → u16 (Z.lor (Z.shiftl (u16 (u8 (Z.shiftr id 8))) 8) (u8 (Z.land id 255))) = id.
Proof.
  unfold in_u. change (2 ^ 16) with 65536. intros Hid.
  change 255 with (Z.ones 8). rewrite Z.land_ones, Z.shiftr_div_pow2 by lia.
  unfold wrapU. change (2 ^ 8) with 256. change (2 ^ 16) with 65536.
  rewrite (Z.mod_small (id / 256) 256), (Z.mod_small (id / 256) 65536), Z.mod_mod by
    (lia || (split; [apply Z.div_pos; lia|apply Z.div_lt_upper_bound; lia])).
  rewrite <- Z.add_nocarry_lor.
  - rewrite Z.shiftl_mul_pow2 by lia. change (2 ^ 8) with 256. rewrite Z.mod_small; Z.div_mod_to_equations; lia.
  - change 256 with (2 ^ 8) at 2. rewrite <- Z.land_ones by lia.
    apply Z.bits_inj'. intros i Hi. rewrite !Z.land_spec, Z.bits_0.
    destruct (decide (i < 8)); [by rewrite Z.shiftl_spec_low|].
    rewrite (Z.ones_spec_high 8 i) by lia. by rewrite !andb_false_r.
Qed.

Lemma parse_fragmentPacket frame id codec maxBody i :
  in_u 16 id → codec_ok codec → cut_ok frame maxBody → (i < fragments frame maxBody)%nat →
  parseVideoFragmentHeader (fragmentPacket frame id codec maxBody (fragments frame maxBody) i) =
    Some (mkVideoFragmentHeader kVideoFragmentVersion codec id (Z.of_nat i) (Z.of_nat (fragments frame maxBody))).
Proof.
  intros Hid Hc Hcut Hi. pose proof (fragments_pos _ _ Hcut) as Hn.
  unfold fragmentPacket. cbn [parseVideoFragmentHeader app]. rewrite frameId_octets by done.
  rewrite !(wrapU_id 8) by (unfold in_u; change (2 ^ 8) with 256; destruct Hc as [-> | ->];
    unfold VideoCodec_Jpeg, VideoCodec_WebP; lia).
  cbn [vf_version vf_codec vf_fragCount vf_fragIndex].
  rewrite Z.eqb_refl. cbn [negb].
  assert (negb (codec =? VideoCodec_Jpeg) && negb (codec =? VideoCodec_WebP) = false) as ->
    by (destruct Hc as [-> | ->]; done).
  rewrite (proj2 (Z.ltb_ge _ 1)), (proj2 (Z.ltb_ge _ _)), (proj2 (Z.leb_gt _ _)) by (unfold kMaxVideoFragments; lia).
  done.
Qed.

Lemma drop_fragmentPacket frame id codec maxBody n i :
  drop kVideoFragmentHeaderBytes (fragmentPacket frame id codec maxBody n i) = slice frame maxBody i.
Proof. reflexivity. Qed.

Lemma parse_inv packet h :
  parseVideoFragmentHeader packet = Some h →
  in_u 16 (vf_frameId h) ∧ codec_ok (vf_codec h) ∧ 1 ≤ vf_fragCount h ≤ 16 ∧ vf_fragIndex h < vf_fragCount h ∧
  (kVideoFragmentHeaderBytes ≤ length packet)%nat.
Proof.
  destruct packet as [|p0 [|p1 [|p2 [|p3 [|p4 [|p5 l]]]]]]; try done.
  cbn [parseVideoFragmentHeader vf_version vf_codec vf_fragCount vf_fragIndex]. repeat case_match; try done.
  intros [= <-]. cbn.
  repeat match goal with
  | H : (_ || _) = false |- _ => apply orb_false_iff in H as [? ?]
  | H : (_ <? _) = false |- _ => apply Z.ltb_ge in H
  | H : (_ <=? _) = false |- _ => apply Z.leb_gt in H
  | H : (negb _ && negb _) = false |- _ => rewrite <- negb_orb, negb_false_iff, orb_true_iff, !Z.eqb_eq in H
  end.
  unfold kMaxVideoFragments, kVideoFragmentHeaderBytes in *.
  split_and!; try done; try lia; apply wrapU_range; lia.
Qed.

(** ** The invariant of the assembler *)

Definition countTrue (l : list bool) : nat := length (filter (λ b, b = true) l).

#[global] Arguments countTrue : simpl never.

Lemma countTrue_cons b l : countTrue (b :: l) = ((if b then 1 else 0) + countTrue l)%nat.
Proof. unfold countTrue. rewrite filter_cons. by destruct b. Qed.

Lemma countTrue_le l : (countTrue l ≤ length l)%nat.
Proof. induction l as [|[] l IH]; [done| |]; rewrite countTrue_cons; cbn [length]; lia. Qed.

Lemma countTrue_set l i :
  l !! i = Some false → countTrue (<[i := true]> l) = S (countTrue l).
Proof.
  revert i. induction l as [|b l IH]; intros [|i] H; try done; cbn in H; cbn [insert list_insert].
  - injection H as ->. by rewrite !countTrue_cons.
  - rewrite !countTrue_cons, IH by done. lia.
Qed.

Lemma countTrue_all l : countTrue l = length l ↔ ∀ i, (i < length l)%nat → l !! i = Some true.
Proof.
  induction l as [|b l IH]; [split; [intros _ i Hi; cbn in Hi; lia|done]|].
  rewrite countTrue_cons. pose proof (countTrue_le l). split.
  - intros E [|i] Hi; destruct b; cbn in *; try done; try lia. apply IH; lia.
  - intros Hall. pose proof (Hall 0%nat ltac:(cbn; lia)) as H0. cbn in H0. injection H0 as ->.
    cbn. f_equal. apply IH. intros i Hi. apply (Hall (S i)). cbn. lia.
Qed.

Definition shape_ok (p : Pending) : Prop :=
  in_u 16 (pd_frameId p) ∧ 1 ≤ pd_fragCount p ≤ 16 ∧
  length (pd_parts p) = Z.to_nat (pd_fragCount p) ∧ length (pd_have p) = Z.to_nat (pd_fragCount p) ∧
  pd_received p = Z.of_nat (countTrue (pd_have p)).

(** A frame in progress lacks a fragment. *)
Definition pending_ok (p : Pending) : Prop := shape_ok p ∧ pd_received p < pd_fragCount p.

Definition assembler_ok (a : VideoFrameAssembler) : Prop :=
  map_Forall (λ _, pending_ok) (pending_ a) ∧
  ∀ u p d, pending_ a !! u = Some p → lastDone_ a !! u = Some d → isNewerFrameId (pd_frameId p) d = true.

Lemma new_shape_ok id codec cnt :
  in_u 16 id → 1 ≤ cnt ≤ 16 →
  shape_ok (mkPending id codec cnt 0 0 (replicate (Z.to_nat cnt) []) (replicate (Z.to_nat cnt) false)).
Proof.
  intros Hid Hc. unfold shape_ok. cbn. rewrite !length_replicate. split_and!; try done; try lia.
  by induction (Z.to_nat cnt).
Qed.

Lemma openFrame_ok a u packet h :
  assembler_ok a → parseVideoFragmentHeader packet = Some h → shape_ok (openFrame a u h).
Proof.
  intros [Hp _] (Hid & _ & Hc & _)%parse_inv. unfold openFrame.
  destruct (pending_ a !! u) as [p|] eqn:E; [by destruct (Hp _ _ E)|].
  by apply new_shape_ok.
Qed.

(** A part in range is stored once; the others keep theirs. *)
Lemma storePart_ok p h body now :
  shape_ok p → vf_fragIndex h < pd_fragCount p →
  ∃ p', storePart p h body now = Some p' ∧ shape_ok p' ∧
    pd_frameId p' = pd_frameId p ∧ pd_codec p' = pd_codec p ∧ pd_fragCount p' = pd_fragCount p ∧
    pd_have p' = <[Z.to_nat (vf_fragIndex h) := true]> (pd_have p) ∧
    (pd_parts p' = if default false (pd_have p !! Z.to_nat (vf_fragIndex h)) then pd_parts p
       else <[Z.to_nat (vf_fragIndex h) := body]> (pd_parts p)).
Proof.
  intros (Hid & Hc & Hl & Hlh & Hr) Hi. unfold storePart.
  destruct (lookup_lt_is_Some_2 (pd_have p) (Z.to_nat (vf_fragIndex h))) as [b Hb]; [lia|].
  destruct (lookup_lt_is_Some_2 (pd_parts p) (Z.to_nat (vf_fragIndex h))) as [o Ho]; [lia|].
  rewrite Hb, Ho. cbn [mbind option_bind default id]. destruct b; cbn [negb].
  - eexists. split; [done|]. unfold shape_ok. cbn.
    rewrite (list_insert_id (pd_have p)) by done. done.
  - pose proof (countTrue_set _ _ Hb) as Hs. pose proof (countTrue_le (<[Z.to_nat (vf_fragIndex h) := true]> (pd_have p))) as Hle.
    rewrite length_insert in Hle.
    eexists. split; [done|]. unfold shape_ok. cbn. rewrite !length_insert. split_and!; try done; try lia.
    rewrite Hs, wrapU_id by (unfold in_u; change (2 ^ 8) with 256; lia). lia.
Qed.

Lemma delete_pending_ok (m : gmap bytes Pending) (d : gmap bytes Z) u :
  map_Forall (λ _, pending_ok) m →
  (∀ v p e, m !! v = Some p → d !! v = Some e → isNewerFrameId (pd_frameId p) e = true) →
  map_Forall (λ _, pending_ok) (delete u m) ∧
  (∀ v p e, delete u m !! v = Some p → d !! v = Some e → isNewerFrameId (pd_frameId p) e = true).
Proof.
  intros Hp Hn. split; [by apply map_Forall_delete|].
  intros v q e [_ Hq]%lookup_delete_Some. by eapply Hn.
Qed.

(** What [admitFragment] followed by [checkShape] leaves: the sender's frame in progress, if
    any, is the fragment's; the id is newer than every completed one. *)
Lemma admit_spec a u h a1 :
  assembler_ok a → admitFragment a u h = Some a1 →
  let a2 := checkShape a1 u h in
  assembler_ok a2 ∧
  (∀ p, pending_ a2 !! u = Some p → pd_frameId p = vf_frameId h ∧ pd_fragCount p = vf_fragCount h ∧ pd_codec p = vf_codec h) ∧
  (∀ d, lastDone_ a2 !! u = Some d → isNewerFrameId (vf_frameId h) d = true) ∧
  (∀ v, v ≠ u → pending_ a2 !! v = pending_ a !! v ∧ lastDone_ a2 !! v = lastDone_ a !! v).
Proof.
  intros [Hp Hn] Ha. assert (∀ a', a' = a →
    (∀ d, lastDone_ a !! u = Some d → isNewerFrameId (vf_frameId h) d = true) →
    (∀ p, pending_ a !! u = Some p → pd_frameId p = vf_frameId h) →
    let a2 := checkShape a' u h in
    assembler_ok a2 ∧
    (∀ p, pending_ a2 !! u = Some p → pd_frameId p = vf_frameId h ∧ pd_fragCount p = vf_fragCount h ∧ pd_codec p = vf_codec h) ∧
    (∀ d, lastDone_ a2 !! u = Some d → isNewerFrameId (vf_frameId h) d = true) ∧
    (∀ v, v ≠ u → pending_ a2 !! v = pending_ a !! v ∧ lastDone_ a2 !! v = lastDone_ a !! v)) as Hsame.
  { intros a' -> Hd Hid a2. unfold a2, checkShape. destruct (pending_ a !! u) as [p|] eqn:E.
    - destruct (Z.eqb_spec (pd_fragCount p) (vf_fragCount h)), (Z.eqb_spec (pd_codec p) (vf_codec h)); cbn [negb orb].
      1: { split_and!; try done. intros q Hq. rewrite E in Hq. injection Hq as <-. auto. }
      all: split_and!; [by apply delete_pending_ok| |done|]; cbn.
      all: try (intros q; by rewrite lookup_delete_eq).
      all: intros v Hv; by rewrite lookup_delete_ne.
    - split_and!; try done. intros q Hq. congruence. }
  unfold admitFragment in Ha. destruct (pending_ a !! u) as [p|] eqn:E.
  - destruct (Z.eqb_spec (pd_frameId p) (vf_frameId h)) as [Eid|Hne]; cbn [negb] in Ha.
    + injection Ha as <-. apply Hsame; [done| |by intros q [= <-]].
      intros d Hd. rewrite <- Eid. by eapply Hn.
    + destruct (isNewerFrameId (vf_frameId h) (pd_frameId p)) eqn:Enew; [|done]. injection Ha as <-.
      intros a2. unfold a2, checkShape. cbn. rewrite lookup_delete_eq. split_and!; cbn.
      * split; cbn; [by apply map_Forall_delete|]. intros v q d [Hv Hq]%lookup_delete_Some.
        rewrite lookup_insert_ne by done. by eapply Hn.
      * intros q. by rewrite lookup_delete_eq.
      * intros d. rewrite lookup_insert_eq. by intros [= <-].
      * intros v Hv. by rewrite lookup_delete_ne, lookup_insert_ne.
  - destruct (lastDone_ a !! u) as [d|] eqn:Ed.
    + destruct (isNewerFrameId (vf_frameId h) d) eqn:Enew; cbn in Ha; [|done]. injection Ha as <-.
      apply Hsame; [done| |done]. by intros d' [= <-].
    + injection Ha as <-. by apply Hsame.
Qed.

(** What one [ingest] promises. *)
Definition ingest_post (a a' : VideoFrameAssembler) (u : bytes) (r : option AssembledVideoFrame) : Prop :=
  assembler_ok a' ∧
  (∀ v, v ≠ u → pending_ a' !! v = pending_ a !! v ∧ lastDone_ a' !! v = lastDone_ a !! v) ∧
  match r with
  | Some out => af_uuid out = u ∧ pending_ a' !! u = None ∧ lastDone_ a' !! u = Some (af_frameId out) ∧
      ∀ d, lastDone_ a !! u = Some d → ∃ d', (d' = d ∨ isNewerFrameId d' d = true) ∧
        isNewerFrameId (af_frameId out) d' = true
  | None => ∀ d, lastDone_ a !! u = Some d →
      ∃ d', lastDone_ a' !! u = Some d' ∧ (d' = d ∨ isNewerFrameId d' d = true)
  end.

(** The last done id after admission: the old one, or the newer one of the frame given up. *)
Lemma admit_lastDone a u h a1 d :
  assembler_ok a → admitFragment a u h = Some a1 → lastDone_ a !! u = Some d →
  ∃ d', lastDone_ (checkShape a1 u h) !! u = Some d' ∧ (d' = d ∨ isNewerFrameId d' d = true).
Proof.
  intros [_ Hn] Ha Hd. assert (lastDone_ (checkShape a1 u h) = lastDone_ a1) as ->
    by (unfold checkShape; by repeat case_match).
  unfold admitFragment in Ha. destruct (pending_ a !! u) as [p|] eqn:E.
  - repeat case_match; simplify_eq; [|by eauto].
    cbn. rewrite lookup_insert_eq. exists (pd_frameId p). eauto.
  - rewrite Hd in Ha. case_match; simplify_eq. eauto.
Qed.

Lemma ingest_ok a u packet now :
  assembler_ok a → ∃ a' r, ingest a u packet now = Some (a', r) ∧ ingest_post a a' u r.
Proof.
  intros Hok. unfold ingest.
  destruct (parseVideoFragmentHeader packet) as [h|] eqn:Hh.
  2: { eexists _, _. split; [done|]. split_and!; try done. eauto. }
  destruct (admitFragment a u h) as [a1|] eqn:Ha.
  2: { eexists _, _. split; [done|]. split_and!; try done. eauto. }
  destruct (admit_spec a u h a1 Hok Ha) as (Hok2 & Hp & Hd & Hv).
  pose proof (admit_lastDone a u h a1) as Hlast. set (a2 := checkShape a1 u h) in *.
  pose proof (openFrame_ok a2 u packet h Hok2 Hh) as Hshape.
  destruct (parse_inv _ _ Hh) as (_ & _ & _ & Hi & _).
  assert (pd_frameId (openFrame a2 u h) = vf_frameId h ∧ pd_fragCount (openFrame a2 u h) = vf_fragCount h)
    as [Eid Ec].
  { unfold openFrame. destruct (pending_ a2 !! u) as [p|]; [|done]. by destruct (Hp p eq_refl) as (? & ? & _). }
  destruct (storePart_ok (openFrame a2 u h) h (drop kVideoFragmentHeaderBytes packet) now Hshape)
    as (p' & -> & Hs' & Eid' & _ & Ec' & _); [by rewrite Ec|]. cbn [mbind option_bind].
  rewrite Eid in Eid'. destruct (Z.ltb_spec (pd_received p') (pd_fragCount p')).
  - eexists _, _. split; [done|]. split_and!.
    + split; cbn; [by apply map_Forall_insert_2; [|apply Hok2]|].
      intros v q d. destruct (decide (v = u)) as [->|].
      * rewrite lookup_insert_eq. intros [= <-]. rewrite Eid'. apply Hd.
      * rewrite lookup_insert_ne by done. apply Hok2.
    + intros v Hne. cbn. rewrite lookup_insert_ne by done. by apply Hv.
    + intros d Hl. cbn. by apply Hlast.
  - eexists _, _. split; [done|]. split_and!.
    + split; cbn; [by apply map_Forall_delete, Hok2|].
      intros v q d [Hne Hq]%lookup_delete_Some. rewrite lookup_insert_ne by done. by apply Hok2.
    + intros v Hne. cbn. rewrite lookup_delete_ne, lookup_insert_ne by done. by apply Hv.
    + done.
    + apply lookup_delete_eq.
    + apply lookup_insert_eq.
    + intros d Hl. destruct (Hlast d Hok Ha Hl) as (d' & Hd' & Hor). exists d'. split; [done|].
      cbn. rewrite Eid'. by apply Hd.
Qed.

Lemma prune_ok a now : assembler_ok a → assembler_ok (prune a now).1.
Proof.
  intros [Hp Hn]. split; cbn.
  - intros u p [Hu _]%lookup_difference_Some. by eapply Hp.
  - intros u p d [Hu Hg]%lookup_difference_Some. rewrite lookup_union_r by (by rewrite lookup_fmap, Hg).
    by apply Hn.
Qed.

Lemma forgetSender_ok a u : assembler_ok a → assembler_ok (forgetSender a u).
Proof.
  intros [Hp Hn]. unfold forgetSender. destruct (pending_ a !! u) as [q|] eqn:E; split; cbn; try done.
  - by apply map_Forall_delete.
  - intros v p d [Hne Hv]%lookup_delete_Some. rewrite lookup_delete_ne by done. by apply Hn.
  - intros v p d Hv [Hne Hl]%lookup_delete_Some. by eapply Hn.
Qed.

Inductive AsmOp :=
| AsmIngest (uuid packet : bytes) (now : Z)
| AsmPrune (now : Z)
| AsmForget (uuid : bytes).

(** A run of operations: the assembler and the completed frames in order. *)
Fixpoint runAsm (a : VideoFrameAssembler) (ops : list AsmOp)
    : option (VideoFrameAssembler * list AssembledVideoFrame) :=
  match ops with
  | [] => Some (a, [])
  | AsmIngest u packet now :: ops =>
      '(a, r) ← ingest a u packet now;
      '(a, out) ← runAsm a ops;
      Some (a, match r with Some f => f :: out | None => out end)
  | AsmPrune now :: ops => runAsm (prune a now).1 ops
  | AsmForget u :: ops => runAsm (forgetSender a u) ops
  end.

Lemma runAsm_ok ops a :
  assembler_ok a → ∃ a' out, runAsm a ops = Some (a', out) ∧ assembler_ok a'.
Proof.
  revert a. induction ops as [|[u packet now|now|u] ops IH]; intros a Hok; cbn [runAsm].
  - by exists a, [].
  - destruct (ingest_ok a u packet now Hok) as (a1 & r & -> & H1 & _). cbn [mbind option_bind].
    destruct (IH a1 H1) as (a2 & out & -> & H2). cbn [mbind option_bind]. by eexists _, _.
  - by apply IH, prune_ok.
  - by apply IH, forgetSender_ok.
Qed.

Lemma makeVideoFrameAssembler_ok timeout : assembler_ok (makeVideoFrameAssembler timeout).
Proof. split; [apply map_Forall_empty|done]. Qed.

(** ** Reassembly *)

Lemma fmap_seq_const {A} (f : nat → A) c m : (∀ i, f i = c) → f <$> seq 0 m = replicate m c.
Proof.
  intros Hf. generalize 0%nat. induction m as [|m IH]; intros i; cbn; [done|]. by rewrite Hf, IH.
Qed.

Section Reassembly.
Context (uuid frame : bytes) (id codec : Z) (maxBody : nat).
Context (Hid : in_u 16 id) (Hcodec : codec_ok codec) (Hcut : cut_ok frame maxBody).

Local Abbreviation n := (fragments frame maxBody).
Local Abbreviation packet := (fragmentPacket frame id codec maxBody n).

(** The parts stored once the fragments [l] have arrived. *)
Definition partsOf (l : list nat) : list bytes :=
  (λ i, if decide (i ∈ l) then slice frame maxBody i else []) <$> seq 0 (fragments frame maxBody).
Definition haveOf (l : list nat) : list bool := (λ i, bool_decide (i ∈ l)) <$> seq 0 (fragments frame maxBody).

(** The assembler has the fragments [l] of the frame, not all. *)
Definition progress (a : VideoFrameAssembler) (l : list nat) : Prop :=
  assembler_ok a ∧
  match pending_ a !! uuid with
  | Some p => pd_frameId p = id ∧ pd_codec p = codec ∧ pd_fragCount p = Z.of_nat n ∧
      pd_have p = haveOf l ∧ pd_parts p = partsOf l
  | None => l = [] ∧ ∀ d, lastDone_ a !! uuid = Some d → isNewerFrameId id d = true
  end.

Lemma insert_fmap_seq {A} (f g : nat → A) m i :
  (i < m)%nat → (∀ j, j ≠ i → f j = g j) → <[i := g i]> (f <$> seq 0 m) = g <$> seq 0 m.
Proof.
  intros Hi Hfg. apply list_eq. intros j. destruct (decide (j = i)) as [->|Hne].
  - rewrite list_lookup_insert_eq by (by rewrite length_fmap, length_seq).
    by rewrite list_lookup_fmap, lookup_seq_lt.
  - rewrite list_lookup_insert_ne by done. rewrite !list_lookup_fmap.
    destruct (decide (j < m)%nat); [by rewrite lookup_seq_lt by done; cbn; rewrite Hfg|].
    by rewrite lookup_seq_ge by lia.
Qed.

Lemma haveOf_insert l i : (i < n)%nat → <[i := true]> (haveOf l) = haveOf (i :: l).
Proof.
  intros Hi. set (g := λ j, bool_decide (j ∈ i :: l)).
  assert (true = g i) as -> by (unfold g; by rewrite bool_decide_eq_true_2 by left).
  apply (insert_fmap_seq _ g); [done|]. intros j Hj. apply bool_decide_ext. set_solver.
Qed.

Lemma partsOf_insert l i : (i < n)%nat → <[i := slice frame maxBody i]> (partsOf l) = partsOf (i :: l).
Proof.
  intros Hi. set (g := λ j, if decide (j ∈ i :: l) then slice frame maxBody j else []).
  assert (slice frame maxBody i = g i) as -> by (unfold g; by rewrite decide_True by left).
  apply (insert_fmap_seq _ g); [done|]. intros j Hj. unfold g.
  destruct (decide (j ∈ l)), (decide (j ∈ i :: l)); set_solver.
Qed.

Lemma partsOf_again l i : i ∈ l → partsOf (i :: l) = partsOf l.
Proof.
  intros Hi. apply list_fmap_ext. intros k j _.
  destruct (decide (j ∈ l)), (decide (j ∈ i :: l)); set_solver.
Qed.

Lemma haveOf_lookup l i : (i < n)%nat → haveOf l !! i = Some (bool_decide (i ∈ l)).
Proof. intros Hi. unfold haveOf. by rewrite list_lookup_fmap, lookup_seq_lt. Qed.

Lemma haveOf_all l : countTrue (haveOf l) = n ↔ ∀ i, (i < n)%nat → i ∈ l.
Proof.
  assert (length (haveOf l) = n) as Hl by (unfold haveOf; by rewrite length_fmap, length_seq).
  rewrite <- Hl at 1. rewrite countTrue_all, Hl. split; intros H i Hi.
  - specialize (H i Hi). rewrite haveOf_lookup in H by done. injection H as H. by apply bool_decide_eq_true in H.
  - rewrite haveOf_lookup, bool_decide_eq_true_2; auto.
Qed.

Lemma partsOf_all l : (∀ i, (i < n)%nat → i ∈ l) → concat (partsOf l) = frame.
Proof.
  intros H. transitivity (concat (slice frame maxBody <$> seq 0 n)); [|apply slices_whole, Hcut]. f_equal.
  apply list_fmap_ext. intros k j Hj. apply lookup_seq in Hj as [-> Hk].
  by rewrite decide_True by (apply H; lia).
Qed.

Lemma openFrame_progress a l :
  progress a l →
  ∀ i, let h := mkVideoFragmentHeader kVideoFragmentVersion codec id (Z.of_nat i) (Z.of_nat n) in
  admitFragment a uuid h = Some a ∧ checkShape a uuid h = a ∧
  let p := openFrame a uuid h in
  shape_ok p ∧ pd_frameId p = id ∧ pd_codec p = codec ∧ pd_fragCount p = Z.of_nat n ∧
  pd_have p = haveOf l ∧ pd_parts p = partsOf l.
Proof.
  intros [[Hp Hn] Hpr] i h. pose proof (fragments_pos _ _ Hcut) as Hpos.
  unfold admitFragment, checkShape, openFrame. destruct (pending_ a !! uuid) as [p|] eqn:E.
  - destruct Hpr as (E1 & E2 & E3 & E4 & E5). cbn [vf_frameId vf_fragCount vf_codec h].
    rewrite E1, E2, E3, !Z.eqb_refl. cbn [negb orb]. split_and!; try done. by destruct (Hp _ _ E).
  - destruct Hpr as [-> Hnew]. cbn [vf_frameId vf_fragCount vf_codec h]. split_and!; try done.
    + destruct (lastDone_ a !! uuid) as [d|] eqn:Ed; [|done]. by rewrite (Hnew d eq_refl).
    + apply new_shape_ok; [done|lia].
    + cbn. rewrite Nat2Z.id. symmetry. apply fmap_seq_const. intros k. by rewrite bool_decide_eq_false_2 by set_solver.
    + cbn. rewrite Nat2Z.id. symmetry. apply fmap_seq_const. intros k. by rewrite decide_False by set_solver.
Qed.

(** One more fragment: the frame in progress, completed or not. *)
Lemma ingest_progress a l i now :
  progress a l → (i < n)%nat →
  ∃ p', pd_frameId p' = id ∧ pd_codec p' = codec ∧ pd_fragCount p' = Z.of_nat n ∧
    pd_have p' = haveOf (i :: l) ∧ pd_parts p' = partsOf (i :: l) ∧
    pd_received p' = Z.of_nat (countTrue (haveOf (i :: l))) ∧
    ingest a uuid (packet i) now =
      if pd_received p' <? Z.of_nat n then Some (setPending a uuid p', None)
      else Some (erasePending (setLastDone a uuid id) uuid,
                 Some (mkAssembledVideoFrame uuid id codec (concat (partsOf (i :: l))) now)).
Proof using Hid Hcodec Hcut.
  intros Hpr Hi. destruct (openFrame_progress a l Hpr i) as (Ha & Hc & Hs & E1 & E2 & E3 & E4 & E5).
  unfold ingest. rewrite parse_fragmentPacket, Ha, Hc by done.
  destruct (storePart_ok _ (mkVideoFragmentHeader kVideoFragmentVersion codec id (Z.of_nat i) (Z.of_nat n))
    (drop kVideoFragmentHeaderBytes (packet i)) now Hs) as (p' & -> & Hs' & F1 & F2 & F3 & F4 & F5).
  { rewrite E3. cbn. lia. }
  cbn [mbind option_bind]. cbn [vf_fragIndex] in F4, F5. rewrite Nat2Z.id in F4, F5.
  rewrite E4, haveOf_insert in F4 by done.
  assert (pd_parts p' = partsOf (i :: l)) as F6.
  { rewrite F5, E4, E5, haveOf_lookup by done. cbn [default Datatypes.id].
    rewrite drop_fragmentPacket. case_bool_decide; cbn; [by rewrite partsOf_again|by rewrite partsOf_insert]. }
  exists p'. destruct Hs' as (_ & _ & _ & _ & Hr). rewrite F4 in Hr.
  rewrite F1, F2, F3, E1, E2, E3, F6. split_and!; done.
Qed.

Lemma progress_step a l i now :
  progress a l → (i < n)%nat → ¬ (∀ j, (j < n)%nat → j ∈ i :: l) →
  ∃ a', ingest a uuid (packet i) now = Some (a', None) ∧ progress a' (i :: l).
Proof using Hid Hcodec Hcut.
  intros Hpr Hi Hmiss. destruct (ingest_progress a l i now Hpr Hi) as (p' & E1 & E2 & E3 & E4 & E5 & Hr & E).
  rewrite <- haveOf_all in Hmiss. pose proof (countTrue_le (haveOf (i :: l))) as Hle.
  unfold haveOf in Hle at 2. rewrite length_fmap, length_seq in Hle.
  rewrite (proj2 (Z.ltb_lt _ _)) in E by lia. exists (setPending a uuid p'). split; [done|].
  destruct (ingest_ok a uuid (packet i) now (proj1 Hpr)) as (a' & r & E' & Hok' & _).
  rewrite E in E'. injection E' as <- <-. split; [done|]. cbn. by rewrite lookup_insert_eq.
Qed.

Lemma progress_last a l i now :
  progress a l → (i < n)%nat → (∀ j, (j < n)%nat → j ∈ i :: l) →
  ingest a uuid (packet i) now =
    Some (erasePending (setLastDone a uuid id) uuid, Some (mkAssembledVideoFrame uuid id codec frame now)).
Proof using Hid Hcodec Hcut.
  intros Hpr Hi Hall. destruct (ingest_progress a l i now Hpr Hi) as (p' & E1 & E2 & E3 & E4 & E5 & Hr & E).
  rewrite Hr, (proj2 (haveOf_all (i :: l)) Hall), Z.ltb_irrefl, partsOf_all in E by done. done.
Qed.

(** Fragments [js] arriving (with their clocks), duplicates included. *)
Definition arrivals (js : list (nat * Z)) : list AsmOp := (λ k, AsmIngest uuid (packet k.1) k.2) <$> js.

Lemma arrivals_progress js a l :
  progress a l → Forall (λ k, (k.1 < n)%nat) js → (∃ j, (j < n)%nat ∧ j ∉ js.*1 ++ l) →
  ∃ a', runAsm a (arrivals js) = Some (a', []) ∧ progress a' (reverse js.*1 ++ l).
Proof using Hid Hcodec Hcut.
  revert a l. induction js as [|[i t] js IH]; intros a l Hpr His (j & Hj & Hm); [by exists a|].
  apply Forall_cons_1 in His as [Hi His]. cbn [fst] in Hi.
  destruct (progress_step a l i t Hpr Hi) as (a1 & E1 & H1).
  { intros Hall. specialize (Hall j Hj). cbn in Hm. set_solver. }
  cbn [arrivals fmap list_fmap runAsm fst snd]. rewrite E1. cbn [mbind option_bind].
  destruct (IH a1 (i :: l) H1 His) as (a2 & E2 & H2).
  { exists j. split; [done|]. cbn in Hm. set_solver. }
  unfold arrivals in E2. rewrite E2. cbn [mbind option_bind]. exists a2. split; [done|].
  rewrite reverse_cons, <- app_assoc. done.
Qed.
End Reassembly.

(** ** What the module promises *)

(** C17. The fragments of a frame, arriving in any order and with any duplicates, rebuild it:
    nothing is delivered while one is missing, the last missing one delivers exactly the frame's
    bytes under its id and codec, and every later copy of a fragment is dropped. *)
Theorem fragments_reassemble a uuid frame id codec maxBody js i now later packet :
  assembler_ok a → pending_ a !! uuid = None →
  (∀ d, lastDone_ a !! uuid = Some d → isNewerFrameId id d = true) →
  in_u 16 id → codec_ok codec → cut_ok frame maxBody →
  let frags := fragmentFrame frame id codec maxBody in
  Forall (λ k, (k.1 < length frags)%nat) js → (i < length frags)%nat →
  i ∉ js.*1 → (∀ j, (j < length frags)%nat → j = i ∨ j ∈ js.*1) →
  frags !! i = Some packet →
  ∃ a1 a2,
    runAsm a ((λ k, AsmIngest uuid (nth k.1 frags []) k.2) <$> js) = Some (a1, []) ∧
    ingest a1 uuid packet now = Some (a2, Some (mkAssembledVideoFrame uuid id codec frame now)) ∧
    pending_ a2 !! uuid = None ∧
    ∀ dup, dup ∈ frags → ingest a2 uuid dup later = Some (addDropped a2, None).
Proof.
  intros Hok Hnone Hnew Hid Hc Hcut frags His Hi Hni Hall Hpk.
  assert (frags = fragmentPacket frame id codec maxBody (fragments frame maxBody) <$> seq 0 (fragments frame maxBody))
    as Ef by (by apply fragmentFrame_cut).
  assert (length frags = fragments frame maxBody) as Hlen by (by rewrite Ef, length_fmap, length_seq).
  rewrite Hlen in *.
  destruct (arrivals_progress uuid frame id codec maxBody Hid Hc Hcut js a []) as (a1 & E1 & H1).
  { split; [done|]. by rewrite Hnone. } { done. } { exists i. by rewrite app_nil_r. }
  exists a1. eexists. split_and!.
  - rewrite <- E1. f_equal. apply list_fmap_ext. intros k [j t] Hk. cbn [fst snd]. f_equal.
    rewrite Forall_lookup in His. specialize (His _ _ Hk). cbn in His.
    apply nth_lookup_Some. rewrite Ef, list_lookup_fmap, lookup_seq_lt by done. done.
  - rewrite Ef, list_lookup_fmap, lookup_seq_lt in Hpk by done. injection Hpk as <-.
    eapply progress_last; try done. intros j Hj. rewrite app_nil_r.
    destruct (Hall j Hj) as [->|]; [left|right; by apply elem_of_reverse].
  - cbn. apply lookup_delete_eq.
  - intros dup Hdup. rewrite Ef in Hdup. apply list_elem_of_fmap in Hdup as (j & -> & Hj%elem_of_seq).
    unfold ingest. rewrite parse_fragmentPacket by (done || lia).
    unfold admitFragment. cbn. rewrite lookup_delete_eq, lookup_insert_eq.
    unfold isNewerFrameId. by rewrite Z.sub_diag.
Qed.

(** [fragmentFrame] refuses exactly the empty frames, the bodies out of range and the frames
    of more than sixteen fragments; otherwise every fragment fits a payload, parses to its own
    header, and the bodies in index order are the frame. *)
Theorem fragmentFrame_spec frame id codec maxBody :
  in_u 16 id → codec_ok codec →
  let frags := fragmentFrame frame id codec maxBody in
  (frags = [] ↔ ¬ cut_ok frame maxBody) ∧
  (frags ≠ [] → concat (drop kVideoFragmentHeaderBytes <$> frags) = frame) ∧
  ∀ i packet, frags !! i = Some packet →
    (length packet ≤ kVideoFragmentHeaderBytes + kMaxVideoFragmentBodyBytes)%nat ∧
    parseVideoFragmentHeader packet =
      Some (mkVideoFragmentHeader kVideoFragmentVersion codec id (Z.of_nat i) (Z.of_nat (length frags))).
Proof.
  intros Hid Hc frags. split; [apply fragmentFrame_refused|].
  assert (frags ≠ [] → cut_ok frame maxBody) as Hne.
  { intros H. destruct (decide (cut_ok frame maxBody)) as [|Hn]; [done|].
    exfalso. by apply H, fragmentFrame_refused. }
  split.
  - intros H%Hne. unfold frags. rewrite fragmentFrame_cut by done.
    rewrite <- list_fmap_compose. etransitivity; [|apply (slices_whole frame maxBody), H]. done.
  - intros i packet Hp. assert (cut_ok frame maxBody) as H by (apply Hne; by intros ->).
    unfold frags in *. rewrite fragmentFrame_cut in * by done.
    rewrite length_fmap, length_seq. apply list_lookup_fmap_Some in Hp as (j & -> & [-> Hj]%lookup_seq).
    split; [|by apply parse_fragmentPacket].
    unfold fragmentPacket. rewrite length_app, length_take, length_drop. cbn [length].
    destruct H as (_ & Hm & _). unfold kVideoFragmentHeaderBytes. lia.
Qed.

(** No run of fragments, prunes and forgets indexes a frame out of range, whatever the
    octets received, and every frame kept in progress has at most sixteen parts, lacks one, and
    counts exactly the parts it has. *)
Theorem assembler_runs_ok timeout ops :
  ∃ a out, runAsm (makeVideoFrameAssembler timeout) ops = Some (a, out) ∧
    ∀ u p, pending_ a !! u = Some p →
      pd_received p = Z.of_nat (countTrue (pd_have p)) ∧ pd_received p < pd_fragCount p ≤ 16 ∧
      length (pd_parts p) = Z.to_nat (pd_fragCount p) ∧ length (pd_have p) = Z.to_nat (pd_fragCount p).
Proof.
  destruct (runAsm_ok ops _ (makeVideoFrameAssembler_ok timeout)) as (a & out & E & Hp & _).
  exists a, out. split; [done|]. intros u p Hu. destruct (Hp u p Hu) as [(_ & ? & ? & ? & ?) ?].
  split_and!; try done; lia.
Qed.

(** Each fragment changes only its sender's state, and a sender's last finished frame id
    only moves to newer ids (modulo 2^16): a delivered frame is newer than every frame finished
    before it and becomes the last one, so it is not delivered again. *)
Theorem ingest_orders_frames a u packet now :
  assembler_ok a →
  ∃ a' r, ingest a u packet now = Some (a', r) ∧
    (∀ v, v ≠ u → pending_ a' !! v = pending_ a !! v ∧ lastDone_ a' !! v = lastDone_ a !! v) ∧
    match r with
    | Some out => af_uuid out = u ∧ pending_ a' !! u = None ∧ lastDone_ a' !! u = Some (af_frameId out) ∧
        ∀ d, lastDone_ a !! u = Some d → ∃ d', (d' = d ∨ isNewerFrameId d' d = true) ∧
          isNewerFrameId (af_frameId out) d' = true
    | None => ∀ d, lastDone_ a !! u = Some d →
        ∃ d', lastDone_ a' !! u = Some d' ∧ (d' = d ∨ isNewerFrameId d' d = true)
    end.
Proof.
  intros Hok. destruct (ingest_ok a u packet now Hok) as (a' & r & E & _ & Hv & Hr).
  by exists a', r.
Qed.

(** A prune gives up exactly the frames without progress for longer than the timeout,
    counts them, and from then on drops their late fragments. *)
Theorem prune_spec a now u :
  let '(a', k) := prune a now in
  (∀ p, pending_ a' !! u = Some p ↔ pending_ a !! u = Some p ∧ now - pd_lastAtMs p ≤ timeoutMs_ a) ∧
  abandoned a' = u64 (abandoned a + Z.of_nat k) ∧ (pendingCount a' + k = pendingCount a)%nat ∧
  ∀ p packet h later, pending_ a !! u = Some p → pending_ a' !! u = None →
    parseVideoFragmentHeader packet = Some h → vf_frameId h = pd_frameId p →
    ingest a' u packet later = Some (addDropped a', None).
Proof.
  cbn. unfold expired.
  assert (∀ p, filter (λ kv : bytes * Pending, timeoutMs_ a < now - pd_lastAtMs kv.2) (pending_ a) !! u = Some p ↔
    pending_ a !! u = Some p ∧ timeoutMs_ a < now - pd_lastAtMs p) as Hf
    by (intros p; by rewrite map_lookup_filter_Some).
  split_and!; [| done| |].
  - intros p. rewrite lookup_difference_Some. split.
    + intros [Hp Hn]. split; [done|]. apply Z.nlt_ge. intros Hlt.
      by rewrite (proj2 (Hf p) (conj Hp Hlt)) in Hn.
    + intros [Hp Hle]. split; [done|]. apply eq_None_not_Some. intros [q [Hq Hlt]%Hf].
      rewrite Hp in Hq. injection Hq as <-. lia.
  - unfold pendingCount. cbn. rewrite Nat.add_comm, <- map_size_disj_union by by apply map_disjoint_difference_r1.
    by rewrite map_difference_union by apply map_filter_subseteq.
  - intros p packet h later Hp Hnone Hh Hid.
    destruct (decide (timeoutMs_ a < now - pd_lastAtMs p)) as [Hlt|Hge].
    + unfold ingest. rewrite Hh. unfold admitFragment. cbn. rewrite Hnone.
      rewrite (lookup_union_Some_l _ _ u (pd_frameId p)) by (rewrite lookup_fmap, (proj2 (Hf p)); done).
      unfold isNewerFrameId. by rewrite Hid, Z.sub_diag.
    + apply lookup_difference_None in Hnone as [Hnone|[q [Hq Hlt]%Hf]]; [congruence|].
      rewrite Hp in Hq. injection Hq as <-. lia.
Qed.

(** ** A concrete sender *)

Definition demoFrame : bytes := [1; 2; 3; 4; 5; 6; 7].
Definition demoSender : bytes := replicate 32 65.
(** Frame 65535 has been delivered; frame 0 follows across the wrap. *)
Definition demoAssembler : VideoFrameAssembler :=
  match runAsm (makeVideoFrameAssembler kVideoFrameTimeoutMs)
    ((λ p, AsmIngest demoSender p 5) <$> fragmentFrame [9; 9; 9; 9] 65535 VideoCodec_WebP 3) with
  | Some (a, _) => a
  | None => makeVideoFrameAssembler 0
  end.

Lemma demoAssembler_ok : assembler_ok demoAssembler.
Proof.
  destruct (runAsm_ok ((λ p, AsmIngest demoSender p 5) <$> fragmentFrame [9; 9; 9; 9] 65535 VideoCodec_WebP 3)
    _ (makeVideoFrameAssembler_ok kVideoFrameTimeoutMs)) as (a & out & E & H).
  unfold demoAssembler. rewrite E. exact H.
Qed.

Lemma demo_cut : cut_ok demoFrame 3.
Proof. unfold cut_ok, kMaxVideoFragmentBodyBytes, kMaxVideoFragments, fragments. cbn. lia. Qed.

Definition demoArrivals : list (nat * Z) := [(2%nat, 6); (0%nat, 7); (2%nat, 8)].

Lemma demoArrivals_others :
  1%nat ∉ demoArrivals.*1 ∧ ∀ j, (j < 3)%nat → j = 1%nat ∨ j ∈ demoArrivals.*1.
Proof.
  split; [by apply (bool_decide_unpack _)|].
  intros j Hj. destruct j as [|[|[|j]]]; [right|by left|right|lia]; by apply (bool_decide_unpack _).
Qed.

Lemma fragments_reassemble_witness :
  ∃ a1 a2 packet, runAsm demoAssembler ((λ k, AsmIngest demoSender
      (nth k.1 (fragmentFrame demoFrame 0 VideoCodec_Jpeg 3) []) k.2) <$> demoArrivals) = Some (a1, []) ∧
    ingest a1 demoSender packet 9 = Some (a2, Some (mkAssembledVideoFrame demoSender 0 VideoCodec_Jpeg demoFrame 9)).
Proof.
  assert (pending_ demoAssembler !! demoSender = None) as Hnone by (vm_compute; reflexivity).
  assert (lastDone_ demoAssembler !! demoSender = Some 65535) as Hlast by (vm_compute; reflexivity).
  assert (length (fragmentFrame demoFrame 0 VideoCodec_Jpeg 3) = 3%nat) as Hlen by (vm_compute; reflexivity).
  assert (fragmentFrame demoFrame 0 VideoCodec_Jpeg 3 !! 1%nat =
    Some (fragmentPacket demoFrame 0 VideoCodec_Jpeg 3 3 1)) as Hpk by (vm_compute; reflexivity).
  destruct (fragments_reassemble demoAssembler demoSender demoFrame 0 VideoCodec_Jpeg 3
    demoArrivals 1 9 10 (fragmentPacket demoFrame 0 VideoCodec_Jpeg 3 3 1) demoAssembler_ok Hnone)
    as (a1 & a2 & E1 & E2 & _); rewrite ?Hlen.
  - rewrite Hlast. intros d [= <-]. reflexivity.
  - split; [discriminate|reflexivity].
  - by left.
  - apply demo_cut.
  - repeat (apply Forall_cons_2; [cbn; lia|]); apply Forall_nil_2.
  - lia.
  - apply demoArrivals_others.
  - apply demoArrivals_others.
  - exact Hpk.
  - exists a1, a2, (fragmentPacket demoFrame 0 VideoCodec_Jpeg 3 3 1).
    split; [exact E1|exact E2].
Defined.
