(* ===== verification/Core.v ===== *)
(** * Core helpers: base64, actor uuids, ISO-8601 timestamps

    [src/core/base64.cpp], [src/core/uuid.cpp] and [parseIso8601Millis] of
    [src/core/clock.cpp]. A string is the list of its octets. Indexing an alphabet or the text
    out of range is [UB]; the theorems show it never happens. *)

From S2P Require Import Prelude Bytes Codec.

Open Scope Z_scope.

(** The octets of a literal. *)
Definition chars (s : string) : bytes := (λ c, Z.of_N (Ascii.N_of_ascii c)) <$> String.list_ascii_of_string s.

(** ** base64.cpp *)

Definition kStd : bytes := chars "ABCDEFGHIJKLMNOPQRSTUVWXYZabcdefghijklmnopqrstuvwxyz0123456789+/".
Definition kUrl : bytes := chars "ABCDEFGHIJKLMNOPQRSTUVWXYZabcdefghijklmnopqrstuvwxyz0123456789-_".
Definition kPad : Z := 61.

(** [alphabet[(n >> shift) & 63]]. *)
Definition sextet (alphabet : bytes) (n shift : Z) : option Z :=
  alphabet !! Z.to_nat (Z.land (Z.shiftr n shift) 63).

Fixpoint encodeWith (alphabet : bytes) (pad : bool) (data : bytes) : option bytes :=
  match data with
  | a :: b :: c :: rest =>
      let n := Z.lor (Z.lor (u32 (Z.shiftl a 16)) (u32 (Z.shiftl b 8))) c in
      w ← sextet alphabet n 18; x ← sextet alphabet n 12;
      y ← sextet alphabet n 6; z ← sextet alphabet n 0;
      out ← encodeWith alphabet pad rest;
      Some (w :: x :: y :: z :: out)
  | [a] =>
      let n := u32 (Z.shiftl a 16) in
      w ← sextet alphabet n 18; x ← sextet alphabet n 12;
      Some ([w; x] ++ if pad then [kPad; kPad] else [])
  | [a; b] =>
      let n := Z.lor (u32 (Z.shiftl a 16)) (u32 (Z.shiftl b 8)) in
      w ← sextet alphabet n 18; x ← sextet alphabet n 12; y ← sextet alphabet n 6;
      Some ([w; x; y] ++ if pad then [kPad] else [])
  | [] => Some []
  end.

Definition base64Encode (data : bytes) : option bytes := encodeWith kStd true data.
Definition base64UrlEncode (data : bytes) : option bytes := encodeWith kUrl false data.

Definition decodeChar (c : Z) : Z :=
  if (65 <=? c) && (c <=? 90) then c - 65
  else if (97 <=? c) && (c <=? 122) then c - 97 + 26
  else if (48 <=? c) && (c <=? 57) then c - 48 + 52
  else if (c =? 43) || (c =? 45) then 62
  else if (c =? 47) || (c =? 95) then 63
  else -1.

(** ['='], line feed and carriage return are skipped. *)
Definition ignored (c : Z) : bool := (c =? 61) || (c =? 10) || (c =? 13).

(** The loop of [base64Decode]: accumulator, pending bits, output. *)
Fixpoint decodeLoop (text : bytes) (acc bits : Z) (out : bytes) : option bytes :=
  match text with
  | [] => Some out
  | c :: text =>
      if ignored c then decodeLoop text acc bits out else
      let v := decodeChar c in
      if v <? 0 then None else
      let acc := Z.lor (u32 (Z.shiftl acc 6)) v in
      let bits := bits + 6 in
      if 8 <=? bits then
        let bits := bits - 8 in
        decodeLoop text acc bits (out ++ [u8 (Z.land (Z.shiftr acc bits) 255)])
      else decodeLoop text acc bits out
  end.

Definition base64Decode (text : bytes) : option bytes := decodeLoop text 0 0 [].

(** ** uuid.cpp *)

Definition kHex : bytes := chars "0123456789abcdef".

(** The two hex digits of each octet. *)
Fixpoint hexDigits (raw : bytes) : option bytes :=
  match raw with
  | [] => Some []
  | r :: raw =>
      hi ← kHex !! Z.to_nat (Z.shiftr r 4); lo ← kHex !! Z.to_nat (Z.land r 15);
      out ← hexDigits raw; Some (hi :: lo :: out)
  end.

Definition tryGenerateActorUuid (c : ICrypto) : option (Result bytes) :=
  if negb (ok (availability c)) then Some (Err (availability c)) else
  match randomBytes c 16 with
  | None => Some (Err CryptoUnavailable)
  | Some raw => out ← hexDigits raw; Some (Val out)
  end.

Definition generateActorUuid (c : ICrypto) : option bytes :=
  r ← tryGenerateActorUuid c;
  Some (match r with Val u => u | Err _ => replicate 32 0 end).

(** [out] is left alone when the length is wrong. *)
Definition actorUuidFromString (s out : bytes) : bool * bytes :=
  if decide (length s ≠ 32%nat) then (false, out) else (true, s).

(** ** clock.cpp *)

(** The digits at [pos], -1 at the first other character. *)
Fixpoint digitsFrom (text : list Z) (pos count : nat) (v : Z) : option Z :=
  match count with
  | O => Some v
  | S count =>
      c ← text !! pos;
      if (c <? 48) || (57 <? c) then Some (-1) else digitsFrom text (S pos) count (v * 10 + (c - 48))
  end.
Definition digits (text : list Z) (pos count : nat) : option Z := digitsFrom text pos count 0.

(** Days since 1970-01-01; the C++ division of [era] truncates, after an offset that makes it
    the floor. *)
Definition civilDays (year month day : Z) : Z :=
  let y := year - (if month <=? 2 then 1 else 0) in
  let era := Z.quot (if 0 <=? y then y else y - 399) 400 in
  let yoe := u32 (y - era * 400) in
  let mp := u32 (month + (if 2 <? month then -3 else 9)) in
  let doy := u32 ((153 * mp + 2) / 5 + u32 day - 1) in
  let doe := u32 (yoe * 365 + yoe / 4 - yoe / 100 + doy) in
  era * 146097 + doe - 719468.

(** The fraction loop from position 20: at most three digits. *)
Fixpoint fraction (text : bytes) (scale : Z) (fuel : nat) : Z :=
  match fuel, text with
  | S fuel, c :: text =>
      if scale <=? 0 then 0 else
      if (c <? 48) || (57 <? c) then 0 else (c - 48) * scale + fraction text (scale / 10) fuel
  | _, _ => 0
  end.

Definition parseIso8601Millis (text : list Z) : option Z :=
  if decide (length text < 19)%nat then Some 0 else
  year ← digits text 0 4; month ← digits text 5 2; day ← digits text 8 2;
  hour ← digits text 11 2; minute ← digits text 14 2; second ← digits text 17 2;
  if (year <? 0) || (month <=? 0) || (day <=? 0) || (hour <? 0) || (minute <? 0) || (second <? 0)
  then Some 0 else
  let ms := ((civilDays year month day * 24 + hour) * 60 + minute) * 60000 + second * 1000 in
  if bool_decide (20 < length text)%nat then
    c ← text !! 19%nat;
    if c =? 46 then Some (ms + fraction (drop 20 text) 100 (length text - 20)) else Some ms
  else Some ms.

(** ** Base64 round trip *)

(** An alphabet whose 64 characters decode to their index and are not skipped. *)
Definition alphabet_ok (alphabet : bytes) : bool :=
  forallb (λ i : nat, match alphabet !! i with
                | Some c => (decodeChar c =? Z.of_nat i) && negb (ignored c)
                | None => false
                end) (seq 0 64).

Lemma alphabet_lookup alphabet v :
  alphabet_ok alphabet = true → 0 ≤ v < 64 →
  ∃ c, alphabet !! Z.to_nat v = Some c ∧ decodeChar c = v ∧ ignored c = false.
Proof.
  intros Ha Hv. unfold alphabet_ok in Ha. rewrite foldr_andb_true in Ha.
  specialize (Ha (Z.to_nat v) ltac:(apply elem_of_seq; lia)).
  destruct (alphabet !! Z.to_nat v) as [c|]; [|done].
  apply andb_true_iff in Ha as [?%Z.eqb_eq ?%negb_true_iff]. exists c. split_and!; try done. lia.
Qed.

Lemma land63 n k : 0 ≤ k → Z.land (Z.shiftr n k) 63 = (n / 2 ^ k) `mod` 64.
Proof. intros. change 63 with (Z.ones 6). by rewrite Z.land_ones, Z.shiftr_div_pow2 by lia. Qed.

Lemma sextet_ok alphabet n k :
  alphabet_ok alphabet = true → 0 ≤ k →
  ∃ c, sextet alphabet n k = Some c ∧ decodeChar c = (n / 2 ^ k) `mod` 64 ∧ ignored c = false.
Proof.
  intros Ha Hk. unfold sextet. rewrite land63 by done. apply alphabet_lookup; [done|].
  apply Z.mod_pos_bound. lia.
Qed.

(** One alphabet character in the loop. *)
Lemma decodeLoop_char c v text acc bits out :
  decodeChar c = v → ignored c = false → 0 ≤ v < 64 → 0 ≤ bits →
  decodeLoop (c :: text) acc bits out =
    let acc' := (64 * acc) `mod` 2 ^ 32 + v in
    if 8 <=? bits + 6 then
      decodeLoop text acc' (bits - 2) (out ++ [(acc' / 2 ^ (bits - 2)) `mod` 256])
    else decodeLoop text acc' (bits + 6) out.
Proof.
  intros Hc Hi Hv Hb. cbn [decodeLoop]. rewrite Hi, Hc, (proj2 (Z.ltb_ge v 0)) by lia.
  assert (Z.lor (u32 (Z.shiftl acc 6)) v = (64 * acc) `mod` 2 ^ 32 + v) as ->.
  { rewrite Z.shiftl_mul_pow2, Z.mul_comm by lia. change (2 ^ 6) with 64. unfold wrapU.
    replace ((64 * acc) `mod` 2 ^ 32) with (Z.shiftl (acc `mod` 2 ^ 26) 6).
    - rewrite le.lor_shiftl_add by lia. rewrite Z.shiftl_mul_pow2; lia.
    - rewrite Z.shiftl_mul_pow2 by lia. change (2 ^ 32) with (64 * 2 ^ 26).
      rewrite Z.mul_mod_distr_l by lia. lia. }
  cbn zeta. destruct (Z.leb_spec 8 (bits + 6)); [|done].
  replace (bits + 6 - 8) with (bits - 2) by lia.
  change 255 with (Z.ones 8). rewrite Z.land_ones, Z.shiftr_div_pow2 by lia.
  rewrite wrapU_id by (apply Z.mod_pos_bound; lia). done.
Qed.

Lemma lor3 a b c :
  is_byte a → is_byte b → is_byte c →
  Z.lor (Z.lor (u32 (Z.shiftl a 16)) (u32 (Z.shiftl b 8))) c = 65536 * a + 256 * b + c.
Proof.
  unfold is_byte, in_u. change (2 ^ 8) with 256. intros Ha Hb Hc.
  rewrite (wrapU_id 32 (Z.shiftl a 16)) by (unfold in_u; rewrite Z.shiftl_mul_pow2 by lia; lia).
  rewrite (wrapU_id 32 (Z.shiftl b 8)) by (unfold in_u; rewrite Z.shiftl_mul_pow2 by lia; lia).
  rewrite <- Z.lor_assoc, (le.lor_shiftl_add 8 b c), (le.lor_shiftl_add 16) by lia. lia.
Qed.

Lemma decode_group text acc out a b c w x y z n :
  is_byte a → is_byte b → is_byte c → n = 65536 * a + 256 * b + c →
  decodeChar w = (n / 2 ^ 18) `mod` 64 → ignored w = false →
  decodeChar x = (n / 2 ^ 12) `mod` 64 → ignored x = false →
  decodeChar y = (n / 2 ^ 6) `mod` 64 → ignored y = false →
  decodeChar z = (n / 2 ^ 0) `mod` 64 → ignored z = false →
  ∃ acc', decodeLoop (w :: x :: y :: z :: text) acc 0 out = decodeLoop text acc' 0 (out ++ [a; b; c]).
Proof.
  unfold is_byte, in_u. change (2 ^ 8) with 256. intros Ha Hb Hc Hn Hw Iw Hx Ix Hy Iy Hz Iz.
  assert (∀ m, 0 <= m `mod` 64 < 64) as H64 by (intros; apply Z.mod_pos_bound; lia).
  rewrite (decodeLoop_char w _ _ _ _ _ Hw Iw (H64 _)) by lia. cbn zeta.
  change (8 <=? 0 + 6) with false. change (0 + 6) with 6. cbv iota.
  rewrite (decodeLoop_char x _ _ _ _ _ Hx Ix (H64 _)) by lia. cbn zeta.
  change (8 <=? 6 + 6) with true. change (6 - 2) with 4. cbv iota.
  rewrite (decodeLoop_char y _ _ _ _ _ Hy Iy (H64 _)) by lia. cbn zeta.
  change (8 <=? 4 + 6) with true. change (4 - 2) with 2. cbv iota.
  rewrite (decodeLoop_char z _ _ _ _ _ Hz Iz (H64 _)) by lia. cbn zeta.
  change (8 <=? 2 + 6) with true. change (2 - 2) with 0. cbv iota.
  eexists. f_equal. rewrite <- !app_assoc. cbn [app]. f_equal.
  change (2 ^ 32) with 4294967296. change (2 ^ 18) with 262144. change (2 ^ 12) with 4096.
  change (2 ^ 6) with 64. change (2 ^ 4) with 16. change (2 ^ 2) with 4. change (2 ^ 0) with 1.
  rewrite !Z.div_1_r.
  repeat f_equal; subst n; Z.div_mod_to_equations; lia.
Qed.

Lemma decodeLoop_skip text acc bits out :
  forallb ignored text = true → decodeLoop text acc bits out = Some out.
Proof.
  induction text as [|c text IH]; [done|]. cbn [forallb decodeLoop].
  intros [-> Ht]%andb_true_iff. by apply IH.
Qed.

Lemma decode_tail1 text acc out a w x :
  is_byte a → decodeChar w = ((65536 * a) / 2 ^ 18) `mod` 64 → ignored w = false →
  decodeChar x = ((65536 * a) / 2 ^ 12) `mod` 64 → ignored x = false → forallb ignored text = true →
  decodeLoop (w :: x :: text) acc 0 out = Some (out ++ [a]).
Proof.
  unfold is_byte, in_u. change (2 ^ 8) with 256. intros Ha Hw Iw Hx Ix Ht.
  assert (∀ m, 0 <= m `mod` 64 < 64) as H64 by (intros; apply Z.mod_pos_bound; lia).
  rewrite (decodeLoop_char w _ _ _ _ _ Hw Iw (H64 _)) by lia. cbn zeta.
  change (8 <=? 0 + 6) with false. change (0 + 6) with 6. cbv iota.
  rewrite (decodeLoop_char x _ _ _ _ _ Hx Ix (H64 _)) by lia. cbn zeta.
  change (8 <=? 6 + 6) with true. change (6 - 2) with 4. cbv iota.
  rewrite (decodeLoop_skip text _ _ _ Ht). do 3 f_equal.
  change (2 ^ 32) with 4294967296. change (2 ^ 18) with 262144. change (2 ^ 12) with 4096.
  change (2 ^ 4) with 16. Z.div_mod_to_equations; lia.
Qed.

Lemma decode_tail2 text acc out a b w x y n :
  is_byte a → is_byte b → n = 65536 * a + 256 * b →
  decodeChar w = (n / 2 ^ 18) `mod` 64 → ignored w = false →
  decodeChar x = (n / 2 ^ 12) `mod` 64 → ignored x = false →
  decodeChar y = (n / 2 ^ 6) `mod` 64 → ignored y = false → forallb ignored text = true →
  decodeLoop (w :: x :: y :: text) acc 0 out = Some (out ++ [a; b]).
Proof.
  intros Ha Hb Hn Hw Iw Hx Ix Hy Iy Ht.
  (* the third sextet ends in two zero bits, so a fourth one of value 0 would not matter *)
  unfold is_byte, in_u in *. change (2 ^ 8) with 256 in *.
  assert (∀ m, 0 <= m `mod` 64 < 64) as H64 by (intros; apply Z.mod_pos_bound; lia).
  rewrite (decodeLoop_char w _ _ _ _ _ Hw Iw (H64 _)) by lia. cbn zeta.
  change (8 <=? 0 + 6) with false. change (0 + 6) with 6. cbv iota.
  rewrite (decodeLoop_char x _ _ _ _ _ Hx Ix (H64 _)) by lia. cbn zeta.
  change (8 <=? 6 + 6) with true. change (6 - 2) with 4. cbv iota.
  rewrite (decodeLoop_char y _ _ _ _ _ Hy Iy (H64 _)) by lia. cbn zeta.
  change (8 <=? 4 + 6) with true. change (4 - 2) with 2. cbv iota.
  rewrite (decodeLoop_skip text _ _ _ Ht), <- app_assoc. cbn [app]. do 2 f_equal.
  change (2 ^ 32) with 4294967296. change (2 ^ 18) with 262144. change (2 ^ 12) with 4096.
  change (2 ^ 6) with 64. change (2 ^ 4) with 16. change (2 ^ 2) with 4. 
  repeat f_equal; subst n; Z.div_mod_to_equations; lia.
Qed.

Lemma encode_decode alphabet pad data :
  alphabet_ok alphabet = true → Forall is_byte data →
  ∃ text, encodeWith alphabet pad data = Some text ∧
    ∀ acc out, decodeLoop text acc 0 out = Some (out ++ data).
Proof.
  intros Ha. induction data as [data IH] using (induction_ltof1 _ (@length Z)); unfold ltof in IH.
  intros Hd. destruct data as [|a [|b [|c rest]]]; cbn [encodeWith].
  - exists []. split; [done|]. intros. by rewrite app_nil_r.
  - apply Forall_cons_1 in Hd as [Hba _].
    assert (u32 (Z.shiftl a 16) = 65536 * a) as ->
      by (unfold is_byte, in_u in Hba; change (2 ^ 8) with 256 in Hba;
          rewrite Z.shiftl_mul_pow2, wrapU_id by (unfold in_u; lia); lia).
    destruct (sextet_ok alphabet (65536 * a) 18 Ha ltac:(lia)) as (w & -> & Hw & Iw).
    destruct (sextet_ok alphabet (65536 * a) 12 Ha ltac:(lia)) as (x & -> & Hx & Ix). cbn [mbind option_bind].
    eexists. split; [done|]. intros acc out. apply (decode_tail1 _ _ _ a); try done. by destruct pad.
  - apply Forall_cons_1 in Hd as [Hba Hd]. apply Forall_cons_1 in Hd as [Hbb _].
    assert (Z.lor (u32 (Z.shiftl a 16)) (u32 (Z.shiftl b 8)) = 65536 * a + 256 * b) as ->
      by (rewrite <- (Z.lor_0_r (Z.lor _ _)), (lor3 a b 0) by (done || (unfold is_byte, in_u; lia)); lia).
    destruct (sextet_ok alphabet (65536 * a + 256 * b) 18 Ha ltac:(lia)) as (w & -> & Hw & Iw).
    destruct (sextet_ok alphabet (65536 * a + 256 * b) 12 Ha ltac:(lia)) as (x & -> & Hx & Ix).
    destruct (sextet_ok alphabet (65536 * a + 256 * b) 6 Ha ltac:(lia)) as (y & -> & Hy & Iy). cbn [mbind option_bind].
    eexists. split; [done|]. intros acc out. eapply decode_tail2; try done. by destruct pad.
  - apply Forall_cons_1 in Hd as [Hba Hd]. apply Forall_cons_1 in Hd as [Hbb Hd]. apply Forall_cons_1 in Hd as [Hbc Hd].
    rewrite lor3 by done. set (n := 65536 * a + 256 * b + c).
    destruct (sextet_ok alphabet n 18 Ha ltac:(lia)) as (w & -> & Hw & Iw).
    destruct (sextet_ok alphabet n 12 Ha ltac:(lia)) as (x & -> & Hx & Ix).
    destruct (sextet_ok alphabet n 6 Ha ltac:(lia)) as (y & -> & Hy & Iy).
    destruct (sextet_ok alphabet n 0 Ha ltac:(lia)) as (z & -> & Hz & Iz). cbn [mbind option_bind].
    destruct (IH rest ltac:(cbn; lia) Hd) as (text & -> & Ht). cbn [mbind option_bind].
    eexists. split; [done|]. intros acc out.
    destruct (decode_group text acc out a b c w x y z n) as [acc' ->]; try done.
    rewrite Ht, <- app_assoc. done.
Qed.

(** What [base64Decode] refuses: a character that is neither skipped nor in an alphabet. *)
Definition decodable (c : Z) : bool := ignored c || (0 <=? decodeChar c).

Lemma decodeLoop_total text acc bits out :
  0 ≤ bits < 8 →
  if forallb decodable text
  then ∃ d, decodeLoop text acc bits out = Some (out ++ d) ∧ Forall is_byte d ∧
    Z.of_nat (length d) = (bits + 6 * Z.of_nat (length (filter (λ c, ignored c = false) text))) / 8
  else decodeLoop text acc bits out = None.
Proof.
  revert acc bits out. induction text as [|c text IH]; intros acc bits out Hb; cbn [forallb decodeLoop].
  { exists []. rewrite app_nil_r. split_and!; [done|by apply Forall_nil_2|].
    cbn. rewrite Z.div_small; lia. }
  unfold decodable at 1. rewrite filter_cons. destruct (ignored c) eqn:Hi; cbn [orb andb].
  { rewrite decide_False by done. by apply IH. }
  rewrite decide_True by done. rewrite Z.leb_antisym.
  destruct (Z.ltb_spec (decodeChar c) 0) as [Hneg|Hpos]; cbn [negb andb]; [done|].
  cbn zeta. destruct (Z.leb_spec 8 (bits + 6)).
  - set (o := u8 _). specialize (IH (Z.lor (u32 (Z.shiftl acc 6)) (decodeChar c)) (bits + 6 - 8) (out ++ [o]) ltac:(lia)).
    destruct (forallb decodable text); [|done].
    destruct IH as (d & -> & Hd & Hl). exists (o :: d). rewrite <- app_assoc.
    split_and!; [done|apply Forall_cons_2; [apply wrapU_range; lia|done]|].
    cbn [length]. rewrite !Nat2Z.inj_succ, Hl. Z.div_mod_to_equations; lia.
  - specialize (IH (Z.lor (u32 (Z.shiftl acc 6)) (decodeChar c)) (bits + 6) out ltac:(lia)).
    destruct (forallb decodable text); [|done].
    destruct IH as (d & -> & Hd & Hl). exists d. split_and!; [done|done|].
    cbn [length]. rewrite Nat2Z.inj_succ, Hl. f_equal. lia.
Qed.

(** ** Actor uuids *)

Definition is_hex (c : Z) : Prop := 48 ≤ c ≤ 57 ∨ 97 ≤ c ≤ 102.

Lemma kHex_lookup v : 0 ≤ v < 16 → ∃ c, kHex !! Z.to_nat v = Some c ∧ is_hex c.
Proof.
  intros Hv. assert (forallb (λ i : nat, match kHex !! i with
    | Some c => ((48 <=? c) && (c <=? 57)) || ((97 <=? c) && (c <=? 102)) | None => false end) (seq 0 16) = true)
    as H by reflexivity.
  rewrite foldr_andb_true in H. specialize (H (Z.to_nat v) ltac:(apply elem_of_seq; lia)).
  destruct (kHex !! Z.to_nat v) as [c|]; [|done]. exists c. split; [done|]. unfold is_hex. lia.
Qed.

Lemma hexDigits_ok raw :
  Forall is_byte raw → ∃ out, hexDigits raw = Some out ∧ length out = (2 * length raw)%nat ∧ Forall is_hex out.
Proof.
  induction 1 as [|r raw Hr _ (out & E & Hl & Hh)]; [by exists []|].
  unfold is_byte, in_u in Hr. change (2 ^ 8) with 256 in Hr. cbn [hexDigits].
  destruct (kHex_lookup (Z.shiftr r 4)) as (hi & -> & Hhi).
  { rewrite Z.shiftr_div_pow2 by lia. change (2 ^ 4) with 16. Z.div_mod_to_equations; lia. }
  destruct (kHex_lookup (Z.land r 15)) as (lo & -> & Hlo).
  { change 15 with (Z.ones 4). rewrite Z.land_ones by lia. apply Z.mod_pos_bound. lia. }
  rewrite E. cbn [mbind option_bind]. eexists. split_and!; [done|cbn; lia|].
  by apply Forall_cons_2, Forall_cons_2.
Qed.

(** ** Dates *)

Definition leap (y : Z) : bool :=
  (y `mod` 4 =? 0) && negb (y `mod` 100 =? 0) || (y `mod` 400 =? 0).
Definition yearDays (y : Z) : Z := if leap y then 366 else 365.
Definition monthDays (y m : Z) : Z :=
  if m =? 2 then (if leap y then 29 else 28)
  else if (m =? 4) || (m =? 6) || (m =? 9) || (m =? 11) then 30 else 31.

(** Days from 0000-01-01 to the first of year [y], and of the months before month [m]. *)
Definition daysToYear (y : nat) : Z := foldr (λ i n, yearDays (Z.of_nat i) + n) 0 (seq 0 y).
Definition daysToMonth (y m : Z) : Z :=
  foldr (λ i n, monthDays y (Z.of_nat i) + n) 0 (seq 1 (Z.to_nat m - 1)).

(** The calendar, counted day by day. *)
Definition calendarDays (y m d : Z) : Z :=
  daysToYear (Z.to_nat y) - daysToYear 1970 + daysToMonth y m + d - 1.

Lemma daysToYear_S y : daysToYear (S y) = daysToYear y + yearDays (Z.of_nat y).
Proof.
  unfold daysToYear. rewrite seq_S, Nat.add_0_l, foldr_app. cbn [foldr].
  generalize (seq 0 y) as l. induction l as [|a l IH]; cbn [foldr]; lia.
Qed.

Lemma daysToYear_closed y :
  daysToYear y = 365 * Z.of_nat y + (Z.of_nat y + 3) / 4 - (Z.of_nat y + 99) / 100 + (Z.of_nat y + 399) / 400.
Proof.
  induction y as [|y IH]; [reflexivity|]. rewrite daysToYear_S, IH. unfold yearDays, leap.
  destruct (Z.eqb_spec (Z.of_nat y `mod` 4) 0), (Z.eqb_spec (Z.of_nat y `mod` 100) 0),
    (Z.eqb_spec (Z.of_nat y `mod` 400) 0); cbn [andb orb negb]; Z.div_mod_to_equations; lia.
Qed.

(** The era arithmetic is the proleptic Gregorian count of days in whole years. *)
Lemma civilDays_closed y m d :
  0 ≤ y ≤ 9999 → 1 ≤ m ≤ 99 → 1 ≤ d ≤ 99 →
  let y' := y - (if m <=? 2 then 1 else 0) in
  let mp := m + (if 2 <? m then -3 else 9) in
  civilDays y m d = 365 * y' + y' / 4 - y' / 100 + y' / 400 + (153 * mp + 2) / 5 + d - 1 - 719468.
Proof.
  intros Hy Hm Hd y' mp. unfold civilDays. fold y' mp.
  assert (-1 ≤ y' ≤ 9999) as Hy' by (unfold y'; case_match; lia).
  assert (0 ≤ mp ≤ 96) as Hmp by (unfold mp; destruct (Z.ltb_spec 2 m); lia). clearbody y' mp.
  assert (Z.quot (if 0 <=? y' then y' else y' - 399) 400 = y' / 400) as ->.
  { destruct (Z.leb_spec 0 y'); [by rewrite Z.quot_div_nonneg by lia|]. by replace y' with (-1) by lia. }
  rewrite (wrapU_id 32 d), (wrapU_id 32 mp) by (unfold in_u; lia).
  rewrite (wrapU_id 32 (y' - _)) by (unfold in_u; Z.div_mod_to_equations; lia).
  rewrite (wrapU_id 32 ((153 * mp + 2) / 5 + d - 1)) by (unfold in_u; Z.div_mod_to_equations; lia).
  rewrite wrapU_id by (unfold in_u; Z.div_mod_to_equations; lia).
  Z.div_mod_to_equations; lia.
Qed.

Lemma daysToMonth_cases y m :
  1 ≤ m ≤ 12 →
  daysToMonth y m = (153 * (m + (if 2 <? m then -3 else 9)) + 2) / 5 +
    (if 2 <? m then 59 + (if leap y then 1 else 0) else -306).
Proof.
  intros Hm.
  assert (m = 1 ∨ m = 2 ∨ m = 3 ∨ m = 4 ∨ m = 5 ∨ m = 6 ∨ m = 7 ∨ m = 8 ∨ m = 9 ∨ m = 10 ∨ m = 11 ∨ m = 12) as H by lia.
  unfold daysToMonth, monthDays.
  destruct H as [-> | [-> | [-> | [-> | [-> | [-> | [-> | [-> | [-> | [-> | [-> | ->]]]]]]]]]]];
    destruct (leap y); reflexivity.
Qed.

Lemma civilDays_calendar y m d :
  0 ≤ y ≤ 9999 → 1 ≤ m ≤ 12 → 1 ≤ d ≤ 99 → civilDays y m d = calendarDays y m d.
Proof.
  intros Hy Hm Hd. rewrite civilDays_closed by lia. unfold calendarDays.
  rewrite !daysToYear_closed, Z2Nat.id, daysToMonth_cases by lia.
  change (Z.of_nat 1970) with 1970. unfold leap.
  destruct (Z.leb_spec m 2), (Z.ltb_spec 2 m); try lia;
    generalize ((153 * (m + -3) + 2) / 5) ((153 * (m + 9) + 2) / 5); intros ? ?.
  - Z.div_mod_to_equations; lia.
  - destruct (Z.eqb_spec (y `mod` 4) 0), (Z.eqb_spec (y `mod` 100) 0), (Z.eqb_spec (y `mod` 400) 0);
      cbn [andb orb negb]; Z.div_mod_to_equations; lia.
Qed.

(** ** The text of a timestamp *)

Definition dig (v : Z) : Z := 48 + v.
Definition dig2 (v : Z) : bytes := [dig (v / 10); dig (v `mod` 10)].
Definition dig4 (v : Z) : bytes := dig2 (v / 100) ++ dig2 (v `mod` 100).
Definition dig3 (v : Z) : bytes := dig (v / 100) :: dig2 (v `mod` 100).

(** [YYYY-MM-DDTHH:MM:SS], and with milliseconds and [Z]. *)
Definition isoSeconds (y mo d h mi s : Z) : bytes :=
  dig4 y ++ [45] ++ dig2 mo ++ [45] ++ dig2 d ++ [84] ++ dig2 h ++ [58] ++ dig2 mi ++ [58] ++ dig2 s.
Definition isoMillis (y mo d h mi s ms : Z) : bytes := isoSeconds y mo d h mi s ++ [46] ++ dig3 ms ++ [90].

Lemma dig_ok v : 0 ≤ v ≤ 9 → ((dig v <? 48) || (57 <? dig v)) = false.
Proof. unfold dig. intros. apply orb_false_iff. rewrite !Z.ltb_ge. lia. Qed.

Lemma digits_2 (text rest : list Z) pos v :
  0 ≤ v ≤ 99 → drop pos text = dig2 v ++ rest → digits text pos 2 = Some v.
Proof.
  intros Hv Hd.
  assert (text !! pos = Some (dig (v / 10))) as E0 by (by rewrite <- (Nat.add_0_r pos), <- lookup_drop, Hd).
  assert (text !! S pos = Some (dig (v `mod` 10))) as E1 by (by rewrite <- (Nat.add_1_r pos), <- lookup_drop, Hd).
  unfold digits. cbn [digitsFrom]. rewrite E0. cbn [mbind option_bind].
  rewrite dig_ok by (Z.div_mod_to_equations; lia). rewrite E1. cbn [mbind option_bind].
  rewrite dig_ok by (Z.div_mod_to_equations; lia). f_equal. unfold dig. Z.div_mod_to_equations; lia.
Qed.

Lemma digits_4 (text rest : list Z) pos v :
  0 ≤ v ≤ 9999 → drop pos text = dig4 v ++ rest → digits text pos 4 = Some v.
Proof.
  intros Hv Hd. assert (∀ i c, (dig4 v ++ rest) !! i = Some c → text !! (pos + i)%nat = Some c) as E.
  { intros i c Hi. by rewrite <- lookup_drop, Hd. }
  pose proof (E 0%nat _ eq_refl) as E0. pose proof (E 1%nat _ eq_refl) as E1.
  pose proof (E 2%nat _ eq_refl) as E2. pose proof (E 3%nat _ eq_refl) as E3.
  rewrite Nat.add_0_r in E0. rewrite Nat.add_1_r in E1.
  rewrite Nat.add_comm in E2, E3. cbn [Nat.add] in E2, E3.
  unfold digits. cbn [digitsFrom].
  rewrite E0. cbn [mbind option_bind]. rewrite dig_ok by (Z.div_mod_to_equations; lia).
  rewrite E1. cbn [mbind option_bind]. rewrite dig_ok by (Z.div_mod_to_equations; lia).
  rewrite E2. cbn [mbind option_bind]. rewrite dig_ok by (Z.div_mod_to_equations; lia).
  rewrite E3. cbn [mbind option_bind]. rewrite dig_ok by (Z.div_mod_to_equations; lia).
  f_equal. unfold dig. Z.div_mod_to_equations; lia.
Qed.

Lemma fraction_3 v rest n :
  0 ≤ v ≤ 999 → fraction (dig3 v ++ rest) 100 (S (S (S n))) = v.
Proof.
  intros Hv. unfold dig3, dig2. cbn [app fraction].
  change (100 <=? 0) with false. change (100 / 10) with 10. change (10 <=? 0) with false.
  change (10 / 10) with 1. change (1 <=? 0) with false. cbv iota.
  rewrite !dig_ok by (Z.div_mod_to_equations; lia). change (1 / 10) with 0.
  assert (fraction rest 0 n = 0) as -> by (by destruct n, rest).
  unfold dig. Z.div_mod_to_equations; lia.
Qed.

Definition time_ok (y mo d h mi s : Z) : Prop :=
  0 ≤ y ≤ 9999 ∧ 1 ≤ mo ≤ 12 ∧ 1 ≤ d ≤ monthDays y mo ∧ 0 ≤ h ≤ 99 ∧ 0 ≤ mi ≤ 99 ∧ 0 ≤ s ≤ 99.
Definition epochSeconds (y mo d h mi s : Z) : Z := ((calendarDays y mo d * 24 + h) * 60 + mi) * 60 + s.

(** The fields are read from their positions, whatever follows. *)
Lemma parse_fields y mo d h mi s rest :
  time_ok y mo d h mi s →
  parseIso8601Millis (isoSeconds y mo d h mi s ++ rest) =
    let ms := epochSeconds y mo d h mi s * 1000 in
    match rest with
    | c :: ((_ :: _) as frac) => Some (if c =? 46 then ms + fraction frac 100 (length frac) else ms)
    | _ => Some ms
    end.
Proof.
  intros (Hy & Hmo & Hd & Hh & Hmi & Hs).
  assert (monthDays y mo ≤ 31) by (unfold monthDays; repeat case_match; lia).
  unfold parseIso8601Millis. rewrite decide_False by (rewrite length_app; cbn; lia).
  erewrite (digits_4 _ _ 0 y) by (lia || reflexivity). cbn [mbind option_bind].
  erewrite (digits_2 _ _ 5 mo) by (lia || reflexivity). cbn [mbind option_bind].
  erewrite (digits_2 _ _ 8 d) by (lia || reflexivity). cbn [mbind option_bind].
  erewrite (digits_2 _ _ 11 h) by (lia || reflexivity). cbn [mbind option_bind].
  erewrite (digits_2 _ _ 14 mi) by (lia || reflexivity). cbn [mbind option_bind].
  erewrite (digits_2 _ _ 17 s) by (lia || reflexivity). cbn [mbind option_bind].
  rewrite (proj2 (Z.ltb_ge y 0)), (proj2 (Z.leb_gt mo 0)), (proj2 (Z.leb_gt d 0)), (proj2 (Z.ltb_ge h 0)),
    (proj2 (Z.ltb_ge mi 0)), (proj2 (Z.ltb_ge s 0)) by lia. cbn [orb].
  rewrite civilDays_calendar by lia.
  replace (((calendarDays y mo d * 24 + h) * 60 + mi) * 60000 + s * 1000)
    with (epochSeconds y mo d h mi s * 1000) by (unfold epochSeconds; lia).
  rewrite length_app. change (length (isoSeconds y mo d h mi s)) with 19%nat.
  destruct rest as [|c [|c2 rest]]; cbn zeta.
  - by rewrite bool_decide_eq_false_2 by (cbn; lia).
  - by rewrite bool_decide_eq_false_2 by (cbn; lia).
  - rewrite bool_decide_eq_true_2 by (cbn; lia). cbn [mbind option_bind lookup].
    change ((isoSeconds y mo d h mi s ++ c :: c2 :: rest) !! 19%nat) with (Some c). cbn [mbind option_bind].
    change (drop 20 (isoSeconds y mo d h mi s ++ c :: c2 :: rest)) with (c2 :: rest).
    replace (19 + length (c :: c2 :: rest) - 20)%nat with (length (c2 :: rest)) by (cbn; lia).
    by destruct (c =? 46).
Qed.

(** ** What the helpers promise *)

(** Both base64 encoders give text for every octet string and the decoder gives it back;
    the decoder accepts exactly the texts of alphabet and skipped characters and returns
    octets, six bits per character. *)
Theorem base64_roundtrip :
  (∀ data, Forall is_byte data →
     (base64Encode data ≫= base64Decode) = Some data ∧ (base64UrlEncode data ≫= base64Decode) = Some data) ∧
  ∀ text, if forallb decodable text
    then ∃ d, base64Decode text = Some d ∧ Forall is_byte d ∧
      Z.of_nat (length d) = 6 * Z.of_nat (length (filter (λ c, ignored c = false) text)) / 8
    else base64Decode text = None.
Proof.
  split.
  - intros data Hd. unfold base64Encode, base64UrlEncode, base64Decode.
    destruct (encode_decode kStd true data eq_refl Hd) as (t1 & -> & H1).
    destruct (encode_decode kUrl false data eq_refl Hd) as (t2 & -> & H2).
    cbn [mbind option_bind]. by rewrite H1, H2.
  - intros text. pose proof (decodeLoop_total text 0 0 [] ltac:(lia)) as H. unfold base64Decode.
    by destruct (forallb decodable text).
Qed.

(** A generated actor uuid is 32 lower-case hex digits; the provider's unavailability and a
    failed random source are reported, and the convenience form turns them into 32 zeros.
    [hexDigits] never leaves its table. *)
Theorem actorUuid_generation c :
  (∀ raw, randomBytes c 16 = Some raw → length raw = 16%nat ∧ Forall is_byte raw) →
  ∃ r u, tryGenerateActorUuid c = Some r ∧ generateActorUuid c = Some u ∧ length u = 32%nat ∧
    match r with
    | Val v => u = v ∧ ok (availability c) = true ∧ is_Some (randomBytes c 16) ∧ Forall is_hex v
    | Err e => u = replicate 32 0 ∧
        (e = availability c ∧ ok e = false ∨ e = CryptoUnavailable ∧ ok (availability c) = true ∧ randomBytes c 16 = None)
    end.
Proof.
  intros Hr. unfold generateActorUuid, tryGenerateActorUuid.
  destruct (ok (availability c)) eqn:Ha; cbn [negb].
  - destruct (randomBytes c 16) as [raw|] eqn:Er.
    + destruct (Hr raw eq_refl) as [Hl Hb]. destruct (hexDigits_ok raw Hb) as (u & -> & Hlu & Hx).
      cbn [mbind option_bind]. do 2 eexists. split; [done|]. split; [done|]. split_and!; try done. by rewrite Hlu, Hl.
    + cbn [mbind option_bind]. do 2 eexists. split; [done|]. split; [done|]. split_and!; try done. by right.
  - cbn [mbind option_bind]. do 2 eexists. split; [done|]. split; [done|]. split_and!; try done. by left.
Qed.

(** A timestamp in the expected shape parses to its milliseconds since 1970 by the
    calendar counted day by day, for every date of the years 0 to 9999, with or without the
    fraction and the zone letter. *)
Theorem parseIso8601_correct y mo d h mi s ms :
  time_ok y mo d h mi s → 0 ≤ ms ≤ 999 →
  parseIso8601Millis (isoMillis y mo d h mi s ms) = Some (epochSeconds y mo d h mi s * 1000 + ms) ∧
  parseIso8601Millis (isoSeconds y mo d h mi s ++ [90]) = Some (epochSeconds y mo d h mi s * 1000) ∧
  parseIso8601Millis (isoSeconds y mo d h mi s) = Some (epochSeconds y mo d h mi s * 1000).
Proof.
  intros Ht Hms. split_and!.
  - unfold isoMillis. rewrite parse_fields by done. cbn [app tail dig3 dig2]. rewrite Z.eqb_refl.
    do 2 f_equal. exact (fraction_3 ms [90] 1 Hms).
  - by rewrite parse_fields.
  - rewrite <- (app_nil_r (isoSeconds _ _ _ _ _ _)). by rewrite parse_fields.
Qed.

Lemma digitsFrom_defined (text : list Z) pos count v :
  (pos + count ≤ length text)%nat → is_Some (digitsFrom text pos count v).
Proof.
  revert pos v. induction count as [|count IH]; intros pos v Hl; cbn [digitsFrom]; [done|].
  destruct (lookup_lt_is_Some_2 text pos ltac:(lia)) as [c ->]. cbn [mbind option_bind].
  case_match; [done|]. apply IH. lia.
Qed.

(** The timestamp parser reads only inside its text, whatever the octets and length. *)
Theorem parseIso8601_memory_safe text : is_Some (parseIso8601Millis text).
Proof.
  unfold parseIso8601Millis. case_decide as Hl; [done|].
  assert (∀ p n, (p + n ≤ 19)%nat → is_Some (digits text p n)) as Hdig
    by (intros; apply digitsFrom_defined; lia).
  destruct (Hdig 0 4 ltac:(lia))%nat as [? ->], (Hdig 5 2 ltac:(lia))%nat as [? ->],
    (Hdig 8 2 ltac:(lia))%nat as [? ->], (Hdig 11 2 ltac:(lia))%nat as [? ->],
    (Hdig 14 2 ltac:(lia))%nat as [? ->], (Hdig 17 2 ltac:(lia))%nat as [? ->]. cbn [mbind option_bind].
  case_match; [done|]. case_bool_decide; [|done].
  destruct (lookup_lt_is_Some_2 (text : list Z) 19%nat ltac:(lia)) as [c ->]. cbn [mbind option_bind]. by case_match.
Qed.

(** ** Concrete values *)

Example base64_example : base64Encode [255; 254; 253; 0] = Some (chars "//79AA==").
Proof. reflexivity. Qed.

(** Month 13 is not refused: the parser only refuses non-digits and zero months and days. *)
Example parseIso8601_month_13 :
  parseIso8601Millis (chars "2026-13-01T00:00:00Z") = parseIso8601Millis (chars "2027-01-01T00:00:00Z").
Proof. reflexivity. Qed.

Definition demoRandom (n : nat) : option bytes := Some ((λ i : nat, Z.of_nat i * 16 + 10) <$> seq 0 n).
