(* ===== verification/Keys.v ===== *)
(** * Chunk and voxel coordinates, actor-state codecs

    [include/crowdy/session/keys.hpp] and [include/crowdy/session/codec.hpp]. A world position
    is a [double]; every finite double is a dyadic rational and [x / 16] only changes its
    exponent (exact outside the subnormals), so positions are rationals here. A conversion to an
    integer type of a value out of its range, and a signed overflow, are undefined ([UB]). *)

From Stdlib Require Import QArith Qround.
From S2P Require Import Prelude Bytes Codec.

Open Scope Z_scope.

(** ** keys.hpp *)

Definition kChunkSize : Z := 16.
Definition kChunkVolume : Z := kChunkSize * kChunkSize * kChunkSize.

Definition voxelIndex (x y z : Z) : Z := x + y * kChunkSize + z * kChunkSize * kChunkSize.

(** [static_cast] of a floored double to a [w]-bit signed integer. *)
Definition castFloor (w : Z) (q : Q) : option Z :=
  if decide (in_s w (Qfloor q)) then Some (Qfloor q) else UB.

Definition worldToChunk (x y z : Q) : option ChunkCoord :=
  cx ← castFloor 64 (x / inject_Z kChunkSize); cy ← castFloor 64 (y / inject_Z kChunkSize);
  cz ← castFloor 64 (z / inject_Z kChunkSize); Some (mkChunk cx cy cz).

Definition worldToLocalVoxel (v : Q) : option Z :=
  f ← castFloor 32 v;
  let m := Z.rem f kChunkSize in
  Some (if m <? 0 then m + kChunkSize else m).

(** A signed 64-bit subtraction. *)
Definition sub64 (a b : Z) : option Z := if decide (in_s 64 (a - b)) then Some (a - b) else UB.

Definition chebyshev (a b : ChunkCoord) : option Z :=
  dx ← (if cx b <? cx a then sub64 (cx a) (cx b) else sub64 (cx b) (cx a));
  dy ← (if cy b <? cy a then sub64 (cy a) (cy b) else sub64 (cy b) (cy a));
  dz ← (if cz b <? cz a then sub64 (cz a) (cz b) else sub64 (cz b) (cz a));
  Some (if dy <? dx then (if dz <? dx then dx else dz) else (if dz <? dy then dy else dz)).

Definition fnvOffset : Z := 1469598103934665603.
Definition fnvPrime : Z := 1099511628211.

Definition chunkCoordHash (c : ChunkCoord) : Z :=
  let mix h v := u64 (Z.lxor h (u64 v) * fnvPrime) in
  mix (mix (mix fnvOffset (cx c)) (cy c)) (cz c).

Definition sessionActorUuidHash (u : bytes) : Z :=
  foldl (λ h c, u64 (Z.lxor h (u8 c) * fnvPrime)) fnvOffset u.

(** ** codec.hpp *)

(** [PodCodec<T>] and [RawCodec<N>] copy the object representation: a state is its
    [sizeof(T)] octets. [decode] leaves [out] alone on a size mismatch. *)
Definition podEncode (size : nat) (state out : bytes) : option bytes :=
  s ← sub state 0 size; memcpy out 0 s.
Definition podDecode (size : nat) (input out : bytes) : option (bool * bytes) :=
  if decide (length input ≠ size) then Some (false, out) else
  s ← sub input 0 size; out ← memcpy out 0 s; Some (true, out).

(** [UnrealPose]; the doubles by their bit patterns. *)
Record UnrealPose := mkUnrealPose {
  up_version : Z; up_pad : bytes;
  up_positionX : Z; up_positionY : Z; up_positionZ : Z;
  up_rotationPitch : Z; up_rotationYaw : Z; up_rotationRoll : Z;
  up_velocityX : Z; up_velocityY : Z; up_velocityZ : Z;
  up_crouch : Z; up_attachments : Z; up_tail : bytes }.

Definition kUnrealPoseSize : nat := 88.

(** The object representation on a little-endian host. *)
Definition poseBytes (p : UnrealPose) : bytes :=
  [up_version p] ++ up_pad p ++
  le.octets 8 (up_positionX p) ++ le.octets 8 (up_positionY p) ++ le.octets 8 (up_positionZ p) ++
  le.octets 8 (up_rotationPitch p) ++ le.octets 8 (up_rotationYaw p) ++ le.octets 8 (up_rotationRoll p) ++
  le.octets 8 (up_velocityX p) ++ le.octets 8 (up_velocityY p) ++ le.octets 8 (up_velocityZ p) ++
  [up_crouch p; up_attachments p] ++ up_tail p.

(** Reading the members of an object with these octets. *)
Definition poseOfBytes (b : bytes) : option UnrealPose :=
  version ← le.readU8 b 0; pad ← sub b 1 7;
  px ← le.readF64 b 8; py ← le.readF64 b 16; pz ← le.readF64 b 24;
  rp ← le.readF64 b 32; ry ← le.readF64 b 40; rr ← le.readF64 b 48;
  vx ← le.readF64 b 56; vy ← le.readF64 b 64; vz ← le.readF64 b 72;
  crouch ← le.readU8 b 80; attachments ← le.readU8 b 81; tail ← sub b 82 6;
  Some (mkUnrealPose version pad px py pz rp ry rr vx vy vz crouch attachments tail).

Definition pose_ok (p : UnrealPose) : Prop :=
  length (up_pad p) = 7%nat ∧ length (up_tail p) = 6%nat ∧
  Forall (in_u 64) [up_positionX p; up_positionY p; up_positionZ p; up_rotationPitch p; up_rotationYaw p;
    up_rotationRoll p; up_velocityX p; up_velocityY p; up_velocityZ p].

(** ** Proofs *)

Lemma Qfloor_div16 (q : Q) : Qfloor (q / inject_Z 16) = Qfloor q / 16.
Proof.
  destruct q as [n d]. unfold Qdiv, Qmult, Qinv, inject_Z, Qfloor. cbn.
  rewrite Z.mul_1_r, Z.div_div by lia. f_equal; try lia.
Qed.

Lemma castFloor_Some w q : in_s w (Qfloor q) → castFloor w q = Some (Qfloor q).
Proof. intros H. unfold castFloor. by rewrite decide_True. Qed.

Lemma rem_fix f : (let m := Z.rem f 16 in if m <? 0 then m + 16 else m) = f `mod` 16.
Proof.
  cbn zeta. rewrite Z.rem_eq by lia.
  destruct (Z.ltb_spec (f - 16 * (Z.quot f 16)) 0) as [H|H].
  - pose proof (Z.quot_rem f 16). pose proof (Z.rem_bound_abs f 16).
    apply (Z.mod_unique _ _ (Z.quot f 16 - 1)); lia.
  - pose proof (Z.quot_rem f 16). pose proof (Z.rem_bound_abs f 16).
    apply (Z.mod_unique _ _ (Z.quot f 16)); lia.
Qed.

Lemma length_poseBytes p : pose_ok p → length (poseBytes p) = kUnrealPoseSize.
Proof.
  intros (Hp & Ht & _). unfold poseBytes. rewrite !length_app, !le.length_octets, Hp, Ht. reflexivity.
Qed.

(** The ordering of two coordinates does not matter to their distance. *)
Lemma sub64_abs a b : in_s 64 (Z.abs (a - b)) → (if b <? a then sub64 a b else sub64 b a) = Some (Z.abs (a - b)).
Proof.
  intros H. unfold sub64. destruct (Z.ltb_spec b a).
  - rewrite Z.abs_eq in * by lia. by rewrite decide_True.
  - rewrite Z.abs_neq in * by lia. replace (- (a - b)) with (b - a) in * by lia. by rewrite decide_True.
Qed.

Lemma sub64_far a b : 2 ^ 63 <= Z.abs (a - b) → (if b <? a then sub64 a b else sub64 b a) = None.
Proof.
  intros H. unfold sub64, in_s. change (2 ^ (64 - 1)) with (2 ^ 63).
  destruct (Z.ltb_spec b a); rewrite decide_False; try done; lia.
Qed.

Lemma abs_triangle (a b c : Z) : Z.abs (a - c) ≤ Z.abs (a - b) + Z.abs (b - c).
Proof. lia. Qed.

Lemma max_triangle (a b c a1 b1 c1 a2 b2 c2 : Z) :
  a ≤ a1 + a2 → b ≤ b1 + b2 → c ≤ c1 + c2 →
  Z.max a (Z.max b c) ≤ Z.max a1 (Z.max b1 c1) + Z.max a2 (Z.max b2 c2).
Proof. lia. Qed.

(** ** What the module promises *)

(** [voxelIndex] numbers the voxels of a chunk one to one onto [0, 4096), and a position
    whose floor fits an [int] splits into its chunk and its local voxel: sixteen times the chunk
    plus the voxel is the floored position, on every axis and for negative positions too. *)
Theorem voxel_addressing :
  (∀ x y z, 0 ≤ x < 16 → 0 ≤ y < 16 → 0 ≤ z < 16 → 0 ≤ voxelIndex x y z < kChunkVolume) ∧
  (∀ x y z x' y' z', 0 ≤ x < 16 → 0 ≤ y < 16 → 0 ≤ z < 16 → 0 ≤ x' < 16 → 0 ≤ y' < 16 → 0 ≤ z' < 16 →
     voxelIndex x y z = voxelIndex x' y' z' → x = x' ∧ y = y' ∧ z = z') ∧
  (∀ i, 0 ≤ i < kChunkVolume → voxelIndex (i `mod` 16) ((i / 16) `mod` 16) (i / 256) = i) ∧
  ∀ p : Q, in_s 32 (Qfloor p) →
    ∃ c v, worldToChunk p p p = Some (mkChunk c c c) ∧ worldToLocalVoxel p = Some v ∧
      0 ≤ v < 16 ∧ 16 * c + v = Qfloor p.
Proof.
  unfold voxelIndex, kChunkVolume, kChunkSize. split_and!.
  - intros. lia.
  - intros. lia.
  - intros. Z.div_mod_to_equations. lia.
  - intros p Hp. exists (Qfloor p / 16), (Qfloor p `mod` 16). unfold worldToChunk, worldToLocalVoxel.
    unfold kChunkSize. rewrite (castFloor_Some 32) by done.
    rewrite castFloor_Some; rewrite Qfloor_div16.
    2: { unfold in_s in *. cbn in *. Z.div_mod_to_equations. lia. }
    cbn [mbind option_bind]. rewrite rem_fix.
    split_and!; try done; Z.div_mod_to_equations; lia.
Qed.

(** The chunk distance is the Chebyshev metric wherever the coordinate differences fit 63
    bits: the largest absolute difference, zero exactly on equal chunks, symmetric, with the
    triangle inequality; and no wider difference is computed wrongly in silence (the C++
    subtraction is undefined there). *)
Theorem chebyshev_metric a b c :
  coord_ok a → coord_ok b → coord_ok c →
  let d x y := Z.max (Z.abs (cx x - cx y)) (Z.max (Z.abs (cy x - cy y)) (Z.abs (cz x - cz y))) in
  (d a b < 2 ^ 63 → chebyshev a b = Some (d a b)) ∧
  (2 ^ 63 <= d a b → chebyshev a b = None) ∧
  chebyshev a b = chebyshev b a ∧ (d a b = 0 ↔ a = b) ∧
  ∀ x y z, chebyshev a c = Some x → chebyshev a b = Some y → chebyshev b c = Some z → x ≤ y + z.
Proof.
  intros Ha Hb Hc d.
  assert (∀ x y, d x y < 2 ^ 63 → chebyshev x y = Some (d x y)) as Hd.
  { intros x y H. unfold d in *. unfold chebyshev. rewrite !sub64_abs by (unfold in_s; change (2 ^ (64 - 1)) with (2 ^ 63); lia).
    cbn [mbind option_bind]. f_equal.
    repeat match goal with |- context [?p <? ?q] => destruct (Z.ltb_spec p q) end; lia. }
  assert (∀ x y, 2 ^ 63 <= d x y → chebyshev x y = None) as Hn.
  { intros x y H. unfold d in H. unfold chebyshev.
    destruct (Z.lt_ge_cases (Z.abs (cx x - cx y)) (2 ^ 63)); [rewrite (sub64_abs (cx x)) by (unfold in_s; change (2 ^ (64 - 1)) with (2 ^ 63); lia)|by rewrite (sub64_far (cx x))].
    destruct (Z.lt_ge_cases (Z.abs (cy x - cy y)) (2 ^ 63)); [rewrite (sub64_abs (cy x)) by (unfold in_s; change (2 ^ (64 - 1)) with (2 ^ 63); lia)|by rewrite (sub64_far (cy x))].
    destruct (Z.lt_ge_cases (Z.abs (cz x - cz y)) (2 ^ 63)); [lia|by rewrite (sub64_far (cz x))]. }
  assert (∀ x y, d x y = d y x) as Hsym by (intros; unfold d; lia).
  split_and!; [auto|auto| | |].
  - destruct (Z.lt_ge_cases (d a b) (2 ^ 63)).
    + rewrite (Hd a b), (Hd b a), (Hsym a b); [reflexivity|by rewrite <- (Hsym a b)|done].
    + rewrite (Hn a b), (Hn b a); [reflexivity|by rewrite <- (Hsym a b)|done].
  - split; [|intros ->; unfold d; lia]. unfold d. intros E. destruct a, b. cbn in E. f_equal; lia.
  - intros x y z Hx Hy Hz.
    assert (∀ p q r, chebyshev p q = Some r → r = d p q) as Hinv.
    { intros p q r E. destruct (Z.lt_ge_cases (d p q) (2 ^ 63)); [rewrite (Hd p q) in E by assumption; congruence|].
      rewrite (Hn p q) in E by assumption. discriminate. }
    apply Hinv in Hx, Hy, Hz. subst. apply max_triangle; apply abs_triangle.
Qed.

(** Reading the [i]-th of a run of doubles. *)
Lemma readF64_nth pre l post off i v :
  length pre = off → l !! i = Some v → in_u 64 v →
  le.readF64 (pre ++ concat (le.octets 8 <$> l) ++ post) (off + 8 * i) = Some v.
Proof.
  intros Hl. revert pre off Hl i. induction l as [|w l IH]; intros pre off Hl [|i] Hi Hv; try done; cbn in Hi.
  - injection Hi as ->. unfold le.readF64. rewrite le.readU64_skip by lia.
    cbn [fmap list_fmap concat]. rewrite <- app_assoc, le.readU64_first by lia. by rewrite wrapU_id.
  - cbn [fmap list_fmap concat].
    replace (pre ++ (le.octets 8 w ++ concat (le.octets 8 <$> l)) ++ post)
      with ((pre ++ le.octets 8 w) ++ concat (le.octets 8 <$> l) ++ post) by (by rewrite <- !app_assoc).
    replace (off + 8 * S i)%nat with ((off + 8) + 8 * i)%nat by lia.
    apply IH; try done. rewrite length_app, le.length_octets. lia.
Qed.

(** The members of the pose as one run of doubles between the bytes. *)
Definition poseDoubles (p : UnrealPose) : list Z :=
  [up_positionX p; up_positionY p; up_positionZ p; up_rotationPitch p; up_rotationYaw p;
   up_rotationRoll p; up_velocityX p; up_velocityY p; up_velocityZ p].

Lemma poseBytes_runs p :
  poseBytes p = (up_version p :: up_pad p) ++ concat (le.octets 8 <$> poseDoubles p) ++
    ([up_crouch p; up_attachments p] ++ up_tail p).
Proof.
  unfold poseBytes, poseDoubles. cbn [fmap list_fmap concat]. rewrite app_nil_r, <- !app_assoc. done.
Qed.

Lemma pose_read p : pose_ok p → poseOfBytes (poseBytes p) = Some p.
Proof.
  intros (Hp & Ht & Hd). fold (poseDoubles p) in Hd. rewrite poseBytes_runs.
  set (pre := up_version p :: up_pad p). set (post := [up_crouch p; up_attachments p] ++ up_tail p).
  assert (length pre = 8%nat) as Hpre by (cbn; lia).
  assert (length (concat (le.octets 8 <$> poseDoubles p)) = 72%nat) as Hruns by (cbn [poseDoubles fmap list_fmap concat]; rewrite !length_app, !le.length_octets; done).
  assert (∀ i v, poseDoubles p !! i = Some v →
    le.readF64 (pre ++ concat (le.octets 8 <$> poseDoubles p) ++ post) (8 + 8 * i) = Some v) as Hr.
  { intros i v Hi. apply readF64_nth; try done. rewrite Forall_lookup in Hd. by eapply Hd. }
  unfold poseOfBytes.
  rewrite (Hr 0%nat _ eq_refl : le.readF64 _ 8 = _), (Hr 1%nat _ eq_refl : le.readF64 _ 16 = _),
    (Hr 2%nat _ eq_refl : le.readF64 _ 24 = _), (Hr 3%nat _ eq_refl : le.readF64 _ 32 = _),
    (Hr 4%nat _ eq_refl : le.readF64 _ 40 = _), (Hr 5%nat _ eq_refl : le.readF64 _ 48 = _),
    (Hr 6%nat _ eq_refl : le.readF64 _ 56 = _), (Hr 7%nat _ eq_refl : le.readF64 _ 64 = _),
    (Hr 8%nat _ eq_refl : le.readF64 _ 72 = _).
  set (runs := concat _) in *. clearbody runs.
  assert (le.readU8 (pre ++ runs ++ post) 0 = Some (up_version p)) as -> by reflexivity.
  assert (sub (pre ++ runs ++ post) 1 7 = Some (up_pad p)) as ->.
  { change (pre ++ runs ++ post) with ([up_version p] ++ up_pad p ++ runs ++ post).
    rewrite sub_skip by (cbn; lia). apply sub_first; [done|cbn; lia]. }
  rewrite (le.readU8_skip pre _ 80), (le.readU8_skip runs) by lia.
  rewrite (le.readU8_skip pre _ 81), (le.readU8_skip runs) by lia.
  rewrite (sub_skip pre _ 82), (sub_skip runs) by lia. rewrite Hpre, Hruns.
  change (le.readU8 post (80 - 8 - 72)) with (Some (up_crouch p)).
  change (le.readU8 post (81 - 8 - 72)) with (Some (up_attachments p)).
  assert (sub post (82 - 8 - 72) 6 = Some (up_tail p)) as ->.
  { unfold post. rewrite sub_skip by (cbn; lia). rewrite <- (app_nil_r (up_tail p)) at 1. by apply sub_first. }
  cbn [mbind option_bind]. by destruct p.
Qed.

Lemma sub_whole (b : bytes) : sub b 0 (length b) = Some b.
Proof. unfold sub. rewrite decide_True by lia. by rewrite drop_0, take_ge. Qed.

(** A codec round trip: what [encode] writes decodes to the state, into any buffer and with
    everything behind the state left as it was; a payload of another size is refused and leaves
    the output alone; and the Unreal pose is 88 octets whose members read back. *)
Theorem state_codec_roundtrip :
  (∀ size state out, length state = size → (size ≤ length out)%nat →
     podEncode size state out = Some (state ++ drop size out)) ∧
  (∀ size state out, length state = size → length out = size →
     podDecode size state out = Some (true, state)) ∧
  (∀ size input out, length input ≠ size → podDecode size input out = Some (false, out)) ∧
  ∀ p, pose_ok p → length (poseBytes p) = kUnrealPoseSize ∧ poseOfBytes (poseBytes p) = Some p.
Proof.
  split_and!.
  - intros size state out <- Hl. unfold podEncode. rewrite sub_whole. cbn [mbind option_bind].
    by rewrite memcpy_Some by (cbn; lia).
  - intros size state out <- Hl. unfold podDecode. rewrite decide_False by lia.
    rewrite sub_whole. cbn [mbind option_bind]. rewrite memcpy_Some by (cbn; lia). cbn.
    by rewrite drop_ge, app_nil_r by lia.
  - intros size input out Hl. unfold podDecode. by rewrite decide_True.
  - intros p Hp. split; [by apply length_poseBytes|by apply pose_read].
Qed.

Definition demoPose : UnrealPose :=
  mkUnrealPose 2 (replicate 7 0) 4607182418800017408 1 2 3 4 5 6 7 8 1 2 (replicate 6 0).
