(* ===== verification/Json.v ===== *)
(** * JSON values

    [include/crowdy/graphql/json.hpp] and [src/graphql/json.cpp]: the accessors of a parsed
    document, big integers, the values a request is built from and their text, and MessagePack.
    The document itself is yyjson's: a value is a [Json], a number one of its three subtypes (a
    real by its 64 bits), a missing value [None]. Parsing and writing JSON text, and the ["%.17g"]
    of a double, are parameters where they are used; allocation does not fail. *)

From S2P Require Import Prelude Bytes Core.

Open Scope Z_scope.

(** ** Parsed documents *)

Inductive Json :=
| JNull | JBool (b : bool) | JUint (u : Z) | JSint (i : Z) | JReal (bits : Z) | JStr (s : bytes)
| JArr (l : list Json) | JObj (l : list (bytes * Json)).

(** A C++ [Json]: no value, or one of the document. *)
Definition View := option Json.

Definition isNull (v : View) : bool := match v with None | Some JNull => true | _ => false end.
Definition isObject (v : View) : bool := match v with Some (JObj _) => true | _ => false end.
Definition isArray (v : View) : bool := match v with Some (JArr _) => true | _ => false end.
Definition isString (v : View) : bool := match v with Some (JStr _) => true | _ => false end.
Definition isNumber (v : View) : bool :=
  match v with Some (JUint _) | Some (JSint _) | Some (JReal _) => true | _ => false end.
Definition isBool (v : View) : bool := match v with Some (JBool _) => true | _ => false end.

(** [operator[]]: the first member of that name. *)
Fixpoint member (key : bytes) (l : list (bytes * Json)) : View :=
  match l with
  | [] => None
  | (k, v) :: l => if bool_decide (k = key) then Some v else member key l
  end.
Definition field (v : View) (key : bytes) : View :=
  match v with Some (JObj l) => member key l | _ => None end.

Definition at_ (v : View) (index : nat) : View := match v with Some (JArr l) => l !! index | _ => None end.
Definition sizeOf (v : View) : nat :=
  match v with Some (JArr l) => length l | Some (JObj l) => length l | _ => 0%nat end.

(** The elements [Json::forEach] visits: it counts the members of an object too, and finds no
    element there. *)
Definition visited (v : View) : list View := at_ v <$> seq 0 (sizeOf v).

(** [memberAt], where the caller counts the members ([memberCount]). *)
Definition memberAt (v : View) (i : nat) : option (bytes * View) :=
  match v with
  | Some (JObj l) => Some (match l !! i with Some (k, v) => (k, Some v) | None => ([], None) end)
  | _ => UB
  end.

Definition elements (v : View) : list Json := match v with Some (JArr l) => l | _ => [] end.
Definition asString (v : View) (fallback : bytes) : bytes :=
  match v with Some (JStr s) => s | _ => fallback end.
Definition asBool (v : View) (fallback : bool) : bool :=
  match v with Some (JBool b) => b | _ => fallback end.

(** A double by its bits: [(-1)^s * m * 2^e]; [None] for an infinity or a NaN. *)
Definition realParts (bits : Z) : option (bool * Z * Z) :=
  let e := Z.land (Z.shiftr bits 52) 2047 in
  let m := Z.land bits (2 ^ 52 - 1) in
  if e =? 2047 then None else
  Some (Z.testbit bits 63, if e =? 0 then m else m + 2 ^ 52, Z.max e 1 - 1075).

(** Its integer part, and whether that is all of it. *)
Definition realTrunc (bits : Z) : option (Z * bool) :=
  '(s, m, e) ← realParts bits;
  let a := if 0 <=? e then m * 2 ^ e else m / 2 ^ (- e) in
  Some (if (s : bool) then - a else a, (0 <=? e) || (m `mod` 2 ^ (- e) =? 0)).

(** Converting a real out of range to an integer is undefined. *)
Definition asInt64 (v : View) (fallback : Z) : option Z :=
  match v with
  | Some (JUint u) => Some (i64 u)
  | Some (JSint i) => Some i
  | Some (JReal bits) =>
      '(t, _) ← realTrunc bits; if (- 2 ^ 63 <=? t) && (t <? 2 ^ 63) then Some t else UB
  | _ => Some fallback
  end.

(** ** Big integers *)

Definition isDigit (c : Z) : bool := (48 <=? c) && (c <=? 57).

Definition unsigned (s : bytes) : bytes := match s with 45 :: s => s | _ => s end.
Definition signed (s : bytes) : bool := match s with 45 :: _ => true | _ => false end.

Definition isDecimal (s : bytes) : bool :=
  match s with
  | [] => false
  | _ => negb (bool_decide (unsigned s = [])) && forallb isDigit (unsigned s)
  end.

(** The magnitude in 64 bits, refused before it passes [limit]. *)
Fixpoint magnitudeFrom (limit magnitude : Z) (digits : bytes) : option Z :=
  match digits with
  | [] => Some magnitude
  | c :: digits =>
      let digit := c - 48 in
      if u64 (limit - digit) / 10 <? magnitude then None
      else magnitudeFrom limit (u64 (magnitude * 10 + digit)) digits
  end.

Definition parseBigInt (s : bytes) : option Z :=
  if negb (isDecimal s) then None else
  let negative := signed s in
  let positiveLimit := 2 ^ 63 - 1 in
  let limit := if negative then positiveLimit + 1 else positiveLimit in
  magnitude ← magnitudeFrom limit 0 (unsigned s);
  Some (if negb negative then magnitude else if magnitude =? positiveLimit + 1 then - 2 ^ 63 else - magnitude).

Definition tryAsBigInt (v : View) : option Z :=
  match v with
  | Some (JStr s) => parseBigInt s
  | Some (JSint i) => Some i
  | Some (JUint u) => if 2 ^ 63 - 1 <? u then None else Some u
  | Some (JReal bits) =>
      '(t, whole) ← realTrunc bits;
      if (whole : bool) && (- 2 ^ 63 <=? t) && (t <? 2 ^ 63) then Some t else None
  | _ => None
  end.

Definition asBigInt (v : View) (fallback : Z) : Z := default fallback (tryAsBigInt v).

(** [std::to_string]. *)
Fixpoint digitsOf (fuel : nat) (n : Z) (acc : bytes) : bytes :=
  match fuel with
  | O => acc
  | S fuel => if n <? 10 then n + 48 :: acc else digitsOf fuel (n / 10) (n `mod` 10 + 48 :: acc)
  end.
Definition decimal (n : Z) : bytes :=
  if n <? 0 then 45 :: digitsOf (S (Z.to_nat (Z.log2 (- n)))) (- n) []
  else digitsOf (S (Z.to_nat (Z.log2 n))) n [].

Definition asBigIntString (v : View) (fallback : bytes) : bytes :=
  match v with
  | Some (JStr s) => if isDecimal s then s else fallback
  | Some (JSint i) => decimal i
  | Some (JUint u) => decimal u
  | _ => match tryAsBigInt v with Some n => decimal n | None => fallback end
  end.

(** ** Values of requests *)

(** [JVal]; an object is a [std::map], its members sorted by name. *)
Inductive JVal :=
| VNull | VBool (b : bool) | VInt (i : Z) | VDouble (bits : Z) | VStr (s : bytes)
| VArr (l : list JVal) | VObj (l : list (bytes * JVal)).

(** [std::less<std::string>]: octets compare as unsigned. *)
Fixpoint less (a b : bytes) : bool :=
  match a, b with
  | _, [] => false
  | [], _ :: _ => true
  | x :: a, y :: b => if x <? y then true else if y <? x then false else less a b
  end.

(** Assigning through [operator[]], on a member list. *)
Fixpoint setMember (key : bytes) (x : JVal) (l : list (bytes * JVal)) : list (bytes * JVal) :=
  match l with
  | [] => [(key, x)]
  | (k, y) :: l =>
      if bool_decide (k = key) then (k, x) :: l
      else if less key k then (key, x) :: (k, y) :: l
      else (k, y) :: setMember key x l
  end.

(** [object[key] = x]; a value that is neither null nor an object throws. *)
Definition setField (v : JVal) (key : bytes) (x : JVal) : option JVal :=
  match v with
  | VNull => Some (VObj [(key, x)])
  | VObj l => Some (VObj (setMember key x l))
  | _ => None
  end.

Definition hexDigit (n : Z) : Z := if n <? 10 then n + 48 else n + 87.

(** [appendEscaped], what is appended for one octet. *)
Definition escapeChar (c : Z) : bytes :=
  if c =? 34 then [92; 34] else if c =? 92 then [92; 92] else if c =? 8 then [92; 98]
  else if c =? 12 then [92; 102] else if c =? 10 then [92; 110] else if c =? 13 then [92; 114]
  else if c =? 9 then [92; 116]
  else if c <? 32 then [92; 117; 48; 48; hexDigit (c / 16); hexDigit (c `mod` 16)]
  else [c].
Definition appendEscaped (s : bytes) : bytes := 34 :: concat (escapeChar <$> s) ++ [34].

(** The elements with commas between. *)
Fixpoint commas (l : list bytes) : bytes :=
  match l with
  | [] => []
  | [x] => x
  | x :: l => x ++ [44] ++ commas l
  end.

Section Dump.
Context (formatDouble : Z → bytes).
Fixpoint dump (v : JVal) : bytes :=
  match v with
  | VNull => chars "null"
  | VBool b => if b then chars "true" else chars "false"
  | VInt i => decimal i
  | VDouble bits => formatDouble bits
  | VStr s => appendEscaped s
  | VArr l => [91] ++ commas (dump <$> l) ++ [93]
  | VObj l => [123] ++ commas ((λ m, appendEscaped m.1 ++ [58] ++ dump m.2) <$> l) ++ [125]
  end.
End Dump.

(** ** MessagePack, writing *)

(** [packBe]: the low [n] octets of [v], highest first. *)
Definition packBe (v : Z) (n : nat) : bytes :=
  (λ i : nat, u8 (Z.land (Z.shiftr v (8 * Z.of_nat i)) 255)) <$> reverse (seq 0 n).

Definition packUint (u : Z) : bytes :=
  if u <=? 127 then [u]
  else if u <=? 255 then 204 :: packBe u 1
  else if u <=? 65535 then 205 :: packBe u 2
  else if u <=? 4294967295 then 206 :: packBe u 4
  else 207 :: packBe u 8.

Definition packSint (i : Z) : bytes :=
  if 0 <=? i then packUint (u64 i) else
  let bits := u64 i in
  if -32 <=? i then [u8 i]
  else if -128 <=? i then 208 :: packBe bits 1
  else if -32768 <=? i then 209 :: packBe bits 2
  else if -2147483648 <=? i then 210 :: packBe bits 4
  else 211 :: packBe bits 8.

Definition packHeader (n fix_ fixMax tag16 tag32 : Z) : bytes :=
  if n <=? fixMax then [Z.lor fix_ n]
  else if n <=? 65535 then tag16 :: packBe n 2
  else tag32 :: packBe n 4.

Definition packStr (s : bytes) : bytes :=
  let len := Z.of_nat (length s) in
  (if len <=? 31 then [Z.lor 160 len]
   else if len <=? 255 then 217 :: packBe len 1
   else if len <=? 65535 then 218 :: packBe len 2
   else 219 :: packBe len 4) ++ s.

Fixpoint packVal (v : Json) : bytes :=
  match v with
  | JNull => [192]
  | JBool b => [if b then 195 else 194]
  | JUint u => packUint u
  | JSint i => packSint i
  | JReal bits => 203 :: packBe bits 8
  | JStr s => packStr s
  | JArr l => packHeader (Z.of_nat (length l)) 144 15 220 221 ++ concat (packVal <$> l)
  | JObj l => packHeader (Z.of_nat (length l)) 128 15 222 223 ++ concat ((λ m, packStr m.1 ++ packVal m.2) <$> l)
  end.

Definition toMsgpack (v : View) : bytes := match v with None => [192] | Some v => packVal v end.

(** ** MessagePack, reading *)

Definition kMaxMsgpackDepth : Z := 64.

(** A step of [Unpacker]: [None] is undefined behaviour (or the fuel is out), [Some None] is [ok]
    turned false, which every later step respects. *)
Abbreviation Parsed A := (option (option (A * bytes)%type)).
Definition refuse {A} : Parsed A := Some None.
Definition accepted {A} (a : A) (p : bytes) : Parsed A := Some (Some (a, p)).
Definition andThen {A B} (m : Parsed A) (f : A → bytes → Parsed B) : Parsed B :=
  match m with None => None | Some None => refuse | Some (Some (a, p)) => f a p end.
Notation "a ▹ p <~ m ; f" := (andThen m (λ a p, f)) (at level 20, p name, m at level 100, f at level 200, only parsing).

Definition need (n : Z) (p : bytes) : bool := n <=? Z.of_nat (length p).

(** Reading through the pointer, [n] octets. *)
Fixpoint be (n : nat) (v : Z) (p : bytes) : option (Z * bytes) :=
  match n with
  | O => Some (v, p)
  | S n => match p with [] => UB | b :: p => be n (Z.lor (u64 (Z.shiftl v 8)) b) p end
  end.

Definition sized (n : nat) (p : bytes) : Parsed Z :=
  if need (Z.of_nat n) p then r ← be n 0 p; Some (Some r) else refuse.

Definition unpackStr (len : Z) (p : bytes) : Parsed Json :=
  if need len p then s ← sub p 0 (Z.to_nat len); accepted (JStr s) (drop (Z.to_nat len) p) else refuse.

Definition unpackBin (len : Z) (p : bytes) : Parsed Json :=
  if need len p then
    s ← sub p 0 (Z.to_nat len); b64 ← base64Encode s; accepted (JStr b64) (drop (Z.to_nat len) p)
  else refuse.

Definition skipExt (len : Z) (p : bytes) : Parsed Json :=
  if need (len + 1) p then accepted JNull (drop (Z.to_nat (len + 1)) p) else refuse.

(** A [float] widened to a [double], by their bits. *)
Definition widen (bits : Z) : Z :=
  let sign := Z.shiftl (Z.shiftr bits 31) 63 in
  let e := Z.land (Z.shiftr bits 23) 255 in
  let m := Z.land bits (2 ^ 23 - 1) in
  if e =? 255 then sign + Z.shiftl 2047 52 + (if m =? 0 then 0 else Z.lor (Z.shiftl m 29) (2 ^ 51))
  else if e =? 0 then
    if m =? 0 then sign else
    let k := Z.log2 m in sign + Z.shiftl (k + 874) 52 + Z.shiftl (m - 2 ^ k) (52 - k)
  else sign + Z.shiftl (e + 896) 52 + Z.shiftl m 29.

Section Unpack.
(** [yyjson_mut_val_write], which writes a value as text. *)
Context (writeJson : Json → option bytes).

Definition keyText (k : Json) : bytes :=
  match k with JStr s => s | _ => match writeJson k with Some text => text | None => chars "null" end end.

Section Loops.
Context (value : Z → bytes → Parsed Json).
(** [arr] and [map]; every turn takes an octet or ends them, so [fuel] above the octets left is
    enough. *)
Fixpoint arr (fuel : nat) (n depth : Z) (p : bytes) : Parsed (list Json) :=
  if n =? 0 then accepted [] p else
  match fuel with
  | O => None
  | S fuel => e ▹ p <~ value (depth + 1) p; l ▹ p <~ arr fuel (n - 1) depth p; accepted (e :: l) p
  end.
Fixpoint map_ (fuel : nat) (n depth : Z) (p : bytes) : Parsed (list (bytes * Json)) :=
  if n =? 0 then accepted [] p else
  match fuel with
  | O => None
  | S fuel =>
      k ▹ p <~ value (depth + 1) p; v ▹ p <~ value (depth + 1) p;
      l ▹ p <~ map_ fuel (n - 1) depth p; accepted ((keyText k, v) :: l) p
  end.

(** The value whose first octet is [t]. *)
Definition tagged (fuel : nat) (depth t : Z) (p : bytes) : Parsed Json :=
  let array n p := l ▹ p <~ arr fuel n depth p; accepted (JArr l) p in
  let object n p := l ▹ p <~ map_ fuel n depth p; accepted (JObj l) p in
  let uint n := v ▹ p <~ sized n p; accepted (JUint v) p in
  let sint n := v ▹ p <~ sized n p; accepted (JSint (wrapS (8 * Z.of_nat n) v)) p in
  let withSize n (f : Z → bytes → Parsed Json) := len ▹ p <~ sized n p; f len p in
  if t <=? 127 then accepted (JUint t) p
  else if 224 <=? t then accepted (JSint (wrapS 8 t)) p
  else if Z.land t 224 =? 160 then unpackStr (Z.land t 31) p
  else if Z.land t 240 =? 144 then array (Z.land t 15) p
  else if Z.land t 240 =? 128 then object (Z.land t 15) p
  else if t =? 192 then accepted JNull p
  else if t =? 194 then accepted (JBool false) p
  else if t =? 195 then accepted (JBool true) p
  else if t =? 196 then withSize 1%nat unpackBin
  else if t =? 197 then withSize 2%nat unpackBin
  else if t =? 198 then withSize 4%nat unpackBin
  else if t =? 199 then withSize 1%nat skipExt
  else if t =? 200 then withSize 2%nat skipExt
  else if t =? 201 then withSize 4%nat skipExt
  else if t =? 202 then v ▹ p <~ sized 4 p; accepted (JReal (widen (u32 v))) p
  else if t =? 203 then v ▹ p <~ sized 8 p; accepted (JReal v) p
  else if t =? 204 then uint 1%nat
  else if t =? 205 then uint 2%nat
  else if t =? 206 then uint 4%nat
  else if t =? 207 then uint 8%nat
  else if t =? 208 then sint 1%nat
  else if t =? 209 then sint 2%nat
  else if t =? 210 then sint 4%nat
  else if t =? 211 then sint 8%nat
  else if t =? 212 then skipExt 1 p
  else if t =? 213 then skipExt 2 p
  else if t =? 214 then skipExt 4 p
  else if t =? 215 then skipExt 8 p
  else if t =? 216 then skipExt 16 p
  else if t =? 217 then withSize 1%nat unpackStr
  else if t =? 218 then withSize 2%nat unpackStr
  else if t =? 219 then withSize 4%nat unpackStr
  else if t =? 220 then withSize 2%nat array
  else if t =? 221 then withSize 4%nat array
  else if t =? 222 then withSize 2%nat object
  else if t =? 223 then withSize 4%nat object
  else refuse.
End Loops.

(** [Unpacker::value]. *)
Fixpoint unpackValue (fuel : nat) (depth : Z) (p : bytes) : Parsed Json :=
  match fuel with
  | O => None
  | S fuel =>
      if (kMaxMsgpackDepth <? depth) || negb (need 1 p) then refuse else
      match p with
      | [] => UB
      | t :: p => tagged (unpackValue fuel) fuel depth t p
      end
  end.

(** One value and nothing after it; [None] is undefined behaviour. *)
Definition fromMsgpack (input : bytes) : option View :=
  r ← unpackValue (S (length input)) 0 input;
  Some (match r with Some (v, []) => Some v | _ => None end).
End Unpack.

(** ** MessagePack round trip *)

Section JsonInd.
Context (P : Json → Prop)
  (Hnull : P JNull) (Hbool : ∀ b, P (JBool b)) (Huint : ∀ u, P (JUint u)) (Hsint : ∀ i, P (JSint i))
  (Hreal : ∀ bits, P (JReal bits)) (Hstr : ∀ s, P (JStr s))
  (Harr : ∀ l, Forall P l → P (JArr l)) (Hobj : ∀ l, Forall (λ m, P m.2) l → P (JObj l)).
Fixpoint Json_nested (v : Json) : P v.
Proof.
  refine (match v with
  | JNull => Hnull | JBool b => Hbool b | JUint u => Huint u | JSint i => Hsint i
  | JReal bits => Hreal bits | JStr s => Hstr s | JArr l => Harr l _ | JObj l => Hobj l _
  end).
  - induction l as [|x l IH]; [constructor|constructor; [apply Json_nested|exact IH]].
  - induction l as [|m l IH]; [constructor|constructor; [apply Json_nested|exact IH]].
Qed.
End JsonInd.

(** Sizes that MessagePack's 32-bit lengths can carry. *)
Definition sized32 (n : nat) : Prop := Z.of_nat n < 2 ^ 32.

(** The values yyjson holds: numbers in their 64 bits, a negative [JSint]. *)
Fixpoint json_ok (v : Json) : Prop :=
  match v with
  | JNull | JBool _ => True
  | JUint u => in_u 64 u
  | JSint i => in_s 64 i ∧ i < 0
  | JReal bits => in_u 64 bits
  | JStr s => sized32 (length s)
  | JArr l => sized32 (length l) ∧ foldr (λ x P, json_ok x ∧ P) True l
  | JObj l => sized32 (length l) ∧ foldr (λ m P, (sized32 (length m.1) ∧ json_ok m.2) ∧ P) True l
  end.

(** How deep a value nests. *)
Fixpoint height (v : Json) : Z :=
  match v with
  | JArr l => foldr (λ x h, Z.max (1 + height x) h) 0 l
  | JObj l => foldr (λ m h, Z.max (1 + height m.2) h) 0 l
  | _ => 0
  end.

Lemma height_nonneg v : 0 ≤ height v.
Proof.
  destruct v as [| | | | | |l|l]; cbn [height]; try lia; induction l as [|x l IH]; cbn [foldr]; lia.
Qed.

Lemma packBe_octets v n : packBe v n = reverse (le.octets n v).
Proof. unfold packBe, le.octets. by rewrite fmap_reverse. Qed.

Lemma length_packBe v n : length (packBe v n) = n.
Proof. by rewrite packBe_octets, length_reverse, le.length_octets. Qed.

Lemma be_value n v p rest :
  length p = n → be n v (p ++ rest) = Some (foldl (λ v b, Z.lor (u64 (Z.shiftl v 8)) b) v p, rest).
Proof.
  revert v p. induction n as [|n IH]; intros v p Hl; destruct p as [|b p]; try done. cbn [be app foldl].
  apply IH. by injection Hl.
Qed.

(** The octets that [packBe] writes, read back. *)
Lemma be_octets n v :
  (n ≤ 8)%nat → foldr (λ b v, Z.lor (u64 (Z.shiftl v 8)) b) 0 (le.octets n v) = v `mod` 2 ^ (8 * Z.of_nat n).
Proof.
  revert v. induction n as [|n IH]; intros v Hn; [by rewrite Z.mod_1_r|].
  rewrite le.octets_S. cbn [foldr]. rewrite IH, le.octet_mod, Z.shiftr_div_pow2 by lia. change (2 ^ 8) with 256.
  pose proof (Z.mod_pos_bound (v / 256) (2 ^ (8 * Z.of_nat n)) ltac:(apply pow2_pos; lia)) as Hb.
  assert (2 ^ (8 * Z.of_nat n) ≤ 2 ^ 56) as Hp by (apply Z.pow_le_mono_r; lia).
  rewrite wrapU_id.
  2: { rewrite Z.shiftl_mul_pow2 by lia. split; [lia|]. change (2 ^ 64) with (2 ^ 56 * 2 ^ 8). nia. }
  rewrite le.lor_shift_add by (apply Z.mod_pos_bound; lia).
  replace (8 * Z.of_nat (S n)) with (8 + 8 * Z.of_nat n) by lia.
  rewrite Z.pow_add_r by lia. change (2 ^ 8) with 256.
  rewrite Z.rem_mul_r by (try apply Z.pow_nonzero; lia). lia.
Qed.

Lemma foldl_of_reverse {A B} (f : B → A → B) b l : foldl f b (reverse l) = foldr (λ x b, f b x) b l.
Proof. induction l as [|x l IH]; [done|]. by rewrite reverse_cons, foldl_app, IH. Qed.

Lemma sized_packBe n v rest :
  (n ≤ 8)%nat → sized n (packBe v n ++ rest) = accepted (v `mod` 2 ^ (8 * Z.of_nat n)) rest.
Proof.
  intros Hn. unfold sized, need. rewrite length_app, length_packBe, (proj2 (Z.leb_le _ _)) by lia.
  rewrite be_value by apply length_packBe. by rewrite packBe_octets, foldl_of_reverse, be_octets.
Qed.

Lemma sized_small n v rest :
  (n ≤ 8)%nat → 0 ≤ v < 2 ^ (8 * Z.of_nat n) → sized n (packBe v n ++ rest) = accepted v rest.
Proof. intros Hn Hv. by rewrite sized_packBe, Z.mod_small. Qed.

Section RoundTrip.
Context (writeJson : Json → option bytes).
Abbreviation readValue := (unpackValue writeJson).

Lemma unpackValue_tag fuel depth t p :
  depth ≤ 64 → readValue (S fuel) depth (t :: p) = tagged writeJson (readValue fuel) fuel depth t p.
Proof.
  intros Hd. cbn [unpackValue]. unfold kMaxMsgpackDepth. rewrite (proj2 (Z.ltb_ge 64 depth)) by lia.
  unfold need. rewrite (proj2 (Z.leb_le 1 _)) by (simpl; lia). done.
Qed.

(** A claim about all numbers below a bound, checked one by one. *)
Lemma below_check (n : nat) (f : Z → bool) :
  forallb f (Z.of_nat <$> seq 0 n) = true → ∀ k, 0 ≤ k < Z.of_nat n → f k = true.
Proof.
  intros Hf k Hk. rewrite forallb_forall in Hf. apply Hf.
  apply list_elem_of_In, list_elem_of_fmap. exists (Z.to_nat k). split; [lia|]. apply elem_of_seq. lia.
Qed.

Lemma short_str len : 0 ≤ len ≤ 31 →
  (Z.lor 160 len <=? 127) = false ∧ (224 <=? Z.lor 160 len) = false ∧ (Z.land (Z.lor 160 len) 224 =? 160) = true ∧
  Z.land (Z.lor 160 len) 31 = len.
Proof.
  intros Hl. pose proof (below_check 32 (λ len, negb (Z.lor 160 len <=? 127) && negb (224 <=? Z.lor 160 len) &&
    (Z.land (Z.lor 160 len) 224 =? 160) && (Z.land (Z.lor 160 len) 31 =? len)) ltac:(vm_compute; done) len ltac:(lia)) as E.
  repeat (apply andb_prop in E as [E ?]). repeat split; try (by apply negb_true_iff); [done|by apply Z.eqb_eq].
Qed.

Lemma short_arr len : 0 ≤ len ≤ 15 →
  (Z.lor 144 len <=? 127) = false ∧ (224 <=? Z.lor 144 len) = false ∧ (Z.land (Z.lor 144 len) 224 =? 160) = false ∧
  (Z.land (Z.lor 144 len) 240 =? 144) = true ∧ Z.land (Z.lor 144 len) 15 = len.
Proof.
  intros Hl. pose proof (below_check 16 (λ len, negb (Z.lor 144 len <=? 127) && negb (224 <=? Z.lor 144 len) &&
    negb (Z.land (Z.lor 144 len) 224 =? 160) && (Z.land (Z.lor 144 len) 240 =? 144) &&
    (Z.land (Z.lor 144 len) 15 =? len)) ltac:(vm_compute; done) len ltac:(lia)) as E.
  repeat (apply andb_prop in E as [E ?]). repeat split; try (by apply negb_true_iff); [done|by apply Z.eqb_eq].
Qed.

Lemma short_map len : 0 ≤ len ≤ 15 →
  (Z.lor 128 len <=? 127) = false ∧ (224 <=? Z.lor 128 len) = false ∧ (Z.land (Z.lor 128 len) 224 =? 160) = false ∧
  (Z.land (Z.lor 128 len) 240 =? 144) = false ∧ (Z.land (Z.lor 128 len) 240 =? 128) = true ∧
  Z.land (Z.lor 128 len) 15 = len.
Proof.
  intros Hl. pose proof (below_check 16 (λ len, negb (Z.lor 128 len <=? 127) && negb (224 <=? Z.lor 128 len) &&
    negb (Z.land (Z.lor 128 len) 224 =? 160) && negb (Z.land (Z.lor 128 len) 240 =? 144) &&
    (Z.land (Z.lor 128 len) 240 =? 128) && (Z.land (Z.lor 128 len) 15 =? len)) ltac:(vm_compute; done) len ltac:(lia)) as E.
  repeat (apply andb_prop in E as [E ?]). repeat split; try (by apply negb_true_iff); [done|by apply Z.eqb_eq].
Qed.

Lemma unpackStr_here s rest : unpackStr (Z.of_nat (length s)) (s ++ rest) = accepted (JStr s) rest.
Proof.
  unfold unpackStr, need. rewrite length_app, (proj2 (Z.leb_le _ _)), Nat2Z.id, sub_first, drop_app_length by (done || lia).
  done.
Qed.

Lemma unpack_str fuel depth s rest :
  depth ≤ 64 → sized32 (length s) → readValue (S fuel) depth (packStr s ++ rest) = accepted (JStr s) rest.
Proof.
  intros Hd Hs. unfold packStr, sized32 in *. rewrite <- app_assoc.
  destruct (Z.leb_spec (Z.of_nat (length s)) 31).
  { cbn [app]. rewrite unpackValue_tag by done. unfold tagged.
    destruct (short_str (Z.of_nat (length s))) as (->&->&->&->); [lia|]. apply unpackStr_here. }
  destruct (Z.leb_spec (Z.of_nat (length s)) 255); [|destruct (Z.leb_spec (Z.of_nat (length s)) 65535)];
    cbn [app]; rewrite unpackValue_tag by done; cbn -[packBe sized unpackStr]; rewrite sized_small by lia;
    apply unpackStr_here.
Qed.

Lemma unpack_uint fuel depth u rest :
  depth ≤ 64 → in_u 64 u → readValue (S fuel) depth (packUint u ++ rest) = accepted (JUint u) rest.
Proof.
  intros Hd [H0 Hu]. unfold packUint. destruct (Z.leb_spec u 127) as [Hs|Hs].
  { cbn [app]. rewrite unpackValue_tag by done. unfold tagged. by rewrite (proj2 (Z.leb_le _ _)). }
  destruct (Z.leb_spec u 255); [|destruct (Z.leb_spec u 65535); [|destruct (Z.leb_spec u 4294967295)]];
    cbn [app]; rewrite unpackValue_tag by done; cbn -[packBe sized]; by rewrite sized_small by lia.
Qed.

(** A negative number in the low octets of its 64 bits. *)
Lemma sized_signed n i rest :
  (1 ≤ n ≤ 8)%nat → in_s (8 * Z.of_nat n) i →
  (v ▹ p <~ sized n (packBe (u64 i) n ++ rest); accepted (JSint (wrapS (8 * Z.of_nat n) v)) p) =
    accepted (JSint i) rest.
Proof.
  intros Hn Hi. rewrite sized_packBe by lia. unfold accepted. cbn [andThen].
  assert (u64 i `mod` 2 ^ (8 * Z.of_nat n) = wrapU (8 * Z.of_nat n) i) as ->.
  { apply Z.mod_mod_divide. exists (2 ^ (64 - 8 * Z.of_nat n)). rewrite <- Z.pow_add_r by lia. f_equal. lia. }
  by rewrite wrapS_wrapU, wrapS_id by (done || lia).
Qed.

Lemma unpack_sint fuel depth i rest :
  depth ≤ 64 → in_s 64 i → i < 0 → readValue (S fuel) depth (packSint i ++ rest) = accepted (JSint i) rest.
Proof.
  intros Hd Hi Hneg. unfold packSint. rewrite (proj2 (Z.leb_gt 0 i)) by done.
  destruct (Z.leb_spec (-32) i) as [Hs|Hs].
  { cbn [app]. rewrite unpackValue_tag by done. unfold tagged.
    assert (u8 i = i + 256) as E by (unfold wrapU; symmetry; apply (Z.mod_unique_pos _ _ (-1)); lia).
    rewrite (proj2 (Z.leb_gt _ 127)), (proj2 (Z.leb_le 224 _)) by lia.
    rewrite wrapS_wrapU, wrapS_id by (done || lia || (unfold in_s; lia)). done. }
  destruct (Z.leb_spec (-128) i); [|destruct (Z.leb_spec (-32768) i); [|destruct (Z.leb_spec (-2147483648) i)]];
    cbn [app]; rewrite unpackValue_tag by done; cbn -[packBe sized Z.mul]; apply sized_signed; try lia; try done;
    unfold in_s; simpl; lia.
Qed.

Lemma unpack_arr fuel depth n rest :
  depth ≤ 64 → sized32 n →
  readValue (S fuel) depth (packHeader (Z.of_nat n) 144 15 220 221 ++ rest) =
    l ▹ p <~ arr (readValue fuel) fuel (Z.of_nat n) depth rest; accepted (JArr l) p.
Proof.
  intros Hd Hn. unfold packHeader, sized32 in *. destruct (Z.leb_spec (Z.of_nat n) 15).
  { cbn [app]. rewrite unpackValue_tag by done. unfold tagged. by destruct (short_arr (Z.of_nat n)) as (->&->&->&->&->); [lia|]. }
  destruct (Z.leb_spec (Z.of_nat n) 65535); cbn [app]; rewrite unpackValue_tag by done; cbn -[packBe sized arr];
    by rewrite sized_small by lia.
Qed.

Lemma unpack_map fuel depth n rest :
  depth ≤ 64 → sized32 n →
  readValue (S fuel) depth (packHeader (Z.of_nat n) 128 15 222 223 ++ rest) =
    l ▹ p <~ map_ writeJson (readValue fuel) fuel (Z.of_nat n) depth rest; accepted (JObj l) p.
Proof.
  intros Hd Hn. unfold packHeader, sized32 in *. destruct (Z.leb_spec (Z.of_nat n) 15).
  { cbn [app]. rewrite unpackValue_tag by done. unfold tagged.
    by destruct (short_map (Z.of_nat n)) as (->&->&->&->&->&->); [lia|]. }
  destruct (Z.leb_spec (Z.of_nat n) 65535); cbn [app]; rewrite unpackValue_tag by done; cbn -[packBe sized map_];
    by rewrite sized_small by lia.
Qed.

(** Every packed value is at least one octet long. *)
Lemma packUint_nonempty u : (1 ≤ length (packUint u))%nat.
Proof. unfold packUint. repeat case_match; simpl; lia. Qed.
Lemma packHeader_nonempty n a b c d : (1 ≤ length (packHeader n a b c d))%nat.
Proof. unfold packHeader. repeat case_match; simpl; lia. Qed.
Lemma packVal_nonempty v : (1 ≤ length (packVal v))%nat.
Proof.
  destruct v; cbn [packVal]; rewrite ?length_app; try (simpl; lia).
  - apply packUint_nonempty.
  - unfold packSint. repeat case_match; simpl; try lia. apply packUint_nonempty.
  - unfold packStr. rewrite length_app. repeat case_match; simpl; lia.
  - pose proof (packHeader_nonempty (Z.of_nat (length l)) 144 15 220 221). lia.
  - pose proof (packHeader_nonempty (Z.of_nat (length l)) 128 15 222 223). lia.
Qed.

(** Reading back one value, whatever follows it. *)
Definition reads_back (v : Json) : Prop :=
  ∀ fuel depth rest, json_ok v → depth + height v ≤ 64 → (length (packVal v ++ rest) < fuel)%nat →
    readValue fuel depth (packVal v ++ rest) = accepted v rest.

Lemma arr_back l fuel fuel' depth rest :
  Forall reads_back l → foldr (λ x P, json_ok x ∧ P) True l → depth + foldr (λ x h, Z.max (1 + height x) h) 0 l ≤ 64 →
  (length (concat (packVal <$> l) ++ rest) < fuel)%nat → (length (concat (packVal <$> l) ++ rest) < fuel')%nat →
  arr (readValue fuel) fuel' (Z.of_nat (length l)) depth (concat (packVal <$> l) ++ rest) = accepted l rest.
Proof.
  intros Hl. revert fuel'. induction Hl as [|x l Hx Hl IH]; intros fuel' Hok Hh Hf Hf'; [by destruct fuel'|].
  rewrite fmap_cons in *. cbn [concat foldr length] in *. rewrite <- app_assoc in *.
  destruct Hok as [Hox Hok]. pose proof (packVal_nonempty x). rewrite length_app in Hf, Hf'.
  destruct fuel' as [|fuel']; [lia|]. cbn [arr]. rewrite (proj2 (Z.eqb_neq _ 0)) by lia.
  rewrite Hx by (done || lia || (rewrite !length_app in *; lia)). unfold accepted at 1. cbn [andThen].
  replace (Z.of_nat (S (length l)) - 1) with (Z.of_nat (length l)) by lia.
  rewrite IH by (done || lia || (rewrite !length_app in *; lia)). done.
Qed.

Lemma map_back l fuel fuel' depth rest :
  Forall (λ m, reads_back m.2) l → foldr (λ m P, (sized32 (length m.1) ∧ json_ok m.2) ∧ P) True l →
  depth + foldr (λ m h, Z.max (1 + height m.2) h) 0 l ≤ 64 →
  let packed := concat ((λ m, packStr m.1 ++ packVal m.2) <$> l) in
  (length (packed ++ rest) < fuel)%nat → (length (packed ++ rest) < fuel')%nat →
  map_ writeJson (readValue fuel) fuel' (Z.of_nat (length l)) depth (packed ++ rest) = accepted l rest.
Proof.
  cbv zeta. intros Hl. revert fuel'. induction Hl as [|[k x] l Hx Hl IH]; intros fuel' Hok Hh Hf Hf'; [by destruct fuel'|].
  rewrite fmap_cons in *. cbn [concat foldr length fst snd] in *. rewrite <- !app_assoc in *.
  destruct Hok as [[Hk Hox] Hok]. pose proof (packVal_nonempty x). pose proof (packVal_nonempty (JStr k)) as Hk1.
  cbn [packVal] in Hk1. rewrite !length_app in Hf, Hf'. pose proof (height_nonneg x).
  destruct fuel' as [|fuel']; [lia|]. destruct fuel as [|fuel]; [lia|]. cbn [map_]. rewrite (proj2 (Z.eqb_neq _ 0)) by lia.
  rewrite unpack_str by (done || lia). unfold accepted at 1. cbn [andThen].
  rewrite Hx by (done || lia || (rewrite !length_app in *; lia)). unfold accepted at 1. cbn [andThen].
  replace (Z.of_nat (S (length l)) - 1) with (Z.of_nat (length l)) by lia.
  rewrite IH by (done || lia || (rewrite !length_app in *; lia)). done.
Qed.

Lemma unpack_pack v : reads_back v.
Proof.
  induction v as [|b|u|i|bits|s|l IH|l IH] using Json_nested; intros fuel depth rest Hok Hh Hf;
    (destruct fuel as [|fuel]; [lia|]); cbn [packVal json_ok height] in *.
  - cbn [app]. by rewrite unpackValue_tag by lia.
  - cbn [app]. rewrite unpackValue_tag by lia. by destruct b.
  - apply unpack_uint; [lia|done].
  - destruct Hok. apply unpack_sint; [lia|done..].
  - cbn [app]. rewrite unpackValue_tag by lia. cbn -[packBe sized]. rewrite sized_small by (lia || apply Hok). done.
  - apply unpack_str; [lia|done].
  - destruct Hok as [Hn Hok]. pose proof (packHeader_nonempty (Z.of_nat (length l)) 144 15 220 221).
    rewrite <- app_assoc in *. rewrite length_app in Hf. 
    assert (0 ≤ foldr (λ x h, Z.max (1 + height x) h) 0 l) by apply (height_nonneg (JArr l)).
    rewrite unpack_arr by (done || lia). rewrite arr_back by (done || lia). done.
  - destruct Hok as [Hn Hok]. pose proof (packHeader_nonempty (Z.of_nat (length l)) 128 15 222 223).
    rewrite <- app_assoc in *. rewrite length_app in Hf.
    assert (0 ≤ foldr (λ m h, Z.max (1 + height m.2) h) 0 l) by apply (height_nonneg (JObj l)).
    rewrite unpack_map by (done || lia). rewrite map_back by (done || lia). done.
Qed.

End RoundTrip.

(** ** MessagePack safety *)

Lemma sextet_kStd n shift : is_Some (sextet kStd n shift).
Proof.
  unfold sextet. apply lookup_lt_is_Some_2. change (length kStd) with 64%nat.
  change 63 with (Z.ones 6). rewrite Z.land_ones by lia. change (2 ^ 6) with 64. pose proof (Z.mod_pos_bound (Z.shiftr n shift) 64). lia.
Qed.

Lemma base64Encode_defined s : is_Some (base64Encode s).
Proof.
  unfold base64Encode. remember (length s) as n eqn:Hn. assert (length s ≤ n)%nat as Hl by lia. clear Hn. revert s Hl.
  induction n as [|n IH]; intros [|a [|b [|c s]]] Hl; cbn [encodeWith length] in *; try done; try lia;
    repeat match goal with |- context [sextet kStd ?x ?y] => destruct (sextet_kStd x y) as [? ->] end;
    cbn [mbind option_bind]; try done.
  destruct (IH s) as [? ->]; [lia|done].
Qed.

(** What a read leaves: not undefined, fewer than [n] octets, within the depth allowed. *)
Definition safe {A} (h : A → Z) (depth : Z) (n : nat) (m : Parsed A) : Prop :=
  match m with
  | None => False
  | Some None => True
  | Some (Some (v, r)) => depth + h v ≤ 64 ∧ (length r < n)%nat
  end.

Lemma andThen_safe {A B} (hA : A → Z) (hB : B → Z) dA dB n n' (m : Parsed A) (f : A → bytes → Parsed B) :
  safe hA dA n m → (∀ a p, dA + hA a ≤ 64 → (length p < n)%nat → safe hB dB n' (f a p)) → safe hB dB n' (andThen m f).
Proof. destruct m as [[[a p]|]|]; cbn; [|done..]. intros [??] Hf. by apply Hf. Qed.

Lemma be_defined n v p : (n ≤ length p)%nat → ∃ r, be n v p = Some (r, drop n p).
Proof.
  revert v p. induction n as [|n IH]; intros v p Hl; [by eexists|].
  destruct p as [|b p]; simpl in Hl; [lia|]. cbn [be drop]. apply IH. lia.
Qed.

Lemma sized_safe depth n k p : depth ≤ 64 → (length p < k)%nat → safe (λ _, 0) depth k (sized n p).
Proof.
  intros Hd Hk. unfold sized, need. destruct (Z.leb_spec (Z.of_nat n) (Z.of_nat (length p))); [|done].
  destruct (be_defined n 0 p) as [r ->]; [lia|]. cbn. rewrite length_drop. lia.
Qed.

Lemma scalar_safe v depth n p :
  height v = 0 → depth ≤ 64 → (length p < n)%nat → safe height depth n (accepted v p).
Proof. intros Hv ??. cbn. lia. Qed.

Lemma unpackStr_safe len depth n p : depth ≤ 64 → (length p < n)%nat → safe height depth n (unpackStr len p).
Proof.
  intros Hd Hn. unfold unpackStr, need. destruct (Z.leb_spec len (Z.of_nat (length p))); [|done].
  rewrite sub_Some by lia. apply scalar_safe; [done|done|]. rewrite length_drop. lia.
Qed.

Lemma unpackBin_safe len depth n p : depth ≤ 64 → (length p < n)%nat → safe height depth n (unpackBin len p).
Proof.
  intros Hd Hn. unfold unpackBin, need. destruct (Z.leb_spec len (Z.of_nat (length p))); [|done].
  rewrite sub_Some by lia. cbn [mbind option_bind]. destruct (base64Encode_defined (take (Z.to_nat len) (drop 0 p))) as [t ->].
  apply scalar_safe; [done|done|]. rewrite length_drop. lia.
Qed.

Lemma skipExt_safe len depth n p : depth ≤ 64 → (length p < n)%nat → safe height depth n (skipExt len p).
Proof.
  intros Hd Hn. unfold skipExt. destruct (need _ _); [|done]. apply scalar_safe; [done|done|]. rewrite length_drop. lia.
Qed.

Section Nested.
Context (writeJson : Json → option bytes) (value : Z → bytes → Parsed Json) (bound : nat).
Context (Hvalue : ∀ depth p, (length p < bound)%nat → safe height depth (length p) (value depth p)).

Lemma arr_safe fuel n depth p k :
  depth ≤ 64 → (length p < bound)%nat → (length p < fuel)%nat → (length p < k)%nat →
  safe (λ l, height (JArr l)) depth k (arr value fuel n depth p).
Proof.
  revert n p k. induction fuel as [|fuel IH]; intros n p k Hd Hb Hf Hk; [lia|]. cbn [arr].
  destruct (n =? 0); [cbn; lia|].
  eapply (andThen_safe height); [by apply Hvalue|]. intros e p1 He Hp1.
  eapply (andThen_safe (λ l, height (JArr l))); [apply (IH _ p1 k); lia|]. intros l p2 Hl Hp2.
  cbn in *. lia.
Qed.

Lemma map_safe fuel n depth p k :
  depth ≤ 64 → (length p < bound)%nat → (length p < fuel)%nat → (length p < k)%nat →
  safe (λ l, height (JObj l)) depth k (map_ writeJson value fuel n depth p).
Proof.
  revert n p k. induction fuel as [|fuel IH]; intros n p k Hd Hb Hf Hk; [lia|]. cbn [map_].
  destruct (n =? 0); [cbn; lia|].
  eapply (andThen_safe height); [by apply Hvalue|]. intros e p1 He Hp1.
  eapply (andThen_safe height); [apply Hvalue; lia|]. intros v p2 Hv Hp2.
  eapply (andThen_safe (λ l, height (JObj l))); [apply (IH _ p2 k); lia|]. intros l p3 Hl Hp3.
  cbn in *. lia.
Qed.

Lemma tagged_safe fuel depth t p k :
  depth ≤ 64 → (length p < bound)%nat → (length p < fuel)%nat → (length p < k)%nat →
  safe height depth k (tagged writeJson value fuel depth t p).
Proof.
  intros Hd Hb Hf Hk. unfold tagged.
  assert (∀ n (f : Z → bytes → Parsed Json),
    (∀ len p', (length p' < S (length p))%nat → safe height depth k (f len p')) →
    safe height depth k (len ▹ p <~ sized n p; f len p)) as Hsize.
  { intros n f Hf'. eapply andThen_safe; [by apply (sized_safe depth n (S (length p))); [|lia]|]. intros len p' _ Hp'. by apply Hf'. }
  assert (∀ n p', (length p' < S (length p))%nat →
    safe height depth k (l ▹ p <~ arr value fuel n depth p'; accepted (JArr l) p)) as Harr.
  { intros n p' Hp'. eapply andThen_safe; [apply (arr_safe fuel n depth p' k); lia|]. intros l p'' Hl Hp''. cbn in *. lia. }
  assert (∀ n p', (length p' < S (length p))%nat →
    safe height depth k (l ▹ p <~ map_ writeJson value fuel n depth p'; accepted (JObj l) p)) as Hmap.
  { intros n p' Hp'. eapply andThen_safe; [apply (map_safe fuel n depth p' k); lia|]. intros l p'' Hl Hp''. cbn in *. lia. }
  repeat case_match; try (apply Hsize; intros len p' Hp');
    first [done | by apply Harr; lia | by apply Hmap; lia | apply unpackStr_safe; lia | apply unpackBin_safe; lia
          | apply skipExt_safe; lia | apply scalar_safe; [done|done|lia] ].
Qed.
End Nested.

Lemma unpackValue_safe writeJson fuel depth p :
  (length p < fuel)%nat → safe height depth (length p) (unpackValue writeJson fuel depth p).
Proof.
  revert depth p. induction fuel as [|fuel IH]; intros depth p Hf; [lia|]. cbn [unpackValue].
  unfold kMaxMsgpackDepth, need. destruct (Z.ltb_spec 64 depth); [done|]. destruct p as [|t p]; [done|].
  rewrite (proj2 (Z.leb_le 1 _)) by (simpl; lia). cbn [orb negb length].
  apply (tagged_safe writeJson _ fuel); [intros; apply IH; lia|lia|simpl in Hf; lia|simpl in Hf; lia|lia].
Qed.

(** ** Guarantees of MessagePack *)

(** C18. Every value whose lengths fit in 32 bits and that nests at most 64 deep is read back as it
    was packed, and refused with anything after it. *)
Theorem msgpack_roundtrip writeJson v :
  json_ok v → height v ≤ 64 →
  fromMsgpack writeJson (toMsgpack (Some v)) = Some (Some v) ∧
  ∀ rest, rest ≠ [] → fromMsgpack writeJson (toMsgpack (Some v) ++ rest) = Some None.
Proof.
  intros Hok Hh. unfold fromMsgpack, toMsgpack. split.
  - rewrite <- (app_nil_r (packVal v)) at 2. rewrite unpack_pack by (done || (rewrite app_nil_r; lia)). done.
  - intros rest Hr. rewrite unpack_pack by (done || lia). cbn. by destruct rest.
Qed.

(** The decoder is safe on every input: it reads only inside it, ends, and what it accepts
    nests at most 64 deep. *)
Theorem fromMsgpack_safe writeJson input :
  ∃ v, fromMsgpack writeJson input = Some v ∧ ∀ x, v = Some x → height x ≤ 64.
Proof.
  pose proof (unpackValue_safe writeJson (S (length input)) 0 input ltac:(lia)) as Hs. unfold fromMsgpack.
  destruct (unpackValue writeJson (S (length input)) 0 input) as [[[v r]|]|]; [|by exists None|done].
  cbn in Hs. destruct r as [|b r]; cbn; [exists (Some v)|exists None]; (split; [done|]); [|done].
  intros x [= <-]. lia.
Qed.

(** ** Big integers, exactly *)

(** The number a decimal text denotes. *)
Definition digitsValue (v : Z) (digits : bytes) : Z := foldl (λ v c, 10 * v + (c - 48)) v digits.
Definition decimalValue (s : bytes) : Z :=
  if signed s then - digitsValue 0 (unsigned s) else digitsValue 0 (unsigned s).

Lemma isDigit_iff c : isDigit c = true ↔ 48 ≤ c ≤ 57.
Proof. unfold isDigit. rewrite andb_true_iff, !Z.leb_le. lia. Qed.

Lemma digitsValue_ge v digits : 0 ≤ v → forallb isDigit digits = true → v ≤ digitsValue v digits.
Proof.
  revert v. induction digits as [|c digits IH]; intros v Hv Hd; [cbn; lia|].
  cbn in Hd. apply andb_prop in Hd as [Hc%isDigit_iff Hd]. cbn [digitsValue foldl].
  specialize (IH (10 * v + (c - 48)) ltac:(lia) Hd). unfold digitsValue in IH. lia.
Qed.

Lemma magnitudeFrom_spec limit v digits :
  9 ≤ limit ≤ 2 ^ 63 → 0 ≤ v ≤ limit → forallb isDigit digits = true →
  magnitudeFrom limit v digits = if digitsValue v digits <=? limit then Some (digitsValue v digits) else None.
Proof.
  intros Hl. revert v. induction digits as [|c digits IH]; intros v Hv Hd.
  { cbn. by rewrite (proj2 (Z.leb_le _ _)) by lia. }
  cbn in Hd. apply andb_prop in Hd as [Hc%isDigit_iff Hd]. cbn [magnitudeFrom].
  rewrite (wrapU_id 64 (limit - _)) by (unfold in_u; lia).
  change (digitsValue v (c :: digits)) with (digitsValue (10 * v + (c - 48)) digits).
  destruct (Z.ltb_spec ((limit - (c - 48)) / 10) v) as [Hgt|Hle].
  - assert (limit < 10 * v + (c - 48)) by (Z.div_mod_to_equations; lia).
    pose proof (digitsValue_ge (10 * v + (c - 48)) digits ltac:(lia) Hd).
    by rewrite (proj2 (Z.leb_gt _ _)) by lia.
  - assert (10 * v + (c - 48) ≤ limit) by (Z.div_mod_to_equations; lia).
    rewrite wrapU_id by (unfold in_u; lia). replace (v * 10 + (c - 48)) with (10 * v + (c - 48)) by lia.
    by apply IH; [lia|].
Qed.

Lemma isDecimal_digits s : isDecimal s = true → forallb isDigit (unsigned s) = true.
Proof. destruct s; [done|]. unfold isDecimal. intros [_ ?]%andb_prop. done. Qed.

Lemma parseBigInt_spec s :
  parseBigInt s = if isDecimal s && bool_decide (in_s 64 (decimalValue s)) then Some (decimalValue s) else None.
Proof.
  unfold parseBigInt. destruct (isDecimal s) eqn:Hs; [|done]. apply isDecimal_digits in Hs. cbn [negb andb].
  unfold decimalValue. pose proof (digitsValue_ge 0 (unsigned s) ltac:(lia) Hs).
  destruct (signed s); rewrite magnitudeFrom_spec by (done || lia).
  - destruct (Z.leb_spec (digitsValue 0 (unsigned s)) (2 ^ 63 - 1 + 1)).
    + rewrite bool_decide_true by (unfold in_s; lia). cbn [mbind option_bind negb].
      destruct (Z.eqb_spec (digitsValue 0 (unsigned s)) (2 ^ 63 - 1 + 1)) as [E|E]; [rewrite E|]; done.
    + by rewrite bool_decide_false by (unfold in_s; lia).
  - destruct (Z.leb_spec (digitsValue 0 (unsigned s)) (2 ^ 63 - 1)).
    + by rewrite bool_decide_true by (unfold in_s; lia).
    + by rewrite bool_decide_false by (unfold in_s; lia).
Qed.

(** [std::to_string] writes the digits of its argument. *)
Lemma digitsOf_spec fuel n acc :
  0 ≤ n < 10 ^ Z.of_nat fuel → (0 < fuel)%nat →
  ∃ d, digitsOf fuel n acc = d ++ acc ∧ d ≠ [] ∧ forallb isDigit d = true ∧ digitsValue 0 d = n.
Proof.
  revert n acc. induction fuel as [|fuel IH]; intros n acc Hn Hf; [lia|]. cbn [digitsOf].
  destruct (Z.ltb_spec n 10) as [Hs|Hs].
  - exists [n + 48]. split; [done|]. split; [done|]. cbn. split; [|lia].
    rewrite (proj2 (isDigit_iff _)) by lia. done.
  - rewrite Nat2Z.inj_succ, Z.pow_succ_r in Hn by lia.
    destruct (decide (fuel = 0%nat)) as [->|]; [simpl in Hn; lia|].
    destruct (IH (n / 10) (n `mod` 10 + 48 :: acc)) as (d & -> & Hne & Hd & Hv); [Z.div_mod_to_equations; lia|lia|].
    exists (d ++ [n `mod` 10 + 48]). split; [by rewrite <- app_assoc|]. split; [by destruct d|].
    pose proof (Z.mod_pos_bound n 10 ltac:(lia)). split.
    + rewrite forallb_app, Hd. cbn. rewrite (proj2 (isDigit_iff _)) by lia. done.
    + unfold digitsValue in *. rewrite foldl_app, Hv. cbn. pose proof (Z.div_mod n 10). lia.
Qed.

Lemma log2_digits n : 0 ≤ n → n < 10 ^ Z.of_nat (S (Z.to_nat (Z.log2 n))).
Proof.
  intros Hn. destruct (decide (n = 0)) as [->|]; [done|].
  pose proof (Z.log2_spec n ltac:(lia)) as [_ Hl]. pose proof (Z.log2_nonneg n).
  rewrite Nat2Z.inj_succ, Z2Nat.id by lia. eapply Z.lt_le_trans; [exact Hl|]. apply Z.pow_le_mono_l. lia.
Qed.

Lemma decimal_digits n :
  ∃ d, decimal n = (if n <? 0 then 45 :: d else d) ∧ d ≠ [] ∧ forallb isDigit d = true ∧ digitsValue 0 d = Z.abs n.
Proof.
  unfold decimal. destruct (Z.ltb_spec n 0).
  - destruct (digitsOf_spec (S (Z.to_nat (Z.log2 (- n)))) (- n) []) as (d & -> & Hne & Hd & Hv);
      [pose proof (log2_digits (- n)); lia|lia|].
    exists d. rewrite app_nil_r. split_and!; try done. lia.
  - destruct (digitsOf_spec (S (Z.to_nat (Z.log2 n))) n []) as (d & -> & Hne & Hd & Hv);
      [pose proof (log2_digits n); lia|lia|].
    exists d. rewrite app_nil_r. split_and!; try done. lia.
Qed.

Lemma decimal_value n : isDecimal (decimal n) = true ∧ decimalValue (decimal n) = n.
Proof.
  destruct (decimal_digits n) as (d & -> & Hne & Hd & Hv). unfold decimalValue.
  destruct (Z.ltb_spec n 0).
  - unfold isDecimal. cbn [unsigned signed]. rewrite bool_decide_false by done. split; [done|lia].
  - destruct d as [|c d]; [done|]. pose proof Hd as Hd'. cbn in Hd'. apply andb_prop in Hd' as [Hc%isDigit_iff _].
    assert (unsigned (c :: d) = c :: d ∧ signed (c :: d) = false) as [Hu Hs].
    { unfold unsigned, signed. repeat case_match; simplify_eq; done || lia. }
    unfold isDecimal. rewrite Hu, Hs, bool_decide_false, Hd by done. split; [done|lia].
Qed.

(** [parseBigInt] accepts exactly the decimal texts of 64-bit integers, with their value: no
    overflow, no narrowing. It reads back what [std::to_string] writes. *)
Theorem parseBigInt_exact s n :
  parseBigInt s = (if isDecimal s && bool_decide (in_s 64 (decimalValue s)) then Some (decimalValue s) else None) ∧
  parseBigInt (decimal n) = (if bool_decide (in_s 64 n) then Some n else None).
Proof.
  split; [apply parseBigInt_spec|]. rewrite parseBigInt_spec. by destruct (decimal_value n) as [-> ->].
Qed.

(** ** The text of requests *)

(** A reference reader of the JSON text [dump] writes: compact, two-digit escapes, no reals. *)
Definition hexValue (c : Z) : option Z :=
  if isDigit c then Some (c - 48) else if (97 <=? c) && (c <=? 102) then Some (c - 87) else None.

Definition unescapeChar (c : Z) : option Z :=
  if c =? 34 then Some 34 else if c =? 92 then Some 92 else if c =? 98 then Some 8 else if c =? 102 then Some 12
  else if c =? 110 then Some 10 else if c =? 114 then Some 13 else if c =? 116 then Some 9 else None.

(** The rest of a string literal, after its first quote. *)
Fixpoint readStr (s : bytes) : option (bytes * bytes) :=
  match s with
  | [] => None
  | c :: s1 =>
      if c =? 34 then Some ([], s1)
      else if c <? 32 then None
      else if negb (c =? 92) then '(t, r) ← readStr s1; Some (c :: t, r)
      else match s1 with
           | [] => None
           | e :: s2 =>
               if negb (e =? 117) then x ← unescapeChar e; '(t, r) ← readStr s2; Some (x :: t, r)
               else match s2 with
                    | z :: z' :: h :: l :: s3 =>
                        if negb ((z =? 48) && (z' =? 48)) then None else
                        h ← hexValue h; l ← hexValue l; '(t, r) ← readStr s3; Some (16 * h + l :: t, r)
                    | _ => None
                    end
           end
  end.

(** The digits a text starts with. *)
Fixpoint spanDigits (s : bytes) : bytes * bytes :=
  match s with
  | [] => ([], [])
  | c :: s' => if isDigit c then let '(d, r) := spanDigits s' in (c :: d, r) else ([], s)
  end.

Section ReadItems.
Context {A : Type} (readItem : bytes → option (A * bytes)) (close : Z).
(** Items with commas between, up to the closing bracket. *)
Fixpoint readItems (fuel : nat) (s : bytes) : option (list A * bytes) :=
  match fuel with
  | O => None
  | S fuel =>
      '(x, s) ← readItem s;
      match s with
      | c :: s =>
          if c =? close then Some ([x], s)
          else if c =? 44 then '(l, s) ← readItems fuel s; Some (x :: l, s) else None
      | [] => None
      end
  end.
Definition readList (fuel : nat) (s : bytes) : option (list A * bytes) :=
  match s with c :: s' => if c =? close then Some ([], s') else readItems fuel s | [] => None end.
End ReadItems.

Definition readMember (readItem : bytes → option (JVal * bytes)) (s : bytes) : option ((bytes * JVal) * bytes) :=
  match s with
  | c :: s =>
      if negb (c =? 34) then None else
      '(k, s) ← readStr s;
      match s with c :: s => if negb (c =? 58) then None else '(v, s) ← readItem s; Some ((k, v), s) | [] => None end
  | [] => None
  end.

Definition readLiteral (v : JVal) (word s : bytes) : option (JVal * bytes) :=
  if bool_decide (take (length word) s = word) then Some (v, drop (length word) s) else None.

(** A number's digits, at least one. *)
Definition readDigits (f : Z → Z) (s : bytes) : option (JVal * bytes) :=
  let '(d, r) := spanDigits s in if bool_decide (d = []) then None else Some (VInt (f (digitsValue 0 d)), r).

Fixpoint readText (fuel : nat) (s : bytes) : option (JVal * bytes) :=
  match fuel with
  | O => None
  | S fuel =>
      match s with
      | [] => None
      | c :: s' =>
          if c =? 110 then readLiteral VNull (chars "ull") s'
          else if c =? 116 then readLiteral (VBool true) (chars "rue") s'
          else if c =? 102 then readLiteral (VBool false) (chars "alse") s'
          else if c =? 34 then '(t, r) ← readStr s'; Some (VStr t, r)
          else if c =? 91 then '(l, r) ← readList (readText fuel) 93 fuel s'; Some (VArr l, r)
          else if c =? 123 then '(l, r) ← readList (readMember (readText fuel)) 125 fuel s'; Some (VObj l, r)
          else if c =? 45 then readDigits Z.opp s'
          else readDigits id s
      end
  end.

(** A value without reals; strings of octets. *)
Fixpoint textual (v : JVal) : Prop :=
  match v with
  | VDouble _ => False
  | VStr s => Forall is_byte s
  | VArr l => foldr (λ x P, textual x ∧ P) True l
  | VObj l => foldr (λ m P, (Forall is_byte m.1 ∧ textual m.2) ∧ P) True l
  | _ => True
  end.

Section JValInd.
Context (P : JVal → Prop)
  (Hnull : P VNull) (Hbool : ∀ b, P (VBool b)) (Hint : ∀ i, P (VInt i)) (Hdouble : ∀ bits, P (VDouble bits))
  (Hstr : ∀ s, P (VStr s)) (Harr : ∀ l, Forall P l → P (VArr l)) (Hobj : ∀ l, Forall (λ m, P m.2) l → P (VObj l)).
Fixpoint JVal_nested (v : JVal) : P v.
Proof.
  refine (match v with
  | VNull => Hnull | VBool b => Hbool b | VInt i => Hint i | VDouble bits => Hdouble bits | VStr s => Hstr s
  | VArr l => Harr l _ | VObj l => Hobj l _
  end).
  - induction l as [|x l IH]; [constructor|constructor; [apply JVal_nested|exact IH]].
  - induction l as [|m l IH]; [constructor|constructor; [apply JVal_nested|exact IH]].
Qed.
End JValInd.

(** One escaped octet is read back, whatever follows. *)
Lemma readStr_char c s :
  is_byte c → readStr (escapeChar c ++ s) = ('(t, r) ← readStr s; Some (c :: t, r)).
Proof.
  intros Hc. unfold escapeChar.
  repeat match goal with |- context [c =? ?k] => destruct (Z.eqb_spec c k) as [->|?]; [done|] end.
  destruct (Z.ltb_spec c 32) as [Hl|Hl].
  - pose proof (below_check 32 (λ c, bool_decide (hexValue (hexDigit (c / 16)) = Some (c / 16)) &&
      bool_decide (hexValue (hexDigit (c `mod` 16)) = Some (c `mod` 16))) ltac:(vm_compute; done) c) as E.
    destruct Hc as [Hc _]. specialize (E ltac:(lia)). apply andb_prop in E as [E1%bool_decide_eq_true E2%bool_decide_eq_true].
    cbn [app readStr Z.eqb Pos.eqb Z.ltb Z.compare Pos.compare Pos.compare_cont negb andb]. rewrite E1, E2. cbn [mbind option_bind].
    destruct (readStr s) as [[t r]|]; [|done]. cbn. do 2 f_equal. f_equal. Z.div_mod_to_equations; lia.
  - cbn [app readStr]. rewrite (proj2 (Z.eqb_neq c 34)), (proj2 (Z.eqb_neq c 92)), (proj2 (Z.ltb_ge c 32)) by done. done.
Qed.

Lemma readStr_escaped s rest :
  Forall is_byte s → readStr (concat (escapeChar <$> s) ++ 34 :: rest) = Some (s, rest).
Proof.
  induction 1 as [|c s Hc Hs IH]; [done|]. rewrite fmap_cons. cbn [concat]. rewrite <- app_assoc, readStr_char by done.
  by rewrite IH.
Qed.

(** What may follow a number. *)
Definition no_digit (s : bytes) : Prop := match s with c :: _ => isDigit c = false | [] => True end.

Lemma spanDigits_app d rest : forallb isDigit d = true → no_digit rest → spanDigits (d ++ rest) = (d, rest).
Proof.
  intros Hd Hr. induction d as [|c d IH].
  - destruct rest as [|c rest]; [done|]. cbn in *. by rewrite Hr.
  - cbn in Hd. apply andb_prop in Hd as [Hc Hd]. cbn. by rewrite Hc, IH.
Qed.

Section Items.
Context {A : Type} (readItem : bytes → option (A * bytes)) (close : Z) (write : A → bytes).
Context (Hclose : isDigit close = false) (Hcomma : close ≠ 44).
Definition item_back (x : A) : Prop :=
  (∃ c s, write x = c :: s ∧ c ≠ close) ∧ ∀ rest, no_digit rest → readItem (write x ++ rest) = Some (x, rest).

Lemma readItems_back fuel l rest :
  Forall item_back l → l ≠ [] → (length l ≤ fuel)%nat →
  readItems readItem close fuel (commas (write <$> l) ++ close :: rest) = Some (l, rest).
Proof.
  intros Hl. revert fuel. induction Hl as [|x l Hx Hl IH]; intros fuel Hne Hf; [done|].
  destruct fuel as [|fuel]; [simpl in Hf; lia|]. destruct Hx as [_ Hx]. cbn [readItems].
  destruct l as [|y l].
  - cbn [fmap list_fmap commas]. rewrite Hx by done. cbn [mbind option_bind]. by rewrite Z.eqb_refl.
  - rewrite fmap_cons. cbn [commas fmap list_fmap]. rewrite <- !app_assoc. rewrite Hx by done. cbn [mbind option_bind app].
    rewrite (proj2 (Z.eqb_neq 44 close)) by done. rewrite fmap_cons in IH. cbn [fmap] in IH.

    rewrite IH by (done || (simpl in *; lia)). done.
Qed.

Lemma readList_back fuel l rest :
  Forall item_back l → (length l ≤ fuel)%nat →
  readList readItem close fuel (commas (write <$> l) ++ close :: rest) = Some (l, rest).
Proof.
  intros Hl Hf. unfold readList. destruct Hl as [|x l Hx Hl].
  - cbn. by rewrite Z.eqb_refl.
  - pose proof Hx as [(c & s & Ew & Hc) _].
    assert (∃ s', commas (write <$> x :: l) ++ close :: rest = c :: s') as [s' E].
    { rewrite fmap_cons. cbn [commas]. rewrite Ew. destruct (write <$> l); by eexists. }
    rewrite <- (readItems_back fuel (x :: l)) by (done || by constructor). rewrite E.
    by rewrite (proj2 (Z.eqb_neq _ _)) by done.
Qed.
End Items.

Lemma length_item (l : list bytes) x : x ∈ l → (length x ≤ length (commas l))%nat.
Proof.
  induction l as [|y l IH]; [by intros ?%elem_of_nil|]. intros [->|Hx]%elem_of_cons.
  - destruct l; cbn [commas]; rewrite ?length_app; lia.
  - destruct l as [|z l]; [by apply elem_of_nil in Hx|]. specialize (IH Hx). cbn [commas] in *. rewrite !length_app in *.
    simpl in *. lia.
Qed.

Lemma length_items (l : list bytes) : Forall (λ x, (1 ≤ length x)%nat) l → (length l ≤ length (commas l))%nat.
Proof.
  induction 1 as [|x l Hx Hl IH]; [done|]. destruct l as [|y l]; cbn [commas length] in *; [lia|].
  rewrite !length_app in *. simpl in *. lia.
Qed.

Section DumpBack.
Context (formatDouble : Z → bytes).
Abbreviation write := (dump formatDouble).

(** The first octet of a text, which tells what it is. *)
Definition leads (v : JVal) (c : Z) : Prop :=
  match v with
  | VNull => c = 110 | VBool b => c = if b then 116 else 102 | VInt i => c = 45 ∨ isDigit c = true
  | VDouble _ => False | VStr _ => c = 34 | VArr _ => c = 91 | VObj _ => c = 123
  end.

Lemma dump_leads v : textual v → ∃ c s, write v = c :: s ∧ leads v c.
Proof.
  destruct v as [|b|i|bits|s|l|l]; cbn; intros Hv; try done; try (by do 2 eexists).
  - destruct b; by do 2 eexists.
  - destruct (decimal_digits i) as (d & -> & Hne & Hd & _). destruct (i <? 0); [by eauto|].
    destruct d as [|c d]; [done|]. apply andb_prop in Hd as [? _]. eauto.
Qed.

Lemma leads_not_close v c : leads v c → c ≠ 93 ∧ c ≠ 125.
Proof. destruct v as [|[]| | | | |]; cbn; try (intros ->; done); try done. intros [->|Hc%isDigit_iff]; lia. Qed.

Definition text_back (v : JVal) : Prop :=
  ∀ fuel rest, textual v → no_digit rest → (length (write v) < fuel)%nat → readText fuel (write v ++ rest) = Some (v, rest).

Lemma int_back i : text_back (VInt i).
Proof.
  intros fuel rest _ Hr Hf. destruct fuel as [|fuel]; [lia|]. cbn [dump].
  destruct (decimal_digits i) as (d & -> & Hne & Hd & Hv). destruct (Z.ltb_spec i 0).
  - cbn [app readText Z.eqb Pos.eqb]. unfold readDigits. rewrite spanDigits_app, bool_decide_false by done.
    do 3 f_equal. lia.
  - destruct d as [|c d]; [done|]. pose proof Hd as Hc. apply andb_prop in Hc as [Hc%isDigit_iff _]. cbn [app readText].
    repeat match goal with |- context [c =? ?k] => rewrite (proj2 (Z.eqb_neq c k)) by lia end.
    change (c :: d ++ rest) with ((c :: d) ++ rest). unfold readDigits.
    rewrite (spanDigits_app (c :: d)), bool_decide_false by done. do 3 f_equal. unfold id. lia.
Qed.

Lemma item_text v : textual v → text_back v → ∀ fuel close,
  (length (write v) < fuel)%nat → close = 93 → item_back (readText fuel) close write v.
Proof.
  intros Hv Hb fuel close Hf ->. destruct (dump_leads v Hv) as (c & s & E & Hl). split.
  - exists c, s. split; [done|]. apply (leads_not_close v c Hl).
  - intros rest Hr. by apply Hb.
Qed.

Lemma member_back m fuel : Forall is_byte m.1 → textual m.2 → text_back m.2 → (length (write m.2) < fuel)%nat →
  item_back (readMember (readText fuel)) 125 (λ m, appendEscaped m.1 ++ [58] ++ write m.2) m.
Proof.
  intros Hk Hv Hb Hf. destruct m as [k v]. cbn [fst snd] in *. split; [by do 2 eexists|].
  intros rest Hr. unfold appendEscaped. cbn [app readMember Z.eqb Pos.eqb negb]. rewrite <- !app_assoc. cbn [app].
  rewrite readStr_escaped by done. cbn [mbind option_bind Z.eqb Pos.eqb negb]. rewrite Hb by done. done.
Qed.

Lemma dump_back v : text_back v.
Proof.
  induction v as [|b|i|bits|s|l IH|l IH] using JVal_nested.
  3: apply int_back.
  all: intros fuel rest Hv Hr Hf; (destruct fuel as [|fuel]; [lia|]); cbn [dump textual] in *.
  - done.
  - by destruct b.
  - done.
  - unfold appendEscaped. cbn [app readText Z.eqb Pos.eqb]. rewrite <- app_assoc. cbn [app].
    by rewrite readStr_escaped.
  - cbn [app readText Z.eqb Pos.eqb]. rewrite <- app_assoc. cbn [app].
    rewrite !length_app in Hf. cbn [length] in Hf.
    assert (Forall (item_back (readText fuel) 93 write) l) as Hl.
    { apply list.Forall_forall. intros x Hx. rewrite list.Forall_forall in IH.
      apply item_text; [|by apply IH| |done].
      - clear -Hv Hx. induction l as [|y l IH]; [by apply elem_of_nil in Hx|]. cbn in Hv. destruct Hv.
        apply elem_of_cons in Hx as [->|Hx]; [done|by apply IH].
      - pose proof (length_item (write <$> l) (write x) ltac:(by apply list_elem_of_fmap_2)). lia. }
    rewrite (readList_back (readText fuel) 93 write); [done|..]; try done.
    assert (Forall (λ x : bytes, (1 ≤ length x)%nat) (write <$> l)) as Hn.
    { apply Forall_fmap. eapply list.Forall_impl; [exact Hl|]. intros x [(c & t & E & _) _]. cbn. rewrite E. simpl. lia. }
    apply length_items in Hn. rewrite length_fmap in Hn. lia.
  - cbn [app readText Z.eqb Pos.eqb]. rewrite <- app_assoc. cbn [app].
    rewrite !length_app in Hf. cbn [length] in Hf.
    set (writeM := λ m : bytes * JVal, appendEscaped m.1 ++ [58] ++ write m.2) in *.
    assert (Forall (item_back (readMember (readText fuel)) 125 writeM) l) as Hl.
    { apply list.Forall_forall. intros x Hx. rewrite list.Forall_forall in IH.
      assert (Forall is_byte x.1 ∧ textual x.2) as [Hk Hx2].
      { clear -Hv Hx. induction l as [|y l IH]; [by apply elem_of_nil in Hx|]. cbn in Hv. destruct Hv.
        apply elem_of_cons in Hx as [->|Hx]; [done|by apply IH]. }
      apply member_back; [done|done|by apply IH|].
      pose proof (length_item (writeM <$> l) (writeM x) ltac:(by apply list_elem_of_fmap_2)) as Hlen.
      assert (length (write x.2) < length (writeM x))%nat as E by (unfold writeM; rewrite !length_app; simpl; lia).
      clear -E Hlen Hf. unfold bytes in *. lia. }
    rewrite (readList_back (readMember (readText fuel)) 125 writeM); [done|..]; try done.
    assert (Forall (λ x : bytes, (1 ≤ length x)%nat) (writeM <$> l)) as Hn.
    { apply Forall_fmap, Forall_true. intros m. unfold writeM. cbn. lia. }
    apply length_items in Hn. rewrite length_fmap in Hn. lia.
Qed.

(** The text of a request value without reals is JSON that says the value: a reader of the
    grammar ([readText]) gives the value back and nothing remains, strings, numbers and nesting
    alike, whatever octets the strings hold. *)
Theorem dump_reads_back v :
  textual v → readText (S (length (write v))) (write v) = Some (v, []).
Proof. intros Hv. rewrite <- (app_nil_r (write v)) at 2. apply dump_back; [done|done|lia]. Qed.
End DumpBack.

(** ** Concrete values *)

Definition sampleDoc : Json :=
  JObj [(chars "ok", JBool true);
        (chars "n", JArr [JUint 0; JUint 200; JUint 70000; JUint (2 ^ 40); JSint (-1); JSint (-200); JSint (- 2 ^ 63)]);
        (chars "x", JReal 4607182418800017408); (chars "none", JNull); (chars "s", JStr (chars "hello"))].

Lemma msgpack_roundtrip_witness :
  fromMsgpack (λ _, None) (toMsgpack (Some sampleDoc)) = Some (Some sampleDoc) ∧
  ∀ rest, rest ≠ [] → fromMsgpack (λ _, None) (toMsgpack (Some sampleDoc) ++ rest) = Some None.
Proof. apply (msgpack_roundtrip (λ _, None) sampleDoc); [|vm_compute; congruence]. vm_compute. repeat split; congruence. Defined.

(** The same octets, and the formats only the decoder knows. *)
Example msgpack_octets :
  toMsgpack (Some (JArr [JUint 5; JSint (-200); JStr (chars "ab")])) = [147; 5; 209; 255; 56; 162; 97; 98] ∧
  fromMsgpack (λ _, None) [202; 63; 192; 0; 0] = Some (Some (JReal 4609434218613702656)) ∧
  fromMsgpack (λ _, None) [196; 3; 1; 2; 3] = Some (Some (JStr (chars "AQID"))) ∧
  fromMsgpack (λ _, None) [129; 5; 192] = Some (Some (JObj [(chars "null", JNull)])) ∧
  fromMsgpack (λ _, None) [145] = Some None ∧ fromMsgpack (λ _, None) [193] = Some None.
Proof. by vm_compute. Qed.

Example bigints :
  parseBigInt (chars "-9223372036854775808") = Some (- 2 ^ 63) ∧ parseBigInt (chars "9223372036854775808") = None ∧
  parseBigInt (chars "-") = None ∧ parseBigInt (chars "007") = Some 7 ∧
  tryAsBigInt (Some (JReal 4613937818241073152)) = Some 3 ∧ tryAsBigInt (Some (JReal 4609434218613702656)) = None ∧
  asBigIntString (Some (JUint (2 ^ 64 - 1))) [] = chars "18446744073709551615".
Proof. by vm_compute. Qed.

(** [1e300], a real no 64-bit integer is near: [tryAsBigInt] refuses it, the conversion of
    [asInt64] is undefined. *)
Example asInt64_out_of_range :
  tryAsBigInt (Some (JReal 9094988921128908188)) = None ∧ asInt64 (Some (JReal 9094988921128908188)) 0 = UB.
Proof. by vm_compute. Qed.
