(* ===== verification/Endpoint.v ===== *)
(** * UTF-8 and WebSocket endpoints

    From [src/graphql/subscription_client.cpp]: the check every text frame passes ([validUtf8])
    and the address a subscription client connects to ([normalizeGraphQLWebSocketUrl]). *)

From S2P Require Import Prelude Bytes Core Json.

Open Scope Z_scope.

(** ** UTF-8 *)

(** The loop over the [n] continuation octets; the caller has checked that they are there. *)
Fixpoint continued (n : nat) (value : Z) (s : bytes) : option (Z * bytes) :=
  match n with
  | O => Some (value, s)
  | S n =>
      match s with
      | next :: s =>
          if negb (Z.land next 192 =? 128) then None
          else continued n (Z.lor (u32 (Z.shiftl value 6)) (Z.land next 63)) s
      | [] => None
      end
  end.

(** How a lead octet starts: the continuation octets to come, the bits it carries and the least
    value that needs that length. *)
Definition leadOctet (first : Z) : option (nat * Z * Z) :=
  if (194 <=? first) && (first <=? 223) then Some (1%nat, Z.land first 31, 128)
  else if (224 <=? first) && (first <=? 239) then Some (2%nat, Z.land first 15, 2048)
  else if (240 <=? first) && (first <=? 244) then Some (3%nat, Z.land first 7, 65536)
  else None.

(** Every turn takes an octet: the length is fuel enough. *)
Fixpoint validLoop (fuel : nat) (s : bytes) : bool :=
  match fuel, s with
  | _, [] => true
  | O, _ => false
  | S fuel, first :: s =>
      if first <=? 127 then validLoop fuel s else
      match leadOctet first with
      | None => false
      | Some (n, value, minimum) =>
          if (length s <? n)%nat then false else
          match continued n value s with
          | None => false
          | Some (value, s) =>
              if (value <? minimum) || (1114111 <? value) || ((55296 <=? value) && (value <=? 57343))
              then false else validLoop fuel s
          end
      end
  end.
Definition validUtf8 (input : bytes) : bool := validLoop (length input) input.

(** ** Endpoints *)

(** [std::toupper] of the "C" locale. *)
Definition toUpper (c : Z) : Z := if (97 <=? c) && (c <=? 122) then c - 32 else c.
Definition uppercase (value : bytes) : bytes := toUpper <$> value.

Fixpoint hasPrefix (p s : bytes) : bool :=
  match p, s with
  | [], _ => true
  | x :: p, y :: s => (x =? y) && hasPrefix p s
  | _, [] => false
  end.

(** [std::string_view::find]. *)
Fixpoint find (p s : bytes) : option nat :=
  if hasPrefix p s then Some O else
  match s with [] => None | _ :: s => i ← find p s; Some (S i) end.

(** [substr(0, at)] and [substr(at)], where [npos] is the end. *)
Definition upTo (position : option nat) (s : bytes) : bytes :=
  match position with Some i => take i s | None => s end.
Definition onward (position : option nat) (s : bytes) : bytes :=
  match position with Some i => drop i s | None => [] end.

Inductive GraphQLWebSocketEndpointKind := ApiBase | Complete.

Fixpoint dropSlashes (reversed : bytes) : bytes :=
  match reversed with 47 :: r => dropSlashes r | _ => reversed end.
(** [while (!path.empty() && path.back() == '/') path.pop_back()]. *)
Definition trimSlashes (path : bytes) : bytes := reverse (dropSlashes (reverse path)).

Definition graphqlSuffix : bytes := chars "/graphql".

(** The loop that removes every trailing ["/graphql"]; each turn makes the path shorter. *)
Fixpoint trimGraphql (fuel : nat) (path : bytes) : bytes :=
  match fuel with
  | O => path
  | S fuel =>
      if (length graphqlSuffix <=? length path)%nat && bool_decide (drop (length path - length graphqlSuffix) path = graphqlSuffix)
      then trimGraphql fuel (trimSlashes (take (length path - length graphqlSuffix) path))
      else path
  end.

Definition wsScheme (scheme : bytes) : option bytes :=
  if bool_decide (scheme = chars "HTTP") || bool_decide (scheme = chars "WS") then Some (chars "ws")
  else if bool_decide (scheme = chars "HTTPS") || bool_decide (scheme = chars "WSS") then Some (chars "wss")
  else None.

Definition normalizeGraphQLWebSocketUrl (endpoint : bytes) (kind : GraphQLWebSocketEndpointKind) : Result bytes :=
  if bool_decide (endpoint = []) then Err InvalidArgument else
  if existsb (λ c, (c <=? 32) || (c =? 127)) endpoint then Err InvalidArgument else
  if bool_decide (find [35] endpoint ≠ None) then Err InvalidArgument else
  match find (chars "://") endpoint with
  | None => Err InvalidArgument
  | Some schemeEnd =>
      match wsScheme (uppercase (take schemeEnd endpoint)) with
      | None => Err InvalidArgument
      | Some ws =>
          let remainder := drop (schemeEnd + 3) endpoint in
          let queryAt := find [63] remainder in
          let address := upTo queryAt remainder in
          let query := onward queryAt remainder in
          let pathAt := find [47] address in
          let authority := upTo pathAt address in
          if bool_decide (authority = []) then Err InvalidArgument else
          match kind with
          | Complete => Val (ws ++ chars "://" ++ address ++ query)
          | ApiBase =>
              let path := trimSlashes (onward pathAt address) in
              let path := trimGraphql (length path) path ++ graphqlSuffix in
              Val (ws ++ chars "://" ++ authority ++ path ++ query)
          end
      end
  end.

Example normalized_urls :
  normalizeGraphQLWebSocketUrl (chars "https://api.example.com/graphql//graphql/?v=1") ApiBase
    = Val (chars "wss://api.example.com/graphql?v=1") ∧
  normalizeGraphQLWebSocketUrl (chars "WS://h:1") ApiBase = Val (chars "ws://h:1/graphql") ∧
  normalizeGraphQLWebSocketUrl (chars "http://h/x/") Complete = Val (chars "ws://h/x/") ∧
  normalizeGraphQLWebSocketUrl (chars "ftp://h") ApiBase = Err InvalidArgument ∧
  normalizeGraphQLWebSocketUrl (chars "http:///graphql") ApiBase = Err InvalidArgument.
Proof. by vm_compute. Qed.

(** ** UTF-8, as Unicode defines it *)

Definition scalar (c : Z) : Prop := 0 ≤ c ≤ 1114111 ∧ ¬ 55296 ≤ c ≤ 57343.

(** The encoding of a scalar value. *)
Definition encodeScalar (c : Z) : bytes :=
  if c <? 128 then [c]
  else if c <? 2048 then [192 + c / 64; 128 + c mod 64]
  else if c <? 65536 then [224 + c / 4096; 128 + c / 64 mod 64; 128 + c mod 64]
  else [240 + c / 262144; 128 + c / 4096 mod 64; 128 + c / 64 mod 64; 128 + c mod 64].

Lemma continuation_octet b :
  is_byte b → (Z.land b 192 =? 128) = (128 <=? b) && (b <? 192) ∧ Z.land b 63 = b mod 64.
Proof.
  intros Hb. pose proof (below_check 256 (λ b, Bool.eqb (Z.land b 192 =? 128) ((128 <=? b) && (b <? 192)) &&
    (Z.land b 63 =? b mod 64)) ltac:(vm_compute; done) b Hb) as E.
  apply andb_prop in E as [E1%eqb_prop E2%Z.eqb_eq]. done.
Qed.

Lemma continued_S n v b s :
  is_byte b → 0 ≤ v < 2 ^ 26 →
  continued (S n) v (b :: s) = if (128 <=? b) && (b <? 192) then continued n (64 * v + (b - 128)) s else None.
Proof.
  intros Hb Hv. destruct (continuation_octet b Hb) as [E1 E2]. cbn [continued]. rewrite E1, E2.
  destruct (Z.leb_spec 128 b), (Z.ltb_spec b 192); try done. cbn [andb negb]. f_equal.
  rewrite wrapU_id.
  2: { rewrite Z.shiftl_mul_pow2 by lia. unfold in_u. change (2 ^ 32) with (2 ^ 26 * 2 ^ 6). lia. }
  rewrite (le.lor_shiftl_add 6) by (try apply Z.mod_pos_bound; lia). Z.div_mod_to_equations; lia.
Qed.

Lemma leadOctet_spec b :
  is_byte b → leadOctet b =
    if (194 <=? b) && (b <=? 223) then Some (1%nat, b - 192, 128)
    else if (224 <=? b) && (b <=? 239) then Some (2%nat, b - 224, 2048)
    else if (240 <=? b) && (b <=? 244) then Some (3%nat, b - 240, 65536) else None.
Proof.
  intros Hb. pose proof (below_check 256 (λ b,
    (negb ((194 <=? b) && (b <=? 223)) || (Z.land b 31 =? b - 192)) &&
    (negb ((224 <=? b) && (b <=? 239)) || (Z.land b 15 =? b - 224)) &&
    (negb ((240 <=? b) && (b <=? 244)) || (Z.land b 7 =? b - 240))) ltac:(vm_compute; done) b Hb) as E.
  apply andb_prop in E as [E E3]. apply andb_prop in E as [E1 E2].
  unfold leadOctet. destruct ((194 <=? b) && (b <=? 223)); [by apply Z.eqb_eq in E1 as ->|].
  destruct ((224 <=? b) && (b <=? 239)); [by apply Z.eqb_eq in E2 as ->|].
  destruct ((240 <=? b) && (b <=? 244)); [by apply Z.eqb_eq in E3 as ->|done].
Qed.

(** Take the octets of one character apart. *)
Ltac octet Hs :=
  match type of Hs with Forall is_byte (?b :: _) =>
    let Hb := fresh "Hb" in apply Forall_cons_1 in Hs as [Hb Hs];
    rewrite (continued_S _ _ b) by (done || unfold is_byte, in_u in *; lia);
    destruct (Z.leb_spec 128 b); [|done]; destruct (Z.ltb_spec b 192); [|done]; cbn [andb]
  end.

Ltac encoded :=
  unfold encodeScalar;
  repeat match goal with |- context [?c <? ?k] => destruct (Z.ltb_spec c k); [lia || idtac|lia || idtac] end;
  cbn [app]; repeat (f_equal; try (Z.div_mod_to_equations; lia)).

(** One turn of the loop takes the encoding of a scalar value. *)
Lemma validLoop_turn fuel b s :
  Forall is_byte (b :: s) → validLoop (S fuel) (b :: s) = true →
  ∃ c tail, scalar c ∧ b :: s = encodeScalar c ++ tail ∧ Forall is_byte tail ∧ validLoop fuel tail = true.
Proof.
  intros [Hb Hs]%Forall_cons_1. cbn [validLoop]. unfold is_byte, in_u in Hb. destruct (Z.leb_spec b 127).
  { intros Hv. exists b, s. split; [unfold scalar; lia|]. split; [encoded|done]. }
  rewrite leadOctet_spec by done.
  destruct ((194 <=? b) && (b <=? 223)) eqn:E1; [|destruct ((224 <=? b) && (b <=? 239)) eqn:E2;
    [|destruct ((240 <=? b) && (b <=? 244)) eqn:E3; [|done]]].
  all: match goal with E : _ && _ = true |- _ => apply andb_prop in E as [?%Z.leb_le ?%Z.leb_le] end.
  all: match goal with |- context [(length ?t <? ?n)%nat] => destruct (Nat.ltb_spec (length t) n); [done|] end.
  - destruct s as [|b1 s]; [simpl in *; lia|]. octet Hs. cbn [continued].
    destruct (_ || _) eqn:Hc; [done|]. intros Hv. apply orb_false_elim in Hc as [[?%Z.ltb_ge ?%Z.ltb_ge]%orb_false_elim Hc].
    match type of Hc with context [55296 <=? ?v] => exists v, s end. split; [|split; [|split; [exact Hs|exact Hv]]].
    + apply andb_false_iff in Hc. rewrite !Z.leb_gt in Hc. unfold scalar. lia.
    + encoded.
  - destruct s as [|b1 [|b2 s]]; [simpl in *; lia..|]. octet Hs. octet Hs. cbn [continued].
    destruct (_ || _) eqn:Hc; [done|]. intros Hv. apply orb_false_elim in Hc as [[?%Z.ltb_ge ?%Z.ltb_ge]%orb_false_elim Hc].
    match type of Hc with context [55296 <=? ?v] => exists v, s end. split; [|split; [|split; [exact Hs|exact Hv]]].
    + apply andb_false_iff in Hc. rewrite !Z.leb_gt in Hc. unfold scalar. lia.
    + encoded.
  - destruct s as [|b1 [|b2 [|b3 s]]]; [simpl in *; lia..|]. octet Hs. octet Hs. octet Hs. cbn [continued].
    destruct (_ || _) eqn:Hc; [done|]. intros Hv. apply orb_false_elim in Hc as [[?%Z.ltb_ge ?%Z.ltb_ge]%orb_false_elim Hc].
    match type of Hc with context [55296 <=? ?v] => exists v, s end. split; [|split; [|split; [exact Hs|exact Hv]]].
    + apply andb_false_iff in Hc. rewrite !Z.leb_gt in Hc. unfold scalar. lia.
    + encoded.
Qed.

Lemma validLoop_encoded fuel c tail :
  scalar c → validLoop (S fuel) (encodeScalar c ++ tail) = validLoop fuel tail.
Proof.
  intros [Hc Hs]. unfold encodeScalar.
  destruct (Z.ltb_spec c 128); [|destruct (Z.ltb_spec c 2048); [|destruct (Z.ltb_spec c 65536)]].
  - cbn [app validLoop]. destruct (Z.leb_spec c 127); [done|lia].
  - cbn [app validLoop].
    rewrite leadOctet_spec, (proj2 (Z.leb_gt (192 + c / 64) 127)) by (unfold is_byte, in_u; Z.div_mod_to_equations; lia).
    rewrite (proj2 (Z.leb_le 194 _)), (proj2 (Z.leb_le _ 223)) by (Z.div_mod_to_equations; lia). cbn [andb length Nat.ltb Nat.leb].
    rewrite continued_S by (unfold is_byte, in_u; Z.div_mod_to_equations; lia).
    rewrite (proj2 (Z.leb_le 128 _)), (proj2 (Z.ltb_lt _ 192)) by (Z.div_mod_to_equations; lia). cbn [andb continued].
    replace (64 * (192 + c / 64 - 192) + (128 + c mod 64 - 128)) with c by (Z.div_mod_to_equations; lia).
    by rewrite (proj2 (Z.ltb_ge c 128)), (proj2 (Z.ltb_ge 1114111 c)), (proj2 (Z.leb_gt 55296 c)) by lia.
  - cbn [app validLoop].
    rewrite leadOctet_spec, (proj2 (Z.leb_gt (224 + c / 4096) 127)) by (unfold is_byte, in_u; Z.div_mod_to_equations; lia).
    rewrite (proj2 (Z.leb_gt _ 223)), andb_false_r by (Z.div_mod_to_equations; lia).
    rewrite (proj2 (Z.leb_le 224 _)), (proj2 (Z.leb_le _ 239)) by (Z.div_mod_to_equations; lia). cbn [andb length Nat.ltb Nat.leb].
    do 2 (rewrite continued_S by (unfold is_byte, in_u; Z.div_mod_to_equations; lia);
      rewrite (proj2 (Z.leb_le 128 _)), (proj2 (Z.ltb_lt _ 192)) by (Z.div_mod_to_equations; lia); cbn [andb]).
    cbn [continued].
    match goal with |- context [?v <? 2048] => replace v with c by (Z.div_mod_to_equations; lia) end.
    rewrite (proj2 (Z.ltb_ge c 2048)), (proj2 (Z.ltb_ge 1114111 c)) by lia. cbn [orb].
    destruct (Z.leb_spec 55296 c), (Z.leb_spec c 57343); try done. lia.
  - cbn [app validLoop].
    rewrite leadOctet_spec, (proj2 (Z.leb_gt (240 + c / 262144) 127)) by (unfold is_byte, in_u; Z.div_mod_to_equations; lia).
    rewrite (proj2 (Z.leb_gt _ 223)), (proj2 (Z.leb_gt _ 239)), !andb_false_r by (Z.div_mod_to_equations; lia).
    rewrite (proj2 (Z.leb_le 240 _)), (proj2 (Z.leb_le _ 244)) by (Z.div_mod_to_equations; lia). cbn [andb length Nat.ltb Nat.leb].
    do 3 (rewrite continued_S by (unfold is_byte, in_u; Z.div_mod_to_equations; lia);
      rewrite (proj2 (Z.leb_le 128 _)), (proj2 (Z.ltb_lt _ 192)) by (Z.div_mod_to_equations; lia); cbn [andb]).
    cbn [continued].
    match goal with |- context [?v <? 65536] => replace v with c by (Z.div_mod_to_equations; lia) end.
    rewrite (proj2 (Z.ltb_ge c 65536)), (proj2 (Z.ltb_ge 1114111 c)), (proj2 (Z.leb_gt c 57343)), andb_false_r by lia. done.
Qed.

Lemma length_encodeScalar c : (1 ≤ length (encodeScalar c))%nat.
Proof. unfold encodeScalar. repeat case_match; simpl; lia. Qed.

(** C19. [validUtf8] accepts exactly the texts that encode a sequence of Unicode scalar values:
    no overlong form, no surrogate, nothing past U+10FFFF, nothing cut short. *)
Theorem validUtf8_iff s :
  Forall is_byte s →
  validUtf8 s = true ↔ ∃ cs, Forall scalar cs ∧ s = concat (encodeScalar <$> cs).
Proof.
  intros Hs. unfold validUtf8. split.
  - generalize (length s). intros fuel. revert s Hs. induction fuel as [|fuel IH]; intros s Hs Hv.
    { destruct s; [|done]. by exists []. }
    destruct s as [|b s]; [by exists []|].
    destruct (validLoop_turn fuel b s Hs Hv) as (c & tail & Hc & E & Ht & Hv').
    destruct (IH tail Ht Hv') as (cs & Hcs & ->). exists (c :: cs). rewrite E. by split; [constructor|].
  - intros (cs & Hcs & ->). assert (length cs ≤ length (concat (encodeScalar <$> cs)))%nat as Hl.
    { clear. induction cs as [|c cs IH]; [done|]. rewrite fmap_cons. cbn [concat]. rewrite length_app.
      pose proof (length_encodeScalar c). simpl. lia. }
    clear Hs. revert Hl. generalize (length (concat (encodeScalar <$> cs))). intros fuel.
    revert fuel. induction Hcs as [|c cs Hc Hcs IH]; intros fuel Hf; [by destruct fuel|].
    destruct fuel as [|fuel]; [simpl in Hf; lia|]. rewrite fmap_cons. cbn [concat].
    rewrite validLoop_encoded by done. apply IH. simpl in Hf. lia.
Qed.

Lemma validUtf8_iff_witness :
  validUtf8 [226; 130; 172] = true ↔ ∃ cs, Forall scalar cs ∧ [226; 130; 172] = concat (encodeScalar <$> cs).
Proof. apply (validUtf8_iff [226; 130; 172]). repeat constructor; vm_compute; congruence. Defined.

(** A surrogate, an overlong slash, a text cut short. *)
Example invalid_texts :
  validUtf8 [237; 160; 128] = false ∧ validUtf8 [192; 175] = false ∧ validUtf8 [224; 128; 175] = false ∧
  validUtf8 [226; 130] = false ∧ validUtf8 [244; 144; 128; 128] = false ∧ validUtf8 [240; 159; 152; 128] = true.
Proof. by vm_compute. Qed.

(** ** Endpoints, normalized *)

Lemma find_at c a b : c ∉ a → find [c] (a ++ c :: b) = Some (length a).
Proof.
  intros Ha. induction a as [|x a IH]; cbn [app find hasPrefix]; [by rewrite Z.eqb_refl|].
  apply not_elem_of_cons in Ha as [Hx Ha]. rewrite (proj2 (Z.eqb_neq c x)) by done. cbn [andb].
  by rewrite IH.
Qed.

Lemma find_none c s : c ∉ s → find [c] s = None.
Proof.
  induction s as [|x s IH]; intros Hs; [done|]. apply not_elem_of_cons in Hs as [Hx Hs].
  cbn [find hasPrefix]. rewrite (proj2 (Z.eqb_neq c x)) by done. cbn [andb]. by rewrite IH.
Qed.

(** A text cut at the first [c]. *)
Lemma find_cut c s :
  ∃ a b, s = a ++ b ∧ c ∉ a ∧ (b = [] ∨ ∃ t, b = c :: t) ∧ upTo (find [c] s) s = a ∧ onward (find [c] s) s = b.
Proof.
  destruct (decide (c ∈ s)) as [(a & t & -> & Ha)%list_elem_of_split_l|Hs].
  - exists a, (c :: t). rewrite find_at by done. unfold upTo, onward. rewrite take_app_length, drop_app_length.
    split_and!; eauto.
  - exists s, []. rewrite find_none by done. unfold upTo, onward. rewrite app_nil_r. split_and!; eauto.
Qed.

Lemma hasPrefix_app p s : hasPrefix p s = true → ∃ t, s = p ++ t.
Proof.
  revert s. induction p as [|x p IH]; intros s; [by exists s|]. destruct s as [|y s]; [done|]. cbn.
  intros [->%Z.eqb_eq (t & ->)%IH]%andb_prop. by exists t.
Qed.

Lemma find_Some p s i : find p s = Some i → ∃ t, s = take i s ++ p ++ t ∧ drop (i + length p) s = t.
Proof.
  revert i. induction s as [|x s IH]; intros i; cbn [find].
  - destruct (hasPrefix p []) eqn:E; [|done]. intros [= <-]. apply hasPrefix_app in E as (t & E).
    by apply symmetry, app_nil in E as [-> ->]; exists [].
  - destruct (hasPrefix p (x :: s)) eqn:E.
    + intros [= <-]. apply hasPrefix_app in E as (t & E). exists t. cbn [take app Nat.add].
      rewrite E. split; [done|apply drop_app_length].
    + destruct (find p s) as [j|]; [|done]. intros [= <-]. destruct (IH j eq_refl) as (t & E' & Ht). exists t.
      cbn. split; [by f_equal|done].
Qed.

(** What is left of a path once the slashes and the segments are off. *)
Definition clean (base : bytes) : Prop := list.last base ≠ Some 47 ∧ ¬ suffix graphqlSuffix base.

Lemma trimSlashes_snoc s c : trimSlashes (s ++ [c]) = if c =? 47 then trimSlashes s else s ++ [c].
Proof.
  unfold trimSlashes. rewrite reverse_snoc. cbn [dropSlashes]. destruct (Z.eqb_spec c 47) as [->|Hc]; [done|].
  transitivity (reverse (c :: reverse s)); [|by rewrite reverse_cons, reverse_involutive].
  f_equal. destruct c as [|p|p]; try done. do 6 (destruct p as [p|p|]; try done).
Qed.

Lemma trimSlashes_spec s : prefix (trimSlashes s) s ∧ list.last (trimSlashes s) ≠ Some 47.
Proof.
  induction s as [|c s [IH1 IH2]] using rev_ind; [done|]. rewrite trimSlashes_snoc.
  destruct (Z.eqb_spec c 47); [split; [by apply prefix_app_r|done]|]. split; [done|]. rewrite last_snoc. congruence.
Qed.

Lemma trimSlashes_id s : list.last s ≠ Some 47 → trimSlashes s = s.
Proof.
  destruct s as [|c s] using rev_ind; [done|]. rewrite last_snoc, trimSlashes_snoc. intros H.
  destruct (Z.eqb_spec c 47); [congruence|done].
Qed.

Lemma trimGraphql_S fuel s :
  trimGraphql (S fuel) s =
  if decide (suffix graphqlSuffix s) then trimGraphql fuel (trimSlashes (take (length s - length graphqlSuffix) s)) else s.
Proof.
  cbn [trimGraphql]. destruct (decide (suffix graphqlSuffix s)) as [(b & ->)|Hn].
  - rewrite length_app, Nat.add_sub, drop_app_length, bool_decide_true by done.
    by rewrite (proj2 (Nat.leb_le _ _)) by lia.
  - rewrite bool_decide_false, andb_false_r; [done|]. intros E. apply Hn. exists (take (length s - length graphqlSuffix) s).
    rewrite <- E at 2. by rewrite take_drop.
Qed.

Lemma trimGraphql_spec fuel s :
  (length s ≤ fuel)%nat → list.last s ≠ Some 47 → prefix (trimGraphql fuel s) s ∧ clean (trimGraphql fuel s).
Proof.
  revert s. induction fuel as [|fuel IH]; intros s Hf Hl.
  { destruct s; [|simpl in Hf; lia]. split; [done|]. split; [done|]. intros ([] & E); done. }
  rewrite trimGraphql_S. case_decide as Hs; [|done].
  set (t := take (length s - length graphqlSuffix) s). destruct (trimSlashes_spec t) as [Hp Ht].
  destruct (IH (trimSlashes t)) as [Hp' Hc].
  - apply prefix_length in Hp. unfold t in Hp at 2. rewrite length_take in Hp.
    destruct Hs as (b & ->). rewrite length_app in *. change (length graphqlSuffix) with 8%nat in *. lia.
  - done.
  - split; [|done]. etrans; [exact Hp'|]. etrans; [exact Hp|]. exists (drop (length s - length graphqlSuffix) s). unfold t; by rewrite take_drop.
Qed.

Lemma trimGraphql_clean fuel s : clean s → trimGraphql fuel s = s.
Proof. intros [_ Hs]. destruct fuel; [done|]. rewrite trimGraphql_S. by rewrite decide_False. Qed.

Definition baseOf (path : bytes) : bytes := trimGraphql (length (trimSlashes path)) (trimSlashes path).

Lemma baseOf_spec path : prefix (baseOf path) path ∧ clean (baseOf path).
Proof.
  destruct (trimSlashes_spec path) as [Hp Hl].
  destruct (trimGraphql_spec (length (trimSlashes path)) (trimSlashes path) (Nat.le_refl _) Hl) as [Hp' Hc].
  split; [|done]. by etrans.
Qed.

Lemma baseOf_again base : clean base → baseOf (base ++ graphqlSuffix) = base.
Proof.
  intros Hb. unfold baseOf.
  assert (trimSlashes (base ++ graphqlSuffix) = base ++ graphqlSuffix) as ->.
  { apply trimSlashes_id. by rewrite last_app. }
  rewrite length_app. change (length graphqlSuffix) with 8%nat. rewrite Nat.add_comm. cbn [Nat.add].
  rewrite trimGraphql_S, decide_True by by exists base.
  rewrite length_app, Nat.add_sub, take_app_length, trimSlashes_id by apply Hb. by apply trimGraphql_clean.
Qed.

(** The octets an endpoint may hold. *)
Definition plain (c : Z) : Prop := (c <=? 32) || (c =? 127) = false ∧ c ≠ 35.

(** The parts of an endpoint. *)
Definition url_parts (authority path query : bytes) : Prop :=
  authority ≠ [] ∧ 47 ∉ authority ∧ 63 ∉ authority ++ path ∧ (path = [] ∨ ∃ p, path = 47 :: p) ∧
  (query = [] ∨ ∃ q, query = 63 :: q) ∧ Forall plain (authority ++ path ++ query).

Definition normalized (ws authority path query : bytes) (kind : GraphQLWebSocketEndpointKind) : bytes :=
  ws ++ chars "://" ++ authority ++ (match kind with Complete => path | ApiBase => baseOf path ++ graphqlSuffix end) ++ query.

Lemma plain_iff s : Forall plain s ↔ existsb (λ c, (c <=? 32) || (c =? 127)) s = false ∧ find [35] s = None.
Proof.
  split.
  - intros Hs. split.
    + induction Hs as [|c s [Hc _] Hs IH]; [done|]. cbn. by rewrite Hc.
    + apply find_none. intros Hin. rewrite list.Forall_forall in Hs. by destruct (Hs 35 Hin).
  - induction s as [|c s IH]; [done|]. cbn [existsb find hasPrefix]. intros [[Hc Hs]%orb_false_elim Hf].
    destruct (Z.eqb_spec 35 c); [done|]. cbn [andb] in Hf. constructor; [split; [done|congruence]|].
    apply IH. split; [done|]. by destruct (find [35] s).
Qed.

Lemma wsScheme_self ws s : wsScheme s = Some ws → ws = chars "ws" ∨ ws = chars "wss".
Proof. unfold wsScheme. repeat case_match; intros [= <-]; auto. Qed.

Lemma cut_here c a b : c ∉ a → (b = [] ∨ ∃ t, b = c :: t) → upTo (find [c] (a ++ b)) (a ++ b) = a ∧ onward (find [c] (a ++ b)) (a ++ b) = b.
Proof.
  intros Ha [->|(t & ->)].
  - rewrite app_nil_r, find_none by done. done.
  - rewrite find_at by done. unfold upTo, onward. by rewrite take_app_length, drop_app_length.
Qed.

(** An endpoint made of its parts is normalized to the parts. *)
Lemma normalize_parts ws authority path query kind :
  ws = chars "ws" ∨ ws = chars "wss" → url_parts authority path query →
  normalizeGraphQLWebSocketUrl (ws ++ chars "://" ++ authority ++ path ++ query) kind =
  Val (normalized ws authority path query kind).
Proof.
  intros Hws (Hne & Ha & Hq & Hp & Hqu & Hpl). unfold normalizeGraphQLWebSocketUrl.
  assert (Forall plain (ws ++ chars "://" ++ authority ++ path ++ query)) as [-> ->]%plain_iff.
  { rewrite !app_assoc, <- (app_assoc ws), <- !app_assoc. apply Forall_app_2; [by destruct Hws as [-> | ->]; repeat constructor|].
    apply Forall_app_2; [by repeat constructor|done]. }
  set (rest := authority ++ path ++ query) in *.
  assert (find (chars "://") (ws ++ chars "://" ++ rest) = Some (length ws)) as -> by by destruct Hws as [-> | ->].
  rewrite take_app_length, <- drop_drop, drop_app_length.
  assert (wsScheme (uppercase ws) = Some ws) as -> by by destruct Hws as [-> | ->].
  rewrite bool_decide_false by by destruct Hws as [-> | ->]. rewrite bool_decide_false by tauto.
  cbv zeta. change (drop 3 (chars "://" ++ rest)) with rest. unfold rest. rewrite app_assoc.
  destruct (cut_here 63 (authority ++ path) query Hq Hqu) as [-> ->].
  destruct (cut_here 47 authority path Ha Hp) as [-> ->].
  rewrite bool_decide_false by done. unfold normalized, baseOf. destruct kind; by rewrite <- ?app_assoc.
Qed.

Lemma url_parts_path authority path path' query :
  url_parts authority path query → 63 ∉ path' → (path' = [] ∨ ∃ p, path' = 47 :: p) → Forall plain path' →
  url_parts authority path' query.
Proof.
  intros (Hne & Ha & Hq & Hp & Hqu & Hpl) H1 H2 H3. split_and!; try done.
  - rewrite elem_of_app in *. tauto.
  - rewrite !Forall_app in *. tauto.
Qed.

(** What [normalizeGraphQLWebSocketUrl] accepts it reads as a scheme, an authority, a path and
    a query, and it keeps the authority and the query: the scheme becomes ws or wss; the path of a
    complete endpoint is kept, and that of an API base is cut to a prefix without a slash or a
    "/graphql" at its end, and ends in exactly one "/graphql". Normalizing again changes
    nothing. *)
Theorem normalizeUrl_canonical endpoint kind r :
  normalizeGraphQLWebSocketUrl endpoint kind = Val r →
  (∃ scheme ws authority path query,
    endpoint = scheme ++ chars "://" ++ authority ++ path ++ query ∧ url_parts authority path query ∧
    wsScheme (uppercase scheme) = Some ws ∧ r = normalized ws authority path query kind ∧
    prefix (baseOf path) path ∧ clean (baseOf path)) ∧
  normalizeGraphQLWebSocketUrl r kind = Val r.
Proof.
  unfold normalizeGraphQLWebSocketUrl at 1. case_bool_decide as He; [done|].
  destruct (existsb _ endpoint) eqn:Hb; [done|]. case_bool_decide as Hf; [done|].
  destruct (find (chars "://") endpoint) as [i|] eqn:Hs; [|done].
  destruct (wsScheme (uppercase (take i endpoint))) as [ws|] eqn:Hws; [|done]. cbv zeta.
  apply find_Some in Hs as (rest & E & Hr). change (length (chars "://")) with 3%nat in Hr. rewrite Hr.
  destruct (find_cut 63 rest) as (address & query & Er & Hq & Hqu & -> & ->).
  destruct (find_cut 47 address) as (authority & path & Ea & Hsl & Hp & -> & ->).
  case_bool_decide as Hau; [done|]. intros Hk.
  assert (Forall plain (authority ++ path ++ query)) as Hpl.
  { assert (Forall plain endpoint) as H by (apply plain_iff; destruct (find [35] endpoint); [by destruct Hf|done]).
    rewrite E, Er, Ea in H. apply Forall_app in H as [_ H]. apply Forall_app in H as [_ H]. by rewrite <- app_assoc in H. }
  assert (url_parts authority path query) as Hparts by (rewrite Ea in Hq; by split_and!).
  destruct (baseOf_spec path) as [Hpre Hcl].
  assert (r = normalized ws authority path query kind) as ->.
  { unfold normalized, baseOf. destruct kind; injection Hk as <-; [done|]. by rewrite Ea, <- app_assoc. }
  split.
  - exists (take i endpoint), ws, authority, path, query. split_and!; try done. by rewrite E at 1; rewrite Er, Ea, <- app_assoc.
  - apply wsScheme_self in Hws. destruct kind; unfold normalized; [|by rewrite normalize_parts].
    rewrite normalize_parts; [|done|].
    + unfold normalized. by rewrite baseOf_again.
    + destruct Hpre as (t & Et). assert (baseOf path = [] ∨ ∃ p, baseOf path = 47 :: p) as Hb'.
      { destruct Hp as [->|(p & ->)]; [left; by apply symmetry, app_nil in Et as [-> _]|].
        destruct (baseOf (47 :: p)) as [|c b]; [by left|]. injection Et as <- _. right. eauto. }
      eapply url_parts_path; [exact Hparts|..].
      * rewrite elem_of_app. intros [H|H]; [|by vm_compute in H; repeat (apply elem_of_cons in H as [H|H]; [done|]); apply elem_of_nil in H].
        destruct Hparts as (_ & _ & Hn & _). apply Hn. rewrite elem_of_app. right. rewrite Et. apply elem_of_app. by left.
      * right. destruct Hb' as [->|(p & ->)]; by eexists.
      * apply Forall_app_2; [|by repeat constructor]. apply Forall_app in Hpl as [_ Hpl]. apply Forall_app in Hpl as [Hpl _].
        rewrite Et in Hpl. by apply Forall_app in Hpl as [Hpl _].
Qed.
