(* ===== verification/SubErrors.v ===== *)
(** * Errors of GraphQL subscriptions

    [src/graphql/error_extensions.hpp] (how an entry of a GraphQL [errors] array is read) and, from
    [src/graphql/subscription_client.cpp], how errors, closed sockets and transport failures are
    classified, and how long the client waits before it reconnects. An undefined conversion is
    [None]. *)

From Stdlib Require Import QArith.
From S2P Require Import Prelude Bytes Core Json Endpoint.

Open Scope Z_scope.

(** ** Entries of an errors array *)

Record MissingLegalDocument := mkMissing { ml_documentId : bytes; ml_version : bytes; ml_appId : bytes }.

Record GraphQLErrorDetail := mkDetail {
  ed_message : bytes; ed_code : bytes; ed_remediation : bytes; ed_path : bytes; ed_appId : bytes;
  ed_appDatacenter : bytes; ed_servedBy : bytes; ed_gameApiUrl : bytes; ed_gameApiWsUrl : bytes;
  ed_retryable : bool; ed_blame : bytes; ed_retryAfterMs : option Z; ed_httpStatus : option Z;
  ed_cause : bytes; ed_ownedByCaller : option bool; ed_suspendedUntil : bytes; ed_blockedUntil : bytes;
  ed_reason : bytes; ed_country : bytes; ed_missingDocuments : list MissingLegalDocument;
  ed_requiredMicrousd : bytes; ed_spendableMicrousd : bytes }.

(** A number, as far as it is one. *)
Definition numberOf (v : View) : option (option Z) :=
  if isNumber v then n ← asInt64 v 0; Some (Some n) else Some None.

Definition missingDocument (document : View) : MissingLegalDocument :=
  let field := field document in
  mkMissing (asString (field (chars "documentId")) []) (asString (field (chars "version")) [])
    (if negb (isNull (field (chars "appId"))) then asBigIntString (field (chars "appId")) [] else []).

(** The dotted path, from what is read of it. *)
Fixpoint dottedPath (path : bytes) (segments : list Json) : option bytes :=
  match segments with
  | [] => Some path
  | segment :: segments =>
      let path := if bool_decide (path = []) then path else path ++ [46] in
      text ← (if isString (Some segment) then Some (asString (Some segment) [])
              else n ← asInt64 (Some segment) 0; Some (decimal n));
      dottedPath (path ++ text) segments
  end.

Definition readGraphQLError (entry : View) (fallbackMessage : bytes) : option GraphQLErrorDetail :=
  let extensions := field entry (chars "extensions") in
  let text name := asString (field extensions (chars name)) [] in
  let flag name := field extensions (chars name) in
  retryAfterMs ← numberOf (flag "retryAfterMs");
  httpStatus ← numberOf (flag "httpStatus");
  path ← dottedPath [] (elements (field entry (chars "path")));
  Some (mkDetail (asString (field entry (chars "message")) fallbackMessage)
    (text "code") (text "remediation") path (text "appId") (text "appDatacenter") (text "servedBy")
    (text "gameApiUrl") (text "gameApiWsUrl")
    (negb (isBool (flag "retryable")) || asBool (flag "retryable") false)
    (text "blame") retryAfterMs (wrapS 32 <$> httpStatus) (text "cause")
    (if isBool (flag "ownedByCaller") then Some (asBool (flag "ownedByCaller") false) else None)
    (text "suspendedUntil") (text "blockedUntil") (text "reason") (text "country")
    ((λ d, missingDocument (Some d)) <$> elements (flag "missingDocuments"))
    (text "requiredMicrousd") (text "spendableMicrousd")).

(** The entries that are objects. *)
Fixpoint readEntries (items : list Json) : option (list GraphQLErrorDetail) :=
  match items with
  | [] => Some []
  | item :: items =>
      if isObject (Some item) then
        e ← readGraphQLError (Some item) (chars "GraphQL subscription error");
        l ← readEntries items; Some (e :: l)
      else readEntries items
  end.

Definition parseGraphQLErrors (value : View) : option (list GraphQLErrorDetail) :=
  let value := if isObject value && isArray (field value (chars "errors")) then field value (chars "errors") else value in
  if isArray value then readEntries (elements value)
  else match value with Some v => readEntries [v] | None => Some [] end.

(** ** Errors of a subscription *)

Inductive GraphQLSubscriptionErrorKind :=
| KTransportUnavailable | KTransport | KTimeout | KProtocol | KFrameTooLarge | KInvalidUtf8 | KGraphQL
| KAuthentication | KAuthorization | KAppScope | KStaleClientEpoch | KReconnectExhausted.

#[global] Instance GraphQLSubscriptionErrorKind_eq_dec : EqDecision GraphQLSubscriptionErrorKind.
Proof. solve_decision. Defined.

Record GraphQLSubscriptionError := mkSubError {
  se_status : Status; se_kind : GraphQLSubscriptionErrorKind; se_code : bytes; se_message : bytes;
  se_errors : list GraphQLErrorDetail; se_closeCode : Z; se_retryable : bool; se_terminal : bool }.

Definition set_closeCode (code : Z) (e : GraphQLSubscriptionError) : GraphQLSubscriptionError :=
  mkSubError (se_status e) (se_kind e) (se_code e) (se_message e) (se_errors e) code (se_retryable e) (se_terminal e).

Definition hasSuffix (p s : bytes) : bool := hasPrefix (reverse p) (reverse s).
Definition oneOf (code : bytes) (names : list string) : bool := existsb (λ name, bool_decide (code = chars name)) names.

(** The status and the kind of an upper-case code. *)
Definition kindOfCode (code : bytes) : Status * GraphQLSubscriptionErrorKind :=
  if oneOf code ["UNAUTHENTICATED"; "AUTH_REQUIRED"; "TOKEN_EXPIRED"; "INVALID_TOKEN"; "AUTHENTICATION_ERROR"]%string
  then (TokenExpired, KAuthentication)
  else if oneOf code ["FORBIDDEN"; "UNAUTHORIZED"]%string then (Rejected, KAuthorization)
  else if oneOf code ["APP_ID_REQUIRED"; "APP_SCOPE_REQUIRED"; "APP_SCOPE_MISMATCH"; "APP_TOKEN_SCOPE_MISMATCH"]%string
  then (Rejected, KAppScope)
  else if oneOf code ["CLIENT_EPOCH_STALE"; "AGENT_CLIENT_EPOCH_STALE"]%string || hasSuffix (chars "_CLIENT_EPOCH_STALE") code
  then (Rejected, KStaleClientEpoch)
  else (Rejected, KGraphQL).

Definition classifyGraphQLError (errors : list GraphQLErrorDetail) : GraphQLSubscriptionError :=
  let code := match errors with
    | e :: _ => if bool_decide (ed_code e = []) then chars "GRAPHQL_SUBSCRIPTION_ERROR" else ed_code e
    | [] => chars "GRAPHQL_SUBSCRIPTION_ERROR" end in
  let message := match errors with e :: _ => ed_message e | [] => chars "GraphQL subscription failed" end in
  let '(status, kind) := kindOfCode (uppercase code) in
  mkSubError status kind code message errors 0 false true.

Definition protocolError (kind : GraphQLSubscriptionErrorKind) (status : Status) (code message : bytes) : GraphQLSubscriptionError :=
  mkSubError status kind code message [] 0 false true.

Definition isTerminalSubscriptionErrorCode (code : bytes) : bool :=
  let normalized := uppercase code in
  oneOf normalized ["UNAUTHENTICATED"; "AUTH_REQUIRED"; "TOKEN_EXPIRED"; "INVALID_TOKEN"; "AUTHENTICATION_ERROR";
    "FORBIDDEN"; "UNAUTHORIZED"; "APP_ID_REQUIRED"; "APP_SCOPE_REQUIRED"; "APP_SCOPE_MISMATCH";
    "APP_TOKEN_SCOPE_MISMATCH"; "CLIENT_EPOCH_STALE"; "AGENT_CLIENT_EPOCH_STALE"]%string
  || hasSuffix (chars "_CLIENT_EPOCH_STALE") normalized.

(** ** Closed sockets and transport failures *)

Definition candidates : list string :=
  ["AUTH_REQUIRED"; "UNAUTHENTICATED"; "TOKEN_EXPIRED"; "APP_ID_REQUIRED"; "APP_SCOPE_REQUIRED"; "APP_SCOPE_MISMATCH";
   "APP_TOKEN_SCOPE_MISMATCH"; "AGENT_CLIENT_EPOCH_STALE"; "CLIENT_EPOCH_STALE"]%string.

Definition reasonCode (reason : bytes) : bytes :=
  let upper := uppercase reason in
  match list_find (λ c, find (chars c) upper ≠ None) candidates with
  | Some (_, candidate) => chars candidate
  | None => []
  end.

Record WebSocketCloseInfo := mkClose { wc_code : Z; wc_reason : bytes }.

(** A default [GraphQLErrorDetail] with a code and a message. *)
Definition plainDetail (code message : bytes) : GraphQLErrorDetail :=
  mkDetail message code [] [] [] [] [] [] [] true [] None None [] None [] [] [] [] [] [] [].

Definition mapClose (close : WebSocketCloseInfo) : GraphQLSubscriptionError :=
  let code := wc_code close in
  let reason := wc_reason close in
  let stableReasonCode := reasonCode reason in
  if negb (bool_decide (stableReasonCode = [])) then
    set_closeCode code (classifyGraphQLError
      [plainDetail stableReasonCode (if bool_decide (reason = []) then stableReasonCode else reason)])
  else
    let message := if bool_decide (reason = []) then chars "WebSocket closed with code " ++ decimal code else reason in
    let error status kind name retryable := mkSubError status kind (chars name) message [] code retryable (negb retryable) in
    if code =? 4401 then error TokenExpired KAuthentication "UNAUTHENTICATED" false
    else if (code =? 4403) || (code =? 1008) then error Rejected KAuthorization "FORBIDDEN" false
    else if code =? 4408 then error Timeout KTimeout "ACKNOWLEDGEMENT_TIMEOUT" true
    else if code =? 1007 then error Malformed KInvalidUtf8 "INVALID_UTF8" false
    else if code =? 1009 then error BufferTooSmall KFrameTooLarge "FRAME_TOO_LARGE" false
    else if existsb (Z.eqb code) [1002; 1003; 4400; 4406; 4409; 4429]
    then error Malformed KProtocol "WEBSOCKET_PROTOCOL_ERROR" false
    else error SocketError KTransport "WEBSOCKET_CLOSED" true.

Inductive WebSocketErrorKind :=
| WUnavailable | WResolve | WTls | WConnection | WTimeout | WIo | WProtocol | WFrameTooLarge | WInvalidUtf8 | WCancelled.

Record WebSocketError := mkWsError { we_kind : WebSocketErrorKind; we_status : Status; we_message : bytes; we_retryable : bool }.

Definition mapTransportError (source : WebSocketError) : GraphQLSubscriptionError :=
  let message := if bool_decide (we_message source = []) then chars "WebSocket transport failed" else we_message source in
  let error status kind name retryable := mkSubError status kind (chars name) message [] 0 retryable (negb retryable) in
  let status := we_status source in
  let retryable := we_retryable source in
  match we_kind source with
  | WUnavailable => error status KTransportUnavailable "WEBSOCKET_TRANSPORT_UNAVAILABLE" retryable
  | WTimeout => error status KTimeout "WEBSOCKET_TIMEOUT" retryable
  | WProtocol => error status KProtocol "WEBSOCKET_PROTOCOL_ERROR" retryable
  | WFrameTooLarge => error status KFrameTooLarge "FRAME_TOO_LARGE" false
  | WInvalidUtf8 => error status KInvalidUtf8 "INVALID_UTF8" false
  | WCancelled => error Closed KTransport "WEBSOCKET_CANCELLED" false
  | WResolve | WTls | WConnection | WIo => error status KTransport "WEBSOCKET_TRANSPORT_ERROR" retryable
  end.

(** ** The wait before a reconnect *)

Record GraphQLSubscriptionOptions := mkSubOptions {
  so_connectTimeoutMs : Z; so_acknowledgementTimeoutMs : Z; so_initialReconnectDelayMs : Z;
  so_maxReconnectDelayMs : Z; so_maxReconnectAttempts : nat; so_reconnectJitter : Q; so_maxFrameBytes : nat }.

Definition defaultSubOptions : GraphQLSubscriptionOptions :=
  mkSubOptions 10000 10000 250 10000 8 (1 # 5) (1024 * 1024).

(** Multiplying a [long]; an overflow is undefined. *)
Definition mulLong (a b : Z) : option Z := if bool_decide (in_s 64 (a * b)) then Some (a * b) else UB.

(** The loop that doubles the delay, [n] turns at most. *)
Fixpoint doubled (n : nat) (base maximum : Z) : option Z :=
  match n with
  | O => Some base
  | S n =>
      if base <? maximum then
        base ← (if maximum / 2 <? base then Some maximum else mulLong base 2); doubled n base maximum
      else Some base
  end.

(** [std::clamp] of the jitter to [0, 1]. *)
Definition clampJitter (j : Q) : Q := if Qle_bool j 0 then 0%Q else if Qle_bool 1 j then 1%Q else j.

Section Delay.
(** The generator, and [std::llround] of a delay varied by a random factor of [1 - jitter] to
    [1 + jitter]. *)
Context {random : Type} (varied : random → Q → Z → Z * random).

Definition reconnectDelay (options : GraphQLSubscriptionOptions) (attempt : nat) (g : random) : option (Z * random) :=
  let initial := Z.max 0 (so_initialReconnectDelayMs options) in
  let maximum := Z.max initial (so_maxReconnectDelayMs options) in
  base ← doubled (attempt - 1) initial maximum;
  let base := Z.min base maximum in
  let jitter := clampJitter (so_reconnectJitter options) in
  if (base =? 0) || Qeq_bool jitter 0 then Some (base, g) else
  let '(v, g) := varied g jitter base in
  Some (Z.max 0 (Z.min v maximum), g).
End Delay.

(** ** The policy, as a whole *)

Lemma oneOf_app c l1 l2 : oneOf c (l1 ++ l2) = oneOf c l1 || oneOf c l2.
Proof. apply existsb_app. Qed.

(** The kinds that ask for more than another attempt. *)
Definition refusalKind (k : GraphQLSubscriptionErrorKind) : bool :=
  bool_decide (k = KAuthentication) || bool_decide (k = KAuthorization) || bool_decide (k = KAppScope) ||
  bool_decide (k = KStaleClientEpoch).

Lemma kindOfCode_terminal code :
  refusalKind (kindOfCode (uppercase code)).2 = isTerminalSubscriptionErrorCode code.
Proof.
  unfold isTerminalSubscriptionErrorCode, kindOfCode. set (c := uppercase code).
  change (["UNAUTHENTICATED"; "AUTH_REQUIRED"; "TOKEN_EXPIRED"; "INVALID_TOKEN"; "AUTHENTICATION_ERROR";
    "FORBIDDEN"; "UNAUTHORIZED"; "APP_ID_REQUIRED"; "APP_SCOPE_REQUIRED"; "APP_SCOPE_MISMATCH";
    "APP_TOKEN_SCOPE_MISMATCH"; "CLIENT_EPOCH_STALE"; "AGENT_CLIENT_EPOCH_STALE"]%string) with
    (["UNAUTHENTICATED"; "AUTH_REQUIRED"; "TOKEN_EXPIRED"; "INVALID_TOKEN"; "AUTHENTICATION_ERROR"]%string ++
     ["FORBIDDEN"; "UNAUTHORIZED"]%string ++
     ["APP_ID_REQUIRED"; "APP_SCOPE_REQUIRED"; "APP_SCOPE_MISMATCH"; "APP_TOKEN_SCOPE_MISMATCH"]%string ++
     ["CLIENT_EPOCH_STALE"; "AGENT_CLIENT_EPOCH_STALE"]%string).
  rewrite !oneOf_app, <- !orb_assoc. by repeat (destruct (oneOf c _); [done|]); destruct (hasSuffix _ c).
Qed.

Lemma reasonCode_terminal reason :
  reasonCode reason = [] ∨ isTerminalSubscriptionErrorCode (reasonCode reason) = true.
Proof.
  unfold reasonCode. destruct (list_find _ candidates) as [[i c]|] eqn:E; [|by left]. right.
  apply list_find_Some in E as (E & _ & _). unfold candidates in E.
  do 9 (destruct i as [|i]; [injection E as <-; by vm_compute|]). done.
Qed.

(** The three ways an error arises agree on the reconnect policy: an error is terminal exactly
    when it is not retryable; the server's errors never are retryable, and their kind names a
    refusal exactly when [isTerminalSubscriptionErrorCode] says so of the code they report; a
    closed socket whose reason or code names a refusal is not retried. *)
Theorem subscription_errors_consistent errors close failure :
  let e := classifyGraphQLError errors in
  (se_terminal e = true ∧ se_retryable e = false ∧ refusalKind (se_kind e) = isTerminalSubscriptionErrorCode (se_code e) ∧
    (se_status e = TokenExpired ↔ se_kind e = KAuthentication)) ∧
  (let e := mapClose close in
    se_terminal e = negb (se_retryable e) ∧ se_closeCode e = wc_code close ∧
    (refusalKind (se_kind e) = true → se_retryable e = false) ∧
    (se_retryable e = true → reasonCode (wc_reason close) = []) ∧
    (reasonCode (wc_reason close) ≠ [] → refusalKind (se_kind e) = true)) ∧
  (let e := mapTransportError failure in
    se_terminal e = negb (se_retryable e) ∧ refusalKind (se_kind e) = false ∧
    (se_retryable e = true → we_retryable failure = true)).
Proof.
  cbv zeta. assert (∀ errors, let e := classifyGraphQLError errors in
    se_terminal e = true ∧ se_retryable e = false ∧ refusalKind (se_kind e) = isTerminalSubscriptionErrorCode (se_code e) ∧
    (se_status e = TokenExpired ↔ se_kind e = KAuthentication)) as Hc.
  { clear. intros errors. unfold classifyGraphQLError. set (code := match errors with [] => _ | _ => _ end).
    pose proof (kindOfCode_terminal code) as Hk.
    assert ((kindOfCode (uppercase code)).1 = TokenExpired ↔ (kindOfCode (uppercase code)).2 = KAuthentication) as Hs
      by (unfold kindOfCode; by repeat case_match).
    destruct (kindOfCode (uppercase code)) as [st k]. by split_and!. }
  split; [apply Hc|]. split.
  - unfold mapClose. case_bool_decide as Hr; cbn [negb].
    + repeat case_match; cbn; split_and!; try done; by intros ?.
    + destruct (Hc [plainDetail (reasonCode (wc_reason close))
        (if bool_decide (wc_reason close = []) then reasonCode (wc_reason close) else wc_reason close)]) as (H1 & H2 & H3 & _).
      cbn. rewrite H1, H2, H3. split_and!; try done. intros _.
      unfold classifyGraphQLError at 1. cbn [ed_code plainDetail]. rewrite bool_decide_false by done.
      destruct (kindOfCode _). cbn. by destruct (reasonCode_terminal (wc_reason close)).
  - unfold mapTransportError. destruct failure as [[] st m []]; cbn; split_and!; done.
Qed.

Lemma doubled_spec n base maximum :
  0 ≤ base ≤ maximum → maximum < 2 ^ 63 →
  doubled n base maximum = Some (Z.min maximum (base * 2 ^ Z.of_nat n)).
Proof.
  intros Hb Hm. revert base Hb. induction n as [|n IH]; intros base Hb; cbn [doubled].
  { f_equal. change (2 ^ Z.of_nat 0) with 1. lia. }
  assert (2 ^ Z.of_nat (S n) = 2 * 2 ^ Z.of_nat n) as -> by (rewrite Nat2Z.inj_succ, Z.pow_succ_r; lia).
  pose proof (pow2_pos (Z.of_nat n) ltac:(lia)).
  destruct (Z.ltb_spec base maximum); [|f_equal; nia].
  destruct (Z.ltb_spec (maximum / 2) base).
  - cbn [mbind option_bind]. rewrite IH by lia. f_equal. assert (maximum < 2 * base) by (Z.div_mod_to_equations; lia). nia.
  - assert (2 * base ≤ maximum) by (Z.div_mod_to_equations; lia).
    unfold mulLong. rewrite bool_decide_true by (unfold in_s; lia). cbn [mbind option_bind]. rewrite IH by lia. f_equal. nia.
Qed.

Definition delayLimit (options : GraphQLSubscriptionOptions) : Z :=
  Z.max (Z.max 0 (so_initialReconnectDelayMs options)) (so_maxReconnectDelayMs options).
Definition baseDelay (options : GraphQLSubscriptionOptions) (attempt : nat) : Z :=
  Z.min (delayLimit options) (Z.max 0 (so_initialReconnectDelayMs options) * 2 ^ Z.of_nat (attempt - 1)).

Lemma reconnectDelay_eq {random} (varied : random → Q → Z → Z * random) options attempt g :
  in_s 64 (so_initialReconnectDelayMs options) → in_s 64 (so_maxReconnectDelayMs options) →
  reconnectDelay varied options attempt g = Some (
    if (baseDelay options attempt =? 0) || Qeq_bool (clampJitter (so_reconnectJitter options)) 0 then (baseDelay options attempt, g) else
    let '(v, g) := varied g (clampJitter (so_reconnectJitter options)) (baseDelay options attempt) in
    (Z.max 0 (Z.min v (delayLimit options)), g)).
Proof.
  intros Hi Hm. unfold reconnectDelay, baseDelay, delayLimit. set (initial := Z.max 0 _). set (maximum := Z.max initial _).
  assert (0 ≤ initial ≤ maximum ∧ maximum < 2 ^ 63) as [Hb Hx] by (unfold in_s in *; subst initial maximum; lia).
  rewrite doubled_spec by done. cbn [mbind option_bind].
  replace (Z.min (Z.min maximum (initial * 2 ^ Z.of_nat (attempt - 1))) maximum)
    with (Z.min maximum (initial * 2 ^ Z.of_nat (attempt - 1))) by lia.
  destruct (_ || _); [done|]. by destruct (varied g _ _).
Qed.

Lemma baseDelay_bounds options attempt : 0 ≤ baseDelay options attempt ≤ delayLimit options.
Proof.
  unfold baseDelay, delayLimit. pose proof (pow2_pos (Z.of_nat (attempt - 1)) ltac:(lia)). set (i := Z.max 0 _).
  assert (0 ≤ i * 2 ^ Z.of_nat (attempt - 1)) by nia. lia.
Qed.

Lemma reconnectDelay_defined {random} (varied : random → Q → Z → Z * random) options attempt g :
  in_s 64 (so_initialReconnectDelayMs options) → in_s 64 (so_maxReconnectDelayMs options) →
  ∃ delay g', reconnectDelay varied options attempt g = Some (delay, g') ∧ 0 ≤ delay ≤ delayLimit options.
Proof.
  intros Hi Hm. rewrite reconnectDelay_eq by done. pose proof (baseDelay_bounds options attempt).
  destruct (_ || _); [|destruct (varied g _ _) as [v g']]; do 2 eexists; (split; [done|lia]).
Qed.

(** The wait before attempt [n] is defined whatever the options say, with no overflow on the
    way: it is between 0 and the maximum, and without jitter it is the initial delay doubled with
    every attempt after the first, up to the maximum. *)
Theorem reconnectDelay_bounded {random} (varied : random → Q → Z → Z * random) options attempt g :
  in_s 64 (so_initialReconnectDelayMs options) → in_s 64 (so_maxReconnectDelayMs options) →
  let initial := Z.max 0 (so_initialReconnectDelayMs options) in
  let maximum := Z.max initial (so_maxReconnectDelayMs options) in
  ∃ delay g', reconnectDelay varied options attempt g = Some (delay, g') ∧ 0 ≤ delay ≤ maximum ∧
    (clampJitter (so_reconnectJitter options) == 0 →
      delay = Z.min maximum (initial * 2 ^ Z.of_nat (attempt - 1)) ∧ g' = g)%Q.
Proof.
  intros Hi Hm initial maximum. destruct (reconnectDelay_defined varied options attempt g Hi Hm) as (delay & g' & E & Hd).
  exists delay, g'. split_and!; [done|apply Hd..|]. intros Hj%Qeq_bool_iff. rewrite reconnectDelay_eq, Hj, orb_true_r in E by done.
  by injection E as <- <-.
Qed.

Example error_details :
  let entry := JObj [(chars "message", JStr (chars "no")); (chars "path", JArr [JStr (chars "a"); JUint 3]);
    (chars "extensions", JObj [(chars "code", JStr (chars "token_expired")); (chars "retryAfterMs", JUint 0)])] in
  (e ← parseGraphQLErrors (Some (JArr [entry; JNull])); Some (ed_path <$> e, ed_retryAfterMs <$> e, se_kind (classifyGraphQLError e)))
    = Some ([chars "a.3"], [Some 0], KAuthentication) ∧
  se_kind (mapClose (mkClose 1006 (chars "AGENT_CLIENT_EPOCH_STALE: gone"))) = KStaleClientEpoch ∧
  se_retryable (mapClose (mkClose 1006 [])) = true.
Proof. by vm_compute. Qed.
