(* ===== verification/Tasks.v ===== *)
(** * Threads that run tasks

    The frame the Exec connection and the kit's runtime share. A method of such a
    class runs as a list of tasks: a critical section of its mutex or a call to the outside, each
    one atomic. A system is a state shared by threads, each a list of tasks, and the log of what
    happened outside. A move enters a method on a new thread or performs the first task of some
    thread, so every interleaving is a sequence of moves. Sequences are executable;
    [tasks_invariant] is the rule for invariants, which sees the tasks left up to their order.

    Sorted maps are here too ([look], [emplace], [erase], [change]), and
    [Queue], the dispatcher of [include/crowdy/graphql/dispatcher.hpp]. *)

From S2P Require Import Prelude Bytes.

Local Open Scope nat_scope.

(** [G] is what the outside gives to a task: the time, random draws, answers. *)
Class Worker (St Tk Nt G : Type) := {
  perform : G → Tk → St → option (St * list Tk * list Nt);
  enters : Tk → St → list Nt → option (list Nt) (** what is logged when a method is entered *) }.

Inductive Step {Tk G : Type} := SEnter (t : Tk) | SPerform (thread : nat) (given : G).
Arguments Step : clear implicits.

Section Threads.
Context {St Tk Nt G : Type} `{!Worker St Tk Nt G}.

Record Work := mkWork { wk_state : St; wk_threads : list (list Tk); wk_log : list Nt }.

Definition step (x : Step Tk G) (s : Work) : option Work :=
  match x with
  | SEnter t =>
      ns ← enters t (wk_state s) (wk_log s);
      Some (mkWork (wk_state s) (wk_threads s ++ [[t]]) (wk_log s ++ ns))
  | SPerform i given =>
      match wk_threads s !! i with
      | Some (t :: rest) =>
          '(st, next, ns) ← perform given t (wk_state s);
          Some (mkWork st (<[i := next ++ rest]> (wk_threads s)) (wk_log s ++ ns))
      | _ => None
      end
  end.

Fixpoint run (xs : list (Step Tk G)) (s : Work) : option Work :=
  match xs with
  | [] => Some s
  | x :: xs => s ← step x s; run xs s
  end.

Definition left_to_do (s : Work) : list Tk := concat (wk_threads s).

Definition fresh (st : St) : Work := mkWork st [] [].

(** What can be reached when the outside only gives what is [good]. *)
Definition gives (good : G → Prop) (x : Step Tk G) : Prop := match x with SPerform _ g => good g | SEnter _ => True end.
Definition reaches (good : G → Prop) (st : St) (s : Work) : Prop :=
  ∃ xs, Forall (gives good) xs ∧ run xs (fresh st) = Some s.

Lemma run_app xs ys s : run (xs ++ ys) s = s' ← run xs s; run ys s'.
Proof.
  revert s. induction xs as [|x xs IH]; intros s; [done|]. cbn.
  destruct (step x s); [apply IH|done].
Qed.

(** ** The rule for invariants *)

Lemma concat_replaced (threads : list (list Tk)) i ts next :
  threads !! i = Some ts → ∃ others, concat threads ≡ₚ ts ++ others ∧ concat (<[i := next]> threads) ≡ₚ next ++ others.
Proof.
  intros Hi. exists (concat (take i threads) ++ concat (drop (S i) threads)).
  rewrite <- (take_drop_middle threads i ts Hi) at 1.
  rewrite insert_take_drop by (by eapply lookup_lt_Some). rewrite !concat_app. cbn [concat].
  split; solve_Permutation.
Qed.

(** What an invariant sees: the state, the tasks left in any order, the log. *)
Definition View := St → list Tk → list Nt → Prop.

Record kept (good : G → Prop) (I : View) : Prop := {
  kept_order : ∀ st ts ts' log, ts ≡ₚ ts' → I st ts log → I st ts' log;
  kept_enter : ∀ t st ts log ns, I st ts log → enters t st log = Some ns → I st (t :: ts) (log ++ ns);
  kept_perform : ∀ g t st ts log st' next ns, I st (t :: ts) log → good g →
    perform g t st = Some (st', next, ns) → I st' (next ++ ts) (log ++ ns) }.

Lemma step_kept good I x s s' :
  kept good I → gives good x → step x s = Some s' → I (wk_state s) (left_to_do s) (wk_log s) → I (wk_state s') (left_to_do s') (wk_log s').
Proof.
  intros [Hp He Hs] Hx E HI. unfold left_to_do in *. destruct x as [t|i g]; cbn [step] in E.
  - apply bind_Some in E as (ns & E & [= <-]). cbn. rewrite concat_app. cbn.
    eapply Hp; [|by eapply He]. solve_Permutation.
  - destruct (wk_threads s !! i) as [[|t rest]|] eqn:Hi; try done.
    apply bind_Some in E as ([[st next] ns] & E & [= <-]). cbn.
    destruct (concat_replaced _ _ _ (next ++ rest) Hi) as (others & H1 & H2).
    eapply Hp; [symmetry; exact H2|]. rewrite <- app_assoc.
    eapply Hs; [|exact Hx|exact E]. eapply Hp; [exact H1|exact HI].
Qed.

Theorem tasks_invariant good I st s :
  kept good I → I st [] [] → reaches good st s → I (wk_state s) (left_to_do s) (wk_log s).
Proof.
  intros HI H0 (xs & Hxs & E). assert (I (wk_state (fresh st)) (left_to_do (fresh st)) (wk_log (fresh st))) as H1 by done.
  clear H0. revert E H1. generalize (fresh st). induction Hxs as [|x xs Hx Hxs IH]; intros s0; cbn.
  - by intros [= <-].
  - intros (s1 & E & Hr)%bind_Some H1. apply (IH s1 Hr). by eapply step_kept.
Qed.
End Threads.
Arguments Work : clear implicits.
Arguments mkWork {_ _ _} _ _ _.
#[export] Hint Mode Worker ! - - - : typeclass_instances.

(** ** Counting *)

Definition number {A} (p : A → bool) (l : list A) : nat := length (List.filter p l).
#[global] Arguments number : simpl never.

Lemma number_nil {A} (p : A → bool) : number p [] = 0.
Proof. done. Qed.
Lemma number_cons {A} (p : A → bool) x l : number p (x :: l) = (if p x then 1 else 0) + number p l.
Proof. unfold number. cbn. by destruct (p x). Qed.
Lemma number_app {A} (p : A → bool) l l' : number p (l ++ l') = number p l + number p l'.
Proof. induction l as [|x l IH]; [done|]. cbn [app]. rewrite !number_cons, IH. lia. Qed.
#[export] Instance number_Permutation {A} (p : A → bool) : Proper ((≡ₚ) ==> eq) (number p).
Proof. induction 1; rewrite ?number_cons; lia. Qed.

(** One or none. *)
Definition tally (b : bool) : nat := if b then 1 else 0.

(** A weight that is summed. *)
Definition total {A} (w : A → nat) (l : list A) : nat := sum_list_with w l.
#[global] Arguments total : simpl never.

Lemma total_nil {A} (w : A → nat) : total w [] = 0.
Proof. done. Qed.
Lemma total_cons {A} (w : A → nat) x l : total w (x :: l) = w x + total w l.
Proof. done. Qed.
Lemma total_app {A} (w : A → nat) l l' : total w (l ++ l') = total w l + total w l'.
Proof. apply sum_list_with_app. Qed.
#[export] Instance total_Permutation {A} (w : A → nat) : Proper ((≡ₚ) ==> eq) (total w).
Proof. unfold total. induction 1; cbn; lia. Qed.
Lemma total_fmap {A B} (w : B → nat) (f : A → B) l : total w (f <$> l) = total (λ x, w (f x)) l.
Proof. induction l as [|x l IH]; [done|]. cbn [fmap list_fmap]. by rewrite !total_cons, IH. Qed.
Lemma total_zero {A} (w : A → nat) l : (∀ x, x ∈ l → w x = 0) → total w l = 0.
Proof.
  induction l as [|x l IH]; [done|]. intros H. rewrite total_cons, (H x) by set_solver. apply IH. set_solver.
Qed.
Lemma total_ext {A} (w w' : A → nat) l : (∀ x, x ∈ l → w x = w' x) → total w l = total w' l.
Proof.
  induction l as [|x l IH]; [done|]. intros H. rewrite !total_cons, (H x) by set_solver. rewrite IH; [done|]. set_solver.
Qed.

(** ** Sorted maps *)

(** [std::map]: the entries by rising key. *)
Section Sorted.
Context {K V : Type} `{EqDecision K} (lt : K → K → bool).

Fixpoint look (k : K) (l : list (K * V)) : option V :=
  match l with [] => None | (k', v) :: l => if decide (k = k') then Some v else look k l end.
(** [emplace] leaves an entry that is there. *)
Fixpoint emplace (k : K) (v : V) (l : list (K * V)) : list (K * V) :=
  match l with
  | [] => [(k, v)]
  | (k', v') :: l' => if decide (k = k') then l else if lt k k' then (k, v) :: l else (k', v') :: emplace k v l'
  end.
Fixpoint erase (k : K) (l : list (K * V)) : list (K * V) :=
  match l with [] => [] | (k', v) :: l => if decide (k = k') then l else (k', v) :: erase k l end.
Fixpoint change (k : K) (f : V → V) (l : list (K * V)) : list (K * V) :=
  match l with [] => [] | (k', v) :: l => if decide (k = k') then (k', f v) :: l else (k', v) :: change k f l end.
End Sorted.

Section Entries.
Context {K V : Type} `{EqDecision K}.
Implicit Types l : list (K * V).

Lemma look_In k v l : look k l = Some v → (k, v) ∈ l.
Proof. induction l as [|[k' v'] l IH]; [done|]. cbn. case_decide; [intros [= <-]; subst; left|right; auto]. Qed.

Lemma look_None k l : look k l = None ↔ k ∉ l.*1.
Proof. induction l as [|[k' v'] l IH]; [set_solver|]. cbn. case_decide; [set_solver|]. rewrite IH. set_solver. Qed.

Lemma erase_Permutation k v l : look k l = Some v → l ≡ₚ (k, v) :: erase k l.
Proof.
  induction l as [|[k' v'] l IH]; [done|]. cbn. case_decide as E; [intros [= <-]; by subst|].
  intros H%IH. rewrite H at 1. apply perm_swap.
Qed.

Lemma emplace_Permutation lt k v l : look k l = None → emplace lt k v l ≡ₚ (k, v) :: l.
Proof.
  induction l as [|[k' v'] l IH]; [done|]. cbn. case_decide as E; [done|]. intros H. destruct (lt k k'); [done|].
  rewrite IH by done. apply perm_swap.
Qed.

Lemma change_Permutation k f v l : look k l = Some v → change k f l ≡ₚ (k, f v) :: erase k l.
Proof.
  induction l as [|[k' v'] l IH]; [done|]. cbn. case_decide as E; [intros [= <-]; by subst|].
  intros H%IH. rewrite H. apply perm_swap.
Qed.

Lemma erase_none k l : look k l = None → erase k l = l.
Proof. induction l as [|[k' v'] l IH]; [done|]. cbn. case_decide; [done|]. intros ?. by rewrite IH. Qed.
Lemma change_none k f l : look k l = None → change k f l = l.
Proof. induction l as [|[k' v'] l IH]; [done|]. cbn. case_decide; [done|]. intros ?. by rewrite IH. Qed.

Lemma total_erase (w : K * V → nat) k l :
  total w l = total w (erase k l) + match look k l with Some v => w (k, v) | None => 0 end.
Proof.
  destruct (look k l) as [v|] eqn:E; [|by rewrite erase_none, Nat.add_0_r].
  rewrite (erase_Permutation _ _ _ E) at 1. rewrite total_cons. lia.
Qed.

Lemma emplace_keys lt k v l x : x ∈ emplace lt k v l → x = (k, v) ∨ x ∈ l.
Proof.
  induction l as [|[k' v'] l IH]; cbn; [set_solver|]. case_decide; [auto|]. destruct (lt k k'); [set_solver|].
  rewrite !elem_of_cons. naive_solver.
Qed.
Lemma erase_sub k l e : e ∈ erase k l → e ∈ l.
Proof. induction l as [|[i v] l IH]; [done|]. cbn. case_decide; [by right|]. rewrite !elem_of_cons. naive_solver. Qed.
Lemma erase_key k l e : NoDup l.*1 → e ∈ erase k l → e.1 ≠ k.
Proof.
  induction l as [|[i v] l IH]; cbn; [set_solver|]. intros [Hi Hn]%list.NoDup_cons. case_decide as E.
  - subst. intros Hin <-. apply Hi, list_elem_of_fmap. eauto.
  - intros [->|Hin]%elem_of_cons; [cbn; congruence|auto].
Qed.
Lemma erase_NoDup k l : NoDup l.*1 → NoDup (erase k l).*1.
Proof.
  induction l as [|[i v] l IH]; [done|]. cbn. intros [Hi Hn]%list.NoDup_cons. case_decide; [done|]. cbn. apply NoDup_cons_2; [|auto].
  intros ([i' v'] & -> & Hin)%list_elem_of_fmap. apply Hi, list_elem_of_fmap. eexists; split; [|by eapply erase_sub]. done.
Qed.
Lemma look_change k k' f l : look k' (change k f l) = if decide (k' = k) then f <$> look k' l else look k' l.
Proof.
  induction l as [|[x v] l IH]; cbn; [by case_decide|]. destruct (decide (k = x)) as [->|Hk]; cbn.
  - by destruct (decide (k' = x)).
  - rewrite IH. destruct (decide (k' = x)); [by rewrite decide_False by congruence|done].
Qed.
Lemma look_erase k k' l : NoDup l.*1 → look k' (erase k l) = if decide (k' = k) then None else look k' l.
Proof.
  induction l as [|[x v] l IH]; cbn; [by case_decide|]. intros [Hx Hn]%list.NoDup_cons. destruct (decide (k = x)) as [->|Hk]; cbn.
  - destruct (decide (k' = x)) as [->|]; [by apply look_None|done].
  - rewrite IH by done. destruct (decide (k' = x)); [by rewrite decide_False by congruence|done].
Qed.
Lemma look_emplace lt k k' v l : look k l = None → look k' (emplace lt k v l) = if decide (k' = k) then Some v else look k' l.
Proof.
  induction l as [|[x w] l IH]; cbn; [by case_decide|]. destruct (decide (k = x)) as [->|Hk]; [done|]. intros H.
  destruct (lt k x); cbn; [done|]. rewrite IH by done. destruct (decide (k' = x)); [by rewrite decide_False by congruence|done].
Qed.
Lemma change_keys k f l : (change k f l).*1 = l.*1.
Proof. induction l as [|[x v] l IH]; [done|]. cbn. case_decide; cbn; [done|by rewrite IH]. Qed.
Lemma erase_length k v l : look k l = Some v → length l = S (length (erase k l)).
Proof. intros H%erase_Permutation. by rewrite H at 1. Qed.
End Entries.

(** ** The dispatcher *)

Record Queue (J : Type) := mkQueue { qu_jobs : list J; qu_closed : bool }.
Arguments mkQueue {J} _ _.
Arguments qu_jobs {J} _.
Arguments qu_closed {J} _.

Definition newQueue {J} : Queue J := mkQueue [] false.
Definition postJob {J} (x : J) (q : Queue J) : Queue J :=
  if qu_closed q then q else mkQueue (qu_jobs q ++ [x]) false.
(** [drain] swaps the queue out. *)
Definition swapJobs {J} (q : Queue J) : list J * Queue J :=
  if qu_closed q then ([], q) else (qu_jobs q, mkQueue [] false).
Definition closeQueue {J} (q : Queue J) : Queue J := mkQueue [] true.
