(* ===== verification/ExecWire.v ===== *)
(** * The Exec client: statuses, frames, gateways, digests

    The pure part of [src/domains/exec.cpp] with [include/crowdy/domains/exec.hpp], and
    [include/crowdy/graphql/estate.hpp]: call statuses and replies, the frames of ck-exec's client
    protocol, where a connect token may go, and SHA-256 for deploy digests. Character
    classes are those of the C locale. An access out of bounds is [None]. *)

From S2P Require Import Prelude Bytes Core Json Endpoint.

Import le.
Open Scope Z_scope.

(** ** Replies *)

Inductive ExecStatus :=
| ExecOk | AppError | Busy | Moved | NotFound | DeadlineExceeded | Denied | RateLimited | Unavailable
| Internal | Trapped | BadRequest | AppPaused | AppDisabled | TypeDisabled | Unknown.

#[global] Instance ExecStatus_eq_dec : EqDecision ExecStatus.
Proof. solve_decision. Defined.

Definition execStatusName (status : ExecStatus) : bytes :=
  chars match status with
  | ExecOk => "Ok" | AppError => "AppError" | Busy => "Busy" | Moved => "Moved" | NotFound => "NotFound"
  | DeadlineExceeded => "DeadlineExceeded" | Denied => "Denied" | RateLimited => "RateLimited"
  | Unavailable => "Unavailable" | Internal => "Internal" | Trapped => "Trapped" | BadRequest => "BadRequest"
  | AppPaused => "AppPaused" | AppDisabled => "AppDisabled" | TypeDisabled => "TypeDisabled" | Unknown => "Unknown"
  end.

Definition execStatuses : list ExecStatus :=
  [ExecOk; AppError; Busy; Moved; NotFound; DeadlineExceeded; Denied; RateLimited; Unavailable;
   Internal; Trapped; BadRequest; AppPaused; AppDisabled; TypeDisabled].

Definition execStatusFromWire (value : Z) : ExecStatus :=
  if value <=? 14 then default Unknown (execStatuses !! Z.to_nat value) else Unknown.

Definition execStatusRetryable (status : ExecStatus) : bool :=
  match status with Busy | Moved | Unavailable | RateLimited => true | _ => false end.

Record ExecReply := mkExecReply { er_status : ExecStatus; er_payload : bytes }.

Definition execReplyOk (r : ExecReply) : bool := bool_decide (er_status r = ExecOk).
Definition retryable (r : ExecReply) : bool := execStatusRetryable (er_status r).
Definition message (r : ExecReply) : bytes := if execReplyOk r then [] else er_payload r.

Definition rateLimited (r : ExecReply) : bool :=
  match er_status r with
  | RateLimited => true
  | Busy => hasPrefix (chars "rate limited") (er_payload r)
  | _ => false
  end.

(** The digits of [text], whether there were any, and the rest; [None] for a number too large. *)
Fixpoint waitDigits (ms : Z) (digits : bool) (text : bytes) : option (Z * bool * bytes) :=
  match text with
  | c :: rest =>
      if isDigit c then if 100000000 <? ms then None else waitDigits (ms * 10 + (c - 48)) true rest
      else Some (ms, digits, text)
  | [] => Some (ms, digits, text)
  end.

Definition retryIn : bytes := chars "retry in ".

Definition retryAfterMs (r : ExecReply) : option Z :=
  if negb (rateLimited r) then None else
  at_ ← find retryIn (er_payload r);
  '(ms, digits, rest) ← waitDigits 0 false (drop (at_ + length retryIn) (er_payload r));
  if negb digits || negb (hasPrefix (chars " ms") rest) then None else Some ms.

(** ** Frames *)

Inductive ClientKind := KCall | KSubscribe | KUnsubscribe | KPing.

#[global] Instance ClientKind_eq_dec : EqDecision ClientKind.
Proof. solve_decision. Defined.

(** [method] is the topic for [KSubscribe] and [KUnsubscribe]; [rid] is the nonce for [KPing]. *)
Record ClientFrame := mkClientFrame {
  cf_kind : ClientKind; cf_rid : Z; cf_nodeType : bytes; cf_key : bytes; cf_method : bytes; cf_payload : bytes }.

Definition set_rid (rid : Z) (f : ClientFrame) : ClientFrame :=
  mkClientFrame (cf_kind f) rid (cf_nodeType f) (cf_key f) (cf_method f) (cf_payload f).

Inductive ServerKind := Reply | Push | Pong.
Record ServerFrame := mkServerFrame {
  sf_kind : ServerKind; sf_rid : Z; sf_status : Z; sf_nodeType : bytes; sf_key : bytes; sf_topic : bytes;
  sf_payload : bytes }.

Definition putU16 (v : Z) : bytes := octets 2 v.
Definition putU32 (v : Z) : bytes := octets 4 v.
Definition putStr8 (s : bytes) : option bytes :=
  if 255 <? Z.of_nat (length s) then None else Some (u8 (Z.of_nat (length s)) :: s).
Definition putStr16 (s : bytes) : option bytes :=
  if 65535 <? Z.of_nat (length s) then None else Some (putU16 (Z.of_nat (length s)) ++ s).

Definition tagOf (kind : ClientKind) : Z :=
  match kind with KCall => 1 | KSubscribe => 2 | KUnsubscribe => 3 | KPing => 4 end.

Definition encode (f : ClientFrame) : Result bytes :=
  let head := tagOf (cf_kind f) :: putU32 (cf_rid f) in
  match cf_kind f with
  | KPing => Val head
  | kind =>
      match putStr8 (cf_nodeType f), putStr16 (cf_key f), putStr8 (cf_method f) with
      | Some nodeType, Some key, Some method =>
          Val (head ++ nodeType ++ key ++ method ++ (match kind with KCall => cf_payload f | _ => [] end))
      | _, _, _ => Err InvalidArgument
      end
  end.

Section Decode.
Variable b : bytes.

Definition have (at_ n : nat) : bool := (n <=? length b - at_)%nat.

(** [str]: the text and the position after it; [Some None] when it is not all there. *)
Definition str (at_ : nat) (n : Z) : option (option (bytes * nat)) :=
  if have at_ (Z.to_nat n) then s ← sub b at_ (Z.to_nat n); Some (Some (s, (at_ + Z.to_nat n)%nat)) else Some None.

(** A name behind its length of one octet. *)
Definition str8 (at_ : nat) : option (option (bytes * nat)) :=
  if have at_ 1 then n ← readU8 b at_; str (at_ + 1) n else Some None.
Definition str16 (at_ : nat) : option (option (bytes * nat)) :=
  if have at_ 2 then n ← readU16 b at_; str (at_ + 2) n else Some None.

Definition decode : option (Result ServerFrame) :=
  let malformed := Some (Err Malformed) in
  if negb (have 0 1) then malformed else
  tag ← readU8 b 0;
  if tag =? 129 then
    if negb (have 1 5) then malformed else
    rid ← readU32 b 1; status ← readU8 b 5;
    Some (Val (mkServerFrame Reply rid status [] [] [] (drop 6 b)))
  else if tag =? 130 then
    nodeType ← str8 1;
    match nodeType with
    | None => malformed
    | Some (nodeType, at_) =>
        key ← str16 at_;
        match key with
        | None => malformed
        | Some (key, at_) =>
            topic ← str8 at_;
            match topic with
            | None => malformed
            | Some (topic, at_) => Some (Val (mkServerFrame Push 0 0 nodeType key topic (drop at_ b)))
            end
        end
    end
  else if tag =? 132 then
    if negb (have 1 4) then malformed else
    rid ← readU32 b 1; Some (Val (mkServerFrame Pong rid 0 [] [] [] []))
  else malformed.
End Decode.

(** ** Where a connect token may go *)

Definition isAlnum (c : Z) : bool :=
  ((48 <=? c) && (c <=? 57)) || ((65 <=? c) && (c <=? 90)) || ((97 <=? c) && (c <=? 122)).
Definition toLower (c : Z) : Z := if (65 <=? c) && (c <=? 90) then c + 32 else c.
Definition lowercase (s : bytes) : bytes := toLower <$> s.

Definition kHexUpper : bytes := chars "0123456789ABCDEF".

Definition unreserved (c : Z) : bool := isAlnum c || (c =? 45) || (c =? 95) || (c =? 46) || (c =? 126).

Definition queryChar (c : Z) : bytes :=
  if unreserved c then [c] else [37; kHexUpper !!! Z.to_nat (Z.shiftr c 4); kHexUpper !!! Z.to_nat (Z.land c 15)].
Definition queryValue (s : bytes) : bytes := concat (queryChar <$> s).

Definition schemeMark : bytes := chars "://".

Definition schemeOf (url : bytes) : bytes :=
  match find schemeMark url with
  | None | Some O => []
  | Some sep =>
      let scheme := take sep url in
      if forallb (λ c, isAlnum c || (c =? 43) || (c =? 45) || (c =? 46)) scheme then lowercase scheme else []
  end.

(** [find_first_of]. *)
Definition findAny (cs s : bytes) : option nat := fst <$> list_find (λ c, c ∈ cs) s.

(** [npos + 3] is 2: a URL without [://] is searched from its third character; shorter than that,
    [substr] throws. *)
Definition hasUserinfo (url : bytes) : option bool :=
  let from := match find schemeMark url with Some i => (i + 3)%nat | None => 2%nat end in
  if (length url <? from)%nat then None else
  let rest := drop from url in
  Some (bool_decide (is_Some (find [64] (upTo (findAny (chars "/?#") rest) rest)))).

(** The lowercase host of an absolute URL. *)
Definition estateHostname (url : bytes) : option bytes :=
  scheme ← find schemeMark url;
  let rest := drop (scheme + 3) url in
  let rest :=
    match find [64] rest, find [47] rest with
    | Some at_, None => drop (at_ + 1) rest
    | Some at_, Some firstSlash => if (at_ <? firstSlash)%nat then drop (at_ + 1) rest else rest
    | None, _ => rest
    end in
  let host := upTo (findAny (chars "/?#") rest) rest in
  host ← (match host with
          | 91 :: _ => close ← find [93] host; Some (take (close + 1) host)
          | _ => Some (upTo (find [58] host) host)
          end);
  if bool_decide (host = []) then None else Some (lowercase host).

(** [rfind] of a character in the whole text. *)
Definition findLast (c : Z) (s : bytes) : option nat :=
  i ← find [c] (reverse s); Some (length s - 1 - i)%nat.

(** The last two labels. [rfind] up to [last - 1] searches the whole text when [last] is 0. *)
Definition site (host : bytes) : bytes :=
  match findLast 46 host with
  | None => host
  | Some last =>
      match findLast 46 (if (last =? 0)%nat then host else take last host) with
      | None => host
      | Some prior => drop (prior + 1) host
      end
  end.

Definition isSameEstate (current candidate : bytes) : bool :=
  match estateHostname current, estateHostname candidate with
  | Some a, Some b =>
      bool_decide (a = b) || (bool_decide (site a = site b) && bool_decide (is_Some (find [46] (site a))))
  | _, _ => false
  end.

(** The loop of [isIpLiteral]: dots so far, digits since the last one. *)
Fixpoint ipParts (parts digits : nat) (host : bytes) : bool :=
  match host with
  | [] => (parts =? 3)%nat && (0 <? digits)%nat
  | c :: host =>
      if c =? 46 then if (digits =? 0)%nat then false else ipParts (S parts) 0 host
      else if isDigit c && (digits <? 3)%nat then ipParts parts (S digits) host
      else false
  end.

Definition isIpLiteral (host : bytes) : bool := match host with 91 :: _ => true | _ => ipParts 0 0 host end.

Definition isLoopback (host : bytes) : bool :=
  let suffix := chars ".localhost" in
  bool_decide (host = chars "localhost") || bool_decide (host = chars "[::1]") ||
  ((length suffix <? length host)%nat && bool_decide (drop (length host - length suffix) host = suffix)) ||
  (isIpLiteral host && hasPrefix (chars "127.") host).

Definition sameEstate (urlA hostA urlB hostB : bytes) : bool :=
  if bool_decide (hostA = hostB) then true
  else if isIpLiteral hostA || isIpLiteral hostB then false
  else isSameEstate urlA urlB.

Definition kDefaultHttpOrigin : bytes := chars "https://ck.prod.crowdedkingdoms.com".

(** The reason to refuse a gateway; [None] inside when there is none. *)
Definition execGatewayRefusal (gameApiUrl gatewayUrl : bytes) : option (option bytes) :=
  let scheme := schemeOf gatewayUrl in
  match estateHostname gatewayUrl with
  | None => Some (Some (chars "it is not an absolute URL"))
  | Some gateway =>
      if bool_decide (scheme = []) then Some (Some (chars "it is not an absolute URL")) else
      if negb (bool_decide (scheme = chars "ws") || bool_decide (scheme = chars "wss"))
      then Some (Some (scheme ++ chars ": is not a WebSocket scheme")) else
      userinfo ← hasUserinfo gatewayUrl;
      if userinfo : bool then Some (Some (chars "it carries credentials")) else
      let apiScheme := schemeOf gameApiUrl in
      match estateHostname gameApiUrl with
      | None => Some (Some (chars "the game API URL " ++ gameApiUrl ++ chars " is not absolute"))
      | Some api =>
          if bool_decide (apiScheme = [])
          then Some (Some (chars "the game API URL " ++ gameApiUrl ++ chars " is not absolute")) else
          if bool_decide (apiScheme = chars "https") && negb (bool_decide (scheme = chars "wss"))
          then Some (Some (chars "a game API on https: hands out wss: gateways only")) else
          if sameEstate gameApiUrl api gatewayUrl gateway then Some None else
          let tier := estateHostname kDefaultHttpOrigin in
          if (match tier with Some tier => sameEstate kDefaultHttpOrigin tier gatewayUrl gateway | None => false end)
          then Some None else
          if isLoopback api && isLoopback gateway then Some None else
          let estates := match tier with
            | Some tier => if bool_decide (tier = api) then api else api ++ chars " and " ++ tier
            | None => api end in
          Some (Some (gateway ++ chars " is outside the estate of " ++ estates))
      end
  end.

(** The reason of a refused upgrade, on one line and at most [kRefusalReasonMaxChars] long. *)
Definition kRefusalReasonMaxChars : nat := 500.
Definition isSpaceChar (c : Z) : bool := (c =? 32) || ((9 <=? c) && (c <=? 13)).

Fixpoint reasonLoop (body reason : bytes) : bytes :=
  match body with
  | [] => reason
  | c :: body =>
      let space := isSpaceChar c in
      if space && (bool_decide (reason = []) || bool_decide (list.last reason = Some 32)) then reasonLoop body reason else
      let reason := reason ++ [if space then 32 else c] in
      if (kRefusalReasonMaxChars <=? length reason)%nat then reason else reasonLoop body reason
  end.

Fixpoint dropSpaces (reversed : bytes) : bytes := match reversed with 32 :: s => dropSpaces s | _ => reversed end.

Definition refusedReason (status : Z) (body : bytes) : bytes :=
  let reason := reverse (dropSpaces (reverse (reasonLoop body []))) in
  chars "the gateway refused the connection (HTTP " ++ decimal status ++
  (if bool_decide (reason = []) then [] else chars ": " ++ reason) ++ chars ")".

(** ** SHA-256 *)

Definition rotr (x n : Z) : Z := Z.lor (Z.shiftr x n) (u32 (Z.shiftl x (32 - n))).

(** Eight hexadecimal digits a word, [n] of the first one's still to come. *)
Fixpoint hexWords (n : nat) (word : Z) (s : bytes) : list Z :=
  match s with
  | [] => []
  | c :: s =>
      let word := 16 * word + (if c <=? 57 then c - 48 else c - 87) in
      match n with
      | S (S n) => hexWords (S n) word s
      | _ => word :: hexWords 8 0 s
      end
  end.

Definition kRound : list Z :=
  hexWords 8 0 (chars (
    "428a2f9871374491b5c0fbcfe9b5dba53956c25b59f111f1923f82a4ab1c5ed5" ++
    "d807aa9812835b01243185be550c7dc372be5d7480deb1fe9bdc06a7c19bf174" ++
    "e49b69c1efbe47860fc19dc6240ca1cc2de92c6f4a7484aa5cb0a9dc76f988da" ++
    "983e5152a831c66db00327c8bf597fc7c6e00bf3d5a7914706ca635114292967" ++
    "27b70a852e1b21384d2c6dfc53380d13650a7354766a0abb81c2c92e92722c85" ++
    "a2bfe8a1a81a664bc24b8b70c76c51a3d192e819d6990624f40e3585106aa070" ++
    "19a4c1161e376c082748774c34b0bcb5391c0cb34ed8aa4a5b9cca4f682e6ff3" ++
    "748f82ee78a5636f84c878148cc7020890befffaa4506cebbef9a3f7c67178f2")).

(** Zeros until eight octets are left of a block of 64; at most 63 of them. *)
Fixpoint padZeros (fuel : nat) (msg : bytes) : bytes :=
  match fuel with
  | S fuel => if (length msg mod 64 =? 56)%nat then msg else padZeros fuel (msg ++ [0])
  | O => msg
  end.

Definition padded (input : bytes) : bytes :=
  let bits := u64 (Z.of_nat (length input) * 8) in
  padZeros 64 (input ++ [128]) ++ ((λ i, Z.land (Z.shiftr bits (8 * i)) 255) <$> [7; 6; 5; 4; 3; 2; 1; 0]).

(** Sixteen big-endian words at [chunk]. *)
Definition wordAt (msg : bytes) (p : nat) : option Z :=
  a ← msg !! p; b ← msg !! (p + 1)%nat; c ← msg !! (p + 2)%nat; d ← msg !! (p + 3)%nat;
  Some (Z.lor (Z.lor (Z.lor (Z.shiftl a 24) (Z.shiftl b 16)) (Z.shiftl c 8)) d).

Definition nextWord (w : list Z) : option Z :=
  let i := length w in
  w15 ← w !! (i - 15)%nat; w2 ← w !! (i - 2)%nat; w16 ← w !! (i - 16)%nat; w7 ← w !! (i - 7)%nat;
  let s0 := Z.lxor (Z.lxor (rotr w15 7) (rotr w15 18)) (Z.shiftr w15 3) in
  let s1 := Z.lxor (Z.lxor (rotr w2 17) (rotr w2 19)) (Z.shiftr w2 10) in
  Some (u32 (w16 + s0 + w7 + s1)).

Fixpoint schedule (n : nat) (w : list Z) : option (list Z) :=
  match n with O => Some w | S n => x ← nextWord w; schedule n (w ++ [x]) end.

Record Hash := mkHash { ha : Z; hb : Z; hc : Z; hd : Z; he : Z; hf : Z; hg : Z; hh : Z }.

Definition round (v : Hash) (kw : Z * Z) : Hash :=
  let s1 := Z.lxor (Z.lxor (rotr (he v) 6) (rotr (he v) 11)) (rotr (he v) 25) in
  let ch := Z.lxor (Z.land (he v) (hf v)) (Z.land (u32 (Z.lnot (he v))) (hg v)) in
  let t1 := u32 (hh v + s1 + ch + kw.1 + kw.2) in
  let s0 := Z.lxor (Z.lxor (rotr (ha v) 2) (rotr (ha v) 13)) (rotr (ha v) 22) in
  let maj := Z.lxor (Z.lxor (Z.land (ha v) (hb v)) (Z.land (ha v) (hc v))) (Z.land (hb v) (hc v)) in
  let t2 := u32 (s0 + maj) in
  mkHash (u32 (t1 + t2)) (ha v) (hb v) (hc v) (u32 (hd v + t1)) (he v) (hf v) (hg v).

Definition addHash (h v : Hash) : Hash :=
  mkHash (u32 (ha h + ha v)) (u32 (hb h + hb v)) (u32 (hc h + hc v)) (u32 (hd h + hd v))
    (u32 (he h + he v)) (u32 (hf h + hf v)) (u32 (hg h + hg v)) (u32 (hh h + hh v)).

Definition block (msg : bytes) (chunk : nat) (h : Hash) : option Hash :=
  w ← mapM (λ i, wordAt msg (chunk + 4 * i)) (seq 0 16);
  w ← schedule 48 w;
  Some (addHash h (foldl round h (combine kRound w))).

Fixpoint blocks (n chunk : nat) (msg : bytes) (h : Hash) : option Hash :=
  match n with O => Some h | S n => h ← block msg chunk h; blocks n (chunk + 64) msg h end.

Definition initialHash : Hash :=
  mkHash 0x6a09e667 0xbb67ae85 0x3c6ef372 0xa54ff53a 0x510e527f 0x9b05688c 0x1f83d9ab 0x5be0cd19.

Definition wordHex (word : Z) : bytes :=
  (λ i, hexDigit (Z.land (Z.shiftr word i) 15)) <$> [28; 24; 20; 16; 12; 8; 4; 0].

Definition execSha256Hex (input : bytes) : option bytes :=
  let msg := padded input in
  h ← blocks (length msg / 64) 0 msg initialHash;
  Some (concat (wordHex <$> [ha h; hb h; hc h; hd h; he h; hf h; hg h; hh h])).

(** ** Frames: the documented layout *)

(** A text behind its length. *)
Definition prefixed8 (s : bytes) : bytes := Z.of_nat (length s) :: s.
Definition prefixed16 (s : bytes) : bytes := octets 2 (Z.of_nat (length s)) ++ s.

(** The octets a gateway sends. *)
Definition serverOctets (f : ServerFrame) : bytes :=
  match sf_kind f with
  | Reply => 129 :: octets 4 (sf_rid f) ++ sf_status f :: sf_payload f
  | Push => 130 :: prefixed8 (sf_nodeType f) ++ prefixed16 (sf_key f) ++ prefixed8 (sf_topic f) ++ sf_payload f
  | Pong => 132 :: octets 4 (sf_rid f)
  end.

(** What a frame of each kind carries. *)
Definition server_ok (f : ServerFrame) : Prop :=
  match sf_kind f with
  | Reply => in_u 32 (sf_rid f) ∧ is_byte (sf_status f) ∧ sf_nodeType f = [] ∧ sf_key f = [] ∧ sf_topic f = []
  | Push =>
      sf_rid f = 0 ∧ sf_status f = 0 ∧ (length (sf_nodeType f) < 256)%nat ∧ Z.of_nat (length (sf_key f)) < 65536 ∧
      (length (sf_topic f) < 256)%nat
  | Pong => in_u 32 (sf_rid f) ∧ f = mkServerFrame Pong (sf_rid f) 0 [] [] [] []
  end.

(** How a gateway reads a client's frame. *)
Definition cut (n : Z) (p : bytes) : option (bytes * bytes) :=
  if (Z.to_nat n <=? length p)%nat then Some (take (Z.to_nat n) p, drop (Z.to_nat n) p) else None.
Definition cut8 (p : bytes) : option (bytes * bytes) := match p with n :: p => cut n p | [] => None end.
Definition cut16 (p : bytes) : option (bytes * bytes) :=
  match p with x :: y :: p => cut (value 16 [x; y]) p | _ => None end.

Definition clientKind (tag : Z) : option ClientKind :=
  match tag with 1 => Some KCall | 2 => Some KSubscribe | 3 => Some KUnsubscribe | 4 => Some KPing | _ => None end.

Definition readClientFrame (b : bytes) : option ClientFrame :=
  match b with
  | tag :: x0 :: x1 :: x2 :: x3 :: p =>
      kind ← clientKind tag;
      let rid := value 32 [x0; x1; x2; x3] in
      match kind with
      | KPing => Some (mkClientFrame KPing rid [] [] [] [])
      | _ =>
          '(nodeType, p) ← cut8 p; '(key, p) ← cut16 p; '(method, p) ← cut8 p;
          Some (mkClientFrame kind rid nodeType key method p)
      end
  | _ => None
  end.

Definition fits (f : ClientFrame) : Prop :=
  (length (cf_nodeType f) < 256)%nat ∧ Z.of_nat (length (cf_key f)) < 65536 ∧ (length (cf_method f) < 256)%nat.

(** A frame that carries only what its kind has. *)
Definition client_ok (f : ClientFrame) : Prop :=
  in_u 32 (cf_rid f) ∧
  match cf_kind f with
  | KCall => True
  | KPing => f = mkClientFrame KPing (cf_rid f) [] [] [] []
  | _ => cf_payload f = []
  end.

Lemma octets_4_cons v : ∃ x0 x1 x2 x3, octets 4 v = [x0; x1; x2; x3] ∧ value 32 [x0; x1; x2; x3] = u32 v.
Proof.
  pose proof (length_octets 4 v) as Hl. pose proof (value_octets 32 4 v ltac:(lia)) as Hv.
  destruct (octets 4 v) as [|x0 [|x1 [|x2 [|x3 [|]]]]]; try done. by exists x0, x1, x2, x3.
Qed.

Lemma octets_2_cons v : ∃ x0 x1, octets 2 v = [x0; x1] ∧ value 16 [x0; x1] = u16 v.
Proof.
  pose proof (length_octets 2 v) as Hl. pose proof (value_octets 16 2 v ltac:(lia)) as Hv.
  destruct (octets 2 v) as [|x0 [|x1 [|]]]; try done. by exists x0, x1.
Qed.

Lemma octets_bytes_of l n w : Forall is_byte l → length l = n → 8 * Z.of_nat n ≤ w → octets n (value w l) = l.
Proof. intros Hl <- Hw. by apply octets_value. Qed.

Ltac octets_known := repeat (apply Forall_cons_2; [done|]); by apply Forall_nil_2.

Lemma cut_prefix n s p : n = Z.of_nat (length s) → cut n (s ++ p) = Some (s, p).
Proof.
  intros ->. unfold cut. rewrite Nat2Z.id, length_app, (proj2 (Nat.leb_le _ _)) by lia.
  by rewrite take_app_length, drop_app_length.
Qed.

Lemma cut_Some n p s rest :
  0 ≤ n → cut n p = Some (s, rest) → p = s ++ rest ∧ n = Z.of_nat (length s).
Proof.
  unfold cut. intros Hn. destruct (Nat.leb_spec (Z.to_nat n) (length p)); [|done]. intros [= <- <-].
  rewrite take_drop, length_take. split; [done|lia].
Qed.

Lemma cut8_prefixed s p : cut8 (prefixed8 s ++ p) = Some (s, p).
Proof. by apply cut_prefix. Qed.

Lemma cut16_prefixed s p : Z.of_nat (length s) < 65536 → cut16 (prefixed16 s ++ p) = Some (s, p).
Proof.
  intros Hs. unfold prefixed16. destruct (octets_2_cons (Z.of_nat (length s))) as (x0 & x1 & -> & Hv).
  cbn. rewrite Hv. apply cut_prefix. apply wrapU_id. unfold in_u. lia.
Qed.

Lemma cut8_Some p s rest : Forall is_byte p → cut8 p = Some (s, rest) → p = prefixed8 s ++ rest ∧ (length s < 256)%nat ∧ Forall is_byte rest.
Proof.
  destruct p as [|n p]; [done|]. intros [Hn Hp]%Forall_cons_1. cbn. unfold is_byte, in_u in Hn.
  intros [-> ->]%cut_Some; [|lia]. apply Forall_app in Hp as [_ ?]. split_and!; [done|lia|done].
Qed.

Lemma cut16_Some p s rest :
  Forall is_byte p → cut16 p = Some (s, rest) → p = prefixed16 s ++ rest ∧ Z.of_nat (length s) < 65536 ∧ Forall is_byte rest.
Proof.
  destruct p as [|x [|y p]]; try done. intros (Hx & (Hy & Hp)%Forall_cons_1)%Forall_cons_1. cbn.
  pose proof (value_range 16 [x; y] ltac:(lia)) as Hr. unfold in_u in Hr.
  intros [-> E]%cut_Some; [|lia]. apply Forall_app in Hp as [_ ?]. split_and!; [|lia|done].
  unfold prefixed16. rewrite <- E. by rewrite (octets_bytes_of [x; y] 2 16) by (first [done | octets_known]).
Qed.

(** ** Reading with positions and reading off the front *)

Lemma str_front pre rest n :
  str (pre ++ rest) (length pre) n =
  Some (match cut n rest with Some (s, r) => Some (s, length (pre ++ s)) | None => None end).
Proof.
  unfold str, have, cut. rewrite length_app. replace (length pre + length rest - length pre)%nat with (length rest) by lia.
  destruct (Nat.leb_spec (Z.to_nat n) (length rest)); [|done].
  rewrite sub_Some by (rewrite length_app; lia). rewrite drop_app_length. cbn. do 3 f_equal.
  rewrite length_app, length_take. lia.
Qed.

Lemma str8_front pre rest :
  str8 (pre ++ rest) (length pre) =
  Some (match cut8 rest with Some (s, r) => Some (s, length (pre ++ prefixed8 s)) | None => None end).
Proof.
  unfold str8, have. rewrite length_app. destruct rest as [|n rest].
  - by replace (length pre + length (@nil Z) - length pre)%nat with 0%nat by (cbn; lia).
  - rewrite (proj2 (Nat.leb_le _ _)) by (cbn; lia).
    rewrite (readU8_skip pre), Nat.sub_diag by done. cbn [cut8].
    change (readU8 (n :: rest) 0) with (Some n). cbn [mbind option_bind].
    replace (length pre + 1)%nat with (length (pre ++ [n])) by (by rewrite length_app).
    change (n :: rest) with ([n] ++ rest). rewrite app_assoc, str_front.
    destruct (cut n rest) as [[s r]|]; [|done]. unfold prefixed8. rewrite !length_app. cbn. do 3 f_equal. lia.
Qed.

Lemma str16_front pre rest :
  Forall is_byte rest →
  str16 (pre ++ rest) (length pre) =
  Some (match cut16 rest with Some (s, r) => Some (s, length (pre ++ prefixed16 s)) | None => None end).
Proof.
  intros Hb. unfold str16, have. rewrite length_app.
  destruct rest as [|x [|y rest]].
  - by replace (length pre + length (@nil Z) - length pre)%nat with 0%nat by (cbn; lia).
  - by replace (length pre + length [x] - length pre)%nat with 1%nat by (cbn; lia).
  - rewrite (proj2 (Nat.leb_le _ _)) by (cbn; lia).
    rewrite (readU16_skip pre), Nat.sub_diag by done.
    apply Forall_cons_1 in Hb as [Hx Hb]. apply Forall_cons_1 in Hb as [Hy Hb].
    assert (readU16 (x :: y :: rest) 0 = Some (value 16 [x; y])) as ->.
    { change (x :: y :: rest) with ([x; y] ++ rest).
      rewrite <- (octets_bytes_of [x; y] 2 16) at 1 by (first [done | octets_known]).
      rewrite readU16_first by done. f_equal. apply wrapU_id, value_range. lia. }
    cbn [mbind option_bind cut16].
    replace (length pre + 2)%nat with (length (pre ++ [x; y])) by (by rewrite length_app).
    change (x :: y :: rest) with ([x; y] ++ rest). rewrite app_assoc, str_front.
    destruct (cut (value 16 [x; y]) rest) as [[s r]|]; [|done].
    unfold prefixed16. rewrite !length_app, length_octets. cbn. do 3 f_equal. lia.
Qed.


(** What [decode] reads, off the front. *)
Definition readServerFrame (b : bytes) : option ServerFrame :=
  match b with
  | 129 :: x0 :: x1 :: x2 :: x3 :: status :: p =>
      Some (mkServerFrame Reply (value 32 [x0; x1; x2; x3]) status [] [] [] p)
  | 130 :: p =>
      '(nodeType, p) ← cut8 p; '(key, p) ← cut16 p; '(topic, p) ← cut8 p;
      Some (mkServerFrame Push 0 0 nodeType key topic p)
  | 132 :: x0 :: x1 :: x2 :: x3 :: _ => Some (mkServerFrame Pong (value 32 [x0; x1; x2; x3]) 0 [] [] [] [])
  | _ => None
  end.

Lemma decode_front b :
  Forall is_byte b → decode b = Some (match readServerFrame b with Some f => Val f | None => Err Malformed end).
Proof.
  intros Hb. destruct b as [|tag b]; [done|]. apply Forall_cons_1 in Hb as [Ht Hb].
  unfold decode. change (have (tag :: b) 0 1) with true. change (readU8 (tag :: b) 0) with (Some tag).
  cbn [negb mbind option_bind].
  destruct (Z.eqb_spec tag 129) as [->|H1].
  { by destruct b as [|x0 [|x1 [|x2 [|x3 [|status p]]]]]. }
  destruct (Z.eqb_spec tag 130) as [->|H2].
  { change (130 :: b) with ([130] ++ b). rewrite (str8_front [130] b : str8 ([130] ++ b) 1 = _). cbn [mbind option_bind app readServerFrame].
    destruct (cut8 b) as [[s r]|] eqn:E1; [|done]. apply cut8_Some in E1 as (-> & _ & Hr); [|done].
    cbn [mbind option_bind]. rewrite app_comm_cons, str16_front by done. cbn [mbind option_bind].
    destruct (cut16 r) as [[s2 r2]|] eqn:E2; [|done]. apply cut16_Some in E2 as (-> & _ & Hr2); [|done].
    cbn [mbind option_bind]. rewrite app_assoc, str8_front. cbn [mbind option_bind].
    destruct (cut8 r2) as [[s3 r3]|] eqn:E3; [|done]. apply cut8_Some in E3 as (-> & _ & _); [|done].
    cbn [mbind option_bind]. by rewrite app_assoc, drop_app_length. }
  destruct (Z.eqb_spec tag 132) as [->|H3].
  { by destruct b as [|x0 [|x1 [|x2 [|x3 p]]]]. }
  unfold readServerFrame. repeat (case_match; try done).
Qed.

Lemma readServerFrame_spec b f :
  Forall is_byte b →
  readServerFrame b = Some f ↔
  server_ok f ∧ ∃ junk, b = serverOctets f ++ junk ∧ (junk = [] ∨ sf_kind f = Pong).
Proof.
  intros Hb. split.
  - intros E. destruct b as [|tag b]; [done|]. apply Forall_cons_1 in Hb as [Ht Hb].
    unfold readServerFrame in E.
    destruct (decide (tag = 129)) as [->|]; [|destruct (decide (tag = 130)) as [->|]; [|destruct (decide (tag = 132)) as [->|]]].
    + destruct b as [|x0 [|x1 [|x2 [|x3 [|status p]]]]]; try done. injection E as <-.
      repeat (apply Forall_cons_1 in Hb as [? Hb]). unfold server_ok, serverOctets. cbn [sf_kind sf_rid sf_status sf_nodeType sf_key sf_topic sf_payload].
      split; [split_and!; try done; apply value_range; lia|]. exists []. split; [|by left].
      by rewrite (octets_bytes_of [x0; x1; x2; x3] 4 32), app_nil_r by (first [done | octets_known]).
    + apply bind_Some in E as ([s r] & E1 & E). apply bind_Some in E as ([s2 r2] & E2 & E). apply bind_Some in E as ([s3 r3] & E3 & [= <-]).
      apply cut8_Some in E1 as (-> & ? & Hr); [|done]. apply cut16_Some in E2 as (-> & ? & Hr2); [|done].
      apply cut8_Some in E3 as (-> & ? & _); [|done]. split; [done|]. exists []. split; [|by left].
      unfold serverOctets. cbn [sf_kind sf_nodeType sf_key sf_topic sf_payload]. by rewrite app_nil_r.
    + destruct b as [|x0 [|x1 [|x2 [|x3 p]]]]; try done. injection E as <-.
      repeat (apply Forall_cons_1 in Hb as [? Hb]). unfold server_ok, serverOctets. cbn [sf_kind sf_rid].
      split; [split; [apply value_range; lia|done]|]. exists p. split; [|by right].
      by rewrite (octets_bytes_of [x0; x1; x2; x3] 4 32) by (first [done | octets_known]).
    + exfalso. repeat (case_match; try done).
  - intros (Hok & junk & -> & Hj). destruct f as [kind rid status nodeType key topic payload].
    unfold server_ok, serverOctets in *. cbn [sf_kind sf_rid sf_status sf_nodeType sf_key sf_topic sf_payload] in *.
    destruct kind.
    + destruct Hok as (Hr & Hs & -> & -> & ->). destruct Hj as [->|]; [|done]. rewrite app_nil_r.
      destruct (octets_4_cons rid) as (x0 & x1 & x2 & x3 & -> & Hv). cbn [app readServerFrame]. by rewrite Hv, wrapU_id.
    + destruct Hok as (-> & -> & H1 & H2 & H3). destruct Hj as [->|]; [|done].
      rewrite app_nil_r. cbn [readServerFrame]. rewrite cut8_prefixed. cbn [mbind option_bind].
      rewrite cut16_prefixed by done. cbn [mbind option_bind]. by rewrite cut8_prefixed.
    + destruct Hok as (Hr & [= -> -> -> -> ->]).
      destruct (octets_4_cons rid) as (x0 & x1 & x2 & x3 & -> & Hv). cbn [app readServerFrame]. by rewrite Hv, wrapU_id.
Qed.

Lemma putStr8_fits s : (length s < 256)%nat → putStr8 s = Some (prefixed8 s).
Proof.
  intros H. unfold putStr8, prefixed8. destruct (Z.ltb_spec 255 (Z.of_nat (length s))); [lia|].
  rewrite wrapU_id by (unfold in_u; lia). done.
Qed.
Lemma putStr16_fits s : Z.of_nat (length s) < 65536 → putStr16 s = Some (prefixed16 s).
Proof. intros H. unfold putStr16. by destruct (Z.ltb_spec 65535 (Z.of_nat (length s))); [lia|]. Qed.

(** The rid is where a frame has it. *)
Lemma encode_head f b : encode f = Val b → ∃ rest, b = tagOf (cf_kind f) :: octets 4 (cf_rid f) ++ rest.
Proof.
  unfold encode, putU32. destruct (cf_kind f); [..|intros [= <-]; exists []; by rewrite app_nil_r];
    repeat case_match; intros [= <-]; rewrite app_comm_cons; eauto.
Qed.

Lemma encode_fits f : cf_kind f ≠ KPing → fits f →
  encode f = Val (tagOf (cf_kind f) :: octets 4 (cf_rid f) ++ prefixed8 (cf_nodeType f) ++ prefixed16 (cf_key f) ++
                  prefixed8 (cf_method f) ++ (match cf_kind f with KCall => cf_payload f | _ => [] end)).
Proof.
  intros Hk (H1 & H2 & H3). unfold encode, putU32. rewrite !putStr8_fits, putStr16_fits by done. by destruct (cf_kind f).
Qed.

Lemma encode_too_long f : cf_kind f ≠ KPing → ¬ fits f → encode f = Err InvalidArgument.
Proof.
  intros Hk Hf. unfold encode, putStr8, putStr16, fits in *.
  destruct (cf_kind f); try done; repeat (case_match; try done); exfalso; apply Hf;
  repeat match goal with H : Some _ = Some _ |- _ => clear H | H : (_ <? _) = false |- _ => apply Z.ltb_ge in H end; simplify_eq;
  repeat match goal with H : (if ?c then _ else _) = Some _ |- _ => destruct c eqn:?; [done|] end;
  repeat match goal with H : (_ <? _) = false |- _ => apply Z.ltb_ge in H end; lia.
Qed.

(** The client's frames read back at the gateway, and fail to encode exactly when a name is too
    long for its length; the gateway's frames are decoded on every input, without reading past
    the end, and exactly when they have the documented layout (a pong may be followed by more). *)
Theorem exec_frames_roundtrip :
  (∀ f, client_ok f → (if decide (cf_kind f = KPing ∨ fits f)
                       then ∃ b, encode f = Val b ∧ readClientFrame b = Some f
                       else encode f = Err InvalidArgument)) ∧
  (∀ b, Forall is_byte b → ∃ r, decode b = Some r ∧
     ∀ f, r = Val f ↔ server_ok f ∧ ∃ junk, b = serverOctets f ++ junk ∧ (junk = [] ∨ sf_kind f = Pong)).
Proof.
  split.
  - intros f [Hr Hok]. destruct (decide (cf_kind f = KPing)) as [Hp|Hp].
    + rewrite decide_True by tauto. rewrite Hp in Hok. rewrite Hok. unfold encode. cbn [cf_kind cf_rid].
      eexists. split; [done|]. unfold putU32. cbn [tagOf].
      destruct (octets_4_cons (cf_rid f)) as (x0 & x1 & x2 & x3 & -> & Hv). cbn. by rewrite Hv, wrapU_id.
    + case_decide as Hd; [|apply encode_too_long; tauto]. destruct Hd as [|Hd]; [done|].
      rewrite encode_fits by done. eexists. split; [done|]. destruct Hd as (H1 & H2 & H3).
      destruct (octets_4_cons (cf_rid f)) as (x0 & x1 & x2 & x3 & -> & Hv). rewrite wrapU_id in Hv by done.
      destruct f as [kind rid nodeType key method payload].
      cbn [cf_kind cf_rid cf_nodeType cf_key cf_method cf_payload] in *.
      destruct kind; try done; cbn [tagOf app readClientFrame clientKind mbind option_bind];
        rewrite cut8_prefixed; cbn [mbind option_bind]; rewrite cut16_prefixed by done; cbn [mbind option_bind];
        rewrite cut8_prefixed; cbn [mbind option_bind]; by rewrite Hv, ?Hok.
  - intros b Hb. rewrite decode_front by done. eexists. split; [done|]. intros f.
    rewrite <- readServerFrame_spec by done. destruct (readServerFrame b); naive_solver.
Qed.

(** ** Gateways: the host a URL names *)

(** The authority of an absolute URL, and its host without userinfo and port, as RFC 3986 has
    them: userinfo ends at the last [@] of the authority. *)
Definition authority (url : bytes) : option bytes :=
  i ← find schemeMark url; Some (upTo (findAny (chars "/?#") (drop (i + 3) url)) (drop (i + 3) url)).

Definition hostPart (hostPort : bytes) : option bytes :=
  host ← (match hostPort with
          | 91 :: _ => close ← find [93] hostPort; Some (take (close + 1) hostPort)
          | _ => Some (upTo (find [58] hostPort) hostPort)
          end);
  if bool_decide (host = []) then None else Some (lowercase host).

Definition hostOf (url : bytes) : option bytes :=
  a ← authority url;
  hostPart (match findLast 64 a with Some i => drop (i + 1) a | None => a end).

(** Two labels at the end of a host: all of it, or what follows a dot. *)
Definition last_two (host labels : bytes) : Prop :=
  ∃ a b, labels = a ++ 46 :: b ∧ 46 ∉ a ∧ 46 ∉ b ∧ ((host = labels ∧ a ≠ []) ∨ ∃ pre, host = pre ++ 46 :: labels).

(** One host, or two names that end with the same two labels. *)
Definition one_estate (h h' : bytes) : Prop :=
  h = h' ∨ (isIpLiteral h = false ∧ isIpLiteral h' = false ∧ ∃ labels, last_two h labels ∧ last_two h' labels).

Lemma findLast_None c s : findLast c s = None ↔ c ∉ s.
Proof.
  unfold findLast. rewrite <- elem_of_reverse. split.
  - intros E Hc. apply list_elem_of_split_l in Hc as (a & b & E' & Ha). rewrite E', find_at in E by done. done.
  - intros Hc. by rewrite find_none.
Qed.

Lemma findLast_at c a b : c ∉ b → findLast c (a ++ c :: b) = Some (length a).
Proof.
  intros Hb. unfold findLast. rewrite reverse_app, reverse_cons, <- app_assoc.
  change ([c] ++ reverse a) with (c :: reverse a). rewrite find_at by by rewrite elem_of_reverse.
  cbn. rewrite length_app, length_reverse. cbn. f_equal. lia.
Qed.

Lemma findLast_split c s : c ∈ s → ∃ a b, s = a ++ c :: b ∧ c ∉ b ∧ findLast c s = Some (length a).
Proof.
  intros (a & b & -> & Hb)%list_elem_of_split_r. exists a, b. by rewrite findLast_at.
Qed.

Lemma drop_after (a : bytes) c b : drop (length a + 1) (a ++ c :: b) = b.
Proof. rewrite cons_middle, app_assoc. apply drop_app_length'. by rewrite length_app. Qed.

Lemma site_dotless host : 46 ∉ host → site host = host.
Proof. intros H. unfold site. by rewrite (proj2 (findLast_None _ _) H). Qed.

Lemma site_cases host : (46 ∉ site host) ∨ last_two host (site host).
Proof.
  destruct (decide (46 ∈ host)) as [Hd|Hd]; [|left; by rewrite site_dotless].
  destruct (findLast_split _ _ Hd) as (a & b & -> & Hb & E). unfold site. rewrite E.
  destruct a as [|x a]; cbn [length Nat.eqb].
  { rewrite findLast_at by done. left. by rewrite (drop_after []). }
  change (S (length a)) with (length (x :: a)). rewrite take_app_length. destruct (decide (46 ∈ x :: a)) as [Ha|Ha].
  - destruct (findLast_split _ _ Ha) as (a1 & a2 & E1 & Ha2 & E2). rewrite E2, E1.
    rewrite <- app_assoc. change ((46 :: a2) ++ 46 :: b) with (46 :: (a2 ++ 46 :: b)). rewrite drop_after.
    right. exists a2, b. split_and!; [done..|]. right. by exists a1.
  - rewrite (proj2 (findLast_None _ _) Ha). right. exists (x :: a), b. split_and!; [done..|]. by left.
Qed.

Lemma site_last_two host labels : last_two host labels → site host = labels ∧ 46 ∈ labels.
Proof.
  intros (a & b & -> & Ha & Hb & Hh). split; [|set_solver]. destruct Hh as [[-> Hne]|[pre ->]].
  - unfold site. rewrite findLast_at by done. destruct a as [|x a]; [done|]. cbn [length Nat.eqb].
    change (S (length a)) with (length (x :: a)). by rewrite take_app_length, (proj2 (findLast_None _ _) Ha).
  - unfold site. change (46 :: a ++ 46 :: b) with ((46 :: a) ++ 46 :: b). rewrite app_assoc, findLast_at by done.
    rewrite take_app_length. rewrite length_app. cbn [length].
    rewrite (proj2 (Nat.eqb_neq _ 0)) by lia. rewrite findLast_at by done.
    rewrite <- app_assoc. change ((46 :: a) ++ 46 :: b) with (46 :: a ++ 46 :: b). by rewrite drop_after.
Qed.

Lemma isSameEstate_hosts a b ha hb :
  estateHostname a = Some ha → estateHostname b = Some hb →
  isSameEstate a b = true ↔ ha = hb ∨ ∃ labels, last_two ha labels ∧ last_two hb labels.
Proof.
  intros Ea Eb. unfold isSameEstate. rewrite Ea, Eb, orb_true_iff, andb_true_iff, !bool_decide_eq_true. split.
  - intros [->|[E Hd]]; [by left|]. right. assert (46 ∈ site ha) as Hin.
    { destruct (decide (46 ∈ site ha)) as [|Hn]; [done|]. rewrite find_none in Hd by done. by destruct Hd. }
    exists (site ha). destruct (site_cases ha) as [|Ha]; [done|]. split; [done|].
    rewrite E in *. destruct (site_cases hb); done.
  - intros [->|(labels & [Ha Hd]%site_last_two & [Hb _]%site_last_two)]; [by left|]. right.
    rewrite Ha, Hb. split; [done|]. apply list_elem_of_split_l in Hd as (x & y & -> & Hx). by rewrite find_at.
Qed.

Lemma sameEstate_iff a b ha hb :
  estateHostname a = Some ha → estateHostname b = Some hb → sameEstate a ha b hb = true ↔ one_estate ha hb.
Proof.
  intros Ea Eb. unfold sameEstate, one_estate. case_bool_decide as E; [naive_solver|].
  destruct (isIpLiteral ha) eqn:H1; [cbn; naive_solver|]. destruct (isIpLiteral hb) eqn:H2; [cbn; naive_solver|]. cbn.
  rewrite (isSameEstate_hosts _ _ _ _ Ea Eb). naive_solver.
Qed.

Lemma not_in_drop (c : Z) n s : c ∉ s → c ∉ drop n s.
Proof. intros H Hc. apply H. rewrite <- (take_drop n s). apply elem_of_app. by right. Qed.
Lemma not_in_upTo (c : Z) i s : c ∉ s → c ∉ upTo i s.
Proof. destruct i as [n|]; [|done]. intros H Hc. apply H. rewrite <- (take_drop n s). apply elem_of_app. by left. Qed.

(** Without an [@] the two readings of a host agree. *)
Lemma hostOf_plain url : 64 ∉ url → estateHostname url = hostOf url.
Proof.
  intros Hu. unfold estateHostname, hostOf, authority. destruct (find schemeMark url) as [i|]; [|done]. cbn [mbind option_bind].
  pose proof (not_in_drop _ (i + 3) _ Hu) as Hr. revert Hr. generalize (drop (i + 3) url). intros rest Hr.
  rewrite find_none by done. by rewrite (proj2 (findLast_None _ _)) by by apply not_in_upTo.
Qed.

Lemma hasUserinfo_plain url h : 64 ∉ url → estateHostname url = Some h → hasUserinfo url = Some false.
Proof.
  intros Hu (i & Hi & _)%bind_Some. unfold hasUserinfo. rewrite Hi.
  destruct (find_Some _ _ _ Hi) as (t & E & _). assert (i + 3 ≤ length url)%nat as Hl.
  { rewrite E. rewrite !length_app, length_take. change (length schemeMark) with 3%nat.
    apply (f_equal length) in E. rewrite !length_app, length_take in E. change (length schemeMark) with 3%nat in E. lia. }
  rewrite (proj2 (Nat.ltb_ge _ _)) by lia. f_equal. apply bool_decide_eq_false_2.
  rewrite find_none; [by intros [? ?]|]. by apply not_in_upTo, not_in_drop.
Qed.

Definition tierHost : bytes := chars "ck.prod.crowdedkingdoms.com".

(** C25. A connect token is only sent to a gateway the Game API may name: for URLs without an [@], the
    gateway is taken exactly when it is a WebSocket URL, encrypted when the API is, whose host is
    on the estate of the API or of the release's own origin, or both are this machine. *)
Theorem gateway_pinned gameApiUrl gatewayUrl :
  64 ∉ gameApiUrl → 64 ∉ gatewayUrl →
  execGatewayRefusal gameApiUrl gatewayUrl = Some None ↔
  ∃ api gateway,
    hostOf gameApiUrl = Some api ∧ hostOf gatewayUrl = Some gateway ∧ schemeOf gameApiUrl ≠ [] ∧
    (schemeOf gatewayUrl = chars "wss" ∨ schemeOf gatewayUrl = chars "ws" ∧ schemeOf gameApiUrl ≠ chars "https") ∧
    (one_estate api gateway ∨ one_estate tierHost gateway ∨ isLoopback api = true ∧ isLoopback gateway = true).
Proof.
  intros Ha Hg. unfold execGatewayRefusal. rewrite <- !hostOf_plain by done.
  destruct (estateHostname gatewayUrl) as [gateway|] eqn:Eg; [|naive_solver].
  assert (estateHostname kDefaultHttpOrigin = Some tierHost) as Et by (by vm_compute).
  rewrite (hasUserinfo_plain _ _ Hg Eg), Et. cbn [mbind option_bind].
  destruct (estateHostname gameApiUrl) as [api|] eqn:Ea; [|repeat case_match; naive_solver].
  pose proof (sameEstate_iff _ _ _ _ Ea Eg) as H1. pose proof (sameEstate_iff _ _ _ _ Et Eg) as H2.
  transitivity (schemeOf gameApiUrl ≠ [] ∧
    (schemeOf gatewayUrl = chars "wss" ∨ schemeOf gatewayUrl = chars "ws" ∧ schemeOf gameApiUrl ≠ chars "https") ∧
    (sameEstate gameApiUrl api gatewayUrl gateway = true ∨ sameEstate kDefaultHttpOrigin tierHost gatewayUrl gateway = true ∨
     isLoopback api && isLoopback gateway = true)).
  2: { rewrite H1, H2, andb_true_iff. split; [intros (? & ? & ?); eauto 10|]. by intros (? & ? & [= <-] & [= <-] & ? & ? & ?). }
  clear H1 H2 Ea Eg. generalize (schemeOf gameApiUrl) (schemeOf gatewayUrl). intros sa sg.
  case_bool_decide as E1; [split; [done|]; intros (_ & [->|[-> _]] & _); done|].
  destruct (decide (sg = chars "wss" ∨ sg = chars "ws")) as [Es|Es].
  2: { rewrite !bool_decide_false by tauto. cbn. split; [done|]. tauto. }
  assert (bool_decide (sg = chars "ws") || bool_decide (sg = chars "wss") = true) as ->.
  { rewrite orb_true_iff, !bool_decide_eq_true. tauto. }
  cbn [negb]. case_bool_decide as E2; [split; [done|]; tauto|].
  destruct (decide (sa = chars "https" ∧ sg ≠ chars "wss")) as [[E3 E4]|E3].
  { rewrite bool_decide_true, bool_decide_false by done. cbn. split; [done|]. tauto. }
  assert (bool_decide (sa = chars "https") && negb (bool_decide (sg = chars "wss")) = false) as ->.
  { apply andb_false_iff. rewrite negb_false_iff, bool_decide_eq_false, bool_decide_eq_true.
    destruct (decide (sg = chars "wss")); tauto. }
  assert (sg = chars "wss" ∨ sg = chars "ws" ∧ sa ≠ chars "https") as E4 by (destruct (decide (sg = chars "wss")); tauto).
  destruct (sameEstate gameApiUrl _ _ _); [tauto|]. destruct (sameEstate kDefaultHttpOrigin _ _ _); [tauto|].
  destruct (isLoopback api && isLoopback gateway); [tauto|]. split; [done|]. intros (_ & _ & [|[|]]); done.
Qed.

Lemma gateway_pinned_witness :
  ∃ api gateway, hostOf (chars "https://ck.prod.crowdedkingdoms.com") = Some api ∧
    hostOf (chars "wss://gw-1.prod.crowdedkingdoms.com:7443/x") = Some gateway ∧
    (one_estate api gateway ∨ one_estate tierHost gateway ∨ isLoopback api = true ∧ isLoopback gateway = true).
Proof.
  assert (64 ∉ chars "https://ck.prod.crowdedkingdoms.com" ∧ 64 ∉ chars "wss://gw-1.prod.crowdedkingdoms.com:7443/x") as [H1 H2].
  { split; apply (bool_decide_unpack _); by vm_compute. }
  destruct (proj1 (gateway_pinned _ _ H1 H2) ltac:(by vm_compute)) as (api & gateway & Ha & Hg & _ & _ & H).
  by exists api, gateway.
Defined.

(** The condition is needed: an [@] behind a [?] hides the host. The authority of this URL is
    [evil.example], yet the gateway is taken, and the token sent to it. *)
Example gateway_hidden_host :
  let url := chars "wss://evil.example?@ck.prod.crowdedkingdoms.com" in
  hostOf url = Some (chars "evil.example") ∧
  execGatewayRefusal (chars "https://ck.prod.crowdedkingdoms.com") url = Some None ∧
  isSameEstate (chars "https://ck.prod.crowdedkingdoms.com") url = true.
Proof. split_and!; by vm_compute. Qed.

(** ** Query values *)

Definition hexUpper (c : Z) : option Z :=
  if (48 <=? c) && (c <=? 57) then Some (c - 48) else if (65 <=? c) && (c <=? 70) then Some (c - 55) else None.

(** Percent-decoding (RFC 3986). *)
Fixpoint percentDecode (s : bytes) : option bytes :=
  match s with
  | [] => Some []
  | 37 :: s => match s with a :: b :: s => x ← hexUpper a; y ← hexUpper b; l ← percentDecode s; Some (16 * x + y :: l) | _ => None end
  | c :: s => l ← percentDecode s; Some (c :: l)
  end.

Definition decodesOne (c : Z) : bool :=
  if unreserved c then negb (c =? 37) else
  match kHexUpper !!! Z.to_nat (Z.shiftr c 4), kHexUpper !!! Z.to_nat (Z.land c 15) with
  | a, b => bool_decide (hexUpper a = Some (c / 16)) && bool_decide (hexUpper b = Some (c mod 16)) &&
            unreserved a && unreserved b
  end.

Lemma decodesOne_byte c : is_byte c → decodesOne c = true.
Proof.
  intros Hc. assert (forallb decodesOne (seqZ 0 256) = true) as H by (by vm_compute).
  rewrite foldr_andb_true in H. apply H, elem_of_seqZ. unfold is_byte, in_u in Hc. lia.
Qed.

(** A value in a query decodes to itself and holds only characters that mean nothing in a URL. *)
Theorem queryValue_roundtrip s :
  Forall is_byte s →
  percentDecode (queryValue s) = Some s ∧ Forall (λ c, unreserved c = true ∨ c = 37) (queryValue s).
Proof.
  unfold queryValue. induction 1 as [|c s Hc _ [IH1 IH2]]; [done|]. cbn [fmap list_fmap concat].
  pose proof (decodesOne_byte c Hc) as Hd. unfold decodesOne, queryChar in *. destruct (unreserved c) eqn:E.
  - apply negb_true_iff, Z.eqb_neq in Hd. cbn [app]. split; [|apply Forall_cons; tauto].
    unfold percentDecode at 1. fold percentDecode. rewrite IH1. cbn. repeat (case_match; try done).
  - apply andb_true_iff in Hd as [Hd Hb]. apply andb_true_iff in Hd as [Hd Ha].
    apply andb_true_iff in Hd as [H1%bool_decide_eq_true H2%bool_decide_eq_true].
    cbn [app percentDecode]. rewrite H1, H2, IH1. cbn. split; [|repeat (apply Forall_cons_2; [tauto|]); done].
    do 2 f_equal. pose proof (Z.div_mod c 16). lia.
Qed.

Lemma queryValue_roundtrip_witness : percentDecode (queryValue (chars "a+b/c=")) = Some (chars "a+b/c=").
Proof. apply (queryValue_roundtrip (chars "a+b/c=")). repeat (apply Forall_cons_2; [by vm_compute|]). done. Defined.

(** ** Digests *)

Lemma padZeros_length fuel msg :
  (length (padZeros fuel msg) mod 64 = 56)%nat ∨
  ∀ i, (i < fuel)%nat → ((length msg + i) mod 64 ≠ 56)%nat.
Proof.
  revert msg. induction fuel as [|fuel IH]; intros msg; [right; lia|]. cbn [padZeros].
  destruct (Nat.eqb_spec (length msg mod 64) 56) as [E|E]; [by left|].
  destruct (IH (msg ++ [0])) as [H|H]; [by left|]. right. intros [|i] Hi; [by rewrite Nat.add_0_r|].
  specialize (H i ltac:(lia)). rewrite length_app in H. cbn in H. by replace (length msg + S i)%nat with (length msg + 1 + i)%nat by lia.
Qed.

Lemma padded_length input : (length (padded input) mod 64 = 0)%nat ∧ (0 < length (padded input))%nat.
Proof.
  unfold padded. rewrite length_app, length_fmap. cbn [length]. split; [|lia].
  set (m := input ++ [128]). destruct (padZeros_length 64 m) as [H|H].
  - rewrite Nat.Div0.add_mod, H. done.
  - exfalso. set (r := (length m mod 64)%nat). pose proof (Nat.mod_upper_bound (length m) 64 ltac:(lia)) as Hr. fold r in Hr.
    apply (H ((120 - r) mod 64)%nat); [by apply Nat.mod_upper_bound|].
    rewrite Nat.Div0.add_mod_idemp_r. pose proof (Nat.div_mod (length m) 64 ltac:(lia)) as Hm. fold r in Hm.
    replace (length m + (120 - r))%nat with (56 + (length m / 64 + 1) * 64)%nat by lia.
    by rewrite Nat.Div0.mod_add.
Qed.

Lemma octet_at (msg : bytes) p : (p < length msg)%nat → is_Some (msg !! p).
Proof. apply lookup_lt_is_Some_2. Qed.

Lemma wordAt_defined msg p : (p + 3 < length msg)%nat → is_Some (wordAt msg p).
Proof.
  intros H. unfold wordAt. destruct (octet_at msg p ltac:(lia)) as [? ->].
  destruct (octet_at msg (p + 1) ltac:(lia)) as [? ->].
  destruct (octet_at msg (p + 2) ltac:(lia)) as [? ->].
  destruct (octet_at msg (p + 3) ltac:(lia)) as [? ->]. cbn. eauto.
Qed.

Lemma schedule_defined n w : (16 ≤ length w)%nat → ∃ w', schedule n w = Some w' ∧ length w' = (length w + n)%nat.
Proof.
  revert w. induction n as [|n IH]; intros w Hw; [exists w; split; [done|lia]|]. cbn [schedule].
  assert (is_Some (nextWord w)) as [x ->].
  { unfold nextWord. destruct (lookup_lt_is_Some_2 w (length w - 15) ltac:(lia)) as [? ->].
    destruct (lookup_lt_is_Some_2 w (length w - 2) ltac:(lia)) as [? ->].
    destruct (lookup_lt_is_Some_2 w (length w - 16) ltac:(lia)) as [? ->].
    destruct (lookup_lt_is_Some_2 w (length w - 7) ltac:(lia)) as [? ->]. cbn. eauto. }
  cbn. destruct (IH (w ++ [x])) as (w' & E & Hl); [rewrite length_app; cbn; lia|]. exists w'. split; [done|].
  rewrite Hl, length_app. cbn. lia.
Qed.

Lemma block_defined msg chunk h : (chunk + 64 ≤ length msg)%nat → is_Some (block msg chunk h).
Proof.
  intros H. unfold block.
  destruct (mapM (λ i, wordAt msg (chunk + 4 * i)) (seq 0 16)) as [w|] eqn:E.
  - apply mapM_Some, Forall2_length in E. rewrite length_seq in E. cbn [mbind option_bind].
    destruct (schedule_defined 48 w) as (w' & -> & _); [lia|]. cbn. eauto.
  - apply mapM_None, Exists_exists in E as (i & Hi%in_seq & E).
    destruct (wordAt_defined msg (chunk + 4 * i)) as [? Hs]; [lia|]. by rewrite Hs in E.
Qed.

Lemma blocks_defined n chunk msg h : (chunk + 64 * n ≤ length msg)%nat → is_Some (blocks n chunk msg h).
Proof.
  revert chunk h. induction n as [|n IH]; intros chunk h Hl; cbn [blocks]; [eauto|].
  destruct (block_defined msg chunk h) as [h' ->]; [lia|]. cbn. apply IH. lia.
Qed.

(** Every input has a digest of 64 hexadecimal digits: no access leaves the padded message, whose
    length is a whole number of blocks. *)
Theorem sha256_total input : ∃ digest, execSha256Hex input = Some digest ∧ length digest = 64%nat.
Proof.
  unfold execSha256Hex. destruct (padded_length input) as [Hm _].
  destruct (blocks_defined (length (padded input) / 64) 0 (padded input) initialHash) as [h ->].
  { pose proof (Nat.div_mod (length (padded input)) 64 ltac:(lia)). lia. }
  eexists. split; [done|]. done.
Qed.

(** The examples of FIPS 180-4. *)
Example sha256_known :
  execSha256Hex (chars "abc") = Some (chars "ba7816bf8f01cfea414140de5dae2223b00361a396177a9cb410ff61f20015ad") ∧
  execSha256Hex (chars "abcdbcdecdefdefgefghfghighijhijkijkljklmklmnlmnomnopnopq") =
    Some (chars "248d6a61d20638b8e5c026930c3e6039a33ce45964ff2167f6ecedd419db06c1").
Proof. split; by vm_compute. Qed.
