(* ===== verification/ExecConn.v ===== *)
(** * The Exec connection

    [ExecConnection::Impl] of [src/domains/exec.cpp]: one player's WebSocket connection to an
    execution host, with its calls, subscriptions, reconnects and deadlines. A method runs as tasks
    ([Tasks]): a critical section of [mu_], or a call to the outside (the dialer, the transport, the
    dispatcher, a callback); between any two of them every other thread may run. A callback of the
    caller is a number. The dialer answers, and a socket speaks, at any time ([enters]). The
    payloads [callRaw] sends are given. Clocks, [gen_] and handles are unbounded integers; request
    ids are 32 bits wide. The wait of the timer thread ends at any time, and [request] does not wake
    it. What a destroyed
    connection's weak pointers ignore, a closed one ignores. *)

From S2P Require Import Prelude Bytes Core Json Endpoint Tasks ExecWire.

Open Scope Z_scope.

(** ** Data *)

Record ExecEndpoint := mkEndpoint { ee_gatewayUrl : bytes; ee_token : bytes; ee_host : bytes }.

Record ExecConnectOptions := mkOptions {
  eo_callTimeoutMs : Z; eo_reconnect : bool; eo_initialReconnectDelayMs : Z; eo_maxReconnectDelayMs : Z }.

(** The caller's callback, or the closure of [subscribe]. *)
Inductive Callback := Caller (q : Z) | Subscribing (handle : Z) (q : option Z).

Record Pending := mkPending {
  pd_frame : ClientFrame; pd_done : option Callback; pd_deadline : Z; pd_gen : Z; pd_retried : bool;
  pd_internal : bool; pd_timeoutMs : Z }.

Definition set_gen (g : Z) (p : Pending) : Pending :=
  mkPending (pd_frame p) (pd_done p) (pd_deadline p) g (pd_retried p) (pd_internal p) (pd_timeoutMs p).
(** [retried = true; gen = 0]. *)
Definition again (p : Pending) : Pending :=
  mkPending (pd_frame p) (pd_done p) (pd_deadline p) 0 true (pd_internal p) (pd_timeoutMs p).

Record Sub := mkSub { sb_nodeType : bytes; sb_key : bytes; sb_topic : bytes; sb_handlers : list Z }.

Record ExecPush := mkPush { ep_nodeType : bytes; ep_key : bytes; ep_topic : bytes; ep_payload : bytes }.

(** What is put in [run] and delivered outside the lock. *)
Inductive Job :=
| JConnected (w : Z) (st : Status)
| JReply (done : Callback) (r : ExecReply)
| JDial
| JPush (handle : Z) (push : ExecPush)
| JReconnected (listener : Z) (host : bytes)
| JAccessEnded (listener : Z) (reason : bytes).

Inductive SocketEvent :=
| EvOpen
| EvFrame (binary : bool) (payload : bytes)
| EvClose (code : Z) (reason : bytes)
| EvError (httpStatus : Z) (httpBody text : bytes).

Definition kExecCloseAccessEnded : Z := 4403.

(** ** State *)

Record Link := mkLink { closed_ : bool; dialing_ : bool; ws_ : option Z; gen_ : Z; open_ : bool; everOpened_ : bool }.
Record Retry := mkRetry { backoffMs_ : Z; reconnectDue_ : bool; reconnectAt_ : Z; timerStarted_ : bool }.
Record Requests := mkRequests { rid_ : Z; pending_ : list (Z * Pending); toSend_ : list bytes; outbox_ : list Job }.
Record Topics := mkTopics { subs_ : list (bytes * Sub); handles_ : gmap Z bytes; nextHandle_ : Z }.
Record Listeners := mkListeners { reconnectListeners_ : list Z; accessEndedListeners_ : list Z; nextListener_ : Z }.

(** [posted_]: the dispatcher's queue, if there is a dispatcher. *)
Record Exec := mkExec {
  link : Link; retry : Retry; requests : Requests; topics : Topics; listeners : Listeners;
  waiters_ : list Z; endpoint_ : ExecEndpoint; pinned_ : bool; lastFailure_ : option ExecReply;
  posted_ : option (Queue Job) }.

Definition set_link (v : Link) (x : Exec) : Exec :=
  mkExec v (retry x) (requests x) (topics x) (listeners x) (waiters_ x) (endpoint_ x) (pinned_ x) (lastFailure_ x) (posted_ x).
Definition set_retry (v : Retry) (x : Exec) : Exec :=
  mkExec (link x) v (requests x) (topics x) (listeners x) (waiters_ x) (endpoint_ x) (pinned_ x) (lastFailure_ x) (posted_ x).
Definition set_requests (v : Requests) (x : Exec) : Exec :=
  mkExec (link x) (retry x) v (topics x) (listeners x) (waiters_ x) (endpoint_ x) (pinned_ x) (lastFailure_ x) (posted_ x).
Definition set_topics (v : Topics) (x : Exec) : Exec :=
  mkExec (link x) (retry x) (requests x) v (listeners x) (waiters_ x) (endpoint_ x) (pinned_ x) (lastFailure_ x) (posted_ x).
Definition set_listeners (v : Listeners) (x : Exec) : Exec :=
  mkExec (link x) (retry x) (requests x) (topics x) v (waiters_ x) (endpoint_ x) (pinned_ x) (lastFailure_ x) (posted_ x).
Definition set_waiters (v : list Z) (x : Exec) : Exec :=
  mkExec (link x) (retry x) (requests x) (topics x) (listeners x) v (endpoint_ x) (pinned_ x) (lastFailure_ x) (posted_ x).
Definition set_endpoint (v : ExecEndpoint) (x : Exec) : Exec :=
  mkExec (link x) (retry x) (requests x) (topics x) (listeners x) (waiters_ x) v (pinned_ x) (lastFailure_ x) (posted_ x).
Definition set_pinned (v : bool) (x : Exec) : Exec :=
  mkExec (link x) (retry x) (requests x) (topics x) (listeners x) (waiters_ x) (endpoint_ x) v (lastFailure_ x) (posted_ x).
Definition set_lastFailure (v : option ExecReply) (x : Exec) : Exec :=
  mkExec (link x) (retry x) (requests x) (topics x) (listeners x) (waiters_ x) (endpoint_ x) (pinned_ x) v (posted_ x).
Definition set_posted (v : option (Queue Job)) (x : Exec) : Exec :=
  mkExec (link x) (retry x) (requests x) (topics x) (listeners x) (waiters_ x) (endpoint_ x) (pinned_ x) (lastFailure_ x) v.

Definition set_pending (l : list (Z * Pending)) (x : Exec) : Exec :=
  set_requests (mkRequests (rid_ (requests x)) l (toSend_ (requests x)) (outbox_ (requests x))) x.

Definition newExec (opts : ExecConnectOptions) (dispatcher : bool) : Exec :=
  mkExec (mkLink false false None 0 false false) (mkRetry (eo_initialReconnectDelayMs opts) false 0 false)
    (mkRequests 1 [] [] []) (mkTopics [] ∅ 0) (mkListeners [] [] 0) [] (mkEndpoint [] [] []) false None
    (if dispatcher then Some newQueue else None).

Definition isOpen (x : Exec) : bool := bool_decide (is_Some (ws_ (link x))) && open_ (link x).
Definition isClosed (x : Exec) : bool := closed_ (link x).
(** [!dialing_ && !ws_] *)
Definition alone (x : Exec) : bool := negb (dialing_ (link x)) && bool_decide (ws_ (link x) = None).

Definition pending (x : Exec) : list (Z * Pending) := pending_ (requests x).

(** ** Critical sections, in parts *)

Section Parts.
Variable opts : ExecConnectOptions.

Definition nextRid (x : Exec) : Z * Exec :=
  let r := requests x in
  (rid_ r, set_requests (mkRequests (if rid_ r =? 4294967295 then 1 else rid_ r + 1) (pending_ r) (toSend_ r) (outbox_ r)) x).

Definition sendLocked (rid : Z) (x : Exec) : Exec :=
  let r := requests x in
  match look rid (pending_ r) with
  | None => x
  | Some p =>
      let p := set_gen (gen_ (link x)) p in
      match encode (pd_frame p) with
      | Err _ =>
          set_requests (mkRequests (rid_ r) (erase rid (pending_ r)) (toSend_ r)
            (outbox_ r ++ (match pd_done p with
                           | Some done => [JReply done (mkExecReply BadRequest (chars "a name is longer than its length prefix"))]
                           | None => [] end))) x
      | Val b => set_requests (mkRequests (rid_ r) (change rid (λ _, p) (pending_ r)) (toSend_ r ++ [b]) (outbox_ r)) x
      end
  end.

Definition beginDialLocked (x : Exec) : Exec * list Job :=
  let l := link x in
  (set_link (mkLink (closed_ l) true (ws_ l) (gen_ l) (open_ l) (everOpened_ l)) x, [JDial]).

Definition ensureTimerLocked (x : Exec) : Exec :=
  if timerStarted_ (retry x) || isClosed x then x else
  let t := retry x in set_retry (mkRetry (backoffMs_ t) (reconnectDue_ t) (reconnectAt_ t) true) x.

Definition scheduleReconnectLocked (now delayMs : Z) (x : Exec) : Exec :=
  let t := retry x in
  ensureTimerLocked (set_retry (mkRetry (backoffMs_ t) true (now + delayMs) (timerStarted_ t)) x).

(** Half of [ms] and a draw of up to as much again. *)
Definition jittered (draw ms : Z) : Z :=
  let half := Z.quot ms 2 in half + draw mod (Z.max 0 (ms - half) + 1).

Definition replies (why : ExecReply) (l : list (Z * Pending)) : list Job :=
  l ≫= λ e, match pd_done e.2 with Some done => [JReply done why] | None => [] end.

Definition failAllLocked (why : ExecReply) (x : Exec) : Exec * list Job := (set_pending [] x, replies why (pending x)).

Definition failWaiters (code : Status) (x : Exec) : Exec * list Job :=
  (set_waiters [] x, (λ w, JConnected w code) <$> waiters_ x).

(** The requests in flight on a lost connection: what stays, what fails. *)
Definition goesAgain (p : Pending) : bool :=
  eo_reconnect opts && negb (pd_retried p) && bool_decide (cf_kind (pd_frame p) = KCall).

Fixpoint sweep (why : ExecReply) (l : list (Z * Pending)) : list (Z * Pending) * list Job :=
  match l with
  | [] => ([], [])
  | (rid, p) :: l =>
      let '(kept, run) := sweep why l in
      if pd_gen p =? 0 then ((rid, p) :: kept, run)
      else if pd_internal p then (kept, run)
      else if goesAgain p then ((rid, again p) :: kept, run)
      else (kept, match pd_done p with Some done => JReply done why :: run | None => run end)
  end.

Definition loseLocked (now draw : Z) (why : ExecReply) (immediately : bool) (x : Exec) : Exec * list Job :=
  let l := link x in
  let wasOpen := open_ l in
  let x := set_link (mkLink (closed_ l) false None (gen_ l + 1) false (everOpened_ l)) x in
  let x := if immediately then x else set_lastFailure (Some why) x in
  let '(kept, run) := sweep why (pending x) in
  let x := set_pending kept x in
  if negb (everOpened_ l) && negb wasOpen then
    let '(x, run1) := failWaiters (if bool_decide (er_status why = Denied) then Rejected else NotConnected) x in
    let '(x, run2) := failAllLocked why x in
    (x, run ++ run1 ++ run2)
  else if eo_reconnect opts then
    (scheduleReconnectLocked now (if immediately then 0 else jittered draw (backoffMs_ (retry x))) x, run)
  else let '(x, run2) := failAllLocked why x in (x, run ++ run2).

Definition attemptFailedLocked (now draw : Z) (code : Errc) (why : bytes) (x : Exec) : Exec * list Job :=
  let x := set_lastFailure (Some (mkExecReply Unavailable why)) x in
  if everOpened_ (link x) && eo_reconnect opts then
    let x := scheduleReconnectLocked now (jittered draw (backoffMs_ (retry x))) x in
    let t := retry x in
    (set_retry (mkRetry (Z.min (backoffMs_ t * 2) (eo_maxReconnectDelayMs opts)) (reconnectDue_ t) (reconnectAt_ t) (timerStarted_ t)) x, [])
  else
    let '(x, run1) := failWaiters code x in
    let '(x, run2) := failAllLocked (mkExecReply Unavailable why) x in
    (x, run1 ++ run2).

(** ** Methods: their critical sections *)

Definition connect (w : option Z) (x : Exec) : Exec * list Job :=
  if isClosed x then (x, match w with Some w => [JConnected w Closed] | None => [] end)
  else if isOpen x then (x, match w with Some w => [JConnected w Ok] | None => [] end)
  else
    let x := match w with Some w => set_waiters (waiters_ x ++ [w]) x | None => x end in
    if alone x then beginDialLocked x else (x, []).

(** A request's id, and the request under it. *)
Definition enqueue (now : Z) (frame : ClientFrame) (done : option Callback) (internal : bool) (wait timeoutMs : Z) (x : Exec) : Z * Exec :=
  let '(rid, x) := nextRid x in
  (rid, set_pending (emplace Z.ltb rid (mkPending (set_rid rid frame) done (now + wait) 0 false internal timeoutMs) (pending x)) x).

Definition request (now : Z) (frame : ClientFrame) (done : option Callback) (internal : bool) (timeoutMs : Z) (x : Exec) :
    Exec * list Job * list Z :=
  if isClosed x then
    (x, match done with
        | Some done => [JReply done (mkExecReply Unavailable (chars "the connection is closed"))]
        | None => [] end, [])
  else
    let wait := if 0 <? timeoutMs then timeoutMs else eo_callTimeoutMs opts in
    let '(rid, x) := enqueue now frame done internal wait wait x in
    let '(x, run) := if isOpen x then (sendLocked rid x, []) else if alone x then beginDialLocked x else (x, []) in
    (ensureTimerLocked x, run, [rid]).

Definition subKey (t k topic : bytes) : bytes := t ++ [0] ++ k ++ [0] ++ topic.

(** The handle, and whether it is the first one of its topic. *)
Definition subscribe (nodeType key topic : bytes) (x : Exec) : Exec * Z * bool :=
  let k := subKey nodeType key topic in
  let t := topics x in
  let handle := nextHandle_ t + 1 in
  let held := match look k (subs_ t) with Some s => sb_handlers s | None => [] end in
  let sub := mkSub nodeType key topic (held ++ [handle]) in
  let subs := match look k (subs_ t) with
    | Some _ => change k (λ _, sub) (subs_ t)
    | None => emplace less k sub (subs_ t) end in
  (set_topics (mkTopics subs (<[handle := k]> (handles_ t)) handle) x, handle, bool_decide (held = [])).

Definition dropHandler (handle : Z) (tellGateway : bool) (x : Exec) : Exec * option ClientFrame :=
  let t := topics x in
  match handles_ t !! handle with
  | None => (x, None)
  | Some k =>
      let handles := delete handle (handles_ t) in
      match look k (subs_ t) with
      | None => (set_topics (mkTopics (subs_ t) handles (nextHandle_ t)) x, None)
      | Some s =>
          let left := List.filter (λ h, negb (h =? handle)) (sb_handlers s) in
          if bool_decide (left = []) then
            (set_topics (mkTopics (erase k (subs_ t)) handles (nextHandle_ t)) x,
             if tellGateway && isOpen x then Some (mkClientFrame KUnsubscribe 0 (sb_nodeType s) (sb_key s) (sb_topic s) []) else None)
          else
            (set_topics (mkTopics (change k (λ s, mkSub (sb_nodeType s) (sb_key s) (sb_topic s) left) (subs_ t)) handles (nextHandle_ t)) x, None)
      end
  end.

Definition onReconnect (x : Exec) : Exec :=
  let l := listeners x in
  set_listeners (mkListeners (reconnectListeners_ l ++ [nextListener_ l + 1]) (accessEndedListeners_ l) (nextListener_ l + 1)) x.
Definition onAccessEnded (x : Exec) : Exec :=
  let l := listeners x in
  set_listeners (mkListeners (reconnectListeners_ l) (accessEndedListeners_ l ++ [nextListener_ l + 1]) (nextListener_ l + 1)) x.
Definition removeListener (id : Z) (x : Exec) : Exec :=
  let l := listeners x in
  set_listeners (mkListeners (List.filter (λ i, negb (i =? id)) (reconnectListeners_ l))
    (List.filter (λ i, negb (i =? id)) (accessEndedListeners_ l)) (nextListener_ l)) x.

(** The connection that is closed, and what is delivered. *)
Definition close (x : Exec) : Exec * option Z * list Job :=
  if isClosed x then (x, None, []) else
  let l := link x in
  let x := set_link (mkLink true (dialing_ l) None (gen_ l) false (everOpened_ l)) x in
  let '(x, run1) := failAllLocked (mkExecReply Unavailable (chars "the connection is closed")) x in
  let '(x, run2) := failWaiters Closed x in
  (x, ws_ l, run1 ++ run2).

(** [flushOut]: the frames, the failures, and the connection to send on. *)
Definition flushOut (x : Exec) : Exec * list bytes * list Job * option Z :=
  let r := requests x in
  (set_requests (mkRequests (rid_ r) (pending_ r) [] []) x, toSend_ r, outbox_ r, ws_ (link x)).

Definition connectUrl (e : ExecEndpoint) : bytes :=
  trimSlashes (ee_gatewayUrl e) ++ chars "/v1/connect?token=" ++ queryValue (ee_token e).

(** The main part of [onEndpoint]; [created] is whether the transport makes a connection. *)
Definition onEndpoint (now draw : Z) (created : bool) (found : Result ExecEndpoint) (refused : option bytes) (x : Exec) :
    Exec * list Job * option (Z * bytes) :=
  if isClosed x then (x, [], None) else
  let l := link x in
  let idle x := set_link (mkLink (closed_ l) false (ws_ l) (gen_ l) (open_ l) (everOpened_ l)) x in
  match found, refused with
  | Err e, _ => let '(x, run) := attemptFailedLocked now draw e (chars "no host for this app") (idle x) in (x, run, None)
  | Val _, Some why => let '(x, run) := attemptFailedLocked now draw NotConnected why (idle x) in (x, run, None)
  | Val e, None =>
      let x := set_endpoint e x in
      if created then
        (set_link (mkLink (closed_ l) (dialing_ l) (Some (gen_ l + 1)) (gen_ l + 1) false (everOpened_ l)) x, [],
         Some (gen_ l + 1, connectUrl e))
      else let '(x, run) := attemptFailedLocked now draw NotConnected (chars "no WebSocket transport") (idle x) in (x, run, None)
  end.

Definition judged (gameApiUrl : bytes) (e : ExecEndpoint) : option (option bytes) :=
  why ← execGatewayRefusal gameApiUrl (ee_gatewayUrl e);
  Some (match why with
        | Some why => Some (chars "refusing the gateway " ++ ee_gatewayUrl e ++ chars ": " ++ why)
        | None => None end).

(** A renewal of every subscription. *)
Definition renewOne (now : Z) (acc : Exec * list Z) (e : bytes * Sub) : Exec * list Z :=
  let '(rid, x) := enqueue now (mkClientFrame KSubscribe 0 (sb_nodeType e.2) (sb_key e.2) (sb_topic e.2) []) None true
                     (eo_callTimeoutMs opts) 0 acc.1 in
  (x, acc.2 ++ [rid]).
Definition renew (now : Z) (x : Exec) : Exec * list Z := foldl (renewOne now) (x, []) (subs_ (topics x)).

Definition waiting (x : Exec) : list Z := fst <$> List.filter (λ e, pd_gen e.2 =? 0) (pending x).

Definition onOpen (now gen : Z) (x : Exec) : option (Exec * list Job * list Z) :=
  let l := link x in
  if negb (gen =? gen_ l) || closed_ l then None else
  let x := set_link (mkLink false false (ws_ l) (gen_ l) true true) (set_lastFailure None x) in
  let t := retry x in
  let x := set_retry (mkRetry (eo_initialReconnectDelayMs opts) (reconnectDue_ t) (reconnectAt_ t) (timerStarted_ t)) x in
  let '(x, run) := failWaiters Ok x in
  let '(x, rids, told) :=
    if everOpened_ l then
      let '(x, rids) := renew now x in
      (x, rids, (λ i, JReconnected i (ee_host (endpoint_ x))) <$> reconnectListeners_ (listeners x))
    else (x, [], []) in
  Some (foldl (λ x rid, sendLocked rid x) x (waiting x), run ++ told, rids).

(** An answer to a request. *)
Definition onReply (now draw gen rid : Z) (r : ExecReply) (x : Exec) : option (Exec * list Job * option Z) :=
  p ← look rid (pending x);
  if bool_decide (er_status r = Moved) && bool_decide (cf_kind (pd_frame p) = KCall) && negb (pd_retried p) && eo_reconnect opts
  then
    let x := set_pending (change rid again (pending x)) x in
    let l := link x in
    if (gen =? gen_ l) && bool_decide (is_Some (ws_ l)) then
      let '(x, run) := loseLocked now draw (mkExecReply Unavailable (chars "the connection moved to another host")) true x in
      Some (x, run, ws_ l)
    else if isOpen x then Some (sendLocked rid x, [], None)
    else Some (x, [], None)
  else Some (set_pending (erase rid (pending x)) x, match pd_done p with Some done => [JReply done r] | None => [] end, None).

(** A decoded frame: what is delivered, and the connection that is left; [None] when the method
    returns at once. *)
Definition onFrame (now draw gen : Z) (f : ServerFrame) (x : Exec) : option (Exec * list Job * option Z) :=
  if isClosed x then None else
  match sf_kind f with
  | Push =>
      s ← look (subKey (sf_nodeType f) (sf_key f) (sf_topic f)) (subs_ (topics x));
      let push := mkPush (sf_nodeType f) (sf_key f) (sf_topic f) (sf_payload f) in
      Some (x, (λ h, JPush h push) <$> sb_handlers s, None)
  | Reply => onReply now draw gen (sf_rid f) (mkExecReply (execStatusFromWire (sf_status f)) (sf_payload f)) x
  | Pong => onReply now draw gen (sf_rid f) (mkExecReply ExecOk (sf_payload f)) x
  end.

Definition onLost (now draw gen : Z) (why : ExecReply) (x : Exec) : Exec * list Job :=
  if negb (gen =? gen_ (link x)) || isClosed x then (x, []) else loseLocked now draw why false x.

Definition onAccessEndedClose (gen : Z) (reason : bytes) (x : Exec) : Exec * list Job :=
  let l := link x in
  if negb (gen =? gen_ l) || closed_ l then (x, []) else
  let t := retry x in
  let x := set_retry (mkRetry (backoffMs_ t) false (reconnectAt_ t) (timerStarted_ t))
             (set_link (mkLink true false None (gen_ l) false (everOpened_ l)) x) in
  let why := mkExecReply Denied (if bool_decide (reason = []) then chars "the host ended the session: access ended" else reason) in
  let '(x, run1) := failAllLocked why (set_lastFailure (Some why) x) in
  let '(x, run2) := failWaiters Rejected x in
  (x, run1 ++ run2 ++ ((λ i, JAccessEnded i reason) <$> accessEndedListeners_ (listeners x))).

(** When a turn of the timer thread wakes at the latest. *)
Definition wakeAt (now : Z) (x : Exec) : Z :=
  let next := foldl (λ t e, Z.min t (pd_deadline e.2)) (now + 250) (pending x) in
  if reconnectDue_ (retry x) then Z.min next (reconnectAt_ (retry x)) else next.

Definition expired (now : Z) (l : list (Z * Pending)) : list Job :=
  l ≫= λ e, if now <? pd_deadline e.2 then [] else
    match pd_done e.2 with
    | Some done =>
        let ms := if 0 <? pd_timeoutMs e.2 then pd_timeoutMs e.2 else eo_callTimeoutMs opts in
        [JReply done (mkExecReply DeadlineExceeded (chars "no reply in " ++ decimal ms ++ chars " ms"))]
    | None => []
    end.

(** [timerTick] after its wait. *)
Definition timerTick (now : Z) (x : Exec) : Exec * list Job :=
  if isClosed x then (x, []) else
  let run := expired now (pending x) in
  let x := set_pending (List.filter (λ e, now <? pd_deadline e.2) (pending x)) x in
  let t := retry x in
  if reconnectDue_ t && (reconnectAt_ t <=? now) && alone x then
    let '(x, run') := beginDialLocked (set_retry (mkRetry (backoffMs_ t) false (reconnectAt_ t) (timerStarted_ t)) x) in
    (x, run ++ run')
  else (x, run).
End Parts.

(** ** Tasks *)

(** What happens outside, in order. [NAsked] and [NWaits] are the callbacks handed in, [NRid] the
    ids given to requests; [NDropped] is a job a closed dispatcher does not take or run; [NTurn] and
    [NTurned] are the beginning and the end of a turn of the timer thread. *)
Inductive Notice :=
| NAsked (q : Z) | NReply (q : Z) (r : ExecReply)
| NWaits (w : Z) | NConnected (w : Z) (st : Status)
| NHandle (h : Z) | NRid (rid : Z)
| NDial | NFound
| NCreate (gen : Z) (url : bytes) | NStart (gen : Z)
| NSend (ws : Z) (frame : bytes) | NWsClose (ws : Z)
| NPush (h : Z) (push : ExecPush) | NReconnected (l : Z) (host : bytes) | NAccessEnded (l : Z) (reason : bytes)
| NDropped (j : Job)
| NTurn | NTurned.

Inductive Task :=
| TConnect (w : option Z)
| TRequest (frame : ClientFrame) (done : option Callback) (internal : bool) (timeoutMs : Z)
| TSubscribe (nodeType key topic : bytes) (q : option Z)
| TDropHandler (h : Z) (tellGateway : bool)
| TOnReconnect | TOnAccessEnded | TRemoveListener (id : Z) | TPinGateway
| TClose
| TFound (found : Result ExecEndpoint) | TJudge (e : ExecEndpoint) | TEndpoint (found : Result ExecEndpoint) (refused : option bytes)
| TStart (gen : Z)
| TEvent (gen : Z) (ev : SocketEvent)
| TTick | TWake (at_ : Z) | TTurned
| TFlush | TSend (ws : Z) (frame : bytes) | TWsClose (ws : Z)
| TDeliver (j : Job) | TRun (j : Job) | TTell (q : Z) (r : ExecReply)
| TPoll | TPolled (j : Job) | TCloseDispatcher.

(** What the outside gives a task. *)
Record Given := mkGiven { gv_now : Z; gv_draw : Z; gv_created : bool; gv_apiUrl : bytes }.

Definition deliver (run : list Job) : list Task := TDeliver <$> run.
Definition sent (ws : option Z) (frames : list bytes) : list Task :=
  match ws with Some ws => TSend ws <$> frames | None => [] end.
Definition closing (ws : option Z) : list Task := match ws with Some ws => [TWsClose ws] | None => [] end.

(** A job's call. *)
Definition runJob (j : Job) : list Task * list Notice :=
  match j with
  | JConnected w st => ([], [NConnected w st])
  | JReply (Caller q) r => ([], [NReply q r])
  | JReply (Subscribing h q) r =>
      ((if execReplyOk r then [] else [TDropHandler h false]) ++ (match q with Some q => [TTell q r] | None => [] end), [])
  | JDial => ([], [NDial])
  | JPush h push => ([], [NPush h push])
  | JReconnected l host => ([], [NReconnected l host])
  | JAccessEnded l reason => ([], [NAccessEnded l reason])
  end.

Section Machine.
Variable opts : ExecConnectOptions.

Definition onEvent (g : Given) (gen : Z) (ev : SocketEvent) (x : Exec) : option (Exec * list Task * list Notice) :=
  let lost why := let '(x, run) := onLost opts (gv_now g) (gv_draw g) gen why x in Some (x, deliver run, []) in
  match ev with
  | EvOpen =>
      match onOpen opts (gv_now g) gen x with
      | None => Some (x, [], [])
      | Some (x, run, rids) => Some (x, TFlush :: deliver run, NRid <$> rids)
      end
  | EvFrame false _ => Some (x, [], [])
  | EvFrame true payload =>
      decoded ← decode payload;
      match decoded with
      | Err _ => Some (x, [], [])
      | Val f =>
          match onFrame opts (gv_now g) (gv_draw g) gen f x with
          | None => Some (x, [], [])
          | Some (x, run, redialFrom) => Some (x, closing redialFrom ++ TFlush :: deliver run, [])
          end
      end
  | EvClose code reason =>
      if code =? kExecCloseAccessEnded then let '(x, run) := onAccessEndedClose gen reason x in Some (x, deliver run, []) else
      lost (mkExecReply (if code =? 4401 then Denied else Unavailable)
              (if bool_decide (reason = []) then chars "the gateway closed the connection" else reason))
  | EvError httpStatus httpBody text =>
      lost (if 0 <? httpStatus
            then mkExecReply (if httpStatus =? 401 then Denied else Unavailable) (refusedReason httpStatus httpBody)
            else mkExecReply Unavailable text)
  end.

Definition performTask (g : Given) (t : Task) (x : Exec) : option (Exec * list Task * list Notice) :=
  let quiet x := Some (x, [], []) in
  match t with
  | TConnect w => let '(x, run) := connect w x in Some (x, deliver run, [])
  | TRequest frame done internal timeoutMs =>
      let '(x, run, rids) := request opts (gv_now g) frame done internal timeoutMs x in
      Some (x, deliver run ++ [TFlush], NRid <$> rids)
  | TSubscribe nodeType key topic q =>
      let '(x, handle, first) := subscribe nodeType key topic x in
      Some (x,
        if first : bool then [TRequest (mkClientFrame KSubscribe 0 nodeType key topic []) (Some (Subscribing handle q)) false 0]
        else match q with Some q => [TDeliver (JReply (Caller q) (mkExecReply ExecOk []))] | None => [] end, [NHandle handle])
  | TDropHandler h tellGateway =>
      let '(x, unsub) := dropHandler h tellGateway x in
      Some (x, match unsub with Some f => [TRequest f None true 0] | None => [] end, [])
  | TOnReconnect => quiet (onReconnect x)
  | TOnAccessEnded => quiet (onAccessEnded x)
  | TRemoveListener id => quiet (removeListener id x)
  | TPinGateway => quiet (set_pinned true x)
  | TClose => let '(x, ws, run) := close x in Some (x, closing ws ++ deliver run, [])
  | TFound found =>
      Some (x, match found with
               | Val e => if pinned_ x then [TJudge e] else [TEndpoint found None]
               | Err _ => [TEndpoint found None] end, [])
  | TJudge e => refused ← judged (gv_apiUrl g) e; Some (x, [TEndpoint (Val e) refused], [])
  | TEndpoint found refused =>
      let '(x, run, made) := onEndpoint opts (gv_now g) (gv_draw g) (gv_created g) found refused x in
      Some (x, deliver run ++ (match made with Some m => [TStart m.1] | None => [] end),
            match made with Some m => [NCreate m.1 m.2] | None => [] end)
  | TStart gen => Some (x, [], [NStart gen])
  | TEvent gen ev => onEvent g gen ev x
  | TTick => Some (x, if isClosed x then [] else [TWake (wakeAt (gv_now g) x)], [])
  | TWake _ =>
      let '(y, run) := timerTick opts (gv_now g) x in
      Some (y, deliver run ++ (if isClosed x then [] else [TTurned]), [])
  | TTurned => Some (x, [], [NTurned])
  | TFlush => let '(x, frames, run, ws) := flushOut x in Some (x, sent ws frames ++ deliver run, [])
  | TSend ws frame => Some (x, [], [NSend ws frame])
  | TWsClose ws => Some (x, [], [NWsClose ws])
  | TDeliver j =>
      match posted_ x with
      | Some q => Some (set_posted (Some (postJob j q)) x, [], if qu_closed q then [NDropped j] else [])
      | None => Some (x, [TRun j], [])
      end
  | TRun j => let '(ts, ns) := runJob j in Some (x, ts, ns)
  | TTell q r => Some (x, [], [NReply q r])
  | TPoll =>
      match posted_ x with
      | Some q => let '(js, q) := swapJobs q in Some (set_posted (Some q) x, TPolled <$> js, [])
      | None => quiet x
      end
  | TPolled j =>
      match posted_ x with
      | Some q => if qu_closed q then Some (x, [], [NDropped j]) else Some (x, [TRun j], [])
      | None => Some (x, [TRun j], [])
      end
  | TCloseDispatcher =>
      match posted_ x with
      | Some q => Some (set_posted (Some (closeQueue q)) x, [], NDropped <$> qu_jobs q)
      | None => quiet x
      end
  end.

Definition isDial (n : Notice) : bool := match n with NDial => true | _ => false end.
Definition isFound (n : Notice) : bool := match n with NFound => true | _ => false end.
Definition isTurn (n : Notice) : bool := match n with NTurn => true | _ => false end.
Definition isTurned (n : Notice) : bool := match n with NTurned => true | _ => false end.

(** Methods and what the outside starts: the dialer answers each dial once, a socket speaks once it
    is started, the timer thread, of which there is one, turns once it is there and its last turn has
    ended. A turn whose connection is closed does not end: the thread is over. *)
Definition entersTask (t : Task) (x : Exec) (log : list Notice) : option (list Notice) :=
  match t with
  | TConnect w => Some (match w with Some w => [NWaits w] | None => [] end)
  | TRequest f (Some (Caller q)) false _ =>
      match cf_kind f with KCall | KPing => Some [NAsked q] | _ => None end
  | TRequest f None false _ => match cf_kind f with KCall | KPing => Some [] | _ => None end
  | TSubscribe _ _ _ q => Some (match q with Some q => [NAsked q] | None => [] end)
  | TDropHandler _ true | TOnReconnect | TOnAccessEnded | TRemoveListener _ | TPinGateway | TClose => Some []
  | TFound _ => if (number isFound log <? number isDial log)%nat then Some [NFound] else None
  | TEvent gen _ => if existsb (λ n, match n with NStart g => g =? gen | _ => false end) log then Some [] else None
  | TTick =>
      if timerStarted_ (retry x) && (number isTurn log =? number isTurned log)%nat then Some [NTurn] else None
  | TPoll | TCloseDispatcher => Some []
  | _ => None
  end.

Definition execWorker : Worker Exec Task Notice Given := {| perform := performTask; enters := entersTask |}.
End Machine.
