(* ===== verification/ExecSpec.v ===== *)
(** * What holds of the Exec connection

    Every callback handed to the connection is called once ([exec_answers_once]) in every system that
    can be reached ([Tasks.reaches]), whatever the threads, the dialer, the gateway and the timer
    do. The lemmas here on how an operation changes the requests ([evolves], [grows]) serve
    [ExecLive], [ExecSends] and [ExecPin] too. *)

From S2P Require Import Prelude Bytes Core Json Endpoint Tasks ExecWire ExecConn.

Open Scope Z_scope.

#[local] Arguments chars : simpl never.

Lemma total_cons_Permutation {A} (w : A → nat) x l l' : l ≡ₚ x :: l' → total w l = (w x + total w l')%nat.
Proof. intros ->. done. Qed.

(** ** Requests *)

Definition rids (log : list Notice) : list Z := log ≫= λ n, match n with NRid r => [r] | _ => [] end.

Lemma rids_app l l' : rids (l ++ l') = rids l ++ rids l'.
Proof. apply bind_app. Qed.
Lemma rids_fmap l : rids (NRid <$> l) = l.
Proof. induction l as [|r l IH]; [done|]. cbn. by f_equal. Qed.
Lemma rids_none l : Forall (λ n, match n with NRid _ => False | _ => True end) l → rids l = [].
Proof. induction 1 as [|n l Hn _ IH]; [done|]. by destruct n. Qed.

(** A renewal has nobody waiting on it. *)
Definition unattended (p : Pending) : Prop := pd_internal p = true → pd_done p = None.

(** The state's requests have ids that were given out. *)
Definition requests_ok (log : list Notice) (l : list (Z * Pending)) : Prop :=
  Forall (λ e, e.1 ∈ rids log ∧ unattended e.2) l.

Definition task_ok (t : Task) : Prop := match t with TRequest _ done true _ => done = None | _ => True end.

(** ** Promises *)

(** A callback somebody waits on: of a request or a subscription, or of [connect]. *)
Inductive Promise := Replies (q : Z) | Connects (w : Z).

Definition inDone (p : Promise) (done : option Callback) : nat :=
  match p, done with
  | Replies q, Some (Caller q' | Subscribing _ (Some q')) => tally (q' =? q)
  | _, _ => 0
  end.
Definition inJob (p : Promise) (j : Job) : nat :=
  match p, j with
  | _, JReply done _ => inDone p (Some done)
  | Connects w, JConnected w' _ => tally (w' =? w)
  | _, _ => 0
  end.
Definition inWaiter (p : Promise) (w : Z) : nat := inJob p (JConnected w Ok).
Definition inTask (p : Promise) (t : Task) : nat :=
  match t with
  | TRequest _ done _ _ => inDone p done
  | TSubscribe _ _ _ q => inDone p (Caller <$> q)
  | TTell q _ => inDone p (Some (Caller q))
  | TConnect (Some w) => inWaiter p w
  | TDeliver j | TRun j | TPolled j => inJob p j
  | _ => 0
  end.
Definition inEntry (p : Promise) (e : Z * Pending) : nat := inDone p (pd_done e.2).
Definition queued (x : Exec) : list Job := match posted_ x with Some q => qu_jobs q | None => [] end.

(** With the connection. *)
Definition held (p : Promise) (x : Exec) : nat :=
  (total (inEntry p) (pending x) + total (inJob p) (outbox_ (requests x)) + total (inWaiter p) (waiters_ x) +
   total (inJob p) (queued x))%nat.

Definition asked (p : Promise) (n : Notice) : nat :=
  match n with NAsked q => inDone p (Some (Caller q)) | NWaits w => inWaiter p w | _ => 0 end.
(** Called, or given up by a closed dispatcher. *)
Definition answered (p : Promise) (n : Notice) : nat :=
  match n with
  | NReply q _ => inDone p (Some (Caller q))
  | NConnected w st => inJob p (JConnected w st)
  | NDropped j => inJob p j
  | _ => 0
  end.

Section Promises.
Variable opts : ExecConnectOptions.
Variable p : Promise.

Lemma inEntry_done k e : inEntry p (k, e) = inDone p (pd_done e). Proof. done. Qed.
Lemma inDone_none : inDone p None = 0%nat. Proof. by destruct p. Qed.
Lemma inJob_reply d r : inJob p (JReply d r) = inDone p (Some d). Proof. by destruct p. Qed.
Lemma inJob_connected w st : inJob p (JConnected w st) = inWaiter p w. Proof. by destruct p. Qed.
Lemma inJob_dial : inJob p JDial = 0%nat. Proof. by destruct p. Qed.
Lemma total_reply (o : option Callback) r run :
  total (inJob p) (match o with Some d => JReply d r :: run | None => run end) = (inDone p o + total (inJob p) run)%nat.
Proof. destruct o; [by rewrite total_cons, inJob_reply|by rewrite inDone_none]. Qed.

Lemma held_link v x : held p (set_link v x) = held p x. Proof. done. Qed.
Lemma held_retry v x : held p (set_retry v x) = held p x. Proof. done. Qed.
Lemma held_topics v x : held p (set_topics v x) = held p x. Proof. done. Qed.
Lemma held_lastFailure v x : held p (set_lastFailure v x) = held p x. Proof. done. Qed.
Lemma held_endpoint v x : held p (set_endpoint v x) = held p x. Proof. done. Qed.
Lemma held_pending l x : (held p (set_pending l x) + total (inEntry p) (pending x) = held p x + total (inEntry p) l)%nat.
Proof. unfold held, pending, queued. cbn. lia. Qed.
Lemma held_waiters l x : (held p (set_waiters l x) + total (inWaiter p) (waiters_ x) = held p x + total (inWaiter p) l)%nat.
Proof. unfold held, pending, queued. cbn. lia. Qed.
Lemma held_posted q q' x :
  posted_ x = Some q → (held p (set_posted (Some q') x) + total (inJob p) (qu_jobs q) = held p x + total (inJob p) (qu_jobs q'))%nat.
Proof. intros E. unfold held, pending, queued. rewrite E. cbn. lia. Qed.
Lemma held_ensureTimer x : held p (ensureTimerLocked x) = held p x.
Proof. unfold ensureTimerLocked. by destruct (_ || _). Qed.
Lemma held_schedule now d x : held p (scheduleReconnectLocked now d x) = held p x.
Proof. unfold scheduleReconnectLocked. by rewrite held_ensureTimer. Qed.

Ltac books :=
  rewrite ?held_link, ?held_retry, ?held_topics, ?held_lastFailure, ?held_endpoint, ?held_schedule, ?total_app, ?total_cons,
    ?total_nil, ?inJob_reply, ?inJob_connected, ?inJob_dial, ?inDone_none; lia.

Lemma total_replies why l : total (inJob p) (replies why l) = total (inEntry p) l.
Proof.
  induction l as [|[k e] l IH]; [done|]. unfold replies in *. cbn [mbind list_bind]. rewrite total_app, total_cons, IH.
  unfold inEntry. cbn [snd]. by rewrite (total_reply (pd_done e) why []), total_nil, Nat.add_0_r.
Qed.
Lemma total_waiters code l : total (inJob p) ((λ w, JConnected w code) <$> l) = total (inWaiter p) l.
Proof. rewrite total_fmap. apply total_ext. intros w _. unfold inWaiter. by destruct p. Qed.

Lemma held_sendLocked rid x : held p (sendLocked rid x) = held p x.
Proof.
  unfold sendLocked. destruct (look rid (pending_ (requests x))) as [e|] eqn:E; [|done].
  pose proof (total_cons_Permutation (inEntry p) _ _ _ (erase_Permutation _ _ _ E)) as H1.
  pose proof (total_cons_Permutation (inEntry p) _ _ _ (change_Permutation _ (λ _, set_gen (gen_ (link x)) e) _ _ E)) as H2.
  assert (pd_done (set_gen (gen_ (link x)) e) = pd_done e) as Ed by done. revert H2 Ed.
  generalize (set_gen (gen_ (link x)) e). intros e' H2 Ed. rewrite inEntry_done in H1, H2. rewrite Ed in H2.
  destruct (encode _) as [b|err]; unfold held, pending, queued; cbn; rewrite ?total_app.
  - lia.
  - rewrite (total_reply (pd_done e') _ []), Ed, total_nil. lia.
Qed.

Lemma held_failAll why x : let '(x', run) := failAllLocked why x in (held p x' + total (inJob p) run = held p x)%nat.
Proof. unfold failAllLocked. rewrite total_replies. pose proof (held_pending [] x) as H. rewrite total_nil in H. lia. Qed.
Lemma held_failWaiters code x : let '(x', run) := failWaiters code x in (held p x' + total (inJob p) run = held p x)%nat.
Proof. unfold failWaiters. rewrite total_waiters. pose proof (held_waiters [] x) as H. rewrite total_nil in H. lia. Qed.

Lemma total_sweep why l :
  Forall (λ e, unattended e.2) l →
  let '(kept, run) := sweep opts why l in (total (inEntry p) kept + total (inJob p) run = total (inEntry p) l)%nat.
Proof.
  induction 1 as [|[k e] l He _ IH]; [done|]. cbn [sweep]. destruct (sweep opts why l) as [kept run].
  rewrite total_cons, inEntry_done. cbn [snd] in *.
  destruct (pd_gen e =? 0); [rewrite total_cons, inEntry_done; lia|].
  destruct (pd_internal e) eqn:Ei; [rewrite (He Ei), inDone_none; lia|].
  destruct (goesAgain opts e); [rewrite total_cons, inEntry_done; cbn [again pd_done]; lia|].
  rewrite total_reply. lia.
Qed.

Lemma held_lose now draw why im x :
  Forall (λ e, unattended e.2) (pending x) →
  let '(x', run) := loseLocked opts now draw why im x in (held p x' + total (inJob p) run = held p x)%nat.
Proof.
  intros Hu. unfold loseLocked.
  set (x1 := if im then _ else _). assert (held p x1 = held p x ∧ pending x1 = pending x) as [H1 E1] by (by destruct im).
  clearbody x1. pose proof (total_sweep why (pending x1)) as Hs. rewrite E1 in Hs at 1. specialize (Hs Hu).
  destruct (sweep opts why (pending x1)) as [kept run]. pose proof (held_pending kept x1) as H2.
  destruct (negb _ && negb _); [|destruct (eo_reconnect opts)].
  - pose proof (held_failWaiters (if bool_decide (er_status why = Denied) then Rejected else NotConnected) (set_pending kept x1)) as H3.
    destruct (failWaiters _ _) as [x2 run1]. pose proof (held_failAll why x2) as H4. destruct (failAllLocked why x2) as [x3 run2].
    rewrite !total_app. lia.
  - rewrite held_schedule. lia.
  - pose proof (held_failAll why (set_pending kept x1)) as H4. destruct (failAllLocked why _) as [x3 run2]. rewrite total_app. lia.
Qed.

Lemma held_attemptFailed now draw code why x :
  let '(x', run) := attemptFailedLocked opts now draw code why x in (held p x' + total (inJob p) run = held p x)%nat.
Proof.
  unfold attemptFailedLocked. destruct (everOpened_ _ && _).
  - rewrite held_retry, held_schedule, held_lastFailure. books.
  - pose proof (held_failWaiters code (set_lastFailure (Some (mkExecReply Unavailable why)) x)) as H1.
    destruct (failWaiters _ _) as [x2 run1]. pose proof (held_failAll (mkExecReply Unavailable why) x2) as H2.
    destruct (failAllLocked _ x2) as [x3 run2]. rewrite held_lastFailure in *. books.
Qed.

Lemma held_enqueue now frame done internal wait ms x :
  look (rid_ (requests x)) (pending x) = None →
  held p (enqueue now frame done internal wait ms x).2 = (held p x + inDone p done)%nat.
Proof.
  intros H. unfold enqueue, nextRid. cbn [snd]. set (x1 := set_requests _ x).
  assert (held p x1 = held p x ∧ pending x1 = pending x) as [H1 E1] by done. clearbody x1. rewrite E1.
  pose proof (held_pending (emplace Z.ltb (rid_ (requests x)) (mkPending (set_rid (rid_ (requests x)) frame) done (now + wait) 0 false internal ms) (pending x)) x1) as H2.
  rewrite (total_cons_Permutation _ _ _ _ (emplace_Permutation Z.ltb _ _ _ H)) in H2.
  rewrite E1 in H2. unfold inEntry in H2 at 2. cbn in H2. books.
Qed.

Lemma held_beginDial x : let '(x', run) := beginDialLocked x in (held p x' + total (inJob p) run = held p x)%nat.
Proof. cbn. rewrite held_link, total_cons, inJob_dial, total_nil. lia. Qed.

Lemma held_connect w x : let '(x', run) := connect w x in (held p x' + total (inJob p) run = held p x + inTask p (TConnect w))%nat.
Proof.
  unfold connect. destruct (isClosed x); [destruct w; cbn [inTask]; books|]. destruct (isOpen x); [destruct w; cbn [inTask]; books|].
  set (x1 := match w with Some w => _ | None => _ end).
  assert (held p x1 = held p x + inTask p (TConnect w))%nat as H1.
  { subst x1. cbn [inTask]. destruct w as [w|]; [|books]. pose proof (held_waiters (waiters_ x ++ [w]) x) as H.
    rewrite total_app, total_cons, total_nil in H. lia. }
  clearbody x1. destruct (alone x1); [|books]. pose proof (held_beginDial x1) as H2. destruct (beginDialLocked x1). lia.
Qed.

Lemma held_request now frame done internal ms x :
  (isClosed x = false → look (rid_ (requests x)) (pending x) = None) →
  let '(x', run, _) := request opts now frame done internal ms x in
  (held p x' + total (inJob p) run = held p x + inDone p done)%nat.
Proof.
  intros Hf. unfold request. destruct (isClosed x) eqn:Ec.
  { rewrite (total_reply done _ []), total_nil. lia. }
  pose proof (held_enqueue now frame done internal (if 0 <? ms then ms else eo_callTimeoutMs opts) (if 0 <? ms then ms else eo_callTimeoutMs opts) x (Hf eq_refl)) as H1.
  destruct (enqueue _ _ _ _ _ _ x) as [rid x1]. cbn [snd] in H1.
  destruct (isOpen x1); [|destruct (alone x1)].
  - rewrite held_ensureTimer, held_sendLocked. books.
  - pose proof (held_beginDial x1) as H2. destruct (beginDialLocked x1). rewrite held_ensureTimer. lia.
  - rewrite held_ensureTimer. books.
Qed.

Lemma held_subscribe nodeType key topic x : held p (subscribe nodeType key topic x).1.1 = held p x.
Proof. done. Qed.

Lemma held_dropHandler h tell x : held p (dropHandler h tell x).1 = held p x.
Proof. unfold dropHandler. repeat (case_match; try done). Qed.

Lemma held_close x : let '(x', _, run) := close x in (held p x' + total (inJob p) run = held p x)%nat.
Proof.
  unfold close. destruct (isClosed x); [books|]. set (x1 := set_link _ x). assert (held p x1 = held p x) as H1 by done. clearbody x1.
  pose proof (held_failAll (mkExecReply Unavailable (chars "the connection is closed")) x1) as H2.
  destruct (failAllLocked _ x1) as [x2 run1]. pose proof (held_failWaiters Closed x2) as H3. destruct (failWaiters _ x2) as [x3 run2].
  books.
Qed.

Lemma held_flushOut x : let '(x', _, run, _) := flushOut x in (held p x' + total (inJob p) run = held p x)%nat.
Proof. unfold flushOut, held, pending, queued. cbn. rewrite total_nil. lia. Qed.

Lemma held_onEndpoint now draw created found refused x :
  let '(x', run, _) := onEndpoint opts now draw created found refused x in (held p x' + total (inJob p) run = held p x)%nat.
Proof.
  unfold onEndpoint. destruct (isClosed x); [books|].
  assert (∀ code why y, held p y = held p x →
    let '(x', run) := attemptFailedLocked opts now draw code why y in (held p x' + total (inJob p) run = held p x)%nat) as Ha.
  { intros code why y <-. apply held_attemptFailed. }
  destruct found as [e|code]; [destruct refused as [why|]; [|destruct created]|].
  - specialize (Ha NotConnected why (set_link (mkLink (closed_ (link x)) false (ws_ (link x)) (gen_ (link x)) (open_ (link x)) (everOpened_ (link x))) x) eq_refl).
    destruct (attemptFailedLocked _ _ _ _ _ _). done.
  - books.
  - match goal with |- context [attemptFailedLocked _ _ _ ?c ?w ?y] => specialize (Ha c w y eq_refl) end.
    destruct (attemptFailedLocked _ _ _ _ _ _). done.
  - match goal with |- context [attemptFailedLocked _ _ _ ?c ?w ?y] => specialize (Ha c w y eq_refl) end.
    destruct (attemptFailedLocked _ _ _ _ _ _). done.
Qed.

Lemma held_renew now x known :
  (∀ k, k ∈ (pending x).*1 → k ∈ known) → NoDup (known ++ (renew opts now x).2) → held p (renew opts now x).1 = held p x.
Proof.
  unfold renew. generalize (subs_ (topics x)). intros l.
  assert (∀ l x acc, ∃ new, (foldl (renewOne opts now) (x, acc) l).2 = acc ++ new ∧
    ∀ known, (∀ k, k ∈ (pending x).*1 → k ∈ known) → NoDup (known ++ new) →
      held p (foldl (renewOne opts now) (x, acc) l).1 = held p x) as H.
  { clear. intros l. induction l as [|e l IH]; intros x acc; cbn [foldl].
    - exists []. rewrite app_nil_r. done.
    - unfold renewOne at 2 4. cbn [fst snd].
      destruct (enqueue now _ None true _ 0 x) as [rid x1] eqn:E. destruct (IH x1 (acc ++ [rid])) as (new & E1 & H1).
      exists (rid :: new). rewrite E1, <- app_assoc. split; [done|]. intros known Hk Hn.
      assert (rid = rid_ (requests x)) as Er by (unfold enqueue, nextRid in E; by simplify_eq).
      rewrite (H1 (known ++ [rid])).
      + apply (f_equal snd) in E. cbn [snd] in E. rewrite <- E, held_enqueue; [books|]. apply look_None. intros Hin%Hk. rewrite <- Er in Hin.
        apply list.NoDup_app in Hn as (_ & Hn & _). apply (Hn rid Hin). left.
      + intros k Hin. apply elem_of_app. unfold enqueue, nextRid in E. simplify_eq.
        unfold pending in Hin. cbn in Hin. apply list_elem_of_fmap in Hin as ([k' e'] & -> & Hin).
        apply emplace_keys in Hin as [[= -> ->]|Hin]; [right; by left|]. left. apply Hk. apply list_elem_of_fmap. by exists (k', e').
      + by rewrite <- app_assoc. }
  destruct (H l x []) as (new & E & Hh). intros Hk Hn. apply (Hh known Hk). by rewrite E in Hn.
Qed.

Lemma held_sendAll ids x : held p (foldl (λ x rid, sendLocked rid x) x ids) = held p x.
Proof. revert x. induction ids as [|r ids IH]; intros x; cbn; [done|]. by rewrite IH, held_sendLocked. Qed.

Lemma held_onOpen now gen x known :
  (∀ k, k ∈ (pending x).*1 → k ∈ known) →
  match onOpen opts now gen x with
  | None => True
  | Some (x', run, rids) => NoDup (known ++ rids) → (held p x' + total (inJob p) run = held p x)%nat
  end.
Proof.
  intros Hk. unfold onOpen. destruct (_ || _); [done|].
  set (x1 := set_retry _ _). assert (held p x1 = held p x ∧ pending x1 = pending x) as [H1 E1] by done. clearbody x1.
  pose proof (held_failWaiters Ok x1) as H2. assert (pending (failWaiters Ok x1).1 = pending x1) as E2 by done.
  destruct (failWaiters Ok x1) as [x2 run]. cbn [fst] in E2.
  destruct (everOpened_ (link x)).
  - pose proof (held_renew now x2 known) as H3. rewrite E2, E1 in H3. specialize (H3 Hk).
    destruct (renew opts now x2) as [x3 ids]. intros Hn. rewrite held_sendAll, total_app.
    rewrite (total_zero _ (_ <$> _)); [cbn [fst snd] in H3; rewrite H3 by done; lia|].
    intros j (i & -> & _)%list_elem_of_fmap. by destruct p.
  - intros _. rewrite held_sendAll. books.
Qed.

Lemma held_change_again k x : held p (set_pending (change k again (pending x)) x) = held p x.
Proof.
  destruct (look k (pending x)) as [e|] eqn:E.
  - pose proof (held_pending (change k again (pending x)) x) as H.
    rewrite (total_cons_Permutation _ _ _ _ (erase_Permutation _ _ _ E)) in H.
    rewrite (total_cons_Permutation _ _ _ _ (change_Permutation _ again _ _ E)) in H. rewrite !inEntry_done in H. cbn [again pd_done] in H. lia.
  - rewrite change_none by done. by destruct x as [? ? [] ? ? ? ? ? ? ?].
Qed.

Lemma held_erase k e x : look k (pending x) = Some e → (held p (set_pending (erase k (pending x)) x) + inDone p (pd_done e) = held p x)%nat.
Proof.
  intros E. pose proof (held_pending (erase k (pending x)) x) as H.
  rewrite (total_cons_Permutation _ _ _ _ (erase_Permutation _ _ _ E)) in H. rewrite inEntry_done in H. lia.
Qed.

Lemma held_onReply now draw gen rid r x :
  Forall (λ e, unattended e.2) (pending x) →
  match onReply opts now draw gen rid r x with
  | None => True
  | Some (x', run, _) => (held p x' + total (inJob p) run = held p x)%nat
  end.
Proof.
  intros Hu. unfold onReply. destruct (look rid (pending x)) as [e|] eqn:E; [|done]. cbn [mbind option_bind].
  destruct (_ && _ && _ && _).
  - pose proof (held_change_again rid x) as H1.
    assert (Forall (λ e, unattended e.2) (pending (set_pending (change rid again (pending x)) x))) as Hu1.
    { unfold pending at 1. cbn. rewrite (change_Permutation _ _ _ _ E). rewrite (erase_Permutation _ _ _ E) in Hu.
      apply Forall_cons_1 in Hu as [Hu Hr]. by apply Forall_cons_2. }
    set (x1 := set_pending _ x) in *. clearbody x1. destruct ((gen =? gen_ (link x1)) && _); [|destruct (isOpen x1)].
    + pose proof (held_lose now draw (mkExecReply Unavailable (chars "the connection moved to another host")) true x1 Hu1) as H2.
      destruct (loseLocked _ _ _ _ _ x1). lia.
    + rewrite held_sendLocked. books.
    + books.
  - rewrite (total_reply (pd_done e) _ []), total_nil. pose proof (held_erase _ _ x E). lia.
Qed.

Lemma held_onFrame now draw gen f x :
  Forall (λ e, unattended e.2) (pending x) →
  match onFrame opts now draw gen f x with
  | None => True
  | Some (x', run, _) => (held p x' + total (inJob p) run = held p x)%nat
  end.
Proof.
  intros Hu. unfold onFrame. destruct (isClosed x); [done|]. destruct (sf_kind f); [by apply held_onReply| |by apply held_onReply].
  destruct (look _ (subs_ _)) as [s|]; [|done]. cbn [mbind option_bind]. rewrite total_zero; [lia|].
  intros j (i & -> & _)%list_elem_of_fmap. by destruct p.
Qed.

Lemma held_onLost now draw gen why x :
  Forall (λ e, unattended e.2) (pending x) →
  let '(x', run) := onLost opts now draw gen why x in (held p x' + total (inJob p) run = held p x)%nat.
Proof. intros Hu. unfold onLost. destruct (_ || _); [books|]. by apply held_lose. Qed.

Lemma held_onAccessEndedClose gen reason x :
  let '(x', run) := onAccessEndedClose gen reason x in (held p x' + total (inJob p) run = held p x)%nat.
Proof.
  unfold onAccessEndedClose. destruct (_ || _); [books|]. set (why := mkExecReply _ _). clearbody why.
  set (x1 := set_lastFailure _ _). assert (held p x1 = held p x) as H1 by done. clearbody x1.
  pose proof (held_failAll why x1) as H2. destruct (failAllLocked why x1) as [x2 run1].
  pose proof (held_failWaiters Rejected x2) as H3. destruct (failWaiters _ x2) as [x3 run2].
  rewrite !total_app, (total_zero _ (_ <$> _)); [lia|]. intros j (i & -> & _)%list_elem_of_fmap. by destruct p.
Qed.

Lemma total_expired now l :
  (total (inJob p) (expired opts now l) + total (inEntry p) (List.filter (λ e, (now <? pd_deadline e.2)%Z) l) = total (inEntry p) l)%nat.
Proof.
  induction l as [|[k e] l IH]; [done|]. unfold expired in *. cbn [mbind list_bind List.filter]. rewrite total_app, total_cons. cbn [snd].
  destruct (now <? pd_deadline e); [rewrite total_cons; books|].
  rewrite (total_reply (pd_done e) _ []), inEntry_done, total_nil. lia.
Qed.

Lemma held_timerTick now x : let '(x', run) := timerTick opts now x in (held p x' + total (inJob p) run = held p x)%nat.
Proof.
  unfold timerTick. destruct (isClosed x); [books|].
  pose proof (held_pending (List.filter (λ e, now <? pd_deadline e.2) (pending x)) x) as H1.
  pose proof (total_expired now (pending x)) as H2. set (x1 := set_pending _ x) in *. clearbody x1.
  destruct (_ && _); [|lia].
  match goal with |- context [beginDialLocked ?y] => pose proof (held_beginDial y) as H3; destruct (beginDialLocked y) end.
  rewrite held_retry in H3. rewrite total_app. lia.
Qed.
End Promises.

(** ** How the requests change *)

(** The same request, perhaps sent or retried since. *)
Record grown (e e' : Pending) : Prop := {
  gr_frame : pd_frame e' = pd_frame e; gr_done : pd_done e' = pd_done e; gr_deadline : pd_deadline e' = pd_deadline e;
  gr_internal : pd_internal e' = pd_internal e; gr_timeout : pd_timeoutMs e' = pd_timeoutMs e;
  gr_retried : pd_retried e = true → pd_retried e' = true }.

#[global] Instance grown_preorder : PreOrder grown.
Proof.
  split; [by constructor|]. intros e1 e2 e3 [] []. constructor; try congruence. auto.
Qed.
Lemma grown_refl e : grown e e.
Proof. done. Qed.
#[local] Hint Resolve grown_refl : core.
Lemma grown_set_gen g e : grown e (set_gen g e).
Proof. by constructor. Qed.
Lemma grown_again e : grown e (again e).
Proof. by constructor. Qed.

(** Some requests are gone, the others grown. *)
Inductive evolves : list (Z * Pending) → list (Z * Pending) → Prop :=
| evolves_nil : evolves [] []
| evolves_drop e l l' : evolves l l' → evolves (e :: l) l'
| evolves_keep k e e' l l' : grown e e' → evolves l l' → evolves ((k, e) :: l) ((k, e') :: l').

#[local] Hint Constructors evolves : core.

Lemma evolves_refl l : evolves l l.
Proof. induction l as [|[k e] l IH]; [done|]. by constructor. Qed.
#[local] Hint Resolve evolves_refl : core.

Lemma evolves_trans l1 l2 l3 : evolves l1 l2 → evolves l2 l3 → evolves l1 l3.
Proof.
  intros H. revert l3. induction H as [|e l l' _ IH|k e e' l l' Hg _ IH]; intros l3 H3; [done|auto|].
  inversion H3 as [|? ? ? H4|? ? e3 ? ? Hg3 H4]; subst; [by constructor; apply IH|]. constructor; [by etrans|auto].
Qed.
#[global] Instance evolves_preorder : PreOrder evolves.
Proof. split; [exact evolves_refl|exact evolves_trans]. Qed.

Lemma evolves_empty l : evolves l [].
Proof. induction l; auto. Qed.
#[local] Hint Resolve evolves_empty : core.

Lemma evolves_erase k l : evolves l (erase k l).
Proof. induction l as [|[k' e] l IH]; [done|]. cbn. case_decide; auto. Qed.
Lemma evolves_change k f l : (∀ e, look k l = Some e → grown e (f e)) → evolves l (change k f l).
Proof.
  induction l as [|[k' e] l IH]; [done|]. cbn. case_decide; intros Hf; apply evolves_keep; auto.
Qed.
Lemma evolves_filter (f : Z * Pending → bool) l : evolves l (List.filter f l).
Proof. induction l as [|[k e] l IH]; [done|]. cbn. destruct (f _); auto. Qed.

Lemma evolves_In l l' k e' : evolves l l' → (k, e') ∈ l' → ∃ e, (k, e) ∈ l ∧ grown e e'.
Proof.
  induction 1 as [|x l l' _ IH|k1 e1 e1' l l' Hg _ IH]; [set_solver|..].
  - intros H. destruct (IH H) as (e & He & ?). exists e. split; [by right|done].
  - intros [[= -> ->]|H]%elem_of_cons; [exists e1; split; [by left|done]|].
    destruct (IH H) as (e & He & ?). exists e. split; [by right|done].
Qed.

Lemma evolves_keys l l' : evolves l l' → sublist l'.*1 l.*1.
Proof. induction 1; cbn; by constructor. Qed.

(** New requests too, under new ids. *)
Inductive grows : list (Z * Pending) → list Z → list (Z * Pending) → Prop :=
| grows_evolves l l' : evolves l l' → grows l [] l'
| grows_new l rid e ids l' :
    unattended e → pd_gen e = 0 → pd_retried e = false → grows (emplace Z.ltb rid e l) ids l' → grows l (rid :: ids) l'.

Lemma grows_then l ids l' l'' : grows l ids l' → evolves l' l'' → grows l ids l''.
Proof. induction 1 as [l l' H|l rid e ids l' He Hg Hr _ IH]; intros H2; [constructor; by etrans|by econstructor; eauto]. Qed.

Lemma grows_ok known l ids l' :
  grows l ids l' → Forall (λ e, e.1 ∈ known ∧ unattended e.2) l → Forall (λ e, e.1 ∈ known ++ ids ∧ unattended e.2) l'.
Proof.
  intros H. revert known. induction H as [l l' H|l rid e ids l' He Hg Hr _ IH]; intros known.
  - rewrite !list.Forall_forall, app_nil_r. intros Hl [k e'] Hx. destruct (evolves_In _ _ _ _ H Hx) as (e & Hin & [_ Hd _ Hi _ _]).
    destruct (Hl _ Hin) as [Hk Hu]. split; [done|]. unfold unattended in *. cbn in *. by rewrite Hd, Hi.
  - intros Hl. change (rid :: ids) with ([rid] ++ ids). rewrite app_assoc. apply IH. rewrite list.Forall_forall in Hl |- *.
    intros [k e'] [[= -> ->]|Hx]%emplace_keys; cbn [fst snd].
    + split; [|done]. apply elem_of_app. right. by left.
    + destruct (Hl _ Hx) as [? ?]. split; [|done]. apply elem_of_app. by left.
Qed.

Lemma grows_NoDup known l ids l' :
  grows l ids l' → (∀ k, k ∈ l.*1 → k ∈ known) → NoDup (known ++ ids) → NoDup l.*1 → NoDup l'.*1.
Proof.
  intros H. revert known. induction H as [l l' H|l rid e ids l' He Hg Hr _ IH]; intros known Hk Hn Hl.
  - by eapply sublist_NoDup; [|apply evolves_keys].
  - assert (rid ∉ l.*1) as Hnew.
    { intros Hin%Hk. apply list.NoDup_app in Hn as (_ & Hn & _). apply (Hn rid Hin). left. }
    assert (emplace Z.ltb rid e l ≡ₚ (rid, e) :: l) as Hp by (by apply emplace_Permutation, look_None).
    apply (IH (known ++ [rid])).
    + intros k. rewrite Hp. cbn. intros [->|Hin]%elem_of_cons; apply elem_of_app; [right; by left|left; auto].
    + by rewrite <- app_assoc.
    + rewrite Hp. cbn. by apply NoDup_cons_2.
Qed.

Section Evolution.
Variable opts : ExecConnectOptions.

Lemma evolves_sendLocked rid x : evolves (pending x) (pending (sendLocked rid x)).
Proof.
  unfold sendLocked, pending. destruct (look rid _) as [e|] eqn:E; [|done].
  destruct (encode _) as [b|err]; cbn; [|apply evolves_erase].
  apply evolves_change. intros e' E'. rewrite E in E'. injection E' as ->. apply grown_set_gen.
Qed.

Lemma evolves_sendAll ids x : evolves (pending x) (pending (foldl (λ x rid, sendLocked rid x) x ids)).
Proof. revert x. induction ids as [|r ids IH]; intros x; cbn; [done|]. etrans; [apply evolves_sendLocked|apply IH]. Qed.

Lemma pending_ensureTimer x : pending (ensureTimerLocked x) = pending x.
Proof. unfold ensureTimerLocked. by destruct (_ || _). Qed.
Lemma pending_schedule now d x : pending (scheduleReconnectLocked now d x) = pending x.
Proof. unfold scheduleReconnectLocked. by rewrite pending_ensureTimer. Qed.

Lemma evolves_sweep why l : evolves l (sweep opts why l).1.
Proof.
  induction l as [|[k e] l IH]; [done|]. cbn [sweep]. destruct (sweep opts why l) as [kept run]. cbn [fst] in IH.
  destruct (pd_gen e =? 0); [by apply evolves_keep|]. destruct (pd_internal e); [by apply evolves_drop|].
  destruct (goesAgain opts e); [|by apply evolves_drop]. by apply evolves_keep; [apply grown_again|].
Qed.

Lemma evolves_lose now draw why im x : evolves (pending x) (pending (loseLocked opts now draw why im x).1).
Proof.
  unfold loseLocked. set (x1 := if im then _ else _). assert (pending x1 = pending x) as E1 by (by destruct im). clearbody x1.
  pose proof (evolves_sweep why (pending x1)) as H. rewrite E1 in *. destruct (sweep opts why (pending x)) as [kept run]. cbn [fst] in H.
  destruct (_ && _); [|destruct (eo_reconnect opts)]; cbn [failWaiters failAllLocked fst]; [done| |done].
  rewrite pending_schedule. done.
Qed.

Lemma evolves_attemptFailed now draw code why x : evolves (pending x) (pending (attemptFailedLocked opts now draw code why x).1).
Proof.
  unfold attemptFailedLocked. destruct (_ && _); cbn [failWaiters failAllLocked fst]; [|done].
  unfold pending at 2. cbn [set_retry requests]. fold (pending (scheduleReconnectLocked now (jittered draw (backoffMs_ (retry (set_lastFailure (Some (mkExecReply Unavailable why)) x)))) (set_lastFailure (Some (mkExecReply Unavailable why)) x))).
  by rewrite pending_schedule.
Qed.

Lemma pending_connect w x : pending (connect w x).1 = pending x.
Proof. unfold connect. destruct (isClosed x); [done|]. destruct (isOpen x); [done|]. destruct w, (alone _); done. Qed.

Lemma grows_request now frame done internal ms x :
  (internal = true → done = None) →
  let '(x', _, ids) := request opts now frame done internal ms x in grows (pending x) ids (pending x').
Proof.
  intros Hi. unfold request. destruct (isClosed x); [by constructor|]. unfold enqueue, nextRid. cbn [fst snd].
  set (x1 := set_pending _ _).
  assert (∀ x2, evolves (pending x1) (pending x2) → grows (pending x) [rid_ (requests x)] (pending x2)) as H.
  { intros x2 H2. eapply grows_new; [..|constructor; exact H2]; [exact Hi|done|done]. }
  clearbody x1. destruct (isOpen x1); [|destruct (alone x1)]; apply H; rewrite pending_ensureTimer; [apply evolves_sendLocked|done|done].
Qed.

Lemma request_ids now frame done internal ms x :
  isClosed x = false → (request opts now frame done internal ms x).2 = [rid_ (requests x)].
Proof. intros Hc. unfold request. rewrite Hc. unfold enqueue, nextRid. destruct (isOpen _); [|destruct (alone _)]; done. Qed.

Lemma grows_renew now x : grows (pending x) (renew opts now x).2 (pending (renew opts now x).1).
Proof.
  unfold renew. generalize (subs_ (topics x)). intros l.
  assert (∀ l x acc, ∃ new, (foldl (renewOne opts now) (x, acc) l).2 = acc ++ new ∧
    grows (pending x) new (pending (foldl (renewOne opts now) (x, acc) l).1)) as H.
  { clear. intros l. induction l as [|e l IH]; intros x acc; cbn [foldl]; [exists []; rewrite app_nil_r; by constructor; [|constructor]|].
    unfold renewOne at 2 4. unfold enqueue, nextRid. cbn [fst snd]. set (x1 := set_pending _ _).
    destruct (IH x1 (acc ++ [rid_ (requests x)])) as (new & E1 & H1). exists (rid_ (requests x) :: new).
    rewrite E1, <- app_assoc. split; [done|]. by eapply grows_new; [..|exact H1]. }
  destruct (H l x []) as (new & E & Hg). by rewrite E.
Qed.

Lemma grows_onOpen now gen x :
  match onOpen opts now gen x with None => True | Some (x', _, ids) => grows (pending x) ids (pending x') end.
Proof.
  unfold onOpen. destruct (_ || _); [done|]. set (x1 := set_retry _ _).
  assert (pending x1 = pending x) as E1 by done. clearbody x1.
  assert (pending (failWaiters Ok x1).1 = pending x1) as E2 by done. destruct (failWaiters Ok x1) as [x2 run]. cbn [fst] in E2.
  destruct (everOpened_ (link x)).
  - pose proof (grows_renew now x2) as H. rewrite E2, E1 in H. destruct (renew opts now x2) as [x3 ids]. cbn [fst snd] in H.
    eapply grows_then; [exact H|apply evolves_sendAll].
  - rewrite <- E1, <- E2. constructor. apply evolves_sendAll.
Qed.

Lemma evolves_onReply now draw gen rid r x :
  match onReply opts now draw gen rid r x with None => True | Some (x', _, _) => evolves (pending x) (pending x') end.
Proof.
  unfold onReply. destruct (look rid (pending x)) as [e|]; [|done]. cbn [mbind option_bind]. destruct (_ && _ && _ && _); [|apply evolves_erase].
  assert (evolves (pending x) (pending (set_pending (change rid again (pending x)) x))) as H1.
  { apply evolves_change. intros; apply grown_again. }
  set (x1 := set_pending _ x) in *. clearbody x1. destruct ((gen =? gen_ (link x1)) && _); [|destruct (isOpen x1)].
  - pose proof (evolves_lose now draw (mkExecReply Unavailable (chars "the connection moved to another host")) true x1) as H2.
    destruct (loseLocked _ _ _ _ _ x1). by etrans.
  - etrans; [done|apply evolves_sendLocked].
  - done.
Qed.

Lemma evolves_onFrame now draw gen f x :
  match onFrame opts now draw gen f x with None => True | Some (x', _, _) => evolves (pending x) (pending x') end.
Proof.
  unfold onFrame. destruct (isClosed x); [done|]. destruct (sf_kind f); [apply evolves_onReply| |apply evolves_onReply].
  destruct (look _ (subs_ _)); cbn; [apply evolves_refl|done].
Qed.

Lemma evolves_onLost now draw gen why x : evolves (pending x) (pending (onLost opts now draw gen why x).1).
Proof. unfold onLost. destruct (_ || _); [done|]. apply evolves_lose. Qed.

Lemma evolves_onAccessEndedClose gen reason x : evolves (pending x) (pending (onAccessEndedClose gen reason x).1).
Proof. unfold onAccessEndedClose. destruct (_ || _); done. Qed.

Lemma evolves_onEndpoint now draw created found refused x :
  evolves (pending x) (pending (onEndpoint opts now draw created found refused x).1.1).
Proof.
  unfold onEndpoint. destruct (isClosed x); [done|].
  destruct found as [e|code]; [destruct refused as [why|]; [|destruct created; [done|]]|];
    match goal with |- context [attemptFailedLocked _ _ _ ?c ?w ?y] =>
      pose proof (evolves_attemptFailed now draw c w y) as H; destruct (attemptFailedLocked _ _ _ c w y) end; exact H.
Qed.

Lemma evolves_timerTick now x : evolves (pending x) (pending (timerTick opts now x).1).
Proof. unfold timerTick. destruct (isClosed x); [done|]. destruct (_ && _); apply evolves_filter. Qed.

Lemma evolves_close x : evolves (pending x) (pending (close x).1.1).
Proof. unfold close. destruct (isClosed x); done. Qed.

Lemma pending_dropHandler h tell x : pending (dropHandler h tell x).1 = pending x.
Proof. unfold dropHandler. repeat (case_match; try done). Qed.
End Evolution.

(** ** Every callback is called once *)

Section Accounts.
Variable opts : ExecConnectOptions.
#[local] Hint Extern 0 (Worker Exec _ _ _) => exact (execWorker opts) : typeclass_instances.

Section One.
Variable p : Promise.

Lemma total_deliver run : total (inTask p) (deliver run) = total (inJob p) run.
Proof. unfold deliver. by rewrite total_fmap. Qed.
Lemma total_sent ws frames : total (inTask p) (sent ws frames) = 0%nat.
Proof. destruct ws; [|done]. apply total_zero. by intros t (b & -> & _)%list_elem_of_fmap. Qed.
Lemma total_closing ws : total (inTask p) (closing ws) = 0%nat.
Proof. by destruct ws. Qed.
Lemma answered_rids ids : total (answered p) (NRid <$> ids) = 0%nat.
Proof. apply total_zero. by intros t (b & -> & _)%list_elem_of_fmap. Qed.

Lemma total_runJob j : let '(ts, ns) := runJob j in (total (inTask p) ts + total (answered p) ns = inJob p j)%nat.
Proof.
  destruct j as [w st|[q|h q] r| | | |]; cbn [runJob]; rewrite ?total_app, ?total_cons, ?total_nil; cbn [answered];
    rewrite ?inJob_reply, ?inJob_connected; try (by destruct p); [lia..|].
  assert (total (inTask p) (if execReplyOk r then [] else [TDropHandler h false]) = 0%nat) as -> by (by destruct (execReplyOk r)).
  destruct q; rewrite ?total_cons, ?total_nil; destruct p; cbn; lia.
Qed.

Ltac tasks := rewrite ?total_app, ?total_cons, ?total_nil, ?total_deliver, ?total_sent, ?total_closing, ?answered_rids;
  cbn [inTask answered]; rewrite ?inDone_none.

Lemma onEvent_books known g gen ev x x' next ns :
  onEvent opts g gen ev x = Some (x', next, ns) → Forall (λ e, unattended e.2) (pending x) →
  (∀ k, k ∈ (pending x).*1 → k ∈ known) → NoDup (known ++ rids ns) →
  (held p x' + total (inTask p) next + total (answered p) ns = held p x)%nat.
Proof.
  intros E Hu Hk Hn. assert (∀ why, (let '(x, run) := onLost opts (gv_now g) (gv_draw g) gen why x in Some (x, deliver run, [])) = Some (x', next, ns) →
    (held p x' + total (inTask p) next + total (answered p) ns = held p x)%nat) as Hlost.
  { intros why E'. pose proof (held_onLost opts p (gv_now g) (gv_draw g) gen why x Hu) as H.
    destruct (onLost _ _ _ _ _ x) as [y run]. simplify_eq. tasks. lia. }
  destruct ev as [|[] payload|code reason|status body text]; cbn [onEvent] in E.
  - pose proof (held_onOpen opts p (gv_now g) gen x known Hk) as H. destruct (onOpen _ _ _ x) as [[[y run] ids]|]; simplify_eq; tasks; [|lia].
    rewrite rids_fmap in Hn. specialize (H Hn). lia.
  - apply bind_Some in E as (d & _ & E). destruct d as [f|]; [|simplify_eq; tasks; lia].
    pose proof (held_onFrame opts p (gv_now g) (gv_draw g) gen f x Hu) as H.
    destruct (onFrame _ _ _ _ f x) as [[[y run] from]|]; simplify_eq; tasks; lia.
  - simplify_eq. tasks. lia.
  - destruct (code =? kExecCloseAccessEnded); [|by eapply Hlost].
    pose proof (held_onAccessEndedClose p gen reason x) as H. destruct (onAccessEndedClose gen reason x) as [y run]. simplify_eq. tasks. lia.
  - by eapply Hlost.
Qed.

Lemma perform_books known g t x x' next ns :
  performTask opts g t x = Some (x', next, ns) → task_ok t → Forall (λ e, unattended e.2) (pending x) →
  (∀ k, k ∈ (pending x).*1 → k ∈ known) → NoDup (known ++ rids ns) →
  (held p x' + total (inTask p) next + total (answered p) ns = held p x + inTask p t)%nat.
Proof.
  intros E Ht Hu Hk Hn.
  destruct t as [w|f done internal ms|nt key topic q|h tell| | |id| | |found|e|found refused|gen|gen ev| |at_| | |ws b|ws|j|j|q r| |j|];
    cbn [performTask] in E.
  - pose proof (held_connect p w x) as H. destruct (connect w x) as [y run]. simplify_eq. tasks. cbn [inTask] in H. lia.
  - pose proof (held_request opts p (gv_now g) f done internal ms x) as H.
    destruct (request _ _ _ _ _ _ x) as [[y run] ids] eqn:Er. simplify_eq. tasks. cbn [inTask]. rewrite rids_fmap in Hn.
    rewrite <- H; [lia|]. intros Hc. apply look_None. intros Hin%Hk. pose proof (request_ids opts (gv_now g) f done internal ms x Hc) as Hi. rewrite Er in Hi. cbn [snd] in Hi.
    rewrite Hi in Hn. apply list.NoDup_app in Hn as (_ & Hn & _). apply (Hn _ Hin). by left.
  - pose proof (held_subscribe p nt key topic x) as H. destruct (subscribe nt key topic x) as [[y handle] first]. cbn [fst] in H. simplify_eq.
    tasks. destruct first, q; tasks; rewrite ?inJob_reply; destruct p; cbn; lia.
  - pose proof (held_dropHandler p h tell x) as H. destruct (dropHandler h tell x) as [y unsub]. cbn [fst] in H. simplify_eq.
    destruct unsub; tasks; lia.
  - simplify_eq. tasks. unfold onReconnect. by rewrite !Nat.add_0_r.
  - simplify_eq. tasks. by rewrite !Nat.add_0_r.
  - simplify_eq. tasks. by rewrite !Nat.add_0_r.
  - simplify_eq. tasks. by rewrite !Nat.add_0_r.
  - pose proof (held_close p x) as H. destruct (close x) as [[y ws] run]. simplify_eq. tasks. lia.
  - destruct found as [e|]; [destruct (pinned_ x)|]; simplify_eq; tasks; lia.
  - apply bind_Some in E as (refused & _ & E). simplify_eq. tasks. lia.
  - pose proof (held_onEndpoint opts p (gv_now g) (gv_draw g) (gv_created g) found refused x) as H.
    destruct (onEndpoint _ _ _ _ _ _ x) as [[y run] made]. simplify_eq. destruct made; tasks; lia.
  - simplify_eq. tasks. lia.
  - rewrite (onEvent_books known _ _ _ _ _ _ _ E Hu Hk Hn). cbn [inTask]. lia.
  - simplify_eq. destruct (isClosed x'); tasks; lia.
  - pose proof (held_timerTick opts p (gv_now g) x) as H. destruct (timerTick _ _ x) as [y run]. simplify_eq. destruct (isClosed x); tasks; lia.
  - simplify_eq. tasks. lia.
  - pose proof (held_flushOut p x) as H. destruct (flushOut x) as [[[y frames] run] ws]. simplify_eq. tasks. lia.
  - simplify_eq. tasks. lia.
  - simplify_eq. tasks. lia.
  - destruct (posted_ x) as [q|] eqn:Eq; simplify_eq; tasks; [|lia].
    pose proof (held_posted p _ (postJob j q) x Eq) as H. unfold postJob in *. destruct (qu_closed q); cbn [qu_jobs] in H; revert H; tasks; lia.
  - pose proof (total_runJob j) as H. destruct (runJob j) as [ts ns']. simplify_eq. cbn [inTask]. lia.
  - simplify_eq. tasks. destruct p; cbn; lia.
  - destruct (posted_ x) as [q|] eqn:Eq; [|simplify_eq; tasks; lia].
    unfold swapJobs in E. destruct (qu_closed q); simplify_eq; tasks; [pose proof (held_posted p _ q x Eq); cbn [fmap list_fmap]; tasks; lia|].
    pose proof (held_posted p _ (mkQueue [] false) x Eq) as H. cbn [qu_jobs] in H. rewrite total_nil in H.
    rewrite total_fmap. cbn [inTask]. change (total (λ x0 : Job, inJob p x0) (qu_jobs q)) with (total (inJob p) (qu_jobs q)). lia.
  - destruct (posted_ x) as [q|]; [destruct (qu_closed q)|]; simplify_eq; tasks; lia.
  - destruct (posted_ x) as [q|] eqn:Eq; simplify_eq; tasks; [|lia].
    pose proof (held_posted p _ (closeQueue q) x Eq) as H. cbn [closeQueue qu_jobs] in H. rewrite total_nil in H. rewrite total_fmap. cbn [answered].
    change (total (λ x0 : Job, inJob p x0) (qu_jobs q)) with (total (inJob p) (qu_jobs q)). lia.
Qed.
End One.

Lemma deliver_ok run : Forall task_ok (deliver run).
Proof. apply Forall_fmap, Forall_true. by intros j. Qed.
Lemma sent_ok ws frames : Forall task_ok (sent ws frames).
Proof. destruct ws; [|done]. apply Forall_fmap, Forall_true. by intros j. Qed.
Lemma closing_ok ws : Forall task_ok (closing ws).
Proof. destruct ws; [|done]. by apply Forall_cons_2. Qed.
#[local] Hint Resolve deliver_ok sent_ok closing_ok Forall_app_2 : core.

Lemma onEvent_grows g gen ev x x' next ns :
  onEvent opts g gen ev x = Some (x', next, ns) → grows (pending x) (rids ns) (pending x') ∧ Forall task_ok next.
Proof.
  intros E. assert (∀ why, (let '(x, run) := onLost opts (gv_now g) (gv_draw g) gen why x in Some (x, deliver run, [])) = Some (x', next, ns) →
    grows (pending x) (rids ns) (pending x') ∧ Forall task_ok next) as Hlost.
  { intros why E'. pose proof (evolves_onLost opts (gv_now g) (gv_draw g) gen why x) as H.
    destruct (onLost _ _ _ _ _ x) as [y run]. simplify_eq. split; [by constructor|auto]. }
  destruct ev as [|[] payload|code reason|status body text]; cbn [onEvent] in E.
  - pose proof (grows_onOpen opts (gv_now g) gen x) as H. destruct (onOpen _ _ _ x) as [[[y run] ids]|]; simplify_eq.
    + rewrite rids_fmap. split; [done|]. by apply Forall_cons_2.
    + split; [by constructor|done].
  - apply bind_Some in E as (d & _ & E). destruct d as [f|]; [|simplify_eq; split; [by constructor|done]].
    pose proof (evolves_onFrame opts (gv_now g) (gv_draw g) gen f x) as H.
    destruct (onFrame _ _ _ _ f x) as [[[y run] from]|]; simplify_eq; (split; [by constructor|]); [|done].
    apply Forall_app_2; [done|]. by apply Forall_cons_2.
  - simplify_eq. split; [by constructor|done].
  - destruct (code =? kExecCloseAccessEnded); [|by eapply Hlost].
    pose proof (evolves_onAccessEndedClose gen reason x) as H. destruct (onAccessEndedClose gen reason x) as [y run]. simplify_eq.
    split; [by constructor|done].
  - by eapply Hlost.
Qed.

Lemma perform_grows g t x x' next ns :
  performTask opts g t x = Some (x', next, ns) → task_ok t → grows (pending x) (rids ns) (pending x') ∧ Forall task_ok next.
Proof.
  intros E Ht.
  destruct t as [w|f done internal ms|nt key topic q|h tell| | |id| | |found|e|found refused|gen|gen ev| |at_| | |ws b|ws|j|j|q r| |j|];
    cbn [performTask] in E.
  - pose proof (pending_connect w x) as H. destruct (connect w x) as [y run]. cbn [fst] in H. simplify_eq. rewrite H. split; [by constructor|done].
  - pose proof (grows_request opts (gv_now g) f done internal ms x) as H. destruct (request _ _ _ _ _ _ x) as [[y run] ids]. simplify_eq.
    rewrite rids_fmap. split; [apply H; by intros ->|]. apply Forall_app_2; [done|]. by apply Forall_cons_2.
  - cbn in E. simplify_eq. split; [by constructor|]. case_bool_decide; [by apply Forall_cons_2|]. destruct q; [by apply Forall_cons_2|done].
  - pose proof (pending_dropHandler h tell x) as H. destruct (dropHandler h tell x) as [y unsub]. cbn [fst] in H. simplify_eq. rewrite H.
    split; [by constructor|]. destruct unsub; [by apply Forall_cons_2|done].
  - simplify_eq. split; [by constructor|done].
  - simplify_eq. split; [by constructor|done].
  - simplify_eq. split; [by constructor|done].
  - simplify_eq. split; [by constructor|done].
  - pose proof (evolves_close x) as H. destruct (close x) as [[y ws] run]. simplify_eq. split; [by constructor|auto].
  - simplify_eq. split; [by constructor|]. destruct found; [destruct (pinned_ x')|]; by apply Forall_cons_2.
  - apply bind_Some in E as (refused & _ & E). simplify_eq. split; [by constructor|]. by apply Forall_cons_2.
  - pose proof (evolves_onEndpoint opts (gv_now g) (gv_draw g) (gv_created g) found refused x) as H.
    destruct (onEndpoint _ _ _ _ _ _ x) as [[y run] made]. simplify_eq. split; [by destruct made; constructor|].
    apply Forall_app_2; [done|]. destruct made; [by apply Forall_cons_2|done].
  - simplify_eq. split; [by constructor|done].
  - by eapply onEvent_grows.
  - simplify_eq. split; [by constructor|]. destruct (isClosed x'); [done|by apply Forall_cons_2].
  - pose proof (evolves_timerTick opts (gv_now g) x) as H. destruct (timerTick _ _ x) as [y run]. simplify_eq. split; [by constructor|].
    apply Forall_app_2; [done|]. destruct (isClosed x); [done|by apply Forall_cons_2].
  - simplify_eq. split; [by constructor|done].
  - cbn in E. simplify_eq. split; [by constructor|auto].
  - simplify_eq. split; [by constructor|done].
  - simplify_eq. split; [by constructor|done].
  - destruct (posted_ x) as [q|]; simplify_eq; [|split; [by constructor|by apply Forall_cons_2]].
    split; [|done]. by destruct (qu_closed q); constructor.
  - destruct j as [w st|[q|h q] r| | | |]; cbn in E; simplify_eq; (split; [by constructor|]); try done.
    apply Forall_app_2; [by destruct (execReplyOk r); [|apply Forall_cons_2]|]. by destruct q; [apply Forall_cons_2|].
  - simplify_eq. split; [by constructor|done].
  - destruct (posted_ x) as [q|]; [|simplify_eq; split; [by constructor|done]]. destruct (swapJobs q) as [js q']. simplify_eq.
    split; [by constructor|]. apply Forall_fmap, Forall_true. by intros j.
  - destruct (posted_ x) as [q|]; [destruct (qu_closed q)|]; simplify_eq; (split; [by constructor|]); try done; by apply Forall_cons_2.
  - destruct (posted_ x) as [q|]; simplify_eq; (split; [|done]); [|by constructor].
    rewrite rids_none; [by constructor|]. apply Forall_fmap, Forall_true. by intros j.
Qed.

Lemma keys_known (P : Z * Pending → Prop) (known : list Z) l k : Forall (λ e, e.1 ∈ known ∧ P e) l → k ∈ l.*1 → k ∈ known.
Proof. rewrite list.Forall_forall. intros Hl ([k' e] & -> & Hx)%list_elem_of_fmap. by apply (Hl _ Hx). Qed.

(** The state's requests and the tasks' are in order. *)
Definition requests_kept (st : Exec) (ts : list Task) (log : list Notice) : Prop :=
  requests_ok log (pending st) ∧ Forall task_ok ts ∧ (NoDup (rids log) → NoDup (pending st).*1).

Lemma enters_quiet t st log ns : entersTask t st log = Some ns → rids ns = [] ∧ task_ok t.
Proof. destruct t; cbn; intros E; repeat case_match; simplify_eq; done. Qed.

Lemma requests_kept_kept good : kept (G := Given) good requests_kept.
Proof.
  constructor.
  - intros st ts ts' log Hp (Hr & Ht & Hn). split_and!; [done|by rewrite <- Hp|done].
  - intros t st ts log ns (Hr & Ht & Hn) E. destruct (enters_quiet _ _ _ _ E) as [E1 E2]. unfold requests_kept, requests_ok.
    rewrite rids_app, E1, app_nil_r. split_and!; [done|by apply Forall_cons_2|done].
  - intros g t st ts log st' next ns (Hr & [Ht Hts]%Forall_cons_1 & Hn) _ E. destruct (perform_grows _ _ _ _ _ _ E Ht) as [Hg Hnext].
    unfold requests_kept, requests_ok. rewrite rids_app. split_and!.
    + by eapply grows_ok.
    + auto.
    + intros Hd. eapply grows_NoDup; [exact Hg|intros k; by apply keys_known with (P := λ e, unattended e.2)|done|].
      apply Hn. by apply list.NoDup_app in Hd as (? & _).
Qed.

(** What was asked is with the connection, with a thread, or answered. *)
Definition accounted (p : Promise) (st : Exec) (ts : list Task) (log : list Notice) : Prop :=
  requests_kept st ts log ∧
  (NoDup (rids log) → total (asked p) log = held p st + total (inTask p) ts + total (answered p) log)%nat.

Lemma enters_books p t st log ns :
  entersTask t st log = Some ns → total (asked p) ns = inTask p t ∧ total (answered p) ns = 0%nat.
Proof.
  destruct t; cbn; intros E; repeat case_match; simplify_eq; rewrite ?total_cons, ?total_nil; cbn [asked answered fmap option_fmap option_map];
    rewrite ?inDone_none; split; lia.
Qed.

Lemma perform_asks_nothing p g t x x' next ns : performTask opts g t x = Some (x', next, ns) → total (asked p) ns = 0%nat.
Proof.
  intros E. apply total_zero. intros n Hn.
  destruct t; cbn [performTask] in E; unfold onEvent in E;
    try match goal with j : Job |- _ => destruct j as [? ?|[?|? ?] ?| | | |]; cbn [runJob] in E end;
    repeat match type of E with
    | context [let '(_, _) := ?c in _] => destruct c
    | (match ?c with _ => _ end) = _ => destruct c
    | (_ ≫= _) = Some _ => apply bind_Some in E as (? & _ & E)
    end; simplify_eq;
    repeat match type of Hn with context [match ?c with _ => _ end] => destruct c end;
    first [by apply not_elem_of_nil in Hn | by apply list_elem_of_singleton in Hn as -> | by apply list_elem_of_fmap in Hn as (? & -> & _)].
Qed.

Lemma accounted_kept good p : kept (G := Given) good (accounted p).
Proof.
  destruct (requests_kept_kept good) as [Ko Ke Kp]. constructor.
  - intros st ts ts' log Hp (Hr & Ha). split; [by eapply Ko|]. intros Hn. by rewrite <- Hp, Ha.
  - intros t st ts log ns (Hr & Ha) E. split; [by eapply Ke|]. destruct (enters_quiet _ _ _ _ E) as [E1 _].
    destruct (enters_books p _ _ _ _ E) as [E2 E3]. rewrite rids_app, E1, app_nil_r, !total_app, total_cons, E2, E3. intros Hn. rewrite Ha by done. lia.
  - intros g t st ts log st' next ns (Hr & Ha) Hg E. split; [by eapply Kp|]. rewrite rids_app. intros Hn.
    destruct Hr as (Hr & [Ht _]%Forall_cons_1 & _). rewrite !total_app, (perform_asks_nothing _ _ _ _ _ _ _ E).
    rewrite Ha by by apply list.NoDup_app in Hn as (? & _).
    rewrite total_cons. rewrite Nat.add_0_r.
    assert (held p st' + total (inTask p) next + total (answered p) ns = held p st + inTask p t)%nat as H; [|lia].
    eapply (perform_books p (rids log)); [exact E|done| | |done].
    + eapply List.Forall_impl; [|exact Hr]. by intros e [_ ?].
    + intros k. by apply keys_known with (P := λ e, unattended e.2).
Qed.

(** C20. Every callback handed to the connection is, exactly once, still with a request, a waiter, a
    queue or a thread, or called, or given up by a closed dispatcher: with any threads, gateway and
    dialer nothing is called twice and nothing is lost, as long as no two requests were given the
    same 32-bit id. *)
Theorem exec_answers_once good dispatcher (s : Work Exec Task Notice) p :
  reaches good (newExec opts dispatcher) s → NoDup (rids (wk_log s)) →
  (total (asked p) (wk_log s) = held p (wk_state s) + total (inTask p) (left_to_do s) + total (answered p) (wk_log s))%nat.
Proof.
  intros Hr Hn. apply (tasks_invariant good (accounted p) _ _ (accounted_kept good p)) in Hr as [_ H]; [by apply H|].
  unfold accounted, requests_kept. by destruct p, dispatcher; cbn; split_and!; repeat constructor.
Qed.
End Accounts.
