(* ===== verification/ExecLive.v ===== *)
(** * The Exec connection makes progress

    One attempt to connect at a time, always one while something waits for it; deadlines; how often
    a request is written; where connect tokens go. *)

From S2P Require Import Prelude Bytes Core Json Endpoint Tasks ExecWire ExecConn ExecSpec.

Open Scope Z_scope.

#[local] Arguments chars : simpl never.

Section Live.
Variable opts : ExecConnectOptions.
#[local] Hint Extern 0 (Worker Exec _ _ _) => exact (execWorker opts) : typeclass_instances.

(** ** The state between two tasks *)

Definition connecting (x : Exec) : bool := bool_decide (is_Some (ws_ (link x))) && negb (open_ (link x)).

(** Somebody waits for the connection; somebody will time out. *)
Definition waits (x : Exec) : Prop := pending x ≠ [] ∨ (waiters_ x ≠ [] ∧ eo_reconnect opts = true).
Definition attended (x : Exec) : Prop := Exists (λ e, pd_internal e.2 = false) (pending x).

Record state_ok (x : Exec) : Prop := {
  so_gen : 0 ≤ gen_ (link x);
  so_ws : ∀ g, ws_ (link x) = Some g → g = gen_ (link x) ∧ 1 ≤ g;
  so_open : open_ (link x) = true → ∃ g, ws_ (link x) = Some g ∧ dialing_ (link x) = false;
  so_closed : isClosed x = true → pending x = [] ∧ waiters_ x = [] ∧ ws_ (link x) = None;
  so_waits : isClosed x = false → waits x → dialing_ (link x) = true ∨ is_Some (ws_ (link x)) ∨ reconnectDue_ (retry x) = true;
  so_due : isClosed x = false → reconnectDue_ (retry x) = true → timerStarted_ (retry x) = true;
  so_timer : isClosed x = false → attended x → timerStarted_ (retry x) = true }.

(** The members the link conditions see. *)
Lemma sendLocked_rest rid x :
  link (sendLocked rid x) = link x ∧ retry (sendLocked rid x) = retry x ∧ waiters_ (sendLocked rid x) = waiters_ x.
Proof. unfold sendLocked. destruct (look _ _) as [e|]; [|done]. by destruct (encode _). Qed.

Lemma sendAll_rest ids x :
  let y := foldl (λ x rid, sendLocked rid x) x ids in link y = link x ∧ retry y = retry x ∧ waiters_ y = waiters_ x.
Proof.
  revert x. induction ids as [|r ids IH]; intros x; [done|]. cbn. destruct (sendLocked_rest r x) as (<- & <- & <-). apply IH.
Qed.

Lemma evolves_attended l l' :
  evolves l l' → Exists (λ e, pd_internal e.2 = false) l' → Exists (λ e, pd_internal e.2 = false) l.
Proof.
  intros H. induction H as [|e l l' _ IH|k e e' l l' [] _ IH]; [done|intros ?; by apply Exists_cons_tl; auto|].
  intros [E|E]%Exists_cons; [by apply Exists_cons_hd; cbn in *; congruence|by apply Exists_cons_tl; auto].
Qed.

Lemma evolves_nonempty l l' : evolves l l' → l' ≠ [] → l ≠ [].
Proof. intros H Hn ->. inversion H. by subst. Qed.

(** Changes that only shorten or grow what waits. *)
Lemma state_ok_evolves x y :
  state_ok x → link y = link x → retry y = retry x → waiters_ y = waiters_ x → evolves (pending x) (pending y) → state_ok y.
Proof.
  intros [] El Er Ew He. unfold isClosed, waits, attended in *. constructor; unfold isClosed, waits, attended; rewrite ?El, ?Er, ?Ew; try done.
  - intros Hc. destruct (so_closed0 Hc) as (E1 & E2 & E3). rewrite E1 in He. split_and!; [|done..]. by inversion He.
  - intros Hc Hw. apply so_waits0; [done|]. destruct Hw as [Hw|Hw]; [left; by eapply evolves_nonempty|by right].
  - intros Hc Hw. apply so_timer0; [done|]. by eapply evolves_attended.
Qed.

Lemma state_ok_sendLocked rid x : state_ok x → state_ok (sendLocked rid x).
Proof. intros H. destruct (sendLocked_rest rid x) as (? & ? & ?). eapply state_ok_evolves; [done..|]. apply evolves_sendLocked. Qed.
Lemma state_ok_sendAll ids x : state_ok x → state_ok (foldl (λ x rid, sendLocked rid x) x ids).
Proof. intros H. destruct (sendAll_rest ids x) as (? & ? & ?). eapply state_ok_evolves; [done..|]. apply evolves_sendAll. Qed.

(** The link after a loss, and after a failed attempt. *)
Lemma lose_link now draw why im x :
  link (loseLocked opts now draw why im x).1 =
    mkLink (closed_ (link x)) false None (gen_ (link x) + 1) false (everOpened_ (link x)).
Proof.
  unfold loseLocked. set (x1 := if im then _ else _).
  assert (link x1 = mkLink (closed_ (link x)) false None (gen_ (link x) + 1) false (everOpened_ (link x))) as E by (by destruct im). clearbody x1.
  destruct (sweep _ _ _) as [kept run]. destruct (_ && _); [|destruct (eo_reconnect opts)]; cbn [failWaiters failAllLocked fst]; [done| |done].
  unfold scheduleReconnectLocked, ensureTimerLocked. by destruct (_ || _).
Qed.

Lemma schedule_rest now d x :
  let y := scheduleReconnectLocked now d x in
  link y = link x ∧ waiters_ y = waiters_ x ∧ reconnectDue_ (retry y) = true ∧
  (isClosed x = false → timerStarted_ (retry y) = true).
Proof.
  unfold scheduleReconnectLocked, ensureTimerLocked, isClosed. cbn. destruct (timerStarted_ (retry x)) eqn:E; cbn; [done|].
  by destruct (closed_ (link x)) eqn:E'; cbn.
Qed.

Lemma state_ok_lose now draw why im x :
  state_ok x → isClosed x = false → state_ok (loseLocked opts now draw why im x).1.
Proof.
  intros [] Hc. pose proof (lose_link now draw why im x) as El. revert El. unfold loseLocked.
  set (x1 := if im then _ else _).
  assert (link x1 = mkLink (closed_ (link x)) false None (gen_ (link x) + 1) false (everOpened_ (link x)) ∧
          retry x1 = retry x ∧ pending x1 = pending x) as (E1 & E2 & E3) by (by destruct im). clearbody x1.
  destruct (sweep opts why (pending x1)) as [kept run].
  assert (isClosed x1 = false) as Hc1 by (unfold isClosed in *; by rewrite E1).
  destruct (_ && _); [|destruct (eo_reconnect opts) eqn:Er]; cbn [failWaiters failAllLocked fst]; intros El.
  - constructor; unfold isClosed, waits, attended; rewrite El; cbn; try done; try lia.
    + intros _ [|[]]; done.
    + rewrite E2. intros _. apply so_due0. done.
    + intros _ H. by apply Exists_nil in H.
  - match goal with |- context [scheduleReconnectLocked now ?d ?y] => destruct (schedule_rest now d y) as (F1 & F2 & F3 & F4) end.
    constructor; unfold isClosed; rewrite El; cbn; try done; try lia; auto.
    intros Hcl. unfold isClosed in Hc. by rewrite Hc in Hcl.
  - constructor; unfold isClosed, waits, attended; rewrite El; cbn; try done; try lia.
    + unfold isClosed in Hc. by rewrite Hc.
    + intros _ [|[_ H]]; [done|]. by rewrite Er in H.
    + rewrite E2. intros _. apply so_due0. done.
    + intros _ H. by apply Exists_nil in H.
Qed.

Lemma attempt_link now draw code why x : link (attemptFailedLocked opts now draw code why x).1 = link x.
Proof.
  unfold attemptFailedLocked. destruct (_ && _); [|done]. cbn [fst].
  match goal with |- context [scheduleReconnectLocked now ?d ?y] => by destruct (schedule_rest now d y) as (F1 & _) end.
Qed.

(** [y] is [x] with an attempt that is over. *)
Lemma state_ok_attemptFailed now draw code why x :
  state_ok x → isClosed x = false → open_ (link x) = false → ws_ (link x) = None →
  state_ok (attemptFailedLocked opts now draw code why
    (set_link (mkLink (closed_ (link x)) false (ws_ (link x)) (gen_ (link x)) (open_ (link x)) (everOpened_ (link x))) x)).1.
Proof.
  intros [] Hc Ho Hw. set (y := set_link _ x). pose proof (attempt_link now draw code why y) as El. revert El.
  assert (link y = mkLink false false None (gen_ (link x)) false (everOpened_ (link x))) as Ey.
  { unfold isClosed in Hc. subst y. cbn. by rewrite Hc, Ho, Hw. }
  assert (retry y = retry x ∧ pending y = pending x ∧ waiters_ y = waiters_ x) as (E1 & E2 & E3) by done. clearbody y.
  unfold attemptFailedLocked. destruct (_ && _); cbn [failWaiters failAllLocked fst]; intros El.
  - match goal with |- context [scheduleReconnectLocked now ?d ?z] => destruct (schedule_rest now d z) as (F1 & F2 & F3 & F4);
      set (w := scheduleReconnectLocked now d z) in * end.
    assert (isClosed (set_lastFailure (Some (mkExecReply Unavailable why)) y) = false) as Hcy.
    { unfold isClosed. cbn. by rewrite Ey. }
    specialize (F4 Hcy). clearbody w. rewrite Ey in El. cbn in El.
    constructor; unfold isClosed; cbn [set_retry link retry reconnectDue_ timerStarted_]; rewrite ?El; cbn; try done; try lia; auto.
  - rewrite Ey in El. constructor; unfold isClosed, waits, attended; rewrite El; cbn; try done; try lia.
    + intros _ [|[]]; done.
    + rewrite E1. intros _. by apply so_due0.
    + intros _ H. by apply Exists_nil in H.
Qed.

(** What waits is served: an attempt or a connection, and a timer. *)
Lemma state_ok_served x y :
  state_ok x → timerStarted_ (retry y) = timerStarted_ (retry x) → (reconnectDue_ (retry y) = true → reconnectDue_ (retry x) = true) →
  (attended y → attended x) → isClosed x = false → closed_ (link y) = false →
  0 ≤ gen_ (link y) → (∀ g, ws_ (link y) = Some g → g = gen_ (link y) ∧ 1 ≤ g) →
  (open_ (link y) = true → is_Some (ws_ (link y)) ∧ dialing_ (link y) = false) →
  dialing_ (link y) = true ∨ is_Some (ws_ (link y)) → state_ok y.
Proof.
  intros [] Et Ed Ha Hc Hcy Hg Hw Ho Hd. constructor; unfold isClosed; rewrite ?Hcy; try done.
  - intros [[g E] ?]%Ho. eauto.
  - intros _ _. destruct Hd; auto.
  - rewrite Et. auto.
  - rewrite Et. auto.
Qed.

Lemma alone_false x : alone x = false → dialing_ (link x) = true ∨ is_Some (ws_ (link x)).
Proof.
  unfold alone. destruct (dialing_ (link x)); [by left|]. cbn. intros H%bool_decide_eq_false. right. by apply not_eq_None_Some.
Qed.
Lemma isOpen_true x : isOpen x = true → is_Some (ws_ (link x)) ∧ open_ (link x) = true.
Proof. by intros [H%bool_decide_eq_true ?]%andb_prop. Qed.

Lemma state_ok_open x : state_ok x → open_ (link x) = true → is_Some (ws_ (link x)) ∧ dialing_ (link x) = false.
Proof. intros [] (g & E & ?)%so_open0. rewrite E. split; [eauto|done]. Qed.

Lemma alone_shut x : state_ok x → alone x = true → open_ (link x) = false.
Proof.
  intros H. unfold alone. intros [_ E%bool_decide_eq_true]%andb_prop. destruct (open_ (link x)) eqn:Eo; [|done].
  apply state_ok_open in Eo as [[g E'] _]; [|done]. congruence.
Qed.

Lemma state_ok_beginDial x y :
  state_ok x → timerStarted_ (retry y) = timerStarted_ (retry x) → (reconnectDue_ (retry y) = true → reconnectDue_ (retry x) = true) →
  (attended y → attended x) → isClosed x = false → link y = link x → alone x = true → state_ok (beginDialLocked y).1.
Proof.
  intros H Et Ed Ha Hc El Hal. pose proof H as []. apply (state_ok_served x); cbn; rewrite ?El; auto.
  intros Ho. pose proof (alone_shut _ H Hal). congruence.
Qed.

Lemma state_ok_same x y :
  state_ok x → retry y = retry x → (attended y → attended x) → isClosed x = false → link y = link x →
  dialing_ (link y) = true ∨ is_Some (ws_ (link y)) → state_ok y.
Proof.
  intros H Er Ha Hc El Hd. pose proof H as []. apply (state_ok_served x); rewrite ?Er, ?El; try done.
  - by apply state_ok_open.
  - by rewrite <- El.
Qed.

Lemma state_ok_connect w x : state_ok x → state_ok (connect w x).1.
Proof.
  intros H. unfold connect. destruct (isClosed x) eqn:Hc; [done|]. destruct (isOpen x); [done|].
  set (x1 := match w with Some w => _ | None => _ end).
  assert (link x1 = link x ∧ retry x1 = retry x ∧ pending x1 = pending x) as (El & Er & Ep) by (by destruct w). clearbody x1.
  destruct (alone x1) eqn:Ea.
  - eapply state_ok_beginDial; [exact H|by rewrite Er|by rewrite Er|unfold attended; by rewrite Ep|done|done|].
    unfold alone in *. by rewrite El in Ea.
  - cbn [fst]. apply (state_ok_same x); try done; [unfold attended; by rewrite Ep|]. by apply alone_false.
Qed.

Lemma ensureTimer_rest x :
  link (ensureTimerLocked x) = link x ∧ (isClosed x = false → timerStarted_ (retry (ensureTimerLocked x)) = true).
Proof.
  unfold ensureTimerLocked. destruct (timerStarted_ (retry x)) eqn:E; cbn; [done|]. by destruct (isClosed x) eqn:E'; cbn.
Qed.

Lemma state_ok_request now frame done internal ms x : state_ok x → state_ok (request opts now frame done internal ms x).1.1.
Proof.
  intros H. unfold request. destruct (isClosed x) eqn:Hc; [done|].
  destruct (enqueue _ _ _ _ _ _ x) as [rid x1] eqn:E.
  assert (link x1 = link x) as El by (unfold enqueue, nextRid in E; by simplify_eq). clear E.
  set (yr := if isOpen x1 then _ else _).
  assert (closed_ (link yr.1) = false ∧ gen_ (link yr.1) = gen_ (link x) ∧ ws_ (link yr.1) = ws_ (link x) ∧
    (open_ (link yr.1) = true → is_Some (ws_ (link yr.1)) ∧ dialing_ (link yr.1) = false) ∧
    (dialing_ (link yr.1) = true ∨ is_Some (ws_ (link yr.1)))) as (H1 & H2 & H3 & H4 & H5).
  { subst yr. unfold isClosed in Hc. destruct (isOpen x1) eqn:Eo; [|destruct (alone x1) eqn:Ea].
    - cbn [fst]. destruct (sendLocked_rest rid x1) as (-> & _ & _). rewrite El. split_and!; [done..|by apply state_ok_open|].
      right. rewrite <- El. by apply isOpen_true.
    - cbn. rewrite El. split_and!; [done..| |by left]. intros Ho.
      pose proof (alone_shut x H) as Hs. unfold alone in *. rewrite El in Ea. specialize (Hs Ea). congruence.
    - cbn [fst]. rewrite El. split_and!; [done..|by apply state_ok_open|]. rewrite <- El. by apply alone_false. }
  destruct yr as [y run]. cbn [fst] in *. destruct (ensureTimer_rest y) as [E1 E2].
  pose proof H as []. constructor; unfold isClosed; rewrite ?E1, ?H1; try done.
  - by rewrite H2.
  - rewrite H2, H3. done.
  - intros [[g Eg] ?]%H4. eauto.
  - intros _ _. destruct H5; auto.
  - auto.
  - auto.
Qed.

(** What a closed connection holds. *)
Lemma state_ok_closed x :
  0 ≤ gen_ (link x) → ws_ (link x) = None → open_ (link x) = false → isClosed x = true → pending x = [] → waiters_ x = [] → state_ok x.
Proof. intros Hg Hw Ho Hc Hp Hwt. constructor; rewrite ?Hw, ?Ho, ?Hc; done. Qed.

Lemma state_ok_close x : state_ok x → state_ok (close x).1.1.
Proof. intros H. unfold close. destruct (isClosed x); [done|]. by apply state_ok_closed; [exact (so_gen _ H)|..]. Qed.

Lemma state_ok_accessEnded gen reason x : state_ok x → state_ok (onAccessEndedClose gen reason x).1.
Proof. intros H. unfold onAccessEndedClose. destruct (_ || _); [done|]. by apply state_ok_closed; [exact (so_gen _ H)|..]. Qed.

Lemma state_ok_onLost now draw gen why x : state_ok x → state_ok (onLost opts now draw gen why x).1.
Proof.
  intros H. unfold onLost. destruct (isClosed x) eqn:Hc; [by rewrite orb_true_r|]. destruct (negb _); [done|]. by apply state_ok_lose.
Qed.

Lemma state_ok_onEndpoint now draw created found refused x :
  state_ok x → (isClosed x = false → open_ (link x) = false ∧ ws_ (link x) = None) →
  state_ok (onEndpoint opts now draw created found refused x).1.1.
Proof.
  intros H Ho. unfold onEndpoint. destruct (isClosed x) eqn:Hc; [done|]. destruct (Ho eq_refl) as [Ho' Hw]. clear Ho.
  assert (∀ e, state_ok (set_endpoint e x)) as He by (intros e; by destruct H).
  destruct found as [e|code]; [destruct refused as [why|]; [|destruct created]|].
  - pose proof (state_ok_attemptFailed now draw NotConnected why x H Hc Ho' Hw) as Ha. by destruct (attemptFailedLocked _ _ _ _ _ _).
  - pose proof (so_gen _ H). cbn [fst]. apply (state_ok_served x); cbn; try done; [lia| |by right].
    intros g [= <-]. lia.
  - pose proof (state_ok_attemptFailed now draw NotConnected (chars "no WebSocket transport") (set_endpoint e x) (He e) Hc Ho' Hw) as Ha.
    by destruct (attemptFailedLocked _ _ _ _ _ _).
  - pose proof (state_ok_attemptFailed now draw code (chars "no host for this app") x H Hc Ho' Hw) as Ha.
    by destruct (attemptFailedLocked _ _ _ _ _ _).
Qed.

Lemma attended_emplace rid e x y :
  pd_internal e = true → pending y = emplace Z.ltb rid e (pending x) → attended y → attended x.
Proof.
  intros He E. unfold attended. rewrite E, !list.Exists_exists. intros ([k e'] & [[= -> ->]|Hin]%emplace_keys & H); [cbn in H; congruence|eauto].
Qed.

Lemma renew_rest now x :
  let y := (renew opts now x).1 in link y = link x ∧ retry y = retry x ∧ waiters_ y = waiters_ x ∧ (attended y → attended x).
Proof.
  unfold renew. generalize (subs_ (topics x)). intros l. generalize (@nil Z) as acc. revert x.
  induction l as [|e l IH]; intros x acc; cbn [foldl]; [done|].
  destruct (renewOne opts now (x, acc) e) as [x1 acc1] eqn:E. destruct (IH x1 acc1) as (-> & -> & -> & Ha).
  unfold renewOne, enqueue, nextRid in E. cbn [fst snd] in E. simplify_eq. split_and!; [done..|]. intros H%Ha. revert H.
  eapply (attended_emplace (rid_ (requests x)) (mkPending _ _ _ _ _ true _)); done.
Qed.

Lemma state_ok_onOpen now gen x :
  state_ok x → (isClosed x = false → gen = gen_ (link x) → ws_ (link x) = Some gen) →
  match onOpen opts now gen x with None => True | Some (y, _, _) => state_ok y end.
Proof.
  intros H Hw. unfold onOpen. destruct (negb (gen =? gen_ (link x)) || closed_ (link x)) eqn:Eg; [done|].
  apply orb_false_elim in Eg as [->%negb_false_iff%Z.eqb_eq Hc]. specialize (Hw Hc eq_refl).
  set (x1 := set_retry _ _).
  assert (state_ok x1) as H1.
  { subst x1. pose proof H as []. apply (state_ok_served x); cbn; rewrite ?Hw; auto; try done. intros g [= <-]. auto. }
  assert (isClosed x1 = false ∧ ws_ (link x1) = Some (gen_ (link x))) as [Hc1 Hw1] by done. clearbody x1.
  assert (state_ok (failWaiters Ok x1).1) as H2.
  { apply (state_ok_same x1); try done. right. cbn. by rewrite Hw1. }
  assert (link (failWaiters Ok x1).1 = link x1 ∧ pending (failWaiters Ok x1).1 = pending x1) as [El Ep] by done.
  destruct (failWaiters Ok x1) as [x2 run]. cbn [fst] in *. destruct (everOpened_ (link x)); [|by apply state_ok_sendAll].
  destruct (renew_rest now x2) as (E1 & E2 & _ & E4). destruct (renew opts now x2) as [x3 ids]. cbn [fst] in *.
  apply state_ok_sendAll. apply (state_ok_same x2); try done; [unfold isClosed in *; by rewrite El|right; by rewrite E1, El, Hw1].
Qed.

Lemma state_ok_evolves_pending l x : state_ok x → evolves (pending x) l → state_ok (set_pending l x).
Proof. intros H He. by apply (state_ok_evolves x). Qed.

Lemma state_ok_onReply now draw gen rid r x :
  state_ok x → isClosed x = false →
  match onReply opts now draw gen rid r x with None => True | Some (y, _, _) => state_ok y end.
Proof.
  intros H Hc. unfold onReply. destruct (look rid (pending x)) as [p|]; cbn [mbind option_bind]; [|done].
  destruct (_ && _ && _ && _); [|by apply state_ok_evolves_pending; [|apply evolves_erase]].
  set (x1 := set_pending _ x).
  assert (state_ok x1) as H1 by (apply state_ok_evolves_pending; [done|]; apply evolves_change; intros; apply grown_again).
  assert (isClosed x1 = false) as Hc1 by done. clearbody x1.
  destruct (_ && _); [|destruct (isOpen x1); [by apply state_ok_sendLocked|done]].
  match goal with |- context [loseLocked opts now draw ?why true x1] => pose proof (state_ok_lose now draw why true x1 H1 Hc1) as H2 end.
  by destruct (loseLocked _ _ _ _ _ x1).
Qed.

Lemma state_ok_onFrame now draw gen f x :
  state_ok x → match onFrame opts now draw gen f x with None => True | Some (y, _, _) => state_ok y end.
Proof.
  intros H. unfold onFrame. destruct (isClosed x) eqn:Hc; [done|]. destruct (sf_kind f); try by apply state_ok_onReply.
  by destruct (look _ _).
Qed.

Lemma state_ok_timerTick now x : state_ok x → state_ok (timerTick opts now x).1.
Proof.
  intros H. unfold timerTick. destruct (isClosed x) eqn:Hc; [done|]. set (x1 := set_pending _ x).
  assert (state_ok x1) as H1 by (apply state_ok_evolves_pending; [done|apply evolves_filter]).
  assert (isClosed x1 = false) as Hc1 by done. clearbody x1.
  destruct (_ && alone x1) eqn:E; [|done]. apply andb_prop in E as [_ Ea].
  match goal with |- context [beginDialLocked ?y] => pose proof (state_ok_beginDial x1 y H1) as H2; destruct (beginDialLocked y) end.
  by apply H2.
Qed.

(** ** How the link moves *)

(** A generation is never used again, and belongs to one socket. *)
Record moves (x y : Exec) : Prop := {
  mv_closed : isClosed x = true → isClosed y = true;
  mv_gen : gen_ (link x) ≤ gen_ (link y);
  mv_ws : isClosed y = false → gen_ (link y) = gen_ (link x) → ws_ (link y) = ws_ (link x) }.

#[global] Instance moves_preorder : PreOrder moves.
Proof.
  split; [by constructor|]. intros x y z [C1 G1 W1] [C2 G2 W2]. constructor; [auto|lia|]. intros Hc Hg. rewrite W2 by (done || lia).
  apply W1; [|lia]. destruct (isClosed y) eqn:E; [|done]. by rewrite C2 in Hc.
Qed.
Lemma moves_link x y : link y = link x → moves x y.
Proof. intros E. constructor; unfold isClosed; by rewrite E. Qed.

(** A socket's generation. *)
Definition gen_of (x : Exec) (g : Z) : Prop :=
  1 ≤ g ≤ gen_ (link x) ∧ (isClosed x = false → g = gen_ (link x) → ws_ (link x) = Some g).
Lemma gen_of_moves x y g : moves x y → gen_of x g → gen_of y g.
Proof.
  intros [C G W] [Hg Hw]. split; [lia|]. intros Hc E.
  assert (isClosed x = false) as Hx by (destruct (isClosed x) eqn:E'; [by rewrite C in Hc|done]).
  rewrite W; [apply Hw; [done|lia]|done|lia].
Qed.

Definition isJDial (j : Job) : bool := match j with JDial => true | _ => false end.
Definition outbox (x : Exec) : list Job := outbox_ (requests x).

(** The link moves, and every dial that begins is in [run]; [used] dials end. *)
Record turns (used : nat) (x y : Exec) (run : list Job) : Prop := {
  tn_moves : moves x y; tn_posted : posted_ y = posted_ x;
  tn_dials : isClosed y = false →
    (number isJDial (outbox y) + number isJDial run + tally (connecting y) + tally (dialing_ (link x)) =
     used + number isJDial (outbox x) + tally (dialing_ (link y)) + tally (connecting x))%nat }.

(** An attempt is under way only when it was begun. *)
Definition dials_ok (x : Exec) : Prop := isClosed x = false → connecting x = true → dialing_ (link x) = true.

Lemma no_dials run : Forall (λ j, isJDial j = false) run → number isJDial run = 0%nat.
Proof. induction 1 as [|j run Hj _ IH]; [done|]. by rewrite number_cons, Hj, IH. Qed.
Lemma no_dials_replies why l : number isJDial (replies why l) = 0%nat.
Proof.
  apply no_dials. unfold replies. apply list.Forall_forall. intros j (e & Hj & _)%list_elem_of_bind.
  destruct (pd_done e.2); [by apply list_elem_of_singleton in Hj as ->|by apply not_elem_of_nil in Hj].
Qed.
Lemma no_dials_fmap {A} (f : A → Job) l : (∀ a, isJDial (f a) = false) → number isJDial (f <$> l) = 0%nat.
Proof. intros H. apply no_dials, Forall_fmap, Forall_true. exact H. Qed.
Lemma no_dials_sweep why l : number isJDial (sweep opts why l).2 = 0%nat.
Proof.
  induction l as [|[k e] l IH]; [done|]. cbn [sweep]. destruct (sweep opts why l) as [kept run]. cbn [snd] in IH.
  destruct (pd_gen e =? 0); [done|]. destruct (pd_internal e); [done|]. destruct (goesAgain opts e); [done|].
  cbn [snd]. destruct (pd_done e); [by rewrite number_cons|done].
Qed.
Lemma no_dials_expired now l : number isJDial (expired opts now l) = 0%nat.
Proof.
  apply no_dials. unfold expired. apply list.Forall_forall. intros j (e & Hj & _)%list_elem_of_bind.
  destruct (now <? pd_deadline e.2); [by apply not_elem_of_nil in Hj|].
  destruct (pd_done e.2); [by apply list_elem_of_singleton in Hj as ->|by apply not_elem_of_nil in Hj].
Qed.
Lemma no_dials_optional (o : option Callback) r : number isJDial (match o with Some d => [JReply d r] | None => [] end) = 0%nat.
Proof. by destruct o. Qed.

Lemma outbox_sendLocked rid x : number isJDial (outbox (sendLocked rid x)) = number isJDial (outbox x) ∧ posted_ (sendLocked rid x) = posted_ x.
Proof.
  unfold sendLocked. destruct (look _ _) as [e|]; [|done]. destruct (encode _); [done|]. split; [|done].
  unfold outbox. cbn. rewrite number_app, no_dials_optional. lia.
Qed.
Lemma outbox_sendAll ids x :
  let y := foldl (λ x rid, sendLocked rid x) x ids in number isJDial (outbox y) = number isJDial (outbox x) ∧ posted_ y = posted_ x.
Proof.
  revert x. induction ids as [|r ids IH]; intros x; [done|]. cbn. destruct (outbox_sendLocked r x) as [<- <-]. apply IH.
Qed.

Lemma turns_quiet x y run :
  link y = link x → outbox y = outbox x → posted_ y = posted_ x → number isJDial run = 0%nat → turns 0 x y run.
Proof. intros El Eo Ep Er. constructor; [by apply moves_link|done|]. intros _. unfold connecting. rewrite El, Eo, Er. lia. Qed.

Lemma turns_sendLocked rid x : turns 0 x (sendLocked rid x) [].
Proof.
  destruct (sendLocked_rest rid x) as (El & _ & _). destruct (outbox_sendLocked rid x) as [Eo Ep].
  constructor; [by apply moves_link|done|]. intros _. unfold connecting. rewrite El, Eo, number_nil. lia.
Qed.

Lemma turns_trans used x y z run run' :
  (isClosed z = false → isClosed y = false) → turns 0 x y run → turns used y z run' → turns used x z (run ++ run').
Proof.
  intros Hc [M1 P1 D1] [M2 P2 D2]. constructor; [by etrans|congruence|]. intros Hz. rewrite number_app.
  specialize (D2 Hz). specialize (D1 (Hc Hz)). lia.
Qed.

Lemma schedule_quiet now d x : outbox (scheduleReconnectLocked now d x) = outbox x ∧ posted_ (scheduleReconnectLocked now d x) = posted_ x.
Proof. unfold scheduleReconnectLocked, ensureTimerLocked. by destruct (_ || _). Qed.

Lemma turns_lose now draw why im x :
  state_ok x → dials_ok x → isClosed x = false → is_Some (ws_ (link x)) →
  let '(y, run) := loseLocked opts now draw why im x in turns 0 x y run.
Proof.
  intros H Hd Hc Hw. pose proof (lose_link now draw why im x) as El.
  assert (∀ y run, link y = mkLink (closed_ (link x)) false None (gen_ (link x) + 1) false (everOpened_ (link x)) →
    outbox y = outbox x → posted_ y = posted_ x → number isJDial run = 0%nat → turns 0 x y run) as Hq.
  { intros y run Ey Eo Ep Er. constructor; [|done|].
    - unfold isClosed in Hc. constructor; unfold isClosed; rewrite Ey; cbn; [done|lia|lia].
    - intros _. rewrite Eo, Er. unfold connecting at 1. rewrite Ey. cbn.
      assert (dialing_ (link x) = connecting x) as ->; [|lia]. destruct (connecting x) eqn:Ec; [by apply Hd|].
      unfold connecting in Ec. rewrite bool_decide_eq_true_2 in Ec by done. cbn in Ec. apply negb_false_iff in Ec.
      by apply (state_ok_open x). }
  revert El. unfold loseLocked. set (x1 := if im then _ else _).
  assert (outbox x1 = outbox x ∧ posted_ x1 = posted_ x) as [Eo Ep] by (by destruct im). clearbody x1.
  pose proof (no_dials_sweep why (pending x1)) as Hs. destruct (sweep opts why (pending x1)) as [kept run]. cbn [snd] in Hs.
  destruct (_ && _); [|destruct (eo_reconnect opts)]; cbn [failWaiters failAllLocked fst]; intros El.
  - apply Hq; try done. rewrite !number_app, Hs, no_dials_replies, no_dials_fmap; done.
  - match goal with |- context [scheduleReconnectLocked now ?d ?y] => destruct (schedule_quiet now d y) as [E1 E2] end.
    apply Hq; try done; [by rewrite E1|by rewrite E2].
  - apply Hq; try done. rewrite !number_app, Hs, no_dials_replies; done.
Qed.

Lemma turns_attemptFailed now draw code why x : let '(y, run) := attemptFailedLocked opts now draw code why x in turns 0 x y run.
Proof.
  pose proof (attempt_link now draw code why x) as El. revert El. unfold attemptFailedLocked. destruct (_ && _); cbn [failWaiters failAllLocked fst]; intros El.
  - match goal with |- context [scheduleReconnectLocked now ?d ?y] => destruct (schedule_quiet now d y) as [E1 E2] end. by apply turns_quiet.
  - apply turns_quiet; try done. rewrite !number_app, no_dials_replies, no_dials_fmap; done.
Qed.

Lemma turns_beginDial x y :
  link y = link x → outbox y = outbox x → posted_ y = posted_ x → alone x = true → turns 0 x (beginDialLocked y).1 [JDial].
Proof.
  intros El Eo Ep [Hd%negb_true_iff Hw%bool_decide_eq_true]%andb_prop. constructor.
  - constructor; unfold isClosed; cbn; by rewrite El.
  - done.
  - intros _. unfold connecting, outbox. cbn. rewrite El, Hw, Hd. unfold outbox in Eo. rewrite Eo, number_cons, number_nil. cbn. lia.
Qed.

(** ** How each method turns the link *)

Lemma turns_connect w x : let '(y, run) := connect w x in turns 0 x y run.
Proof.
  unfold connect. destruct (isClosed x) eqn:Hc; [by apply turns_quiet; destruct w|].
  destruct (isOpen x); [by apply turns_quiet; destruct w|].
  set (x1 := match w with Some w => _ | None => _ end).
  assert (link x1 = link x ∧ outbox x1 = outbox x ∧ posted_ x1 = posted_ x) as (El & Eo & Ep) by (by destruct w). clearbody x1.
  destruct (alone x1) eqn:Ea; [|by apply turns_quiet].
  pose proof (turns_beginDial x x1 El Eo Ep) as H. unfold alone in *. rewrite El in Ea. exact (H Ea).
Qed.

Lemma ensureTimer_quiet x : outbox (ensureTimerLocked x) = outbox x ∧ posted_ (ensureTimerLocked x) = posted_ x.
Proof. unfold ensureTimerLocked. by destruct (_ || _). Qed.

Lemma turns_then x y z run :
  turns 0 x y run → link z = link y → outbox z = outbox y → posted_ z = posted_ y → turns 0 x z run.
Proof.
  intros [M P D] El Eo Ep. constructor; [etrans; [done|by apply moves_link]|congruence|].
  unfold isClosed, connecting. rewrite El, Eo. exact D.
Qed.

Lemma turns_request now frame done internal ms x :
  let '(y, run, _) := request opts now frame done internal ms x in turns 0 x y run.
Proof.
  unfold request. destruct (isClosed x) eqn:Hc; [apply turns_quiet; try reflexivity; apply no_dials_optional|].
  destruct (enqueue _ _ _ _ _ _ x) as [rid x1] eqn:E.
  assert (link x1 = link x ∧ outbox x1 = outbox x ∧ posted_ x1 = posted_ x) as (El & Eo & Ep) by (unfold enqueue, nextRid in E; by simplify_eq).
  clear E.
  set (yr := if isOpen x1 then _ else _). assert (turns 0 x yr.1 yr.2) as H.
  { subst yr. destruct (isOpen x1); [|destruct (alone x1) eqn:Ea].
    - change [] with (@nil Job ++ []). eapply turns_trans; [|by apply turns_quiet|apply turns_sendLocked].
      destruct (sendLocked_rest rid x1) as (Es & _ & _). unfold isClosed. cbn. by rewrite Es.
    - apply turns_beginDial; try done. unfold alone in *. by rewrite El in Ea.
    - by apply turns_quiet. }
  destruct yr as [y run]. cbn [fst snd] in H. destruct (ensureTimer_rest y) as [E1 _]. destruct (ensureTimer_quiet y) as [E2 E3].
  by eapply turns_then.
Qed.

Lemma turns_shut x y run : isClosed y = true → gen_ (link y) = gen_ (link x) → posted_ y = posted_ x → turns 0 x y run.
Proof. intros Hc Hg Hp. constructor; [constructor; [done|lia|]|done|]; congruence. Qed.

Lemma turns_close x : let '(y, _, run) := close x in turns 0 x y run.
Proof. unfold close. destruct (isClosed x) eqn:Hc; [by apply turns_quiet|]. by apply turns_shut. Qed.

Lemma turns_accessEnded gen reason x : let '(y, run) := onAccessEndedClose gen reason x in turns 0 x y run.
Proof. unfold onAccessEndedClose. destruct (_ || _); [by apply turns_quiet|]. by apply turns_shut. Qed.

Lemma gen_some x g : gen_of x g → isClosed x = false → g = gen_ (link x) → is_Some (ws_ (link x)).
Proof. intros [_ H] Hc E. rewrite H by done. eauto. Qed.

Lemma turns_onLost now draw gen why x :
  state_ok x → dials_ok x → gen_of x gen → let '(y, run) := onLost opts now draw gen why x in turns 0 x y run.
Proof.
  intros H Hd Hg. unfold onLost. destruct (negb (gen =? gen_ (link x)) || isClosed x) eqn:E; [by apply turns_quiet|].
  apply orb_false_elim in E as [->%negb_false_iff%Z.eqb_eq Hc]. apply turns_lose; [done..|]. by eapply gen_some.
Qed.

Lemma turns_onEndpoint now draw created found refused x :
  open_ (link x) = false ∧ ws_ (link x) = None ∧ dialing_ (link x) = true ∨ isClosed x = true →
  let '(y, run, _) := onEndpoint opts now draw created found refused x in turns (if isClosed x then 0 else 1) x y run.
Proof.
  intros Ho. unfold onEndpoint. destruct (isClosed x) eqn:Hc; [by apply turns_quiet|]. destruct Ho as [(Ho & Hw & Hd)|]; [|done].
  assert (∀ code why x', link x' = link x → outbox x' = outbox x → posted_ x' = posted_ x → let '(y, run) := attemptFailedLocked opts now draw code why
    (set_link (mkLink (closed_ (link x)) false (ws_ (link x)) (gen_ (link x)) (open_ (link x)) (everOpened_ (link x))) x') in turns 1 x y run) as Ha.
  { intros code why x' El Eo Ep. set (x1 := set_link _ x'). pose proof (turns_attemptFailed now draw code why x1) as H.
    pose proof (attempt_link now draw code why x1) as E1. destruct (attemptFailedLocked opts now draw code why x1) as [y run]. cbn [fst] in E1.
    change run with ([] ++ run) at 1. rewrite <- (Nat.add_0_l 1).
    assert (turns 1 x x1 []) as [M1 P1 D1].
    { subst x1. constructor; [by constructor|by cbn|]. intros _. unfold outbox, connecting in *. cbn. rewrite Eo, Hw, Ho, Hd, number_nil. cbn. lia. }
    destruct H as [M2 P2 D2]. constructor; [by etrans|congruence|]. intros Hy. specialize (D2 Hy). unfold isClosed in *.
    rewrite E1 in Hy. specialize (D1 Hy). cbn [app]. rewrite number_nil in D1. lia. }
  destruct found as [e|code]; [destruct refused as [why|]; [|destruct created]|].
  - specialize (Ha NotConnected why x eq_refl eq_refl eq_refl). by destruct (attemptFailedLocked _ _ _ _ _ _).
  - constructor; [|done|].
    + constructor; cbn; [done|lia|lia].
    + intros _. unfold connecting, outbox. cbn. rewrite Hw, Ho, Hd, number_nil. cbn. lia.
  - specialize (Ha NotConnected (chars "no WebSocket transport") (set_endpoint e x) eq_refl eq_refl eq_refl). by destruct (attemptFailedLocked _ _ _ _ _ _).
  - specialize (Ha code (chars "no host for this app") x eq_refl eq_refl eq_refl). by destruct (attemptFailedLocked _ _ _ _ _ _).
Qed.

Lemma renew_quiet now x : let y := (renew opts now x).1 in outbox y = outbox x ∧ posted_ y = posted_ x.
Proof.
  unfold renew. generalize (subs_ (topics x)). intros l. generalize (@nil Z) as acc. revert x.
  induction l as [|e l IH]; intros x acc; cbn [foldl]; [done|].
  destruct (renewOne opts now (x, acc) e) as [x1 acc1] eqn:E. destruct (IH x1 acc1) as (-> & ->).
  unfold renewOne, enqueue, nextRid in E. cbn [fst snd] in E. by simplify_eq.
Qed.

Lemma turns_onOpen now gen x :
  state_ok x → dials_ok x → gen_of x gen →
  match onOpen opts now gen x with None => True | Some (y, run, _) => turns 0 x y run end.
Proof.
  intros H Hd Hg. unfold onOpen. destruct (negb (gen =? gen_ (link x)) || closed_ (link x)) eqn:E; [done|].
  apply orb_false_elim in E as [->%negb_false_iff%Z.eqb_eq Hc]. pose proof (gen_some _ _ Hg Hc eq_refl) as Hw.
  set (x1 := set_retry _ _).
  assert (turns 0 x x1 []) as H1.
  { subst x1. constructor; [constructor; unfold isClosed; cbn; [congruence|lia|done]|done|]. intros _.
    unfold outbox, connecting at 1. cbn. rewrite number_nil, andb_false_r. cbn.
    assert (dialing_ (link x) = connecting x) as ->; [|lia]. destruct (connecting x) eqn:Ec; [by apply Hd|].
    unfold connecting in Ec. rewrite bool_decide_eq_true_2 in Ec by done. cbn in Ec. apply negb_false_iff in Ec. by apply (state_ok_open x). }
  assert (turns 0 x1 (failWaiters Ok x1).1 (failWaiters Ok x1).2) as H2.
  { apply turns_quiet; try done. by apply no_dials_fmap. }
  assert (isClosed x1 = false) as Hc1 by done. assert (link (failWaiters Ok x1).1 = link x1) as El by done. clearbody x1.
  destruct (failWaiters Ok x1) as [x2 run]. cbn [fst snd] in *.
  assert (turns 0 x x2 run) as H3.
  { change run with ([] ++ run). eapply turns_trans; [|exact H1|exact H2]. done. }
  assert (∀ y told, link y = link x2 → outbox y = outbox x2 → posted_ y = posted_ x2 → number isJDial told = 0%nat →
    turns 0 x (foldl (λ x rid, sendLocked rid x) y (waiting y)) (run ++ told)) as Hs.
  { intros y told Ey Eo Ep Et. destruct (sendAll_rest (waiting y) y) as (S1 & _ & _). destruct (outbox_sendAll (waiting y) y) as (S2 & S3).
    set (z := foldl _ y _) in *. clearbody z. eapply turns_trans; [|exact H3|].
    - unfold isClosed in *. by rewrite S1, Ey.
    - constructor; [apply moves_link; congruence|congruence|]. intros _. unfold connecting. rewrite S1, Ey, S2, Eo, Et. lia. }
  destruct (everOpened_ (link x)); [|by apply Hs].
  destruct (renew_rest now x2) as (E1 & _). destruct (renew_quiet now x2) as (E2 & E3). destruct (renew opts now x2) as [x3 ids].
  apply Hs; try done. by apply no_dials_fmap.
Qed.

Lemma turns_pending l x run : number isJDial run = 0%nat → turns 0 x (set_pending l x) run.
Proof. intros H. by apply turns_quiet. Qed.

Lemma turns_onReply now draw gen rid r x :
  state_ok x → dials_ok x → isClosed x = false →
  match onReply opts now draw gen rid r x with None => True | Some (y, run, _) => turns 0 x y run end.
Proof.
  intros H Hd Hc. unfold onReply. destruct (look rid (pending x)) as [p|]; cbn [mbind option_bind]; [|done].
  destruct (_ && _ && _ && _); [|apply turns_pending, no_dials_optional].
  set (x1 := set_pending _ x).
  assert (state_ok x1) as H1 by (apply state_ok_evolves_pending; [done|]; apply evolves_change; intros; apply grown_again).
  assert (isClosed x1 = false ∧ dials_ok x1) as [Hc1 Hd1] by done.
  assert (turns 0 x x1 []) as Ht by by apply turns_pending. clearbody x1.
  destruct (_ && bool_decide (is_Some (ws_ (link x1)))) eqn:E; [|destruct (isOpen x1); [|done]].
  - apply andb_prop in E as [_ Hw%bool_decide_eq_true].
    match goal with |- context [loseLocked opts now draw ?why true x1] => pose proof (turns_lose now draw why true x1 H1 Hd1 Hc1 Hw) as H2 end.
    destruct (loseLocked _ _ _ _ _ x1) as [y run]. change run with ([] ++ run). by eapply turns_trans; [|exact Ht|exact H2].
  - by apply (turns_trans 0 x x1 _ [] []); [|exact Ht|apply turns_sendLocked].
Qed.

Lemma turns_onFrame now draw gen f x :
  state_ok x → dials_ok x → match onFrame opts now draw gen f x with None => True | Some (y, run, _) => turns 0 x y run end.
Proof.
  intros H Hd. unfold onFrame. destruct (isClosed x) eqn:Hc; [done|]. destruct (sf_kind f); try by apply turns_onReply.
  destruct (look _ (subs_ _)); cbn [mbind option_bind]; [|done]. apply turns_quiet; try done. by apply no_dials_fmap.
Qed.

Lemma turns_timerTick now x : let '(y, run) := timerTick opts now x in turns 0 x y run.
Proof.
  unfold timerTick. destruct (isClosed x) eqn:Hc; [by apply turns_quiet|].
  pose proof (turns_pending (List.filter (λ e, now <? pd_deadline e.2) (pending x)) x _ (no_dials_expired now (pending x))) as Ht.
  set (x1 := set_pending _ x) in *. clearbody x1.
  destruct (_ && alone x1) eqn:E; [|done]. apply andb_prop in E as [_ Ea].
  match goal with |- context [beginDialLocked ?y] => pose proof (turns_beginDial x1 y eq_refl eq_refl eq_refl Ea) as H2; destruct (beginDialLocked y) as [z run] eqn:Eb end.
  injection Eb as <- <-. eapply turns_trans; [|exact Ht|exact H2]. done.
Qed.

(** ** Attempts, wherever they are *)

Definition dialTask (t : Task) : bool :=
  match t with TDeliver j | TRun j | TPolled j => isJDial j | TFound _ | TJudge _ | TEndpoint _ _ => true | _ => false end.
Definition dialNotice (n : Notice) : bool := match n with NDial => true | NDropped j => isJDial j | _ => false end.

Definition isDropped (n : Notice) : bool := match n with NDropped j => isJDial j | _ => false end.

Lemma dialNotice_split log : number dialNotice log = (number isDial log + number isDropped log)%nat.
Proof. induction log as [|n log IH]; [done|]. rewrite !number_cons, IH. destruct n; cbn; lia. Qed.

(** Only a closed dispatcher drops, and it stays closed. *)
Definition dispatcherClosed (x : Exec) : Prop := ∃ q, posted_ x = Some q ∧ qu_closed q = true.
Definition drops_at (x y : Exec) (ns : list Notice) : Prop :=
  (dispatcherClosed x → dispatcherClosed y) ∧ ((0 < number isDropped ns)%nat → dispatcherClosed y).

Lemma drops_none x y ns : posted_ y = posted_ x → number dialNotice ns = 0%nat → drops_at x y ns.
Proof. intros E Hn. rewrite dialNotice_split in Hn. unfold drops_at, dispatcherClosed. rewrite E. split; [done|lia]. Qed.
Lemma drops_dial x : drops_at x x [NDial].
Proof. split; [done|]. unfold number. cbn. lia. Qed.

Definition task_gen (x : Exec) (t : Task) : Prop := match t with TStart g | TEvent g _ => gen_of x g | _ => True end.
Definition notice_gen (x : Exec) (n : Notice) : Prop := match n with NStart g => gen_of x g | _ => True end.

(** Begun and not yet at [onEndpoint]; [NFound] counts those the dialer has answered. *)
Definition dialing (x : Exec) (ts : list Task) (log : list Notice) : nat :=
  (number isJDial (outbox x) + number isJDial (queued x) + number dialTask ts + number dialNotice log)%nat.

(** A task keeps the books of attempts. *)
Record plays (t : Task) (x y : Exec) (next : list Task) (ns : list Notice) : Prop := {
  pl_moves : moves x y; pl_found : number isFound ns = 0%nat; pl_drops : drops_at x y ns;
  pl_dials : isClosed y = false →
    (dialing y next ns + tally (connecting y) + tally (dialing_ (link x)) =
     dialing x [t] [] + tally (dialing_ (link y)) + tally (connecting x))%nat }.

Lemma number_deliver run : number dialTask (deliver run) = number isJDial run.
Proof. induction run as [|j run IH]; [done|]. change (deliver (j :: run)) with (TDeliver j :: deliver run). by rewrite !number_cons, IH. Qed.
Lemma number_fmap_none {A B} (f : B → bool) (g : A → B) l : (∀ a, f (g a) = false) → number f (g <$> l) = 0%nat.
Proof. intros H. induction l as [|a l IH]; [done|]. cbn [fmap list_fmap]. by rewrite number_cons, H. Qed.
Lemma number_sent ws frames : number dialTask (sent ws frames) = 0%nat.
Proof. destruct ws; [by apply number_fmap_none|done]. Qed.
Lemma number_closing ws : number dialTask (closing ws) = 0%nat.
Proof. by destruct ws. Qed.
Lemma number_fmap {A B} (f : B → bool) (g : A → B) l : number f (g <$> l) = number (λ a, f (g a)) l.
Proof. induction l as [|a l IH]; [done|]. cbn [fmap list_fmap]. by rewrite !number_cons, IH. Qed.

Lemma plays_turns u t x y run next ns :
  turns u x y run → (isClosed y = false → u = tally (dialTask t)) → number dialTask next = number isJDial run →
  number dialNotice ns = 0%nat → number isFound ns = 0%nat → plays t x y next ns.
Proof.
  intros [M P D] Hu Hn Hs Hf. constructor; [done..|by apply drops_none|]. intros Hc. unfold dialing. specialize (D Hc). rewrite (Hu Hc) in D.
  unfold queued. rewrite P, Hn, Hs, number_cons, !number_nil. unfold tally in *. lia.
Qed.

(** The link and the outbox stay. *)
Lemma plays_same t x y next ns :
  link y = link x → outbox y = outbox x → number isFound ns = 0%nat →
  (number isJDial (queued y) + number dialTask next + number dialNotice ns = number isJDial (queued x) + tally (dialTask t))%nat →
  drops_at x y ns → plays t x y next ns.
Proof.
  intros El Eo Hf H Hd. constructor; [by apply moves_link|done..|]. intros _. unfold dialing, connecting. rewrite El, Eo, number_cons, !number_nil.
  unfold tally in *. lia.
Qed.

Ltac counts := repeat first [rewrite number_app | rewrite number_cons | rewrite number_nil | rewrite number_deliver | rewrite number_sent | rewrite number_closing]; cbn [dialTask isJDial dialNotice isFound tally].

Lemma onEvent_plays g gen ev x x' next ns :
  onEvent opts g gen ev x = Some (x', next, ns) → state_ok x → dials_ok x → gen_of x gen →
  state_ok x' ∧ plays (TEvent gen ev) x x' next ns.
Proof.
  intros E H Hd Hg.
  assert (∀ why, (let '(x, run) := onLost opts (gv_now g) (gv_draw g) gen why x in Some (x, deliver run, [])) = Some (x', next, ns) →
    state_ok x' ∧ plays (TEvent gen ev) x x' next ns) as Hlost.
  { intros why E'. pose proof (turns_onLost (gv_now g) (gv_draw g) gen why x H Hd Hg) as Ht.
    pose proof (state_ok_onLost (gv_now g) (gv_draw g) gen why x H) as Hs.
    destruct (onLost _ _ _ _ _ x) as [y run]. simplify_eq. split; [done|]. by eapply plays_turns; [exact Ht|..]; counts. }
  assert (plays (TEvent gen ev) x x [] []) as Hq by (apply plays_same; counts; try done; try lia; by apply drops_none).
  destruct ev as [|[] payload|code reason|status body text]; cbn [onEvent] in E.
  - pose proof (turns_onOpen (gv_now g) gen x H Hd Hg) as Ht. pose proof (state_ok_onOpen (gv_now g) gen x H (proj2 Hg)) as Hs.
    destruct (onOpen _ _ _ x) as [[[y run] ids]|]; simplify_eq.
    + split; [done|]. eapply plays_turns; [exact Ht|..]; counts; try done; by apply number_fmap_none.
    + split; [done|]. exact Hq.
  - apply bind_Some in E as (d & _ & E). destruct d as [f|]; [|simplify_eq; split; [done|exact Hq]].
    pose proof (turns_onFrame (gv_now g) (gv_draw g) gen f x H Hd) as Ht. pose proof (state_ok_onFrame (gv_now g) (gv_draw g) gen f x H) as Hs.
    destruct (onFrame _ _ _ _ f x) as [[[y run] from]|]; simplify_eq; (split; [done|]); [|exact Hq].
    by eapply plays_turns; [exact Ht|..]; counts.
  - simplify_eq. split; [done|exact Hq].
  - destruct (code =? kExecCloseAccessEnded); [|by eapply Hlost].
    pose proof (turns_accessEnded gen reason x) as Ht. pose proof (state_ok_accessEnded gen reason x H) as Hs.
    destruct (onAccessEndedClose gen reason x) as [y run]. simplify_eq. split; [done|]. by eapply plays_turns; [exact Ht|..]; counts.
  - by eapply Hlost.
Qed.

(** What a task may find: the attempt it is part of is under way. *)
Definition fits (t : Task) (x : Exec) : Prop :=
  isClosed x = false → (tally (dialTask t) + tally (connecting x) ≤ tally (dialing_ (link x)))%nat.

Lemma fits_dials t x : fits t x → dials_ok x.
Proof. intros H Hc Hx. specialize (H Hc). rewrite Hx in H. destruct (dialing_ (link x)); [done|]. cbn in H. lia. Qed.

Lemma fits_endpoint found refused x :
  state_ok x → fits (TEndpoint found refused) x →
  isClosed x = false → open_ (link x) = false ∧ ws_ (link x) = None ∧ dialing_ (link x) = true.
Proof.
  intros H Hf Hc. specialize (Hf Hc). cbn [dialTask tally] in Hf.
  destruct (dialing_ (link x)) eqn:Ed; [|cbn in Hf; lia]. destruct (open_ (link x)) eqn:Eo; [apply state_ok_open in Eo as [_ E]; [congruence|done]|].
  split_and!; [done| |done]. destruct (ws_ (link x)) eqn:Ew; [|done]. unfold connecting in Hf.
  rewrite Eo, Ew in Hf. cbn in Hf. lia.
Qed.

Lemma plays_quiet t x y next ns :
  link y = link x → outbox y = outbox x → posted_ y = posted_ x → number isFound ns = 0%nat → number dialNotice ns = 0%nat →
  number dialTask next = tally (dialTask t) → plays t x y next ns.
Proof. intros El Eo Ep Hf Hn Hd. apply plays_same; [done..| |by apply drops_none]. unfold queued. rewrite Ep, Hn, Hd. lia. Qed.

Lemma state_ok_quiet x y :
  state_ok x → link y = link x → retry y = retry x → waiters_ y = waiters_ x → pending y = pending x → state_ok y.
Proof. intros H El Er Ew Ep. apply (state_ok_evolves x); [done..|]. rewrite Ep. apply evolves_refl. Qed.

Lemma dropHandler_quiet h tell x :
  let y := (dropHandler h tell x).1 in
  link y = link x ∧ retry y = retry x ∧ waiters_ y = waiters_ x ∧ pending y = pending x ∧ outbox y = outbox x ∧ posted_ y = posted_ x.
Proof. unfold dropHandler. repeat (case_match; try done). Qed.

Lemma runJob_plays j x ts ns : runJob j = (ts, ns) → plays (TRun j) x x ts ns.
Proof.
  destruct j as [w st|[q|h q] r| | | |]; cbn [runJob]; intros [= <- <-]; apply plays_same; counts; try done; try lia; try apply drops_dial; try by apply drops_none.
  destruct (execReplyOk r), q; counts; lia.
Qed.

Lemma queue_plays t x q q' next ns :
  posted_ x = Some q → number isFound ns = 0%nat →
  (qu_closed q = true → qu_closed q' = true) → (qu_closed q' = false → number isDropped ns = 0%nat) →
  (number isJDial (qu_jobs q') + number dialTask next + number dialNotice ns = number isJDial (qu_jobs q) + tally (dialTask t))%nat →
  plays t x (set_posted (Some q') x) next ns.
Proof.
  intros E Hf Hk Hn H. apply plays_same; [done..| |]; [unfold queued; rewrite E; exact H|].
  unfold drops_at, dispatcherClosed. cbn. rewrite E. split.
  - intros (? & [= <-] & ?). eauto.
  - intros Hp. exists q'. split; [done|]. destruct (qu_closed q'); [done|]. rewrite Hn in Hp; [lia|done].
Qed.

Lemma perform_plays g t x x' next ns :
  performTask opts g t x = Some (x', next, ns) → state_ok x → fits t x → task_gen x t → state_ok x' ∧ plays t x x' next ns.
Proof.
  intros E H Hf Hg. pose proof (fits_dials _ _ Hf) as Hd.
  destruct t as [w|f done internal ms|nt key topic q|h tell| | |id| | |found|e|found refused|gen|gen ev| |at_| | |ws b|ws|j|j|q r| |j|];
    cbn [performTask] in E.
  - pose proof (turns_connect w x) as Ht. pose proof (state_ok_connect w x H) as Hs. destruct (connect w x) as [y run]. simplify_eq.
    split; [exact Hs|]. by eapply plays_turns; [exact Ht|..]; counts.
  - pose proof (turns_request (gv_now g) f done internal ms x) as Ht. pose proof (state_ok_request (gv_now g) f done internal ms x H) as Hs.
    destruct (request _ _ _ _ _ _ x) as [[y run] ids]. simplify_eq. split; [exact Hs|].
    eapply plays_turns; [exact Ht|..]; counts; [reflexivity|lia|by apply number_fmap_none..].
  - cbn in E. simplify_eq. split; [by apply (state_ok_quiet x)|]. apply plays_quiet; try reflexivity. by destruct (bool_decide _), q; counts.
  - destruct (dropHandler_quiet h tell x) as (E1 & E2 & E3 & E4 & E5 & E6). destruct (dropHandler h tell x) as [y unsub]. cbn [fst] in *. simplify_eq.
    split; [by apply (state_ok_quiet x)|]. apply plays_quiet; try done. by destruct unsub; counts.
  - simplify_eq. split; [by apply (state_ok_quiet x)|by apply plays_quiet].
  - simplify_eq. split; [by apply (state_ok_quiet x)|by apply plays_quiet].
  - simplify_eq. split; [by apply (state_ok_quiet x)|by apply plays_quiet].
  - simplify_eq. split; [by apply (state_ok_quiet x)|by apply plays_quiet].
  - pose proof (turns_close x) as Ht. pose proof (state_ok_close x H) as Hs. destruct (close x) as [[y ws] run]. simplify_eq. split; [exact Hs|].
    by eapply plays_turns; [exact Ht|..]; counts.
  - simplify_eq. split; [done|]. apply plays_quiet; try done. by destruct found; [destruct (pinned_ x')|]; counts.
  - apply bind_Some in E as (refused & _ & E). simplify_eq. split; [done|]. by apply plays_quiet.
  - pose proof (fits_endpoint _ _ _ H Hf) as He.
    pose proof (turns_onEndpoint (gv_now g) (gv_draw g) (gv_created g) found refused x) as Ht.
    pose proof (state_ok_onEndpoint (gv_now g) (gv_draw g) (gv_created g) found refused x H) as Hs.
    destruct (onEndpoint _ _ _ _ _ _ x) as [[y run] made]. cbn [fst] in Hs. simplify_eq.
    split; [apply Hs; intros Hc; by destruct (He Hc) as (? & ? & ?)|].
    assert (turns (if isClosed x then 0 else 1) x x' run) as Ht' by (apply Ht; destruct (isClosed x); [by right|left; auto]).
    eapply plays_turns; [exact Ht'|..]; [|by destruct made; counts; try lia..].
    intros Hc. destruct (isClosed x) eqn:Hx; [|done]. destruct Ht' as [[M _ _] _ _]. by rewrite M in Hc.
  - simplify_eq. split; [done|]. by apply plays_quiet.
  - by eapply onEvent_plays.
  - simplify_eq. split; [done|]. apply plays_quiet; try done. by destruct (isClosed x').
  - pose proof (turns_timerTick (gv_now g) x) as Ht. pose proof (state_ok_timerTick (gv_now g) x H) as Hs.
    destruct (timerTick _ _ x) as [y run]. simplify_eq. split; [exact Hs|].
    eapply plays_turns; [exact Ht|..]; destruct (isClosed x); counts; done || lia.
  - simplify_eq. split; [done|]. by apply plays_quiet.
  - cbn in E. simplify_eq. split; [by apply (state_ok_quiet x)|]. constructor; [by apply moves_link|done|by apply drops_none|]. intros _.
    unfold dialing, outbox, connecting. cbn. counts. unfold queued. cbn. lia.
  - simplify_eq. split; [done|]. by apply plays_quiet.
  - simplify_eq. split; [done|]. by apply plays_quiet.
  - destruct (posted_ x) as [q|] eqn:Eq; simplify_eq; [|split; [done|]; by apply plays_quiet; counts].
    split; [by apply (state_ok_quiet x)|]. apply (queue_plays _ _ q); [done|by destruct (qu_closed q)| | |];
      unfold postJob; destruct (qu_closed q) eqn:Ec; try done; try congruence; cbn [qu_jobs]; counts; unfold tally; lia.
  - destruct (runJob j) as [ts ns'] eqn:Er. simplify_eq. split; [done|]. by apply runJob_plays.
  - simplify_eq. split; [done|]. by apply plays_quiet.
  - destruct (posted_ x) as [q|] eqn:Eq; [|simplify_eq; split; [done|]; by apply plays_quiet].
    unfold swapJobs in E. destruct (qu_closed q) eqn:Ec; simplify_eq; (split; [by apply (state_ok_quiet x)|]).
    + by apply (queue_plays _ _ q).
    + apply (queue_plays _ _ q); [done|done|congruence|done|]. counts. rewrite number_fmap. cbn [qu_jobs dialTask]. counts.
      change (number (λ a, isJDial a) (qu_jobs q)) with (number isJDial (qu_jobs q)). unfold tally. lia.
  - destruct (posted_ x) as [q|] eqn:Eq; [destruct (qu_closed q) eqn:Ec|]; simplify_eq; (split; [done|]); apply plays_same; counts; try done;
      try (by apply drops_none); try (split; [done|intros _; exists q; done]); unfold tally; lia.
  - destruct (posted_ x) as [q|] eqn:Eq; simplify_eq; [|split; [done|]; by apply plays_quiet].
    split; [by apply (state_ok_quiet x)|]. apply (queue_plays _ _ q); [done|by apply number_fmap_none|done|done|]. rewrite number_fmap. cbn [closeQueue qu_jobs dialNotice]. counts.
    change (number (λ a, isJDial a) (qu_jobs q)) with (number isJDial (qu_jobs q)). unfold tally. lia.
Qed.

Lemma no_gens_deliver x run : Forall (task_gen x) (deliver run).
Proof. apply Forall_fmap, Forall_true. by intros j. Qed.
Lemma no_gens_sent x ws frames : Forall (task_gen x) (sent ws frames).
Proof. destruct ws; [|done]. apply Forall_fmap, Forall_true. by intros j. Qed.
Lemma no_gens_closing x ws : Forall (task_gen x) (closing ws).
Proof. destruct ws; [|done]. by apply Forall_cons_2. Qed.
Lemma no_gens_rids x ids : Forall (notice_gen x) (NRid <$> ids).
Proof. apply Forall_fmap, Forall_true. by intros j. Qed.
#[local] Hint Resolve no_gens_deliver no_gens_sent no_gens_closing no_gens_rids Forall_app_2 Forall_cons_2 Forall_nil_2 : core.

Lemma onEvent_gens g gen ev x x' next ns :
  onEvent opts g gen ev x = Some (x', next, ns) → Forall (task_gen x') next ∧ Forall (notice_gen x') ns.
Proof.
  intros E. destruct ev as [|[] payload|code reason|status body text]; cbn [onEvent] in E.
  - destruct (onOpen _ _ _ x) as [[[y run] ids]|]; simplify_eq; split; auto. by apply Forall_cons_2.
  - apply bind_Some in E as (d & _ & E). destruct d as [f|]; [|by simplify_eq].
    destruct (onFrame _ _ _ _ f x) as [[[y run] from]|]; simplify_eq; split; auto. apply Forall_app_2; [done|]. by apply Forall_cons_2.
  - by simplify_eq.
  - destruct (code =? kExecCloseAccessEnded); [destruct (onAccessEndedClose gen reason x)|destruct (onLost _ _ _ _ _ x)]; simplify_eq; auto.
  - destruct (onLost _ _ _ _ _ x); simplify_eq; auto.
Qed.

Lemma onEndpoint_gen now draw created found refused x y run m :
  0 ≤ gen_ (link x) → onEndpoint opts now draw created found refused x = (y, run, Some m) → gen_of y m.1.
Proof.
  intros Hx. unfold onEndpoint. destruct (isClosed x); [done|].
  destruct found as [e|code]; [destruct refused as [why|]; [|destruct created]|];
    try (match goal with |- context [attemptFailedLocked _ _ _ ?c ?w ?z] => destruct (attemptFailedLocked _ _ _ c w z) end; done).
  intros [= <- <- <-]. unfold gen_of. cbn. split; [lia|done].
Qed.

Lemma perform_gens g t x x' next ns :
  performTask opts g t x = Some (x', next, ns) → 0 ≤ gen_ (link x) → task_gen x t →
  Forall (task_gen x') next ∧ Forall (notice_gen x') ns.
Proof.
  intros E Hx Hg.
  destruct t as [w|f done internal ms|nt key topic q|h tell| | |id| | |found|e|found refused|gen|gen ev| |at_| | |ws b|ws|j|j|q r| |j|];
    cbn [performTask] in E.
  - destruct (connect w x); simplify_eq; auto.
  - destruct (request _ _ _ _ _ _ x) as [[y run] ids]; simplify_eq; split; auto.
  - cbn in E. simplify_eq. destruct (bool_decide _), q; auto.
  - destruct (dropHandler h tell x) as [y unsub]. simplify_eq. destruct unsub; auto.
  - by simplify_eq.
  - by simplify_eq.
  - by simplify_eq.
  - by simplify_eq.
  - destruct (close x) as [[y ws] run]; simplify_eq; split; auto.
  - simplify_eq. destruct found; [destruct (pinned_ x')|]; split; auto.
  - apply bind_Some in E as (refused & _ & E). simplify_eq. split; auto.
  - pose proof (onEndpoint_gen (gv_now g) (gv_draw g) (gv_created g) found refused x) as H.
    destruct (onEndpoint _ _ _ _ _ _ x) as [[y run] made]. simplify_eq. destruct made as [m|]; (split; [|auto]); auto.
    apply Forall_app_2; [done|]. apply Forall_cons_2; [|done]. by eapply H.
  - simplify_eq. split; auto.
  - by eapply onEvent_gens.
  - simplify_eq. split; [destruct (isClosed x'); auto|auto].
  - destruct (timerTick _ _ x); simplify_eq; split; auto. apply Forall_app_2; [auto|]. destruct (isClosed x); [done|by apply Forall_cons_2].
  - simplify_eq. split; auto.
  - cbn in E. simplify_eq. split; auto.
  - simplify_eq. split; auto.
  - simplify_eq. split; auto.
  - destruct (posted_ x) as [q|]; simplify_eq; split; auto. destruct (qu_closed q); auto.
  - destruct j as [w st|[q|h q] r| | | |]; cbn in E; simplify_eq; split; auto.
    apply Forall_app_2; [destruct (execReplyOk r); auto|destruct q; auto].
  - simplify_eq. split; auto.
  - destruct (posted_ x) as [q|]; [destruct (swapJobs q)|]; simplify_eq; (split; [|auto]); [|auto]. apply Forall_fmap, Forall_true. by intros j.
  - destruct (posted_ x) as [q|]; [destruct (qu_closed q)|]; simplify_eq; split; auto.
  - destruct (posted_ x) as [q|]; simplify_eq; (split; [auto|]); [|auto]. apply Forall_fmap, Forall_true. by intros j.
Qed.

(** ** Nothing waits in vain *)

Record live (x : Exec) (ts : list Task) (log : list Notice) : Prop := {
  lv_state : state_ok x; lv_tasks : Forall (task_gen x) ts; lv_log : Forall (notice_gen x) log;
  lv_found : (number isFound log ≤ number isDial log)%nat;
  lv_drops : (0 < number isDropped log)%nat → dispatcherClosed x;
  lv_dials : isClosed x = false → (dialing x ts log + tally (connecting x) = tally (dialing_ (link x)) + number isFound log)%nat }.

Lemma dial_notices log : (number isDial log ≤ number dialNotice log)%nat.
Proof. induction log as [|n log IH]; [done|]. rewrite !number_cons. destruct n as [| | | | | | | | | | | | | | |j| |]; cbn; lia. Qed.

Lemma live_enter t x ts log ns : live x ts log → entersTask t x log = Some ns → live x (t :: ts) (log ++ ns).
Proof.
  intros [Hs Ht Hl Hf Hq Hd] E.
  assert (task_gen x t ∧ Forall (notice_gen x) ns ∧ (number isFound (log ++ ns) ≤ number isDial (log ++ ns))%nat ∧
    number isFound ns = tally (dialTask t) ∧ number dialNotice ns = 0%nat) as (H1 & H2 & H3 & H4 & H5).
  { rewrite !number_app. destruct t; cbn [entersTask] in E; repeat case_match; simplify_eq; counts;
      split_and!; try done; try lia; try by apply Forall_cons_2.
    - cbn [isDial]. match goal with H : (_ <? _)%nat = true |- _ => apply Nat.ltb_lt in H end. lia.
    - match goal with H : existsb _ log = true |- _ => apply existsb_exists in H as (n & Hn & Hg) end.
      destruct n; try done. apply Z.eqb_eq in Hg as ->. rewrite list.Forall_forall in Hl. by apply (Hl (NStart gen)), list_elem_of_In. }
  rewrite dialNotice_split in H5. constructor; auto; [rewrite number_app; intros ?; apply Hq; lia|].
  intros Hc. specialize (Hd Hc). unfold dialing in *. counts. rewrite (dialNotice_split ns). revert Hd. unfold tally in *. lia.
Qed.

Lemma live_fits t x ts log : live x (t :: ts) log → fits t x.
Proof.
  intros [_ _ _ Hf _ Hd] Hc. pose proof (dial_notices log) as Hn. specialize (Hd Hc). unfold dialing in Hd.
  revert Hd. counts. unfold tally. lia.
Qed.

Lemma live_moves g t x ts log x' next ns :
  live x (t :: ts) log → performTask opts g t x = Some (x', next, ns) → moves x x'.
Proof.
  intros Hl E. pose proof Hl as [Hs [Ht _]%Forall_cons_1 _ _ _ _].
  by destruct (perform_plays _ _ _ _ _ _ E Hs (live_fits _ _ _ _ Hl) Ht) as [_ [Hm _ _ _]].
Qed.

Lemma live_perform g t x ts log x' next ns :
  live x (t :: ts) log → performTask opts g t x = Some (x', next, ns) → live x' (next ++ ts) (log ++ ns).
Proof.
  intros Hlv E. pose proof (live_fits _ _ _ _ Hlv) as Hfit. destruct Hlv as [Hs [Ht Hts]%Forall_cons_1 Hl Hf Hq Hd].
  destruct (perform_plays _ _ _ _ _ _ E Hs Hfit Ht) as [Hs' [Hm Hnf [Hdr1 Hdr2] Hpd]].
  destruct (perform_gens _ _ _ _ _ _ E (so_gen _ Hs) Ht) as [Hg1 Hg2].
  assert (∀ ts, Forall (task_gen x) ts → Forall (task_gen x') ts) as Ht'.
  { intros ts0 H. eapply List.Forall_impl; [|exact H]. intros [] Ha; try done; by eapply gen_of_moves. }
  assert (∀ log, Forall (notice_gen x) log → Forall (notice_gen x') log) as Hl'.
  { intros log0 H. eapply List.Forall_impl; [|exact H]. intros [] Ha; try done; by eapply gen_of_moves. }
  constructor; auto.
  - counts. lia.
  - counts. intros Hp. destruct (decide (0 < number isDropped log)%nat); [by apply Hdr1, Hq|apply Hdr2; lia].
  - intros Hc. assert (isClosed x = false) as Hx by (destruct (isClosed x) eqn:E'; [by rewrite (mv_closed _ _ Hm E') in Hc|done]).
    specialize (Hd Hx). specialize (Hpd Hc). unfold dialing in *. revert Hd Hpd. counts. unfold tally. lia.
Qed.

Lemma live_kept good : kept (G := Given) good live.
Proof.
  constructor.
  - intros x ts ts' log Hp [Hs Ht Hl Hf Hq Hd]. constructor; auto; unfold dialing in *; by rewrite <- Hp.
  - intros. by apply live_enter.
  - intros g t st ts log st' next ns H _ E. exact (live_perform g t st ts log st' next ns H E).
Qed.

Lemma live_new dispatcher : live (newExec opts dispatcher) [] [].
Proof.
  constructor; [|done|done|done|rewrite number_nil; lia|by destruct dispatcher].
  constructor; cbn; try done; [by intros _ [|[]]|intros _ H; by apply Exists_nil in H].
Qed.

(** Attempts under way: begun, on their way to the dialer, with it or back from it, or a socket
    that is not open yet. A dial that a closed dispatcher dropped is none: it is counted apart. *)
Definition droppedDials (s : Work Exec Task Notice) : nat := number isDropped (wk_log s).
Definition attempts (s : Work Exec Task Notice) : nat :=
  let x := wk_state s in
  (number isJDial (outbox x) + number isJDial (queued x) + number dialTask (left_to_do s) +
   (number isDial (wk_log s) - number isFound (wk_log s)) + tally (connecting x))%nat.

Lemma attempts_dialing s :
  (number isFound (wk_log s) ≤ number isDial (wk_log s))%nat →
  (attempts s + droppedDials s + number isFound (wk_log s) =
   dialing (wk_state s) (left_to_do s) (wk_log s) + tally (connecting (wk_state s)))%nat.
Proof. unfold attempts, droppedDials, dialing. rewrite dialNotice_split. lia. Qed.


(** C21. Whatever the threads, the dialer, the gateway and the timer do: while the connection is not
    closed, there is at most one attempt to connect and none when it is open; if a request or, with
    reconnects, a caller of [connect] waits, it is open, or such an attempt is under way, or a
    reconnect is due with the timer thread there to begin it, or the dispatcher was closed and
    dropped the attempt (then nothing begins another, and only the request's deadline ends it:
    [dropped_dial_strands]); and the timer thread that ends late requests is there when there is
    one. A closed connection has nothing that waits. *)
Theorem exec_never_stranded good dispatcher (s : Work Exec Task Notice) :
  reaches good (newExec opts dispatcher) s →
  let x := wk_state s in
  if isClosed x then pending x = [] ∧ waiters_ x = [] ∧ ws_ (link x) = None
  else
    (attempts s + droppedDials s ≤ 1)%nat ∧ (isOpen x = true → attempts s = 0%nat ∧ droppedDials s = 0%nat) ∧
    (waits x → isOpen x = true ∨ attempts s = 1%nat ∨ (reconnectDue_ (retry x) = true ∧ timerStarted_ (retry x) = true) ∨
      (droppedDials s = 1%nat ∧ dispatcherClosed x)) ∧
    (attended x → timerStarted_ (retry x) = true).
Proof.
  intros Hr. apply (tasks_invariant good live _ _ (live_kept good)) in Hr; [|apply live_new].
  destruct Hr as [Hs _ _ Hf Hq Hd]. cbn. pose proof (attempts_dialing s Hf) as Ha.
  fold (droppedDials s) in Hq.
  assert (tally (connecting (wk_state s)) ≤ attempts s)%nat as Hcn by (unfold attempts; lia).
  set (x := wk_state s) in *. clearbody x. destruct (isClosed x) eqn:Hc; [by apply so_closed|].
  specialize (Hd eq_refl). assert (attempts s + droppedDials s = tally (dialing_ (link x)))%nat as E by lia. clear Ha Hd. split_and!.
  - rewrite E. destruct (dialing_ _); cbn; lia.
  - intros [_ Ho]%isOpen_true. destruct (state_ok_open _ Hs Ho) as [_ Hdl]. rewrite Hdl in E. cbn in E. lia.
  - intros Hw. destruct (isOpen x) eqn:Ho; [by left|]. destruct (dialing_ (link x)) eqn:Hdl.
    + cbn in E. destruct (attempts s) as [|[|n]]; [|by right; left|lia]. right; right; right. split; [lia|apply Hq; lia].
    + destruct (so_waits _ Hs Hc Hw) as [|[Hws|Hdue]]; [congruence| |right; right; left; split; [done|by apply so_due]].
      unfold isOpen in Ho. rewrite bool_decide_eq_true_2 in Ho by done. cbn in Ho.
      unfold connecting in Hcn. rewrite bool_decide_eq_true_2, Ho in Hcn by done. cbn in Hcn, E. lia.
  - by apply so_timer.
Qed.
End Live.
