(* ===== verification/ExecSends.v ===== *)
(** * How often a request is written

    A request of the Exec connection is written to a socket when it gets its id or when the socket
    opens, and a second time only as a call that goes again. [spent] is what was written for an id
    and may still be written. *)

From S2P Require Import Prelude Bytes Core Json Endpoint Tasks ExecWire ExecConn ExecSpec ExecLive.

Import le.
Open Scope Z_scope.

#[local] Arguments chars : simpl never.

(** Request ids are 32 bits wide and not zero. *)
Definition id_ok (r : Z) : Prop := 1 ≤ r ≤ 4294967295.

Lemma octets_id r r' : id_ok r → id_ok r' → octets 4 r = octets 4 r' → r = r'.
Proof.
  intros H H' E. apply (f_equal (value 32)) in E. rewrite !value_octets in E by lia. unfold id_ok in *.
  rewrite !Z.mod_small in E by lia. done.
Qed.

Definition isCall (p : Pending) : bool := bool_decide (cf_kind (pd_frame p) = KCall).

(** The frame is a call, or not, and carries the id. *)
Definition writes (call : bool) (rid : Z) (b : bytes) : bool :=
  match b with t :: b => Bool.eqb (t =? 1) call && bool_decide (take 4 b = octets 4 rid) | [] => false end.

Lemma encode_writes call rid f b :
  encode f = Val b → id_ok rid → id_ok (cf_rid f) → writes call rid b = Bool.eqb (bool_decide (cf_kind f = KCall)) call && (cf_rid f =? rid).
Proof.
  intros (tail & ->)%encode_head Hr Hf. cbn [writes]. f_equal; [by destruct (cf_kind f)|].
  rewrite take_app_length' by (by rewrite length_octets).
  destruct (Z.eqb_spec (cf_rid f) rid) as [->|Hne]; [by apply bool_decide_eq_true|]. apply bool_decide_eq_false.
  intros E%octets_id; done.
Qed.

Section Sends.
Variable opts : ExecConnectOptions.
#[local] Hint Extern 0 (Worker Exec _ _ _) => exact (execWorker opts) : typeclass_instances.

Section Spent.
Variable call : bool.
Variable rid : Z.
Hypothesis rid_ok : id_ok rid.

(** What a request may still be written. *)
Definition budget (e : Z * Pending) : nat :=
  if (e.1 =? rid) && Bool.eqb (isCall e.2) call then tally (pd_gen e.2 =? 0) + tally (goesAgain opts e.2) else 0.
Definition written (b : bytes) : nat := tally (writes call rid b).
Definition spent (x : Exec) : nat := total written (toSend_ (requests x)) + total budget (pending x).
Definition limit : nat := 1 + tally (call && eo_reconnect opts).

(** The requests of a state: frames with the ids they are under, each id once. *)
Definition framed (x : Exec) : Prop :=
  Forall (λ e, cf_rid (pd_frame e.2) = e.1 ∧ id_ok e.1) (pending x).

Lemma budget_limit e : (budget e ≤ limit)%nat.
Proof.
  unfold budget, limit, goesAgain, isCall. destruct (e.1 =? rid); [|cbn; lia]. destruct (pd_gen e.2 =? 0), (eo_reconnect opts), call, (pd_retried e.2), (bool_decide _); cbn; lia.
Qed.
Lemma budget_other e : e.1 ≠ rid → budget e = 0%nat.
Proof. intros H%Z.eqb_neq. unfold budget. by rewrite H. Qed.

Lemma spent_pending l x : (spent (set_pending l x) + total budget (pending x) = spent x + total budget l)%nat.
Proof. unfold spent, pending. cbn. lia. Qed.

(** Sending a request that waits. *)
Lemma spent_sendLocked r p x :
  framed x → 1 ≤ gen_ (link x) → look r (pending x) = Some p → pd_gen p = 0 → (spent (sendLocked r x) ≤ spent x)%nat.
Proof.
  intros Hf Hg E Hp. unfold sendLocked. unfold pending in E. rewrite E.
  pose proof (total_cons_Permutation budget _ _ _ (erase_Permutation _ _ _ E)) as H1.
  destruct (proj1 (list.Forall_forall _ _) Hf _ (look_In _ _ _ E)) as [Er Hr]. cbn [fst snd] in Er, Hr.
  destruct (encode (pd_frame (set_gen (gen_ (link x)) p))) as [b|] eqn:Eb; unfold spent, pending in *; cbn; [|lia].
  rewrite (total_cons_Permutation budget _ _ _ (change_Permutation _ (λ _, set_gen (gen_ (link x)) p) _ _ E)), H1, total_app, total_cons, total_nil.
  cbn [set_gen pd_frame] in Eb. unfold written at 2. rewrite (encode_writes call rid _ _ Eb rid_ok) by by rewrite Er.
  unfold budget at 1 3. unfold isCall, goesAgain. cbn [set_gen fst snd pd_frame pd_gen pd_retried]. rewrite Hp, Er.
  destruct (Z.eqb_spec (gen_ (link x)) 0); [lia|]. destruct (Bool.eqb _ _), (r =? rid); cbn; lia.
Qed.

Lemma spent_sendLocked_none r x : look r (pending x) = None → sendLocked r x = x.
Proof. unfold sendLocked, pending. by intros ->. Qed.

Lemma framed_evolves x y : evolves (pending x) (pending y) → framed x → framed y.
Proof.
  intros He. unfold framed. rewrite !list.Forall_forall. intros H [k e'] Hx. destruct (evolves_In _ _ _ _ He Hx) as (e & Hin & [Hfr _ _ _ _ _]).
  cbn [fst snd]. rewrite Hfr. exact (H _ Hin).
Qed.

Lemma look_change_ne {V} (k k' : Z) (f : V → V) l : k ≠ k' → look k (change k' f l) = look k l.
Proof.
  intros Hne. induction l as [|[k1 v] l IH]; [done|]. cbn. case_decide as E1; cbn; [|by rewrite IH].
  subst. by rewrite !decide_False by congruence.
Qed.
Lemma look_erase_ne {V} k k' (l : list (Z * V)) : k ≠ k' → look k (erase k' l) = look k l.
Proof.
  intros Hne. induction l as [|[k1 v] l IH]; [done|]. cbn. case_decide as E1; cbn; [|by rewrite IH].
  subst. by rewrite decide_False by congruence.
Qed.
Lemma look_sendLocked k r x : k ≠ r → look k (pending (sendLocked r x)) = look k (pending x).
Proof.
  intros Hne. unfold sendLocked, pending. destruct (look r _) as [p|]; [|done].
  destruct (encode _); cbn; [by rewrite look_change_ne|by rewrite look_erase_ne].
Qed.

Lemma spent_sendAll ids x :
  framed x → 1 ≤ gen_ (link x) → NoDup ids → (∀ r, r ∈ ids → ∃ p, look r (pending x) = Some p ∧ pd_gen p = 0) →
  (spent (foldl (λ x r, sendLocked r x) x ids) ≤ spent x)%nat.
Proof.
  revert x. induction ids as [|r ids IH]; intros x Hf Hg Hn Hl; [done|]. apply list.NoDup_cons in Hn as [Hr Hn]. cbn [foldl].
  destruct (Hl r) as (p & E & Hp); [by left|]. etrans; [|by eapply spent_sendLocked].
  destruct (sendLocked_rest r x) as (El & _ & _). apply IH; [|by rewrite El|done|].
  - eapply framed_evolves; [apply evolves_sendLocked|done].
  - intros r' Hr'. rewrite look_sendLocked by (intros ->; done). apply Hl. by right.
Qed.

Lemma look_NoDup {V} k (v : V) (l : list (Z * V)) : NoDup l.*1 → (k, v) ∈ l → look k l = Some v.
Proof.
  induction l as [|[k1 v1] l IH]; cbn; [set_solver|]. intros [Hk Hn]%list.NoDup_cons [[= -> ->]|H]%elem_of_cons; [by rewrite decide_True|].
  rewrite decide_False; [by apply IH|]. intros ->. apply Hk, list_elem_of_fmap. by exists (k1, v).
Qed.

Lemma waiting_look x : NoDup (pending x).*1 → NoDup (waiting x) ∧ ∀ r, r ∈ waiting x → ∃ p, look r (pending x) = Some p ∧ pd_gen p = 0.
Proof.
  intros Hn. unfold waiting. split.
  - eapply sublist_NoDup; [exact Hn|apply evolves_keys, evolves_filter].
  - intros r ([r' p] & -> & Hin)%list_elem_of_fmap. apply list_elem_of_In, filter_In in Hin as [Hin%list_elem_of_In Hp%Z.eqb_eq].
    exists p. split; [by apply look_NoDup|done].
Qed.

(** An operation writes within what it had, and what its new ids [ids] allow. *)
Record spends (x y : Exec) (ids : list Z) : Prop := {
  sp_ids : id_ok (rid_ (requests x)) → id_ok (rid_ (requests y)) ∧ Forall id_ok ids;
  sp_framed : id_ok (rid_ (requests x)) → framed x → framed y;
  sp_spent : (spent y ≤ spent x + limit * number (λ r, (r =? rid)%Z) ids)%nat }.

Lemma spends_trans x y z ids ids' : spends x y ids → spends y z ids' → spends x z (ids ++ ids').
Proof.
  intros [I1 F1 S1] [I2 F2 S2]. constructor.
  - intros H. destruct (I1 H) as [H1 H2]. destruct (I2 H1). split; [done|by apply Forall_app_2].
  - intros H Hf. apply F2; [by apply I1|by apply F1].
  - rewrite number_app. lia.
Qed.

Lemma spends_evolves x y :
  rid_ (requests y) = rid_ (requests x) → evolves (pending x) (pending y) → (spent y ≤ spent x)%nat → spends x y [].
Proof. intros Er He Hs. constructor; [by rewrite Er|intros _; by apply framed_evolves|rewrite number_nil; lia]. Qed.

Lemma spends_same x y : requests y = requests x → spends x y [].
Proof.
  intros E. apply spends_evolves; [by rewrite E|unfold pending; rewrite E; apply evolves_refl|]. unfold spent, pending. rewrite E. lia.
Qed.

Lemma sendLocked_rid r x : rid_ (requests (sendLocked r x)) = rid_ (requests x).
Proof. unfold sendLocked. destruct (look _ _); [|done]. by destruct (encode _). Qed.
Lemma sendAll_rid ids x : rid_ (requests (foldl (λ x r, sendLocked r x) x ids)) = rid_ (requests x).
Proof. revert x. induction ids as [|r ids IH]; intros x; [done|]. cbn. by rewrite IH, sendLocked_rid. Qed.

Lemma total_budget_evolves l l' :
  evolves l l' → (∀ k e e', (k, e) ∈ l → (k, e') ∈ l' → grown e e' → budget (k, e') ≤ budget (k, e))%nat → (total budget l' ≤ total budget l)%nat.
Proof.
  induction 1 as [|e l l' _ IH|k e e' l l' Hg _ IH]; intros H; [done|..]; rewrite !total_cons.
  - assert (total budget l' ≤ total budget l)%nat; [|lia]. apply IH. intros k e1 e1' H1 H2. apply H; [by right|done].
  - assert (budget (k, e') ≤ budget (k, e))%nat by (apply H; [by left..|done]).
    assert (total budget l' ≤ total budget l)%nat; [|lia]. apply IH. intros k' e1 e1' H1 H2. apply H; by right.
Qed.

Lemma spent_sweep why l : (total budget (sweep opts why l).1 ≤ total budget l)%nat.
Proof.
  induction l as [|[k e] l IH]; [done|]. cbn [sweep]. destruct (sweep opts why l) as [kept run]. cbn [fst] in IH. rewrite total_cons.
  destruct (Z.eqb_spec (pd_gen e) 0); [cbn [fst]; rewrite total_cons; lia|]. destruct (pd_internal e); [cbn [fst]; lia|].
  destruct (goesAgain opts e) eqn:Eg; cbn [fst]; [|lia]. rewrite total_cons.
  assert (budget (k, again e) ≤ budget (k, e))%nat; [|lia]. unfold budget. cbn [fst snd]. change (isCall (again e)) with (isCall e). rewrite Eg.
  unfold goesAgain, again. cbn. rewrite !andb_false_r. cbn. destruct (_ && _); cbn; lia.
Qed.
Lemma spent_erase r l : (total budget (erase r l) ≤ total budget l)%nat.
Proof.
  destruct (look r l) as [p|] eqn:E; [|by rewrite erase_none]. rewrite (total_cons_Permutation _ _ _ _ (erase_Permutation _ _ _ E)). lia.
Qed.
Lemma spent_filter f l : (total budget (List.filter f l) ≤ total budget l)%nat.
Proof. induction l as [|e l IH]; [done|]. cbn. destruct (f e); rewrite !total_cons; lia. Qed.
Lemma spent_again r p l : look r l = Some p → goesAgain opts p = true → (total budget (change r again l) ≤ total budget l)%nat.
Proof.
  intros E Eg. rewrite (total_cons_Permutation _ _ _ _ (erase_Permutation _ _ _ E)), (total_cons_Permutation _ _ _ _ (change_Permutation _ again _ _ E)).
  assert (budget (r, again p) ≤ budget (r, p))%nat; [|lia]. unfold budget. cbn [fst snd]. change (isCall (again p)) with (isCall p). rewrite Eg.
  unfold goesAgain, again. cbn. rewrite !andb_false_r. cbn. destruct (_ && _); cbn; lia.
Qed.

Lemma spends_pending l x : evolves (pending x) l → (total budget l ≤ total budget (pending x))%nat → spends x (set_pending l x) [].
Proof. intros He Hs. apply spends_evolves; [done|done|]. pose proof (spent_pending l x). lia. Qed.

Lemma spends_sendLocked r p x :
  framed x → 1 ≤ gen_ (link x) → look r (pending x) = Some p → pd_gen p = 0 → spends x (sendLocked r x) [].
Proof. intros Hf Hg E Hp. apply spends_evolves; [apply sendLocked_rid|apply evolves_sendLocked|by eapply spent_sendLocked]. Qed.

Lemma schedule_requests now d x : requests (scheduleReconnectLocked now d x) = requests x.
Proof. unfold scheduleReconnectLocked, ensureTimerLocked. by destruct (_ || _). Qed.

Lemma spends_failAll x : spends x (set_pending [] x) [].
Proof. apply spends_pending; [apply evolves_empty|rewrite total_nil; lia]. Qed.

Lemma spends_lose now draw why im x : spends x (loseLocked opts now draw why im x).1 [].
Proof.
  unfold loseLocked. set (x1 := if im then _ else _). assert (requests x1 = requests x) as E1 by (by destruct im).
  pose proof (evolves_sweep opts why (pending x1)) as He. pose proof (spent_sweep why (pending x1)) as Hs. clearbody x1.
  destruct (sweep opts why (pending x1)) as [kept run]. cbn [fst] in *.
  assert (spends x (set_pending kept x1) []) as H1.
  { apply (spends_trans x x1 _ [] []); [by apply spends_same|]. by apply spends_pending. }
  destruct (_ && _); [|destruct (eo_reconnect opts)]; cbn [failWaiters failAllLocked fst].
  - apply (spends_trans _ _ _ [] [] H1), (spends_trans _ (set_waiters [] (set_pending kept x1)) _ [] []); [by apply spends_same|apply spends_failAll].
  - apply (spends_trans _ _ _ [] [] H1). apply spends_same. by rewrite schedule_requests.
  - apply (spends_trans _ _ _ [] [] H1), spends_failAll.
Qed.

Lemma spends_attemptFailed now draw code why x : spends x (attemptFailedLocked opts now draw code why x).1 [].
Proof.
  unfold attemptFailedLocked. destruct (_ && _); cbn [failWaiters failAllLocked fst].
  - apply spends_same. cbn [set_retry requests]. by rewrite schedule_requests.
  - match goal with |- spends _ (set_pending [] ?y) _ => apply (spends_trans _ y _ [] []) end; [by apply spends_same|apply spends_failAll].
Qed.

Lemma spends_connect w x : spends x (connect w x).1 [].
Proof. apply spends_same. unfold connect. destruct (isClosed x), (isOpen x); try done. by destruct w, (alone _). Qed.

Lemma nextRid_ok r : id_ok r → id_ok (if r =? 4294967295 then 1 else r + 1).
Proof. unfold id_ok. intros H. destruct (Z.eqb_spec r 4294967295); lia. Qed.

Lemma spent_emplace r e l : (total budget (emplace Z.ltb r e l) ≤ budget (r, e) + total budget l)%nat.
Proof.
  induction l as [|[k v] l IH]; cbn; [by rewrite total_cons|]. case_decide; [lia|]. destruct (r <? k); rewrite !total_cons; lia.
Qed.

Lemma spends_enqueue now frame done internal wait ms x :
  let '(r, y) := enqueue now frame done internal wait ms x in spends x y [r].
Proof.
  unfold enqueue, nextRid. cbn [fst snd]. set (e := mkPending _ _ _ _ _ _ _).
  assert (cf_rid (pd_frame e) = rid_ (requests x)) as Ef by done. pose proof (budget_limit (rid_ (requests x), e)) as Hl.
  pose proof (budget_other (rid_ (requests x), e)) as Ho. clearbody e. set (r := rid_ (requests x)) in *.
  set (x1 := set_requests _ x). assert (pending x1 = pending x ∧ spent x1 = spent x) as [Ep Es] by done.
  assert (rid_ (requests x1) = if r =? 4294967295 then 1 else r + 1) as Er by done. clearbody x1. constructor.
  - intros Hr. split; [|by apply Forall_cons_2]. cbn. rewrite Er. by apply nextRid_ok.
  - intros Hr Hf. unfold framed in *. cbn. rewrite list.Forall_forall in Hf |- *.
    intros e' [->|Hin]%emplace_keys; [done|]. apply Hf. by rewrite <- Ep.
  - pose proof (spent_pending (emplace Z.ltb r e (pending x1)) x1) as H. rewrite Ep in H. rewrite Es in H. rewrite number_cons, number_nil.
    pose proof (spent_emplace r e (pending x)) as He. rewrite Ep in *. destruct (Z.eqb_spec r rid) as [|Hne]; [lia|]. rewrite Ho in He by done. lia.
Qed.

Lemma open_gen x : state_ok opts x → isOpen x = true → 1 ≤ gen_ (link x).
Proof. intros H [[g Eg] _]%isOpen_true. destruct (so_ws _ _ H _ Eg) as [-> ?]. done. Qed.

Lemma ensureTimer_requests x : requests (ensureTimerLocked x) = requests x.
Proof. unfold ensureTimerLocked. by destruct (_ || _). Qed.

Lemma spends_request now frame done internal ms x :
  state_ok opts x → framed x → id_ok (rid_ (requests x)) → (isClosed x = false → look (rid_ (requests x)) (pending x) = None) →
  let '(y, _, ids) := request opts now frame done internal ms x in spends x y ids.
Proof.
  intros H Hf Hr Hk. unfold request. destruct (isClosed x) eqn:Hc; [by apply spends_same|]. specialize (Hk eq_refl).
  set (wait := if 0 <? ms then ms else eo_callTimeoutMs opts).
  pose proof (spends_enqueue now frame done internal wait wait x) as He. destruct (enqueue _ _ _ _ _ _ x) as [r x1] eqn:E.
  assert (link x1 = link x ∧ ∃ p, look r (pending x1) = Some p ∧ pd_gen p = 0) as (El & p & Ep & Hp).
  { unfold enqueue, nextRid in E. simplify_eq. split; [done|]. cbn. eexists. split; [by rewrite look_emplace, decide_True|done]. }
  clear E. pose proof (sp_framed _ _ _ He Hr Hf) as Hf1.
  assert (∀ z, spends x1 z [] → spends x (ensureTimerLocked z) [r]) as Hz.
  { intros z Hz. apply (spends_trans x x1 _ [r] []); [done|]. apply (spends_trans x1 z _ [] []); [done|]. apply spends_same, ensureTimer_requests. }
  destruct (isOpen x1) eqn:Ho; [|destruct (alone x1)].
  - apply Hz. eapply spends_sendLocked; [done| |done..]. rewrite El. apply open_gen; [done|]. unfold isOpen in *. by rewrite El in Ho.
  - apply Hz. by apply spends_same.
  - apply Hz. by apply spends_same.
Qed.

Lemma spends_renew now x : spends x (renew opts now x).1 (renew opts now x).2.
Proof.
  unfold renew. generalize (subs_ (topics x)). intros l.
  assert (∀ l x acc, ∃ new, (foldl (renewOne opts now) (x, acc) l).2 = acc ++ new ∧ spends x (foldl (renewOne opts now) (x, acc) l).1 new) as H.
  { clear l x. intros l. induction l as [|e l IH]; intros x acc; cbn [foldl]; [exists []; rewrite app_nil_r; by split; [|apply spends_same]|].
    unfold renewOne at 2 4. cbn [fst snd].
    pose proof (spends_enqueue now (mkClientFrame KSubscribe 0 (sb_nodeType e.2) (sb_key e.2) (sb_topic e.2) []) None true (eo_callTimeoutMs opts) 0 x) as He.
    destruct (enqueue _ _ _ _ _ _ x) as [r x1]. destruct (IH x1 (acc ++ [r])) as (new & E1 & H1). exists (r :: new).
    rewrite E1, <- app_assoc. split; [done|]. by apply (spends_trans x x1 _ [r] new). }
  destruct (H l x []) as (new & E & Hs). by rewrite E.
Qed.

Lemma spends_onOpen now gen x known :
  framed x → id_ok (rid_ (requests x)) → gen_of x gen → (∀ k, k ∈ (pending x).*1 → k ∈ known) → NoDup (pending x).*1 →
  match onOpen opts now gen x with None => True | Some (y, _, ids) => NoDup (known ++ ids) → spends x y ids end.
Proof.
  intros Hf Hr Hg Hk Hn. unfold onOpen. destruct (negb (gen =? gen_ (link x)) || closed_ (link x)) eqn:E; [done|].
  apply orb_false_elim in E as [E%negb_false_iff%Z.eqb_eq _]. pose proof (proj1 (proj1 Hg)) as Hg1. rewrite E in Hg1.
  set (x1 := set_retry _ _). assert (requests (failWaiters Ok x1).1 = requests x ∧ gen_ (link (failWaiters Ok x1).1) = gen_ (link x)) as [E1 E2] by done.
  destruct (failWaiters Ok x1) as [x2 run]. cbn [fst] in E1, E2. clear x1.
  assert (∀ y ids, spends x2 y ids → gen_ (link y) = gen_ (link x2) → NoDup (pending y).*1 →
    spends x (foldl (λ x rid, sendLocked rid x) y (waiting y)) ids) as Hs.
  { intros y ids Hy Eg Hny. destruct (waiting_look y Hny) as [W1 W2].
    assert (spends x y ids) as Hxy by (apply (spends_trans x x2 _ [] ids); [by apply spends_same|done]).
    rewrite <- (app_nil_r ids). apply (spends_trans x y); [done|]. apply spends_evolves; [apply sendAll_rid|apply evolves_sendAll|].
    apply spent_sendAll; [by apply (sp_framed _ _ _ Hxy)|lia|done|done]. }
  assert (pending x2 = pending x) as Ep by (unfold pending; by rewrite E1).
  destruct (everOpened_ (link x)).
  - destruct (renew_rest opts now x2) as (E3 & _). pose proof (spends_renew now x2) as H3. pose proof (grows_renew opts now x2) as Hgr.
    destruct (renew opts now x2) as [x3 ids]. cbn [fst snd] in *. intros Hd. apply Hs; [done|by rewrite E3|].
    eapply grows_NoDup; [exact Hgr|rewrite Ep; exact Hk|exact Hd|by rewrite Ep].
  - intros _. apply Hs; [by apply spends_same|done|by rewrite Ep].
Qed.

Lemma spends_onReply now draw gen r rep x :
  state_ok opts x → framed x → match onReply opts now draw gen r rep x with None => True | Some (y, _, _) => spends x y [] end.
Proof.
  intros H Hf. unfold onReply. destruct (look r (pending x)) as [p|] eqn:E; cbn [mbind option_bind]; [|done].
  destruct (bool_decide (er_status rep = Moved) && bool_decide (cf_kind (pd_frame p) = KCall) && negb (pd_retried p) && eo_reconnect opts) eqn:Ec.
  2: { apply spends_pending; [apply evolves_erase|apply spent_erase]. }
  apply andb_prop in Ec as [[[_ E1]%andb_prop E2]%andb_prop E3].
  assert (evolves (pending x) (change r again (pending x))) as He by (apply evolves_change; intros; apply grown_again).
  set (x1 := set_pending _ x).
  assert (spends x x1 []) as H1.
  { apply spends_pending; [done|]. eapply spent_again; [done|]. unfold goesAgain. by rewrite E1, E2, E3. }
  assert (∃ q, look r (pending x1) = Some q ∧ pd_gen q = 0) as (q & Eq & Hq).
  { exists (again p). split; [|done]. subst x1. cbn. clear -E. induction (pending x) as [|[k v] l IH]; [done|].
    cbn in *. case_decide; cbn; [rewrite decide_True by done; congruence|]. rewrite decide_False by done. auto. }
  assert (framed x1) as Hf1 by (by apply (framed_evolves x)).
  assert (link x1 = link x) as El by done. clearbody x1.
  destruct (_ && _); [|destruct (isOpen x1) eqn:Ho; [|done]].
  - pose proof (spends_lose now draw (mkExecReply Unavailable (chars "the connection moved to another host")) true x1) as H2.
    destruct (loseLocked _ _ _ _ _ x1). by apply (spends_trans x x1 _ [] []).
  - apply (spends_trans x x1 _ [] [] H1). eapply spends_sendLocked; [done| |done..]. rewrite El. apply open_gen; [done|].
    unfold isOpen in *. by rewrite El in Ho.
Qed.

Lemma spends_onFrame now draw gen f x :
  state_ok opts x → framed x → match onFrame opts now draw gen f x with None => True | Some (y, _, _) => spends x y [] end.
Proof.
  intros H Hf. unfold onFrame. destruct (isClosed x); [done|]. destruct (sf_kind f); [by apply spends_onReply| |by apply spends_onReply].
  destruct (look _ (subs_ _)); cbn; [by apply spends_same|done].
Qed.

Lemma spends_onLost now draw gen why x : spends x (onLost opts now draw gen why x).1 [].
Proof. unfold onLost. destruct (_ || _); [by apply spends_same|]. apply spends_lose. Qed.

Lemma spends_accessEnded gen reason x : spends x (onAccessEndedClose gen reason x).1 [].
Proof.
  unfold onAccessEndedClose. destruct (_ || _); [by apply spends_same|]. cbn [failAllLocked failWaiters fst].
  match goal with |- spends _ (set_waiters [] (set_pending [] ?y)) _ => apply (spends_trans _ y _ [] []); [by apply spends_same|];
    apply (spends_trans _ (set_pending [] y) _ [] []) end; [apply spends_failAll|by apply spends_same].
Qed.

Lemma spends_close x : spends x (close x).1.1 [].
Proof.
  unfold close. destruct (isClosed x); [by apply spends_same|]. cbn [failAllLocked failWaiters fst].
  match goal with |- spends _ (set_waiters [] (set_pending [] ?y)) _ => apply (spends_trans _ y _ [] []); [by apply spends_same|];
    apply (spends_trans _ (set_pending [] y) _ [] []) end; [apply spends_failAll|by apply spends_same].
Qed.

Lemma spends_onEndpoint now draw created found refused x : spends x (onEndpoint opts now draw created found refused x).1.1 [].
Proof.
  unfold onEndpoint. destruct (isClosed x); [by apply spends_same|].
  destruct found as [e|code]; [destruct refused as [why|]; [|destruct created; [by apply spends_same|]]|];
    match goal with |- context [attemptFailedLocked _ _ _ ?c ?w ?y] =>
      pose proof (spends_attemptFailed now draw c w y) as H; destruct (attemptFailedLocked _ _ _ c w y); cbn [fst] in *;
      apply (spends_trans x y _ [] []); [by apply spends_same|exact H] end.
Qed.

Lemma spends_timerTick now x : spends x (timerTick opts now x).1 [].
Proof.
  unfold timerTick. destruct (isClosed x); [by apply spends_same|].
  assert (spends x (set_pending (List.filter (λ e, now <? pd_deadline e.2) (pending x)) x) []) as H1.
  { apply spends_pending; [apply evolves_filter|apply spent_filter]. }
  destruct (_ && _); [|done]. cbn [beginDialLocked fst]. apply (spends_trans _ _ _ [] [] H1). by apply spends_same.
Qed.

Lemma dropHandler_requests h tell x : requests (dropHandler h tell x).1 = requests x.
Proof. unfold dropHandler. repeat (case_match; try done). Qed.

(** ** Written, wherever it is *)

Definition inTask (t : Task) : nat := match t with TSend _ b => written b | _ => 0 end.
Definition inLog (n : Notice) : nat := match n with NSend _ b => written b | _ => 0 end.

Lemma sends_deliver run : total inTask (deliver run) = 0%nat.
Proof. apply total_zero. by intros t (j & -> & _)%list_elem_of_fmap. Qed.
Lemma sends_closing ws : total inTask (closing ws) = 0%nat.
Proof. by destruct ws. Qed.
Lemma sends_sent ws frames : (total inTask (sent ws frames) ≤ total written frames)%nat.
Proof. destruct ws; cbn [sent]; [by rewrite total_fmap|rewrite total_nil; lia]. Qed.
Lemma sends_rids ids : total inLog (NRid <$> ids) = 0%nat.
Proof. apply total_zero. by intros t (j & -> & _)%list_elem_of_fmap. Qed.

Lemma number_NoDup (l : list Z) : NoDup l → (number (λ r, (r =? rid)%Z) l ≤ 1)%nat.
Proof.
  induction 1 as [|r l Hr _ IH]; [rewrite number_nil; lia|]. rewrite number_cons. destruct (Z.eqb_spec r rid) as [->|]; [|lia].
  assert (number (λ r, (r =? rid)%Z) l = 0%nat) as ->; [|lia]. clear IH. induction l as [|r l IH]; [done|]. rewrite number_cons.
  destruct (Z.eqb_spec r rid) as [->|]; [by destruct Hr; left|]. apply IH. intros H. apply Hr. by right.
Qed.

(** A task writes within what there was. *)
Record pays (t : Task) (x y : Exec) (next : list Task) (ns : list Notice) : Prop := {
  py_ids : id_ok (rid_ (requests x)) → id_ok (rid_ (requests y)) ∧ Forall id_ok (rids ns);
  py_framed : id_ok (rid_ (requests x)) → framed x → framed y;
  py_spent : (spent y + total inTask next + total inLog ns ≤ spent x + inTask t + limit * number (λ r, (r =? rid)%Z) (rids ns))%nat }.

Lemma pays_spends t x y next ns :
  spends x y (rids ns) → total inTask next = 0%nat → total inLog ns = 0%nat → pays t x y next ns.
Proof. intros [I F S] Hn Hl. constructor; [done..|]. lia. Qed.

Lemma pays_same t x y next ns :
  requests y = requests x → rids ns = [] → (total inTask next + total inLog ns ≤ inTask t)%nat → pays t x y next ns.
Proof.
  intros E Er H. destruct (spends_same x y E) as [I F S]. constructor; rewrite ?Er; [done..|]. lia.
Qed.

Ltac sums := repeat first [rewrite total_app | rewrite total_cons | rewrite total_nil | rewrite sends_deliver | rewrite sends_closing
  | rewrite sends_rids | rewrite rids_fmap]; cbn [inTask inLog].

Lemma onEvent_pays g gen ev x x' next ns known :
  onEvent opts g gen ev x = Some (x', next, ns) → state_ok opts x → framed x → id_ok (rid_ (requests x)) → gen_of x gen →
  (∀ k, k ∈ (pending x).*1 → k ∈ known) → NoDup (pending x).*1 → NoDup (known ++ rids ns) →
  pays (TEvent gen ev) x x' next ns.
Proof.
  intros E H Hf Hr Hg Hk Hn Hd.
  assert (∀ why, (let '(x, run) := onLost opts (gv_now g) (gv_draw g) gen why x in Some (x, deliver run, [])) = Some (x', next, ns) →
    pays (TEvent gen ev) x x' next ns) as Hlost.
  { intros why E'. pose proof (spends_onLost (gv_now g) (gv_draw g) gen why x) as Ht.
    destruct (onLost _ _ _ _ _ x) as [y run]. simplify_eq. apply pays_spends; [exact Ht|by sums..]. }
  destruct ev as [|[] payload|code reason|status body text]; cbn [onEvent] in E.
  - pose proof (spends_onOpen (gv_now g) gen x known Hf Hr Hg Hk Hn) as Ht. destruct (onOpen _ _ _ x) as [[[y run] ids]|]; simplify_eq.
    + rewrite rids_fmap in Hd. apply pays_spends; [rewrite rids_fmap; by apply Ht|by sums..].
    + by apply pays_same.
  - apply bind_Some in E as (d & _ & E). destruct d as [f|]; [|simplify_eq; by apply pays_same].
    pose proof (spends_onFrame (gv_now g) (gv_draw g) gen f x H Hf) as Ht.
    destruct (onFrame _ _ _ _ f x) as [[[y run] from]|]; simplify_eq; [|by apply pays_same]. apply pays_spends; [exact Ht|by sums..].
  - simplify_eq. by apply pays_same.
  - destruct (code =? kExecCloseAccessEnded); [|by eapply Hlost].
    pose proof (spends_accessEnded gen reason x) as Ht. destruct (onAccessEndedClose gen reason x) as [y run]. simplify_eq.
    apply pays_spends; [exact Ht|by sums..].
  - by eapply Hlost.
Qed.

Lemma perform_pays g t x x' next ns known :
  performTask opts g t x = Some (x', next, ns) → state_ok opts x → framed x → id_ok (rid_ (requests x)) → task_gen x t →
  (∀ k, k ∈ (pending x).*1 → k ∈ known) → NoDup (pending x).*1 → NoDup (known ++ rids ns) →
  pays t x x' next ns.
Proof.
  intros E H Hf Hr Hg Hk Hn Hd.
  destruct t as [w|f done internal ms|nt key topic q|h tell| | |id| | |found|e|found refused|gen|gen ev| |at_| | |ws b|ws|j|j|q r| |j|];
    cbn [performTask] in E.
  - pose proof (spends_connect w x) as Ht. destruct (connect w x). simplify_eq. apply pays_spends; [exact Ht|by sums..].
  - pose proof (spends_request (gv_now g) f done internal ms x H Hf Hr) as Ht. destruct (request _ _ _ _ _ _ x) as [[y run] ids] eqn:Eq.
    simplify_eq. rewrite rids_fmap in Hd. apply pays_spends; [rewrite rids_fmap|by sums..]. apply Ht. intros Hc. apply look_None. intros Hin%Hk.
    pose proof (request_ids opts (gv_now g) f done internal ms x Hc) as Hi. rewrite Eq in Hi. cbn [snd] in Hi. rewrite Hi in Hd.
    apply list.NoDup_app in Hd as (_ & Hd & _). apply (Hd _ Hin). by left.
  - cbn in E. simplify_eq. apply pays_same; [done..|]. destruct (bool_decide _), q; sums; lia.
  - pose proof (dropHandler_requests h tell x) as Ht. destruct (dropHandler h tell x) as [y unsub]. simplify_eq. apply pays_same; [done..|].
    destruct unsub; sums; lia.
  - simplify_eq. by apply pays_same.
  - simplify_eq. by apply pays_same.
  - simplify_eq. by apply pays_same.
  - simplify_eq. by apply pays_same.
  - pose proof (spends_close x) as Ht. destruct (close x) as [[y ws] run]. simplify_eq. apply pays_spends; [exact Ht|by sums..].
  - simplify_eq. apply pays_same; [done..|]. destruct found; [destruct (pinned_ x')|]; sums; lia.
  - apply bind_Some in E as (refused & _ & E). simplify_eq. apply pays_same; [done..|]. sums. lia.
  - pose proof (spends_onEndpoint (gv_now g) (gv_draw g) (gv_created g) found refused x) as Ht.
    destruct (onEndpoint _ _ _ _ _ _ x) as [[y run] made]. simplify_eq. apply pays_spends; [by destruct made|by destruct made; sums..].
  - simplify_eq. by apply pays_same.
  - by eapply onEvent_pays.
  - simplify_eq. apply pays_same; [done..|]. destruct (isClosed x'); sums; lia.
  - pose proof (spends_timerTick (gv_now g) x) as Ht. destruct (timerTick _ _ x) as [y run]. simplify_eq. apply pays_spends; [exact Ht|by destruct (isClosed x); sums..].
  - simplify_eq. apply pays_same; [done..|]. sums. lia.
  - cbn in E. simplify_eq. constructor; [by intros; split|done|]. sums. cbn [rids mbind list_bind]. rewrite number_nil.
    pose proof (sends_sent (ws_ (link x)) (toSend_ (requests x))). unfold spent, pending. cbn. rewrite total_nil. lia.
  - simplify_eq. apply pays_same; [done..|]. sums. lia.
  - simplify_eq. by apply pays_same.
  - destruct (posted_ x) as [q|]; simplify_eq; [|by apply pays_same]. apply pays_same; [done|by destruct (qu_closed q)|]. destruct (qu_closed q); sums; lia.
  - destruct j as [w st|[q|h q] r| | | |]; cbn in E; simplify_eq; apply pays_same; try done. destruct (execReplyOk r), q; sums; lia.
  - simplify_eq. by apply pays_same.
  - destruct (posted_ x) as [q|]; [destruct (swapJobs q) as [js q']|]; simplify_eq; [|by apply pays_same]. apply pays_same; [done..|].
    rewrite (total_zero inTask); [sums; lia|]. by intros t (j & -> & _)%list_elem_of_fmap.
  - destruct (posted_ x) as [q|]; [destruct (qu_closed q)|]; simplify_eq; by apply pays_same.
  - destruct (posted_ x) as [q|]; simplify_eq; [|by apply pays_same]. apply pays_same; [done|apply rids_none, Forall_fmap, Forall_true; by intros j|].
    rewrite (total_zero inLog); [sums; lia|]. by intros t (j & -> & _)%list_elem_of_fmap.
Qed.
End Spent.

(** ** The bound *)

Definition paid (x : Exec) (ts : list Task) (log : list Notice) : Prop :=
  live opts x ts log ∧ requests_kept x ts log ∧
  (NoDup (rids log) → id_ok (rid_ (requests x)) ∧ Forall id_ok (rids log) ∧ framed x ∧
    ∀ call rid, id_ok rid →
      (spent call rid x + total (inTask call rid) ts + total (inLog call rid) log ≤ limit call * number (λ r, (r =? rid)%Z) (rids log))%nat).

Lemma paid_perform g t x ts log x' next ns :
  paid x (t :: ts) log → performTask opts g t x = Some (x', next, ns) → NoDup (rids log ++ rids ns) →
  id_ok (rid_ (requests x')) ∧ Forall id_ok (rids log ++ rids ns) ∧ framed x' ∧
  ∀ call rid, id_ok rid →
    (spent call rid x' + total (inTask call rid) (next ++ ts) + total (inLog call rid) (log ++ ns) ≤
     limit call * number (λ r, (r =? rid)%Z) (rids log ++ rids ns))%nat.
Proof.
  intros ([Hso [Htg _]%Forall_cons_1 _ _ _ _] & (Hreq & _ & Hnd) & Hp) E Hn.
  pose proof (proj1 (proj1 (list.NoDup_app _ _) Hn)) as Hn1. destruct (Hp Hn1) as (Hi & Hg & Hf & Hs). specialize (Hnd Hn1).
  assert (∀ call rid, id_ok rid → pays call rid t x x' next ns) as Hpay.
  { intros call rid Hr. eapply (perform_pays _ _ Hr _ _ _ _ _ _ (rids log)); [exact E|done..| |done|done].
    intros k. by apply keys_known with (P := λ e, unattended e.2). }
  assert (id_ok 1) as H1 by done. destruct (Hpay true 1 H1) as [Ii If _]. destruct (Ii Hi) as [Hi' Hg']. split_and!; [done|by apply Forall_app_2|auto|].
  intros call rid Hr. specialize (Hs call rid Hr). destruct (Hpay call rid Hr) as [_ _ S].
  rewrite total_cons in Hs. rewrite !total_app, number_app. lia.
Qed.

Lemma paid_kept good : kept (G := Given) good paid.
Proof.
  destruct (live_kept opts good) as [Lo Le Lp]. destruct (requests_kept_kept opts good) as [Ro Re Rp]. constructor.
  - intros x ts ts' log Hp (Hl & Hk & H). split_and!; [by eapply Lo|by eapply Ro|]. intros Hn. destruct (H Hn) as (? & ? & ? & Hs).
    split_and!; [done..|]. intros call rid Hr. rewrite <- Hp. auto.
  - intros t x ts log ns (Hl & Hk & H) E. split_and!; [by eapply Le|by eapply Re|]. destruct (enters_quiet _ _ _ _ E) as [E1 _].
    rewrite rids_app, E1, app_nil_r. intros Hn. destruct (H Hn) as (? & ? & ? & Hs). split_and!; [done..|]. intros call rid Hr.
    specialize (Hs call rid Hr). rewrite total_cons, total_app.
    assert (inTask call rid t = 0%nat ∧ total (inLog call rid) ns = 0%nat) as [-> ->]; [|lia].
    cbn in E. destruct t; cbn [entersTask] in E; repeat case_match; simplify_eq; done.
  - intros g t x ts log x' next ns (Hl & Hk & H) Hg E. split_and!; [by eapply Lp|by eapply Rp|].
    rewrite rids_app. exact (paid_perform g t x ts log x' next ns (conj Hl (conj Hk H)) E).
Qed.

(** C22. Whatever the threads, the dialer, the gateway and the timer do: the frame of a request is given
    to a socket at most once, and at most twice if it is a call and the connection reconnects (as
    long as no two requests were given the same 32-bit id): a call that was in flight is never
    repeated more than once, a subscription or a ping never. *)
Theorem exec_sends_bounded good dispatcher (s : Work Exec Task Notice) (call : bool) rid :
  reaches good (newExec opts dispatcher) s → NoDup (rids (wk_log s)) → rid ∈ rids (wk_log s) →
  (number (λ n, match n with NSend _ b => writes call rid b | _ => false end) (wk_log s) ≤ if call && eo_reconnect opts then 2 else 1)%nat.
Proof.
  intros Hr Hn Hin. apply (tasks_invariant good paid _ _ (paid_kept good)) in Hr as (_ & _ & H).
  - destruct (H Hn) as (_ & Hg & _ & Hs). rewrite list.Forall_forall in Hg. specialize (Hs call rid (Hg _ Hin)).
    assert (number (λ r, (r =? rid)%Z) (rids (wk_log s)) ≤ 1)%nat as Hone by by apply number_NoDup.
    assert (number (λ n, match n with NSend _ b => writes call rid b | _ => false end) (wk_log s) = total (inLog call rid) (wk_log s)) as ->.
    { clear. induction (wk_log s) as [|n log IH]; [done|]. rewrite number_cons, total_cons, IH. by destruct n. }
    unfold limit in Hs. destruct (call && eo_reconnect opts); cbn in *; lia.
  - unfold paid. split_and!.
    + apply live_new.
    + unfold requests_kept. destruct dispatcher; cbn; split_and!; repeat constructor.
    + intros _. split_and!; [done|by constructor|by constructor|]. intros call' rid' _.
      unfold spent. cbn. rewrite !total_nil. lia.
Qed.
End Sends.
