(* ===== verification/ExecPin.v ===== *)
(** * Where connect tokens go *)

From S2P Require Import Prelude Bytes Core Json Endpoint Tasks ExecWire ExecConn ExecSpec ExecLive.

Open Scope Z_scope.

#[local] Arguments chars : simpl never.

Section Pin.
Variable opts : ExecConnectOptions.
#[local] Hint Extern 0 (Worker Exec _ _ _) => exact (execWorker opts) : typeclass_instances.

(** ** The check of the gateway is kept on *)

Lemma pinned_sendLocked r x : pinned_ (sendLocked r x) = pinned_ x.
Proof. unfold sendLocked. destruct (look _ _); [|done]. by destruct (encode _). Qed.
Lemma pinned_sendAll ids x : pinned_ (foldl (λ x r, sendLocked r x) x ids) = pinned_ x.
Proof. revert x. induction ids as [|r ids IH]; intros x; [done|]. cbn. by rewrite IH, pinned_sendLocked. Qed.
Lemma pinned_ensureTimer x : pinned_ (ensureTimerLocked x) = pinned_ x.
Proof. unfold ensureTimerLocked. by destruct (_ || _). Qed.
Lemma pinned_schedule now d x : pinned_ (scheduleReconnectLocked now d x) = pinned_ x.
Proof. unfold scheduleReconnectLocked. by rewrite pinned_ensureTimer. Qed.
Lemma pinned_lose now draw why im x : pinned_ (loseLocked opts now draw why im x).1 = pinned_ x.
Proof.
  unfold loseLocked. set (x1 := if im then _ else _). assert (pinned_ x1 = pinned_ x) as <- by (by destruct im). clearbody x1.
  destruct (sweep _ _ _). destruct (_ && _); [done|]. destruct (eo_reconnect opts); [|done]. cbn [fst]. by rewrite pinned_schedule.
Qed.
Lemma pinned_attemptFailed now draw code why x : pinned_ (attemptFailedLocked opts now draw code why x).1 = pinned_ x.
Proof. unfold attemptFailedLocked. destruct (_ && _); [|done]. cbn. by rewrite pinned_schedule. Qed.
Lemma pinned_connect w x : pinned_ (connect w x).1 = pinned_ x.
Proof. unfold connect. destruct (isClosed x), (isOpen x); try done. by destruct w, (alone _). Qed.
Lemma pinned_request now f done internal ms x : pinned_ (request opts now f done internal ms x).1.1 = pinned_ x.
Proof.
  unfold request. destruct (isClosed x); [done|]. cbn. destruct (isOpen _); [|destruct (alone _)]; cbn; by rewrite pinned_ensureTimer, ?pinned_sendLocked.
Qed.
Lemma pinned_dropHandler h tell x : pinned_ (dropHandler h tell x).1 = pinned_ x.
Proof. unfold dropHandler. repeat (case_match; try done). Qed.
Lemma pinned_onEndpoint now draw created found refused x : pinned_ (onEndpoint opts now draw created found refused x).1.1 = pinned_ x.
Proof.
  unfold onEndpoint. destruct (isClosed x); [done|].
  destruct found as [e|code]; [destruct refused as [why|]; [|destruct created; [done|]]|];
    match goal with |- context [attemptFailedLocked _ _ _ ?c ?w ?y] =>
      pose proof (pinned_attemptFailed now draw c w y) as H; destruct (attemptFailedLocked _ _ _ c w y) end; exact H.
Qed.
Lemma pinned_renew now x : pinned_ (renew opts now x).1 = pinned_ x.
Proof.
  unfold renew. generalize (subs_ (topics x)). intros l. generalize (@nil Z) as acc. revert x.
  induction l as [|e l IH]; intros x acc; cbn [foldl]; [done|].
  destruct (renewOne opts now (x, acc) e) as [x1 acc1] eqn:E. rewrite IH. unfold renewOne, enqueue, nextRid in E. cbn [fst snd] in E. by simplify_eq.
Qed.
Lemma pinned_onOpen now gen x : match onOpen opts now gen x with None => True | Some (y, _, _) => pinned_ y = pinned_ x end.
Proof.
  unfold onOpen. destruct (_ || _); [done|]. set (x1 := set_retry _ _). assert (pinned_ (failWaiters Ok x1).1 = pinned_ x) as <- by done.
  destruct (failWaiters Ok x1) as [x2 run]. cbn [fst]. destruct (everOpened_ (link x)); [|by rewrite pinned_sendAll].
  pose proof (pinned_renew now x2) as H. destruct (renew opts now x2). cbn [fst] in H. by rewrite pinned_sendAll.
Qed.
Lemma pinned_onReply now draw gen r rep x :
  match onReply opts now draw gen r rep x with None => True | Some (y, _, _) => pinned_ y = pinned_ x end.
Proof.
  unfold onReply. destruct (look r (pending x)) as [p|]; cbn [mbind option_bind]; [|done]. destruct (_ && _ && _ && _); [|done].
  set (x1 := set_pending _ x). assert (pinned_ x1 = pinned_ x) as <- by done. clearbody x1.
  destruct (_ && _); [|destruct (isOpen x1); [by rewrite pinned_sendLocked|done]].
  match goal with |- context [loseLocked opts now draw ?why true x1] => pose proof (pinned_lose now draw why true x1) as H end.
  by destruct (loseLocked _ _ _ _ _ x1).
Qed.
Lemma pinned_onFrame now draw gen f x :
  match onFrame opts now draw gen f x with None => True | Some (y, _, _) => pinned_ y = pinned_ x end.
Proof. unfold onFrame. destruct (isClosed x); [done|]. destruct (sf_kind f); try apply pinned_onReply. by destruct (look _ _). Qed.
Lemma pinned_onLost now draw gen why x : pinned_ (onLost opts now draw gen why x).1 = pinned_ x.
Proof. unfold onLost. destruct (_ || _); [done|]. apply pinned_lose. Qed.
Lemma pinned_timerTick now x : pinned_ (timerTick opts now x).1 = pinned_ x.
Proof. unfold timerTick. destruct (isClosed x); [done|]. by destruct (_ && _). Qed.

Lemma pinned_onEvent g gen ev x x' next ns : onEvent opts g gen ev x = Some (x', next, ns) → pinned_ x' = pinned_ x.
Proof.
  intros E. assert (∀ why, (let '(x, run) := onLost opts (gv_now g) (gv_draw g) gen why x in Some (x, deliver run, [])) = Some (x', next, ns) →
    pinned_ x' = pinned_ x) as Hlost.
  { intros why E'. rewrite <- (pinned_onLost (gv_now g) (gv_draw g) gen why x). destruct (onLost _ _ _ _ _ x). by simplify_eq. }
  destruct ev as [|[] payload|code reason|status body text]; cbn [onEvent] in E.
  - pose proof (pinned_onOpen (gv_now g) gen x) as H. destruct (onOpen _ _ _ x) as [[[y run] ids]|]; by simplify_eq.
  - apply bind_Some in E as (d & _ & E). destruct d as [f|]; [|by simplify_eq].
    pose proof (pinned_onFrame (gv_now g) (gv_draw g) gen f x) as H. destruct (onFrame _ _ _ _ f x) as [[[y run] from]|]; by simplify_eq.
  - by simplify_eq.
  - destruct (code =? kExecCloseAccessEnded); [|by eapply Hlost]. unfold onAccessEndedClose in E. destruct (_ || _); cbn in E; by simplify_eq.
  - by eapply Hlost.
Qed.

Lemma pinned_perform g t x x' next ns : performTask opts g t x = Some (x', next, ns) → pinned_ x = true → pinned_ x' = true.
Proof.
  intros E H.
  destruct t as [w|f done internal ms|nt key topic q|h tell| | |id| | |found|e|found refused|gen|gen ev| |at_| | |ws b|ws|j|j|q r| |j|];
    cbn [performTask] in E.
  - rewrite <- (pinned_connect w x) in H. destruct (connect w x). by simplify_eq.
  - rewrite <- (pinned_request (gv_now g) f done internal ms x) in H. destruct (request _ _ _ _ _ _ x) as [[y run] ids]. by simplify_eq.
  - cbn in E. by simplify_eq.
  - rewrite <- (pinned_dropHandler h tell x) in H. destruct (dropHandler h tell x). by simplify_eq.
  - by simplify_eq.
  - by simplify_eq.
  - by simplify_eq.
  - by simplify_eq.
  - unfold close in E. destruct (isClosed x); cbn in E; by simplify_eq.
  - by simplify_eq.
  - apply bind_Some in E as (? & _ & E). by simplify_eq.
  - rewrite <- (pinned_onEndpoint (gv_now g) (gv_draw g) (gv_created g) found refused x) in H.
    destruct (onEndpoint _ _ _ _ _ _ x) as [[y run] made]. by simplify_eq.
  - by simplify_eq.
  - by rewrite (pinned_onEvent _ _ _ _ _ _ _ E).
  - by simplify_eq.
  - rewrite <- (pinned_timerTick (gv_now g) x) in H. destruct (timerTick _ _ x). by simplify_eq.
  - by simplify_eq.
  - cbn in E. by simplify_eq.
  - by simplify_eq.
  - by simplify_eq.
  - destruct (posted_ x); by simplify_eq.
  - destruct (runJob j). by simplify_eq.
  - by simplify_eq.
  - destruct (posted_ x) as [q|]; [destruct (swapJobs q)|]; by simplify_eq.
  - destruct (posted_ x) as [q|]; [destruct (qu_closed q)|]; by simplify_eq.
  - destruct (posted_ x) as [q|]; by simplify_eq.
Qed.

(** ** Only judged gateways *)

Variable api : bytes.
Definition api_given (g : Given) : Prop := gv_apiUrl g = api.
Definition passes (e : ExecEndpoint) : Prop := execGatewayRefusal api (ee_gatewayUrl e) = Some None.

Definition task_judged (t : Task) : Prop := match t with TEndpoint (Val e) None => passes e | _ => True end.
Definition socket_judged (n : Notice) : Prop :=
  match n with NCreate _ url => ∃ e, url = connectUrl e ∧ passes e | _ => True end.

Lemma judged_passes e : judged api e = Some None → passes e.
Proof. unfold judged, passes. destruct (execGatewayRefusal _ _) as [[|]|]; done. Qed.

Lemma no_endpoints ts : Forall (λ t, match t with TEndpoint _ _ => False | _ => True end) ts → Forall task_judged ts.
Proof. apply List.Forall_impl. by intros []. Qed.
Lemma no_sockets ns : Forall (λ n, match n with NCreate _ _ => False | _ => True end) ns → Forall socket_judged ns.
Proof. apply List.Forall_impl. by intros []. Qed.

Lemma endpoint_made now draw created found refused x y run m :
  onEndpoint opts now draw created found refused x = (y, run, Some m) → ∃ e, found = Val e ∧ refused = None ∧ m.2 = connectUrl e.
Proof.
  unfold onEndpoint. destruct (isClosed x); [done|].
  destruct found as [e|code]; [destruct refused as [why|]; [|destruct created]|];
    try (match goal with |- context [attemptFailedLocked _ _ _ ?c ?w ?z] => destruct (attemptFailedLocked _ _ _ c w z) end; done).
  intros [= <- <- <-]. by exists e.
Qed.

Lemma judged_deliver run : Forall task_judged (deliver run).
Proof. apply Forall_fmap, Forall_true. by intros j. Qed.
Lemma judged_sent ws frames : Forall task_judged (sent ws frames).
Proof. destruct ws; [|done]. apply Forall_fmap, Forall_true. by intros j. Qed.
Lemma judged_closing ws : Forall task_judged (closing ws).
Proof. destruct ws; [|done]. by apply Forall_cons_2. Qed.
Lemma judged_rids ids : Forall socket_judged (NRid <$> ids).
Proof. apply Forall_fmap, Forall_true. by intros j. Qed.
#[local] Hint Resolve judged_deliver judged_sent judged_closing judged_rids Forall_app_2 Forall_cons_2 Forall_nil_2 I : core.

Lemma onEvent_judged g gen ev x x' next ns :
  onEvent opts g gen ev x = Some (x', next, ns) → Forall task_judged next ∧ Forall socket_judged ns.
Proof.
  intros E. destruct ev as [|[] payload|code reason|status body text]; cbn [onEvent] in E.
  - destruct (onOpen _ _ _ x) as [[[y run] ids]|]; simplify_eq; split; auto. by apply Forall_cons_2.
  - apply bind_Some in E as (d & _ & E). destruct d as [f|]; [|by simplify_eq].
    destruct (onFrame _ _ _ _ f x) as [[[y run] from]|]; simplify_eq; split; auto. apply Forall_app_2; [done|]. by apply Forall_cons_2.
  - by simplify_eq.
  - destruct (code =? kExecCloseAccessEnded); [destruct (onAccessEndedClose gen reason x)|destruct (onLost _ _ _ _ _ x)]; simplify_eq; auto.
  - destruct (onLost _ _ _ _ _ x); simplify_eq; auto.
Qed.

Lemma perform_judged g t x x' next ns :
  performTask opts g t x = Some (x', next, ns) → api_given g → pinned_ x = true → task_judged t →
  Forall task_judged next ∧ Forall socket_judged ns.
Proof.
  intros E Hapi Hp Ht.
  destruct t as [w|f done internal ms|nt key topic q|h tell| | |id| | |found|e|found refused|gen|gen ev| |at_| | |ws b|ws|j|j|q r| |j|];
    cbn [performTask] in E.
  - destruct (connect w x); simplify_eq; auto.
  - destruct (request _ _ _ _ _ _ x) as [[y run] ids]; simplify_eq; split; auto.
  - cbn in E. simplify_eq. destruct (bool_decide _), q; auto.
  - destruct (dropHandler h tell x) as [y unsub]. simplify_eq. destruct unsub; auto.
  - by simplify_eq.
  - by simplify_eq.
  - by simplify_eq.
  - by simplify_eq.
  - destruct (close x) as [[y ws] run]; simplify_eq; split; auto.
  - simplify_eq. rewrite Hp. destruct found; split; auto.
  - apply bind_Some in E as (refused & Hj & E). rewrite Hapi in Hj. simplify_eq. split; [|done]. apply Forall_cons_2; [|done].
    destruct refused; [done|]. by apply judged_passes.
  - pose proof (endpoint_made (gv_now g) (gv_draw g) (gv_created g) found refused x) as H.
    destruct (onEndpoint _ _ _ _ _ _ x) as [[y run] made]. simplify_eq. destruct made as [m|]; [|split; auto].
    destruct (H _ _ _ eq_refl) as (e & -> & -> & Hm). split; [apply Forall_app_2; [auto|by apply Forall_cons_2]|]. apply Forall_cons_2; [|done].
    exists e. by split.
  - simplify_eq. split; auto.
  - by eapply onEvent_judged.
  - simplify_eq. split; [destruct (isClosed x'); auto|auto].
  - destruct (timerTick _ _ x); simplify_eq; split; [|auto]. apply Forall_app_2; [auto|]. destruct (isClosed x); [done|by apply Forall_cons_2].
  - simplify_eq. auto.
  - cbn in E. simplify_eq. split; auto.
  - simplify_eq. split; auto.
  - simplify_eq. split; auto.
  - destruct (posted_ x) as [q|]; simplify_eq; split; auto. destruct (qu_closed q); auto.
  - destruct j as [w st|[q|h q] r| | | |]; cbn in E; simplify_eq; split; auto.
    apply Forall_app_2; [destruct (execReplyOk r); auto|destruct q; auto].
  - simplify_eq. split; auto.
  - destruct (posted_ x) as [q|]; [destruct (swapJobs q)|]; simplify_eq; (split; [|auto]); [|auto]. apply Forall_fmap, Forall_true. by intros j.
  - destruct (posted_ x) as [q|]; [destruct (qu_closed q)|]; simplify_eq; split; auto.
  - destruct (posted_ x) as [q|]; simplify_eq; (split; [auto|]); [|auto]. apply Forall_fmap, Forall_true. by intros j.
Qed.

Definition all_judged (x : Exec) (ts : list Task) (log : list Notice) : Prop :=
  pinned_ x = true ∧ Forall task_judged ts ∧ Forall socket_judged log.

Lemma all_judged_kept : kept (G := Given) api_given all_judged.
Proof.
  constructor.
  - intros x ts ts' log Hp (H1 & H2 & H3). split_and!; [done|by rewrite <- Hp|done].
  - intros t x ts log ns (H1 & H2 & H3) E. cbn in E. split_and!; [done|apply Forall_cons_2; [|done]|apply Forall_app_2; [done|]];
      destruct t; cbn [entersTask] in E; repeat case_match; simplify_eq; try done; by apply Forall_cons_2.
  - intros g t x ts log x' next ns (H1 & [Ht H2]%Forall_cons_1 & H3) Hg E.
    destruct (perform_judged _ _ _ _ _ _ E Hg H1 Ht) as [H4 H5].
    split_and!; [exact (pinned_perform g t x x' next ns E H1)|by apply Forall_app_2..].
Qed.

(** C23. When the gateways are checked against the Game API, every socket the connection opens, the
    first and every reconnect, with its token in the URL, is to an endpoint whose gateway passed
    the check. *)
Theorem exec_dials_pinned dispatcher (s : Work Exec Task Notice) gen url :
  reaches api_given (set_pinned true (newExec opts dispatcher)) s → NCreate gen url ∈ wk_log s →
  ∃ e, url = connectUrl e ∧ execGatewayRefusal api (ee_gatewayUrl e) = Some None.
Proof.
  intros Hr Hin. apply (tasks_invariant api_given all_judged _ _ all_judged_kept) in Hr as (_ & _ & H); [|done].
  rewrite list.Forall_forall in H. exact (H _ Hin).
Qed.

End Pin.
