(* ===== verification/ExecLate.v ===== *)
(** * Late requests

    The timer thread: there is one, its turns come one after the other, and the turn that ends
    after a request's deadline answers it. *)

From S2P Require Import Prelude Bytes Core Json Endpoint Tasks ExecWire ExecConn ExecSpec ExecLive.

Open Scope Z_scope.

#[local] Arguments chars : simpl never.

Section Late.
Variable opts : ExecConnectOptions.
#[local] Hint Extern 0 (Worker Exec _ _ _) => exact (execWorker opts) : typeclass_instances.

(** ** One turn at a time *)

Definition inTurn (t : Task) : bool := match t with TTick | TWake _ | TTurned => true | _ => false end.

Definition elsewhere (t : Task) : Prop := inTurn t = false.
Definition unturned (n : Notice) : Prop := isTurn n = false ∧ isTurned n = false.

Create HintDb turns.

Lemma elsewhere_deliver run : Forall elsewhere (deliver run).
Proof. apply Forall_fmap, Forall_true. by intros j. Qed.
Lemma elsewhere_sent ws frames : Forall elsewhere (sent ws frames).
Proof. destruct ws; [|done]. apply Forall_fmap, Forall_true. by intros j. Qed.
Lemma elsewhere_closing ws : Forall elsewhere (closing ws).
Proof. destruct ws; [|done]. by apply Forall_cons_2. Qed.
Lemma elsewhere_polled js : Forall elsewhere (TPolled <$> js).
Proof. apply Forall_fmap, Forall_true. by intros j. Qed.
Lemma unturned_rids ids : Forall unturned (NRid <$> ids).
Proof. apply Forall_fmap, Forall_true. by intros j. Qed.
Lemma unturned_dropped js : Forall unturned (NDropped <$> js).
Proof. apply Forall_fmap, Forall_true. by intros j. Qed.
#[local] Hint Resolve elsewhere_deliver elsewhere_sent elsewhere_closing elsewhere_polled unturned_rids unturned_dropped : turns.

(** A task that is no part of a turn begins and ends none. *)
Lemma perform_elsewhere g t x x' next ns :
  performTask opts g t x = Some (x', next, ns) → inTurn t = false → Forall elsewhere next ∧ Forall unturned ns.
Proof.
  intros E Ht.
  destruct t; try done; cbn [performTask] in E; unfold onEvent in E;
    try match goal with j : Job |- _ => destruct j as [? ?|[?|? ?] ?| | | |]; cbn [runJob] in E end;
    repeat match type of E with
    | context [let '(_, _) := ?c in _] => destruct c
    | (match ?c with _ => _ end) = _ => destruct c
    | (_ ≫= _) = Some _ => apply bind_Some in E as (? & _ & E)
    end; simplify_eq;
    repeat match goal with |- context [match ?c with _ => _ end] => destruct c end;
    split; repeat first [apply Forall_app_2 | apply Forall_cons_2 | apply Forall_nil_2 | done | by auto with turns].
Qed.

Lemma number_elsewhere ts : Forall elsewhere ts → number inTurn ts = 0%nat.
Proof. induction 1 as [|t ts Ht _ IH]; [done|]. by rewrite number_cons, Ht, IH. Qed.
Lemma number_unturned ns : Forall unturned ns → number isTurn ns = 0%nat ∧ number isTurned ns = 0%nat.
Proof. induction 1 as [|n ns [H1 H2] _ [IH1 IH2]]; [done|]. by rewrite !number_cons, H1, H2, IH1, IH2. Qed.

Lemma perform_turns g t x x' next ns :
  performTask opts g t x = Some (x', next, ns) → isClosed x = false →
  (number inTurn next + number isTurned ns = tally (inTurn t))%nat ∧ number isTurn ns = 0%nat.
Proof.
  intros E Hc. destruct (inTurn t) eqn:Ht.
  - destruct t; try done; cbn [performTask] in E.
    + rewrite Hc in E. by simplify_eq.
    + destruct (timerTick _ _ x) as [y run]. rewrite Hc in E. simplify_eq.
      by rewrite number_app, (number_elsewhere _ (elsewhere_deliver run)).
    + by simplify_eq.
  - destruct (perform_elsewhere _ _ _ _ _ _ E Ht) as [->%number_elsewhere [-> ->]%number_unturned]. done.
Qed.

(** Every turn that began is over or on some thread, and at most one is. *)
Definition one_turn (x : Exec) (ts : list Task) (log : list Notice) : Prop :=
  live opts x ts log ∧
  (isClosed x = false → number isTurn log = (number isTurned log + number inTurn ts)%nat ∧ (number inTurn ts ≤ 1)%nat).

Lemma enters_turn t x log ns :
  entersTask t x log = Some ns →
  number isTurned ns = 0%nat ∧ number isTurn ns = tally (inTurn t) ∧
  (inTurn t = true → number isTurn log = number isTurned log).
Proof.
  intros E. destruct t; cbn [entersTask] in E; repeat case_match; simplify_eq; try done.
  match goal with H : _ && _ = true |- _ => apply andb_prop in H as [_ H%Nat.eqb_eq]; done end.
Qed.

Lemma one_turn_kept good : kept (G := Given) good one_turn.
Proof.
  destruct (live_kept opts good) as [Lo Le Lp]. constructor.
  - intros x ts ts' log Hp (Hl & Ht). split; [by eapply Lo|]. by rewrite <- Hp.
  - intros t x ts log ns (Hl & Ht) E. split; [by eapply Le|]. intros Hc. destruct (Ht Hc) as [H1 H2].
    destruct (enters_turn _ _ _ _ E) as (E1 & E2 & E3). rewrite !number_app, number_cons, E1, E2.
    destruct (inTurn t); cbn; [specialize (E3 eq_refl)|]; lia.
  - intros g t x ts log x' next ns (Hl & Ht) Hg E. split; [by eapply Lp|]. intros Hc.
    assert (isClosed x = false) as Hx.
    { pose proof (live_moves _ _ _ _ _ _ _ _ _ Hl E) as Hm. destruct (isClosed x) eqn:E'; [|done]. by rewrite (mv_closed _ _ Hm E') in Hc. }
    destruct (Ht Hx) as [H1 H2]. destruct (perform_turns _ _ _ _ _ _ E Hx) as [E1 E2].
    rewrite !number_app, E2. rewrite number_cons in H1, H2. unfold tally in E1. lia.
Qed.

(** ** Deadlines *)

(** All requests have until [T] at least. *)
Definition until (T : Z) (x : Exec) : Prop := Forall (λ e, T ≤ pd_deadline e.2) (pending x).

Lemma until_evolves T x y : evolves (pending x) (pending y) → until T x → until T y.
Proof.
  unfold until. rewrite !list.Forall_forall. intros He Hu [k e'] Hin.
  destruct (evolves_In _ _ _ _ He Hin) as (e & Hin' & Hg). cbn. rewrite (gr_deadline _ _ Hg). apply (Hu _ Hin').
Qed.

Lemma until_enqueue T now frame done internal wait ms x :
  T ≤ now → 0 ≤ wait → until T x → until T (enqueue now frame done internal wait ms x).2.
Proof.
  unfold until, enqueue, nextRid, pending. cbn. rewrite !list.Forall_forall. intros Hn Hw Hu e [->|Hin]%emplace_keys; cbn; [lia|by apply Hu].
Qed.

Hypothesis Htimeout : 0 ≤ eo_callTimeoutMs opts.

Lemma until_request T now frame done internal ms x :
  T ≤ now → until T x → until T (request opts now frame done internal ms x).1.1.
Proof.
  intros Hn Hu. unfold request. destruct (isClosed x); [done|]. set (wait := if 0 <? ms then ms else _).
  assert (0 ≤ wait) as Hw by (unfold wait; destruct (Z.ltb_spec 0 ms); lia).
  pose proof (until_enqueue T now frame done internal wait wait x Hn Hw Hu) as H. destruct (enqueue _ _ _ _ _ _ x) as [rid x1]. cbn [snd] in H.
  assert (∀ y, evolves (pending x1) (pending y) → until T (ensureTimerLocked y)) as Hend.
  { intros y Hy. unfold until. rewrite pending_ensureTimer. by eapply until_evolves. }
  destruct (isOpen x1); [|destruct (alone x1)]; apply Hend; [apply evolves_sendLocked|apply evolves_refl..].
Qed.

Lemma until_onOpen T now gen x :
  T ≤ now → until T x → match onOpen opts now gen x with None => True | Some (y, _, _) => until T y end.
Proof.
  intros Hn Hu. unfold onOpen. destruct (_ || _); [done|]. set (x1 := set_retry _ _).
  assert (until T x1) as Hu1 by done. clearbody x1. unfold failWaiters. set (x2 := set_waiters [] x1).
  assert (until T x2) as Hu2 by done. clearbody x2. destruct (everOpened_ (link x)).
  - assert (until T (renew opts now x2).1) as Hr.
    { unfold renew. generalize (subs_ (topics x2)), (@nil Z). intros l. revert x2 Hu2. induction l as [|e l IH]; intros x2 Hu2 acc; [done|].
      cbn [foldl]. unfold renewOne at 2.
      pose proof (until_enqueue T now (mkClientFrame KSubscribe 0 (sb_nodeType e.2) (sb_key e.2) (sb_topic e.2) []) None true
        (eo_callTimeoutMs opts) 0 x2 Hn Htimeout Hu2) as H.
      cbn [fst]. destruct (enqueue _ _ _ _ _ _ x2) as [rid x3]. by apply IH. }
    destruct (renew opts now x2) as [x3 ids]. eapply until_evolves; [apply evolves_sendAll|exact Hr].
  - eapply until_evolves; [apply evolves_sendAll|done].
Qed.

Lemma no_new g t x x' next ns :
  performTask opts g t x = Some (x', next, ns) →
  (∃ f done internal ms, t = TRequest f done internal ms) ∨ (∃ gen, t = TEvent gen EvOpen) ∨ rids ns = [].
Proof.
  intros E. destruct t as [| |a b c d|a b| | |a| | |a|a|a b|a|gen ev| |a| | |a b|a|a|j|a b| |a|]; eauto 8;
    try (destruct ev as [|[]| |]; eauto); do 2 right; apply rids_none; cbn [performTask] in E; unfold onEvent in E;
    try (destruct j as [? ?|[?|? ?] ?| | | |]; cbn [runJob] in E);
    repeat match type of E with
    | context [let '(_, _) := ?c in _] => destruct c
    | (match ?c with _ => _ end) = _ => destruct c
    | (_ ≫= _) = Some _ => apply bind_Some in E as (? & _ & E)
    end; simplify_eq;
    repeat match goal with |- context [match ?c with _ => _ end] => destruct c end;
    repeat first [apply Forall_nil_2 | apply Forall_cons_2 | done]; apply Forall_fmap, Forall_true; by intros ?.
Qed.

Lemma perform_until T g t x x' next ns :
  performTask opts g t x = Some (x', next, ns) → task_ok t → T ≤ gv_now g → until T x → until T x'.
Proof.
  intros E Ht Hn Hu. destruct (no_new _ _ _ _ _ _ E) as [(f & done & internal & ms & ->)|[[gen ->]|Hr]].
  - pose proof (until_request T (gv_now g) f done internal ms x Hn Hu) as H. cbn [performTask] in E.
    destruct (request _ _ _ _ _ _ x) as [[y run] ids]. by simplify_eq.
  - pose proof (until_onOpen T (gv_now g) gen x Hn Hu) as H. cbn [performTask onEvent] in E.
    destruct (onOpen _ _ _ x) as [[[y run] ids]|]; by simplify_eq.
  - destruct (perform_grows _ _ _ _ _ _ _ E Ht) as [Hg _]. rewrite Hr in Hg.
    inversion Hg as [? ? He|]; subst. by eapply until_evolves.
Qed.

(** ** Runs on a clock *)

(** The times the tasks are given do not fall. *)
Fixpoint rises (t : Z) (xs : list (Step Task Given)) : Prop :=
  match xs with
  | [] => True
  | SEnter _ :: xs => rises t xs
  | SPerform _ g :: xs => t ≤ gv_now g ∧ rises (gv_now g) xs
  end.

Lemma wakeAt_deadline now x rid p : (rid, p) ∈ pending x → wakeAt now x ≤ pd_deadline p.
Proof.
  unfold wakeAt. generalize (now + 250). intros t Hin.
  assert (foldl (λ t e, Z.min t (pd_deadline e.2)) t (pending x) ≤ pd_deadline p) as H.
  { assert (∀ l t, foldl (λ t (e : Z * Pending), Z.min t (pd_deadline e.2)) t l ≤ t) as Hle.
    { induction l as [|e l IH]; intros t0; cbn; [lia|]. etrans; [apply IH|lia]. }
    revert t Hin. induction (pending x) as [|e l IH]; intros t; [set_solver|]. intros [<-|Hin]%elem_of_cons; cbn; [|by apply IH].
    etrans; [apply Hle|cbn; lia]. }
  destruct (reconnectDue_ _); lia.
Qed.

Lemma expired_In now rid p done l :
  (rid, p) ∈ l → pd_done p = Some done → pd_deadline p ≤ now →
  JReply done (mkExecReply DeadlineExceeded (chars "no reply in " ++
    decimal (if 0 <? pd_timeoutMs p then pd_timeoutMs p else eo_callTimeoutMs opts) ++ chars " ms")) ∈ expired opts now l.
Proof.
  intros Hin Hd Hp. unfold expired. apply list_elem_of_bind. exists (rid, p). split; [|done]. cbn [snd]. rewrite Hd.
  destruct (Z.ltb_spec now (pd_deadline p)); [lia|]. by left.
Qed.

(** A wait of the timer thread that began at [last] or before ends 250 ms later at the latest, and no
    later than 250 ms after the deadline of any request there is. *)
Definition waits_well (last : Z) (s : Work Exec Task Notice) : Prop :=
  requests_kept (wk_state s) (left_to_do s) (wk_log s) ∧
  ∀ at_, TWake at_ ∈ left_to_do s → at_ ≤ last + 250 ∧ until (at_ - 250) (wk_state s).

Lemma perform_wakes g t x x' next ns at_ :
  performTask opts g t x = Some (x', next, ns) → TWake at_ ∈ next → at_ = wakeAt (gv_now g) x ∧ x' = x.
Proof.
  intros E Hin. destruct (inTurn t) eqn:Ht.
  - destruct t; try done; cbn [performTask] in E.
    + simplify_eq. destruct (isClosed x'); [by apply not_elem_of_nil in Hin|]. by apply list_elem_of_singleton in Hin as [= ->].
    + destruct (timerTick _ _ x) as [y run]. simplify_eq. apply elem_of_app in Hin as [(j & ? & _)%list_elem_of_fmap|Hin]; [done|].
      destruct (isClosed x); [by apply not_elem_of_nil in Hin|by apply list_elem_of_singleton in Hin].
    + simplify_eq. by apply not_elem_of_nil in Hin.
  - destruct (perform_elsewhere _ _ _ _ _ _ E Ht) as [Hn _]. rewrite list.Forall_forall in Hn. by specialize (Hn _ Hin).
Qed.

Lemma wakeAt_turn now x : wakeAt now x ≤ now + 250.
Proof.
  unfold wakeAt. assert (∀ l t, foldl (λ t (e : Z * Pending), Z.min t (pd_deadline e.2)) t l ≤ t) as Hle.
  { induction l as [|e l IH]; intros t0; cbn; [lia|]. etrans; [apply IH|lia]. }
  specialize (Hle (pending x) (now + 250)). destruct (reconnectDue_ _); lia.
Qed.

Lemma waits_perform last i g s s' :
  waits_well last s → last ≤ gv_now g → step (SPerform i g) s = Some s' → waits_well (gv_now g) s'.
Proof.
  intros [Hr Hw] Hg E. pose proof (step_kept (λ _, True) _ (SPerform i g) _ _ (requests_kept_kept opts _) I E Hr) as Hr'. split; [done|].
  cbn [step] in E. unfold left_to_do in *. destruct (wk_threads s !! i) as [[|t rest]|] eqn:Hi; try done.
  apply bind_Some in E as ([[st next] ns] & E & [= <-]). cbn [wk_state wk_threads].
  destruct (concat_replaced _ _ _ (next ++ rest) Hi) as (others & H1 & H2).
  destruct Hr as (_ & Hok & _). rewrite H1 in Hok. apply Forall_cons_1 in Hok as [Hok _].
  intros at_. rewrite H2, <- app_assoc. intros [Hin|Hin]%elem_of_app.
  - destruct (perform_wakes _ _ _ _ _ _ _ E Hin) as [-> ->]. split; [apply wakeAt_turn|].
    unfold until. rewrite list.Forall_forall. intros [rid p] Hp. pose proof (wakeAt_deadline (gv_now g) _ _ _ Hp). cbn. lia.
  - destruct (Hw at_) as [H3 H4]; [rewrite H1; by right|]. split; [lia|]. eapply perform_until; [exact E|done|lia|done].
Qed.

Lemma waits_run xs last s s' :
  waits_well last s → rises last xs → run xs s = Some s' → ∃ last', waits_well last' s'.
Proof.
  revert last s. induction xs as [|[t|i g] xs IH]; intros last s Hw; cbn [rises run].
  - intros _ [= <-]. by exists last.
  - intros Hx (s1 & E & Hr)%bind_Some. apply (IH last s1); [|done|done]. destruct Hw as [Hk Hw].
    pose proof (step_kept (λ _, True) _ (SEnter t) _ _ (requests_kept_kept opts _) I E Hk) as Hk'. split; [done|].
    cbn [step] in E. apply bind_Some in E as (ns & E & [= <-]). intros at_. unfold left_to_do. cbn [wk_threads wk_state].
    rewrite concat_app, elem_of_app. intros [Hin|Hin]; [by apply Hw|]. cbn in Hin. apply list_elem_of_singleton in Hin as <-. done.
  - intros [Hg Hx] (s1 & E & Hr)%bind_Some. eapply (IH (gv_now g) s1); [|done|done]. by eapply waits_perform.
Qed.

Lemma lookup_new {A} (l : list A) x : (l ++ [x]) !! length l = Some x.
Proof. by rewrite lookup_app_r, Nat.sub_diag by lia. Qed.
Lemma insert_new {A} (l : list A) x y : <[length l := y]> (l ++ [x]) = l ++ [y].
Proof. by rewrite insert_app_r_alt, Nat.sub_diag by lia. Qed.

(** The next turn, when none is under way. *)
Lemma turn_begins s g :
  timerStarted_ (retry (wk_state s)) = true → isClosed (wk_state s) = false →
  number isTurn (wk_log s) = number isTurned (wk_log s) →
  ∃ s1, run [SEnter TTick; SPerform (length (wk_threads s)) g] s = Some s1 ∧
    left_to_do s1 = left_to_do s ++ [TWake (wakeAt (gv_now g) (wk_state s))] ∧ wk_state s1 = wk_state s.
Proof.
  intros Ht Hc Hn. eexists. split.
  - cbn [run]. cbn [step]. change (enters TTick (wk_state s) (wk_log s)) with (entersTask TTick (wk_state s) (wk_log s)).
    cbn [entersTask]. rewrite Ht, Hn, Nat.eqb_refl. cbn [andb mbind option_bind]. cbn [step wk_threads wk_state wk_log].
    rewrite lookup_new. change (perform g TTick (wk_state s)) with (performTask opts g TTick (wk_state s)).
    cbn [performTask]. rewrite Hc. cbn [mbind option_bind]. by rewrite insert_new.
  - split; [|done]. unfold left_to_do. cbn [wk_threads]. by rewrite concat_app.
Qed.

(** A turn that wakes after a deadline. *)
Lemma turn_answers s i at_ rest g rid p done :
  wk_threads s !! i = Some (TWake at_ :: rest) → isClosed (wk_state s) = false →
  (rid, p) ∈ pending (wk_state s) → pd_done p = Some done → pd_deadline p ≤ gv_now g →
  ∃ s2 text, run [SPerform i g] s = Some s2 ∧ (rid, p) ∉ pending (wk_state s2) ∧
    TDeliver (JReply done (mkExecReply DeadlineExceeded text)) ∈ left_to_do s2.
Proof.
  intros Hi Hc Hin Hd Hn. pose proof (expired_In (gv_now g) rid p done _ Hin Hd Hn) as Hx. set (x := wk_state s) in *.
  set (text := _ ++ _) in Hx. clearbody text.
  exists (mkWork (timerTick opts (gv_now g) x).1 (<[i := (deliver (timerTick opts (gv_now g) x).2 ++ [TTurned]) ++ rest]> (wk_threads s)) (wk_log s ++ [])), text.
  split_and!.
  - cbn [run step]. rewrite Hi. change (perform g (TWake at_) (wk_state s)) with (performTask opts g (TWake at_) x).
    cbn [performTask]. destruct (timerTick opts (gv_now g) x) as [y run]. by rewrite Hc.
  - cbn [wk_state]. unfold timerTick. rewrite Hc.
    assert (∀ l, (rid, p) ∉ List.filter (λ e : Z * Pending, gv_now g <? pd_deadline e.2) l) as Hno.
    { intros l H. apply list_elem_of_In, filter_In in H as [_ H%Z.ltb_lt]. cbn in H. lia. }
    destruct (_ && _); apply Hno.
  - unfold left_to_do. cbn [wk_threads]. destruct (concat_replaced _ _ _ ((deliver (timerTick opts (gv_now g) x).2 ++ [TTurned]) ++ rest) Hi) as (others & _ & ->).
    rewrite <- !app_assoc. apply elem_of_app. left. apply list_elem_of_fmap. eexists. split; [done|]. unfold timerTick. rewrite Hc.
    destruct (_ && _); [apply elem_of_app; left|]; exact Hx.
Qed.

(** C24. A request somebody waits for does not outlast its deadline for want of an answer. While it is
    pending the timer thread is there, with one turn at a time. A turn that begins then waits no
    longer than to the request's deadline; a wait that had begun before the request was made,
    which does not wake it, ends at most 250 ms after that deadline; and the turn that wakes
    after the deadline takes the request out and answers it [DeadlineExceeded], whatever the
    other threads did meanwhile. Between two turns the next can begin, as soon as the callbacks the
    last one delivers have returned. (On a clock that does not go back, with a default timeout that is
    not negative; how late a thread wakes, and how long the mutex keeps it, is not counted.) *)
Theorem exec_deadline_answers dispatcher t0 xs (s : Work Exec Task Notice) rid p done :
  rises t0 xs → run xs (fresh (newExec opts dispatcher)) = Some s →
  (rid, p) ∈ pending (wk_state s) → pd_internal p = false → pd_done p = Some done →
  (number inTurn (left_to_do s) ≤ 1)%nat ∧ timerStarted_ (retry (wk_state s)) = true ∧
  (number inTurn (left_to_do s) = 0%nat → ∀ g, ∃ at_ s1,
    run [SEnter TTick; SPerform (length (wk_threads s)) g] s = Some s1 ∧
    left_to_do s1 = left_to_do s ++ [TWake at_] ∧ at_ ≤ pd_deadline p ∧ at_ ≤ gv_now g + 250) ∧
  (∀ i at_ rest, wk_threads s !! i = Some (TWake at_ :: rest) →
    at_ ≤ pd_deadline p + 250 ∧
    ∀ g, pd_deadline p ≤ gv_now g → ∃ s2 text, run [SPerform i g] s = Some s2 ∧
      (rid, p) ∉ pending (wk_state s2) ∧ TDeliver (JReply done (mkExecReply DeadlineExceeded text)) ∈ left_to_do s2).
Proof.
  intros Hx Hrun Hin Hi Hdone.
  assert (reaches (λ _ : Given, True) (newExec opts dispatcher) s) as Hr.
  { exists xs. split; [|done]. apply Forall_true. by intros []. }
  apply (tasks_invariant _ one_turn _ _ (one_turn_kept _)) in Hr as [[Hs _ _ _ _ _] Ht].
  2: { split; [apply live_new|]. intros _. rewrite !number_nil. lia. }
  assert (isClosed (wk_state s) = false) as Hc.
  { destruct (isClosed (wk_state s)) eqn:Hc; [|done]. destruct (so_closed _ _ Hs Hc) as [E _]. rewrite E in Hin. by apply not_elem_of_nil in Hin. }
  destruct (Ht Hc) as [Hn H1].
  assert (timerStarted_ (retry (wk_state s)) = true) as Htm.
  { apply (so_timer _ _ Hs Hc). apply list.Exists_exists. by exists (rid, p). }
  split; [done|]. split; [done|]. split.
  - intros H0 g. destruct (turn_begins s g Htm Hc) as (s1 & E1 & E2 & _); [lia|]. eexists _, s1. split; [exact E1|]. split; [exact E2|].
    split; [by eapply wakeAt_deadline|apply wakeAt_turn].
  - intros i at_ rest Hth. split; [|intros g Hg; by eapply turn_answers].
    assert (waits_well t0 (fresh (newExec opts dispatcher))) as H0.
    { split; [|intros ? H; by apply not_elem_of_nil in H]. unfold requests_kept, requests_ok. by destruct dispatcher; cbn; split_and!; repeat constructor. }
    destruct (waits_run _ _ _ _ H0 Hx Hrun) as [last [_ Hw]]. destruct (Hw at_) as [_ Hu].
    { unfold left_to_do. destruct (concat_replaced _ _ _ [] Hth) as (others & -> & _). by left. }
    unfold until in Hu. rewrite list.Forall_forall in Hu. specialize (Hu _ Hin). cbn in Hu. lia.
Qed.

End Late.
