(* ===== verification/ExecRuns.v ===== *)
(** * Runs of the Exec connection

    Concrete systems: the witnesses of the connection's theorems, and runs that show what the code
    does where its comments say otherwise. *)

From S2P Require Import Prelude Bytes Core Json Endpoint Tasks ExecWire ExecConn ExecSpec ExecLive ExecSends ExecPin ExecLate.

Import le.
Open Scope Z_scope.

Module ExecDemo.

Definition opts : ExecConnectOptions := mkOptions 5000 true 100 10000.
#[local] Hint Extern 0 (Worker Exec _ _ _) => exact (execWorker opts) : typeclass_instances.

Definition api : bytes := chars "https://ck.prod.crowdedkingdoms.com".
Definition host (name : string) : ExecEndpoint :=
  mkEndpoint (chars "wss://" ++ chars name ++ chars ".prod.crowdedkingdoms.com") (chars "t/k") (chars name).
(** At a time; every draw is 0 and every socket is made. *)
Definition at_time (now : Z) : Given := mkGiven now 0 true api.

(** [n] tasks of thread [i]. *)
Definition go (i n : nat) (now : Z) : list (Step Task Given) := repeat (SPerform i (at_time now)) n.

Definition call (method : string) (q : Z) : Task :=
  TRequest (mkClientFrame KCall 0 (chars "T") (chars "k") (chars method) []) (Some (Caller q)) false 0.
Definition reply (rid status : Z) : SocketEvent := EvFrame true (129 :: octets 4 rid ++ [status]).

(** The gateway is pinned; a call is made before anything: it dials, the socket opens, the call is
    written. *)
Definition pinned : list (Step Task Given) := SEnter TPinGateway :: go 0 1 0.
Definition found (name : string) : Step Task Given := SEnter (TFound (Val (host name))).
Definition dialed : list (Step Task Given) := pinned ++ SEnter (call "m" 7) :: go 1 4 0 ++ found "h1" :: go 2 4 10.
Definition opened : list (Step Task Given) := dialed ++ SEnter (TEvent 1 EvOpen) :: go 3 3 20.

(** The host answers [Moved]: a dial follows, and the call is written on the new socket. *)
Definition moved : list (Step Task Given) := opened ++ SEnter (TEvent 1 (reply 1 3)) :: go 4 3 30.
Definition redialed : list (Step Task Given) :=
  moved ++ SEnter TTick :: go 5 5 40 ++ found "h2" :: go 6 4 50 ++ SEnter (TEvent 3 EvOpen) :: go 7 3 60.
Definition answered_at_last : list (Step Task Given) := redialed ++ SEnter (TEvent 3 (reply 1 0)) :: go 8 4 70.

Definition start : Work Exec Task Notice := fresh (newExec opts false).
Definition after (xs : list (Step Task Given)) : Work Exec Task Notice := default start (run xs start).

Definition any (g : Given) : Prop := True.

Lemma exec_reached xs : run xs start = Some (after xs) → reaches any (newExec opts false) (after xs).
Proof. intros E. exists xs. split; [|exact E]. apply Forall_true. by intros []. Qed.
End ExecDemo.

Section Witnesses.
Import ExecDemo.
#[local] Hint Extern 0 (Worker Exec _ _ _) => exact (execWorker opts) : typeclass_instances.

Lemma exec_answers_once_witness :
  let s := after answered_at_last in
  total (asked (Replies 7)) (wk_log s) = 1%nat ∧ total (answered (Replies 7)) (wk_log s) = 1%nat ∧
  (total (asked (Replies 7)) (wk_log s) =
   held (Replies 7) (wk_state s) + total (ExecSpec.inTask (Replies 7)) (left_to_do s) + total (answered (Replies 7)) (wk_log s))%nat.
Proof.
  cbv zeta. split_and!; [by vm_compute..|]. apply (exec_answers_once opts any false).
  - apply exec_reached. by vm_compute.
  - apply (bool_decide_unpack _). by vm_compute.
Defined.

(** Left by [Moved]: nothing is under way, but a reconnect is due. *)
Lemma exec_never_stranded_witness :
  let x := wk_state (after moved) in
  isClosed x = false ∧ waits opts x ∧ isOpen x = false ∧ attempts (after moved) = 0%nat ∧
  reconnectDue_ (retry x) = true ∧ timerStarted_ (retry x) = true.
Proof.
  cbv zeta. pose proof (exec_never_stranded opts any false (after moved) (exec_reached moved ltac:(by vm_compute))) as H. cbv zeta in H.
  assert (isClosed (wk_state (after moved)) = false) as E1 by by vm_compute.
  assert (isOpen (wk_state (after moved)) = false) as E2 by by vm_compute.
  assert (attempts (after moved) = 0%nat) as E3 by by vm_compute.
  assert (droppedDials (after moved) = 0%nat) as E5 by by vm_compute.
  assert (length (pending (wk_state (after moved))) = 1%nat) as E4 by by vm_compute.
  revert E1 E2 E3 E4 E5 H. generalize (after moved). intros s E1 E2 E3 E4 E5 H. rewrite E1, E2, E3, E5 in H. destruct H as (_ & _ & H & _).
  assert (waits opts (wk_state s)) as Hw by (left; intros E; by rewrite E in E4).
  destruct (H Hw) as [|[|[[? ?]|[? _]]]]; by split_and!.
Defined.

(** A turn begins at 15 and waits until 265; the call is made at 20, and would time out at 5020.
    The wait that had begun ends before that; and when the thread wakes at 5021 instead, the call is
    answered. *)
Definition beforehand : list (Step Task Given) :=
  pinned ++ SEnter (call "m" 7) :: go 1 4 0 ++ found "h1" :: go 2 4 10 ++ SEnter TTick :: go 3 1 15 ++
  SEnter (TEvent 1 EvOpen) :: go 4 3 20 ++ SEnter (call "n" 8) :: go 5 2 20.
Definition secondCall : Pending :=
  mkPending (mkClientFrame KCall 2 (chars "T") (chars "k") (chars "n") []) (Some (Caller 8)) 5020 1 false false 5000.

Lemma exec_deadline_answers_witness :
  let s := after beforehand in
  (2, secondCall) ∈ pending (wk_state s) ∧ ∃ at_ s2 text, wk_threads s !! 3%nat = Some [TWake at_] ∧ at_ ≤ 5020 + 250 ∧
    Tasks.run [SPerform 3 (at_time 5021)] s = Some s2 ∧ ((2, secondCall) ∉ pending (wk_state s2)) ∧
    TDeliver (JReply (Caller 8) (mkExecReply DeadlineExceeded text)) ∈ left_to_do s2.
Proof.
  cbv zeta. set (s := after beforehand).
  assert ((2, secondCall) ∈ pending (wk_state s)) as Hin by (apply (list_elem_of_lookup_2 _ 1); by vm_compute).
  assert (wk_threads s !! 3%nat = Some [TWake 265]) as Hi by by vm_compute.
  destruct (exec_deadline_answers opts ltac:(done) false 0 beforehand s 2 secondCall (Caller 8)) as (_ & _ & _ & H); [|by vm_compute|exact Hin|done|done|].
  - unfold beforehand, pinned, go, found. cbn. lia.
  - destruct (H 3%nat 265 [] Hi) as [H1 H2]. destruct (H2 (at_time 5021)) as (s2 & text & E & H3 & H4); [done|].
    split; [exact Hin|]. exists 265, s2, text. by split_and!.
Defined.

Lemma exec_sends_bounded_witness :
  let sent := number (λ n, match n with NSend _ b => writes true 1 b | _ => false end) (wk_log (after answered_at_last)) in
  sent = 2%nat ∧ (sent ≤ 2)%nat.
Proof.
  cbv zeta. split; [by vm_compute|].
  apply (exec_sends_bounded opts any false (after answered_at_last) true 1); [apply exec_reached; by vm_compute|..].
  - apply (bool_decide_unpack _). by vm_compute.
  - apply (bool_decide_unpack _). by vm_compute.
Defined.

Lemma exec_dials_pinned_witness :
  let s := default start (run redialed (fresh (set_pinned true (newExec opts false)))) in
  ∃ gen url e, NCreate gen url ∈ wk_log s ∧ gen = 3 ∧ url = connectUrl e ∧ execGatewayRefusal api (ee_gatewayUrl e) = Some None.
Proof.
  cbv zeta. set (s := default start _).
  assert (NCreate 3 (connectUrl (host "h2")) ∈ wk_log s) as Hin.
  { apply (list_elem_of_lookup_2 _ 12). by vm_compute. }
  destruct (exec_dials_pinned opts api false s 3 (connectUrl (host "h2"))) as (e & H1 & H2); [|done|].
  - exists redialed. split; [|by vm_compute]. apply (List.Forall_forall (gives (api_given api))). unfold redialed, moved, opened, dialed, pinned, go, found. cbn.
    intros x Hx. repeat (destruct Hx as [<-|Hx]; [done|]). done.
  - exists 3, (connectUrl (host "h2")), e. by split_and!.
Defined.
End Witnesses.

(** ** What the code does otherwise than it says *)

Module ExecFaults.
Import ExecDemo.

Definition replied (q : Z) (st : ExecStatus) (n : Notice) : bool :=
  match n with NReply q' r => (q' =? q) && bool_decide (er_status r = st) | _ => false end.
Definition runs (o : ExecConnectOptions) (xs : list (Step Task Given)) : Work Exec Task Notice :=
  default start (@Tasks.run _ _ _ _ (execWorker o) xs start).

(** [loseLocked] says a later event of a connection that was left is ignored. An answer that comes
    late on it is taken. *)
Definition late_answer : list (Step Task Given) := moved ++ SEnter (TEvent 1 (reply 1 0)) :: go 5 4 40.
Example left_connection_answers :
  let s := runs opts late_answer in
  ws_ (link (wk_state s)) = None ∧ gen_ (link (wk_state s)) = 2 ∧ number (replied 7 ExecOk) (wk_log s) = 1%nat ∧ pending (wk_state s) = [].
Proof. split_and!; by vm_compute. Qed.

(** A reconnect that a request made unnecessary stays due: once its time is past, every turn of the
    timer thread waits for a moment that is over, and nothing ends that while the connection is
    open. *)
Lemma timer_spins o now x :
  isClosed x = false → isOpen x = true → reconnectDue_ (retry x) = true →
  wakeAt now x ≤ reconnectAt_ (retry x) ∧ let y := (timerTick o now x).1 in
  isOpen y = true ∧ reconnectDue_ (retry y) = true ∧ reconnectAt_ (retry y) = reconnectAt_ (retry x).
Proof.
  intros Hc Ho Hd. split; [unfold wakeAt; rewrite Hd; lia|]. unfold timerTick. rewrite Hc.
  assert (alone (set_pending (List.filter (λ e, now <? pd_deadline e.2) (pending x)) x) = false) as Ha.
  { unfold alone. cbn. apply isOpen_true in Ho as [[g ->] _]. by rewrite andb_false_r. }
  rewrite Ha, andb_false_r. done.
Qed.

Definition overtaken : list (Step Task Given) :=
  opened ++ SEnter (TEvent 1 (reply 1 0)) :: go 4 4 70 ++ SEnter (TEvent 1 (EvClose 1006 [])) :: go 5 1 100 ++
  SEnter (call "n" 8) :: go 6 4 110 ++ found "h2" :: go 7 4 120 ++ SEnter (TEvent 3 EvOpen) :: go 8 3 130.
Example overtaken_reconnect_stays :
  let x := wk_state (runs opts overtaken) in
  isClosed x = false ∧ isOpen x = true ∧ reconnectDue_ (retry x) = true ∧ reconnectAt_ (retry x) = 150.
Proof. split_and!; by vm_compute. Qed.

(** Without reconnects, who waits in [connect] when an attempt after the first is lost is never
    told, though [done] should be called once: nothing is under way, and nobody will. *)
Definition once : ExecConnectOptions := mkOptions 5000 false 100 10000.
Definition second_attempt_lost : list (Step Task Given) :=
  opened ++ SEnter (TEvent 1 (EvClose 1006 [])) :: go 4 3 70 ++
  SEnter (TConnect (Some 9)) :: go 5 3 80 ++ found "h2" :: go 6 4 90 ++ SEnter (TEvent 3 (EvError 0 [] [])) :: go 7 1 100.
Example connect_never_answered :
  let s := runs once second_attempt_lost in
  waiters_ (wk_state s) = [9] ∧ alone (wk_state s) = true ∧ reconnectDue_ (retry (wk_state s)) = false ∧ left_to_do s = [] ∧
  number (λ n, match n with NConnected _ _ => true | _ => false end) (wk_log s) = 0%nat.
Proof. split_and!; by vm_compute. Qed.

(** The application's dispatcher is closed when the call is made: the dial that was posted to it is
    dropped, the connection goes on dialing for ever, and nothing begins another attempt, though
    the connection is not closed and the call waits. *)
Definition dropped : list (Step Task Given) :=
  SEnter TPinGateway :: go 0 1 0 ++ SEnter TCloseDispatcher :: go 1 1 0 ++ SEnter (call "m" 7) :: go 2 3 0.
Example dropped_dial_strands :
  let s := default start (@Tasks.run _ _ _ _ (execWorker opts) dropped (fresh (newExec opts true))) in
  isClosed (wk_state s) = false ∧ length (pending (wk_state s)) = 1%nat ∧ left_to_do s = [] ∧
  dialing_ (link (wk_state s)) = true ∧ alone (wk_state s) = false ∧ attempts s = 0%nat ∧ droppedDials s = 1%nat ∧
  reconnectDue_ (retry (wk_state s)) = false.
Proof. split_and!; by vm_compute. Qed.

(** A call can be answered as failed and then be written: its frame waits for the thread that
    queued it, which sends on the socket there is by then. *)
Definition written_late : list (Step Task Given) :=
  opened ++ SEnter (call "n" 8) :: go 4 1 60 ++ SEnter (TEvent 1 (EvClose 1006 [])) :: go 5 5 70 ++
  SEnter (TConnect None) :: go 6 3 80 ++ found "h2" :: go 7 4 90 ++ go 4 2 95.
Example failed_call_is_written :
  let s := runs once written_late in
  number (replied 8 Unavailable) (wk_log s) = 1%nat ∧ isOpen (wk_state s) = false ∧
  number (λ n, match n with NSend 3 b => writes true 2 b | _ => false end) (wk_log s) = 1%nat ∧
  number (λ n, match n with NSend _ b => writes true 2 b | _ => false end) (wk_log s) = 1%nat.
Proof. split_and!; by vm_compute. Qed.

(** When the first handler's subscription is refused, a second one stays and is answered [Ok], as
    is every later one: the gateway knows of none of them. *)
Definition refused_topic : list (Step Task Given) :=
  let sub q := SEnter (TSubscribe (chars "T") (chars "k") (chars "t") (Some q)) in
  opened ++ sub 11 :: go 4 4 30 ++ sub 12 :: go 5 3 31 ++ SEnter (TEvent 1 (reply 2 6)) :: go 6 6 32 ++ sub 13 :: go 7 3 33.
Example refused_topic_stays :
  let s := runs opts refused_topic in
  number (replied 11 Denied) (wk_log s) = 1%nat ∧ number (replied 12 ExecOk) (wk_log s) = 1%nat ∧
  number (replied 13 ExecOk) (wk_log s) = 1%nat ∧ (sb_handlers ∘ snd <$> subs_ (topics (wk_state s))) = [[2; 3]] ∧
  number (λ n, match n with NSend _ (2 :: _) => true | _ => false end) (wk_log s) = 1%nat.
Proof. split_and!; by vm_compute. Qed.
End ExecFaults.
