(* ===== verification/Subscription.v ===== *)
(** * The GraphQL subscription client

    [src/graphql/subscription_client.cpp] with [include/crowdy/graphql/dispatcher.hpp] and the token
    of [auth_state.hpp]. The client is used by many threads at once: the application's, the
    transport's and its own timer. A method is a program of the type [Prog]: a critical section of a
    mutex is one atomic step on the client ([Locked]), a call to the transport or to the application
    is a step the world answers ([Ask]), and between any two steps every other thread may run. Threads
    are entered by the calls of [Entry], at any time and in any number, so the interleavings here are
    more than the code's: [eventMutex_], [shutdownMutex_], [drainMutex_] and the delivery mutex only
    take some away, and a callback that calls the client back is one more thread.

    The timer thread is entered once for each turn of its loop; waiting for its condition variable
    is not a step. Joining it, and the destructor, are left out, and with the join the one way threads
    block for ever: [shutdown] joins the timer thread while it holds [shutdownMutex_], so that a
    rediscovery handler on the timer thread that closes the client then waits for that mutex. Counters of 64 bits (generations,
    operation ids) are unbounded: a client does not open 2^64 connections; and so are times: a
    deadline past what the clock's type holds is not modelled. *)

From Stdlib Require Import QArith.
From S2P Require Import Prelude Bytes Core Json Endpoint SubErrors.

Open Scope Z_scope.

(** ** Data *)

Record GraphQLSubscriptionRequest := mkRequest {
  rq_document : bytes; rq_variables : JVal; rq_operationName : bytes }.

(** Which callbacks are given. *)
Record GraphQLSubscriptionCallbacks := mkCallbacks {
  cb_onNext : bool; cb_onError : bool; cb_onComplete : bool; cb_onReconnect : bool }.

Record GraphQLSubscriptionOutcome := mkOutcome {
  oc_status : Status; oc_data : View; oc_errors : list GraphQLErrorDetail; oc_payload : View }.

Inductive WebSocketFrameKind := FText | FBinary | FPing | FPong.
Record WebSocketFrame := mkFrame { fr_kind : WebSocketFrameKind; fr_payload : bytes }.

Inductive WebSocketEvent :=
| EvOpen | EvFrame (frame : WebSocketFrame) | EvClose (close : WebSocketCloseInfo) | EvError (error : WebSocketError).

Record WebSocketConnectRequest := mkConnectRequest { cq_url : bytes; cq_connectTimeoutMs : Z; cq_maxFrameBytes : nat }.

(** What is queued for an operation's callbacks. *)
Inductive Delivery :=
| DNext (outcome : GraphQLSubscriptionOutcome) | DError (error : GraphQLSubscriptionError) | DComplete
| DReconnect (attempt : nat).

(** The messages of graphql-transport-ws the client sends, and raw pong frames. *)
Inductive Message :=
| MInit (token : bytes) | MSubscribe (id : Z) (request : GraphQLSubscriptionRequest) | MComplete (id : Z)
| MPong (payload : View).
Inductive Outgoing := OText (m : Message) | OPong (payload : bytes).

(** What happens outside, in order. A connection is named by the generation it was created for.
    [HDeliver] is the check that lets a callback run, [HCancelled] the same for [SubscriptionHandle::cancel]:
    both are made under the delivery mutex, so that the callback itself comes before any [HCancelled]
    that follows. [shutdown] does not take that mutex. *)
Inductive Happening :=
| HReceived (g : Z) (event : WebSocketEvent)
| HCreate (g : Z) (request : WebSocketConnectRequest)
| HStart (g : Z)
| HSend (g : Z) (what : Outgoing)
| HClose (g : Z) (code : Z) (reason : bytes)
| HDeliver (id : Z) (d : Delivery)
| HCancelled (id : Z)
| HRediscover.

Inductive ConnectionState := Idle | Connecting | AwaitingAcknowledgement | Ready | Backoff.

#[global] Instance ConnectionState_eq_dec : EqDecision ConnectionState.
Proof. solve_decision. Defined.

(** [Operation] with its [Control]. *)
Record Operation := mkOperation {
  op_request : GraphQLSubscriptionRequest; op_callbacks : GraphQLSubscriptionCallbacks; op_subscribedOnce : bool;
  op_active : bool; op_cancelled : bool }.

Definition subscribed (o : Operation) : Operation :=
  mkOperation (op_request o) (op_callbacks o) true (op_active o) (op_cancelled o).
Definition inactive (o : Operation) : Operation :=
  mkOperation (op_request o) (op_callbacks o) (op_subscribedOnce o) false (op_cancelled o).
Definition cancelled (o : Operation) : Operation :=
  mkOperation (op_request o) (op_callbacks o) (op_subscribedOnce o) (op_active o) true.

(** What the client is given: the random generator, the iteration order of a hash map, the JSON
    library and ["%.17g"]. *)
Class SubEnv := {
  random : Type;
  varied : random → Q → Z → Z * random;
  order : gset Z → list Z;
  parseJson : bytes → View;
  writeJson : Json → bytes;
  formatDouble : Z → bytes }.

(** A map is iterated over each element once. *)
Class SubEnvLaws `{SubEnv} : Prop := order_elements s : order s ≡ₚ base.elements s.

Record SubConfig := mkSubConfig {
  sc_endpoint : bytes; sc_options : GraphQLSubscriptionOptions; sc_endpointKind : GraphQLWebSocketEndpointKind;
  sc_transport : bool (** a transport is given *) }.

Section Client.
Context `{SubEnv}.

(** The members, and what they share: the operations made so far by id ([heap]), the token of
    [AuthState], the queue of the [Dispatcher], the clock, and what has happened outside. A shared
    pointer to an operation is its id. *)
Record Client := mkClient {
  endpoint_ : bytes; timerStarted_ : bool; shutdown_ : bool; state_ : ConnectionState; generation_ : Z;
  nextOperationId_ : Z; currentReconnectAttempt_ : nat; rediscoverAfterFailures_ : Z;
  onRepeatedFailure_ : bool; connectingAttempt_ : nat; acknowledgementDeadline_ : Z;
  reconnectDeadline_ : Z; connection_ : option Z; operations_ : gset Z; random_ : random;
  heap : gmap Z Operation; token_ : bytes; queue_ : list (Z * Delivery); closed_ : bool; now : Z;
  history : list Happening }.

Definition set_endpoint_ (x : bytes) (c : Client) : Client :=
  mkClient x (timerStarted_ c) (shutdown_ c) (state_ c) (generation_ c) (nextOperationId_ c)
    (currentReconnectAttempt_ c) (rediscoverAfterFailures_ c) (onRepeatedFailure_ c)
    (connectingAttempt_ c) (acknowledgementDeadline_ c) (reconnectDeadline_ c) (connection_ c)
    (operations_ c) (random_ c) (heap c) (token_ c) (queue_ c) (closed_ c) (now c) (history c).
Definition set_timerStarted_ (x : bool) (c : Client) : Client :=
  mkClient (endpoint_ c) x (shutdown_ c) (state_ c) (generation_ c) (nextOperationId_ c)
    (currentReconnectAttempt_ c) (rediscoverAfterFailures_ c) (onRepeatedFailure_ c)
    (connectingAttempt_ c) (acknowledgementDeadline_ c) (reconnectDeadline_ c) (connection_ c)
    (operations_ c) (random_ c) (heap c) (token_ c) (queue_ c) (closed_ c) (now c) (history c).
Definition set_shutdown_ (x : bool) (c : Client) : Client :=
  mkClient (endpoint_ c) (timerStarted_ c) x (state_ c) (generation_ c) (nextOperationId_ c)
    (currentReconnectAttempt_ c) (rediscoverAfterFailures_ c) (onRepeatedFailure_ c)
    (connectingAttempt_ c) (acknowledgementDeadline_ c) (reconnectDeadline_ c) (connection_ c)
    (operations_ c) (random_ c) (heap c) (token_ c) (queue_ c) (closed_ c) (now c) (history c).
Definition set_state_ (x : ConnectionState) (c : Client) : Client :=
  mkClient (endpoint_ c) (timerStarted_ c) (shutdown_ c) x (generation_ c) (nextOperationId_ c)
    (currentReconnectAttempt_ c) (rediscoverAfterFailures_ c) (onRepeatedFailure_ c)
    (connectingAttempt_ c) (acknowledgementDeadline_ c) (reconnectDeadline_ c) (connection_ c)
    (operations_ c) (random_ c) (heap c) (token_ c) (queue_ c) (closed_ c) (now c) (history c).
Definition set_generation_ (x : Z) (c : Client) : Client :=
  mkClient (endpoint_ c) (timerStarted_ c) (shutdown_ c) (state_ c) x (nextOperationId_ c)
    (currentReconnectAttempt_ c) (rediscoverAfterFailures_ c) (onRepeatedFailure_ c)
    (connectingAttempt_ c) (acknowledgementDeadline_ c) (reconnectDeadline_ c) (connection_ c)
    (operations_ c) (random_ c) (heap c) (token_ c) (queue_ c) (closed_ c) (now c) (history c).
Definition set_nextOperationId_ (x : Z) (c : Client) : Client :=
  mkClient (endpoint_ c) (timerStarted_ c) (shutdown_ c) (state_ c) (generation_ c) x
    (currentReconnectAttempt_ c) (rediscoverAfterFailures_ c) (onRepeatedFailure_ c)
    (connectingAttempt_ c) (acknowledgementDeadline_ c) (reconnectDeadline_ c) (connection_ c)
    (operations_ c) (random_ c) (heap c) (token_ c) (queue_ c) (closed_ c) (now c) (history c).
Definition set_currentReconnectAttempt_ (x : nat) (c : Client) : Client :=
  mkClient (endpoint_ c) (timerStarted_ c) (shutdown_ c) (state_ c) (generation_ c)
    (nextOperationId_ c) x (rediscoverAfterFailures_ c) (onRepeatedFailure_ c)
    (connectingAttempt_ c) (acknowledgementDeadline_ c) (reconnectDeadline_ c) (connection_ c)
    (operations_ c) (random_ c) (heap c) (token_ c) (queue_ c) (closed_ c) (now c) (history c).
Definition set_rediscoverAfterFailures_ (x : Z) (c : Client) : Client :=
  mkClient (endpoint_ c) (timerStarted_ c) (shutdown_ c) (state_ c) (generation_ c)
    (nextOperationId_ c) (currentReconnectAttempt_ c) x (onRepeatedFailure_ c)
    (connectingAttempt_ c) (acknowledgementDeadline_ c) (reconnectDeadline_ c) (connection_ c)
    (operations_ c) (random_ c) (heap c) (token_ c) (queue_ c) (closed_ c) (now c) (history c).
Definition set_onRepeatedFailure_ (x : bool) (c : Client) : Client :=
  mkClient (endpoint_ c) (timerStarted_ c) (shutdown_ c) (state_ c) (generation_ c)
    (nextOperationId_ c) (currentReconnectAttempt_ c) (rediscoverAfterFailures_ c) x
    (connectingAttempt_ c) (acknowledgementDeadline_ c) (reconnectDeadline_ c) (connection_ c)
    (operations_ c) (random_ c) (heap c) (token_ c) (queue_ c) (closed_ c) (now c) (history c).
Definition set_connectingAttempt_ (x : nat) (c : Client) : Client :=
  mkClient (endpoint_ c) (timerStarted_ c) (shutdown_ c) (state_ c) (generation_ c)
    (nextOperationId_ c) (currentReconnectAttempt_ c) (rediscoverAfterFailures_ c)
    (onRepeatedFailure_ c) x (acknowledgementDeadline_ c) (reconnectDeadline_ c) (connection_ c)
    (operations_ c) (random_ c) (heap c) (token_ c) (queue_ c) (closed_ c) (now c) (history c).
Definition set_acknowledgementDeadline_ (x : Z) (c : Client) : Client :=
  mkClient (endpoint_ c) (timerStarted_ c) (shutdown_ c) (state_ c) (generation_ c)
    (nextOperationId_ c) (currentReconnectAttempt_ c) (rediscoverAfterFailures_ c)
    (onRepeatedFailure_ c) (connectingAttempt_ c) x (reconnectDeadline_ c) (connection_ c)
    (operations_ c) (random_ c) (heap c) (token_ c) (queue_ c) (closed_ c) (now c) (history c).
Definition set_reconnectDeadline_ (x : Z) (c : Client) : Client :=
  mkClient (endpoint_ c) (timerStarted_ c) (shutdown_ c) (state_ c) (generation_ c)
    (nextOperationId_ c) (currentReconnectAttempt_ c) (rediscoverAfterFailures_ c)
    (onRepeatedFailure_ c) (connectingAttempt_ c) (acknowledgementDeadline_ c) x (connection_ c)
    (operations_ c) (random_ c) (heap c) (token_ c) (queue_ c) (closed_ c) (now c) (history c).
Definition set_connection_ (x : option Z) (c : Client) : Client :=
  mkClient (endpoint_ c) (timerStarted_ c) (shutdown_ c) (state_ c) (generation_ c)
    (nextOperationId_ c) (currentReconnectAttempt_ c) (rediscoverAfterFailures_ c)
    (onRepeatedFailure_ c) (connectingAttempt_ c) (acknowledgementDeadline_ c)
    (reconnectDeadline_ c) x (operations_ c) (random_ c) (heap c) (token_ c) (queue_ c)
    (closed_ c) (now c) (history c).
Definition set_operations_ (x : gset Z) (c : Client) : Client :=
  mkClient (endpoint_ c) (timerStarted_ c) (shutdown_ c) (state_ c) (generation_ c)
    (nextOperationId_ c) (currentReconnectAttempt_ c) (rediscoverAfterFailures_ c)
    (onRepeatedFailure_ c) (connectingAttempt_ c) (acknowledgementDeadline_ c)
    (reconnectDeadline_ c) (connection_ c) x (random_ c) (heap c) (token_ c) (queue_ c)
    (closed_ c) (now c) (history c).
Definition set_random_ (x : random) (c : Client) : Client :=
  mkClient (endpoint_ c) (timerStarted_ c) (shutdown_ c) (state_ c) (generation_ c)
    (nextOperationId_ c) (currentReconnectAttempt_ c) (rediscoverAfterFailures_ c)
    (onRepeatedFailure_ c) (connectingAttempt_ c) (acknowledgementDeadline_ c)
    (reconnectDeadline_ c) (connection_ c) (operations_ c) x (heap c) (token_ c) (queue_ c)
    (closed_ c) (now c) (history c).
Definition set_heap (x : gmap Z Operation) (c : Client) : Client :=
  mkClient (endpoint_ c) (timerStarted_ c) (shutdown_ c) (state_ c) (generation_ c)
    (nextOperationId_ c) (currentReconnectAttempt_ c) (rediscoverAfterFailures_ c)
    (onRepeatedFailure_ c) (connectingAttempt_ c) (acknowledgementDeadline_ c)
    (reconnectDeadline_ c) (connection_ c) (operations_ c) (random_ c) x (token_ c) (queue_ c)
    (closed_ c) (now c) (history c).
Definition set_token_ (x : bytes) (c : Client) : Client :=
  mkClient (endpoint_ c) (timerStarted_ c) (shutdown_ c) (state_ c) (generation_ c)
    (nextOperationId_ c) (currentReconnectAttempt_ c) (rediscoverAfterFailures_ c)
    (onRepeatedFailure_ c) (connectingAttempt_ c) (acknowledgementDeadline_ c)
    (reconnectDeadline_ c) (connection_ c) (operations_ c) (random_ c) (heap c) x (queue_ c)
    (closed_ c) (now c) (history c).
Definition set_queue_ (x : list (Z * Delivery)) (c : Client) : Client :=
  mkClient (endpoint_ c) (timerStarted_ c) (shutdown_ c) (state_ c) (generation_ c)
    (nextOperationId_ c) (currentReconnectAttempt_ c) (rediscoverAfterFailures_ c)
    (onRepeatedFailure_ c) (connectingAttempt_ c) (acknowledgementDeadline_ c)
    (reconnectDeadline_ c) (connection_ c) (operations_ c) (random_ c) (heap c) (token_ c) x
    (closed_ c) (now c) (history c).
Definition set_closed_ (x : bool) (c : Client) : Client :=
  mkClient (endpoint_ c) (timerStarted_ c) (shutdown_ c) (state_ c) (generation_ c)
    (nextOperationId_ c) (currentReconnectAttempt_ c) (rediscoverAfterFailures_ c)
    (onRepeatedFailure_ c) (connectingAttempt_ c) (acknowledgementDeadline_ c)
    (reconnectDeadline_ c) (connection_ c) (operations_ c) (random_ c) (heap c) (token_ c)
    (queue_ c) x (now c) (history c).
Definition set_now (x : Z) (c : Client) : Client :=
  mkClient (endpoint_ c) (timerStarted_ c) (shutdown_ c) (state_ c) (generation_ c)
    (nextOperationId_ c) (currentReconnectAttempt_ c) (rediscoverAfterFailures_ c)
    (onRepeatedFailure_ c) (connectingAttempt_ c) (acknowledgementDeadline_ c)
    (reconnectDeadline_ c) (connection_ c) (operations_ c) (random_ c) (heap c) (token_ c)
    (queue_ c) (closed_ c) x (history c).
Definition set_history (x : list Happening) (c : Client) : Client :=
  mkClient (endpoint_ c) (timerStarted_ c) (shutdown_ c) (state_ c) (generation_ c)
    (nextOperationId_ c) (currentReconnectAttempt_ c) (rediscoverAfterFailures_ c)
    (onRepeatedFailure_ c) (connectingAttempt_ c) (acknowledgementDeadline_ c)
    (reconnectDeadline_ c) (connection_ c) (operations_ c) (random_ c) (heap c) (token_ c)
    (queue_ c) (closed_ c) (now c) x.

Definition log (h : Happening) (c : Client) : Client := set_history (history c ++ [h]) c.
Definition withOperation (f : Operation → Operation) (id : Z) (c : Client) : Client := set_heap (alter f id (heap c)) c.

(** ** Programs *)

(** The world's answer to a call. *)
Inductive Answer := Done | Failed (e : Errc) | Null | Threw (what : bytes).

Inductive Prog (A : Type) : Type :=
| Ret (a : A)
| Undefined
| Locked {B : Type} (f : Client → Client * B) (k : B → Prog A)
| Ask (h : Happening) (k : Answer → Prog A).
Arguments Ret {A} _.
Arguments Undefined {A}.
Arguments Locked {A B} _ _.
Arguments Ask {A} _ _.

Fixpoint thenProg {A B} (p : Prog A) (f : A → Prog B) : Prog B :=
  match p with
  | Ret a => f a
  | Undefined => Undefined
  | Locked g k => Locked g (λ b, thenProg (k b) f)
  | Ask h k => Ask h (λ a, thenProg (k a) f)
  end.
End Client.

Arguments Ret {_ A} _.
Arguments Undefined {_ A}.
Arguments Locked {_ A B} _ _.
Arguments Ask {_ A} _ _.

Declare Scope prog_scope.
Delimit Scope prog_scope with prog.
Bind Scope prog_scope with Prog.
Notation "x ← p ; q" := (thenProg p (λ x, q)) (at level 20, p at level 100, q at level 200, only parsing) : prog_scope.
Notation "p ;; q" := (thenProg p (λ _, q)) (at level 100, q at level 200, right associativity, only parsing) : prog_scope.

Section Methods.
Context `{SubEnv} (config : SubConfig).
Open Scope prog_scope.

Definition locked {B} (f : Client → Client * B) : Prog B := Locked f Ret.
Definition update (f : Client → Client) : Prog unit := locked (λ c, (f c, tt)).
Definition ask (h : Happening) : Prog Answer := Ask h Ret.
Definition forEach {A} (l : list A) (f : A → Prog unit) : Prog unit := foldr (λ x p, f x;; p) (Ret tt) l.

Definition options := sc_options config.
Definition tooLarge (text : bytes) : bool := (so_maxFrameBytes options <? length text)%nat.

(** ** Messages *)

Definition object (fields : list (bytes * JVal)) : JVal := VObj (foldl (λ l m, setMember m.1 m.2 l) [] fields).

Definition bodyOf (m : Message) : JVal :=
  match m with
  | MInit token =>
      object ((chars "type", VStr (chars "connection_init")) ::
        (if bool_decide (token = []) then []
         else [(chars "payload", object [(chars "Authorization", VStr (chars "Bearer " ++ token))])]))
  | MSubscribe id rq =>
      let payload := object ([(chars "query", VStr (rq_document rq))] ++
        (match rq_variables rq with VNull => [] | v => [(chars "variables", v)] end) ++
        (if bool_decide (rq_operationName rq = []) then [] else [(chars "operationName", VStr (rq_operationName rq))])) in
      object [(chars "id", VStr (decimal id)); (chars "type", VStr (chars "subscribe")); (chars "payload", payload)]
  | MComplete id => object [(chars "id", VStr (decimal id)); (chars "type", VStr (chars "complete"))]
  | MPong _ => VNull
  end.

(** The text of a message. A pong is put together from text: the payload is the server's. *)
Definition textOf (m : Message) : bytes :=
  match m with
  | MPong payload =>
      [123] ++ appendEscaped (chars "type") ++ [58] ++ appendEscaped (chars "pong") ++
      (match payload with Some v => [44] ++ appendEscaped (chars "payload") ++ [58] ++ writeJson v | None => [] end) ++ [125]
  | _ => dump formatDouble (bodyOf m)
  end.

(** ** Posting *)

(** [Dispatcher::post]. *)
Definition push (x : Z * Delivery) (c : Client) : Client :=
  if closed_ c then c else set_queue_ (queue_ c ++ [x]) c.

(** [postNext], [postError], [postComplete]: only for a callback that is given. [postReconnect] is
    called only then. *)
Definition wanted (d : Delivery) (cb : GraphQLSubscriptionCallbacks) : bool :=
  match d with
  | DNext _ => cb_onNext cb | DError _ => cb_onError cb | DComplete => cb_onComplete cb | DReconnect _ => true
  end.
Definition post (id : Z) (d : Delivery) : Prog unit :=
  update (λ c, match heap c !! id with
               | Some o => if wanted d (op_callbacks o) then push (id, d) c else c
               | None => c end).
Definition postError (id : Z) (error : GraphQLSubscriptionError) : Prog unit := post id (DError error).
Definition postComplete (id : Z) : Prog unit := post id DComplete.
Definition postNext (id : Z) (outcome : GraphQLSubscriptionOutcome) : Prog unit := post id (DNext outcome).
Definition postReconnect (id : Z) (attempt : nat) : Prog unit := post id (DReconnect attempt).

(** ** Leaving a connection *)

Definition isEmpty (c : Client) : bool := bool_decide (operations_ c = ∅).

Definition becomeIdleLocked (c : Client) : Client * option Z :=
  (set_connection_ None (set_connectingAttempt_ 0 (set_currentReconnectAttempt_ 0
    (set_state_ Idle (set_generation_ (generation_ c + 1) c)))), connection_ c).

Definition closeConnection (connection : option Z) (code : Z) (reason : bytes) : Prog unit :=
  match connection with Some g => ask (HClose g code reason);; Ret tt | None => Ret tt end.

(** Erasing an operation, and the connection with the last one. *)
Definition erase (id : Z) (c : Client) : Client * option Z :=
  let c := set_operations_ (operations_ c ∖ {[id]}) c in
  if isEmpty c then becomeIdleLocked c else (c, None).

Definition finishOperationError (id : Z) (error : GraphQLSubscriptionError) : Prog unit :=
  erased ← locked (λ c,
    if bool_decide (id ∉ operations_ c) then (c, None) else
    let '(c, connection) := erase id (withOperation inactive id c) in (c, Some connection));
  match erased with
  | None => Ret tt
  | Some connection => closeConnection connection 1000 (chars "subscription failed");; postError id error
  end.

(** Every operation, deactivated and erased. *)
Definition dropAll (c : Client) : Client * list Z :=
  let ids := order (operations_ c) in
  (set_operations_ ∅ (foldr (withOperation inactive) c ids), ids).

Definition failAll (g : Z) (error : GraphQLSubscriptionError) (closeCode : Z) : Prog unit :=
  dropped ← locked (λ c,
    if shutdown_ c || negb (g =? generation_ c) then (c, None) else
    let connection := connection_ c in
    let c := set_connection_ None (set_currentReconnectAttempt_ 0 (set_state_ Idle (set_generation_ (generation_ c + 1) c))) in
    let '(c, ids) := dropAll c in (c, Some (connection, ids)));
  match dropped with
  | None => Ret tt
  | Some (connection, ids) =>
      closeConnection connection closeCode (se_code error);; forEach ids (λ id, postError id error)
  end.

Definition failConnection (g : Z) (error : GraphQLSubscriptionError) (closeCode : Z) : Prog unit :=
  failAll g (set_closeCode closeCode error) closeCode.

(** What [handleConnectionFailure] decides under the lock. *)
Inductive Failure :=
| FStale | FUndefined
| FRetry (connection : option Z) (rediscover : bool)
| FEnd (connection : option Z) (finalError : GraphQLSubscriptionError) (exhausted : list Z).

Definition exhaustedError (error : GraphQLSubscriptionError) : GraphQLSubscriptionError :=
  set_closeCode (se_closeCode error) (protocolError KReconnectExhausted (se_status error) (chars "RECONNECT_EXHAUSTED")
    (chars "GraphQL WebSocket reconnect limit reached: " ++ se_message error)).

(** The critical section of [handleConnectionFailure]. [now c + delay] does not overflow here
    ([Clock::now() + milliseconds] does for delays of hundreds of years). *)
Definition decideFailure (g : Z) (error : GraphQLSubscriptionError) (c : Client) : Client * Failure :=
  if shutdown_ c || negb (g =? generation_ c) then (c, FStale) else
  let connection := connection_ c in
  let c := set_generation_ (generation_ c + 1) (set_connection_ None c) in
  let terminal finalError :=
    let '(c, exhausted) := dropAll (set_currentReconnectAttempt_ 0 (set_state_ Idle c)) in
    (c, FEnd connection finalError exhausted) in
  if isEmpty c then (set_currentReconnectAttempt_ 0 (set_state_ Idle c), FRetry connection false)
  else if (so_maxReconnectAttempts options =? 0)%nat then terminal error
  else if (so_maxReconnectAttempts options <=? currentReconnectAttempt_ c)%nat then terminal (exhaustedError error)
  else
    let attempt := S (currentReconnectAttempt_ c) in
    match reconnectDelay varied options attempt (random_ c) with
    | None => (c, FUndefined)
    | Some (delay, random) =>
        let c := set_random_ random (set_reconnectDeadline_ (now c + delay) (set_state_ Backoff (set_currentReconnectAttempt_ attempt c))) in
        (c, FRetry connection ((0 <? rediscoverAfterFailures_ c) && (rediscoverAfterFailures_ c <=? Z.of_nat attempt) && onRepeatedFailure_ c))
    end.

Definition handleConnectionFailure (g : Z) (error : GraphQLSubscriptionError) : Prog unit :=
  if se_terminal error || negb (se_retryable error) then failAll g error 1000 else
  failure ← locked (decideFailure g error);
  match failure with
  | FStale => Ret tt
  | FUndefined => Undefined
  | FRetry connection rediscover =>
      closeConnection connection 1001 (chars "reconnecting");;
      (if (rediscover : bool) then ask HRediscover;; Ret tt else Ret tt)
  | FEnd connection finalError exhausted =>
      closeConnection connection 1001 (chars "reconnecting");; forEach exhausted (λ id, postError id finalError)
  end.

(** ** Sending *)

Definition isCurrent (g : Z) (c : Client) : bool := negb (shutdown_ c) && (g =? generation_ c).
Definition generationIsCurrent (g : Z) : Prog bool := locked (λ c, (c, isCurrent g c)).

Definition ioError (status : Status) (message : string) : GraphQLSubscriptionError :=
  mapTransportError (mkWsError WIo status (chars message) true).

Definition sendConnectionFrame (g : Z) (connection : option Z) (m : Message) : Prog unit :=
  match connection with
  | None => Ret tt
  | Some cn =>
      current ← generationIsCurrent g;
      if negb current then Ret tt else
      let text := textOf m in
      if tooLarge text || negb (validUtf8 text) then
        failConnection g (protocolError (if tooLarge text then KFrameTooLarge else KInvalidUtf8)
            (if tooLarge text then BufferTooSmall else Malformed)
            (if tooLarge text then chars "FRAME_TOO_LARGE" else chars "INVALID_UTF8")
            (chars "Outbound GraphQL WebSocket message violates frame limits"))
          (if tooLarge text then 1009 else 1007)
      else
        status ← ask (HSend cn (OText m));
        match status with
        | Failed e => handleConnectionFailure g (ioError e "Failed to send GraphQL WebSocket message")
        | _ => Ret tt
        end
  end.

Definition activeRequest (id : Z) (c : Client) : option GraphQLSubscriptionRequest :=
  match heap c !! id with Some o => if op_active o then Some (op_request o) else None | None => None end.

Definition sendSubscribe (id g : Z) : Prog unit :=
  request ← locked (λ c, (c, activeRequest id c));
  match request with
  | None => Ret tt
  | Some request =>
      let text := textOf (MSubscribe id request) in
      if tooLarge text then
        finishOperationError id (protocolError KFrameTooLarge BufferTooSmall (chars "FRAME_TOO_LARGE")
          (chars "GraphQL subscribe message exceeded the frame limit"))
      else if negb (validUtf8 text) then
        finishOperationError id (protocolError KInvalidUtf8 Malformed (chars "INVALID_UTF8")
          (chars "GraphQL subscribe message is not valid UTF-8"))
      else
        connection ← locked (λ c,
          if negb (isCurrent g c) || negb (bool_decide (state_ c = Ready)) || bool_decide (id ∉ operations_ c)
          then (c, None) else (c, connection_ c));
        sendConnectionFrame g connection (MSubscribe id request)
  end.

(** ** Receiving *)

Definition handleOpen (g : Z) : Prog unit :=
  opened ← locked (λ c,
    if negb (isCurrent g c) || negb (bool_decide (state_ c = Connecting)) then (c, None) else
    let c := set_acknowledgementDeadline_ (now c + Z.max 0 (so_acknowledgementTimeoutMs options))
               (set_state_ AwaitingAcknowledgement c) in
    (c, Some (connection_ c)));
  match opened with
  | None => Ret tt
  | Some connection =>
      token ← locked (λ c, (c, token_ c));
      sendConnectionFrame g connection (MInit token)
  end.

(** One operation of the replay after an acknowledgement. *)
Definition resubscribe (g : Z) (reconnectAttempt : nat) (id : Z) : Prog unit :=
  active ← locked (λ c, (c, match heap c !! id with Some o => op_active o | None => false end));
  if negb active then Ret tt else
  replay ← locked (λ c, (withOperation subscribed id c,
    match heap c !! id with Some o => op_subscribedOnce o && cb_onReconnect (op_callbacks o) | None => false end));
  (if (replay : bool) then postReconnect id reconnectAttempt else Ret tt);;
  sendSubscribe id g.

Inductive Acknowledged := AckStale | AckUnexpected | AckReady (ids : list Z) (reconnectAttempt : nat).

Definition handleAcknowledgement (g : Z) : Prog unit :=
  acknowledged ← locked (λ c,
    if negb (isCurrent g c) then (c, AckStale)
    else if negb (bool_decide (state_ c = AwaitingAcknowledgement)) then (c, AckUnexpected)
    else (set_currentReconnectAttempt_ 0 (set_state_ Ready c), AckReady (order (operations_ c)) (connectingAttempt_ c)));
  match acknowledged with
  | AckStale => Ret tt
  | AckUnexpected =>
      failConnection g (protocolError KProtocol Malformed (chars "UNEXPECTED_CONNECTION_ACK")
        (chars "Received connection_ack outside the handshake")) 4400
  | AckReady ids attempt => forEach ids (resubscribe g attempt)
  end.

(** [operations_.find(id)]: the ids are the texts of numbers. *)
Definition findOperation (id : bytes) (c : Client) : option Z :=
  match list_find (λ n, decimal n = id) (order (operations_ c)) with Some (_, n) => Some n | None => None end.

Definition handleNext (g : Z) (id : bytes) (payload : View) : Prog unit :=
  found ← locked (λ c,
    if negb (isCurrent g c) || negb (bool_decide (state_ c = Ready)) then (c, None) else (c, findOperation id c));
  match found with
  | None => Ret tt
  | Some id =>
      if negb (isObject payload) then
        finishOperationError id (protocolError KProtocol Malformed (chars "INVALID_NEXT_PAYLOAD")
          (chars "GraphQL subscription next payload is not an object"))
      else
        let data := field payload (chars "data") in
        match parseGraphQLErrors (field payload (chars "errors")) with
        | None => Undefined
        | Some errors =>
            let status := if bool_decide (errors = []) then Ok else Rejected in
            if bool_decide (data = None) && bool_decide (errors = []) then
              finishOperationError id (protocolError KProtocol Malformed (chars "EMPTY_NEXT_PAYLOAD")
                (chars "GraphQL subscription next payload has no data or errors"))
            else postNext id (mkOutcome status data errors payload)
        end
  end.

Definition handleOperationError (g : Z) (id : bytes) (payload : View) : Prog unit :=
  found ← locked (λ c, (c, if isCurrent g c then findOperation id c else None));
  match found with
  | None => Ret tt
  | Some id =>
      match parseGraphQLErrors payload with
      | None => Undefined
      | Some [] =>
          finishOperationError id (protocolError KProtocol Malformed (chars "INVALID_ERROR_PAYLOAD")
            (chars "GraphQL subscription error payload is malformed"))
      | Some errors => finishOperationError id (classifyGraphQLError errors)
      end
  end.

Definition handleComplete (g : Z) (id : bytes) : Prog unit :=
  completed ← locked (λ c,
    match (if isCurrent g c then findOperation id c else None) with
    | None => (c, None)
    | Some id => let '(c, connection) := erase id (withOperation inactive id c) in (c, Some (id, connection))
    end);
  match completed with
  | None => Ret tt
  | Some (id, connection) => closeConnection connection 1000 (chars "all subscriptions complete");; postComplete id
  end.

(** The connection, if the generation still is this one. *)
Definition currentConnection (g : Z) : Prog (option (option Z)) :=
  locked (λ c, (c, if g =? generation_ c then Some (connection_ c) else None)).

Definition handleFrame (g : Z) (frame : WebSocketFrame) : Prog unit :=
  current ← generationIsCurrent g;
  if negb current then Ret tt else
  let payload := fr_payload frame in
  let refuse kind status code message closeCode :=
    failConnection g (protocolError kind status (chars code) message) closeCode in
  if tooLarge payload then
    refuse KFrameTooLarge BufferTooSmall "FRAME_TOO_LARGE"%string
      (chars "WebSocket message exceeded the configured frame limit") 1009
  else match fr_kind frame with
  | FPing =>
      connection ← currentConnection g;
      match connection with
      | None | Some None => Ret tt
      | Some (Some cn) =>
          status ← ask (HSend cn (OPong payload));
          match status with
          | Failed e => handleConnectionFailure g (ioError e "Failed to send WebSocket pong")
          | _ => Ret tt
          end
      end
  | FPong => Ret tt
  | FBinary =>
      refuse KProtocol Malformed "BINARY_FRAME"%string (chars "graphql-transport-ws requires text JSON messages") 1003
  | FText =>
      if negb (validUtf8 payload) then
        refuse KInvalidUtf8 Malformed "INVALID_UTF8"%string (chars "WebSocket text message is not valid UTF-8") 1007
      else
        let message := parseJson payload in
        if negb (isObject message) || negb (isString (field message (chars "type"))) then
          refuse KProtocol Malformed "INVALID_PROTOCOL_MESSAGE"%string
            (chars "WebSocket message is not a graphql-transport-ws object") 4400
        else
          let type := asString (field message (chars "type")) [] in
          let id := asString (field message (chars "id")) [] in
          let body := field message (chars "payload") in
          if bool_decide (type = chars "connection_ack") then handleAcknowledgement g
          else if bool_decide (type = chars "ping") then
            connection ← currentConnection g;
            match connection with
            | None => Ret tt
            | Some connection => sendConnectionFrame g connection (MPong body)
            end
          else if bool_decide (type = chars "pong") then Ret tt
          else if bool_decide (type = chars "next") then handleNext g id body
          else if bool_decide (type = chars "error") then handleOperationError g id body
          else if bool_decide (type = chars "complete") then handleComplete g id
          else refuse KProtocol Malformed "UNKNOWN_PROTOCOL_MESSAGE"%string
                 (chars "Unknown graphql-transport-ws message type: " ++ type) 4400
  end.

Definition handleEvent (g : Z) (event : WebSocketEvent) : Prog unit :=
  match event with
  | EvOpen => handleOpen g
  | EvFrame frame => handleFrame g frame
  | EvClose close => handleConnectionFailure g (mapClose close)
  | EvError error => handleConnectionFailure g (mapTransportError error)
  end.

(** ** Connecting *)

Definition connectionError (kind : WebSocketErrorKind) (status : Status) (message : bytes) : GraphQLSubscriptionError :=
  mapTransportError (mkWsError kind status message true).

Definition startConnection (attempt : nat) : Prog unit :=
  started ← locked (λ c,
    if shutdown_ c || isEmpty c || negb (bool_decide (state_ c = Idle) || bool_decide (state_ c = Backoff)) then (c, None) else
    let g := generation_ c + 1 in
    (set_connectingAttempt_ attempt (set_generation_ g (set_state_ Connecting c)),
     Some (g, mkConnectRequest (endpoint_ c) (so_connectTimeoutMs options) (so_maxFrameBytes options))));
  match started with
  | None => Ret tt
  | Some (g, request) =>
      created ← ask (HCreate g request);
      match created with
      | Threw what => handleConnectionFailure g (connectionError WConnection SocketError
          (chars "WebSocket connection creation failed: " ++ what))
      | Null | Failed _ => handleConnectionFailure g (connectionError WUnavailable NotConnected
          (chars "WebSocket transport could not create a connection"))
      | Done =>
          stale ← locked (λ c,
            if negb (isCurrent g c) || negb (bool_decide (state_ c = Connecting)) then
              (log (HClose g 1000 (chars "stale connection")) c, true)
            else (set_connection_ (Some g) c, false));
          if stale then Ret tt else
          running ← ask (HStart g);
          match running with
          | Threw what => handleConnectionFailure g (connectionError WConnection SocketError
              (chars "WebSocket transport start failed: " ++ what))
          | _ => Ret tt
          end
      end
  end.

Definition ensureTimerThread : Prog unit :=
  update (λ c, if timerStarted_ c || shutdown_ c then c else set_timerStarted_ true c).

(** A turn of [timerLoop]: what it waits for, then, at a deadline that has passed, the timeout of
    an acknowledgement or a reconnect. *)
Definition timerTurn : Prog unit :=
  observed ← locked (λ c, (c,
    if shutdown_ c then None else
    match state_ c with
    | AwaitingAcknowledgement => Some (AwaitingAcknowledgement, acknowledgementDeadline_ c)
    | Backoff => Some (Backoff, reconnectDeadline_ c)
    | _ => None
    end));
  match observed with
  | None => Ret tt
  | Some (state, deadline) =>
      due ← locked (λ c, (c,
        if shutdown_ c || negb (bool_decide (state_ c = state)) || (now c <? deadline) then None
        else Some (generation_ c, connection_ c, currentReconnectAttempt_ c)));
      match due with
      | None => Ret tt
      | Some (g, connection, attempt) =>
          if bool_decide (state = AwaitingAcknowledgement) then
            closeConnection connection 4408 (chars "connection acknowledgement timeout");;
            handleConnectionFailure g (connectionError WTimeout Timeout (chars "Timed out waiting for connection_ack"))
          else startConnection attempt
      end
  end.

(** ** The application's calls *)

Definition refusal (request : GraphQLSubscriptionRequest) (c : Client) : option GraphQLSubscriptionError :=
  if shutdown_ c then Some (protocolError KTransport Closed (chars "CLIENT_CLOSED")
    (chars "GraphQL subscription client is closed"))
  else if bool_decide (rq_document request = []) then Some (protocolError KProtocol InvalidArgument (chars "EMPTY_DOCUMENT")
    (chars "GraphQL subscription document is empty"))
  else if bool_decide (endpoint_ c = []) then Some (protocolError KProtocol InvalidArgument (chars "INVALID_WEBSOCKET_URL")
    (chars "GraphQL WebSocket endpoint is invalid"))
  else if (so_maxFrameBytes options =? 0)%nat then Some (protocolError KFrameTooLarge InvalidArgument
    (chars "INVALID_FRAME_LIMIT") (chars "WebSocket frame limit must be greater than zero"))
  else if negb (sc_transport config) then Some (protocolError KTransportUnavailable NotConnected
    (chars "WEBSOCKET_TRANSPORT_UNAVAILABLE")
    (chars "No default WebSocket transport is available; inject IWebSocketTransport"))
  else None.

(** What [subscribe] does after its critical section. *)
Inductive Subscribed := SRefused (error : GraphQLSubscriptionError) | SConnect | SSend (g : Z) | SWait.

(** The handle that is returned is the id. *)
Definition subscribe (request : GraphQLSubscriptionRequest) (callbacks : GraphQLSubscriptionCallbacks) : Prog Z :=
  made ← locked (λ c,
    let id := nextOperationId_ c in
    let c := set_nextOperationId_ (id + 1) c in
    let add active once c := set_heap (<[id := mkOperation request callbacks once active false]> (heap c)) c in
    match refusal request c with
    | Some error => (add false false c, (id, SRefused error))
    | None =>
        let c := set_operations_ ({[id]} ∪ operations_ c) c in
        match state_ c with
        | Idle => (add true false c, (id, SConnect))
        | Ready => (add true true c, (id, SSend (generation_ c)))
        | _ => (add true false c, (id, SWait))
        end
    end);
  let '(id, next) := made in
  match next with
  | SRefused error => postError id error
  | SConnect => ensureTimerThread;; startConnection 0
  | SSend g => ensureTimerThread;; sendSubscribe id g
  | SWait => ensureTimerThread
  end;;
  Ret id.

Definition cancelOperation (id : Z) : Prog unit :=
  removed ← locked (λ c,
    if bool_decide (id ∉ operations_ c) then (c, None) else
    let connection := if bool_decide (state_ c = Ready) then connection_ c else None in
    let '(c, closing) := erase id c in (c, Some (connection, closing)));
  match removed with
  | None => Ret tt
  | Some (connection, closing) =>
      (match connection with
       | Some cn => if tooLarge (textOf (MComplete id)) then Ret tt else ask (HSend cn (OText (MComplete id)));; Ret tt
       | None => Ret tt end);;
      closeConnection closing 1000 (chars "subscription cancelled")
  end.

(** [SubscriptionHandle::cancel]. *)
Definition cancel (id : Z) : Prog unit :=
  update (λ c, log (HCancelled id) (withOperation cancelled id c));;
  was ← locked (λ c, (withOperation inactive id c, match heap c !! id with Some o => op_active o | None => false end));
  if negb was then Ret tt else cancelOperation id.

Definition shutdown : Prog unit :=
  closed ← locked (λ c,
    if shutdown_ c then (c, None) else
    let connection := connection_ c in
    let c := set_connection_ None (set_state_ Idle (set_generation_ (generation_ c + 1) (set_shutdown_ true c))) in
    let ids := order (operations_ c) in
    let '(c, _) := dropAll c in
    (foldr (withOperation cancelled) c ids, connection));
  closeConnection closed 1000 (chars "client closed").

Definition reconnectNow (c : Client) : Client :=
  set_reconnectDeadline_ (now c) (set_state_ Backoff (set_currentReconnectAttempt_ 1
    (set_generation_ (generation_ c + 1) (set_connection_ None c)))).

Definition setEndpoint (next : bytes) : Prog bool :=
  match normalizeGraphQLWebSocketUrl next (sc_endpointKind config) with
  | Err _ => Ret false
  | Val url =>
      if bool_decide (url = []) then Ret false else
      moved ← locked (λ c,
        if shutdown_ c || bool_decide (url = endpoint_ c) then (c, None) else
        let c := set_endpoint_ url c in
        if isEmpty c then (c, Some (false, None)) else (reconnectNow c, Some (true, connection_ c)));
      match moved with
      | None => Ret false
      | Some (reconnect, connection) =>
          (if (reconnect : bool) then ensureTimerThread else Ret tt);;
          closeConnection connection 1000 (chars "endpoint moved");; Ret true
      end
  end.

Definition setRepeatedFailureHandler (afterFailures : Z) (given : bool) : Prog unit :=
  update (λ c, set_onRepeatedFailure_ given (set_rediscoverAfterFailures_ afterFailures c)).

Definition credentialsChanged : Prog unit :=
  moved ← locked (λ c, if shutdown_ c || isEmpty c then (c, None) else (reconnectNow c, Some (connection_ c)));
  match moved with
  | None => Ret tt
  | Some connection => ensureTimerThread;; closeConnection connection 1000 (chars "credentials changed")
  end.

(** [AuthState::setToken] and [clearToken]; this client is the listener. *)
Definition setToken (token : bytes) : Prog unit :=
  changed ← locked (λ c, if bool_decide (token_ c = token) then (c, false) else (set_token_ token c, true));
  if changed then credentialsChanged else Ret tt.

(** ** The dispatcher *)

(** A queued completion: its callback begins unless the operation was cancelled. *)
Definition deliver (x : Z * Delivery) : Prog unit :=
  update (λ c, match heap c !! x.1 with
               | Some o => if op_cancelled o then c else log (HDeliver x.1 x.2) c
               | None => c end).

Fixpoint deliverAll (pending : list (Z * Delivery)) : Prog nat :=
  match pending with
  | [] => Ret O
  | x :: pending =>
      stop ← locked (λ c, (c, closed_ c));
      if stop then Ret O else deliver x;; n ← deliverAll pending; Ret (S n)
  end.

Definition drain : Prog nat :=
  pending ← locked (λ c, if closed_ c then (c, []) else (set_queue_ [] c, queue_ c));
  deliverAll pending.

Definition closeDispatcher : Prog unit := update (λ c, set_queue_ [] (set_closed_ true c)).

(** ** The threads together *)

Inductive Entry :=
| CSubscribe (request : GraphQLSubscriptionRequest) (callbacks : GraphQLSubscriptionCallbacks)
| CCancel (id : Z) | CShutdown | CSetEndpoint (url : bytes) | CSetRepeatedFailureHandler (after : Z) (given : bool)
| CSetToken (token : bytes) | CPoll | CCloseDispatcher | CTimer | CEvent (g : Z) (event : WebSocketEvent).

Definition program (e : Entry) : Prog unit :=
  match e with
  | CSubscribe request callbacks => subscribe request callbacks;; Ret tt
  | CCancel id => cancel id
  | CShutdown => shutdown
  | CSetEndpoint url => setEndpoint url;; Ret tt
  | CSetRepeatedFailureHandler after given => setRepeatedFailureHandler after given
  | CSetToken token => setToken token
  | CPoll => drain;; Ret tt
  | CCloseDispatcher => closeDispatcher
  | CTimer => timerTurn
  | CEvent g event => handleEvent g event
  end.

(** A handle exists before it is cancelled, the timer thread before its turns, and a connection
    speaks once it is started. *)
Definition allowed (e : Entry) (c : Client) : bool :=
  match e with
  | CCancel id => bool_decide (is_Some (heap c !! id))
  | CTimer => timerStarted_ c
  | CEvent g _ => existsb (λ h, match h with HStart g' => g =? g' | _ => false end) (history c)
  | _ => true
  end.

Definition enter (e : Entry) (c : Client) : Client :=
  match e with CEvent g event => log (HReceived g event) c | _ => c end.

(** One step of a thread; [answer] is for a call. *)
Definition stepProg {A} (answer : Answer) (p : Prog A) (c : Client) : option (Client * Prog A) :=
  match p with
  | Ret _ | Undefined => None
  | Locked f k => let '(c, b) := f c in Some (c, k b)
  | Ask h k => Some (log h c, k answer)
  end.

(** A thread alone: the client it leaves, and its result if it has one. *)
Fixpoint runProg {A} (world : Happening → Answer) (p : Prog A) (c : Client) : Client * option A :=
  match p with
  | Ret a => (c, Some a)
  | Undefined => (c, None)
  | Locked f k => let '(c, b) := f c in runProg world (k b) c
  | Ask h k => runProg world (k (world h)) (log h c)
  end.

Inductive Move := MEnter (e : Entry) | MRun (thread : nat) (answer : Answer) | MTick (ms : nat).

Record System := mkSystem { sy_client : Client; sy_threads : list (Prog unit) }.

Definition move (m : Move) (s : System) : option System :=
  let c := sy_client s in
  let threads := sy_threads s in
  match m with
  | MEnter e => if allowed e c then Some (mkSystem (enter e c) (threads ++ [program e])) else None
  | MRun i answer =>
      match threads !! i with
      | Some p => match stepProg answer p c with Some (c, p) => Some (mkSystem c (<[i := p]> threads)) | None => None end
      | None => None
      end
  | MTick ms => Some (mkSystem (set_now (now c + Z.of_nat ms) c) threads)
  end.

Fixpoint moves (l : list Move) (s : System) : option System :=
  match l with
  | [] => Some s
  | m :: l => match move m s with Some s => moves l s | None => None end
  end.

(** The constructor. *)
Definition makeClient (g : random) (token : bytes) (time : Z) : Client :=
  mkClient (match normalizeGraphQLWebSocketUrl (sc_endpoint config) (sc_endpointKind config) with Val url => url | Err _ => [] end)
    false false Idle 0 1 0 0 false 0 0 0 None ∅ g ∅ token [] false time [].

Definition reachable (s : System) : Prop :=
  ∃ g token time l, moves l (mkSystem (makeClient g token time) []) = Some s.
End Methods.

(** ** A concrete run

    A world small enough to compute with: messages are the words [ack] and [next 1]. *)
Module Demo.

Definition parse (p : bytes) : View :=
  if bool_decide (p = chars "ack") then Some (JObj [(chars "type", JStr (chars "connection_ack"))])
  else if bool_decide (p = chars "next 1") then
    Some (JObj [(chars "type", JStr (chars "next")); (chars "id", JStr (chars "1"));
                (chars "payload", JObj [(chars "data", JUint 7)])])
  else None.

Definition env : SubEnv := {|
  random := unit; varied := λ g _ d, (d, g); order := λ s : gset Z, base.elements s; parseJson := parse;
  writeJson := λ _, []; formatDouble := λ _, [] |}.

Lemma env_laws : @SubEnvLaws env.
Proof. intros s. done. Defined.

#[local] Existing Instance env.

Definition config (attempts : nat) : SubConfig :=
  mkSubConfig (chars "https://host/api") (mkSubOptions 10000 10000 250 10000 attempts (1 # 5) 4096) ApiBase true.
Definition request : GraphQLSubscriptionRequest := mkRequest (chars "subscription { x }") VNull [].
Definition callbacks : GraphQLSubscriptionCallbacks := mkCallbacks true true true true.

Definition initial (attempts : nat) : System := mkSystem (makeClient (config attempts) tt (chars "token") 0) [].

(** [n] steps of thread [i], answered well. *)
Definition steps (i n : nat) : list Move := repeat (MRun i Done) n.
Definition frame (text : string) : WebSocketEvent := EvFrame (mkFrame FText (chars text)).

(** One subscription, up to the acknowledgement and its replay. *)
Definition opened : list Move :=
  MEnter (CSubscribe request callbacks) :: steps 0 6 ++ MEnter (CEvent 1 EvOpen) :: steps 1 4.
Definition acknowledged : list Move := opened ++ MEnter (CEvent 1 (frame "ack")) :: steps 2 8.

(** The server closes the connection, and the time to reconnect comes. *)
Definition dropped : list Move :=
  acknowledged ++ MEnter (CEvent 1 (EvClose (mkClose 1006 []))) :: steps 3 2 ++ [MTick 1000].

(** A value arrives while another thread's failed send ends every operation; then callbacks are run. *)
Definition overtaken : list Move :=
  acknowledged ++ MEnter (CEvent 1 (frame "next 1")) :: steps 3 2 ++
  MEnter (CSubscribe request callbacks) :: steps 4 5 ++ MRun 4 (Failed SocketError) :: steps 4 4 ++
  steps 3 1 ++ MEnter CPoll :: steps 5 7.

(** Two subscriptions; the one that is replayed first is cancelled while it is about to be sent. *)
Definition orphaned : list Move :=
  MEnter (CSubscribe request callbacks) :: steps 0 6 ++ MEnter (CSubscribe request callbacks) :: steps 1 2 ++
  MEnter (CEvent 1 EvOpen) :: steps 2 4 ++ MEnter (CEvent 1 (frame "ack")) :: steps 3 7 ++
  MEnter (CCancel 2) :: steps 4 4 ++ steps 3 1.

(** The system after these moves. *)
Definition after (attempts : nat) (l : list Move) : System :=
  match moves (config attempts) l (initial attempts) with Some s => s | None => initial attempts end.

Lemma after_reachable attempts l :
  bool_decide (is_Some (moves (config attempts) l (initial attempts))) = true → reachable (config attempts) (after attempts l).
Proof.
  intros [s Hs]%bool_decide_eq_true. exists tt, (chars "token"), 0, l. unfold after, initial in *. by rewrite Hs.
Defined.

End Demo.
