(* ===== verification/SubscriptionLaws.v ===== *)
(** * Rules of the subscription client's programs

    Reasoning about threads that share the client under a lock: [Inv] holds between any two steps;
    [later] says how the client only ever moves on; a [Token] is the right to do something at most
    once (each is somewhere: with the client or with one thread), a [Duty] something a thread has
    still to do. [wp p c r ds Q]: run among other threads from [c] or later, with the rights [r] and
    the duties [ds], every step of [p] keeps all that, and [Q] holds at its end. *)

From Stdlib Require Import QArith.
From S2P Require Import Prelude Bytes Core Json Endpoint SubErrors Subscription.

Open Scope Z_scope.

(** ** Rights and duties *)

(** To report the end of an operation; to send [subscribe] for it, or [connection_init], on a
    connection; to start a connection. *)
Inductive Token := TTerm (id : Z) | TSub (g id : Z) | TInit (g : Z) | TStart (g : Z).

#[global] Instance Token_eq_dec : EqDecision Token.
Proof. solve_decision. Defined.

(** To connect; to start the timer thread; to start the connection that was announced. *)
Inductive Duty := DConnect | DTimer | DStart (g : Z).

#[global] Instance Duty_eq_dec : EqDecision Duty.
Proof. solve_decision. Defined.

Definition isTerminal (d : Delivery) : bool := match d with DError _ | DComplete => true | _ => false end.

Definition once (b : bool) : nat := if b then 1%nat else 0%nat.

(** How often a right was used. *)
Definition spent (t : Token) (h : Happening) : nat :=
  match t, h with
  | TTerm id, HDeliver id' d => once (isTerminal d && (id =? id'))
  | TSub g id, HSend g' (OText (MSubscribe id' _)) => once ((g =? g') && (id =? id'))
  | TInit g, HSend g' (OText (MInit _)) => once (g =? g')
  | TStart g, HStart g' => once (g =? g')
  | _, _ => 0%nat
  end.

Definition inQueue (t : Token) (x : Z * Delivery) : nat :=
  match t with TTerm id => once (isTerminal x.2 && (id =? x.1)) | _ => 0%nat end.

Definition times (t : Token) (r : list Token) : nat := length (filter (λ x, x = t) r).

Lemma times_app t r1 r2 : times t (r1 ++ r2) = (times t r1 + times t r2)%nat.
Proof. unfold times. by rewrite list.filter_app, length_app. Qed.
Lemma times_nil t : times t [] = 0%nat.
Proof. done. Qed.
Lemma times_cons t x r : times t (x :: r) = (once (bool_decide (x = t)) + times t r)%nat.
Proof. unfold times. rewrite list.filter_cons. by repeat case_decide; case_bool_decide. Qed.

Section Laws.
Context `{HE : SubEnv} (config : SubConfig).

(** The right with the client: an operation that has not ended, an end that is queued, and what
    was used already. *)
Definition loc (c : Client) (t : Token) : nat :=
  (match t with TTerm id => once (bool_decide (id ∈ operations_ c)) | _ => 0%nat end +
   sum_list_with (inQueue t) (queue_ c) + sum_list_with (spent t) (history c))%nat.

Definition isAck (f : WebSocketFrame) : Prop := asString (field (parseJson (fr_payload f)) (chars "type")) [] = chars "connection_ack".

(** A connection was acknowledged in this history. *)
Definition acked (l : list Happening) (g : Z) : Prop := ∃ f, HReceived g (EvFrame f) ∈ l ∧ isAck f.

Definition rank (s : ConnectionState) : nat :=
  match s with Idle | Backoff => 0 | Connecting => 1 | AwaitingAcknowledgement => 2 | Ready => 3 end%nat.

(** The right has been given out. *)
Definition granted (c : Client) (t : Token) : Prop :=
  match t with
  | TTerm id => id < nextOperationId_ c
  | TSub g id => id < nextOperationId_ c ∧ (g < generation_ c ∨ g = generation_ c ∧ state_ c = Ready) ∧ acked (history c) g
  | TInit g => g < generation_ c ∨ g = generation_ c ∧ (2 ≤ rank (state_ c))%nat
  | TStart g => g ≤ generation_ c
  end.

Definition due (c : Client) (d : Duty) : Prop :=
  match d with
  | DConnect => state_ c = Idle ∧ operations_ c ≠ ∅
  | DTimer => operations_ c ≠ ∅ ∧ timerStarted_ c = false
  | DStart g => state_ c = Connecting ∧ generation_ c = g ∧ HStart g ∉ history c
  end.

(** ** The invariant *)

(** What may happen after a history. *)
Definition said (l : list Happening) (h : Happening) : Prop :=
  match h with
  | HSend g (OText (MSubscribe _ _)) | HSend g (OText (MComplete _)) => acked l g
  | HSend g _ | HReceived g _ => HStart g ∈ l
  | HDeliver id _ => HCancelled id ∉ l
  | _ => True
  end.
Definition log_ok (l : list Happening) : Prop := ∀ pre h post, l = pre ++ h :: post → said pre h.

Record Inv (c : Client) : Prop := {
  i_conn : ∀ g, connection_ c = Some g → g = generation_ c ∧ (1 ≤ rank (state_ c))%nat;
  i_busy : state_ c ≠ Idle → operations_ c ≠ ∅;
  i_down : shutdown_ c = true → operations_ c = ∅;
  i_open : (2 ≤ rank (state_ c))%nat → connection_ c = Some (generation_ c);
  i_start : ∀ g, HStart g ∈ history c → g ≤ generation_ c ∧
    (g = generation_ c → (1 ≤ rank (state_ c))%nat → connection_ c = Some g);
  i_ids : ∀ id, id ∈ operations_ c → is_Some (heap c !! id);
  i_heap : ∀ id, is_Some (heap c !! id) → id < nextOperationId_ c;
  i_active : ∀ id o, heap c !! id = Some o → op_active o = true → id ∈ operations_ c;
  i_acked : state_ c = Ready → acked (history c) (generation_ c);
  i_attempt : (currentReconnectAttempt_ c ≤ Nat.max 1 (so_maxReconnectAttempts (options config)))%nat;
  i_cancel : ∀ id, HCancelled id ∈ history c → ∃ o, heap c !! id = Some o ∧ op_cancelled o = true;
  i_log : log_ok (history c) }.

(** ** Moving on *)

Definition same_operation (o o' : Operation) : Prop :=
  op_request o' = op_request o ∧ op_callbacks o' = op_callbacks o ∧ (op_cancelled o = true → op_cancelled o' = true) ∧
  (op_active o' = true → op_active o = true).

Record later (c c' : Client) : Prop := {
  l_generation : generation_ c ≤ generation_ c';
  l_history : prefix (history c) (history c');
  l_next : nextOperationId_ c ≤ nextOperationId_ c';
  l_heap : ∀ id o, heap c !! id = Some o → ∃ o', heap c' !! id = Some o' ∧ same_operation o o';
  l_same : generation_ c' = generation_ c → (rank (state_ c) ≤ rank (state_ c'))%nat ∧
    ∀ g, connection_ c = Some g → connection_ c' = Some g }.

#[global] Instance later_preorder : PreOrder later.
Proof.
  split.
  - intros c. constructor; [lia|done|lia| |done]. intros id o Ho. exists o. done.
  - intros c1 c2 c3 [g1 h1 n1 p1 s1] [g2 h2 n2 p2 s2]. constructor; [lia|by etrans|lia|..].
    + intros id o Ho. destruct (p1 id o Ho) as (o1 & Ho1 & E1 & E2 & E3 & E4). destruct (p2 id o1 Ho1) as (o2 & Ho2 & F1 & F2 & F3 & F4).
      exists o2. split; [done|]. split_and!; [congruence|congruence|tauto|tauto].
    + intros Hg. destruct s1 as [r1 k1]; [lia|]. destruct s2 as [r2 k2]; [lia|]. split; [lia|]. intros g Hc. auto.
Qed.

Lemma later_in c c' h : later c c' → h ∈ history c → h ∈ history c'.
Proof. intros [_ [t E] _ _ _] Hh. rewrite E. apply elem_of_app. by left. Qed.

Lemma later_acked c c' g : later c c' → acked (history c) g → acked (history c') g.
Proof. intros Hl (f & Hf & Ha). exists f. split; [by eapply later_in|done]. Qed.

Lemma rank_Ready s : (3 ≤ rank s)%nat ↔ s = Ready.
Proof. destruct s; simpl; split; intros; try done; lia. Qed.

Lemma later_granted c c' t : later c c' → granted c t → granted c' t.
Proof.
  intros Hl. pose proof Hl as [Hg _ Hn _ Hs]. destruct t as [id|g id|g|g]; cbn [granted].
  - lia.
  - intros (Hid & Ho & Ha). split; [lia|]. split; [|by eapply later_acked].
    destruct Ho as [Ho|[-> Hr]]; [left; lia|]. destruct (decide (generation_ c' = generation_ c)) as [E|E]; [|left; lia].
    right. split; [done|]. apply rank_Ready. destruct (Hs E) as [Hk _]. rewrite Hr in Hk. done.
  - intros [Ho|[-> Hr]]; [left; lia|]. destruct (decide (generation_ c' = generation_ c)) as [E|E]; [|left; lia].
    right. split; [done|]. destruct (Hs E). lia.
  - lia.
Qed.

(** ** Steps *)

Definition holds (c : Client) (r : list Token) : Prop :=
  ∀ t, (loc c t + times t r ≤ 1)%nat ∧ ((0 < loc c t + times t r)%nat → granted c t).

Record good (c : Client) (r : list Token) (ds : list Duty) (c' : Client) (r' : list Token) (ds' : list Duty) : Prop := {
  g_inv : Inv c';
  g_later : later c c';
  g_rights : ∀ t, (loc c' t + times t r' ≤ loc c t + times t r)%nat ∨
    (¬ granted c t ∧ granted c' t ∧ (loc c' t + times t r' ≤ 1)%nat);
  g_duties : ∀ d, due c' d → d ∈ ds' ∨ (due c d ∧ d ∉ ds) }.

Fixpoint wp {A} (p : Prog A) (c0 : Client) (r : list Token) (ds : list Duty) (Q : A → Client → list Duty → Prop) : Prop :=
  match p with
  | Ret a => Q a c0 ds
  | Undefined => ds = []
  | Locked f k => ∀ c, later c0 c → Inv c → holds c r →
      let '(c', b) := f c in ∃ r' ds', good c r ds c' r' ds' ∧ wp (k b) c' r' ds' Q
  | Ask h k => ∀ c, later c0 c → Inv c → holds c r →
      ∃ r' ds', good c r ds (log h c) r' ds' ∧ ∀ a, wp (k a) (log h c) r' ds' Q
  end.

Lemma good_holds c r ds c' r' ds' : holds c r → good c r ds c' r' ds' → holds c' r'.
Proof.
  intros Hh [_ Hl Hr _] t. destruct (Hh t) as [H1 H2]. destruct (Hr t) as [Hle|(Hn & Hg & Hle)].
  - split; [lia|]. intros. eapply later_granted; [done|]. apply H2. lia.
  - done.
Qed.

Lemma holds_app c r1 r2 : holds c (r1 ++ r2) → holds c r1.
Proof.
  intros Hh t. destruct (Hh t) as [H1 H2]. rewrite times_app in H1, H2. split; [lia|]. intros. apply H2. lia.
Qed.

Lemma good_frame c r ds c' r' ds' rf :
  holds c (r ++ rf) → good c r ds c' r' ds' → good c (r ++ rf) ds c' (r' ++ rf) ds'.
Proof.
  intros Hh [Hi Hl Hr Hd]. constructor; [done|done| |done].
  intros t. rewrite !times_app. destruct (Hr t) as [Hle|(Hn & Hg & Hle)]; [left; lia|]. right. split_and!; [done|done|].
  destruct (Hh t) as [_ H2]. rewrite times_app in H2. destruct (decide (0 < times t rf)%nat); [|lia].
  destruct Hn. apply H2. lia.
Qed.

(** Rights may be given up. *)
Lemma wp_drop {A} (p : Prog A) c0 r1 r2 ds Q :
  (∀ t, times t r1 ≤ times t r2)%nat → wp p c0 r1 ds Q → wp p c0 r2 ds Q.
Proof.
  intros Hle. assert (∀ c, holds c r2 → holds c r1) as Hh.
  { intros c Hh t. destruct (Hh t) as [H1 H2]. specialize (Hle t). split; [lia|]. intros. apply H2. lia. }
  assert (∀ c c' r' ds', good c r1 ds c' r' ds' → good c r2 ds c' r' ds') as Hg.
  { intros c c' r' ds' [Hi Hl Hr Hd]. constructor; [done|done| |done]. intros t. specialize (Hle t).
    destruct (Hr t); [left; lia|by right]. }
  destruct p as [a| |B f k|h k]; cbn [wp]; try done.
  - intros Hp c Hl Hi Hh2. specialize (Hp c Hl Hi (Hh c Hh2)). destruct (f c) as [c' b].
    destruct Hp as (r' & ds' & ? & ?). eauto.
  - intros Hp c Hl Hi Hh2. destruct (Hp c Hl Hi (Hh c Hh2)) as (r' & ds' & ? & ?). eauto.
Qed.

Lemma wp_weaken {A} (p : Prog A) c0 r ds (Q Q' : A → Client → list Duty → Prop) :
  (∀ a c ds, Q a c ds → Q' a c ds) → wp p c0 r ds Q → wp p c0 r ds Q'.
Proof.
  intros HQ. revert c0 r ds. induction p as [a| |B f k IH|h k IH]; intros c0 r ds; cbn [wp]; [auto|done|..].
  - intros Hp c Hl Hi Hh. specialize (Hp c Hl Hi Hh). destruct (f c). destruct Hp as (r' & ds' & Hg & Hk). eauto.
  - intros Hp c Hl Hi Hh. destruct (Hp c Hl Hi Hh) as (r' & ds' & Hg & Hk). eauto 10.
Qed.

Lemma wp_later {A} (p : Prog A) c0 c1 r ds Q :
  (∀ a c c' ds, later c c' → Q a c ds → Q a c' ds) → later c0 c1 → wp p c0 r ds Q → wp p c1 r ds Q.
Proof.
  intros HQ Hl. destruct p as [a| |B f k|h k]; cbn [wp]; try done.
  - by apply HQ.
  - intros Hp c Hl'. apply Hp. by etrans.
  - intros Hp c Hl'. apply Hp. by etrans.
Qed.

(** Running [p] and then [f], which has rights of its own. *)
Lemma wp_then {A B} (p : Prog A) (f : A → Prog B) c0 r ds rf R Q :
  wp p c0 r ds (λ a c ds', ds' = [] ∧ R a c) →
  (∀ a c, later c0 c → R a c → wp (f a) c rf [] Q) →
  wp (thenProg p f) c0 (r ++ rf) ds Q.
Proof.
  intros Hp Hf. revert c0 r ds Hp Hf. induction p as [a| |C g k IH|h k IH]; intros c0 r ds Hp Hf; cbn [wp thenProg] in *.
  - destruct Hp as [-> HR]. apply (wp_drop _ _ rf); [|by apply Hf]. intros t. rewrite times_app. lia.
  - done.
  - intros c Hl Hi Hh. specialize (Hp c Hl Hi (holds_app _ _ _ Hh)). destruct (g c) as [c' b].
    destruct Hp as (r' & ds' & Hg & Hk). exists (r' ++ rf), ds'. split; [by apply good_frame|].
    apply IH; [done|]. intros a c1 Hl1 HR. apply Hf; [|done]. etrans; [exact Hl|]. etrans; [apply Hg|done].
  - intros c Hl Hi Hh. destruct (Hp c Hl Hi (holds_app _ _ _ Hh)) as (r' & ds' & Hg & Hk).
    exists (r' ++ rf), ds'. split; [by apply good_frame|]. intros x.
    apply IH; [done|]. intros a c1 Hl1 HR. apply Hf; [|done]. etrans; [exact Hl|]. etrans; [apply Hg|done].
Qed.

(** ** Basic rules *)

(** [p] does what it owes and uses at most [r]. *)
Definition closes {A} (p : Prog A) (c0 : Client) (r : list Token) (ds : list Duty) : Prop :=
  wp p c0 r ds (λ _ _ ds', ds' = []).

Lemma closes_drop {A} (p : Prog A) c0 r1 r2 ds : (∀ t, times t r1 ≤ times t r2)%nat → closes p c0 r1 ds → closes p c0 r2 ds.
Proof. apply wp_drop. Qed.

Lemma closes_any {A} (p : Prog A) c0 r ds : closes p c0 [] ds → closes p c0 r ds.
Proof. apply closes_drop. intros t. rewrite times_nil. lia. Qed.

Lemma closes_later {A} (p : Prog A) c0 c1 r ds : later c0 c1 → closes p c0 r ds → closes p c1 r ds.
Proof. apply wp_later. done. Qed.

Lemma closes_then {A B} (p : Prog A) (f : A → Prog B) c0 r ds rf :
  closes p c0 r ds → (∀ a c, later c0 c → closes (f a) c rf []) → closes (thenProg p f) c0 (r ++ rf) ds.
Proof.
  intros Hp Hf. apply (wp_then _ _ _ _ _ _ (λ _ _, True)); [|by intros a c Hl _; apply Hf].
  revert Hp. by apply wp_weaken.
Qed.

Lemma closes_forEach {A} (l : list A) (f : A → Prog unit) (own : A → list Token) c0 :
  (∀ x c, x ∈ l → later c0 c → closes (f x) c (own x) []) → closes (forEach l f) c0 (concat (own <$> l)) [].
Proof.
  revert c0. induction l as [|x l IH]; intros c0 Hf; [done|]. rewrite fmap_cons. cbn [concat forEach foldr].
  apply closes_then; [apply Hf; [by left|done]|]. intros _ c Hl. apply IH. intros y c' Hy Hl'.
  apply Hf; [by right|by etrans].
Qed.

(** A step that changes nothing. *)
Lemma good_read c r ds r' ds' :
  Inv c → (∀ t, times t r' ≤ times t r)%nat → (∀ d, d ∈ ds → d ∉ ds' → ¬ due c d) → good c r ds c r' ds'.
Proof.
  intros Hi Hr Hd. constructor; [done|done|..].
  - intros t. left. specialize (Hr t). lia.
  - intros d Hdue. destruct (decide (d ∈ ds')); [by left|]. right. split; [done|]. intros Hin. by destruct (Hd d Hin).
Qed.

Lemma loc_same c c' t :
  operations_ c' = operations_ c → queue_ c' = queue_ c → history c' = history c → loc c' t = loc c t.
Proof. unfold loc. by intros -> -> ->. Qed.

Lemma loc_log c h t : loc (log h c) t = (loc c t + spent t h)%nat.
Proof. unfold loc. cbn. rewrite sum_list_with_app. cbn. lia. Qed.

Lemma log_ok_snoc l h : log_ok l → said l h → log_ok (l ++ [h]).
Proof.
  intros Hl Hh pre x post E. destruct post as [|y post _] using rev_ind.
  - apply app_inj_tail in E as [-> ->]. done.
  - rewrite app_comm_cons, app_assoc in E. apply app_inj_tail in E as [-> _]. by eapply Hl.
Qed.

Lemma log_later c h : later c (log h c).
Proof. constructor; cbn; [lia|by eexists|lia| |done]. intros id o Ho. exists o. done. Qed.

(** Nothing but a started connection or a cancelled operation changes what the invariant says. *)
Definition plain_event (h : Happening) : Prop := match h with HStart _ | HCancelled _ => False | _ => True end.

Lemma acked_app l x g : acked l g → acked (l ++ x) g.
Proof. intros (f & Hf & Ha). exists f. split; [apply elem_of_app; by left|done]. Qed.

Lemma log_inv c h : Inv c → said (history c) h → plain_event h → Inv (log h c).
Proof.
  intros [] Hs Hp. constructor; cbn; try done.
  - intros g [Hg|Hg%list_elem_of_singleton]%elem_of_app; [auto|by subst].
  - intros Hr. apply acked_app. auto.
  - intros id [Hg|Hg%list_elem_of_singleton]%elem_of_app; [eauto|by subst].
  - by apply log_ok_snoc.
Qed.

Lemma due_log c h d : due (log h c) d → due c d.
Proof. destruct d; cbn; try done. intros (? & ? & Hn). split_and!; try done. intros Hin. apply Hn, elem_of_app. by left. Qed.

(** A call that is allowed in this history, for which the rights are there. *)
Lemma good_log h c r ds r' ds' :
  Inv c → plain_event h → said (history c) h → (∀ t, times t r' + spent t h ≤ times t r)%nat →
  (∀ d, d ∈ ds → d ∉ ds' → ¬ due c d) → good c r ds (log h c) r' ds'.
Proof.
  intros Hi Hp Hs Hr Hd. constructor; [by apply log_inv|apply log_later| |].
  - intros t. left. rewrite loc_log. specialize (Hr t). lia.
  - intros d Hdue%due_log. destruct (decide (d ∈ ds')); [by left|]. right. split; [done|]. intros Hin. by destruct (Hd d Hin).
Qed.
Lemma wp_ask {A} h (k : Answer → Prog A) c0 r r' ds Q :
  plain_event h → (∀ c, later c0 c → Inv c → said (history c) h) →
  (∀ t, times t r' + spent t h ≤ times t r)%nat →
  (∀ a c, later c0 c → wp (k a) c r' ds Q) → wp (Ask h k) c0 r ds Q.
Proof.
  intros Hp Hs Hr Hk c Hl Hi Hh. exists r', ds. split.
  - by apply good_log; auto.
  - intros a. apply Hk. etrans; [done|apply log_later].
Qed.

(** A step that only reads. *)
Lemma wp_read {A B} (f : Client → B) (k : B → Prog A) c0 r ds Q :
  (∀ c, later c0 c → Inv c → holds c r → wp (k (f c)) c r ds Q) → wp (Locked (λ c, (c, f c)) k) c0 r ds Q.
Proof.
  intros Hk c Hl Hi Hh. exists r, ds. split; [|by apply Hk]. apply good_read; [done|done|]. by intros d ? ?.
Qed.

(** ** Changes the invariant does not speak of *)

Record alike (c c' : Client) : Prop := {
  a_state : state_ c' = state_ c; a_connection : connection_ c' = connection_ c; a_generation : generation_ c' = generation_ c;
  a_operations : operations_ c' = operations_ c; a_shutdown : shutdown_ c' = shutdown_ c; a_history : history c' = history c;
  a_heap : heap c' = heap c; a_next : nextOperationId_ c' = nextOperationId_ c;
  a_attempt : currentReconnectAttempt_ c' = currentReconnectAttempt_ c;
  a_timer : timerStarted_ c = true → timerStarted_ c' = true }.

Lemma alike_inv c c' : alike c c' → Inv c → Inv c'.
Proof.
  intros [E1 E2 E3 E4 E5 E6 E7 E8 E9 _] []. constructor; rewrite ?E1, ?E2, ?E3, ?E4, ?E5, ?E6, ?E7, ?E8, ?E9; done.
Qed.

Lemma alike_later c c' : alike c c' → later c c'.
Proof.
  intros [E1 E2 E3 E4 E5 E6 E7 E8 E9 _]. constructor; rewrite ?E1, ?E2, ?E3, ?E6, ?E7, ?E8; try done.
  intros id o Ho. exists o. done.
Qed.

Lemma alike_due c c' d : alike c c' → due c' d → due c d.
Proof.
  intros [E1 E2 E3 E4 E5 E6 E7 E8 E9 Ht]. destruct d; cbn; rewrite ?E1, ?E3, ?E4, ?E6; try done.
  intros [? Hf]. split; [done|]. destruct (timerStarted_ c); [by rewrite Ht in Hf|done].
Qed.

Lemma good_alike c r ds c' r' ds' :
  Inv c → alike c c' → (∀ t, loc c' t + times t r' ≤ loc c t + times t r)%nat →
  (∀ d, d ∈ ds → d ∉ ds' → ¬ due c' d) → good c r ds c' r' ds'.
Proof.
  intros Hi Ha Hr Hd. constructor; [by eapply alike_inv|by apply alike_later|by left|].
  intros d Hdue. destruct (decide (d ∈ ds')); [by left|]. right. split; [by eapply alike_due|]. intros Hin. by destruct (Hd d Hin).
Qed.

Ltac unchanged := constructor; cbn; (done || (by intros ->) || auto).

Definition endRight (id : Z) (d : Delivery) : list Token := if isTerminal d then [TTerm id] else [].

Lemma inQueue_right t id d : inQueue t (id, d) = times t (endRight id d).
Proof.
  unfold endRight, inQueue. destruct t; cbn [fst snd]; destruct (isTerminal d); rewrite ?times_cons, ?times_nil; try done.
  destruct (Z.eqb_spec id0 id) as [->|]; cbn; [by rewrite bool_decide_true|by rewrite bool_decide_false by congruence].
Qed.

Lemma loc_push x c t : (loc (push x c) t ≤ loc c t + inQueue t x)%nat.
Proof. unfold push. case_match; [lia|]. unfold loc. cbn. rewrite sum_list_with_app. cbn. lia. Qed.

Lemma push_alike x c : alike c (push x c).
Proof. unfold push. by case_match; unchanged. Qed.

Lemma closes_post id d c0 : closes (post id d) c0 (endRight id d) [].
Proof.
  intros c Hl Hi Hh. exists [], []. split; [|done].
  assert (alike c (match heap c !! id with Some o => if wanted d (op_callbacks o) then push (id, d) c else c | None => c end) ∧
    ∀ t, (loc (match heap c !! id with Some o => if wanted d (op_callbacks o) then push (id, d) c else c | None => c end) t
      ≤ loc c t + inQueue t (id, d))%nat) as [Ha Hq].
  { destruct (heap c !! id) as [o|]; [destruct (wanted d _)|]; split; try (intros t; lia);
      [apply push_alike|intros t; apply loc_push|unchanged|unchanged]. }
  apply good_alike; [done|done| |by intros d' Hd%elem_of_nil].
  intros t. specialize (Hq t). pose proof (inQueue_right t id d). rewrite times_nil. lia.
Qed.

Lemma closes_closeConnection connection code reason c0 : closes (closeConnection connection code reason) c0 [] [].
Proof.
  destruct connection as [g|]; [|done]. unfold closes, closeConnection, ask. cbn [thenProg].
  apply (wp_ask _ _ _ [] []); try done. intros t. by destruct t.
Qed.

Lemma closes_endAll ids error c0 : closes (forEach ids (λ id, postError id error)) c0 (TTerm <$> ids) [].
Proof.
  replace (TTerm <$> ids) with (concat ((λ id, [TTerm id]) <$> ids)).
  - apply (closes_forEach ids (λ id, postError id error) (λ id, [TTerm id])). intros id c _ _. apply closes_post.
  - induction ids as [|id ids IH]; [done|]. cbn. f_equal. exact IH.
Qed.

Lemma times_NoDup t l : NoDup l → times t l = once (bool_decide (t ∈ l)).
Proof.
  intros Hn. induction Hn as [|x l Hx Hn IH]; [done|]. rewrite times_cons, IH. destruct (decide (x = t)) as [->|Hne].
  - rewrite bool_decide_true, bool_decide_false, bool_decide_true by (done || by left). done.
  - rewrite bool_decide_false by congruence. cbn [once Nat.add]. f_equal. apply bool_decide_ext.
    rewrite elem_of_cons. naive_solver.
Qed.

Lemma times_terms t ids : NoDup ids →
  times t (TTerm <$> ids) = match t with TTerm id => once (bool_decide (id ∈ ids)) | _ => 0%nat end.
Proof.
  intros Hn. rewrite times_NoDup by by apply NoDup_fmap_2; [intros ?? [=]|].
  destruct t as [id| | |].
  1: f_equal; apply bool_decide_ext; rewrite list_elem_of_fmap; naive_solver.
  all: rewrite bool_decide_false; [done|]; intros (? & ? & ?)%list_elem_of_fmap; done.
Qed.

Lemma order_NoDup `{!SubEnvLaws} s : NoDup (order s).
Proof. rewrite order_elements. apply NoDup_elements. Qed.

Lemma elem_of_order `{!SubEnvLaws} s id : id ∈ order s ↔ id ∈ s.
Proof. rewrite order_elements. apply elem_of_elements. Qed.


(** ** Changes, one by one *)

Lemma good_trans c r ds c1 r1 ds1 c2 r2 ds2 :
  good c r ds c1 r1 ds1 → good c1 r1 ds1 c2 r2 ds2 → good c r ds c2 r2 ds2.
Proof.
  intros [Hi1 Hl1 Hr1 Hd1] [Hi2 Hl2 Hr2 Hd2]. constructor; [done|by etrans|..].
  - intros t. destruct (Hr1 t) as [H1|(Hn & Hg & H1)], (Hr2 t) as [H2|(Hn2 & Hg2 & H2)].
    + left. lia.
    + right. split_and!; [|done|done]. intros Hg. apply Hn2. by eapply later_granted.
    + right. split_and!; [done|by eapply later_granted|lia].
    + by destruct Hn2.
  - intros d Hd. destruct (Hd2 d Hd) as [?|[Hdue Hn]]; [by left|]. destruct (Hd1 d Hdue) as [?|?]; [done|by right].
Qed.

Lemma with_good f id c r ds :
  Inv c → (∀ o, same_operation o (f o)) → good c r ds (withOperation f id c) r ds.
Proof.
  intros Hi Hf. assert (∀ i o, heap c !! i = Some o → ∃ o', alter f id (heap c) !! i = Some o' ∧ same_operation o o') as Hh.
  { intros i o Ho. destruct (decide (i = id)) as [->|Hne].
    - rewrite lookup_alter_eq, Ho. by eexists.
    - rewrite lookup_alter_ne by done. exists o. by rewrite Ho. }
  assert (∀ i o', alter f id (heap c) !! i = Some o' → ∃ o, heap c !! i = Some o ∧ same_operation o o') as Hb.
  { intros i o' Ho'. destruct (decide (i = id)) as [->|Hne].
    - rewrite lookup_alter_eq in Ho'. destruct (heap c !! id) as [o|]; [|done]. injection Ho' as <-. eauto.
    - rewrite lookup_alter_ne in Ho' by done. exists o'. done. }
  constructor.
  - destruct Hi. constructor; cbn; try done.
    + intros i Hin. destruct (i_ids0 i Hin) as [o Ho]. destruct (Hh i o Ho) as (o' & -> & _). done.
    + intros i [o' Ho']. apply i_heap0. destruct (Hb i o' Ho') as (o & -> & _). done.
    + intros i o' Ho' Ha. destruct (Hb i o' Ho') as (o & Ho & _ & _ & _ & Hact). eauto.
    + intros i Hin. destruct (i_cancel0 i Hin) as (o & Ho & Hc). destruct (Hh i o Ho) as (o' & Ho' & _ & _ & Hc' & _). eauto.
  - constructor; cbn; [lia|done|lia|exact Hh|done].
  - intros t. left. by rewrite (loc_same c).
  - intros d Hd. assert (due c d) by by destruct d. destruct (decide (d ∈ ds)); auto.
Qed.

Lemma same_inactive o : same_operation o (inactive o).
Proof. done. Qed.
Lemma same_subscribed o : same_operation o (subscribed o).
Proof. done. Qed.
Lemma same_cancelled o : same_operation o (cancelled o).
Proof. by split_and!. Qed.

Lemma cancel_good id c r ds :
  Inv c → is_Some (heap c !! id) →
  good c r ds (log (HCancelled id) (withOperation cancelled id c)) r ds.
Proof.
  intros Hi Hid. eapply good_trans; [apply (with_good cancelled id); [done|apply same_cancelled]|].
  pose proof (g_inv _ _ _ _ _ _ (with_good cancelled id c r ds Hi same_cancelled)) as Hi'.
  set (c1 := withOperation cancelled id c) in *. constructor.
  - destruct Hi'. constructor; cbn; try done.
    + intros g [Hg|Hg%list_elem_of_singleton]%elem_of_app; [auto|done].
    + intros Hr. apply acked_app. auto.
    + intros i [Hg|Hg%list_elem_of_singleton]%elem_of_app; [by apply i_cancel0|]. injection Hg as ->.
      destruct Hid as [o' Ho']. rewrite lookup_alter_eq, Ho'. by eexists.
    + by apply log_ok_snoc.
  - apply log_later.
  - intros t. left. rewrite loc_log. by destruct t; cbn; lia.
  - intros d Hd%due_log. destruct (decide (d ∈ ds)); auto.
Qed.

Definition loneStart (g : Z) (ds : list Duty) : Prop := ∀ d, d ∈ ds → d = DStart g.

(** An announced start is not due any more on a stale connection. *)
Lemma stale_not_due c g ds : Inv c → loneStart g ds → shutdown_ c || negb (g =? generation_ c) = true → ∀ d, d ∈ ds → ¬ due c d.
Proof.
  intros Hi Hds Hs d ->%Hds (Hst & Hg & _). apply orb_prop in Hs as [Hs|Hs].
  - apply (i_busy _ Hi); [by rewrite Hst|]. by apply (i_down _ Hi).
  - rewrite <- Hg, Z.eqb_refl in Hs. done.
Qed.

Lemma lookup_alters (f : Operation → Operation) (m : gmap Z Operation) ids i :
  (∀ o, f (f o) = f o) → foldr (alter f) m ids !! i = (if bool_decide (i ∈ ids) then f <$> m !! i else m !! i).
Proof.
  intros Hf. induction ids as [|id ids IH]; [done|]. cbn [foldr]. destruct (decide (i = id)) as [->|Hne].
  - rewrite lookup_alter_eq, IH, (bool_decide_true (id ∈ id :: ids)) by by left.
    case_bool_decide; [|done]. destruct (m !! id); [|done]. cbn. by rewrite Hf.
  - rewrite lookup_alter_ne, IH by done. erewrite bool_decide_ext; [done|]. rewrite elem_of_cons. naive_solver.
Qed.

Lemma withAll f ids c : foldr (withOperation f) c ids = set_heap (foldr (alter f) (heap c) ids) c.
Proof. induction ids as [|id ids IH]; [by destruct c|]. cbn [foldr]. by rewrite IH. Qed.

(** Every operation ends and the connection is left. *)
Record vacated (c c' : Client) (ids : list Z) : Prop := {
  v_state : state_ c' = Idle; v_connection : connection_ c' = None; v_generation : generation_ c' = generation_ c + 1;
  v_operations : operations_ c' = ∅; v_heap : heap c' = foldr (alter inactive) (heap c) ids;
  v_history : history c' = history c; v_next : nextOperationId_ c' = nextOperationId_ c;
  v_queue : queue_ c' = queue_ c; v_attempt : (currentReconnectAttempt_ c' ≤ currentReconnectAttempt_ c)%nat }.

Lemma vacate_good c c' ids r ds :
  Inv c → NoDup ids → (∀ id, id ∈ ids ↔ id ∈ operations_ c) → vacated c c' ids →
  good c r ds c' (r ++ (TTerm <$> ids)) [].
Proof.
  intros Hi Hn Hids [E1 E2 E3 E4 E5 E6 E7 E8 E9].
  assert (∀ i, heap c' !! i = if bool_decide (i ∈ ids) then inactive <$> heap c !! i else heap c !! i) as Hl
    by (intros i; rewrite E5; by apply lookup_alters).
  assert (∀ i o', heap c' !! i = Some o' → ∃ o, heap c !! i = Some o ∧ same_operation o o' ∧ op_active o' = false) as Hb.
  { intros i o'. rewrite Hl. case_bool_decide as Hin.
    - destruct (heap c !! i) as [o|]; [|done]. intros [= <-]. by exists o.
    - intros Ho. exists o'. split_and!; try done. destruct (op_active o') eqn:Ha; [|done].
      destruct Hin. apply Hids. by eapply i_active. }
  constructor.
  - destruct Hi. constructor; rewrite ?E1, ?E2, ?E3, ?E4, ?E6, ?E7; try done.
    + simpl. lia.
    + intros g Hg. destruct (i_start0 g Hg) as [? _]. split; [lia|]. simpl. lia.
    + intros i [o' Ho']. destruct (Hb i o' Ho') as (o & Ho & _). by apply i_heap0.
    + intros i o' Ho' Ha. destruct (Hb i o' Ho') as (o & _ & _ & ?). congruence.
    + lia.
    + intros i Hc. destruct (i_cancel0 i Hc) as (o & Ho & Ht). rewrite Hl, Ho. case_bool_decide; by eexists.
  - constructor; rewrite ?E1, ?E2, ?E3, ?E6, ?E7; [lia|done|lia| |lia].
    intros i o Ho. rewrite Hl, Ho. case_bool_decide; by eexists.
  - intros t. left. unfold loc. rewrite E4, E6, E8, times_app, times_terms by done. destruct t; try lia.
    rewrite (bool_decide_false (id ∈ ∅)) by set_solver. rewrite (bool_decide_ext (id ∈ operations_ c) (id ∈ ids)) by by rewrite Hids.
    simpl. lia.
  - intros d Hd. destruct d; cbn in Hd; rewrite ?E1, ?E4 in Hd; naive_solver.
Qed.

(** One operation ends; with the last one the connection is left. *)
Lemma erase_good id c r ds :
  Inv c → id ∈ operations_ c → (∀ o, heap c !! id = Some o → op_active o = false) →
  good c r ds (erase id c).1 (r ++ [TTerm id]) ds.
Proof.
  intros Hi Hin Ha. unfold erase, isEmpty. cbn [operations_ set_operations_].
  assert (∀ i o, heap c !! i = Some o → op_active o = true → i ∈ operations_ c ∖ {[id]}) as Hact.
  { intros i o Ho Hao. apply elem_of_difference. split; [by eapply i_active|]. intros ->%elem_of_singleton.
    by rewrite (Ha o Ho) in Hao. }
  assert (∀ t c', operations_ c' = operations_ c ∖ {[id]} → queue_ c' = queue_ c → history c' = history c →
    (loc c' t + times t (r ++ [TTerm id]) ≤ loc c t + times t r)%nat) as Hr.
  { intros t c' E1 E2 E3. unfold loc. rewrite E1, E2, E3, times_app, times_cons, times_nil. destruct t as [i| | |]; try (simpl; lia).
    destruct (decide (i = id)) as [->|Hne].
    - rewrite (bool_decide_true (TTerm id = TTerm id)), (bool_decide_true (id ∈ operations_ c)), bool_decide_false by (done || set_solver).
      simpl. lia.
    - rewrite (bool_decide_false (TTerm id = TTerm i)) by congruence.
      rewrite (bool_decide_ext (i ∈ operations_ c ∖ {[id]}) (i ∈ operations_ c)) by set_solver. simpl. lia. }
  case_bool_decide as He.
  - cbn [fst becomeIdleLocked]. constructor.
    + destruct Hi. constructor; cbn; rewrite ?He; try done; try (simpl; lia).
      * intros g Hg. destruct (i_start0 g Hg). split; simpl; lia.
      * intros i o Ho Hao. rewrite <- He. eauto.
    + constructor; cbn; try (lia || done). intros i o Ho. exists o. done.
    + intros t. left. by apply Hr.
    + intros d Hd. destruct d; cbn in Hd; naive_solver.
  - cbn [fst]. constructor.
    + destruct Hi. constructor; cbn; try done.
      * intros Hs. destruct He. rewrite i_down0 by done. set_solver.
      * intros i Hii. apply i_ids0. set_solver.
    + constructor; cbn; try (lia || done). intros i o Ho. exists o. done.
    + intros t. left. by apply Hr.
    + intros d Hd. assert (due c d) by (destruct d; cbn in *; set_solver). destruct (decide (d ∈ ds)); auto.
Qed.


Lemma current_spec g c : isCurrent g c = true ↔ shutdown_ c = false ∧ generation_ c = g.
Proof. unfold isCurrent. rewrite andb_true_iff, negb_true_iff, Z.eqb_eq. naive_solver. Qed.

(** ** The methods: leaving a connection *)

Section Methods.
Context {HL : SubEnvLaws}.
Context (Hdelays : in_s 64 (so_initialReconnectDelayMs (options config)) ∧ in_s 64 (so_maxReconnectDelayMs (options config))).

Lemma dropAll_vacated c c' :
  state_ c' = Idle → connection_ c' = None → generation_ c' = generation_ c + 1 → operations_ c' = operations_ c →
  heap c' = heap c → history c' = history c → nextOperationId_ c' = nextOperationId_ c → queue_ c' = queue_ c →
  (currentReconnectAttempt_ c' ≤ currentReconnectAttempt_ c)%nat →
  vacated c (dropAll c').1 (order (operations_ c)).
Proof.
  intros E1 E2 E3 E4 E5 E6 E7 E8 E9. unfold dropAll. cbn [fst]. rewrite E4, withAll, E5.
  by constructor.
Qed.

Lemma closes_failAll g error code c0 ds : loneStart g ds → closes (failAll g error code) c0 [] ds.
Proof.
  intros Hds. unfold closes, failAll, locked. cbn [thenProg wp]. intros c Hl Hi Hh.
  destruct (shutdown_ c || negb (g =? generation_ c)) eqn:Hs.
  - exists [], []. split; [|done]. apply good_read; [done|done|]. intros d Hd _. by eapply stale_not_due.
  - set (c1 := set_connection_ None _). pose proof (dropAll_vacated c c1 eq_refl eq_refl eq_refl eq_refl eq_refl eq_refl
      eq_refl eq_refl (Nat.le_0_l _)) as Hv.
    destruct (dropAll c1) as [c2 ids] eqn:E. assert (ids = order (operations_ c)) as -> by (unfold dropAll in E; by injection E).
    cbn [fst] in Hv. exists (TTerm <$> order (operations_ c)), []. split.
    + apply (vacate_good c c2 (order (operations_ c)) []); [done|apply order_NoDup|intros; apply elem_of_order|done].
    + apply (closes_then _ _ _ [] [] _); [apply closes_closeConnection|]. intros _ c3 _. apply closes_endAll.
Qed.

Lemma closes_failConnection g error code c0 ds : loneStart g ds → closes (failConnection g error code) c0 [] ds.
Proof. apply closes_failAll. Qed.

(** What a failure of the current connection does. *)
Lemma decideFailure_good g error c r ds :
  Inv c → loneStart g ds →
  match decideFailure config g error c with
  | (c', FStale) => good c r ds c' r []
  | (_, FUndefined) => False
  | (c', FRetry _ _) => good c r ds c' r []
  | (c', FEnd _ _ ids) => good c r ds c' (r ++ (TTerm <$> ids)) []
  end.
Proof.
  intros Hi Hds. unfold decideFailure. destruct (shutdown_ c || negb (g =? generation_ c)) eqn:Hs.
  { apply good_read; [done|done|]. intros d Hd _. by eapply stale_not_due. }
  set (c1 := set_generation_ _ _). cbv zeta.
  assert (∀ e, let '(c2, ids) := dropAll (set_currentReconnectAttempt_ 0 (set_state_ Idle c1)) in
    match (c2, FEnd (connection_ c) e ids) with (c', FEnd _ _ ids) => good c r ds c' (r ++ (TTerm <$> ids)) [] | _ => False end) as Hend.
  { intros e. pose proof (dropAll_vacated c (set_currentReconnectAttempt_ 0 (set_state_ Idle c1)) eq_refl eq_refl eq_refl eq_refl
      eq_refl eq_refl eq_refl eq_refl (Nat.le_0_l _)) as Hv.
    destruct (dropAll _) as [c2 ids] eqn:E. assert (ids = order (operations_ c)) as -> by (unfold dropAll in E; by injection E).
    apply vacate_good; [done|apply order_NoDup|intros; apply elem_of_order|done]. }
  assert (∀ c', connection_ c' = None → generation_ c' = generation_ c + 1 → operations_ c' = operations_ c →
    shutdown_ c' = shutdown_ c → heap c' = heap c → history c' = history c → nextOperationId_ c' = nextOperationId_ c →
    queue_ c' = queue_ c → timerStarted_ c' = timerStarted_ c → rank (state_ c') = 0%nat →
    (state_ c' = Idle ↔ operations_ c = ∅) →
    (currentReconnectAttempt_ c' ≤ Nat.max 1 (so_maxReconnectAttempts (options config)))%nat → good c r ds c' r []) as Hretry.
  { intros c' E1 E2 E3 E4 E5 E6 E7 E8 E9 Er Es Ea. constructor.
    - destruct Hi. constructor; rewrite ?E1, ?E2, ?E3, ?E4, ?E5, ?E6, ?E7, ?Er; try done; try (by rewrite ?Es; auto); try lia.
      + intros g' Hg. destruct (i_start0 g' Hg). lia.
      + intros Hr. by rewrite Hr in Er.
    - constructor; rewrite ?E1, ?E2, ?E5, ?E6, ?E7; try (lia || done). intros i o Ho. exists o. done.
    - intros t. left. by rewrite (loc_same c).
    - intros d Hd. right. destruct d; cbn in *; rewrite ?E3, ?E9 in Hd.
      + destruct Hd as [Hst Hne]. by apply Es in Hst.
      + split; [done|]. by intros ?%Hds.
      + destruct Hd as [Hst _]. rewrite Hst in Er. done. }
  destruct (isEmpty c1) eqn:He; [|destruct (so_maxReconnectAttempts (options config) =? 0)%nat eqn:Hz;
    [|destruct (so_maxReconnectAttempts (options config) <=? currentReconnectAttempt_ c1)%nat eqn:Hm]].
  - apply bool_decide_eq_true in He. apply Hretry; try done. simpl. lia.
  - specialize (Hend error). by destruct (dropAll _).
  - specialize (Hend (exhaustedError error)). by destruct (dropAll _).
  - apply Nat.leb_gt in Hm. apply bool_decide_eq_false in He.
    destruct (reconnectDelay_defined varied (options config) (S (currentReconnectAttempt_ c1)) (random_ c1)) as (delay & rnd & -> & _);
      [apply Hdelays..|]. apply Hretry; try done. cbn. change (currentReconnectAttempt_ c1) with (currentReconnectAttempt_ c) in *. lia.
Qed.

Lemma closes_handleConnectionFailure g error c0 ds : loneStart g ds → closes (handleConnectionFailure config g error) c0 [] ds.
Proof.
  intros Hds. unfold handleConnectionFailure. case_match; [by apply closes_failAll|].
  unfold closes, locked. cbn [thenProg wp]. intros c Hl Hi Hh. pose proof (decideFailure_good g error c [] ds Hi Hds) as Hg.
  destruct (decideFailure config g error c) as [c' [| |connection rediscover|connection e ids]]; [|done|..].
  - by exists [], [].
  - exists [], []. split; [done|]. apply (closes_then _ _ _ [] [] []); [apply closes_closeConnection|]. intros _ c2 _.
    destruct rediscover; [|done]. apply (wp_ask _ _ _ [] []); try done. intros t. by destruct t.
  - exists (TTerm <$> ids), []. split; [done|]. apply (closes_then _ _ _ [] [] _); [apply closes_closeConnection|].
    intros _ c2 _. apply closes_endAll.
Qed.

Lemma closes_finishOperationError id error c0 : closes (finishOperationError id error) c0 [] [].
Proof.
  unfold closes, finishOperationError, locked. cbn [thenProg wp]. intros c Hl Hi Hh. case_bool_decide as Hin.
  - exists [], []. split; [|done]. by apply good_read.
  - set (c1 := withOperation inactive id c).
    assert (good c [] [] c1 [] []) as G1 by by apply with_good; [|apply same_inactive].
    assert (good c1 [] [] (erase id c1).1 ([] ++ [TTerm id]) []) as G2.
    { apply erase_good; [apply G1|done|]. intros o. cbn. rewrite lookup_alter_eq. destruct (heap c !! id); [|done]. by intros [= <-]. }
    destruct (erase id c1) as [c2 connection]. exists [TTerm id], []. split; [by eapply good_trans|].
    apply (closes_then _ _ _ [] [] _); [apply closes_closeConnection|]. intros _ c3 _. apply closes_post.
Qed.

(** ** Sending *)

Definition sendRight (g : Z) (m : Message) : list Token :=
  match m with MInit _ => [TInit g] | MSubscribe id _ => [TSub g id] | _ => [] end.

Lemma spent_send t g m : (spent t (HSend g (OText m)) ≤ times t (sendRight g m))%nat.
Proof.
  destruct t, m; cbn [spent sendRight]; rewrite ?times_cons, ?times_nil; try lia.
  - destruct (Z.eqb_spec g0 g), (Z.eqb_spec id id0); cbn; try lia. subst. by rewrite bool_decide_true.
  - destruct (Z.eqb_spec g0 g); cbn; try lia. subst. by rewrite bool_decide_true.
Qed.

Lemma closes_sendConnectionFrame g connection m c0 :
  (∀ cn, connection = Some cn → said (history c0) (HSend cn (OText m))) →
  closes (sendConnectionFrame config g connection m) c0 (match connection with Some cn => sendRight cn m | None => [] end) [].
Proof.
  intros Hsay. destruct connection as [cn|]; [|done]. specialize (Hsay cn eq_refl). unfold sendConnectionFrame, generationIsCurrent, locked.
  unfold closes. cbn [thenProg]. apply wp_read. intros c Hl Hi Hh. case_match; [done|].
  case_match; [apply closes_any, closes_failConnection; by intros d ?%elem_of_nil|].
  unfold ask. cbn [thenProg]. apply (wp_ask _ _ _ _ []).
  - done.
  - intros c1 Hl1 _. assert (later c0 c1) as Hl2 by by etrans. destruct m; cbn [said] in *;
      (by eapply later_acked) || by eapply later_in.
  - intros t. pose proof (spent_send t cn m). rewrite times_nil. lia.
  - intros a c1 Hl1. destruct a; try done. apply closes_handleConnectionFailure. by intros d ?%elem_of_nil.
Qed.

Lemma closes_sendSubscribe id g c0 : acked (history c0) g → closes (sendSubscribe config id g) c0 [TSub g id] [].
Proof.
  intros Ha. unfold sendSubscribe, locked, closes. cbn [thenProg]. apply wp_read. intros c Hl Hi Hh.
  destruct (activeRequest id c) as [request|]; [|done].
  case_match; [apply closes_any, closes_finishOperationError|]. case_match; [apply closes_any, closes_finishOperationError|].
  intros c1 Hl1 Hi1 Hh1. destruct (_ || _ || _) eqn:Hs.
  - exists [TSub g id], []. split; [by apply good_read|done].
  - exists [TSub g id], []. split; [by apply good_read|]. apply orb_false_elim in Hs as [[Hs _]%orb_false_elim _].
    apply negb_false_iff in Hs. unfold isCurrent in Hs. apply andb_prop in Hs as [_ Hs%Z.eqb_eq].
    assert (∀ cn, connection_ c1 = Some cn → cn = g) as Hcn by (intros cn Hc; destruct (i_conn _ Hi1 cn Hc); congruence).
    assert (closes (sendConnectionFrame config g (connection_ c1) (MSubscribe id request)) c1
      (match connection_ c1 with Some cn => sendRight cn (MSubscribe id request) | None => [] end) []) as Hc.
    { apply closes_sendConnectionFrame. intros cn Hc. rewrite (Hcn cn Hc). cbn. eapply later_acked; [|exact Ha]. by etrans. }
    destruct (connection_ c1) as [cn|]; [|by apply closes_any]. by rewrite (Hcn cn eq_refl) in *.
Qed.

(** ** Receiving *)

Lemma no_duty g : loneStart g [].
Proof. by intros d ?%elem_of_nil. Qed.
Hint Resolve no_duty : core.

Lemma holds_fresh c r t : holds c r → ¬ granted c t → loc c t = 0%nat.
Proof. intros Hh Hn. destruct (Hh t) as [_ H2]. destruct (loc c t); [done|]. destruct Hn. apply H2. lia. Qed.

(** A step that looks at the client and changes nothing of it. *)
Lemma wp_look {A B} (f : Client → Client * B) (k : B → Prog A) c0 r ds Q :
  (∀ c, (f c).1 = c) → (∀ c, later c0 c → Inv c → holds c r → wp (k (f c).2) c r ds Q) → wp (Locked f k) c0 r ds Q.
Proof.
  intros Hf Hk c Hl Hi Hh. specialize (Hf c). specialize (Hk c Hl Hi Hh). destruct (f c) as [c' b]. cbn in *. subst c'.
  exists r, ds. split; [|done]. apply good_read; [done|done|]. by intros d ? ?.
Qed.


(** Handing out rights nobody had. *)
Lemma good_grant c c' new ds ds' :
  Inv c' → later c c' → holds c [] → NoDup new → (∀ t, loc c' t = loc c t) →
  (∀ t, t ∈ new → ¬ granted c t ∧ granted c' t) → (∀ d, due c' d → d ∈ ds' ∨ (due c d ∧ d ∉ ds)) →
  good c [] ds c' new ds'.
Proof.
  intros Hi Hl Hh Hn Heq Hnew Hd. constructor; try done. intros t. rewrite Heq, times_NoDup by done.
  case_bool_decide as Hin; [|left; simpl; lia]. right. destruct (Hnew t Hin) as [H1 H2]. split_and!; [done|done|].
  by rewrite (holds_fresh c [] t).
Qed.

Lemma closes_handleOpen g c0 : HStart g ∈ history c0 → closes (handleOpen config g) c0 [] [].
Proof.
  intros Hst. unfold closes, handleOpen, locked. cbn [thenProg wp]. intros c Hl Hi Hh.
  destruct (_ || _) eqn:Hs; [exists [], []; split; [by apply good_read|done]|].
  apply orb_false_elim in Hs as [[Hsh Hg]%negb_false_iff%current_spec Hc%negb_false_iff%bool_decide_eq_true].
  assert (connection_ c = Some g) as Hcn.
  { destruct (i_start _ Hi g) as [_ Hx]; [by eapply later_in|]. apply Hx; [done|]. rewrite Hc. simpl. lia. }
  set (c' := set_acknowledgementDeadline_ _ _). exists [TInit g], []. split.
  - apply good_grant; [|..|done|by apply NoDup_singleton|intros t; by apply loc_same| |].
    + destruct Hi. constructor; cbn; try done.
      * intros g' Hg'. destruct (i_conn0 g' Hg'). split; [done|lia].
      * intros _. apply i_busy0. by rewrite Hc.
      * intros _. by rewrite Hcn, Hg.
      * intros g' Hg'. destruct (i_start0 g' Hg') as [H1 H2]. split; [done|]. intros E _. apply H2; [done|]. rewrite Hc. simpl. lia.
    + constructor; cbn; try (lia || done); [intros id o Ho; by exists o|]. intros _. rewrite Hc. split; [simpl; lia|done].
    + intros t ->%list_elem_of_singleton. cbn. rewrite Hc, Hg. simpl. lia.
    + intros d Hd. right. split; [|by intros ?%elem_of_nil]. destruct d; cbn in *; naive_solver.
  - change (connection_ c') with (connection_ c). rewrite Hcn. apply wp_read. intros c1 Hl1 Hi1 Hh1.
    change [TInit g] with (match Some g with Some cn => sendRight cn (MInit (token_ c1)) | None => [] end).
    apply closes_sendConnectionFrame. intros cn [= <-]. cbn.
    eapply later_in; [exact Hl1|]. change (history c') with (history c). by eapply later_in.
Qed.

Lemma closes_resubscribe g attempt id c0 : acked (history c0) g → closes (resubscribe config g attempt id) c0 [TSub g id] [].
Proof.
  intros Ha. unfold closes, resubscribe, locked. cbn [thenProg]. apply wp_read. intros c Hl Hi Hh.
  case_match; [done|]. cbn [wp]. intros c1 Hl1 Hi1 Hh1. exists [TSub g id], []. split; [by apply with_good; [|apply same_subscribed]|].
  apply (closes_then _ _ _ [] [] [TSub g id]).
  - match goal with |- closes (if ?b then _ else _) _ _ _ => destruct b end; [|done].
    exact (closes_post id (DReconnect attempt) _).
  - intros _ c2 Hl2. apply closes_sendSubscribe. eapply later_acked; [|exact Ha]. etrans; [exact Hl|]. etrans; [exact Hl1|].
    etrans; [|exact Hl2]. apply (g_later _ _ _ _ _ _ (with_good subscribed id c1 [] [] Hi1 same_subscribed)).
Qed.

Lemma closes_handleAcknowledgement g c0 : HStart g ∈ history c0 → acked (history c0) g → closes (handleAcknowledgement config g) c0 [] [].
Proof.
  intros Hst Ha. unfold closes, handleAcknowledgement, locked. cbn [thenProg wp]. intros c Hl Hi Hh.
  destruct (negb (isCurrent g c)) eqn:Hs; [exists [], []; split; [by apply good_read|done]|].
  case_bool_decide as Hw; cbn [negb]; [|exists [], []; split; [by apply good_read|by apply closes_failConnection]].
  apply negb_false_iff, current_spec in Hs as [Hsh Hg].
  set (c' := set_currentReconnectAttempt_ _ _). exists (TSub g <$> order (operations_ c)), [].
  assert (good c [] [] c' (TSub g <$> order (operations_ c)) []) as G.
  { apply good_grant; [|..|done|apply NoDup_fmap_2; [by intros ?? [=]|apply order_NoDup]|intros t; by apply loc_same| |].
    + destruct Hi. constructor; cbn; try done.
      * intros g' Hg'. destruct (i_conn0 g' Hg'). split; [done|lia].
      * intros _. apply i_busy0. by rewrite Hw.
      * intros _. apply i_open0. by rewrite Hw.
      * intros g' Hg'. destruct (i_start0 g' Hg') as [H1 H2]. split; [done|]. intros E _. apply H2; [done|]. rewrite Hw. simpl. lia.
      * intros _. rewrite Hg. by eapply later_acked.
      * lia.
    + constructor; cbn; try (lia || done); [intros id o Ho; by exists o|]. intros _. rewrite Hw. split; [simpl; lia|done].
    + intros t (id & -> & Hid%elem_of_order)%list_elem_of_fmap. cbn. rewrite Hw, Hg. split; [intros (_ & [H|[_ H]] & _); [lia|done]|].
      split_and!; [by apply (i_heap _ Hi), (i_ids _ Hi)|by right|by eapply later_acked].
    + intros d Hd. right. split; [|by intros ?%elem_of_nil]. destruct d; cbn in *; naive_solver. }
  split; [done|]. apply closes_drop with (concat ((λ id, [TSub g id]) <$> order (operations_ c))).
  { intros t. clear. induction (order (operations_ c)) as [|x l IH]; [done|]. rewrite !fmap_cons. cbn [concat]. rewrite times_app, times_cons.
    rewrite times_cons, times_nil. lia. }
  apply closes_forEach. intros id c1 _ Hl1. apply closes_resubscribe. eapply later_acked; [|exact Ha].
  etrans; [exact Hl|]. etrans; [apply G|done].
Qed.

(** Take the outermost branch of a program. *)
Ltac branch :=
  match goal with
  | |- closes (match ?x with _ => _ end) _ _ _ => destruct x eqn:?
  | |- wp (match ?x with _ => _ end) _ _ _ _ => destruct x eqn:?
  end.

Lemma closes_handleNext g id payload c0 : closes (handleNext g id payload) c0 [] [].
Proof.
  unfold closes, handleNext, locked. cbn [thenProg]. apply wp_look; [intros c; by case_match|]. intros c Hl Hi Hh.
  branch; [|done]. branch; [apply closes_finishOperationError|]. cbv zeta. branch; [|done].
  branch; [apply closes_finishOperationError|]. exact (closes_post _ (DNext _) _).
Qed.

Lemma closes_handleOperationError g id payload c0 : closes (handleOperationError g id payload) c0 [] [].
Proof.
  unfold closes, handleOperationError, locked. cbn [thenProg]. apply wp_read. intros c Hl Hi Hh.
  branch; [|done]. branch; [|done]. branch; apply closes_finishOperationError.
Qed.

(** An operation is taken out, deactivated. *)
Lemma take_good id c : Inv c → id ∈ operations_ c → good c [] [] (erase id (withOperation inactive id c)).1 [TTerm id] [].
Proof.
  intros Hi Hin. eapply good_trans; [by apply (with_good inactive id); [|apply same_inactive]|].
  apply (erase_good id _ []); [apply (with_good inactive id c [] []); [done|apply same_inactive]|done|].
  intros o. cbn. rewrite lookup_alter_eq. destruct (heap c !! id); [|done]. by intros [= <-].
Qed.

Lemma findOperation_in id c n : findOperation id c = Some n → n ∈ operations_ c ∧ decimal n = id.
Proof.
  unfold findOperation. destruct (list_find _ _) as [[i m]|] eqn:E; [|done]. intros [= <-].
  apply list_find_Some in E as (E & ? & _). split; [|done]. apply elem_of_order. by eapply list_elem_of_lookup_2.
Qed.

Lemma closes_handleComplete g id c0 : closes (handleComplete g id) c0 [] [].
Proof.
  unfold closes, handleComplete, locked. cbn [thenProg wp]. intros c Hl Hi Hh.
  destruct (if isCurrent g c then findOperation id c else None) as [n|] eqn:E.
  - assert (n ∈ operations_ c) as Hin by (destruct (isCurrent g c); [by apply findOperation_in in E as [? _]|done]).
    pose proof (take_good n c Hi Hin) as G. destruct (erase n (withOperation inactive n c)) as [c2 connection].
    exists [TTerm n], []. split; [done|]. apply (closes_then _ _ _ [] [] _); [apply closes_closeConnection|]. intros _ c3 _. apply closes_post.
  - exists [], []. split; [by apply good_read|done].
Qed.

Lemma closes_handleFrame g frame c0 :
  HStart g ∈ history c0 → HReceived g (EvFrame frame) ∈ history c0 → closes (handleFrame config g frame) c0 [] [].
Proof.
  intros Hst Hrc. unfold handleFrame, generationIsCurrent, currentConnection, closes, locked. cbn [thenProg]. apply wp_read. intros c Hl Hi Hh.
  case_match; [done|]. cbv zeta. case_match; [by apply closes_failConnection|].
  assert (∀ c1 cn, Inv c1 → (if g =? generation_ c1 then Some (connection_ c1) else None) = Some (Some cn) → cn = g) as Hcn.
  { intros c1 cn Hi1. destruct (Z.eqb_spec g (generation_ c1)); [|done]. intros [= E]. destruct (i_conn _ Hi1 cn E). congruence. }
  destruct (fr_kind frame).
  - case_match; [by apply closes_failConnection|]. case_match; [by apply closes_failConnection|].
    case_bool_decide as Hack.
    { apply closes_handleAcknowledgement; [by eapply later_in|]. eapply later_acked; [exact Hl|]. by exists frame. }
    case_bool_decide.
    { apply wp_read. intros c1 Hl1 Hi1 Hh1. destruct (if g =? generation_ c1 then _ else _) as [connection|] eqn:E; [|done].
      eapply closes_drop; [|apply closes_sendConnectionFrame].
      - intros t. destruct connection; by rewrite ?times_nil.
      - intros cn ->. rewrite (Hcn c1 cn Hi1 E). cbn. eapply later_in; [|exact Hst]. by etrans. }
    case_bool_decide; [done|]. case_bool_decide; [apply closes_handleNext|]. case_bool_decide; [apply closes_handleOperationError|].
    case_bool_decide; [apply closes_handleComplete|by apply closes_failConnection].
  - by apply closes_failConnection.
  - apply wp_read. intros c1 Hl1 Hi1 Hh1. destruct (if g =? generation_ c1 then _ else _) as [[cn|]|] eqn:E; [|done..].
    rewrite (Hcn c1 cn Hi1 E). unfold ask. cbn [thenProg]. apply (wp_ask _ _ _ [] []); [done| |intros t; by destruct t|].
    + intros c2 Hl2 _. cbn. eapply later_in; [|exact Hst]. etrans; [exact Hl|]. by etrans.
    + intros a c2 _. destruct a; try done. by apply closes_handleConnectionFailure.
  - done.
Qed.

Lemma closes_handleEvent g event c0 :
  HStart g ∈ history c0 → HReceived g event ∈ history c0 → closes (handleEvent config g event) c0 [] [].
Proof.
  intros Hst Hrc. destruct event; cbn [handleEvent].
  - by apply closes_handleOpen.
  - by apply closes_handleFrame.
  - by apply closes_handleConnectionFailure.
  - by apply closes_handleConnectionFailure.
Qed.


(** ** Connecting *)

Definition only (x : Duty) (ds : list Duty) : Prop := ∀ d, d ∈ ds → d = x.

Lemma connect_settled c ds :
  Inv c → only DConnect ds →
  shutdown_ c || isEmpty c || negb (bool_decide (state_ c = Idle) || bool_decide (state_ c = Backoff)) = true →
  ∀ d, d ∈ ds → d ∉ [] → ¬ due c d.
Proof.
  intros Hi Hds Hs d ->%Hds _ [Hst Hne]. apply Hne. rewrite Hst in Hs. cbn in Hs. rewrite orb_false_r in Hs.
  apply orb_prop in Hs as [Hs|Hs%bool_decide_eq_true]; [by apply (i_down _ Hi)|done].
Qed.

(** The connection is announced. *)
Lemma announce_good c attempt ds :
  Inv c → holds c [] → only DConnect ds →
  shutdown_ c || isEmpty c || negb (bool_decide (state_ c = Idle) || bool_decide (state_ c = Backoff)) = false →
  good c [] ds (set_connectingAttempt_ attempt (set_generation_ (generation_ c + 1) (set_state_ Connecting c)))
    [TStart (generation_ c + 1)] [DStart (generation_ c + 1)].
Proof.
  intros Hi Hh Hds [[Hsh He%bool_decide_eq_false]%orb_false_elim Hst%negb_false_iff]%orb_false_elim.
  assert (rank (state_ c) = 0%nat) as Hr by (apply orb_prop in Hst as [Hst|Hst]; apply bool_decide_eq_true in Hst; by rewrite Hst).
  apply good_grant; [|..|done|by apply NoDup_singleton|intros t; by apply loc_same| |].
  - destruct Hi. constructor; cbn; try done; try lia.
    + intros g Hg. destruct (i_conn0 g Hg). lia.
    + intros g Hg. destruct (i_start0 g Hg). split; lia.
  - constructor; cbn; try (lia || done). intros id o Ho. by exists o.
  - intros t ->%list_elem_of_singleton. cbn. lia.
  - intros d Hd. destruct d; cbn in *; [naive_solver|right|left; set_solver]. split; [done|]. by intros ?%Hds.
Qed.

(** The connection is kept. *)
Lemma connected_good c g r ds :
  Inv c → generation_ c = g → state_ c = Connecting → good c r ds (set_connection_ (Some g) c) r ds.
Proof.
  intros Hi Hg Hst. constructor.
  - destruct Hi. constructor; cbn; try done.
    + intros g' [= <-]. rewrite Hst. simpl. split; [done|lia].
    + rewrite Hst. simpl. lia.
    + intros g' Hg'. destruct (i_start0 g' Hg'). split; [done|]. intros -> _. by rewrite Hg.
  - constructor; cbn; try (lia || done); [intros id o Ho; by exists o|]. intros _. split; [done|].
    intros g' Hg'. destruct (i_conn _ Hi g' Hg'). congruence.
  - intros t. left. by rewrite (loc_same c).
  - intros d Hd. assert (due c d) by by destruct d. destruct (decide (d ∈ ds)); auto.
Qed.

(** The connection is started, if it still is the current one or never will be again. *)
Lemma started_good c g :
  Inv c → g ≤ generation_ c → (g = generation_ c → (1 ≤ rank (state_ c))%nat → connection_ c = Some g) →
  good c [TStart g] [DStart g] (log (HStart g) c) [] [].
Proof.
  intros Hi Hg Hc. constructor.
  - destruct Hi. constructor; cbn; try done.
    + intros g' [Hg'|[= ->]%list_elem_of_singleton]%elem_of_app; [auto|by split].
    + intros Hr. apply acked_app. auto.
    + intros id [Hid|Hid%list_elem_of_singleton]%elem_of_app; [auto|done].
    + by apply log_ok_snoc.
  - apply log_later.
  - intros t. left. rewrite loc_log, times_cons, times_nil. destruct t; cbn; try lia. destruct (Z.eqb_spec g0 g) as [->|]; [|simpl; lia].
    rewrite bool_decide_true by done. simpl. lia.
  - intros d Hd. right. split; [by apply (due_log c (HStart g))|]. intros ->%list_elem_of_singleton.
    destruct Hd as (_ & _ & Hn). apply Hn. cbn. apply elem_of_app. right. by left.
Qed.

Lemma closes_startConnection attempt c0 ds : only DConnect ds → closes (startConnection config attempt) c0 [] ds.
Proof.
  intros Hds. unfold closes, startConnection, locked, ask. cbn [thenProg wp]. intros c Hl Hi Hh.
  destruct (_ || _ || _) eqn:Hs.
  { exists [], []. split; [|done]. apply good_read; [done|done|]. by apply connect_settled. }
  set (g := generation_ c + 1). exists [TStart g], [DStart g]. split; [by apply announce_good|].
  set (c1 := set_connectingAttempt_ _ _). apply (wp_ask _ _ _ [TStart g] [TStart g]); [done|done|intros t; destruct t; cbn [spent]; lia|].
  assert (loneStart g [DStart g]) as Hds1 by by intros d ?%list_elem_of_singleton.
  intros a c2 Hl2. destruct a; [|by apply closes_any, closes_handleConnectionFailure..].
  intros c3 Hl3 Hi3 Hh3. destruct (negb (isCurrent g c3) || negb (bool_decide (state_ c3 = Connecting))) eqn:Hst.
  { exists [], []. split.
    - apply good_log; [done|done|done|intros t; destruct t; cbn [spent]; rewrite ?times_nil; lia|].
      intros d ->%list_elem_of_singleton _ (Hc & Hg & _). apply orb_prop in Hst as [Hst|Hst]; apply negb_true_iff in Hst.
      + assert (isCurrent g c3 = true) as Hcur; [|congruence]. apply current_spec. split; [|done].
        destruct (shutdown_ c3) eqn:Hd; [|done]. destruct (i_busy _ Hi3); [by rewrite Hc|]. by apply (i_down _ Hi3).
      + by apply bool_decide_eq_false in Hst.
    - done. }
  apply orb_false_elim in Hst as [[Hsh Hg]%negb_false_iff%current_spec Hc%negb_false_iff%bool_decide_eq_true].
  exists [TStart g], [DStart g]. split; [by apply connected_good|].
  intros c4 Hl4 Hi4 Hh4. exists [], []. split.
  - apply started_good; [done|destruct Hl4; cbn in *; lia|]. intros E _. destruct Hl4 as [_ _ _ _ Hsame].
    destruct Hsame as [_ Hk]; [cbn; lia|]. by apply Hk.
  - intros a. destruct a; try done. by apply closes_handleConnectionFailure.
Qed.

(** The timer thread is there afterwards. *)
Lemma wp_ensureTimerThread {A} (k : unit → Prog A) c0 r ds :
  (∀ c, later c0 c → closes (k tt) c r ds) → closes (thenProg ensureTimerThread k) c0 r (DTimer :: ds).
Proof.
  intros Hk. unfold closes, ensureTimerThread, update, locked. cbn [thenProg wp]. intros c Hl Hi Hh.
  assert (alike c (if timerStarted_ c || shutdown_ c then c else set_timerStarted_ true c)) as Ha by (case_match; unchanged).
  exists r, ds. split; [|apply Hk; etrans; [exact Hl|by apply alike_later]].
  apply good_alike; [done|done| |].
  - intros t. rewrite (loc_same c) by by case_match. lia.
  - intros d [->|Hd]%elem_of_cons Hn; [|done]. destruct (timerStarted_ c) eqn:E; [intros [_ Ht]; cbn in Ht; congruence|].
    destruct (shutdown_ c) eqn:Es; intros [Hne Ht]; [|done]. apply Hne. by apply (i_down _ Hi).
Qed.

Lemma closes_timerTurn c0 : closes (timerTurn config) c0 [] [].
Proof.
  unfold closes, timerTurn, locked. cbn [thenProg]. apply wp_read. intros c Hl Hi Hh. branch; [|done].
  destruct p as [state deadline]. cbn [thenProg]. apply wp_read. intros c' Hl1 Hi1 Hh1.
  branch; [|done]. destruct p as [[g connection] attempt]. branch.
  - apply (closes_then _ _ _ [] [] []); [apply closes_closeConnection|]. intros _ c2 _. by apply closes_handleConnectionFailure.
  - apply closes_startConnection. by intros d ?%elem_of_nil.
Qed.


(** ** The application's calls *)

(** The next operation. *)
Lemma create_inv c o :
  Inv c → op_active o = false → Inv (set_heap (<[nextOperationId_ c := o]> (heap c)) (set_nextOperationId_ (nextOperationId_ c + 1) c)).
Proof.
  intros Hi Ha. assert (heap c !! nextOperationId_ c = None) as Hn.
  { destruct (heap c !! nextOperationId_ c) eqn:E; [|done]. pose proof (i_heap _ Hi (nextOperationId_ c) ltac:(by eexists)). lia. }
  destruct Hi. constructor; cbn; try done.
  - intros id Hid. destruct (decide (id = nextOperationId_ c)) as [->|]; [by rewrite lookup_insert_eq|]. rewrite lookup_insert_ne; auto.
  - intros id. destruct (decide (id = nextOperationId_ c)) as [->|]; [lia|]. rewrite lookup_insert_ne by done.
    intros Hid. specialize (i_heap0 id Hid). lia.
  - intros id o'. destruct (decide (id = nextOperationId_ c)) as [->|]; [rewrite lookup_insert_eq; congruence|].
    rewrite lookup_insert_ne by done. eauto.
  - intros id Hid. destruct (i_cancel0 id Hid) as (o' & Ho' & ?). exists o'. rewrite lookup_insert_ne by congruence. done.
Qed.

Lemma create_later c c' o :
  Inv c → generation_ c' = generation_ c → history c' = history c → nextOperationId_ c' = nextOperationId_ c + 1 →
  state_ c' = state_ c → connection_ c' = connection_ c → heap c' = <[nextOperationId_ c := o]> (heap c) → later c c'.
Proof.
  intros Hi E1 E2 E3 E4 E5 E6. constructor; rewrite ?E1, ?E2, ?E3, ?E4, ?E5, ?E6; try (lia || done).
  intros id o' Ho'. exists o'. split; [|done]. rewrite lookup_insert_ne; [done|]. intros <-.
  pose proof (i_heap _ Hi (nextOperationId_ c) ltac:(by eexists)). lia.
Qed.

Lemma refused_good c o :
  Inv c → holds c [] → op_active o = false →
  good c [] [] (set_heap (<[nextOperationId_ c := o]> (heap c)) (set_nextOperationId_ (nextOperationId_ c + 1) c))
    [TTerm (nextOperationId_ c)] [].
Proof.
  intros Hi Hh Ho. apply good_grant; [by apply create_inv|by eapply create_later|done|by apply NoDup_singleton|intros t; by apply loc_same| |].
  - intros t ->%list_elem_of_singleton. cbn. lia.
  - intros d Hd. right. split; [by destruct d|by intros ?%elem_of_nil].
Qed.

(** An operation is added to those of a client that is open. *)
Lemma added_good c o new :
  Inv c → holds c [] → shutdown_ c = false → op_cancelled o = false →
  (new = [] ∨ state_ c = Ready ∧ new = [TSub (generation_ c) (nextOperationId_ c)]) →
  good c [] [] (set_heap (<[nextOperationId_ c := o]> (heap c))
      (set_operations_ ({[nextOperationId_ c]} ∪ operations_ c) (set_nextOperationId_ (nextOperationId_ c + 1) c)))
    new (if bool_decide (state_ c = Idle) then [DTimer; DConnect] else [DTimer]).
Proof.
  intros Hi Hh Hsh Ho Hnew. set (id := nextOperationId_ c).
  assert (heap c !! id = None) as Hn.
  { destruct (heap c !! id) eqn:E; [|done]. pose proof (i_heap _ Hi id ltac:(by eexists)). lia. }
  constructor.
  - destruct Hi. constructor; cbn; try done.
    + set_solver.
    + congruence.
    + intros i [->%elem_of_singleton|Hid]%elem_of_union; [by rewrite lookup_insert_eq|].
      destruct (decide (i = id)) as [->|]; [by rewrite lookup_insert_eq|]. rewrite lookup_insert_ne; auto.
    + intros i. destruct (decide (i = id)) as [->|]; [lia|]. rewrite lookup_insert_ne by done.
      intros Hid. specialize (i_heap0 i Hid). lia.
    + intros i o'. destruct (decide (i = id)) as [->|]; [set_solver|]. rewrite lookup_insert_ne by done. intros Hi' Ha.
      apply elem_of_union. right. eauto.
    + intros i Hid. destruct (i_cancel0 i Hid) as (o' & Ho' & ?). exists o'. rewrite lookup_insert_ne by congruence. done.
  - by eapply create_later.
  - intros t. assert (granted c t → t ≠ TTerm id) as Hg by (intros H ->; cbn in H; lia).
    assert ((times t new ≤ once (bool_decide (t ∈ new)))%nat) as Ht.
    { destruct Hnew as [->|[_ ->]]; [done|]. rewrite times_NoDup by apply NoDup_singleton. done. }
    destruct (decide (t = TTerm id)) as [->|Hne].
    + right. split; [cbn; lia|]. split; [cbn; lia|].
      assert (¬ granted c (TTerm id)) as Hng by (cbn; lia). pose proof (holds_fresh c [] (TTerm id) Hh Hng) as Hz.
      rewrite bool_decide_false in Ht by (destruct Hnew as [->|[_ ->]]; set_solver). simpl in Ht.
      unfold loc in *. cbn [operations_ queue_ history set_heap set_operations_ set_nextOperationId_].
      destruct (bool_decide (id ∈ {[id]} ∪ operations_ c)); simpl; lia.
    + assert (∀ c', queue_ c' = queue_ c → history c' = history c → operations_ c' = {[id]} ∪ operations_ c → loc c' t = loc c t) as Hlo.
      { intros c' E1 E2 E3. unfold loc. rewrite E1, E2, E3. destruct t as [i| | |]; try done.
        rewrite (bool_decide_ext (i ∈ {[id]} ∪ operations_ c) (i ∈ operations_ c)) by set_solver. done. }
      rewrite Hlo by done. case_bool_decide as Hin; [|left; simpl in Ht; rewrite times_nil; lia]. right.
      destruct Hnew as [->|[Hst ->]]; [by apply elem_of_nil in Hin|]. apply list_elem_of_singleton in Hin as ->.
      assert (¬ granted c (TSub (generation_ c) id)) as Hng by (cbn; lia).
      pose proof (holds_fresh c [] _ Hh Hng) as Hz. change id with (nextOperationId_ c) in Hz, Hng. rewrite Hz.
      split; [done|]. split; [|simpl in Ht; lia]. cbn. split_and!; [lia|by right|by apply (i_acked _ Hi)].
  - intros d Hd. destruct d; cbn in Hd.
    + left. rewrite bool_decide_true by apply Hd. set_solver.
    + left. case_bool_decide; set_solver.
    + right. split; [exact Hd|by intros ?%elem_of_nil].
Qed.

Lemma closes_ensureTimerThread c0 r : closes ensureTimerThread c0 r [DTimer].
Proof. by apply (wp_ensureTimerThread Ret). Qed.

Lemma closes_subscribe request callbacks c0 : closes (subscribe config request callbacks) c0 [] [].
Proof.
  unfold closes, subscribe, locked. cbn [thenProg wp]. intros c Hl Hi Hh. cbv zeta.
  destruct (refusal config request _) as [error|] eqn:Hr.
  - exists [TTerm (nextOperationId_ c)], []. split; [exact (refused_good c (mkOperation request callbacks false false false) Hi Hh eq_refl)|]. cbn [thenProg].
    apply (closes_then (postError (nextOperationId_ c) error) _ _ [TTerm (nextOperationId_ c)] [] []); [exact (closes_post _ (DError error) _)|done].
  - assert (shutdown_ c = false) as Hsh by (unfold refusal in Hr; cbn in Hr; by destruct (shutdown_ c)).
    pose proof (λ o new, added_good c o new Hi Hh Hsh) as G.
    cbn [state_ set_operations_ set_nextOperationId_ generation_]. destruct (state_ c) eqn:Hst; cbn [bool_decide] in G.
    + exists [], [DTimer; DConnect]. split; [exact (G (mkOperation request callbacks false true false) [] eq_refl (or_introl eq_refl))|]. cbn [thenProg].
      apply (closes_then _ _ _ [] [DTimer; DConnect] []); [|done].
      apply wp_ensureTimerThread. intros c2 _. apply closes_startConnection. by intros d ?%list_elem_of_singleton.
    + exists [], [DTimer]. split; [exact (G (mkOperation request callbacks false true false) [] eq_refl (or_introl eq_refl))|]. apply (closes_then _ _ _ [] [DTimer] []); [apply closes_ensureTimerThread|done].
    + exists [], [DTimer]. split; [exact (G (mkOperation request callbacks false true false) [] eq_refl (or_introl eq_refl))|]. apply (closes_then _ _ _ [] [DTimer] []); [apply closes_ensureTimerThread|done].
    + exists [TSub (generation_ c) (nextOperationId_ c)], [DTimer]. split; [exact (G (mkOperation request callbacks true true false) [_] eq_refl (or_intror (conj eq_refl eq_refl)))|].
      apply (closes_then _ _ _ [TSub (generation_ c) (nextOperationId_ c)] [DTimer] []); [|done].
      apply wp_ensureTimerThread. intros c2 Hl2. apply closes_sendSubscribe. eapply later_acked; [exact Hl2|]. by apply (i_acked _ Hi).
    + exists [], [DTimer]. split; [exact (G (mkOperation request callbacks false true false) [] eq_refl (or_introl eq_refl))|]. apply (closes_then _ _ _ [] [DTimer] []); [apply closes_ensureTimerThread|done].
Qed.


(** An operation that is not active, now and later. *)
Definition ended (id : Z) (c : Client) : Prop := ∃ o, heap c !! id = Some o ∧ op_active o = false.

Lemma later_ended id c c' : later c c' → ended id c → ended id c'.
Proof.
  intros [_ _ _ Hh _] (o & Ho & Ha). destruct (Hh id o Ho) as (o' & Ho' & _ & _ & _ & Hact). exists o'. split; [done|].
  destruct (op_active o'); [|done]. by rewrite Hact in Ha.
Qed.

Lemma closes_cancelOperation id c0 : ended id c0 → closes (cancelOperation config id) c0 [] [].
Proof.
  intros He. unfold closes, cancelOperation, locked. cbn [thenProg wp]. intros c Hl Hi Hh.
  case_bool_decide as Hin; [exists [], []; split; [by apply good_read|done]|].
  assert (good c [] [] (erase id c).1 [TTerm id] []) as G.
  { apply (erase_good id c []); [done|done|]. destruct (later_ended _ _ _ Hl He) as (o & Ho & Ha). naive_solver. }
  destruct (erase id c) as [c2 closing]. exists [TTerm id], []. split; [done|]. cbn [fst] in G.
  apply closes_any, (closes_then _ _ _ [] [] []); [|intros _ c3 _; apply closes_closeConnection].
  case_bool_decide as Hst; [|done]. destruct (connection_ c) as [cn|] eqn:Hc; [|done]. branch; [done|].
  apply (wp_ask _ _ _ [] []); try done; [|intros t; by destruct t]. intros c3 Hl3 _. cbn.
  destruct (i_conn _ Hi cn Hc) as [-> _]. eapply later_acked; [exact Hl3|]. eapply later_acked; [apply G|]. by apply (i_acked _ Hi).
Qed.

Lemma closes_cancel id c0 : is_Some (heap c0 !! id) → closes (cancel config id) c0 [] [].
Proof.
  intros Hid. unfold closes, cancel, update, locked. cbn [thenProg wp]. intros c Hl Hi Hh.
  assert (∀ c1 c2, later c1 c2 → is_Some (heap c1 !! id) → is_Some (heap c2 !! id)) as Hs.
  { intros c1 c2 [_ _ _ H _] [o Ho]. destruct (H id o Ho) as (o' & -> & _). done. }
  assert (good c [] [] (log (HCancelled id) (withOperation cancelled id c)) [] []) as G by (apply cancel_good; [done|by eapply Hs]).
  exists [], []. split; [done|]. intros c2 Hl2 Hi2 Hh2. exists [], [].
  assert (good c2 [] [] (withOperation inactive id c2) [] []) as G2 by (apply with_good; [done|apply same_inactive]).
  split; [done|]. branch; [done|]. apply closes_cancelOperation.
  destruct (Hs c0 c2) as [o Ho]; [|done|]; [etrans; [exact Hl|]; etrans; [apply G|done]|].
  exists (inactive o). split; [|done]. cbn. by rewrite lookup_alter_eq, Ho.
Qed.

Lemma cancelAll_good ids c : Inv c → good c [] [] (foldr (withOperation cancelled) c ids) [] [].
Proof.
  intros Hi. induction ids as [|id ids G]; [by apply good_read|]. cbn [foldr].
  eapply good_trans; [exact G|]. apply with_good; [apply G|apply same_cancelled].
Qed.

Lemma closes_shutdown c0 : closes shutdown c0 [] [].
Proof.
  unfold closes, shutdown, locked. cbn [thenProg wp]. intros c Hl Hi Hh.
  destruct (shutdown_ c); [exists [], []; split; [by apply good_read|done]|].
  set (c1 := set_connection_ None _).
  pose proof (dropAll_vacated c c1 eq_refl eq_refl eq_refl eq_refl eq_refl eq_refl eq_refl eq_refl (Nat.le_refl _)) as Hv.
  change (operations_ c1) with (operations_ c).
  destruct (dropAll c1) as [c2 ids] eqn:E. cbn [fst] in Hv.
  assert (good c [] [] c2 ([] ++ (TTerm <$> order (operations_ c))) []) as G
    by (apply vacate_good; [done|apply order_NoDup|intros; apply elem_of_order|done]).
  exists [], []. split; [|apply closes_closeConnection].
  eapply good_trans; [|apply cancelAll_good, G].
  destruct G as [? ? Hr ?]. constructor; try done. intros t. rewrite !times_nil.
  destruct (Hr t) as [Hle|(? & ? & Hle)]; [left|right; split_and!; [done|done|]]; rewrite ?times_nil in Hle; lia.
Qed.

(** Leaving the connection for another one, at once. *)
Lemma reconnectNow_good c : Inv c → shutdown_ c = false → operations_ c ≠ ∅ → good c [] [] (reconnectNow c) [] [DTimer].
Proof.
  intros Hi Hsh Hne. constructor.
  - destruct Hi. constructor; cbn; try done; try lia.
    intros g Hg. destruct (i_start0 g Hg). split; lia.
  - constructor; cbn; try (lia || done). intros id o Ho. by exists o.
  - intros t. left. by rewrite (loc_same c).
  - intros d Hd. destruct d; cbn in Hd; [naive_solver|left; by left|naive_solver].
Qed.

Lemma closes_setEndpoint next c0 : closes (setEndpoint config next) c0 [] [].
Proof.
  unfold closes, setEndpoint. destruct (normalizeGraphQLWebSocketUrl _ _) as [url|]; [|done]. case_bool_decide; [done|].
  unfold locked. cbn [thenProg wp]. intros c Hl Hi Hh.
  destruct (shutdown_ c || bool_decide (url = endpoint_ c)) eqn:Hs; [exists [], []; split; [by apply good_read|done]|].
  apply orb_false_elim in Hs as [Hsh _]. cbv zeta. set (c1 := set_endpoint_ url c).
  assert (alike c c1) as Ha by unchanged. assert (good c [] [] c1 [] []) as G1.
  { apply good_alike; [done|done|intros t; by rewrite (loc_same c)|]. by intros d ?%elem_of_nil. }
  destruct (isEmpty c1) eqn:He.
  - exists [], []. split; [done|]. done.
  - exists [], [DTimer]. split.
    + eapply good_trans; [exact G1|]. apply reconnectNow_good; [apply G1|done|by apply bool_decide_eq_false in He].
    + apply (closes_then _ _ _ [] [DTimer] []); [apply closes_ensureTimerThread|]. intros _ c2 _.
      apply (closes_then _ _ _ [] [] []); [apply closes_closeConnection|done].
Qed.

Lemma closes_credentialsChanged c0 : closes credentialsChanged c0 [] [].
Proof.
  unfold closes, credentialsChanged, locked. cbn [thenProg wp]. intros c Hl Hi Hh.
  destruct (shutdown_ c || isEmpty c) eqn:Hs; [exists [], []; split; [by apply good_read|done]|].
  apply orb_false_elim in Hs as [Hsh He%bool_decide_eq_false]. exists [], [DTimer]. split; [by apply reconnectNow_good|].
  apply wp_ensureTimerThread. intros c2 _. apply closes_closeConnection.
Qed.

(** A change the invariant does not speak of, as a program. *)
Lemma closes_alike (f : Client → Client) c0 :
  (∀ c, alike c (f c)) → (∀ c t, loc (f c) t ≤ loc c t)%nat → closes (update f) c0 [] [].
Proof.
  intros Ha Hr c Hl Hi Hh. exists [], []. split; [|done]. apply good_alike; [done|done| |by intros d ?%elem_of_nil].
  intros t. specialize (Hr c t). lia.
Qed.

Lemma closes_setToken token c0 : closes (setToken token) c0 [] [].
Proof.
  unfold closes, setToken, locked. cbn [thenProg wp]. intros c Hl Hi Hh.
  case_bool_decide; [exists [], []; split; [by apply good_read|done]|]. exists [], []. split; [|apply closes_credentialsChanged].
  apply good_alike; [done|unchanged|intros t; by rewrite (loc_same c)|]. by intros d ?%elem_of_nil.
Qed.

(** ** The dispatcher *)

Definition pendingRights (pending : list (Z * Delivery)) : list Token := concat ((λ x, endRight x.1 x.2) <$> pending).

Lemma times_pending t pending : times t (pendingRights pending) = sum_list_with (inQueue t) pending.
Proof.
  induction pending as [|[id d] pending IH]; [done|]. unfold pendingRights in *. rewrite fmap_cons. cbn [concat].
  rewrite times_app, IH, <- inQueue_right. done.
Qed.

Lemma closes_deliver x c0 : closes (deliver x) c0 (endRight x.1 x.2) [].
Proof.
  unfold closes, deliver, update, locked. cbn [wp]. intros c Hl Hi Hh. exists [], []. split; [|done].
  destruct (heap c !! x.1) as [o|] eqn:Ho; [|by apply good_read; [|intros t; rewrite times_nil; lia|]].
  destruct (op_cancelled o) eqn:Hc; [by apply good_read; [|intros t; rewrite times_nil; lia|]|].
  constructor.
  - apply log_inv; [done| |done]. cbn. intros Hin. destruct (i_cancel _ Hi _ Hin) as (o' & Ho' & Hc'). congruence.
  - apply log_later.
  - intros t. left. rewrite loc_log, <- inQueue_right, times_nil. destruct t, x; cbn; lia.
  - intros d Hd%due_log. right. split; [done|by intros ?%elem_of_nil].
Qed.

Lemma closes_deliverAll pending c0 : closes (deliverAll pending) c0 (pendingRights pending) [].
Proof.
  revert c0. induction pending as [|x pending IH]; intros c0; [done|]. cbn [deliverAll]. unfold closes, locked. cbn [thenProg].
  apply wp_read. intros c Hl Hi Hh. branch; [done|].
  unfold pendingRights. rewrite fmap_cons. cbn [concat]. apply closes_then; [apply closes_deliver|]. intros _ c2 _.
  rewrite <- (app_nil_r (concat _)). apply closes_then; [apply IH|done].
Qed.

Lemma closes_drain c0 : closes drain c0 [] [].
Proof.
  unfold closes, drain, locked. cbn [thenProg wp]. intros c Hl Hi Hh.
  destruct (closed_ c); [exists [], []; split; [by apply good_read|done]|].
  exists (pendingRights (queue_ c)), []. split; [|apply closes_deliverAll].
  apply good_alike; [done|unchanged| |by intros d ?%elem_of_nil]. intros t. rewrite times_pending, times_nil. unfold loc. cbn. lia.
Qed.

(** Every call keeps the rules. *)
Lemma closes_program e c0 : allowed e c0 = true → closes (program config e) (enter e c0) [] [].
Proof.
  destruct e as [request callbacks|id| |url|after given|token| | | |g event]; cbn [allowed enter program]; intros Ha.
  - apply (closes_then _ _ _ [] [] []); [apply closes_subscribe|done].
  - apply closes_cancel. by apply bool_decide_eq_true in Ha.
  - apply closes_shutdown.
  - apply (closes_then _ _ _ [] [] []); [apply closes_setEndpoint|done].
  - apply closes_alike; [unchanged|intros c t; by rewrite (loc_same c)].
  - apply closes_setToken.
  - apply (closes_then _ _ _ [] [] []); [apply closes_drain|done].
  - apply closes_alike; [unchanged|]. intros c t. unfold loc. cbn. lia.
  - apply closes_timerTurn.
  - apply closes_handleEvent.
    + apply existsb_exists in Ha as (h & Hh & Hg). destruct h; try done. apply Z.eqb_eq in Hg as <-. cbn.
      apply elem_of_app. left. by apply list_elem_of_In.
    + cbn. apply elem_of_app. right. by left.
Qed.

End Methods.

End Laws.
