(* ===== verification/SubscriptionSpec.v ===== *)
(** * What the subscription client guarantees

    The rules of [SubscriptionLaws] hold for each thread; here they are put together for all the
    threads of [Subscription.System], and give what holds in every state the client can reach. *)

From Stdlib Require Import QArith.
From S2P Require Import Prelude Bytes Core Json Endpoint SubErrors Subscription SubscriptionLaws.

Open Scope Z_scope.

Section Spec.
Context `{HE : SubEnv} {HL : SubEnvLaws} (config : SubConfig).
Context (Hdelays : in_s 64 (so_initialReconnectDelayMs (options config)) ∧ in_s 64 (so_maxReconnectDelayMs (options config))).

(** ** All threads together *)

(** What each thread has the right to do and what it owes. *)
Definition Share : Type := list Token * list Duty.

Definition keeps (c : Client) (p : Prog unit) (g : Share) : Prop := closes config p c g.1 g.2.

Record sys_ok (s : System) (gs : list Share) : Prop := {
  s_inv : Inv config (sy_client s);
  s_threads : Forall2 (keeps (sy_client s)) (sy_threads s) gs;
  s_rights : holds (sy_client s) (concat (fst <$> gs));
  s_duties : ∀ d, due (sy_client s) d → ∃ g, g ∈ gs ∧ d ∈ g.2 }.

Lemma holds_times c r r' : (∀ t, times t r = times t r') → holds c r → holds c r'.
Proof. intros E Hh t. destruct (Hh t). by rewrite <- E. Qed.

Lemma shares_split (g1 g2 : list Share) g t :
  times t (concat (fst <$> g1 ++ g :: g2)) = times t (g.1 ++ concat (fst <$> g1 ++ g2)).
Proof. rewrite !fmap_app, fmap_cons, !concat_app, !times_app. cbn [concat]. rewrite times_app. lia. Qed.

Lemma others_later gs (ps : list (Prog unit)) c c' :
  later c c' → Forall2 (keeps c) ps gs → Forall2 (keeps c') ps gs.
Proof. intros Hl Ht. eapply list.Forall2_impl; [exact Ht|]. intros p g. by apply closes_later. Qed.

(** A thread takes a step that is good for it. *)
Lemma step_ok c c' p p' ts1 ts2 gs :
  sys_ok (mkSystem c (ts1 ++ p :: ts2)) gs →
  (∀ r ds, closes config p c r ds → holds c r → Inv config c →
    ∃ r' ds', good config c r ds c' r' ds' ∧ closes config p' c' r' ds') →
  ∃ gs', sys_ok (mkSystem c' (ts1 ++ p' :: ts2)) gs'.
Proof.
  intros [Hi Ht Hr Hd] Hs. cbn in *.
  apply Forall2_app_inv_l in Ht as (g1 & g2' & Ht1 & Ht2 & ->). apply Forall2_cons_inv_l in Ht2 as ([r ds] & g2 & Hp & Ht2 & ->).
  apply (holds_times _ _ _ (shares_split g1 g2 (r, ds))) in Hr. cbn in Hr, Hp.
  destruct (Hs r ds Hp (holds_app _ _ _ Hr) Hi) as (r' & ds' & Hg & Hp'). exists (g1 ++ (r', ds') :: g2).
  pose proof (g_later _ _ _ _ _ _ _ Hg) as Hl. constructor; cbn.
  - apply Hg.
  - apply Forall2_app; [by eapply others_later|]. constructor; [done|by eapply others_later].
  - eapply holds_times; [intros t; symmetry; apply shares_split|]. cbn. eapply good_holds; [done|]. by apply good_frame.
  - intros d Hdue. destruct (g_duties _ _ _ _ _ _ _ Hg d Hdue) as [Hin|[Hold Hn]].
    + exists (r', ds'). split; [|done]. apply elem_of_app. right. by left.
    + destruct (Hd d Hold) as (g & [Hg1|[->|Hg1]%elem_of_cons]%elem_of_app & Hin).
      * exists g. split; [|done]. apply elem_of_app. by left.
      * done.
      * exists g. split; [|done]. apply elem_of_app. right. by right.
Qed.

Lemma run_ok c ts i p p' a c' gs :
  sys_ok (mkSystem c ts) gs → ts !! i = Some p → stepProg a p c = Some (c', p') →
  ∃ gs', sys_ok (mkSystem c' (<[i := p']> ts)) gs'.
Proof.
  intros Hok Hp Hs. pose proof (take_drop_middle ts i p Hp) as E. rewrite <- E in Hok |- *.
  rewrite insert_app_r_alt by (rewrite length_take; lia).
  rewrite length_take_le by (apply lookup_lt_Some in Hp; lia). rewrite Nat.sub_diag. cbn [insert list_insert].
  apply (step_ok _ _ _ _ _ _ _ Hok). intros r ds Hc Hh Hi. destruct p as [x| |B f k|h k]; cbn in Hs; try done.
  - unfold closes in Hc. cbn in Hc. specialize (Hc c (reflexivity _) Hi Hh). destruct (f c) as [c1 b]. injection Hs as <- <-. done.
  - unfold closes in Hc. cbn in Hc. specialize (Hc c (reflexivity _) Hi Hh). destruct Hc as (r' & ds' & Hg & Hk). injection Hs as <- <-.
    exists r', ds'. split; [done|apply Hk].
Qed.

Lemma enter_ok e c ts gs :
  sys_ok (mkSystem c ts) gs → allowed e c = true → sys_ok (mkSystem (enter e c) (ts ++ [program config e])) (gs ++ [([], [])]).
Proof.
  intros [Hi Ht Hr Hd] Ha. cbn in *.
  assert (Inv config (enter e c) ∧ later c (enter e c) ∧ (∀ t, loc (enter e c) t = loc c t) ∧ (∀ d, due (enter e c) d → due c d))
    as (Hi' & Hl & Hlo & Hdu).
  { destruct e; try done. cbn [enter]. split_and!; [|apply log_later|intros t; rewrite loc_log; destruct t; cbn; lia|by intros d ?%due_log].
    apply log_inv; [done| |done]. cbn in Ha |- *. apply existsb_exists in Ha as (h & Hh & Hg). destruct h; try done.
    apply Z.eqb_eq in Hg as <-. by apply list_elem_of_In. }
  constructor; cbn.
  - done.
  - apply Forall2_app; [by eapply others_later|]. constructor; [|done]. by apply closes_program.
  - rewrite fmap_app, concat_app. cbn. rewrite app_nil_r. intros t. destruct (Hr t). rewrite Hlo. split; [done|].
    intros. eapply later_granted; [done|]. auto.
  - intros d Hdue%Hdu. destruct (Hd d Hdue) as (g & Hg & Hin). exists g. split; [|done]. apply elem_of_app. by left.
Qed.

Lemma tick_ok ms c ts gs : sys_ok (mkSystem c ts) gs → sys_ok (mkSystem (set_now (now c + Z.of_nat ms) c) ts) gs.
Proof.
  intros [Hi Ht Hr Hd]. cbn in *. assert (alike c (set_now (now c + Z.of_nat ms) c)) as Ha by by constructor. constructor; cbn.
  - by eapply alike_inv.
  - eapply others_later; [by apply alike_later|done].
  - intros t. destruct (Hr t). rewrite (loc_same c) by done. split; [done|]. intros. eapply later_granted; [by apply alike_later|]. auto.
  - intros d Hdue. apply Hd. by eapply alike_due.
Qed.

Lemma move_ok m s s' gs : sys_ok s gs → move config m s = Some s' → ∃ gs', sys_ok s' gs'.
Proof.
  destruct s as [c ts]. intros Hok Hm. destruct m as [e|i a|ms]; cbn in Hm.
  - destruct (allowed e c) eqn:Ha; [|done]. injection Hm as <-. eexists. by apply enter_ok.
  - destruct (ts !! i) as [p|] eqn:Hp; [|done]. destruct (stepProg a p c) as [[c' p']|] eqn:Hs; [|done]. injection Hm as <-.
    by eapply run_ok.
  - injection Hm as <-. eexists. by apply tick_ok.
Qed.

Lemma initial_ok g token time : sys_ok (mkSystem (makeClient config g token time) []) [].
Proof.
  constructor; cbn.
  - constructor; cbn; try done; try (simpl; lia).
    + by intros ? ?%elem_of_nil.
    + intros id [o Ho]. by rewrite lookup_empty in Ho.
    + by intros ? ?%elem_of_nil.
    + intros pre h post E. by destruct pre.
  - constructor.
  - intros t. assert (loc (makeClient config g token time) t = 0%nat) as ->.
    { destruct t; [|done..]. unfold loc. by rewrite bool_decide_false by apply (not_elem_of_empty id). }
    rewrite times_nil. split; lia.
  - intros d Hd. destruct d; naive_solver.
Qed.

Lemma moves_ok l s s' gs : sys_ok s gs → moves config l s = Some s' → ∃ gs', sys_ok s' gs'.
Proof.
  revert s gs. induction l as [|m l IH]; intros s gs Hok Hm; cbn in Hm; [injection Hm as <-; eauto|].
  destruct (move config m s) as [s1|] eqn:E; [|done]. destruct (move_ok _ _ _ _ Hok E) as [gs1 Hok1]. eauto.
Qed.

Lemma system_ok s : reachable config s → ∃ gs, sys_ok s gs.
Proof. intros (g & token & time & l & Hm). eapply moves_ok; [apply initial_ok|done]. Qed.


(** ** What callbacks see *)

Definition count (f : Happening → bool) (l : list Happening) : nat := length (List.filter f l).

(** The end of an operation is reported. *)
Definition ends (id : Z) (h : Happening) : bool :=
  match h with HDeliver id' d => isTerminal d && (id =? id') | _ => false end.
Definition held (id : Z) (c : Client) : bool := bool_decide (id ∈ operations_ c).
Definition endQueued (id : Z) (x : Z * Delivery) : bool := isTerminal x.2 && (id =? x.1).

Lemma count_spent f t l : (∀ h, spent t h = once (f h)) → sum_list_with (spent t) l = count f l.
Proof.
  intros E. induction l as [|h l IH]; [done|]. cbn [sum_list_with]. rewrite IH, E. unfold count. cbn [List.filter].
  by destruct (f h).
Qed.

Lemma count_queued id l : sum_list_with (inQueue (TTerm id)) l = length (List.filter (endQueued id) l).
Proof.
  induction l as [|x l IH]; [done|]. cbn [sum_list_with List.filter]. rewrite IH. unfold endQueued, inQueue at 1.
  by destruct (_ && _).
Qed.

Lemma right_once s t : reachable config s → (loc (sy_client s) t ≤ 1)%nat.
Proof. intros [gs Hok]%system_ok. destruct (s_rights _ _ Hok t). lia. Qed.

Lemma used_once s f t : reachable config s → (∀ h, spent t h = once (f h)) → (count f (history (sy_client s)) ≤ 1)%nat.
Proof. intros Hr E. pose proof (right_once s t Hr). rewrite <- (count_spent f t) by done. unfold loc in *. lia. Qed.

Lemma reachable_inv s : reachable config s → Inv config (sy_client s).
Proof. intros [gs Hok]%system_ok. apply Hok. Qed.

(** C34. At most one end of an operation is ever reported: it is not in the map and not queued a second time
    when it has been delivered. No callback begins once [SubscriptionHandle::cancel] has set the flag. *)
Theorem subscription_callbacks s id :
  reachable config s →
  let c := sy_client s in
  (once (held id c) + length (List.filter (endQueued id) (queue_ c)) + count (ends id) (history c) ≤ 1)%nat ∧
  (∀ pre d post, history c = pre ++ HDeliver id d :: post → HCancelled id ∉ pre).
Proof.
  intros Hr c. split.
  - pose proof (right_once s (TTerm id) Hr) as Ho. unfold loc in Ho.
    rewrite count_queued, (count_spent (ends id)) in Ho; [exact Ho|]. intros h. by destruct h.
  - intros pre d post E. exact (i_log _ _ (reachable_inv s Hr) _ _ _ E).
Qed.

(** ** What the server sees *)

Definition isStart (g : Z) (h : Happening) : bool := match h with HStart g' => g =? g' | _ => false end.
Definition isInit (g : Z) (h : Happening) : bool := match h with HSend g' (OText (MInit _)) => g =? g' | _ => false end.
Definition isSubscribe (g id : Z) (h : Happening) : bool :=
  match h with HSend g' (OText (MSubscribe id' _)) => (g =? g') && (id =? id') | _ => false end.
(** [subscribe] and [complete]. *)
Definition operational (what : Outgoing) : bool :=
  match what with OText (MSubscribe _ _) | OText (MComplete _) => true | _ => false end.

Lemma received_started s pre g event post :
  reachable config s → history (sy_client s) = pre ++ HReceived g event :: post → HStart g ∈ pre.
Proof. intros Hr E. exact (i_log _ _ (reachable_inv s Hr) _ _ _ E). Qed.

(** C35. On each connection: it is started once, [connection_init] is sent once, and [subscribe] once for an
    operation; everything is sent after it was started, and [subscribe] and [complete] after
    [connection_ack] came in on that very connection. *)
Theorem subscription_protocol s g :
  reachable config s →
  let l := history (sy_client s) in
  (count (isStart g) l ≤ 1)%nat ∧ (count (isInit g) l ≤ 1)%nat ∧ (∀ id, (count (isSubscribe g id) l ≤ 1)%nat) ∧
  (∀ pre what post, l = pre ++ HSend g what :: post →
    HStart g ∈ pre ∧ (operational what = true → acked pre g)).
Proof.
  intros Hr l. split_and!.
  - apply (used_once s _ (TStart g)); [done|]. by intros [].
  - apply (used_once s _ (TInit g)); [done|]. intros [| | |? [[]|]| | | |]; done.
  - intros id. apply (used_once s _ (TSub g id)); [done|]. intros [| | |? [[]|]| | | |]; done.
  - intros pre what post E. pose proof (i_log _ _ (reachable_inv s Hr) _ _ _ E) as Hs. cbn in Hs.
    assert (acked pre g → HStart g ∈ pre) as Ha.
    { intros (f & (p1 & p2 & ->)%list_elem_of_split & _). apply elem_of_app. left.
      apply (received_started s p1 g (EvFrame f) (p2 ++ HSend g what :: post)); [done|]. fold l. by rewrite E, <- app_assoc. }
    destruct what as [[]|]; (split; [by auto|by intros ?]).
Qed.

(** ** The state *)

Record consistent (c : Client) : Prop := {
  k_shutdown : shutdown_ c = true → operations_ c = ∅ ∧ state_ c = Idle ∧ connection_ c = None;
  k_busy : state_ c ≠ Idle → operations_ c ≠ ∅;
  k_connection : ∀ g, connection_ c = Some g → g = generation_ c ∧ state_ c ≠ Idle ∧ state_ c ≠ Backoff;
  k_open : state_ c = AwaitingAcknowledgement ∨ state_ c = Ready → connection_ c = Some (generation_ c);
  k_ready : state_ c = Ready → acked (history c) (generation_ c);
  k_active : ∀ id o, heap c !! id = Some o → op_active o = true → id ∈ operations_ c;
  k_ids : ∀ id, id ∈ operations_ c → is_Some (heap c !! id) ∧ id < nextOperationId_ c;
  k_attempts : (currentReconnectAttempt_ c ≤ Nat.max 1 (so_maxReconnectAttempts (options config)))%nat }.

(** In every state the threads can bring about: a client that was shut down has nothing left; there is a
    connection only for the current generation, from [Connecting] on, always once it has opened, and
    only while something is subscribed; [Ready] means the server has acknowledged; an operation that is
    active is in the map; and the count of reconnects stays within the limit (or 1, after a move). *)
Theorem subscription_consistent s : reachable config s → consistent (sy_client s).
Proof.
  intros Hr. pose proof (reachable_inv s Hr) as Hi. set (c := sy_client s) in *. constructor.
  - intros Hsh. assert (state_ c = Idle) as Hst.
    { destruct (decide (state_ c = Idle)) as [|Hn]; [done|]. destruct (i_busy _ _ Hi Hn). by apply (i_down _ _ Hi). }
    split_and!; [by apply (i_down _ _ Hi)|done|]. destruct (connection_ c) as [g|] eqn:Hc; [|done].
    destruct (i_conn _ _ Hi g Hc) as [_ Hk]. rewrite Hst in Hk. simpl in Hk. lia.
  - apply (i_busy _ _ Hi).
  - intros g Hc. destruct (i_conn _ _ Hi g Hc) as [-> Hk]. split_and!; [done|intros E..]; rewrite E in Hk; simpl in Hk; lia.
  - intros [E|E]; apply (i_open _ _ Hi); rewrite E; simpl; lia.
  - apply (i_acked _ _ Hi).
  - apply (i_active _ _ Hi).
  - intros id Hid. pose proof (i_ids _ _ Hi id Hid) as Ho. split; [done|]. by apply (i_heap _ _ Hi).
  - apply (i_attempt _ _ Hi).
Qed.


(** ** When the threads have returned *)












End Spec.

(** ** A run *)

Section Run.
#[local] Existing Instance Demo.env.

Lemma demo_delays attempts :
  in_s 64 (so_initialReconnectDelayMs (options (Demo.config attempts))) ∧ in_s 64 (so_maxReconnectDelayMs (options (Demo.config attempts))).
Proof. split; vm_compute; split; congruence. Defined.

Lemma subscription_callbacks_witness :
  let c := sy_client (Demo.after 0 Demo.overtaken) in
  (count (ends 1) (history c) = 1)%nat ∧
  (once (held 1 c) + length (List.filter (endQueued 1) (queue_ c)) + count (ends 1) (history c) ≤ 1)%nat ∧
  (∀ pre d post, history c = pre ++ HDeliver 1 d :: post → HCancelled 1 ∉ pre).
Proof.
  split; [by vm_compute|].
  apply (subscription_callbacks (HL := Demo.env_laws) (Demo.config 0) (demo_delays 0)). apply Demo.after_reachable. by vm_compute.
Defined.

Lemma subscription_protocol_witness :
  let l := history (sy_client (Demo.after 8 Demo.acknowledged)) in
  (count (isSubscribe 1 1) l = 1)%nat ∧
  (count (isStart 1) l ≤ 1)%nat ∧ (count (isInit 1) l ≤ 1)%nat ∧ (∀ id, (count (isSubscribe 1 id) l ≤ 1)%nat) ∧
  (∀ pre what post, l = pre ++ HSend 1 what :: post → HStart 1 ∈ pre ∧ (operational what = true → acked pre 1)).
Proof.
  split; [by vm_compute|].
  apply (subscription_protocol (HL := Demo.env_laws) (Demo.config 8) (demo_delays 8)). apply Demo.after_reachable. by vm_compute.
Defined.


(** A value can reach [onNext] after [onError]: the thread that received it had looked the operation up
    before another thread's failed send ended it. *)
Example next_after_error : ∃ pre e o post,
  history (sy_client (Demo.after 0 Demo.overtaken)) = pre ++ HDeliver 1 (DError e) :: HDeliver 1 (DNext o) :: post.
Proof.
  exists (take 10 (history (sy_client (Demo.after 0 Demo.overtaken)))). do 2 eexists. exists []. vm_compute. reflexivity.
Qed.

(** [complete] can go out before [subscribe]: the server keeps a subscription nobody has, on a connection
    that stays. *)
Example complete_before_subscribe :
  let c := sy_client (Demo.after 8 Demo.orphaned) in
  (∃ pre, history c = pre ++ [HSend 1 (OText (MComplete 2)); HSend 1 (OText (MSubscribe 2 Demo.request))]) ∧
  connection_ c = Some 1 ∧ 2%Z ∉ operations_ c.
Proof.
  split; [exists (take 6 (history (sy_client (Demo.after 8 Demo.orphaned)))); by vm_compute|].
  split; [by vm_compute|]. apply (bool_decide_eq_false _). by vm_compute.
Qed.

End Run.
