(* ===== verification/SubscriptionRuns.v ===== *)
(** * What single calls of the subscription client do

    A thread run alone ([runProg]), with the world's answers given: the reconnect policy, the replay
    after an acknowledgement, and events that come too late. What can happen between the steps of a
    thread is the matter of [SubscriptionSpec]. *)

From Stdlib Require Import QArith.
From S2P Require Import Prelude Bytes Core Json Endpoint SubErrors Subscription SubscriptionLaws.

Open Scope Z_scope.
Open Scope prog_scope.

Section Runs.
Context `{HE : SubEnv} (config : SubConfig) (world : Happening → Answer).

Lemma run_then {A B} (p : Prog A) (f : A → Prog B) c :
  runProg world (thenProg p f) c =
    let '(c, r) := runProg world p c in match r with Some a => runProg world (f a) c | None => (c, None) end.
Proof.
  revert c. induction p as [a| |C g k IH|h k IH]; intros c; cbn [thenProg runProg]; [done|done|..].
  - destruct (g c) as [c1 b]. apply IH.
  - apply IH.
Qed.

(** ** What is queued *)

Definition wants (d : Delivery) (c : Client) (id : Z) : bool :=
  match heap c !! id with Some o => wanted d (op_callbacks o) | None => false end.

(** What the dispatcher gets when [d] is posted for each of [ids]. *)
Definition posted (d : Delivery) (ids : list Z) (c : Client) : list (Z * Delivery) :=
  if closed_ c then [] else (λ id, (id, d)) <$> List.filter (wants d c) ids.

Lemma queue_nil c : set_queue_ (queue_ c ++ []) c = c.
Proof. rewrite app_nil_r. by destruct c. Qed.

Lemma run_post id d c : runProg world (post id d) c = (set_queue_ (queue_ c ++ posted d [id] c) c, Some tt).
Proof.
  unfold post, update, locked. cbn [runProg]. unfold posted, push. cbn [List.filter]. unfold wants.
  destruct (heap c !! id) as [o|]; [destruct (wanted d (op_callbacks o))|]; destruct (closed_ c); cbn [fmap list_fmap]; by rewrite ?queue_nil.
Qed.

Lemma run_posts d ids : ∀ c,
  runProg world (forEach ids (λ id, post id d)) c = (set_queue_ (queue_ c ++ posted d ids c) c, Some tt).
Proof.
  induction ids as [|id ids IH]; intros c; cbn [forEach foldr].
  - unfold posted. cbn. destruct (closed_ c); by rewrite queue_nil.
  - rewrite run_then, run_post. unfold forEach in IH. rewrite IH. unfold posted. cbn.
    f_equal. rewrite <- app_assoc. unfold set_queue_; cbn. f_equal. f_equal.
    destruct (closed_ c); [done|]. change (wants d (set_queue_ _ _)) with (wants d c).
    by destruct (wants d c id).
Qed.

Lemma run_close connection code reason c :
  runProg world (closeConnection connection code reason) c =
    (match connection with Some g => log (HClose g code reason) c | None => c end, Some tt).
Proof. by destruct connection. Qed.

(** ** The reconnect policy *)

Definition closing (connection : option Z) (code : Z) (reason : bytes) : list Happening :=
  match connection with Some g => [HClose g code reason] | None => [] end.

(** Every operation has ended with [error], and the connection was closed with [code]. *)
Record endedAll (error : GraphQLSubscriptionError) (code : Z) (reason : bytes) (c c' : Client) : Prop := {
  e_state : state_ c' = Idle; e_connection : connection_ c' = None; e_generation : generation_ c' = generation_ c + 1;
  e_operations : operations_ c' = ∅; e_attempt : currentReconnectAttempt_ c' = O;
  e_inactive : ∀ id, id ∈ operations_ c → heap c' !! id = inactive <$> heap c !! id;
  e_queue : queue_ c' = queue_ c ++ posted (DError error) (order (operations_ c)) c;
  e_history : history c' = history c ++ closing (connection_ c) code reason }.

(** Every operation is kept for the next attempt. *)
Record retried (c c' : Client) : Prop := {
  t_state : state_ c' = Backoff; t_connection : connection_ c' = None; t_generation : generation_ c' = generation_ c + 1;
  t_operations : operations_ c' = operations_ c; t_attempt : currentReconnectAttempt_ c' = S (currentReconnectAttempt_ c);
  t_heap : heap c' = heap c; t_queue : queue_ c' = queue_ c;
  t_deadline : now c ≤ reconnectDeadline_ c' ≤ now c + delayLimit (options config);
  t_history : history c' = history c ++ closing (connection_ c) 1001 (chars "reconnecting") ++
    (if (0 <? rediscoverAfterFailures_ c) && (rediscoverAfterFailures_ c <=? Z.of_nat (currentReconnectAttempt_ c')) &&
        onRepeatedFailure_ c then [HRediscover] else []) }.

Lemma log_closing connection code reason c :
  (match connection with Some g => log (HClose g code reason) c | None => c end) = set_history (history c ++ closing connection code reason) c.
Proof. destruct connection; [done|]. cbn. rewrite app_nil_r. by destruct c. Qed.

Context {HL : SubEnvLaws}.

(** What [dropAll] leaves, once the connection is closed and the errors are posted. *)
Lemma dropAll_ended error code reason c c1 :
  state_ c1 = Idle → connection_ c1 = None → generation_ c1 = generation_ c + 1 → operations_ c1 = operations_ c →
  currentReconnectAttempt_ c1 = O → heap c1 = heap c → queue_ c1 = queue_ c → history c1 = history c → closed_ c1 = closed_ c →
  let '(c2, ids) := dropAll c1 in
  endedAll error code reason c
    (runProg world (closeConnection (connection_ c) code reason;; forEach ids (λ id, postError id error)) c2).1.
Proof.
  intros E1 E2 E3 E4 E5 E6 E7 E8 E9. unfold dropAll. rewrite E4, withAll, E6. rewrite run_then, run_close.
  rewrite log_closing. unfold postError. rewrite run_posts. cbn [fst].
  assert (∀ i, foldr (alter inactive) (heap c) (order (operations_ c)) !! i =
    if bool_decide (i ∈ operations_ c) then inactive <$> heap c !! i else heap c !! i) as Hl.
  { intros i. rewrite lookup_alters by done. by rewrite (bool_decide_ext _ _ (elem_of_order _ i)). }
  constructor; cbn; try done.
  - intros id Hid. by rewrite Hl, bool_decide_true.
  - rewrite E7. f_equal. unfold posted. cbn. rewrite E9. destruct (closed_ c); [done|]. f_equal.
    apply filter_ext. intros id. unfold wants. cbn. rewrite Hl. case_bool_decide; [|done]. by destruct (heap c !! id).
  - by rewrite E8.
Qed.

(** C37. The failure of the current connection. An error that must not be retried, a policy without
    reconnects, or a count of failures that has reached the limit ends every operation, each with one
    error; anything else keeps them all, to be replayed by an attempt that is due after a delay within
    the limits, and after enough failures asks for another endpoint. *)
Theorem failure_policy g error c :
  isCurrent g c = true → operations_ c ≠ ∅ →
  in_s 64 (so_initialReconnectDelayMs (options config)) → in_s 64 (so_maxReconnectDelayMs (options config)) →
  let c' := (runProg world (handleConnectionFailure config g error) c).1 in
  if se_terminal error || negb (se_retryable error) then endedAll error 1000 (se_code error) c c'
  else if (so_maxReconnectAttempts (options config) =? 0)%nat then endedAll error 1001 (chars "reconnecting") c c'
  else if (so_maxReconnectAttempts (options config) <=? currentReconnectAttempt_ c)%nat
    then endedAll (exhaustedError error) 1001 (chars "reconnecting") c c'
  else retried c c'.
Proof.
  intros [Hsh <-]%current_spec Hne Hi Hm. unfold handleConnectionFailure. destruct (se_terminal error || _) eqn:Ht.
  { unfold failAll, locked. cbn [thenProg runProg]. rewrite Hsh, Z.eqb_refl. cbn [orb negb].
    set (c1 := set_connection_ None _). pose proof (dropAll_ended error 1000 (se_code error) c c1) as Hd.
    destruct (dropAll c1) as [c2 ids]. by apply Hd. }
  unfold locked. cbn [thenProg runProg]. unfold decideFailure. rewrite Hsh, Z.eqb_refl. cbn [orb negb]. cbv zeta.
  set (c1 := set_generation_ _ _). unfold isEmpty. rewrite bool_decide_false by done.
  destruct (so_maxReconnectAttempts (options config) =? 0)%nat; [|change (currentReconnectAttempt_ c1) with (currentReconnectAttempt_ c);
    destruct (so_maxReconnectAttempts (options config) <=? currentReconnectAttempt_ c)%nat].
  - pose proof (dropAll_ended error 1001 (chars "reconnecting") c (set_currentReconnectAttempt_ 0 (set_state_ Idle c1))) as Hd.
    destruct (dropAll _) as [c2 ids]. by apply Hd.
  - pose proof (dropAll_ended (exhaustedError error) 1001 (chars "reconnecting") c (set_currentReconnectAttempt_ 0 (set_state_ Idle c1))) as Hd.
    destruct (dropAll _) as [c2 ids]. by apply Hd.
  - destruct (reconnectDelay_defined varied (options config) (S (currentReconnectAttempt_ c)) (random_ c1) Hi Hm) as (delay & rnd & E & Hd).
    rewrite E. rewrite run_then, run_close. cbn [connection_ c1]. rewrite log_closing.
    set (more := closing _ _ _). set (again := _ && _ && _).
    assert (again = (0 <? rediscoverAfterFailures_ c) && (rediscoverAfterFailures_ c <=? Z.of_nat (S (currentReconnectAttempt_ c))) &&
      onRepeatedFailure_ c) as Ha by done.
    destruct again; constructor; cbn [runProg ask thenProg fst currentReconnectAttempt_ set_history log set_random_ set_reconnectDeadline_ set_state_
      set_currentReconnectAttempt_ reconnectDeadline_ history]; rewrite <- ?Ha; try done;
      [cbn; lia|by rewrite <- app_assoc|cbn; lia|by rewrite app_nil_r].
Qed.

(** ** The replay after an acknowledgement *)

Definition fits (text : bytes) : Prop := tooLarge config text = false ∧ validUtf8 text = true.

(** What is sent for an operation, and what its callbacks get. *)
Definition replaySend (g : Z) (c : Client) (id : Z) : option Happening :=
  match heap c !! id with
  | Some o => if op_active o then Some (HSend g (OText (MSubscribe id (op_request o)))) else None
  | None => None
  end.
Definition replayNote (attempt : nat) (c : Client) (id : Z) : option (Z * Delivery) :=
  match heap c !! id with
  | Some o => if op_active o && op_subscribedOnce o && cb_onReconnect (op_callbacks o) && negb (closed_ c)
              then Some (id, DReconnect attempt) else None
  | None => None
  end.
Definition resumed (o : Operation) : Operation := if op_active o then subscribed o else o.

(** Ready, on a connection that takes what is sent. *)
Definition ready (g : Z) (c : Client) : Prop := isCurrent g c = true ∧ state_ c = Ready ∧ connection_ c = Some g.

Lemma run_sendSubscribe g id rq c :
  ready g c → id ∈ operations_ c → activeRequest id c = Some rq → (∀ h, world h = Done) → fits (textOf (MSubscribe id rq)) →
  runProg world (sendSubscribe config id g) c = (log (HSend g (OText (MSubscribe id rq))) c, Some tt).
Proof.
  intros (Hcur & Hst & Hc) Hin Hrq Hw [Hl Hu]. unfold sendSubscribe, locked. cbn [thenProg runProg]. rewrite Hrq, Hl, Hu. cbn [negb thenProg runProg].
  rewrite Hcur, Hst, (bool_decide_false (id ∉ operations_ c)), bool_decide_true by (done || by intros ?). cbn [negb orb]. rewrite Hc.
  unfold sendConnectionFrame, generationIsCurrent, locked, ask. cbn [thenProg runProg]. rewrite Hcur, Hl, Hu. cbn [negb orb thenProg runProg].
  by rewrite Hw.
Qed.

Lemma run_resubscribe g attempt id c :
  ready g c → id ∈ operations_ c → is_Some (heap c !! id) →
  (∀ h, world h = Done) → (∀ o, heap c !! id = Some o → op_active o = true → fits (textOf (MSubscribe id (op_request o)))) →
  runProg world (resubscribe config g attempt id) c =
    (set_history (history c ++ omap (replaySend g c) [id]) (set_heap (alter resumed id (heap c))
      (set_queue_ (queue_ c ++ omap (replayNote attempt c) [id]) c)), Some tt).
Proof.
  intros Hready Hin [o Ho] Hw Hfit. unfold resubscribe, locked. cbn [thenProg runProg].
  unfold replaySend, replayNote. cbn [omap list_omap]. rewrite Ho. destruct (op_active o) eqn:Ha; cbn [negb andb thenProg runProg].
  - assert (alter resumed id (heap c) = alter subscribed id (heap c)) as ->.
    { apply map_eq. intros i. destruct (decide (i = id)) as [->|Hne]; [|by rewrite !lookup_alter_ne].
      rewrite !lookup_alter_eq, Ho. unfold resumed. cbn. by rewrite Ha. }
    assert (∀ q, runProg world (sendSubscribe config id g) (set_queue_ q (withOperation subscribed id c)) =
      (log (HSend g (OText (MSubscribe id (op_request o)))) (set_queue_ q (withOperation subscribed id c)), Some tt)) as Hs.
    { intros q. apply run_sendSubscribe; [done|done| |done|auto]. unfold activeRequest. cbn. rewrite lookup_alter_eq, Ho. cbn. by rewrite Ha. }
    rewrite run_then, Ho. destruct (op_subscribedOnce o && cb_onReconnect (op_callbacks o)).
    + unfold postReconnect. rewrite run_post, Hs. unfold posted. cbn [List.filter].
      unfold wants. cbn. rewrite lookup_alter_eq, Ho. cbn. by destruct (closed_ c).
    + cbn [runProg]. specialize (Hs (queue_ c)). cbn in Hs |- *. rewrite app_nil_r. exact Hs.
  - assert (alter resumed id (heap c) = heap c) as ->.
    { apply map_eq. intros i. destruct (decide (i = id)) as [->|Hne]; [|by rewrite !lookup_alter_ne].
      rewrite !lookup_alter_eq, Ho. unfold resumed. cbn. by rewrite Ha. }
    rewrite !app_nil_r. by destruct c.
Qed.

Lemma omap_agree {A B} (f f' : A → option B) (l : list A) : (∀ x, x ∈ l → f x = f' x) → omap f l = omap f' l.
Proof.
  induction l as [|x l IH]; intros E; [done|]. cbn [omap list_omap]. rewrite (E x) by by left.
  assert (omap f l = omap f' l) as Hl by (apply IH; intros y Hy; apply E; by right). cbn in Hl. by rewrite Hl.
Qed.

Lemma resumed_twice o : resumed (resumed o) = resumed o.
Proof. unfold resumed. destruct (op_active o) eqn:E; [cbn; by rewrite E|by rewrite E]. Qed.

Definition replayed (g : Z) (attempt : nat) (ids : list Z) (c : Client) : Client :=
  set_history (history c ++ omap (replaySend g c) ids) (set_heap (foldr (alter resumed) (heap c) ids)
    (set_queue_ (queue_ c ++ omap (replayNote attempt c) ids) c)).

Lemma replayed_cons g attempt id ids c :
  id ∉ ids → replayed g attempt ids (replayed g attempt [id] c) = replayed g attempt (id :: ids) c.
Proof.
  intros Hn. set (c1 := replayed g attempt [id] c). unfold replayed.
  assert (∀ i, i ∈ ids → heap c1 !! i = heap c !! i) as Hh.
  { intros i Hi. cbn. rewrite lookup_alter_ne; [done|]. by intros ->. }
  rewrite (omap_agree (replaySend g c1) (replaySend g c)) by (intros i Hi; unfold replaySend; by rewrite Hh).
  rewrite (omap_agree (replayNote attempt c1) (replayNote attempt c)) by (intros i Hi; unfold replayNote; by rewrite Hh).
  assert (foldr (alter resumed) (heap c1) ids = foldr (alter resumed) (heap c) (id :: ids)) as ->.
  { apply map_eq. intros i. rewrite !lookup_alters by apply resumed_twice. cbn.
    destruct (decide (i = id)) as [->|Hne]; [rewrite bool_decide_false, bool_decide_true by (done || by left); by rewrite lookup_alter_eq|].
    rewrite lookup_alter_ne by done. erewrite bool_decide_ext; [done|]. rewrite elem_of_cons. naive_solver. }
  unfold c1, replayed. cbn. rewrite <- !app_assoc.
  by destruct (replaySend g c id), (replayNote attempt c id).
Qed.

Lemma run_replay g attempt ids : ∀ c,
  ready g c → NoDup ids → (∀ id, id ∈ ids → id ∈ operations_ c ∧ is_Some (heap c !! id)) → (∀ h, world h = Done) →
  (∀ id o, id ∈ ids → heap c !! id = Some o → op_active o = true → fits (textOf (MSubscribe id (op_request o)))) →
  runProg world (forEach ids (resubscribe config g attempt)) c = (replayed g attempt ids c, Some tt).
Proof.
  induction ids as [|id ids IH]; intros c Hready Hnd Hids Hw Hfit.
  - unfold replayed. cbn. rewrite !app_nil_r. by destruct c.
  - apply list.NoDup_cons in Hnd as [Hn Hnd]. cbn [forEach foldr]. rewrite run_then.
    destruct (Hids id) as [Hin Hsome]; [by left|].
    rewrite run_resubscribe; [|done|done|done|done|intros o; apply Hfit; by left].
    change (set_history _ _) with (replayed g attempt [id] c).
    assert (∀ i, i ∈ ids → heap (replayed g attempt [id] c) !! i = heap c !! i) as Hh.
    { intros i Hi. cbn. rewrite lookup_alter_ne; [done|]. by intros ->. }
    unfold forEach in IH. rewrite IH; [by rewrite replayed_cons|done|done| |done|].
    + intros i Hi. rewrite Hh by done. apply Hids. by right.
    + intros i o Hi. rewrite Hh by done. apply Hfit. by right.
Qed.

(** An acknowledgement in the handshake makes the client ready and replays every live operation:
    over a transport that takes what fits, the new connection gets exactly one [subscribe] for each,
    in the order of the map, an operation that had been subscribed before is told with which attempt,
    and nothing else happens. *)
Theorem acknowledgement_replays g c :
  isCurrent g c = true → state_ c = AwaitingAcknowledgement → connection_ c = Some g → (∀ h, world h = Done) →
  (∀ id, id ∈ operations_ c → is_Some (heap c !! id)) →
  (∀ id o, id ∈ operations_ c → heap c !! id = Some o → op_active o = true → fits (textOf (MSubscribe id (op_request o)))) →
  let ids := order (operations_ c) in
  let c' := (runProg world (handleAcknowledgement config g) c).1 in
  state_ c' = Ready ∧ currentReconnectAttempt_ c' = O ∧ operations_ c' = operations_ c ∧
  history c' = history c ++ omap (replaySend g c) ids ∧
  queue_ c' = queue_ c ++ omap (replayNote (connectingAttempt_ c) c) ids ∧
  (∀ id, heap c' !! id = if bool_decide (id ∈ operations_ c) then resumed <$> heap c !! id else heap c !! id).
Proof.
  intros Hcur Hst Hc Hw Hids Hfit ids. unfold handleAcknowledgement, locked. cbn [thenProg runProg].
  rewrite Hcur, Hst, bool_decide_true by done. cbn [negb]. set (c1 := set_currentReconnectAttempt_ 0 _).
  rewrite run_replay; [|split_and!; [exact Hcur|done|exact Hc]|apply order_NoDup| |done|].
  - cbn. split_and!; try done. intros id. rewrite lookup_alters by apply resumed_twice.
    by rewrite (bool_decide_ext _ _ (elem_of_order _ id)).
  - intros id Hid%elem_of_order. split; [done|]. by apply Hids.
  - intros id o Hid%elem_of_order. by apply Hfit.
Qed.

(** ** Events that come too late *)

(** An event of a connection that was left changes nothing. *)
Lemma stale_event g event c : isCurrent g c = false → runProg world (handleEvent config g event) c = (c, Some tt).
Proof.
  intros Hcur. assert (shutdown_ c || negb (g =? generation_ c) = true) as Hs.
  { unfold isCurrent in Hcur. destruct (shutdown_ c); [done|]. cbn in *. by rewrite Hcur. }
  assert (∀ error, runProg world (handleConnectionFailure config g error) c = (c, Some tt)) as Hf.
  { intros error. unfold handleConnectionFailure. destruct (se_terminal error || _).
    - unfold failAll, locked. cbn [thenProg runProg]. by rewrite Hs.
    - unfold locked. cbn [thenProg runProg]. unfold decideFailure. by rewrite Hs. }
  destruct event; cbn [handleEvent]; [| |by apply Hf..].
  - unfold handleOpen, locked. cbn [thenProg runProg]. by rewrite Hcur.
  - unfold handleFrame, generationIsCurrent, locked. cbn [thenProg runProg]. by rewrite Hcur.
Qed.

(** ** The timer *)

Definition ackTimeout : GraphQLSubscriptionError :=
  connectionError WTimeout Timeout (chars "Timed out waiting for connection_ack").

Definition connectRequest (c : Client) : WebSocketConnectRequest :=
  mkConnectRequest (endpoint_ c) (so_connectTimeoutMs (options config)) (so_maxFrameBytes (options config)).

Lemma run_startConnection attempt c :
  shutdown_ c = false → operations_ c ≠ ∅ → state_ c = Idle ∨ state_ c = Backoff →
  let g := generation_ c + 1 in
  world (HCreate g (connectRequest c)) = Done → world (HStart g) = Done →
  runProg world (startConnection config attempt) c =
    (log (HStart g) (set_connection_ (Some g) (log (HCreate g (connectRequest c))
      (set_connectingAttempt_ attempt (set_generation_ g (set_state_ Connecting c))))), Some tt).
Proof.
  intros Hsh Hne Hst g Hc Hs. unfold startConnection, locked, ask. cbn [thenProg runProg]. unfold isEmpty.
  assert (bool_decide (state_ c = Idle) || bool_decide (state_ c = Backoff) = true) as ->.
  { apply orb_true_iff. rewrite !bool_decide_eq_true. exact Hst. }
  rewrite Hsh, bool_decide_false by done. cbn [orb negb thenProg runProg]. fold g. fold (connectRequest c). rewrite Hc. cbn [thenProg runProg].
  set (c1 := log _ _). assert (negb (isCurrent g c1) || negb (bool_decide (state_ c1 = Connecting)) = false) as ->.
  { assert (isCurrent g c1 = true) as -> by by apply current_spec. by rewrite bool_decide_true. }
  cbn [thenProg runProg]. by rewrite Hs.
Qed.

(** A turn of the timer acts at its deadline and not before: a client that waits to reconnect starts
    the next generation's connection, to the endpoint of that moment and with the same operations; one that
    waits for an acknowledgement closes the connection with 4408 and takes the timeout as a failure
    that may be retried. *)
Theorem timer_moves_on c :
  shutdown_ c = false → operations_ c ≠ ∅ →
  let g := generation_ c in
  let c' := (runProg world (timerTurn config) c).1 in
  match state_ c with
  | Backoff =>
      if now c <? reconnectDeadline_ c then c' = c else
      let request := connectRequest c in
      world (HCreate (g + 1) request) = Done → world (HStart (g + 1)) = Done →
      state_ c' = Connecting ∧ generation_ c' = g + 1 ∧ connection_ c' = Some (g + 1) ∧
      connectingAttempt_ c' = currentReconnectAttempt_ c ∧ operations_ c' = operations_ c ∧ heap c' = heap c ∧
      history c' = history c ++ [HCreate (g + 1) request; HStart (g + 1)]
  | AwaitingAcknowledgement =>
      if now c <? acknowledgementDeadline_ c then c' = c else
      se_terminal ackTimeout = false ∧ se_retryable ackTimeout = true ∧
      c' = (runProg world (handleConnectionFailure config g ackTimeout)
              (set_history (history c ++ closing (connection_ c) 4408 (chars "connection acknowledgement timeout")) c)).1
  | _ => c' = c
  end.
Proof.
  intros Hsh Hne g c'. subst c'. unfold timerTurn, locked. cbn [thenProg runProg]. rewrite Hsh.
  destruct (state_ c) eqn:Hst; try done; cbn [thenProg runProg]; rewrite Hsh, Hst, bool_decide_true by done; cbn [orb negb].
  - destruct (now c <? acknowledgementDeadline_ c); [done|]. split; [done|]. split; [done|].
    rewrite run_then, run_close, log_closing. done.
  - destruct (now c <? reconnectDeadline_ c); [done|]. intros Hc Hs. rewrite bool_decide_false by done.
    rewrite run_startConnection by auto. cbn. by rewrite <- app_assoc.
Qed.

End Runs.
(** ** A run *)

Section Run.
#[local] Existing Instance Demo.env.

Definition well : Happening → Answer := λ _, Done.
Definition ioFailure : GraphQLSubscriptionError := connectionError WIo SocketError (chars "reset").

Lemma failure_policy_witness :
  let c := sy_client (Demo.after 8 Demo.acknowledged) in
  let c' := (runProg well (handleConnectionFailure (Demo.config 8) 1 ioFailure) c).1 in
  isCurrent 1 c = true ∧ retried (Demo.config 8) c c'.
Proof.
  split; [by vm_compute|]. apply (failure_policy (HL := Demo.env_laws) (Demo.config 8) well 1 ioFailure (sy_client (Demo.after 8 Demo.acknowledged))).
  - by vm_compute.
  - apply (bool_decide_eq_false _). by vm_compute.
  - by vm_compute.
  - by vm_compute.
Defined.

(** The same client after a failure, when its delay has passed. *)
Definition retrying : Client :=
  set_now 250 (runProg well (handleConnectionFailure (Demo.config 8) 1 ioFailure) (sy_client (Demo.after 8 Demo.acknowledged))).1.

End Run.
