(* ===== verification/Types.v ===== *)
(** * Replication types

    [include/crowdy/replication/types.hpp]: the data the connection and the session stores
    exchange, and the interface of the connection the stores send through. *)

From S2P Require Import Prelude Bytes Protocol Codec.

Open Scope Z_scope.

Record TokenInfo := mkTokenInfo {
  ti_token : bytes; ti_gameTokenId : Z; ti_expiresAtEpochMs : Z; ti_authorizedOnCurrentServer : bool }.

Record Assignment := mkAssignment { as_ip4 : bytes; as_ip6 : bytes; as_clientPort : Z }.

Inductive ConnState := CIdle | CConnecting | CConnected | CReconnecting | CFailed | CClosed.

#[global] Instance ConnState_eq_dec : EqDecision ConnState.
Proof. solve_decision. Defined.

Definition connStateName (s : ConnState) : string :=
  match s with
  | CIdle => "Idle" | CConnecting => "Connecting" | CConnected => "Connected"
  | CReconnecting => "Reconnecting" | CFailed => "Failed" | CClosed => "Closed"
  end.

(** [SpatialSend]; the defaults are [distance] 8 and no decay. *)
Record SpatialSend := mkSpatialSend {
  ss_chunk : ChunkCoord; ss_uuid : bytes; ss_payload : bytes; ss_distance : Z; ss_decay : Z }.

Record SpatialNotification := mkSpatialNotification {
  sn_type : Z; sn_appId : Z; sn_chunk : ChunkCoord; sn_uuid : bytes; sn_payload : bytes;
  sn_epochMillis : Z; sn_sequence : Z }.

(** [uuidArray] copies the 32 octets [uuid] points to. *)
Definition uuidArray (n : SpatialNotification) : bytes := take kUuidSize (sn_uuid n).

Record ChannelNotification := mkChannelNotification {
  cn_channelId : Z; cn_senderUuid : bytes; cn_payload : bytes; cn_epochMillis : Z; cn_sequence : Z }.

Record GenericError := mkGenericError { gen_sequence : Z; gen_code : Z }.

(** What the session stores use of a connection: each send returns the sequence it used or why
    it did not leave. *)
Class Sender (C : Type) := {
  sendActorUpdate : C → SpatialSend → C * Result Z;
  sendHeartbeat : C → ChunkCoord → bytes → C * Result Z;
  sendVoxelUpdate : C → ChunkCoord → bytes → VoxelPayloadView → Z → C * Result Z;
}.

(** The promise the stores rely on: a failure is an error code. *)
Class SenderLaws (C : Type) `{Sender C} : Prop :=
  actorUpdate_error c p c' e : sendActorUpdate c p = (c', Err e) → e ≠ Ok.

(** A connection for concrete runs: it keeps the updates that left, numbers them, and refuses
    with [WouldBlock] while [tc_busy] is positive. *)
Record TestConnection := mkTestConnection {
  tc_sequence : Z; tc_busy : nat; tc_sent : list SpatialSend; tc_beats : nat; tc_voxels : list VoxelPayloadView }.

Definition tcNext (c : TestConnection) (sent : list SpatialSend) (beats : nat) (voxels : list VoxelPayloadView)
    : TestConnection * Result Z :=
  match tc_busy c with
  | S n => (mkTestConnection (tc_sequence c) n (tc_sent c) (tc_beats c) (tc_voxels c), Err WouldBlock)
  | O => (mkTestConnection (u8 (tc_sequence c + 1)) 0 sent beats voxels, Val (u8 (tc_sequence c)))
  end.

#[export] Instance TestConnection_sender : Sender TestConnection := {
  sendActorUpdate c p := tcNext c (tc_sent c ++ [p]) (tc_beats c) (tc_voxels c);
  sendHeartbeat c _ _ := tcNext c (tc_sent c) (S (tc_beats c)) (tc_voxels c);
  sendVoxelUpdate c _ _ v _ := tcNext c (tc_sent c) (tc_beats c) (tc_voxels c ++ [v]);
}.

Lemma tcNext_cases c a b v c' r :
  tcNext c a b v = (c', r) → (∃ s, r = Val s ∧ is_byte s) ∨ r = Err WouldBlock.
Proof.
  unfold tcNext. case_match; intros [= <- <-]; [left|by right].
  eexists. split; [done|]. apply wrapU_range. lia.
Qed.

#[export] Instance TestConnection_laws : SenderLaws TestConnection.
Proof. intros c p c' e E. apply tcNext_cases in E as [(? & ? & ?)|?]; congruence. Qed.
