(* ===== verification/Stores.v ===== *)
(** * Session stores

    [include/crowdy/session/stores.hpp]: the local actor's send loop, the remote-actor lanes,
    the error log, the inboxes and the event router. The stores are single-threaded by design;
    the mutex of [LocalActorStore] only makes its snapshot reads atomic and is not modelled. A
    registered callback is modelled by the events it receives, in order. The send side is the
    [Sender] interface. *)

From S2P Require Import Prelude Bytes Protocol Codec Types.

Open Scope Z_scope.

Definition kMaxStateBytes : nat := 256.

(** ** StateBlob *)

Record StateBlob := mkStateBlob { sb_data : bytes; sb_len : nat }.

Definition emptyBlob : StateBlob := mkStateBlob (replicate kMaxStateBytes 0) 0.

Definition blobBytes (s : StateBlob) : bytes := take (sb_len s) (sb_data s).

(** [memcpy] of at most [kMaxStateBytes] octets over the front of [data]. *)
Definition blobAssign (s : StateBlob) (b : bytes) : StateBlob :=
  let len := if decide (kMaxStateBytes < length b)%nat then kMaxStateBytes else length b in
  mkStateBlob (take len b ++ drop len (sb_data s)) len.

Definition blobEquals (s : StateBlob) (b : bytes) : bool :=
  bool_decide (length b = sb_len s) && ((sb_len s =? 0)%nat || bool_decide (take (sb_len s) (sb_data s) = take (sb_len s) b)).

(** ** LocalActorStore *)

Inductive LocalActorSendReason := RJoin | RMove | RInterval | RKeyframe | RManual | RRefresh.
Inductive LocalActorStatus := LIdle | LPending | LAcked | LError.

Record SentActorUpdate := mkSentActorUpdate {
  su_state : StateBlob; su_chunk : ChunkCoord; su_sequence : option Z; su_sentAtMs : Z;
  su_reason : LocalActorSendReason }.

Record LocalActorSendError := mkLocalActorSendError {
  le_status : Status; le_serverCode : option Z; le_sequence : option Z; le_receivedAtMs : Z }.

Record Ack := mkAck {
  ack_sequence : Z; ack_serverEpochMs : Z; ack_receivedAtMs : Z; ack_state : StateBlob }.

Record LocalOptions := mkLocalOptions {
  lo_sendHz : Z; lo_keyframeIntervalMs : Z; lo_heartbeatIntervalMs : Z; lo_distance : Z; lo_decay : Z }.

Record LocalActorStore := mkLocalActorStore {
  la_uuid : bytes; la_options : LocalOptions; la_chunk : ChunkCoord; la_state : StateBlob;
  la_joined : bool; la_dirty : bool; la_resendDue : bool;
  la_lastSendMs : Z; la_lastFullSendMs : Z; la_lastHeartbeatMs : Z;
  la_lastSequence : option Z; la_lastAck : option Ack; la_lastSent : option SentActorUpdate;
  la_lastError : option LocalActorSendError; la_inFlight : gset Z }.

Definition makeLocalActorStore (uuid : bytes) (options : LocalOptions) : LocalActorStore :=
  mkLocalActorStore uuid options (mkChunk 0 0 0) emptyBlob false false false 0 0 0 None None None None ∅.

(** The writes under the mutex. *)
Definition withPose (s : LocalActorStore) (chunk : ChunkCoord) (state : StateBlob) (joined dirty : bool)
    : LocalActorStore :=
  mkLocalActorStore (la_uuid s) (la_options s) chunk state joined dirty (la_resendDue s)
    (la_lastSendMs s) (la_lastFullSendMs s) (la_lastHeartbeatMs s) (la_lastSequence s) (la_lastAck s)
    (la_lastSent s) (la_lastError s) (la_inFlight s).

Section LocalActor.
Context {C : Type} `{Sender C}.

Definition sendNow (s : LocalActorStore) (conn : C) (nowMs : Z) (reason : LocalActorSendReason)
    : LocalActorStore * C * Status :=
  let p := mkSpatialSend (la_chunk s) (la_uuid s) (blobBytes (la_state s))
    (lo_distance (la_options s)) (lo_decay (la_options s)) in
  let '(conn, seq) := sendActorUpdate conn p in
  let sent q := Some (mkSentActorUpdate (la_state s) (la_chunk s) q nowMs reason) in
  match seq with
  | Val q =>
      (mkLocalActorStore (la_uuid s) (la_options s) (la_chunk s) (la_state s) (la_joined s)
         false false nowMs nowMs (la_lastHeartbeatMs s) (Some q) (la_lastAck s) (sent (Some q))
         (la_lastError s) ({[q]} ∪ la_inFlight s), conn, Ok)
  | Err e =>
      let error := if bool_decide (e = WouldBlock) then la_lastError s
        else Some (mkLocalActorSendError e None None nowMs) in
      (mkLocalActorStore (la_uuid s) (la_options s) (la_chunk s) (la_state s) (la_joined s)
         (la_dirty s) true (la_lastSendMs s) (la_lastFullSendMs s) (la_lastHeartbeatMs s)
         (la_lastSequence s) (la_lastAck s) (sent None) error (la_inFlight s), conn, e)
  end.

Definition join (s : LocalActorStore) (conn : C) (chunk : ChunkCoord) (initialState : bytes)
    : LocalActorStore * C * Status :=
  sendNow (withPose s chunk (blobAssign (la_state s) initialState) true true) conn 0 RJoin.

Definition setChunk (s : LocalActorStore) (chunk : ChunkCoord) : LocalActorStore :=
  if bool_decide (chunk = la_chunk s) then s else withPose s chunk (la_state s) (la_joined s) true.

Definition moveTo (s : LocalActorStore) (conn : C) (chunk : ChunkCoord) : LocalActorStore * C * Status :=
  let s := setChunk s chunk in sendNow s conn (la_lastSendMs s) RMove.

Definition refresh (s : LocalActorStore) (conn : C) : LocalActorStore * C * Status :=
  sendNow s conn (la_lastSendMs s) RRefresh.

Definition setState (s : LocalActorStore) (state : bytes) : LocalActorStore :=
  if blobEquals (la_state s) state then s
  else withPose s (la_chunk s) (blobAssign (la_state s) state) (la_joined s) true.

Definition status (s : LocalActorStore) : LocalActorStatus :=
  match la_lastSent s with
  | None => LIdle
  | Some sent =>
      match la_lastError s with
      | Some e => if su_sentAtMs sent <=? le_receivedAtMs e then LError else
          match la_lastAck s with
          | Some a => if su_sentAtMs sent <=? ack_receivedAtMs a then LAcked else LPending
          | None => LPending
          end
      | None =>
          match la_lastAck s with
          | Some a => if su_sentAtMs sent <=? ack_receivedAtMs a then LAcked else LPending
          | None => LPending
          end
      end
  end.

Definition recordAck (s : LocalActorStore) (sequence serverEpochMs : Z) (state : bytes) (receivedAtMs : Z)
    : LocalActorStore :=
  mkLocalActorStore (la_uuid s) (la_options s) (la_chunk s) (la_state s) (la_joined s) (la_dirty s)
    (la_resendDue s) (la_lastSendMs s) (la_lastFullSendMs s) (la_lastHeartbeatMs s) (la_lastSequence s)
    (Some (mkAck sequence serverEpochMs receivedAtMs (blobAssign emptyBlob state)))
    (la_lastSent s) (la_lastError s) (la_inFlight s ∖ {[sequence]}).

Definition recordError (s : LocalActorStore) (error : GenericError) (receivedAtMs : Z) : LocalActorStore :=
  if decide (gen_sequence error ∉ la_inFlight s) then s else
  mkLocalActorStore (la_uuid s) (la_options s) (la_chunk s) (la_state s) (la_joined s) (la_dirty s)
    (la_resendDue s) (la_lastSendMs s) (la_lastFullSendMs s) (la_lastHeartbeatMs s) (la_lastSequence s)
    (la_lastAck s) (la_lastSent s)
    (Some (mkLocalActorSendError Rejected (Some (gen_code error)) (Some (gen_sequence error)) receivedAtMs))
    (la_inFlight s ∖ {[gen_sequence error]}).

(** [1000 / (sendHz > 0 ? sendHz : 5)]. *)
Definition sendInterval (s : LocalActorStore) : Z :=
  Z.quot 1000 (if 0 <? lo_sendHz (la_options s) then lo_sendHz (la_options s) else 5).

Definition localTick (s : LocalActorStore) (conn : C) (nowMs : Z) : LocalActorStore * C :=
  if negb (la_joined s) then (s, conn) else
  if nowMs - la_lastSendMs s <? sendInterval s then (s, conn) else
  let keyframeDue := lo_keyframeIntervalMs (la_options s) <=? nowMs - la_lastFullSendMs s in
  if la_dirty s || la_resendDue s || keyframeDue then
    let '(s, conn, _) := sendNow s conn nowMs (if la_dirty s || la_resendDue s then RInterval else RKeyframe) in
    (s, conn)
  else if (0 <? lo_heartbeatIntervalMs (la_options s)) &&
          (lo_heartbeatIntervalMs (la_options s) <=? nowMs - la_lastHeartbeatMs s) then
    let '(conn, r) := sendHeartbeat conn (la_chunk s) (la_uuid s) in
    if Result_ok r then
      (mkLocalActorStore (la_uuid s) (la_options s) (la_chunk s) (la_state s) (la_joined s) (la_dirty s)
         (la_resendDue s) nowMs (la_lastFullSendMs s) nowMs (la_lastSequence s) (la_lastAck s)
         (la_lastSent s) (la_lastError s) (la_inFlight s), conn)
    else (s, conn)
  else (s, conn).

End LocalActor.

(** ** RemoteActorLane *)

Record ActorSample := mkActorSample {
  as_state : StateBlob; as_serverEpochMs : Z; as_receivedAtMs : Z }.

Record RemoteActor := mkRemoteActor {
  ra_uuid : bytes; ra_chunk : ChunkCoord; ra_lastSeenMs : Z; ra_lastServerEpochMs : Z;
  ra_samples : list ActorSample }.

Definition actorState (a : RemoteActor) : bytes :=
  match ra_samples a with [] => [] | s :: _ => blobBytes (as_state s) end.

Record LaneOptions := mkLaneOptions {
  ln_filter : option (SpatialNotification → bool); ln_staleAfterMs : Z; ln_historySize : Z }.

(** What a registered callback receives. *)
Inductive LaneEvent := OnJoin (a : RemoteActor) | OnLeave (a : RemoteActor) | OnUpdate (a : RemoteActor).

(** The three booleans tell which callbacks are registered. *)
Record RemoteActorLane := mkRemoteActorLane {
  ln_options : LaneOptions; ln_actors : gmap bytes RemoteActor;
  ln_onJoin : bool; ln_onLeave : bool; ln_onUpdate : bool; ln_revision : Z }.

Definition makeLane (o : LaneOptions) : RemoteActorLane := mkRemoteActorLane o ∅ false false false 0.

Definition withActors (l : RemoteActorLane) (m : gmap bytes RemoteActor) (changes : nat) : RemoteActorLane :=
  mkRemoteActorLane (ln_options l) m (ln_onJoin l) (ln_onLeave l) (ln_onUpdate l)
    (u64 (ln_revision l + Z.of_nat changes)).

Definition onlyIf {A} (b : bool) (x : A) : list A := if b then [x] else [].

(** [samples.insert(begin)], then cut to [static_cast<size_t>(historySize)]. *)
Definition addSample (history : Z) (samples : list ActorSample) (s : ActorSample) : list ActorSample :=
  if u64 history <? Z.of_nat (length (s :: samples)) then take (Z.to_nat (u64 history)) (s :: samples)
  else s :: samples.

Definition laneApply (l : RemoteActorLane) (n : SpatialNotification) (nowMs : Z)
    : RemoteActorLane * list LaneEvent * bool :=
  if match ln_filter (ln_options l) with Some f => negb (f n) | None => false end then (l, [], false) else
  let uuid := uuidArray n in
  let old := ln_actors l !! uuid in
  let samples := match old with Some a => ra_samples a | None => [] end in
  let sample := mkActorSample (blobAssign emptyBlob (sn_payload n)) (sn_epochMillis n) nowMs in
  let actor := mkRemoteActor uuid (sn_chunk n) nowMs (sn_epochMillis n)
    (addSample (ln_historySize (ln_options l)) samples sample) in
  (withActors l (<[uuid := actor]> (ln_actors l)) 1,
   onlyIf (bool_decide (old = None) && ln_onJoin l) (OnJoin actor) ++ onlyIf (ln_onUpdate l) (OnUpdate actor),
   true).

Definition laneRemove (l : RemoteActorLane) (uuid : bytes) : RemoteActorLane * list LaneEvent * bool :=
  match ln_actors l !! uuid with
  | None => (l, [], false)
  | Some a => (withActors l (delete uuid (ln_actors l)) 1, onlyIf (ln_onLeave l) (OnLeave a), true)
  end.

Definition staleActors (l : RemoteActorLane) (nowMs : Z) : gmap bytes RemoteActor :=
  filter (λ kv, ln_staleAfterMs (ln_options l) < nowMs - ra_lastSeenMs kv.2) (ln_actors l).

(** One [OnLeave] per reaped actor, in the map's iteration order (unspecified). *)
Definition laneReap (l : RemoteActorLane) (nowMs : Z) : RemoteActorLane * list LaneEvent :=
  let gone := staleActors l nowMs in
  (withActors l (ln_actors l ∖ gone) (size gone),
   if ln_onLeave l then (λ kv, OnLeave kv.2) <$> map_to_list gone else []).

Definition laneClear (l : RemoteActorLane) : RemoteActorLane := withActors l ∅ (size (ln_actors l)).

(** ** RemoteActorStore *)

Record RemoteActorStore := mkRemoteActorStore {
  rs_selfUuid : bytes; rs_staleAfterMs : Z; rs_historySize : Z;
  rs_defaultLane : RemoteActorLane; rs_lanes : gmap string RemoteActorLane }.

Definition makeRemoteActorStore (self : bytes) (staleAfterMs historySize : Z) : RemoteActorStore :=
  mkRemoteActorStore self staleAfterMs historySize (makeLane (mkLaneOptions None staleAfterMs historySize)) ∅.

Definition withLanes (s : RemoteActorStore) (d : RemoteActorLane) (m : gmap string RemoteActorLane)
    : RemoteActorStore :=
  mkRemoteActorStore (rs_selfUuid s) (rs_staleAfterMs s) (rs_historySize s) d m.

Definition storeLane (s : RemoteActorStore) (name : string) (options : LaneOptions) : RemoteActorStore :=
  match rs_lanes s !! name with
  | Some _ => s
  | None =>
      let stale := if ln_staleAfterMs options =? 12000 then rs_staleAfterMs s else ln_staleAfterMs options in
      let history := if ln_historySize options =? 2 then rs_historySize s else ln_historySize options in
      withLanes s (rs_defaultLane s)
        (<[name := makeLane (mkLaneOptions (ln_filter options) stale history)]> (rs_lanes s))
  end.

Definition storeIngest (s : RemoteActorStore) (n : SpatialNotification) (nowMs : Z) : RemoteActorStore :=
  if decide (uuidArray n = rs_selfUuid s) then s else
  withLanes s (laneApply (rs_defaultLane s) n nowMs).1.1 ((λ l, (laneApply l n nowMs).1.1) <$> rs_lanes s).

Definition storeRemove (s : RemoteActorStore) (uuid : bytes) : RemoteActorStore * bool :=
  let any := (laneRemove (rs_defaultLane s) uuid).2 ||
    bool_decide (map_Exists (λ _ l, (laneRemove l uuid).2 = true) (rs_lanes s)) in
  (withLanes s (laneRemove (rs_defaultLane s) uuid).1.1 ((λ l, (laneRemove l uuid).1.1) <$> rs_lanes s), any).

Definition storeReap (s : RemoteActorStore) (nowMs : Z) : RemoteActorStore :=
  withLanes s (laneReap (rs_defaultLane s) nowMs).1 ((λ l, (laneReap l nowMs).1) <$> rs_lanes s).

Definition storeClear (s : RemoteActorStore) : RemoteActorStore :=
  withLanes s (laneClear (rs_defaultLane s)) (laneClear <$> rs_lanes s).

Definition storeRevision (s : RemoteActorStore) : Z :=
  map_fold (λ _ l v, u64 (v + ln_revision l)) (ln_revision (rs_defaultLane s)) (rs_lanes s).

(** ** ErrorStore *)

Inductive SendKind :=
| KUnknown | KActorUpdate | KVoxelUpdate | KAudio | KText | KClientEvent | KGenericSpatial
| KSingleActor | KChannel | KHeartbeat.

#[global] Instance SendKind_eq_dec : EqDecision SendKind.
Proof. solve_decision. Defined.

Record AttributedError := mkAttributedError {
  ae_code : Z; ae_sequence : Z; ae_kind : SendKind; ae_actorUuid : option bytes; ae_atMs : Z }.

Definition kMaxErrors : nat := 64.

Record ErrorStore := mkErrorStore {
  es_sent : gmap Z (SendKind * option bytes); es_recent : list AttributedError; es_total : Z }.

Definition recordSend (s : ErrorStore) (sequence : Z) (kind : SendKind) (actor : option bytes) : ErrorStore :=
  mkErrorStore (<[sequence := (kind, actor)]> (es_sent s)) (es_recent s) (es_total s).

Definition errorIngest (s : ErrorStore) (e : GenericError) (nowMs : Z) : ErrorStore :=
  let err := match es_sent s !! gen_sequence e with
    | Some (kind, actor) => mkAttributedError (gen_code e) (gen_sequence e) kind actor nowMs
    | None => mkAttributedError (gen_code e) (gen_sequence e) KUnknown None nowMs
    end in
  let recent := err :: es_recent s in
  let recent := if decide (kMaxErrors < length recent)%nat then take (length recent - 1) recent else recent in
  mkErrorStore (es_sent s) recent (u64 (es_total s + 1)).

Definition recentErrors (s : ErrorStore) (limit : nat) : list AttributedError :=
  take (Nat.min limit (length (es_recent s))) (es_recent s).
Definition lastError (s : ErrorStore) : option AttributedError := head (es_recent s).
Definition lastErrorForKind (s : ErrorStore) (kind : SendKind) : option AttributedError :=
  find (λ e, bool_decide (ae_kind e = kind)) (es_recent s).
Definition lastErrorForActor (s : ErrorStore) (uuid : bytes) : option AttributedError :=
  find (λ e, bool_decide (ae_actorUuid e = Some uuid)) (es_recent s).
Definition clearErrors (s : ErrorStore) : ErrorStore := mkErrorStore (es_sent s) [] (es_total s).

(** ** Inbox *)

Record InboxMessage := mkInboxMessage {
  im_channelId : Z; im_senderUuid : bytes; im_payload : bytes; im_serverEpochMs : Z; im_receivedAtMs : Z }.

Record Inbox := mkInbox { ib_max : nat; ib_messages : list InboxMessage; ib_channels : gset Z }.

Definition makeInbox (max : nat) : Inbox := mkInbox max [] ∅.

(** [messages_.back()] of an empty deque is undefined. The message is what [onMessage] gets. *)
Definition inboxPush (b : Inbox) (m : InboxMessage) : option (Inbox * InboxMessage) :=
  let messages := ib_messages b ++ [m] in
  let messages := if decide (ib_max b < length messages)%nat then drop 1 messages else messages in
  back ← list.last messages;
  Some (mkInbox (ib_max b) messages ({[im_channelId back]} ∪ ib_channels b), back).

Definition inboxDrain (b : Inbox) (max : nat) : Inbox * list InboxMessage :=
  (mkInbox (ib_max b) (drop max (ib_messages b)) (ib_channels b), take max (ib_messages b)).

Definition inboxMessages (b : Inbox) (channelId : option Z) : list InboxMessage :=
  match channelId with
  | None => ib_messages b
  | Some c => filter (λ m, im_channelId m = c) (ib_messages b)
  end.

Definition inboxClear (b : Inbox) : Inbox := mkInbox (ib_max b) [] (ib_channels b).

(** ** EventRouter *)

Record RouterEvent := mkRouterEvent {
  ev_eventType : Z; ev_fromServer : bool; ev_senderUuid : bytes; ev_chunk : ChunkCoord;
  ev_state : bytes; ev_serverEpochMs : Z; ev_receivedAtMs : Z }.

(** A handler is known by a name [H]. *)
Record EventRouter (H : Type) := mkEventRouter { er_handlers : gmap Z H; er_last : gmap Z RouterEvent }.
Arguments mkEventRouter {H} _ _.
Arguments er_handlers {H} _.
Arguments er_last {H} _.

Definition routerOn {H} (r : EventRouter H) (eventType : Z) (h : H) : EventRouter H :=
  mkEventRouter (<[eventType := h]> (er_handlers r)) (er_last r).

Definition lastEvent {H} (r : EventRouter H) (eventType : Z) : option RouterEvent := er_last r !! eventType.

(** The router, and the handler called with the event. *)
Definition routerIngest {H} (r : EventRouter H) (n : SpatialNotification) (payload : EventPayloadView)
    (fromServer : bool) (nowMs : Z) : EventRouter H * option (H * RouterEvent) :=
  let e := mkRouterEvent (e_eventType payload) fromServer (uuidArray n) (sn_chunk n) (e_state payload)
    (sn_epochMillis n) nowMs in
  (mkEventRouter (er_handlers r) (<[ev_eventType e := e]> (er_last r)),
   h ← er_handlers r !! ev_eventType e; Some (h, e)).

(** ** StateBlob *)

Definition blob_ok (s : StateBlob) : Prop := length (sb_data s) = kMaxStateBytes ∧ (sb_len s ≤ kMaxStateBytes)%nat.

Lemma emptyBlob_ok : blob_ok emptyBlob.
Proof. split; [apply length_replicate|cbn; lia]. Qed.

Lemma blobAssign_ok s b : blob_ok s → blob_ok (blobAssign s b).
Proof.
  intros [Hl Hn]. unfold blobAssign, blob_ok, kMaxStateBytes in *. cbn.
  rewrite length_app, length_take, length_drop, Hl. case_decide; lia.
Qed.

Lemma blobBytes_assign s b : blobBytes (blobAssign s b) = take kMaxStateBytes b.
Proof.
  unfold blobBytes, blobAssign. cbn [sb_len sb_data]. case_decide.
  - by rewrite take_app_le, take_take, Nat.min_id by (rewrite length_take; lia).
  - rewrite (take_ge b (length b)), (take_ge b kMaxStateBytes) by lia. by rewrite take_app_length.
Qed.

Lemma blobEquals_true s b : blob_ok s → blobEquals s b = true ↔ blobBytes s = b.
Proof.
  intros [Hl Hn]. unfold blobEquals, blobBytes. rewrite andb_true_iff, bool_decide_eq_true, orb_true_iff,
    bool_decide_eq_true, Nat.eqb_eq.
  split.
  - intros [E [H0|H]].
    + rewrite H0 in *. by destruct b.
    + rewrite H. by rewrite take_ge by lia.
  - intros <-. rewrite length_take, Hl. split; [lia|right]. rewrite take_take. f_equal. lia.
Qed.

(** ** Runs of the local actor *)

Inductive LocalOp :=
| LJoin (chunk : ChunkCoord) (state : bytes)
| LMove (chunk : ChunkCoord)
| LRefresh
| LSetChunk (chunk : ChunkCoord)
| LSetState (state : bytes)
| LTick (now : Z)
| LAckOp (sequence serverEpochMs : Z) (state : bytes) (receivedAt : Z)
| LErrorOp (e : GenericError) (receivedAt : Z).

(** A connection that keeps, beside what it does, every actor update it is handed and its answer. *)
Definition Handed : Type := list (SpatialSend * Result Z).
Record Logged (C : Type) := mkLogged { lg_conn : C; lg_log : Handed }.
Arguments mkLogged {_} _ _.
Arguments lg_conn {_} _.
Arguments lg_log {_} _.

#[export] Instance Logged_sender {C} `{Sender C} : Sender (Logged C) := {
  sendActorUpdate c p := let '(c', r) := sendActorUpdate (lg_conn c) p in (mkLogged c' (lg_log c ++ [(p, r)]), r);
  sendHeartbeat c k u := let '(c', r) := sendHeartbeat (lg_conn c) k u in (mkLogged c' (lg_log c), r);
  sendVoxelUpdate c k u v d := let '(c', r) := sendVoxelUpdate (lg_conn c) k u v d in (mkLogged c' (lg_log c), r);
}.

#[export] Instance Logged_laws {C} `{SenderLaws C} : SenderLaws (Logged C).
Proof.
  intros c p c' e. cbn. destruct (sendActorUpdate (lg_conn c) p) as [c1 r] eqn:E. intros [= _ ->].
  by eapply actorUpdate_error.
Qed.

(** The last update that left, and whether the last attempt failed. *)
Definition lastLeft (g : Handed) : option SpatialSend :=
  list.last (omap (λ pr, if Result_ok pr.2 then Some pr.1 else None) g).
Definition lastFailed (g : Handed) : bool :=
  match list.last g with Some (_, Err _) => true | _ => false end.

Lemma lastLeft_snoc g p r : lastLeft (g ++ [(p, r)]) = if Result_ok r then Some p else lastLeft g.
Proof.
  unfold lastLeft. rewrite omap_app. cbn. destruct (Result_ok r); [by rewrite list.last_snoc|by rewrite app_nil_r].
Qed.

Lemma lastFailed_snoc g p r : lastFailed (g ++ [(p, r)]) = negb (Result_ok r).
Proof. unfold lastFailed. rewrite list.last_snoc. by destruct r. Qed.

(** The chunk and the state the game wants shown, after a call. *)
Definition wantedStep (w : ChunkCoord * bytes) (op : LocalOp) : ChunkCoord * bytes :=
  match op with
  | LJoin chunk state => (chunk, take kMaxStateBytes state)
  | LMove chunk | LSetChunk chunk => (chunk, w.2)
  | LSetState state => (w.1, take kMaxStateBytes state)
  | LRefresh | LTick _ | LAckOp _ _ _ _ | LErrorOp _ _ => w
  end.
Definition wanted (ops : list LocalOp) : ChunkCoord * bytes := foldl wantedStep (mkChunk 0 0 0, []) ops.

(** The update of the pose a store holds. *)
Definition poseOf (s : LocalActorStore) : SpatialSend :=
  mkSpatialSend (la_chunk s) (la_uuid s) (blobBytes (la_state s)) (lo_distance (la_options s)) (lo_decay (la_options s)).

Section LocalRuns.
Context {C : Type} `{SenderLaws C}.

(** Whether a tick sends an actor update: a function of the state before it. *)
Definition tickSends (s : LocalActorStore) (now : Z) : bool :=
  la_joined s && negb (now - la_lastSendMs s <? sendInterval s) &&
  (la_dirty s || la_resendDue s || (lo_keyframeIntervalMs (la_options s) <=? now - la_lastFullSendMs s)).

Definition localStep (s : LocalActorStore) (c : C) (op : LocalOp) : LocalActorStore * C :=
  match op with
  | LJoin chunk state => (join s c chunk state).1
  | LMove chunk => (moveTo s c chunk).1
  | LRefresh => (refresh s c).1
  | LSetChunk chunk => (setChunk s chunk, c)
  | LSetState state => (setState s state, c)
  | LTick now => localTick s c now
  | LAckOp q e st t => (recordAck s q e st t, c)
  | LErrorOp e t => (recordError s e t, c)
  end.

Fixpoint localRun (s : LocalActorStore) (c : C) (ops : list LocalOp) : LocalActorStore * C :=
  match ops with
  | [] => (s, c)
  | op :: ops => let '(s, c) := localStep s c op in localRun s c ops
  end.

(** Nothing unsent is forgotten: [g] is what the connection was handed. *)
Definition local_inv (s : LocalActorStore) (g : Handed) : Prop :=
  blob_ok (la_state s) ∧
  (la_dirty s = false → lastLeft g = Some (poseOf s) ∨ (lastLeft g = None ∧ la_joined s = false)) ∧
  la_resendDue s = lastFailed g ∧
  (la_resendDue s = true ↔ ∃ u, la_lastSent s = Some u ∧ su_sequence u = None).

(** What a call hands to the connection: one actor update, or none and perhaps a heartbeat. *)
Definition handed (c : C) (new : Handed) (c' : C) : Prop :=
  match new with
  | [] => c' = c ∨ ∃ k u r, sendHeartbeat c k u = (c', r)
  | [(p, r)] => sendActorUpdate c p = (c', r)
  | _ => False
  end.

Lemma sendNow_spec s (c : C) now reason s' c' st :
  sendNow s c now reason = (s', c', st) →
  la_state s' = la_state s ∧ la_chunk s' = la_chunk s ∧ la_joined s' = la_joined s ∧
  la_options s' = la_options s ∧
  (∃ u, la_lastSent s' = Some u ∧ su_state u = la_state s ∧ su_chunk u = la_chunk s ∧ su_sentAtMs u = now ∧
     (su_sequence u = None ↔ ok st = false)) ∧
  la_resendDue s' = negb (ok st) ∧
  (if ok st then la_dirty s' = false ∧ la_lastSendMs s' = now ∧ la_lastFullSendMs s' = now
   else la_dirty s' = la_dirty s ∧ la_lastSendMs s' = la_lastSendMs s ∧ la_lastFullSendMs s' = la_lastFullSendMs s).
Proof.
  unfold sendNow. destruct (sendActorUpdate c _) as [c1 r] eqn:E. destruct r as [q|e]; intros [= <- <- <-]; cbn.
  - split_and!; try done. eexists. split_and!; done.
  - assert (ok e = false) as He.
    { destruct (ok e) eqn:Ho; [|done]. apply ok_true in Ho. subst. by apply actorUpdate_error in E. }
    rewrite He. cbn. split_and!; try done. eexists. split_and!; done.
Qed.

(** What it hands to the connection, and how its answer is kept. *)
Lemma sendNow_handed s (c : C) now reason s' c' st :
  sendNow s c now reason = (s', c', st) →
  poseOf s' = poseOf s ∧ ∃ r, handed c [(poseOf s, r)] c' ∧ Result_ok r = ok st ∧
    ∀ q, r = Val q → la_lastSequence s' = Some q.
Proof.
  unfold sendNow. destruct (sendActorUpdate c _) as [c1 r] eqn:E. destruct r as [q|e]; intros [= <- <- <-].
  - split; [done|]. exists (Val q). split; [done|]. split; [done|]. by intros ? [= ->].
  - split; [done|]. exists (Err e). split; [done|]. split; [|done]. cbn.
    destruct (ok e) eqn:Ho; [|done]. apply ok_true in Ho. subst. by apply actorUpdate_error in E.
Qed.

Lemma sendNow_inv s (c : C) now reason s' c' st g :
  blob_ok (la_state s) → sendNow s c now reason = (s', c', st) →
  (la_dirty s = false → lastLeft g = Some (poseOf s) ∨ (lastLeft g = None ∧ la_joined s = false)) →
  ∃ r, handed c [(poseOf s, r)] c' ∧ local_inv s' (g ++ [(poseOf s, r)]).
Proof.
  intros Hb E Hd. pose proof (sendNow_handed _ _ _ _ _ _ _ E) as (Ep & r & Hh & Hr & _). exists r. split; [done|].
  apply sendNow_spec in E as (E1 & E2 & E3 & _ & (u & Hu & _ & _ & _ & Hq) & E5 & E6).
  unfold local_inv. rewrite lastLeft_snoc, lastFailed_snoc, Hr, E1, E3, Ep. split_and!.
  - done.
  - destruct (ok st); [by left|]. destruct E6 as (-> & _). done.
  - done.
  - rewrite E5. split; [intros Hn; exists u; split; [done|apply Hq; by apply negb_true_iff]|].
    intros (v & Hv & Hs). rewrite Hu in Hv. injection Hv as <-. apply negb_true_iff, Hq, Hs.
Qed.

Lemma localTick_sends s (c : C) now :
  localTick s c now =
    if tickSends s now then
      let '(s', c', _) := sendNow s c now (if la_dirty s || la_resendDue s then RInterval else RKeyframe) in (s', c')
    else localTick s c now.
Proof.
  unfold tickSends. destruct (la_joined s) eqn:Ej; cbn [andb]; [|done].
  destruct (now - la_lastSendMs s <? sendInterval s) eqn:Ei; cbn [negb andb]; [done|].
  destruct (la_dirty s || la_resendDue s || _) eqn:Ed; [|done].
  unfold localTick. by rewrite Ej, Ei, Ed.
Qed.

(** A tick that sends nothing new at most beats the heart. *)
Lemma localTick_idle s (c : C) now s' c' :
  tickSends s now = false → localTick s c now = (s', c') →
  s' = s ∨ (la_joined s = true ∧ sendInterval s ≤ now - la_lastSendMs s ∧
    now - la_lastFullSendMs s < lo_keyframeIntervalMs (la_options s) ∧
    s' = mkLocalActorStore (la_uuid s) (la_options s) (la_chunk s) (la_state s) (la_joined s) (la_dirty s)
         (la_resendDue s) now (la_lastFullSendMs s) now (la_lastSequence s) (la_lastAck s)
         (la_lastSent s) (la_lastError s) (la_inFlight s)).
Proof.
  unfold tickSends, localTick. destruct (la_joined s) eqn:Ej; cbn [negb andb]; [|intros _ [= <- _]; by left].
  destruct (Z.ltb_spec (now - la_lastSendMs s) (sendInterval s)); cbn [negb andb]; [intros _ [= <- _]; by left|].
  destruct (la_dirty s || la_resendDue s); cbn [orb]; [done|].
  destruct (Z.leb_spec (lo_keyframeIntervalMs (la_options s)) (now - la_lastFullSendMs s)); [done|]. intros _.
  case_match; [|intros [= <- _]; by left].
  destruct (sendHeartbeat c (la_chunk s) (la_uuid s)) as [c1 r]. case_match; intros [= <- _]; [|by left].
  right. done.
Qed.

Lemma localTick_quiet s (c : C) now s' c' :
  tickSends s now = false → localTick s c now = (s', c') → handed c [] c'.
Proof.
  unfold tickSends, localTick, handed. destruct (la_joined s) eqn:Ej; cbn [negb andb]; [|intros _ [= _ <-]; by left].
  destruct (Z.ltb_spec (now - la_lastSendMs s) (sendInterval s)); cbn [negb andb]; [intros _ [= _ <-]; by left|].
  destruct (la_dirty s || la_resendDue s); cbn [orb]; [done|].
  destruct (Z.leb_spec (lo_keyframeIntervalMs (la_options s)) (now - la_lastFullSendMs s)); [done|]. intros _.
  case_match; [|intros [= _ <-]; by left].
  destruct (sendHeartbeat c (la_chunk s) (la_uuid s)) as [c1 r] eqn:E. case_match; intros [= _ <-]; right; eauto.
Qed.

Lemma setChunk_inv s chunk g : local_inv s g → local_inv (setChunk s chunk) g.
Proof. intros (Hb & Hd & Hf & Hr). unfold setChunk. case_bool_decide; done. Qed.

Lemma setState_inv s state g : local_inv s g → local_inv (setState s state) g.
Proof.
  intros (Hb & Hd & Hf & Hr). unfold setState. destruct (blobEquals (la_state s) state); [done|].
  split_and!; try done. by apply blobAssign_ok.
Qed.

Lemma recordError_inv s e t g : local_inv s g → local_inv (recordError s e t) g.
Proof. intros (Hb & Hd & Hf & Hr). unfold recordError. by case_decide. Qed.

Lemma localStep_inv s (c : C) g op s' c' :
  local_inv s g → localStep s c op = (s', c') → ∃ new, handed c new c' ∧ local_inv s' (g ++ new).
Proof.
  intros Hi E. pose proof Hi as (Hb & Hd & Hf & Hr).
  assert (local_inv s' g → c' = c → ∃ new, handed c new c' ∧ local_inv s' (g ++ new)) as Hsame.
  { intros Hi' ->. exists []. rewrite app_nil_r. split; [by left|done]. }
  destruct op as [chunk state|chunk| |chunk|state|now|q e st t|e t]; cbn [localStep] in E.
  - destruct (join s c chunk state) as [[s1 c1] st] eqn:E1. injection E as <- <-.
    eapply sendNow_inv in E1; [destruct E1 as (r&?&?); by eexists| |done]. by apply blobAssign_ok.
  - destruct (moveTo s c chunk) as [[s1 c1] st] eqn:E1. injection E as <- <-. unfold moveTo in E1.
    pose proof (setChunk_inv _ chunk _ Hi) as (Hb' & Hd' & _).
    eapply sendNow_inv in E1; [destruct E1 as (r&?&?); by eexists|done|done].
  - destruct (refresh s c) as [[s1 c1] st] eqn:E1. injection E as <- <-.
    eapply sendNow_inv in E1; [destruct E1 as (r&?&?); by eexists|done|done].
  - injection E as <- <-. apply Hsame; [by apply setChunk_inv|done].
  - injection E as <- <-. apply Hsame; [by apply setState_inv|done].
  - destruct (tickSends s now) eqn:Et.
    + rewrite localTick_sends, Et in E.
      destruct (sendNow s c now _) as [[s1 c1] st] eqn:E1. injection E as <- <-.
      eapply sendNow_inv in E1; [destruct E1 as (r&?&?); by eexists|done|done].
    + exists []. rewrite app_nil_r. split; [by eapply localTick_quiet|].
      destruct (localTick_idle _ _ _ _ _ Et E) as [->|(_ & _ & _ & ->)]; done.
  - injection E as <- <-. by apply Hsame.
  - injection E as <- <-. apply Hsame; [by apply recordError_inv|done].
Qed.

Lemma makeLocalActorStore_inv u o : local_inv (makeLocalActorStore u o) [].
Proof.
  split_and!; try done; [apply emptyBlob_ok|by right|]. cbn. split; [done|]. by intros (v & Hv & _).
Qed.

(** Heartbeats only move the last send within the keyframe interval of the last full one. *)
Definition keyframe_inv (k : Z) (s : LocalActorStore) : Prop :=
  la_lastSendMs s - la_lastFullSendMs s < k ∧ lo_keyframeIntervalMs (la_options s) = k.

Lemma sendNow_keyframe k s (c : C) now reason s' c' st :
  0 < k → keyframe_inv k s → sendNow s c now reason = (s', c', st) → keyframe_inv k s'.
Proof.
  unfold keyframe_inv. intros Hk Hi E. apply sendNow_spec in E as (_ & _ & _ & Eo & _ & _ & E6).
  rewrite Eo. destruct (ok st); destruct E6 as (_ & -> & ->); [|done]. destruct Hi. split; [lia|done].
Qed.

Lemma localStep_fixed s (c : C) op s' c' :
  localStep s c op = (s', c') → la_options s' = la_options s ∧ la_uuid s' = la_uuid s.
Proof.
  assert (∀ s1 now reason s2 c2 st, sendNow s1 c now reason = (s2, c2, st) → la_options s1 = la_options s →
    la_uuid s1 = la_uuid s → la_options s2 = la_options s ∧ la_uuid s2 = la_uuid s) as Hsend.
  { intros s1 t reason s2 c2 st E <- <-. pose proof (sendNow_spec _ _ _ _ _ _ _ E) as (_&_&_&Eo&_).
    apply sendNow_handed in E as [Ep _]. unfold poseOf in Ep. split; [done|congruence]. }
  intros E. destruct op as [chunk state|chunk| |chunk|state|now|q e st t|e t]; cbn [localStep] in E.
  - destruct (join s c chunk state) as [[s1 c1] st] eqn:E1. injection E as <- <-. by eapply Hsend.
  - destruct (moveTo s c chunk) as [[s1 c1] st] eqn:E1. injection E as <- <-. unfold moveTo, setChunk in E1.
    eapply Hsend; [exact E1|by case_bool_decide..].
  - destruct (refresh s c) as [[s1 c1] st] eqn:E1. injection E as <- <-. by eapply Hsend.
  - injection E as <- <-. unfold setChunk. by case_bool_decide.
  - injection E as <- <-. unfold setState. by case_match.
  - destruct (tickSends s now) eqn:Et.
    + rewrite localTick_sends, Et in E. destruct (sendNow s c now _) as [[s2 c2] st] eqn:E2.
      injection E as <- <-. by eapply Hsend.
    + by destruct (localTick_idle _ _ _ _ _ Et E) as [->|(_ & _ & _ & ->)].
  - by injection E as <- <-.
  - injection E as <- <-. unfold recordError. by case_decide.
Qed.

(** The store holds what the game wants shown. *)
Definition shows (s : LocalActorStore) (w : ChunkCoord * bytes) : Prop :=
  blob_ok (la_state s) ∧ la_chunk s = w.1 ∧ blobBytes (la_state s) = w.2.

Lemma localStep_shows s (c : C) op s' c' w :
  shows s w → localStep s c op = (s', c') → shows s' (wantedStep w op).
Proof.
  assert (∀ s1 now reason s2 c2 st v, sendNow s1 c now reason = (s2, c2, st) → shows s1 v → shows s2 v) as Hsend.
  { intros s1 t reason s2 c2 st v E (?&?&?). apply sendNow_spec in E as (E1&E2&_). unfold shows. by rewrite E1, E2. }
  intros Hw E. pose proof Hw as (Hb & Hk & Hv). destruct op as [chunk state|chunk| |chunk|state|now|q e st t|e t]; cbn [localStep wantedStep] in *.
  - destruct (join s c chunk state) as [[s1 c1] st] eqn:E1. injection E as <- <-. eapply Hsend; [exact E1|].
    split; [by apply blobAssign_ok|]. split; [done|]. apply blobBytes_assign.
  - destruct (moveTo s c chunk) as [[s1 c1] st] eqn:E1. injection E as <- <-. eapply Hsend; [exact E1|].
    unfold setChunk. case_bool_decide; by subst.
  - destruct (refresh s c) as [[s1 c1] st] eqn:E1. injection E as <- <-. by eapply Hsend.
  - injection E as <- <-. unfold setChunk. case_bool_decide; by subst.
  - injection E as <- <-. unfold setState. destruct (blobEquals (la_state s) state) eqn:Eq.
    + apply (blobEquals_true _ _ Hb) in Eq. split; [done|]. split; [done|]. cbn [snd]. rewrite <- Eq, take_ge; [done|].
      destruct Hb as [? ?]. unfold blobBytes. rewrite length_take. lia.
    + split; [by apply blobAssign_ok|]. split; [done|]. apply blobBytes_assign.
  - destruct (tickSends s now) eqn:Et.
    + rewrite localTick_sends, Et in E. destruct (sendNow s c now _) as [[s2 c2] st] eqn:E2.
      injection E as <- <-. by eapply Hsend.
    + by destruct (localTick_idle _ _ _ _ _ Et E) as [->|(_ & _ & _ & ->)].
  - by injection E as <- <-.
  - injection E as <- <-. unfold recordError. by case_decide.
Qed.

Lemma localStep_keyframe k s (c : C) op s' c' :
  0 < k → keyframe_inv k s → localStep s c op = (s', c') → keyframe_inv k s'.
Proof.
  intros Hk Hi E. destruct op as [chunk state|chunk| |chunk|state|now|q e st t|e t]; cbn [localStep] in E.
  - destruct (join s c chunk state) as [[s1 c1] st] eqn:E1. injection E as <- <-.
    eapply sendNow_keyframe; [done| |exact E1]. exact Hi.
  - destruct (moveTo s c chunk) as [[s1 c1] st] eqn:E1. injection E as <- <-. unfold moveTo in E1.
    eapply sendNow_keyframe; [done| |exact E1]. unfold setChunk. by case_bool_decide.
  - destruct (refresh s c) as [[s1 c1] st] eqn:E1. injection E as <- <-. by eapply sendNow_keyframe in E1.
  - injection E as <- <-. unfold setChunk. by case_bool_decide.
  - injection E as <- <-. unfold setState. by case_match.
  - destruct (tickSends s now) eqn:Et.
    + rewrite localTick_sends, Et in E. destruct (sendNow s c now _) as [[s2 c2] st] eqn:E2.
      injection E as <- <-. by eapply sendNow_keyframe in E2.
    + destruct (localTick_idle _ _ _ _ _ Et E) as [->|(_ & _ & Hf & ->)]; [done|].
      destruct Hi as [_ <-]. by split.
  - by injection E as <- <-.
  - injection E as <- <-. unfold recordError. by case_decide.
Qed.

(** A property every step keeps, every run keeps. *)
Lemma localRun_ind (P : LocalActorStore → C → list LocalOp → Prop) ops s (c : C) done s' c' :
  (∀ s c done op s' c', P s c done → localStep s c op = (s', c') → P s' c' (done ++ [op])) →
  P s c done → localRun s c ops = (s', c') → P s' c' (done ++ ops).
Proof.
  intros Hstep. revert s c done. induction ops as [|op ops IH]; intros s c l Hi; cbn [localRun].
  - intros [= <- <-]. by rewrite app_nil_r.
  - destruct (localStep s c op) as [s1 c1] eqn:E. intros Hr. rewrite (cons_middle op l ops), app_assoc.
    eapply IH; [|exact Hr]. by eapply Hstep.
Qed.

(** Presence never lapses: after any sequence of calls (sends failing or not), a tick of a
    joined actor either attempts a full update or comes less than a keyframe interval plus one
    send interval after the last full update that left; heartbeats cannot postpone it further. *)
Theorem localActor_keyframe_bound uuid options (c : C) ops now :
  0 < lo_keyframeIntervalMs options →
  let '(s, _) := localRun (makeLocalActorStore uuid options) c ops in
  la_joined s = true →
  tickSends s now = true ∨
  now - la_lastFullSendMs s < lo_keyframeIntervalMs options + sendInterval s.
Proof.
  intros Hk. destruct (localRun (makeLocalActorStore uuid options) c ops) as [s c1] eqn:E.
  assert (keyframe_inv (lo_keyframeIntervalMs options) s) as [Hi Ho].
  { apply (localRun_ind (λ s _ _, keyframe_inv (lo_keyframeIntervalMs options) s) ops
      (makeLocalActorStore uuid options) c [] s c1); [|done|exact E].
    intros s0 c0 l op s2 c2. by apply localStep_keyframe. }
  intros Hj. unfold tickSends. rewrite Hj, Ho. cbn [andb].
  assert (0 ≤ sendInterval s) by (unfold sendInterval; apply Z.quot_pos; destruct (Z.ltb_spec 0 (lo_sendHz (la_options s))); lia).
  destruct (Z.ltb_spec (now - la_lastSendMs s) (sendInterval s)); cbn [negb andb]; [right; lia|].
  destruct (Z.leb_spec (lo_keyframeIntervalMs options) (now - la_lastFullSendMs s)); [left|right; lia].
  by rewrite orb_true_r.
Qed.
End LocalRuns.

(** The log of a connection is what it was handed. *)
Lemma handed_logged {C} `{SenderLaws C} (c : Logged C) new c' : handed c new c' → lg_log c' = lg_log c ++ new.
Proof.
  unfold handed. destruct new as [|[p r] [|]]; cbn; [| |done].
  - rewrite app_nil_r. intros [->|(k&u&r&E)]; [done|]. by destruct (sendHeartbeat (lg_conn c) k u); injection E as <- _.
  - destruct (sendActorUpdate (lg_conn c) p) as [c1 r1]. by intros [= <- ->].
Qed.

(** What the presence loop keeps beside the log of its connection, after the calls [ops]. *)
Record presence_inv {C} (uuid : bytes) (options : LocalOptions) (s : LocalActorStore) (c : Logged C)
    (ops : list LocalOp) : Prop := {
  pi_inv : local_inv s (lg_log c);
  pi_shows : shows s (wanted ops);
  pi_options : la_options s = options;
  pi_uuid : la_uuid s = uuid;
}.

Lemma localRun_presence {C} `{SenderLaws C} uuid options (c : C) ops s c' :
  localRun (makeLocalActorStore uuid options) (mkLogged c []) ops = (s, c') → presence_inv uuid options s c' ops.
Proof.
  intros E. apply (localRun_ind (presence_inv uuid options) ops _ _ [] _ _) in E; [done| |].
  - intros s0 c0 l op s1 c1 [Hi Hw Ho Hu] E1. destruct (localStep_fixed _ _ _ _ _ E1) as [Ho1 Hu1].
    pose proof (localStep_inv _ _ _ _ _ _ Hi E1) as (new & Hh%handed_logged & Hi1).
    split; [by rewrite Hh| |congruence|congruence].
    unfold wanted. rewrite foldl_app. cbn [foldl]. exact (localStep_shows _ _ _ _ _ _ Hw E1).
  - split; [apply makeLocalActorStore_inv| |done..]. split; [apply emptyBlob_ok|done].
Qed.

(** C38. The presence loop never forgets a change and never re-sends an unchanged one needlessly. After
    any sequence of calls, with any sends failing or deferred: a store that is not dirty has
    handed the connection the pose the game asked for last — its chunk, its state cut to 256
    octets, under the actor's identifier, distance and decay — as the last update that left, or
    has nothing joined and sent; the resend flag says exactly whether the last update handed over
    failed; and the next tick, outside the send interval, hands over exactly that pose when there
    is something dirty, failed or due, and no update otherwise, clearing both flags when it leaves. *)
Theorem localActor_send_loop {C} `{SenderLaws C} uuid options (c : C) ops now :
  let '(s, c) := localRun (makeLocalActorStore uuid options) (mkLogged c []) ops in
  let pose := mkSpatialSend (wanted ops).1 uuid (wanted ops).2 (lo_distance options) (lo_decay options) in
  (la_dirty s = false → lastLeft (lg_log c) = Some pose ∨ (lastLeft (lg_log c) = None ∧ la_joined s = false)) ∧
  la_resendDue s = lastFailed (lg_log c) ∧
  let '(s', c') := localTick s c now in
  if la_joined s && (sendInterval s <=? now - la_lastSendMs s) &&
     (la_dirty s || lastFailed (lg_log c) || (lo_keyframeIntervalMs options <=? now - la_lastFullSendMs s))
  then ∃ r, lg_log c' = lg_log c ++ [(pose, r)] ∧
    match r with
    | Val q => la_dirty s' = false ∧ la_resendDue s' = false ∧ la_lastSequence s' = Some q ∧ la_lastSendMs s' = now
    | Err _ => la_dirty s' = la_dirty s ∧ la_resendDue s' = true ∧ la_lastSendMs s' = la_lastSendMs s
    end
  else lg_log c' = lg_log c.
Proof.
  destruct (localRun _ _ ops) as [s c1] eqn:E. apply localRun_presence in E as [(Hb & Hd & Hf & _) (_&Hk&Hv) <- <-].
  cbv zeta. rewrite <- Hk, <- Hv. fold (poseOf s). split_and!; [done|done|].
  destruct (localTick s c1 now) as [s' c'] eqn:E1. rewrite Z.leb_antisym, <- Hf. fold (tickSends s now).
  destruct (tickSends s now) eqn:Et.
  2: { apply localTick_quiet, handed_logged in E1; [|done]. by rewrite app_nil_r in E1. }
  rewrite localTick_sends, Et in E1. destruct (sendNow s c1 now _) as [[s2 c2] st] eqn:E2. injection E1 as <- <-.
  pose proof (sendNow_handed _ _ _ _ _ _ _ E2) as (_ & r & Hh%handed_logged & Hr & Hq). exists r. split; [done|].
  apply sendNow_spec in E2 as (_&_&_&_&_&E5&E6). rewrite <- Hr in *. destruct r as [q|e]; cbn in *.
  - destruct E6 as (?&?&_). auto.
  - by destruct E6 as (?&?&_).
Qed.

(** ** Lanes *)

Inductive LaneOp :=
| LnApply (n : SpatialNotification) (now : Z)
| LnRemove (uuid : bytes)
| LnReap (now : Z).

Definition laneStep (l : RemoteActorLane) (op : LaneOp) : RemoteActorLane * list LaneEvent :=
  match op with
  | LnApply n now => (laneApply l n now).1
  | LnRemove u => (laneRemove l u).1
  | LnReap now => laneReap l now
  end.

Fixpoint laneRun (l : RemoteActorLane) (ops : list LaneOp) : RemoteActorLane * list LaneEvent :=
  match ops with
  | [] => (l, [])
  | op :: ops => let '(l, ev) := laneStep l op in let '(l, evs) := laneRun l ops in (l, ev ++ evs)
  end.

(** Who is present after the events, if they tell a consistent story: a join only of an absent
    actor, a leave and an update only of a present one. *)
Fixpoint replay (present : gset bytes) (evs : list LaneEvent) : option (gset bytes) :=
  match evs with
  | [] => Some present
  | OnJoin a :: evs => if decide (ra_uuid a ∈ present) then None else replay ({[ra_uuid a]} ∪ present) evs
  | OnLeave a :: evs => if decide (ra_uuid a ∈ present) then replay (present ∖ {[ra_uuid a]}) evs else None
  | OnUpdate a :: evs => if decide (ra_uuid a ∈ present) then replay present evs else None
  end.

Definition actor_ok (o : LaneOptions) (u : bytes) (a : RemoteActor) : Prop :=
  ra_uuid a = u ∧ (0 ≤ ln_historySize o < 2 ^ 31 → Z.of_nat (length (ra_samples a)) ≤ ln_historySize o) ∧
  Forall (λ s, blob_ok (as_state s)) (ra_samples a).

Definition lane_ok (l : RemoteActorLane) : Prop := map_Forall (actor_ok (ln_options l)) (ln_actors l).
Definition lane_observed (l : RemoteActorLane) : Prop := ln_onJoin l = true ∧ ln_onLeave l = true ∧ ln_onUpdate l = true.

Lemma replay_app p evs evs' : replay p (evs ++ evs') = replay p evs ≫= λ q, replay q evs'.
Proof.
  revert p. induction evs as [|[a|a|a] evs IH]; intros p; cbn [replay app]; [done|..]; case_decide; done.
Qed.

Lemma addSample_ok o samples s :
  (0 ≤ ln_historySize o < 2 ^ 31 → Z.of_nat (length (addSample (ln_historySize o) samples s)) ≤ ln_historySize o) ∧
  (Forall (λ s, blob_ok (as_state s)) samples → blob_ok (as_state s) →
   Forall (λ s, blob_ok (as_state s)) (addSample (ln_historySize o) samples s)).
Proof.
  unfold addSample. split.
  - intros Hh. rewrite wrapU_id by (unfold in_u; lia).
    destruct (Z.ltb_spec (ln_historySize o) (Z.of_nat (length (s :: samples)))); [rewrite length_take; lia|lia].
  - intros Hs Hb. assert (Forall (λ s, blob_ok (as_state s)) (s :: samples)) by by apply Forall_cons_2.
    case_match; [by apply Forall_take|done].
Qed.

(** The newest sample comes first. *)
Lemma addSample_head h samples s : 0 < h < 2 ^ 31 → ∃ rest, addSample h samples s = s :: rest.
Proof.
  intros Hh. unfold addSample. rewrite wrapU_id by (unfold in_u; lia).
  destruct (Z.ltb _ _); [|by eauto]. destruct (Z.to_nat h) eqn:E; [lia|]. by eexists.
Qed.

Lemma laneApply_ok l n now :
  lane_ok l → lane_ok (laneApply l n now).1.1 ∧ ln_options (laneApply l n now).1.1 = ln_options l.
Proof.
  intros Hok. unfold laneApply. destruct (match ln_filter (ln_options l) with Some f => negb (f n) | None => false end); [done|].
  cbn. split; [|done]. apply map_Forall_insert_2; [|exact Hok].
  destruct (addSample_ok (ln_options l)
    (match ln_actors l !! uuidArray n with Some a => ra_samples a | None => [] end)
    (mkActorSample (blobAssign emptyBlob (sn_payload n)) (sn_epochMillis n) now)) as [H1 H2].
  split_and!; [done|exact H1|]. apply H2; [|apply blobAssign_ok, emptyBlob_ok].
  destruct (ln_actors l !! uuidArray n) as [a|] eqn:E; [by destruct (Hok _ _ E) as (_ & _ & ?)|by apply Forall_nil_2].
Qed.

Lemma laneApply_replay l n now :
  lane_observed l → lane_observed (laneApply l n now).1.1 ∧
    replay (dom (ln_actors l)) (laneApply l n now).1.2 = Some (dom (ln_actors (laneApply l n now).1.1)).
Proof.
  intros (Hj & Hl & Hu). unfold laneApply. destruct (match ln_filter (ln_options l) with Some f => negb (f n) | None => false end); [done|].
  cbn [fst snd]. split; [done|]. rewrite Hj, Hu. cbn [withActors ln_actors]. rewrite dom_insert_L.
  destruct (ln_actors l !! uuidArray n) as [a|] eqn:E; cbn [onlyIf andb].
  - rewrite bool_decide_eq_false_2 by done. cbn [andb onlyIf app replay ra_uuid].
    assert (uuidArray n ∈ dom (ln_actors l)) by (by apply elem_of_dom_2 in E).
    rewrite decide_True by done. f_equal. set_solver.
  - rewrite bool_decide_eq_true_2 by done. cbn [andb onlyIf app replay ra_uuid].
    rewrite decide_False by (by apply not_elem_of_dom). by rewrite decide_True by set_solver.
Qed.

Lemma laneRemove_ok l u :
  lane_ok l → lane_ok (laneRemove l u).1.1 ∧ ln_options (laneRemove l u).1.1 = ln_options l.
Proof.
  intros Hok. unfold laneRemove. destruct (ln_actors l !! u); [|done]. split; [|done]. by apply map_Forall_delete.
Qed.

Lemma laneRemove_replay l u :
  lane_ok l → lane_observed l → lane_observed (laneRemove l u).1.1 ∧
    replay (dom (ln_actors l)) (laneRemove l u).1.2 = Some (dom (ln_actors (laneRemove l u).1.1)).
Proof.
  intros Hok (Hj & Hl & Hu). unfold laneRemove. destruct (ln_actors l !! u) as [a|] eqn:E; [|done].
  split; [done|]. cbn [fst snd]. rewrite Hl. cbn [onlyIf replay withActors ln_actors].
  destruct (Hok _ _ E) as (-> & _). rewrite decide_True by (by apply elem_of_dom_2 in E). by rewrite dom_delete_L.
Qed.

Lemma replay_leaves (gone : list (bytes * RemoteActor)) (p : gset bytes) :
  NoDup gone.*1 → Forall (λ kv, ra_uuid kv.2 = kv.1 ∧ kv.1 ∈ p) gone →
  replay p ((λ kv, OnLeave kv.2) <$> gone) = Some (p ∖ list_to_set gone.*1).
Proof.
  revert p. induction gone as [|[u a] gone IH]; intros p Hnd Hf; cbn.
  - f_equal. set_solver.
  - apply list.NoDup_cons in Hnd as [Hu Hnd]. apply Forall_cons_1 in Hf as [[E Hp] Hf]. cbn in E, Hp, Hu. rewrite E.
    rewrite decide_True by done. rewrite IH; [f_equal; set_solver|done|].
    rewrite Forall_forall in Hf |- *. intros kv Hkv. destruct (Hf kv Hkv) as [? ?]. split; [done|].
    apply elem_of_difference. split; [done|]. rewrite elem_of_singleton. intros Heq. apply Hu.
    rewrite <- Heq. change (kv.1 ∈ gone.*1). apply list_elem_of_fmap. exists kv.
    split; [done|by apply list_elem_of_In].
Qed.

Lemma laneReap_ok l now :
  lane_ok l → lane_ok (laneReap l now).1 ∧ ln_options (laneReap l now).1 = ln_options l.
Proof.
  intros Hok. split; [|done]. intros u a [Hu _]%lookup_difference_Some. by apply Hok.
Qed.

Lemma laneReap_replay l now :
  lane_ok l → lane_observed l → lane_observed (laneReap l now).1 ∧
    replay (dom (ln_actors l)) (laneReap l now).2 = Some (dom (ln_actors (laneReap l now).1)).
Proof.
  intros Hok (Hj & Hl & Hu). split; [done|]. unfold laneReap. cbn [fst snd]. rewrite Hl.
  assert (staleActors l now ⊆ ln_actors l) as Hsub by apply map_filter_subseteq.
  rewrite replay_leaves.
  - cbn [withActors ln_actors]. f_equal. rewrite dom_difference_L. f_equal.
    apply set_eq. intros u. rewrite elem_of_list_to_set, elem_of_dom.
    split.
    + intros ([k a] & -> & Hk%elem_of_map_to_list)%list_elem_of_fmap. by exists a.
    + intros [a Ha]. apply list_elem_of_fmap. exists (u, a). split; [done|]. by apply elem_of_map_to_list.
  - apply NoDup_fst_map_to_list.
  - rewrite Forall_forall. intros [u a] Hk%list_elem_of_In%elem_of_map_to_list. cbn.
    assert (ln_actors l !! u = Some a) as Hla by (by eapply lookup_weaken).
    split; [by destruct (Hok _ _ Hla)|]. by apply elem_of_dom_2 in Hla.
Qed.

Lemma laneStep_ok l op :
  lane_ok l → lane_ok (laneStep l op).1 ∧ ln_options (laneStep l op).1 = ln_options l.
Proof.
  destruct op as [n now|u|now]; cbn [laneStep]; [apply laneApply_ok|apply laneRemove_ok|apply laneReap_ok].
Qed.

Lemma laneStep_replay l op :
  lane_ok l → lane_observed l → lane_observed (laneStep l op).1 ∧
    replay (dom (ln_actors l)) (laneStep l op).2 = Some (dom (ln_actors (laneStep l op).1)).
Proof.
  destruct op as [n now|u|now]; cbn [laneStep]; intros;
    [by apply laneApply_replay|by apply laneRemove_replay|by apply laneReap_replay].
Qed.

Lemma laneRun_ok ops l :
  lane_ok l → lane_ok (laneRun l ops).1 ∧ ln_options (laneRun l ops).1 = ln_options l ∧
  (lane_observed l → replay (dom (ln_actors l)) (laneRun l ops).2 = Some (dom (ln_actors (laneRun l ops).1))).
Proof.
  revert l. induction ops as [|op ops IH]; intros l Hok; cbn [laneRun]; [done|].
  pose proof (laneStep_ok l op Hok) as [H1 Eo]. pose proof (laneStep_replay l op Hok) as Hr.
  destruct (laneStep l op) as [l1 ev]. cbn [fst snd] in *.
  destruct (IH l1 H1) as (H2 & Eo2 & Hr2). destruct (laneRun l1 ops) as [l2 evs]. cbn [fst snd] in *.
  split_and!; [done|congruence|]. intros Hobs. destruct (Hr Hobs) as [Hobs1 Hr1].
  rewrite replay_app, Hr1. cbn [mbind option_bind]. by apply Hr2.
Qed.

(** The callbacks of a lane tell a consistent story of who is present: over any sequence of
    updates, departures and reaps, [onJoin] fires only for an absent actor, [onLeave] and
    [onUpdate] only for a present one, and who joined and did not leave is exactly who the lane
    holds. Each actor keeps at most [historySize] samples of at most 256 octets under its own
    uuid, and a reap leaves nobody unseen for longer than [staleAfterMs]. *)
Theorem lane_presence_protocol options ops now :
  let lane := mkRemoteActorLane options ∅ true true true 0 in
  let '(l, evs) := laneRun lane ops in
  replay ∅ evs = Some (dom (ln_actors l)) ∧
  (∀ u a, ln_actors l !! u = Some a →
     ra_uuid a = u ∧ Forall (λ s, length (blobBytes (as_state s)) ≤ kMaxStateBytes)%nat (ra_samples a) ∧
     (0 ≤ ln_historySize options < 2 ^ 31 → Z.of_nat (length (ra_samples a)) ≤ ln_historySize options)) ∧
  (∀ u a, ln_actors (laneReap l now).1 !! u = Some a → now - ra_lastSeenMs a ≤ ln_staleAfterMs options).
Proof.
  intros lane. assert (lane_ok lane) as Hok by apply map_Forall_empty.
  destruct (laneRun_ok ops lane Hok) as (H1 & Eo & Hr). destruct (laneRun lane ops) as [l evs]. cbn [fst snd] in *.
  split_and!.
  - rewrite <- Hr by done. cbn. by rewrite dom_empty_L.
  - intros u a Ha. destruct (H1 u a Ha) as (E & Hl & Hs). rewrite Eo in Hl. split_and!; [done| |exact Hl].
    revert Hs. apply Forall_impl. intros s [Hd Hn]. unfold blobBytes. rewrite length_take. lia.
  - intros u a [Hu Hn]%lookup_difference_Some. apply Z.nlt_ge. intros Hlt.
    assert (staleActors l now !! u = Some a) as E; [|congruence].
    apply map_lookup_filter_Some. split; [done|]. by rewrite Eo.
Qed.

(** ** The remote-actor store *)

Inductive StoreOp :=
| StLane (name : string) (options : LaneOptions)
| StIngest (n : SpatialNotification) (now : Z)
| StRemove (uuid : bytes)
| StReap (now : Z)
| StClear.

Definition storeStep (s : RemoteActorStore) (op : StoreOp) : RemoteActorStore :=
  match op with
  | StLane name o => storeLane s name o
  | StIngest n now => storeIngest s n now
  | StRemove u => (storeRemove s u).1
  | StReap now => storeReap s now
  | StClear => storeClear s
  end.

(** The lane [l] of the store, the default one included. *)
Definition has_lane (s : RemoteActorStore) (l : RemoteActorLane) : Prop :=
  l = rs_defaultLane s ∨ ∃ name, rs_lanes s !! name = Some l.

Definition store_ok (s : RemoteActorStore) : Prop :=
  ln_options (rs_defaultLane s) = mkLaneOptions None (rs_staleAfterMs s) (rs_historySize s) ∧
  ∀ l, has_lane s l → lane_ok l ∧ ln_actors l !! rs_selfUuid s = None.

(** A step that maps every lane keeps what each lane keeps. *)
Lemma withLanes_ok s (f : RemoteActorLane → RemoteActorLane) :
  store_ok s →
  (∀ l, has_lane s l → lane_ok l → ln_actors l !! rs_selfUuid s = None →
     lane_ok (f l) ∧ ln_actors (f l) !! rs_selfUuid s = None ∧ ln_options (f l) = ln_options l) →
  store_ok (withLanes s (f (rs_defaultLane s)) (f <$> rs_lanes s)).
Proof.
  intros [Hd Hl] Hf. assert (has_lane s (rs_defaultLane s)) as H0 by by left. split; cbn.
  - destruct (Hl _ H0). by destruct (Hf _ H0) as (_ & _ & ->).
  - intros l [->|[name Hn]].
    + destruct (Hl _ H0). by destruct (Hf _ H0) as (? & ? & _).
    + cbn in Hn. apply lookup_fmap_Some in Hn as (l0 & <- & Hn).
      assert (has_lane s l0) as H1 by (right; eauto). destruct (Hl _ H1). by destruct (Hf _ H1) as (? & ? & _).
Qed.

Lemma laneApply_lookup_ne l n now u :
  uuidArray n ≠ u → ln_actors (laneApply l n now).1.1 !! u = ln_actors l !! u.
Proof.
  intros Hne. unfold laneApply. destruct (match ln_filter (ln_options l) with Some f => negb (f n) | None => false end); [done|].
  cbn. by rewrite lookup_insert_ne.
Qed.

Lemma laneRemove_lookup l u v :
  ln_actors (laneRemove l u).1.1 !! v = if decide (u = v) then None else ln_actors l !! v.
Proof.
  unfold laneRemove. destruct (ln_actors l !! u) eqn:E; cbn; case_decide as Hd; subst;
    rewrite ?lookup_delete_eq, ?lookup_delete_ne by done; done.
Qed.

Lemma storeStep_ok s op : store_ok s → store_ok (storeStep s op) ∧
  (rs_selfUuid (storeStep s op), rs_historySize (storeStep s op)) = (rs_selfUuid s, rs_historySize s).
Proof.
  intros Hok. destruct op as [name o|n now|u|now|]; cbn [storeStep].
  - unfold storeLane. destruct (rs_lanes s !! name) eqn:E; [done|]. split; [|done].
    destruct Hok as [Hd Hl]. split; [done|]. intros l [->|[name' Hn]]; [by apply Hl; left|].
    cbn in Hn. apply lookup_insert_Some in Hn as [[<- <-]|[_ Hn]]; [|by apply Hl; right; eauto].
    split; [apply map_Forall_empty|done].
  - unfold storeIngest. case_decide as Hself; [done|]. split; [|done].
    apply (withLanes_ok s (λ l, (laneApply l n now).1.1)); [done|]. intros l _ Hl Hs.
    destruct (laneApply_ok l n now Hl). by rewrite laneApply_lookup_ne.
  - split; [|done]. apply (withLanes_ok s (λ l, (laneRemove l u).1.1)); [done|]. intros l _ Hl Hs.
    destruct (laneRemove_ok l u Hl). rewrite laneRemove_lookup. by case_decide.
  - split; [|done]. apply (withLanes_ok s (λ l, (laneReap l now).1)); [done|]. intros l _ Hl Hs.
    destruct (laneReap_ok l now Hl). split_and!; try done. apply lookup_difference_None. by left.
  - split; [|done]. apply (withLanes_ok s laneClear); [done|]. intros l _ Hl Hs.
    split_and!; [apply map_Forall_empty|apply lookup_empty|done].
Qed.

Lemma storeRun_ok ops s :
  store_ok s → store_ok (foldl storeStep s ops) ∧
  (rs_selfUuid (foldl storeStep s ops), rs_historySize (foldl storeStep s ops)) = (rs_selfUuid s, rs_historySize s).
Proof.
  revert s. induction ops as [|op ops IH]; intros s Hok; cbn [foldl]; [done|].
  destruct (storeStep_ok s op Hok) as [H1 E1]. destruct (IH _ H1) as [H2 E2]. split; [done|congruence].
Qed.

Lemma makeRemoteActorStore_ok self stale history : store_ok (makeRemoteActorStore self stale history).
Proof.
  split; [done|]. intros l [->|[name Hn]]; [split; [apply map_Forall_empty|done]|]. cbn in Hn.
  by rewrite lookup_empty in Hn.
Qed.

(** The remote-actor store never holds the player's own actor in any lane, over any sequence
    of lane creations, updates, departures, reaps and clears; an update of anybody else is in
    the default lane at once with its chunk and state; and a removal leaves the actor in no lane
    and reports whether one held it. *)
Theorem remoteActorStore_self_filtered self stale history ops n now u :
  let s := foldl storeStep (makeRemoteActorStore self stale history) ops in
  (∀ l, has_lane s l → ln_actors l !! self = None) ∧
  (uuidArray n ≠ self → 0 < history < 2 ^ 31 →
     ∃ a, ln_actors (rs_defaultLane (storeIngest s n now)) !! uuidArray n = Some a ∧
       ra_chunk a = sn_chunk n ∧ ra_lastSeenMs a = now ∧ actorState a = take kMaxStateBytes (sn_payload n)) ∧
  (∀ l, has_lane (storeRemove s u).1 l → ln_actors l !! u = None) ∧
  ((storeRemove s u).2 = true ↔ ∃ l, has_lane s l ∧ is_Some (ln_actors l !! u)).
Proof.
  intros s. destruct (storeRun_ok ops _ (makeRemoteActorStore_ok self stale history)) as [Hok Es].
  fold s in Hok, Es. cbn in Es. injection Es as Es Eh. destruct Hok as [Hd Hl]. split_and!.
  - intros l H. rewrite <- Es. by apply Hl.
  - intros Hne Hh. unfold storeIngest. rewrite decide_False by congruence. cbn.
    unfold laneApply. rewrite Hd. cbn. rewrite lookup_insert_eq. eexists. split_and!; try done. cbn.
    rewrite Eh. unfold actorState. cbn [ra_samples].
    match goal with |- context [addSample history ?l ?x] => destruct (addSample_head history l x Hh) as [rest ->] end.
    apply blobBytes_assign.
  - intros l [->|[name Hn]]; cbn.
    + rewrite laneRemove_lookup. by rewrite decide_True.
    + cbn in Hn. apply lookup_fmap_Some in Hn as (l0 & <- & Hn). rewrite laneRemove_lookup. by rewrite decide_True.
  - assert (∀ l, (laneRemove l u).2 = true ↔ is_Some (ln_actors l !! u)) as Hrem.
    { intros l. unfold laneRemove. destruct (ln_actors l !! u); cbn; [by split; eauto|].
      split; [done|intros [? ?]; done]. }
    cbn. rewrite orb_true_iff, bool_decide_eq_true, Hrem. split.
    + intros [H|(name & l & Hn & H)].
      * exists (rs_defaultLane s). split; [by left|done].
      * exists l. split; [right; eauto|by apply Hrem].
    + intros (l & [->|[name Hn]] & H); [by left|right]. exists name, l. split; [done|by apply Hrem].
Qed.

(** ** Logs and inboxes *)

Inductive ErrorOp :=
| EoSend (sequence : Z) (kind : SendKind) (actor : option bytes)
| EoIngest (e : GenericError) (now : Z)
| EoClear.

Definition errorStep (s : ErrorStore) (op : ErrorOp) : ErrorStore :=
  match op with
  | EoSend q k a => recordSend s q k a
  | EoIngest e now => errorIngest s e now
  | EoClear => clearErrors s
  end.

(** The specification: the whole history of what each sequence was last used for, and every
    attributed error since the last clear, newest first. *)
Record ErrorLog := mkErrorLog { el_uses : Z → option (SendKind * option bytes); el_errors : list AttributedError; el_total : Z }.

Definition attribute (uses : Z → option (SendKind * option bytes)) (e : GenericError) (now : Z) : AttributedError :=
  match uses (gen_sequence e) with
  | Some (k, a) => mkAttributedError (gen_code e) (gen_sequence e) k a now
  | None => mkAttributedError (gen_code e) (gen_sequence e) KUnknown None now
  end.

Definition logStep (l : ErrorLog) (op : ErrorOp) : ErrorLog :=
  match op with
  | EoSend q k a => mkErrorLog (λ q', if decide (q' = q) then Some (k, a) else el_uses l q') (el_errors l) (el_total l)
  | EoIngest e now => mkErrorLog (el_uses l) (attribute (el_uses l) e now :: el_errors l) (el_total l + 1)
  | EoClear => mkErrorLog (el_uses l) [] (el_total l)
  end.

Definition log_rel (s : ErrorStore) (l : ErrorLog) : Prop :=
  (∀ q, es_sent s !! q = el_uses l q) ∧ es_recent s = take kMaxErrors (el_errors l) ∧ es_total s = u64 (el_total l).

Lemma errorStep_rel s l op : log_rel s l → log_rel (errorStep s op) (logStep l op).
Proof.
  intros (Hu & Hr & Ht). destruct op as [q k a|e now|]; cbn [errorStep logStep].
  - split_and!; try done. intros q'. cbn. case_decide as Hq; [subst; apply lookup_insert_eq|].
    by rewrite lookup_insert_ne.
  - unfold log_rel, errorIngest, attribute. cbn [es_sent es_recent es_total el_uses el_errors el_total].
    rewrite Hu, Hr, Ht. split_and!; [done| |by rewrite wrapU_add_l].
    set (x := match el_uses l (gen_sequence e) with Some (k, a) => _ | None => _ end).
    cbn [length]. rewrite length_take. unfold kMaxErrors. case_decide as Hd.
    + change (take 64 (x :: el_errors l)) with (x :: take 63 (el_errors l)).
      rewrite Nat.min_l by lia. cbn [Nat.sub]. change (take 64 (x :: take 64 (el_errors l))) with (x :: take 63 (take 64 (el_errors l))).
      by rewrite take_take.
    + cbn [take]. rewrite !take_ge by lia. done.
  - split_and!; done.
Qed.

Lemma errorRun_rel ops s l : log_rel s l → log_rel (foldl errorStep s ops) (foldl logStep l ops).
Proof. revert s l. induction ops; intros s l H; cbn; [done|]. by apply IHops, errorStep_rel. Qed.

Lemma take_min_length {A} n (r : list A) : take (Nat.min n (length r)) r = take n r.
Proof. destruct (Nat.min_spec n (length r)) as [[? ->]|[? ->]]; [done|]. by rewrite !take_ge by lia. Qed.

(** The error store is the bounded view of the full log: it keeps exactly the newest 64
    attributed errors since the last clear, newest first, each attributed to what last used its
    sequence number, and counts all of them for life; the per-kind and per-actor lookups return
    the newest matching error kept. *)
Theorem errorStore_refines_log ops :
  let s := foldl errorStep (mkErrorStore ∅ [] 0) ops in
  let l := foldl logStep (mkErrorLog (λ _, None) [] 0) ops in
  es_recent s = take kMaxErrors (el_errors l) ∧ es_total s = u64 (el_total l) ∧
  (∀ n, recentErrors s n = take (Nat.min n kMaxErrors) (el_errors l)) ∧
  lastError s = head (el_errors l) ∧
  (∀ k e, lastErrorForKind s k = Some e → ∃ older newer,
     es_recent s = newer ++ e :: older ∧ ae_kind e = k ∧ Forall (λ x, ae_kind x ≠ k) newer).
Proof.
  intros s l. assert (log_rel s l) as (_ & Hr & Ht) by (by apply errorRun_rel).
  split_and!; [done|done| | |].
  - intros n. unfold recentErrors. by rewrite take_min_length, Hr, take_take.
  - unfold lastError. rewrite Hr. by destruct (el_errors l).
  - intros k e. clear Hr. unfold lastErrorForKind. induction (es_recent s) as [|x r IH]; cbn [find]; [done|].
    case_bool_decide as Hk.
    + intros [= <-]. exists r, []. split_and!; [done|done|by apply Forall_nil_2].
    + intros (older & newer & -> & ? & ?)%IH. exists older, (x :: newer). split_and!; [done|done|by apply Forall_cons_2].
Qed.

Inductive InboxOp := IbPush (m : InboxMessage) | IbDrain (max : nat) | IbClear.

(** A run: the inbox, what was drained, in order; [None] when a push was undefined. *)
Fixpoint inboxRun (b : Inbox) (ops : list InboxOp) : option (Inbox * list InboxMessage) :=
  match ops with
  | [] => Some (b, [])
  | IbPush m :: ops => '(b, _) ← inboxPush b m; inboxRun b ops
  | IbDrain n :: ops => let '(b, out) := inboxDrain b n in '(b, outs) ← inboxRun b ops; Some (b, out ++ outs)
  | IbClear :: ops => inboxRun (inboxClear b) ops
  end.

Definition pushes (ops : list InboxOp) : list InboxMessage :=
  flat_map (λ op, match op with IbPush m => [m] | _ => [] end) ops.

Lemma inboxPush_spec b m :
  (1 ≤ ib_max b)%nat → (length (ib_messages b) ≤ ib_max b)%nat →
  ∃ b', inboxPush b m = Some (b', m) ∧ ib_max b' = ib_max b ∧ ib_channels b' = {[im_channelId m]} ∪ ib_channels b ∧
    ib_messages b' = drop (S (length (ib_messages b)) - ib_max b) (ib_messages b ++ [m]) ∧
    (length (ib_messages b') ≤ ib_max b)%nat.
Proof.
  intros Hm Hl. unfold inboxPush. rewrite length_app. cbn [length].
  assert (list.last (ib_messages b ++ [m]) = Some m) as Hlast by apply last_snoc.
  destruct (decide _) as [Hd|Hd].
  - assert (length (ib_messages b) = ib_max b) as E by lia.
    destruct (ib_messages b) as [|x q]; [cbn in E; lia|]. cbn [drop app].
    rewrite drop_0, last_snoc. cbn [mbind option_bind]. eexists. split_and!; [done|done|done| |].
    + cbn [ib_messages]. rewrite E. replace (S (ib_max b) - ib_max b)%nat with 1%nat by lia. done.
    + cbn [ib_messages]. rewrite length_app. cbn in E |- *. lia.
  - rewrite Hlast. cbn [mbind option_bind]. eexists. split_and!; [done|done|done| |].
    + cbn [ib_messages]. by replace (S (length (ib_messages b)) - ib_max b)%nat with 0%nat by lia.
    + cbn [ib_messages]. rewrite length_app. cbn. lia.
Qed.

Lemma inboxRun_spec ops b :
  (1 ≤ ib_max b)%nat → (length (ib_messages b) ≤ ib_max b)%nat →
  ∃ b' out, inboxRun b ops = Some (b', out) ∧ ib_max b' = ib_max b ∧ (length (ib_messages b') ≤ ib_max b)%nat ∧
    sublist (out ++ ib_messages b') (ib_messages b ++ pushes ops) ∧
    ib_channels b' = list_to_set (im_channelId <$> pushes ops) ∪ ib_channels b.
Proof.
  revert b. induction ops as [|[m|n|] ops IH]; intros b Hm Hl; cbn [inboxRun pushes flat_map].
  - exists b, []. split_and!; [done|done|done|by rewrite app_nil_r|set_solver].
  - destruct (inboxPush_spec b m Hm Hl) as (b1 & -> & Em & Ec & Eq & Hl1). cbn [mbind option_bind].
    destruct (IH b1) as (b2 & out & -> & H0 & H1 & H2 & H3); [lia|lia|].
    exists b2, out. split_and!; [done|congruence|lia| |].
    + etransitivity; [exact H2|]. rewrite Eq. fold (pushes ops). rewrite (app_assoc _ [m]).
      apply sublist_app; [apply sublist_drop|done].
    + rewrite H3, Ec. fold (pushes ops). cbn [app fmap list_fmap list_to_set]. set_solver.
  - destruct (IH (mkInbox (ib_max b) (drop n (ib_messages b)) (ib_channels b))) as (b2 & out & E & H0 & H1 & H2 & H3);
      [done|cbn; rewrite length_drop; lia|].
    cbn [inboxDrain]. rewrite E. cbn [mbind option_bind]. cbn [ib_max ib_messages ib_channels] in *.
    exists b2, (take n (ib_messages b) ++ out). split_and!; [done|done|done| |done].
    fold (pushes ops). cbn [app]. rewrite <- (app_assoc (take n _)).
    replace (ib_messages b ++ pushes ops) with (take n (ib_messages b) ++ (drop n (ib_messages b) ++ pushes ops))
      by (by rewrite app_assoc, take_drop).
    by apply sublist_app.
  - destruct (IH (inboxClear b)) as (b2 & out & -> & H0 & H1 & H2 & H3); [done|cbn; lia|].
    exists b2, out. split_and!; [done|done|done| |done]. cbn in H2. etransitivity; [exact H2|].
    by apply sublist_inserts_l.
Qed.

(** An inbox of at least one message never fails, over any pushes, drains and clears: it
    holds at most its maximum, what is drained and what is left are pushed messages in their
    order without duplicates of a push, a push into an inbox that is not full loses nothing,
    and every channel seen is remembered. *)
Theorem inbox_fifo max ops :
  (1 ≤ max)%nat →
  ∃ b out, inboxRun (makeInbox max) ops = Some (b, out) ∧
    (length (ib_messages b) ≤ max)%nat ∧ sublist (out ++ ib_messages b) (pushes ops) ∧
    ib_channels b = list_to_set (im_channelId <$> pushes ops) ∧
    ∀ m, (length (ib_messages b) < max)%nat →
      ∃ b', inboxPush b m = Some (b', m) ∧ ib_messages b' = ib_messages b ++ [m].
Proof.
  intros Hm. destruct (inboxRun_spec ops (makeInbox max)) as (b & out & E & Emax & H1 & H2 & H3); [done|cbn; lia|].
  exists b, out. split_and!; [done|done|done| |].
  - rewrite H3. cbn. set_solver.
  - intros m Hlt. cbn in Emax. unfold inboxPush. rewrite Emax, length_app. cbn [length].
    rewrite decide_False by lia. rewrite last_snoc. cbn [mbind option_bind]. by eexists.
Qed.

(** ** The event router *)

Inductive RouterOp (H : Type) :=
| RoOn (eventType : Z) (h : H)
| RoIngest (n : SpatialNotification) (payload : EventPayloadView) (fromServer : bool) (now : Z).
Arguments RoOn {H} _ _.
Arguments RoIngest {H} _ _ _ _.

(** The router and the handler calls, in order. *)
Fixpoint routerRun {H} (r : EventRouter H) (ops : list (RouterOp H)) : EventRouter H * list (H * RouterEvent) :=
  match ops with
  | [] => (r, [])
  | RoOn t h :: ops => routerRun (routerOn r t h) ops
  | RoIngest n p s now :: ops =>
      let '(r, call) := routerIngest r n p s now in
      let '(r, calls) := routerRun r ops in
      (r, match call with Some c => c :: calls | None => calls end)
  end.

(** The specification, op by op over the whole history: who handles a type, what was last seen. *)
Definition eventOf (n : SpatialNotification) (p : EventPayloadView) (s : bool) (now : Z) : RouterEvent :=
  mkRouterEvent (e_eventType p) s (uuidArray n) (sn_chunk n) (e_state p) (sn_epochMillis n) now.
Definition handlerOf {H} (ops : list (RouterOp H)) (t : Z) : option H :=
  foldl (λ acc op, match op with RoOn t' h => if decide (t' = t) then Some h else acc | _ => acc end) None ops.
Definition lastSeen {H} (ops : list (RouterOp H)) (t : Z) : option RouterEvent :=
  foldl (λ acc op, match op with
    | RoIngest n p s now => if decide (e_eventType p = t) then Some (eventOf n p s now) else acc
    | _ => acc end) None ops.

Lemma routerRun_snoc {H} (ops : list (RouterOp H)) op r :
  routerRun r (ops ++ [op]) =
    let '(r1, calls) := routerRun r ops in
    match op with
    | RoOn t h => (routerOn r1 t h, calls)
    | RoIngest n p s now =>
        let '(r2, call) := routerIngest r1 n p s now in
        (r2, match call with Some c => calls ++ [c] | None => calls end)
    end.
Proof.
  revert r. induction ops as [|[t h|n p s now] ops IH]; intros r; cbn [app routerRun].
  - destruct op as [t h|n p s now]; [done|]. destruct (routerIngest r n p s now) as [r2 [c|]]; done.
  - rewrite IH. by destruct (routerRun (routerOn r t h) ops).
  - destruct (routerIngest r n p s now) as [r2 call]. rewrite IH.
    destruct (routerRun r2 ops) as [r3 calls], op as [t h|n' p' s' now']; [done|].
    destruct (routerIngest r3 n' p' s' now') as [r4 [c|]]; [|done]. by destruct call.
Qed.

(** After any registrations and events the router knows, per event type, the last handler
    registered and the last event seen, and the next event calls exactly the handler of its
    type, once, with the event as stored. *)
Theorem eventRouter_dispatch {H} (ops : list (RouterOp H)) n p s now :
  let r := (routerRun (mkEventRouter ∅ ∅) ops).1 in
  (∀ t, lastEvent r t = lastSeen ops t) ∧ (∀ t, er_handlers r !! t = handlerOf ops t) ∧
  (routerRun (mkEventRouter ∅ ∅) (ops ++ [RoIngest n p s now])).2 =
    (routerRun (mkEventRouter ∅ ∅) ops).2 ++
    match handlerOf ops (e_eventType p) with Some h => [(h, eventOf n p s now)] | None => [] end.
Proof.
  assert (∀ ops : list (RouterOp H), let r := (routerRun (mkEventRouter ∅ ∅) ops).1 in
    (∀ t, lastEvent r t = lastSeen ops t) ∧ (∀ t, er_handlers r !! t = handlerOf ops t)) as Hspec.
  { clear. intros ops. induction ops as [|op ops [IH1 IH2]] using rev_ind; [split; intros; apply lookup_empty|].
    unfold lastSeen, handlerOf in *. cbn zeta in *. setoid_rewrite foldl_app. setoid_rewrite routerRun_snoc.
    destruct (routerRun (mkEventRouter ∅ ∅) ops) as [r1 calls]. cbn [fst] in IH1, IH2.
    destruct op as [t h|n p s now]; cbn [foldl]; split; intros t'; cbn [fst routerOn routerIngest].
    - apply IH1.
    - unfold routerOn. cbn [er_handlers]. case_decide as Ht; [subst; apply lookup_insert_eq|].
      rewrite lookup_insert_ne by done. apply IH2.
    - unfold lastEvent. cbn [er_last ev_eventType].
      case_decide as Ht; [subst; apply lookup_insert_eq|]. rewrite lookup_insert_ne by done. apply IH1.
    - apply IH2. }
  intros r. destruct (Hspec ops) as [H1 H2]. split_and!; [done|done|].
  rewrite routerRun_snoc. fold r in H1, H2. unfold r in *. clear r.
  destruct (routerRun (mkEventRouter ∅ ∅) ops) as [r1 calls]. cbn [fst snd] in *.
  unfold routerIngest. cbn [ev_eventType]. rewrite H2.
  destruct (handlerOf ops (e_eventType p)) as [h|]; cbn [mbind option_bind snd]; [done|]. by rewrite app_nil_r.
Qed.

(** ** Concrete runs *)

Definition demoSelf : bytes := replicate 32 97.
Definition demoLocalOptions : LocalOptions := mkLocalOptions 5 3000 2000 8 DecayRate_Exponential.
Definition demoConn : TestConnection := mkTestConnection 254 0 [] 0 [].

(** A busy socket after the join, an unsent change, and the retry. *)
Definition demoLocalOps : list LocalOp :=
  [LJoin (mkChunk 0 0 0) [1; 2]; LTick 3100; LSetState [3]; LTick 3150; LTick 3300; LTick 5400; LAckOp 0 1 [3] 5450].

Example demo_local_run :
  let '(s, c) := localRun (makeLocalActorStore demoSelf demoLocalOptions) demoConn demoLocalOps in
  (ss_payload <$> tc_sent c, tc_beats c, la_lastSequence s, status s) =
  ([[1; 2]; [1; 2]; [3]], 1%nat, Some 0, LAcked).
Proof. vm_compute. reflexivity. Qed.

(** [moveTo] stamps its update with the time of the previous send, so an older echo counts as
    its acknowledgement. *)
Example moveTo_acked_by_older_echo :
  let '(s, c) := localRun (makeLocalActorStore demoSelf demoLocalOptions) demoConn
    [LJoin (mkChunk 0 0 0) [1]; LTick 3100; LAckOp 255 1 [1] 3150; LMove (mkChunk 1 0 0)] in
  (status s, la_lastSequence s, ack_sequence <$> la_lastAck s, length (tc_sent c)) = (LAcked, Some 0, Some 255, 3%nat).
Proof. vm_compute. reflexivity. Qed.

(** An inbox that retains nothing reads the back of an empty deque on its first message. *)
Example inbox_of_zero : inboxPush (makeInbox 0) (mkInboxMessage 1 demoSelf [] 0 0) = None.
Proof. reflexivity. Qed.

Lemma localActor_send_loop_witness :
  let '(s, c) := localRun (makeLocalActorStore demoSelf demoLocalOptions) (mkLogged demoConn []) demoLocalOps in
  la_dirty s = false ∧ ss_payload <$> lastLeft (lg_log c) = Some [3].
Proof.
  pose proof (localActor_send_loop demoSelf demoLocalOptions demoConn demoLocalOps 9000) as Hl.
  assert (let '(s, _) := localRun (makeLocalActorStore demoSelf demoLocalOptions) (mkLogged demoConn []) demoLocalOps in
    la_dirty s = false ∧ la_joined s = true) as Hd by (vm_compute; done).
  destruct (localRun (makeLocalActorStore demoSelf demoLocalOptions) (mkLogged demoConn []) demoLocalOps) as [s c].
  destruct Hd as [Hd Hj]. split; [exact Hd|]. destruct (proj1 Hl Hd) as [->|[_ Hn]]; [reflexivity|congruence].
Defined.
