(* ===== verification/ChunkStore.v ===== *)
(** * The chunk store

    [include/crowdy/session/chunk_store.hpp] and its part of [src/session/world_session.cpp]: a
    cache of 16^3 voxel chunks that is hydrated from a durable source, edited optimistically,
    merged with the edits the server delivers and written back with retries. The connection is
    the [Sender] interface, the durable store the [ChunkSource] interface. The
    [unordered_map]s are finite maps; where their iteration order shows ([flush], [tick],
    [pruneBeyond]) it is an argument. A callback cannot call back into the store here. *)

From S2P Require Import Prelude Bytes Protocol Codec Keys Types.

Open Scope Z_scope.

Record VoxelState := mkVoxelState { vs_voxelType : Z; vs_state : bytes }.
Record OverlayVoxel := mkOverlayVoxel { ov_x : Z; ov_y : Z; ov_z : Z; ov_voxel : VoxelState }.

Definition voxelKey (x y z : Z) : Z :=
  Z.lor (Z.lor (u64 (Z.shiftl (u16 x) 32)) (u64 (Z.shiftl (u16 y) 16))) (u16 z).

Record ChunkData := mkChunkData {
  cd_coord : ChunkCoord; cd_voxels : list Z; cd_voxelStates : gmap Z VoxelState;
  cd_overlay : gmap Z OverlayVoxel; cd_storedOnServer : bool; cd_dirty : bool; cd_hydratedAtMs : Z }.

Definition newChunk : ChunkData :=
  mkChunkData (mkChunk 0 0 0) (replicate (Z.to_nat kChunkVolume) 0) ∅ ∅ false false 0.

(** ** The durable source and its outcomes *)

Inductive GraphQLErrorKind := GNone | GHttp | GGraphQL | GProtocol | GNetwork | GTimeout | GCancelled.

#[global] Instance GraphQLErrorKind_eq_dec : EqDecision GraphQLErrorKind.
Proof. solve_decision. Defined.

(** The fields of [GraphQLErrorDetail] the store reads. *)
Record GraphQLErrorDetail := mkErrorDetail { gd_code : string; gd_retryable : bool; gd_httpStatus : option Z }.
Record GraphQLOutcome := mkOutcome {
  go_status : Status; go_kind : GraphQLErrorKind; go_errors : list GraphQLErrorDetail; go_httpStatus : Z }.

Definition outcomeOk (o : GraphQLOutcome) : bool := ok (go_status o) && bool_decide (go_kind o = GNone).

Record StoredVoxelState := mkStoredVoxelState {
  sv_x : Z; sv_y : Z; sv_z : Z; sv_voxelType : Z; sv_state : bytes }.
Record StoredChunk := mkStoredChunk {
  sc_coord : ChunkCoord; sc_voxels : bytes; sc_voxelStates : list StoredVoxelState }.

Class ChunkSource (W : Type) := {
  chunksAround : W → ChunkCoord → Z → W * list StoredChunk;
  writeChunk : W → ChunkCoord → bytes → W * GraphQLOutcome;
}.

Inductive ChunkWriteBackDrop := Refused | Exhausted.

Record ChunkWriteBackFailure := mkWriteBackFailure {
  wf_coord : ChunkCoord; wf_reason : ChunkWriteBackDrop; wf_attempts : Z; wf_error : GraphQLOutcome }.

Definition isWriteBackRefusalCode (code : string) : bool :=
  existsb (String.eqb code) ["FORBIDDEN"; "SCOPE_MISSING"; "NOT_ALLOWED"; "BAD_REQUEST"; "BAD_USER_INPUT";
    "INVALID_REQUEST"; "GRAPHQL_VALIDATION_FAILED"; "NOT_FOUND"]%string.

Definition isWriteBackRefusalStatus (status : Z) : bool :=
  (status =? 400) || (status =? 403) || (status =? 404) || (status =? 413) || (status =? 422).

(** The loop over the GraphQL errors. *)
Fixpoint errorsRetryable (errors : list GraphQLErrorDetail) : bool :=
  match errors with
  | [] => true
  | e :: errors =>
      if String.eqb (gd_code e) "PLATFORM_BUSY" || String.eqb (gd_code e) "UNAUTHENTICATED"
      then errorsRetryable errors else
      if negb (gd_retryable e) then false else
      if isWriteBackRefusalCode (gd_code e) then false else
      if match gd_httpStatus e with Some st => isWriteBackRefusalStatus st | None => false end then false
      else errorsRetryable errors
  end.

Definition writeBackRetryable (o : GraphQLOutcome) : bool :=
  match go_kind o with
  | GNetwork | GTimeout | GProtocol => true
  | GHttp => negb (isWriteBackRefusalStatus (go_httpStatus o))
  | GCancelled => false
  | GGraphQL => errorsRetryable (go_errors o)
  | GNone => true
  end.

(** ** The store *)

Record ChunkOptions := mkChunkOptions {
  co_writeBackIntervalMs : Z; co_voxelSendDistance : Z; co_writeBackAttempts : Z; co_writeBackBackoffMs : Z }.

Definition kPendingEditTtlMs : Z := 10000.

Record PendingEdit := mkPendingEdit { pe_uuid : bytes; pe_sequence : Z; pe_sentAtMs : Z; pe_stale : bool }.

Record ChunkStore := mkChunkStore {
  cs_options : ChunkOptions; cs_hasSource : bool;
  cs_chunks : gmap ChunkCoord ChunkData;
  cs_writeBackAttempts : gmap ChunkCoord Z; cs_writeBackDueAt : gmap ChunkCoord Z;
  cs_lastWriteBackMs : Z; cs_lastTickMs : Z;
  cs_pending : gmap ChunkCoord (gmap Z (list PendingEdit));
  cs_revision : Z; cs_pendingWriteBacks : Z }.

Definition makeChunkStore (options : ChunkOptions) (hasSource : bool) : ChunkStore :=
  mkChunkStore options hasSource ∅ ∅ ∅ 0 0 ∅ 0 0.

Definition withChunks (s : ChunkStore) (m : gmap ChunkCoord ChunkData) (pendingWriteBacks : Z) : ChunkStore :=
  mkChunkStore (cs_options s) (cs_hasSource s) m (cs_writeBackAttempts s) (cs_writeBackDueAt s)
    (cs_lastWriteBackMs s) (cs_lastTickMs s) (cs_pending s) (cs_revision s) pendingWriteBacks.
Definition withPending (s : ChunkStore) (p : gmap ChunkCoord (gmap Z (list PendingEdit))) : ChunkStore :=
  mkChunkStore (cs_options s) (cs_hasSource s) (cs_chunks s) (cs_writeBackAttempts s) (cs_writeBackDueAt s)
    (cs_lastWriteBackMs s) (cs_lastTickMs s) p (cs_revision s) (cs_pendingWriteBacks s).
Definition withRetries (s : ChunkStore) (attempts dueAt : gmap ChunkCoord Z) : ChunkStore :=
  mkChunkStore (cs_options s) (cs_hasSource s) (cs_chunks s) attempts dueAt
    (cs_lastWriteBackMs s) (cs_lastTickMs s) (cs_pending s) (cs_revision s) (cs_pendingWriteBacks s).
Definition withTimes (s : ChunkStore) (lastWriteBack lastTick : Z) : ChunkStore :=
  mkChunkStore (cs_options s) (cs_hasSource s) (cs_chunks s) (cs_writeBackAttempts s) (cs_writeBackDueAt s)
    lastWriteBack lastTick (cs_pending s) (cs_revision s) (cs_pendingWriteBacks s).

(** [touch]: the revision (the callback gets the chunk). *)
Definition touch (s : ChunkStore) : ChunkStore :=
  mkChunkStore (cs_options s) (cs_hasSource s) (cs_chunks s) (cs_writeBackAttempts s) (cs_writeBackDueAt s)
    (cs_lastWriteBackMs s) (cs_lastTickMs s) (cs_pending s) (u64 (cs_revision s + 1)) (cs_pendingWriteBacks s).

Definition chunkAt (s : ChunkStore) (coord : ChunkCoord) : ChunkData := default newChunk (cs_chunks s !! coord).

Definition withDirty (c : ChunkData) (dirty : bool) : ChunkData :=
  mkChunkData (cd_coord c) (cd_voxels c) (cd_voxelStates c) (cd_overlay c) (cd_storedOnServer c) dirty (cd_hydratedAtMs c).

(** [setDirty] on the chunk [c], which is stored back under [coord]. *)
Definition setDirty (s : ChunkStore) (coord : ChunkCoord) (c : ChunkData) (dirty : bool) : ChunkStore :=
  if Bool.eqb (cd_dirty c) dirty then withChunks s (<[coord := c]> (cs_chunks s)) (cs_pendingWriteBacks s) else
  withChunks s (<[coord := withDirty c dirty]> (cs_chunks s))
    (u64 (cs_pendingWriteBacks s + (if dirty then 1 else -1))).

(** ** Voxels *)

Definition fitsInt16 (v : Z) : bool := (-32768 <=? v) && (v <=? 32767).
Definition inGrid (x y z : Z) : bool :=
  (0 <=? x) && (x <? kChunkSize) && (0 <=? y) && (y <? kChunkSize) && (0 <=? z) && (z <? kChunkSize).
Definition fitsDenseGrid (x y z voxelType : Z) : bool := inGrid x y z && (0 <=? voxelType) && (voxelType <=? 255).

Definition overlayAt (c : ChunkData) (x y z : Z) : option OverlayVoxel :=
  if bool_decide (cd_overlay c = ∅) || negb (fitsInt16 x) || negb (fitsInt16 y) || negb (fitsInt16 z) then None
  else cd_overlay c !! voxelKey (i16 x) (i16 y) (i16 z).

Definition voxelTypeAt (s : ChunkStore) (coord : ChunkCoord) (x y z : Z) : option Z :=
  match cs_chunks s !! coord with
  | None => Some 0
  | Some c =>
      match overlayAt c x y z with
      | Some wide => Some (vs_voxelType (ov_voxel wide))
      | None => if negb (inGrid x y z) then Some 0 else cd_voxels c !! Z.to_nat (voxelIndex x y z)
      end
  end.

Definition voxelStateAt (s : ChunkStore) (coord : ChunkCoord) (x y z : Z) : option VoxelState :=
  match cs_chunks s !! coord with
  | None => None
  | Some c =>
      match overlayAt c x y z with
      | Some wide => if bool_decide (vs_state (ov_voxel wide) = []) then None else Some (ov_voxel wide)
      | None => if negb (inGrid x y z) then None else cd_voxelStates c !! voxelIndex x y z
      end
  end.

Definition putVoxel (c : ChunkData) (x y z voxelType : Z) (state : bytes) : ChunkData :=
  let key := voxelKey (i16 x) (i16 y) (i16 z) in
  let index := voxelIndex x y z in
  if fitsDenseGrid x y z voxelType then
    mkChunkData (cd_coord c) (<[Z.to_nat index := u8 voxelType]> (cd_voxels c))
      (if bool_decide (state = []) then delete index (cd_voxelStates c)
       else <[index := mkVoxelState voxelType state]> (cd_voxelStates c))
      (delete key (cd_overlay c)) (cd_storedOnServer c) (cd_dirty c) (cd_hydratedAtMs c)
  else
    mkChunkData (cd_coord c)
      (if inGrid x y z then <[Z.to_nat index := 0]> (cd_voxels c) else cd_voxels c)
      (if inGrid x y z then delete index (cd_voxelStates c) else cd_voxelStates c)
      (<[key := mkOverlayVoxel (i16 x) (i16 y) (i16 z) (mkVoxelState voxelType state)]> (cd_overlay c))
      (cd_storedOnServer c) (cd_dirty c) (cd_hydratedAtMs c).

Definition withCoord (c : ChunkData) (coord : ChunkCoord) : ChunkData :=
  mkChunkData coord (cd_voxels c) (cd_voxelStates c) (cd_overlay c) (cd_storedOnServer c) (cd_dirty c) (cd_hydratedAtMs c).

Definition applyLocal (s : ChunkStore) (coord : ChunkCoord) (x y z voxelType : Z) (state : bytes)
    (shouldMarkDirty : bool) : ChunkStore :=
  let c := putVoxel (withCoord (chunkAt s coord) coord) x y z voxelType state in
  touch (setDirty s coord c
    (if shouldMarkDirty && (0 <? co_writeBackIntervalMs (cs_options s)) then true else cd_dirty c)).

Definition markDirty (s : ChunkStore) (coord : ChunkCoord) : ChunkStore :=
  match cs_chunks s !! coord with
  | Some c =>
      if (0 <? co_writeBackIntervalMs (cs_options s)) && negb (cd_dirty c)
      then touch (setDirty s coord c true) else s
  | None => s
  end.

Definition insertGenerated (s : ChunkStore) (coord : ChunkCoord) (voxels : list Z) : ChunkStore :=
  let c := chunkAt s coord in
  let c := mkChunkData coord voxels (cd_voxelStates c) (cd_overlay c) false (cd_dirty c) (cd_hydratedAtMs c) in
  touch (setDirty s coord c (0 <? co_writeBackIntervalMs (cs_options s))).

(** ** Edits waiting for their echo *)

(** [livePending]: expired edits dropped, empty entries erased; the edits that are left. *)
Definition livePending (s : ChunkStore) (coord : ChunkCoord) (key now : Z) : ChunkStore * option (list PendingEdit) :=
  match cs_pending s !! coord with
  | None => (s, None)
  | Some chunk =>
      match chunk !! key with
      | None => (s, None)
      | Some edits =>
          let cutoff := now - kPendingEditTtlMs in
          let edits := filter (λ e, ¬ pe_sentAtMs e < cutoff) edits in
          if bool_decide (edits = []) then
            let chunk := delete key chunk in
            (withPending s (if bool_decide (chunk = ∅) then delete coord (cs_pending s)
                            else <[coord := chunk]> (cs_pending s)), None)
          else (withPending s (<[coord := <[key := edits]> chunk]> (cs_pending s)), Some edits)
      end
  end.

(** [pending_[coord][key] = edits]. *)
Definition storePending (s : ChunkStore) (coord : ChunkCoord) (key : Z) (edits : list PendingEdit) : ChunkStore :=
  withPending s (<[coord := <[key := edits]> (default ∅ (cs_pending s !! coord))]> (cs_pending s)).

Definition pendingEdits (s : ChunkStore) (coord : ChunkCoord) (key : Z) : list PendingEdit :=
  default [] (default ∅ (cs_pending s !! coord) !! key).

Definition rememberEdit (s : ChunkStore) (coord : ChunkCoord) (key now : Z) (edit : PendingEdit) : ChunkStore :=
  let s := (livePending s coord key now).1 in
  storePending s coord key (pendingEdits s coord key ++ [edit]).

(** The echo of an edit: its index in the list. *)
Definition isEcho (sequence : Z) (sender : bytes) (e : PendingEdit) : bool :=
  (pe_sequence e =? sequence) && bool_decide (pe_uuid e = sender).

Definition takeEcho (s : ChunkStore) (n : SpatialNotification) (v : VoxelPayloadView) (now : Z) : ChunkStore * bool :=
  let key := voxelKey (vx v) (vy v) (vz v) in
  let '(s, live) := livePending s (sn_chunk n) key now in
  match live with
  | None => (s, true)
  | Some edits =>
      match list_find (λ e, isEcho (sn_sequence n) (uuidArray n) e = true) edits with
      | None =>
          (storePending s (sn_chunk n) key
             ((λ e, mkPendingEdit (pe_uuid e) (pe_sequence e) (pe_sentAtMs e) true) <$> edits), true)
      | Some (i, echoed) =>
          let newerLocalEdit := bool_decide (S i ≠ length edits) in
          let s := storePending s (sn_chunk n) key (delete i edits) in
          ((livePending s (sn_chunk n) key now).1, pe_stale echoed && negb newerLocalEdit)
      end
  end.

(** [ingest]: whether it changed the cache. *)
Definition ingestVoxel (s : ChunkStore) (n : SpatialNotification) (v : VoxelPayloadView) (now : Z) : ChunkStore * bool :=
  let '(s, apply) := takeEcho s n v now in
  if negb apply then (s, false) else
  (applyLocal s (sn_chunk n) (vx v) (vy v) (vz v) (v_voxelType v) (v_state v) false, true).

Section Store.
Context {C : Type} `{Sender C} {W : Type} `{ChunkSource W}.

Definition setVoxel (s : ChunkStore) (conn : C) (coord : ChunkCoord) (x y z voxelType : Z) (state uuid : bytes)
    (optimistic : bool) (now : Z) : ChunkStore * C * Result Z :=
  if negb (fitsInt16 x) || negb (fitsInt16 y) || negb (fitsInt16 z) then (s, conn, Err InvalidArgument) else
  if decide (voxel_kMaxStateSize < length state)%nat then (s, conn, Err InvalidArgument) else
  let s := if optimistic then applyLocal s coord x y z voxelType state true else s in
  let '(conn, seq) := sendVoxelUpdate conn coord uuid
    (Build_VoxelPayloadView (i16 x) (i16 y) (i16 z) voxelType state) (co_voxelSendDistance (cs_options s)) in
  match seq with
  | Val q => (rememberEdit s coord (voxelKey (i16 x) (i16 y) (i16 z)) now
                (mkPendingEdit uuid q now (negb optimistic)), conn, seq)
  | Err _ => (s, conn, seq)
  end.

(** ** Hydration *)

Definition hydrateEntry (c : ChunkData) (e : StoredVoxelState) : ChunkData :=
  if negb (fitsInt16 (sv_x e)) || negb (fitsInt16 (sv_y e)) || negb (fitsInt16 (sv_z e)) then c
  else putVoxel c (sv_x e) (sv_y e) (sv_z e) (sv_voxelType e) (sv_state e).

Definition hydrateChunk (s : ChunkStore) (now : Z) (k : StoredChunk) : ChunkStore :=
  let c := chunkAt s (sc_coord k) in
  let c := mkChunkData (sc_coord k)
    (if decide (length (sc_voxels k) = length (cd_voxels c)) then sc_voxels k else cd_voxels c)
    (cd_voxelStates c) (cd_overlay c) true (cd_dirty c) now in
  let c := foldl hydrateEntry c (sc_voxelStates k) in
  touch (withChunks s (<[sc_coord k := c]> (cs_chunks s)) (cs_pendingWriteBacks s)).

Definition ensureAround (s : ChunkStore) (w : W) (center : ChunkCoord) (distance now : Z) : ChunkStore * W * nat :=
  if negb (cs_hasSource s) then (s, w, 0%nat) else
  let distance := if distance <? 1 then 1 else distance in
  let distance := if 8 <? distance then 8 else distance in
  let '(w, stored) := chunksAround w center distance in
  (foldl (λ s k, hydrateChunk s now k) s stored, w, length stored).

(** ** Write-back *)

Inductive WriteBack := WbPersisted | WbRetry | WbDropped.

(** [backoff << n] in a signed 64-bit register; a shift by 64 or more is undefined behaviour. *)
Definition shl64 (b n : Z) : option Z := if decide (0 ≤ n < 64) then Some (i64 (Z.shiftl b n)) else UB.

Definition forgetWriteBack (s : ChunkStore) (coord : ChunkCoord) : ChunkStore :=
  withRetries s (delete coord (cs_writeBackAttempts s)) (delete coord (cs_writeBackDueAt s)).

Definition withStored (c : ChunkData) : ChunkData :=
  mkChunkData (cd_coord c) (cd_voxels c) (cd_voxelStates c) (cd_overlay c) true (cd_dirty c) (cd_hydratedAtMs c).

(** One attempt for the chunk [c] held under [coord]; the failure reported when it is dropped.
    Times are integers without a bound: that [now + wait] can overflow 64 bits, for a backoff whose
    doublings come near them, is not modelled. *)
Definition attemptWriteBack (s : ChunkStore) (w : W) (coord : ChunkCoord) (c : ChunkData) (now : Z)
    : option (ChunkStore * W * WriteBack * option ChunkWriteBackFailure) :=
  let '(w, out) := writeChunk w (cd_coord c) (cd_voxels c) in
  if outcomeOk out then
    let s := forgetWriteBack s (cd_coord c) in
    Some (touch (setDirty s coord (withStored c) false), w, WbPersisted, None)
  else
    let attempts := default 0 (cs_writeBackAttempts s !! cd_coord c) + 1 in
    let retryable := writeBackRetryable out in
    if retryable && (attempts <? co_writeBackAttempts (cs_options s)) then
      wait ← shl64 (co_writeBackBackoffMs (cs_options s)) (attempts - 1);
      Some (withRetries s (<[cd_coord c := attempts]> (cs_writeBackAttempts s))
              (<[cd_coord c := now + wait]> (cs_writeBackDueAt s)), w, WbRetry, None)
    else
      let s := forgetWriteBack s (cd_coord c) in
      Some (setDirty s coord c false, w, WbDropped,
        Some (mkWriteBackFailure (cd_coord c) (if retryable then Exhausted else Refused) attempts out)).

(** What [flush] did so far: persisted, dropped, and the waits it slept. *)
Record FlushResult := mkFlushResult { fr_persisted : nat; fr_dropped : list ChunkWriteBackFailure; fr_waits : list Z }.

(** The [for (;;)] of [flush] for one chunk; [None] also when [fuel] turns were not enough. *)
Fixpoint flushChunk (fuel : nat) (s : ChunkStore) (w : W) (coord : ChunkCoord) (r : FlushResult)
    : option (ChunkStore * W * FlushResult) :=
  match fuel with
  | O => None
  | S fuel =>
      match cs_chunks s !! coord with
      | None => Some (s, w, r)
      | Some c =>
          if negb (cd_dirty c) then Some (s, w, r) else
          waits ← match cs_writeBackAttempts s !! coord with
                  | Some k => if 0 <? k then wait ← shl64 (co_writeBackBackoffMs (cs_options s)) (k - 1); Some [wait]
                              else Some []
                  | None => Some []
                  end;
          '(s, w, done, failure) ← attemptWriteBack s w coord c (cs_lastTickMs s);
          let r := mkFlushResult (match done with WbPersisted => S (fr_persisted r) | _ => fr_persisted r end)
            (fr_dropped r ++ option_list failure) (fr_waits r ++ waits) in
          match done with
          | WbRetry => flushChunk fuel s w coord r
          | _ => Some (s, w, r)
          end
      end
  end.

Fixpoint flushAll (s : ChunkStore) (w : W) (dirty : list ChunkCoord) (r : FlushResult)
    : option (ChunkStore * W * FlushResult) :=
  match dirty with
  | [] => Some (s, w, r)
  | coord :: dirty =>
      '(s, w, r) ← flushChunk (Z.to_nat (co_writeBackAttempts (cs_options s)) + 1) s w coord r;
      flushAll s w dirty r
  end.

Definition dirtyCoords (order : list ChunkCoord) (s : ChunkStore) : list ChunkCoord :=
  filter (λ k, match cs_chunks s !! k with Some c => cd_dirty c | None => false end = true) order.

Definition flush (order : gmap ChunkCoord ChunkData → list ChunkCoord) (s : ChunkStore) (w : W)
    : option (ChunkStore * W * FlushResult) :=
  if negb (cs_hasSource s) then Some (s, w, mkFlushResult 0 [] []) else
  flushAll s w (dirtyCoords (order (cs_chunks s)) s) (mkFlushResult 0 [] []).

(** The first dirty chunk that is due, in iteration order. *)
Definition dueChunk (s : ChunkStore) (now : Z) (order : list ChunkCoord) : option (ChunkCoord * ChunkData) :=
  coord ← find (λ k, match cs_chunks s !! k with
    | Some c => cd_dirty c && negb (match cs_writeBackDueAt s !! k with Some t => now <? t | None => false end)
    | None => false end) order;
  c ← cs_chunks s !! coord; Some (coord, c).

Definition chunkTick (order : gmap ChunkCoord ChunkData → list ChunkCoord) (s : ChunkStore) (w : W) (now : Z)
    : option (ChunkStore * W * option WriteBack) :=
  let s := withTimes s (cs_lastWriteBackMs s) now in
  if negb (cs_hasSource s) || (co_writeBackIntervalMs (cs_options s) <=? 0) then Some (s, w, None) else
  if now - cs_lastWriteBackMs s <? co_writeBackIntervalMs (cs_options s) then Some (s, w, None) else
  match dueChunk s now (order (cs_chunks s)) with
  | None => Some (s, w, None)
  | Some (coord, c) =>
      '(s, w, done, _) ← attemptWriteBack (withTimes s now now) w coord c now; Some (s, w, Some done)
  end.

(** Erasing a chunk that is still held; 1 when it was. *)
Definition evictChunk (s : ChunkStore) (coord : ChunkCoord) : ChunkStore * nat :=
  match cs_chunks s !! coord with
  | None => (s, 0%nat)
  | Some c =>
      let s := if cd_dirty c then setDirty s coord c false else s in
      let s := forgetWriteBack s coord in
      let s := withPending s (delete coord (cs_pending s)) in
      let s := withChunks s (delete coord (cs_chunks s)) (cs_pendingWriteBacks s) in
      (touch s, 1%nat)
  end.

(** One distant chunk of [pruneBeyond]. *)
Definition pruneChunk (s : ChunkStore) (w : W) (coord : ChunkCoord) : option (ChunkStore * W * nat) :=
  match cs_chunks s !! coord with
  | None => Some (s, w, 0%nat)
  | Some c =>
      if cd_dirty c && cs_hasSource s then
        '(s, w, done, _) ← attemptWriteBack s w coord c (cs_lastTickMs s);
        match done with
        | WbRetry => Some (s, w, 0%nat)
        | _ => let '(s, n) := evictChunk s coord in Some (s, w, n)
        end
      else let '(s, n) := evictChunk s coord in Some (s, w, n)
  end.

Fixpoint pruneAll (s : ChunkStore) (w : W) (coords : list ChunkCoord) : option (ChunkStore * W * nat) :=
  match coords with
  | [] => Some (s, w, 0%nat)
  | coord :: coords =>
      '(s, w, n) ← pruneChunk s w coord; '(s, w, m) ← pruneAll s w coords; Some (s, w, (n + m)%nat)
  end.

(** The chunks farther than [distance]. *)
Fixpoint distantCoords (center : ChunkCoord) (distance : Z) (order : list ChunkCoord) : option (list ChunkCoord) :=
  match order with
  | [] => Some []
  | k :: order => d ← chebyshev k center; ks ← distantCoords center distance order;
                  Some (if distance <? d then k :: ks else ks)
  end.

Definition pruneBeyond (order : gmap ChunkCoord ChunkData → list ChunkCoord) (s : ChunkStore) (w : W)
    (center : ChunkCoord) (distance : Z) : option (ChunkStore * W * nat) :=
  distant ← distantCoords center distance (order (cs_chunks s)); pruneAll s w distant.

End Store.

(** ** Proofs: voxels *)

Lemma fitsInt16_in_s v : fitsInt16 v = true ↔ in_s 16 v.
Proof. unfold fitsInt16, in_s. rewrite andb_true_iff, !Z.leb_le. lia. Qed.

Lemma inGrid_spec x y z :
  inGrid x y z = true ↔ (0 ≤ x < 16 ∧ 0 ≤ y < 16 ∧ 0 ≤ z < 16).
Proof. unfold inGrid, kChunkSize. rewrite !andb_true_iff, !Z.leb_le, !Z.ltb_lt. lia. Qed.

Lemma inGrid_fits x y z : inGrid x y z = true → in_s 16 x ∧ in_s 16 y ∧ in_s 16 z.
Proof. rewrite inGrid_spec. unfold in_s. lia. Qed.

(** A multiple of [2^k] has no bit in common with a number below it. *)
Lemma shifted_disjoint a b k : 0 ≤ k → 0 ≤ b < 2 ^ k → (2 ^ k | a) → Z.land a b = 0.
Proof.
  intros Hk Hb [q ->]. rewrite <- Z.shiftl_mul_pow2 by lia. apply Z.bits_inj'. intros n Hn.
  rewrite Z.land_spec, Z.bits_0, Z.shiftl_spec by lia.
  destruct (Z.ltb_spec n k); [by rewrite (Z.testbit_neg_r q) by lia|].
  rewrite <- (Z.mod_small b (2 ^ k)) by lia. rewrite Z.mod_pow2_bits_high by lia. by rewrite andb_false_r.
Qed.

(** The key is the base-2^16 number of the three coordinates. *)
Lemma voxelKey_sum x y z : voxelKey x y z = u16 x * 2 ^ 32 + u16 y * 2 ^ 16 + u16 z.
Proof.
  unfold voxelKey.
  pose proof (wrapU_range 16 x ltac:(lia)) as Hx. pose proof (wrapU_range 16 y ltac:(lia)) as Hy.
  pose proof (wrapU_range 16 z ltac:(lia)) as Hz. unfold in_u in *.
  set (a := u16 x) in *. set (b := u16 y) in *. set (c := u16 z) in *.
  rewrite !Z.shiftl_mul_pow2 by lia. rewrite !(wrapU_id 64) by (unfold in_u; lia).
  assert (Hd1 : Z.land (a * 2 ^ 32) (b * 2 ^ 16) = 0).
  { apply (shifted_disjoint _ _ 32); [lia..|]. by exists a. }
  assert (Hd2 : Z.land (Z.lor (a * 2 ^ 32) (b * 2 ^ 16)) c = 0).
  { apply (shifted_disjoint _ _ 16); [lia..|]. rewrite <- Z.lxor_lor, <- Z.add_nocarry_lxor by done.
    exists (a * 2 ^ 16 + b). lia. }
  rewrite <- (Z.lxor_lor _ _ Hd2), <- (Z.add_nocarry_lxor _ _ Hd2).
  by rewrite <- (Z.lxor_lor _ _ Hd1), <- (Z.add_nocarry_lxor _ _ Hd1).
Qed.

Lemma voxelKey_inj x y z x' y' z' :
  in_s 16 x → in_s 16 y → in_s 16 z → in_s 16 x' → in_s 16 y' → in_s 16 z' →
  voxelKey x y z = voxelKey x' y' z' → x = x' ∧ y = y' ∧ z = z'.
Proof.
  intros ?????? E. rewrite !voxelKey_sum in E.
  pose proof (wrapU_range 16 x ltac:(lia)). pose proof (wrapU_range 16 y ltac:(lia)).
  pose proof (wrapU_range 16 z ltac:(lia)). pose proof (wrapU_range 16 x' ltac:(lia)).
  pose proof (wrapU_range 16 y' ltac:(lia)). pose proof (wrapU_range 16 z' ltac:(lia)).
  unfold in_u in *.
  assert (u16 x = u16 x' ∧ u16 y = u16 y' ∧ u16 z = u16 z') as (? & ? & ?) by lia.
  split_and!; by apply (wrapU_inj_s 16).
Qed.

Lemma voxelIndex_bound x y z : inGrid x y z = true → 0 ≤ voxelIndex x y z < 4096.
Proof. rewrite inGrid_spec. unfold voxelIndex, kChunkSize. lia. Qed.

Lemma voxelIndex_inj x y z x' y' z' :
  inGrid x y z = true → inGrid x' y' z' = true → voxelIndex x y z = voxelIndex x' y' z' →
  x = x' ∧ y = y' ∧ z = z'.
Proof. rewrite !inGrid_spec. unfold voxelIndex, kChunkSize. lia. Qed.

(** Reading a chunk, as [voxelTypeAt] and [voxelStateAt] do once it is found. *)
Definition readType (c : ChunkData) (x y z : Z) : option Z :=
  match overlayAt c x y z with
  | Some wide => Some (vs_voxelType (ov_voxel wide))
  | None => if negb (inGrid x y z) then Some 0 else cd_voxels c !! Z.to_nat (voxelIndex x y z)
  end.
Definition readState (c : ChunkData) (x y z : Z) : option VoxelState :=
  match overlayAt c x y z with
  | Some wide => if bool_decide (vs_state (ov_voxel wide) = []) then None else Some (ov_voxel wide)
  | None => if negb (inGrid x y z) then None else cd_voxelStates c !! voxelIndex x y z
  end.

Lemma overlayAt_fits c x y z :
  in_s 16 x → in_s 16 y → in_s 16 z → overlayAt c x y z = cd_overlay c !! voxelKey x y z.
Proof.
  intros Hx Hy Hz. unfold overlayAt. rewrite !wrapS_id by (lia || done).
  apply fitsInt16_in_s in Hx as ->, Hy as ->, Hz as ->. cbn. rewrite !orb_false_r.
  case_bool_decide as E; [|done]. by rewrite E, lookup_empty.
Qed.

Lemma overlayAt_unfit c x y z :
  fitsInt16 x && fitsInt16 y && fitsInt16 z = false → overlayAt c x y z = None.
Proof.
  intros E. unfold overlayAt. destruct (fitsInt16 x), (fitsInt16 y), (fitsInt16 z); cbn in *; try done;
    by rewrite ?orb_true_r.
Qed.

Definition grid_ok (c : ChunkData) : Prop := length (cd_voxels c) = 4096%nat.

Lemma putVoxel_grid_ok c x y z t st : grid_ok c → grid_ok (putVoxel c x y z t st).
Proof. unfold grid_ok, putVoxel. intros. repeat case_match; cbn; by rewrite ?length_insert. Qed.

Lemma fitsDenseGrid_spec x y z t :
  fitsDenseGrid x y z t = inGrid x y z && bool_decide (0 ≤ t ≤ 255).
Proof.
  unfold fitsDenseGrid. rewrite <- andb_assoc. f_equal.
  apply eq_true_iff_eq. rewrite bool_decide_eq_true, andb_true_iff, !Z.leb_le. lia.
Qed.

(** The overlay after a write. *)
Lemma overlayAt_putVoxel c x y z t st x' y' z' :
  in_s 16 x → in_s 16 y → in_s 16 z →
  overlayAt (putVoxel c x y z t st) x' y' z' =
  if decide ((x', y', z') = (x, y, z))
  then if fitsDenseGrid x y z t then None else Some (mkOverlayVoxel x y z (mkVoxelState t st))
  else overlayAt c x' y' z'.
Proof.
  intros Hx Hy Hz. destruct (fitsInt16 x' && fitsInt16 y' && fitsInt16 z') eqn:Ef.
  - apply andb_true_iff in Ef as [[Hx' Hy']%andb_true_iff Hz'].
    apply fitsInt16_in_s in Hx', Hy', Hz'. rewrite !overlayAt_fits by done.
    unfold putVoxel. rewrite !(wrapS_id 16) by (lia || done).
    case_decide as E.
    + simplify_eq. case_match; cbn; by rewrite ?lookup_delete_eq, ?lookup_insert_eq.
    + assert (voxelKey x y z ≠ voxelKey x' y' z') as Hk
        by (intros (-> & -> & ->)%voxelKey_inj; done).
      case_match; cbn; by rewrite ?lookup_delete_ne, ?lookup_insert_ne.
  - rewrite !overlayAt_unfit by done. case_decide as E; [|done].
    simplify_eq. apply fitsInt16_in_s in Hx as Hx', Hy as Hy', Hz as Hz'. by rewrite Hx', Hy', Hz' in Ef.
Qed.

Lemma readType_putVoxel c x y z t st x' y' z' :
  in_s 16 x → in_s 16 y → in_s 16 z → grid_ok c →
  readType (putVoxel c x y z t st) x' y' z' =
  if decide ((x', y', z') = (x, y, z)) then Some t else readType c x' y' z'.
Proof.
  intros Hx Hy Hz Hg. unfold readType. rewrite overlayAt_putVoxel by done.
  case_decide as E.
  - simplify_eq. destruct (fitsDenseGrid x y z t) eqn:Ed; [|done].
    unfold putVoxel. rewrite Ed. rewrite fitsDenseGrid_spec in Ed.
    apply andb_true_iff in Ed as [Hi Ht%bool_decide_eq_true]. rewrite Hi. cbn.
    rewrite list_lookup_insert_eq by (apply voxelIndex_bound in Hi; rewrite Hg; lia).
    by rewrite wrapU_id by (unfold in_u; lia).
  - destruct (overlayAt c x' y' z'); [done|].
    destruct (inGrid x' y' z') eqn:Hi'; [|done]. cbn.
    unfold putVoxel. destruct (fitsDenseGrid x y z t) eqn:Ed; cbn.
    + rewrite fitsDenseGrid_spec in Ed. apply andb_true_iff in Ed as [Hi _].
      apply list_lookup_insert_ne. apply voxelIndex_bound in Hi as ?, Hi' as ?.
      intros Eq. apply E. apply Z2Nat.inj in Eq; [|lia..].
      apply voxelIndex_inj in Eq as (-> & -> & ->); done.
    + destruct (inGrid x y z) eqn:Hi; [|done].
      apply list_lookup_insert_ne. apply voxelIndex_bound in Hi as ?, Hi' as ?.
      intros Eq. apply E. apply Z2Nat.inj in Eq; [|lia..].
      apply voxelIndex_inj in Eq as (-> & -> & ->); done.
Qed.

Lemma readState_putVoxel c x y z t st x' y' z' :
  in_s 16 x → in_s 16 y → in_s 16 z →
  readState (putVoxel c x y z t st) x' y' z' =
  if decide ((x', y', z') = (x, y, z))
  then if decide (st = []) then None else Some (mkVoxelState t st) else readState c x' y' z'.
Proof.
  intros Hx Hy Hz. unfold readState. rewrite overlayAt_putVoxel by done.
  case_decide as E.
  - simplify_eq. destruct (fitsDenseGrid x y z t) eqn:Ed.
    + unfold putVoxel. rewrite Ed. rewrite fitsDenseGrid_spec in Ed.
      apply andb_true_iff in Ed as [Hi _]. rewrite Hi. cbn.
      case_bool_decide; case_decide; try done; by rewrite ?lookup_delete_eq, ?lookup_insert_eq.
    + cbn. by case_bool_decide; case_decide.
  - destruct (overlayAt c x' y' z'); [done|].
    destruct (inGrid x' y' z') eqn:Hi'; [|done]. cbn.
    assert (inGrid x y z = true → voxelIndex x y z ≠ voxelIndex x' y' z') as Hne
      by (intros Hi (-> & -> & ->)%voxelIndex_inj; done).
    unfold putVoxel. rewrite fitsDenseGrid_spec.
    destruct (inGrid x y z) eqn:Hi; cbn; [|done]. specialize (Hne eq_refl).
    repeat case_match; cbn; by rewrite ?lookup_delete_ne, ?lookup_insert_ne.
Qed.

(** ** Proofs: the store *)

Definition dirtyCount (m : gmap ChunkCoord ChunkData) : nat := size (filter (λ kc, cd_dirty kc.2 = true) m).

Definition isDirty (s : ChunkStore) (k : ChunkCoord) : bool :=
  match cs_chunks s !! k with Some c => cd_dirty c | None => false end.

(** The store's invariant: chunks are filed under their coordinate and have a whole grid, the
    write-back counter counts the dirty chunks, nothing is dirty without a write-back interval,
    and exactly the dirty chunks with a failed attempt have a retry record. *)
Record store_ok (s : ChunkStore) : Prop := {
  so_filed k c : cs_chunks s !! k = Some c → cd_coord c = k ∧ grid_ok c;
  so_count : cs_pendingWriteBacks s = u64 (Z.of_nat (dirtyCount (cs_chunks s)));
  so_off : co_writeBackIntervalMs (cs_options s) ≤ 0 → ∀ k, isDirty s k = false;
  so_retry k n : cs_writeBackAttempts s !! k = Some n →
    isDirty s k = true ∧ 1 ≤ n < co_writeBackAttempts (cs_options s);
  so_due k : is_Some (cs_writeBackDueAt s !! k) ↔ is_Some (cs_writeBackAttempts s !! k);
  so_pending k m : cs_pending s !! k = Some m → m ≠ ∅ ∧ ∀ v l, m !! v = Some l → l ≠ [];
}.

Lemma dirtyCount_insert m k c :
  Z.of_nat (dirtyCount (<[k := c]> m)) =
  Z.of_nat (dirtyCount m) + Z.b2z (cd_dirty c) -
    Z.b2z (match m !! k with Some c => cd_dirty c | None => false end).
Proof.
  unfold dirtyCount.
  assert (∀ (c : ChunkData) (m : gmap ChunkCoord ChunkData), m !! k = None → Z.of_nat (size (filter (λ kc : ChunkCoord * ChunkData, cd_dirty kc.2 = true) (<[k := c]> m)))
    = Z.of_nat (size (filter (λ kc : ChunkCoord * ChunkData, cd_dirty kc.2 = true) m)) + Z.b2z (cd_dirty c)) as Hnew.
  { intros c' m' Hn. destruct (cd_dirty c') eqn:Ed.
    - rewrite map_filter_insert_True by done. rewrite map_size_insert_None; [cbn; lia|].
      apply map_lookup_filter_None. by left.
    - rewrite map_filter_insert_False, delete_id by (done || by cbn; congruence). cbn; lia. }
  rewrite <- insert_delete_eq. rewrite Hnew by apply lookup_delete_eq.
  destruct (m !! k) as [c0|] eqn:E.
  - assert (m = <[k := c0]> (delete k m)) as Hm by (by rewrite insert_delete_id).
    rewrite Hm at 2. rewrite Hnew by apply lookup_delete_eq. lia.
  - rewrite delete_id by done. cbn. lia.
Qed.

Lemma dirtyCount_delete m k c :
  m !! k = Some c → cd_dirty c = false → dirtyCount (delete k m) = dirtyCount m.
Proof.
  intros E Ed. apply Nat2Z.inj.
  rewrite <- (insert_delete_id m k c) at 2 by done. rewrite dirtyCount_insert, lookup_delete_eq, Ed. cbn. lia.
Qed.

Lemma touch_ok s : store_ok s → store_ok (touch s).
Proof. intros []. by split. Qed.

Lemma withTimes_ok s a b : store_ok s → store_ok (withTimes s a b).
Proof. intros []. by split. Qed.

Lemma withPending_ok s p :
  store_ok s → (∀ k m, p !! k = Some m → m ≠ ∅ ∧ ∀ v l, m !! v = Some l → l ≠ []) →
  store_ok (withPending s p).
Proof. intros [] Hp. by split. Qed.

Lemma isDirty_withChunks s k c n k' :
  isDirty (withChunks s (<[k := c]> (cs_chunks s)) n) k' =
  if decide (k' = k) then cd_dirty c else isDirty s k'.
Proof.
  unfold isDirty. cbn. case_decide as E; [subst; by rewrite lookup_insert_eq|by rewrite lookup_insert_ne].
Qed.

Lemma isDirty_setDirty s k c d k' :
  isDirty (setDirty s k c d) k' = if decide (k' = k) then d else isDirty s k'.
Proof.
  unfold setDirty. case_match eqn:E; rewrite isDirty_withChunks; case_decide; try done.
  by apply eqb_prop in E.
Qed.

(** Filing a chunk under its coordinate with the dirty flag [d]. *)
Lemma setDirty_ok s k c d :
  store_ok s → cd_coord c = k → grid_ok c → cd_dirty c = isDirty s k →
  (d = true → 0 < co_writeBackIntervalMs (cs_options s)) →
  (d = false → cs_writeBackAttempts s !! k = None) →
  store_ok (setDirty s k c d).
Proof.
  intros [Hf Hc Ho Hr Hd Hp] Ek Hg Ed Ht Hn.
  assert (∀ k', isDirty (setDirty s k c d) k' = if decide (k' = k) then d else isDirty s k') as Hi
    by apply isDirty_setDirty.
  split.
  - intros k' c'. unfold setDirty. case_match; cbn; intros [[<- <-]|[_ E]]%lookup_insert_Some; auto.
  - unfold setDirty. case_match eqn:E; cbn; rewrite Hc; [|rewrite wrapU_add_l]; apply (f_equal (wrapU 64));
      rewrite dirtyCount_insert; fold (isDirty s k); rewrite <- Ed; cbn; [lia|].
    destruct (cd_dirty c), d; cbn in *; (done || lia).
  - intros Hoff k'. rewrite Hi. case_decide; [|apply Ho; unfold setDirty in Hoff; by case_match].
    destruct d; [|done]. specialize (Ht eq_refl). unfold setDirty in Hoff; case_match; cbn in Hoff; lia.
  - intros k' n. rewrite Hi. assert (cs_writeBackAttempts (setDirty s k c d) = cs_writeBackAttempts s) as ->
      by (unfold setDirty; by case_match).
    assert (cs_options (setDirty s k c d) = cs_options s) as -> by (unfold setDirty; by case_match).
    intros Ha. case_decide; [subst|by apply Hr]. split; [|by apply Hr in Ha as [_ ?]].
    destruct d; [done|]. specialize (Hn eq_refl). congruence.
  - intros k'. unfold setDirty; by case_match.
  - intros k' m. unfold setDirty. case_match; apply Hp.
Qed.

Lemma makeChunkStore_ok options src : store_ok (makeChunkStore options src).
Proof.
  split; cbn; try done.
Qed.

Lemma chunkAt_ok s k :
  store_ok s → grid_ok (chunkAt s k) ∧ cd_dirty (chunkAt s k) = isDirty s k.
Proof.
  intros [Hf _ _ _ _ _]. unfold chunkAt, isDirty. destruct (cs_chunks s !! k) eqn:E; cbn; [|done].
  split; [|done]. by eapply Hf.
Qed.

Lemma putVoxel_dirty c x y z t st :
  cd_dirty (putVoxel c x y z t st) = cd_dirty c ∧ cd_coord (putVoxel c x y z t st) = cd_coord c.
Proof. unfold putVoxel. by repeat case_match. Qed.

(** A chunk that is not dirty is not being retried. *)
Lemma clean_not_retried s k : store_ok s → isDirty s k = false → cs_writeBackAttempts s !! k = None.
Proof.
  intros [_ _ _ Hr _ _] E. destruct (cs_writeBackAttempts s !! k) eqn:Ea; [|done].
  apply Hr in Ea as [? _]. congruence.
Qed.

Lemma dirty_interval s k : store_ok s → isDirty s k = true → 0 < co_writeBackIntervalMs (cs_options s).
Proof.
  intros [_ _ Ho _ _ _] E. destruct (Z.leb_spec (co_writeBackIntervalMs (cs_options s)) 0) as [Hl|]; [|done].
  specialize (Ho Hl k). congruence.
Qed.

Lemma applyLocal_ok s k x y z t st b : store_ok s → store_ok (applyLocal s k x y z t st b).
Proof.
  intros Hs. unfold applyLocal. apply touch_ok. destruct (chunkAt_ok s k Hs) as [Hg Hd].
  destruct (putVoxel_dirty (withCoord (chunkAt s k) k) x y z t st) as [Hpd Hpc].
  apply setDirty_ok; rewrite ?Hpd, ?Hpc; try done.
  - by apply putVoxel_grid_ok.
  - case_match eqn:E; [|cbn; rewrite Hd; by apply dirty_interval].
    intros _. apply andb_true_iff in E as [_ ?%Z.ltb_lt]. done.
  - case_match; [done|]. cbn. rewrite Hd. by apply clean_not_retried.
Qed.

Lemma markDirty_ok s k : store_ok s → store_ok (markDirty s k).
Proof.
  intros Hs. unfold markDirty. destruct (cs_chunks s !! k) as [c|] eqn:E; [|done].
  case_match eqn:Eb; [|done]. apply andb_true_iff in Eb as [?%Z.ltb_lt _].
  apply touch_ok, setDirty_ok; try done; [by eapply so_filed..|]. unfold isDirty. by rewrite E.
Qed.

Lemma insertGenerated_ok s k v : store_ok s → length v = 4096%nat → store_ok (insertGenerated s k v).
Proof.
  intros Hs Hv. unfold insertGenerated. destruct (chunkAt_ok s k Hs) as [Hg Hd].
  apply touch_ok, setDirty_ok; try done.
  - intros ?%Z.ltb_lt. done.
  - intros E%Z.ltb_ge. apply clean_not_retried; [done|]. by apply so_off.
Qed.

Lemma livePending_ok s k v now : store_ok s → store_ok (livePending s k v now).1.
Proof.
  intros Hs. unfold livePending. destruct (cs_pending s !! k) as [m|] eqn:E; [|done].
  destruct (m !! v) as [l|] eqn:El; [|done]. pose proof (so_pending s Hs) as Hp.
  destruct (Hp _ _ E) as [Hm Hl].
  case_bool_decide as Ef; cbn; apply withPending_ok; try done.
  - case_bool_decide as Em; intros k' m'.
    + rewrite lookup_delete_Some. intros [_ ?]. eauto.
    + intros [[<- <-]|[_ ?]]%lookup_insert_Some; [|eauto]. split; [done|].
      intros v' l' [_ ?]%lookup_delete_Some. eauto.
  - intros k' m' [[<- <-]|[_ ?]]%lookup_insert_Some; [|eauto]. split; [apply insert_non_empty|].
    intros v' l' [[<- <-]|[_ ?]]%lookup_insert_Some; eauto.
Qed.

Lemma storePending_ok s k v l : store_ok s → l ≠ [] → store_ok (storePending s k v l).
Proof.
  intros Hs Hl. pose proof (so_pending s Hs) as Hp. unfold storePending. apply withPending_ok; [done|].
  intros k' m' [[<- <-]|[_ ?]]%lookup_insert_Some; [|eauto]. split; [apply insert_non_empty|].
  intros v' l' [[<- <-]|[_ E]]%lookup_insert_Some; [done|].
  destruct (cs_pending s !! k) as [m|] eqn:Em; cbn in E; [by eapply Hp|by rewrite lookup_empty in E].
Qed.

Lemma rememberEdit_ok s k v now e : store_ok s → store_ok (rememberEdit s k v now e).
Proof. intros. unfold rememberEdit. apply storePending_ok; [by apply livePending_ok|by destruct pendingEdits]. Qed.

(** Expiring right after storing a list leaves no empty entry, whatever the list. *)
Lemma livePending_store_ok s k v l now : store_ok s → store_ok (livePending (storePending s k v l) k v now).1.
Proof.
  intros Hs. pose proof (so_pending s Hs) as Hp.
  assert (∀ v' l', default ∅ (cs_pending s !! k) !! v' = Some l' → l' ≠ []) as Hd.
  { intros v' l'. destruct (cs_pending s !! k) as [m|] eqn:Em; cbn; [by eapply Hp|by rewrite lookup_empty]. }
  unfold livePending. cbn. rewrite lookup_insert_eq, lookup_insert_eq.
  unfold storePending. rewrite delete_insert_eq.
  assert (∀ (p : gmap ChunkCoord (gmap Z (list PendingEdit))),
    (∀ k m, p !! k = Some m → m ≠ ∅ ∧ ∀ v l, m !! v = Some l → l ≠ []) →
    store_ok (withPending (withPending s (<[k := <[v := l]> (default ∅ (cs_pending s !! k))]> (cs_pending s))) p)) as Hw
    by (intros p Hq; by apply (withPending_ok s p)).
  case_bool_decide as Ef; cbn; [case_bool_decide as Em|]; apply Hw; intros k' m'.
  - intros [? E]%lookup_delete_Some. rewrite lookup_insert_ne in E by done. eauto.
  - rewrite insert_insert_eq. intros [[<- <-]|[_ ?]]%lookup_insert_Some; [|eauto]. split; [done|].
    intros v' l' [_ ?]%lookup_delete_Some. eauto.
  - rewrite !insert_insert_eq. intros [[<- <-]|[_ ?]]%lookup_insert_Some; [|eauto]. split; [apply insert_non_empty|].
    intros v' l' [[<- <-]|[_ ?]]%lookup_insert_Some; eauto.
Qed.

Lemma takeEcho_ok s n v now : store_ok s → store_ok (takeEcho s n v now).1.
Proof.
  intros Hs. unfold takeEcho.
  pose proof (livePending_ok s (sn_chunk n) (voxelKey (vx v) (vy v) (vz v)) now Hs) as Hl.
  destruct (livePending s _ _ now) as [s' [l|]] eqn:E; cbn in *; [|done].
  destruct (list_find _ l) as [[i e]|] eqn:Ef; cbn.
  - by apply livePending_store_ok.
  - apply storePending_ok; [done|]. intros ->%fmap_nil_inv.
    unfold livePending in E. repeat case_match; simplify_eq; by case_bool_decide.
Qed.

Lemma ingestVoxel_ok s n v now : store_ok s → store_ok (ingestVoxel s n v now).1.
Proof.
  intros Hs. unfold ingestVoxel. pose proof (takeEcho_ok s n v now Hs).
  destruct takeEcho as [s' b]. cbn in *. case_match; cbn; [done|]. by apply applyLocal_ok.
Qed.

Section StoreProofs.
Context {C : Type} `{Sender C} {W : Type} `{ChunkSource W}.

Lemma setVoxel_ok s (c : C) k x y z t st u b now : store_ok s → store_ok (setVoxel s c k x y z t st u b now).1.1.
Proof.
  intros Hs. unfold setVoxel. case_match; [done|]. case_decide; [done|].
  destruct sendVoxelUpdate as [c' [q|e]]; cbn; [apply rememberEdit_ok|]; case_match; (done || by apply applyLocal_ok).
Qed.

Lemma hydrateEntry_keeps c e :
  cd_coord (hydrateEntry c e) = cd_coord c ∧ cd_dirty (hydrateEntry c e) = cd_dirty c ∧
  (grid_ok c → grid_ok (hydrateEntry c e)).
Proof.
  unfold hydrateEntry. case_match; [done|].
  destruct (putVoxel_dirty c (sv_x e) (sv_y e) (sv_z e) (sv_voxelType e) (sv_state e)) as [-> ->].
  split_and!; [done..|]. apply putVoxel_grid_ok.
Qed.

Lemma hydrateEntries_keep l : ∀ c,
  cd_coord (foldl hydrateEntry c l) = cd_coord c ∧ cd_dirty (foldl hydrateEntry c l) = cd_dirty c ∧
  (grid_ok c → grid_ok (foldl hydrateEntry c l)).
Proof.
  induction l as [|e l IH]; intros c; cbn; [done|].
  destruct (IH (hydrateEntry c e)) as (-> & -> & ?), (hydrateEntry_keeps c e) as (-> & -> & ?). auto.
Qed.

Lemma hydrateChunk_ok now s k : store_ok s → store_ok (hydrateChunk s now k).
Proof.
  intros Hs. unfold hydrateChunk. apply touch_ok. destruct (chunkAt_ok s (sc_coord k) Hs) as [Hg Hd].
  set (c := mkChunkData _ _ _ _ _ _ _). destruct (hydrateEntries_keep (sc_voxelStates k) c) as (Ec & Ed & Eg).
  assert (grid_ok c) as Hc by (unfold grid_ok, c; cbn; case_decide as E; [by rewrite E|done]).
  replace (withChunks s (<[_ := _]> _) _) with (setDirty s (sc_coord k) (foldl hydrateEntry c (sc_voxelStates k)) (isDirty s (sc_coord k)))
    by (unfold setDirty; by rewrite Ed, <- Hd, eqb_reflx).
  apply setDirty_ok; auto.
  - rewrite Ed. apply Hd.
  - by apply dirty_interval.
  - by apply clean_not_retried.
Qed.

Lemma ensureAround_ok s (w : W) center d now : store_ok s → store_ok (ensureAround s w center d now).1.1.
Proof.
  intros Hs. unfold ensureAround. case_match; [done|]. destruct chunksAround as [w' l]. cbn.
  clear -Hs. revert s Hs. induction l as [|k l IH]; intros s Hs; [done|]. cbn. by apply IH, hydrateChunk_ok.
Qed.

(** The outcome of one attempt on the chunk held under [k]; [attemptWriteBack] is undefined
    only when the backoff would be shifted by 64 or more. *)
Lemma forgetWriteBack_keep s k k' :
  isDirty (forgetWriteBack s k) k' = isDirty s k' ∧
  cs_writeBackAttempts (forgetWriteBack s k) !! k = None ∧
  cs_options (forgetWriteBack s k) = cs_options s.
Proof. split_and!; [done|apply lookup_delete_eq|done]. Qed.

Lemma forgetWriteBack_ok s k : store_ok s → store_ok (forgetWriteBack s k).
Proof.
  intros [Hf Hc Ho Hr Hd Hp]. split; auto; cbn.
  - intros k' n [_ ?]%lookup_delete_Some. by apply Hr.
  - intros k'. destruct (decide (k = k')) as [->|]; [by rewrite !lookup_delete_eq|by rewrite !lookup_delete_ne].
Qed.

Lemma attemptWriteBack_ok s (w : W) k c now s' w' r f :
  store_ok s → cs_chunks s !! k = Some c → cd_dirty c = true →
  attemptWriteBack s w k c now = Some (s', w', r, f) → store_ok s'.
Proof.
  intros Hs E Ed. unfold attemptWriteBack. destruct writeChunk as [w1 out].
  destruct (so_filed s Hs _ _ E) as [Ek Hg]. rewrite Ek.
  assert (isDirty s k = true) as Hk by (unfold isDirty; by rewrite E).
  destruct (forgetWriteBack_keep s k k) as (Hd & Hn & _).
  case_match eqn:Eo; [intros [= <- <- <- <-]|case_match eqn:Eb].
  - apply touch_ok, setDirty_ok; try done; [by apply forgetWriteBack_ok|]. cbn. by rewrite Hd, Hk.
  - destruct shl64 as [wait|]; [|done]. cbn. intros [= <- <- <- <-].
    apply andb_true_iff in Eb as [_ Hlt%Z.ltb_lt]. destruct Hs as [Hf Hc Ho Hr Hdu Hp]. split; auto; cbn.
    + intros k' n [[<- <-]|[_ ?]]%lookup_insert_Some; [|by apply Hr]. split; [done|]. split; [|done].
      destruct (cs_writeBackAttempts s !! k) as [n|] eqn:Ea; cbn; [apply Hr in Ea; lia|lia].
    + intros k'. destruct (decide (k = k')) as [->|]; [by rewrite !lookup_insert_eq|by rewrite !lookup_insert_ne].
  - intros [= <- <- <- <-]. apply setDirty_ok; try done; [by apply forgetWriteBack_ok|]. by rewrite Hd, Hk.
Qed.

Definition attemptsOf (s : ChunkStore) (k : ChunkCoord) : Z := default 0 (cs_writeBackAttempts s !! k).

(** What an attempt leaves of the rest of the store. *)
Record attempt_frame (k : ChunkCoord) (s s' : ChunkStore) : Prop := {
  af_options : cs_options s' = cs_options s;
  af_source : cs_hasSource s' = cs_hasSource s;
  af_tick : cs_lastTickMs s' = cs_lastTickMs s;
  af_last : cs_lastWriteBackMs s' = cs_lastWriteBackMs s;
  af_pending : cs_pending s' = cs_pending s;
  af_others k' : k' ≠ k → cs_chunks s' !! k' = cs_chunks s !! k' ∧
    cs_writeBackAttempts s' !! k' = cs_writeBackAttempts s !! k' ∧
    cs_writeBackDueAt s' !! k' = cs_writeBackDueAt s !! k';
  af_reads k' x y z : voxelTypeAt s' k' x y z = voxelTypeAt s k' x y z ∧
    voxelStateAt s' k' x y z = voxelStateAt s k' x y z;
}.

(** What a failure report says: refused by the server, or the last of the attempts. *)
Definition failure_fits (options : ChunkOptions) (f : ChunkWriteBackFailure) : Prop :=
  1 ≤ wf_attempts f ≤ Z.max 1 (co_writeBackAttempts options) ∧ outcomeOk (wf_error f) = false ∧
  (wf_reason f = Refused ↔ writeBackRetryable (wf_error f) = false) ∧
  (wf_reason f = Exhausted → co_writeBackAttempts options ≤ wf_attempts f).

Definition attempt_result (s s' : ChunkStore) (k : ChunkCoord) (r : WriteBack) (f : option ChunkWriteBackFailure) : Prop :=
  match r with
  | WbRetry => isDirty s' k = true ∧ attemptsOf s' k = attemptsOf s k + 1 ∧ f = None
  | WbPersisted => isDirty s' k = false ∧ f = None
  | WbDropped => isDirty s' k = false ∧ ∃ e, f = Some e ∧ wf_coord e = k ∧ failure_fits (cs_options s) e
  end.

Lemma attempt_frame_intro k s s' :
  cs_options s' = cs_options s → cs_hasSource s' = cs_hasSource s →
  cs_lastTickMs s' = cs_lastTickMs s → cs_lastWriteBackMs s' = cs_lastWriteBackMs s →
  cs_pending s' = cs_pending s →
  (∀ k', k' ≠ k → cs_chunks s' !! k' = cs_chunks s !! k' ∧
    cs_writeBackAttempts s' !! k' = cs_writeBackAttempts s !! k' ∧
    cs_writeBackDueAt s' !! k' = cs_writeBackDueAt s !! k') →
  (∃ c c', cs_chunks s !! k = Some c ∧ cs_chunks s' !! k = Some c' ∧ cd_voxels c' = cd_voxels c ∧
     cd_voxelStates c' = cd_voxelStates c ∧ cd_overlay c' = cd_overlay c) →
  attempt_frame k s s'.
Proof.
  intros ? ? ? ? ? Hk (c & c' & E & E' & Ev & Es & Eo). split; auto. intros k' x y z.
  unfold voxelTypeAt, voxelStateAt. destruct (decide (k' = k)) as [->|Hne]; [|by rewrite (proj1 (Hk k' Hne))].
  rewrite E, E'. unfold overlayAt. by rewrite Ev, Es, Eo.
Qed.

Lemma attemptWriteBack_spec s (w : W) k c now :
  store_ok s → co_writeBackAttempts (cs_options s) ≤ 65 → cs_chunks s !! k = Some c → cd_dirty c = true →
  ∃ s' w' r f, attemptWriteBack s w k c now = Some (s', w', r, f) ∧ store_ok s' ∧ attempt_frame k s s' ∧
    attempt_result s s' k r f.
Proof.
  intros Hs Hmax E Ed.
  assert (∀ s' w' r f, attemptWriteBack s w k c now = Some (s', w', r, f) → attempt_frame k s s' →
    attempt_result s s' k r f → ∃ s' w' r f, attemptWriteBack s w k c now = Some (s', w', r, f) ∧
    store_ok s' ∧ attempt_frame k s s' ∧ attempt_result s s' k r f) as Hwrap
    by (intros s' w' r f Ea ? ?; exists s', w', r, f; split_and!; auto; by eapply attemptWriteBack_ok).
  destruct (so_filed s Hs _ _ E) as [Ek Hg].
  assert (isDirty s k = true) as Hk by (unfold isDirty; by rewrite E).
  unfold attemptWriteBack in Hwrap |- *. destruct writeChunk as [w1 out]. rewrite Ek in *.
  fold (attemptsOf s k) in *.
  assert (0 ≤ attemptsOf s k ∧ attemptsOf s k < Z.max 1 (co_writeBackAttempts (cs_options s))) as [Ha0 Ha1].
  { unfold attemptsOf. destruct (cs_writeBackAttempts s !! k) eqn:Ea; cbn; [apply so_retry in Ea; [lia|done]|lia]. }
  case_match eqn:Eo; [|case_match eqn:Eb].
  - eapply Hwrap; [done|..].
    + apply attempt_frame_intro; unfold setDirty; cbn; rewrite Ed; try done; cbn.
      * intros k' ?. by rewrite lookup_insert_ne, !lookup_delete_ne.
      * do 2 eexists. rewrite lookup_insert_eq. by split_and!.
    + split; [|done]. change (isDirty (setDirty (forgetWriteBack s k) k (withStored c) false) k = false).
      by rewrite isDirty_setDirty, decide_True.
  - apply andb_true_iff in Eb as [_ Hlt%Z.ltb_lt].
    unfold shl64 in *. rewrite decide_True in * by lia. cbn in *. eapply Hwrap; [done|..].
    + apply attempt_frame_intro; try done; cbn; [|by exists c, c].
      intros k' ?. by rewrite !lookup_insert_ne.
    + split_and!; [done| |done]. unfold attemptsOf at 1. cbn. by rewrite lookup_insert_eq.
  - eapply Hwrap; [done|..].
    + apply attempt_frame_intro; unfold setDirty; cbn; rewrite Ed; try done; cbn.
      * intros k' ?. by rewrite lookup_insert_ne, !lookup_delete_ne.
      * do 2 eexists. rewrite lookup_insert_eq. by split_and!.
    + split; [by rewrite isDirty_setDirty, decide_True|]. eexists. split_and!; [done..|].
      unfold failure_fits; cbn. split_and!; [lia|lia|done| |].
      * by destruct (writeBackRetryable out).
      * destruct (writeBackRetryable out); [|done]. cbn in Eb. apply Z.ltb_ge in Eb. lia.
Qed.

(** Whatever the limit on the attempts: an attempt that is defined touches no voxel. *)
Lemma attemptWriteBack_frame s (w : W) k c now s' w' r f :
  store_ok s → cs_chunks s !! k = Some c → cd_dirty c = true →
  attemptWriteBack s w k c now = Some (s', w', r, f) → attempt_frame k s s'.
Proof.
  intros Hs E Ed. destruct (so_filed s Hs _ _ E) as [Ek _]. unfold attemptWriteBack.
  destruct writeChunk as [w1 out]. rewrite Ek. case_match; [|case_match].
  - intros [= <- <- <- <-]. apply attempt_frame_intro; unfold setDirty; cbn; rewrite Ed; try done; cbn.
    + intros k' ?. by rewrite lookup_insert_ne, !lookup_delete_ne.
    + do 2 eexists. rewrite lookup_insert_eq. by split_and!.
  - destruct shl64; [|done]. intros [= <- <- <- <-]. apply attempt_frame_intro; try done; cbn; [|by exists c, c].
    intros k' ?. by rewrite !lookup_insert_ne.
  - intros [= <- <- <- <-]. apply attempt_frame_intro; unfold setDirty; cbn; rewrite Ed; try done; cbn.
    + intros k' ?. by rewrite lookup_insert_ne, !lookup_delete_ne.
    + do 2 eexists. rewrite lookup_insert_eq. by split_and!.
Qed.

Lemma attempt_frame_refl k s : attempt_frame k s s.
Proof. by split. Qed.

Lemma attempt_frame_trans k s1 s2 s3 : attempt_frame k s1 s2 → attempt_frame k s2 s3 → attempt_frame k s1 s3.
Proof.
  intros [] []. split; try congruence; [naive_solver congruence|].
  intros k' x y z. destruct (af_reads0 k' x y z), (af_reads1 k' x y z). split; congruence.
Qed.

Lemma frame_isDirty k s s' k' : attempt_frame k s s' → k' ≠ k → isDirty s' k' = isDirty s k'.
Proof. intros Hf Hk. unfold isDirty. by rewrite (proj1 (af_others k s s' Hf k' Hk)). Qed.

(** The waits [flush] sleeps are doublings of the backoff. *)
Definition backoff_wait (options : ChunkOptions) (ms : Z) : Prop :=
  ∃ j, 0 ≤ j < co_writeBackAttempts options - 1 ∧ ms = i64 (Z.shiftl (co_writeBackBackoffMs options) j).

(** What was done for a number [n] of chunks. *)
Record flush_done (options : ChunkOptions) (n : nat) (r r' : FlushResult) : Prop := {
  fd_count : (fr_persisted r' + length (fr_dropped r') = fr_persisted r + length (fr_dropped r) + n)%nat;
  fd_dropped : Forall (failure_fits options) (fr_dropped r) → Forall (failure_fits options) (fr_dropped r');
  fd_waits : Forall (backoff_wait options) (fr_waits r) → Forall (backoff_wait options) (fr_waits r');
}.

Lemma flush_done_none options r : flush_done options 0 r r.
Proof. split; [lia|done..]. Qed.

Lemma flushChunk_spec fuel k : ∀ s (w : W) r,
  store_ok s → co_writeBackAttempts (cs_options s) ≤ 65 →
  (Z.to_nat (co_writeBackAttempts (cs_options s) - attemptsOf s k) < fuel)%nat →
  ∃ s' w' r', flushChunk fuel s w k r = Some (s', w', r') ∧ store_ok s' ∧ attempt_frame k s s' ∧
    isDirty s' k = false ∧ flush_done (cs_options s) (if isDirty s k then 1 else 0) r r'.
Proof.
  induction fuel as [|fuel IH]; intros s w r Hs Hmax Hfuel; [lia|]. cbn.
  destruct (cs_chunks s !! k) as [c|] eqn:E.
  2: { exists s, w, r. unfold isDirty. rewrite E. by split_and!; try done; apply flush_done_none. }
  assert (isDirty s k = cd_dirty c) as Hd by (unfold isDirty; by rewrite E).
  destruct (cd_dirty c) eqn:Ed; cbn.
  2: { exists s, w, r. rewrite Hd. by split_and!; try done; apply flush_done_none. }
  destruct (attemptWriteBack_spec s w k c (cs_lastTickMs s) Hs Hmax E Ed)
    as (s1 & w1 & done1 & f & Ea & Hs1 & Hf1 & Hres).
  assert (∃ ws, (match cs_writeBackAttempts s !! k with
      | Some k0 => if 0 <? k0 then shl64 (co_writeBackBackoffMs (cs_options s)) (k0 - 1) ≫= λ wait, Some [wait] else Some []
      | None => Some [] end) = Some ws ∧ Forall (backoff_wait (cs_options s)) ws) as (ws & -> & Hws).
  { destruct (cs_writeBackAttempts s !! k) as [n|] eqn:En; [|by eexists].
    apply so_retry in En as [_ Hn]; [|done]. rewrite (proj2 (Z.ltb_lt 0 n)) by lia.
    unfold shl64. rewrite decide_True by lia. cbn. eexists. split; [done|]. repeat constructor.
    exists (n - 1). split; [lia|done]. }
  cbn. rewrite Ea. cbn. rewrite Hd. set (r1 := mkFlushResult _ _ _).
  destruct done1; cbn in Hres.
  - destruct Hres as [Hc ->]. exists s1, w1, r1. split_and!; try done.
    split; unfold r1; cbn; rewrite ?app_nil_r; [lia|done|]. intros. by apply Forall_app.
  - destruct Hres as (Hc & Ha & ->).
    pose proof (so_retry s1 Hs1 k) as Hr1. unfold attemptsOf at 1 in Ha.
    assert (∃ n1, cs_writeBackAttempts s1 !! k = Some n1) as [n1 En1].
    { destruct (cs_writeBackAttempts s1 !! k) eqn:En; [by eexists|]. cbn in Ha. unfold attemptsOf in Ha.
      destruct (cs_writeBackAttempts s !! k) eqn:En0; cbn in Ha; [apply so_retry in En0; [lia|done]|lia]. }
    rewrite En1 in Ha. cbn in Ha. destruct (Hr1 _ En1) as [_ Hn1].
    rewrite (af_options _ _ _ Hf1) in Hn1.
    destruct (IH s1 w1 r1) as (s2 & w2 & r2 & -> & Hs2 & Hf2 & Hc2 & Hd2); [done|by rewrite (af_options _ _ _ Hf1)| |].
    { rewrite (af_options _ _ _ Hf1). unfold attemptsOf at 1. rewrite En1. cbn. lia. }
    exists s2, w2, r2. split_and!; try done; [by eapply attempt_frame_trans|].
    rewrite Hc, (af_options _ _ _ Hf1) in Hd2. destruct Hd2 as [H1 H2 H3].
    split; unfold r1 in *; cbn in *; rewrite ?app_nil_r in *; [lia|done|].
    intros. apply H3. by apply Forall_app.
  - destruct Hres as (Hc & e & -> & He & Hfit). exists s1, w1, r1. split_and!; try done.
    split; unfold r1; cbn; rewrite ?length_app; cbn; [lia|..]; intros; apply Forall_app; split; auto.
Qed.

Lemma flushAll_spec l : ∀ s (w : W) r,
  store_ok s → co_writeBackAttempts (cs_options s) ≤ 65 → NoDup l → (∀ k, isDirty s k = true ↔ k ∈ l) →
  ∃ s' w' r', flushAll s w l r = Some (s', w', r') ∧ store_ok s' ∧ (∀ k, isDirty s' k = false) ∧
    flush_done (cs_options s) (length l) r r' ∧ cs_options s' = cs_options s ∧
    ∀ k x y z, voxelTypeAt s' k x y z = voxelTypeAt s k x y z ∧ voxelStateAt s' k x y z = voxelStateAt s k x y z.
Proof.
  induction l as [|k l IH]; intros s w r Hs Hmax Hnd Hl.
  - exists s, w, r. split_and!; try done.
    intros k. destruct (isDirty s k) eqn:E; [|done]. apply Hl in E. set_solver.
  - cbn. apply list.NoDup_cons in Hnd as [Hk Hnd].
    destruct (flushChunk_spec (Z.to_nat (co_writeBackAttempts (cs_options s)) + 1) k s w r)
      as (s1 & w1 & r1 & -> & Hs1 & Hf1 & Hc1 & Hd1); [done|done| |].
    { unfold attemptsOf. destruct (cs_writeBackAttempts s !! k) eqn:Ea; cbn; [apply so_retry in Ea; [lia|done]|lia]. }
    assert (isDirty s k = true) as Hdk by (apply Hl; set_solver). rewrite Hdk in Hd1. cbn.
    destruct (IH s1 w1 r1) as (s2 & w2 & r2 & -> & Hs2 & Hc2 & Hd2 & Ho2 & Hv2);
      [done|by rewrite (af_options _ _ _ Hf1)|done| |].
    { intros k'. destruct (decide (k' = k)) as [->|Hne]; [rewrite Hc1; naive_solver|].
      rewrite (frame_isDirty _ _ _ _ Hf1 Hne), Hl. set_solver. }
    exists s2, w2, r2. rewrite (af_options _ _ _ Hf1) in Hd2. destruct Hd1, Hd2. split_and!; try done.
    + split; cbn; [lia|auto..].
    + by rewrite Ho2, (af_options _ _ _ Hf1).
    + intros k' x y z. destruct (Hv2 k' x y z) as [-> ->]. apply (af_reads _ _ _ Hf1).
Qed.

(** Erasing a clean chunk that is not being retried. *)
Lemma eraseClean_ok s k :
  store_ok s → isDirty s k = false → cs_writeBackAttempts s !! k = None →
  store_ok (let s := withPending s (delete k (cs_pending s)) in
            withChunks s (delete k (cs_chunks s)) (cs_pendingWriteBacks s)).
Proof.
  intros [Hf Hc Ho Hr Hdu Hp] Hd Ha. cbv zeta. set (s' := withChunks _ _ _).
  assert (∀ k', isDirty s' k' = isDirty s k') as Hi.
  { intros k'. destruct (decide (k = k')) as [<-|]; [|by unfold isDirty; cbn; rewrite lookup_delete_ne].
    rewrite Hd. unfold isDirty; cbn. by rewrite lookup_delete_eq. }
  split.
  - cbn. intros k' c' [_ ?]%lookup_delete_Some. by apply Hf.
  - cbn. rewrite Hc. do 2 f_equal. unfold isDirty in Hd. destruct (cs_chunks s !! k) as [c1|] eqn:E1.
    + by rewrite (dirtyCount_delete _ _ c1).
    + by rewrite delete_id.
  - intros Hoff k'. rewrite Hi. by apply Ho.
  - intros k' n Hn. rewrite Hi. by apply Hr.
  - done.
  - cbn. intros k' m [_ ?]%lookup_delete_Some. by apply (Hp k').
Qed.

Lemma evictChunk_ok s k : store_ok s → store_ok (evictChunk s k).1.
Proof.
  intros Hs. unfold evictChunk. destruct (cs_chunks s !! k) as [c|] eqn:E; [|done].
  apply touch_ok. destruct (so_filed s Hs _ _ E) as [Ek Hg].
  assert (isDirty s k = cd_dirty c) as Hd by (unfold isDirty; by rewrite E).
  destruct (cd_dirty c) eqn:Ed; apply eraseClean_ok; try apply lookup_delete_eq; try done.
  - replace (forgetWriteBack (setDirty s k c false) k) with (setDirty (forgetWriteBack s k) k c false)
      by (unfold setDirty; by rewrite Ed).
    apply setDirty_ok; try done; [by apply forgetWriteBack_ok|rewrite Ed; symmetry; exact Hd|].
    intros _. apply lookup_delete_eq.
  - change (isDirty (setDirty s k c false) k = false). by rewrite isDirty_setDirty, decide_True.
  - by apply forgetWriteBack_ok.
Qed.

Lemma evictChunk_frame s k :
  cs_options (evictChunk s k).1 = cs_options s ∧ (∀ k', k' ≠ k → cs_chunks (evictChunk s k).1 !! k' = cs_chunks s !! k') ∧
  cs_chunks (evictChunk s k).1 !! k = None.
Proof.
  unfold evictChunk. destruct (cs_chunks s !! k) as [c|] eqn:E; [|done]. cbn.
  split_and!; [|intros k' ?; rewrite lookup_delete_ne by done|apply lookup_delete_eq];
    unfold setDirty; repeat case_match; cbn; by rewrite ?lookup_insert_ne.
Qed.

Lemma pruneChunk_spec s (w : W) k :
  store_ok s → co_writeBackAttempts (cs_options s) ≤ 65 →
  ∃ s' w' n, pruneChunk s w k = Some (s', w', n) ∧ store_ok s' ∧ cs_options s' = cs_options s ∧
    (∀ k', k' ≠ k → cs_chunks s' !! k' = cs_chunks s !! k') ∧
    (cs_chunks s' !! k = None ∨ isDirty s k = true ∧ isDirty s' k = true ∧ n = 0%nat).
Proof.
  intros Hs Hmax. unfold pruneChunk. destruct (cs_chunks s !! k) as [c|] eqn:E.
  2: { exists s, w, 0%nat. split_and!; auto. }
  assert (isDirty s k = cd_dirty c) as Hd by (unfold isDirty; by rewrite E).
  destruct (cd_dirty c && cs_hasSource s) eqn:Eb.
  - apply andb_true_iff in Eb as [Ed _].
    destruct (attemptWriteBack_spec s w k c (cs_lastTickMs s) Hs Hmax E Ed) as (s1 & w1 & r & f & -> & Hs1 & Hf & Hr).
    cbn. assert (∀ n, ∃ s' w' n', (let '(s0, n) := evictChunk s1 k in Some (s0, w1, n)) = Some (s', w', n') ∧
      store_ok s' ∧ cs_options s' = cs_options s ∧ (∀ k', k' ≠ k → cs_chunks s' !! k' = cs_chunks s !! k') ∧
      (cs_chunks s' !! k = None ∨ isDirty s k = true ∧ isDirty s' k = true ∧ n = 0%nat)) as Hev.
    { intros n. pose proof (evictChunk_ok s1 k Hs1). pose proof (evictChunk_frame s1 k) as (Ho & Hk & Hn).
      destruct (evictChunk s1 k) as [s2 n2]. cbn in *. exists s2, w1, n2. split_and!; auto.
      - by rewrite Ho, (af_options _ _ _ Hf).
      - intros k' ?. rewrite Hk by done. by apply (af_others _ _ _ Hf). }
    destruct r.
    + destruct (Hev 1%nat) as (s' & w' & n' & ? & ? & ? & ? & [|(? & ? & ?)]); [|done].
      exists s', w', n'. split_and!; auto.
    + exists s1, w1, 0%nat. destruct Hr as (? & _ & _). split_and!; auto; [apply (af_options _ _ _ Hf)| |].
      * intros k' ?. by apply (af_others _ _ _ Hf).
      * right. by rewrite Hd, Ed.
    + destruct (Hev 1%nat) as (s' & w' & n' & ? & ? & ? & ? & [|(? & ? & ?)]); [|done].
      exists s', w', n'. split_and!; auto.
  - pose proof (evictChunk_ok s k Hs). pose proof (evictChunk_frame s k) as (Ho & Hk & Hn).
    destruct (evictChunk s k) as [s2 n2]. cbn in *. exists s2, w, n2. split_and!; auto.
Qed.

End StoreProofs.

(** ** Proofs: reading back a write *)

Lemma readType_new x y z : readType newChunk x y z = Some 0.
Proof.
  unfold readType, overlayAt. rewrite bool_decide_eq_true_2 by done. cbn [orb].
  destruct (inGrid x y z) eqn:E; cbn [negb]; [|done]. apply voxelIndex_bound in E.
  apply lookup_replicate_2. unfold kChunkVolume, kChunkSize. lia.
Qed.

Lemma readState_new x y z : readState newChunk x y z = None.
Proof.
  unfold readState, overlayAt. rewrite bool_decide_eq_true_2 by done. cbn [orb].
  by destruct (inGrid x y z).
Qed.

Lemma voxelTypeAt_chunkAt s k x y z : voxelTypeAt s k x y z = readType (chunkAt s k) x y z.
Proof.
  unfold voxelTypeAt, chunkAt. destruct (cs_chunks s !! k); cbn; [done|]. by rewrite readType_new.
Qed.

Lemma voxelStateAt_chunkAt s k x y z : voxelStateAt s k x y z = readState (chunkAt s k) x y z.
Proof.
  unfold voxelStateAt, chunkAt. destruct (cs_chunks s !! k); cbn; [done|]. by rewrite readState_new.
Qed.

Lemma chunkAt_setDirty s k c d k' :
  chunkAt (setDirty s k c d) k' = if decide (k' = k) then (if Bool.eqb (cd_dirty c) d then c else withDirty c d) else chunkAt s k'.
Proof.
  unfold chunkAt, setDirty. destruct (Bool.eqb (cd_dirty c) d); cbn; case_decide as E;
    (subst; by rewrite lookup_insert_eq) || by rewrite lookup_insert_ne.
Qed.

(** What the readers return once voxel [(x, y, z)] of [k] is [t] with state [st]. *)
Definition reads_written (s s' : ChunkStore) (k : ChunkCoord) (x y z t : Z) (st : bytes) : Prop :=
  ∀ k' x' y' z',
    voxelTypeAt s' k' x' y' z' =
      (if decide ((k', x', y', z') = (k, x, y, z)) then Some t else voxelTypeAt s k' x' y' z') ∧
    voxelStateAt s' k' x' y' z' =
      (if decide ((k', x', y', z') = (k, x, y, z))
       then if decide (st = []) then None else Some (mkVoxelState t st) else voxelStateAt s k' x' y' z').

Lemma applyLocal_reads s k x y z t st b :
  store_ok s → in_s 16 x → in_s 16 y → in_s 16 z →
  reads_written s (applyLocal s k x y z t st b) k x y z t st.
Proof.
  intros Hs Hx Hy Hz k' x' y' z'. rewrite !voxelTypeAt_chunkAt, !voxelStateAt_chunkAt.
  unfold applyLocal. change (chunkAt (touch ?s)) with (chunkAt s). rewrite chunkAt_setDirty.
  set (c := putVoxel (withCoord (chunkAt s k) k) x y z t st).
  set (c' := if decide (k' = k) then _ else _).
  assert (c' = chunkAt s k' ∧ k' ≠ k ∨ k' = k ∧ readType c' x' y' z' = readType c x' y' z' ∧
    readState c' x' y' z' = readState c x' y' z') as [[-> Hne]|(-> & -> & ->)].
  { unfold c'. case_decide as E; [|by left]. right. subst. split; [done|].
    by destruct (Bool.eqb _ _). }
  - by rewrite !decide_False by congruence.
  - destruct (chunkAt_ok s k Hs) as [Hg _]. unfold c.
    rewrite readType_putVoxel, readState_putVoxel by done.
    split; repeat case_decide; (done || congruence).
Qed.

Lemma readers_chunks s s' : cs_chunks s' = cs_chunks s → ∀ k x y z,
  voxelTypeAt s' k x y z = voxelTypeAt s k x y z ∧ voxelStateAt s' k x y z = voxelStateAt s k x y z.
Proof. intros E k x y z. unfold voxelTypeAt, voxelStateAt. by rewrite E. Qed.

Lemma livePending_chunks s k v now : cs_chunks (livePending s k v now).1 = cs_chunks s.
Proof. unfold livePending. by repeat case_match. Qed.

Lemma rememberEdit_chunks s k v now e : cs_chunks (rememberEdit s k v now e) = cs_chunks s.
Proof. apply livePending_chunks. Qed.

Lemma takeEcho_chunks s n v now : cs_chunks (takeEcho s n v now).1 = cs_chunks s.
Proof.
  unfold takeEcho. pose proof (livePending_chunks s (sn_chunk n) (voxelKey (vx v) (vy v) (vz v)) now) as E.
  destruct (livePending s _ _ now) as [s' [l|]]; [|done].
  destruct (list_find _ l) as [[i e]|]; cbn; [by rewrite livePending_chunks|done].
Qed.

(** Reading is insensitive to what is not a chunk. *)
Lemma reads_written_chunks s s1 s2 k x y z t st :
  reads_written s s1 k x y z t st → cs_chunks s2 = cs_chunks s1 → reads_written s s2 k x y z t st.
Proof. intros Hr E k' x' y' z'. destruct (readers_chunks s1 s2 E k' x' y' z') as [-> ->]. apply Hr. Qed.

Lemma setVoxel_invalid {C} `{Sender C} s (c : C) k x y z t st u b now :
  (¬ in_s 16 x ∨ ¬ in_s 16 y ∨ ¬ in_s 16 z ∨ (voxel_kMaxStateSize < length st)%nat) →
  setVoxel s c k x y z t st u b now = (s, c, Err InvalidArgument).
Proof.
  intros Hi. unfold setVoxel. case_match eqn:E; [done|].
  apply orb_false_iff in E as [[Ex Ey]%orb_false_iff Ez].
  apply negb_false_iff, fitsInt16_in_s in Ex, Ey, Ez. rewrite decide_True; [done|]. tauto.
Qed.

(** Read your writes: an optimistic [setVoxel] in range makes its voxel read as the written
    type and state and leaves every other voxel of every chunk as it was, whether the grid can
    hold the edit or the overlay must; one that is not optimistic changes no voxel; and a
    position outside 16 bits or a state over 1,024 octets changes nothing and sends nothing. *)
Theorem setVoxel_reads_back {C} `{Sender C} s (c : C) k x y z t st u optimistic now :
  store_ok s →
  let r := setVoxel s c k x y z t st u optimistic now in
  if decide (in_s 16 x ∧ in_s 16 y ∧ in_s 16 z ∧ (length st ≤ 1024)%nat) then
    if optimistic then reads_written s r.1.1 k x y z t st else cs_chunks r.1.1 = cs_chunks s
  else r = (s, c, Err InvalidArgument).
Proof.
  intros Hs r. case_decide as Hr.
  - destruct Hr as (Hx & Hy & Hz & Hl). unfold r, setVoxel.
    rewrite !(proj2 (fitsInt16_in_s _)) by done. cbn [negb orb]. rewrite decide_False by (unfold voxel_kMaxStateSize; lia).
    destruct sendVoxelUpdate as [c' [q|e]], optimistic; cbn [fst];
      [| |by apply applyLocal_reads|done].
    + eapply reads_written_chunks; [by apply applyLocal_reads|apply rememberEdit_chunks].
    + apply rememberEdit_chunks.
  - unfold r. apply setVoxel_invalid.
    destruct (decide (in_s 16 x)), (decide (in_s 16 y)), (decide (in_s 16 z)); auto.
    do 3 right. unfold voxel_kMaxStateSize. assert (¬ (length st ≤ 1024)%nat) by tauto. lia.
Qed.

(** ** Proofs: echoes *)

Lemma livePending_pending s k v now k' v' :
  pendingEdits (livePending s k v now).1 k' v' =
  if decide ((k', v') = (k, v)) then filter (λ e, ¬ pe_sentAtMs e < now - kPendingEditTtlMs) (pendingEdits s k v)
  else pendingEdits s k' v'.
Proof.
  unfold livePending, pendingEdits.
  destruct (cs_pending s !! k) as [m|] eqn:E; cbn.
  2: { case_decide as Ek; [|done]. simplify_eq. by rewrite E, lookup_empty. }
  destruct (m !! v) as [l|] eqn:El; cbn.
  2: { case_decide as Ek; [|done]. simplify_eq. by rewrite E; cbn; rewrite El. }
  case_bool_decide as Ef; cbn; [case_bool_decide as Em; cbn|];
    (destruct (decide (k' = k)) as [->|Hk]; [|rewrite decide_False by congruence;
       by rewrite ?lookup_delete_ne, ?lookup_insert_ne by done]).
  - rewrite lookup_delete_eq. cbn. rewrite lookup_empty. case_decide as Ek; [simplify_eq; by rewrite Ef|].
    assert (v' ≠ v) as Hv by congruence. rewrite E. cbn.
    apply (f_equal (lookup v')) in Em. by rewrite lookup_delete_ne, lookup_empty in Em; [rewrite Em|].
  - rewrite lookup_insert_eq. cbn. case_decide as Ek; [simplify_eq; by rewrite lookup_delete_eq, Ef|].
    rewrite E, lookup_delete_ne by congruence. done.
  - rewrite lookup_insert_eq. cbn. case_decide as Ek; [simplify_eq; by rewrite lookup_insert_eq|].
    rewrite E, lookup_insert_ne by congruence. done.
Qed.

Lemma livePending_result s k v now :
  (livePending s k v now).2 =
  match filter (λ e, ¬ pe_sentAtMs e < now - kPendingEditTtlMs) (pendingEdits s k v) with
  | [] => None | l => Some l end.
Proof.
  unfold livePending, pendingEdits.
  destruct (cs_pending s !! k) as [m|] eqn:E; cbn; [|by rewrite lookup_empty].
  destruct (m !! v) as [l|] eqn:El; cbn; [|done].
  case_bool_decide as Ef; cbn; [by rewrite Ef|]. by destruct (filter _ l).
Qed.

Lemma storePending_pending s k v l k' v' :
  pendingEdits (storePending s k v l) k' v' = if decide ((k', v') = (k, v)) then l else pendingEdits s k' v'.
Proof.
  unfold storePending, pendingEdits. cbn.
  destruct (decide (k' = k)) as [->|Hk]; [|by rewrite decide_False, lookup_insert_ne by congruence].
  rewrite lookup_insert_eq. cbn.
  destruct (decide (v' = v)) as [->|Hv]; [by rewrite decide_True, lookup_insert_eq|].
  by rewrite decide_False, lookup_insert_ne by congruence.
Qed.

(** No pending edit of the voxel is older than the time to live. *)
Definition unexpired (s : ChunkStore) (k : ChunkCoord) (v now : Z) : Prop :=
  Forall (λ e, now - kPendingEditTtlMs ≤ pe_sentAtMs e) (pendingEdits s k v).

Lemma filter_all {A} (P : A → Prop) `{!∀ x, Decision (P x)} (l : list A) : Forall P l → filter P l = l.
Proof. induction 1; [done|]. rewrite filter_cons_True by done. by f_equal. Qed.

Lemma unexpired_keep now (l : list PendingEdit) :
  Forall (λ e, now - kPendingEditTtlMs ≤ pe_sentAtMs e) l →
  filter (λ e, ¬ pe_sentAtMs e < now - kPendingEditTtlMs) l = l.
Proof. intros Hl. apply filter_all. eapply list.Forall_impl; [exact Hl|]. intros e. cbn. lia. Qed.

Lemma unexpired_filter s k v now :
  unexpired s k v now →
  filter (λ e, ¬ pe_sentAtMs e < now - kPendingEditTtlMs) (pendingEdits s k v) = pendingEdits s k v.
Proof. apply unexpired_keep. Qed.

Lemma rememberEdit_pending s k v now e k' v' :
  (k' = k → v' = v → unexpired s k v now) →
  pendingEdits (rememberEdit s k v now e) k' v' =
  if decide ((k', v') = (k, v)) then pendingEdits s k v ++ [e] else pendingEdits s k' v'.
Proof.
  intros Hu. unfold rememberEdit. rewrite storePending_pending, !livePending_pending.
  case_decide as E; [|done]. simplify_eq. rewrite decide_True by done. by rewrite unexpired_filter by auto.
Qed.

(** [takeEcho] on the voxel itself. *)
Lemma takeEcho_here s n v now :
  let p := pendingEdits s (sn_chunk n) (voxelKey (vx v) (vy v) (vz v)) in
  unexpired s (sn_chunk n) (voxelKey (vx v) (vy v) (vz v)) now →
  pendingEdits (takeEcho s n v now).1 (sn_chunk n) (voxelKey (vx v) (vy v) (vz v)) =
    match list_find (λ e, isEcho (sn_sequence n) (uuidArray n) e = true) p with
    | Some (i, _) => delete i p
    | None => (λ e, mkPendingEdit (pe_uuid e) (pe_sequence e) (pe_sentAtMs e) true) <$> p
    end ∧
  (takeEcho s n v now).2 =
    match list_find (λ e, isEcho (sn_sequence n) (uuidArray n) e = true) p with
    | Some (i, e) => pe_stale e && bool_decide (S i = length p)
    | None => true
    end.
Proof.
  intros p Hu. unfold takeEcho. set (key := voxelKey _ _ _) in *.
  pose proof (livePending_result s (sn_chunk n) key now) as Hr.
  pose proof (livePending_pending s (sn_chunk n) key now (sn_chunk n) key) as Hp.
  rewrite unexpired_filter in Hr, Hp by done. rewrite decide_True in Hp by done. fold p in Hr, Hp.
  destruct (livePending s (sn_chunk n) key now) as [s' live]. cbn in Hr, Hp. subst live.
  unfold unexpired in Hu. fold p in Hu. clearbody p.
  destruct p as [|e0 p0]; [by cbn; rewrite Hp|]. cbn iota beta. generalize dependent (e0 :: p0); intros p Hp Hu.
  destruct (list_find _ p) as [[i e]|] eqn:Ef; cbn.
  - rewrite livePending_pending, storePending_pending, !decide_True by done. split.
    + apply unexpired_keep. by apply Forall_delete.
    + f_equal. by case_bool_decide; case_bool_decide.
  - by rewrite storePending_pending, decide_True.
Qed.

Lemma takeEcho_elsewhere s n v now k key :
  (k, key) ≠ (sn_chunk n, voxelKey (vx v) (vy v) (vz v)) →
  pendingEdits (takeEcho s n v now).1 k key = pendingEdits s k key.
Proof.
  intros Hne. unfold takeEcho.
  pose proof (livePending_pending s (sn_chunk n) (voxelKey (vx v) (vy v) (vz v)) now k key) as Hp.
  destruct (livePending s _ _ now) as [s' [l|]]; cbn in *; rewrite decide_False in Hp by done; [|done].
  destruct (list_find _ l) as [[i e]|]; cbn;
    rewrite ?livePending_pending, ?decide_False, storePending_pending, decide_False by done; done.
Qed.

Lemma dueChunk_Some s now l k c :
  dueChunk s now l = Some (k, c) → cs_chunks s !! k = Some c ∧ cd_dirty c = true ∧
  match cs_writeBackDueAt s !! k with Some t => t ≤ now | None => True end.
Proof.
  unfold dueChunk. destruct (find _ l) as [k'|] eqn:Ef; [|done]. cbn.
  apply find_some in Ef as [_ Hf]. destruct (cs_chunks s !! k') as [c'|] eqn:E; [|done].
  cbn. intros [= <- <-]. rewrite E. apply andb_true_iff in Hf as [? Ht]. split_and!; [done..|].
  destruct (cs_writeBackDueAt s !! k') as [t|]; [|done]. apply negb_true_iff, Z.ltb_ge in Ht. lia.
Qed.

(** One voxel of one chunk as its owner sees it. *)
Section Voxel.
Context {C : Type} `{Sender C} (k : ChunkCoord) (x y z : Z).

Definition voxelShows (s : ChunkStore) (value : Z * bytes) : Prop :=
  voxelTypeAt s k x y z = Some value.1 ∧
  voxelStateAt s k x y z = if decide (value.2 = []) then None else Some (mkVoxelState value.1 value.2).

Definition isHere (k' : ChunkCoord) (x' y' z' : Z) : Prop := (k', x', y', z') = (k, x, y, z).
Definition carries (n : SpatialNotification) (v : VoxelPayloadView) (value : Z * bytes) : Prop :=
  isHere (sn_chunk n) (vx v) (vy v) (vz v) ∧ (v_voxelType v, v_state v) = value.

Abbreviation here := (λ s, pendingEdits s k (voxelKey x y z)).

(** The traffic of the voxel: [traffic s vals last] when the store is [s], the local edits the
    server has not delivered back yet carry [vals] (oldest first), and [last] is the newest edit
    the server delivered. The server delivers the local edits in the order they left; other
    clients' edits match none of them; no edit waits past its time to live. Meanwhile the chunks
    are marked and written back; none is hydrated, inserted or pruned. *)
Inductive traffic : ChunkStore → list (Z * bytes) → Z * bytes → Prop :=
| traffic_start s value : store_ok s → here s = [] → voxelShows s value → traffic s [] value
| traffic_set s vals last (c : C) t st u optimistic now s' c' q :
    traffic s vals last → unexpired s k (voxelKey x y z) now → (length st ≤ 1024)%nat →
    setVoxel s c k x y z t st u optimistic now = (s', c', Val q) → traffic s' (vals ++ [(t, st)]) last
| traffic_echo s value vals last n v now e p :
    traffic s (value :: vals) last → unexpired s k (voxelKey x y z) now → carries n v value →
    here s = e :: p → isEcho (sn_sequence n) (uuidArray n) e = true →
    traffic (ingestVoxel s n v now).1 vals value
| traffic_other s value vals last n v now :
    traffic s vals last → unexpired s k (voxelKey x y z) now → carries n v value →
    Forall (λ e, isEcho (sn_sequence n) (uuidArray n) e = false) (here s) →
    traffic (ingestVoxel s n v now).1 vals value
| traffic_refused s vals last (c : C) t st u now s' c' e :
    traffic s vals last → setVoxel s c k x y z t st u false now = (s', c', Err e) → traffic s' vals last
| traffic_mark s vals last k' : traffic s vals last → traffic (markDirty s k') vals last
| traffic_tick s vals last W (src : ChunkSource W) order (w : W) now s' w' r :
    traffic s vals last → chunkTick order s w now = Some (s', w', r) → traffic s' vals last
| traffic_set_elsewhere s vals last (c : C) k' x' y' z' t st u optimistic now :
    traffic s vals last → ¬ isHere k' x' y' z' →
    traffic (setVoxel s c k' x' y' z' t st u optimistic now).1.1 vals last
| traffic_ingest_elsewhere s vals last n v now :
    traffic s vals last → ¬ isHere (sn_chunk n) (vx v) (vy v) (vz v) →
    in_s 16 (vx v) → in_s 16 (vy v) → in_s 16 (vz v) →
    traffic (ingestVoxel s n v now).1 vals last.

Hypothesis Hx : in_s 16 x.
Hypothesis Hy : in_s 16 y.
Hypothesis Hz : in_s 16 z.

(** What the store shows: the server's newest edit when no local edit is in flight; the newest
    local edit when no other edit was delivered over it. *)
Record shows_inv (s : ChunkStore) (vals : list (Z * bytes)) (last : Z * bytes) : Prop := {
  si_ok : store_ok s;
  si_length : length (here s) = length vals;
  si_settled : vals = [] → voxelShows s last;
  si_newest e value : list.last (here s) = Some e → list.last vals = Some value →
    pe_stale e = false → voxelShows s value;
}.

Lemma reads_shows s s' t st : reads_written s s' k x y z t st → voxelShows s' (t, st).
Proof. intros Hr. destruct (Hr k x y z) as [Ht Hst]. rewrite !decide_True in * by done. by split. Qed.

Lemma reads_elsewhere s s' k' x' y' z' t st value :
  reads_written s s' k' x' y' z' t st → ¬ isHere k' x' y' z' → voxelShows s value → voxelShows s' value.
Proof.
  intros Hr Hn [H1 H2]. destruct (Hr k x y z) as [Ht Hst]. unfold isHere in Hn.
  rewrite !decide_False in * by congruence. split; congruence.
Qed.

Lemma chunks_shows s s' value : cs_chunks s' = cs_chunks s → voxelShows s value → voxelShows s' value.
Proof. intros E [H1 H2]. destruct (readers_chunks s s' E k x y z) as [E1 E2]. split; congruence. Qed.

Lemma isHere_key k' x' y' z' :
  in_s 16 x' → in_s 16 y' → in_s 16 z' → ¬ isHere k' x' y' z' → (k, voxelKey x y z) ≠ (k', voxelKey x' y' z').
Proof.
  intros ??? Hn E. apply Hn. injection E as E1 E2. apply voxelKey_inj in E2 as (? & ? & ?); try done.
  unfold isHere. congruence.
Qed.

Lemma setVoxel_split s (c : C) k' x' y' z' t st u (b : bool) now :
  in_s 16 x' → in_s 16 y' → in_s 16 z' → (length st ≤ 1024)%nat →
  let s1 := if b then applyLocal s k' x' y' z' t st true else s in
  (setVoxel s c k' x' y' z' t st u b now).1.1 =
  match (setVoxel s c k' x' y' z' t st u b now).2 with
  | Val q => rememberEdit s1 k' (voxelKey x' y' z') now (mkPendingEdit u q now (negb b))
  | Err _ => s1
  end.
Proof.
  intros Hx' Hy' Hz' Hl s1. unfold setVoxel. rewrite !(proj2 (fitsInt16_in_s _)) by done.
  cbn [negb orb]. rewrite decide_False by (unfold voxel_kMaxStateSize; lia). rewrite !(wrapS_id 16) by (lia || done).
  by destruct sendVoxelUpdate as [c' [q|e]].
Qed.

Lemma applyLocal_pending s k' x' y' z' t st b : cs_pending (applyLocal s k' x' y' z' t st b) = cs_pending s.
Proof. unfold applyLocal, setDirty. by repeat case_match. Qed.

Lemma inv_set_elsewhere s vals last (c : C) k' x' y' z' t st u b now :
  shows_inv s vals last → ¬ isHere k' x' y' z' →
  shows_inv (setVoxel s c k' x' y' z' t st u b now).1.1 vals last.
Proof.
  intros [Hok Hlen Hset Hnew] Hn.
  destruct (decide (in_s 16 x' ∧ in_s 16 y' ∧ in_s 16 z' ∧ (length st ≤ 1024)%nat)) as [(Hx' & Hy' & Hz' & Hl)|Hi].
  2: { rewrite setVoxel_invalid; [by split|]. destruct (decide (in_s 16 x')), (decide (in_s 16 y')), (decide (in_s 16 z')); auto.
    do 3 right. unfold voxel_kMaxStateSize. assert (¬ (length st ≤ 1024)%nat) by tauto. lia. }
  pose proof (setVoxel_ok s c k' x' y' z' t st u b now Hok) as Hok'.
  pose proof (setVoxel_split s c k' x' y' z' t st u b now Hx' Hy' Hz' Hl) as E. cbv zeta in E.
  set (s1 := if b then applyLocal s k' x' y' z' t st true else s) in E.
  assert (here s1 = here s) as Hp1 by (unfold s1; destruct b; [|done]; unfold pendingEdits; by rewrite applyLocal_pending).
  assert (∀ value, voxelShows s value → voxelShows s1 value) as Hs1.
  { unfold s1. destruct b; [|done]. intros. eapply reads_elsewhere; [by apply applyLocal_reads|done..]. }
  set (s' := (setVoxel s c k' x' y' z' t st u b now).1.1) in *.
  assert (here s' = here s ∧ cs_chunks s' = cs_chunks s1) as [Hp Hc].
  { rewrite E. destruct (setVoxel _ _ _ _ _ _ _ _ _ _ _).2; [|by rewrite Hp1].
    rewrite rememberEdit_chunks. split; [|done]. pose proof (isHere_key k' x' y' z' Hx' Hy' Hz' Hn).
    rewrite rememberEdit_pending by (intros; subst; congruence). by rewrite decide_False. }
  split; [done|by rewrite Hp| |].
  - intros Hv. eapply chunks_shows; [done|]. auto.
  - rewrite Hp. intros e value ? ? ?. eapply chunks_shows; [done|]. eauto.
Qed.

Lemma inv_set s vals last (c : C) t st u b now s' c' q :
  shows_inv s vals last → unexpired s k (voxelKey x y z) now → (length st ≤ 1024)%nat →
  setVoxel s c k x y z t st u b now = (s', c', Val q) → shows_inv s' (vals ++ [(t, st)]) last.
Proof.
  intros [Hok Hlen Hset Hnew] Hu Hl Es.
  pose proof (setVoxel_ok s c k x y z t st u b now Hok) as Hok'.
  pose proof (setVoxel_split s c k x y z t st u b now Hx Hy Hz Hl) as E. cbv zeta in E.
  rewrite Es in E, Hok'. cbn in E, Hok'.
  set (s1 := if b then applyLocal s k x y z t st true else s) in E.
  assert (here s1 = here s) as Hp1 by (unfold s1; destruct b; [|done]; unfold pendingEdits; by rewrite applyLocal_pending).
  assert (here s' = here s ++ [mkPendingEdit u q now (negb b)]) as Hp.
  { rewrite E, rememberEdit_pending by (intros; unfold unexpired; by rewrite Hp1). by rewrite decide_True, Hp1. }
  split; [done|by rewrite Hp, !length_app, Hlen|by destruct vals|].
  rewrite Hp. intros e value. rewrite !list.last_snoc. intros [= <-] [= <-] Hst. cbn in Hst.
  destruct b; [|done]. eapply chunks_shows; [rewrite E; apply rememberEdit_chunks|].
  eapply reads_shows, applyLocal_reads; done.
Qed.

Lemma ingestVoxel_split s n v now :
  let '(s1, apply) := takeEcho s n v now in
  (ingestVoxel s n v now).1 =
    if (apply : bool) then applyLocal s1 (sn_chunk n) (vx v) (vy v) (vz v) (v_voxelType v) (v_state v) false else s1.
Proof. unfold ingestVoxel. destruct takeEcho as [s1 []]; done. Qed.

(** A delivery that is applied: the voxel shows it. *)
Lemma applied_shows s n v value :
  store_ok s → carries n v value →
  voxelShows (applyLocal s (sn_chunk n) (vx v) (vy v) (vz v) (v_voxelType v) (v_state v) false) value.
Proof.
  intros Hok [Hh <-]. unfold isHere in Hh. injection Hh as -> -> -> ->.
  eapply reads_shows, applyLocal_reads; done.
Qed.

Lemma here_applyLocal s k' x' y' z' t st b : here (applyLocal s k' x' y' z' t st b) = here s.
Proof. unfold pendingEdits. by rewrite applyLocal_pending. Qed.

Lemma carries_key s n v value :
  carries n v value →
  pendingEdits s (sn_chunk n) (voxelKey (vx v) (vy v) (vz v)) = here s ∧
  ∀ now, unexpired s (sn_chunk n) (voxelKey (vx v) (vy v) (vz v)) now = unexpired s k (voxelKey x y z) now.
Proof. intros [Hh _]. unfold isHere in Hh. by injection Hh as -> -> -> ->. Qed.

Lemma inv_echo s value vals last n v now e p :
  shows_inv s (value :: vals) last → unexpired s k (voxelKey x y z) now → carries n v value →
  here s = e :: p → isEcho (sn_sequence n) (uuidArray n) e = true →
  shows_inv (ingestVoxel s n v now).1 vals value.
Proof.
  intros [Hok Hlen Hset Hnew] Hu Hc Hh He. destruct (carries_key s n v value Hc) as [Ek Eu].
  destruct (takeEcho_here s n v now) as [Hp Ha]; [by rewrite Eu|]. rewrite Ek, Hh in Hp, Ha.
  pose proof (ingestVoxel_split s n v now) as E. pose proof (takeEcho_ok s n v now Hok) as Hok1.
  pose proof (takeEcho_chunks s n v now) as Hch. pose proof (ingestVoxel_ok s n v now Hok) as Hok'.
  destruct (takeEcho s n v now) as [s1 apply]. cbn [fst snd] in *.
  rewrite (proj1 (carries_key s1 n v value Hc)) in Hp. cbn in Hp, Ha. rewrite decide_True in Hp, Ha by done.
  cbn in Hp, Ha. rewrite Hh in Hlen, Hnew. cbn in Hlen.
  assert (here (ingestVoxel s n v now).1 = p) as Hp'
    by (rewrite E; destruct apply; [by rewrite here_applyLocal|done]).
  split; [done|rewrite Hp'; lia| |].
  - intros ->. destruct p; [|cbn in Hlen; lia]. cbn in Ha. rewrite E.
    destruct (pe_stale e) eqn:Es; cbn in Ha; subst apply; [by apply applied_shows|].
    eapply chunks_shows; [exact Hch|]. by apply (Hnew e).
  - rewrite Hp'. intros e' value' Hl Hv Hst. destruct p as [|e2 p2]; [done|].
    assert (apply = false) as ->. { rewrite Ha. cbn. by rewrite andb_false_r. }
    rewrite E. eapply chunks_shows; [exact Hch|]. apply (Hnew e'); [|destruct vals; [done|]|done]; by rewrite list.last_cons_cons.
Qed.

Lemma list_find_none_iff (f : PendingEdit → bool) l :
  Forall (λ e, f e = false) l → list_find (λ e, f e = true) l = None.
Proof.
  intros Hl. apply list_find_None. eapply list.Forall_impl; [exact Hl|]. cbn. by intros e ->.
Qed.

Lemma inv_other s value vals last n v now :
  shows_inv s vals last → unexpired s k (voxelKey x y z) now → carries n v value →
  Forall (λ e, isEcho (sn_sequence n) (uuidArray n) e = false) (here s) →
  shows_inv (ingestVoxel s n v now).1 vals value.
Proof.
  intros [Hok Hlen Hset Hnew] Hu Hc Hno. destruct (carries_key s n v value Hc) as [Ek Eu].
  destruct (takeEcho_here s n v now) as [Hp Ha]; [by rewrite Eu|]. rewrite Ek in Hp, Ha.
  pose proof (ingestVoxel_split s n v now) as E. pose proof (takeEcho_ok s n v now Hok) as Hok1.
  pose proof (ingestVoxel_ok s n v now Hok) as Hok'.
  destruct (takeEcho s n v now) as [s1 apply]. cbn [fst snd] in *.
  rewrite (proj1 (carries_key s1 n v value Hc)) in Hp.
  rewrite list_find_none_iff in Hp, Ha by done. subst apply.
  assert (here (ingestVoxel s n v now).1 =
    (λ e, mkPendingEdit (pe_uuid e) (pe_sequence e) (pe_sentAtMs e) true) <$> here s) as Hp'
    by (by rewrite E, here_applyLocal).
  split; [done|by rewrite Hp', length_fmap| |].
  - intros _. rewrite E. by apply applied_shows.
  - rewrite Hp', fmap_last. intros e' value' Hl _. destruct (list.last (here s)); [|done]. by injection Hl as <-.
Qed.

Lemma inv_ingest_elsewhere s vals last n v now :
  shows_inv s vals last → ¬ isHere (sn_chunk n) (vx v) (vy v) (vz v) →
  in_s 16 (vx v) → in_s 16 (vy v) → in_s 16 (vz v) →
  shows_inv (ingestVoxel s n v now).1 vals last.
Proof.
  intros [Hok Hlen Hset Hnew] Hn Hx' Hy' Hz'.
  pose proof (takeEcho_elsewhere s n v now k (voxelKey x y z) (isHere_key _ _ _ _ Hx' Hy' Hz' Hn)) as Hp.
  pose proof (ingestVoxel_split s n v now) as E. pose proof (takeEcho_ok s n v now Hok) as Hok1.
  pose proof (takeEcho_chunks s n v now) as Hch. pose proof (ingestVoxel_ok s n v now Hok) as Hok'.
  destruct (takeEcho s n v now) as [s1 apply]. cbn [fst snd] in *.
  assert (here (ingestVoxel s n v now).1 = here s) as Hp'
    by (rewrite E; destruct apply; by rewrite ?here_applyLocal).
  assert (∀ value, voxelShows s value → voxelShows (ingestVoxel s n v now).1 value) as Hv.
  { intros value Hs. apply (chunks_shows s s1) in Hs; [|done]. rewrite E. destruct apply; [|done].
    eapply reads_elsewhere; [by apply applyLocal_reads|done..]. }
  split; [done|by rewrite Hp'|auto|]. rewrite Hp'. eauto.
Qed.

(** A step that touches neither the pending edits of the voxel nor what it reads. *)
Lemma inv_kept s s' vals last :
  shows_inv s vals last → store_ok s' → cs_pending s' = cs_pending s →
  (∀ k x y z, voxelTypeAt s' k x y z = voxelTypeAt s k x y z ∧ voxelStateAt s' k x y z = voxelStateAt s k x y z) →
  shows_inv s' vals last.
Proof.
  intros [Hok Hlen Hset Hnew] Hok' Hp Hr.
  assert (here s' = here s) as Eh by (unfold pendingEdits; by rewrite Hp).
  assert (∀ v, voxelShows s v → voxelShows s' v) as Hv by (intros v [? ?]; destruct (Hr k x y z); split; congruence).
  split; [done|by rewrite Eh|auto|]. rewrite Eh. eauto.
Qed.

Lemma inv_refused s vals last (c : C) t st u now s' c' e :
  shows_inv s vals last → setVoxel s c k x y z t st u false now = (s', c', Err e) → shows_inv s' vals last.
Proof.
  intros Hi. unfold setVoxel. case_match; [by intros [= <- _ _]|]. case_decide; [by intros [= <- _ _]|].
  destruct sendVoxelUpdate as [c1 [q|e']]; [done|]. by intros [= <- _ _].
Qed.

Lemma inv_mark s vals last k' : shows_inv s vals last → shows_inv (markDirty s k') vals last.
Proof.
  intros Hi. eapply inv_kept; [done|apply markDirty_ok, Hi| |].
  - unfold markDirty, setDirty. by repeat case_match.
  - intros k0 x0 y0 z0. unfold markDirty. destruct (cs_chunks s !! k') as [c|] eqn:E; [|done]. case_match eqn:Hm; [|done].
    apply andb_prop in Hm as [_ Hd%negb_true_iff]. unfold setDirty. rewrite Hd. unfold voxelTypeAt, voxelStateAt. cbn. destruct (decide (k' = k0)) as [<-|]; [|by rewrite lookup_insert_ne].
    by rewrite lookup_insert_eq, E.
Qed.

Lemma inv_tick s vals last W (src : ChunkSource W) order (w : W) now s' w' r :
  shows_inv s vals last → chunkTick order s w now = Some (s', w', r) → shows_inv s' vals last.
Proof.
  intros Hi. unfold chunkTick. set (s1 := withTimes s (cs_lastWriteBackMs s) now).
  assert (shows_inv s1 vals last) as Hi1 by (eapply inv_kept; [exact Hi|apply withTimes_ok, Hi|done|done]).
  case_match; [by intros [= <- _ _]|]. case_match; [by intros [= <- _ _]|].
  destruct (dueChunk s1 now _) as [[k' c]|] eqn:Ed; [|by intros [= <- _ _]].
  apply dueChunk_Some in Ed as (E & Hd & _).
  destruct (attemptWriteBack (withTimes s1 now now) w k' c now) as [[[[s2 w2] r2] f]|] eqn:Ea; [|done].
  intros [= <- _ _]. assert (store_ok (withTimes s1 now now)) as Hok by (apply withTimes_ok, withTimes_ok, Hi).
  pose proof (attemptWriteBack_frame _ _ _ _ _ _ _ _ _ Hok E Hd Ea) as Hf.
  eapply inv_kept; [exact Hi1|by eapply attemptWriteBack_ok|apply (af_pending _ _ _ Hf)|apply (af_reads _ _ _ Hf)].
Qed.

Lemma traffic_inv s vals last : traffic s vals last → shows_inv s vals last.
Proof.
  induction 1; [|by eapply inv_set|by eapply inv_echo|by eapply inv_other|by eapply inv_refused|by apply inv_mark|
    by eapply inv_tick|by apply inv_set_elsewhere|by apply inv_ingest_elsewhere].
  split; [done|by rewrite H1|done|by rewrite H1].
Qed.

End Voxel.

(** C40. Echoes converge. Take a voxel with no pending edit, and let any of these happen in any order:
    local edits of it, optimistic or not, whose send is taken, and others, not optimistic, whose
    send is refused; their delivery back, in the order they left and within the time to live;
    edits of it by other clients; edits and deliveries of any kind on other voxels; and the
    write-back of the chunks. Then once every local edit that left has been delivered back, the
    voxel shows exactly the newest edit the server delivered. While some are in flight, the store
    remembers one pending edit for each, and the voxel shows the newest local edit unless another
    client's edit overtook it. Left out: an optimistic edit whose send is refused (it stays
    shown, [refused_edit_stays]), one that waits past its time to live, and the hydration,
    insertion and pruning of the chunk. *)
Theorem voxel_edits_converge {C} `{Sender C} k x y z s vals last :
  in_s 16 x → in_s 16 y → in_s 16 z → traffic (C:=C) k x y z s vals last →
  (vals = [] → voxelShows k x y z s last) ∧
  length (pendingEdits s k (voxelKey x y z)) = length vals ∧
  ∀ e value, list.last (pendingEdits s k (voxelKey x y z)) = Some e → list.last vals = Some value →
    pe_stale e = false → voxelShows k x y z s value.
Proof.
  intros Hx Hy Hz Ht. destruct (traffic_inv k x y z Hx Hy Hz s vals last Ht) as [_ Hl Hs Hn]. auto.
Qed.

(** An edit of ours, one of another client over it, and our echo. *)
Definition sampleUuid (d : Z) : bytes := replicate 32 d.
Definition sampleStore : ChunkStore := makeChunkStore (mkChunkOptions 700 8 5 700) true.
Definition sampleConn : TestConnection := mkTestConnection 0 0 [] 0 [].
Definition sampleNote (u seq : Z) : SpatialNotification :=
  mkSpatialNotification 0 1 (mkChunk 0 0 0) (sampleUuid u) [] 0 seq.
Definition sampleEdited : ChunkStore :=
  (setVoxel sampleStore sampleConn (mkChunk 0 0 0) 1 2 3 7 [] (sampleUuid 1) true 0).1.1.
Definition sampleOvertaken : ChunkStore :=
  (ingestVoxel sampleEdited (sampleNote 2 9) (Build_VoxelPayloadView 1 2 3 5 []) 0).1.
Definition sampleSettled : ChunkStore :=
  (ingestVoxel sampleOvertaken (sampleNote 1 0) (Build_VoxelPayloadView 1 2 3 7 []) 0).1.

Lemma voxel_edits_converge_witness :
  voxelTypeAt sampleOvertaken (mkChunk 0 0 0) 1 2 3 = Some 5 ∧
  voxelShows (mkChunk 0 0 0) 1 2 3 sampleSettled (7, []).
Proof.
  split; [vm_compute; reflexivity|].
  assert (in_s 16 1 ∧ in_s 16 2 ∧ in_s 16 3) as (H1 & H2 & H3) by (unfold in_s; cbn; lia).
  apply (voxel_edits_converge (C:=TestConnection) (mkChunk 0 0 0) 1 2 3 sampleSettled [] (7, []) H1 H2 H3); [|reflexivity].
  eapply traffic_echo with (value := (7, [])) (last := (5, [])).
  - eapply traffic_other with (value := (5, [])) (last := (0, [])).
    + eapply (traffic_set _ _ _ _ sampleStore [] (0, []) sampleConn 7 [] (sampleUuid 1) true 0 sampleEdited).
      * apply traffic_start; [apply makeChunkStore_ok|vm_compute; reflexivity|split; vm_compute; reflexivity].
      * apply list.Forall_nil. done.
      * cbn. lia.
      * vm_compute. reflexivity.
    + apply list.Forall_cons. split; [vm_compute; congruence|by apply list.Forall_nil].
    + split; reflexivity.
    + apply list.Forall_cons. split; [vm_compute; reflexivity|by apply list.Forall_nil].
  - apply list.Forall_cons. split; [vm_compute; congruence|by apply list.Forall_nil].
  - split; reflexivity.
  - vm_compute. reflexivity.
  - vm_compute. reflexivity.
Defined.

(** ** Proofs: runs of the store *)

(** A traversal of the chunk map visits every chunk once. *)
Definition visits_chunks (order : gmap ChunkCoord ChunkData → list ChunkCoord) : Prop :=
  ∀ m, NoDup (order m) ∧ ∀ k, k ∈ order m ↔ is_Some (m !! k).

Definition keyOrder (m : gmap ChunkCoord ChunkData) : list ChunkCoord := (map_to_list m).*1.

Lemma keyOrder_visits : visits_chunks keyOrder.
Proof.
  intros m. split; [apply NoDup_fst_map_to_list|]. intros k. unfold keyOrder. rewrite list_elem_of_fmap. split.
  - intros ([k' c] & -> & ?%elem_of_map_to_list). by eexists.
  - intros [c ?]. exists (k, c). split; [done|]. by apply elem_of_map_to_list.
Qed.

Lemma dirtyCoords_spec order s :
  visits_chunks order →
  NoDup (dirtyCoords (order (cs_chunks s)) s) ∧ (∀ k, isDirty s k = true ↔ k ∈ dirtyCoords (order (cs_chunks s)) s) ∧
  length (dirtyCoords (order (cs_chunks s)) s) = dirtyCount (cs_chunks s).
Proof.
  intros Ho. destruct (Ho (cs_chunks s)) as [Hnd Hk]. unfold dirtyCoords.
  assert (∀ k, isDirty s k = true ↔ k ∈ filter (λ k, match cs_chunks s !! k with Some c => cd_dirty c | None => false end = true) (order (cs_chunks s))) as Hd.
  { intros k. rewrite list_elem_of_filter, Hk. unfold isDirty. destruct (cs_chunks s !! k); [|naive_solver].
    split; [|tauto]. intros; split; [done|by eexists]. }
  split_and!; [by apply list.NoDup_filter|done|].
  unfold dirtyCount. rewrite <- length_map_to_list, <- (length_fmap fst). apply Permutation_length, NoDup_Permutation.
  - by apply list.NoDup_filter.
  - apply NoDup_fst_map_to_list.
  - intros k. rewrite <- Hd, list_elem_of_fmap. unfold isDirty. split.
    + destruct (cs_chunks s !! k) as [c|] eqn:E; [|done]. intros Hc. exists (k, c). split; [done|].
      apply elem_of_map_to_list. by apply map_lookup_filter_Some.
    + intros ([k' c] & -> & Hc%elem_of_map_to_list). apply map_lookup_filter_Some in Hc as [E Hc]. cbn in *. by rewrite E.
Qed.

(** [flush] terminates with everything written or given up: after at most
    [writeBackAttempts] attempts on each dirty chunk, sleeping only doublings of the backoff, no
    chunk is dirty and no write-back is pending; every chunk that was dirty is counted persisted or
    reported dropped, refused or after its last attempt; and no voxel reads differently. *)
Theorem flush_settles {W} `{ChunkSource W} order s (w : W) :
  visits_chunks order → store_ok s → cs_hasSource s = true → co_writeBackAttempts (cs_options s) ≤ 65 →
  ∃ s' w' r, flush order s w = Some (s', w', r) ∧ store_ok s' ∧
    (∀ k, isDirty s' k = false) ∧ cs_pendingWriteBacks s' = 0 ∧
    (fr_persisted r + length (fr_dropped r) = dirtyCount (cs_chunks s))%nat ∧
    Forall (failure_fits (cs_options s)) (fr_dropped r) ∧
    Forall (backoff_wait (cs_options s)) (fr_waits r) ∧
    ∀ k x y z, voxelTypeAt s' k x y z = voxelTypeAt s k x y z ∧ voxelStateAt s' k x y z = voxelStateAt s k x y z.
Proof.
  intros Ho Hs Hsrc Hmax. unfold flush. rewrite Hsrc. cbn [negb].
  destruct (dirtyCoords_spec order s Ho) as (Hnd & Hd & Hlen).
  destruct (flushAll_spec _ s w (mkFlushResult 0 [] []) Hs Hmax Hnd Hd) as (s' & w' & r & -> & Hs' & Hc & [F1 F2 F3] & _ & Hv).
  cbn in F1, F2, F3. exists s', w', r. split_and!; auto; [|by rewrite F1, Hlen].
  rewrite (so_count s' Hs'). replace (dirtyCount (cs_chunks s')) with 0%nat; [done|].
  symmetry. unfold dirtyCount. apply map_size_empty_iff, map_empty. intros k. apply map_lookup_filter_None. right.
  intros c E Hd'. specialize (Hc k).
  unfold isDirty in Hc. rewrite E in Hc. cbn in Hd'. congruence.
Qed.

(** A durable source for concrete runs: it answers the writes with the outcomes in turn, then
    accepts them. *)
Record TestSource := mkTestSource {
  ts_stored : list StoredChunk; ts_outcomes : list GraphQLOutcome; ts_writes : list ChunkCoord }.

#[export] Instance TestSource_source : ChunkSource TestSource := {
  chunksAround w _ _ := (w, ts_stored w);
  writeChunk w k _ :=
    match ts_outcomes w with
    | [] => (mkTestSource (ts_stored w) [] (ts_writes w ++ [k]), mkOutcome Ok GNone [] 200)
    | o :: os => (mkTestSource (ts_stored w) os (ts_writes w ++ [k]), o)
    end;
}.

Definition busyOutcome : GraphQLOutcome := mkOutcome Ok GGraphQL [mkErrorDetail "PLATFORM_BUSY" true None] 200.
Definition refusedOutcome : GraphQLOutcome := mkOutcome Ok GGraphQL [mkErrorDetail "FORBIDDEN" false None] 200.

(** ** Every operation *)

Inductive ChunkOp :=
| OpMarkDirty (k : ChunkCoord) | OpInsert (k : ChunkCoord) (voxels : list Z)
| OpSet (k : ChunkCoord) (x y z t : Z) (st uuid : bytes) (optimistic : bool) (now : Z)
| OpIngest (n : SpatialNotification) (v : VoxelPayloadView) (now : Z)
| OpEnsure (center : ChunkCoord) (distance now : Z)
| OpTick (now : Z) | OpFlush | OpPrune (center : ChunkCoord) (distance : Z).

Section Runs.
Context {C : Type} `{Sender C} {W : Type} `{ChunkSource W}.
Context (order : gmap ChunkCoord ChunkData → list ChunkCoord).

Definition runChunkOp (st : ChunkStore * C * W) (op : ChunkOp) : option (ChunkStore * C * W) :=
  let '(s, c, w) := st in
  match op with
  | OpMarkDirty k => Some (markDirty s k, c, w)
  | OpInsert k voxels => Some (insertGenerated s k voxels, c, w)
  | OpSet k x y z t st u b now => let '(s, c, _) := setVoxel s c k x y z t st u b now in Some (s, c, w)
  | OpIngest n v now => Some ((ingestVoxel s n v now).1, c, w)
  | OpEnsure center d now => let '(s, w, _) := ensureAround s w center d now in Some (s, c, w)
  | OpTick now => '(s, w, _) ← chunkTick order s w now; Some (s, c, w)
  | OpFlush => '(s, w, _) ← flush order s w; Some (s, c, w)
  | OpPrune center d => '(s, w, _) ← pruneBeyond order s w center d; Some (s, c, w)
  end.

(** An inserted grid is a [std::array] of 4096 types. *)
Definition op_ok (op : ChunkOp) : Prop := match op with OpInsert _ v => length v = 4096%nat | _ => True end.

(** The coordinate differences of a prune fit in 64 bits. *)
Definition near (k : ChunkCoord) : Prop :=
  in_s 63 (cx k) ∧ in_s 63 (cy k) ∧ in_s 63 (cz k).
Definition prune_near (s : ChunkStore) (op : ChunkOp) : Prop :=
  match op with OpPrune center _ => near center ∧ ∀ k, is_Some (cs_chunks s !! k) → near k | _ => True end.

Inductive reachableStore (options : ChunkOptions) (src : bool) : ChunkStore * C * W → Prop :=
| rs_init c w : reachableStore options src (makeChunkStore options src, c, w)
| rs_step st op st' : reachableStore options src st → op_ok op → runChunkOp st op = Some st' →
    reachableStore options src st'.

Lemma applyLocal_options s k x y z t st b : cs_options (applyLocal s k x y z t st b) = cs_options s.
Proof. unfold applyLocal, setDirty. by repeat case_match. Qed.

Lemma livePending_options s k v now : cs_options (livePending s k v now).1 = cs_options s.
Proof. unfold livePending. by repeat case_match. Qed.

Lemma setVoxel_options s (c : C) k x y z t st u b now :
  cs_options (setVoxel s c k x y z t st u b now).1.1 = cs_options s.
Proof.
  unfold setVoxel. case_match; [done|]. case_decide; [done|].
  destruct sendVoxelUpdate as [c' [q|e]], b; cbn [fst]; unfold rememberEdit; cbn [storePending withPending cs_options];
    by rewrite ?livePending_options, ?applyLocal_options.
Qed.

Lemma ingestVoxel_options s n v now : cs_options (ingestVoxel s n v now).1 = cs_options s.
Proof.
  unfold ingestVoxel, takeEcho.
  pose proof (livePending_options s (sn_chunk n) (voxelKey (vx v) (vy v) (vz v)) now) as E.
  destruct (livePending s _ _ now) as [s' [l|]]; [|cbn [negb fst] in *; by rewrite applyLocal_options].
  destruct (list_find _ l) as [[i e]|]; cbn [negb fst] in *; [|by rewrite applyLocal_options].
  case_match; cbn [fst]; rewrite ?applyLocal_options; by rewrite livePending_options.
Qed.

Lemma ensureAround_options s (w : W) center d now : cs_options (ensureAround s w center d now).1.1 = cs_options s.
Proof.
  unfold ensureAround. case_match; [done|]. destruct chunksAround as [w' l]. cbn.
  clear. revert s. induction l as [|k l IH]; intros s; [done|]. cbn. by rewrite IH.
Qed.

(** What a tick does: nothing but note the time, or one attempt on one dirty chunk that is due. *)
Lemma chunkTick_spec s (w : W) now :
  store_ok s → co_writeBackAttempts (cs_options s) ≤ 65 →
  ∃ s' w' r, chunkTick order s w now = Some (s', w', r) ∧ store_ok s' ∧ cs_options s' = cs_options s ∧
    cs_lastWriteBackMs s' = match r with Some _ => now | None => cs_lastWriteBackMs s end.
Proof.
  intros Hs Hmax. unfold chunkTick. set (s1 := withTimes s (cs_lastWriteBackMs s) now).
  assert (store_ok s1) as Hs1 by (by apply withTimes_ok).
  case_match; [by exists s1, w, None|]. case_match; [by exists s1, w, None|].
  destruct (dueChunk s1 now _) as [[k c]|] eqn:Ed; [|by exists s1, w, None].
  apply dueChunk_Some in Ed as (E & Hd & _).
  destruct (attemptWriteBack_spec (withTimes s1 now now) w k c now) as (s2 & w2 & r & f & -> & Hs2 & Hf & _);
    [by apply withTimes_ok|done..|].
  exists s2, w2, (Some r). cbn. split_and!; [done..|by rewrite (af_options _ _ _ Hf)|by rewrite (af_last _ _ _ Hf)].
Qed.

Lemma pruneAll_spec l : ∀ s (w : W),
  store_ok s → co_writeBackAttempts (cs_options s) ≤ 65 →
  ∃ s' w' n, pruneAll s w l = Some (s', w', n) ∧ store_ok s' ∧ cs_options s' = cs_options s.
Proof.
  induction l as [|k l IH]; intros s w Hs Hmax; [by exists s, w, 0%nat|]. cbn.
  destruct (pruneChunk_spec s w k Hs Hmax) as (s1 & w1 & n1 & -> & Hs1 & Ho1 & _). cbn.
  destruct (IH s1 w1 Hs1) as (s2 & w2 & n2 & -> & Hs2 & Ho2); [by rewrite Ho1|].
  cbn. exists s2, w2, (n1 + n2)%nat. split_and!; [done..|congruence].
Qed.

Lemma chebyshev_near a b : near a → near b → is_Some (chebyshev a b).
Proof.
  intros (Ha1 & Ha2 & Ha3) (Hb1 & Hb2 & Hb3). unfold in_s in *. cbn in *.
  assert (∀ p q, in_s 63 p → in_s 63 q → ∃ r, (if q <? p then sub64 p q else sub64 q p) = Some r) as Hsub.
  { clear. unfold in_s. cbn. intros p q Hp Hq. unfold sub64.
    destruct (Z.ltb_spec q p); rewrite decide_True by (unfold in_s; cbn; lia); by eexists. }
  unfold chebyshev.
  destruct (Hsub (cx a) (cx b)) as [dx ->]; [unfold in_s; cbn; lia..|].
  destruct (Hsub (cy a) (cy b)) as [dy ->]; [unfold in_s; cbn; lia..|].
  destruct (Hsub (cz a) (cz b)) as [dz ->]; [unfold in_s; cbn; lia..|]. by eexists.
Qed.

Lemma distantCoords_total center d l :
  near center → (∀ k, k ∈ l → near k) → is_Some (distantCoords center d l).
Proof.
  intros Hc. induction l as [|k l IH]; intros Hl; [by eexists|]. cbn.
  destruct (chebyshev_near k center) as [r ->]; [apply Hl; set_solver|done|]. cbn.
  destruct IH as [ks ->]; [set_solver|]. by eexists.
Qed.

Context (Horder : visits_chunks order).

(** Every operation keeps the invariant and the options; only a prune across more than 63 bits of
    coordinates can be undefined. *)
Lemma runChunkOp_spec s (c : C) (w : W) op :
  store_ok s → co_writeBackAttempts (cs_options s) ≤ 65 → op_ok op → 
  (∀ st', runChunkOp (s, c, w) op = Some st' → store_ok st'.1.1 ∧ cs_options st'.1.1 = cs_options s) ∧
  (prune_near s op → is_Some (runChunkOp (s, c, w) op)).
Proof.
  intros Hs Hmax Hop.
  assert (∀ s' c' w', runChunkOp (s, c, w) op = Some (s', c', w') → store_ok s' → cs_options s' = cs_options s →
    (∀ st', runChunkOp (s, c, w) op = Some st' → store_ok st'.1.1 ∧ cs_options st'.1.1 = cs_options s) ∧
    (prune_near s op → is_Some (runChunkOp (s, c, w) op))) as Hwrap.
  { intros s' c' w' E H1 H2. rewrite E. split; [by intros st' [= <-]|by eexists]. }
  destruct op as [k|k v|k x y z t st u b now|n v now|center d now|now| |center d]; cbn in Hwrap |- *.
  - eapply Hwrap; [done|by apply markDirty_ok|]. unfold markDirty, setDirty. by repeat case_match.
  - eapply Hwrap; [done|by apply insertGenerated_ok|]. unfold insertGenerated, setDirty. by repeat case_match.
  - pose proof (setVoxel_ok s c k x y z t st u b now Hs). pose proof (setVoxel_options s c k x y z t st u b now).
    destruct (setVoxel s c k x y z t st u b now) as [[s' c'] r]. by eapply Hwrap.
  - eapply Hwrap; [done|by apply ingestVoxel_ok|apply ingestVoxel_options].
  - pose proof (ensureAround_ok s w center d now Hs). pose proof (ensureAround_options s w center d now).
    destruct (ensureAround s w center d now) as [[s' w'] r]. by eapply Hwrap.
  - destruct (chunkTick_spec s w now Hs Hmax) as (s' & w' & r & E & ? & ? & _). rewrite E in *. by eapply Hwrap.
  - unfold flush in *. destruct (negb (cs_hasSource s)); [by eapply Hwrap|].
    destruct (dirtyCoords_spec order s Horder) as (Hnd & Hd & _).
    destruct (flushAll_spec _ s w (mkFlushResult 0 [] []) Hs Hmax Hnd Hd) as (s' & w' & r & E & ? & _ & _ & ? & _).
    rewrite E in *. by eapply Hwrap.
  - unfold pruneBeyond in *. destruct (distantCoords center d (order (cs_chunks s))) as [l|] eqn:Ed.
    + cbn in *. destruct (pruneAll_spec l s w Hs Hmax) as (s' & w' & n & E & ? & ?). rewrite E in *. by eapply Hwrap.
    + cbn. split; [done|]. intros [Hc Hk]. destruct (distantCoords_total center d (order (cs_chunks s)) Hc) as [? Ex].
      * intros k Hin. apply Hk. by apply (Horder (cs_chunks s)).
      * congruence.
Qed.

Lemma reachableStore_ok options src st :
  co_writeBackAttempts options ≤ 65 → reachableStore options src st →
  store_ok st.1.1 ∧ cs_options st.1.1 = options.
Proof.
  intros Hmax. induction 1 as [c w|[[s c] w] op st' _ [IH1 IH2] Hop Hr]; [by split; [apply makeChunkStore_ok|]|].
  cbn in IH1, IH2. destruct (runChunkOp_spec s c w op IH1) as [Hk _]; [by rewrite IH2|done|].
  destruct (Hk st' Hr) as [? ->]. done.
Qed.

End Runs.

(** C39. The chunk store stays well-formed: with at most 65 write-back attempts, in every state any
    sequence of its operations reaches, the pending write-back counter is the number of dirty
    chunks, nothing is dirty when write-back is off, only dirty chunks have retry records, with
    fewer failed attempts than the limit, and no empty echo lists are kept; and there every
    operation is defined, except a prune whose coordinate differences overflow. A larger limit is
    not covered: the backoff would be shifted by 64 ([writeBack_shift_undefined]). *)
Theorem chunkStore_stays_ok {C} `{Sender C} {W} `{ChunkSource W} order options src s (c : C) (w : W) :
  visits_chunks order → co_writeBackAttempts options ≤ 65 → reachableStore order options src (s, c, w) →
  store_ok s ∧ cs_options s = options ∧
  ∀ op, op_ok op → prune_near s op → is_Some (runChunkOp order (s, c, w) op).
Proof.
  intros Ho Hmax Hr. destruct (reachableStore_ok order Ho options src _ Hmax Hr) as [Hs Eo]. cbn in Hs, Eo.
  split_and!; [done..|]. intros op Hop Hn. eapply runChunkOp_spec; [done..|by rewrite Eo|done|done].
Qed.

Definition sampleSent : TestConnection := mkTestConnection 1 0 [] 0 [Build_VoxelPayloadView 1 2 3 7 []].

Lemma chunkStore_stays_ok_witness :
  store_ok sampleEdited ∧
  is_Some (runChunkOp keyOrder (sampleEdited, sampleSent, mkTestSource [] [] []) (OpPrune (mkChunk 9 0 0) 3)).
Proof.
  destruct (chunkStore_stays_ok keyOrder (mkChunkOptions 700 8 5 700) true sampleEdited sampleSent (mkTestSource [] [] []))
    as (H1 & _ & H3).
  - apply keyOrder_visits.
  - cbn. lia.
  - eapply (rs_step _ _ _ (sampleStore, sampleConn, mkTestSource [] [] []) (OpSet (mkChunk 0 0 0) 1 2 3 7 [] (sampleUuid 1) true 0)).
    + apply rs_init.
    + exact I.
    + vm_compute. reflexivity.
  - split; [exact H1|]. apply H3; [exact I|]. split; [unfold near, in_s; cbn; lia|].
    intros k [ch E]. assert (map_to_list (cs_chunks sampleEdited) = [(mkChunk 0 0 0, chunkAt sampleEdited (mkChunk 0 0 0))])
      as Em by (vm_compute; reflexivity).
    apply elem_of_map_to_list in E. rewrite Em in E. apply list_elem_of_singleton in E.
    injection E as -> _. unfold near, in_s. cbn. lia.
Defined.

(** ** What modelling showed *)

(** With a limit above 65, the attempt after the 64th failure shifts the backoff by 64 bits. *)
Example writeBack_shift_undefined :
  let k := mkChunk 0 0 0 in
  let options := mkChunkOptions 700 8 66 700 in
  let s := (setVoxel (makeChunkStore options true) sampleConn k 1 2 3 7 [] (sampleUuid 1) true 0).1.1 in
  let s := withRetries s {[k := 64]} ∅ in
  (∀ c, cs_chunks s !! k = Some c → attemptWriteBack s (mkTestSource [] [busyOutcome] []) k c 0 = None) ∧
  is_Some (cs_chunks s !! k).
Proof. split; [intros c E; vm_compute in E; injection E as <-; vm_compute; reflexivity|vm_compute; by eexists]. Qed.

(** An optimistic edit whose send is refused stays shown over the server's newest value, with no
    pending edit that would put it right. *)
Example refused_edit_stays :
  let k := mkChunk 0 0 0 in
  let s := (ingestVoxel sampleStore (sampleNote 2 9) (Build_VoxelPayloadView 1 2 3 5 []) 0).1 in
  let '(s', _, r) := setVoxel s (mkTestConnection 0 1 [] 0 []) k 1 2 3 7 [] (sampleUuid 1) true 0 in
  voxelTypeAt s k 1 2 3 = Some 5 ∧ r = Err WouldBlock ∧ voxelTypeAt s' k 1 2 3 = Some 7 ∧
  pendingEdits s' k (voxelKey 1 2 3) = [].
Proof. vm_compute. auto. Qed.

(** [insertGenerated] replaces the grid but keeps the overlay and the states, so a voxel of the new
    chunk can still read as an old edit. *)
Example insertGenerated_keeps_overlay :
  let k := mkChunk 0 0 0 in
  let s := (setVoxel sampleStore sampleConn k 1 2 3 300 [] (sampleUuid 1) true 0).1.1 in
  let s := insertGenerated s k (replicate 4096 9) in
  voxelTypeAt s k 1 2 3 = Some 300 ∧ voxelTypeAt s k 1 2 4 = Some 9 ∧
  (c ← cs_chunks s !! k; cd_voxels c !! Z.to_nat (voxelIndex 1 2 3)) = Some 9.
Proof. vm_compute. auto. Qed.
