(* ===== verification/Connection.v ===== *)
(** * The replication connection

    [include/crowdy/replication/connection.hpp] and [src/replication/connection.cpp]: the session
    state machine, the send path with its outbound bundle, the verified receive path into the
    event ring, and the dispatch of the ring. Every method is a computation in a state monad over
    the members and the world behind them ([Net]: the clock, the UDP socket, the session
    provider); a method runs without interleaving with another. [None] is undefined behaviour or
    [std::terminate]. Handlers and [onEventsReady] are modelled by the calls they get; a handler
    does not call back here. Logging is left out. Clock values are taken to stay in range. *)

From S2P Require Import Prelude Bytes Protocol Codec Bundle Spsc Types Video.

Open Scope Z_scope.

(** ** The world *)

(** What the connection uses of the operating system and the session provider: [core::IClock],
    [UdpSocket] and [ISessionProvider]. *)
Class Net (W : Type) := {
  monotonicMillis : W → W * Z;
  epochMillis : W → W * Z;
  socketOpen : W → bytes → Z → Z → Z → W * Status;
  socketClose : W → W;
  socketIsOpen : W → bool;
  socketSend : W → bytes → W * Status;
  socketWake : W → W;
  socketCanWake : W → bool;
  recvBatch : W → nat → nat → Z → W * Result (list bytes);
  assignServer : W → W * Result Assignment;
  refreshToken : W → Assignment → W * Result TokenInfo;
}.

(** ** Data *)

Record Config := mkConfig {
  cf_appId : Z; cf_token : TokenInfo; cf_manualPump : bool; cf_preferIpv6 : bool; cf_sessionReadyWaitMs : Z;
  cf_refreshLeadMs : Z; cf_verifyNotifications : bool; cf_advertiseCapabilities : bool;
  cf_advertiseIntervalMs : Z; cf_watchdogSilenceMs : Z; cf_ringCapacity : Z;
  cf_socketRecvBufferBytes : Z; cf_socketSendBufferBytes : Z; cf_bundleSends : bool; cf_bundleWindowMs : Z;
  cf_onEventsReady : bool }.

(** [Stats]: every counter is a [uint64_t] that only grows; the [ByType] arrays are the indexed
    counters. *)
Inductive Counter :=
| DatagramsSent | DatagramsReceived | MessagesSent | MessagesReceived | BytesSent | BytesReceived
| BundlesSent | SendsDeferred | SendsFailed | MessagesDropped | HmacFailures | SignedBundlesReceived
| MalformedCount | RingDropped | Reconnects | SentByType (t : Z) | ReceivedByType (t : Z).

#[global] Instance Counter_eq_dec : EqDecision Counter.
Proof. solve_decision. Defined.

Definition bump (s : Counter → Z) (c : Counter) (n : Z) : Counter → Z :=
  λ c', if decide (c' = c) then u64 (s c' + n) else s c'.

Inductive EventKind := EvSpatial | EvChannel | EvError | EvStatus.

(** [Event]; [ev_data] is its [len] used octets. *)
Record Event := mkEvent { ev_kind : EventKind; ev_status : ConnState; ev_data : bytes }.
Definition noEvent : Event := mkEvent EvSpatial CIdle [].

Record Credentials := mkCredentials { cr_token : bytes; cr_mac : option IMac; cr_gameTokenId : Z }.

Record WaitOutcome := mkWaitOutcome {
  wo_acknowledged : bool; wo_error : option Z; wo_serverEpochMs : Z; wo_sessionChanged : bool }.
Definition noOutcome : WaitOutcome := mkWaitOutcome false None 0 false.
Record PendingWait := mkPendingWait {
  pw_active : bool; pw_sequence : Z; pw_uuid : bytes; pw_outcome : WaitOutcome; pw_done : bool }.
Definition zeroUuid : bytes := replicate kUuidSize 0.
Definition noWait : PendingWait := mkPendingWait false 0 zeroUuid noOutcome false.

(** [Handlers]: which of the callbacks are set, and the calls they get. *)
Inductive HandlerKind :=
| HActorUpdate | HVoxelUpdate | HAudio | HVideo | HActorLeft | HText | HClientEvent | HServerEvent
| HGenericSpatial | HSingleActorMessage | HChannelMessage | HChannelAudio | HGenericError | HAny | HStatus.
Definition Handlers := HandlerKind → bool.

Inductive Call :=
| CallSpatial (h : HandlerKind) (n : SpatialNotification)
| CallVoxel (n : SpatialNotification) (v : VoxelPayloadView)
| CallActorLeft (n : SpatialNotification) (reason : Z)
| CallEvent (h : HandlerKind) (n : SpatialNotification) (e : EventPayloadView)
| CallChannel (h : HandlerKind) (n : ChannelNotification)
| CallError (e : GenericError)
| CallStatus (s : ConnState).

Record Times := mkTimes { t_readyAtMs : Z; t_lastRecvMs : Z; t_lastCapsMs : Z; t_lastSendMs : Z }.

(** [k_signals] counts the calls of [onEventsReady]; [k_joinable] is [netThread_.joinable()]. *)
Record Conn (W : Type) := mkConn {
  k_config : Config; k_world : W; k_assignment : Assignment; k_token : TokenInfo; k_token64 : bytes;
  k_mac : option IMac; k_handlers : Handlers; k_ring : SpscRing (T := Event); k_state : ConnState;
  k_sequence : Z; k_running : bool; k_joinable : bool; k_times : Times; k_reconnectRequested : bool;
  k_eventsSignalled : bool; k_signals : nat; k_sessionEpoch : Z; k_confirmedEpoch : Z; k_wait : PendingWait;
  k_count : Counter → Z; k_lastServerEpochMs : Z; k_bundle : BundleWriter; k_bundleOpenedMs : Z }.
Arguments mkConn {W}. Arguments k_config {W}. Arguments k_world {W}. Arguments k_assignment {W}.
Arguments k_token {W}. Arguments k_token64 {W}. Arguments k_mac {W}. Arguments k_handlers {W}.
Arguments k_ring {W}. Arguments k_state {W}. Arguments k_sequence {W}. Arguments k_running {W}.
Arguments k_joinable {W}. Arguments k_times {W}. Arguments k_reconnectRequested {W}.
Arguments k_eventsSignalled {W}. Arguments k_signals {W}. Arguments k_sessionEpoch {W}.
Arguments k_confirmedEpoch {W}. Arguments k_wait {W}. Arguments k_count {W}. Arguments k_lastServerEpochMs {W}.
Arguments k_bundle {W}. Arguments k_bundleOpenedMs {W}.

(** One setter per member. *)
Section Setters.
Context {W : Type}.
Definition set_world (x : W) (c : Conn W) : Conn W :=
  mkConn (k_config c) x (k_assignment c) (k_token c) (k_token64 c) (k_mac c) (k_handlers c) (k_ring c)
    (k_state c) (k_sequence c) (k_running c) (k_joinable c) (k_times c) (k_reconnectRequested c)
    (k_eventsSignalled c) (k_signals c) (k_sessionEpoch c) (k_confirmedEpoch c) (k_wait c) (k_count c)
    (k_lastServerEpochMs c) (k_bundle c) (k_bundleOpenedMs c).
Definition set_assignment (x : Assignment) (c : Conn W) : Conn W :=
  mkConn (k_config c) (k_world c) x (k_token c) (k_token64 c) (k_mac c) (k_handlers c) (k_ring c) (k_state c)
    (k_sequence c) (k_running c) (k_joinable c) (k_times c) (k_reconnectRequested c) (k_eventsSignalled c)
    (k_signals c) (k_sessionEpoch c) (k_confirmedEpoch c) (k_wait c) (k_count c) (k_lastServerEpochMs c)
    (k_bundle c) (k_bundleOpenedMs c).
Definition set_token (x : TokenInfo) (c : Conn W) : Conn W :=
  mkConn (k_config c) (k_world c) (k_assignment c) x (k_token64 c) (k_mac c) (k_handlers c) (k_ring c)
    (k_state c) (k_sequence c) (k_running c) (k_joinable c) (k_times c) (k_reconnectRequested c)
    (k_eventsSignalled c) (k_signals c) (k_sessionEpoch c) (k_confirmedEpoch c) (k_wait c) (k_count c)
    (k_lastServerEpochMs c) (k_bundle c) (k_bundleOpenedMs c).
Definition set_token64 (x : bytes) (c : Conn W) : Conn W :=
  mkConn (k_config c) (k_world c) (k_assignment c) (k_token c) x (k_mac c) (k_handlers c) (k_ring c)
    (k_state c) (k_sequence c) (k_running c) (k_joinable c) (k_times c) (k_reconnectRequested c)
    (k_eventsSignalled c) (k_signals c) (k_sessionEpoch c) (k_confirmedEpoch c) (k_wait c) (k_count c)
    (k_lastServerEpochMs c) (k_bundle c) (k_bundleOpenedMs c).
Definition set_mac (x : option IMac) (c : Conn W) : Conn W :=
  mkConn (k_config c) (k_world c) (k_assignment c) (k_token c) (k_token64 c) x (k_handlers c) (k_ring c)
    (k_state c) (k_sequence c) (k_running c) (k_joinable c) (k_times c) (k_reconnectRequested c)
    (k_eventsSignalled c) (k_signals c) (k_sessionEpoch c) (k_confirmedEpoch c) (k_wait c) (k_count c)
    (k_lastServerEpochMs c) (k_bundle c) (k_bundleOpenedMs c).
Definition set_handlers (x : Handlers) (c : Conn W) : Conn W :=
  mkConn (k_config c) (k_world c) (k_assignment c) (k_token c) (k_token64 c) (k_mac c) x (k_ring c)
    (k_state c) (k_sequence c) (k_running c) (k_joinable c) (k_times c) (k_reconnectRequested c)
    (k_eventsSignalled c) (k_signals c) (k_sessionEpoch c) (k_confirmedEpoch c) (k_wait c) (k_count c)
    (k_lastServerEpochMs c) (k_bundle c) (k_bundleOpenedMs c).
Definition set_ring (x : SpscRing (T := Event)) (c : Conn W) : Conn W :=
  mkConn (k_config c) (k_world c) (k_assignment c) (k_token c) (k_token64 c) (k_mac c) (k_handlers c) x
    (k_state c) (k_sequence c) (k_running c) (k_joinable c) (k_times c) (k_reconnectRequested c)
    (k_eventsSignalled c) (k_signals c) (k_sessionEpoch c) (k_confirmedEpoch c) (k_wait c) (k_count c)
    (k_lastServerEpochMs c) (k_bundle c) (k_bundleOpenedMs c).
Definition set_state (x : ConnState) (c : Conn W) : Conn W :=
  mkConn (k_config c) (k_world c) (k_assignment c) (k_token c) (k_token64 c) (k_mac c) (k_handlers c)
    (k_ring c) x (k_sequence c) (k_running c) (k_joinable c) (k_times c) (k_reconnectRequested c)
    (k_eventsSignalled c) (k_signals c) (k_sessionEpoch c) (k_confirmedEpoch c) (k_wait c) (k_count c)
    (k_lastServerEpochMs c) (k_bundle c) (k_bundleOpenedMs c).
Definition set_sequence (x : Z) (c : Conn W) : Conn W :=
  mkConn (k_config c) (k_world c) (k_assignment c) (k_token c) (k_token64 c) (k_mac c) (k_handlers c)
    (k_ring c) (k_state c) x (k_running c) (k_joinable c) (k_times c) (k_reconnectRequested c)
    (k_eventsSignalled c) (k_signals c) (k_sessionEpoch c) (k_confirmedEpoch c) (k_wait c) (k_count c)
    (k_lastServerEpochMs c) (k_bundle c) (k_bundleOpenedMs c).
Definition set_running (x : bool) (c : Conn W) : Conn W :=
  mkConn (k_config c) (k_world c) (k_assignment c) (k_token c) (k_token64 c) (k_mac c) (k_handlers c)
    (k_ring c) (k_state c) (k_sequence c) x (k_joinable c) (k_times c) (k_reconnectRequested c)
    (k_eventsSignalled c) (k_signals c) (k_sessionEpoch c) (k_confirmedEpoch c) (k_wait c) (k_count c)
    (k_lastServerEpochMs c) (k_bundle c) (k_bundleOpenedMs c).
Definition set_joinable (x : bool) (c : Conn W) : Conn W :=
  mkConn (k_config c) (k_world c) (k_assignment c) (k_token c) (k_token64 c) (k_mac c) (k_handlers c)
    (k_ring c) (k_state c) (k_sequence c) (k_running c) x (k_times c) (k_reconnectRequested c)
    (k_eventsSignalled c) (k_signals c) (k_sessionEpoch c) (k_confirmedEpoch c) (k_wait c) (k_count c)
    (k_lastServerEpochMs c) (k_bundle c) (k_bundleOpenedMs c).
Definition set_times (x : Times) (c : Conn W) : Conn W :=
  mkConn (k_config c) (k_world c) (k_assignment c) (k_token c) (k_token64 c) (k_mac c) (k_handlers c)
    (k_ring c) (k_state c) (k_sequence c) (k_running c) (k_joinable c) x (k_reconnectRequested c)
    (k_eventsSignalled c) (k_signals c) (k_sessionEpoch c) (k_confirmedEpoch c) (k_wait c) (k_count c)
    (k_lastServerEpochMs c) (k_bundle c) (k_bundleOpenedMs c).
Definition set_reconnectRequested (x : bool) (c : Conn W) : Conn W :=
  mkConn (k_config c) (k_world c) (k_assignment c) (k_token c) (k_token64 c) (k_mac c) (k_handlers c)
    (k_ring c) (k_state c) (k_sequence c) (k_running c) (k_joinable c) (k_times c) x (k_eventsSignalled c)
    (k_signals c) (k_sessionEpoch c) (k_confirmedEpoch c) (k_wait c) (k_count c) (k_lastServerEpochMs c)
    (k_bundle c) (k_bundleOpenedMs c).
Definition set_eventsSignalled (x : bool) (c : Conn W) : Conn W :=
  mkConn (k_config c) (k_world c) (k_assignment c) (k_token c) (k_token64 c) (k_mac c) (k_handlers c)
    (k_ring c) (k_state c) (k_sequence c) (k_running c) (k_joinable c) (k_times c) (k_reconnectRequested c) x
    (k_signals c) (k_sessionEpoch c) (k_confirmedEpoch c) (k_wait c) (k_count c) (k_lastServerEpochMs c)
    (k_bundle c) (k_bundleOpenedMs c).
Definition set_signals (x : nat) (c : Conn W) : Conn W :=
  mkConn (k_config c) (k_world c) (k_assignment c) (k_token c) (k_token64 c) (k_mac c) (k_handlers c)
    (k_ring c) (k_state c) (k_sequence c) (k_running c) (k_joinable c) (k_times c) (k_reconnectRequested c)
    (k_eventsSignalled c) x (k_sessionEpoch c) (k_confirmedEpoch c) (k_wait c) (k_count c)
    (k_lastServerEpochMs c) (k_bundle c) (k_bundleOpenedMs c).
Definition set_sessionEpoch (x : Z) (c : Conn W) : Conn W :=
  mkConn (k_config c) (k_world c) (k_assignment c) (k_token c) (k_token64 c) (k_mac c) (k_handlers c)
    (k_ring c) (k_state c) (k_sequence c) (k_running c) (k_joinable c) (k_times c) (k_reconnectRequested c)
    (k_eventsSignalled c) (k_signals c) x (k_confirmedEpoch c) (k_wait c) (k_count c) (k_lastServerEpochMs c)
    (k_bundle c) (k_bundleOpenedMs c).
Definition set_confirmedEpoch (x : Z) (c : Conn W) : Conn W :=
  mkConn (k_config c) (k_world c) (k_assignment c) (k_token c) (k_token64 c) (k_mac c) (k_handlers c)
    (k_ring c) (k_state c) (k_sequence c) (k_running c) (k_joinable c) (k_times c) (k_reconnectRequested c)
    (k_eventsSignalled c) (k_signals c) (k_sessionEpoch c) x (k_wait c) (k_count c) (k_lastServerEpochMs c)
    (k_bundle c) (k_bundleOpenedMs c).
Definition set_wait (x : PendingWait) (c : Conn W) : Conn W :=
  mkConn (k_config c) (k_world c) (k_assignment c) (k_token c) (k_token64 c) (k_mac c) (k_handlers c)
    (k_ring c) (k_state c) (k_sequence c) (k_running c) (k_joinable c) (k_times c) (k_reconnectRequested c)
    (k_eventsSignalled c) (k_signals c) (k_sessionEpoch c) (k_confirmedEpoch c) x (k_count c)
    (k_lastServerEpochMs c) (k_bundle c) (k_bundleOpenedMs c).
Definition set_count (x : Counter → Z) (c : Conn W) : Conn W :=
  mkConn (k_config c) (k_world c) (k_assignment c) (k_token c) (k_token64 c) (k_mac c) (k_handlers c)
    (k_ring c) (k_state c) (k_sequence c) (k_running c) (k_joinable c) (k_times c) (k_reconnectRequested c)
    (k_eventsSignalled c) (k_signals c) (k_sessionEpoch c) (k_confirmedEpoch c) (k_wait c) x
    (k_lastServerEpochMs c) (k_bundle c) (k_bundleOpenedMs c).
Definition set_lastServerEpochMs (x : Z) (c : Conn W) : Conn W :=
  mkConn (k_config c) (k_world c) (k_assignment c) (k_token c) (k_token64 c) (k_mac c) (k_handlers c)
    (k_ring c) (k_state c) (k_sequence c) (k_running c) (k_joinable c) (k_times c) (k_reconnectRequested c)
    (k_eventsSignalled c) (k_signals c) (k_sessionEpoch c) (k_confirmedEpoch c) (k_wait c) (k_count c) x
    (k_bundle c) (k_bundleOpenedMs c).
Definition set_bundle (x : BundleWriter) (c : Conn W) : Conn W :=
  mkConn (k_config c) (k_world c) (k_assignment c) (k_token c) (k_token64 c) (k_mac c) (k_handlers c)
    (k_ring c) (k_state c) (k_sequence c) (k_running c) (k_joinable c) (k_times c) (k_reconnectRequested c)
    (k_eventsSignalled c) (k_signals c) (k_sessionEpoch c) (k_confirmedEpoch c) (k_wait c) (k_count c)
    (k_lastServerEpochMs c) x (k_bundleOpenedMs c).
Definition set_bundleOpenedMs (x : Z) (c : Conn W) : Conn W :=
  mkConn (k_config c) (k_world c) (k_assignment c) (k_token c) (k_token64 c) (k_mac c) (k_handlers c)
    (k_ring c) (k_state c) (k_sequence c) (k_running c) (k_joinable c) (k_times c) (k_reconnectRequested c)
    (k_eventsSignalled c) (k_signals c) (k_sessionEpoch c) (k_confirmedEpoch c) (k_wait c) (k_count c)
    (k_lastServerEpochMs c) (k_bundle c) x.
End Setters.

(** ** The monad *)

Definition M (W A : Type) : Type := Conn W → option (Conn W * A).

#[export] Instance M_ret W : MRet (M W) := λ A a c, Some (c, a).
#[export] Instance M_bind W : MBind (M W) := λ A B f m c, '(c, a) ← m c; f a c.

Section Operations.
Context {W : Type} `{Net W} (crypto : ICrypto).

Abbreviation M' := (M W).

Definition gets {A} (f : Conn W → A) : M' A := λ c, Some (c, f c).
Definition modify (f : Conn W → Conn W) : M' unit := λ c, Some (f c, tt).
(** A computation that may be undefined. *)
Definition lift {A} (o : option A) : M' A := λ c, a ← o; Some (c, a).
Definition world {A} (f : W → W * A) : M' A :=
  λ c, let '(w, a) := f (k_world c) in Some (set_world w c, a).
Definition whenM (b : bool) (m : M' unit) : M' unit := if b then m else mret tt.

Definition count (x : Counter) (n : Z) : M' unit := modify (λ c, set_count (bump (k_count c) x n) c).

(** ** Lifecycle *)

Definition makeConnection (config : Config) (w : W) (buffer : bytes) : option (Conn W) :=
  ring ← makeRing noEvent (cf_ringCapacity config);
  let c := mkConn config w (mkAssignment [] [] 0) (mkTokenInfo [] 0 0 false) (replicate kTokenOctets 0) None
    (λ _, false) ring CIdle 0 false false (mkTimes 0 0 0 0) false false 0 0 (2 ^ 64 - 1) noWait (λ _, 0) 0
    (bw_make buffer) 0 in
  let token := cf_token config in
  let c := set_token token c in
  Some (match Token64_fromString (ti_token token) with
        | Some t => set_mac (makeHmacSha256 crypto t) (set_token64 t c)
        | None => c
        end).

Definition setHandlers (h : Handlers) : M' unit := modify (set_handlers h).

Definition setToken (token : TokenInfo) : M' unit :=
  modify (set_token token);;
  match Token64_fromString (ti_token token) with
  | Some t => modify (λ c, set_mac (makeHmacSha256 crypto t) (set_token64 t c))
  | None => mret tt
  end.

Definition credentials : M' Credentials :=
  gets (λ c, mkCredentials (k_token64 c) (k_mac c) (ti_gameTokenId (k_token c))).

Definition requestReassignment : M' unit := modify (set_reconnectRequested true).

Definition signalEvents : M' unit :=
  cfg ← gets k_config;
  if negb (cf_onEventsReady cfg) then mret tt else
  signalled ← gets k_eventsSignalled;
  modify (set_eventsSignalled true);;
  if (signalled : bool) then mret tt else modify (λ c, set_signals (S (k_signals c)) c).

(** [ring_.tryPush] and [ring_.tryPop]. *)
Definition ringPush (e : Event) : M' bool :=
  r ← gets k_ring; '(r, pushed) ← lift (tryPush r e); modify (set_ring r);; mret pushed.
Definition ringPop : M' (option Event) :=
  r ← gets k_ring; '(r, e) ← lift (tryPop r); modify (set_ring r);; mret e.

Definition setState (next : ConnState) : M' unit :=
  prev ← gets k_state;
  modify (set_state next);;
  if decide (prev = next) then mret tt else
  whenM (bool_decide (next = CConnecting)) (modify (λ c, set_sessionEpoch (u64 (k_sessionEpoch c + 1)) c));;
  pushed ← ringPush (mkEvent EvStatus next []);
  whenM pushed signalEvents.

Definition doAssign : M' Status :=
  assigned ← world assignServer;
  match assigned with
  | Err e => mret e
  | Val endpoint =>
      cfg ← gets k_config;
      let host := if cf_preferIpv6 cfg && negb (bool_decide (as_ip6 endpoint = []))
                  then as_ip6 endpoint else as_ip4 endpoint in
      if bool_decide (host = []) || (as_clientPort endpoint <=? 0) then mret Rejected else
      st ← world (λ w, socketOpen w host (as_clientPort endpoint) (cf_socketRecvBufferBytes cfg)
                         (cf_socketSendBufferBytes cfg));
      if negb (ok st) then mret st else
      modify (set_assignment endpoint);;
      now ← world monotonicMillis;
      modify (set_times (mkTimes (now + cf_sessionReadyWaitMs cfg) 0 0 0));;
      mret Ok
  end.

(** Assigning a thread to a [netThread_] that is still joinable calls [std::terminate]. *)
Definition connect : M' Status :=
  token ← gets k_token;
  if decide (length (ti_token token) ≠ kTokenOctets) then mret InvalidArgument else
  state ← gets k_state;
  if bool_decide (state = CConnected) || bool_decide (state = CConnecting) then mret Ok else
  setState CConnecting;;
  st ← doAssign;
  if negb (ok st) then setState CFailed;; mret st else
  cfg ← gets k_config;
  if negb (cf_manualPump cfg) then
    modify (set_running true);;
    joinable ← gets k_joinable;
    lift (if (joinable : bool) then None else Some tt);;
    modify (set_joinable true);;
    mret Ok
  else mret Ok.

(** ** Send path *)

Definition touchSend (now : Z) (c : Conn W) : Conn W :=
  let t := k_times c in set_times (mkTimes (t_readyAtMs t) (t_lastRecvMs t) (t_lastCapsMs t) now) c.

Definition sendDatagram (data : bytes) : M' Status :=
  st ← world (λ w, socketSend w data);
  if ok st then
    now ← world monotonicMillis;
    modify (touchSend now);;
    count DatagramsSent 1;; count BytesSent (Z.of_nat (length data));;
    mret st
  else
    count (if decide (st = WouldBlock) then SendsDeferred else SendsFailed) 1;; mret st.

Definition countMessageSent (type : Z) : M' unit :=
  count MessagesSent 1;; count (SentByType type) 1.

Definition bundleExpiredLocked (nowMono : Z) : M' bool :=
  gets (λ c, cf_bundleWindowMs (k_config c) <=? nowMono - k_bundleOpenedMs c).

Definition flushBundleLocked : M' Status :=
  w ← gets k_bundle;
  if bw_empty w then mret Ok else
  datagram ← lift (bw_datagram w);
  st ← sendDatagram datagram;
  (if ok st then
     whenM (bool_decide (1 < bw_count w)%nat) (count BundlesSent 1);;
     modify (set_bundle (bw_reset w))
   else if decide (st = WouldBlock) then mret tt else
     count MessagesDropped (Z.of_nat (bw_count w));;
     modify (set_bundle (bw_reset w)));;
  mret st.

Definition transmit (data : bytes) : M' Status :=
  match data with
  | [] => mret InvalidArgument
  | type :: _ =>
      cfg ← gets k_config;
      let alone := (st ← sendDatagram data; whenM (ok st) (countMessageSent type);; mret st) in
      if negb (cf_bundleSends cfg) then alone else
      now ← world monotonicMillis;
      if decide (kMaxBundleMemberSize < length data)%nat then
        w ← gets k_bundle;
        whenM (negb (bw_empty w)) (flushBundleLocked;; mret tt);;
        alone
      else
      elapsed ← bundleExpiredLocked now;
      let expired := (0 <? cf_bundleWindowMs cfg) && elapsed in
      w ← gets k_bundle;
      st ← (if negb (bw_empty w) && (expired || negb (bw_fits w (length data))) then flushBundleLocked
            else mret Ok);
      w ← gets k_bundle;
      if negb (ok st) && negb (bw_fits w (length data)) then mret st else
      let opening := bw_empty w in
      whenM opening (modify (set_bundleOpenedMs now));;
      '(w, appended) ← lift (bw_append w data);
      modify (set_bundle w);;
      if negb appended then mret InvalidArgument else
      countMessageSent type;;
      whenM (opening && negb (cf_manualPump cfg)) (world (λ w, (socketWake w, tt)));;
      mret Ok
  end.

Definition flushExpiredBundle : M' unit :=
  cfg ← gets k_config;
  if negb (cf_bundleSends cfg) then mret tt else
  w ← gets k_bundle;
  if bw_empty w then mret tt else
  now ← world monotonicMillis;
  expired ← bundleExpiredLocked now;
  whenM expired (flushBundleLocked;; mret tt).

Definition flushSends : M' Status :=
  cfg ← gets k_config;
  if negb (cf_bundleSends cfg) then mret Ok else flushBundleLocked.

Definition receiveWaitMs (maxWaitMs : Z) : M' Z :=
  cfg ← gets k_config;
  if negb (cf_bundleSends cfg) then mret maxWaitMs else
  w ← gets k_bundle;
  if bw_empty w then
    canWake ← gets (λ c, socketCanWake (k_world c));
    if negb canWake then
      let window := if 0 <? cf_bundleWindowMs cfg then cf_bundleWindowMs cfg else 1 in
      mret (if window <? maxWaitMs then window else maxWaitMs)
    else mret maxWaitMs
  else
    now ← world monotonicMillis;
    opened ← gets k_bundleOpenedMs;
    let remaining := opened + cf_bundleWindowMs cfg - now in
    mret (if remaining <=? 0 then 0 else if remaining <? maxWaitMs then remaining else maxWaitMs).

Definition disconnect : M' unit :=
  modify (set_running false);;
  modify (set_joinable false);;
  flushSends;;
  world (λ w, (socketClose w, tt));;
  state ← gets k_state;
  whenM (bool_decide (state ≠ CClosed)) (setState CClosed).

(** ** Sends *)

Definition nextSequence : M' Z :=
  s ← gets k_sequence; modify (set_sequence (u8 (s + 1)));; mret s.

(** The buffer a message is encoded into. *)
Definition sendBuffer : bytes := replicate kMaxDatagramSize 0.

(** Handing an encoded message on: the end of every send. *)
Definition sendEncoded (encoded : option (bytes * Result nat)) (sequence : Z) : M' (Result Z) :=
  '(buf, n) ← lift encoded;
  match n with
  | Err e => mret (Err e)
  | Val n =>
      data ← lift (sub buf 0 n);
      st ← transmit data;
      if negb (ok st) then mret (Err st) else mret (Val sequence)
  end.

Definition sendLongSpatial (type : Z) (p : SpatialSend) : M' (Result Z) :=
  isOpen ← gets (λ c, socketIsOpen (k_world c));
  if negb isOpen then mret (Err NotConnected) else
  creds ← credentials;
  cfg ← gets k_config;
  sequence ← nextSequence;
  let params := Build_LongSpatialParams type (cf_appId cfg) (ss_chunk p) (ss_distance p) (ss_decay p)
    (ss_uuid p) (ss_payload p) (cr_gameTokenId creds) sequence in
  sendEncoded (encodeLongSpatial crypto params (cr_token creds) sendBuffer (cr_mac creds)) sequence.

Definition sendActorUpdate (p : SpatialSend) : M' (Result Z) := sendLongSpatial ActorUpdateRequest p.
Definition sendAudio (p : SpatialSend) : M' (Result Z) := sendLongSpatial ClientAudioPacket p.
Definition sendVideo (p : SpatialSend) : M' (Result Z) := sendLongSpatial ClientVideoPacket p.
Definition sendText (p : SpatialSend) : M' (Result Z) := sendLongSpatial ClientTextPacket p.
Definition sendGenericSpatial (p : SpatialSend) : M' (Result Z) := sendLongSpatial GenericSpatial1 p.

(** The payload buffer of the voxel and event sends. *)
Definition payloadBuffer : bytes := replicate kMaxLongSpatialPayload 0.

Definition sendPayload (type : Z) (chunk : ChunkCoord) (uuid : bytes) (encoded : option (bytes * Result nat))
    (distance decay : Z) : M' (Result Z) :=
  '(buf, pn) ← lift encoded;
  match pn with
  | Err e => mret (Err e)
  | Val n => payload ← lift (sub buf 0 n); sendLongSpatial type (mkSpatialSend chunk uuid payload distance decay)
  end.

Definition sendVoxelUpdate (chunk : ChunkCoord) (uuid : bytes) (x y z voxelType : Z) (voxelState : bytes)
    (distance decay : Z) : M' (Result Z) :=
  if decide (voxel_kMaxStateSize < length voxelState)%nat then mret (Err InvalidArgument) else
  sendPayload VoxelUpdateRequest chunk uuid (encodeVoxelPayload x y z voxelType voxelState payloadBuffer) distance decay.

Definition sendClientEvent (chunk : ChunkCoord) (uuid : bytes) (eventType : Z) (state : bytes)
    (distance decay : Z) : M' (Result Z) :=
  sendPayload ClientEventNotification chunk uuid (encodeEventPayload eventType state payloadBuffer) distance decay.

(** The fragments in order, up to the first refused one. *)
Fixpoint sendFragments (fragments : list bytes) (chunk : ChunkCoord) (uuid : bytes) (distance decay : Z)
    : M' (option Errc) :=
  match fragments with
  | [] => mret None
  | f :: fragments =>
      r ← sendLongSpatial ClientVideoPacket (mkSpatialSend chunk uuid f distance decay);
      match r with
      | Err e => mret (Some e)
      | Val _ => sendFragments fragments chunk uuid distance decay
      end
  end.

Definition sendVideoFrame (chunk : ChunkCoord) (uuid frame : bytes) (frameId codec distance decay : Z)
    : M' (Result nat) :=
  match fragmentFrame frame frameId codec kMaxVideoFragmentBodyBytes with
  | [] => mret (Err InvalidArgument)
  | fragments =>
      r ← sendFragments fragments chunk uuid distance decay;
      mret (match r with Some e => Err e | None => Val (length fragments) end)
  end.

Definition sendSingleActorMessage (targetChunk : ChunkCoord) (targetUuid payload : bytes) : M' (Result Z) :=
  sendLongSpatial SingleActorMessage (mkSpatialSend targetChunk targetUuid payload 0 DecayRate_None).

Definition sendChannelRequest (type channelId : Z) (uuid payload : bytes) : M' (Result Z) :=
  isOpen ← gets (λ c, socketIsOpen (k_world c));
  if negb isOpen then mret (Err NotConnected) else
  creds ← credentials;
  sequence ← nextSequence;
  let params := Build_ChannelMessageParams channelId uuid payload (cr_gameTokenId creds) sequence in
  sendEncoded (encodeChannelRequest type crypto params (cr_token creds) sendBuffer (cr_mac creds)) sequence.

Definition sendChannelMessage (channelId : Z) (uuid payload : bytes) : M' (Result Z) :=
  sendChannelRequest ChannelMessageRequest channelId uuid payload.
Definition sendChannelAudio (channelId : Z) (uuid payload : bytes) : M' (Result Z) :=
  sendChannelRequest ChannelAudioRequest channelId uuid payload.

Definition sendRangedChannelMessage (channelId : Z) (uuid payload : bytes) (origin : ChunkCoord)
    (maxDistance : Z) : M' (Result Z) :=
  isOpen ← gets (λ c, socketIsOpen (k_world c));
  if negb isOpen then mret (Err NotConnected) else
  if channel_ranged_kMaxDistance <? maxDistance then mret (Err InvalidArgument) else
  creds ← credentials;
  cfg ← gets k_config;
  sequence ← nextSequence;
  let params := Build_RangedChannelMessageParams channelId uuid (cf_appId cfg) origin maxDistance payload
    (cr_gameTokenId creds) sequence in
  sendEncoded (encodeRangedChannelMessage crypto params (cr_token creds) sendBuffer (cr_mac creds)) sequence.

Definition sendCapabilities : M' (Result Z) :=
  flags ← lift (le.writeU32 (replicate 4 0) 0 ClientCapability_kAll);
  sendLongSpatial ClientCapabilities (mkSpatialSend (mkChunk 0 0 0) zeroUuid flags 0 DecayRate_None).

Definition sendHeartbeat (chunk : ChunkCoord) (uuid : bytes) : M' (Result Z) :=
  sendLongSpatial ClientActorHeartbeat (mkSpatialSend chunk uuid [] 0 DecayRate_None).

(** ** Receive path *)

Definition touchRecv (now : Z) (c : Conn W) : Conn W :=
  let t := k_times c in set_times (mkTimes (t_readyAtMs t) now (t_lastCapsMs t) (t_lastSendMs t)) c.

(** How one message is classified: the event kind it is queued under, or why it is not. *)
Inductive Verdict := Queue (kind : EventKind) (serverEpochMs : option Z) | BadShape | BadHmac | Ignored.

Definition classify (verify : bool) (creds : Credentials) (type : Z) (message : bytes) : option Verdict :=
  if type =? GenericErrorMsg then
    r ← parseGenericError message;
    Some (if Result_ok r then Queue EvError None else BadShape)
  else if (type =? ChannelMessageNotification) || (type =? ChannelAudioNotification) then
    r ← parseChannelNotification message;
    Some (if Result_ok r then Queue EvChannel None else BadShape)
  else if type =? ClientCapabilities then Some Ignored
  else if isLongSpatialLayout type then
    r ← parseLongSpatial message;
    match r with
    | Err _ => Some BadShape
    | Val v =>
        st ← (if verify then verifyLongSpatial crypto message (cr_token creds) (cr_mac creds) else Some Ok);
        Some (if ok st then Queue EvSpatial (Some (v_epochMillisOrTokenId v)) else BadHmac)
    end
  else Some Ignored.

(** The callback of [forEachMessage]; whether it queued an event. *)
Definition handleMessage (creds : Credentials) (message : bytes) : M' bool :=
  match message with
  | [] => mret false
  | type :: _ =>
      cfg ← gets k_config;
      verdict ← lift (classify (cf_verifyNotifications cfg) creds type message);
      match verdict with
      | BadShape => count MalformedCount 1;; mret false
      | BadHmac => count HmacFailures 1;; mret false
      | Ignored => mret false
      | Queue kind serverEpochMs =>
          match serverEpochMs with Some t => modify (set_lastServerEpochMs t) | None => mret tt end;;
          if decide (kMaxDatagramSize < length message)%nat then count MalformedCount 1;; mret false else
          count MessagesReceived 1;; count (ReceivedByType type) 1;;
          pushed ← ringPush (mkEvent kind CIdle message);
          if (pushed : bool) then mret true else count RingDropped 1;; mret false
      end
  end.

Fixpoint handleMessages (creds : Credentials) (messages : list bytes) : M' bool :=
  match messages with
  | [] => mret false
  | m :: messages =>
      q ← handleMessage creds m; q' ← handleMessages creds messages; mret (q || q')
  end.

Definition startsWith (t : Z) (datagram : bytes) : bool :=
  match datagram with [] => false | t' :: _ => t' =? t end.

Definition handleDatagram (datagram : bytes) : M' unit :=
  count DatagramsReceived 1;; count BytesReceived (Z.of_nat (length datagram));;
  now ← world monotonicMillis;
  modify (touchRecv now);;
  if startsWith CommandReconnect datagram then
    token ← gets k_token64;
    st ← lift (verifyCommandReconnect crypto datagram token);
    if ok st then requestReassignment else count HmacFailures 1
  else
  creds ← credentials;
  let signedBundle := startsWith MessageBundleSigned datagram in
  whenM signedBundle (count SignedBundlesReceived 1);;
  st ← (if signedBundle then lift (verifySignedBundle crypto datagram (cr_token creds) (cr_mac creds)) else mret Ok);
  if negb (ok st) then count HmacFailures 1 else
  '(messages, bundleStatus) ← lift (forEachMessage datagram);
  queued ← handleMessages creds messages;
  whenM (negb (ok bundleStatus)) (count MalformedCount 1);;
  whenM queued signalEvents.

Fixpoint handleDatagrams (datagrams : list bytes) : M' unit :=
  match datagrams with
  | [] => mret tt
  | d :: datagrams => handleDatagram d;; handleDatagrams datagrams
  end.

Definition kSlot : nat := 2048.
Definition kBatch : nat := 16.

(** [receiveBatch]: batches until one is not full; [None] also when [fuel] batches were. *)
Fixpoint receiveBatch (fuel : nat) (wait : Z) : M' nat :=
  match fuel with
  | O => lift None
  | S fuel =>
      n ← world (λ w, recvBatch w kSlot kBatch wait);
      match n with
      | Err _ => mret 0%nat
      | Val [] => mret 0%nat
      | Val datagrams =>
          handleDatagrams datagrams;;
          if decide (length datagrams < kBatch)%nat then mret (length datagrams) else
          rest ← receiveBatch fuel 0; mret (length datagrams + rest)%nat
      end
  end.

(** ** Housekeeping *)

Definition advertise (nowMono : Z) : M' unit :=
  cfg ← gets k_config; state ← gets k_state; t ← gets k_times;
  whenM (cf_advertiseCapabilities cfg && bool_decide (state = CConnected) &&
         ((t_lastCapsMs t =? 0) || (cf_advertiseIntervalMs cfg <=? nowMono - t_lastCapsMs t)))
    (modify (set_times (mkTimes (t_readyAtMs t) (t_lastRecvMs t) nowMono (t_lastSendMs t)));;
     sendCapabilities;; mret tt).

Definition refreshDue (epochNow expiresAt : Z) (cfg : Config) : bool :=
  (0 <? cf_refreshLeadMs cfg) && (0 <? expiresAt) && (expiresAt - cf_refreshLeadMs cfg <=? epochNow).

Definition refresh : M' unit :=
  cfg ← gets k_config; token ← gets k_token;
  if negb ((0 <? cf_refreshLeadMs cfg) && (0 <? ti_expiresAtEpochMs token)) then mret tt else
  epochNow ← world epochMillis;
  whenM (refreshDue epochNow (ti_expiresAtEpochMs token) cfg)
    (current ← gets k_assignment;
     refreshed ← world (λ w, refreshToken w current);
     match refreshed with
     | Val fresh => setToken fresh;; whenM (negb (ti_authorizedOnCurrentServer fresh)) requestReassignment
     | Err _ =>
         modify (λ c, set_token (mkTokenInfo (ti_token (k_token c)) (ti_gameTokenId (k_token c))
           (ti_expiresAtEpochMs (k_token c) + 30 * 1000) (ti_authorizedOnCurrentServer (k_token c))) c)
     end).

Definition watchdogFires (nowMono : Z) (cfg : Config) (state : ConnState) (t : Times) : bool :=
  (0 <? cf_watchdogSilenceMs cfg) && bool_decide (state = CConnected) && (0 <? t_lastRecvMs t) &&
  (t_lastRecvMs t <? t_lastSendMs t) && (cf_watchdogSilenceMs cfg <? nowMono - t_lastRecvMs t).

Definition watchdog (nowMono : Z) : M' unit :=
  cfg ← gets k_config; state ← gets k_state; t ← gets k_times;
  whenM (watchdogFires nowMono cfg state t) requestReassignment.

Definition reassign : M' unit :=
  requested ← gets k_reconnectRequested;
  modify (set_reconnectRequested false);;
  whenM requested
    (setState CReconnecting;;
     count Reconnects 1;;
     flushSends;;
     world (λ w, (socketClose w, tt));;
     st ← doAssign;
     setState (if ok st then CConnecting else CFailed)).

Definition housekeeping : M' unit :=
  nowMono ← world monotonicMillis;
  state ← gets k_state; t ← gets k_times;
  whenM (bool_decide (state = CConnecting) && (t_readyAtMs t <=? nowMono)) (setState CConnected);;
  advertise nowMono;;
  refresh;;
  watchdog nowMono;;
  reassign.

(** One turn of [netLoop]; whether the loop goes on. *)
Definition netPass (fuel : nat) : M' bool :=
  running ← gets k_running;
  if negb running then mret false else
  wait ← receiveWaitMs 20;
  receiveBatch fuel wait;;
  flushExpiredBundle;;
  housekeeping;;
  state ← gets k_state;
  mret (negb (bool_decide (state = CFailed))).

Definition pump (fuel : nat) (timeoutMs : Z) : M' nat :=
  cfg ← gets k_config;
  if negb (cf_manualPump cfg) then mret 0%nat else
  wait ← receiveWaitMs timeoutMs;
  n ← receiveBatch fuel wait;
  flushExpiredBundle;;
  housekeeping;;
  mret n.

(** ** Dispatch *)

Definition onlyCall (b : bool) (c : Call) : list Call := if b then [c] else [].

(** The typed handler of a spatial notification. *)
Definition dispatchTyped (h : Handlers) (v : LongSpatialView) (n : SpatialNotification) : option (list Call) :=
  let typed k := Some (onlyCall (h k) (CallSpatial k n)) in
  let event k :=
    if h k then
      r ← parseEventPayload (v_payload v);
      Some (match r with Val e => [CallEvent k n e] | Err _ => [] end)
    else Some [] in
  let t := v_type v in
  if t =? ActorUpdateNotification then typed HActorUpdate else
  if t =? VoxelUpdateNotification then
    if h HVoxelUpdate then
      r ← parseVoxelPayload (v_payload v);
      Some (match r with Val x => [CallVoxel n x] | Err _ => [] end)
    else Some [] else
  if t =? ClientAudioNotification then typed HAudio else
  if t =? ClientVideoNotification then typed HVideo else
  if t =? ActorLeftNotification then
    Some (onlyCall (h HActorLeft) (CallActorLeft n (actorLeftReason (v_payload v)))) else
  if t =? ClientTextNotification then typed HText else
  if t =? ClientEventNotification then event HClientEvent else
  if t =? ServerEventNotification then event HServerEvent else
  if t =? GenericSpatial1 then typed HGenericSpatial else
  if t =? SingleActorMessage then typed HSingleActorMessage else Some [].

Definition notificationOf (v : LongSpatialView) : SpatialNotification :=
  mkSpatialNotification (v_type v) (v_appId v) (v_chunk v) (v_uuid v) (v_payload v)
    (v_epochMillisOrTokenId v) (v_sequence v).

Definition dispatchSpatial (h : Handlers) (v : LongSpatialView) : option (list Call) :=
  let n := notificationOf v in
  typed ← dispatchTyped h v n; Some (onlyCall (h HAny) (CallSpatial HAny n) ++ typed).

(** What an echo or an error does to the wait in progress. *)
Definition waitError (w : PendingWait) (e : GenericErrorView) : PendingWait :=
  if pw_active w && negb (pw_done w) && (ge_sequence e =? pw_sequence w) then
    let o := pw_outcome w in
    mkPendingWait (pw_active w) (pw_sequence w) (pw_uuid w)
      (mkWaitOutcome (wo_acknowledged o) (Some (ge_code e)) (wo_serverEpochMs o) (wo_sessionChanged o)) true
  else w.
Definition waitEcho (w : PendingWait) (v : LongSpatialView) : PendingWait :=
  if pw_active w && negb (pw_done w) && (v_sequence v =? pw_sequence w) && bool_decide (v_uuid v = pw_uuid w) then
    let o := pw_outcome w in
    mkPendingWait (pw_active w) (pw_sequence w) (pw_uuid w)
      (mkWaitOutcome true (wo_error o) (v_epochMillisOrTokenId v) (wo_sessionChanged o)) true
  else w.

(** One event of the drain. *)
Definition dispatchEvent (h : Handlers) (e : Event) : M' (list Call) :=
  let message := ev_data e in
  match ev_kind e with
  | EvStatus => mret (onlyCall (h HStatus) (CallStatus (ev_status e)))
  | EvError =>
      r ← lift (parseGenericError message);
      match r with
      | Err _ => mret []
      | Val err =>
          whenM (ge_code err =? ErrorCode_TokenExpired) requestReassignment;;
          modify (λ c, set_wait (waitError (k_wait c) err) c);;
          mret (onlyCall (h HGenericError) (CallError (mkGenericError (ge_sequence err) (ge_code err))))
      end
  | EvChannel =>
      r ← lift (parseChannelNotification message);
      match r with
      | Err _ => mret []
      | Val ch =>
          let n := mkChannelNotification (n_channelId ch) (n_senderUuid ch) (n_payload ch) (n_epochMillis ch)
                     (n_sequence ch) in
          t ← lift (le.readU8 message 0);
          let audio := t =? ChannelAudioNotification in
          mret (onlyCall (audio && h HChannelAudio) (CallChannel HChannelAudio n) ++
                onlyCall (negb audio && h HChannelMessage) (CallChannel HChannelMessage n))
      end
  | EvSpatial =>
      r ← lift (parseLongSpatial message);
      match r with
      | Err _ => mret []
      | Val v =>
          modify (λ c, set_wait (waitEcho (k_wait c) v) c);;
          lift (dispatchSpatial h v)
      end
  end.

(** The drain of at most [maxEvents] events: the calls made, how many events, and whether the
    ring was found empty. *)
Fixpoint drain (h : Handlers) (maxEvents : nat) : M' (list Call * nat * bool) :=
  match maxEvents with
  | O => mret ([], 0%nat, false)
  | S maxEvents =>
      e ← ringPop;
      match e with
      | None => mret ([], 0%nat, true)
      | Some e =>
          calls ← dispatchEvent h e;
          '(rest, n, drained) ← drain h maxEvents;
          mret (calls ++ rest, S n, drained)
      end
  end.

Definition poll (maxEvents : nat) : M' (list Call * nat) :=
  h ← gets k_handlers;
  modify (set_eventsSignalled false);;
  '(calls, dispatched, drained) ← drain h maxEvents;
  whenM (negb drained) signalEvents;;
  mret (calls, dispatched).


(** ** AndWait *)

(** [poll()]: no more events are queued than the ring has slots, so this bound drains it. *)
Definition pollAll : M' (list Call * nat) :=
  r ← gets k_ring; poll (S (length (slots_ r))).

Definition setOutcome (o : WaitOutcome) (w : PendingWait) : PendingWait :=
  mkPendingWait (pw_active w) (pw_sequence w) (pw_uuid w) o (pw_done w).

(** The loop of [awaitSequence]. [schedule] is what the other threads do in each turn ([mret tt]
    for nothing); [None] also when the wait outlasts it. Returns the calls its polls made. *)
Fixpoint awaitLoop (batches : nat) (endOnNewSession : bool) (epoch deadline : Z) (schedule : list (M' unit))
    : M' (list Call) :=
  w ← gets k_wait;
  if pw_done w then mret [] else
  now ← world monotonicMillis;
  if deadline <=? now then mret [] else
  match schedule with
  | [] => lift None
  | others :: schedule =>
      others;;
      cfg ← gets k_config;
      whenM (cf_manualPump cfg) (pump batches 5;; mret tt);;
      '(calls, _) ← pollAll;
      w ← gets k_wait; epoch' ← gets k_sessionEpoch; state ← gets k_state;
      if endOnNewSession && negb (pw_done w) && negb (epoch' =? epoch) && bool_decide (state = CConnected) then
        let o := pw_outcome w in
        modify (set_wait (setOutcome (mkWaitOutcome (wo_acknowledged o) (wo_error o) (wo_serverEpochMs o) true) w));;
        mret calls
      else
        rest ← awaitLoop batches endOnNewSession epoch deadline schedule; mret (calls ++ rest)
  end.

(** The calls made while waiting, and the outcome. *)
Definition awaitSequence (batches : nat) (sequence : Z) (uuid : bytes) (timeoutMs : Z) (endOnNewSession : bool)
    (schedule : list (M' unit)) : M' (list Call * WaitOutcome) :=
  flushSends;;
  modify (set_wait (mkPendingWait true sequence uuid noOutcome false));;
  epoch ← gets k_sessionEpoch;
  now ← world monotonicMillis;
  calls ← awaitLoop batches endOnNewSession epoch (now + timeoutMs) schedule;
  w ← gets k_wait;
  modify (set_wait (mkPendingWait false (pw_sequence w) (pw_uuid w) (pw_outcome w) (pw_done w)));;
  mret (calls, pw_outcome w).

Definition waitForSequence (batches : nat) (sequence : Z) (uuid : bytes) (timeoutMs : Z)
    (schedule : list (M' unit)) : M' (list Call * WaitOutcome) :=
  awaitSequence batches sequence uuid timeoutMs false schedule.

Definition isFirstSendFailure (outcome : WaitOutcome) (echoed : bool) : bool :=
  match wo_error outcome with
  | Some code => code =? ErrorCode_Unauthorized
  | None => echoed && negb (wo_acknowledged outcome)
  end.

(** [schedule] and [schedule'] are those of the wait and of the retry's wait. *)
Definition sendAndWait (batches : nat) (send : M' (Result Z)) (uuid : bytes) (timeoutMs : Z) (echoed : bool)
    (schedule schedule' : list (M' unit)) : M' (list Call * WaitOutcome) :=
  epoch ← gets k_sessionEpoch;
  seq ← send;
  match seq with
  | Err _ => mret ([], noOutcome)
  | Val s =>
      '(calls, outcome) ← awaitSequence batches s uuid timeoutMs echoed schedule;
      confirmed ← gets k_confirmedEpoch;
      '(calls, outcome, sentEpoch) ←
        (if wo_sessionChanged outcome || (negb (epoch =? confirmed) && isFirstSendFailure outcome echoed) then
           sentEpoch ← gets k_sessionEpoch;
           retry ← send;
           match retry with
           | Err _ => mret (calls, outcome, sentEpoch)
           | Val s =>
               '(calls', o) ← awaitSequence batches s uuid timeoutMs false schedule';
               mret (calls ++ calls', o, sentEpoch)
           end
         else mret (calls, outcome, epoch));
      whenM (wo_acknowledged outcome || (negb echoed && bool_decide (wo_error outcome = None)))
        (modify (set_confirmedEpoch sentEpoch));;
      mret (calls, outcome)
  end.

Definition sendActorUpdateAndWait (batches : nat) (p : SpatialSend) (timeoutMs : Z)
    (schedule schedule' : list (M' unit)) : M' (list Call * WaitOutcome) :=
  sendAndWait batches (sendActorUpdate p) (ss_uuid p) timeoutMs true schedule schedule'.

Definition sendVoxelUpdateAndWait (batches : nat) (chunk : ChunkCoord) (uuid : bytes) (x y z voxelType : Z)
    (voxelState : bytes) (distance decay timeoutMs : Z) (schedule schedule' : list (M' unit))
    : M' (list Call * WaitOutcome) :=
  sendAndWait batches (sendVoxelUpdate chunk uuid x y z voxelType voxelState distance decay) uuid timeoutMs true
    schedule schedule'.

Definition sendTextAndWait (batches : nat) (p : SpatialSend) (timeoutMs : Z) (schedule schedule' : list (M' unit))
    : M' (list Call * WaitOutcome) :=
  sendAndWait batches (sendText p) (ss_uuid p) timeoutMs false schedule schedule'.

End Operations.
