(* ===== verification/ConnectionLaws.v ===== *)
(** * The replication connection: rules of its operations

    Total correctness of the computations of [Connection] ([wp]), what the connection relies on of
    the world ([NetLaws], with a concrete world), its abstract state (the queued events and the
    pending messages), and what each operation does to it. *)

From S2P Require Import Prelude Bytes Protocol Codec Bundle Spsc Types Video Connection.

Open Scope Z_scope.

(** ** Total correctness *)

Section Wp.
Context {W : Type}.

(** [m] is defined at [c] and ends in a result and a state that satisfy [Q]. *)
Definition wp {A} (m : M W A) (Q : A → Conn W → Prop) (c : Conn W) : Prop :=
  match m c with Some (c', a) => Q a c' | None => False end.

Lemma wp_elim {A} (m : M W A) Q c : wp m Q c → ∃ c' a, m c = Some (c', a) ∧ Q a c'.
Proof. unfold wp. destruct (m c) as [[c' a]|]; [eauto|done]. Qed.

Lemma wp_run {A} (m : M W A) (Q : A → Conn W → Prop) c c' a : wp m Q c → m c = Some (c', a) → Q a c'.
Proof. unfold wp. intros Hwp E. by rewrite E in Hwp. Qed.

Lemma wp_mono {A} (m : M W A) (P Q : A → Conn W → Prop) c :
  wp m P c → (∀ a c', P a c' → Q a c') → wp m Q c.
Proof. unfold wp. destruct (m c) as [[c' a]|]; auto. Qed.

Lemma wp_bind {A B} (m : M W A) (f : A → M W B) Q c :
  wp m (λ a c', wp (f a) Q c') c → wp (m ≫= f) Q c.
Proof. unfold wp, mbind, M_bind. by destruct (m c) as [[c' a]|]. Qed.

Lemma wp_ret {A} (a : A) (Q : A → Conn W → Prop) c : Q a c → wp (mret a) Q c.
Proof. done. Qed.

Lemma wp_gets {A} (f : Conn W → A) (Q : A → Conn W → Prop) c : Q (f c) c → wp (gets f) Q c.
Proof. done. Qed.

Lemma wp_modify f (Q : unit → Conn W → Prop) c : Q tt (f c) → wp (modify f) Q c.
Proof. done. Qed.

Lemma wp_lift {A} (o : option A) (Q : A → Conn W → Prop) c a : o = Some a → Q a c → wp (lift o) Q c.
Proof. by intros ->. Qed.

Lemma wp_world {A} (f : W → W * A) (Q : A → Conn W → Prop) c :
  (∀ w a, f (k_world c) = (w, a) → Q a (set_world w c)) → wp (world f) Q c.
Proof. unfold wp, world. destruct (f (k_world c)) as [w a] eqn:E. eauto. Qed.

Lemma wp_count x n (Q : unit → Conn W → Prop) c : Q tt (set_count (bump (k_count c) x n) c) → wp (count x n) Q c.
Proof. done. Qed.

Lemma wp_when b (m : M W unit) (Q : unit → Conn W → Prop) c :
  (b = true → wp m Q c) → (b = false → Q tt c) → wp (whenM b m) Q c.
Proof. intros H1 H2. destruct b; [by apply H1|by apply H2]. Qed.
End Wp.

(** One structural step of a computation. *)
Ltac wp_step :=
  lazymatch goal with
  | |- wp (mbind _ _) _ _ => apply wp_bind
  | |- wp (mret _) _ _ => apply wp_ret
  | |- wp (gets _) _ _ => apply wp_gets
  | |- wp (modify _) _ _ => apply wp_modify
  | |- wp (count _ _) _ _ => apply wp_count
  | |- wp (whenM _ _) _ _ => apply wp_when; intros ?
  | |- wp (world _) _ _ => apply wp_world; intros ?w ?a ?Hw; cbn in Hw
  end; cbv beta.
Ltac wps := repeat wp_step.

(** ** The world *)

(** [sentLog] is what the socket has put on the wire, [inbound] bounds the datagrams yet to
    arrive and [clockNow] is the time: a send that answers [Ok] and nothing else puts its datagram on the wire; an open that
    answers [Ok] leaves the socket open; a receive returns at most the datagrams asked for, of
    those yet to arrive; a failed assignment has an error code. *)
Definition later_by {W} (inb : W → nat) (now : W → Z) (w w' : W) : Prop :=
  (inb w' ≤ inb w)%nat ∧ now w ≤ now w'.
Definition quiet_by {W} `{Net W} (log : W → list bytes) (inb : W → nat) (now : W → Z) (w w' : W) : Prop :=
  log w' = log w ∧ socketIsOpen w' = socketIsOpen w ∧ later_by inb now w w'.

Class NetLaws (W : Type) `{Net W} := {
  sentLog : W → list bytes;
  inbound : W → nat;
  clockNow : W → Z;
  law_monotonic w w' t : monotonicMillis w = (w', t) → quiet_by sentLog inbound clockNow w w' ∧ t = clockNow w';
  law_epoch w w' t : epochMillis w = (w', t) → quiet_by sentLog inbound clockNow w w';
  law_wake w : quiet_by sentLog inbound clockNow w (socketWake w);
  law_assign w w' r : assignServer w = (w', r) →
    quiet_by sentLog inbound clockNow w w' ∧ ∀ e, r = Err e → e ≠ Ok;
  law_refresh w a w' r : refreshToken w a = (w', r) → quiet_by sentLog inbound clockNow w w';
  law_send w d w' st : socketSend w d = (w', st) →
    sentLog w' = sentLog w ++ (if ok st then [d] else []) ∧
    socketIsOpen w' = socketIsOpen w ∧ later_by inbound clockNow w w';
  law_open w h p r s w' st : socketOpen w h p r s = (w', st) →
    sentLog w' = sentLog w ∧ later_by inbound clockNow w w' ∧ (ok st = true → socketIsOpen w' = true);
  law_close w : sentLog (socketClose w) = sentLog w ∧ later_by inbound clockNow w (socketClose w) ∧
    socketIsOpen (socketClose w) = false;
  law_recv w slot n t w' r : recvBatch w slot n t = (w', r) →
    quiet_by sentLog inbound clockNow w w' ∧
    match r with
    | Val ds => (length ds ≤ n)%nat ∧ (inbound w' + length ds ≤ inbound w)%nat
    | Err _ => True
    end;
}.

Abbreviation later := (later_by inbound clockNow).
Abbreviation quiet := (quiet_by sentLog inbound clockNow).

#[export] Instance later_preorder {W} (inb : W → nat) (now : W → Z) : PreOrder (later_by inb now).
Proof.
  split; unfold later_by.
  - intros w. lia.
  - intros w1 w2 w3. lia.
Qed.

#[export] Instance quiet_preorder {W} `{Net W} log inb now : PreOrder (quiet_by (W:=W) log inb now).
Proof.
  split; unfold quiet_by.
  - intros w. done.
  - intros w1 w2 w3 (->&->&?) (->&->&?). split_and!; try done. by etrans.
Qed.

(** ** The abstract state *)

(** The messages of a datagram, and of everything on the wire. *)
Definition unpack (d : bytes) : list bytes :=
  match forEachMessage d with Some (ms, _) => ms | None => [] end.
Definition wire (log : list bytes) : list bytes := concat (unpack <$> log).
Definition wireBytes (log : list bytes) : Z := Z.of_nat (length (concat log)).
Definition wireBundles (log : list bytes) : Z :=
  Z.of_nat (length (filter (λ d, startsWith MessageBundle d = true) log)).

(** What the send path sends: a message of at most a datagram that is not itself a bundle. *)
Definition sendable (m : bytes) : Prop :=
  (length m ≤ kMaxDatagramSize)%nat ∧
  ∃ t, head m = Some t ∧ t ≠ MessageBundle ∧ t ≠ MessageBundleSigned.

(** A datagram on the wire fits the server's limit and unpacks, without an error, to one or more
    messages the send path takes. (Which ones: [flush_post] and [transmitted].) *)
Definition datagram_ok (d : bytes) : Prop :=
  (length d ≤ kMaxDatagramSize)%nat ∧ unpack d ≠ [] ∧ Forall sendable (unpack d) ∧
  ∃ ms, forEachMessage d = Some (ms, Ok).

(** The counters agree with the wire and the pending messages. *)
Record books (s : Counter → Z) (log ms : list bytes) : Prop := {
  bk_log : Forall datagram_ok log;
  bk_datagrams : s DatagramsSent = u64 (Z.of_nat (length log));
  bk_bytes : s BytesSent = u64 (wireBytes log);
  bk_bundles : s BundlesSent = u64 (wireBundles log);
  bk_messages : s MessagesSent = u64 (Z.of_nat (length (wire log)) + Z.of_nat (length ms) + s MessagesDropped);
}.

(** A queued event fits its slot and parses as what it is queued as. *)
Definition event_ok (e : Event) : Prop :=
  (length (ev_data e) ≤ kMaxDatagramSize)%nat ∧
  match ev_kind e with
  | EvSpatial => ∃ v, parseLongSpatial (ev_data e) = Some (Val v)
  | EvChannel => ∃ v, parseChannelNotification (ev_data e) = Some (Val v)
  | EvError => ∃ v, parseGenericError (ev_data e) = Some (Val v)
  | EvStatus => ev_data e = []
  end.

(** ** Counters *)

Lemma bump_eq (s : Counter → Z) x n : bump s x n x = u64 (s x + n).
Proof. unfold bump. by rewrite decide_True. Qed.
Lemma bump_ne (s : Counter → Z) x y n : y ≠ x → bump s x n y = s y.
Proof. intros. unfold bump. by rewrite decide_False. Qed.

(** What a datagram handed to the socket does to the counters. *)
Definition datagramCounts (st : Status) (d : bytes) (s : Counter → Z) : Counter → Z :=
  if ok st then bump (bump s DatagramsSent 1) BytesSent (Z.of_nat (length d))
  else bump s (if decide (st = WouldBlock) then SendsDeferred else SendsFailed) 1.

Lemma books_other s s' log ms :
  books s log ms → s' DatagramsSent = s DatagramsSent → s' BytesSent = s BytesSent →
  s' BundlesSent = s BundlesSent → s' MessagesSent = s MessagesSent → s' MessagesDropped = s MessagesDropped →
  books s' log ms.
Proof. intros [] E1 E2 E3 E4 E5. split; rewrite ?E1, ?E2, ?E3, ?E4, ?E5; done. Qed.

Lemma books_unsent st d s log ms :
  ok st = false → books s log ms → books (datagramCounts st d s) log ms.
Proof.
  intros Hst Hb. unfold datagramCounts. rewrite Hst.
  eapply books_other; [exact Hb|..]; rewrite bump_ne; try done; by case_decide.
Qed.

Lemma wire_app log d : wire (log ++ [d]) = wire log ++ unpack d.
Proof. unfold wire. rewrite fmap_app, concat_app. cbn. by rewrite app_nil_r. Qed.
Lemma wireBytes_app log d : wireBytes (log ++ [d]) = wireBytes log + Z.of_nat (length d).
Proof. unfold wireBytes. rewrite concat_app, length_app. simpl. rewrite app_nil_r. lia. Qed.
Lemma wireBundles_app log d :
  wireBundles (log ++ [d]) = wireBundles log + (if startsWith MessageBundle d then 1 else 0).
Proof.
  unfold wireBundles. rewrite list.filter_app, length_app, list.filter_cons, list.filter_nil.
  destruct (startsWith MessageBundle d); case_decide; simpl; try done; lia.
Qed.

Lemma u64_add a b : u64 (u64 a + b) = u64 (a + b).
Proof. apply Zplus_mod_idemp_l. Qed.
Lemma u64_add_r a b : u64 (a + u64 b) = u64 (a + b).
Proof. apply Zplus_mod_idemp_r. Qed.

(** ** Messages and datagrams *)

Lemma sendable_unpack m : sendable m → forEachMessage m = Some ([m], Ok).
Proof. intros (_ & t & Hh & H1 & H2). by eapply forEachMessage_single. Qed.

Lemma sendable_datagram m : sendable m → datagram_ok m ∧ unpack m = [m] ∧ startsWith MessageBundle m = false.
Proof.
  intros Hm. pose proof (sendable_unpack m Hm) as E. pose proof Hm as (Hl & t & Hh & H1 & _).
  assert (unpack m = [m]) as Hu by (unfold unpack; by rewrite E).
  split_and!; [|done|].
  - unfold datagram_ok. rewrite Hu. split_and!; [done|done|by constructor|by eexists].
  - destruct m; simplify_eq/=. by apply Z.eqb_neq.
Qed.

Lemma sendable_member m : sendable m → member_ok m.
Proof.
  intros (Hl & t & Hh & _). split; [by intros ->|].
  change kMaxDatagramSize with 1232%nat in Hl. lia.
Qed.

(** The datagram of a pending bundle. *)
Lemma pending_datagram w ms :
  bw_rep w ms → length (bw_buf w) = kMaxDatagramSize → Forall sendable ms → ms ≠ [] →
  ∃ d, bw_datagram w = Some d ∧ datagram_ok d ∧ unpack d = ms ∧
    startsWith MessageBundle d = bool_decide (1 < length ms)%nat.
Proof.
  intros Hr Hb Hms Hne. rewrite (bw_datagram_rep w ms Hr). eexists. split; [done|].
  destruct ms as [|m [|m' ms]]; [done| |].
  - apply Forall_cons_1 in Hms as [Hm _]. apply sendable_datagram in Hm as (?&?&Hs). split_and!; [done..|by rewrite Hs].
  - assert (Forall member_ok (m :: m' :: ms)) as Hok by (eapply list.Forall_impl; [exact Hms|apply sendable_member]).
    pose proof (forEachMessage_bundle _ Hok) as E. unfold unpack, datagram_ok, unpack. rewrite E.
    destruct Hr as (_&_&_&Ho&Hl&_). split_and!; try done.
    + rewrite <- Hb. cbn [length] in *. lia.
    + by eexists.
Qed.

Lemma books_sent d us st s log ms :
  ok st = true → books s log ms → datagram_ok d → unpack d = us →
  let s' := datagramCounts st d s in
  Forall datagram_ok (log ++ [d]) ∧ s' DatagramsSent = u64 (Z.of_nat (length (log ++ [d]))) ∧
  s' BytesSent = u64 (wireBytes (log ++ [d])) ∧ s' BundlesSent = u64 (wireBundles log) ∧
  s' MessagesSent = s MessagesSent ∧ s' MessagesDropped = s MessagesDropped ∧
  Z.of_nat (length (wire (log ++ [d]))) = Z.of_nat (length (wire log)) + Z.of_nat (length us).
Proof.
  intros Hst [] Hd Hu. unfold datagramCounts. rewrite Hst. cbv zeta. split_and!.
  - apply Forall_app_2; [done|by constructor].
  - rewrite bump_ne, bump_eq, bk_datagrams0, u64_add, length_app by done. f_equal. simpl. lia.
  - rewrite bump_eq, bump_ne, bk_bytes0, u64_add by done. by rewrite wireBytes_app.
  - by rewrite !bump_ne.
  - by rewrite !bump_ne.
  - by rewrite !bump_ne.
  - rewrite wire_app, Hu, length_app. lia.
Qed.

(** A lone message has left: its datagram, then [countMessageSent]. *)
Lemma books_alone m st type s log ms :
  ok st = true → books s log ms → sendable m →
  books (bump (bump (datagramCounts st m s) MessagesSent 1) (SentByType type) 1) (log ++ [m]) ms.
Proof.
  intros Hst Hb (Hd & Hu & Hs)%sendable_datagram.
  destruct (books_sent m [m] st s log ms) as (H1&H2&H3&H4&H5&H6&H7); try done.
  split; rewrite ?bump_eq, ?bump_ne by done; try done.
  - rewrite H4, wireBundles_app, Hs. f_equal. lia.
  - rewrite bump_eq, !(bump_ne _ _ MessagesDropped), H5, H6, (bk_messages _ _ _ Hb), u64_add, H7 by done. f_equal. cbn [length]. lia.
Qed.

(** A flushed bundle has left. *)
Lemma books_flushed d st s log ms :
  ok st = true → books s log ms → datagram_ok d → unpack d = ms →
  startsWith MessageBundle d = bool_decide (1 < length ms)%nat →
  books (if bool_decide (1 < length ms)%nat then bump (datagramCounts st d s) BundlesSent 1 else datagramCounts st d s)
    (log ++ [d]) [].
Proof.
  intros Hst Hb Hd Hu Hs.
  destruct (books_sent d ms st s log ms) as (H1&H2&H3&H4&H5&H6&H7); try done.
  rewrite <- Hs. destruct (startsWith MessageBundle d) eqn:E; split; rewrite ?bump_eq, ?bump_ne by done; try done.
  - rewrite H4, u64_add, wireBundles_app, E. done.
  - rewrite H5, H6, (bk_messages _ _ _ Hb), H7. f_equal. cbn [length]. lia.
  - rewrite H4, wireBundles_app, E. f_equal. lia.
  - rewrite H5, H6, (bk_messages _ _ _ Hb), H7. f_equal. cbn [length]. lia.
Qed.

(** The pending messages were dropped with a failed flush. *)
Lemma books_dropped s log ms :
  books s log ms → books (bump s MessagesDropped (Z.of_nat (length ms))) log [].
Proof.
  intros []. split; rewrite ?bump_eq, ?bump_ne by done; try done.
  rewrite bk_messages0, u64_add_r. f_equal. cbn [length]. lia.
Qed.

(** A message joined the pending ones. *)
Lemma books_joined s log ms m type :
  books s log ms → books (bump (bump s MessagesSent 1) (SentByType type) 1) log (ms ++ [m]).
Proof.
  intros []. split; rewrite ?bump_ne by done; try done.
  rewrite bump_eq, !(bump_ne _ _ MessagesDropped), bk_messages0, u64_add, length_app by done. f_equal. cbn [length]. lia.
Qed.

Section Laws.
Context {W : Type} `{NetLaws W} (crypto : ICrypto) `{!CryptoLaws crypto}.
Implicit Types c : Conn W.

(** The connection holds the events [q] (oldest first, in a ring of [2^k] slots) and the pending
    messages [ms]. *)
Record conn_at (c : Conn W) (k : Z) (q : list Event) (ms : list bytes) : Prop := {
  ca_ring : ring_rep (k_ring c) k q;
  ca_events : Forall event_ok q;
  ca_bundle : bw_rep (k_bundle c) ms;
  ca_buffer : length (bw_buf (k_bundle c)) = kMaxDatagramSize;
  ca_pending : Forall sendable ms;
  ca_mac : mac_ok crypto (k_token64 c) (k_mac c);
  ca_unbundled : cf_bundleSends (k_config c) = false → ms = [];
  ca_books : books (k_count c) (sentLog (k_world c)) ms;
}.

(** All that [conn_at] reads. *)
Definition core (c : Conn W) :=
  (k_config c, (k_token64 c, k_mac c), k_ring c, k_bundle c, k_count c, sentLog (k_world c)).

Lemma conn_at_core c c' k q ms : conn_at c k q ms → core c' = core c → conn_at c' k q ms.
Proof.
  intros [] Hcore. unfold core in Hcore. injection Hcore as Hcf Ht Hm Hr Hb Hn Hl.
  split; rewrite ?Hcf, ?Ht, ?Hm, ?Hr, ?Hb, ?Hn, ?Hl; done.
Qed.

Definition onWire (c : Conn W) : list bytes := wire (sentLog (k_world c)).
Definition droppedCount (c : Conn W) : Z := k_count c MessagesDropped.

(** What the send path leaves alone. *)
Definition session (c : Conn W) :=
  (k_config c, (k_token c, k_token64 c, k_mac c), k_handlers c, k_ring c, k_state c, (k_running c, k_joinable c),
   (k_reconnectRequested c, k_eventsSignalled c, k_signals c), (k_sessionEpoch c, k_confirmedEpoch c), k_wait c,
   k_assignment c).

Definition sframe (c c' : Conn W) : Prop :=
  session c' = session c ∧ socketIsOpen (k_world c') = socketIsOpen (k_world c) ∧
  later (k_world c) (k_world c').

#[export] Instance sframe_preorder : PreOrder sframe.
Proof.
  split; unfold sframe.
  - intros c. done.
  - intros c1 c2 c3 (->&->&?) (->&->&?). split_and!; try done. by etrans.
Qed.

Lemma sframe_same c c' : session c' = session c → k_world c' = k_world c → sframe c c'.
Proof. intros Hs Hw. unfold sframe. by rewrite Hs, Hw. Qed.

Lemma quiet_monotonic w w' t : monotonicMillis w = (w', t) → quiet w w'.
Proof. by intros [? _]%law_monotonic. Qed.

Lemma quiet_sframe c w : quiet (k_world c) w → sframe c (set_world w c).
Proof. intros (_&?&?). done. Qed.

Lemma conn_at_sframe c c' k q ms ms' :
  conn_at c k q ms → sframe c c' → bw_rep (k_bundle c') ms' →
  length (bw_buf (k_bundle c')) = kMaxDatagramSize → Forall sendable ms' →
  (cf_bundleSends (k_config c) = false → ms' = []) →
  books (k_count c') (sentLog (k_world c')) ms' → conn_at c' k q ms'.
Proof.
  intros [] (Hs&_) ?????. unfold session in Hs.
  injection Hs as Hcf Ht Ht64 Hm Hh Hr. split; rewrite ?Hr, ?Ht64, ?Hm, ?Hcf; done.
Qed.
(** ** The send path *)

Lemma sendDatagram_wp d c (Q : Status → Conn W → Prop) :
  (∀ st c', sframe c c' → k_bundle c' = k_bundle c → k_count c' = datagramCounts st d (k_count c) →
    sentLog (k_world c') = sentLog (k_world c) ++ (if ok st then [d] else []) →
    (socketSend (k_world c) d).2 = st → Q st c') →
  wp (sendDatagram d) Q c.
Proof.
  intros HQ. unfold sendDatagram. wps. assert ((socketSend (k_world c) d).2 = a) as Hans by (by rewrite Hw).
  apply law_send in Hw as (Hlog & Ho & Hi). destruct (ok a) eqn:Hst; wps.
  - apply quiet_monotonic in Hw as (Hl1 & Ho1 & Hi1).
    apply HQ; [|done|cbn; unfold datagramCounts; by rewrite Hst|cbn; by rewrite Hl1, Hst|done].
    split_and!; [done|cbn; by rewrite Ho1|cbn; by etrans].
  - apply HQ; [|done|cbn; unfold datagramCounts; by rewrite Hst|by rewrite Hst|done].
    split_and!; done.
Qed.

(** The counter of a refusal of the socket, and how many of the answers [sts] it counts. *)
Definition refusalOf (st : Status) : Counter := if decide (st = WouldBlock) then SendsDeferred else SendsFailed.
Definition refusal (st : Status) (x : Counter) : Z :=
  if negb (ok st) && bool_decide (refusalOf st = x) then 1 else 0.
Definition refusals (sts : list Status) (x : Counter) : Z := foldr (λ st n, refusal st x + n) 0 sts.

(** Between [c] and [c'] the socket refused what it answered [sts] to, and nothing else. *)
Definition refused (sts : list Status) (c c' : Conn W) : Prop :=
  ∀ x, x = SendsDeferred ∨ x = SendsFailed → u64 (k_count c' x) = u64 (k_count c x + refusals sts x).

(** In the world [w] the socket answers [st] to a datagram of the messages [ms]. *)
Definition answered (w : W) (ms : list bytes) (st : Status) : Prop :=
  ∃ d, unpack d = ms ∧ (socketSend w d).2 = st.

Lemma refused_counts st d c c' :
  (∀ x, x = SendsDeferred ∨ x = SendsFailed → k_count c' x = datagramCounts st d (k_count c) x) → refused [st] c c'.
Proof.
  intros E x Hx. rewrite (E x Hx). unfold datagramCounts, refusals, refusal, refusalOf. cbn [foldr].
  destruct (ok st); cbn [negb andb].
  - rewrite !bump_ne by naive_solver. f_equal. lia.
  - case_bool_decide as Hc.
    + rewrite Hc, bump_eq. rewrite <- (Z.add_0_r (u64 (_ + 1))), u64_add. f_equal. lia.
    + rewrite bump_ne by congruence. f_equal. lia.
Qed.

Lemma refused_same c c' : k_count c' = k_count c → refused [] c c'.
Proof. intros E x _. rewrite E. cbn. by rewrite Z.add_0_r. Qed.

Lemma refused_app l1 l2 c c1 c2 : refused l1 c c1 → refused l2 c1 c2 → refused (l1 ++ l2) c c2.
Proof.
  intros H1 H2 x Hx. rewrite (H2 x Hx), <- u64_add, (H1 x Hx), u64_add. f_equal.
  unfold refusals. rewrite foldr_app. induction l1 as [|st l1 IH]; cbn [foldr]; [lia|].
  enough (∀ l, foldr (λ st n, refusal st x + n) (foldr (λ st n, refusal st x + n) 0 l2) l =
    foldr (λ st n, refusal st x + n) 0 l + foldr (λ st n, refusal st x + n) 0 l2) as -> by lia.
  clear. induction l as [|a l IH]; cbn [foldr]; [lia|rewrite IH; lia].
Qed.

(** An [Ok] is no refusal. *)
Lemma refused_ok st sts c c' : ok st = true → refused (st :: sts) c c' ↔ refused sts c c'.
Proof. intros Hok. unfold refused, refusals, refusal. cbn [foldr]. rewrite Hok. done. Qed.

(** What a flush does: all pending messages leave, or they stay behind a full send buffer, or
    they are dropped with a fault; and the socket refused them just when the answer says so. *)
Definition flush_post (st : Status) (c : Conn W) (ms : list bytes) (c' : Conn W) (ms' : list bytes) : Prop :=
  refused [st] c c' ∧
  if ok st then onWire c' = onWire c ++ ms ∧ ms' = [] ∧ droppedCount c' = droppedCount c
  else ms ≠ [] ∧ answered (k_world c) ms st ∧ onWire c' = onWire c ∧
    if decide (st = WouldBlock) then ms' = ms ∧ droppedCount c' = droppedCount c
    else ms' = [] ∧ droppedCount c' = u64 (droppedCount c + Z.of_nat (length ms)).

Lemma dropped_datagram st d (s : Counter → Z) : datagramCounts st d s MessagesDropped = s MessagesDropped.
Proof. unfold datagramCounts. destruct (ok st); [by rewrite !bump_ne|]. case_decide; by rewrite bump_ne. Qed.

(** Flushing the pending messages, given the outcome of their datagram. *)
Lemma flush_sent c k q ms d st c' c'' :
  conn_at c k q ms → datagram_ok d → unpack d = ms →
  startsWith MessageBundle d = bool_decide (1 < length ms)%nat → ok st = true →
  sframe c c' → k_count c' = datagramCounts st d (k_count c) →
  sentLog (k_world c') = sentLog (k_world c) ++ [d] →
  sframe c' c'' → k_bundle c'' = bw_reset (k_bundle c) → sentLog (k_world c'') = sentLog (k_world c') →
  k_count c'' = (if bool_decide (1 < length ms)%nat then bump (k_count c') BundlesSent 1 else k_count c') →
  sframe c c'' ∧ ∃ ms', conn_at c'' k q ms' ∧ flush_post st c ms c'' ms'.
Proof.
  intros Hc Hd Hu Hs Hst Hf Hn Hlog Hf' Hb' Hlog' Hn'. pose proof (ca_bundle _ _ _ _ Hc) as Hr.
  assert (length (bw_buf (bw_reset (k_bundle c))) = kMaxDatagramSize) as Hbuf.
  { pose proof (ca_buffer _ _ _ _ Hc). destruct (k_bundle c) as [[|]]; done. }
  split; [by etrans|]. exists []. split.
  - eapply conn_at_sframe; [done|by etrans|rewrite Hb'; by eapply bw_reset_rep|by rewrite Hb'|constructor|done|].
    rewrite Hn', Hlog', Hlog, Hn. apply books_flushed; try done. by eapply ca_books.
  - split.
    + eapply (refused_counts st d). intros x Hx. rewrite Hn', <- Hn. case_bool_decide; [|done]. apply bump_ne. naive_solver.
    + unfold onWire, droppedCount. rewrite Hst, Hlog', Hlog, wire_app, Hu, Hn'. split_and!; try done.
      case_bool_decide; rewrite ?bump_ne by done; by rewrite Hn, dropped_datagram.
Qed.

Lemma flushBundleLocked_wp c k q ms :
  conn_at c k q ms →
  wp flushBundleLocked (λ st c', sframe c c' ∧ ∃ ms', conn_at c' k q ms' ∧ flush_post st c ms c' ms') c.
Proof.
  intros Hc. pose proof (ca_bundle _ _ _ _ Hc) as Hr. pose proof Hr as (Hcnt&_).
  pose proof (ca_buffer _ _ _ _ Hc) as Hbuf. unfold flushBundleLocked. wps.
  unfold bw_empty. rewrite Hcnt. case_bool_decide as He.
  { wps. split; [done|]. apply nil_length_inv in He as ->. exists []. split; [done|].
    split; [by apply refused_ok, refused_same|]. simpl. by rewrite app_nil_r. }
  destruct (pending_datagram _ ms Hr) as (d & Hd & Hok & Hu & Hs); [done|by eapply ca_pending|by intros ->|].
  wps. eapply wp_lift; [done|]. wps. apply sendDatagram_wp. intros st c' Hf Hb Hct Hlog Hans. cbv beta.
  assert (refused [st] c c') as Href by (eapply (refused_counts st d); intros; by rewrite Hct).
  assert (ms ≠ []) as Hne by (by intros ->). assert (answered (k_world c) ms st) as Han by (by exists d).
  destruct (ok st) eqn:Hst.
  - wps; eapply flush_sent; try done; try (by apply sframe_same); by case_bool_decide.
  - rewrite app_nil_r in Hlog. pose proof (books_unsent _ d _ _ _ Hst (ca_books _ _ _ _ Hc)) as Hbk.
    rewrite <- Hct, <- Hlog in Hbk. pose proof (bw_reset_rep _ _ Hr) as Hr0.
    assert (length (bw_buf (bw_reset (k_bundle c))) = kMaxDatagramSize) as Hbuf0.
    { destruct (k_bundle c) as [[|]]; done. }
    destruct (decide (st = WouldBlock)) as [Hwb|Hwb]; wps; (split; [exact Hf|]);
      unfold flush_post, onWire, droppedCount; rewrite Hst.
    + exists ms. rewrite decide_True, Hlog, Hct, dropped_datagram by done. split; [|done].
      eapply conn_at_sframe; [done..|by rewrite Hb|by rewrite Hb|by eapply ca_pending|by eapply ca_unbundled|done].
    + exists []. rewrite decide_False by done. split.
      * eapply conn_at_sframe; [done..|exact Hr0|exact Hbuf0|constructor|done|]. by apply books_dropped.
      * cbn. rewrite Hlog, bump_eq, Hct, dropped_datagram. split; [|done].
        eapply (refused_counts st d). intros x Hx. cbn. rewrite bump_ne by naive_solver. done.
Qed.

(** A message sent in a datagram of its own. *)
Lemma sendAlone_wp c k q ms m type :
  conn_at c k q ms → sendable m →
  wp (st ← sendDatagram m; whenM (ok st) (countMessageSent type);; mret st)
    (λ st c', sframe c c' ∧ conn_at c' k q ms ∧ refused [st] c c' ∧
      onWire c' = onWire c ++ (if ok st then [m] else []) ∧ droppedCount c' = droppedCount c) c.
Proof.
  intros Hc Hm. wps. apply sendDatagram_wp. intros st c' Hf Hb Hct Hlog _. cbv beta.
  pose proof (ca_books _ _ _ _ Hc) as Hbk. unfold countMessageSent, onWire, droppedCount.
  destruct (ok st) eqn:Hst; wps; try done; cbn; rewrite ?Hst, Hlog, Hct; (split; [exact Hf|split_and!]).
  - eapply conn_at_sframe; [done|exact Hf|cbn; rewrite Hb; by eapply ca_bundle|cbn; rewrite Hb; by eapply ca_buffer|
      by eapply ca_pending|by eapply ca_unbundled|].
    cbn. rewrite Hlog. by apply books_alone.
  - eapply (refused_counts st m). intros x Hx. cbn. rewrite !bump_ne by naive_solver. done.
  - rewrite wire_app. by apply sendable_datagram in Hm as (_&->&_).
  - by rewrite !bump_ne, dropped_datagram.
  - eapply conn_at_sframe; [done|exact Hf|cbn; rewrite Hb; by eapply ca_bundle|cbn; rewrite Hb; by eapply ca_buffer|
      by eapply ca_pending|by eapply ca_unbundled|].
    rewrite Hct, Hlog, app_nil_r. by apply books_unsent.
  - eapply (refused_counts st m). intros x Hx. by rewrite Hct.
  - by rewrite !app_nil_r.
  - by rewrite dropped_datagram.
Qed.
(** What [transmit] does with a message: it joins everything sent before it, in order; or the
    socket failed the flush of the pending messages, which were dropped and counted; or, too big
    for a bundle, it overtakes pending messages that the send buffer, full, did not take. The
    socket has refused exactly what the answer and these cases say. *)
Definition transmitted (m : bytes) (st : Status) (c : Conn W) (ms : list bytes) (c' : Conn W) (ms' : list bytes) : Prop :=
  let acc := if ok st then [m] else [] in
  let flushed f := ms ≠ [] ∧ answered (monotonicMillis (k_world c)).1 ms f in
  (droppedCount c' = droppedCount c ∧ onWire c' ++ ms' = onWire c ++ ms ++ acc ∧
     (refused [st] c c' ∨ ok st = true ∧ flushed WouldBlock ∧ refused [WouldBlock] c c')) ∨
  (∃ fault, ok fault = false ∧ fault ≠ WouldBlock ∧ flushed fault ∧ refused [fault; st] c c' ∧
     droppedCount c' = u64 (droppedCount c + Z.of_nat (length ms)) ∧ onWire c' ++ ms' = onWire c ++ acc) ∨
  ((kMaxBundleMemberSize < length m)%nat ∧ flushed WouldBlock ∧ refused [WouldBlock; st] c c' ∧
     droppedCount c' = droppedCount c ∧ onWire c' = onWire c ++ acc ∧ ms' = ms).

Lemma fits_empty w len :
  bw_rep w [] → length (bw_buf w) = kMaxDatagramSize → (0 < len ≤ kMaxBundleMemberSize)%nat →
  bw_fits w len = true.
Proof.
  intros Hr Hb [H1 H2]. change kMaxBundleMemberSize with 1229%nat in H2.
  apply (bw_fits_spec _ _ _ Hr). destruct Hr as (_&_&_&Ho&_). rewrite Ho, Hb.
  change kMaxDatagramSize with 1232%nat. unfold kMaxBundleMembers. cbn. lia.
Qed.

(** The message joins the pending ones. *)
Lemma join_wp c k q ms m type cfg now :
  conn_at c k q ms → sendable m → cf_bundleSends (k_config c) = true → bw_fits (k_bundle c) (length m) = true →
  wp (w ← gets k_bundle;
      let opening := bw_empty w in
      whenM opening (modify (set_bundleOpenedMs now));;
      '(w, appended) ← lift (bw_append w m);
      modify (set_bundle w);;
      if negb appended then mret InvalidArgument else
      countMessageSent type;;
      whenM (opening && negb (cf_manualPump cfg)) (world (λ w, (socketWake w, tt)));;
      mret Ok)
    (λ st c', st = Ok ∧ sframe c c' ∧ conn_at c' k q (ms ++ [m]) ∧ refused [] c c' ∧ onWire c' = onWire c ∧
      droppedCount c' = droppedCount c) c.
Proof.
  intros Hc Hm Hbs Hfit. destruct (bw_append_rep _ ms m (ca_bundle _ _ _ _ Hc) Hfit) as (w' & Ha & Hr & Hl).
  assert (∀ c', sframe c c' → k_bundle c' = w' → sentLog (k_world c') = sentLog (k_world c) →
    k_count c' = bump (bump (k_count c) MessagesSent 1) (SentByType type) 1 →
    Ok = Ok ∧ sframe c c' ∧ conn_at c' k q (ms ++ [m]) ∧ refused [] c c' ∧ onWire c' = onWire c ∧
      droppedCount c' = droppedCount c) as Hend.
  { intros c' Hf Hb Hlog Hn. split_and!; try done.
    - eapply conn_at_sframe; [done..|by rewrite Hb|by rewrite Hb, Hl; eapply ca_buffer| |by rewrite Hbs|].
      + apply Forall_app_2; [by eapply ca_pending|by constructor].
      + rewrite Hn, Hlog. eapply books_joined, ca_books, Hc.
    - intros x Hx. rewrite Hn, !bump_ne by naive_solver. cbn. by rewrite Z.add_0_r.
    - unfold onWire. by rewrite Hlog.
    - unfold droppedCount. by rewrite Hn, !bump_ne. }
  unfold countMessageSent. wps; (eapply wp_lift; [exact Ha|]); cbn [negb]; wps; try apply Hend; try done;
    try (by apply sframe_same).
  all: simplify_eq; pose proof (law_wake (k_world c)) as (?&?&?); done.
Qed.

(** What is known of the connection after a flush of the pending messages [ms] in [c], or none, before
    a message is sent: nothing but their place changed, or a refusal is accounted for. *)
Definition flushed_before (f : Status) (c : Conn W) (ms : list bytes) (c1 : Conn W) (ms1 : list bytes) : Prop :=
  (ok f = false → ms ≠ [] ∧ answered (k_world c) ms f) ∧ refused [f] c c1 ∧
  if decide (ok f = false ∧ f ≠ WouldBlock)
  then ms1 = [] ∧ onWire c1 = onWire c ∧ droppedCount c1 = u64 (droppedCount c + Z.of_nat (length ms))
  else (f = WouldBlock → onWire c1 = onWire c ∧ ms1 = ms) ∧
    onWire c1 ++ ms1 = onWire c ++ ms ∧ droppedCount c1 = droppedCount c.

Lemma flush_before f c ms c1 ms1 : flush_post f c ms c1 ms1 → flushed_before f c ms c1 ms1.
Proof.
  intros [Hr Hp]. unfold flushed_before. destruct (ok f) eqn:Hf.
  - destruct Hp as (?&->&?). split; [done|]. split; [done|]. rewrite decide_False by naive_solver.
    split; [by intros ->|]. by rewrite app_nil_r.
  - destruct Hp as (?&?&Hw&Hp). split; [done|]. split; [done|]. destruct (decide (f = WouldBlock)) as [Hd|Hd].
    + rewrite decide_False by tauto. destruct Hp as [-> ?]. by rewrite Hw.
    + rewrite decide_True by done. naive_solver.
Qed.

Lemma no_flush c ms : flushed_before Ok c ms c ms.
Proof. split; [done|]. split; [by apply refused_ok, refused_same|]. rewrite decide_False by naive_solver. done. Qed.

(** The message leaves alone, behind the flush [f]. *)
Lemma alone_after m st f c ms c1 ms1 c' :
  (kMaxBundleMemberSize < length m)%nat → flushed_before f (set_world (monotonicMillis (k_world c)).1 c) ms c1 ms1 →
  (ok f = true → ms1 = []) →
  onWire (set_world (monotonicMillis (k_world c)).1 c) = onWire c → refused [st] c1 c' →
  onWire c' = onWire c1 ++ (if ok st then [m] else []) → droppedCount c' = droppedCount c1 →
  transmitted m st c ms c' ms1.
Proof.
  intros Hbig (Ha&Hr&Hp) Hms Hw0 Hr' Hw Hd. rewrite Hw0 in Hp. pose proof (refused_app _ _ _ _ _ Hr Hr') as Hrr.
  assert (refused ([f] ++ [st]) c c') as Hrc by exact Hrr. cbn [app] in Hrc. unfold transmitted. rewrite Hw, Hd.
  destruct (ok f) eqn:Hf.
  - rewrite decide_False in Hp by naive_solver. destruct Hp as (_&E&->). left. rewrite (Hms eq_refl), app_nil_r in *.
    split; [done|]. rewrite E, app_assoc. split; [done|]. left. by apply (refused_ok f [st] c c').
  - destruct (Ha eq_refl). case_decide as Hx.
    + destruct Hp as (->&->&->). right; left. exists f. rewrite app_nil_r. naive_solver.
    + assert (f = WouldBlock) as -> by (destruct (decide (f = WouldBlock)); [done|tauto]).
      destruct Hp as (Hk&_&->). destruct (Hk eq_refl) as [-> ->]. right; right. done.
Qed.

(** The message joins what is pending behind the flush [f]. *)
Lemma joined_after m f c ms c1 ms1 c' :
  flushed_before f (set_world (monotonicMillis (k_world c)).1 c) ms c1 ms1 →
  onWire (set_world (monotonicMillis (k_world c)).1 c) = onWire c → refused [] c1 c' →
  onWire c' = onWire c1 → droppedCount c' = droppedCount c1 → transmitted m Ok c ms c' (ms1 ++ [m]).
Proof.
  intros (Ha&Hr&Hp) Hw0 Hr' Hw Hd. rewrite Hw0 in Hp. pose proof (refused_app _ _ _ _ _ Hr Hr') as Hrr.
  assert (refused [f] c c') as Hrc by exact Hrr. unfold transmitted. cbn [ok]. rewrite Hw, Hd.
  destruct (decide (ok f = false ∧ f ≠ WouldBlock)) as [[Hf Hx]|Hx].
  - destruct Hp as (->&->&->). destruct (Ha Hf). right; left. exists f. split; [done|]. split; [done|]. split; [done|].
    split; [|done]. intros x Hxx. rewrite (Hrc x Hxx). done.
  - destruct Hp as (_&E&->). left. split; [done|]. split; [by rewrite !app_assoc, E|].
    destruct (ok f) eqn:Hf; [left|right].
    + apply refused_ok; [done|]. by apply (refused_ok f [] c c').
    + assert (f = WouldBlock) as -> by (destruct (decide (f = WouldBlock)); [done|tauto]). naive_solver.
Qed.

Lemma transmit_big c k q ms m type w0 :
  w0 = (monotonicMillis (k_world c)).1 → onWire (set_world w0 c) = onWire c →
  conn_at (set_world w0 c) k q ms → sendable m → (kMaxBundleMemberSize < length m)%nat →
  wp (w ← gets k_bundle;
      whenM (negb (bw_empty w)) (flushBundleLocked;; mret tt);;
      st ← sendDatagram m; whenM (ok st) (countMessageSent type);; mret st)
    (λ st c', sframe (set_world w0 c) c' ∧ ∃ ms', conn_at c' k q ms' ∧ transmitted m st c ms c' ms') (set_world w0 c).
Proof.
  intros -> Hw0 Hc Hm Hbig. set (c0 := set_world _ c) in *.
  assert (∀ f c1 ms1, sframe c0 c1 → conn_at c1 k q ms1 → flushed_before f c0 ms c1 ms1 → (ok f = true → ms1 = []) →
    wp (st ← sendDatagram m; whenM (ok st) (countMessageSent type);; mret st)
      (λ st c', sframe c0 c' ∧ ∃ ms', conn_at c' k q ms' ∧ transmitted m st c ms c' ms') c1) as Hend.
  { intros f c1 ms1 Hf1 Hc1 Hfl Hms. eapply wp_mono; [by eapply sendAlone_wp|]. cbv beta.
    intros st c' (Hf&Hc'&Hr&Hw&Hd). split; [by etrans|]. exists ms1. split; [done|]. by eapply alone_after. }
  wp_step. wp_step. wp_step. apply wp_when; intros He.
  - wp_step. eapply wp_mono; [by apply flushBundleLocked_wp|]. cbv beta. intros st c1 (Hf1&ms1&Hc1&Hp). wp_step.
    apply (Hend st c1 ms1); [done|done|by apply flush_before|]. intros Hst. destruct Hp as [_ Hp]. rewrite Hst in Hp. by apply Hp.
  - apply (Hend Ok c0 ms); [done|done|apply no_flush|]. intros _.
    pose proof (ca_bundle _ _ _ _ Hc) as (Hcnt&_). unfold bw_empty in He. rewrite Hcnt in He.
    by apply negb_false_iff, bool_decide_eq_true, nil_length_inv in He.
Qed.

Lemma transmit_small c k q ms m type now cfg w0 :
  w0 = (monotonicMillis (k_world c)).1 → onWire (set_world w0 c) = onWire c →
  conn_at (set_world w0 c) k q ms → sendable m → cf_bundleSends (k_config c) = true →
  (length m ≤ kMaxBundleMemberSize)%nat →
  wp (elapsed ← bundleExpiredLocked now;
      let expired := (0 <? cf_bundleWindowMs cfg) && elapsed in
      w ← gets k_bundle;
      st ← (if negb (bw_empty w) && (expired || negb (bw_fits w (length m))) then flushBundleLocked
            else mret Ok);
      w ← gets k_bundle;
      if negb (ok st) && negb (bw_fits w (length m)) then mret st else
      let opening := bw_empty w in
      whenM opening (modify (set_bundleOpenedMs now));;
      '(w, appended) ← lift (bw_append w m);
      modify (set_bundle w);;
      if negb appended then mret InvalidArgument else
      countMessageSent type;;
      whenM (opening && negb (cf_manualPump cfg)) (world (λ w, (socketWake w, tt)));;
      mret Ok)
    (λ st c', sframe (set_world w0 c) c' ∧ ∃ ms', conn_at c' k q ms' ∧ transmitted m st c ms c' ms') (set_world w0 c).
Proof.
  intros -> Hw0 Hc Hm Hbs Hsmall. pose proof (sendable_member m Hm) as [Hne _]. set (c0 := set_world _ c) in *.
  assert (0 < length m)%nat as Hpos by (destruct m; [done|simpl; lia]).
  (* the rest of the call, once a flush (or none) has left [ms1] pending *)
  assert (∀ f c1 ms1, sframe c0 c1 → conn_at c1 k q ms1 → flushed_before f c0 ms c1 ms1 →
    (f ≠ WouldBlock → bw_fits (k_bundle c1) (length m) = true) →
    wp (w ← gets k_bundle;
        if negb (ok f) && negb (bw_fits w (length m)) then mret f else
        whenM (bw_empty w) (modify (set_bundleOpenedMs now));;
        '(w', appended) ← lift (bw_append w m);
        modify (set_bundle w');;
        if negb appended then mret InvalidArgument else
        countMessageSent type;;
        whenM (bw_empty w && negb (cf_manualPump cfg)) (world (λ w, (socketWake w, tt)));;
        mret Ok)
      (λ st c', sframe c0 c' ∧ ∃ ms', conn_at c' k q ms' ∧ transmitted m st c ms c' ms') c1) as Hend.
  { intros f c1 ms1 Hf1 Hc1 Hfl Hfit. wp_step. wp_step.
    destruct (negb (ok f) && negb (bw_fits (k_bundle c1) (length m))) eqn:Hstop.
    - apply andb_prop in Hstop as [Hst1%negb_true_iff Hn%negb_true_iff]. wp_step. split; [done|]. exists ms1. split; [done|].
      assert (f = WouldBlock) as -> by (destruct (decide (f = WouldBlock)); [done|by rewrite Hfit in Hn]).
      destruct Hfl as (_&Hr&Hp). rewrite decide_False, Hw0 in Hp by naive_solver. destruct Hp as (_&E&Hd).
      left. cbn [ok]. rewrite app_nil_r. naive_solver.
    - assert (bw_fits (k_bundle c1) (length m) = true) as Hf.
      { destruct (decide (f = WouldBlock)) as [->|]; [|auto]. by destruct (bw_fits _ _). }
      assert (cf_bundleSends (k_config c1) = true) as Hbs1.
      { destruct Hf1 as (Hs&_). unfold session in Hs. by injection Hs as ->. }
      eapply wp_mono; [by apply (join_wp c1 k q ms1 m type cfg now)|]. cbv beta.
      intros st c' (->&Hf'&Hc'&Hr&Hw&Hd). split; [by etrans|]. eexists. split; [done|]. by eapply joined_after. }
  pose proof (ca_bundle _ _ _ _ Hc) as Hr. pose proof Hr as (Hcnt&_).
  unfold bundleExpiredLocked. wp_step. wp_step. wp_step. wp_step. wp_step.
  destruct (negb (bw_empty (k_bundle c0)) && _) eqn:Hflush.
  - eapply wp_mono; [by apply flushBundleLocked_wp|]. cbv beta. intros st c1 (Hf1&ms1&Hc1&Hp).
    apply (Hend st c1 ms1); [done|done|by apply flush_before|]. intros Hst.
    assert (ms1 = []) as ->.
    { destruct Hp as [_ Hp]. destruct (ok st); [naive_solver|]. rewrite decide_False in Hp by done. naive_solver. }
    apply fits_empty; [by eapply ca_bundle|by eapply ca_buffer|lia].
  - wp_step. apply (Hend Ok c0 ms); [done|done|apply no_flush|]. intros _.
    destruct (bw_empty (k_bundle c0)) eqn:He.
    + unfold bw_empty in He. rewrite Hcnt in He. apply bool_decide_eq_true, nil_length_inv in He as ->.
      apply fits_empty; [done|by eapply ca_buffer|lia].
    + cbn [negb andb] in Hflush. apply orb_false_elim in Hflush as [_ Hflush]. by apply negb_false_iff.
Qed.

Lemma transmit_wp c k q ms m :
  conn_at c k q ms → sendable m →
  wp (transmit m) (λ st c', sframe c c' ∧ ∃ ms', conn_at c' k q ms' ∧ transmitted m st c ms c' ms') c.
Proof.
  intros Hc Hm. pose proof Hm as (Hl & type & Hh & _). unfold transmit.
  destruct m as [|type' m'] eqn:Em; [done|]. rewrite <- Em in *. clear Hh.
  wp_step; wp_step. destruct (cf_bundleSends (k_config c)) eqn:Hbs; cbn [negb].
  2: { eapply wp_mono; [by apply sendAlone_wp|]. cbv beta. intros st c' (Hf&Hc'&Hr&Hw&Hd).
       pose proof (ca_unbundled _ _ _ _ Hc Hbs) as ->. split; [done|]. exists []. split; [done|]. left.
       rewrite Hw, app_nil_r. naive_solver. }
  wp_step. wp_step. assert (w = (monotonicMillis (k_world c)).1) as Hw0 by (by rewrite Hw).
  apply quiet_monotonic in Hw as Hq. apply (quiet_sframe c) in Hq as Hf0. destruct Hq as (Hlog&_).
  assert (conn_at (set_world w c) k q ms) as Hc0.
  { eapply conn_at_core; [done|]. unfold core. cbn. by rewrite Hlog. }
  assert (onWire (set_world w c) = onWire c) as Ho0 by (unfold onWire; cbn; by rewrite Hlog).
  destruct (decide (kMaxBundleMemberSize < length m)%nat) as [Hbig|Hsmall].
  - eapply wp_mono; [by eapply transmit_big|]. cbv beta. intros st c' (Hf&ms'&Hc'&Ht).
    split; [by etrans|]. by exists ms'.
  - eapply wp_mono; [by eapply transmit_small; try lia|]. cbv beta. intros st c' (Hf&ms'&Hc'&Ht).
    split; [by etrans|]. by exists ms'.
Qed.
(** What handing on an encoded message does: an encoder's error changes nothing, a message is
    transmitted and its result reported. *)
Definition handed_on (encoded : option (bytes * Result nat)) (sequence : Z) (r : Result Z)
    (c : Conn W) (ms : list bytes) (c' : Conn W) (ms' : list bytes) : Prop :=
  (∃ b e, encoded = Some (b, Err e) ∧ e ≠ Ok ∧ r = Err e ∧ onWire c' = onWire c ∧ droppedCount c' = droppedCount c ∧ ms' = ms) ∨
  (∃ b n m st, encoded = Some (b, Val n) ∧ sub b 0 n = Some m ∧ sendable m ∧ transmitted m st c ms c' ms' ∧
     r = if ok st then Val sequence else Err st).

Definition plain_type (t : Z) : Prop := u8 t ≠ MessageBundle ∧ u8 t ≠ MessageBundleSigned.

Lemma sendEncoded_wp c k q ms type encoded sequence :
  conn_at c k q ms → plain_type type → encoded_ok type sendBuffer encoded →
  wp (sendEncoded encoded sequence)
    (λ r c', sframe c c' ∧ ∃ ms', conn_at c' k q ms' ∧ handed_on encoded sequence r c ms c' ms') c.
Proof.
  intros Hc [Ht1 Ht2] (b & res & -> & Hres). unfold sendEncoded. wps. eapply wp_lift; [done|]. destruct res as [n|e].
  - destruct Hres as (m & Hs & Hl & Hh). wps. eapply wp_lift; [exact Hs|]. wps.
    assert (sendable m) as Hm.
    { split; [|by exists (u8 type)]. unfold sendBuffer in Hl. by rewrite length_replicate in Hl. }
    eapply wp_mono; [by eapply transmit_wp|]. cbv beta. intros st c' (Hf&ms'&Hc'&Htr).
    destruct (ok st) eqn:Hst; cbn [negb]; wps; (split; [done|]); exists ms'; (split; [done|]); right;
      exists b, n, m, st; by rewrite Hst.
  - wps. split; [done|]. exists ms. split; [done|]. left. by exists b, e.
Qed.

(** A send on a closed socket does nothing; otherwise its message is encoded and handed on. *)
Definition send_post (encoded : option (bytes * Result nat)) (r : Result Z)
    (c : Conn W) (ms : list bytes) (c' : Conn W) (ms' : list bytes) : Prop :=
  if socketIsOpen (k_world c) then handed_on encoded (k_sequence c) r c ms c' ms'
  else r = Err NotConnected ∧ c' = c ∧ ms' = ms.

Lemma handOn_wp c k q ms type encoded :
  conn_at c k q ms → socketIsOpen (k_world c) = true → plain_type type → encoded_ok type sendBuffer encoded →
  wp (sendEncoded encoded (k_sequence c))
    (λ r c', sframe c c' ∧ ∃ ms', conn_at c' k q ms' ∧ send_post encoded r c ms c' ms')
    (set_sequence (u8 (k_sequence c + 1)) c).
Proof.
  intros Hc Ho Ht He. eapply wp_mono; [eapply sendEncoded_wp; [by eapply conn_at_core|done|done]|].
  cbv beta. intros r c' (Hf&ms'&Hc'&Hh). split; [exact Hf|]. exists ms'. split; [done|].
  unfold send_post. by rewrite Ho.
Qed.

(** What [sendLongSpatial] encodes, and the other two. *)
Definition spatialParams (c : Conn W) (type : Z) (p : SpatialSend) : LongSpatialParams :=
  Build_LongSpatialParams type (cf_appId (k_config c)) (ss_chunk p) (ss_distance p) (ss_decay p) (ss_uuid p)
    (ss_payload p) (ti_gameTokenId (k_token c)) (k_sequence c).
Definition spatialMessage (c : Conn W) (type : Z) (p : SpatialSend) : option (bytes * Result nat) :=
  encodeLongSpatial crypto (spatialParams c type p) (k_token64 c) sendBuffer (k_mac c).
Definition channelMessage (c : Conn W) (type channelId : Z) (uuid payload : bytes) : option (bytes * Result nat) :=
  encodeChannelRequest type crypto
    (Build_ChannelMessageParams channelId uuid payload (ti_gameTokenId (k_token c)) (k_sequence c))
    (k_token64 c) sendBuffer (k_mac c).
Definition rangedMessage (c : Conn W) (channelId : Z) (uuid payload : bytes) (origin : ChunkCoord) (maxDistance : Z)
    : option (bytes * Result nat) :=
  encodeRangedChannelMessage crypto
    (Build_RangedChannelMessageParams channelId uuid (cf_appId (k_config c)) origin maxDistance payload
      (ti_gameTokenId (k_token c)) (k_sequence c)) (k_token64 c) sendBuffer (k_mac c).

Lemma sendLongSpatial_wp c k q ms type p :
  conn_at c k q ms → plain_type type → length (ss_uuid p) = kUuidSize →
  wp (sendLongSpatial crypto type p) (λ r c', sframe c c' ∧ ∃ ms', conn_at c' k q ms' ∧
    send_post (spatialMessage c type p) r c ms c' ms') c.
Proof.
  intros Hc Ht Hu. unfold sendLongSpatial. wp_step. wp_step.
  destruct (socketIsOpen (k_world c)) eqn:Ho; cbn [negb].
  - wps. apply (handOn_wp c k q ms type); try done.
    apply (encodeLongSpatial_total crypto (spatialParams c type p)); [done|by eapply ca_mac].
  - wps. split; [done|]. exists ms. split; [done|]. unfold send_post. by rewrite Ho.
Qed.

Lemma sendChannelRequest_wp c k q ms type channelId uuid payload :
  conn_at c k q ms → plain_type type → length uuid = kUuidSize →
  wp (sendChannelRequest crypto type channelId uuid payload) (λ r c', sframe c c' ∧ ∃ ms', conn_at c' k q ms' ∧
    send_post (channelMessage c type channelId uuid payload) r c ms c' ms') c.
Proof.
  intros Hc Ht Hu. unfold sendChannelRequest. wp_step. wp_step.
  destruct (socketIsOpen (k_world c)) eqn:Ho; cbn [negb].
  - wps. apply (handOn_wp c k q ms type); try done. apply (encodeChannelRequest_total type crypto); [done|by eapply ca_mac].
  - wps. split; [done|]. exists ms. split; [done|]. unfold send_post. by rewrite Ho.
Qed.

Lemma sendRangedChannelMessage_wp c k q ms channelId uuid payload origin maxDistance :
  conn_at c k q ms → length uuid = kUuidSize →
  wp (sendRangedChannelMessage crypto channelId uuid payload origin maxDistance)
    (λ r c', sframe c c' ∧ ∃ ms', conn_at c' k q ms' ∧
      if socketIsOpen (k_world c) && (channel_ranged_kMaxDistance <? maxDistance)
      then r = Err InvalidArgument ∧ c' = c ∧ ms' = ms
      else send_post (rangedMessage c channelId uuid payload origin maxDistance) r c ms c' ms') c.
Proof.
  intros Hc Hu. unfold sendRangedChannelMessage. wp_step. wp_step.
  destruct (socketIsOpen (k_world c)) eqn:Ho; cbn [negb andb].
  - destruct (channel_ranged_kMaxDistance <? maxDistance).
    + wps. split; [done|]. by exists ms.
    + wps. apply (handOn_wp c k q ms ChannelMessageRangedRequest); try done.
      apply (encodeRangedChannelMessage_total crypto); [done|by eapply ca_mac].
  - wps. split; [done|]. exists ms. split; [done|]. unfold send_post. by rewrite Ho.
Qed.

(** The send path in short: it leaves the session and the events alone. *)
Definition kept (c : Conn W) (k : Z) (q : list Event) (c' : Conn W) : Prop :=
  sframe c c' ∧ ∃ ms', conn_at c' k q ms'.

Lemma kept_refl c k q ms : conn_at c k q ms → kept c k q c.
Proof. intros. split; [done|eauto]. Qed.

Lemma kept_trans c k q c1 c2 : kept c k q c1 → kept c1 k q c2 → kept c k q c2.
Proof. intros [? _] [? ?]. split; [by etrans|done]. Qed.

Lemma wp_kept {A} (m : M W A) (P : A → Conn W → list bytes → Prop) c k q :
  wp m (λ a c', sframe c c' ∧ ∃ ms', conn_at c' k q ms' ∧ P a c' ms') c → wp m (λ _ c', kept c k q c') c.
Proof. intros H1. eapply wp_mono; [exact H1|]. intros a c' (Hf&ms'&Hc&_). split; eauto. Qed.

Lemma sendLongSpatial_kept c k q ms type p :
  conn_at c k q ms → plain_type type → length (ss_uuid p) = kUuidSize →
  wp (sendLongSpatial crypto type p) (λ _ c', kept c k q c') c.
Proof. intros. eapply wp_kept. by apply sendLongSpatial_wp. Qed.

Lemma sendPayload_kept c k q ms type chunk uuid encoded distance decay :
  conn_at c k q ms → plain_type type → length uuid = kUuidSize →
  (∃ b r, encoded = Some (b, r) ∧ ∀ n, r = Val n → (n ≤ length b)%nat) →
  wp (sendPayload crypto type chunk uuid encoded distance decay) (λ _ c', kept c k q c') c.
Proof.
  intros Hc Ht Hu (b & r & -> & Hr). unfold sendPayload. wps. eapply wp_lift; [done|]. destruct r as [n|e].
  - wps. eapply wp_lift; [apply sub_Some; specialize (Hr n eq_refl); lia|]. by eapply sendLongSpatial_kept.
  - wps. by eapply kept_refl.
Qed.

Lemma sendVoxelUpdate_kept c k q ms chunk uuid x y z voxelType state distance decay :
  conn_at c k q ms → length uuid = kUuidSize →
  wp (sendVoxelUpdate crypto chunk uuid x y z voxelType state distance decay) (λ _ c', kept c k q c') c.
Proof.
  intros Hc Hu. unfold sendVoxelUpdate. case_decide as Hl; [wps; by eapply kept_refl|].
  eapply sendPayload_kept; [done|done|done|]. eexists _, _.
  change voxel_kMaxStateSize with 1024%nat in Hl. split.
  { apply encodeVoxelPayload_writes; [|lia]. unfold payloadBuffer. rewrite length_replicate.
    change kMaxLongSpatialPayload with 1123%nat. change voxel_kFixedSize with 10%nat. lia. }
  intros n [= <-]. rewrite length_app. unfold voxelPayloadBytes. rewrite !length_app, !le.length_octets.
  change voxel_kFixedSize with 10%nat. simpl. lia.
Qed.

Lemma sendClientEvent_kept c k q ms chunk uuid eventType state distance decay :
  conn_at c k q ms → length uuid = kUuidSize →
  wp (sendClientEvent crypto chunk uuid eventType state distance decay) (λ _ c', kept c k q c') c.
Proof.
  intros Hc Hu. unfold sendClientEvent. eapply sendPayload_kept; [done|done|done|].
  destruct (decide (kEventTypeSize + length state ≤ length payloadBuffer)%nat) as [Hl|Hl].
  - eexists _, _. split; [by apply encodeEventPayload_writes|]. intros n [= <-].
    rewrite !length_app, le.length_octets. change kEventTypeSize with 2%nat. lia.
  - eexists _, _. split; [unfold encodeEventPayload; rewrite decide_True by lia; done|]. by intros n [=].
Qed.

Lemma sendFragments_kept fragments c k q ms chunk uuid distance decay :
  conn_at c k q ms → length uuid = kUuidSize →
  wp (sendFragments crypto fragments chunk uuid distance decay) (λ _ c', kept c k q c') c.
Proof.
  intros Hc Hu. revert c ms Hc. induction fragments as [|f fragments IH]; intros c ms Hc; cbn [sendFragments].
  - wps. by eapply kept_refl.
  - wps. eapply wp_mono; [by eapply sendLongSpatial_kept|]. cbv beta. intros r c1 Hk. pose proof Hk as [_ [ms1 Hc1]].
    destruct r as [s|e]; [|by wps]. eapply wp_mono; [by eapply IH|]. intros. by eapply kept_trans.
Qed.

Lemma sendVideoFrame_kept c k q ms chunk uuid frame frameId codec distance decay :
  conn_at c k q ms → length uuid = kUuidSize →
  wp (sendVideoFrame crypto chunk uuid frame frameId codec distance decay) (λ _ c', kept c k q c') c.
Proof.
  intros Hc Hu. unfold sendVideoFrame. destruct (fragmentFrame _ _ _ _); wps; [by eapply kept_refl|].
  eapply wp_mono; [by eapply sendFragments_kept|]. intros r c' Hk. by wps.
Qed.

Lemma sendCapabilities_kept c k q ms :
  conn_at c k q ms → wp (sendCapabilities crypto) (λ _ c', kept c k q c') c.
Proof.
  intros Hc. unfold sendCapabilities. wps. eapply wp_lift; [reflexivity|].
  by eapply sendLongSpatial_kept.
Qed.

Lemma flushSends_wp c k q ms :
  conn_at c k q ms →
  wp flushSends (λ st c', sframe c c' ∧ ∃ ms', conn_at c' k q ms' ∧ flush_post st c ms c' ms') c.
Proof.
  intros Hc. unfold flushSends. wps. destruct (cf_bundleSends (k_config c)) eqn:Hb; cbn [negb].
  - by apply flushBundleLocked_wp.
  - wps. split; [done|]. exists ms. split; [done|]. rewrite (ca_unbundled _ _ _ _ Hc Hb).
    split; [by apply refused_ok, refused_same|]. simpl. by rewrite app_nil_r.
Qed.

(** A quiet step of the world alone. *)
Lemma quiet_kept c k q ms w : conn_at c k q ms → quiet (k_world c) w → kept c k q (set_world w c).
Proof.
  intros Hc Hq. split; [by apply quiet_sframe|]. destruct Hq as (Hlog&_). exists ms.
  eapply conn_at_core; [done|]. unfold core. cbn. by rewrite Hlog.
Qed.

Lemma flushExpiredBundle_kept c k q ms :
  conn_at c k q ms → wp flushExpiredBundle (λ _ c', kept c k q c') c.
Proof.
  intros Hc. unfold flushExpiredBundle, bundleExpiredLocked. wps.
  destruct (cf_bundleSends (k_config c)); cbn [negb]; [|wps; by eapply kept_refl]. wps.
  destruct (bw_empty (k_bundle c)); wps; [by eapply kept_refl| |];
    apply quiet_monotonic in Hw; pose proof (quiet_kept c k q ms w Hc Hw) as Hk0; [|done].
  destruct Hk0 as [Hf0 [ms0 Hc0]]. eapply wp_mono; [by apply flushBundleLocked_wp|].
  cbv beta. intros st c' (Hf&ms'&Hc'&_). wps. split; [by etrans|eauto].
Qed.

Lemma receiveWaitMs_kept c k q ms n :
  conn_at c k q ms → wp (receiveWaitMs n) (λ r c', kept c k q c' ∧ r ≤ Z.max n 0) c.
Proof.
  intros Hc. unfold receiveWaitMs. wps. destruct (cf_bundleSends (k_config c)); cbn [negb].
  2: { wps. split; [by eapply kept_refl|lia]. }
  wps. destruct (bw_empty (k_bundle c)); wps.
  - destruct (socketCanWake _); cbn [negb]; wps; (split; [by eapply kept_refl|]); [lia|].
    repeat case_match; lia.
  - apply quiet_monotonic in Hw. split; [by eapply quiet_kept|]. repeat case_match; lia.
Qed.

(** ** The receive path *)

(** What the receive path leaves alone. *)
Definition rest (c : Conn W) :=
  (k_config c, (k_token c, k_token64 c, k_mac c), k_handlers c, k_state c, (k_running c, k_joinable c),
   (k_sessionEpoch c, k_confirmedEpoch c), k_wait c, k_assignment c, k_sequence c, (k_bundle c, k_bundleOpenedMs c)).

(** [onEventsReady] is called at most once until a poll clears the flag. *)
Definition woke (c c' : Conn W) : Prop :=
  (k_eventsSignalled c' = k_eventsSignalled c ∧ k_signals c' = k_signals c) ∨
  (k_eventsSignalled c = false ∧ k_eventsSignalled c' = true ∧ k_signals c' = S (k_signals c)).

Definition rframe (c c' : Conn W) : Prop :=
  rest c' = rest c ∧ quiet (k_world c) (k_world c') ∧ woke c c'.

#[export] Instance woke_preorder : PreOrder woke.
Proof.
  split; unfold woke.
  - intros c. auto.
  - intros c1 c2 c3 [[??]|(?&?&?)] [[??]|(?&?&?)]; try (left; split; congruence); right; split_and!; congruence.
Qed.

#[export] Instance rframe_preorder : PreOrder rframe.
Proof.
  split; unfold rframe.
  - intros c. split_and!; done.
  - intros c1 c2 c3 (E1&?&?) (E2&?&?). split_and!; [congruence|by etrans|by etrans].
Qed.

Lemma rframe_same c c' :
  rest c' = rest c → k_world c' = k_world c → k_eventsSignalled c' = k_eventsSignalled c →
  k_signals c' = k_signals c → rframe c c'.
Proof. intros E1 E2 E3 E4. unfold rframe. rewrite E2. split_and!; [done|done|by left]. Qed.

Lemma rframe_config c c' : rframe c c' → k_config c' = k_config c.
Proof. intros (E&_). unfold rest in E. by injection E. Qed.

(** The wake-up promise: while events are queued, [onEventsReady] has been called since the last
    poll. *)
Definition awake (c : Conn W) (q : list Event) : Prop :=
  cf_onEventsReady (k_config c) = true → q ≠ [] → k_eventsSignalled c = true.

Definition room (k : Z) : nat := Z.to_nat (2 ^ k).

Lemma conn_at_room c k q ms : conn_at c k q ms → (length q ≤ room k)%nat ∧ 0 < 2 ^ k.
Proof.
  intros Hc. pose proof (ca_ring _ _ _ _ Hc) as (a & N & Hcn & _ & ->).
  destruct Hcn as (?&_&_&_&_&?&?). pose proof (pow2_pos k). unfold room. rewrite length_drop. lia.
Qed.

(** The state a receive leaves: [q'] queued, the books of the sends untouched. *)
Lemma conn_at_received c c' k q q' ms :
  conn_at c k q ms → rframe c c' → ring_rep (k_ring c') k q' → Forall event_ok q' →
  (∀ x, x ∈ [DatagramsSent; BytesSent; BundlesSent; MessagesSent; MessagesDropped] → k_count c' x = k_count c x) →
  conn_at c' k q' ms.
Proof.
  intros [] (Hs&(Hlog&_)&_) ?? Hn. unfold rest in Hs. injection Hs as Hcf Ht Ht64 Hm Hh Hst Hru Hj He Hcon Hw Ha Hsq Hb Hbo.
  split; rewrite ?Hcf, ?Ht64, ?Hm, ?Hb, ?Hlog; try done.
  eapply books_other; [done|..]; apply Hn; set_solver.
Qed.

Lemma signalEvents_wp c k q ms :
  conn_at c k q ms →
  wp signalEvents (λ _ c', rframe c c' ∧ conn_at c' k q ms ∧ awake c' q ∧ k_count c' = k_count c ∧
    k_reconnectRequested c' = k_reconnectRequested c ∧ (∀ q', awake c q' → awake c' q')) c.
Proof.
  intros Hc. unfold signalEvents. wps. destruct (cf_onEventsReady (k_config c)) eqn:Hr; cbn [negb]; wps.
  - assert (∀ c', core c' = core c → rframe c c' → k_eventsSignalled c' = true → k_count c' = k_count c →
      k_reconnectRequested c' = k_reconnectRequested c →
      rframe c c' ∧ conn_at c' k q ms ∧ awake c' q ∧ k_count c' = k_count c ∧
      k_reconnectRequested c' = k_reconnectRequested c ∧ (∀ q', awake c q' → awake c' q')) as Hend.
    { intros c' Hcore Hf Hs Hn Hrr. split; [done|]. split; [by eapply conn_at_core|]. split; [by intros ??|].
      split; [done|]. split; [done|]. by intros q' _ ??. }
    destruct (k_eventsSignalled c) eqn:Hs; wps; apply Hend; try done;
      (split; [done|split; [done|]]); [left|right]; cbn; auto.
  - split; [done|]. split; [done|]. split; [intros E; by rewrite Hr in E|]. auto.
Qed.

Lemma ringPush_wp c k q ms e :
  conn_at c k q ms → event_ok e →
  wp (ringPush e) (λ b c', conn_at c' k (take (room k) (q ++ [e])) ms ∧ b = bool_decide (length q < room k)%nat ∧
    ∃ r, c' = set_ring r c) c.
Proof.
  intros Hc He. pose proof (conn_at_room _ _ _ _ Hc) as [Hq Hk]. pose proof (ca_ring _ _ _ _ Hc) as Hr.
  unfold ringPush. wps. unfold room in *.
  assert (∀ r q', ring_rep r k q' → Forall event_ok q' → conn_at (set_ring r c) k q' ms) as Hend.
  { intros r q' Hr' Hq'. eapply conn_at_received; [exact Hc|by apply rframe_same|exact Hr'|exact Hq'|done]. }
  pose proof (ca_events _ _ _ _ Hc) as Hev.
  destruct (decide (length q < Z.to_nat (2 ^ k))%nat) as [Hlt|Hge].
  - destruct (tryPush_room _ _ _ e Hr) as (r & Hp & Hr'); [lia|]. eapply wp_lift; [exact Hp|]. wps.
    rewrite bool_decide_true, firstn_all2 by (rewrite ?length_app; simpl; lia). split_and!; [|done|eauto].
    apply Hend; [done|]. apply Forall_app_2; [done|by constructor].
  - eapply wp_lift; [eapply tryPush_full; [exact Hr|lia]|]. wps.
    rewrite bool_decide_false by lia. rewrite take_app_le, firstn_all2 by lia. split_and!; [|done|eauto].
    by apply Hend.
Qed.

(** The event a message is queued as: none when it is malformed, fails verification or is of no
    interest to a client. *)
Definition accept (verify : bool) (creds : Credentials) (message : bytes) : list Event :=
  match message with
  | [] => []
  | type :: _ =>
      match classify crypto verify creds type message with
      | Some (Queue kind _) => if decide (kMaxDatagramSize < length message)%nat then [] else [mkEvent kind CIdle message]
      | _ => []
      end
  end.

Lemma classify_defined verify creds type m : is_Some (classify crypto verify creds type m).
Proof.
  unfold classify. destruct (type =? GenericErrorMsg).
  { destruct (parseGenericError_defined m) as [r ->]. by eexists. }
  destruct ((type =? ChannelMessageNotification) || (type =? ChannelAudioNotification)).
  { destruct (parseChannelNotification_defined m) as [r ->]. by eexists. }
  destruct (type =? ClientCapabilities); [by eexists|]. destruct (isLongSpatialLayout type); [|by eexists].
  destruct (parseLongSpatial_defined m) as [[v|e] ->]; [|by eexists]. cbn [mbind option_bind].
  destruct verify; [|by eexists].
  destruct (verifyLongSpatial_defined crypto m (cr_token creds) (cr_mac creds)) as [st ->]. by eexists.
Qed.

(** What is queued parses as what it is queued as; a spatial notification was verified. *)
Lemma classify_Queue verify creds type m kind t :
  classify crypto verify creds type m = Some (Queue kind t) →
  match kind with
  | EvSpatial => isLongSpatialLayout type = true ∧ (∃ v, parseLongSpatial m = Some (Val v)) ∧
      (verify = true → verifyLongSpatial crypto m (cr_token creds) (cr_mac creds) = Some Ok)
  | EvChannel => ∃ v, parseChannelNotification m = Some (Val v)
  | EvError => ∃ v, parseGenericError m = Some (Val v)
  | EvStatus => False
  end.
Proof.
  unfold classify. destruct (type =? GenericErrorMsg).
  { destruct (parseGenericError m) as [[v|e]|]; intros [= <- _]; eauto. }
  destruct ((type =? ChannelMessageNotification) || (type =? ChannelAudioNotification)).
  { destruct (parseChannelNotification m) as [[v|e]|]; intros [= <- _]; eauto. }
  destruct (type =? ClientCapabilities); [done|]. destruct (isLongSpatialLayout type); [|done].
  destruct (parseLongSpatial m) as [[v|e]|]; [|done..]. cbn [mbind option_bind].
  destruct verify.
  - destruct (verifyLongSpatial _ _ _ _) as [[]|]; cbn; intros [= <- _]; naive_solver.
  - intros [= <- _]; naive_solver.
Qed.

Lemma take_app_take {A} n (a b d : list A) : take n (take n (a ++ b) ++ d) = take n (a ++ b ++ d).
Proof.
  rewrite (app_assoc a). destruct (decide (n ≤ length (a ++ b))%nat).
  - rewrite (take_app_le (take n (a ++ b))), (take_app_le (a ++ b) d), take_take, Nat.min_id by (rewrite ?length_take; lia). done.
  - by rewrite (firstn_all2 (n:=n) (a ++ b)) by lia.
Qed.

(** What receiving [evs] behind [q] does: those that fit are queued, the others counted. *)
Record took (c c' : Conn W) (k : Z) (q evs : list Event) : Prop := {
  tk_frame : rframe c c';
  tk_reconnect : k_reconnectRequested c' = k_reconnectRequested c;
  tk_received : u64 (k_count c' MessagesReceived) = u64 (k_count c MessagesReceived + Z.of_nat (length evs));
  tk_dropped : u64 (k_count c' RingDropped) =
    u64 (k_count c RingDropped + Z.of_nat (length (q ++ evs)) - Z.of_nat (length (take (room k) (q ++ evs))));
}.

Lemma took_nil c c' k q :
  rframe c c' → (length q ≤ room k)%nat → k_reconnectRequested c' = k_reconnectRequested c →
  k_count c' MessagesReceived = k_count c MessagesReceived → k_count c' RingDropped = k_count c RingDropped →
  took c c' k q [].
Proof.
  intros ? Hq ? E1 E2. split; rewrite ?E1, ?E2; [done..| |].
  - f_equal. simpl. lia.
  - rewrite app_nil_r, firstn_all2 by done. f_equal. lia.
Qed.

Lemma took_app c c1 c' k q a b :
  took c c1 k q a → took c1 c' k (take (room k) (q ++ a)) b → took c c' k q (a ++ b).
Proof.
  intros [F1 R1 M1 D1] [F2 R2 M2 D2]. split; [by etrans|congruence| |].
  - rewrite M2, <- u64_add, M1, u64_add, length_app. f_equal. lia.
  - rewrite take_app_take in D2. rewrite D2, <- Z.add_sub_assoc, <- u64_add, D1, u64_add. f_equal.
    rewrite !length_app. lia.
Qed.

(** The message of an event is counted and queued, or dropped by a full ring. *)
Lemma handleQueued_wp c c1 k q ms type e :
  conn_at c k q ms → event_ok e → core c1 = core c → rframe c c1 →
  k_reconnectRequested c1 = k_reconnectRequested c → k_eventsSignalled c1 = k_eventsSignalled c →
  wp (count MessagesReceived 1;; count (ReceivedByType type) 1;;
      pushed ← ringPush e;
      if (pushed : bool) then mret true else count RingDropped 1;; mret false)
    (λ b c', conn_at c' k (take (room k) (q ++ [e])) ms ∧ took c c' k q [e] ∧
      k_eventsSignalled c' = k_eventsSignalled c ∧ (b = false → take (room k) (q ++ [e]) = q)) c1.
Proof.
  intros Hc He Hcore Hf Hrr Hs. pose proof (conn_at_room _ _ _ _ Hc) as [Hroom _].
  assert (k_count c1 = k_count c) as Hn by (unfold core in Hcore; congruence).
  assert (k_ring c1 = k_ring c) as Hrg by (unfold core in Hcore; congruence).
  set (c2 := set_count (bump (bump (k_count c1) MessagesReceived 1) (ReceivedByType type) 1)
               (set_count (bump (k_count c1) MessagesReceived 1) c1)).
  assert (conn_at c2 k q ms) as Hc2.
  { eapply conn_at_received; [exact Hc|by etrans; [|by apply rframe_same]|cbn; rewrite Hrg; by eapply ca_ring|by eapply ca_events|].
    intros x Hx. cbn. rewrite Hn, !bump_ne; [done|..]; intros ->; set_solver. }
  wps. eapply wp_mono; [by apply (ringPush_wp c2)|]. cbv beta. intros b c3 (Hc3&->&r&->).
  case_bool_decide as Hlt; wps.
  - split; [done|]. split; [split|split; [done|done]]; cbn.
    + etrans; [exact Hf|by apply rframe_same].
    + done.
    + by rewrite bump_ne, bump_eq, Hn, wrapU_idemp by (done || lia).
    + rewrite !bump_ne, Hn by done. rewrite firstn_all2 by (rewrite length_app; simpl; lia). f_equal. lia.
  - assert (take (room k) (q ++ [e]) = q) as Hq by (rewrite take_app_le, firstn_all2 by lia; done).
    rewrite Hq in *. split; [|split; [split|split; [done|done]]]; cbn.
    + eapply conn_at_received; [exact Hc3|by apply rframe_same|by eapply ca_ring in Hc3|by eapply ca_events|].
      intros x Hx. cbn. rewrite bump_ne; [done|]. intros ->; set_solver.
    + etrans; [exact Hf|by apply rframe_same].
    + done.
    + by rewrite !(bump_ne _ _ MessagesReceived), bump_eq, Hn, wrapU_idemp by (done || lia).
    + rewrite bump_eq, !bump_ne, Hn, wrapU_idemp by (done || lia). rewrite length_app, Hq. f_equal. simpl. lia.
Qed.

Lemma handleMessage_wp c k q ms creds m :
  conn_at c k q ms →
  let evs := accept (cf_verifyNotifications (k_config c)) creds m in
  wp (handleMessage crypto creds m) (λ b c',
    conn_at c' k (take (room k) (q ++ evs)) ms ∧ took c c' k q evs ∧ k_eventsSignalled c' = k_eventsSignalled c ∧
    (b = false → take (room k) (q ++ evs) = q)) c.
Proof.
  intros Hc evs. pose proof (conn_at_room _ _ _ _ Hc) as [Hroom Hpos].
  assert (∀ c', rframe c c' → k_ring c' = k_ring c → k_reconnectRequested c' = k_reconnectRequested c →
    k_eventsSignalled c' = k_eventsSignalled c →
    (∀ x, x ∈ [DatagramsSent; BytesSent; BundlesSent; MessagesSent; MessagesDropped; MessagesReceived; RingDropped] →
      k_count c' x = k_count c x) → evs = [] →
    conn_at c' k (take (room k) (q ++ evs)) ms ∧ took c c' k q evs ∧ k_eventsSignalled c' = k_eventsSignalled c ∧
    (false = false → take (room k) (q ++ evs) = q)) as Hnone.
  { intros c' Hf Hr Hrr Hs Hn ->. rewrite app_nil_r, firstn_all2 by done. split_and!; try done.
    - eapply conn_at_received; [done|done|rewrite Hr; by eapply ca_ring|by eapply ca_events|]. set_solver.
    - apply took_nil; try done; apply Hn; set_solver. }
  unfold handleMessage. destruct m as [|type m'] eqn:Em; [wps; by apply Hnone|]. rewrite <- Em in *. wps.
  destruct (classify_defined (cf_verifyNotifications (k_config c)) creds type m) as [verdict Hv].
  assert (evs = match verdict with Queue kind _ => if decide (kMaxDatagramSize < length m)%nat then [] else [mkEvent kind CIdle m] | _ => [] end) as Hevs.
  { unfold evs. rewrite ?Em. cbn [accept]. rewrite <- Em. by rewrite Hv. }
  clearbody evs. eapply wp_lift; [exact Hv|].
  assert (∀ y c', rframe c c' → k_ring c' = k_ring c → k_reconnectRequested c' = k_reconnectRequested c →
    k_eventsSignalled c' = k_eventsSignalled c → k_count c' = bump (k_count c) y 1 → y = MalformedCount ∨ y = HmacFailures →
    evs = [] →
    conn_at c' k (take (room k) (q ++ evs)) ms ∧ took c c' k q evs ∧ k_eventsSignalled c' = k_eventsSignalled c ∧
    (false = false → take (room k) (q ++ evs) = q)) as Hbad.
  { intros y c' ? ? ? ? Hn Hy ?. apply Hnone; try done. intros x Hx. rewrite Hn. apply bump_ne.
    intros ->. destruct Hy; subst; set_solver. }
  destruct verdict as [kind t| | |].
  2,3: wps; eapply Hbad; eauto; by apply rframe_same.
  2: wps; by apply Hnone.
  wp_step.
  assert (∀ c1, core c1 = core c → rframe c c1 → k_reconnectRequested c1 = k_reconnectRequested c →
    k_eventsSignalled c1 = k_eventsSignalled c →
    wp (if decide (kMaxDatagramSize < length m)%nat then count MalformedCount 1;; mret false else
        count MessagesReceived 1;; count (ReceivedByType type) 1;;
        pushed ← ringPush (mkEvent kind CIdle m);
        if (pushed : bool) then mret true else count RingDropped 1;; mret false)
      (λ b c', conn_at c' k (take (room k) (q ++ evs)) ms ∧ took c c' k q evs ∧
        k_eventsSignalled c' = k_eventsSignalled c ∧ (b = false → take (room k) (q ++ evs) = q)) c1) as Hpush.
  { intros c1 Hcore Hf Hrr Hs. assert (k_count c1 = k_count c) as Hn by (unfold core in Hcore; congruence).
    assert (k_ring c1 = k_ring c) as Hrg by (unfold core in Hcore; congruence).
    destruct (decide (kMaxDatagramSize < length m)%nat) as [Hbig|Hfit].
    - wps. apply (Hbad MalformedCount); [by etrans; [|by apply rframe_same]|done..|by cbn; rewrite Hn|by left|done].
    - rewrite Hevs. apply handleQueued_wp; [done| |done..]. apply classify_Queue in Hv.
      split; [cbn; lia|]. by destruct kind; [destruct Hv as (_&?&_)|..]. }
  destruct t as [t|]; wps; apply Hpush; try done; by apply rframe_same.
Qed.

Lemma handleMessages_wp c k q ms creds messages :
  conn_at c k q ms →
  let evs := concat (accept (cf_verifyNotifications (k_config c)) creds <$> messages) in
  wp (handleMessages crypto creds messages) (λ b c',
    conn_at c' k (take (room k) (q ++ evs)) ms ∧ took c c' k q evs ∧ k_eventsSignalled c' = k_eventsSignalled c ∧
    (b = false → take (room k) (q ++ evs) = q)) c.
Proof.
  cbv zeta. revert c q. induction messages as [|m messages IH]; intros c q Hc; cbn [handleMessages].
  - pose proof (conn_at_room _ _ _ _ Hc) as [Hq _]. wps. cbn. rewrite app_nil_r, firstn_all2 by done.
    split_and!; try done. by apply took_nil.
  - wps. eapply wp_mono; [by apply handleMessage_wp|]. cbv beta. intros b c1 (Hc1&Ht1&Hs1&Hb1). wps.
    eapply wp_mono; [by apply IH|]. cbv beta. intros b' c2 (Hc2&Ht2&Hs2&Hb2). wps.
    rewrite (rframe_config c c1) in Hc2, Ht2, Hb2 by apply Ht1.
    rewrite fmap_cons. cbn [concat]. rewrite take_app_take in Hc2, Hb2. split_and!; [done|by eapply took_app|congruence|].
    intros [-> ->]%orb_false_elim. rewrite Hb2, Hb1; done.
Qed.

(** The events a datagram is received as, and whether it is a reconnect command to obey. *)
Definition datagramEvents (verify : bool) (creds : Credentials) (d : bytes) : list Event :=
  if startsWith CommandReconnect d then []
  else if startsWith MessageBundleSigned d &&
          negb (bool_decide (verifySignedBundle crypto d (cr_token creds) (cr_mac creds) = Some Ok)) then []
  else concat (accept verify creds <$> unpack d).

Definition commands (token d : bytes) : bool :=
  startsWith CommandReconnect d && bool_decide (verifyCommandReconnect crypto d token = Some Ok).

Definition credsOf (c : Conn W) : Credentials := mkCredentials (k_token64 c) (k_mac c) (ti_gameTokenId (k_token c)).

(** What a call that receives [evs] leaves. *)
Record received (c c' : Conn W) (k : Z) (q : list Event) (ms : list bytes) (evs : list Event) (reconnect : bool) : Prop := {
  rc_at : conn_at c' k (take (room k) (q ++ evs)) ms;
  rc_frame : rframe c c';
  rc_reconnect : k_reconnectRequested c' = k_reconnectRequested c || reconnect;
  rc_received : u64 (k_count c' MessagesReceived) = u64 (k_count c MessagesReceived + Z.of_nat (length evs));
  rc_dropped : u64 (k_count c' RingDropped) =
    u64 (k_count c RingDropped + Z.of_nat (length (q ++ evs)) - Z.of_nat (length (take (room k) (q ++ evs))));
  rc_awake : awake c q → awake c' (take (room k) (q ++ evs));
}.

(** Steps of a receive that concern no message. *)
Definition noise (x : Counter) : Prop :=
  x = DatagramsReceived ∨ x = BytesReceived ∨ x = HmacFailures ∨ x = SignedBundlesReceived ∨ x = MalformedCount.

Record silent (c c' : Conn W) : Prop := {
  sl_frame : rframe c c';
  sl_ring : k_ring c' = k_ring c;
  sl_signalled : k_eventsSignalled c' = k_eventsSignalled c;
  sl_counts : ∀ x, ¬ noise x → k_count c' x = k_count c x;
}.

#[export] Instance silent_preorder : PreOrder silent.
Proof.
  split.
  - intros c. by split.
  - intros c1 c2 c3 [F1 R1 S1 N1] [F2 R2 S2 N2]. split; [by etrans|congruence..|]. intros x Hx. by rewrite N2, N1.
Qed.

Lemma silent_same c c' :
  rest c' = rest c → k_world c' = k_world c → k_eventsSignalled c' = k_eventsSignalled c →
  k_signals c' = k_signals c → k_ring c' = k_ring c → k_count c' = k_count c → silent c c'.
Proof. intros. split; try done; [by apply rframe_same|congruence]. Qed.

Lemma silent_count c x n : noise x → silent c (set_count (bump (k_count c) x n) c).
Proof. intros Hx. split; try done; [by apply rframe_same|]. intros y Hy. apply bump_ne. by intros ->. Qed.

Lemma silent_world c w : quiet (k_world c) w → silent c (set_world w c).
Proof. intros Hq. split; try done. split; [done|]. split; [done|by left]. Qed.

Lemma silent_creds c c' : silent c c' → credsOf c' = credsOf c ∧ k_token64 c' = k_token64 c ∧ k_config c' = k_config c.
Proof. intros [(E&_) _ _ _]. unfold rest in E. unfold credsOf. injection E as E1 E2 E3 E4. by rewrite E1, E2, E3, E4. Qed.

Lemma silent_at c c' k q ms : conn_at c k q ms → silent c c' → conn_at c' k q ms.
Proof.
  intros Hc [Hf Hr Hs Hn]. eapply conn_at_received; [done|done|rewrite Hr; by eapply ca_ring|by eapply ca_events|].
  intros x Hx. apply Hn. unfold noise. set_solver.
Qed.

Lemma silent_received c c' k q ms reconnect :
  conn_at c k q ms → silent c c' → k_reconnectRequested c' = k_reconnectRequested c || reconnect →
  received c c' k q ms [] reconnect.
Proof.
  intros Hc Hsl Hrr. pose proof Hsl as [Hf Hr Hs Hn]. pose proof (conn_at_room _ _ _ _ Hc) as [Hq _].
  assert (¬ noise MessagesReceived ∧ ¬ noise RingDropped) as [Hx1 Hx2] by (unfold noise; naive_solver).
  split; rewrite ?app_nil_r, ?firstn_all2, ?Hn by done; try done.
  - by eapply silent_at.
  - f_equal. simpl. lia.
  - f_equal. lia.
  - unfold awake. by rewrite Hs, (rframe_config _ _ Hf).
Qed.

(** A step that concerns no message, then a receive. *)
Lemma silent_then c c1 c' k q ms evs reconnect :
  silent c c1 → k_reconnectRequested c1 = k_reconnectRequested c → received c1 c' k q ms evs reconnect →
  received c c' k q ms evs reconnect.
Proof.
  intros [Hf Hr Hs Hn] Hrr [H1 H2 H3 H4 H5 H6].
  assert (¬ noise MessagesReceived ∧ ¬ noise RingDropped) as [Hn1 Hn2] by (unfold noise; naive_solver).
  split; [done|by etrans|congruence|by rewrite H4, Hn|by rewrite H5, Hn|].
  intros Ha. apply H6. unfold awake. by rewrite Hs, (rframe_config _ _ Hf).
Qed.

(** Unpacking a datagram into the ring. *)
Lemma handleContents_wp c k q ms d :
  conn_at c k q ms →
  wp ('(messages, bundleStatus) ← lift (forEachMessage d);
      queued ← handleMessages crypto (credsOf c) messages;
      whenM (negb (ok bundleStatus)) (count MalformedCount 1);;
      whenM queued signalEvents)
    (λ _ c', received c c' k q ms
      (concat (accept (cf_verifyNotifications (k_config c)) (credsOf c) <$> unpack d)) false) c.
Proof.
  intros Hc. destruct (forEachMessage_defined d) as [[messages st] Hd]. unfold unpack. rewrite Hd.
  wps. eapply wp_lift; [done|]. cbv beta iota. wps. eapply wp_mono; [by apply handleMessages_wp|]. cbv beta.
  intros b c1 (Hc1&Ht1&Hs1&Hb1). set (evs := concat _) in *. set (q' := take _ _) in *.
  assert (∀ c2, silent c1 c2 → k_reconnectRequested c2 = k_reconnectRequested c1 →
    wp (whenM b signalEvents) (λ _ c', received c c' k q ms evs false) c2) as Hend.
  { intros c2 Hsl Hrr2. pose proof (silent_at _ _ _ _ _ Hc1 Hsl) as Hc2.
    destruct Ht1 as [Hf1 Hrr1 Hm1 Hd1]. destruct Hsl as [Hf2 Hr2 Hs2 Hn2].
    assert (¬ noise MessagesReceived ∧ ¬ noise RingDropped) as [Hx1 Hx2] by (unfold noise; naive_solver).
    apply wp_when; intros ->.
    - eapply wp_mono; [by apply signalEvents_wp|]. cbv beta. intros _ c3 (Hf3&Hc3&Ha3&Hn3&Hrr3&_).
      split; [done|by etrans; [|etrans]|rewrite orb_false_r; congruence|by rewrite Hn3, Hn2|by rewrite Hn3, Hn2|done].
    - split; [done|by etrans|rewrite orb_false_r; congruence|by rewrite Hn2|by rewrite Hn2|].
      unfold awake. fold q'. rewrite Hb1, Hs2, Hs1 by done. rewrite (rframe_config c c2); [done|by etrans]. }
  wp_step. wp_step; [wp_step|]; apply Hend; try done. apply silent_count. unfold noise. auto.
Qed.

Lemma handleDatagram_wp c k q ms d :
  conn_at c k q ms →
  wp (handleDatagram crypto d) (λ _ c', received c c' k q ms
    (datagramEvents (cf_verifyNotifications (k_config c)) (credsOf c) d) (commands (k_token64 c) d)) c.
Proof.
  intros Hc. unfold handleDatagram, datagramEvents, commands. wps. apply quiet_monotonic in Hw.
  match goal with |- wp _ _ ?x => set (c1 := x) end.
  assert (silent c c1 ∧ k_reconnectRequested c1 = k_reconnectRequested c) as [Hsl Hrr].
  { split; [|done]. unfold c1. etrans; [apply (silent_count _ DatagramsReceived 1); unfold noise; auto|].
    etrans; [apply (silent_count _ BytesReceived (Z.of_nat (length d))); unfold noise; auto|].
    etrans; [by apply (silent_world _ w)|]. by apply silent_same. }
  pose proof (silent_creds _ _ Hsl) as (Hcr&Htk&Hcf). clearbody c1.
  pose proof (silent_at _ _ _ _ _ Hc Hsl) as Hc1.
  rewrite <- Hcr, <- Htk, <- Hcf.
  eapply wp_mono; [|intros ? c'; by apply silent_then]. clear c w a Hw Hc Hsl Hrr Hcr Htk Hcf.
  destruct (startsWith CommandReconnect d).
  { wps. destruct (verifyCommandReconnect_defined crypto d (k_token64 c1)) as [st Hst].
    eapply wp_lift; [exact Hst|]. rewrite Hst. destruct (ok st) eqn:Hok; wps; cbn [andb].
    - assert (st = Ok) as -> by (by destruct st). apply silent_received; [done|by apply silent_same|].
      rewrite bool_decide_true by done. by rewrite orb_true_r.
    - rewrite bool_decide_false by (intros [= ->]; done). apply silent_received; [done| |by rewrite orb_false_r].
      apply silent_count. unfold noise. auto. }
  cbn [andb]. wp_step. apply (wp_gets credsOf). cbv beta. wp_step.
  destruct (startsWith MessageBundleSigned d); wp_step; try done.
  2: { wps. cbn [ok negb andb]. by apply handleContents_wp. }
  wp_step. set (c2 := set_count _ c1).
  assert (silent c1 c2) as Hsl by (apply silent_count; unfold noise; auto).
  eapply wp_mono; [|intros ? c'; by apply (silent_then c1 c2)].
  destruct (verifySignedBundle_defined crypto d (cr_token (credsOf c1)) (cr_mac (credsOf c1))) as [st Hst].
  wp_step. eapply wp_lift; [exact Hst|]. rewrite Hst. pose proof (silent_at _ _ _ _ _ Hc1 Hsl) as Hc2.
  destruct (ok st) eqn:Hok; cbn [negb].
  - assert (st = Ok) as -> by (by destruct st). rewrite bool_decide_true by done.
    by apply (handleContents_wp c2).
  - rewrite bool_decide_false by (intros [= ->]; done). wps.
    apply silent_received; [done| |by rewrite orb_false_r]. apply silent_count. unfold noise. auto.
Qed.

Lemma received_app c c1 c' k q ms a b ra rb :
  received c c1 k q ms a ra → received c1 c' k (take (room k) (q ++ a)) ms b rb →
  received c c' k q ms (a ++ b) (ra || rb).
Proof.
  intros [C1 F1 R1 M1 D1 A1] [C2 F2 R2 M2 D2 A2]. rewrite take_app_take in C2, D2, A2.
  split; [done|by etrans|by rewrite R2, R1, orb_assoc| | |auto].
  - rewrite M2, <- u64_add, M1, u64_add, length_app. f_equal. lia.
  - rewrite D2, <- Z.add_sub_assoc, <- u64_add, D1, u64_add. f_equal. rewrite !length_app. lia.
Qed.

Lemma received_creds c c' k q ms evs rq :
  received c c' k q ms evs rq → credsOf c' = credsOf c ∧ k_token64 c' = k_token64 c ∧ k_config c' = k_config c.
Proof.
  intros [_ (E&_) _ _ _ _]. unfold rest in E. unfold credsOf. injection E as E1 E2 E3 E4. by rewrite E1, E2, E3, E4.
Qed.

(** The events and commands of the datagrams [ds], as the connection [c] sees them. *)
Definition inflow (c : Conn W) (ds : list bytes) : list Event :=
  concat (datagramEvents (cf_verifyNotifications (k_config c)) (credsOf c) <$> ds).
Definition commanded (c : Conn W) (ds : list bytes) : bool := existsb (commands (k_token64 c)) ds.

Lemma inflow_creds c c' ds :
  credsOf c' = credsOf c ∧ k_token64 c' = k_token64 c ∧ k_config c' = k_config c →
  inflow c' ds = inflow c ds ∧ commanded c' ds = commanded c ds.
Proof. intros (E1&E2&E3). unfold inflow, commanded. by rewrite E1, E2, E3. Qed.

Lemma inflow_app c ds ds' :
  inflow c (ds ++ ds') = inflow c ds ++ inflow c ds' ∧ commanded c (ds ++ ds') = commanded c ds || commanded c ds'.
Proof. unfold inflow, commanded. by rewrite fmap_app, concat_app, existsb_app. Qed.

Lemma handleDatagrams_wp c k q ms ds :
  conn_at c k q ms →
  wp (handleDatagrams crypto ds) (λ _ c', received c c' k q ms (inflow c ds) (commanded c ds)) c.
Proof.
  revert c q. induction ds as [|d ds IH]; intros c q Hc; cbn [handleDatagrams].
  - wps. apply silent_received; [done|done|by rewrite orb_false_r].
  - wps. eapply wp_mono; [by apply handleDatagram_wp|]. cbv beta. intros _ c1 H1.
    eapply wp_mono; [eapply IH, rc_at, H1|]. cbv beta. intros _ c' H2.
    destruct (inflow_creds c c1 ds (received_creds _ _ _ _ _ _ _ H1)) as [-> ->] in H2.
    by eapply received_app.
Qed.

(** A receive ends once everything that is to arrive has: every full batch takes sixteen of it. *)
Lemma receiveBatch_wp fuel c k q ms wait :
  conn_at c k q ms → (inbound (k_world c) < kBatch * fuel)%nat →
  wp (receiveBatch crypto fuel wait) (λ n c', ∃ ds, n = length ds ∧
    received c c' k q ms (inflow c ds) (commanded c ds)) c.
Proof.
  revert c q wait. induction fuel as [|fuel IH]; intros c q wait Hc Hfuel; [lia|]. cbn [receiveBatch]. wps.
  apply law_recv in Hw as [Hq Hn]. pose proof (silent_world c w Hq) as Hsl.
  assert (received c (set_world w c) k q ms [] false) as Hnone.
  { apply silent_received; [done|done|by rewrite orb_false_r]. }
  destruct a as [ds|e]; [|wps; by exists []]. destruct ds as [|d ds'] eqn:Eds; [wps; by exists []|].
  rewrite <- Eds in *. clear Eds d ds'. destruct Hn as [Hlen Hin]. wps.
  eapply wp_mono; [eapply handleDatagrams_wp, silent_at; eauto|]. cbv beta. intros _ c1 H1.
  pose proof (rc_frame _ _ _ _ _ _ _ H1) as (_&(_&_&Hi)&_). apply (silent_then c) in H1; [|done|done].
  destruct (inflow_creds c (set_world w c) ds (conj eq_refl (conj eq_refl eq_refl))) as [E1 E2]. rewrite E1, E2 in H1.
  case_decide as Hfull; wps; [by exists ds|].
  eapply wp_mono; [eapply IH; [eapply rc_at, H1|]|].
  - cbn in Hi. destruct Hi. change kBatch with 16%nat in *. lia.
  - cbv beta. intros n c2 (ds'&->&H2). wps. exists (ds ++ ds'). split; [by rewrite length_app|].
    destruct (inflow_creds c c1 ds' (received_creds _ _ _ _ _ _ _ H1)) as [E1' E2']. rewrite E1', E2' in H2.
    destruct (inflow_app c ds ds') as [-> ->]. by eapply received_app.
Qed.

End Laws.
