(* ===== verification/ConnLife.v ===== *)
(** * The replication connection: lifecycle and dispatch

    What the state changes, the housekeeping pass and [poll] of [Connection] do to its abstract
    state, and the invariant all operations keep. *)

From S2P Require Import Prelude Bytes Protocol Codec Bundle Spsc Types Video Connection ConnectionLaws.

Open Scope Z_scope.

(** A session only continues, or becomes ready, without a new epoch. *)
Definition calm {W} (c c' : Conn W) : Prop :=
  k_sessionEpoch c' = k_sessionEpoch c ∧
  (k_state c' = k_state c ∨ k_state c = CConnecting ∧ k_state c' = CConnected).

(** The session after an operation: the one before it, or none any more, or a new one under the
    next epoch. *)
Definition session_rel {W} (c c' : Conn W) : Prop :=
  calm c c' ∨ (k_sessionEpoch c' = k_sessionEpoch c ∧ (k_state c' = CFailed ∨ k_state c' = CClosed)) ∨
  (k_sessionEpoch c' = u64 (k_sessionEpoch c + 1) ∧ (k_state c' = CConnecting ∨ k_state c' = CFailed)).

#[export] Instance calm_preorder W : PreOrder (@calm W).
Proof.
  split; unfold calm.
  - intros c. auto.
  - intros c1 c2 c3 [-> [H1|[H1 H2]]] [-> [H3|[H3 H4]]]; split; try done; rewrite ?H3, ?H4; rewrite ?H1 in *; auto;
      left; congruence.
Qed.

Section Life.
Context {W : Type} `{NetLaws W} (crypto : ICrypto) `{!CryptoLaws crypto}.
Abbreviation conn_at := (conn_at crypto).
Abbreviation kept := (kept crypto).
Abbreviation received := (received crypto).
Implicit Types c : Conn W.

(** While a session is connecting or connected the socket is open. *)
Definition online (c : Conn W) : Prop :=
  k_state c = CConnecting ∨ k_state c = CConnected → socketIsOpen (k_world c) = true.

(** What no lifecycle operation touches. *)
Definition fixed (c : Conn W) := (k_config c, k_handlers c, k_confirmedEpoch c, k_wait c).

(** The connection between two operations. *)
Record ok_at (c : Conn W) (k : Z) (q : list Event) (ms : list bytes) : Prop := {
  oa_at : conn_at c k q ms;
  oa_awake : awake c q;
  oa_online : online c;
  oa_settled : k_state c ≠ CReconnecting;
  oa_pump : cf_manualPump (k_config c) = true → k_joinable c = false;
}.

Lemma status_event_ok s : event_ok (mkEvent EvStatus s []).
Proof. split; cbn; [lia|done]. Qed.

(** What a change of state leaves alone. *)
Definition still (c : Conn W) :=
  (k_config c, (k_token c, k_token64 c, k_mac c), k_handlers c, (k_running c, k_joinable c), k_confirmedEpoch c,
   k_wait c, k_assignment c, k_sequence c, (k_bundle c, k_bundleOpenedMs c), k_reconnectRequested c, k_count c).

Record turned (c c' : Conn W) : Prop := {
  tn_still : still c' = still c;
  tn_quiet : quiet (k_world c) (k_world c');
  tn_woke : woke c c';
}.

Definition entryQueue (k : Z) (q : list Event) (prev next : ConnState) : list Event :=
  if decide (prev = next) then q else take (room k) (q ++ [mkEvent EvStatus next []]).
Definition entryEpoch (epoch : Z) (prev next : ConnState) : Z :=
  if decide (prev ≠ next ∧ next = CConnecting) then u64 (epoch + 1) else epoch.

(** Entering a state: the event is queued if there is room, and signalled. *)
Record entered (next : ConnState) (c c' : Conn W) (k : Z) (q : list Event) (ms : list bytes) : Prop := {
  en_at : conn_at c' k (entryQueue k q (k_state c) next) ms;
  en_awake : awake c q → awake c' (entryQueue k q (k_state c) next);
  en_state : k_state c' = next;
  en_epoch : k_sessionEpoch c' = entryEpoch (k_sessionEpoch c) (k_state c) next;
  en_turned : turned c c';
}.

(** The status event of a state just entered. *)
Lemma pushStatus_wp c c1 k q ms next :
  conn_at c k q ms → k_state c ≠ next → k_state c1 = next → still c1 = still c → k_world c1 = k_world c →
  k_ring c1 = k_ring c → k_eventsSignalled c1 = k_eventsSignalled c → k_signals c1 = k_signals c →
  k_sessionEpoch c1 = entryEpoch (k_sessionEpoch c) (k_state c) next →
  wp (pushed ← ringPush (mkEvent EvStatus next []); whenM pushed signalEvents)
    (λ _ c', entered next c c' k q ms) c1.
Proof.
  intros Hc Hne Hst Hstill Hw Hr Hs Hsg He. pose proof (conn_at_room crypto _ _ _ _ Hc) as [Hroom _].
  assert (core c1 = core c) as Hcore.
  { unfold core, still in *. congruence. }
  assert (k_config c1 = k_config c) as Hcf by (unfold core in Hcore; congruence).
  wps. eapply wp_mono; [eapply (ringPush_wp crypto); [by eapply conn_at_core|apply status_event_ok]|].
  cbv beta. intros b c2 (Hc2&->&r&->).
  assert (entryQueue k q (k_state c) next = take (room k) (q ++ [mkEvent EvStatus next []])) as Hq.
  { unfold entryQueue. by rewrite decide_False. }
  assert (∀ c', rframe (set_ring r c1) c' → k_count c' = k_count c → k_reconnectRequested c' = k_reconnectRequested c →
    turned c c' ∧ k_state c' = next ∧ k_sessionEpoch c' = entryEpoch (k_sessionEpoch c) (k_state c) next) as Hend.
  { intros c' (Hrest&Hq'&Hwk) Hn Hrr. cbn in Hq'. unfold rest in Hrest. cbn in Hrest.
    split; [split|split; congruence].
    - unfold still in *. congruence.
    - by rewrite <- Hw.
    - unfold woke in *. cbn in Hwk. rewrite Hs, Hsg in Hwk. done. }
  unfold still in Hstill. apply wp_when; intros Hb.
  - eapply wp_mono; [by eapply (signalEvents_wp crypto)|]. cbv beta. intros _ c' (Hf&Hc'&Ha&Hn&Hrr&_).
    destruct (Hend c') as (?&?&?); [done|rewrite Hn; cbn; congruence|rewrite Hrr; cbn; congruence|].
    split; rewrite ?Hq; done.
  - destruct (Hend (set_ring r c1)) as (?&?&?); [done|cbn; congruence|cbn; congruence|].
    split; rewrite ?Hq; try done. apply bool_decide_eq_false in Hb. rewrite take_app_le, firstn_all2 by lia.
    unfold awake. cbn. by rewrite Hcf, Hs.
Qed.

Lemma setState_wp c k q ms next :
  conn_at c k q ms → wp (setState next) (λ _ c', entered next c c' k q ms) c.
Proof.
  intros Hc. unfold setState. wps. destruct (decide (k_state c = next)) as [E|E].
  - wps. split; unfold entryQueue, entryEpoch; rewrite ?(decide_True (P := k_state c = next)), ?decide_False by tauto.
    + rewrite <- E. by eapply conn_at_core.
    + done.
    + done.
    + done.
    + split; [done|done|by left].
  - wp_step. apply wp_when; intros Hn; [apply bool_decide_eq_true in Hn|apply bool_decide_eq_false in Hn]; [wp_step|].
    + apply (pushStatus_wp c); try done. unfold entryEpoch. by rewrite decide_True.
    + apply (pushStatus_wp c); try done. unfold entryEpoch. rewrite decide_False by tauto. done.
Qed.
(** ** Between two states *)

(** What the steps that change no state leave alone. *)
Definition ident (c : Conn W) :=
  (k_config c, k_handlers c, k_state c, k_joinable c, k_sessionEpoch c, k_confirmedEpoch c, k_wait c,
   (k_eventsSignalled c, k_signals c)).

Record steady (c c' : Conn W) (k : Z) (q : list Event) : Prop := {
  sd_at : ∃ ms, conn_at c' k q ms;
  sd_ident : ident c' = ident c;
  sd_inbound : later (k_world c) (k_world c');
}.

Lemma steady_refl c k q ms : conn_at c k q ms → steady c c k q.
Proof. intros. split; [eauto|done|done]. Qed.

Lemma steady_trans c c1 c2 k q : steady c c1 k q → steady c1 c2 k q → steady c c2 k q.
Proof. intros [_ ??] [???]. split; [done|congruence|by etrans]. Qed.

Lemma steady_same c c' k q ms :
  conn_at c k q ms → core c' = core c → ident c' = ident c → k_world c' = k_world c → steady c c' k q.
Proof. intros ??? Hw. split; [eexists; by eapply conn_at_core|done|by rewrite Hw]. Qed.

Lemma steady_quiet c k q ms w :
  conn_at c k q ms → quiet (k_world c) w → steady c (set_world w c) k q.
Proof.
  intros Hc (Hl&_&Hi). split; [exists ms|done|done]. eapply conn_at_core; [done|]. unfold core. cbn. by rewrite Hl.
Qed.

Lemma kept_steady c c' k q : kept c k q c' → steady c c' k q ∧ socketIsOpen (k_world c') = socketIsOpen (k_world c).
Proof. intros [(Hs&Ho&Hi) Hc]. split; [split; [done| |done]|done]. unfold ident, session in *. congruence. Qed.

Lemma doAssign_wp c k q ms :
  conn_at c k q ms →
  wp doAssign (λ st c', steady c c' k q ∧ (ok st = true → socketIsOpen (k_world c') = true)) c.
Proof.
  intros Hc. unfold doAssign. wps. apply law_assign in Hw as [Hw Herr].
  apply (steady_quiet c k q ms w Hc) in Hw as Hs0.
  pose proof (sd_at _ _ _ _ Hs0) as [ms0 Hc0].
  destruct a as [endpoint|e].
  2: { wps. split; [done|]. intros ->%ok_true. by destruct (Herr Ok). }
  wps. set (host := if _ && _ then _ else _). destruct (bool_decide _ || _); [wps; by split|].
  wp_step. wp_step. apply law_open in Hw0 as (Hl&Hi&Ho). cbn in Hl, Hi.
  set (c1 := set_world w0 (set_world w c)).
  assert (steady c c1 k q) as Hs1.
  { destruct Hs0 as [_ Hid Hi0]. split; [exists ms0|done|cbn in *; by etrans]. eapply conn_at_core; [done|].
    unfold core. cbn. by rewrite Hl. }
  destruct (ok a) eqn:Hst; cbn [negb]; [|wps; by rewrite Hst]. wps.
  apply quiet_monotonic in Hw0. destruct (sd_at _ _ _ _ Hs1) as [ms1 Hc1].
  assert (steady c1 (set_world w1 (set_assignment endpoint c1)) k q) as Hs2.
  { eapply steady_trans; [eapply (steady_same _ (set_assignment endpoint c1)); done|].
    eapply steady_quiet; [by eapply conn_at_core|done]. }
  destruct (sd_at _ _ _ _ Hs2) as [ms2 Hc2]. split.
  - eapply steady_trans; [exact Hs1|]. eapply steady_trans; [exact Hs2|]. by eapply steady_same.
  - intros _. destruct Hw0 as (_&E&_). cbn in *. rewrite E. by apply Ho.
Qed.
(** Steps that change neither the state nor the socket. *)
Definition unmoved (c c' : Conn W) (k : Z) (q : list Event) : Prop :=
  steady c c' k q ∧ socketIsOpen (k_world c') = socketIsOpen (k_world c).

Lemma unmoved_refl c k q ms : conn_at c k q ms → unmoved c c k q.
Proof. intros. split; [by eapply steady_refl|done]. Qed.

Lemma unmoved_trans c c1 c2 k q : unmoved c c1 k q → unmoved c1 c2 k q → unmoved c c2 k q.
Proof. intros [? E1] [? E2]. split; [by eapply steady_trans|congruence]. Qed.

Lemma unmoved_same c c' k q ms :
  conn_at c k q ms → core c' = core c → ident c' = ident c → k_world c' = k_world c → unmoved c c' k q.
Proof. intros ??? E. split; [by eapply steady_same|by rewrite E]. Qed.

Lemma unmoved_quiet c k q ms w :
  conn_at c k q ms → quiet (k_world c) w → unmoved c (set_world w c) k q.
Proof. intros ? Hq. split; [by eapply steady_quiet|apply Hq]. Qed.

Lemma unmoved_at c c' k q : unmoved c c' k q → ∃ ms, conn_at c' k q ms.
Proof. intros [[]]. done. Qed.

(** A step after another. *)
Lemma wp_after {A} (m : M W A) c c1 k q (Q : A → Conn W → Prop) :
  unmoved c c1 k q → (∀ ms, conn_at c1 k q ms → wp m (λ a c', unmoved c1 c' k q ∧ Q a c') c1) →
  wp m (λ a c', unmoved c c' k q ∧ Q a c') c1.
Proof.
  intros H1 H2. destruct (unmoved_at _ _ _ _ H1) as [ms Hc]. eapply wp_mono; [by eapply H2|].
  intros a c' [??]. split; [by eapply unmoved_trans|done].
Qed.

Lemma setToken_wp c k q ms token :
  conn_at c k q ms → wp (setToken crypto token) (λ _ c', unmoved c c' k q) c.
Proof.
  intros Hc. unfold setToken. wps. destruct (Token64_fromString (ti_token token)) as [t|]; wps.
  - destruct Hc. split; [split; [|done|done]|done]. exists ms. split; try done. by intros m.
  - by eapply unmoved_same.
Qed.

Lemma advertise_wp c k q ms now :
  conn_at c k q ms → wp (advertise crypto now) (λ _ c', unmoved c c' k q) c.
Proof.
  intros Hc. unfold advertise. wps; [|by eapply unmoved_refl].
  set (c1 := set_times _ c). assert (unmoved c c1 k q) as Hu by (by eapply unmoved_same).
  eapply wp_mono; [eapply (sendCapabilities_kept crypto c1); by eapply conn_at_core|].
  cbv beta. intros _ c' Hk%kept_steady. wps. by eapply unmoved_trans.
Qed.

Lemma refresh_wp c k q ms : conn_at c k q ms → wp (refresh crypto) (λ _ c', unmoved c c' k q) c.
Proof.
  intros Hc. unfold refresh. wp_step. wp_step. wp_step. wp_step. destruct (negb _); [wps; by eapply unmoved_refl|].
  wp_step. wp_step. apply law_epoch, (unmoved_quiet c k q ms w Hc) in Hw.
  destruct (unmoved_at _ _ _ _ Hw) as [ms0 Hc0]. wp_step; [|done]. do 3 wp_step. wp_step.
  apply law_refresh, (unmoved_quiet _ k q ms0 w0 Hc0) in Hw0. pose proof (unmoved_trans _ _ _ _ _ Hw Hw0) as Hu1.
  destruct (unmoved_at _ _ _ _ Hu1) as [ms1 Hc1]. destruct a0 as [fresh|e].
  - wps. eapply wp_mono; [by eapply setToken_wp|]. cbv beta. intros _ c2 Hu2.
    pose proof (unmoved_trans _ _ _ _ _ Hu1 Hu2) as Hu3. destruct (unmoved_at _ _ _ _ Hu3) as [ms2 Hc2].
    unfold requestReassignment. wps; [|done]. eapply unmoved_trans; [exact Hu3|]. by eapply unmoved_same.
  - wps. eapply unmoved_trans; [exact Hu1|]. by eapply unmoved_same.
Qed.

Lemma watchdog_wp c k q ms now : conn_at c k q ms → wp (watchdog now) (λ _ c', unmoved c c' k q) c.
Proof.
  intros Hc. unfold watchdog, requestReassignment. wps; [by eapply unmoved_same|by eapply unmoved_refl].
Qed.

(** What an operation that is not a poll leaves: the invariant, the handlers, the wait in progress,
    the session or a new one, and at most one wake-up. *)
Record ran (c c' : Conn W) (k : Z) : Prop := {
  rn_ok : ∃ q ms, ok_at c' k q ms;
  rn_fixed : fixed c' = fixed c;
  rn_session : session_rel c c';
  rn_woke : woke c c';
  rn_inbound : later (k_world c) (k_world c');
}.

(** The middle of an operation: as [ran], the session calm. *)
Record calmly (c c' : Conn W) (k : Z) (q' : list Event) : Prop := {
  cy_at : ∃ ms, conn_at c' k q' ms;
  cy_awake : awake c' q';
  cy_online : online c';
  cy_fixed : fixed c' = fixed c ∧ k_joinable c' = k_joinable c;
  cy_calm : calm c c';
  cy_woke : woke c c';
  cy_inbound : later (k_world c) (k_world c');
}.

Lemma ok_calmly c k q ms : ok_at c k q ms → calmly c c k q.
Proof. intros []. split; eauto; done. Qed.

Lemma calmly_unmoved c c1 c2 k q : calmly c c1 k q → unmoved c1 c2 k q → calmly c c2 k q.
Proof.
  intros [_ Ha Ho [Hf Hj] Hc Hw Hi] [[Hm Hid Hi'] Hop]. unfold ident in Hid.
  injection Hid as E1 E2 E3 E4 E5 E6 E7 E8 E9.
  split; [done| | | | |etrans; [done|]|by etrans].
  - unfold awake in *. by rewrite E1, E8.
  - unfold online in *. by rewrite E3, Hop.
  - unfold fixed in *. split; congruence.
  - unfold calm in *. by rewrite E3, E5.
  - by left.
Qed.

(** The middle of an operation that is leaving a session: the state is in between. *)
Record midway (c c' : Conn W) (k : Z) (q' : list Event) : Prop := {
  md_at : ∃ ms, conn_at c' k q' ms;
  md_awake : awake c' q';
  md_fixed : fixed c' = fixed c ∧ k_joinable c' = k_joinable c;
  md_epoch : k_sessionEpoch c' = k_sessionEpoch c;
  md_woke : woke c c';
  md_inbound : later (k_world c) (k_world c');
}.

Lemma calmly_midway c c' k q : calmly c c' k q → midway c c' k q.
Proof. intros [? ? ? ? [? _] ? ?]. by split. Qed.

Lemma midway_steady c c1 c2 k q : midway c c1 k q → steady c1 c2 k q → midway c c2 k q.
Proof.
  intros [_ Ha [Hf Hj] He Hw Hi] [Hm Hid Hi']. unfold ident in Hid. injection Hid as E1 E2 E3 E4 E5 E6 E7 E8 E9.
  split; [done| | |congruence|etrans; [done|by left]|by etrans].
  - unfold awake in *. by rewrite E1, E8.
  - unfold fixed in *. split; congruence.
Qed.

(** Entering a state. *)
Lemma entered_facts next c c' k q ms :
  entered next c c' k q ms →
  fixed c' = fixed c ∧ k_joinable c' = k_joinable c ∧ woke c c' ∧ later (k_world c) (k_world c') ∧
  socketIsOpen (k_world c') = socketIsOpen (k_world c).
Proof.
  intros [_ _ _ _ [Hs (_&Ho&Hi) Hw]]. unfold still, fixed in *. split_and!; try done; congruence.
Qed.

Lemma midway_entered next c c1 c2 k q ms :
  midway c c1 k q → entered next c1 c2 k q ms → next ≠ CConnecting →
  midway c c2 k (entryQueue k q (k_state c1) next) ∧ k_state c2 = next.
Proof.
  intros [_ Ha [Hf Hj] He Hw Hi] Hen Hne. pose proof (entered_facts _ _ _ _ _ _ Hen) as (Hf'&Hj'&Hw'&Hi'&_).
  destruct Hen as [Hc2 Ha2 Hs2 He2 _]. split; [split|done].
  - eauto.
  - auto.
  - split; congruence.
  - rewrite He2. unfold entryEpoch. rewrite decide_False by tauto. done.
  - by etrans.
  - by etrans.
Qed.

(** The operations that end a session. *)
Lemma ran_entered next c c1 c2 k q ms q0 ms0 :
  ok_at c k q0 ms0 → midway c c1 k q → entered next c1 c2 k q ms →
  next = CFailed ∨ next = CClosed ∨
    (next = CConnecting ∧ k_state c1 ≠ CConnecting ∧ socketIsOpen (k_world c1) = true) → ran c c2 k.
Proof.
  intros Hok [_ Ha [Hf Hj] He Hw Hi] Hen Hnext.
  pose proof (entered_facts _ _ _ _ _ _ Hen) as (Hf'&Hj'&Hw'&Hi'&Ho').
  destruct Hen as [Hc2 Ha2 Hs2 He2 _]. split; [|congruence| |by etrans|by etrans].
  - eexists _, _. split; [done|auto| | |].
    + intros Hc. rewrite Hs2 in Hc. rewrite Ho'. destruct Hnext as [->|[->|(->&_&?)]]; [by destruct Hc..|done].
    + rewrite Hs2. by destruct Hnext as [->|[->|[-> _]]].
    + replace (k_config c2) with (k_config c) by (unfold fixed in *; congruence).
      rewrite Hj', Hj. by eapply oa_pump.
  - right. rewrite He2, Hs2, He. unfold entryEpoch. destruct Hnext as [->|[->|(->&Hst&_)]].
    + left. rewrite decide_False by (by intros [_ ?]). auto.
    + left. rewrite decide_False by (by intros [_ ?]). auto.
    + right. rewrite decide_True by done. auto.
Qed.

Lemma ran_calmly c c1 k q q0 ms0 : ok_at c k q0 ms0 → calmly c c1 k q → ran c c1 k.
Proof.
  intros Hok [[ms Hc] Ha Ho [Hf Hj] Hca Hw Hi]. split; [|done|by left|done|done].
  exists q, ms. split; try done.
  - pose proof (oa_settled _ _ _ _ Hok) as Hs. destruct Hca as [_ [->|[_ ->]]]; done.
  - replace (k_config c1) with (k_config c) by (unfold fixed in *; congruence). rewrite Hj. by eapply oa_pump.
Qed.

(** Counters no book depends on. *)
Lemma steady_count c k q ms x n :
  conn_at c k q ms → x ∉ [DatagramsSent; BytesSent; BundlesSent; MessagesSent; MessagesDropped] →
  steady c (set_count (bump (k_count c) x n) c) k q.
Proof.
  intros Hc Hx. split; [exists ms|done|done].
  eapply (conn_at_received crypto); [exact Hc|by apply rframe_same|apply (ca_ring crypto _ _ _ _ Hc)|apply (ca_events crypto _ _ _ _ Hc)|].
  intros y Hy. cbn. apply bump_ne. by intros ->.
Qed.

Lemma close_steady c k q ms :
  conn_at c k q ms → steady c (set_world (socketClose (k_world c)) c) k q.
Proof.
  intros Hc. pose proof (law_close (k_world c)) as (Hl&Hi&_). split; [exists ms|done|done].
  eapply conn_at_core; [done|]. unfold core. cbn. by rewrite Hl.
Qed.

Lemma flushSends_steady c k q ms :
  conn_at c k q ms → wp flushSends (λ _ c', steady c c' k q) c.
Proof.
  intros Hc. eapply wp_mono; [by apply (flushSends_wp crypto)|]. cbv beta. intros st c' (Hf&ms'&Hc'&_).
  apply kept_steady. split; eauto.
Qed.

Lemma reassign_wp c c1 k q q0 ms0 :
  ok_at c k q0 ms0 → calmly c c1 k q → wp reassign (λ _ c', ran c c' k) c1.
Proof.
  intros Hok Hcy. destruct (cy_at _ _ _ _ Hcy) as [ms1 Hc1]. unfold reassign. wp_step. wp_step. wp_step. wp_step.
  set (c2 := set_reconnectRequested false c1).
  assert (calmly c c2 k q) as Hcy2 by (eapply calmly_unmoved; [done|by eapply unmoved_same]).
  destruct (cy_at _ _ _ _ Hcy2) as [ms2 Hc2]. wp_step; [|by eapply ran_calmly].
  apply calmly_midway in Hcy2 as Hmd. wp_step.
  eapply wp_mono; [by eapply setState_wp|]. cbv beta. intros _ c3 Hen.
  destruct (midway_entered _ _ _ _ _ _ _ Hmd Hen ltac:(done)) as [Hmd3 Hst3]. set (q3 := entryQueue _ _ _ _) in *.
  clear Hen. destruct (md_at _ _ _ _ Hmd3) as [ms3 Hc3]. wp_step. wp_step.
  set (c4 := set_count _ c3). assert (steady c3 c4 k q3) as Hs4 by (eapply steady_count; [done|set_solver]).
  destruct (sd_at _ _ _ _ Hs4) as [ms4 Hc4]. wp_step. eapply wp_mono; [by eapply flushSends_steady|].
  cbv beta. intros _ c5 Hs5. destruct (sd_at _ _ _ _ Hs5) as [ms5 Hc5]. wp_step. wp_step.
  injection Hw as <- <-. pose proof (close_steady _ _ _ _ Hc5) as Hs6. set (c6 := set_world _ c5) in *.
  destruct (sd_at _ _ _ _ Hs6) as [ms6 Hc6]. wp_step. eapply wp_mono; [by eapply doAssign_wp|].
  cbv beta. intros st c7 [Hs7 Ho]. destruct (sd_at _ _ _ _ Hs7) as [ms7 Hc7].
  assert (steady c3 c7 k q3) as Hs37 by (do 3 (eapply steady_trans; [|done]); done).
  pose proof (midway_steady _ _ _ _ _ Hmd3 Hs37) as Hmd7.
  assert (k_state c7 = CReconnecting) as Hst7.
  { pose proof (sd_ident _ _ _ _ Hs37) as E. unfold ident in E. injection E as E. congruence. }
  eapply wp_mono; [by eapply setState_wp|]. cbv beta. intros _ c8 Hen.
  eapply ran_entered; [done..|]. rewrite Hst7. destruct (ok st); [right; right; auto|by left].
Qed.

Lemma calmly_ready c c1 c2 k q ms :
  calmly c c1 k q → k_state c1 = CConnecting → entered CConnected c1 c2 k q ms →
  calmly c c2 k (entryQueue k q (k_state c1) CConnected).
Proof.
  intros [_ Ha Ho [Hf Hj] [He Hs] Hw Hi] Hst Hen.
  pose proof (entered_facts _ _ _ _ _ _ Hen) as (Hf'&Hj'&Hw'&Hi'&Ho'). destruct Hen as [Hc2 Ha2 Hs2 He2 _].
  split; [eauto|auto| |split; congruence| |by etrans|by etrans].
  - intros _. rewrite Ho'. apply Ho. auto.
  - split; [rewrite He2; unfold entryEpoch; rewrite decide_False by (by intros [_ ?]); done|].
    right. split; [|done]. destruct Hs as [Hs|[_ Hs]]; congruence.
Qed.

Lemma housekeeping_wp c k q ms :
  ok_at c k q ms → wp (housekeeping crypto) (λ _ c', ran c c' k) c.
Proof.
  intros Hok. unfold housekeeping. wp_step. wp_step. pose proof (oa_at _ _ _ _ Hok) as Hc.
  apply quiet_monotonic, (unmoved_quiet c k q ms w Hc) in Hw. pose proof (calmly_unmoved _ _ _ _ _ (ok_calmly _ _ _ _ Hok) Hw) as Hcy.
  set (c1 := set_world w c) in *. clearbody c1. clear w Hw. do 4 wp_step.
  (* the session becomes ready *)
  assert (∀ q' c2, calmly c c2 k q' →
    wp (advertise crypto a;; refresh crypto;; watchdog a;; reassign) (λ _ c', ran c c' k) c2) as Hend.
  { intros q' c2 H2. destruct (cy_at _ _ _ _ H2) as [ms2 Hc2]. wp_step.
    eapply wp_mono; [by eapply advertise_wp|]. cbv beta. intros _ c3 H3.
    apply (calmly_unmoved _ _ _ _ _ H2) in H3. destruct (cy_at _ _ _ _ H3) as [ms3 Hc3]. wp_step.
    eapply wp_mono; [by eapply refresh_wp|]. cbv beta. intros _ c4 H4.
    apply (calmly_unmoved _ _ _ _ _ H3) in H4. destruct (cy_at _ _ _ _ H4) as [ms4 Hc4]. wp_step.
    eapply wp_mono; [by eapply watchdog_wp|]. cbv beta. intros _ c5 H5.
    apply (calmly_unmoved _ _ _ _ _ H4) in H5. by eapply reassign_wp. }
  wp_step. wp_step; [|by eapply Hend]. destruct (cy_at _ _ _ _ Hcy) as [ms1 Hc1].
  eapply wp_mono; [by eapply setState_wp|]. cbv beta. intros _ c2 Hen. eapply Hend.
  apply andb_prop in H1 as [Hst _]. apply bool_decide_eq_true in Hst. by eapply calmly_ready.
Qed.

(** ** Whole operations *)

Lemma session_rel_calm c c1 c2 : calm c c1 → session_rel c1 c2 → session_rel c c2.
Proof.
  intros Hc [H1|[[H1 H2]|[H1 H2]]]; [left; by etrans|right; left|right; right]; destruct Hc as [E _];
    (split; [congruence|done]).
Qed.

Lemma ran_after c c1 c2 k :
  fixed c1 = fixed c → calm c c1 → woke c c1 → later (k_world c) (k_world c1) →
  ran c1 c2 k → ran c c2 k.
Proof.
  intros Hf Hc Hw Hi [Hok Hf' Hs Hw' Hi']. split; [done|congruence|by eapply session_rel_calm|by etrans|by etrans].
Qed.

Lemma ran_unmoved c c1 k q ms : ok_at c k q ms → unmoved c c1 k q → ran c c1 k.
Proof. intros Hok Hu. eapply ran_calmly; [done|]. eapply calmly_unmoved; [by eapply ok_calmly|done]. Qed.

(** Reading the clock. *)
Lemma ok_at_quiet c w k q ms : ok_at c k q ms → quiet (k_world c) w → ok_at (set_world w c) k q ms.
Proof.
  intros [Hc Ha Ho Hs Hp] (Hl&Hop&_). split; try done.
  - eapply conn_at_core; [done|]. unfold core. cbn. by rewrite Hl.
  - unfold online in *. cbn. by rewrite Hop.
Qed.

Lemma kept_calmly c c1 c2 k q : calmly c c1 k q → kept c1 k q c2 → calmly c c2 k q.
Proof. intros Hc Hk%kept_steady. by eapply calmly_unmoved. Qed.

Lemma received_calmly c c1 c2 k q ms evs rq :
  calmly c c1 k q → received c1 c2 k q ms evs rq → calmly c c2 k (take (room k) (q ++ evs)).
Proof.
  intros [_ Ha Ho [Hf Hj] Hca Hw Hi] [Hm (Hr&(_&Hop&Hi')&Hw') _ _ _ Ha']. unfold rest in Hr.
  injection Hr as E1 E2 E3 E4 E5 E6 E7 E8 E9 E10 E11 E12 E13 E14 E15.
  split; [eauto|auto| | | |by etrans|by etrans].
  - unfold online in *. by rewrite E6, Hop.
  - unfold fixed in *. split; congruence.
  - unfold calm in *. by rewrite E6, E9.
Qed.

(** A computation of the send path, between two operations. *)
Lemma send_ran {A} (m : M W A) c k q ms :
  ok_at c k q ms → wp m (λ _ c', kept c k q c') c → wp m (λ _ c', ran c c' k) c.
Proof.
  intros Hok Hm. eapply wp_mono; [exact Hm|]. cbv beta. intros _ c' Hk. eapply ran_calmly; [done|].
  eapply kept_calmly; [by eapply ok_calmly|done].
Qed.

(** Receiving, flushing and housekeeping: the common part of [pump] and [netLoop]. *)
Lemma turn_wp {A} c k q ms fuel wait (m : nat → M W A) (Q : A → Conn W → Prop) :
  ok_at c k q ms → (inbound (k_world c) < kBatch * fuel)%nat → (∀ n c', ran c c' k → wp (m n) Q c') →
  wp (wait ← receiveWaitMs wait; n ← receiveBatch crypto fuel wait; flushExpiredBundle;; housekeeping crypto;; m n) Q c.
Proof.
  intros Hok Hfuel HQ. pose proof (oa_at _ _ _ _ Hok) as Hc. pose proof (ok_calmly _ _ _ _ Hok) as Hcy.
  wp_step. eapply wp_mono; [by eapply (receiveWaitMs_kept crypto)|]. cbv beta. intros w c1 [Hk1 _].
  apply (kept_calmly _ _ _ _ _ Hcy) in Hk1 as Hcy1. destruct (cy_at _ _ _ _ Hcy1) as [ms1 Hc1].
  wp_step. eapply wp_mono; [eapply (receiveBatch_wp crypto); [done|]|].
  { destruct (cy_inbound _ _ _ _ Hcy1). lia. }
  cbv beta. intros n c2 (ds&->&Hr). apply (received_calmly _ _ _ _ _ _ _ _ Hcy1) in Hr as Hcy2.
  destruct (cy_at _ _ _ _ Hcy2) as [ms2 Hc2]. wp_step.
  eapply wp_mono; [by eapply (flushExpiredBundle_kept crypto)|]. cbv beta. intros _ c3 Hk3.
  apply (kept_calmly _ _ _ _ _ Hcy2) in Hk3 as Hcy3. destruct (rn_ok _ _ _ (ran_calmly _ _ _ _ _ _ Hok Hcy3)) as (q3&ms3&Hok3).
  wp_step. eapply wp_mono; [by eapply housekeeping_wp|]. cbv beta. intros _ c4 H4. apply HQ.
  destruct Hcy3 as [_ _ _ [Hf _] Hca Hw Hi]. by eapply ran_after.
Qed.

Lemma pump_wp c k q ms fuel timeoutMs :
  ok_at c k q ms → (inbound (k_world c) < kBatch * fuel)%nat →
  wp (pump crypto fuel timeoutMs) (λ _ c', ran c c' k) c.
Proof.
  intros Hok Hf. unfold pump. wp_step. wp_step. destruct (cf_manualPump _); cbn [negb].
  - eapply turn_wp; [done..|]. intros n c' Hr. by wp_step.
  - wp_step. eapply ran_calmly; [done|by eapply ok_calmly].
Qed.

Lemma netPass_wp c k q ms fuel :
  ok_at c k q ms → (inbound (k_world c) < kBatch * fuel)%nat →
  wp (netPass crypto fuel) (λ goes_on c', ran c c' k ∧ (goes_on = true → k_state c' ≠ CFailed)) c.
Proof.
  intros Hok Hf. unfold netPass. wp_step. wp_step. destruct (k_running c); cbn [negb].
  - eapply turn_wp; [done..|]. intros n c' Hr. wps. split; [done|]. by intros Hs%negb_true_iff%bool_decide_eq_false.
  - wp_step. split; [|done]. eapply ran_calmly; [done|by eapply ok_calmly].
Qed.

(** What [connect] needs of its caller: the net thread of a session that failed has been joined (by
    [disconnect]). The source does not look; [connect_twice] is what happens otherwise. *)
Definition connectable (c : Conn W) : Prop :=
  k_joinable c = true → k_state c = CConnecting ∨ k_state c = CConnected.

(** Starting the net thread changes nothing else. *)
Definition started (c : Conn W) : Conn W := set_joinable true (set_running true c).

Lemma ok_at_started c k q ms : ok_at c k q ms → cf_manualPump (k_config c) = false → ok_at (started c) k q ms.
Proof.
  intros [Hc Ha Ho Hs Hp] Hm. split; [by eapply conn_at_core|done..|]. cbn. by rewrite Hm.
Qed.

Lemma connect_wp c k q ms :
  ok_at c k q ms → connectable c →
  wp connect (λ st c', ran c c' k ∧ (st = Ok → k_state c' = CConnecting ∨ k_state c' = CConnected)) c.
Proof.
  intros Hok Hcon. pose proof (oa_at _ _ _ _ Hok) as Hc. pose proof (ran_calmly _ _ _ _ _ _ Hok (ok_calmly _ _ _ _ Hok)) as Hsame.
  unfold connect. wp_step. wp_step. case_decide; [by wp_step|]. wp_step. wp_step.
  destruct (bool_decide (k_state c = CConnected) || bool_decide (k_state c = CConnecting)) eqn:Hst.
  { wp_step. split; [done|]. intros _. apply orb_true_iff in Hst as [Hst|Hst]; apply bool_decide_eq_true in Hst; auto. }
  apply orb_false_elim in Hst as [Hs1%bool_decide_eq_false Hs2%bool_decide_eq_false].
  assert (k_joinable c = false) as Hj by (destruct (k_joinable c) eqn:E; [by destruct (Hcon E)|done]).
  wp_step. eapply wp_mono; [by eapply setState_wp|]. cbv beta. intros _ c1 Hen.
  pose proof (entered_facts _ _ _ _ _ _ Hen) as (Hf1&Hj1&Hw1&Hi1&_). destruct Hen as [Hc1 Ha1 Hst1 He1 _].
  set (q1 := entryQueue _ _ _ _) in *. specialize (Ha1 (oa_awake _ _ _ _ Hok)).
  unfold entryEpoch in He1. rewrite decide_True in He1 by done.
  wp_step. eapply wp_mono; [by eapply doAssign_wp|]. cbv beta. intros st c2 [Hs Ho]. destruct (sd_at _ _ _ _ Hs) as [ms2 Hc2].
  pose proof (sd_ident _ _ _ _ Hs) as Hid. pose proof (sd_inbound _ _ _ _ Hs) as Hi2. unfold ident in Hid.
  injection Hid as E1 E2 E3 E4 E5 E6 E7 E8 E9.
  assert (awake c2 q1) as Ha2 by (unfold awake in *; by rewrite E1, E8).
  assert (woke c c2) as Hw2 by (etrans; [done|by left]).
  assert (fixed c2 = fixed c) as Hf2 by (unfold fixed in *; congruence).
  destruct (ok st) eqn:Hokst; cbn [negb].
  2: { wp_step. eapply wp_mono; [by eapply setState_wp|]. cbv beta. intros _ c3 Hen. wp_step.
       split; [|by intros ->]. pose proof (entered_facts _ _ _ _ _ _ Hen) as (Hf3&Hj3&Hw3&Hi3&_).
       destruct Hen as [Hc3 Ha3 Hst3 He3 _]. unfold entryEpoch in He3. rewrite decide_False in He3 by (by intros [_ ?]).
       split; [|congruence|right; right; split; [congruence|auto]|by etrans|by etrans; [|etrans]].
       eexists _, _. split; [done|auto| |congruence|by rewrite Hj3, E4, Hj1].
       intros Hst'. rewrite Hst3 in Hst'. by destruct Hst'. }
  assert (ok_at c2 k q1 ms2) as Hok2.
  { split; [done..| |congruence|by rewrite E4, Hj1]. intros _. auto. }
  assert (ran c c2 k) as Hran.
  { split; [eauto|done|right; right; split; [congruence|left; congruence]|done|by etrans]. }
  wp_step. wp_step. destruct (cf_manualPump (k_config c2)) eqn:Hm; cbn [negb].
  { wp_step. split; [done|]. left. congruence. }
  wp_step. wp_step. wp_step. wp_step. wp_step. cbn [k_joinable set_running]. rewrite E4, Hj1, Hj.
  eapply wp_lift; [done|]. wps. split; [|left; cbn; congruence].
  destruct Hran as [_ Hf Hse Hwo Hin]. split; try done. exists q1, ms2. by apply ok_at_started.
Qed.

(** Without it, a session that is given a server is the end of the process: the new net thread is
    assigned to one that is still joinable. *)
Lemma connect_twice c k q ms c1 c2 st :
  ok_at c k q ms → k_joinable c = true → length (ti_token (k_token c)) = kTokenOctets →
  k_state c ≠ CConnecting → k_state c ≠ CConnected →
  setState CConnecting c = Some (c1, tt) → doAssign c1 = Some (c2, st) → ok st = true → connect c = None.
Proof.
  intros Hok Hj Ht H1 H2 E1 E2 Hst. pose proof (oa_at _ _ _ _ Hok) as Hc.
  pose proof (wp_run _ _ _ _ _ (setState_wp _ _ _ _ _ Hc) E1) as [Hc1 _ _ _ [Hstill _ _]].
  pose proof (wp_run _ _ _ _ _ (doAssign_wp _ _ _ _ Hc1) E2) as [[_ Hid _] _].
  unfold still in Hstill. unfold ident in Hid.
  assert (k_joinable c2 = true ∧ k_config c2 = k_config c) as [Hj2 Hcf] by (split; congruence).
  assert (cf_manualPump (k_config c2) = false) as Hm.
  { rewrite Hcf. pose proof (oa_pump _ _ _ _ Hok) as Hp. destruct (cf_manualPump _); [by rewrite Hp in Hj|done]. }
  assert (∀ A B (m : M W A) (f : A → M W B) c c' a, m c = Some (c', a) → (m ≫= f) c = f a c') as Hbind.
  { intros A B m f x x' a E. unfold mbind, M_bind. by rewrite E. }
  unfold connect. rewrite (Hbind _ _ _ _ c c (k_token c)) by done. rewrite decide_False by auto.
  rewrite (Hbind _ _ _ _ c c (k_state c)) by done. rewrite !bool_decide_false by done. cbn [orb].
  rewrite (Hbind _ _ _ _ c c1 tt) by done. rewrite (Hbind _ _ _ _ c1 c2 st) by done. rewrite Hst. cbn [negb].
  rewrite (Hbind _ _ _ _ c2 c2 (k_config c2)) by done. rewrite Hm. cbn [negb].
  rewrite (Hbind _ _ _ _ c2 (set_running true c2) tt) by done.
  rewrite (Hbind _ _ _ _ (set_running true c2) (set_running true c2) true) by (by unfold gets; rewrite <- Hj2). done.
Qed.

(** [disconnect] leaves a closed session: its thread stopped and joined, its socket closed. *)
Definition ended (c : Conn W) : Prop :=
  k_state c = CClosed ∧ k_running c = false ∧ k_joinable c = false ∧ socketIsOpen (k_world c) = false.

Lemma disconnect_wp c k q ms :
  ok_at c k q ms → wp disconnect (λ _ c', ran c c' k ∧ ended c') c.
Proof.
  intros Hok. unfold disconnect. wp_step. wp_step. wp_step. wp_step.
  set (c1 := set_joinable false (set_running false c)).
  assert (ok_at c1 k q ms) as Hok1.
  { destruct Hok as [Hc Ha Ho Hs Hp]. split; [by eapply conn_at_core|done..]. }
  assert (∀ c', ran c1 c' k → ran c c' k) as Hback by (intros c'; apply ran_after; [done|by split; [|left]|by left|done]).
  assert (k_running c1 = false ∧ k_joinable c1 = false) as [Hr1 Hj1] by done.
  clearbody c1. pose proof (oa_at _ _ _ _ Hok1) as Hc1. wp_step.
  eapply wp_mono; [by apply (flushSends_wp crypto)|]. cbv beta. intros st c2 (Hf2&ms2&Hc2&_).
  assert (k_running c2 = false) as Hr2 by (destruct Hf2 as [Hse _]; unfold session in Hse; congruence).
  assert (kept c1 k q c2) as [Hs2 _]%kept_steady by (split; eauto).
  wp_step. wp_step. injection Hw as <- <-. pose proof (close_steady _ _ _ _ Hc2) as Hs3.
  pose proof (law_close (k_world c2)) as (_&_&Hclosed).
  pose proof (steady_trans _ _ _ _ _ Hs2 Hs3) as Hs. set (c3 := set_world _ c2) in *.
  assert (k_running c3 = false ∧ socketIsOpen (k_world c3) = false) as [Hr3 Ho3] by done.
  pose proof (midway_steady _ _ _ _ _ (calmly_midway _ _ _ _ (ok_calmly _ _ _ _ Hok1)) Hs) as Hmd.
  destruct (sd_at _ _ _ _ Hs) as [ms3 Hc3]. pose proof (md_fixed _ _ _ _ Hmd) as [Hf3 Hj3]. wp_step. wp_step. wp_step.
  - eapply wp_mono; [by eapply setState_wp|]. cbv beta. intros _ c4 Hen.
    pose proof (entered_facts _ _ _ _ _ _ Hen) as (_&Hj4&_&_&Ho4).
    pose proof (tn_still _ _ (en_turned _ _ _ _ _ _ Hen)) as Hstill. unfold still in Hstill.
    split; [|split; [by eapply en_state|split_and!; congruence]]. apply Hback. by eapply ran_entered; [..|right; left].
  - apply bool_decide_eq_false, dec_stable in H1.
    split; [|split; [done|split_and!; congruence]]. apply Hback. eapply ran_calmly; [exact Hok1|].
    destruct Hmd as [? ? ? ? ? ?]. split; try done.
    + intros Hst. rewrite H1 in Hst. by destruct Hst.
    + split; [done|]. left. pose proof (sd_ident _ _ _ _ Hs) as E. unfold ident in E. congruence.
Qed.
(** ** Dispatch *)

(** The calls an event causes, and what it does to a wait in progress. *)
Definition callsOf (h : Handlers) (e : Event) : list Call :=
  match ev_kind e with
  | EvStatus => onlyCall (h HStatus) (CallStatus (ev_status e))
  | EvError =>
      match parseGenericError (ev_data e) with
      | Some (Val err) => onlyCall (h HGenericError) (CallError (mkGenericError (ge_sequence err) (ge_code err)))
      | _ => []
      end
  | EvChannel =>
      match parseChannelNotification (ev_data e) with
      | Some (Val ch) =>
          let n := mkChannelNotification (n_channelId ch) (n_senderUuid ch) (n_payload ch) (n_epochMillis ch)
                     (n_sequence ch) in
          if startsWith ChannelAudioNotification (ev_data e)
          then onlyCall (h HChannelAudio) (CallChannel HChannelAudio n)
          else onlyCall (h HChannelMessage) (CallChannel HChannelMessage n)
      | _ => []
      end
  | EvSpatial =>
      match parseLongSpatial (ev_data e) with
      | Some (Val v) => match dispatchSpatial h v with Some calls => calls | None => [] end
      | _ => []
      end
  end.

Definition waitStep (w : PendingWait) (e : Event) : PendingWait :=
  match ev_kind e with
  | EvError => match parseGenericError (ev_data e) with Some (Val err) => waitError w err | _ => w end
  | EvSpatial => match parseLongSpatial (ev_data e) with Some (Val v) => waitEcho w v | _ => w end
  | _ => w
  end.

Definition tokenExpired (e : Event) : bool :=
  match ev_kind e with
  | EvError => match parseGenericError (ev_data e) with Some (Val err) => ge_code err =? ErrorCode_TokenExpired | _ => false end
  | _ => false
  end.

Lemma dispatchTyped_defined h v n : is_Some (dispatchTyped h v n).
Proof.
  unfold dispatchTyped.
  destruct (parseVoxelPayload_defined (v_payload v)) as [rv ->].
  destruct (parseEventPayload_defined (v_payload v)) as [re ->]. cbn.
  repeat case_match; by eexists.
Qed.

Lemma channel_nonempty d v : parseChannelNotification d = Some (Val v) → d ≠ [].
Proof. by intros E ->. Qed.

(** What a dispatched event changes. *)
Definition dispatched (e : Event) (c : Conn W) : Conn W :=
  set_wait (waitStep (k_wait c) e)
    (set_reconnectRequested (k_reconnectRequested c || tokenExpired e) c).

Lemma set_same c : set_wait (k_wait c) (set_reconnectRequested (k_reconnectRequested c) c) = c.
Proof. by destruct c. Qed.

Lemma dispatchEvent_wp h e c :
  event_ok e → wp (dispatchEvent h e) (λ calls c', calls = callsOf h e ∧ c' = dispatched e c) c.
Proof.
  intros [Hl He]. unfold dispatchEvent, callsOf, dispatched, waitStep, tokenExpired.
  destruct (ev_kind e).
  - destruct He as [v Hv]. rewrite Hv. wps. eapply wp_lift; [done|]. cbv beta iota. wps. unfold dispatchSpatial.
    destruct (dispatchTyped_defined h v (notificationOf v)) as [typed ->]. eapply wp_lift; [done|].
    split; [done|]. rewrite orb_false_r. by destruct c.
  - destruct He as [v Hv]. rewrite Hv. wps. eapply wp_lift; [done|]. cbv beta iota. wps.
    pose proof (channel_nonempty _ _ Hv). destruct (ev_data e) as [|t l] eqn:Ed; [done|].
    eapply wp_lift; [reflexivity|]. wps. rewrite orb_false_r, set_same. cbn [startsWith].
    destruct (t =? ChannelAudioNotification); cbn [andb negb onlyCall]; rewrite ?app_nil_r; done.
  - destruct He as [v Hv]. rewrite Hv. wps. eapply wp_lift; [done|]. cbv beta iota. unfold requestReassignment.
    destruct (ge_code v =? ErrorCode_TokenExpired); wps; try done; split; try done;
      rewrite ?orb_true_r, ?orb_false_r; by destruct c.
  - wps. by rewrite orb_false_r, set_same.
Qed.

Lemma dispatched_at e c k q ms : conn_at c k q ms → conn_at (dispatched e c) k q ms.
Proof. intros Hc. by eapply conn_at_core. Qed.

Lemma ringPop_wp c k q ms :
  conn_at c k q ms →
  wp ringPop (λ e c', e = head q ∧ conn_at c' k (tail q) ms ∧ ∃ r, c' = set_ring r c) c.
Proof.
  intros Hc. pose proof (ca_ring crypto _ _ _ _ Hc) as Hr. pose proof (ca_events crypto _ _ _ _ Hc) as He.
  assert (∀ r q', ring_rep r k q' → Forall event_ok q' → conn_at (set_ring r c) k q' ms) as Hend.
  { intros r q' Hr' Hq'. by destruct Hc. }
  unfold ringPop. wps. destruct q as [|e q].
  - eapply wp_lift; [by eapply tryPop_empty|]. wps. split; [done|]. split; [by apply Hend|eauto].
  - destruct (tryPop_item _ _ _ _ Hr) as (r & Hp & Hr'). eapply wp_lift; [exact Hp|]. wps.
    apply Forall_cons_1 in He as [_ He]. split; [done|]. split; [by apply Hend|eauto].
Qed.

(** What a drain of [n] events of [q] changes: the ring, the wait and the request to reassign. *)
Definition drained (taken : list Event) (r : SpscRing) (c : Conn W) : Conn W :=
  set_ring r (set_wait (foldl waitStep (k_wait c) taken)
    (set_reconnectRequested (k_reconnectRequested c || existsb tokenExpired taken) c)).

Lemma drain_wp h n c k q ms :
  conn_at c k q ms →
  wp (drain h n) (λ '(calls, m, dry) c',
    calls = concat (callsOf h <$> take n q) ∧ m = length (take n q) ∧ dry = bool_decide (length q < n)%nat ∧
    conn_at c' k (drop n q) ms ∧ ∃ r, c' = drained (take n q) r c) c.
Proof.
  revert c q. induction n as [|n IH]; intros c q Hc; cbn [drain].
  - wps. split_and!; try done. exists (k_ring c). unfold drained. cbn. rewrite orb_false_r. by destruct c.
  - wps. eapply wp_mono; [by apply ringPop_wp|]. cbv beta. intros e c1 (->&Hc1&r1&->). destruct q as [|e q]; cbn [head tail] in *.
    + wps. split_and!; try done. exists r1. unfold drained. cbn. rewrite orb_false_r. by destruct c.
    + pose proof (ca_events crypto _ _ _ _ Hc) as [He _]%Forall_cons_1. wps.
      eapply wp_mono; [by apply dispatchEvent_wp|]. cbv beta. intros calls c2 [-> ->]. wps.
      eapply wp_mono; [eapply IH, dispatched_at, Hc1|]. intros [[rest m] dry] c3 (->&->&->&Hc3&r3&->). wps. cbn [take drop].
      split; [done|]. split; [done|]. split; [apply bool_decide_ext; cbn; lia|]. split; [done|].
      exists r3. unfold drained. cbn. by rewrite orb_assoc.
Qed.

(** [poll] makes the calls of the oldest [maxEvents] events, in order, and only those; it clears
    the wake-up flag, and calls [onEventsReady] again when the bound stopped it. *)
Lemma poll_wp c k q ms maxEvents :
  conn_at c k q ms →
  let stopped := cf_onEventsReady (k_config c) && bool_decide (maxEvents ≤ length q)%nat in
  wp (poll maxEvents) (λ '(calls, n) c',
    calls = concat (callsOf (k_handlers c) <$> take maxEvents q) ∧ n = length (take maxEvents q) ∧
    conn_at c' k (drop maxEvents q) ms ∧ awake c' (drop maxEvents q) ∧
    ∃ r, c' = set_signals (if stopped then S (k_signals c) else k_signals c)
                (set_eventsSignalled stopped (drained (take maxEvents q) r c))) c.
Proof.
  intros Hc stopped. unfold poll. wps.
  assert (conn_at (set_eventsSignalled false c) k q ms) as Hc1 by (by eapply conn_at_core).
  eapply wp_mono; [by apply drain_wp|]. intros [[calls n] dry] c2 (->&->&->&Hc2&r&->).
  wp_step. unfold signalEvents. wp_step.
  - apply negb_true_iff, bool_decide_eq_false in H1. unfold stopped. rewrite bool_decide_true by lia.
    wps. cbn [k_config drained set_ring set_wait set_reconnectRequested set_eventsSignalled].
    destruct (cf_onEventsReady (k_config c)) eqn:Hr; cbn [negb andb]; wps.
    + split; [done|]. split; [done|]. split; [by eapply conn_at_core|]. split; [by intros ??|]. by exists r.
    + split; [done|]. split; [done|]. split; [done|]. split; [intros Hcf; cbn in Hcf; congruence|].
      exists r. by destruct c.
  - apply negb_false_iff, bool_decide_eq_true in H1. unfold stopped. rewrite bool_decide_false by lia.
    rewrite andb_false_r. wps. split; [done|]. split; [done|]. split; [done|]. split.
    + intros _ Hne. by rewrite drop_ge in Hne by lia.
    + exists r. by destruct c.
Qed.

(** [poll] between two operations. *)
Lemma poll_ok c k q ms maxEvents :
  ok_at c k q ms →
  wp (poll maxEvents) (λ '(calls, n) c',
    ok_at c' k (drop maxEvents q) ms ∧ calls = concat (callsOf (k_handlers c) <$> take maxEvents q) ∧
    n = length (take maxEvents q) ∧ k_wait c' = foldl waitStep (k_wait c) (take maxEvents q) ∧
    (k_config c', k_handlers c', k_confirmedEpoch c', k_sessionEpoch c', k_state c', k_joinable c', k_world c') =
    (k_config c, k_handlers c, k_confirmedEpoch c, k_sessionEpoch c, k_state c, k_joinable c, k_world c)) c.
Proof.
  intros [Hc Ha Ho Hs Hp]. eapply wp_mono; [by apply poll_wp|]. intros [calls n] c' (->&->&Hc'&Ha'&r&->).
  split; [by split|done].
Qed.

(** What a poll leaves alone of what a send uses. *)
Definition outgoing (c : Conn W) :=
  (k_config c, k_world c, (k_token c, k_token64 c, k_mac c), k_sequence c, (k_bundle c, k_bundleOpenedMs c), k_count c).

Lemma poll_outgoing c k q ms n c' r : conn_at c k q ms → poll n c = Some (c', r) → outgoing c' = outgoing c.
Proof.
  intros Hc E. eapply (wp_run _ _ _ _ _ (poll_wp _ _ _ _ n Hc)) in E. destruct r. by destruct E as (_&_&_&_&r&->).
Qed.

(** ** AndWait *)

(** What other threads do between two turns of a wait: it keeps the invariant, and time passes. *)
Definition friendly (m : M W unit) : Prop :=
  ∀ c k q ms, ok_at c k q ms →
    wp m (λ _ c', ran c c' k ∧ clockNow (k_world c) + 1 ≤ clockNow (k_world c')) c.

Definition sessionChanged (w : PendingWait) : PendingWait :=
  let o := pw_outcome w in
  setOutcome (mkWaitOutcome (wo_acknowledged o) (wo_error o) (wo_serverEpochMs o) true) w.

(** How a wait ends: answered, by a new session, or at its deadline. *)
Definition waited (endOnNewSession : bool) (epoch deadline : Z) (w : PendingWait) (c' : Conn W) : Prop :=
  (k_wait c' = w ∧ (pw_done w = true ∨ deadline ≤ clockNow (k_world c'))) ∨
  (k_wait c' = sessionChanged w ∧ endOnNewSession = true ∧ pw_done w = false ∧ k_sessionEpoch c' ≠ epoch ∧
   k_state c' = CConnected).

(** What a wait keeps. *)
Record waits (c c' : Conn W) (k : Z) : Prop := {
  wt_ok : ∃ q ms, ok_at c' k q ms;
  wt_fixed : (k_config c', k_handlers c', k_confirmedEpoch c') = (k_config c, k_handlers c, k_confirmedEpoch c);
  wt_later : later (k_world c) (k_world c');
}.

Lemma waits_trans c c1 c2 k : waits c c1 k → waits c1 c2 k → waits c c2 k.
Proof. intros [_ E1 ?] [? E2 ?]. split; [done|congruence|by etrans]. Qed.

Lemma ran_waits c c' k : ran c c' k → waits c c' k ∧ k_wait c' = k_wait c.
Proof. intros [Hok Hf _ _ Hl]. unfold fixed in Hf. split; [split; [done|congruence|done]|congruence]. Qed.

(** One turn: the other threads, the pump and the poll. *)
Lemma waitTurn_wp {A} c k q ms batches others (m : list Call → M W A) (Q : A → Conn W → Prop) :
  ok_at c k q ms → friendly others → (inbound (k_world c) < kBatch * batches)%nat →
  (∀ evs c', waits c c' k → Forall event_ok evs → k_wait c' = foldl waitStep (k_wait c) evs →
    clockNow (k_world c) + 1 ≤ clockNow (k_world c') →
    wp (m (concat (callsOf (k_handlers c) <$> evs))) Q c') →
  wp (others;; cfg ← gets k_config; whenM (cf_manualPump cfg) (pump crypto batches 5;; mret tt);;
      '(calls, _) ← pollAll; m calls) Q c.
Proof.
  intros Hok Hfr Hb HQ. wp_step. eapply wp_mono; [by eapply Hfr|]. cbv beta. intros _ c1 [Hr1 Ht1].
  apply ran_waits in Hr1 as [Hw1 E1]. destruct (wt_ok _ _ _ Hw1) as (q1&ms1&Hok1).
  assert (∀ c2, waits c1 c2 k → k_wait c2 = k_wait c1 → wp ('(calls, _) ← pollAll; m calls) Q c2) as Hend.
  { intros c2 Hw2 E2. destruct (wt_ok _ _ _ Hw2) as (q2&ms2&Hok2). unfold pollAll. wps.
    eapply wp_mono; [by eapply poll_ok|]. intros [calls n] c3 (Hok3&->&_&E3&E). 
    pose proof (waits_trans _ _ _ _ Hw1 Hw2) as Hw12. pose proof (wt_fixed _ _ _ Hw12) as Ef. 
    injection E as F1 F2 F3 F4 F5 F6 F7. injection Ef as G1 G2 G3. rewrite G2.
    apply HQ; [| |by rewrite E3, E2, E1|].
    - eapply waits_trans; [exact Hw12|]. split; [eauto|congruence|by rewrite F7].
    - apply Forall_take. eapply (ca_events crypto), oa_at, Hok2.
    - rewrite F7. destruct (wt_later _ _ _ Hw2). lia. }
  wp_step. wp_step. wp_step. wp_step.
  - wp_step. eapply wp_mono; [eapply pump_wp; [done|]|].
    { destruct (wt_later _ _ _ Hw1). lia. }
    cbv beta. intros _ c2 Hr2. wp_step. apply ran_waits in Hr2 as [Hw2 E2]. by apply Hend.
  - apply Hend; [|done]. split; [eauto|done|done].
Qed.

(** A wait whose schedule outlasts its deadline ends, and its result is decided by the events
    dispatched. *)
Lemma awaitLoop_wp schedule c k q ms batches endOnNewSession epoch deadline :
  ok_at c k q ms → Forall friendly schedule → (inbound (k_world c) < kBatch * batches)%nat →
  deadline - clockNow (k_world c) ≤ Z.of_nat (length schedule) →
  wp (awaitLoop crypto batches endOnNewSession epoch deadline schedule) (λ calls c', waits c c' k ∧
    ∃ evs, Forall event_ok evs ∧ calls = concat (callsOf (k_handlers c) <$> evs) ∧
      waited endOnNewSession epoch deadline (foldl waitStep (k_wait c) evs) c') c.
Proof.
  revert c q ms. induction schedule as [|others schedule IH]; intros c q ms Hok Hsch Hb Hd; cbn [awaitLoop];
    wp_step; wp_step; (destruct (pw_done (k_wait c)) eqn:Hdone; [wp_step; split; [split; eauto; done|];
      exists []; split_and!; [done|done|by left; auto]|]); wp_step; wp_step;
    apply law_monotonic in Hw as [Hq ->]; pose proof (unmoved_quiet _ _ _ _ _ (oa_at _ _ _ _ Hok) Hq) as Hu;
    pose proof (ran_unmoved _ _ _ _ _ Hok Hu) as Hr; apply ran_waits in Hr as [Hw1 E1];
    destruct (wt_ok _ _ _ Hw1) as (q1&ms1&Hok1); destruct Hq as (_&_&Hi&Ht);
    destruct (Z.leb_spec deadline (clockNow w)) as [Hend|Hgo];
    try (wp_step; split; [done|]; exists []; split_and!; [done|done|by left; auto]).
  { simpl in Hd. lia. }
  apply Forall_cons_1 in Hsch as [Hfr Hsch]. eapply waitTurn_wp; [done|done|eapply Nat.le_lt_trans; [exact Hi|exact Hb]|].
  cbv beta. intros evs c2 Hw2 Hevs E2 Ht2. cbn in Ht2, E2. destruct (wt_ok _ _ _ Hw2) as (q2&ms2&Hok2).
  pose proof (waits_trans _ _ _ _ Hw1 Hw2) as Hw12.
  do 6 wp_step. destruct (_ && bool_decide _) eqn:Hch.
  - wps. apply andb_prop in Hch as [Hch Hst%bool_decide_eq_true].
    apply andb_prop in Hch as [Hch He%negb_true_iff%Z.eqb_neq]. apply andb_prop in Hch as [Hen Hnd%negb_true_iff].
    split.
    + destruct Hw12 as [_ Ef Hl]. split; [|done|done]. exists q2, ms2.
      destruct Hok2 as [Hc ? ? ? ?]. split; try done. by eapply conn_at_core.
    + exists evs. split; [done|]. split; [done|]. right. rewrite E2 in *. done.
  - wp_step. eapply wp_mono; [eapply (IH c2); [done|done| |]|].
    + destruct (wt_later _ _ _ Hw12). lia.
    + simpl in Hd. lia.
    + cbv beta. intros rest c3 (Hw3&evs'&Hevs'&->&Hres). wp_step. split; [by eapply waits_trans|].
      exists (evs ++ evs'). split; [by apply Forall_app_2|]. pose proof (wt_fixed _ _ _ Hw12) as Ef.
      assert (k_handlers c2 = k_handlers c) as -> by congruence.
      rewrite fmap_app, concat_app, foldl_app. rewrite E2 in Hres. done.
Qed.


(** The outcome an event gives a wait for [sequence] and [uuid]. *)
Definition answer (sequence : Z) (uuid : bytes) (e : Event) : option WaitOutcome :=
  match ev_kind e with
  | EvError =>
      match parseGenericError (ev_data e) with
      | Some (Val err) => if ge_sequence err =? sequence then Some (mkWaitOutcome false (Some (ge_code err)) 0 false) else None
      | _ => None
      end
  | EvSpatial =>
      match parseLongSpatial (ev_data e) with
      | Some (Val v) => if (v_sequence v =? sequence) && bool_decide (v_uuid v = uuid)
                        then Some (mkWaitOutcome true None (v_epochMillisOrTokenId v) false) else None
      | _ => None
      end
  | _ => None
  end.

(** The first event that answers a wait decides it. *)
Lemma wait_decided sequence uuid evs :
  foldl waitStep (mkPendingWait true sequence uuid noOutcome false) evs =
  match head (omap (answer sequence uuid) evs) with
  | Some o => mkPendingWait true sequence uuid o true
  | None => mkPendingWait true sequence uuid noOutcome false
  end.
Proof.
  assert (∀ o evs, foldl waitStep (mkPendingWait true sequence uuid o true) evs = mkPendingWait true sequence uuid o true) as Hdone.
  { intros o. induction evs0 as [|e evs0 IH]; [done|]. cbn [foldl]. unfold waitStep, waitError, waitEcho.
    repeat case_match; cbn in *; done. }
  induction evs as [|e evs IH]; [done|]. cbn [foldl omap list_omap].
  assert (waitStep (mkPendingWait true sequence uuid noOutcome false) e =
    match answer sequence uuid e with
    | Some o => mkPendingWait true sequence uuid o true
    | None => mkPendingWait true sequence uuid noOutcome false
    end) as ->.
  { unfold waitStep, answer, waitError, waitEcho. destruct (ev_kind e); try done.
    - destruct (parseLongSpatial (ev_data e)) as [[v|]|]; try done. cbn. by destruct (_ =? _), (bool_decide _).
    - destruct (parseGenericError (ev_data e)) as [[v|]|]; try done. cbn. by destruct (_ =? _). }
  destruct (answer sequence uuid e); [by rewrite Hdone|done].
Qed.

(** What an [awaitSequence] gives: the first answer among the events dispatched; or, at the
    deadline, nothing; or the news that another session is connected. *)
Definition awaited (endOnNewSession : bool) (sequence : Z) (uuid : bytes) (timeoutMs : Z) (o : WaitOutcome)
    (evs : list Event) (c c' : Conn W) : Prop :=
  match head (omap (answer sequence uuid) evs) with
  | Some o' => o = o'
  | None =>
      (o = noOutcome ∧ clockNow (k_world c) + timeoutMs ≤ clockNow (k_world c')) ∨
      (o = mkWaitOutcome false None 0 true ∧ endOnNewSession = true ∧ k_sessionEpoch c' ≠ k_sessionEpoch c ∧
       k_state c' = CConnected)
  end.

Lemma awaitSequence_wp schedule c k q ms batches sequence uuid timeoutMs endOnNewSession :
  ok_at c k q ms → Forall friendly schedule → (inbound (k_world c) < kBatch * batches)%nat →
  timeoutMs ≤ Z.of_nat (length schedule) →
  wp (awaitSequence crypto batches sequence uuid timeoutMs endOnNewSession schedule) (λ '(calls, o) c',
    waits c c' k ∧ ∃ evs, Forall event_ok evs ∧ calls = concat (callsOf (k_handlers c) <$> evs) ∧
      awaited endOnNewSession sequence uuid timeoutMs o evs c c') c.
Proof.
  intros Hok Hsch Hb Hto. unfold awaitSequence. wp_step.
  eapply wp_mono; [by eapply (flushSends_wp crypto), oa_at|]. cbv beta. intros st c1 (Hf1&ms0&Hc0&_).
  assert (kept c k q c1) as Hk1 by (split; eauto). assert (k_sessionEpoch c1 = k_sessionEpoch c) as He1.
  { destruct Hf1 as [Hs _]. unfold session in Hs. congruence. }
  pose proof (ran_calmly _ _ _ _ _ _ Hok (kept_calmly _ _ _ _ _ (ok_calmly _ _ _ _ Hok) Hk1)) as Hr1.
  apply ran_waits in Hr1 as [Hw1 _]. destruct (wt_ok _ _ _ Hw1) as (q1&ms1&Hok1).
  do 6 wp_step. apply law_monotonic in Hw as [Hq ->]. cbn [k_sessionEpoch set_wait].
  set (c2 := set_world w _). wp_step.
  assert (ok_at c2 k q1 ms1) as Hok2.
  { destruct Hok1 as [Hc ? ? ? ?]. destruct Hq as (Hl&Ho&_). cbn in Hl, Ho. split; try done.
    - eapply conn_at_core; [done|]. unfold core. cbn. by rewrite Hl.
    - unfold online. cbn. by rewrite Ho. }
  destruct Hq as (_&_&Hi&Ht). cbn in Hi, Ht. destruct (wt_later _ _ _ Hw1) as [Hi1 Ht1].
  assert (waits c c2 k) as Hw2.
  { destruct Hw1 as [_ Ef Hl]. split; [eauto|done|]. by etrans; [exact Hl|split]. }
  eapply wp_mono; [eapply (awaitLoop_wp schedule c2); [done|done| |]|].
  - eapply Nat.le_lt_trans; [|exact Hb]. etrans; [exact Hi|exact Hi1].
  - cbn. lia.
  - cbv beta. intros calls c3 (Hw3&evs&Hevs&->&Hres). do 2 wp_step. wp_step. wp_step. wp_step.
    pose proof (waits_trans _ _ _ _ Hw2 Hw3) as Hw13. split.
    + destruct Hw13 as [(q3&ms3&[Hc ? ? ? ?]) Ef Hl]. split; [|done|done]. exists q3, ms3.
      split; try done. by eapply conn_at_core.
    + pose proof (wt_fixed _ _ _ Hw2) as Ef. exists evs. split; [done|]. 
      split; [do 3 f_equal; cbn in Ef |- *; congruence|].
      cbn [k_wait c2 set_world set_wait] in Hres. rewrite wait_decided in Hres. unfold awaited, waited in *.
      destruct (head _) as [o|]; cbn in Hres |- *.
      * destruct Hres as [[-> _]|(_&_&?&_)]; done.
      * destruct Hres as [[-> [?|?]]|(->&?&_&?&?)]; [done|left; split; [done|cbn; lia]|right].
        split; [done|]. split; [done|]. split; [congruence|done].
Qed.


(** ** A send and its wait *)

(** A send of any kind: it leaves the session and the events alone. *)
Definition sender {A} (send : M W A) : Prop :=
  ∀ c k q ms, conn_at c k q ms → wp send (λ _ c', kept c k q c') c.

(** What [sendAndWait] keeps: unlike a wait alone it may confirm an epoch. *)
Record settled (c c' : Conn W) (k : Z) : Prop := {
  se_ok : ∃ q ms, ok_at c' k q ms;
  se_fixed : k_config c' = k_config c ∧ k_handlers c' = k_handlers c;
  se_later : later (k_world c) (k_world c');
}.

Lemma settled_trans c c1 c2 k : settled c c1 k → settled c1 c2 k → settled c c2 k.
Proof. intros [_ [? ?] ?] [? [? ?] ?]. split; [done|split; congruence|by etrans]. Qed.

Lemma waits_settled c c' k : waits c c' k → settled c c' k.
Proof. intros [? Ef ?]. split; [done|split; congruence|done]. Qed.

Lemma confirm_settled e c k q ms : ok_at c k q ms → settled c (set_confirmedEpoch e c) k.
Proof. intros [Hc ? ? ? ?]. split; [|done|done]. exists q, ms. split; try done. by eapply conn_at_core. Qed.

(** The calls of a [sendAndWait] are those of dispatched events, one of which acknowledges if the
    outcome says so. *)
Definition sendAwaited (uuid : bytes) (calls : list Call) (o : WaitOutcome) (c : Conn W) : Prop :=
  ∃ evs, Forall event_ok evs ∧ calls = concat (callsOf (k_handlers c) <$> evs) ∧
    (wo_acknowledged o = true → ∃ sequence e, e ∈ evs ∧ answer sequence uuid e = Some o).

Lemma awaited_acknowledged b sequence uuid timeoutMs o evs c c' :
  awaited b sequence uuid timeoutMs o evs c c' → wo_acknowledged o = true →
  ∃ e, e ∈ evs ∧ answer sequence uuid e = Some o.
Proof.
  unfold awaited. destruct (head _) as [o'|] eqn:Hh; [intros -> _|by intros [[-> _]|[-> _]]].
  apply head_Some_elem_of, list_elem_of_omap in Hh. done.
Qed.

(** The wait for one send. *)
Lemma awaitOne_wp {A} schedule c k batches sequence uuid timeoutMs endOnNewSession
    (m : list Call * WaitOutcome → M W A) (Q : A → Conn W → Prop) :
  (∃ q ms, ok_at c k q ms) → Forall friendly schedule → (inbound (k_world c) < kBatch * batches)%nat →
  timeoutMs ≤ Z.of_nat (length schedule) →
  (∀ calls o c', settled c c' k → sendAwaited uuid calls o c → wp (m (calls, o)) Q c') →
  wp (r ← awaitSequence crypto batches sequence uuid timeoutMs endOnNewSession schedule; m r) Q c.
Proof.
  intros (q&ms&Hok) Hs Hb Ht HQ. wp_step. eapply wp_mono; [by eapply awaitSequence_wp|].
  intros [calls o] c' (Hw&evs&Hevs&Hcalls&Ha). apply HQ; [by apply waits_settled|].
  exists evs. split; [done|]. split; [done|]. intros Hack. exists sequence. by eapply awaited_acknowledged.
Qed.

(** The send before a wait. *)
Lemma sendOne_wp {A B} (send : M W B) c k (m : B → M W A) (Q : A → Conn W → Prop) :
  (∃ q ms, ok_at c k q ms) → sender send → (∀ r c', settled c c' k → wp (m r) Q c') →
  wp (r ← send; m r) Q c.
Proof.
  intros (q&ms&Hok) Hs HQ. wp_step. eapply wp_mono; [eapply send_ran; [done|by eapply Hs, oa_at]|].
  intros r c' [Hr _]%ran_waits. by apply HQ, waits_settled.
Qed.

Lemma sendAndWait_wp schedule schedule' c k q ms batches send uuid timeoutMs echoed :
  ok_at c k q ms → sender send → Forall friendly schedule → Forall friendly schedule' →
  (inbound (k_world c) < kBatch * batches)%nat →
  timeoutMs ≤ Z.of_nat (length schedule) → timeoutMs ≤ Z.of_nat (length schedule') →
  wp (sendAndWait crypto batches send uuid timeoutMs echoed schedule schedule')
    (λ '(calls, o) c', settled c c' k ∧ sendAwaited uuid calls o c) c.
Proof.
  intros Hok Hsend Hs Hs' Hb Ht Ht'. unfold sendAndWait. wp_step. wp_step.
  apply (sendOne_wp _ _ k); [eauto|done|]. intros [s|e] c1 Hc1; cbv beta iota.
  2: { wps. split; [done|]. exists []. split; [done|]. by split. }
  assert (∀ c', settled c c' k → (inbound (k_world c') < kBatch * batches)%nat) as Hb'.
  { intros c' Hc'. destruct (se_later _ _ _ Hc'). lia. }
  apply (awaitOne_wp _ _ k); [by destruct Hc1|done|by apply Hb'|done|]. intros calls o c2 Hc2 Ho.
  pose proof (settled_trans _ _ _ _ Hc1 Hc2) as Hc12.
  assert (∀ calls o c3, settled c1 c3 k → sendAwaited uuid calls o c1 → settled c c3 k ∧ sendAwaited uuid calls o c) as Hback.
  { intros calls' o' c3 Hc3 Ho'. split; [exact (settled_trans _ _ _ _ Hc1 Hc3)|]. unfold sendAwaited in *.
    destruct (se_fixed _ _ _ Hc1) as [_ E]. by rewrite E in Ho'. }
  assert (∀ calls o sentEpoch c3, settled c1 c3 k → sendAwaited uuid calls o c1 →
    wp (whenM (wo_acknowledged o || (negb echoed && bool_decide (wo_error o = None)))
          (modify (set_confirmedEpoch sentEpoch));; mret (calls, o))
      (λ '(calls, o) c', settled c c' k ∧ sendAwaited uuid calls o c) c3) as Hend.
  { intros calls' o' sentEpoch c3 Hc3 Ho'. wps; apply Hback; try done. destruct (se_ok _ _ _ Hc3) as (q3&ms3&Hok3).
    exact (settled_trans _ _ _ _ Hc3 (confirm_settled _ _ _ _ _ Hok3)). }
  cbv beta iota. wp_step. wp_step. wp_step. destruct (wo_sessionChanged o || _).
  2: { wp_step. by apply Hend. }
  wp_step. wp_step. apply (sendOne_wp _ _ k); [by destruct Hc2|done|]. intros [s'|e] c3 Hc3; cbv beta iota.
  2: { wp_step. apply Hend; [exact (settled_trans _ _ _ _ Hc2 Hc3)|done]. }
  pose proof (settled_trans _ _ _ _ Hc2 Hc3) as Hc23.
  apply (awaitOne_wp _ _ k); [by destruct Hc3|done|apply Hb'; exact (settled_trans _ _ _ _ Hc1 Hc23)|done|].
  intros calls' o' c4 Hc4 Ho'. cbv beta iota. wp_step. apply Hend; [exact (settled_trans _ _ _ _ Hc23 Hc4)|].
  destruct Ho as (evs&Hevs&->&_), Ho' as (evs'&Hevs'&->&Ha'). exists (evs ++ evs').
  destruct (se_fixed _ _ _ Hc23) as [_ ->]. split; [by apply Forall_app_2|].
  split; [by rewrite fmap_app, concat_app|]. intros Hack. destruct (Ha' Hack) as (x&e&He&?). exists x, e.
  split; [|done]. apply elem_of_app. by right.
Qed.

End Life.
