(* ===== verification/ConnectionSpec.v ===== *)
(** * The replication connection: its guarantees

    The public operations of [Connection] as steps of one state machine, the states it reaches
    from a new connection, and what holds in all of them. A concrete world runs the witnesses. *)

From S2P Require Import Prelude Bytes Protocol Codec Bundle Spsc Types Video Connection ConnectionLaws ConnLife.

Open Scope Z_scope.

(** ** The operations *)

(** The sends of the public interface. *)
Inductive Send :=
| SActorUpdate (p : SpatialSend) | SAudio (p : SpatialSend) | SVideo (p : SpatialSend)
| SText (p : SpatialSend) | SGenericSpatial (p : SpatialSend)
| SVoxelUpdate (chunk : ChunkCoord) (uuid : bytes) (x y z voxelType : Z) (voxelState : bytes) (distance decay : Z)
| SClientEvent (chunk : ChunkCoord) (uuid : bytes) (eventType : Z) (state : bytes) (distance decay : Z)
| SVideoFrame (chunk : ChunkCoord) (uuid frame : bytes) (frameId codec distance decay : Z)
| SSingleActor (chunk : ChunkCoord) (uuid payload : bytes)
| SChannelMessage (channelId : Z) (uuid payload : bytes)
| SChannelAudio (channelId : Z) (uuid payload : bytes)
| SRangedChannelMessage (channelId : Z) (uuid payload : bytes) (origin : ChunkCoord) (maxDistance : Z)
| SHeartbeat (chunk : ChunkCoord) (uuid : bytes).

(** The identifier a send names: 32 octets ([ActorUuid]). *)
Definition sendUuid (s : Send) : bytes :=
  match s with
  | SActorUpdate p | SAudio p | SVideo p | SText p | SGenericSpatial p => ss_uuid p
  | SVoxelUpdate _ u _ _ _ _ _ _ _ | SClientEvent _ u _ _ _ _ | SVideoFrame _ u _ _ _ _ _ | SSingleActor _ u _
  | SChannelMessage _ u _ | SChannelAudio _ u _ | SRangedChannelMessage _ u _ _ _ | SHeartbeat _ u => u
  end.

Section Operations.
Context {W : Type} `{NetLaws W} (crypto : ICrypto) `{!CryptoLaws crypto}.
Implicit Types c : Conn W.

Definition quietly {A} (m : M W (Result A)) : M W bool := r ← m; mret (Result_ok r).

(** Whether the send was taken. *)
Definition runSend (s : Send) : M W bool :=
  match s with
  | SActorUpdate p => quietly (sendActorUpdate crypto p)
  | SAudio p => quietly (sendAudio crypto p)
  | SVideo p => quietly (sendVideo crypto p)
  | SText p => quietly (sendText crypto p)
  | SGenericSpatial p => quietly (sendGenericSpatial crypto p)
  | SVoxelUpdate ch u x y z t st d dec => quietly (sendVoxelUpdate crypto ch u x y z t st d dec)
  | SClientEvent ch u t st d dec => quietly (sendClientEvent crypto ch u t st d dec)
  | SVideoFrame ch u f i co d dec => quietly (sendVideoFrame crypto ch u f i co d dec)
  | SSingleActor ch u pl => quietly (sendSingleActorMessage crypto ch u pl)
  | SChannelMessage i u pl => quietly (sendChannelMessage crypto i u pl)
  | SChannelAudio i u pl => quietly (sendChannelAudio crypto i u pl)
  | SRangedChannelMessage i u pl o m => quietly (sendRangedChannelMessage crypto i u pl o m)
  | SHeartbeat ch u => quietly (sendHeartbeat crypto ch u)
  end.

(** The operations of the connection: those of the application, the pass of the net thread, and
    the waits with what the other threads do meanwhile. *)
Inductive Op :=
| OSetHandlers (h : Handlers) | OSetToken (token : TokenInfo) | OConnect | ODisconnect
| ORequestReassignment | OSend (s : Send) | OFlushSends
| OPump (fuel : nat) (timeoutMs : Z) | ONetPass (fuel : nat) | OPoll (maxEvents : nat)
| OWaitForSequence (batches : nat) (sequence : Z) (uuid : bytes) (timeoutMs : Z) (schedule : list (M W unit))
| OSendActorUpdateAndWait (batches : nat) (p : SpatialSend) (timeoutMs : Z) (schedule schedule' : list (M W unit))
| OSendTextAndWait (batches : nat) (p : SpatialSend) (timeoutMs : Z) (schedule schedule' : list (M W unit))
| OSendVoxelUpdateAndWait (batches : nat) (chunk : ChunkCoord) (uuid : bytes) (x y z voxelType : Z)
    (voxelState : bytes) (distance decay timeoutMs : Z) (schedule schedule' : list (M W unit)).

Definition silently {A} (m : M W A) : M W (list Call) := m;; mret [].
Definition calling {A} (m : M W (list Call * A)) : M W (list Call) := '(calls, _) ← m; mret calls.

(** The handler calls an operation makes. *)
Definition runOp (op : Op) : M W (list Call) :=
  match op with
  | OSetHandlers h => silently (setHandlers h)
  | OSetToken token => silently (setToken crypto token)
  | OConnect => silently connect
  | ODisconnect => silently disconnect
  | ORequestReassignment => silently requestReassignment
  | OSend s => silently (runSend s)
  | OFlushSends => silently flushSends
  | OPump fuel timeoutMs => silently (pump crypto fuel timeoutMs)
  | ONetPass fuel => silently (netPass crypto fuel)
  | OPoll n => calling (poll n)
  | OWaitForSequence b s u t sch => calling (waitForSequence crypto b s u t sch)
  | OSendActorUpdateAndWait b p t sch sch' => calling (sendActorUpdateAndWait crypto b p t sch sch')
  | OSendTextAndWait b p t sch sch' => calling (sendTextAndWait crypto b p t sch sch')
  | OSendVoxelUpdateAndWait b ch u x y z ty st d dec t sch sch' =>
      calling (sendVoxelUpdateAndWait crypto b ch u x y z ty st d dec t sch sch')
  end.

(** The fuel of a receive exceeds what is still to arrive, sixteen datagrams a batch. *)
Definition fueled (batches : nat) (c : Conn W) : Prop := (inbound (k_world c) < kBatch * batches)%nat.
(** The other threads keep the invariant, and the schedule reaches the deadline. *)
Definition scheduled (timeoutMs : Z) (schedule : list (M W unit)) : Prop :=
  Forall (friendly crypto) schedule ∧ timeoutMs ≤ Z.of_nat (length schedule).

(** What a caller owes: identifiers of 32 octets, and no [connect] before the net thread of a failed
    session has been joined. What the model owes: fuel for the receives and a schedule for the waits. *)
Definition op_ok (op : Op) (c : Conn W) : Prop :=
  match op with
  | OConnect => connectable c
  | OSend s => length (sendUuid s) = kUuidSize
  | OPump fuel _ | ONetPass fuel => fueled fuel c
  | OWaitForSequence b _ _ t sch => fueled b c ∧ scheduled t sch
  | OSendActorUpdateAndWait b p t sch sch' | OSendTextAndWait b p t sch sch' =>
      length (ss_uuid p) = kUuidSize ∧ fueled b c ∧ scheduled t sch ∧ scheduled t sch'
  | OSendVoxelUpdateAndWait b _ u _ _ _ _ _ _ _ t sch sch' =>
      length u = kUuidSize ∧ fueled b c ∧ scheduled t sch ∧ scheduled t sch'
  | _ => True
  end.

(** The states of a connection of configuration [config]; between two operations time passes and
    anybody reads the clock. *)
Inductive reachable (config : Config) : Conn W → Prop :=
| reach_new w buffer c :
    0 ≤ cf_ringCapacity config ≤ 2 ^ 63 → length buffer = kMaxDatagramSize → sentLog w = [] →
    makeConnection crypto config w buffer = Some c → reachable config c
| reach_op c op c' calls :
    reachable config c → op_ok op c → runOp op c = Some (c', calls) → reachable config c'
| reach_quiet c w : reachable config c → quiet (k_world c) w → reachable config (set_world w c).

(** ** The invariant *)

(** What every operation keeps. *)
Definition goes_on (c c' : Conn W) (k : Z) : Prop :=
  (∃ q ms, ok_at crypto c' k q ms) ∧ k_config c' = k_config c ∧ later (k_world c) (k_world c').

(** The operations that dispatch nothing. *)
Definition dispatches (op : Op) : bool :=
  match op with
  | OPoll _ | OWaitForSequence _ _ _ _ _ | OSendActorUpdateAndWait _ _ _ _ _ | OSendTextAndWait _ _ _ _ _
  | OSendVoxelUpdateAndWait _ _ _ _ _ _ _ _ _ _ _ _ _ => true
  | _ => false
  end.

(** What those leave: the invariant, the session or its successor, and at most one wake-up. *)
Definition moved (c c' : Conn W) (k : Z) : Prop := goes_on c c' k ∧ session_rel c c' ∧ woke c c'.

Lemma ran_moved c c' k : ran crypto c c' k → moved c c' k.
Proof. intros [? Hf ? ? ?]. unfold fixed in Hf. split; [split; [done|]; split; [congruence|done]|done]. Qed.

Lemma settled_goes_on c c' k : settled crypto c c' k → goes_on c c' k.
Proof. intros [? [? ?] ?]. by split. Qed.

Lemma silently_wp {A} (m : M W A) (P : Conn W → Prop) c :
  wp m (λ _ c', P c') c → wp (silently m) (λ calls c', calls = [] ∧ P c') c.
Proof. intros Hm. unfold silently. wp_step. eapply wp_mono; [exact Hm|]. intros a c' HP. by wp_step. Qed.

Lemma quietly_wp {A} (m : M W (Result A)) (P : Conn W → Prop) c :
  wp m (λ _ c', P c') c → wp (quietly m) (λ _ c', P c') c.
Proof. intros Hm. unfold quietly. wp_step. eapply wp_mono; [exact Hm|]. intros a c' HP. by wp_step. Qed.

Lemma calling_wp {A} (m : M W (list Call * A)) (P : Conn W → Prop) c :
  wp m (λ _ c', P c') c → wp (calling m) (λ _ c', P c') c.
Proof. intros Hm. unfold calling. wp_step. eapply wp_mono; [exact Hm|]. intros [calls a] c' HP. by wp_step. Qed.

Lemma runSend_sender s : length (sendUuid s) = kUuidSize → sender crypto (runSend s).
Proof.
  intros Hu c k q ms Hc. destruct s; cbn [runSend sendUuid] in *; apply quietly_wp.
  1,2,3,4,5: by eapply (sendLongSpatial_kept crypto).
  - by eapply (sendVoxelUpdate_kept crypto).
  - by eapply (sendClientEvent_kept crypto).
  - by eapply (sendVideoFrame_kept crypto).
  - by eapply (sendLongSpatial_kept crypto).
  - eapply wp_kept. by eapply (sendChannelRequest_wp crypto).
  - eapply wp_kept. by eapply (sendChannelRequest_wp crypto).
  - eapply wp_kept. by eapply (sendRangedChannelMessage_wp crypto).
  - by eapply (sendLongSpatial_kept crypto).
Qed.

(** They leave the handlers alone as well, unless they set them. *)
Definition sets_handlers (op : Op) : bool := match op with OSetHandlers _ => true | _ => false end.

Lemma runOp_ran op c k q ms :
  ok_at crypto c k q ms → op_ok op c → dispatches op = false → sets_handlers op = false →
  wp (runOp op) (λ calls c', calls = [] ∧ ran crypto c c' k) c.
Proof.
  intros Hok Hop Hd Hh. pose proof (oa_at _ _ _ _ _ Hok) as Hc. destruct op; try done; cbn in Hop; apply silently_wp.
  - eapply wp_mono; [by eapply setToken_wp|]. intros u c' Hu. exact (ran_unmoved crypto _ _ _ _ _ Hok Hu).
  - eapply wp_mono; [by eapply (connect_wp crypto)|]. by intros st c' [Hr _].
  - eapply wp_mono; [by eapply (disconnect_wp crypto)|]. by intros _ c' [Hr _].
  - unfold requestReassignment. wps. eapply (ran_unmoved crypto); [done|]. by eapply unmoved_same.
  - eapply wp_mono; [eapply send_ran; [done|exact (runSend_sender s Hop c k q ms Hc)]|]. done.
  - eapply wp_mono; [eapply send_ran; [done|eapply wp_kept; by apply (flushSends_wp crypto)]|]. done.
  - eapply wp_mono; [by eapply pump_wp|]. done.
  - eapply wp_mono; [by eapply netPass_wp|]. by intros n c' [Hr _].
Qed.

Lemma runOp_moved op c k q ms :
  ok_at crypto c k q ms → op_ok op c → dispatches op = false →
  wp (runOp op) (λ calls c', calls = [] ∧ moved c c' k) c.
Proof.
  intros Hok Hop Hd. destruct (sets_handlers op) eqn:Hh.
  - destruct op; try done. cbn. apply silently_wp. unfold setHandlers. wps.
    pose proof Hok as [Hc ? ? ? ?]. split; [|split; [left; by split; [|left]|by left]].
    split; [|done]. exists q, ms. split; try done. by eapply conn_at_core.
  - eapply wp_mono; [by eapply runOp_ran|]. intros calls c' [-> Hr]. split; [done|by apply ran_moved].
Qed.

(** The three public send-and-wait calls. *)
Lemma andWait_goes_on schedule schedule' c k q ms batches (send : M W (Result Z)) uuid timeoutMs echoed :
  ok_at crypto c k q ms → sender crypto send → fueled batches c → scheduled timeoutMs schedule →
  scheduled timeoutMs schedule' →
  wp (calling (sendAndWait crypto batches send uuid timeoutMs echoed schedule schedule')) (λ _ c', goes_on c c' k) c.
Proof.
  intros Hok Hs Hf [? ?] [? ?]. apply calling_wp. eapply wp_mono; [by eapply sendAndWait_wp|].
  intros [calls o] c' [Hse _]. by apply settled_goes_on.
Qed.

Lemma runOp_goes_on op c k q ms :
  ok_at crypto c k q ms → op_ok op c → wp (runOp op) (λ _ c', goes_on c c' k) c.
Proof.
  intros Hok Hop. destruct (dispatches op) eqn:Hd.
  2: { eapply wp_mono; [by eapply runOp_moved|]. intros calls c' (_&Hm&_). done. }
  destruct op; try done; cbn in Hop.
  - apply calling_wp. eapply wp_mono; [by eapply poll_ok|]. intros [calls n] c' (Hok'&_&_&_&E).
    split; [eauto|]. injection E as E1 E2 E3 E4 E5 E6 E7. split; [done|by rewrite E7].
  - destruct Hop as (Hf&[? ?]). apply calling_wp. eapply wp_mono; [by eapply awaitSequence_wp|].
    intros [calls o] c' [Hw _]. by apply settled_goes_on, waits_settled.
  - destruct Hop as (Hu&Hf&Hs&Hs'). eapply andWait_goes_on; try done. intros c0 k0 q0 ms0 Hc0.
    by eapply (sendLongSpatial_kept crypto).
  - destruct Hop as (Hu&Hf&Hs&Hs'). eapply andWait_goes_on; try done. intros c0 k0 q0 ms0 Hc0.
    by eapply (sendLongSpatial_kept crypto).
  - destruct Hop as (Hu&Hf&Hs&Hs'). eapply andWait_goes_on; try done. intros c0 k0 q0 ms0 Hc0.
    by eapply (sendVoxelUpdate_kept crypto).
Qed.

(** A new connection: nothing queued, pending or sent. *)
Lemma makeConnection_ok config w buffer c :
  0 ≤ cf_ringCapacity config ≤ 2 ^ 63 → length buffer = kMaxDatagramSize → sentLog w = [] →
  makeConnection crypto config w buffer = Some c → k_config c = config ∧ ∃ k, ok_at crypto c k [] [].
Proof.
  intros Hcap Hb Hw. unfold makeConnection. destruct (makeRing noEvent (cf_ringCapacity config)) as [ring|] eqn:Hr; [|done].
  destruct (makeRing_rep _ _ _ Hcap Hr) as [k Hk]. cbn [mbind option_bind]. cbv zeta.
  assert (∀ c', k_config c' = config → k_ring c' = ring → k_bundle c' = bw_make buffer → k_count c' = (λ _, 0) →
    k_world c' = w → k_state c' = CIdle → k_joinable c' = false → mac_ok crypto (k_token64 c') (k_mac c') →
    k_config c' = config ∧ ∃ k, ok_at crypto c' k [] []) as Hend.
  { intros c' E1 E2 E3 E4 E5 E6 E7 Hm. split; [done|]. exists k.
    assert (1 ≤ length buffer)%nat as Hpos by (rewrite Hb; change kMaxDatagramSize with 1232%nat; lia).
    split; [split| | | |]; rewrite ?E1, ?E2, ?E3, ?E4, ?E5, ?E6, ?E7; try done.
    - by apply bw_make_rep.
    - destruct buffer; [simpl in Hpos; lia|]. exact Hb.
    - rewrite Hw. by split.
    - intros _ Hq. done.
    - unfold online. rewrite E6. by intros []. }
  destruct (Token64_fromString _) as [t|]; intros [= <-]; apply Hend; try done. by intros m.
Qed.

Lemma reachable_ok config c : reachable config c → k_config c = config ∧ ∃ k q ms, ok_at crypto c k q ms.
Proof.
  induction 1 as [w buffer c Hcap Hb Hw Hm|c op c' calls Hr [Hcf (k&q&ms&Hok)] Hop Hrun|c w Hr [Hcf (k&q&ms&Hok)] Hw].
  - destruct (makeConnection_ok _ _ _ _ Hcap Hb Hw Hm) as [? [k ?]]. eauto.
  - eapply wp_run in Hrun; [|by eapply runOp_goes_on]. destruct Hrun as ((q'&ms'&Hok')&E&_).
    split; [congruence|eauto].
  - split; [done|]. exists k, q, ms. by apply ok_at_quiet.
Qed.


(** ** Guarantees *)

(** C1. Every operation of a reachable connection, called as [op_ok] asks, is defined — no call reads
    or writes out of bounds or loops — and it dispatches nothing unless it is a poll or a wait.
    [op_ok] asks for identifiers of 32 octets; that a receive has fuel for what is still to
    arrive; that a wait has a schedule which reaches its deadline, of other threads that keep the
    invariant; and that [connect] is not called while the net thread of a failed session is not
    joined. Such a [connect] is a crash as soon as a server is assigned: the result is [None].
    Between operations the state is never [Reconnecting], and a session that is connecting or
    connected has an open socket. *)
Theorem connection_operations_total config c op :
  reachable config c →
  k_config c = config ∧ k_state c ≠ CReconnecting ∧
  (k_state c = CConnecting ∨ k_state c = CConnected → socketIsOpen (k_world c) = true) ∧
  (op_ok op c → ∃ c' calls, runOp op c = Some (c', calls) ∧ (dispatches op = false → calls = [])) ∧
  (¬ connectable c → length (ti_token (k_token c)) = kTokenOctets →
   ∀ c1 c2 st, setState CConnecting c = Some (c1, tt) → doAssign c1 = Some (c2, st) → ok st = true →
     runOp OConnect c = None).
Proof.
  intros (Hcf&k&q&ms&Hok)%reachable_ok. pose proof Hok as [_ _ Hon Hst _].
  split; [done|]. split; [done|]. split; [done|]. split.
  - intros Hop. destruct (wp_elim _ _ _ (runOp_goes_on _ _ _ _ _ Hok Hop)) as (c'&calls&E&_). exists c', calls.
    split; [done|]. intros Hd. eapply (wp_run _ _ _ _ _ (runOp_moved _ _ _ _ _ Hok Hop Hd)) in E. by destruct E.
  - intros Hcon Ht c1 c2 st E1 E2 Hs. unfold connectable in Hcon.
    assert (k_joinable c = true ∧ k_state c ≠ CConnecting ∧ k_state c ≠ CConnected) as (Hj&?&?).
    { destruct (k_joinable c); [|by destruct Hcon]. split; [done|]. split; intros E; apply Hcon; auto. }
    cbn [runOp silently]. unfold silently, mbind, M_bind. by rewrite (connect_twice crypto c k q ms c1 c2 st).
Qed.

(** No wake-up is lost: while an event can be popped, [onEventsReady] has been called since
    the last poll began. And none is superfluous: an operation that dispatches nothing calls it
    at most once, and only if no wake-up was outstanding. *)
Theorem connection_wakeups config c :
  reachable config c → cf_onEventsReady config = true →
  (∀ r e, tryPop (k_ring c) = Some (r, Some e) → k_eventsSignalled c = true) ∧
  (∀ op c' calls, op_ok op c → dispatches op = false → runOp op c = Some (c', calls) →
    (k_eventsSignalled c = true → k_eventsSignalled c' = true) ∧
    k_signals c' = (k_signals c + if k_eventsSignalled c' && negb (k_eventsSignalled c) then 1 else 0)%nat).
Proof.
  intros (<-&k&q&ms&Hok)%reachable_ok Hcb. split.
  - intros r e Hp. apply (oa_awake _ _ _ _ _ Hok Hcb). intros ->.
    pose proof (tryPop_empty _ _ (ca_ring _ _ _ _ _ (oa_at _ _ _ _ _ Hok))) as E. congruence.
  - intros op c' calls Hop Hd E. eapply (wp_run _ _ _ _ _ (runOp_moved _ _ _ _ _ Hok Hop Hd)) in E.
    destruct E as (_&_&_&[[-> ->]|(->&->&->)]); cbn; [|by split; [|lia]].
    split; [done|]. rewrite andb_negb_r. lia.
Qed.

(** The datagram the pending messages would leave in. *)
Definition pendingDatagram (c : Conn W) (ms : list bytes) : Prop :=
  ms ≠ [] → ∃ d, bw_datagram (k_bundle c) = Some d ∧ datagram_ok d ∧ unpack d = ms.

(** C6. The counters agree with the wire: every datagram sent fits the server's limit and unpacks,
    without an error, to messages the send path takes; [datagramsSent], [bytesSent] and
    [bundlesSent] count what is on the wire; and every message counted as sent is on the wire,
    pending in the bundle, or counted as dropped. The datagram of the pending messages unpacks to
    exactly those messages, and a flush that succeeds adds exactly them to the wire; a send
    changes no other message: the wire and the pending messages are those before and the one
    taken, less a pending bundle that was dropped and counted. *)
Theorem connection_books config c :
  reachable config c →
  ∃ ms, bw_rep (k_bundle c) ms ∧ Forall sendable ms ∧ (cf_bundleSends config = false → ms = []) ∧
    books (k_count c) (sentLog (k_world c)) ms ∧ pendingDatagram c ms ∧
    (∀ st c', flushSends c = Some (c', st) → ok st = true → onWire c' = onWire c ++ ms) ∧
    (∀ m st c', sendable m → transmit m c = Some (c', st) →
      ∃ ms', bw_rep (k_bundle c') ms' ∧
        let acc := if ok st then [m] else [] in
        (onWire c' ++ ms' ≡ₚ onWire c ++ ms ++ acc ∧ droppedCount c' = droppedCount c) ∨
        (onWire c' ++ ms' ≡ₚ onWire c ++ acc ∧ droppedCount c' = u64 (droppedCount c + Z.of_nat (length ms)))).
Proof.
  intros (<-&k&q&ms&[Hc _ _ _ _])%reachable_ok. pose proof Hc as []. exists ms.
  split; [done|]. split; [done|]. split; [done|]. split; [done|]. split; [|split].
  - intros Hne. destruct (pending_datagram _ ms ca_bundle ca_buffer ca_pending Hne) as (d&?&?&?&_). eauto.
  - intros st c' E Hst. eapply (wp_run _ _ _ _ _ (flushSends_wp crypto _ _ _ _ Hc)) in E.
    destruct E as (_&ms'&_&_&Hf). rewrite Hst in Hf. by destruct Hf.
  - intros m st c' Hm E. eapply (wp_run _ _ _ _ _ (transmit_wp crypto _ _ _ _ _ Hc Hm)) in E.
    destruct E as (_&ms'&Hc'&Ht). exists ms'. split; [by destruct Hc'|].
    destruct Ht as [(->&->&_)|[(f&_&_&_&_&->&->)|(_&_&_&->&->&->)]]; [by left|by right|left].
    split; [|done]. rewrite <- !(assoc (++)). f_equiv. apply Permutation_app_comm.
Qed.

(** C3. Messages leave in the order they were sent: the wire followed by the pending bundle grows
    by the message and nothing else. The two exceptions: the socket failed the flush of the
    pending messages, which are dropped and counted; and a message too big for a bundle overtakes
    pending ones whose flush was tried first and met a full send buffer. A flush moves the
    pending messages onto the wire, or keeps them behind a full send buffer, or drops and counts
    them with a fault. The counters of deferred and failed sends grow by exactly the refusals of
    the socket. *)
Theorem connection_sends_in_order config c m :
  reachable config c → sendable m →
  ∃ ms, bw_rep (k_bundle c) ms ∧
    (∃ st c' ms', transmit m c = Some (c', st) ∧ bw_rep (k_bundle c') ms' ∧ transmitted m st c ms c' ms' ∧
      session c' = session c) ∧
    (∃ st c' ms', flushSends c = Some (c', st) ∧ bw_rep (k_bundle c') ms' ∧ flush_post st c ms c' ms' ∧
      session c' = session c).
Proof.
  intros (_&k&q&ms&Hok)%reachable_ok Hm. pose proof (oa_at _ _ _ _ _ Hok) as Hc.
  exists ms. split; [by eapply ca_bundle|]. split.
  - destruct (wp_elim _ _ _ (transmit_wp crypto _ _ _ _ _ Hc Hm)) as (c'&st&E&[Hs _]&ms'&Hc'&Ht).
    exists st, c', ms'. split; [done|]. split; [by eapply ca_bundle|done].
  - destruct (wp_elim _ _ _ (flushSends_wp crypto _ _ _ _ Hc)) as (c'&st&E&[Hs _]&ms'&Hc'&Ht).
    exists st, c', ms'. split; [done|]. split; [by eapply ca_bundle|done].
Qed.

(** What a send that succeeds has encoded. *)
Lemma encodeLongSpatial_message p token out mac b n :
  params_ok p → mac_ok crypto token mac → encodeLongSpatial crypto p token out mac = Some (b, Val n) →
  ∃ m, sub b 0 n = Some m ∧ parseLongSpatial m = Some (Val (view_of p)) ∧
    ∀ mac', mac_ok crypto token mac' → verifyLongSpatial crypto m token mac' = Some Ok.
Proof.
  intros Hp Hmac He. pose proof (encodeLongSpatial_success _ _ _ _ _ _ _ He) as (Hl&Hs&Ho&Ha).
  pose proof Hp as (_&_&_&_&_&Hu&_&_). rewrite encodeLongSpatial_writes in He by done.
  destruct (spatialHmac crypto _ token mac) as [tag|] eqn:E; [|done]. apply Some_Val_inj in He as [-> ->].
  apply spatialHmac_length in E as Ht; [|done..]. exists (longSpatialFrame p tag).
  split; [by apply sub_first; [|rewrite length_longSpatialFrame]|]. split; [by apply parse_longSpatialFrame|].
  intros mac' Hmac'. apply verify_longSpatialFrame; try done. by rewrite <- E, (mac_irrelevant crypto _ token mac mac').
Qed.

(** What a spatial send does, by its answer. *)
Definition send_outcome c (type : Z) (p : SpatialSend) (r : Result Z) (ms : list bytes) c' (ms' : list bytes) : Prop :=
  match r with
  | Val s =>
      socketIsOpen (k_world c) = true ∧ s = k_sequence c ∧
      ∃ m st, ok st = true ∧ transmitted m st c ms c' ms' ∧
        parseLongSpatial m = Some (Val (view_of (spatialParams c type p))) ∧
        ∀ mac, mac_ok crypto (k_token64 c) mac → verifyLongSpatial crypto m (k_token64 c) mac = Some Ok
  | Err e => e ≠ Ok ∧ (socketIsOpen (k_world c) = false → e = NotConnected ∧ c' = c)
  end.

Lemma sendLongSpatial_outcome c k q ms type p r c' :
  conn_at crypto c k q ms → plain_type type → params_ok (spatialParams c type p) →
  sendLongSpatial crypto type p c = Some (c', r) →
  sframe c c' ∧ ∃ ms', conn_at crypto c' k q ms' ∧ send_outcome c type p r ms c' ms'.
Proof.
  intros Hc Ht Hp E. pose proof (ca_mac _ _ _ _ _ Hc) as Hmac. pose proof Hp as (_&_&_&_&_&Hu&_&_).
  eapply (wp_run _ _ _ _ _ (sendLongSpatial_wp crypto _ _ _ _ _ p Hc Ht Hu)) in E.
  destruct E as (Hf&ms'&Hc'&Hpost). split; [done|]. exists ms'. split; [done|]. unfold send_outcome.
  unfold send_post in Hpost. destruct (socketIsOpen (k_world c)); [|by destruct Hpost as (->&->&_)].
  destruct Hpost as [(b&e&_&He&->&_)|(b&n&m&st&He&Hm&_&Htr&->)]; [done|].
  destruct (ok st) eqn:Hst; [|split; [by apply not_ok_error|done]].
  destruct (encodeLongSpatial_message _ _ _ _ _ _ Hp Hmac He) as (m'&Hm'&Hparse&Hver).
  assert (m' = m) as -> by congruence. split; [done|]. split; [done|]. exists m, st. done.
Qed.

(** C2. A spatial send that succeeds has handed on exactly one message: it parses to the fields
    given, under the connection's application, game token and the sequence number returned, and
    it verifies under the connection's token. On a closed socket nothing is sent. *)
Theorem sendLongSpatial_delivers config c type p r c' :
  reachable config c → plain_type type → params_ok (spatialParams c type p) →
  sendLongSpatial crypto type p c = Some (c', r) →
  ∃ ms ms', bw_rep (k_bundle c) ms ∧ bw_rep (k_bundle c') ms' ∧
    match r with
    | Val s =>
        socketIsOpen (k_world c) = true ∧ s = k_sequence c ∧
        ∃ m st, ok st = true ∧ transmitted m st c ms c' ms' ∧
          parseLongSpatial m = Some (Val (view_of (spatialParams c type p))) ∧
          ∀ mac, mac_ok crypto (k_token64 c) mac → verifyLongSpatial crypto m (k_token64 c) mac = Some Ok
    | Err e => e ≠ Ok ∧ (socketIsOpen (k_world c) = false → e = NotConnected ∧ c' = c)
    end.
Proof.
  intros (_&k&q&ms&Hok)%reachable_ok Ht Hp E. pose proof (oa_at _ _ _ _ _ Hok) as Hc.
  eapply (sendLongSpatial_outcome c k q ms) in E; try done. destruct E as (_&ms'&Hc'&Ho).
  exists ms, ms'. split; [by eapply ca_bundle|]. split; [by eapply ca_bundle|done].
Qed.

(** Where a queued event can come from. *)
Definition trusted (c : Conn W) (d : bytes) (e : Event) : Prop :=
  startsWith CommandReconnect d = false ∧ ev_data e ∈ unpack d ∧
  (startsWith MessageBundleSigned d = true → verifySignedBundle crypto d (k_token64 c) (k_mac c) = Some Ok) ∧
  match ev_kind e with
  | EvSpatial => cf_verifyNotifications (k_config c) = true →
      verifyLongSpatial crypto (ev_data e) (k_token64 c) (k_mac c) = Some Ok
  | EvStatus => False
  | _ => True
  end.

Lemma accept_trusted verify creds m e :
  e ∈ accept crypto verify creds m → ev_data e = m ∧
  match ev_kind e with
  | EvSpatial => verify = true → verifyLongSpatial crypto m (cr_token creds) (cr_mac creds) = Some Ok
  | EvStatus => False
  | _ => True
  end.
Proof.
  unfold accept. destruct m as [|t m'] eqn:Em; [by intros ?%elem_of_nil|]. rewrite <- Em.
  destruct (classify crypto verify creds t m) as [[kind ts| | |]|] eqn:Hc; try (by intros ?%elem_of_nil).
  destruct (decide _); [by intros ?%elem_of_nil|]. intros ->%list_elem_of_singleton. split; [done|].
  apply classify_Queue in Hc. cbn. destruct kind; try done. by destruct Hc as (_&_&?).
Qed.

Lemma elem_of_concat {A} (x : A) ls : x ∈ concat ls → ∃ l, l ∈ ls ∧ x ∈ l.
Proof. intros (l&?&?)%list_elem_of_In%in_concat. exists l. by rewrite !list_elem_of_In. Qed.

Lemma datagramEvents_trusted c d e :
  e ∈ datagramEvents crypto (cf_verifyNotifications (k_config c)) (credsOf c) d → trusted c d e.
Proof.
  unfold datagramEvents, trusted. destruct (startsWith CommandReconnect d); [by intros ?%elem_of_nil|].
  destruct (startsWith MessageBundleSigned d && _) eqn:Hs; [by intros ?%elem_of_nil|].
  intros (evs&(m&->&Hm)%list_elem_of_fmap&Hin)%elem_of_concat.
  apply accept_trusted in Hin as [-> Hin]. split; [done|]. split; [done|]. split; [|done].
  intros Hsb. rewrite Hsb in Hs. by apply negb_false_iff, bool_decide_eq_true in Hs.
Qed.

(** C4. Receiving a datagram, however malformed: the events queued are those of its messages, in
    order, as far as the ring has room, and the others are counted as dropped. Under verification
    nothing is queued from a signed bundle that fails it, no spatial notification that fails it,
    and no event claims a change of state; and only a verified command requests a reassignment. *)
Theorem handleDatagram_received config c d :
  reachable config c →
  ∃ k q evs c', handleDatagram crypto d c = Some (c', tt) ∧ ring_rep (k_ring c) k q ∧
    ring_rep (k_ring c') k (take (room k) (q ++ evs)) ∧
    evs = datagramEvents crypto (cf_verifyNotifications config) (credsOf c) d ∧ Forall (trusted c d) evs ∧
    u64 (k_count c' MessagesReceived) = u64 (k_count c MessagesReceived + Z.of_nat (length evs)) ∧
    u64 (k_count c' RingDropped) =
      u64 (k_count c RingDropped + Z.of_nat (length (q ++ evs)) - Z.of_nat (length (take (room k) (q ++ evs)))) ∧
    k_reconnectRequested c' = k_reconnectRequested c ||
      (startsWith CommandReconnect d && bool_decide (verifyCommandReconnect crypto d (k_token64 c) = Some Ok)).
Proof.
  intros (<-&k&q&ms&Hok)%reachable_ok. pose proof (oa_at _ _ _ _ _ Hok) as Hc.
  destruct (wp_elim _ _ _ (handleDatagram_wp crypto _ _ _ _ d Hc)) as (c'&[]&E&[Hc' _ Hr Hm Hd _]).
  exists k, q. eexists. exists c'. split; [done|]. split; [by eapply ca_ring|]. split; [by eapply ca_ring|].
  split; [done|]. split; [|done]. apply list.Forall_forall. intros e. apply datagramEvents_trusted.
Qed.

(** C7. A poll takes the oldest events, at most as many as asked for, and makes the calls of each
    in order; the others stay queued, and if any do, [onEventsReady] is called for them. The first
    event that answers the wait in progress decides it, and an expired token asks for a
    reassignment. *)
Theorem poll_dispatches_in_order config c n :
  reachable config c →
  ∃ k q c', let taken := take n q in
    poll n c = Some (c', (concat (callsOf (k_handlers c) <$> taken), length taken)) ∧
    ring_rep (k_ring c) k q ∧ ring_rep (k_ring c') k (drop n q) ∧
    k_wait c' = foldl waitStep (k_wait c) taken ∧
    k_reconnectRequested c' = k_reconnectRequested c || existsb tokenExpired taken ∧
    (cf_onEventsReady config = true → drop n q ≠ [] → k_signals c' = S (k_signals c)) ∧
    (n > length q → k_eventsSignalled c' = false)%nat.
Proof.
  intros (<-&k&q&ms&Hok)%reachable_ok. pose proof (oa_at _ _ _ _ _ Hok) as Hc.
  destruct (wp_elim _ _ _ (poll_wp crypto _ _ _ _ n Hc)) as (c'&[calls m]&E&->&->&Hc'&_&r&->).
  exists k, q. eexists. cbv zeta. split; [done|]. split; [by eapply ca_ring|].
  split; [by eapply (ca_ring crypto) in Hc'|]. split; [done|]. split; [done|].
  split; cbn.
  - intros Hcb Hne. rewrite Hcb, bool_decide_true; [done|]. destruct (decide (n ≤ length q)%nat); [done|].
    by rewrite drop_ge in Hne by lia.
  - intros Hn. rewrite (bool_decide_false (n ≤ length q)%nat) by lia. by rewrite andb_false_r.
Qed.

(** C8. The session's life: an operation that dispatches nothing leaves the session as it is or
    made ready, ends it ([Failed] or [Closed]) under the same epoch, or replaces it under the next
    epoch. [connect], unless called with a thread still to join, answers [Ok] only with a session, and [disconnect] leaves it closed, with its
    socket closed and its net thread stopped and joined. *)
Theorem session_lifecycle config c op c' calls :
  reachable config c → op_ok op c → dispatches op = false → runOp op c = Some (c', calls) →
  (calm c c' ∨
   (k_sessionEpoch c' = k_sessionEpoch c ∧ (k_state c' = CFailed ∨ k_state c' = CClosed)) ∨
   (k_sessionEpoch c' = u64 (k_sessionEpoch c + 1) ∧ (k_state c' = CConnecting ∨ k_state c' = CFailed))) ∧
  (op = ODisconnect → k_state c' = CClosed ∧ k_running c' = false ∧ k_joinable c' = false ∧
     socketIsOpen (k_world c') = false) ∧
  (∀ st c'', connectable c → connect c = Some (c'', st) → st = Ok → k_state c'' = CConnecting ∨ k_state c'' = CConnected).
Proof.
  intros (_&k&q&ms&Hok)%reachable_ok Hop Hd E. split; [|split].
  - eapply (wp_run _ _ _ _ _ (runOp_moved _ _ _ _ _ Hok Hop Hd)) in E. by destruct E as (_&_&?&_).
  - intros ->. eapply (wp_run _ _ _ _ _ (silently_wp _ ended _ _)) in E.
    { by destruct E. }
    Unshelve. eapply wp_mono; [by eapply (disconnect_wp crypto)|]. intros _ c1 [_ ?]. done.
  - intros st c'' Hcon E' Hst. eapply (wp_run _ _ _ _ _ (connect_wp crypto _ _ _ _ Hok Hcon)) in E'. by apply E'.
Qed.

(** C5. Waiting for the echo of a sequence number ends, whatever arrives and whatever the other
    threads do, once its schedule reaches the deadline; and its result is right: the first answer
    among the events dispatched meanwhile, or nothing after the full timeout, or the news that
    a new session was connected. *)
Theorem awaitSequence_decided config c batches sequence uuid timeoutMs endOnNewSession schedule :
  reachable config c → fueled batches c → scheduled timeoutMs schedule →
  ∃ c' evs o, awaitSequence crypto batches sequence uuid timeoutMs endOnNewSession schedule c =
      Some (c', (concat (callsOf (k_handlers c) <$> evs), o)) ∧
    match head (omap (answer sequence uuid) evs) with
    | Some o' => o = o'
    | None =>
        (o = noOutcome ∧ clockNow (k_world c) + timeoutMs ≤ clockNow (k_world c')) ∨
        (o = mkWaitOutcome false None 0 true ∧ endOnNewSession = true ∧ k_sessionEpoch c' ≠ k_sessionEpoch c ∧
         k_state c' = CConnected)
    end.
Proof.
  intros (_&k&q&ms&Hok)%reachable_ok Hf [Hs Ht].
  destruct (wp_elim _ _ _ (awaitSequence_wp crypto schedule c k q ms batches sequence uuid timeoutMs endOnNewSession Hok Hs Hf Ht))
    as (c'&[calls o]&E&_&evs&_&->&Ha).
  exists c', evs, o. done.
Qed.

End Operations.

(** ** A concrete world *)

(** A clock that a reading advances, a socket that is [tn_busy] for some sends, and datagrams that
    arrive when asked for. *)
Record TestNet := mkTestNet {
  tn_clock : Z; tn_open : bool; tn_sent : list bytes; tn_busy : nat; tn_in : list bytes }.

Definition tn_tick (w : TestNet) : TestNet :=
  mkTestNet (tn_clock w + 1) (tn_open w) (tn_sent w) (tn_busy w) (tn_in w).

Definition demoToken64 : bytes := replicate kTokenOctets 65.

#[global] Instance TestNet_net : Net TestNet := {
  monotonicMillis w := (tn_tick w, tn_clock w + 1);
  epochMillis w := (w, 1700000000000 + tn_clock w);
  socketOpen w _ _ _ _ := (mkTestNet (tn_clock w) true (tn_sent w) (tn_busy w) (tn_in w), Ok);
  socketClose w := mkTestNet (tn_clock w) false (tn_sent w) (tn_busy w) (tn_in w);
  socketIsOpen := tn_open;
  socketSend w d :=
    match tn_busy w with
    | S n => (mkTestNet (tn_clock w) (tn_open w) (tn_sent w) n (tn_in w), WouldBlock)
    | O => (mkTestNet (tn_clock w) (tn_open w) (tn_sent w ++ [d]) 0 (tn_in w), Ok)
    end;
  socketWake w := w;
  socketCanWake _ := true;
  recvBatch w _ n _ := (mkTestNet (tn_clock w) (tn_open w) (tn_sent w) (tn_busy w) (drop n (tn_in w)), Val (take n (tn_in w)));
  assignServer w := (w, Val (mkAssignment [49] [] 4000));
  refreshToken w _ := (w, Val (mkTokenInfo demoToken64 5 0 true));
}.

#[global] Instance TestNet_laws : NetLaws TestNet.
Proof.
  refine {| sentLog := tn_sent; inbound := length ∘ tn_in; clockNow := tn_clock |}.
  - intros w w' t [= <- <-]. split; [|done]. split; [done|]. split; [done|]. split; cbn; lia.
  - by intros w w' t [= <- _].
  - by intros w.
  - intros w w' r [= <- <-]. by split.
  - by intros w a w' r [= <- _].
  - intros w d w' st E. unfold socketSend in E. cbn in E. destruct (tn_busy w); injection E as <- <-.
    + done.
    + cbn. by rewrite app_nil_r.
  - by intros w h p r s w' st [= <- <-].
  - by intros w.
  - intros w slot n t w' r [= <- <-]. split.
    + split; [done|]. split; [done|]. split; cbn; [rewrite length_drop; lia|lia].
    + cbn. rewrite length_take, length_drop. lia.
Defined.

(** ** A connection in that world *)

Definition demoConfig : Config := {|
  cf_appId := 42; cf_token := mkTokenInfo demoToken64 5 0 true; cf_manualPump := true; cf_preferIpv6 := false;
  cf_sessionReadyWaitMs := 0; cf_refreshLeadMs := 0; cf_verifyNotifications := true;
  cf_advertiseCapabilities := false; cf_advertiseIntervalMs := 5000; cf_watchdogSilenceMs := 0;
  cf_ringCapacity := 4; cf_socketRecvBufferBytes := 0; cf_socketSendBufferBytes := 0; cf_bundleSends := true;
  cf_bundleWindowMs := 50; cf_onEventsReady := true |}.

Definition demoSend : SpatialSend := mkSpatialSend (mkChunk 1 2 (-3)) demoUuid [7; 8] 8 0.

(** The server's echo of the first message [demoSend] is sent in. *)
Definition demoEcho : bytes :=
  let p := Build_LongSpatialParams ActorUpdateNotification 42 (mkChunk 1 2 (-3)) 8 0 demoUuid [7; 8] 1700000000123 0 in
  match encodeLongSpatial demoCrypto p demoToken64 sendBuffer None with
  | Some (b, Val n) => take n b
  | _ => []
  end.

Definition demoWorld (arriving : list bytes) : TestNet := mkTestNet 0 false [] 0 arriving.

Section Runs.
Context {W : Type} `{NetLaws W} (crypto : ICrypto).

Fixpoint runOpList (ops : list Op) (c : Conn W) : option (Conn W) :=
  match ops with
  | [] => Some c
  | op :: ops => '(c, _) ← runOp crypto op c; runOpList ops c
  end.

Fixpoint allowed (ops : list Op) (c : Conn W) : Prop :=
  match ops with
  | [] => True
  | op :: ops => op_ok crypto op c ∧ match runOp crypto op c with Some (c', _) => allowed ops c' | None => False end
  end.

Lemma runOpList_reachable config ops c c' :
  reachable crypto config c → allowed ops c → runOpList ops c = Some c' → reachable crypto config c'.
Proof.
  revert c. induction ops as [|op ops IH]; intros c Hr Ha E; cbn [allowed runOpList] in *; [congruence|].
  destruct Ha as [Hop Ha]. destruct (runOp crypto op c) as [[c1 calls]|] eqn:E1; [|done].
  eapply IH; [|exact Ha|exact E]. by eapply reach_op.
Qed.
End Runs.

Definition demoNew (arriving : list bytes) : option (Conn TestNet) :=
  makeConnection demoCrypto demoConfig (demoWorld arriving) (replicate kMaxDatagramSize 0).

Definition demoRun (arriving : list bytes) (ops : list Op) : option (Conn TestNet) :=
  c ← demoNew arriving; runOpList demoCrypto ops c.

Definition demoAllowed (arriving : list bytes) (ops : list Op) : Prop :=
  match demoNew arriving with Some c => allowed demoCrypto ops c | None => False end.

Lemma demoRun_reachable arriving ops c :
  demoAllowed arriving ops → demoRun arriving ops = Some c → reachable demoCrypto demoConfig c.
Proof.
  unfold demoAllowed, demoRun. destruct (demoNew arriving) as [c0|] eqn:E; [|done]. intros Ha Hr.
  eapply (runOpList_reachable demoCrypto); [|exact Ha|exact Hr].
  eapply reach_new; [| | |exact E]; [cbn; lia|by rewrite length_replicate|done].
Qed.

(** Connected, the echo received and nothing polled yet. *)
Definition demoOps : list (Op (W := TestNet)) := [OConnect; OPump 2 0].

Lemma demoOps_allowed : demoAllowed [demoEcho] demoOps.
Proof. vm_compute. split; [|split; [|done]]; [done|lia]. Qed.

(** What the server sees of the run: one datagram of two messages, and the echo acknowledged. *)
Example demo_bundled :
  match demoRun [demoEcho] (demoOps ++ [OSend (SActorUpdate demoSend); OSend (SText demoSend); OFlushSends]) with
  | Some c => length <$> (unpack <$> tn_sent (k_world c)) = [2%nat] ∧ k_count c BundlesSent = 1 ∧ k_count c MessagesSent = 2
  | None => False
  end.
Proof. vm_compute. done. Qed.

Definition demoTick : M TestNet unit := world (λ w, (tn_tick w, tt)).

Lemma demoTick_friendly : friendly demoCrypto demoTick.
Proof.
  intros c k q ms Hok. unfold demoTick. wp_step. injection Hw as <- <-. split; [|cbn; lia].
  eapply (ran_unmoved demoCrypto); [exact Hok|]. eapply unmoved_quiet; [by eapply oa_at|].
  split; [done|]. split; [done|]. split; cbn; lia.
Qed.

Lemma demo_scheduled n timeoutMs :
  timeoutMs ≤ Z.of_nat n → scheduled demoCrypto timeoutMs (replicate n demoTick).
Proof.
  intros Hn. split; [|by rewrite length_replicate]. apply Forall_replicate, demoTick_friendly.
Qed.

Example demo_acknowledged :
  match demoRun [demoEcho] demoOps with
  | Some c =>
      match awaitSequence demoCrypto 2 0 demoUuid 100 false (replicate 100 demoTick) c with
      | Some (_, (_, o)) => o = mkWaitOutcome true None 1700000000123 false
      | None => False
      end
  | None => False
  end.
Proof. vm_compute. done. Qed.

(** The state the witnesses start from. *)
Lemma demo_defined : match demoRun [demoEcho] demoOps with Some _ => True | None => False end.
Proof. vm_compute. exact I. Qed.

Ltac demo_with H c Hr :=
  destruct (demoRun [demoEcho] demoOps) as [c|] eqn:Hr; [|destruct H];
  apply (demoRun_reachable _ _ _ demoOps_allowed) in Hr.
Ltac demo_state c Hr := let H := fresh in pose proof demo_defined as H; demo_with H c Hr; clear H.

Lemma connection_operations_total_witness :
  ∃ c c' calls, reachable demoCrypto demoConfig c ∧ runOp demoCrypto (OSend (SActorUpdate demoSend)) c = Some (c', calls).
Proof.
  demo_state c Hr.
  destruct (connection_operations_total demoCrypto demoConfig c (OSend (SActorUpdate demoSend)) Hr)
    as (_&_&_&Hdef&_). destruct (Hdef eq_refl) as (c'&calls&E&_).
  exists c, c', calls. exact (conj Hr E).
Defined.

Lemma connection_books_witness :
  ∃ c, reachable demoCrypto demoConfig c ∧ ∃ ms, books (k_count c) (sentLog (k_world c)) ms.
Proof.
  demo_state c Hr. exists c. split; [exact Hr|].
  destruct (connection_books demoCrypto demoConfig c Hr) as (ms&_&_&_&Hb&_). exists ms. exact Hb.
Defined.

Lemma connection_sends_in_order_witness :
  ∃ c c' st, reachable demoCrypto demoConfig c ∧ transmit demoEcho c = Some (c', st).
Proof.
  demo_state c Hr.
  assert (sendable demoEcho) as Hm.
  { split; [vm_compute; lia|]. exists ActorUpdateNotification. split; [vm_compute; done|done]. }
  destruct (connection_sends_in_order demoCrypto demoConfig c demoEcho Hr Hm) as (ms&_&(st&c'&_&E&_)&_).
  exists c, c', st. exact (conj Hr E).
Defined.

Lemma sendLongSpatial_delivers_witness :
  ∃ c c' s, reachable demoCrypto demoConfig c ∧
    sendLongSpatial demoCrypto ActorUpdateRequest demoSend c = Some (c', Val s) ∧ s = k_sequence c.
Proof.
  assert (match demoRun [demoEcho] demoOps with
          | Some c => params_ok (spatialParams c ActorUpdateRequest demoSend) ∧
              match sendLongSpatial demoCrypto ActorUpdateRequest demoSend c with Some (_, Val _) => True | _ => False end
          | None => False
          end) as Hsend.
  { vm_compute. split; [|done]. repeat split; try done. }
  demo_with Hsend c Hr. destruct Hsend as [Hp Hsend].
  destruct (sendLongSpatial _ _ _ c) as [[c' [s|e]]|] eqn:E; [|done..]. exists c, c', s. split; [exact Hr|]. split; [exact E|].
  destruct (sendLongSpatial_delivers demoCrypto demoConfig c ActorUpdateRequest demoSend (Val s) c' Hr) as (ms&ms'&_&_&_&Hs&_);
    [done|exact Hp|exact E|exact Hs].
Defined.

Lemma handleDatagram_received_witness :
  ∃ c c', reachable demoCrypto demoConfig c ∧ handleDatagram demoCrypto demoEcho c = Some (c', tt).
Proof.
  demo_state c Hr. destruct (handleDatagram_received demoCrypto demoConfig c demoEcho Hr) as (k&q&evs&c'&E&_).
  exists c, c'. exact (conj Hr E).
Defined.

Lemma poll_dispatches_in_order_witness :
  ∃ c c' r, reachable demoCrypto demoConfig c ∧ poll 2 c = Some (c', r).
Proof.
  demo_state c Hr. destruct (poll_dispatches_in_order demoCrypto demoConfig c 2 Hr) as (k&q&c'&E&_).
  exists c, c'. eexists. exact (conj Hr E).
Defined.

Lemma session_lifecycle_witness :
  ∃ c c' calls, reachable demoCrypto demoConfig c ∧ runOp demoCrypto ODisconnect c = Some (c', calls) ∧ k_state c' = CClosed.
Proof.
  assert (match demoRun [demoEcho] demoOps with
          | Some c => match runOp demoCrypto ODisconnect c with Some _ => True | None => False end
          | None => False
          end) as Hd by (vm_compute; done).
  demo_with Hd c Hr.
  destruct (runOp demoCrypto ODisconnect c) as [[c' calls]|] eqn:E; [|done]. exists c, c', calls. split; [done|]. split; [done|].
  by apply (session_lifecycle demoCrypto demoConfig c ODisconnect c' calls Hr I eq_refl E).
Defined.

Lemma awaitSequence_decided_witness :
  ∃ c c' calls o, reachable demoCrypto demoConfig c ∧
    awaitSequence demoCrypto 2 0 demoUuid 100 false (replicate 100 demoTick) c = Some (c', (calls, o)).
Proof.
  assert (match demoRun [demoEcho] demoOps with Some c => fueled 2 c | None => False end) as Hf by (vm_compute; lia).
  demo_with Hf c Hr.
  destruct (awaitSequence_decided demoCrypto demoConfig c 2 0 demoUuid 100 false (replicate 100 demoTick) Hr Hf)
    as (c'&evs&o&E&_); [by apply demo_scheduled|].
  exists c, c'. eexists. exists o. exact (conj Hr E).
Defined.

(** A pending request reopens a connection that was closed: [disconnect] leaves it set, and [pump]
    does not look at the state. *)
Example reopened_after_disconnect :
  match demoRun [] [OConnect; ODisconnect; ORequestReassignment; OPump 1 0] with
  | Some c => k_state c = CConnecting ∧ socketIsOpen (k_world c) = true
  | None => False
  end.
Proof. vm_compute. done. Qed.
