(* ===== verification/WorldSession.v ===== *)
(** * The world session

    [include/crowdy/session/world_session.hpp], [src/session/world_session.cpp]: the stores over
    one replication connection, driven by one tick. The session owns the connection's handlers;
    what a poll dispatches ends in exactly one store, or with the game. The durable services and
    the host election are classes of operations. A session computation is a state monad over the
    session's members; what the game is called with is kept in [ws_told]. Calls of the stores'
    own observers are in [Stores]. *)

From S2P Require Import Prelude Bytes Protocol Codec Core Keys Types Connection ChunkStore Stores.

Open Scope Z_scope.

(** ** The connection as the stores use it *)

(** A send of the stores; a computation that is undefined leaves no connection. *)
Definition sendThrough {W A} (m : M W (Result A)) (c : option (Conn W)) : option (Conn W) * Result A :=
  match c ≫= m with
  | Some (c, r) => (Some c, r)
  | None => (None, Err NotConnected)
  end.

#[export] Instance Conn_sender {W} `{Net W} (crypto : ICrypto) : Sender (option (Conn W)) := {
  sendActorUpdate c p := sendThrough (Connection.sendActorUpdate crypto p) c;
  sendHeartbeat c chunk uuid := sendThrough (Connection.sendHeartbeat crypto chunk uuid) c;
  sendVoxelUpdate c chunk uuid v distance :=
    sendThrough (Connection.sendVoxelUpdate crypto chunk uuid (vx v) (vy v) (vz v) (v_voxelType v) (v_state v)
      distance DecayRate_None) c;
}.

(** ** Data *)

(** [IHostElection::Beat] and [IHostElection]. *)
Record Beat := mkBeat { bt_ok : bool; bt_hostUserId : bytes; bt_amIHost : bool }.

Class HostElection (D : Type) := heartbeat : D → bytes → D * Beat.

(** [sf_on]: which of the media callbacks, [onVoxel] and [onActorLeft] the game has set. *)
Record SessionConfig := mkSessionConfig {
  sf_appId : bytes; sf_self : LocalOptions; sf_staleAfterMs : Z; sf_historySize : Z; sf_chunks : ChunkOptions;
  sf_hostHeartbeatIntervalMs : Z; sf_reapIntervalMs : Z; sf_actorUuid : bytes; sf_on : Handlers }.

(** What the game is called with. *)
Inductive Told :=
| TSpatial (h : HandlerKind) (n : SpatialNotification)
| TChannel (n : ChannelNotification)
| TVoxel (n : SpatialNotification) (v : VoxelPayloadView)
| TActorLeft (uuid : bytes) (reason : Z)
| TEvent (h : string) (e : RouterEvent)
| THost (hostUserId : bytes).

Record WorldSession (W D : Type) := mkSession {
  ws_conn : Conn W; ws_durable : D; ws_config : SessionConfig; ws_host : bool; ws_uuid : bytes;
  ws_self : LocalActorStore; ws_actors : RemoteActorStore; ws_chunks : ChunkStore; ws_errors : ErrorStore;
  ws_events : EventRouter string; ws_channelInbox : Inbox; ws_directInbox : Inbox;
  ws_amIHost : bool; ws_hostUserId : bytes; ws_lastReapMs : Z; ws_lastHostBeatMs : Z; ws_told : list Told }.
Arguments mkSession {W D}.
Arguments ws_conn {W D}. Arguments ws_durable {W D}. Arguments ws_config {W D}. Arguments ws_host {W D}.
Arguments ws_uuid {W D}. Arguments ws_self {W D}. Arguments ws_actors {W D}. Arguments ws_chunks {W D}.
Arguments ws_errors {W D}. Arguments ws_events {W D}. Arguments ws_channelInbox {W D}.
Arguments ws_directInbox {W D}. Arguments ws_amIHost {W D}. Arguments ws_hostUserId {W D}.
Arguments ws_lastReapMs {W D}. Arguments ws_lastHostBeatMs {W D}. Arguments ws_told {W D}.

(** A session computation; [None] is undefined behaviour. *)
Definition Ses (W D A : Type) : Type := WorldSession W D → option (WorldSession W D * A).

#[export] Instance Ses_ret W D : MRet (Ses W D) := λ A a s, Some (s, a).
#[export] Instance Ses_bind W D : MBind (Ses W D) := λ A B f m s, '(s, a) ← m s; f a s.

Section Updates.
Context {W D : Type}.
Abbreviation WorldSession := (WorldSession W D).

Definition on_conn (f : Conn W → Conn W) (s : WorldSession) : WorldSession :=
  mkSession (f (ws_conn s)) (ws_durable s) (ws_config s) (ws_host s) (ws_uuid s) (ws_self s)
    (ws_actors s) (ws_chunks s) (ws_errors s) (ws_events s) (ws_channelInbox s) (ws_directInbox s)
    (ws_amIHost s) (ws_hostUserId s) (ws_lastReapMs s) (ws_lastHostBeatMs s) (ws_told s).
Definition on_durable (f : D → D) (s : WorldSession) : WorldSession :=
  mkSession (ws_conn s) (f (ws_durable s)) (ws_config s) (ws_host s) (ws_uuid s) (ws_self s)
    (ws_actors s) (ws_chunks s) (ws_errors s) (ws_events s) (ws_channelInbox s) (ws_directInbox s)
    (ws_amIHost s) (ws_hostUserId s) (ws_lastReapMs s) (ws_lastHostBeatMs s) (ws_told s).
Definition on_self (f : LocalActorStore → LocalActorStore) (s : WorldSession) : WorldSession :=
  mkSession (ws_conn s) (ws_durable s) (ws_config s) (ws_host s) (ws_uuid s) (f (ws_self s))
    (ws_actors s) (ws_chunks s) (ws_errors s) (ws_events s) (ws_channelInbox s) (ws_directInbox s)
    (ws_amIHost s) (ws_hostUserId s) (ws_lastReapMs s) (ws_lastHostBeatMs s) (ws_told s).
Definition on_actors (f : RemoteActorStore → RemoteActorStore) (s : WorldSession) : WorldSession :=
  mkSession (ws_conn s) (ws_durable s) (ws_config s) (ws_host s) (ws_uuid s) (ws_self s)
    (f (ws_actors s)) (ws_chunks s) (ws_errors s) (ws_events s) (ws_channelInbox s) (ws_directInbox s)
    (ws_amIHost s) (ws_hostUserId s) (ws_lastReapMs s) (ws_lastHostBeatMs s) (ws_told s).
Definition on_chunks (f : ChunkStore → ChunkStore) (s : WorldSession) : WorldSession :=
  mkSession (ws_conn s) (ws_durable s) (ws_config s) (ws_host s) (ws_uuid s) (ws_self s) (ws_actors s)
    (f (ws_chunks s)) (ws_errors s) (ws_events s) (ws_channelInbox s) (ws_directInbox s) (ws_amIHost s)
    (ws_hostUserId s) (ws_lastReapMs s) (ws_lastHostBeatMs s) (ws_told s).
Definition on_errors (f : ErrorStore → ErrorStore) (s : WorldSession) : WorldSession :=
  mkSession (ws_conn s) (ws_durable s) (ws_config s) (ws_host s) (ws_uuid s) (ws_self s) (ws_actors s)
    (ws_chunks s) (f (ws_errors s)) (ws_events s) (ws_channelInbox s) (ws_directInbox s) (ws_amIHost s)
    (ws_hostUserId s) (ws_lastReapMs s) (ws_lastHostBeatMs s) (ws_told s).
Definition on_events (f : EventRouter string → EventRouter string) (s : WorldSession) : WorldSession :=
  mkSession (ws_conn s) (ws_durable s) (ws_config s) (ws_host s) (ws_uuid s) (ws_self s) (ws_actors s)
    (ws_chunks s) (ws_errors s) (f (ws_events s)) (ws_channelInbox s) (ws_directInbox s) (ws_amIHost s)
    (ws_hostUserId s) (ws_lastReapMs s) (ws_lastHostBeatMs s) (ws_told s).
Definition on_channelInbox (f : Inbox → Inbox) (s : WorldSession) : WorldSession :=
  mkSession (ws_conn s) (ws_durable s) (ws_config s) (ws_host s) (ws_uuid s) (ws_self s) (ws_actors s)
    (ws_chunks s) (ws_errors s) (ws_events s) (f (ws_channelInbox s)) (ws_directInbox s) (ws_amIHost s)
    (ws_hostUserId s) (ws_lastReapMs s) (ws_lastHostBeatMs s) (ws_told s).
Definition on_directInbox (f : Inbox → Inbox) (s : WorldSession) : WorldSession :=
  mkSession (ws_conn s) (ws_durable s) (ws_config s) (ws_host s) (ws_uuid s) (ws_self s) (ws_actors s)
    (ws_chunks s) (ws_errors s) (ws_events s) (ws_channelInbox s) (f (ws_directInbox s)) (ws_amIHost s)
    (ws_hostUserId s) (ws_lastReapMs s) (ws_lastHostBeatMs s) (ws_told s).
Definition on_amIHost (f : bool → bool) (s : WorldSession) : WorldSession :=
  mkSession (ws_conn s) (ws_durable s) (ws_config s) (ws_host s) (ws_uuid s) (ws_self s) (ws_actors s)
    (ws_chunks s) (ws_errors s) (ws_events s) (ws_channelInbox s) (ws_directInbox s) (f (ws_amIHost s))
    (ws_hostUserId s) (ws_lastReapMs s) (ws_lastHostBeatMs s) (ws_told s).
Definition on_hostUserId (f : bytes → bytes) (s : WorldSession) : WorldSession :=
  mkSession (ws_conn s) (ws_durable s) (ws_config s) (ws_host s) (ws_uuid s) (ws_self s) (ws_actors s)
    (ws_chunks s) (ws_errors s) (ws_events s) (ws_channelInbox s) (ws_directInbox s) (ws_amIHost s)
    (f (ws_hostUserId s)) (ws_lastReapMs s) (ws_lastHostBeatMs s) (ws_told s).
Definition on_lastReapMs (f : Z → Z) (s : WorldSession) : WorldSession :=
  mkSession (ws_conn s) (ws_durable s) (ws_config s) (ws_host s) (ws_uuid s) (ws_self s) (ws_actors s)
    (ws_chunks s) (ws_errors s) (ws_events s) (ws_channelInbox s) (ws_directInbox s) (ws_amIHost s)
    (ws_hostUserId s) (f (ws_lastReapMs s)) (ws_lastHostBeatMs s) (ws_told s).
Definition on_lastHostBeatMs (f : Z → Z) (s : WorldSession) : WorldSession :=
  mkSession (ws_conn s) (ws_durable s) (ws_config s) (ws_host s) (ws_uuid s) (ws_self s) (ws_actors s)
    (ws_chunks s) (ws_errors s) (ws_events s) (ws_channelInbox s) (ws_directInbox s) (ws_amIHost s)
    (ws_hostUserId s) (ws_lastReapMs s) (f (ws_lastHostBeatMs s)) (ws_told s).
Definition on_told (f : list Told → list Told) (s : WorldSession) : WorldSession :=
  mkSession (ws_conn s) (ws_durable s) (ws_config s) (ws_host s) (ws_uuid s) (ws_self s) (ws_actors s)
    (ws_chunks s) (ws_errors s) (ws_events s) (ws_channelInbox s) (ws_directInbox s) (ws_amIHost s)
    (ws_hostUserId s) (ws_lastReapMs s) (ws_lastHostBeatMs s) (f (ws_told s)).
End Updates.

Section Session.
Context {W : Type} `{Net W} (crypto : ICrypto) {D : Type} `{ChunkSource D} `{HostElection D}.
Abbreviation WorldSession := (WorldSession W D).
Abbreviation S' := (Ses W D).
#[local] Instance session_sender : Sender (option (Conn W)) := Conn_sender crypto.

Definition reading {A} (f : WorldSession → A) : S' A := λ s, Some (s, f s).
Definition update (f : WorldSession → WorldSession) : S' unit := λ s, Some (f s, tt).
Definition whenS (b : bool) (m : S' unit) : S' unit := if b then m else mret tt.
Definition liftS {A} (o : option A) : S' A := λ s, a ← o; Some (s, a).
Definition onConn {A} (m : M W A) : S' A := λ s, '(c, a) ← m (ws_conn s); Some (on_conn (λ _, c) s, a).
Definition tell (t : Told) : S' unit := update (on_told (λ l, l ++ [t])).

(** [systemClock().monotonicMillis()]. The model has one clock: it reads the connection's, which is
    the system clock unless another is passed to the constructor (connection.hpp, its default). For
    a connection with a clock of its own the times of the session are another clock's. *)
Definition clock : S' Z := onConn (world monotonicMillis).

(** ** The handlers *)

Definition onActorUpdate (n : SpatialNotification) : S' unit :=
  uuid ← reading ws_uuid;
  if decide (uuidArray n = uuid) then
    now ← clock; update (on_self (λ self, recordAck self (sn_sequence n) (sn_epochMillis n) (sn_payload n) now))
  else
    now ← clock; update (on_actors (λ actors, storeIngest actors n now)).

Definition onVoxelUpdate (n : SpatialNotification) (v : VoxelPayloadView) : S' unit :=
  now ← clock;
  update (on_chunks (λ chunks, (ingestVoxel chunks n v now).1));;
  config ← reading ws_config;
  whenS (sf_on config HVoxelUpdate) (tell (TVoxel n v)).

Definition onEvent (fromServer : bool) (n : SpatialNotification) (payload : EventPayloadView) : S' unit :=
  now ← clock; router ← reading ws_events;
  let '(router, call) := routerIngest router n payload fromServer now in
  update (on_events (λ _, router));;
  match call with Some (h, e) => tell (TEvent h e) | None => mret tt end.

Definition onActorLeft (n : SpatialNotification) (reason : Z) : S' unit :=
  self ← reading ws_uuid;
  if decide (uuidArray n = self) then mret tt else
  update (on_actors (λ actors, (storeRemove actors (uuidArray n)).1));;
  config ← reading ws_config;
  whenS (sf_on config HActorLeft) (tell (TActorLeft (uuidArray n) reason)).

Definition onGenericError (e : GenericError) : S' unit :=
  now ← clock;
  update (on_self (λ self, recordError self e now));;
  update (on_errors (λ errors, errorIngest errors e now)).

Definition channelInboxMessage (n : ChannelNotification) (now : Z) : InboxMessage :=
  mkInboxMessage (cn_channelId n) (take kUuidSize (cn_senderUuid n)) (cn_payload n) (cn_epochMillis n) now.
Definition directInboxMessage (n : SpatialNotification) (now : Z) : InboxMessage :=
  mkInboxMessage 0 (uuidArray n) (sn_payload n) (sn_epochMillis n) now.

Definition onChannelMessage (n : ChannelNotification) : S' unit :=
  now ← clock; inbox ← reading ws_channelInbox;
  '(inbox, _) ← liftS (inboxPush inbox (channelInboxMessage n now));
  update (on_channelInbox (λ _, inbox)).

Definition onSingleActorMessage (n : SpatialNotification) : S' unit :=
  now ← clock; inbox ← reading ws_directInbox;
  '(inbox, _) ← liftS (inboxPush inbox (directInboxMessage n now));
  update (on_directInbox (λ _, inbox)).

(** [installHandlers]: which handlers it sets, and what each does with a call. *)
Definition installHandlers (config : SessionConfig) : Handlers := λ h,
  match h with
  | HActorUpdate | HVoxelUpdate | HClientEvent | HServerEvent | HActorLeft | HGenericError | HChannelMessage
  | HSingleActorMessage => true
  | HAudio | HVideo | HText | HGenericSpatial | HChannelAudio => sf_on config h
  | HAny | HStatus => false
  end.

Definition handle (call : Call) : S' unit :=
  match call with
  | CallSpatial HActorUpdate n => onActorUpdate n
  | CallSpatial HSingleActorMessage n => onSingleActorMessage n
  | CallSpatial h n => tell (TSpatial h n)
  | CallVoxel n v => onVoxelUpdate n v
  | CallActorLeft n reason => onActorLeft n reason
  | CallEvent h n e => onEvent (match h with HServerEvent => true | _ => false end) n e
  | CallChannel HChannelMessage n => onChannelMessage n
  | CallChannel _ n => tell (TChannel n)
  | CallError e => onGenericError e
  | CallStatus _ => mret tt
  end.

Fixpoint handleAll (calls : list Call) : S' unit :=
  match calls with
  | [] => mret tt
  | call :: calls => handle call;; handleAll calls
  end.

(** A poll with its handlers; they do not touch the connection. *)
Definition pollSession (maxEvents : nat) : S' unit := '(calls, _) ← onConn (poll maxEvents); handleAll calls.

(** ** The tick *)

(** [poll]'s default bound: more than the ring can hold. *)
Definition pollBound (s : WorldSession) : nat := S (length (Spsc.slots_ (k_ring (ws_conn s)))).

(** A call of the local actor's store. *)
Definition onSelf {A} (m : LocalActorStore → option (Conn W) → LocalActorStore * option (Conn W) * A) : S' A :=
  self ← reading ws_self; c ← reading ws_conn;
  let '(self, c, a) := m self (Some c) in
  c ← liftS c; update (on_conn (λ _, c));; update (on_self (λ _, self));; mret a.

(** [WorldSession::join]. *)
Definition joinWorld (chunk : ChunkCoord) (initialState : bytes) : S' Status :=
  onSelf (λ self c, join self c chunk initialState).

Definition presence (now : Z) : S' unit :=
  onSelf (λ self c, (localTick self c now, tt));;
  self ← reading ws_self;
  match la_lastSequence self with
  | Some seq => update (on_errors (λ errors, recordSend errors seq KActorUpdate (Some (la_uuid self))))
  | None => mret tt
  end.

Definition reapStale (now : Z) : S' unit :=
  config ← reading ws_config; last ← reading ws_lastReapMs;
  whenS (sf_reapIntervalMs config <=? now - last)
    (update (on_actors (λ actors, storeReap actors now));; update (on_lastReapMs (λ _, now))).

Definition writeBack (order : gmap ChunkCoord ChunkData → list ChunkCoord) (now : Z) : S' unit :=
  chunks ← reading ws_chunks; durable ← reading ws_durable;
  '(chunks, durable, _) ← liftS (chunkTick order chunks durable now);
  update (on_chunks (λ _, chunks));; update (on_durable (λ _, durable)).

Definition hostBeat (now : Z) : S' unit :=
  config ← reading ws_config; host ← reading ws_host; last ← reading ws_lastHostBeatMs;
  whenS (host && (0 <? sf_hostHeartbeatIntervalMs config) && (sf_hostHeartbeatIntervalMs config <=? now - last))
    (update (on_lastHostBeatMs (λ _, now));;
     durable ← reading ws_durable;
     let '(durable, beat) := heartbeat durable (sf_appId config) in
     update (on_durable (λ _, durable));;
     whenS (bt_ok beat)
       (update (on_amIHost (λ _, bt_amIHost beat));;
        known ← reading ws_hostUserId;
        whenS (bool_decide (bt_hostUserId beat ≠ known))
          (update (on_hostUserId (λ _, bt_hostUserId beat));; tell (THost (bt_hostUserId beat))))).

Definition tick (order : gmap ChunkCoord ChunkData → list ChunkCoord) : S' unit :=
  now ← clock;
  bound ← reading pollBound;
  pollSession bound;;
  presence now;;
  reapStale now;;
  writeBack order now;;
  hostBeat now;;
  onConn flushSends;; mret tt.

Definition dispose : S' unit := onConn disconnect.

(** ** Construction *)

(** [init]; a connection that is undefined behaviour to configure cannot be built. *)
Definition makeSession (conn : Conn W) (durable : D) (hasChunks hasHost : bool) (config : SessionConfig)
    : option WorldSession :=
  uuid ← (if decide (length (sf_actorUuid config) = 32%nat)
          then Some (actorUuidFromString (sf_actorUuid config) (replicate 32 0)).2
          else generateActorUuid crypto);
  '(conn, _) ← setHandlers (installHandlers config) conn;
  Some (mkSession conn durable config hasHost uuid (makeLocalActorStore uuid (sf_self config))
    (makeRemoteActorStore uuid (sf_staleAfterMs config) (sf_historySize config))
    (makeChunkStore (sf_chunks config) hasChunks) (mkErrorStore ∅ [] 0) (mkEventRouter ∅ ∅)
    (makeInbox 256) (makeInbox 256) false [] 0 0 []).

End Session.
