(* ===== verification/SessionSpec.v ===== *)
(** * The world session: its guarantees

    The session's operations as steps of one state machine: what the game calls, what its network
    thread does meanwhile. The invariant of the states reached, where each notification of a poll
    ends, what a tick puts on the wire, and whom the game is told the host is. *)

From S2P Require Import Prelude Bytes Protocol Codec Bundle Spsc Core Keys Connection ConnectionLaws ConnLife ConnectionSpec Types ChunkStore Stores WorldSession.

Open Scope Z_scope.

(** ** Total correctness of session computations *)

Section Swp.
Context {W D : Type}.
Implicit Types s : WorldSession W D.

Definition swp {A} (m : Ses W D A) (Q : A → WorldSession W D → Prop) (s : WorldSession W D) : Prop :=
  ∃ s' a, m s = Some (s', a) ∧ Q a s'.

Lemma swp_mono {A} (m : Ses W D A) (P Q : A → WorldSession W D → Prop) s :
  swp m P s → (∀ a s', P a s' → Q a s') → swp m Q s.
Proof. intros (s'&a&E&HP) HPQ. exists s', a. auto. Qed.

Lemma swp_bind {A B} (m : Ses W D A) (f : A → Ses W D B) Q s :
  swp m (λ a s', swp (f a) Q s') s → swp (m ≫= f) Q s.
Proof. intros (s'&a&E&s''&b&E'&HQ). exists s'', b. split; [|done]. unfold mbind, Ses_bind. by rewrite E. Qed.

Lemma swp_ret {A} (a : A) (Q : A → WorldSession W D → Prop) s : Q a s → swp (mret a) Q s.
Proof. by exists s, a. Qed.

Lemma swp_reading {A} (f : WorldSession W D → A) (Q : A → WorldSession W D → Prop) s : Q (f s) s → swp (reading f) Q s.
Proof. by exists s, (f s). Qed.

Lemma swp_update f (Q : unit → WorldSession W D → Prop) s : Q tt (f s) → swp (update f) Q s.
Proof. by exists (f s), tt. Qed.

Lemma swp_lift {A} (o : option A) (Q : A → WorldSession W D → Prop) s a : o = Some a → Q a s → swp (liftS o) Q s.
Proof. intros -> ?. by exists s, a. Qed.

Lemma swp_when b (m : Ses W D unit) (Q : unit → WorldSession W D → Prop) s :
  (b = true → swp m Q s) → (b = false → Q tt s) → swp (whenS b m) Q s.
Proof. intros H1 H2. destruct b; [by apply H1|apply swp_ret; by apply H2]. Qed.

Lemma swp_conn {A} (m : M W A) (Q : A → WorldSession W D → Prop) s :
  wp m (λ a c, Q a (on_conn (λ _, c) s)) (ws_conn s) → swp (onConn m) Q s.
Proof. intros (c&a&E&HQ)%wp_elim. exists (on_conn (λ _, c) s), a. split; [|done]. unfold onConn. by rewrite E. Qed.
End Swp.

Ltac swp_step :=
  lazymatch goal with
  | |- swp (mbind _ _) _ _ => apply swp_bind
  | |- swp (mret _) _ _ => apply swp_ret
  | |- swp (reading _) _ _ => apply swp_reading
  | |- swp (update _) _ _ => apply swp_update
  | |- swp (tell _) _ _ => apply swp_update
  | |- swp (whenS _ _) _ _ => apply swp_when; intros ?
  end; cbv beta.
Ltac swps := repeat swp_step.

(** ** Sends through the session *)

Lemma encodeLongSpatial_error crypto p token out mac b e :
  encodeLongSpatial crypto p token out mac = Some (b, Err e) → e ≠ Ok.
Proof.
  unfold encodeLongSpatial. destruct (isLongSpatialLayout (p_type p)); cbn [negb]; [|by intros [= _ <-]].
  case_decide; [by intros [= _ <-]|]. case_decide; [by intros [= _ <-]|].
  destruct (ok (availability crypto)) eqn:Ha; cbn [negb]; [|intros [= _ <-]; by apply not_ok_error].
  intros E. repeat (apply bind_Some in E as (? & _ & E)). case_match; [|by injection E as _ <-].
  by repeat (apply bind_Some in E as (? & _ & E)).
Qed.

Section Sends.
Context {W : Type} `{NetLaws W} (crypto : ICrypto) `{!CryptoLaws crypto}.
Implicit Types c : Conn W.

(** What a computation answers, wherever it starts. *)
Definition answers {A} (m : M W A) (Q : A → Prop) : Prop := ∀ c c' a, m c = Some (c', a) → Q a.

Lemma answers_ret {A} (a : A) (Q : A → Prop) : Q a → answers (mret a) Q.
Proof. by intros ? c c' b [= _ <-]. Qed.

Lemma answers_bind {A B} (m : M W A) (f : A → M W B) (P : A → Prop) Q :
  answers m P → (∀ a, P a → answers (f a) Q) → answers (m ≫= f) Q.
Proof.
  intros Hm Hf c c' b. unfold mbind, M_bind. destruct (m c) as [[c1 a]|] eqn:E; [|done].
  apply Hf. by eapply Hm.
Qed.

Lemma answers_then {A B} (m : M W A) (f : A → M W B) Q : (∀ a, answers (f a) Q) → answers (m ≫= f) Q.
Proof. intros Hf. by apply (answers_bind _ _ (λ _, True)). Qed.

Lemma sendLongSpatial_error type p : answers (sendLongSpatial crypto type p) (λ r, ∀ e, r = Err e → e ≠ Ok).
Proof.
  unfold sendLongSpatial. apply answers_then. intros []; cbn [negb]; [|by apply answers_ret; intros e [= <-]].
  do 3 (apply answers_then; intros ?). unfold sendEncoded.
  eapply (answers_bind _ _ (λ r, ∀ b e, r = (b, Err e) → e ≠ Ok)).
  { unfold lift. intros c c' r (r'&E&[= _ ->])%bind_Some b e ->. by eapply encodeLongSpatial_error. }
  intros [buf [n|e']] He; [|apply answers_ret; intros e [= <-]; by eapply He].
  apply answers_then. intros data. apply answers_then. intros st.
  destruct (ok st) eqn:Hs; cbn [negb]; apply answers_ret; [done|]. intros e [= <-]. by apply not_ok_error.
Qed.

#[export] Instance Conn_sender_laws : SenderLaws (H := Conn_sender crypto) (option (Conn W)).
Proof.
  intros [c|] p c' e; cbn; unfold sendThrough; cbn [mbind option_bind]; [|by intros [= _ <-]].
  destruct (Connection.sendActorUpdate crypto p c) as [[c1 r]|] eqn:E; [|by intros [= _ <-]].
  intros [= _ ->]. by eapply (sendLongSpatial_error _ _ _ _ _ E).
Qed.

(** A send of the stores is an operation of the connection. *)
Lemma sendThrough_reachable cc c s (m : M W (Result Z)) :
  reachable crypto cc c → runSend crypto s = quietly m → length (sendUuid s) = kUuidSize →
  ∃ c' r, m c = Some (c', r) ∧ reachable crypto cc c' ∧ k_handlers c' = k_handlers c.
Proof.
  intros Hr Hm Hu. destruct (reachable_ok _ _ _ Hr) as (_&k&q&ms&Hok).
  destruct (wp_elim _ _ _ (runOp_ran crypto (OSend s) c k q ms Hok Hu eq_refl eq_refl)) as (c'&calls&E&->&Hran).
  pose proof E as E'. cbn [runOp] in E'. unfold silently, mbind, M_bind in E'. rewrite Hm in E'. unfold quietly, mbind, M_bind in E'.
  destruct (m c) as [[c1 r]|] eqn:Em; [|done]. injection E' as <-. exists c1, r. split; [done|].
  split; [by eapply (reach_op crypto cc c (OSend s))|]. pose proof (rn_fixed _ _ _ _ Hran) as Hf. unfold fixed in Hf. congruence.
Qed.
End Sends.

(** What every send keeps, the stores' calls keep. *)
Section StoreSends.
Context {C : Type} `{Sender C} (P : C → Prop) (u : bytes).
Hypothesis Hupdate : ∀ c p c' r, P c → ss_uuid p = u → sendActorUpdate c p = (c', r) → P c'.
Hypothesis Hbeat : ∀ c chunk c' r, P c → sendHeartbeat c chunk u = (c', r) → P c'.
Hypothesis Hvoxel : ∀ c chunk v d c' r, P c → sendVoxelUpdate c chunk u v d = (c', r) → P c'.

Lemma sendNow_conn self c now reason self' c' st :
  la_uuid self = u → P c → sendNow self c now reason = (self', c', st) → P c' ∧ la_uuid self' = u.
Proof.
  unfold sendNow. intros Hu HP. destruct (sendActorUpdate c _) as [c1 r] eqn:E.
  apply Hupdate in E; [|done..]. by destruct r; intros [= <- <- _].
Qed.

Lemma localTick_conn self c now self' c' :
  la_uuid self = u → P c → localTick self c now = (self', c') → P c' ∧ la_uuid self' = u.
Proof.
  unfold localTick. intros Hu HP. destruct (la_joined self); cbn [negb]; [|by intros [= <- <-]].
  case_match; [by intros [= <- <-]|]. destruct (la_dirty self || la_resendDue self || _).
  - destruct (sendNow self c now _) as [[s1 c1] st] eqn:E. intros [= <- <-]. by eapply sendNow_conn.
  - case_match; [|by intros [= <- <-]]. rewrite Hu. destruct (sendHeartbeat c _ u) as [c1 r] eqn:E.
    apply Hbeat in E; [|done]. by case_match; intros [= <- <-].
Qed.

Lemma setVoxel_conn s c k x y z t st b now s' c' r :
  P c → setVoxel s c k x y z t st u b now = (s', c', r) → P c'.
Proof.
  unfold setVoxel. intros HP. case_match; [by intros [= _ <- _]|]. case_decide; [by intros [= _ <- _]|].
  destruct (sendVoxelUpdate c _ _ _ _) as [c1 q] eqn:E. apply Hvoxel in E; [|done]. by destruct q; intros [= _ <- _].
Qed.
End StoreSends.

(** ** The operations *)

(** What the game calls on the session, its stores and its connection; [SConn] is also a pass of the
    net thread. *)
Inductive SessionOp {W : Type} :=
| STick | SDispose | SPoll (maxEvents : nat) | SConn (op : Op (W := W)) | SClock
| SJoin (chunk : ChunkCoord) (state : bytes) | SMoveTo (chunk : ChunkCoord) | SRefresh
| SSetChunk (chunk : ChunkCoord) | SSetState (state : bytes)
| SChunk (op : ChunkOp)
| SLane (name : string) (options : LaneOptions) | SClearActors
| SRecordSend (sequence : Z) (kind : SendKind) (actor : option bytes) | SClearErrors
| SOn (eventType : Z) (handler : string)
| SDrainChannel (max : nat) | SDrainDirect (max : nat) | SClearChannel | SClearDirect.

Section Session.
Context {W : Type} `{NetLaws W} (crypto : ICrypto) `{!CryptoLaws crypto} {D : Type} `{ChunkSource D} `{HostElection D}.
Context (order : gmap ChunkCoord ChunkData → list ChunkCoord).
Implicit Types s : WorldSession W D.
#[local] Instance spec_sender : Sender (option (Conn W)) := Conn_sender crypto.

(** A call of the chunk store. *)
Definition onChunks (op : ChunkOp) : Ses W D unit :=
  chunks ← reading ws_chunks; c ← reading ws_conn; durable ← reading ws_durable;
  '(chunks, c, durable) ← liftS (runChunkOp order (chunks, Some c, durable) op);
  c ← liftS c; update (on_conn (λ _, c));; update (on_chunks (λ _, chunks));; update (on_durable (λ _, durable)).

Definition runSession (op : SessionOp) : Ses W D unit :=
  match op with
  | STick => tick crypto order
  | SDispose => dispose
  | SPoll n => pollSession n
  | SConn op => onConn (runOp crypto op);; mret tt
  | SClock => clock;; mret tt
  | SJoin chunk state => joinWorld crypto chunk state;; mret tt
  | SMoveTo chunk => onSelf (λ self c, moveTo self c chunk);; mret tt
  | SRefresh => onSelf (λ self c, refresh self c);; mret tt
  | SSetChunk chunk => update (on_self (λ self, setChunk self chunk))
  | SSetState state => update (on_self (λ self, setState self state))
  | SChunk op => onChunks op
  | SLane name options => update (on_actors (λ a, storeLane a name options))
  | SClearActors => update (on_actors storeClear)
  | SRecordSend q kind actor => update (on_errors (λ e, recordSend e q kind actor))
  | SClearErrors => update (on_errors clearErrors)
  | SOn eventType handler => update (on_events (λ r, routerOn r eventType handler))
  | SDrainChannel n => update (on_channelInbox (λ b, (inboxDrain b n).1))
  | SDrainDirect n => update (on_directInbox (λ b, (inboxDrain b n).1))
  | SClearChannel => update (on_channelInbox inboxClear)
  | SClearDirect => update (on_directInbox inboxClear)
  end.

(** What a caller owes: what the connection and the chunk store ask for; the handlers are the
    session's, and the waits, which dispatch on their own, are not used beside it. *)
Definition session_op_ok (op : SessionOp) s : Prop :=
  match op with
  | SConn op => ConnectionSpec.op_ok crypto op (ws_conn s) ∧ dispatches op = false ∧ sets_handlers op = false
  | SChunk op => ChunkStore.op_ok op ∧ prune_near (ws_chunks s) op ∧
      match op with OpSet _ _ _ _ _ _ u _ _ => length u = kUuidSize | _ => True end
  | _ => True
  end.

(** The sessions over a connection of configuration [cc] that was not used for anything else. *)
Inductive reachableSession (cc : Config) (sc : SessionConfig) : WorldSession W D → Prop :=
| session_new c durable hasChunks hasHost s :
    reachable crypto cc c → makeSession crypto c durable hasChunks hasHost sc = Some s → reachableSession cc sc s
| session_op s op s' :
    reachableSession cc sc s → session_op_ok op s → runSession op s = Some (s', tt) → reachableSession cc sc s'.

(** ** The invariant *)

Definition inbox_ok (b : Inbox) : Prop := ib_max b = 256%nat ∧ (length (ib_messages b) ≤ ib_max b)%nat.

(** The hosts the game was told, and a list in which each differs from the one before. *)
Definition hostsTold (told : list Told) : list bytes := omap (λ t, match t with THost h => Some h | _ => None end) told.
Fixpoint changes (before : bytes) (hosts : list bytes) : Prop :=
  match hosts with [] => True | h :: hosts => h ≠ before ∧ changes h hosts end.
Definition lastHost (before : bytes) (hosts : list bytes) : bytes := foldl (λ _ h, h) before hosts.
Definition hosts_ok (told : list Told) (known : bytes) : Prop :=
  changes [] (hostsTold told) ∧ lastHost [] (hostsTold told) = known.

Record session_ok (cc : Config) (sc : SessionConfig) s : Prop := {
  se_conn : reachable crypto cc (ws_conn s);
  se_handlers : k_handlers (ws_conn s) = installHandlers sc;
  se_config : ws_config s = sc;
  se_uuid : length (ws_uuid s) = kUuidSize;
  se_selfUuid : la_uuid (ws_self s) = ws_uuid s;
  se_actorsUuid : rs_selfUuid (ws_actors s) = ws_uuid s;
  se_self : ∃ g, local_inv (ws_self s) g;
  se_actors : Stores.store_ok (ws_actors s);
  se_chunks : ChunkStore.store_ok (ws_chunks s);
  se_options : cs_options (ws_chunks s) = sf_chunks sc;
  se_channel : inbox_ok (ws_channelInbox s);
  se_direct : inbox_ok (ws_directInbox s);
  se_hosts : hosts_ok (ws_told s) (ws_hostUserId s);
}.

(** ** Routing *)

(** The share each part has in a call that was handled at a time. *)
Definition selfShare (uuid : bytes) (ct : Call * Z) : list LocalOp :=
  match ct.1 with
  | CallSpatial HActorUpdate n =>
      if decide (uuidArray n = uuid) then [LAckOp (sn_sequence n) (sn_epochMillis n) (sn_payload n) ct.2] else []
  | CallError e => [LErrorOp e ct.2]
  | _ => []
  end.
Definition actorsShare (uuid : bytes) (ct : Call * Z) : list StoreOp :=
  match ct.1 with
  | CallSpatial HActorUpdate n => if decide (uuidArray n = uuid) then [] else [StIngest n ct.2]
  | CallActorLeft n _ => if decide (uuidArray n = uuid) then [] else [StRemove (uuidArray n)]
  | _ => []
  end.
Definition chunksShare (ct : Call * Z) : list ChunkOp :=
  match ct.1 with CallVoxel n v => [OpIngest n v ct.2] | _ => [] end.
Definition errorsShare (ct : Call * Z) : list ErrorOp :=
  match ct.1 with CallError e => [EoIngest e ct.2] | _ => [] end.
Definition isServer (h : HandlerKind) : bool := match h with HServerEvent => true | _ => false end.
Definition eventsShare (ct : Call * Z) : list (RouterOp string) :=
  match ct.1 with CallEvent h n e => [RoIngest n e (isServer h) ct.2] | _ => [] end.
Definition channelShare (ct : Call * Z) : list InboxOp :=
  match ct.1 with CallChannel HChannelMessage n => [IbPush (channelInboxMessage n ct.2)] | _ => [] end.
Definition directShare (ct : Call * Z) : list InboxOp :=
  match ct.1 with CallSpatial HSingleActorMessage n => [IbPush (directInboxMessage n ct.2)] | _ => [] end.

(** What the game hears of it, with the event handlers [on]. *)
Definition gameShare (config : SessionConfig) (uuid : bytes) (on : gmap Z string) (ct : Call * Z) : list Told :=
  match ct.1 with
  | CallSpatial HActorUpdate _ | CallSpatial HSingleActorMessage _ => []
  | CallSpatial h n => [TSpatial h n]
  | CallVoxel n v => if sf_on config HVoxelUpdate then [TVoxel n v] else []
  | CallActorLeft n reason =>
      if decide (uuidArray n = uuid) then [] else
      if sf_on config HActorLeft then [TActorLeft (uuidArray n) reason] else []
  | CallEvent h n e =>
      match on !! e_eventType e with Some f => [TEvent f (eventOf n e (isServer h) ct.2)] | None => [] end
  | CallChannel HChannelMessage _ => []
  | CallChannel _ n => [TChannel n]
  | CallError _ | CallStatus _ => []
  end.

(** The local actor hears of its own updates and of errors only. *)
Definition hear (self : LocalActorStore) (op : LocalOp) : LocalActorStore :=
  match op with
  | LAckOp q e st t => recordAck self q e st t
  | LErrorOp e t => recordError self e t
  | _ => self
  end.
Definition merge (chunks : ChunkStore) (op : ChunkOp) : ChunkStore :=
  match op with OpIngest n v now => (ingestVoxel chunks n v now).1 | _ => chunks end.

(** What handling calls leaves alone. *)
Definition uninvolved s :=
  (ws_durable s, ws_config s, ws_host s, ws_uuid s, (ws_amIHost s, ws_hostUserId s), (ws_lastReapMs s, ws_lastHostBeatMs s)).

(** Every part has done its share of the calls, and the clock has been read. *)
Record routed s s' (l : list (Call * Z)) : Prop := {
  rt_conn : ∃ w, ws_conn s' = set_world w (ws_conn s) ∧ quiet (k_world (ws_conn s)) w;
  rt_times : Forall (λ ct, clockNow (k_world (ws_conn s)) ≤ ct.2 ≤ clockNow (k_world (ws_conn s'))) l;
  rt_rest : uninvolved s' = uninvolved s;
  rt_self : ws_self s' = foldl hear (ws_self s) (flat_map (selfShare (ws_uuid s)) l);
  rt_actors : ws_actors s' = foldl storeStep (ws_actors s) (flat_map (actorsShare (ws_uuid s)) l);
  rt_chunks : ws_chunks s' = foldl merge (ws_chunks s) (flat_map chunksShare l);
  rt_errors : ws_errors s' = foldl errorStep (ws_errors s) (flat_map errorsShare l);
  rt_events : ws_events s' = (routerRun (ws_events s) (flat_map eventsShare l)).1;
  rt_channel : inboxRun (ws_channelInbox s) (flat_map channelShare l) = Some (ws_channelInbox s', []);
  rt_direct : inboxRun (ws_directInbox s) (flat_map directShare l) = Some (ws_directInbox s', []);
  rt_told : ws_told s' = ws_told s ++ flat_map (gameShare (ws_config s) (ws_uuid s) (er_handlers (ws_events s))) l;
}.

Lemma inboxRun_app ops ops' b b1 b2 :
  inboxRun b ops = Some (b1, []) → inboxRun b1 ops' = Some (b2, []) → inboxRun b (ops ++ ops') = Some (b2, []).
Proof.
  revert b. induction ops as [|[m|n|] ops IH]; intros b E E'; cbn [inboxRun app] in *; [congruence|..].
  - destruct (inboxPush b m) as [[b' m']|]; [|done]. cbn in *. by apply IH.
  - destruct (inboxDrain b n) as [b' out]. destruct (inboxRun b' ops) as [[b'' outs]|] eqn:E1; [|done]. cbn in *.
    injection E as -> [-> ->]%app_eq_nil. by rewrite (IH b' E1 E').
  - by apply IH.
Qed.

Lemma routerRun_app (ops ops' : list (RouterOp string)) r :
  routerRun r (ops ++ ops') =
  ((routerRun (routerRun r ops).1 ops').1, (routerRun r ops).2 ++ (routerRun (routerRun r ops).1 ops').2).
Proof.
  revert r. induction ops as [|[t h|n p b now] ops IH]; intros r; cbn [routerRun app].
  - by destruct routerRun.
  - by rewrite IH.
  - destruct (routerIngest r n p b now) as [r' call]. rewrite IH. destruct (routerRun r' ops) as [r1 e1]. cbn. by destruct call.
Qed.

Lemma routerRun_handlers l r : er_handlers (routerRun r (flat_map eventsShare l)).1 = er_handlers r.
Proof.
  revert r. induction l as [|ct l IH]; intros r; [done|]. cbn [flat_map]. rewrite routerRun_app. cbn [fst]. rewrite IH.
  unfold eventsShare. by destruct ct.1.
Qed.

Lemma routed_nil s : routed s s [].
Proof. split; try done; [|by rewrite app_nil_r]. exists (k_world (ws_conn s)). split; [by destruct (ws_conn s)|done]. Qed.

Lemma routed_app s s1 s2 l l' : routed s s1 l → routed s1 s2 l' → routed s s2 (l ++ l').
Proof.
  intros [(w1&Ec1&Hq1) Ht1 Er1 E1 E2 E3 E4 E5 E6 E7 E8] [(w2&Ec2&Hq2) Ht2 Er2 F1 F2 F3 F4 F5 F6 F7 F8].
  pose proof Er1 as Er. unfold uninvolved in Er. injection Er as _ Ecfg _ Eu _ _ _ _.
  rewrite Ec1 in Hq2, Ec2, Ht1, Ht2. cbn in Hq2, Ht1, Ht2. rewrite Ec2 in Ht2. cbn in Ht2.
  pose proof Hq1 as (_&_&_&?). pose proof Hq2 as (_&_&_&?).
  split; rewrite ?flat_map_app, ?foldl_app, ?routerRun_app; cbn [fst].
  - exists w2. split; [by rewrite Ec2|by etrans].
  - rewrite Ec2. cbn. apply Forall_app.
    split; [eapply List.Forall_impl; [|exact Ht1]|eapply List.Forall_impl; [|exact Ht2]]; cbn; lia.
  - by rewrite Er2.
  - by rewrite <- E1, <- Eu.
  - by rewrite <- E2, <- Eu.
  - by rewrite <- E3.
  - by rewrite <- E4.
  - by rewrite <- E5.
  - by eapply inboxRun_app.
  - by eapply inboxRun_app.
  - rewrite F8, E8, <- app_assoc, Eu, Ecfg. do 2 f_equal. by rewrite E5, routerRun_handlers.
Qed.

Lemma clock_swp s (Q : Z → WorldSession W D → Prop) :
  (∀ w, quiet (k_world (ws_conn s)) w → Q (clockNow w) (on_conn (set_world w) s)) → swp clock Q s.
Proof.
  intros HQ. unfold clock. apply swp_conn, wp_world. intros w t E. apply law_monotonic in E as [Hq ->]. by apply HQ.
Qed.

Ltac flags := match goal with E : sf_on _ _ = _ |- _ => cbn in E; rewrite E, ?app_nil_r end.
Ltac routed_at t :=
  exists t; split; cbn; rewrite ?app_nil_r; try done; eauto;
  try (match goal with Hq : quiet _ _ |- _ => destruct Hq as (_&_&_&?) end);
  try (apply Forall_singleton; cbn; lia).

(** One call, handled at [t]. *)
Lemma handle_routed call s :
  inbox_ok (ws_channelInbox s) → inbox_ok (ws_directInbox s) →
  swp (handle call) (λ _ s', ∃ t, routed s s' [(call, t)]) s.
Proof.
  intros [Hc1 Hc2] [Hd1 Hd2].
  assert (∃ w, ws_conn s = set_world w (ws_conn s) ∧ quiet (k_world (ws_conn s)) w) as Hsame.
  { exists (k_world (ws_conn s)). split; [by destruct (ws_conn s)|done]. }
  assert (∀ w, quiet (k_world (ws_conn s)) w → ∃ w', set_world w (ws_conn s) = set_world w' (ws_conn s) ∧
    quiet (k_world (ws_conn s)) w') as Hread by eauto.
  destruct call as [h n|n v|n reason|h n e|h n|e|st]; cbn [handle].
  - destruct h; swps; try (routed_at (clockNow (k_world (ws_conn s))); done).
    + unfold onActorUpdate. swp_step. swp_step. case_decide; swp_step; apply clock_swp; intros w Hw; swps; routed_at (clockNow w);
        rewrite ?decide_True, ?decide_False by done; done.
    + unfold onSingleActorMessage. swp_step. apply clock_swp. intros w Hw. swps.
      destruct (inboxPush_spec (ws_directInbox s) (directInboxMessage n (clockNow w))) as (b & E & _); [lia|lia|].
      eapply swp_lift; [exact E|]. cbn. swps. routed_at (clockNow w). by rewrite E.
  - unfold onVoxelUpdate. swp_step. apply clock_swp. intros w Hw. swps; routed_at (clockNow w); by flags.
  - unfold onActorLeft. swp_step. swp_step. case_decide; swps; routed_at (clockNow (k_world (ws_conn s)));
      rewrite ?decide_True, ?decide_False by done; try flags; by rewrite ?app_nil_r.
  - unfold onEvent. swp_step. apply clock_swp. intros w Hw. swp_step. swp_step. unfold routerIngest.
    cbn [ws_events on_conn]. change (mkRouterEvent _ _ _ _ _ _ _) with (eventOf n e (isServer h) (clockNow w)).
    destruct (er_handlers (ws_events s) !! _) as [f|] eqn:E; cbn [mbind option_bind]; swps; routed_at (clockNow w);
      cbn in E; try (rewrite E; cbn; by rewrite ?app_nil_r).
  - destruct h; swps; try (routed_at (clockNow (k_world (ws_conn s))); done).
    unfold onChannelMessage. swp_step. apply clock_swp. intros w Hw. swps.
    destruct (inboxPush_spec (ws_channelInbox s) (channelInboxMessage n (clockNow w))) as (b & E & _); [lia|lia|].
    eapply swp_lift; [exact E|]. cbn. swps. routed_at (clockNow w). by rewrite E.
  - unfold onGenericError. swp_step. apply clock_swp. intros w Hw. swps. routed_at (clockNow w).
  - swps. routed_at (clockNow (k_world (ws_conn s))).
Qed.

Lemma inboxRun_ok ops b b' out : inbox_ok b → inboxRun b ops = Some (b', out) → inbox_ok b'.
Proof.
  intros [Hm Hl] E. destruct (inboxRun_spec ops b) as (b1&out1&E1&Em&Hl1&_); [lia|done|].
  rewrite E in E1. injection E1 as <- _. split; [congruence|lia].
Qed.

Lemma hear_ok ops self g :
  local_inv self g → local_inv (foldl hear self ops) g ∧ la_uuid (foldl hear self ops) = la_uuid self.
Proof.
  revert self. induction ops as [|op ops IH]; intros self Hi; [done|]. cbn [foldl].
  assert (local_inv (hear self op) g ∧ la_uuid (hear self op) = la_uuid self) as [Hi' Eu].
  { destruct op as [| | | | | | |e t]; try done. cbn [hear]. split; [|by unfold recordError; case_decide].
    by apply recordError_inv. }
  destruct (IH _ Hi') as [? ?]. split; [done|congruence].
Qed.

Lemma merge_ok ops chunks :
  ChunkStore.store_ok chunks → ChunkStore.store_ok (foldl merge chunks ops) ∧
  cs_options (foldl merge chunks ops) = cs_options chunks.
Proof.
  revert chunks. induction ops as [|op ops IH]; intros chunks Hi; [done|]. cbn [foldl].
  assert (ChunkStore.store_ok (merge chunks op) ∧ cs_options (merge chunks op) = cs_options chunks) as [Hi' Eo].
  { destruct op; cbn [merge]; try done. split; [by apply ingestVoxel_ok|apply ingestVoxel_options]. }
  destruct (IH _ Hi') as [? ?]. split; [done|congruence].
Qed.

Lemma gameShare_hosts config uuid on l : hostsTold (flat_map (gameShare config uuid on) l) = [].
Proof.
  unfold hostsTold. induction l as [|ct l IH]; [done|]. cbn [flat_map]. rewrite omap_app, IH, app_nil_r.
  unfold gameShare. destruct ct.1 as [[]|n v|n r|h n e|[]|e|st]; try done; by repeat (case_match || case_decide).
Qed.

Lemma changes_snoc before hosts h : changes before hosts → h ≠ lastHost before hosts → changes before (hosts ++ [h]).
Proof.
  revert before. induction hosts as [|h' hosts IH]; intros before; [done|]. cbn [changes app]. intros [? Hc] Hn.
  split; [done|]. by apply IH.
Qed.

Lemma hosts_snoc told known h : hosts_ok told known → h ≠ known → hosts_ok (told ++ [THost h]) h.
Proof.
  intros [Hc <-] Hn. unfold hosts_ok, hostsTold, lastHost in *. rewrite omap_app, foldl_app.
  split; [by apply changes_snoc|done].
Qed.

Lemma routed_ok cc sc s s' l : session_ok cc sc s → routed s s' l → session_ok cc sc s'.
Proof.
  intros [] [(w&Ec&Hq) _ Er E1 E2 E3 E4 E5 E6 E7 E8]. unfold uninvolved in Er. injection Er as Ed Ecf Eh Eu _ Ehu _ _.
  destruct (storeRun_ok (flat_map (actorsShare (ws_uuid s)) l) _ se_actors0) as [Ha Eha]. rewrite <- E2 in Ha, Eha.
  injection Eha as Eha _. destruct (merge_ok (flat_map chunksShare l) _ se_chunks0) as [Hc Ehc]. rewrite <- E3 in Hc, Ehc.
  destruct se_self0 as [g Hg]. destruct (hear_ok (flat_map (selfShare (ws_uuid s)) l) _ g Hg) as [Hs Ehs].
  rewrite <- E1 in Hs, Ehs. apply inboxRun_ok in E6; [|done]. apply inboxRun_ok in E7; [|done].
  split; rewrite ?Ec, ?Ecf, ?Eu, ?Ehs, ?Eha, ?Ehc, ?Ehu; try done; eauto; [by eapply reach_quiet|].
  unfold hosts_ok, hostsTold in *. rewrite E8, omap_app. fold (hostsTold (flat_map (gameShare (ws_config s) (ws_uuid s)
    (er_handlers (ws_events s))) l)). by rewrite gameShare_hosts, app_nil_r.
Qed.

Lemma handleAll_routed cc sc calls s :
  session_ok cc sc s → swp (handleAll calls) (λ _ s', ∃ l, l.*1 = calls ∧ routed s s' l) s.
Proof.
  revert s. induction calls as [|call calls IH]; intros s Hs; cbn [handleAll]; swp_step.
  - exists []. split; [done|apply routed_nil].
  - eapply swp_mono; [apply handle_routed; [apply Hs..]|]. intros _ s1 [t Hr].
    eapply swp_mono; [eapply IH; by eapply routed_ok|]. intros _ s2 (l&<-&Hl).
    exists ((call, t) :: l). split; [done|]. by eapply (routed_app _ _ _ [_]).
Qed.

Lemma session_ok_conn cc sc s c :
  session_ok cc sc s → reachable crypto cc c → k_handlers c = k_handlers (ws_conn s) →
  session_ok cc sc (on_conn (λ _, c) s).
Proof. intros [] Hr Hh. split; cbn; try done; [congruence]. Qed.

(** A poll takes the oldest events, and every call they cause goes where it belongs. *)
Lemma pollSession_swp cc sc s k q ms n :
  session_ok cc sc s → ok_at crypto (ws_conn s) k q ms →
  swp (pollSession n) (λ _ s', session_ok cc sc s' ∧ ∃ c l,
    ok_at crypto c k (drop n q) ms ∧ outgoing c = outgoing (ws_conn s) ∧
    l.*1 = concat (callsOf (installHandlers sc) <$> take n q) ∧ routed (on_conn (λ _, c) s) s' l) s.
Proof.
  intros Hs Hok. unfold pollSession. swp_step. apply swp_conn.
  destruct (wp_elim _ _ _ (poll_ok crypto _ _ _ _ n Hok)) as (c&[calls m]&E&Hok'&->&_&_&Ef).
  injection Ef as _ Eh _ _ _ _ _. pose proof (poll_outgoing _ _ _ _ _ _ _ _ (oa_at _ _ _ _ _ Hok) E) as Eo.
  assert (reachable crypto cc c) as Hr.
  { eapply (reach_op crypto cc (ws_conn s) (OPoll n)); [apply Hs|done|]. cbn. unfold calling, mbind, M_bind. by rewrite E. }
  unfold wp. rewrite E. cbv beta iota.
  pose proof (session_ok_conn _ _ _ _ Hs Hr Eh) as Hs1.
  eapply swp_mono; [by eapply handleAll_routed|]. intros _ s2 (l&El&Hl). split; [by eapply routed_ok|].
  exists c, l. split; [done|]. split; [done|]. by rewrite El, (se_handlers _ _ _ Hs).
Qed.

(** ** The local actor's calls *)

(** The connection after sends of the stores. *)
Definition live cc sc (c : option (Conn W)) : Prop :=
  ∃ c0, c = Some c0 ∧ reachable crypto cc c0 ∧ k_handlers c0 = installHandlers sc.

Lemma live_step cc sc (snd : Send) (m : M W (Result Z)) c c' r :
  runSend crypto snd = quietly m → length (sendUuid snd) = kUuidSize → live cc sc c → sendThrough m c = (c', r) →
  live cc sc c'.
Proof.
  intros Hm Hu (c0&->&Hr&Hh) E. destruct (sendThrough_reachable crypto cc c0 snd m Hr Hm Hu) as (c1&r1&E1&Hr1&Hh1).
  unfold sendThrough in E. cbn [mbind option_bind] in E. rewrite E1 in E. injection E as <- <-. exists c1. split_and!; [done..|congruence].
Qed.

Section Live.
Context (cc : Config) (sc : SessionConfig) (u : bytes) (Hu : length u = kUuidSize).

Lemma live_update c p c' r : live cc sc c → ss_uuid p = u → sendActorUpdate c p = (c', r) → live cc sc c'.
Proof. intros Hl Ep. by apply (live_step _ _ (SActorUpdate p)); [|cbn; rewrite Ep|]. Qed.

Lemma live_beat c chunk c' r : live cc sc c → sendHeartbeat c chunk u = (c', r) → live cc sc c'.
Proof. intros Hl. by apply (live_step _ _ (SHeartbeat chunk u)). Qed.

Lemma live_voxel c chunk v d c' r : live cc sc c → sendVoxelUpdate c chunk u v d = (c', r) → live cc sc c'.
Proof.
  intros Hl. by apply (live_step _ _ (SVoxelUpdate chunk u (vx v) (vy v) (vz v) (v_voxelType v) (v_state v) d DecayRate_None)).
Qed.
End Live.

(** A call of the local actor's store that is one of its operations. *)
Lemma onSelf_swp {A} cc sc s (m : LocalActorStore → option (Conn W) → LocalActorStore * option (Conn W) * A) :
  session_ok cc sc s →
  (∀ self' c' a g, m (ws_self s) (Some (ws_conn s)) = (self', c', a) → local_inv (ws_self s) g →
     live cc sc c' ∧ la_uuid self' = ws_uuid s ∧ ∃ g', local_inv self' g') →
  swp (onSelf m) (λ a s', session_ok cc sc s' ∧ ∃ self' c',
    m (ws_self s) (Some (ws_conn s)) = (self', Some c', a) ∧ s' = on_self (λ _, self') (on_conn (λ _, c') s)) s.
Proof.
  intros Hs Hm. destruct (se_self _ _ _ Hs) as [g Hg]. unfold onSelf. swps.
  destruct (m (ws_self s) (Some (ws_conn s))) as [[self' c'] a] eqn:E.
  destruct (Hm _ _ _ g eq_refl Hg) as ((c0&->&Hr&Hh)&Eu&Hg'). swp_step. eapply swp_lift; [done|]. swps.
  split; [|by exists self', c0]. destruct Hs. split; cbn; try done.
Qed.

(** The operations of the local actor's store that send. *)
Lemma sendNow_live cc sc s self g now reason self' c' st :
  session_ok cc sc s → la_uuid self = ws_uuid s → blob_ok (la_state self) →
  (la_dirty self = false → lastLeft g = Some (poseOf self) ∨ (lastLeft g = None ∧ la_joined self = false)) →
  sendNow self (Some (ws_conn s)) now reason = (self', c', st) →
  live cc sc c' ∧ la_uuid self' = ws_uuid s ∧ ∃ g', local_inv self' g'.
Proof.
  intros Hs Hu Hb Hd E.
  destruct (sendNow_conn (live cc sc) (ws_uuid s) (live_update cc sc _ (se_uuid _ _ _ Hs)) _ _ _ _ _ _ _ Hu
    ltac:(exists (ws_conn s); split; [done|]; split; [apply Hs|apply Hs]) E) as [Hl Hu'].
  split; [done|]. split; [done|]. eapply sendNow_inv in E; [|exact Hb|exact Hd]. destruct E as (r&_&?). by eexists.
Qed.

Lemma localTick_live cc sc s now self' c' g :
  session_ok cc sc s → local_inv (ws_self s) g → localTick (ws_self s) (Some (ws_conn s)) now = (self', c') →
  live cc sc c' ∧ la_uuid self' = ws_uuid s ∧ ∃ g', local_inv self' g'.
Proof.
  intros Hs Hg E.
  destruct (localTick_conn (live cc sc) (ws_uuid s) (live_update cc sc _ (se_uuid _ _ _ Hs))
    (live_beat cc sc _ (se_uuid _ _ _ Hs)) _ _ _ _ _ (se_selfUuid _ _ _ Hs)
    ltac:(exists (ws_conn s); split; [done|]; split; apply Hs) E) as [Hl Hu].
  split; [done|]. split; [done|]. destruct (localStep_inv _ _ _ (LTick now) _ _ Hg E) as (new&_&?). by eexists.
Qed.

(** The error store after [presence]: the last sequence is the actor's. *)
Definition presenceErrors (errors : ErrorStore) (self : LocalActorStore) : ErrorStore :=
  match la_lastSequence self with
  | Some q => recordSend errors q KActorUpdate (Some (la_uuid self))
  | None => errors
  end.

Lemma presence_swp cc sc s now :
  session_ok cc sc s →
  swp (presence crypto now) (λ _ s', session_ok cc sc s' ∧ ∃ self' c',
    localTick (ws_self s) (Some (ws_conn s)) now = (self', Some c') ∧
    s' = on_errors (λ errors, presenceErrors errors self') (on_self (λ _, self') (on_conn (λ _, c') s))) s.
Proof.
  intros Hs. unfold presence. swp_step. eapply swp_mono.
  { eapply onSelf_swp; [done|]. intros self' c' a g. destruct localTick as [self1 c1] eqn:E. intros [= <- <- _] Hg.
    by eapply localTick_live. }
  intros [] s1 (Hs1&self'&c'&E&->). injection E as E.
  swp_step. swp_step. unfold presenceErrors. cbn.
  assert (∀ f, session_ok cc sc (on_errors f (on_self (λ _, self') (on_conn (λ _, c') s)))) as Hend by (by destruct Hs1).
  destruct (la_lastSequence self') as [q|] eqn:Eq; swps; (split; [|exists self', c'; split; [done|]; rewrite ?Eq; done]); [apply Hend|done].
Qed.

(** What no part of a tick after the presence loop and before the flush touches. *)
Definition settled s :=
  (ws_conn s, ws_self s, ws_errors s, (ws_uuid s, ws_config s), ws_events s, (ws_channelInbox s, ws_directInbox s)).

(** The game hears of a new host, and only of one that differs from the host known before. *)
Definition hosted s s' : Prop :=
  (ws_hostUserId s' = ws_hostUserId s ∧ ws_told s' = ws_told s) ∨
  (ws_hostUserId s' ≠ ws_hostUserId s ∧ ws_told s' = ws_told s ++ [THost (ws_hostUserId s')]).

Definition reaped s (now : Z) : RemoteActorStore :=
  if sf_reapIntervalMs (ws_config s) <=? now - ws_lastReapMs s then storeReap (ws_actors s) now else ws_actors s.

Lemma reapStale_swp cc sc s now :
  session_ok cc sc s →
  swp (reapStale now) (λ _ s', session_ok cc sc s' ∧ settled s' = settled s ∧ ws_actors s' = reaped s now ∧
    (ws_chunks s', ws_durable s', ws_hostUserId s', ws_told s') = (ws_chunks s, ws_durable s, ws_hostUserId s, ws_told s)) s.
Proof.
  intros Hs. unfold reapStale, reaped. swps; match goal with E : (_ <=? _) = _ |- _ => rewrite E end; [|by split].
  split; [|done]. destruct Hs. destruct (storeStep_ok (ws_actors s) (StReap now)) as [Ha Eu]; [done|].
  cbn in Ha, Eu. split; cbn; done.
Qed.

Lemma writeBack_swp cc sc s now :
  session_ok cc sc s → co_writeBackAttempts (sf_chunks sc) ≤ 65 →
  swp (writeBack order now) (λ _ s', session_ok cc sc s' ∧ settled s' = settled s ∧
    (∃ r, chunkTick order (ws_chunks s) (ws_durable s) now = Some (ws_chunks s', ws_durable s', r)) ∧
    (ws_actors s', ws_hostUserId s', ws_told s') = (ws_actors s, ws_hostUserId s, ws_told s)) s.
Proof.
  intros Hs Hmax. unfold writeBack. swps. destruct Hs.
  destruct (chunkTick_spec order (ws_chunks s) (ws_durable s) now) as (ch & d & r & E & Hok & Eo & _);
    [done|by rewrite se_options0|].
  eapply swp_lift; [exact E|]. cbn. swps. split; [|by split; [|split; [exists r|]]]. split; cbn; try done. congruence.
Qed.

Lemma hostBeat_swp cc sc s now :
  session_ok cc sc s →
  swp (hostBeat now) (λ _ s', session_ok cc sc s' ∧ settled s' = settled s ∧ hosted s s' ∧
    (ws_actors s', ws_chunks s') = (ws_actors s, ws_chunks s)) s.
Proof.
  intros Hs. unfold hostBeat. swps; [|split; [done|]; split; [done|]; split; [by left|done]].
  destruct (heartbeat _ _) as [d beat].
  swps; [|split; [by destruct Hs|]; split; [done|]; split; [by left|done]..].
  match goal with E : bool_decide _ = true |- _ => apply bool_decide_eq_true in E; cbn in E end.
  split; [|split; [done|]; split; [by right|done]]. destruct Hs. split; cbn; try done. by eapply hosts_snoc.
Qed.

Lemma pollBound_all s k q ms : ok_at crypto (ws_conn s) k q ms → (length q < pollBound s)%nat.
Proof.
  intros [Hc _ _ _ _]. destruct (conn_at_room crypto _ _ _ _ Hc) as [Hl _].
  destruct (ca_ring crypto _ _ _ _ Hc) as (a&N&(_&_&Hs&_)&_&_). unfold pollBound, room in *. rewrite Hs. lia.
Qed.

(** The middle of a tick: the session after the poll [s1], the connection after the presence loop
    [c2], the status of the flush. *)
Record ticked cc sc s s' (now : Z) (l : list (Call * Z)) s1 (c2 : Conn W) (st : Status) (q : list Event) : Prop := {
  tk_calls : l.*1 = concat (callsOf (installHandlers sc) <$> q);
  tk_poll : ∃ c1 w, quiet (k_world (ws_conn s)) w ∧ now = clockNow w ∧
    outgoing c1 = outgoing (set_world w (ws_conn s)) ∧ routed (on_conn (λ _, c1) s) s1 l;
  tk_drained : ∃ k ms, ok_at crypto (ws_conn s1) k [] ms ∧ ok_at crypto (ws_conn s) k q ms;
  tk_mid : session_ok cc sc s1;
  tk_presence : localTick (ws_self s1) (Some (ws_conn s1)) now = (ws_self s', Some c2);
  tk_errors : ws_errors s' = presenceErrors (ws_errors s1) (ws_self s');
  tk_actors : ws_actors s' = reaped s1 now;
  tk_chunks : ∃ d r, chunkTick order (ws_chunks s1) (ws_durable s1) now = Some (ws_chunks s', d, r);
  tk_rest : (ws_events s', ws_channelInbox s', ws_directInbox s') = (ws_events s1, ws_channelInbox s1, ws_directInbox s1);
  tk_hosted : hosted s1 s';
  tk_flush : flushSends c2 = Some (ws_conn s', st);
}.

Lemma tick_swp cc sc s k q ms :
  session_ok cc sc s → ok_at crypto (ws_conn s) k q ms → co_writeBackAttempts (sf_chunks sc) ≤ 65 →
  swp (tick crypto order) (λ _ s', session_ok cc sc s' ∧ ∃ now l s1 c2 st, ticked cc sc s s' now l s1 c2 st q) s.
Proof.
  intros Hs Hok Hmax. unfold tick. swp_step. apply clock_swp. intros w Hw. swp_step. swp_step. swp_step.
  set (s0 := on_conn (set_world w) s). change (clockNow w) with (clockNow (k_world (ws_conn s0))).
  assert (session_ok cc sc s0) as Hs0 by (apply session_ok_conn; [done|eapply reach_quiet; [apply Hs|done]|done]).
  assert (ok_at crypto (ws_conn s0) k q ms) as Hok0 by (by apply ok_at_quiet).
  eapply swp_mono; [by eapply pollSession_swp|]. intros _ s1 (Hs1&c1&l&Hok1&Eo&El&Hl).
  pose proof (pollBound_all _ _ _ _ Hok0) as Hb. rewrite take_ge in El by lia. rewrite drop_ge in Hok1 by lia.
  pose proof (rt_conn _ _ _ Hl) as (w1&Ec1&Hq1). cbn [ws_conn on_conn] in Ec1, Hq1.
  swp_step. eapply swp_mono; [by eapply presence_swp|]. intros _ s2 (Hs2&self'&c2&Ep&E2).
  swp_step. eapply swp_mono; [by eapply reapStale_swp|]. intros _ s3 (Hs3&B3&Ea3&R3).
  swp_step. eapply swp_mono; [by eapply writeBack_swp|]. intros _ s4 (Hs4&B4&[r Ech4]&R4).
  swp_step. eapply swp_mono; [by eapply hostBeat_swp|]. intros _ s5 (Hs5&B5&Hh5&R5).
  swp_step. apply swp_conn.
  assert (settled s5 = settled s2) as B by congruence.
  assert ((ws_chunks s3, ws_durable s3, ws_hostUserId s4, ws_told s4) = (ws_chunks s1, ws_durable s1, ws_hostUserId s1, ws_told s1)) as R.
  { rewrite E2 in R3. cbn in R3. congruence. }
  injection R as Rc Rd Rh Rt. unfold settled in B. rewrite E2 in B. cbn in B. injection B as Ec5 Es5 Ee5 _ _ Ev5 Ei5 Ed5.
  destruct (reachable_ok _ _ _ (se_conn _ _ _ Hs5)) as (_&k5&q5&ms5&Hok5).
  destruct (wp_elim _ _ _ (runOp_ran crypto OFlushSends _ _ _ _ Hok5 I eq_refl eq_refl)) as (c6&calls&E6&->&Hran).
  pose proof E6 as E6'. cbn in E6'. unfold silently, mbind, M_bind in E6'.
  destruct (flushSends (ws_conn s5)) as [[c6' st]|] eqn:Ef; [|done]. injection E6' as <-.
  unfold wp. rewrite Ef. swp_step. split.
  - apply session_ok_conn; [done|by eapply (reach_op crypto cc _ OFlushSends); [apply Hs5| |]|].
    pose proof (rn_fixed _ _ _ _ Hran) as Hf. unfold fixed in Hf. congruence.
  - exists (clockNow (k_world (ws_conn s0))), l, s1, c2, st. injection R5 as Ra5 Rch5. injection R4 as Ra4 _ _.
    split; cbn; try congruence.
    + by exists c1, w.
    + exists k, ms. split; [rewrite Ec1; by apply ok_at_quiet|done].
    + by rewrite Es5.
    + rewrite Ra5, Ra4, Ea3, E2. done.
    + exists (ws_durable s4), r. rewrite Rch5, <- Rc, <- Rd. exact Ech4.
    + unfold hosted in *. by rewrite Rh, Rt in Hh5.
Qed.

(** ** Every operation *)

Lemma connOp_swp {A} cc sc s (op : Op) (m : M W A) :
  session_ok cc sc s → ConnectionSpec.op_ok crypto op (ws_conn s) → dispatches op = false → sets_handlers op = false →
  runOp crypto op = silently m → swp (onConn m) (λ _ s', session_ok cc sc s') s.
Proof.
  intros Hs Hop Hd Hh Em. apply swp_conn. destruct (reachable_ok _ _ _ (se_conn _ _ _ Hs)) as (_&k&q&ms&Hok).
  destruct (wp_elim _ _ _ (runOp_ran crypto op _ _ _ _ Hok Hop Hd Hh)) as (c'&calls&E&->&Hran).
  pose proof E as E'. rewrite Em in E'. unfold silently, mbind, M_bind in E'.
  destruct (m (ws_conn s)) as [[c1 a]|] eqn:E1; [|done]. injection E' as <-. unfold wp. rewrite E1.
  apply session_ok_conn; [done|by eapply (reach_op crypto); [apply Hs|exact Hop|exact E]|].
  pose proof (rn_fixed _ _ _ _ Hran) as Hf. unfold fixed in Hf. congruence.
Qed.

Lemma runOp_swp cc sc s (op : Op) :
  session_ok cc sc s → ConnectionSpec.op_ok crypto op (ws_conn s) → dispatches op = false → sets_handlers op = false →
  swp (onConn (runOp crypto op)) (λ _ s', session_ok cc sc s') s.
Proof.
  intros Hs Hop Hd Hh. apply swp_conn. destruct (reachable_ok _ _ _ (se_conn _ _ _ Hs)) as (_&k&q&ms&Hok).
  destruct (wp_elim _ _ _ (runOp_ran crypto op _ _ _ _ Hok Hop Hd Hh)) as (c'&calls&E&->&Hran). unfold wp. rewrite E.
  apply session_ok_conn; [done|by eapply (reach_op crypto); [apply Hs| |]|].
  pose proof (rn_fixed _ _ _ _ Hran) as Hf. unfold fixed in Hf. congruence.
Qed.

Lemma runChunkOp_live cc sc s op ch c' d :
  session_ok cc sc s → match op with OpSet _ _ _ _ _ _ u _ _ => length u = kUuidSize | _ => True end →
  runChunkOp order (ws_chunks s, Some (ws_conn s), ws_durable s) op = Some (ch, c', d) → live cc sc c'.
Proof.
  intros Hs Hu E. assert (live cc sc (Some (ws_conn s))) as Hl by (exists (ws_conn s); split; [done|]; split; apply Hs).
  destruct op as [k|k v|k x y z t st u b now|n v now|center dist now|now| |center dist]; cbn [runChunkOp] in E.
  - by injection E as _ <- _.
  - by injection E as _ <- _.
  - destruct setVoxel as [[ch1 c1] r] eqn:Ev. injection E as _ <- _.
    eapply (setVoxel_conn (live cc sc) u); [|exact Hl|exact Ev]. intros c0 chunk v dd c2 r2. by apply live_voxel.
  - by injection E as _ <- _.
  - destruct ensureAround as [[? ?] ?]. by injection E as _ <- _.
  - destruct chunkTick as [[[? ?] ?]|]; [|done]. by injection E as _ <- _.
  - destruct flush as [[[? ?] ?]|]; [|done]. by injection E as _ <- _.
  - destruct pruneBeyond as [[[? ?] ?]|]; [|done]. by injection E as _ <- _.
Qed.

Context (Horder : visits_chunks order).

Lemma onChunks_swp cc sc s op :
  session_ok cc sc s → co_writeBackAttempts (sf_chunks sc) ≤ 65 → session_op_ok (SChunk op) s →
  swp (onChunks op) (λ _ s', session_ok cc sc s') s.
Proof.
  intros Hs Hmax (Hop&Hn&Hu). unfold onChunks. swps.
  destruct (runChunkOp_spec order Horder (ws_chunks s) (Some (ws_conn s)) (ws_durable s) op) as [Hk Hd];
    [apply Hs|by rewrite (se_options _ _ _ Hs)|done|].
  destruct (Hd Hn) as [[[ch c'] d] E]. destruct (Hk _ E) as [Hok Eo]. cbn in Hok, Eo.
  destruct (runChunkOp_live _ _ _ _ _ _ _ Hs Hu E) as (c0&->&Hr&Hh).
  eapply swp_lift; [exact E|]. cbv beta iota. swp_step. eapply swp_lift; [done|]. cbv beta. swps. destruct Hs. split; cbn; try done. congruence.
Qed.

Lemma setState_ok self state g :
  local_inv self g → local_inv (setState self state) g ∧ la_uuid (setState self state) = la_uuid self.
Proof.
  intros Hi. split; [by apply setState_inv|unfold setState; by case_match].
Qed.

Lemma setChunk_ok self chunk g :
  local_inv self g → local_inv (setChunk self chunk) g ∧ la_uuid (setChunk self chunk) = la_uuid self.
Proof.
  intros Hi. split; [by apply setChunk_inv|unfold setChunk; by case_bool_decide].
Qed.

Lemma session_ok_self cc sc s f :
  session_ok cc sc s → (∀ g, local_inv (ws_self s) g → local_inv (f (ws_self s)) g ∧ la_uuid (f (ws_self s)) = la_uuid (ws_self s)) →
  session_ok cc sc (on_self f s).
Proof.
  intros [] Hf. destruct se_self0 as [g Hg]. destruct (Hf g Hg) as [? Eu]. split; cbn; try done; [congruence|by exists g].
Qed.

Lemma session_ok_actors cc sc s op : session_ok cc sc s → session_ok cc sc (on_actors (λ a, storeStep a op) s).
Proof.
  intros []. destruct (storeStep_ok (ws_actors s) op se_actors0) as [Ha Eu]. injection Eu as Eu _. split; cbn; try done. congruence.
Qed.

Lemma inbox_ok_drain b n : inbox_ok b → inbox_ok (inboxDrain b n).1.
Proof. intros [Hm Hl]. split; cbn; [done|]. rewrite length_drop. lia. Qed.

Lemma runSession_swp cc sc s op :
  session_ok cc sc s → co_writeBackAttempts (sf_chunks sc) ≤ 65 → session_op_ok op s →
  swp (runSession op) (λ _ s', session_ok cc sc s') s.
Proof.
  intros Hs Hmax Hop. pose proof (se_conn _ _ _ Hs) as Hr. destruct (reachable_ok _ _ _ Hr) as (_&k&q&ms&Hok).
  destruct op as [| |n|op| |chunk st|chunk| |chunk|st|op|name o| |q' kd a| |t h|n|n| |]; cbn [runSession].
  - eapply swp_mono; [by eapply tick_swp|]. by intros _ s' [? _].
  - unfold dispose. by eapply (connOp_swp _ _ _ ODisconnect).
  - eapply swp_mono; [by eapply pollSession_swp|]. by intros _ s' [? _].
  - destruct Hop as (?&?&?). swp_step. eapply swp_mono; [by eapply runOp_swp|]. intros. by swps.
  - swp_step. apply clock_swp. intros w Hw. swps. apply session_ok_conn; [done|by eapply reach_quiet|done].
  - swp_step. unfold joinWorld. eapply swp_mono; [eapply onSelf_swp; [done|]|].
    + intros self' c' a g E (Hb&_). eapply sendNow_live in E; [exact E|done|apply Hs|by apply blobAssign_ok|done].
      Unshelve. exact [].
    + intros a s' [? _]. by swps.
  - swp_step. eapply swp_mono; [eapply onSelf_swp; [done|]|].
    + intros self' c' a g E Hg. destruct (setChunk_ok _ chunk g Hg) as [(Hb&Hd&_) Eu].
      eapply sendNow_live in E; [exact E|done|by rewrite Eu; apply Hs|done|exact Hd].
    + intros a s' [? _]. by swps.
  - swp_step. eapply swp_mono; [eapply onSelf_swp; [done|]|].
    + intros self' c' a g E (Hb&Hd&_). eapply sendNow_live in E; [exact E|done|apply Hs|done|exact Hd].
    + intros a s' [? _]. by swps.
  - swps. apply session_ok_self; [done|]. intros g. apply setChunk_ok.
  - swps. apply session_ok_self; [done|]. intros g. apply setState_ok.
  - by apply onChunks_swp.
  - swps. by apply (session_ok_actors _ _ _ (StLane name o)).
  - swps. by apply (session_ok_actors _ _ _ StClear).
  - swps. by destruct Hs.
  - swps. by destruct Hs.
  - swps. by destruct Hs.
  - swps. destruct Hs. split; cbn; try done. by apply inbox_ok_drain.
  - swps. destruct Hs. split; cbn; try done. by apply inbox_ok_drain.
  - swps. destruct Hs. split; cbn; try done. split; cbn; [apply se_channel0|lia].
  - swps. destruct Hs. split; cbn; try done. split; cbn; [apply se_direct0|lia].
Qed.

(** The random source keeps its documented contract. *)
Context (Hrandom : ∀ raw, randomBytes crypto 16 = Some raw → length raw = 16%nat ∧ Forall is_byte raw).

Lemma makeSession_ok cc sc c d hasChunks hasHost s :
  reachable crypto cc c → makeSession crypto c d hasChunks hasHost sc = Some s → session_ok cc sc s.
Proof.
  intros Hr. unfold makeSession. set (u := if decide (length (sf_actorUuid sc) = 32%nat) then _ else _).
  assert (∃ uuid, u = Some uuid ∧ length uuid = kUuidSize) as (uuid&->&Hu).
  { subst u. case_decide as Hl.
    - eexists. split; [done|]. unfold actorUuidFromString. rewrite decide_False by lia. done.
    - destruct (actorUuid_generation crypto Hrandom) as (r&g&_&->&Hg&_). by exists g. }
  cbn. intros [= <-]. split; cbn; try done.
  - by eapply (reach_op crypto cc c (OSetHandlers (installHandlers sc))).
  - exists []. apply makeLocalActorStore_inv.
  - apply makeRemoteActorStore_ok.
  - split; cbn; [done|lia].
  - split; cbn; [done|lia].
Qed.

Lemma reachableSession_ok cc sc s :
  co_writeBackAttempts (sf_chunks sc) ≤ 65 → reachableSession cc sc s → session_ok cc sc s.
Proof.
  intros Hmax. induction 1 as [c d b h s Hr Hm|s op s' _ IH Hop E]; [by eapply makeSession_ok|].
  destruct (runSession_swp _ _ _ _ IH Hmax Hop) as (s1&a&E1&Hs1). rewrite E in E1. by injection E1 as <- <-.
Qed.

(** C9. Every operation of a session is defined, in every state the others lead to: no handler, tick or
    call of a store is undefined behaviour, under these conditions. The chunk store gives up
    after at most 65 write-back attempts (a larger limit shifts the backoff by 64 bits); an
    inserted grid has its 4096 voxels and a prune is within 63 bits of the chunks held (its
    differences overflow otherwise); identifiers are 32 octets; [connect] is not called while the
    net thread of a failed session is not joined; the receives have fuel for what is still to
    arrive; and the waits and [setHandlers] of the connection are not used beside the session.
    The parts keep what they promise alone: the connection is one its own public operations
    reach, so its guarantees hold inside the session; the player's own actor is in no lane; the
    chunk store and the inboxes stay well formed. *)
Theorem session_operations_total cc sc s op :
  co_writeBackAttempts (sf_chunks sc) ≤ 65 → reachableSession cc sc s → session_op_ok op s →
  (∃ s', runSession op s = Some (s', tt)) ∧
  reachable crypto cc (ws_conn s) ∧ k_handlers (ws_conn s) = installHandlers sc ∧
  (∀ l, has_lane (ws_actors s) l → ln_actors l !! ws_uuid s = None) ∧
  ChunkStore.store_ok (ws_chunks s) ∧
  (length (ib_messages (ws_channelInbox s)) ≤ 256)%nat ∧ (length (ib_messages (ws_directInbox s)) ≤ 256)%nat.
Proof.
  intros Hmax Hr Hop. pose proof (reachableSession_ok _ _ _ Hmax Hr) as Hs.
  destruct (runSession_swp _ _ _ _ Hs Hmax Hop) as (s'&[]&E&_). destruct Hs as [? ? _ _ _ Eu _ [_ Hl] ? _ [Em ?] [Em' ?]].
  split; [by exists s'|]. split; [done|]. split; [done|]. split; [|split; [done|lia]].
  intros l Hin. rewrite <- Eu. by apply Hl.
Qed.

(** The hosts the game was told are the changes, each once and in order, and the last of them is the
    host the session knows. *)
Theorem session_hosts cc sc s :
  co_writeBackAttempts (sf_chunks sc) ≤ 65 → reachableSession cc sc s →
  changes [] (hostsTold (ws_told s)) ∧ lastHost [] (hostsTold (ws_told s)) = ws_hostUserId s.
Proof. intros Hmax Hr. by destruct (reachableSession_ok _ _ _ Hmax Hr) as [_ _ _ _ _ _ _ _ _ _ _ _ Hh]. Qed.

(** C10. A tick drains the connection and routes: every event the ring held is dispatched, and each store
    is given its own share of the calls, in order, and nothing else — own updates to the local
    actor, others' to the lanes, voxels to the chunks, errors to the actor and the log, events to
    the router, messages to the two inboxes, the rest to the game. Then the presence loop runs,
    the stale actors are reaped when due, at most one chunk is written back, and the game hears of
    a new host. *)
Theorem tick_routes cc sc s s' :
  co_writeBackAttempts (sf_chunks sc) ≤ 65 → reachableSession cc sc s → tick crypto order s = Some (s', tt) →
  ∃ k q l now, ring_rep (k_ring (ws_conn s)) k q ∧ l.*1 = concat (callsOf (installHandlers sc) <$> q) ∧
    clockNow (k_world (ws_conn s)) ≤ now ∧ Forall (λ ct, now ≤ ct.2) l ∧
    (∃ c1 c2, localTick (foldl hear (ws_self s) (flat_map (selfShare (ws_uuid s)) l)) (Some c1) now = (ws_self s', c2) ∧
       ring_rep (k_ring c1) k []) ∧
    ws_actors s' = (let actors := foldl storeStep (ws_actors s) (flat_map (actorsShare (ws_uuid s)) l) in
      if sf_reapIntervalMs sc <=? now - ws_lastReapMs s then storeReap actors now else actors) ∧
    (∃ d r, chunkTick order (foldl merge (ws_chunks s) (flat_map chunksShare l)) (ws_durable s) now =
       Some (ws_chunks s', d, r)) ∧
    ws_errors s' = presenceErrors (foldl errorStep (ws_errors s) (flat_map errorsShare l)) (ws_self s') ∧
    ws_events s' = (routerRun (ws_events s) (flat_map eventsShare l)).1 ∧
    inboxRun (ws_channelInbox s) (flat_map channelShare l) = Some (ws_channelInbox s', []) ∧
    inboxRun (ws_directInbox s) (flat_map directShare l) = Some (ws_directInbox s', []) ∧
    ∃ host, ws_told s' = ws_told s ++ flat_map (gameShare sc (ws_uuid s) (er_handlers (ws_events s))) l ++ host ∧
      (host = [] ∧ ws_hostUserId s' = ws_hostUserId s ∨
       host = [THost (ws_hostUserId s')] ∧ ws_hostUserId s' ≠ ws_hostUserId s).
Proof.
  intros Hmax Hr E. pose proof (reachableSession_ok _ _ _ Hmax Hr) as Hs.
  destruct (reachable_ok _ _ _ (se_conn _ _ _ Hs)) as (_&k0&q&ms0&Hok).
  destruct (tick_swp _ _ _ _ _ _ Hs Hok Hmax) as (s2&a&E2&_&now&l&s1&c2&st&Ht). rewrite E in E2. injection E2 as <- <-.
  destruct Ht as [El (c1&w&Hw&->&Eo&Hrt) (k&ms&Hok1&Hok') Hm Ep Ee Ea Ec Er Hh _].
  destruct Hrt as [(w1&Ew1&Hq1) Ht Eu E1 E3 E4 E5 E6 E7 E8 E9]. unfold uninvolved in Eu.
  injection Eu as Eu1 Eu2 Eu3 Eu4 Eu5 Eu6 Eu7 Eu8. injection Er as R1 R2 R3. cbn in *.
  injection Eo as _ Ew _ _ _ _. pose proof Hw as (_&_&_&?).
  exists k, q, l, (clockNow w). split; [by eapply ca_ring, oa_at|]. split; [done|]. split; [done|]. split.
  { eapply List.Forall_impl; [|exact Ht]. cbn. rewrite Ew. cbn. lia. }
  split; [exists (ws_conn s1), (Some c2); rewrite <- E1; split; [done|by eapply ca_ring, oa_at]|].
  split; [rewrite Ea; unfold reaped; by rewrite Eu2, Eu7, E3, (se_config _ _ _ Hs)|].
  split; [by rewrite <- E4, <- Eu1|]. split; [by rewrite <- E5|]. split; [by rewrite R1|]. split; [by rewrite R2|].
  split; [by rewrite R3|]. rewrite (se_config _ _ _ Hs) in E9.
  destruct Hh as [[Eh Et]|[Eh Et]]; rewrite Et, E9, Eu6 in *.
  - exists []. rewrite app_nil_r. split; [done|]. left. split; [done|congruence].
  - eexists. rewrite <- app_assoc. split; [done|]. right. done.
Qed.

(** ** Presence *)

(** What hearing leaves of the actor: everything the send loop looks at. *)
Definition pose (self : LocalActorStore) :=
  (la_uuid self, la_options self, la_chunk self, la_state self, (la_joined self, la_dirty self, la_resendDue self),
   (la_lastSendMs self, la_lastFullSendMs self, la_lastHeartbeatMs self), la_lastSent self).

Lemma hear_pose ops self : pose (foldl hear self ops) = pose self.
Proof.
  revert self. induction ops as [|op ops IH]; intros self; [done|]. cbn [foldl]. rewrite IH.
  destruct op; try done. cbn [hear]. unfold recordError. by case_decide.
Qed.

Lemma pose_sends self self' now : pose self' = pose self → tickSends self' now = tickSends self now.
Proof.
  unfold pose, tickSends, sendInterval. intros [= _ Eo _ _ Ej Ed Er El Ef _ _]. by rewrite Eo, Ej, Ed, Er, El, Ef.
Qed.

(** What the actor puts into an update. *)
Definition poseSend (self : LocalActorStore) : SpatialSend :=
  mkSpatialSend (la_chunk self) (la_uuid self) (blobBytes (la_state self)) (lo_distance (la_options self)) (lo_decay (la_options self)).

(** A message handed on is on the wire after a flush, or pending behind a full send buffer, unless a
    faulty socket lost it. *)
Definition delivered (m : bytes) (st : Status) (c : Conn W) : Prop :=
  if ok st then m ∈ onWire c
  else st = WouldBlock → m ∈ onWire c ∨ ∃ ms, bw_rep (k_bundle c) ms ∧ m ∈ ms.

Lemma transmitted_delivered m st0 st c ms c1 ms1 c' ms' :
  ok st0 = true → transmitted m st0 c ms c1 ms1 → flush_post st c1 ms1 c' ms' → bw_rep (k_bundle c') ms' →
  delivered m st c'.
Proof.
  intros Hok Ht [_ Hf] Hb. unfold transmitted in Ht. rewrite Hok in Ht.
  assert (m ∈ onWire c1 ++ ms1) as Hin.
  { destruct Ht as [(_&->&_)|[(f&_&_&_&_&_&->)|(_&_&_&_&->&->)]]; set_solver. }
  unfold delivered in *. destruct (ok st); [by destruct Hf as (->&_)|].
  destruct Hf as (_&_&->&Hf). intros Hst. rewrite decide_True in Hf by done. destruct Hf as [-> _].
  apply elem_of_app in Hin as [?|?]; [by left|right; eauto].
Qed.

(** The actor and the connection after an attempt. *)
Definition presented cc s s' (now : Z) : Prop :=
  ∃ u, la_lastSent (ws_self s') = Some u ∧ su_state u = la_state (ws_self s) ∧ su_chunk u = la_chunk (ws_self s) ∧
    su_sentAtMs u = now ∧
    match su_sequence u with
    | Some q =>
        q = k_sequence (ws_conn s) ∧ la_dirty (ws_self s') = false ∧ la_resendDue (ws_self s') = false ∧
        la_lastSendMs (ws_self s') = now ∧ es_sent (ws_errors s') !! q = Some (KActorUpdate, Some (ws_uuid s)) ∧
        ∃ m st, parseLongSpatial m = Some (Val (view_of (spatialParams (ws_conn s) ActorUpdateRequest (poseSend (ws_self s))))) ∧
          (∀ mac, mac_ok crypto (k_token64 (ws_conn s)) mac → verifyLongSpatial crypto m (k_token64 (ws_conn s)) mac = Some Ok) ∧
          delivered m st (ws_conn s') ∧ ∃ c, reachable crypto cc c ∧ flushSends c = Some (ws_conn s', st)
    | None =>
        la_resendDue (ws_self s') = true ∧ la_dirty (ws_self s') = la_dirty (ws_self s) ∧
        la_lastSendMs (ws_self s') = la_lastSendMs (ws_self s)
    end.

Lemma sendNow_uuid self (c : option (Conn W)) now reason self' c' st :
  sendNow self c now reason = (self', c', st) → la_uuid self' = la_uuid self.
Proof. unfold sendNow. destruct (sendActorUpdate _ _) as [c1 [q|e]]; by intros [= <- _ _]. Qed.

Lemma sendNow_message self c now reason self' c2 st0 k q ms :
  conn_at crypto c k q ms → params_ok (spatialParams c ActorUpdateRequest (poseSend self)) →
  sendNow self (Some c) now reason = (self', Some c2, st0) →
  (∃ ms2, conn_at crypto c2 k q ms2 ∧ ok st0 = true ∧ la_lastSequence self' = Some (k_sequence c) ∧
     (∃ u, la_lastSent self' = Some u ∧ su_sequence u = Some (k_sequence c)) ∧
     ∃ m st, ok st = true ∧ transmitted m st c ms c2 ms2 ∧
       parseLongSpatial m = Some (Val (view_of (spatialParams c ActorUpdateRequest (poseSend self)))) ∧
       ∀ mac, mac_ok crypto (k_token64 c) mac → verifyLongSpatial crypto m (k_token64 c) mac = Some Ok) ∨
  ok st0 = false.
Proof.
  intros Hc Hp. unfold sendNow. cbn [sendActorUpdate spec_sender Conn_sender]. unfold sendThrough. cbn [mbind option_bind].
  change (mkSpatialSend _ _ _ _ _) with (poseSend self).
  destruct (Connection.sendActorUpdate crypto (poseSend self) c) as [[c3 r]|] eqn:E; [|done].
  apply (sendLongSpatial_outcome crypto c k q ms) in E as (_&ms2&Hc2&Ho); [|done..].
  destruct r as [q'|e]; intros [= <- <- <-].
  - left. destruct Ho as (_&->&m&st&Hst&Ht&Hpa&Hv). exists ms2. split; [done|]. split; [done|]. split; [done|].
    split; [by eexists|]. by exists m, st.
  - right. destruct Ho as [He _]. destruct e; done.
Qed.

(** The presence loop end to end. A tick attempts an update exactly when the actor has joined, its
    interval is over and its pose changed, the last attempt failed or a keyframe is due. One that
    leaves is a single authentic [ActorUpdateRequest] with the actor's current chunk and state
    under the connection's sequence, on the wire when the tick ends if the socket takes the
    flush, still pending if its buffer is full; errors that name its sequence are attributed to
    the actor. One that fails leaves the change due. *)
Theorem tick_presence cc sc s s' :
  co_writeBackAttempts (sf_chunks sc) ≤ 65 → reachableSession cc sc s →
  params_ok (spatialParams (ws_conn s) ActorUpdateRequest (poseSend (ws_self s))) →
  tick crypto order s = Some (s', tt) →
  ∃ now, clockNow (k_world (ws_conn s)) ≤ now ∧
    if tickSends (ws_self s) now then presented cc s s' now
    else la_lastSent (ws_self s') = la_lastSent (ws_self s) ∧ la_dirty (ws_self s') = la_dirty (ws_self s) ∧
      la_resendDue (ws_self s') = la_resendDue (ws_self s).
Proof.
  intros Hmax Hr Hp E. pose proof (reachableSession_ok _ _ _ Hmax Hr) as Hs.
  destruct (reachable_ok _ _ _ (se_conn _ _ _ Hs)) as (_&k0&q0&ms0&Hok).
  destruct (tick_swp _ _ _ _ _ _ Hs Hok Hmax) as (s2&a&E2&_&now&l&s1&c2&st&Ht). rewrite E in E2. injection E2 as <- <-.
  destruct Ht as [_ (c1&w&Hw&->&Eo&Hrt) (k&ms&Hok1&_) Hm Ep Ee _ _ _ _ Ef].
  pose proof (rt_conn _ _ _ Hrt) as (w1&Ec1&_). pose proof (rt_rest _ _ _ Hrt) as Eu. unfold uninvolved in Eu.
  injection Eu as _ _ _ Eu _ _ _ _. cbn in Ec1, Eu. clear Hok.
  pose proof (hear_pose (flat_map (selfShare (ws_uuid s)) l) (ws_self s)) as Epose.
  pose proof (rt_self _ _ _ Hrt) as Eself. cbn in Eself. rewrite <- Eself in Epose. clear Eself Hrt.
  exists (clockNow w). split; [by destruct Hw as (_&_&_&?)|]. rewrite <- (pose_sends _ _ (clockNow w) Epose).
  pose proof Epose as Ep'. unfold pose in Ep'. injection Ep' as P1 P2 P3 P4 P5 P6 P7 P8 P9 P10 P11.
  destruct (tickSends (ws_self s1) (clockNow w)) eqn:Et.
  2: { destruct (localTick_idle _ _ _ _ _ Et Ep) as [->|(_&_&_&->)]; cbn; by rewrite P11, P6, P7. }
  rewrite localTick_sends, Et in Ep.
  destruct (sendNow (ws_self s1) (Some (ws_conn s1)) (clockNow w) _) as [[self' c'] st0] eqn:Es. injection Ep as -> ->.
  pose proof (sendNow_spec _ _ _ _ _ _ _ Es) as (_&_&_&_&(u&Hu&S1&S2&S3&S4)&S5&S6).
  assert (spatialParams (ws_conn s1) ActorUpdateRequest (poseSend (ws_self s1)) =
    spatialParams (ws_conn s) ActorUpdateRequest (poseSend (ws_self s))) as Epar.
  { injection Eo as Q1 _ Q3 _ _ Q4 _ _ _. rewrite Ec1. unfold spatialParams, poseSend. cbn. by rewrite Q1, Q3, Q4, P1, P2, P3, P4. }
  assert (k_token64 (ws_conn s1) = k_token64 (ws_conn s) ∧ k_sequence (ws_conn s1) = k_sequence (ws_conn s)) as [Etok Eseq].
  { injection Eo as _ _ _ Q4 _ Q5 _ _ _. rewrite Ec1. cbn. by rewrite Q4, Q5. }
  exists u. split; [done|]. split; [congruence|]. split; [congruence|]. split; [done|].
  destruct (sendNow_message _ _ _ _ _ _ _ _ _ _ (oa_at _ _ _ _ _ Hok1) ltac:(by rewrite Epar) Es)
    as [(ms2&Hc2&Hst0&Els&(u'&Hu'&Hq)&m&stm&Hstm&Htr&Hpa&Hv)|Hst0]; rewrite Hst0 in S5, S6.
  - assert (u' = u) as -> by congruence. rewrite Hq. destruct S6 as (S6&S7&_). rewrite Etok, Eseq, Epar in *.
    split; [done|]. split; [done|]. split; [done|]. split; [done|]. split.
    { rewrite Ee. unfold presenceErrors. rewrite Els. cbn. rewrite lookup_insert_eq.
      assert (la_uuid (ws_self s') = ws_uuid s) as ->; [|done].
      pose proof (sendNow_uuid _ _ _ _ _ _ _ Es) as ->. rewrite P1. apply Hs. }
    exists m, st. split; [done|]. split; [done|].
    destruct (wp_elim _ _ _ (flushSends_wp crypto _ _ _ _ Hc2)) as (c3&st'&E3&_&ms3&Hc3&Hfl).
    rewrite Ef in E3. injection E3 as <- <-.
    split; [eapply transmitted_delivered; [exact Hstm|exact Htr|exact Hfl|by eapply ca_bundle]|].
    exists c2. split; [|done]. destruct (se_self _ _ _ Hm) as [g (Hb&Hd&_)].
    destruct (sendNow_live cc sc s1 (ws_self s1) g _ _ _ _ _ Hm (se_selfUuid _ _ _ Hm) Hb Hd Es) as ((c0&[= <-]&Hr0&_)&_). done.
  - destruct (su_sequence u) as [q|] eqn:Hq; [by discriminate (proj2 S4 Hst0)|].
    destruct S6 as (->&->&_). by rewrite P6, P8.
Qed.
End Session.
