(* ===== verification/SessionRuns.v ===== *)
(** * The world session: concrete runs

    A durable world and a host election for concrete runs, a session over the connection of
    [ConnectionSpec] in it, the witnesses of [SessionSpec], and what the session's error log does
    with the sequence numbers of presence updates. *)

From S2P Require Import Prelude Bytes Protocol Codec Bundle Spsc Core Keys Connection ConnectionLaws ConnLife ConnectionSpec Types ChunkStore Stores WorldSession SessionSpec.

Open Scope Z_scope.

(** ** A durable world *)

(** What is stored, and the answers to come of the host election. *)
Record Durable := mkDurable { du_source : TestSource; du_beats : list Beat }.

#[export] Instance Durable_source : ChunkSource Durable := {
  chunksAround d k n := let '(w, l) := chunksAround (du_source d) k n in (mkDurable w (du_beats d), l);
  writeChunk d k v := let '(w, o) := writeChunk (du_source d) k v in (mkDurable w (du_beats d), o);
}.

#[export] Instance Durable_election : HostElection Durable := λ d _,
  match du_beats d with
  | [] => (d, mkBeat false [] false)
  | b :: beats => (mkDurable (du_source d) beats, b)
  end.

(** ** A session *)

Definition demoSessionConfig : SessionConfig :=
  mkSessionConfig [52; 50] (mkLocalOptions 1000 3000 0 8 0) 12000 2 (mkChunkOptions 700 8 5 700) 1 1000 demoUuid (λ _, true).

Definition demoDurable : Durable :=
  mkDurable (mkTestSource [] [] []) [mkBeat true [55] false; mkBeat true [55] false; mkBeat false [] false; mkBeat true [57] true].

Abbreviation DemoSession := (WorldSession TestNet Durable).
Abbreviation demoRunOp := (runSession demoCrypto keyOrder (W := TestNet) (D := Durable)).

Definition demoSession (arriving : list bytes) : option DemoSession :=
  c ← demoNew arriving; makeSession demoCrypto c demoDurable true true demoSessionConfig.

Fixpoint runSessionOps (ops : list SessionOp) (s : DemoSession) : option DemoSession :=
  match ops with
  | [] => Some s
  | op :: ops => '(s, _) ← demoRunOp op s; runSessionOps ops s
  end.

Fixpoint allowedOps (ops : list SessionOp) (s : DemoSession) : Prop :=
  match ops with
  | [] => True
  | op :: ops => session_op_ok demoCrypto op s ∧ match demoRunOp op s with Some (s', _) => allowedOps ops s' | None => False end
  end.

Abbreviation demoReachable := (reachableSession demoCrypto keyOrder (D := Durable) demoConfig demoSessionConfig).

Lemma runSessionOps_reachable ops s s' :
  demoReachable s → allowedOps ops s → runSessionOps ops s = Some s' → demoReachable s'.
Proof.
  revert s. induction ops as [|op ops IH]; intros s Hr Ha E; cbn [allowedOps runSessionOps] in *; [congruence|].
  destruct Ha as [Hop Ha]. destruct (demoRunOp op s) as [[s1 []]|] eqn:E1; [|done].
  eapply IH; [|exact Ha|exact E]. by eapply session_op.
Qed.

Definition runDemo (arriving : list bytes) (ops : list SessionOp) : option DemoSession :=
  s ← demoSession arriving; runSessionOps ops s.
Definition allowedDemo (arriving : list bytes) (ops : list SessionOp) : Prop :=
  match demoSession arriving with Some s => allowedOps ops s | None => False end.

Lemma runDemo_reachable arriving ops s : allowedDemo arriving ops → runDemo arriving ops = Some s → demoReachable s.
Proof.
  unfold allowedDemo, runDemo, demoSession. destruct (demoNew arriving) as [c|] eqn:E; [|done]. cbn.
  destruct (makeSession demoCrypto c demoDurable true true demoSessionConfig) as [s0|] eqn:E0; [|done]. intros Ha Hr.
  eapply runSessionOps_reachable; [|exact Ha|exact Hr]. eapply session_new; [|exact E0].
  eapply reach_new; [| | |exact E]; [cbn; lia|by rewrite length_replicate|done].
Qed.

(** The server's refusal of the message of sequence 0. *)
Definition demoRefusal : bytes := [GenericErrorMsg; 0; ErrorCode_Unauthorized].

(** Connected, the join sent, its echo and a refusal received and not polled yet. *)
Definition demoSessionOps : list (SessionOp (W := TestNet)) :=
  [SConn OConnect; SConn (OPump 2 0); SJoin (mkChunk 1 2 (-3)) [7; 8]].

Example demo_session_runs :
  match runDemo [demoEcho; demoRefusal] (demoSessionOps ++ [STick; SSetState [9]; STick]) with
  | Some s =>
      (ack_sequence <$> la_lastAck (ws_self s), la_lastSequence (ws_self s), ws_told s, ws_hostUserId s) =
      (Some 0, Some 1, [THost [55]], [55]) ∧
      (v_payload <$> omap (λ m, match parseLongSpatial m with Some (Val v) => Some v | _ => None end) (onWire (ws_conn s)))
        = [[7; 8]; [9]]
  | None => False
  end.
Proof. vm_compute. done. Qed.

(** A session of two ticks: what the host election answers the second time is no change. *)
Example demo_hosts :
  match runDemo [] [SClock; STick; SClock; STick; SClock; STick; SClock; STick] with
  | Some s => ws_told s = [THost [55]; THost [57]] ∧ ws_amIHost s = true
  | None => False
  end.
Proof. vm_compute. done. Qed.

(** The tick polls before it records the sequence of an update sent outside it: a refusal of the
    join's update that the next tick polls is attributed to nobody. *)
Example join_refusal_unattributed :
  match runDemo [demoRefusal] (demoSessionOps ++ [STick]) with
  | Some s => (ae_sequence <$> es_recent (ws_errors s), ae_kind <$> es_recent (ws_errors s)) = ([0], [KUnknown]) ∧
      es_sent (ws_errors s) !! 0 = Some (KActorUpdate, Some demoUuid)
  | None => False
  end.
Proof. vm_compute. done. Qed.

(** The tick records the last update's sequence again and again: once the sequence has wrapped, it
    takes away what the game recorded about a newer send of that number. *)
Definition demoText : SpatialSend := mkSpatialSend (mkChunk 1 2 (-3)) demoUuid [7] 8 0.
Example reused_sequence_misattributed :
  match runDemo [] (demoSessionOps ++ replicate 256 (SConn (OSend (SText demoText))) ++
                    [SRecordSend 0 KText None; STick]) with
  | Some s => (la_lastSequence (ws_self s), k_sequence (ws_conn s), es_sent (ws_errors s) !! 0) =
      (Some 0, 1, Some (KActorUpdate, Some demoUuid))
  | None => False
  end.
Proof. vm_compute. done. Qed.

(** ** Witnesses *)

Lemma demoRandom raw : randomBytes demoCrypto 16 = Some raw → length raw = 16%nat ∧ Forall is_byte raw.
Proof. intros [= <-]. vm_compute. split; [done|]. by repeat constructor. Qed.

Lemma demoSessionOps_allowed : allowedDemo [demoEcho; demoRefusal] demoSessionOps.
Proof. vm_compute. repeat split; try done; lia. Qed.

Ltac demo_session_with H s Hr :=
  destruct (runDemo [demoEcho; demoRefusal] demoSessionOps) as [s|] eqn:Hr; [|destruct H];
  apply (runDemo_reachable _ _ _ demoSessionOps_allowed) in Hr.

Lemma demo_attempts : co_writeBackAttempts (sf_chunks demoSessionConfig) ≤ 65.
Proof. vm_compute. done. Qed.

Lemma session_operations_total_witness :
  ∃ s s', demoReachable s ∧ demoRunOp STick s = Some (s', tt).
Proof.
  assert (match runDemo [demoEcho; demoRefusal] demoSessionOps with Some _ => True | None => False end) as Hd by (vm_compute; done).
  demo_session_with Hd s Hr. exists s.
  destruct (session_operations_total demoCrypto keyOrder keyOrder_visits demoRandom demoConfig demoSessionConfig s STick
    demo_attempts Hr I) as ((s'&E)&_). exists s'. exact (conj Hr E).
Defined.

Lemma tick_routes_witness :
  ∃ s s' n, demoReachable s ∧ demoRunOp STick s = Some (s', tt) ∧
    length (ib_messages (ws_channelInbox s')) = n.
Proof.
  assert (match runDemo [demoEcho; demoRefusal] demoSessionOps with
          | Some s => match demoRunOp STick s with Some _ => True | None => False end
          | None => False
          end) as Hd by (vm_compute; done).
  demo_session_with Hd s Hr. destruct (demoRunOp STick s) as [[s' []]|] eqn:E; [|destruct Hd].
  destruct (tick_routes demoCrypto keyOrder keyOrder_visits demoRandom demoConfig demoSessionConfig s s'
    demo_attempts Hr E) as (k&q&l&now&_).
  exists s, s'. eexists. exact (conj Hr (conj E eq_refl)).
Defined.

(** A changed pose, due at the next tick. *)
Definition demoPresenceOps : list (SessionOp (W := TestNet)) := demoSessionOps ++ [SSetState [9]].

Lemma demoPresenceOps_allowed : allowedDemo [demoEcho] demoPresenceOps.
Proof. vm_compute. repeat split; try done; lia. Qed.
