(* ===== verification/Services.v ===== *)
(** * The session's services over the Game API

    [src/session/world_session.cpp], [include/crowdy/domains/types.hpp]: [ChunksApiSource] reads
    the stored chunks of a page and makes the input of a write; [HostApiElection] makes a beat of
    two calls of the host API. The API itself answers from outside: a page is a JSON document, a
    host call answers or throws. *)

From S2P Require Import Prelude Bytes Codec Core Keys Json Types ChunkStore WorldSession.

Open Scope Z_scope.

(** ** The chunks API as a source *)

Abbreviation i32 := (wrapS 32).

(** [ChunkRef::toInput]; [None] would be an exception. *)
Definition chunkRefInput (k : ChunkCoord) : option JVal :=
  v ← setField VNull (chars "x") (VStr (decimal (cx k)));
  v ← setField v (chars "y") (VStr (decimal (cy k)));
  setField v (chars "z") (VStr (decimal (cz k))).

Definition storedVoxel (entry : View) : option StoredVoxelState :=
  let coord := field entry (chars "voxelCoord") in
  x ← asInt64 (field coord (chars "x")) (-1);
  y ← asInt64 (field coord (chars "y")) (-1);
  z ← asInt64 (field coord (chars "z")) (-1);
  t ← asInt64 (field entry (chars "voxelType")) 0;
  Some (mkStoredVoxelState (i32 x) (i32 y) (i32 z) (i16 t)
    (default [] (base64Decode (asString (field entry (chars "state")) [])))).

Definition storedChunk (chunkJson : View) : option StoredChunk :=
  let coord := field chunkJson (chars "coordinates") in
  voxelStates ← mapM storedVoxel (visited (field chunkJson (chars "voxelStates")));
  Some (mkStoredChunk
    (mkChunk (asBigInt (field coord (chars "x")) 0) (asBigInt (field coord (chars "y")) 0)
       (asBigInt (field coord (chars "z")) 0))
    (default [] (base64Decode (asString (field chunkJson (chars "voxels")) []))) voxelStates).

(** [chunksAround], from the page of [byDistance]. *)
Definition storedChunks (page : View) : option (list StoredChunk) :=
  mapM storedChunk (visited (field page (chars "chunks"))).

(** The input of [writeChunk]. *)
Definition writeChunkInput (appId : bytes) (coord : ChunkCoord) (voxels : bytes) : option JVal :=
  input ← setField VNull (chars "appId") (VStr appId);
  coordinates ← chunkRefInput coord;
  input ← setField input (chars "coordinates") coordinates;
  text ← base64Encode voxels;
  setField input (chars "voxels") (VStr text).

(** ** The host API as an election *)

(** The two calls; [None] is a [std::exception]. *)
Class HostAPI (D : Type) := {
  hostHeartbeat : D → bytes → D * option View;
  hostAmI : D → bytes → D * option bool;
}.

#[export] Instance HostApiElection {D} `{HostAPI D} : HostElection D := λ d appId,
  let '(d, host) := hostHeartbeat d appId in
  match host with
  | None | Some None => (d, mkBeat false [] false)
  | Some (Some json) =>
      let '(d, amIHost) := hostAmI d appId in
      match amIHost with
      | None => (d, mkBeat true [] false)
      | Some b => (d, mkBeat true (asString (field (Some json) (chars "hostUserId")) []) b)
      end
  end.

(** ** Pages *)

(** How a server writes integers and chunks. *)
Definition jsonInt (n : Z) : Json := if n <? 0 then JSint n else JUint n.
Definition base64Text (b : bytes) : Json := JStr (default [] (base64Encode b)).
Definition coordJson (k : ChunkCoord) : Json :=
  JObj [(chars "x", JStr (decimal (cx k))); (chars "y", JStr (decimal (cy k))); (chars "z", JStr (decimal (cz k)))].
Definition voxelJson (v : StoredVoxelState) : Json :=
  JObj [(chars "voxelCoord", JObj [(chars "x", jsonInt (sv_x v)); (chars "y", jsonInt (sv_y v)); (chars "z", jsonInt (sv_z v))]);
        (chars "voxelType", jsonInt (sv_voxelType v)); (chars "state", base64Text (sv_state v))].
Definition chunkJson (c : StoredChunk) : Json :=
  JObj [(chars "coordinates", coordJson (sc_coord c)); (chars "voxels", base64Text (sc_voxels c));
        (chars "voxelStates", JArr (voxelJson <$> sc_voxelStates c))].
Definition pageOf (l : list StoredChunk) : Json := JObj [(chars "chunks", JArr (chunkJson <$> l))].

Definition voxel_ok (v : StoredVoxelState) : Prop :=
  in_s 32 (sv_x v) ∧ in_s 32 (sv_y v) ∧ in_s 32 (sv_z v) ∧ in_s 16 (sv_voxelType v) ∧ Forall is_byte (sv_state v).
Definition chunk_ok (c : StoredChunk) : Prop :=
  in_s 64 (cx (sc_coord c)) ∧ in_s 64 (cy (sc_coord c)) ∧ in_s 64 (cz (sc_coord c)) ∧
  Forall is_byte (sc_voxels c) ∧ Forall voxel_ok (sc_voxelStates c).

Lemma visited_arr l : visited (Some (JArr l)) = Some <$> l.
Proof.
  unfold visited, sizeOf, at_. apply list_eq. intros i. rewrite !list_lookup_fmap.
  destruct (decide (i < length l)%nat) as [Hi|Hi].
  - rewrite lookup_seq_lt by done. cbn. destruct (lookup_lt_is_Some_2 l i Hi) as [x ->]. done.
  - rewrite lookup_seq_ge by lia. by rewrite (lookup_ge_None_2 l) by lia.
Qed.

Lemma asInt64_int n fallback : in_s 64 n → asInt64 (Some (jsonInt n)) fallback = Some n.
Proof.
  intros Hn. unfold jsonInt, asInt64. destruct (Z.ltb_spec n 0); [done|]. by rewrite wrapS_id.
Qed.

Lemma base64_reads b : Forall is_byte b → base64Decode (default [] (base64Encode b)) = Some b.
Proof. intros Hb. destruct base64_roundtrip as [Hr _]. destruct (Hr b Hb) as [E _]. by destruct (base64Encode b). Qed.

Lemma asBigInt_decimal n fallback : in_s 64 n → asBigInt (Some (JStr (decimal n))) fallback = n.
Proof.
  intros Hn. unfold asBigInt, tryAsBigInt. rewrite parseBigInt_spec. destruct (decimal_value n) as [-> ->].
  by rewrite bool_decide_true.
Qed.

Lemma mapM_read {A} (f : View → option A) (g : A → Json) l :
  Forall (λ a, f (Some (g a)) = Some a) l → mapM f (Some <$> (g <$> l)) = Some l.
Proof. induction 1 as [|a l E _ IH]; [done|]. cbn. rewrite E. cbn. by rewrite IH. Qed.

Lemma storedVoxel_reads v : voxel_ok v → storedVoxel (Some (voxelJson v)) = Some v.
Proof.
  intros (Hx&Hy&Hz&Ht&Hs). unfold storedVoxel.
  change (field (Some (voxelJson v)) (chars "voxelCoord")) with
    (Some (JObj [(chars "x", jsonInt (sv_x v)); (chars "y", jsonInt (sv_y v)); (chars "z", jsonInt (sv_z v))])).
  cbv zeta. change (field (Some (JObj _)) (chars "x")) with (Some (jsonInt (sv_x v))).
  change (field (Some (JObj _)) (chars "y")) with (Some (jsonInt (sv_y v))).
  change (field (Some (JObj _)) (chars "z")) with (Some (jsonInt (sv_z v))).
  change (field (Some (voxelJson v)) (chars "voxelType")) with (Some (jsonInt (sv_voxelType v))).
  change (asString (field (Some (voxelJson v)) (chars "state")) []) with (default [] (base64Encode (sv_state v))).
  rewrite !asInt64_int by (unfold in_s in *; lia). cbn [mbind option_bind].
  rewrite !wrapS_id, base64_reads by (done || lia). by destruct v.
Qed.

Lemma storedChunk_reads c : chunk_ok c → storedChunk (Some (chunkJson c)) = Some c.
Proof.
  intros (Hx&Hy&Hz&Hv&Hs). unfold storedChunk.
  change (field (Some (chunkJson c)) (chars "coordinates")) with (Some (coordJson (sc_coord c))).
  change (field (Some (chunkJson c)) (chars "voxelStates")) with (Some (JArr (voxelJson <$> sc_voxelStates c))).
  change (asString (field (Some (chunkJson c)) (chars "voxels")) []) with (default [] (base64Encode (sc_voxels c))).
  cbv zeta. change (field (Some (coordJson (sc_coord c))) (chars "x")) with (Some (JStr (decimal (cx (sc_coord c))))).
  change (field (Some (coordJson (sc_coord c))) (chars "y")) with (Some (JStr (decimal (cy (sc_coord c))))).
  change (field (Some (coordJson (sc_coord c))) (chars "z")) with (Some (JStr (decimal (cz (sc_coord c))))).
  rewrite visited_arr, (mapM_read storedVoxel voxelJson).
  - cbn [mbind option_bind]. rewrite !asBigInt_decimal, base64_reads by done. by destruct c as [[] ? ?].
  - eapply List.Forall_impl; [|exact Hs]. apply storedVoxel_reads.
Qed.

(** A page of chunks is read back as they are stored, every voxel state with its place, type and blob,
    and the input of a write carries the voxels to the server. *)
Theorem storedChunks_roundtrip l appId k voxels :
  Forall chunk_ok l → Forall is_byte voxels →
  storedChunks (Some (pageOf l)) = Some l ∧
  ∃ text, base64Decode text = Some voxels ∧
    writeChunkInput appId k voxels = Some (VObj [(chars "appId", VStr appId);
      (chars "coordinates", VObj [(chars "x", VStr (decimal (cx k))); (chars "y", VStr (decimal (cy k))); (chars "z", VStr (decimal (cz k)))]);
      (chars "voxels", VStr text)]).
Proof.
  intros Hl Hv. split.
  - unfold storedChunks. change (field (Some (pageOf l)) (chars "chunks")) with (Some (JArr (chunkJson <$> l))).
    rewrite visited_arr, (mapM_read storedChunk chunkJson); [done|].
    eapply List.Forall_impl; [|exact Hl]. apply storedChunk_reads.
  - destruct base64_roundtrip as [Hr _]. destruct (Hr voxels Hv) as [E _].
    destruct (base64Encode voxels) as [text|] eqn:Et; [|done]. exists text. split; [exact E|].
    unfold writeChunkInput. rewrite Et. done.
Qed.

Definition demoChunk : StoredChunk :=
  mkStoredChunk (mkChunk (-3) 0 7) [1; 0; 255] [mkStoredVoxelState 1 2 3 (-7) [9]; mkStoredVoxelState 40 (-1) 0 300 []].

Lemma storedChunks_roundtrip_witness :
  storedChunks (Some (pageOf [demoChunk])) = Some [demoChunk] ∧ Forall chunk_ok [demoChunk].
Proof.
  assert (Forall chunk_ok [demoChunk]) as Hc.
  { apply Forall_singleton. unfold chunk_ok, in_s. cbn. split_and!; try lia; repeat apply Forall_cons_2;
      try apply Forall_nil_2; unfold voxel_ok, is_byte, in_s, in_u; cbn; split_and!; try lia;
      repeat apply Forall_cons_2; try apply Forall_nil_2; unfold is_byte, in_u; lia. }
  split; [|exact Hc]. apply (storedChunks_roundtrip [demoChunk] [] (mkChunk 0 0 0) []); [exact Hc|by constructor].
Defined.

(** ** What a failed call tells *)

(** A page entry without coordinates is an edit of the voxel at -1: the mark for a missing
    coordinate is one the overlay takes. *)
Example missing_coordinates : storedVoxel (Some (JObj [])) = Some (mkStoredVoxelState (-1) (-1) (-1) 0 []).
Proof. reflexivity. Qed.

(** When the second call of a heartbeat throws, the beat still counts, with no host: a tick would
    take the host away. *)
#[local] Instance failing_host : HostAPI unit :=
  {| hostHeartbeat d _ := (d, Some (Some (JObj [(chars "hostUserId", JStr [55])]))); hostAmI d _ := (d, None) |}.
Example failed_call_clears_host : heartbeat tt [] = (tt, mkBeat true [] false).
Proof. reflexivity. Qed.
