(* ===== verification/KitProtocol.v ===== *)
(** * The game kit's protocol

    [include/crowdy/kit/protocol.hpp] and [src/kit/protocol.cpp]: kit messages, refusals, action
    ids and shard keys; [ExecReply] is that of [ExecWire]. JSON text is read and written by yyjson: [parseJson] and [writeJson] of
    [JsonText] are parameters. A real number that no 64-bit integer holds, an index out of range
    and signed overflow are [UB]. *)

From S2P Require Import Prelude Bytes Core Json Endpoint ExecWire.

Open Scope Z_scope.

(** yyjson, which may refuse to write a value, and ["%.17g"]. *)
Class JsonText := { parseJson : bytes → View; writeJson : Json → option bytes; formatDouble : Z → bytes }.

(** ** Replies *)

Record KitRefusal := mkRefusal { rf_code : bytes; rf_text : bytes }.
Record KitReply := mkReply { kr_status : ExecStatus; kr_payload : bytes; kr_refusal : option KitRefusal }.

Definition codeChar (c : Z) : bool :=
  ((97 <=? c) && (c <=? 122)) || ((48 <=? c) && (c <=? 57)) || (c =? 95).

Definition kitPrefix : bytes := chars "kit:".
Definition kitSeparator : bytes := chars ": ".

Definition parseKitRefusal (message : bytes) : option KitRefusal :=
  if negb (bool_decide (take (length kitPrefix) message = kitPrefix)) then None else
  let rest := drop (length kitPrefix) message in
  match find kitSeparator rest with
  | None => None
  | Some colon =>
      if (colon =? 0)%nat || (64 <? colon)%nat then None else
      let code := take colon rest in
      if forallb codeChar code then Some (mkRefusal code (drop (colon + 2) rest)) else None
  end.

Definition replyFrom (reply : ExecReply) : KitReply :=
  mkReply (er_status reply) (er_payload reply)
    (if bool_decide (er_status reply = AppError) then parseKitRefusal (er_payload reply) else None).

Definition refused (code text : bytes) : KitReply :=
  replyFrom (mkExecReply AppError (kitPrefix ++ code ++ kitSeparator ++ text)).

Definition replyOk (r : KitReply) : bool := bool_decide (kr_status r = ExecOk).
Definition replyCode (r : KitReply) : bytes :=
  match kr_refusal r with Some refusal => rf_code refusal | None => [] end.
Definition replyMessage (r : KitReply) : bytes := if replyOk r then [] else kr_payload r.

(** ** Messages *)

Inductive KitMessageKind := Snapshot | Delta | Changed | Event.

#[global] Instance KitMessageKind_eq_dec : EqDecision KitMessageKind.
Proof. solve_decision. Defined.

Definition kitMessageKindName (kind : KitMessageKind) : bytes :=
  match kind with
  | Snapshot => chars "snapshot" | Delta => chars "delta"
  | Changed => chars "changed" | Event => chars "event"
  end.

Definition kindOf (name : bytes) : option KitMessageKind :=
  if bool_decide (name = chars "snapshot") then Some Snapshot
  else if bool_decide (name = chars "delta") then Some Delta
  else if bool_decide (name = chars "changed") then Some Changed
  else if bool_decide (name = chars "event") then Some Event
  else None.

Record KitHeader := mkHeader { h_v : Z; h_epoch : Z; h_seq : Z; h_kind : KitMessageKind }.
Record KitMessage := mkMessage { m_header : KitHeader; m_body : View }.

Definition isReserved (key : bytes) : bool :=
  bool_decide (key = chars "v") || bool_decide (key = chars "epoch") ||
  bool_decide (key = chars "seq") || bool_decide (key = chars "kind").

(** Undefined when a header's number is a real out of range. *)
Definition kitHeader (value : View) : option (option KitHeader) :=
  if negb (isObject value) then Some None else
  let v := field value (chars "v") in
  let epoch := field value (chars "epoch") in
  let seq := field value (chars "seq") in
  let kind := field value (chars "kind") in
  if negb (isNumber v) || negb (isNumber epoch) || negb (isNumber seq) || negb (isString kind)
  then Some None else
  match kindOf (asString kind []) with
  | None => Some None
  | Some k =>
      v ← asInt64 v 0; epoch ← asInt64 epoch 0; seq ← asInt64 seq 0;
      Some (Some (mkHeader (wrapS 32 v) epoch seq k))
  end.

Definition isKitMessage (value : View) : option bool :=
  header ← kitHeader value; Some (match header with Some _ => true | None => false end).

Section Messages.
Context `{JsonText}.

Definition quoted (text : bytes) : bytes := dump formatDouble (VStr text).

(** [Json::dump]. *)
Definition textOf (v : Json) : bytes := default (chars "null") (writeJson v).
Definition memberText (m : bytes * Json) : bytes := quoted m.1 ++ [58] ++ textOf m.2.

Definition members_of (value : View) : list (bytes * Json) :=
  match value with Some (JObj l) => l | _ => [] end.

(** The members with no reserved name, written as one object. *)
Definition bodyText (value : View) : bytes :=
  [123] ++ commas (memberText <$> List.filter (λ m, negb (isReserved m.1)) (members_of value)) ++ [125].

Definition splitKitMessage (value : View) : option (option KitMessage) :=
  header ← kitHeader value;
  Some (match header with
        | None => None
        | Some header => Some (mkMessage header (parseJson (bodyText value)))
        end).
End Messages.

Record KitChanged := mkChanged { ch_who : list bytes; ch_what : bytes }.

Definition kitChanged (body : View) : option KitChanged :=
  if negb (isObject body) || negb (isString (field body (chars "what"))) then None else
  Some (mkChanged ((λ who, asBigIntString who []) <$> visited (field body (chars "who")))
                  (asString (field body (chars "what")) [])).

Record KitContainer := mkContainer { kc_id : Z; kc_typeName : bytes; kc_props : View }.

(** ** Action ids *)

(** Sixteen hex digits of [bits], the lowest first. *)
Fixpoint hexLow (n : nat) (bits : Z) : bytes :=
  match n with
  | O => []
  | S n => hexDigit (Z.land bits 15) :: hexLow n (Z.shiftr bits 4)
  end.

(** From two draws of the generator. *)
Definition newActionId (first second : Z) : bytes := hexLow 16 first ++ hexLow 16 second.

Definition withActionId (args : JVal) (actionId : bytes) : JVal :=
  match args with
  | VNull => VObj [(chars "action_id", VStr actionId)]
  | VObj l => VObj (setMember (chars "action_id") (VStr actionId) l)
  | _ => args
  end.

(** ** Shards *)

Definition int64 (z : Z) : option Z := if decide (in_s 64 z) then Some z else UB.
Definition int32 (z : Z) : option Z := if decide (in_s 32 z) then Some z else UB.

(** C++ division rounds to zero. *)
Definition floorDiv (a b : Z) : Z :=
  let q := Z.quot a b in
  if negb (Z.rem a b =? 0) && negb (Bool.eqb (a <? 0) (b <? 0)) then q - 1 else q.

Definition shardCentre (x z size : Z) : option (Z * Z) :=
  let s := if size <? 1 then 1 else size in
  let half := Z.quot s 2 in
  px ← int64 (floorDiv x s * s); cx ← int64 (px + half);
  pz ← int64 (floorDiv z s * s); cz ← int64 (pz + half);
  Some (cx, cz).

Definition keyOf (cx cz : Z) : bytes := decimal cx ++ [44] ++ decimal cz.

Definition shardKey (x z size : Z) : option bytes :=
  '(cx, cz) ← shardCentre x z size; Some (keyOf cx cz).

Fixpoint trimFront (s : bytes) : bytes :=
  match s with c :: rest => if isSpaceChar c then trimFront rest else s | [] => [] end.
Definition trim (s : bytes) : bytes := reverse (trimFront (reverse (trimFront s))).

(** [std::from_chars] for the whole text. *)
Definition number (s : bytes) : option Z :=
  if isDecimal s && bool_decide (in_s 64 (decimalValue s)) then Some (decimalValue s) else None.

Definition parseShardKey (key : bytes) : option (Z * Z) :=
  comma ← find [44] key;
  x ← number (trim (take comma key));
  z ← number (trim (drop (comma + 1) key));
  Some (x, z).

(** The key [dx], [dz] shards away. *)
Definition shardAway (cx cz s : Z) (d : Z * Z) : option bytes :=
  sx ← int64 (d.1 * s); kx ← int64 (cx + sx); sz ← int64 (d.2 * s); kz ← int64 (cz + sz);
  Some (keyOf kx kz).

(** The steps from [-radius] to [radius], rows of [dz] with columns of [dx]. *)
Definition steps (radius : Z) : list Z := seqZ (- radius) (2 * radius + 1).
Definition around (radius : Z) : list (Z * Z) :=
  List.filter (λ d, negb ((d.1 =? 0) && (d.2 =? 0)))
    (dz ← steps radius; (λ dx, (dx, dz)) <$> steps radius).

(** [-radius] and [radius + 1] are computed in 32 bits. *)
Definition shardKeysAround (x z size radius : Z) : option (list bytes) :=
  let s := if size <? 1 then 1 else size in
  '(cx, cz) ← shardCentre x z s;
  _ ← int32 (- radius); _ ← (if 0 <=? radius then int32 (radius + 1) else Some 0);
  keys ← mapM (shardAway cx cz s) (around radius);
  Some (keyOf cx cz :: keys).

(** ** Refusals *)

(** A code the parser takes. *)
Definition code_ok (code : bytes) : Prop := (1 ≤ length code ≤ 64)%nat ∧ forallb codeChar code = true.

Lemma find_separator code text :
  forallb codeChar code = true → find kitSeparator (code ++ kitSeparator ++ text) = Some (length code).
Proof.
  induction code as [|c code IH]; [done|]. cbn [forallb]. intros [Hc Hs]%andb_prop.
  change ((c :: code) ++ kitSeparator ++ text) with (c :: (code ++ kitSeparator ++ text)).
  unfold codeChar in Hc. cbn [find]. rewrite IH by done.
  assert (hasPrefix kitSeparator (c :: code ++ kitSeparator ++ text) = false) as ->.
  { change kitSeparator with [58; 32] at 1. cbn [hasPrefix].
    destruct (Z.eqb_spec 58 c); [|done]. subst. done. }
  done.
Qed.

(** A message is a refusal exactly when it is the prefix, a code of at most 64 characters, the
    separator and a text. *)
Lemma parseKitRefusal_iff message r :
  parseKitRefusal message = Some r ↔
  code_ok (rf_code r) ∧ message = kitPrefix ++ rf_code r ++ kitSeparator ++ rf_text r.
Proof.
  unfold parseKitRefusal, code_ok. split.
  - case_bool_decide as Hp; [|done]. cbn [negb].
    pose proof (take_drop (length kitPrefix) message) as Hm. rewrite Hp in Hm. clear Hp.
    revert Hm. generalize (drop (length kitPrefix) message). intros rest <-.
    destruct (find kitSeparator rest) as [i|] eqn:Hf; [|done].
    destruct (find_Some _ _ _ Hf) as (t & E & Ht).
    destruct (Nat.eqb_spec i 0); [done|]. destruct (Nat.ltb_spec 64 i); [done|]. cbn [orb].
    destruct (forallb codeChar (take i rest)) eqn:Hc; [|done]. intros [= <-]. cbn [rf_code rf_text].
    change (i + 2)%nat with (i + length kitSeparator)%nat. rewrite Ht.
    assert (i ≤ length rest)%nat.
    { destruct (decide (length rest < i)%nat); [|lia]. rewrite take_ge in E by lia.
      apply (f_equal length) in E. rewrite !length_app in E. cbn in E. lia. }
    rewrite length_take, Nat.min_l by lia. split_and!; [lia|lia|done|by rewrite <- E].
  - destruct r as [code text]. cbn [rf_code rf_text]. intros [[Hn Hc] ->].
    rewrite take_app_length, drop_app_length, bool_decide_true by done. cbn [negb].
    rewrite find_separator by done. destruct (Nat.eqb_spec (length code) 0); [lia|].
    destruct (Nat.ltb_spec 64 (length code)); [lia|]. cbn [orb].
    rewrite take_app_length, Hc. do 2 f_equal. rewrite app_assoc. by rewrite drop_app_length' by (rewrite length_app; cbn; lia).
Qed.

(** [KitReply::refused] reads back: the code and text are recovered for every code the parser
    takes, and a message of another form never passes for a refusal. *)
Theorem refusal_roundtrip code text message :
  (code_ok code ↔ kr_refusal (refused code text) = Some (mkRefusal code text)) ∧
  (∀ r, parseKitRefusal message = Some r ↔ code_ok (rf_code r) ∧ refused (rf_code r) (rf_text r) = replyFrom (mkExecReply AppError message)).
Proof.
  split.
  - unfold refused, replyFrom. cbn [er_status er_payload kr_refusal]. rewrite bool_decide_true by done.
    rewrite parseKitRefusal_iff. cbn [rf_code rf_text]. naive_solver.
  - intros r. rewrite parseKitRefusal_iff. unfold refused. split.
    + intros [? ->]. done.
    + intros [? E]. split; [done|]. by apply (f_equal kr_payload) in E.
Qed.

(** ** Shards *)

Lemma floorDiv_div a b : 0 < b → floorDiv a b = a / b.
Proof.
  intros Hb. unfold floorDiv. pose proof (Z.quot_rem' a b). pose proof (Z.rem_bound_abs a b ltac:(lia)).
  rewrite (proj2 (Z.ltb_ge b 0)) by lia.
  destruct (Z.ltb_spec a 0).
  - pose proof (Z.rem_nonpos a b ltac:(lia) ltac:(lia)).
    destruct (Z.eqb_spec (Z.rem a b) 0); cbn.
    + apply Z.div_unique with 0; lia.
    + apply Z.div_unique with (Z.rem a b + b); lia.
  - rewrite Z.quot_div_nonneg by lia. by rewrite andb_false_r.
Qed.

(** The side of a shard, and a shard's key by its place in the grid. *)
Definition side (size : Z) : Z := Z.max 1 size.
Definition centre_of (size i : Z) : Z := i * side size + side size / 2.

Lemma side_eq size : (if size <? 1 then 1 else size) = side size.
Proof. unfold side. destruct (Z.ltb_spec size 1); lia. Qed.

Lemma int64_Some z r : int64 z = Some r ↔ r = z ∧ in_s 64 z.
Proof. unfold int64. case_decide; naive_solver. Qed.

Lemma int64_in z : in_s 64 z → int64 z = Some z.
Proof. intros. by apply int64_Some. Qed.

Lemma shardCentre_Some x z size cx cz :
  shardCentre x z size = Some (cx, cz) →
  cx = centre_of size (x / side size) ∧ cz = centre_of size (z / side size) ∧ in_s 64 cx ∧ in_s 64 cz.
Proof.
  unfold shardCentre. rewrite side_eq. assert (0 < side size) by (unfold side; lia).
  rewrite !floorDiv_div, Z.quot_div_nonneg by lia.
  unfold centre_of. generalize (x / side size) (z / side size) (side size / 2). intros i j h E.
  repeat (apply bind_Some in E as (? & [-> ?]%int64_Some & E)). by simplify_eq.
Qed.

(** A chunk a shard away from the ends of the range has a centre. *)
Lemma shardCentre_defined x z size :
  in_s 64 (x - side size) → in_s 64 (x + side size) → in_s 64 (z - side size) → in_s 64 (z + side size) →
  shardCentre x z size = Some (centre_of size (x / side size), centre_of size (z / side size)).
Proof.
  intros. unfold shardCentre. rewrite side_eq. assert (0 < side size) by (unfold side; lia).
  rewrite !floorDiv_div, Z.quot_div_nonneg by lia. unfold centre_of, in_s in *.
  pose proof (Z.div_mod x (side size)). pose proof (Z.mod_pos_bound x (side size)).
  pose proof (Z.div_mod z (side size)). pose proof (Z.mod_pos_bound z (side size)).
  pose proof (Z.div_le_upper_bound (side size) 2 (side size)). pose proof (Z.div_pos (side size) 2).
  repeat (rewrite int64_in by (unfold in_s; lia); cbn [mbind option_bind]). done.
Qed.

Lemma centre_inside size i : 0 ≤ side size / 2 < side size ∧ centre_of size i / side size = i.
Proof.
  assert (0 < side size) by (unfold side; lia). assert (0 ≤ side size / 2 < side size) as Hh.
  { split; [apply Z.div_pos|apply Z.div_lt]; lia. }
  split; [done|]. unfold centre_of. symmetry. apply Z.div_unique with (side size / 2); lia.
Qed.

Lemma trimFront_digits s : (∀ c, c ∈ s → isSpaceChar c = false) → trimFront s = s.
Proof. destruct s as [|c s]; [done|]. intros H. cbn. by rewrite (H c) by set_solver. Qed.

Lemma trim_digits s : (∀ c, c ∈ s → isSpaceChar c = false) → trim s = s.
Proof.
  intros H. unfold trim. rewrite (trimFront_digits s), trimFront_digits, reverse_involutive; try done.
  intros c. rewrite elem_of_reverse. apply H.
Qed.

Lemma decimal_plain n c : c ∈ decimal n → isSpaceChar c = false ∧ c ≠ 44.
Proof.
  destruct (decimal_digits n) as (d & -> & _ & Hd & _). rewrite forallb_forall in Hd.
  assert (∀ c, c ∈ d → isSpaceChar c = false ∧ c ≠ 44) as Hp.
  { intros c' Hc. apply list_elem_of_In, Hd, isDigit_iff in Hc. unfold isSpaceChar. lia. }
  destruct (n <? 0); [|apply Hp]. rewrite elem_of_cons. intros [-> | ?]; [done|by apply Hp].
Qed.

Lemma number_decimal n : in_s 64 n → number (trim (decimal n)) = Some n.
Proof.
  intros Hn. rewrite trim_digits by (intros c Hc; by apply (decimal_plain n)).
  unfold number. destruct (decimal_value n) as [-> ->]. by rewrite bool_decide_true.
Qed.

(** Reading a key gives its centre back. *)
Lemma parse_keyOf cx cz : in_s 64 cx → in_s 64 cz → parseShardKey (keyOf cx cz) = Some (cx, cz).
Proof.
  intros. unfold parseShardKey, keyOf. change ([44] ++ decimal cz) with (44 :: decimal cz).
  rewrite (find_at 44) by (intros Hc; by apply (decimal_plain cx) in Hc as [_ ?]). cbn [mbind option_bind].
  rewrite take_app_length, number_decimal by done. cbn [mbind option_bind].
  replace (length (decimal cx) + 1)%nat with (length (decimal cx ++ [44])) by (by rewrite length_app).
  change (44 :: decimal cz) with ([44] ++ decimal cz).
  rewrite app_assoc, drop_app_length, number_decimal by done. done.
Qed.

(** The chunks of the shard with this centre. *)
Definition in_shard (size cx cz x z : Z) : Prop :=
  cx - side size / 2 ≤ x < cx - side size / 2 + side size ∧
  cz - side size / 2 ≤ z < cz - side size / 2 + side size.

Lemma in_row size i x :
  centre_of size i - side size / 2 ≤ x < centre_of size i - side size / 2 + side size ↔ x / side size = i.
Proof.
  unfold centre_of. assert (0 < side size) by (unfold side; lia).
  pose proof (Z.div_mod x (side size)). pose proof (Z.mod_pos_bound x (side size)). split.
  - intros. symmetry. apply Z.div_unique with (x - i * side size); lia.
  - intros <-. lia.
Qed.

Lemma in_shard_iff size i j x z :
  in_shard size (centre_of size i) (centre_of size j) x z ↔ x / side size = i ∧ z / side size = j.
Proof. unfold in_shard. by rewrite !in_row. Qed.

Lemma centre_of_inj size i j : centre_of size i = centre_of size j → i = j.
Proof. intros E. rewrite <- (proj2 (centre_inside size i)), E. apply centre_inside. Qed.

(** The shards are a partition: a chunk lies in the shard of its centre, two chunks have the same
    centre exactly when one lies in the other's shard, a centre lies in its own shard, and the key
    reads back as the centre. *)
Theorem shard_partition x z size cx cz :
  shardCentre x z size = Some (cx, cz) →
  in_shard size cx cz x z ∧ in_shard size cx cz cx cz ∧
  parseShardKey (keyOf cx cz) = Some (cx, cz) ∧
  ∀ x' z' centre, shardCentre x' z' size = Some centre → (centre = (cx, cz) ↔ in_shard size cx cz x' z').
Proof.
  intros (-> & -> & Hx & Hz)%shardCentre_Some. rewrite !in_shard_iff.
  split; [done|]. split; [split; apply centre_inside|]. split; [by apply parse_keyOf|].
  intros x' z' [cx' cz'] (-> & -> & _)%shardCentre_Some. rewrite in_shard_iff. split.
  - by intros [= ?%centre_of_inj ?%centre_of_inj].
  - by intros [-> ->].
Qed.

Lemma elem_of_steps r d : d ∈ steps r ↔ - r ≤ d ≤ r.
Proof. unfold steps. rewrite elem_of_seqZ. lia. Qed.

Lemma elem_of_around r d : d ∈ around r ↔ - r ≤ d.1 ≤ r ∧ - r ≤ d.2 ≤ r ∧ d ≠ (0, 0).
Proof.
  unfold around. rewrite list_elem_of_In, filter_In, <- list_elem_of_In, list_elem_of_bind.
  destruct d as [dx dz]. cbn [fst snd]. split.
  - intros [(dz' & (dx' & [= -> ->] & H1)%list_elem_of_fmap & H2) Hne].
    rewrite elem_of_steps in H1, H2. split_and!; try lia. intros [= -> ->]. done.
  - intros (H1 & H2 & Hne). split.
    + exists dz. rewrite list_elem_of_fmap. split; [exists dx; by rewrite elem_of_steps|by rewrite elem_of_steps].
    + destruct (Z.eqb_spec dx 0), (Z.eqb_spec dz 0); subst; done.
Qed.

Lemma NoDup_around r : NoDup (around r).
Proof.
  unfold around. apply NoDup_ListNoDup, NoDup_filter, NoDup_ListNoDup. apply NoDup_bind.
  - intros z z' [a b] _ _ (? & [= _ <-] & _)%list_elem_of_fmap (? & [= _ <-] & _)%list_elem_of_fmap. done.
  - intros z _. apply (NoDup_fmap_2_strong (λ x, (x, z))); [|apply NoDup_seqZ]. by intros ???? [= ->].
  - apply NoDup_seqZ.
Qed.

Lemma shardAway_Some size i j d key :
  shardAway (centre_of size i) (centre_of size j) (side size) d = Some key →
  key = keyOf (centre_of size (i + d.1)) (centre_of size (j + d.2)) ∧
  in_s 64 (centre_of size (i + d.1)) ∧ in_s 64 (centre_of size (j + d.2)).
Proof.
  unfold shardAway. intros E. repeat (apply bind_Some in E as (? & [-> ?]%int64_Some & E)). simplify_eq.
  unfold centre_of in *. rewrite !Z.mul_add_distr_r.
  replace (i * side size + d.1 * side size + side size / 2) with (i * side size + side size / 2 + d.1 * side size) by lia.
  replace (j * side size + d.2 * side size + side size / 2) with (j * side size + side size / 2 + d.2 * side size) by lia.
  done.
Qed.

Lemma keyOf_inj cx cz cx' cz' :
  in_s 64 cx → in_s 64 cz → in_s 64 cx' → in_s 64 cz' → keyOf cx cz = keyOf cx' cz' → cx = cx' ∧ cz = cz'.
Proof.
  intros H1 H2 H3 H4 E. apply (f_equal parseShardKey) in E. rewrite !parse_keyOf in E by done. by simplify_eq.
Qed.

(** The key [d] shards from the one at [i], [j] of the grid. *)
Definition gridKey (size i j : Z) (d : Z * Z) : bytes := keyOf (centre_of size (i + d.1)) (centre_of size (j + d.2)).
Definition grid_ok (size i j : Z) (d : Z * Z) : Prop :=
  in_s 64 (centre_of size (i + d.1)) ∧ in_s 64 (centre_of size (j + d.2)).

Lemma gridKey_inj size i j d d' :
  grid_ok size i j d → grid_ok size i j d' → gridKey size i j d = gridKey size i j d' → d = d'.
Proof.
  intros [] [] E. apply keyOf_inj in E as [E1%centre_of_inj E2%centre_of_inj]; try done.
  destruct d, d'; cbn in *. f_equal; lia.
Qed.

Lemma mapM_shardAway size i j l keys :
  mapM (shardAway (centre_of size i) (centre_of size j) (side size)) l = Some keys →
  keys = gridKey size i j <$> l ∧ Forall (grid_ok size i j) l.
Proof.
  intros H%mapM_Some_1. induction H as [|d key l keys E _ [-> ?]]; [done|].
  apply shardAway_Some in E as (-> & ? & ?).
  split; [done|]. by constructor.
Qed.

Lemma shardKeysAround_keys x z size r keys :
  shardKeysAround x z size r = Some keys →
  let i := x / side size in let j := z / side size in
  keys = gridKey size i j <$> ((0, 0) :: around r) ∧ Forall (grid_ok size i j) ((0, 0) :: around r) ∧
  shardKey x z size = Some (gridKey size i j (0, 0)).
Proof.
  unfold shardKeysAround, shardKey. rewrite side_eq.
  assert (shardCentre x z (side size) = shardCentre x z size) as ->.
  { unfold shardCentre. rewrite !side_eq. by replace (side (side size)) with (side size) by (unfold side; lia). }
  intros ([cx cz] & Hc & E)%bind_Some. rewrite Hc. pose proof Hc as (-> & -> & ? & ?)%shardCentre_Some.
  apply bind_Some in E as (? & _ & E). apply bind_Some in E as (? & _ & E).
  apply bind_Some in E as (others & [-> Ho]%mapM_shardAway & [= <-]).
  cbn [fmap list_fmap]. unfold gridKey at 2 4. cbn [fst snd]. rewrite !Z.add_0_r. split_and!; [done| |done].
  constructor; [|done]. unfold grid_ok. cbn [fst snd]. by rewrite !Z.add_0_r.
Qed.

Lemma near_row size r x x' :
  0 ≤ r → Z.abs (x' - x) ≤ r * side size → - r ≤ x' / side size - x / side size ≤ r.
Proof.
  intros. assert (0 < side size) by (unfold side; lia).
  pose proof (Z.div_mod x (side size)). pose proof (Z.mod_pos_bound x (side size)).
  pose proof (Z.div_mod x' (side size)). pose proof (Z.mod_pos_bound x' (side size)).
  split; apply Z.lt_succ_r || (apply Z.lt_pred_le); nia.
Qed.

(** [shardKeysAround]: its own shard's key first, no key twice, the keys of the shards at most
    [radius] away on each axis and no others; so every chunk at most [radius] shard sides away on
    each axis lies in a listed shard. *)
Theorem shardKeysAround_covers x z size radius keys :
  0 ≤ radius → shardKeysAround x z size radius = Some keys →
  head keys = shardKey x z size ∧ NoDup keys ∧
  (∀ key, key ∈ keys ↔ ∃ dx dz, Z.abs dx ≤ radius ∧ Z.abs dz ≤ radius ∧
     key = keyOf (centre_of size (x / side size + dx)) (centre_of size (z / side size + dz))) ∧
  ∀ x' z' key, shardKey x' z' size = Some key →
    Z.abs (x' - x) ≤ radius * side size → Z.abs (z' - z) ≤ radius * side size → key ∈ keys.
Proof.
  intros Hr (-> & Hok & Hk)%shardKeysAround_keys. rewrite Hk.
  set (i := x / side size) in *. set (j := z / side size) in *.
  assert (∀ key, key ∈ gridKey size i j <$> ((0, 0) :: around radius) ↔
    ∃ dx dz, Z.abs dx ≤ radius ∧ Z.abs dz ≤ radius ∧ key = gridKey size i j (dx, dz)) as Hkeys.
  { intros key. rewrite list_elem_of_fmap. split.
    - intros ([dx dz] & -> & Hd). exists dx, dz. apply elem_of_cons in Hd as [[= -> ->] | (? & ? & _)%elem_of_around]; cbn in *; split_and!; try done; lia.
    - intros (dx & dz & ? & ? & ->). exists (dx, dz). split; [done|]. rewrite elem_of_cons.
      destruct (decide ((dx, dz) = (0, 0))); [by left|right]. apply elem_of_around. cbn. split_and!; try done; lia. }
  split_and!; [done| |exact Hkeys|].
  - apply NoDup_fmap_2_strong.
    + intros d d' Hd Hd'. rewrite List.Forall_forall in Hok.
      apply gridKey_inj; apply Hok; by apply list_elem_of_In.
    + constructor; [|apply NoDup_around]. by intros (_ & _ & ?)%elem_of_around.
  - intros x' z' key ([cx cz] & (-> & -> & _)%shardCentre_Some & [= <-])%bind_Some Hx Hz.
    apply Hkeys. exists (x' / side size - i), (z' / side size - j).
    pose proof (near_row size radius x x' Hr Hx). pose proof (near_row size radius z z' Hr Hz).
    split_and!; [unfold i; lia|unfold j; lia|]. unfold gridKey. cbn [fst snd]. do 2 f_equal; lia.
Qed.
