(* ===== verification/KitRuntime.v ===== *)
(** * The game kit's runtime

    [KitRuntime::Impl] of [src/kit/runtime.cpp]: calls of a hub with their resends, the budget that
    paces what is sent, the timer thread, subscriptions under the gateway's cap. A method runs as
    tasks ([Tasks]): a critical section of one of its mutexes, a read of [closed_], or a call to the
    outside. The Exec connection is outside: it answers every call and subscription once, at any
    time ([enters]); what [connect] of [ExecAPI] returns and the ids the connection gives are given.
    A callback of the caller is a number; an [Attempt] and a [SubWait], which C++ shares by pointer,
    are entries of [attempts_] and [waits_]. Clocks are nanoseconds; the arithmetic of doubles is
    the class [Dbl]. A wait of the timer thread ends at any time. What weak pointers to a destroyed
    runtime do is left out, and so are the player's id and the runtime's getters. *)

From S2P Require Import Prelude Bytes Core Json Endpoint ExecWire KitProtocol Tasks.

Open Scope Z_scope.

(** The operations on [double] the budget and the jitter use. *)
Class Dbl (F : Type) := {
  d_int : Z → F; d_add : F → F → F; d_sub : F → F → F; d_mul : F → F → F; d_div : F → F → F; d_min : F → F → F;
  d_le : F → F → bool; d_trunc : F → Z }.

(** ** The budget *)

Record KitRuntimeOptions := mkKitOptions {
  ko_connection : bool (** a connection is given *); ko_exec : bool (** there is an exec client *);
  ko_callBudget : Z; ko_budgetWindowMs : Z; ko_retries : Z }.

Definition capacity_ (o : KitRuntimeOptions) : Z := Z.max 1 (ko_callBudget o).
Definition windowMs_ (o : KitRuntimeOptions) : Z := Z.max 1 (ko_budgetWindowMs o).
Definition retries_ (o : KitRuntimeOptions) : Z := Z.max 0 (ko_retries o).

Definition perMs : Z := 1000000.

Record Budget (F : Type) := mkBudget { tokens_ : F; last_ : Z; blockedUntil_ : Z }.
Arguments mkBudget {F} _ _ _.
Arguments tokens_ {F} _.
Arguments last_ {F} _.
Arguments blockedUntil_ {F} _.

Section Budgets.
Context {F : Type} `{!Dbl F}.
Variable opts : KitRuntimeOptions.

Definition newBudget (now : Z) : Budget F := mkBudget (d_int (capacity_ opts)) now 0.

(** The tokens there are at a time. *)
Definition refilled (now : Z) (b : Budget F) : F :=
  let elapsed := d_div (d_int (now - last_ b)) (d_int perMs) in
  d_min (d_int (capacity_ opts)) (d_add (tokens_ b) (d_div (d_mul elapsed (d_int (capacity_ opts))) (d_int (windowMs_ opts)))).

Definition takeOrWait (now : Z) (b : Budget F) : Z * Budget F :=
  if now <? blockedUntil_ b then (Z.max 1 (Z.quot (blockedUntil_ b - now) perMs), b)
  else
    let tokens := refilled now b in
    if d_le (d_int 1) tokens then (0, mkBudget (d_sub tokens (d_int 1)) now (blockedUntil_ b))
    else
      (Z.max 1 (d_trunc (d_div (d_mul (d_sub (d_int 1) tokens) (d_int (windowMs_ opts))) (d_int (capacity_ opts))) + 1),
       mkBudget tokens now (blockedUntil_ b)).

Definition hold (now ms : Z) (b : Budget F) : Budget F :=
  mkBudget (d_int 0) (last_ b) (Z.max (blockedUntil_ b) (now + ms * perMs)).
End Budgets.

(** ** Data *)

Record HubCall := mkHubCall { hc_nodeType : bytes; hc_key : bytes; hc_method : bytes; hc_args : JVal; hc_timeoutMs : Z }.
Record KitCallOptions := mkCallOptions { co_action : bool; co_actionId : bytes; co_timeoutMs : Z }.

Record Attempt := mkAttempt {
  am_call : HubCall; am_hasActionId : bool; am_done : option Z; am_attempt : Z; am_sent : bool; am_settled : bool }.
Record SubWait := mkSubWait { sw_done : option Z; sw_sent : bool; sw_settled : bool }.
Record Topic := mkTopic { tp_nodeType : bytes; tp_key : bytes; tp_topic : bytes }.
Record Handle := mkHandle { ha_topicKey : bytes; ha_connHandle : Z; ha_wait : nat }.

Definition set_sent (b : bool) (a : Attempt) : Attempt :=
  mkAttempt (am_call a) (am_hasActionId a) (am_done a) (am_attempt a) b (am_settled a).
Definition set_settled (a : Attempt) : Attempt :=
  mkAttempt (am_call a) (am_hasActionId a) None (am_attempt a) (am_sent a) true.
Definition oneMore (a : Attempt) : Attempt :=
  mkAttempt (am_call a) (am_hasActionId a) (am_done a) (am_attempt a + 1) (am_sent a) (am_settled a).

(** What the budget paces: [fn] of [send], [go] of [subscribe], the end of [unsubscribe]. *)
Inductive Paced := PSend (a : nat) | PGo (handle : Z) (topic : Topic) (w : nat) | PUnsub (ch : Z).
(** What waits on the timer: the caller's, [paced] again, [send] again. *)
Inductive TimerFn := FUser (fn : Z) | FPaced (p : Paced) | FRetry (a : nat).
(** What is delivered. *)
Inductive Job := JDone (q : Z) (r : KitReply) | JTimer (f : TimerFn).

Definition closedReply : KitReply := replyFrom (mkExecReply Unavailable (chars "the kit is closed")).
Definition kKitSubscriptionsMax : nat := 256.
Definition topicKeyOf (t : Topic) : bytes := tp_nodeType t ++ [0] ++ tp_key t ++ [0] ++ tp_topic t.

(** ** State *)

(** [turning]: the worker is outside its mutex, at what it took out. *)
Record Timer := mkTimer {
  due_ : list (Z * Z); fns_ : list (Z * TimerFn); nextTimer_ : Z; stopping_ : bool; worker_ : bool; turning : bool }.
Record Conn := mkConn { conn_ : bool; ended_ : bytes; reconnectId_ : Z; accessEndedId_ : Z }.
Record Subs := mkSubs { counts_ : list (bytes * Z); handles_ : list (Z * Handle); pendingUnsubs_ : list Z; nextHandle_ : Z }.
Record Listeners := mkListeners { reconnectListeners_ : list Z; endedListeners_ : list Z; nextListener_ : Z }.

Record Kit (F : Type) := mkKit {
  closed_ : bool; timer : Timer; budget : Budget F; conn : Conn; subs : Subs; listeners : Listeners;
  attempts_ : list Attempt; waits_ : list SubWait; posted_ : option (Queue Job) }.
Arguments mkKit {F} _ _ _ _ _ _ _ _ _.
Arguments closed_ {F} _.
Arguments timer {F} _.
Arguments budget {F} _.
Arguments conn {F} _.
Arguments subs {F} _.
Arguments listeners {F} _.
Arguments attempts_ {F} _.
Arguments waits_ {F} _.
Arguments posted_ {F} _.

Section Setters.
Context {F : Type}.
Implicit Types k : Kit F.
Definition set_closed k : Kit F :=
  mkKit true (timer k) (budget k) (conn k) (subs k) (listeners k) (attempts_ k) (waits_ k) (posted_ k).
Definition set_timer v k : Kit F :=
  mkKit (closed_ k) v (budget k) (conn k) (subs k) (listeners k) (attempts_ k) (waits_ k) (posted_ k).
Definition set_budget v k : Kit F :=
  mkKit (closed_ k) (timer k) v (conn k) (subs k) (listeners k) (attempts_ k) (waits_ k) (posted_ k).
Definition set_conn v k : Kit F :=
  mkKit (closed_ k) (timer k) (budget k) v (subs k) (listeners k) (attempts_ k) (waits_ k) (posted_ k).
Definition set_subs v k : Kit F :=
  mkKit (closed_ k) (timer k) (budget k) (conn k) v (listeners k) (attempts_ k) (waits_ k) (posted_ k).
Definition set_listeners v k : Kit F :=
  mkKit (closed_ k) (timer k) (budget k) (conn k) (subs k) v (attempts_ k) (waits_ k) (posted_ k).
Definition set_attempts v k : Kit F :=
  mkKit (closed_ k) (timer k) (budget k) (conn k) (subs k) (listeners k) v (waits_ k) (posted_ k).
Definition set_waits v k : Kit F :=
  mkKit (closed_ k) (timer k) (budget k) (conn k) (subs k) (listeners k) (attempts_ k) v (posted_ k).
Definition set_posted v k : Kit F :=
  mkKit (closed_ k) (timer k) (budget k) (conn k) (subs k) (listeners k) (attempts_ k) (waits_ k) v.
End Setters.

Section Kits.
Context {F : Type} `{!Dbl F}.
Variable opts : KitRuntimeOptions.
Implicit Types k : Kit F.

Definition newKit (now : Z) (dispatcher : bool) : Kit F :=
  mkKit false (mkTimer [] [] 0 false false false) (newBudget opts now) (mkConn false [] 0 0) (mkSubs [] [] [] 0) (mkListeners [] [] 0) [] []
    (if dispatcher then Some newQueue else None).

(** ** The timer *)

(** [emplace] of a [std::multimap]: behind what is due at the same time. *)
Fixpoint byTime (t id : Z) (l : list (Z * Z)) : list (Z * Z) :=
  match l with
  | [] => [(t, id)]
  | (t', id') :: l' => if t <? t' then (t, id) :: l else (t', id') :: byTime t id l'
  end.

(** [after]: the id, or [None] when the timer has stopped. *)
Definition after (now delayMs : Z) (f : TimerFn) k : option (Z * Kit F) :=
  let t := timer k in
  if stopping_ t then None else
  let id := nextTimer_ t + 1 in
  Some (id, set_timer (mkTimer (byTime (now + Z.max 0 delayMs * perMs) id (due_ t)) (emplace Z.ltb id f (fns_ t)) id false true (turning t)) k).

Definition cancelTimer (id : Z) k : Kit F :=
  let t := timer k in set_timer (mkTimer (due_ t) (erase id (fns_ t)) (nextTimer_ t) (stopping_ t) (worker_ t) (turning t)) k.

(** A turn of [run]: what is due first, if its time has come, and what it was for. *)
Definition turn (now : Z) k : Kit F * option TimerFn :=
  let t := timer k in
  if stopping_ t then (k, None) else
  match due_ t with
  | [] => (k, None)
  | (next, id) :: due =>
      if now <? next then (k, None)
      else
        let found := look id (fns_ t) in
        (set_timer (mkTimer due (erase id (fns_ t)) (nextTimer_ t) false (worker_ t) (match found with Some _ => true | None => turning t end)) k, found)
  end.
(** The worker locks its mutex again. *)
Definition turned k : Kit F :=
  let t := timer k in set_timer (mkTimer (due_ t) (fns_ t) (nextTimer_ t) (stopping_ t) (worker_ t) false) k.

(** [stopTimer] up to [worker.join()], which is the task [TJoin]: it waits until the worker is through
    with what it took out. (A [close] the worker itself runs, from a callback, detaches it instead.
    Here a method that a callback calls is entered on a thread of its own, so its join comes once
    the turn that called it is over.) *)
Definition stopTimer k : Kit F * list TimerFn :=
  let t := timer k in (set_timer (mkTimer [] [] (nextTimer_ t) true false (turning t)) k, snd <$> fns_ t).

(** ** Attempts *)

Definition alter {A} (f : A → A) (i : nat) (l : list A) : list A := base.alter f i l.

Definition takeAttempt (i : nat) (onlyUnsent : bool) k : Kit F * option Z :=
  match attempts_ k !! i with
  | Some a => if am_settled a || (onlyUnsent && am_sent a) then (k, None) else (set_attempts (alter set_settled i (attempts_ k)) k, am_done a)
  | None => (k, None)
  end.

(** [claimSend]: whether it may be sent. *)
Definition claimSend (i : nat) k : Kit F * bool :=
  match attempts_ k !! i with
  | Some a => if am_settled a then (k, false) else (set_attempts (alter (set_sent true) i (attempts_ k)) k, true)
  | None => (k, false)
  end.
Definition unclaim (i : nat) k : Kit F :=
  set_attempts (alter (λ a, if am_settled a then a else set_sent false a) i (attempts_ k)) k.
Definition clearSent (i : nat) k : Kit F := set_attempts (alter (set_sent false) i (attempts_ k)) k.

(** [200L << attempt] and the jitter, a draw of at least a half and below one. *)
Definition retryDelay (draw : F) (attempt : Z) : option Z :=
  if attempt <? 64 then Some (d_trunc (d_mul (d_int (Z.min 2000 (wrapS 64 (Z.shiftl 200 attempt)))) draw)) else UB.

(** What [answered] does with an answer, when the runtime is not closed. *)
Inductive Verdict := VSettle | VRetry (delayMs : Z) | VHold (ms : Z).

Definition didNotRun (s : ExecStatus) : bool := match s with Busy | RateLimited => true | _ => false end.
Definition unknownOutcome (s : ExecStatus) : bool := match s with DeadlineExceeded | Unavailable | Moved => true | _ => false end.

Definition verdict (draw : F) (reply : ExecReply) (a : Attempt) : option Verdict :=
  let later := delay ← retryDelay draw (am_attempt a); Some (VRetry delay) in
  if execReplyOk reply || (retries_ opts <=? am_attempt a) then Some VSettle
  else if bool_decide (er_status reply = AppError) then
    if am_hasActionId a && bool_decide (replyCode (replyFrom reply) = chars "unavailable") then later else Some VSettle
  else if bool_decide (er_status reply = Busy) && rateLimited reply then Some (VHold (default 1000 (retryAfterMs reply)))
  else if didNotRun (er_status reply) || (am_hasActionId a && unknownOutcome (er_status reply)) then later
  else Some VSettle.

(** ** Subscriptions *)

Definition takeSub (w : nat) (onlyUnsent : bool) k : Kit F * option Z :=
  match waits_ k !! w with
  | Some s => if sw_settled s || (onlyUnsent && sw_sent s) then (k, None) else (set_waits (alter (λ s, mkSubWait None (sw_sent s) true) w (waits_ k)) k, sw_done s)
  | None => (k, None)
  end.
Definition claimSub (w : nat) k : Kit F * bool :=
  match waits_ k !! w with
  | Some s => if sw_settled s then (k, false) else (set_waits (alter (λ s, mkSubWait (sw_done s) true (sw_settled s)) w (waits_ k)) k, true)
  | None => (k, false)
  end.
Definition unclaimSub (w : nat) k : Kit F :=
  set_waits (alter (λ s, if sw_settled s then s else mkSubWait (sw_done s) false (sw_settled s)) w (waits_ k)) k.

(** The count of a topic, the handle, and whether it is the topic's first; [None] past the cap. *)
Definition countTopic (topic : Topic) (done : option Z) k : option (Kit F * Z * nat * bool) :=
  let s := subs k in
  let key := topicKeyOf topic in
  let held := look key (counts_ s) in
  if bool_decide (held = None) && (kKitSubscriptionsMax <=? length (counts_ s))%nat then None else
  let counts := match held with
    | Some _ => change key (λ n, n + 1) (counts_ s)
    | None => emplace less key 1 (counts_ s) end in
  let handle := nextHandle_ s + 1 in
  let w := length (waits_ k) in
  Some (set_waits (waits_ k ++ [mkSubWait done false false])
          (set_subs (mkSubs counts (emplace Z.ltb handle (mkHandle key 0 w) (handles_ s)) (pendingUnsubs_ s) handle) k),
        handle, w, bool_decide (held = None)).

(** Whether the connection's handle has to be given back at once. *)
Definition keepHandle (handle ch : Z) k : Kit F * bool :=
  let s := subs k in
  match look handle (handles_ s) with
  | None => (k, true)
  | Some _ =>
      if closed_ k then (k, true)
      else (set_subs (mkSubs (counts_ s) (change handle (λ h, mkHandle (ha_topicKey h) ch (ha_wait h)) (handles_ s)) (pendingUnsubs_ s) (nextHandle_ s)) k, false)
  end.

(** The connection's handle, and whether the topic's last one is gone. *)
Definition forget (handle : Z) k : Kit F * option (Z * bool) :=
  let s := subs k in
  match look handle (handles_ s) with
  | None => (k, None)
  | Some h =>
      let n := default 0 (look (ha_topicKey h) (counts_ s)) - 1 in
      let last := bool_decide (is_Some (look (ha_topicKey h) (counts_ s))) && (n <=? 0) in
      let counts := if last then erase (ha_topicKey h) (counts_ s) else change (ha_topicKey h) (λ n, n - 1) (counts_ s) in
      (set_subs (mkSubs counts (erase handle (handles_ s)) (pendingUnsubs_ s) (nextHandle_ s)) k, Some (ha_connHandle h, last))
  end.

Fixpoint dropFirst (ch : Z) (l : list Z) : list Z :=
  match l with [] => [] | c :: l => if c =? ch then l else c :: dropFirst ch l end.
Definition dropPending (ch : Z) k : Kit F :=
  let s := subs k in set_subs (mkSubs (counts_ s) (handles_ s) (dropFirst ch (pendingUnsubs_ s)) (nextHandle_ s)) k.
Definition pushUnsub (ch : Z) k : Kit F :=
  let s := subs k in set_subs (mkSubs (counts_ s) (handles_ s) (pendingUnsubs_ s ++ [ch]) (nextHandle_ s)) k.

(** [close]'s sweep: the connection's handles to give back, the waits to fail. *)
Definition sweepSubs (hasConn : bool) k : Kit F * list Z * list nat :=
  let s := subs k in
  let held := snd <$> handles_ s in
  (set_subs (mkSubs [] [] [] (nextHandle_ s)) k,
   pendingUnsubs_ s ++ (if hasConn then ha_connHandle <$> List.filter (λ h, negb (ha_connHandle h =? 0)) held else []),
   ha_wait <$> held).

(** ** The connection *)

(** [connection()]: whether there is one, and whether it is new; [made] is whether the exec client
    makes one, [ids] those of the listeners on a new one. *)
Definition connection (made : bool) (ids : Z * Z) k : Kit F * bool * bool :=
  let c := conn k in
  if closed_ k || negb (bool_decide (ended_ c = [])) then (k, false, false)
  else if conn_ c then (k, true, false)
  else if ko_connection opts || (ko_exec opts && made) then (set_conn (mkConn true (ended_ c) ids.1 ids.2) k, true, true)
  else (k, false, false).

Definition setEnded (reason : bytes) k : Kit F :=
  let c := conn k in
  set_conn (mkConn (conn_ c) (if bool_decide (reason = []) then chars "access ended" else reason) (reconnectId_ c) (accessEndedId_ c)) k.

(** [close]: whether there is a connection, and the ids of the listeners on it. *)
Definition leaveConn k : Kit F * bool * Z * Z :=
  let c := conn k in
  (set_conn (mkConn false (ended_ c) 0 0) k, conn_ c || ko_connection opts, reconnectId_ c, accessEndedId_ c).
End Kits.

(** ** Tasks *)

(** What happens outside, in order: what is asked and called back, calls of the connection and its
    answers. [NDropped] is a job a closed dispatcher does not take or run; [NTurn] and [NTurned] are
    the beginning and the end of a turn of the timer thread. *)
Inductive Notice :=
| NAsked (q : Z) | NDone (q : Z) (r : KitReply)
| NHandle (h : Z) | NTimer (id : Z) | NUser (fn : Z)
| NOpen | NCall (a : nat) (c : HubCall) | NAnswered (a : nat) (r : ExecReply)
| NSubscribe (w : nat) (ch : Z) (t : Topic) | NSubAnswered (w : nat) (r : ExecReply) | NUnsubscribe (ch : Z)
| NRemoveListener (id : Z) | NClose
| NReconnected (l : Z) (host : bytes) | NAccessEnded (l : Z) (reason : bytes)
| NDropped (j : Job)
| NTurn | NTurned.

Inductive Task :=
| TCall (nodeType key method : bytes) (args : JVal) (options : KitCallOptions) (done : option Z)
| TSubscribe (t : Topic) (done : option Z) | TCount (t : Topic) (done : option Z)
| TUnsubscribe (h : Z) | TUnsubConn (ch : Z) (last : bool) | TUnsubPick (ch : Z) (last : bool) | TPushUnsub (ch : Z)
| TAfter (fn delayMs : Z) | TCancel (id : Z) | TTurn | TTurned
| TClose | TStopTimer | TJoin | TLeaveConn | TSweep (hasConn : bool) (reconnectId accessEndedId : Z)
| TOnReconnect | TOnAccessEnded | TRemoveListener (id : Z) | TReconnected (host : bytes) | TEnded (reason : bytes) | TNotifyEnded (reason : bytes)
| TSend (a : nat) | TPaced (p : Paced) | TTake (p : Paced) | TQueue (delayMs : Z) (f : TimerFn) | TDrop (f : TimerFn)
| TRunPaced (p : Paced) | TConnect (p : Paced) | TNoConn (p : Paced) | TClaim (p : Paced) | TRecheck (p : Paced)
| TUnclaim (p : Paced) | TWire (p : Paced) | TKeep (h ch : Z) | TDropPending (ch : Z) | TConnUnsub (ch : Z)
| TAnswered (a : nat) (r : ExecReply) | THold (ms : Z) (a : nat) | TAgain (a : nat) | TRetry (a : nat) (delayMs : Z)
| TSubAnswered (w : nat) (r : ExecReply)
| TFailUnsent (a : nat) | TFailSub (w : nat)
| TSettle (a : nat) (r : KitReply) (direct : bool) | TSettleSub (w : nat) (r : KitReply) (direct : bool)
| TDeliver (j : Job) | TRun (j : Job) | TTold (n : Notice)
| TPoll | TPolled (j : Job) | TCloseDispatcher.

(** What the outside gives a task: the time, a draw, the two draws of an action id, whether a
    connection is made and the ids of the listeners on it, the handle of a subscription. *)
Record Given (F : Type) := mkGiven {
  gv_now : Z; gv_draw : F; gv_id : Z * Z; gv_made : bool; gv_listeners : Z * Z; gv_handle : Z }.
Arguments mkGiven {F} _ _ _ _ _ _.
Arguments gv_now {F} _.
Arguments gv_draw {F} _.
Arguments gv_id {F} _.
Arguments gv_made {F} _.
Arguments gv_listeners {F} _.
Arguments gv_handle {F} _.

(** Delivered, or called at once. *)
Definition answer (direct : bool) (r : KitReply) (done : option Z) : list Task :=
  match done with Some q => [if direct then TTold (NDone q r) else TDeliver (JDone q r)] | None => [] end.

Definition noExecClient (ended : bytes) : KitReply :=
  replyFrom (if bool_decide (ended = [])
    then mkExecReply Unavailable (chars "the kit has no exec client to connect with")
    else mkExecReply Denied (chars "access ended: " ++ ended)).
Definition noConnection : KitReply := replyFrom (mkExecReply Unavailable (chars "the kit has no connection")).

(** [onDrop] of what waits on the timer. *)
Definition dropOf (f : TimerFn) : list Task :=
  match f with
  | FPaced (PSend a) | FRetry a => [TFailUnsent a]
  | FPaced (PGo _ _ w) => [TFailSub w]
  | FPaced (PUnsub _) | FUser _ => []
  end.

Definition runTimer (f : TimerFn) : list Task * list Notice :=
  match f with
  | FUser fn => ([], [NUser fn])
  | FPaced p => ([TPaced p], [])
  | FRetry a => ([TSend a], [])
  end.

Section Machine.
Context {F : Type} `{!Dbl F}.
Variable opts : KitRuntimeOptions.
Implicit Types k : Kit F.

(** [call]: the attempt. *)
Definition newAttempt (draws : Z * Z) (nodeType key method : bytes) (args : JVal) (options : KitCallOptions) (done : option Z) : Attempt :=
  let actionId :=
    if negb (bool_decide (co_actionId options = [])) then co_actionId options
    else if co_action options then newActionId draws.1 draws.2 else [] in
  let has := negb (bool_decide (actionId = [])) in
  mkAttempt (mkHubCall nodeType key method (if has then withActionId args actionId else args) (co_timeoutMs options)) has done 0 false false.

Definition performKit (g : Given F) (t : Task) k : option (Kit F * list Task * list Notice) :=
  let go k ts := Some (k, ts, []) in
  let say k ns := Some (k, [], ns) in
  match t with
  | TCall nodeType key method args options done =>
      let a := length (attempts_ k) in
      go (set_attempts (attempts_ k ++ [newAttempt (gv_id g) nodeType key method args options done]) k) [TSend a]
  | TSubscribe topic done =>
      if closed_ k then Some (k, answer false closedReply done, [NHandle 0]) else go k [TCount topic done]
  | TCount topic done =>
      match countTopic topic done k with
      | None =>
          Some (k, answer false (refused (chars "limit")
                     (chars "a connection holds at most " ++ decimal (Z.of_nat kKitSubscriptionsMax) ++ chars " subscriptions")) done, [NHandle 0])
      | Some (k, h, w, first) => Some (k, [if first : bool then TPaced (PGo h topic w) else TRunPaced (PGo h topic w)], [NHandle h])
      end
  | TUnsubscribe h =>
      let '(k, found) := forget h k in
      go k (match found with Some (ch, last) => if ch =? 0 then [] else [TUnsubConn ch last] | None => [] end)
  | TUnsubConn ch last => go k (if conn_ (conn k) || ko_connection opts then [TUnsubPick ch last] else [])
  | TUnsubPick ch last => go k (if negb last || closed_ k then [TConnUnsub ch] else [TPushUnsub ch])
  | TPushUnsub ch => go (pushUnsub ch k) [TPaced (PUnsub ch)]
  | TAfter fn delayMs =>
      match after (gv_now g) delayMs (FUser fn) k with Some (id, k) => say k [NTimer id] | None => say k [NTimer 0] end
  | TCancel id => go (cancelTimer id k) []
  | TTurn =>
      let '(k, f) := turn (gv_now g) k in
      match f with Some f => go k [TDeliver (JTimer f); TTurned] | None => say k [NTurned] end
  | TTurned => say (turned k) [NTurned]
  | TClose => if closed_ k then go k [] else go (set_closed k) [TStopTimer]
  | TStopTimer => let '(k, fs) := stopTimer k in go k (TJoin :: (TDrop <$> fs) ++ [TLeaveConn])
  | TJoin => if turning (timer k) then None else go k []
  | TLeaveConn => let '(k, has, reconnectId, accessEndedId) := leaveConn opts k in go k [TSweep has reconnectId accessEndedId]
  | TSweep has reconnectId accessEndedId =>
      let '(k, chs, ws) := sweepSubs has k in
      go k ((TFailSub <$> ws) ++ (TConnUnsub <$> List.filter (λ ch, negb (ch =? 0)) chs) ++
            (if has : bool then
               (if reconnectId =? 0 then [] else [TTold (NRemoveListener reconnectId)]) ++
               (if accessEndedId =? 0 then [] else [TTold (NRemoveListener accessEndedId)]) ++
               (if ko_connection opts then [] else [TTold NClose])
             else []))
  | TOnReconnect =>
      let l := listeners k in
      go (set_listeners (mkListeners (reconnectListeners_ l ++ [nextListener_ l + 1]) (endedListeners_ l) (nextListener_ l + 1)) k) []
  | TOnAccessEnded =>
      let l := listeners k in
      go (set_listeners (mkListeners (reconnectListeners_ l) (endedListeners_ l ++ [nextListener_ l + 1]) (nextListener_ l + 1)) k) []
  | TRemoveListener id =>
      let l := listeners k in
      go (set_listeners (mkListeners (List.filter (λ i, negb (i =? id)) (reconnectListeners_ l))
            (List.filter (λ i, negb (i =? id)) (endedListeners_ l)) (nextListener_ l)) k) []
  | TReconnected host => go k ((λ l, TTold (NReconnected l host)) <$> reconnectListeners_ (listeners k))
  | TEnded reason => go (setEnded reason k) [TNotifyEnded reason]
  | TNotifyEnded reason => go k ((λ l, TTold (NAccessEnded l reason)) <$> endedListeners_ (listeners k))
  | TSend a => go k [if closed_ k then TFailUnsent a else TPaced (PSend a)]
  | TPaced p => go k [if closed_ k then TDrop (FPaced p) else TTake p]
  | TTake p =>
      let '(wait, b) := takeOrWait opts (gv_now g) (budget k) in
      go (set_budget b k) [if wait =? 0 then TRunPaced p else TQueue wait (FPaced p)]
  | TQueue delayMs f => match after (gv_now g) delayMs f k with Some (_, k) => go k [] | None => go k [TDrop f] end
  | TDrop f => go k (dropOf f)
  | TRunPaced (PUnsub ch) => go k [TDropPending ch; TConnUnsub ch]
  | TRunPaced (PSend a as p) => go k [if closed_ k then TFailUnsent a else TConnect p]
  | TRunPaced (PGo _ _ w as p) => go k [if closed_ k then TFailSub w else TConnect p]
  | TConnect p =>
      let '(k, has, new) := connection opts (gv_made g) (gv_listeners g) k in
      Some (k, [if has : bool then TClaim p else TNoConn p], if new : bool then [NOpen] else [])
  | TNoConn (PSend a) => go k [TSettle a (noExecClient (ended_ (conn k))) false]
  | TNoConn (PGo _ _ w) => go k [TSettleSub w noConnection false]
  | TClaim (PSend a as p) => let '(k, claimed) := claimSend a k in go k (if claimed : bool then [TRecheck p] else [])
  | TClaim (PGo _ _ w as p) => let '(k, claimed) := claimSub w k in go k (if claimed : bool then [TRecheck p] else [])
  | TRecheck p => go k [if closed_ k then TUnclaim p else TWire p]
  | TUnclaim (PSend a) => go (unclaim a k) [TFailUnsent a]
  | TUnclaim (PGo _ _ w) => go (unclaimSub w k) [TFailSub w]
  | TWire (PSend a) => say k (match attempts_ k !! a with Some at_ => [NCall a (am_call at_)] | None => [] end)
  | TWire (PGo h topic w) => Some (k, [TKeep h (gv_handle g)], [NSubscribe w (gv_handle g) topic])
  | TNoConn (PUnsub _) | TClaim (PUnsub _) | TUnclaim (PUnsub _) | TWire (PUnsub _) => None
  | TKeep h ch => let '(k, drop) := keepHandle h ch k in go k (if drop : bool then [TConnUnsub ch] else [])
  | TDropPending ch => go (dropPending ch k) []
  | TConnUnsub ch => say k [NUnsubscribe ch]
  | TAnswered a r =>
      at_ ← attempts_ k !! a;
      if closed_ k then go k [TSettle a (replyFrom r) true] else
      v ← verdict opts (gv_draw g) r at_;
      match v with
      | VSettle => go k [TSettle a (replyFrom r) true]
      | VRetry delay => go (set_attempts (alter oneMore a (attempts_ k)) k) [TRetry a delay]
      | VHold ms => go (set_attempts (alter oneMore a (attempts_ k)) k) [THold ms a]
      end
  | THold ms a => go (set_budget (hold (gv_now g) ms (budget k)) k) [TAgain a]
  | TAgain a => go (clearSent a k) [TSend a]
  | TRetry a delay => go (clearSent a k) [TQueue delay (FRetry a)]
  | TSubAnswered w r => go k [TSettleSub w (replyFrom r) true]
  | TFailUnsent a => let '(k, done) := takeAttempt a true k in go k (answer false closedReply done)
  | TFailSub w => let '(k, done) := takeSub w true k in go k (answer false closedReply done)
  | TSettle a r direct => let '(k, done) := takeAttempt a false k in go k (answer direct r done)
  | TSettleSub w r direct => let '(k, done) := takeSub w false k in go k (answer direct r done)
  | TDeliver j =>
      match posted_ k with
      | Some q => Some (set_posted (Some (postJob j q)) k, [], if qu_closed q then [NDropped j] else [])
      | None => go k [TRun j]
      end
  | TRun (JDone q r) => say k [NDone q r]
  | TRun (JTimer f) => let '(ts, ns) := runTimer f in Some (k, ts, ns)
  | TTold n => say k [n]
  | TPoll =>
      match posted_ k with
      | Some q => let '(js, q) := swapJobs q in go (set_posted (Some q) k) (TPolled <$> js)
      | None => go k []
      end
  | TPolled j =>
      match posted_ k with
      | Some q => if qu_closed q then say k [NDropped j] else go k [TRun j]
      | None => go k [TRun j]
      end
  | TCloseDispatcher =>
      match posted_ k with
      | Some q => Some (set_posted (Some (closeQueue q)) k, [], NDropped <$> qu_jobs q)
      | None => go k []
      end
  end.

Definition isCallOf (a : nat) (n : Notice) : bool := match n with NCall b _ => (b =? a)%nat | _ => false end.
Definition isAnswerOf (a : nat) (n : Notice) : bool := match n with NAnswered b _ => (b =? a)%nat | _ => false end.
Definition isSubOf (w : nat) (n : Notice) : bool := match n with NSubscribe b _ _ => (b =? w)%nat | _ => false end.
Definition isSubAnswerOf (w : nat) (n : Notice) : bool := match n with NSubAnswered b _ => (b =? w)%nat | _ => false end.
Definition isTurn (n : Notice) : bool := match n with NTurn => true | _ => false end.
Definition isTurned (n : Notice) : bool := match n with NTurned => true | _ => false end.
Definition asks (done : option Z) : list Notice := match done with Some q => [NAsked q] | None => [] end.

(** Methods and what the outside starts: the connection answers each call and subscription once and
    tells its listeners once it is open, the timer thread turns once it is there and its last
    turn is over, and only an id that was returned is cancelled. *)
Definition entersKit (t : Task) k (log : list Notice) : option (list Notice) :=
  match t with
  | TCall _ _ _ _ _ done | TSubscribe _ done => Some (asks done)
  | TUnsubscribe _ | TAfter _ _ | TClose | TOnReconnect | TOnAccessEnded | TRemoveListener _ | TPoll | TCloseDispatcher => Some []
  | TCancel id => if existsb (λ n, match n with NTimer i => i =? id | _ => false end) log then Some [] else None
  | TTurn => if worker_ (timer k) && (number isTurn log =? number isTurned log)%nat then Some [NTurn] else None
  | TReconnected _ | TEnded _ => if existsb (λ n, match n with NOpen => true | _ => false end) log then Some [] else None
  | TAnswered a r => if (number (isAnswerOf a) log <? number (isCallOf a) log)%nat then Some [NAnswered a r] else None
  | TSubAnswered w r => if (number (isSubAnswerOf w) log <? number (isSubOf w) log)%nat then Some [NSubAnswered w r] else None
  | _ => None
  end.

Definition kitWorker : Worker (Kit F) Task Notice (Given F) := {| perform := performKit; enters := entersKit |}.
End Machine.
