(* ===== verification/KitCalls.v ===== *)
(** * Who answers a call of the kit

    Invariants of every system of the kit's runtime ([Tasks.reaches]), whatever its threads, its
    timer and the connection do: a call or a subscription that is not settled is always with
    somebody who goes on with it ([kit_never_forgets]), its callback is called once
    ([kit_callbacks_once]), and a call is only sent again when that is safe ([kit_resends_safe]). *)

From S2P Require Import Prelude Bytes Core Json Endpoint ExecWire KitProtocol Tasks KitRuntime.

Open Scope Z_scope.

#[local] Arguments chars : simpl never.

(** ** Whose turn it is *)

(** An [Attempt] or a [SubWait]. *)
Inductive Who := Att (a : nat) | Sub (w : nat).
#[global] Instance Who_eq_dec : EqDecision Who.
Proof. solve_decision. Defined.

Definition pacedWho (p : Paced) : option Who :=
  match p with PSend a => Some (Att a) | PGo _ _ w => Some (Sub w) | PUnsub _ => None end.
Definition fnWho (f : TimerFn) : option Who :=
  match f with FPaced p => pacedWho p | FRetry a => Some (Att a) | FUser _ => None end.
Definition jobWho (j : Job) : option Who := match j with JTimer f => fnWho f | JDone _ _ => None end.

(** A task goes on with what is not sent, or with what is. *)
Definition unsentWho (t : Task) : option Who :=
  match t with
  | TSend a | TFailUnsent a | TSettle a _ false => Some (Att a)
  | TFailSub w | TSettleSub w _ false => Some (Sub w)
  | TPaced p | TTake p | TRunPaced p | TConnect p | TNoConn p | TClaim p => pacedWho p
  | TQueue _ f | TDrop f => fnWho f
  | TDeliver j | TRun j | TPolled j => jobWho j
  | _ => None
  end.
Definition sentWho (t : Task) : option Who :=
  match t with
  | TRecheck p | TUnclaim p | TWire p => pacedWho p
  | TAnswered a _ | THold _ a | TAgain a | TRetry a _ | TSettle a _ true => Some (Att a)
  | TSubAnswered w _ | TSettleSub w _ true => Some (Sub w)
  | _ => None
  end.
(** Before the connection's answer. *)
Definition toSendWho (t : Task) : option Who :=
  match t with TAnswered _ _ | TSubAnswered _ _ | TSettle _ _ _ | TSettleSub _ _ _ => None | _ => if sentWho t is Some x then Some x else unsentWho t end.

Definition calledWho (n : Notice) : option Who :=
  match n with NCall a _ => Some (Att a) | NSubscribe w _ _ => Some (Sub w) | _ => None end.
Definition answeredWho (n : Notice) : option Who :=
  match n with NAnswered a _ => Some (Att a) | NSubAnswered w _ => Some (Sub w) | _ => None end.
Definition droppedWho (n : Notice) : option Who := match n with NDropped j => jobWho j | _ => None end.

Definition mine (x : Who) (o : option Who) : nat := tally (bool_decide (o = Some x)).

(** The cases of what a task does. *)
Ltac cases_of E :=
  cbn [performKit] in E; try apply bind_Some in E as (? & ? & E);
  repeat match type of E with
  | (_ ≫= _) = Some _ => apply bind_Some in E as (? & ? & E)
  | context [match ?y with _ => _ end] => destruct y eqn:?
  end; try discriminate E; simplify_eq.

Section Calls.
Context {F : Type} `{!Dbl F}.
Variable opts : KitRuntimeOptions.
#[local] Hint Extern 0 (Worker (Kit F) _ _ _) => exact (kitWorker opts) : typeclass_instances.
Implicit Types k : Kit F.

Definition queued k : list Job := match posted_ k with Some q => qu_jobs q | None => [] end.

(** ** The timer *)

Record timer_ok (log : list Notice) k : Prop := {
  to_next : 0 ≤ nextTimer_ (timer k);
  to_keys : NoDup (fns_ (timer k)).*1;
  to_ids : ∀ id f, (id, f) ∈ fns_ (timer k) → 1 ≤ id ≤ nextTimer_ (timer k);
  to_user : ∀ id f, (id, f) ∈ fns_ (timer k) → NTimer id ∈ log → ∃ fn, f = FUser fn;
  to_log : ∀ id, NTimer id ∈ log → id ≤ nextTimer_ (timer k);
  to_due : ∀ id f, (id, f) ∈ fns_ (timer k) → ∃ at_, (at_, id) ∈ due_ (timer k);
  to_worker : fns_ (timer k) ≠ [] → worker_ (timer k) = true;
  to_stopped : stopping_ (timer k) = true → fns_ (timer k) = [] }.

(** What a task leaves to do. *)
Definition follows (t : Task) : bool :=
  match t with
  | TCancel _ => false
  | TTold (NDone _ _ | NRemoveListener _ | NClose | NReconnected _ _ | NAccessEnded _ _) => true
  | TTold _ => false
  | _ => true
  end.
(** What only a task leaves: no method, and no answer of the connection. *)
Definition inner (t : Task) : bool :=
  match t with
  | TCall _ _ _ _ _ _ | TSubscribe _ _ | TUnsubscribe _ | TAfter _ _ | TTurn | TClose | TOnReconnect | TOnAccessEnded | TRemoveListener _
  | TReconnected _ | TEnded _ | TAnswered _ _ | TSubAnswered _ _ | TPoll | TCloseDispatcher => false
  | _ => follows t
  end.
Definition task_ok (log : list Notice) (t : Task) : Prop := follows t = true ∨ ∃ id, t = TCancel id ∧ NTimer id ∈ log.

Lemma timer_fresh log k : timer_ok log k → look (nextTimer_ (timer k) + 1) (fns_ (timer k)) = None.
Proof.
  intros H. apply look_None. intros ([id f'] & E & Hin)%list_elem_of_fmap. cbn in E. pose proof (to_ids _ _ H _ _ Hin). lia.
Qed.

Lemma byTime_Permutation t id l : byTime t id l ≡ₚ (t, id) :: l.
Proof. induction l as [|[t' id'] l IH]; [done|]. cbn. destruct (t <? t'); [done|]. rewrite IH. apply perm_swap. Qed.

Lemma after_ok log now delay f k id k' ns :
  timer_ok log k → after now delay f k = Some (id, k') →
  (ns = [] ∨ ns = [NTimer id] ∧ ∃ fn, f = FUser fn) →
  timer_ok (log ++ ns) k' ∧ fns_ (timer k') ≡ₚ (id, f) :: fns_ (timer k) ∧ attempts_ k' = attempts_ k ∧ waits_ k' = waits_ k ∧ posted_ k' = posted_ k.
Proof.
  intros H E Hns. unfold after in E. destruct (stopping_ (timer k)) eqn:Es; [done|]. injection E as <- <-.
  set (id := nextTimer_ (timer k) + 1). pose proof (emplace_Permutation Z.ltb id f _ (timer_fresh _ _ H)) as Hp.
  pose proof H as []. split; [|done]. cbn. constructor; cbn; try done.
  - lia.
  - rewrite Hp. cbn. apply NoDup_cons_2; [|done]. apply look_None. by eapply timer_fresh.
  - intros i f' [[= -> ->]|Hin]%emplace_keys; [lia|]. pose proof (to_ids0 _ _ Hin). lia.
  - intros i f' [[= -> ->]|Hin]%emplace_keys Hl.
    + destruct Hns as [->|[-> Hf]]; [|done]. rewrite app_nil_r in Hl. apply to_log0 in Hl. lia.
    + apply (to_user0 _ _ Hin). apply elem_of_app in Hl as [|Hl]; [done|]. destruct Hns as [->|[-> _]]; [by apply not_elem_of_nil in Hl|].
      apply list_elem_of_singleton in Hl as [= ->]. pose proof (to_ids0 _ _ Hin). lia.
  - intros i [Hl%to_log0|Hl]%elem_of_app; [lia|]. destruct Hns as [->|[-> _]]; [by apply not_elem_of_nil in Hl|].
    apply list_elem_of_singleton in Hl as [= ->]. lia.
  - intros i f' [[= -> ->]|Hin]%emplace_keys; [eexists; rewrite byTime_Permutation; by left|].
    destruct (to_due0 _ _ Hin) as [w Hw]. exists w. rewrite byTime_Permutation. by right.
Qed.

(** Functions that are gone, or all of them. *)
Lemma timer_ok_shrinks log log' k t' :
  timer_ok log k → nextTimer_ t' = nextTimer_ (timer k) → (stopping_ t' = true → fns_ t' = []) → (fns_ t' ≠ [] → worker_ t' = worker_ (timer k)) →
  NoDup (fns_ t').*1 → (∀ e, e ∈ fns_ t' → e ∈ fns_ (timer k) ∧ ∃ at_, (at_, e.1) ∈ due_ t') → (∀ id, NTimer id ∈ log' → NTimer id ∈ log) →
  timer_ok log' (set_timer t' k).
Proof.
  intros [] En Hs Hw Hd Hf Hl. constructor; cbn; rewrite ?En; try done.
  - intros id f Hin. destruct (Hf _ Hin) as [? _]. eauto.
  - intros id f Hin ?. destruct (Hf _ Hin) as [? _]. eauto.
  - eauto.
  - intros id f Hin. by destruct (Hf _ Hin) as [_ ?].
  - intros Hn. rewrite Hw by done. apply to_worker0. intros E. apply Hn. destruct (fns_ t') as [|e l]; [done|].
    destruct (Hf e) as [Hin _]; [by left|]. rewrite E in Hin. by apply not_elem_of_nil in Hin.
Qed.

Lemma cancel_ok log id k : timer_ok log k → timer_ok log (cancelTimer id k).
Proof.
  intros H. pose proof H as []. apply (timer_ok_shrinks log); try done; cbn.
  - intros Hs. by rewrite to_stopped0.
  - by apply erase_NoDup.
  - intros [i f] Hin%erase_sub. split; [done|]. by eapply to_due0.
Qed.

Lemma turn_ok log now k : timer_ok log k → timer_ok log (turn now k).1.
Proof.
  intros H. unfold turn. destruct (stopping_ (timer k)); [done|]. destruct (due_ (timer k)) as [|[next id] due] eqn:E; [done|].
  destruct (now <? next); [done|]. pose proof H as []. apply (timer_ok_shrinks log); try done; cbn.
  - by apply erase_NoDup.
  - intros [i f] Hin. pose proof (erase_key _ _ _ to_keys0 Hin) as Hi. apply erase_sub in Hin. split; [done|].
    destruct (to_due0 _ _ Hin) as [w Hw]. rewrite E in Hw. apply elem_of_cons in Hw as [[= -> ->]|Hw]; [done|eauto].
Qed.

Lemma stop_ok log k : timer_ok log k → timer_ok log (stopTimer k).1.
Proof. intros H. apply (timer_ok_shrinks log); try done; [apply NoDup_nil_2|]. intros e He. by apply not_elem_of_nil in He. Qed.

Lemma turned_ok log k : timer_ok log k → timer_ok log (turned k).
Proof. by intros []. Qed.

(** No id but that of a timer that has stopped. *)
Definition quiet (ns : list Notice) : Prop := ∀ id, NTimer id ∈ ns → id = 0.

Lemma timer_ok_same log ns k k' : timer k' = timer k → quiet ns → timer_ok log k → timer_ok (log ++ ns) k'.
Proof.
  intros E Hn []. assert (∀ id, NTimer id ∈ log ++ ns → NTimer id ∈ log ∨ id = 0) as Hl.
  { intros id [|Hin]%elem_of_app; auto. }
  constructor; rewrite E; eauto.
  - intros id f Hin [Hi| ->]%Hl; [eauto|]. apply to_ids0 in Hin. lia.
  - intros id [Hi| ->]%Hl; [eauto|done].
Qed.

Section One.
Variable x : Who.

(** Settled, and sent. *)
Definition flags k : option (bool * bool) :=
  match x with
  | Att a => (λ m, (am_settled m, am_sent m)) <$> attempts_ k !! a
  | Sub w => (λ m, (sw_settled m, sw_sent m)) <$> waits_ k !! w
  end.
Definition openUnsent k : nat := match flags k with Some (false, false) => 1 | _ => 0 end.
Definition openSent k : nat := match flags k with Some (false, true) => 1 | _ => 0 end.

Definition inTask (t : Task) : nat := mine x (unsentWho t).
Definition inSent (t : Task) : nat := mine x (sentWho t).
Definition inFn (e : Z * TimerFn) : nat := mine x (fnWho e.2).
Definition inJob (j : Job) : nat := mine x (jobWho j).
Definition calls (n : Notice) : nat := mine x (calledWho n).
Definition answers (n : Notice) : nat := mine x (answeredWho n).
Definition drops (n : Notice) : nat := mine x (droppedWho n).

(** With the timer or the dispatcher. *)
Definition parked k : nat := total inFn (fns_ (timer k)) + total inJob (queued k).

(** A task passes on what it goes on with, or ends it. *)
Record keeps (t : Task) k k' (next : list Task) (ns : list Notice) : Prop := {
  kp_unsent : (openUnsent k' = 0 ∨
    openUnsent k' + parked k + inTask t ≤ openUnsent k + parked k' + total inTask next + total drops ns)%nat;
  kp_sent : (openSent k' = 0 ∨ openSent k' + inSent t ≤ openSent k + total inSent next + total calls ns)%nat;
  kp_answers : total answers ns = 0%nat }.

Lemma keeps_same t k k' next ns :
  flags k' = flags k → (parked k + inTask t ≤ parked k' + total inTask next + total drops ns)%nat →
  (inSent t ≤ total inSent next + total calls ns)%nat → total answers ns = 0%nat → keeps t k k' next ns.
Proof. intros Ef Hu Hs Ha. unfold openUnsent, openSent in *. constructor; unfold openUnsent, openSent; rewrite ?Ef; [right; lia..|done]. Qed.

Lemma mine_none : mine x None = 0%nat.
Proof. unfold mine. by rewrite bool_decide_eq_false_2. Qed.

Ltac weigh := repeat first [rewrite total_app | rewrite total_cons | rewrite total_nil];
  unfold inTask, inSent, calls, answers, drops, inJob; cbn [unsentWho sentWho calledWho answeredWho droppedWho jobWho fnWho pacedWho];
  rewrite ?mine_none.

Lemma keeps_answer t k k' direct r done :
  openUnsent k' = 0%nat → openSent k' = 0%nat → keeps t k k' (answer direct r done) [].
Proof. intros Hu Hs. constructor; [by left..|done]. Qed.

Lemma flags_alter_attempt f i k :
  flags (set_attempts (alter f i (attempts_ k)) k) =
  match x with
  | Att a => if decide (a = i) then (λ m, (am_settled (f m), am_sent (f m))) <$> attempts_ k !! a else flags k
  | Sub _ => flags k
  end.
Proof.
  unfold flags. destruct x as [a|w]; [|done]. cbn. unfold KitRuntime.alter. case_decide as E.
  - subst. rewrite list_lookup_alter_eq. by destruct (attempts_ k !! i).
  - by rewrite list_lookup_alter_ne by congruence.
Qed.
Lemma flags_alter_wait f i k :
  flags (set_waits (alter f i (waits_ k)) k) =
  match x with
  | Sub w => if decide (w = i) then (λ m, (sw_settled (f m), sw_sent (f m))) <$> waits_ k !! w else flags k
  | Att _ => flags k
  end.
Proof.
  unfold flags. destruct x as [a|w]; [done|]. cbn. unfold KitRuntime.alter. case_decide as E.
  - subst. rewrite list_lookup_alter_eq. by destruct (waits_ k !! i).
  - by rewrite list_lookup_alter_ne by congruence.
Qed.

Lemma total_answer_unsent direct r done : total inTask (answer direct r done) = 0%nat.
Proof. destruct done as [q|]; [|done]. cbn. destruct direct; weigh; done. Qed.
Lemma total_answer_sent direct r done : total inSent (answer direct r done) = 0%nat.
Proof. destruct done as [q|]; [|done]. cbn. destruct direct; weigh; done. Qed.

Lemma mine_other o y : x ≠ y → o = Some y ∨ o = None → mine x o = 0%nat.
Proof. intros Hx Ho. unfold mine. rewrite bool_decide_eq_false_2; [done|]. destruct Ho as [->| ->]; congruence. Qed.

(** A task that goes on with [y] only. *)
Lemma keeps_other y t k k' next :
  x ≠ y → flags k' = flags k → parked k' = parked k → unsentWho t = Some y ∨ unsentWho t = None → sentWho t = Some y ∨ sentWho t = None →
  keeps t k k' next [].
Proof.
  intros Hx Ef Ep Hu Hs. apply keeps_same; [done|..|done]; unfold inTask, inSent; rewrite (mine_other _ y) by done; rewrite ?Ep; lia.
Qed.

Lemma keeps_takeAttempt t i onlyUnsent direct r k :
  unsentWho t = Some (Att i) ∨ unsentWho t = None → sentWho t = Some (Att i) ∨ sentWho t = None → (onlyUnsent = true → sentWho t = None) →
  let '(k', done) := takeAttempt i onlyUnsent k in keeps t k k' (answer direct r done) [].
Proof.
  intros Hu Hs Ho. destruct (decide (x = Att i)) as [Hx|Hx].
  2: { unfold takeAttempt. destruct (attempts_ k !! i) as [m|]; [|by apply (keeps_other (Att i))].
       destruct (_ || _); [by apply (keeps_other (Att i))|]. apply (keeps_other (Att i)); try done.
       rewrite flags_alter_attempt. destruct x as [a|]; [|done]. by rewrite decide_False by congruence. }
  unfold takeAttempt. destruct (attempts_ k !! i) as [m|] eqn:E.
  2: { apply keeps_answer; unfold openUnsent, openSent, flags; by rewrite Hx, E. }
  destruct (am_settled m) eqn:Es; cbn [orb].
  { apply keeps_answer; unfold openUnsent, openSent, flags; rewrite Hx, E; cbn; by rewrite Es. }
  destruct (onlyUnsent && am_sent m) eqn:Eo.
  - apply andb_prop in Eo as [Eo Em]. constructor; [left|right|done].
    + unfold openUnsent, flags. rewrite Hx, E. cbn. by rewrite Es, Em.
    + unfold inSent. rewrite Ho, mine_none by done. weigh. cbn. lia.
  - apply keeps_answer; unfold openUnsent, openSent; rewrite flags_alter_attempt, Hx, decide_True, E by done; done.
Qed.

Lemma keeps_takeSub t i onlyUnsent direct r k :
  unsentWho t = Some (Sub i) ∨ unsentWho t = None → sentWho t = Some (Sub i) ∨ sentWho t = None → (onlyUnsent = true → sentWho t = None) →
  let '(k', done) := takeSub i onlyUnsent k in keeps t k k' (answer direct r done) [].
Proof.
  intros Hu Hs Ho. destruct (decide (x = Sub i)) as [Hx|Hx].
  2: { unfold takeSub. destruct (waits_ k !! i) as [m|]; [|by apply (keeps_other (Sub i))].
       destruct (_ || _); [by apply (keeps_other (Sub i))|]. apply (keeps_other (Sub i)); try done.
       rewrite flags_alter_wait. destruct x as [|w]; [done|]. by rewrite decide_False by congruence. }
  unfold takeSub. destruct (waits_ k !! i) as [m|] eqn:E.
  2: { apply keeps_answer; unfold openUnsent, openSent, flags; by rewrite Hx, E. }
  destruct (sw_settled m) eqn:Es; cbn [orb].
  { apply keeps_answer; unfold openUnsent, openSent, flags; rewrite Hx, E; cbn; by rewrite Es. }
  destruct (onlyUnsent && sw_sent m) eqn:Eo.
  - apply andb_prop in Eo as [Eo Em]. constructor; [left|right|done].
    + unfold openUnsent, flags. rewrite Hx, E. cbn. by rewrite Es, Em.
    + unfold inSent. rewrite Ho, mine_none by done. weigh. cbn. lia.
  - apply keeps_answer; unfold openUnsent, openSent; rewrite flags_alter_wait, Hx, decide_True, E by done; done.
Qed.

(** Marked as sent, and no longer. *)
Lemma keeps_sent y t k k' next :
  parked k' = parked k → (x ≠ y → flags k' = flags k) → unsentWho t = Some y → sentWho t = None →
  (x = y → openUnsent k' = 0 ∧ (openSent k' = 0 ∨ 1 ≤ total inSent next))%nat → keeps t k k' next [].
Proof.
  intros Ep Ef Hu Hs H. destruct (decide (x = y)) as [Hx|Hx]; [|apply (keeps_other y); auto].
  destruct (H Hx) as [H1 H2]. constructor; [by left| |done]. destruct H2 as [|H2]; [by left|right].
  unfold inSent at 1. rewrite Hs, mine_none. unfold openSent at 1. destruct (flags k') as [[[] []]|]; lia.
Qed.
Lemma keeps_unsent y t k k' next :
  parked k' = parked k → (x ≠ y → flags k' = flags k) → unsentWho t = None → sentWho t = Some y →
  (x = y → openSent k' = 0 ∧ 1 ≤ total inTask next)%nat → keeps t k k' next [].
Proof.
  intros Ep Ef Hu Hs H. destruct (decide (x = y)) as [Hx|Hx]; [|apply (keeps_other y); auto].
  destruct (H Hx) as [H1 H2]. constructor; [right|by left|done].
  unfold inTask at 1. rewrite Hu, mine_none, Ep. unfold openUnsent at 1. destruct (flags k') as [[[] []]|]; lia.
Qed.

Lemma mine_self y : x = y → mine x (Some y) = 1%nat.
Proof. intros ->. unfold mine. by rewrite bool_decide_eq_true_2. Qed.

Lemma keeps_claimSend i k :
  let '(k', claimed) := claimSend i k in keeps (TClaim (PSend i)) k k' (if claimed then [TRecheck (PSend i)] else []) [].
Proof.
  unfold claimSend. destruct (attempts_ k !! i) as [m|] eqn:E; [destruct (am_settled m) eqn:Es|].
  - apply (keeps_sent (Att i)); try done. intros Hx. unfold openUnsent, openSent, flags. rewrite Hx, E. cbn. rewrite Es. auto.
  - apply (keeps_sent (Att i)); try done; unfold openUnsent, openSent; rewrite flags_alter_attempt.
    + intros Hx. destruct x as [a|]; [|done]. by rewrite decide_False by congruence.
    + intros Hx. weigh. cbn. rewrite mine_self, Hx, decide_True, E by done. cbn. rewrite Es. auto.
  - apply (keeps_sent (Att i)); try done. intros Hx. unfold openUnsent, openSent, flags. rewrite Hx, E. auto.
Qed.
Lemma keeps_claimSub h topic i k :
  let '(k', claimed) := claimSub i k in keeps (TClaim (PGo h topic i)) k k' (if claimed then [TRecheck (PGo h topic i)] else []) [].
Proof.
  unfold claimSub. destruct (waits_ k !! i) as [m|] eqn:E; [destruct (sw_settled m) eqn:Es|].
  - apply (keeps_sent (Sub i)); try done. intros Hx. unfold openUnsent, openSent, flags. rewrite Hx, E. cbn. rewrite Es. auto.
  - apply (keeps_sent (Sub i)); try done; unfold openUnsent, openSent; rewrite flags_alter_wait.
    + intros Hx. destruct x as [|w]; [done|]. by rewrite decide_False by congruence.
    + intros Hx. weigh. cbn. rewrite mine_self, Hx, decide_True, E by done. cbn. rewrite Es. auto.
  - apply (keeps_sent (Sub i)); try done. intros Hx. unfold openUnsent, openSent, flags. rewrite Hx, E. auto.
Qed.

Lemma keeps_clear (f : Attempt → Attempt) t i k t' :
  (∀ m, am_settled (f m) = am_settled m) → (∀ m, am_settled m = false → am_sent (f m) = false) →
  unsentWho t = None → sentWho t = Some (Att i) → unsentWho t' = Some (Att i) →
  keeps t k (set_attempts (alter f i (attempts_ k)) k) [t'] [].
Proof.
  intros H1 H2 Hu Hs Ht. apply (keeps_unsent (Att i)); try done; unfold openSent; rewrite flags_alter_attempt.
  - intros Hx. destruct x as [a|]; [|done]. by rewrite decide_False by congruence.
  - intros Hx. rewrite Hx, decide_True by done. split; [|rewrite total_cons; unfold inTask; rewrite Ht, mine_self by done; lia].
    destruct (attempts_ k !! i) as [m|]; cbn; [|done]. rewrite H1. destruct (am_settled m) eqn:E; [done|]. by rewrite H2.
Qed.
Lemma keeps_unclaimSub h topic i k : keeps (TUnclaim (PGo h topic i)) k (unclaimSub i k) [TFailSub i] [].
Proof.
  apply (keeps_unsent (Sub i)); try done; unfold openSent, unclaimSub; rewrite flags_alter_wait.
  - intros Hx. destruct x as [|w]; [done|]. by rewrite decide_False by congruence.
  - intros Hx. rewrite Hx, decide_True by done. split; [|rewrite total_cons; unfold inTask; cbn; rewrite mine_self by done; lia].
    destruct (waits_ k !! i) as [m|]; cbn; [|done]. destruct (sw_settled m) eqn:E; cbn; by rewrite ?E.
Qed.

(** New ones. *)
Lemma flags_new_attempt m k :
  flags (set_attempts (attempts_ k ++ [m]) k) =
    if decide (x = Att (length (attempts_ k))) then Some (am_settled m, am_sent m) else flags k.
Proof.
  unfold flags. destruct x as [a|w]; [|by rewrite decide_False]. cbn. case_decide as E.
  - injection E as ->. by rewrite lookup_app_r, Nat.sub_diag by lia.
  - destruct (decide (a < length (attempts_ k))%nat); [by rewrite lookup_app_l|].
    rewrite !lookup_ge_None_2; [done|lia|rewrite length_app; cbn; assert (a ≠ length (attempts_ k)) by congruence; lia].
Qed.
Lemma flags_new_wait m k :
  flags (set_waits (waits_ k ++ [m]) k) =
    if decide (x = Sub (length (waits_ k))) then Some (sw_settled m, sw_sent m) else flags k.
Proof.
  unfold flags. destruct x as [a|w]; [by rewrite decide_False|]. cbn. case_decide as E.
  - injection E as ->. by rewrite lookup_app_r, Nat.sub_diag by lia.
  - destruct (decide (w < length (waits_ k))%nat); [by rewrite lookup_app_l|].
    rewrite !lookup_ge_None_2; [done|lia|rewrite length_app; cbn; assert (w ≠ length (waits_ k)) by congruence; lia].
Qed.

Lemma keeps_new y t k k' t' ns :
  parked k' = parked k → unsentWho t = None → sentWho t = None → unsentWho t' = Some y → total answers ns = 0%nat →
  flags k' = (if decide (x = y) then Some (false, false) else flags k) → keeps t k k' [t'] ns.
Proof.
  intros Ep Hu Hs Ht Ha Ef. unfold openUnsent, openSent in *. constructor; unfold openUnsent, openSent; [right| |done];
    rewrite Ef; unfold inTask, inSent; rewrite ?Hu, ?Hs, mine_none, ?total_cons, ?Ep, ?Ht.
  - case_decide; [rewrite mine_self by done|]; lia.
  - case_decide; [by left|right; lia].
Qed.

Lemma parked_timer t' k : (parked (set_timer t' k) + total inFn (fns_ (timer k)) = parked k + total inFn (fns_ t'))%nat.
Proof. unfold parked, queued. cbn. lia. Qed.

(** The entry of an id is gone. *)
Lemma total_erased id (l : list (Z * TimerFn)) :
  total inFn l = (total inFn (erase id l) + match look id l with Some f => mine x (fnWho f) | None => 0 end)%nat.
Proof. apply total_erase. Qed.

Lemma keeps_after log t now delay f k id k' ns :
  timer_ok log k → after now delay f k = Some (id, k') → total answers ns = 0%nat →
  (inTask t ≤ mine x (fnWho f))%nat → sentWho t = None → keeps t k k' [] ns.
Proof.
  intros H E Ha Ht Hs. destruct (after_ok log now delay f k id k' [] H E) as (_ & Hp & Ea & Ew & Eq); [by left|].
  apply keeps_same; [unfold flags; by rewrite Ea, Ew| |unfold inSent; rewrite Hs, mine_none; lia|done].
  unfold parked, queued. rewrite Hp, Eq, total_cons, total_nil. unfold inFn at 2. cbn. lia.
Qed.

Lemma parked_queue q q' k :
  posted_ k = Some q → (parked (set_posted (Some q') k) + total inJob (qu_jobs q) = parked k + total inJob (qu_jobs q'))%nat.
Proof. intros E. unfold parked, queued. rewrite E. cbn. lia. Qed.

Lemma in_drops l : total inTask (TDrop <$> l) = total (λ f, mine x (fnWho f)) l.
Proof. by rewrite total_fmap. Qed.
Lemma none_fmap {A} (w : Task → nat) (f : A → Task) l : (∀ a, w (f a) = 0%nat) → total w (f <$> l) = 0%nat.
Proof. intros H. rewrite total_fmap. apply total_zero. auto. Qed.

Lemma keeps_plain t k k' next ns :
  flags k' = flags k → parked k' = parked k → (inTask t ≤ total inTask next)%nat → (inSent t ≤ total inSent next + total calls ns)%nat →
  total answers ns = 0%nat → keeps t k k' next ns.
Proof. intros Ef Ep Hu Hs Ha. apply keeps_same; [done| |done..]. rewrite Ep. lia. Qed.

Ltac plain := apply keeps_plain; [reflexivity|reflexivity|weigh; lia..].

Lemma keeps_verdict g a r k k' next ns :
  performKit opts g (TAnswered a r) k = Some (k', next, ns) → keeps (TAnswered a r) k k' next ns.
Proof.
  cbn [performKit]. destruct (attempts_ k !! a) as [m|] eqn:E; cbn [mbind option_bind]; [|done].
  destruct (closed_ k); [intros [= <- <- <-]; plain|]. destruct (verdict _ _ _ _) as [v|]; cbn [mbind option_bind]; [|done].
  assert (∀ t', sentWho t' = Some (Att a) → unsentWho t' = None → keeps (TAnswered a r) k (set_attempts (KitRuntime.alter oneMore a (attempts_ k)) k) [t'] []) as H.
  { intros t' Hs Hu. apply keeps_plain; [|reflexivity|..]; weigh; rewrite ?Hs, ?Hu, ?mine_none; try lia.
    rewrite flags_alter_attempt. destruct x as [b|w] eqn:Ex; [|done]. case_decide as Eb; [|done].
    unfold flags. rewrite Ex, Eb, E. done. }
  destruct v; intros [= <- <- <-]; [plain|by apply H..].
Qed.

Lemma drops_posted ns : Forall (λ n, answeredWho n = None) ns → total answers ns = 0%nat.
Proof. intros H. apply total_zero. intros n Hn. rewrite list.Forall_forall in H. unfold answers. by rewrite H, mine_none. Qed.

Lemma keeps_drop f k : keeps (TDrop f) k k (dropOf f) [].
Proof. destruct f as [fn|[a|h tp w|ch]|a]; cbn [dropOf]; plain. Qed.

Lemma keeps_count topic done k :
  match countTopic topic done k with
  | None => True
  | Some (k', h, w, first) =>
      keeps (TCount topic done) k k' [if first : bool then TPaced (PGo h topic w) else TRunPaced (PGo h topic w)] [NHandle h]
  end.
Proof.
  unfold countTopic. destruct (_ && _); [done|]. cbv zeta. apply (keeps_new (Sub (length (waits_ k)))); try done; [by case_match|].
  set (k1 := set_subs _ k). assert (waits_ k = waits_ k1) as -> by done. rewrite flags_new_wait. assert (flags k1 = flags k) as -> by done. done.
Qed.

Lemma keeps_cancel log id k : timer_ok log k → NTimer id ∈ log → keeps (TCancel id) k (cancelTimer id k) [] [].
Proof.
  intros Hto Hin. apply keeps_same; [done|..]; weigh; try lia. unfold cancelTimer.
  pose proof (parked_timer (mkTimer (due_ (timer k)) (erase id (fns_ (timer k)))
      (nextTimer_ (timer k)) (stopping_ (timer k)) (worker_ (timer k)) (turning (timer k))) k) as H. cbn [fns_] in H. pose proof (total_erased id (fns_ (timer k))) as Ht.
  destruct (look id (fns_ (timer k))) as [f|] eqn:El; [|lia].
  destruct (to_user _ _ Hto id f (look_In _ _ _ El) Hin) as [fn ->]. cbn [fnWho] in Ht. rewrite mine_none in Ht. lia.
Qed.
Lemma keeps_turn now k :
  let '(k', f) := turn now k in match f with Some f => keeps TTurn k k' [TDeliver (JTimer f); TTurned] [] | None => keeps TTurn k k' [] [NTurned] end.
Proof.
  unfold turn. destruct (stopping_ (timer k)); [plain|]. destruct (due_ (timer k)) as [|[next id] due]; [plain|]. destruct (_ <? _); [plain|].
  pose proof (parked_timer (mkTimer due (erase id (fns_ (timer k))) (nextTimer_ (timer k)) false (worker_ (timer k))
    (match look id (fns_ (timer k)) with Some _ => true | None => turning (timer k) end)) k) as H. cbn [fns_] in H.
  pose proof (total_erased id (fns_ (timer k))) as Ht. destruct (look id (fns_ (timer k))) as [f|] eqn:El; apply keeps_same; try done; weigh; lia.
Qed.
Lemma keeps_stop k : keeps TStopTimer k (stopTimer k).1 (TJoin :: (TDrop <$> (stopTimer k).2) ++ [TLeaveConn]) [].
Proof.
  pose proof (parked_timer (mkTimer [] [] (nextTimer_ (timer k)) true false (turning (timer k))) k) as H. cbn [fns_] in H. rewrite total_nil in H.
  apply keeps_same; [done|..]; cbn [stopTimer fst snd]; weigh; try lia. fold inTask. rewrite in_drops, total_fmap. unfold inFn in H. lia.
Qed.

(** *** The dispatcher *)

Lemma keeps_post q j k :
  posted_ k = Some q → keeps (TDeliver j) k (set_posted (Some (postJob j q)) k) [] (if qu_closed q then [NDropped j] else []).
Proof.
  intros Eq. pose proof (parked_queue q (postJob j q) k Eq) as H. unfold postJob in *.
  apply keeps_same; [done|..]; destruct (qu_closed q); cbn [qu_jobs] in *; revert H; weigh; fold (inJob j); unfold inJob; try lia.
Qed.
Lemma keeps_poll q k :
  posted_ k = Some q → let '(js, q') := swapJobs q in keeps TPoll k (set_posted (Some q') k) (TPolled <$> js) [].
Proof.
  intros Eq. unfold swapJobs. destruct (qu_closed q).
  - pose proof (parked_queue q q k Eq) as H. apply keeps_same; [done|..]; weigh; lia.
  - pose proof (parked_queue q (mkQueue [] false) k Eq) as H. cbn [qu_jobs] in H. rewrite total_nil in H.
    apply keeps_same; [done|..]; weigh; rewrite ?total_fmap; try lia.
    change (total (λ j, mine x (unsentWho (TPolled j))) (qu_jobs q)) with (total inJob (qu_jobs q)). lia.
Qed.
Lemma keeps_closeQueue q k :
  posted_ k = Some q → keeps TCloseDispatcher k (set_posted (Some (closeQueue q)) k) [] (NDropped <$> qu_jobs q).
Proof.
  intros Eq. pose proof (parked_queue q (closeQueue q) k Eq) as H. cbn [closeQueue qu_jobs] in H.
  rewrite total_nil in H. apply keeps_same; [done|..]; weigh; rewrite ?total_fmap; try lia.
  - change (total (λ j, mine x (droppedWho (NDropped j))) (qu_jobs q)) with (total inJob (qu_jobs q)). lia.
  - apply total_zero. intros j _. apply mine_none.
Qed.

Lemma perform_keeps log g t k k' next ns :
  performKit opts g t k = Some (k', next, ns) → timer_ok log k → task_ok log t → keeps t k k' next ns.
Proof.
  intros E Hto Hok. destruct t; cbn [performKit] in E; try (simplify_eq; solve [plain]); try (by case_match; simplify_eq; plain).
  - simplify_eq. apply (keeps_new (Att (length (attempts_ k)))); try done. apply flags_new_attempt.
  - pose proof (keeps_count t done k) as H. destruct (countTopic t done k) as [[[[k1 h] w] first]|]; simplify_eq; [done|].
    apply keeps_plain; rewrite ?total_answer_unsent, ?total_answer_sent; weigh; try done; lia.
  - assert (flags (forget h k).1 = flags k ∧ parked (forget h k).1 = parked k) as [H1 H2] by (unfold forget; by destruct (look h (handles_ (subs k)))).
    destruct (forget h k) as [k1 found]. simplify_eq. apply keeps_plain; try done; weigh; try lia; case_match; try lia; case_match; weigh; lia.
  - destruct (after _ _ _ k) as [[id k1]|] eqn:Ea; simplify_eq; [|plain]. by eapply keeps_after.
  - destruct Hok as [?|(id' & [= <-] & Hin)]; [done|]. simplify_eq. by eapply keeps_cancel.
  - pose proof (keeps_turn (gv_now g) k) as H. destruct (turn (gv_now g) k) as [k1 [f|]]; by simplify_eq.
  - cbn in E. simplify_eq. apply keeps_stop.
  - cbn in E. simplify_eq. plain.
  - cbn in E. simplify_eq. apply keeps_plain; [done|done|..]; weigh; lia.
  - destruct (takeOrWait _ _ _) as [wait b]. simplify_eq. apply keeps_plain; [done|done|..]; destruct (wait =? 0); weigh; lia.
  - destruct (after _ _ _ k) as [[id k1]|] eqn:Ea; simplify_eq; [|plain]. by eapply keeps_after.
  - simplify_eq. apply keeps_drop.
  - destruct p; simplify_eq; try plain; apply keeps_plain; try done; destruct (closed_ k'); weigh; try lia.
  - unfold connection in E. repeat case_match; simplify_eq; plain.
  - destruct p as [a|h tp w|ch]; [| |done].
    + pose proof (keeps_claimSend a k) as H. destruct (claimSend a k). by simplify_eq.
    + pose proof (keeps_claimSub h tp w k) as H. destruct (claimSub w k). by simplify_eq.
  - destruct p as [a|h tp w|ch]; [| |done]; simplify_eq.
    + apply (keeps_clear (λ a, if am_settled a then a else set_sent false a)); try done; intros m; [by destruct (am_settled m) eqn:?|by intros ->].
    + apply keeps_unclaimSub.
  - destruct p as [a|h tp w|ch]; [| |done]; simplify_eq; [|plain].
    destruct (attempts_ k' !! a) as [m|] eqn:Em; [plain|]. destruct (decide (x = Att a)) as [Hx|Hx].
    + constructor; [left|left|done]; unfold openUnsent, openSent, flags; by rewrite Hx, Em.
    + by apply (keeps_other (Att a)); auto.
  - unfold keepHandle in E. repeat case_match; simplify_eq; plain.
  - by eapply keeps_verdict.
  - simplify_eq. by apply keeps_clear.
  - simplify_eq. by apply keeps_clear.
  - pose proof (keeps_takeAttempt (TFailUnsent a) a true false closedReply k) as H. destruct (takeAttempt a true k). simplify_eq. apply H; auto.
  - pose proof (keeps_takeSub (TFailSub w) w true false closedReply k) as H. destruct (takeSub w true k). simplify_eq. apply H; auto.
  - pose proof (keeps_takeAttempt (TSettle a r direct) a false direct r k) as H. destruct (takeAttempt a false k). simplify_eq. apply H; destruct direct; auto; done.
  - pose proof (keeps_takeSub (TSettleSub w r direct) w false direct r k) as H. destruct (takeSub w false k). simplify_eq. apply H; destruct direct; auto; done.
  - destruct (posted_ k) as [q|] eqn:Eq; simplify_eq; [|plain]. by apply keeps_post.
  - destruct j as [q r|[fn|p|a]]; cbn in E; simplify_eq; plain.
  - destruct Hok as [Hok|(id & ? & _)]; [|done]. destruct n; try done; simplify_eq; plain.
  - destruct (posted_ k) as [q|] eqn:Eq; [|simplify_eq; plain].
    pose proof (keeps_poll q k Eq) as H. destruct (swapJobs q). by simplify_eq.
  - destruct (posted_ k) as [q|] eqn:Eq; [destruct (qu_closed q)|]; simplify_eq; apply keeps_same; try done; weigh; lia.
  - destruct (posted_ k) as [q|] eqn:Eq; simplify_eq; [by apply keeps_closeQueue|plain].
Qed.
End One.

(** ** Nobody is forgotten *)

Definition closes (t : Task) : bool := match t with TClose => true | _ => false end.
(** Only the tasks of the timer touch it. *)
Definition timerTask (t : Task) : bool :=
  match t with TAfter _ _ | TCancel _ | TTurn | TTurned | TStopTimer | TQueue _ _ => true | _ => false end.

(** What an operation on subscriptions and the connection leaves. *)
Definition core k := (closed_ k, timer k, attempts_ k, waits_ k, posted_ k).

Lemma forget_core h k : core (forget h k).1 = core k.
Proof. unfold forget. by destruct (look h (handles_ (subs k))). Qed.
Lemma keepHandle_core h ch k : core (keepHandle h ch k).1 = core k.
Proof. unfold keepHandle. destruct (look h (handles_ (subs k))); [|done]. by destruct (closed_ k). Qed.
Lemma connection_core made ids k : core (connection opts made ids k).1.1 = core k.
Proof. unfold connection. destruct (_ || _); [done|]. destruct (conn_ _); [done|]. by destruct (_ || _). Qed.

(** Of the rest, only attempts and waits change. *)
Definition still k := (closed_ k, timer k).
Lemma takeAttempt_still a b k : still (takeAttempt a b k).1 = still k.
Proof. unfold takeAttempt. destruct (attempts_ k !! a); [|done]. by destruct (_ || _). Qed.
Lemma takeSub_still w b k : still (takeSub w b k).1 = still k.
Proof. unfold takeSub. destruct (waits_ k !! w); [|done]. by destruct (_ || _). Qed.
Lemma claimSend_still a k : still (claimSend a k).1 = still k.
Proof. unfold claimSend. destruct (attempts_ k !! a) as [m|]; [|done]. by destruct (am_settled m). Qed.
Lemma claimSub_still w k : still (claimSub w k).1 = still k.
Proof. unfold claimSub. destruct (waits_ k !! w) as [m|]; [|done]. by destruct (sw_settled m). Qed.
Lemma countTopic_still topic done k k' h w first :
  countTopic topic done k = Some (k', h, w, first) → still k' = still k.
Proof. unfold countTopic. destruct (_ && _); [done|]. by intros [= <- <- <- <-]. Qed.

Lemma perform_still g t k k' next ns :
  performKit opts g t k = Some (k', next, ns) → timerTask t = false → closes t = false → still k' = still k.
Proof.
  intros E Ht Hc. destruct t; try done; cbn [performKit] in E; try by simplify_eq.
  - destruct (closed_ k); by simplify_eq.
  - destruct (countTopic t done k) as [[[[k1 h] w] first]|] eqn:Ec; simplify_eq; [|done]. by eapply countTopic_still.
  - pose proof (forget_core h k) as H. destruct (forget h k). simplify_eq/=. unfold core, still in *. congruence.
  - by destruct (turning (timer k)); simplify_eq.
  - cbn in E. by simplify_eq.
  - cbn in E. by simplify_eq.
  - destruct (takeOrWait _ _ _) as [wait b]. by simplify_eq.
  - destruct p; by simplify_eq.
  - pose proof (connection_core (gv_made g) (gv_listeners g) k) as H. destruct (connection _ _ _ k) as [[k1 has] new]. simplify_eq/=.
    unfold core, still in *. congruence.
  - destruct p; by simplify_eq.
  - destruct p as [a|h tp w|ch]; [| |done].
    + pose proof (claimSend_still a k) as H. destruct (claimSend a k). by injection E as <- <- <-.
    + pose proof (claimSub_still w k) as H. destruct (claimSub w k). by injection E as <- <- <-.
  - destruct p; by simplify_eq.
  - destruct p; by simplify_eq.
  - pose proof (keepHandle_core h ch k) as H. destruct (keepHandle h ch k). simplify_eq/=. unfold core, still in *. congruence.
  - destruct (attempts_ k !! a); cbn in E; [|done]. destruct (closed_ k); [by simplify_eq|].
    destruct (verdict _ _ _ _) as [v|]; cbn in E; [|done]. destruct v; by simplify_eq.
  - pose proof (takeAttempt_still a true k) as H. destruct (takeAttempt a true k). by injection E as <- <- <-.
  - pose proof (takeSub_still w true k) as H. destruct (takeSub w true k). by injection E as <- <- <-.
  - pose proof (takeAttempt_still a false k) as H. destruct (takeAttempt a false k). by injection E as <- <- <-.
  - pose proof (takeSub_still w false k) as H. destruct (takeSub w false k). by injection E as <- <- <-.
  - destruct (posted_ k); by simplify_eq.
  - destruct j as [q r|f]; [by simplify_eq|]. destruct (runTimer f). by simplify_eq.
  - destruct (posted_ k) as [q|]; [destruct (swapJobs q)|]; by simplify_eq.
  - destruct (posted_ k) as [q|]; [destruct (qu_closed q)|]; by simplify_eq.
  - destruct (posted_ k); by simplify_eq.
Qed.

Lemma answer_inner direct r done : Forall (λ t, inner t = true) (answer direct r done).
Proof. destruct done as [q|]; [|constructor]. destruct direct; repeat constructor. Qed.

Lemma inner_all {A} (f : A → Task) l : (∀ y, inner (f y) = true) → Forall (λ t, inner t = true) (f <$> l).
Proof. intros H. apply list.Forall_forall. intros t (y & -> & _)%list_elem_of_fmap. apply H. Qed.

Lemma perform_leaves g t k k' next ns :
  performKit opts g t k = Some (k', next, ns) → Forall (λ t, inner t = true) next.
Proof.
  intros E. destruct t; cases_of E; try (repeat constructor; fail);
    repeat first [apply answer_inner | apply inner_all; intros ?; done | apply Forall_app; split | constructor; [done|] | constructor].
  - by destruct f as [fn|[a|h tp w|ch]|a]; repeat constructor.
  - destruct f; simplify_eq/=; repeat constructor.
Qed.
Lemma inner_follows t : inner t = true → follows t = true.
Proof. by destruct t. Qed.
Lemma perform_tasks_ok g t k k' next ns log : performKit opts g t k = Some (k', next, ns) → Forall (task_ok log) next.
Proof. intros E. eapply List.Forall_impl; [|by eapply perform_leaves]. intros t' H. left. by apply inner_follows. Qed.

Lemma timer_ok_still log ns k k' : still k' = still k → quiet ns → timer_ok log k → timer_ok (log ++ ns) k'.
Proof. intros [= ? ?]. by apply timer_ok_same. Qed.

Lemma quiet_one n : (∀ id, n ≠ NTimer id) → quiet [n].
Proof. intros H id <-%list_elem_of_singleton. by destruct (H id). Qed.
Lemma quiet_none : quiet [].
Proof. intros id Hin. by apply not_elem_of_nil in Hin. Qed.

Lemma perform_quiet g t k k' next ns :
  performKit opts g t k = Some (k', next, ns) → timerTask t = false → follows t = true → quiet ns.
Proof.
  intros E Ht Hf. destruct t; try done; cases_of E; try (apply quiet_none || by apply quiet_one).
  - destruct f; simplify_eq/=; apply quiet_none || by apply quiet_one.
  - apply quiet_one. by destruct n.
  - by intros id (j & ? & _)%list_elem_of_fmap.
Qed.

Lemma perform_timer_ok g t k k' next ns log :
  performKit opts g t k = Some (k', next, ns) → task_ok log t → timer_ok log k → timer_ok (log ++ ns) k'.
Proof.
  intros E Hok H. destruct Hok as [Hf|(id & -> & Hin)].
  2: { cbn in E. simplify_eq. rewrite app_nil_r. by apply cancel_ok. }
  destruct (timerTask t) eqn:Et.
  - destruct t; try done; cbn [performKit] in E.
    + destruct (after _ _ _ k) as [[id k1]|] eqn:Ea; simplify_eq.
      2: { apply (timer_ok_still log _ k'); [done| |done]. by intros id [= ->]%list_elem_of_singleton. }
      eapply (after_ok log _ _ _ k); [done|exact Ea|]. right. eauto.
    + pose proof (turn_ok log (gv_now g) k H) as H'. destruct (turn (gv_now g) k) as [k1 [f|]]; simplify_eq; [by rewrite app_nil_r|].
      apply (timer_ok_still log _ k'); [done|by apply quiet_one|done].
    + simplify_eq. apply turned_ok, (timer_ok_same log _ k); [done|by apply quiet_one|done].
    + cbn in E. simplify_eq. rewrite app_nil_r. by apply (stop_ok log k).
    + destruct (after _ _ _ k) as [[id k1]|] eqn:Ea; simplify_eq; [|by rewrite app_nil_r].
      eapply (after_ok log _ _ _ k); [done|exact Ea|]. by left.
  - pose proof (perform_quiet g t k k' next ns E Et Hf) as Hq. apply (timer_ok_same log ns k); [|done..].
    destruct (closes t) eqn:Hs; [by destruct t; try done; cases_of E|].
    by assert (still k' = still k) as [= ? ?] by (by eapply perform_still).
Qed.

(** Closing stops the timer. *)
Definition stops k (ts : list Task) : Prop := closed_ k = true → stopping_ (timer k) = true ∨ TStopTimer ∈ ts.

Lemma after_stopping now delay f k id k' : after now delay f k = Some (id, k') → closed_ k' = closed_ k ∧ stopping_ (timer k) = false.
Proof. unfold after. destruct (stopping_ (timer k)); [done|]. by intros [= <- <-]. Qed.
Lemma turn_stopping now k : closed_ (turn now k).1 = closed_ k ∧ (stopping_ (timer k) = true → stopping_ (timer (turn now k).1) = true).
Proof.
  unfold turn. destruct (stopping_ (timer k)) eqn:E; [done|]. destruct (due_ (timer k)) as [|[next id] due]; [done|]. by destruct (_ <? _).
Qed.

Lemma perform_stopping g t k k' next ns :
  performKit opts g t k = Some (k', next, ns) → closes t = false →
  closed_ k' = closed_ k ∧ (stopping_ (timer k) = true ∨ t = TStopTimer → stopping_ (timer k') = true).
Proof.
  intros E Hc. destruct (timerTask t) eqn:Et.
  - destruct t; try done; cbn [performKit] in E.
    + destruct (after _ _ _ k) as [[id k1]|] eqn:Ea; simplify_eq; [apply after_stopping in Ea as [-> Ea]|]; (split; [done|intros [?|?]; congruence]).
    + simplify_eq. split; [done|]. by intros [?|?].
    + pose proof (turn_stopping (gv_now g) k) as [E1 E2]. destruct (turn (gv_now g) k) as [k1 [f|]]; simplify_eq;
      (split; [done|]; intros [?|?]; [auto|done]).
    + simplify_eq. split; [done|]. by intros [?|?].
    + cbn in E. by simplify_eq.
    + destruct (after _ _ _ k) as [[id k1]|] eqn:Ea; simplify_eq; [apply after_stopping in Ea as [-> Ea]|]; (split; [done|intros [?|?]; congruence]).
  - assert (still k' = still k) as [= -> ->] by (by eapply perform_still). split; [done|]. intros [?| ->]; done.
Qed.

Lemma perform_stops g t k k' next ns ts :
  performKit opts g t k = Some (k', next, ns) → stops k (t :: ts) → stops k' (next ++ ts).
Proof.
  intros E H Hc. destruct (closes t) eqn:Ec.
  - destruct t; try done. cases_of E; [|right; by left]. destruct (H Hc) as [|[|]%elem_of_cons]; [by left|done|by right].
  - destruct (perform_stopping g t k k' next ns E Ec) as [E1 E2]. rewrite E1 in Hc.
    destruct (H Hc) as [|[<-|]%elem_of_cons]; [left; auto..|right; set_solver].
Qed.

(** What every reachable runtime keeps: the timer has what is due for each function, its thread is
    there, closing stops it; what is not settled is with a task, parked, or given up by the
    dispatcher; what is sent is with a task, or still to be answered by the connection. *)
Record tended k (ts : list Task) (log : list Notice) : Prop := {
  td_timer : timer_ok log k;
  td_tasks : Forall (task_ok log) ts;
  td_stops : stops k ts;
  td_answers : ∀ x, (total (answers x) log ≤ total (calls x) log)%nat;
  td_unsent : ∀ x, (openUnsent x k ≤ parked x k + total (inTask x) ts + total (drops x) log)%nat;
  td_sent : ∀ x, openSent x k = 0%nat ∨ (openSent x k + total (answers x) log ≤ total (inSent x) ts + total (calls x) log)%nat }.

Lemma task_ok_more log ns t : task_ok log t → task_ok (log ++ ns) t.
Proof. intros [?|(id & -> & ?)]; [by left|right]. exists id. split; [done|]. apply elem_of_app. by left. Qed.

Lemma total_number {A} (w : A → nat) (p : A → bool) l : (∀ y, w y = tally (p y)) → total w l = number p l.
Proof. intros H. induction l as [|y l IH]; [done|]. by rewrite total_cons, number_cons, IH, H. Qed.

Lemma calls_number a log : total (calls (Att a)) log = number (isCallOf a) log ∧ total (answers (Att a)) log = number (isAnswerOf a) log.
Proof.
  split; apply total_number; intros n; unfold calls, answers, mine; destruct n; try done; cbn; f_equal; case_bool_decide; symmetry;
    rewrite ?Nat.eqb_eq, ?Nat.eqb_neq; congruence.
Qed.
Lemma subs_number w log : total (calls (Sub w)) log = number (isSubOf w) log ∧ total (answers (Sub w)) log = number (isSubAnswerOf w) log.
Proof.
  split; apply total_number; intros n; unfold calls, answers, mine; destruct n; try done; cbn; f_equal; case_bool_decide; symmetry;
    rewrite ?Nat.eqb_eq, ?Nat.eqb_neq; congruence.
Qed.

(** A method that is entered: only an answer is one more, of a call that waits for it. *)
Record joins (log : list Notice) (t : Task) (ns : list Notice) : Prop := {
  jn_quiet : quiet ns;
  jn_task : task_ok log t;
  jn_answers : ∀ x, (total (answers x) ns = 0 ∨ total (answers x) log < total (calls x) log ∧ total (answers x) ns = inSent x t)%nat }.

Lemma enters_joins t k log ns : entersKit t k log = Some ns → joins log t ns.
Proof.
  intros E. assert (∀ t' done, follows t' = true → joins log t' (asks done)) as Hasks.
  { intros t' [q|] Hf; (constructor; [|by left|intros x; by left]); [by apply quiet_one|apply quiet_none]. }
  destruct t; try done; cbn [entersKit] in E; try (simplify_eq; by apply Hasks); try (simplify_eq; by apply (Hasks _ None)).
  - destruct (existsb _ log) eqn:Ex; simplify_eq. apply existsb_exists in Ex as (n & Hin & Hn).
    destruct n as [| | |id'| | | | | | | | | | | | | |]; try done. apply Z.eqb_eq in Hn as ->.
    constructor; [apply quiet_none|right|intros x; by left]. exists id. split; [done|]. by apply list_elem_of_In.
  - destruct (_ && _); simplify_eq. constructor; [by apply quiet_one|by left|intros x; by left].
  - destruct (existsb _ log); simplify_eq. by apply (Hasks _ None).
  - destruct (existsb _ log); simplify_eq. by apply (Hasks _ None).
  - destruct (_ <? _)%nat eqn:El; simplify_eq. apply Nat.ltb_lt in El. constructor; [by apply quiet_one|by left|]. intros x.
    replace (total (answers x) [NAnswered a r]) with (mine x (Some (Att a))) by (cbn; unfold answers; cbn; by rewrite total_cons, total_nil, Nat.add_0_r).
    change (inSent x (TAnswered a r)) with (mine x (Some (Att a))). destruct (decide (x = Att a)) as [->|Hx].
    + right. destruct (calls_number a log) as [-> ->]. rewrite mine_self by done. lia.
    + left. rewrite (mine_other _ _ (Att a)); auto.
  - destruct (_ <? _)%nat eqn:El; simplify_eq. apply Nat.ltb_lt in El. constructor; [by apply quiet_one|by left|]. intros x.
    replace (total (answers x) [NSubAnswered w r]) with (mine x (Some (Sub w))) by (cbn; unfold answers; cbn; by rewrite total_cons, total_nil, Nat.add_0_r).
    change (inSent x (TSubAnswered w r)) with (mine x (Some (Sub w))). destruct (decide (x = Sub w)) as [->|Hx].
    + right. destruct (subs_number w log) as [-> ->]. rewrite mine_self by done. lia.
    + left. rewrite (mine_other _ _ (Sub w)); auto.
Qed.

Lemma tended_kept good : kept good tended.
Proof.
  constructor.
  - intros st ts ts' log Hp []. constructor; try done.
    + by rewrite <- Hp.
    + intros Hc. destruct (td_stops0 Hc) as [|Hin]; [by left|right]. by rewrite <- Hp.
    + intros x. rewrite <- Hp. auto.
    + intros x. rewrite <- Hp. auto.
  - intros t st ts log ns [] E. change (entersKit t st log = Some ns) in E. destruct (enters_joins _ _ _ _ E) as [Hq Ht Ha]. constructor.
    + by apply (timer_ok_same log ns st).
    + constructor; [by apply task_ok_more|]. eapply List.Forall_impl; [|exact td_tasks0]. intros. by apply task_ok_more.
    + intros Hc. destruct (td_stops0 Hc); [by left|right; by right].
    + intros x. pose proof (td_answers0 x). rewrite !total_app. destruct (Ha x) as [|[? ?]]; [lia|].
      assert (inSent x t ≤ 1)%nat; [unfold inSent, mine; by case_bool_decide; cbn; lia|lia].
    + intros x. pose proof (td_unsent0 x). rewrite !total_app, total_cons. lia.
    + intros x. rewrite !total_app, total_cons. destruct (td_sent0 x); [by left|right]. destruct (Ha x); lia.
  - intros g t st ts log st' next ns [] _ E. change (performKit opts g t st = Some (st', next, ns)) in E. pose proof (Forall_cons_1 _ _ _ td_tasks0) as [Hok Hts].
    pose proof (λ x, perform_keeps x log g t st st' next ns E td_timer0 Hok) as Hk.
    constructor.
    + by eapply perform_timer_ok.
    + apply Forall_app. split; [by eapply perform_tasks_ok|]. eapply List.Forall_impl; [|exact Hts]. intros. by apply task_ok_more.
    + by eapply perform_stops.
    + intros x. rewrite !total_app, (kp_answers _ _ _ _ _ _ (Hk x)). pose proof (td_answers0 x). lia.
    + intros x. pose proof (td_unsent0 x) as H. rewrite total_cons in H. rewrite !total_app. destruct (kp_unsent _ _ _ _ _ _ (Hk x)); lia.
    + intros x. pose proof (td_sent0 x) as H. pose proof (td_answers0 x). rewrite total_cons in H.
      rewrite !total_app, (kp_answers _ _ _ _ _ _ (Hk x)). destruct (kp_sent _ _ _ _ _ _ (Hk x)); [by left|right; lia].
Qed.

Lemma new_tended now dispatcher : tended (newKit opts now dispatcher) [] [].
Proof.
  constructor; cbn; try done; try (by constructor).
  - constructor; cbn; try done; [constructor|..]; intros; by match goal with H : _ ∈ [] |- _ => apply not_elem_of_nil in H end.
  - intros x. assert (openUnsent x (newKit opts now dispatcher) = 0%nat) as ->; [by destruct x|lia].
  - intros x. left. by destruct x.
Qed.
End Calls.
