(* ===== verification/KitCallbacks.v ===== *)
(** * The callbacks of the kit

    Each callback given to [call] or [subscribe] is counted: it is with a task, with its attempt or
    wait, with the dispatcher, or it has been called. With what [KitCalls] shows of attempts that
    are not settled, a runtime that is at rest has called every one ([kit_answers_once]). *)

From S2P Require Import Prelude Bytes Core Json Endpoint ExecWire KitProtocol Tasks KitRuntime KitCalls.

Open Scope Z_scope.

#[local] Arguments chars : simpl never.

Definition jobDone (j : Job) : option Z := match j with JDone q _ => Some q | JTimer _ => None end.
(** The callback a task has. *)
Definition taskDone (t : Task) : option Z :=
  match t with
  | TCall _ _ _ _ _ done | TSubscribe _ done | TCount _ done => done
  | TDeliver j | TRun j | TPolled j => jobDone j
  | TTold (NDone q _) => Some q
  | _ => None
  end.
Definition askedFor (n : Notice) : option Z := match n with NAsked q => Some q | _ => None end.
Definition calledBack (n : Notice) : option Z := match n with NDone q _ => Some q | _ => None end.
Definition spentOn (n : Notice) : option Z := match n with NDone q _ => Some q | NDropped j => jobDone j | _ => None end.

Section Callbacks.
Context {F : Type} `{!Dbl F}.
Variable opts : KitRuntimeOptions.
#[local] Hint Extern 0 (Worker (Kit F) _ _ _) => exact (kitWorker opts) : typeclass_instances.
Implicit Types k : Kit F.

Section One.
Variable q : Z.

Definition its (o : option Z) : nat := tally (bool_decide (o = Some q)).
Lemma its_none : its None = 0%nat.
Proof. unfold its. by rewrite bool_decide_eq_false_2. Qed.

Definition heldIn k : nat :=
  total (λ a, its (am_done a)) (attempts_ k) + total (λ w, its (sw_done w)) (waits_ k) + total (λ j, its (jobDone j)) (queued k).
Definition withTask (t : Task) : nat := its (taskDone t).
Definition asked (n : Notice) : nat := its (askedFor n).
Definition spent (n : Notice) : nat := its (spentOn n).

(** Callbacks pass from one to the other. *)
Record passes (t : Task) k k' (next : list Task) (ns : list Notice) : Prop := {
  ps_held : (heldIn k' + total withTask next + total spent ns = heldIn k + withTask t)%nat;
  ps_asked : total asked ns = 0%nat }.

Ltac weigh := repeat first [rewrite total_app | rewrite total_cons | rewrite total_nil];
  unfold withTask, asked, spent; cbn [taskDone askedFor spentOn jobDone]; rewrite ?its_none.
Ltac plain := constructor; weigh; try done; try lia.

Lemma total_alter {A} (w : A → nat) (f : A → A) i l x :
  l !! i = Some x → (total w (base.alter f i l) + w x = total w l + w (f x))%nat.
Proof.
  revert i. induction l as [|y l IH]; intros [|i]; cbn; try done.
  - intros [= ->]. rewrite !total_cons. lia.
  - intros H%IH. rewrite !total_cons. lia.
Qed.

Lemma total_alter_same {A} (w : A → nat) (f : A → A) i l : (∀ x, w (f x) = w x) → total w (base.alter f i l) = total w l.
Proof.
  intros H. revert i. induction l as [|y l IH]; intros [|i]; cbn; try done; rewrite !total_cons; [by rewrite H|by rewrite IH].
Qed.

(** *** Operations *)

Lemma held_core k k' : core k' = core k → heldIn k' = heldIn k.
Proof. unfold core, heldIn, queued. by intros [= _ _ -> -> ->]. Qed.
Lemma held_attempts f i k :
  (∀ a, am_done (f a) = am_done a) → heldIn (set_attempts (KitRuntime.alter f i (attempts_ k)) k) = heldIn k.
Proof. intros H. unfold heldIn, queued, KitRuntime.alter. cbn. rewrite total_alter_same; [done|]. intros a. by rewrite H. Qed.
Lemma held_waits f i k :
  (∀ w, sw_done (f w) = sw_done w) → heldIn (set_waits (KitRuntime.alter f i (waits_ k)) k) = heldIn k.
Proof. intros H. unfold heldIn, queued, KitRuntime.alter. cbn. rewrite total_alter_same; [done|]. intros a. by rewrite H. Qed.

Lemma held_takeAttempt i b k :
  let '(k', done) := takeAttempt i b k in (heldIn k' + its done = heldIn k)%nat.
Proof.
  unfold takeAttempt. destruct (attempts_ k !! i) as [a|] eqn:E; [|rewrite its_none; lia]. destruct (_ || _); [rewrite its_none; lia|].
  pose proof (total_alter (λ a, its (am_done a)) set_settled i _ _ E) as H. unfold heldIn, queued, KitRuntime.alter. cbn in *. rewrite its_none in H. lia.
Qed.
Lemma held_takeSub i b k :
  let '(k', done) := takeSub i b k in (heldIn k' + its done = heldIn k)%nat.
Proof.
  unfold takeSub. destruct (waits_ k !! i) as [a|] eqn:E; [|rewrite its_none; lia]. destruct (_ || _); [rewrite its_none; lia|].
  pose proof (total_alter (λ w, its (sw_done w)) (λ s, mkSubWait None (sw_sent s) true) i _ _ E) as H.
  unfold heldIn, queued, KitRuntime.alter. cbn in *. rewrite its_none in H. lia.
Qed.
Lemma held_claimSend i k : heldIn (claimSend i k).1 = heldIn k.
Proof. unfold claimSend. destruct (attempts_ k !! i) as [a|]; [|done]. destruct (am_settled a); [done|]. by apply held_attempts. Qed.
Lemma held_claimSub i k : heldIn (claimSub i k).1 = heldIn k.
Proof. unfold claimSub. destruct (waits_ k !! i) as [a|]; [|done]. destruct (sw_settled a); [done|]. by apply held_waits. Qed.
Lemma held_countTopic topic done k k' h w first :
  countTopic topic done k = Some (k', h, w, first) → (heldIn k' = heldIn k + its done)%nat.
Proof.
  unfold countTopic. destruct (_ && _); [done|]. intros [= <- <- <- <-]. unfold heldIn, queued. cbn.
  rewrite total_app, total_cons, total_nil. cbn. lia.
Qed.
Lemma held_queue o o' k : posted_ k = Some o →
  (heldIn (set_posted (Some o') k) + total (λ j, its (jobDone j)) (qu_jobs o) = heldIn k + total (λ j, its (jobDone j)) (qu_jobs o'))%nat.
Proof. intros E. unfold heldIn, queued. cbn. rewrite E. lia. Qed.

Lemma answer_with direct r done : total withTask (answer direct r done) = its done.
Proof. destruct done as [p|]; [|by rewrite its_none]. cbn. destruct direct; weigh; cbn; lia. Qed.
Lemma nothing_with {A} (f : A → Task) l : (∀ y, taskDone (f y) = None) → total withTask (f <$> l) = 0%nat.
Proof. intros H. rewrite total_fmap. apply total_zero. intros y _. unfold withTask. by rewrite H, its_none. Qed.

Lemma held_after now delay f k id k' : after now delay f k = Some (id, k') → heldIn k' = heldIn k.
Proof. unfold after. destruct (stopping_ _); [done|]. by intros [= _ <-]. Qed.
Lemma held_turn now k : heldIn (turn now k).1 = heldIn k.
Proof. unfold turn. destruct (stopping_ _); [done|]. destruct (due_ _) as [|[next id] due]; [done|]. by destruct (_ <? _). Qed.

Lemma held_forget h k : heldIn (forget h k).1 = heldIn k.
Proof. apply held_core, forget_core. Qed.
Lemma held_keepHandle h ch k : heldIn (keepHandle h ch k).1 = heldIn k.
Proof. apply held_core, keepHandle_core. Qed.
Lemma held_connection made ids k : heldIn (connection opts made ids k).1.1 = heldIn k.
Proof. apply held_core, connection_core. Qed.
Lemma held_sweep has k : heldIn (sweepSubs has k).1.1 = heldIn k.
Proof. by apply held_core. Qed.
Lemma held_leave k : heldIn (leaveConn opts k).1.1.1 = heldIn k.
Proof. by apply held_core. Qed.
Lemma held_stop k : heldIn (stopTimer k).1 = heldIn k.
Proof. done. Qed.

(** What the operation did with the callbacks. *)
Ltac known :=
  try match goal with
  | H : takeAttempt ?i ?b ?k = _ |- _ => pose proof (held_takeAttempt i b k) as Hh; rewrite H in Hh
  | H : takeSub ?i ?b ?k = _ |- _ => pose proof (held_takeSub i b k) as Hh; rewrite H in Hh
  | H : claimSend ?i ?k = _ |- _ => pose proof (held_claimSend i k) as Hh; rewrite H in Hh; cbn in Hh
  | H : claimSub ?i ?k = _ |- _ => pose proof (held_claimSub i k) as Hh; rewrite H in Hh; cbn in Hh
  | H : countTopic _ _ _ = Some _ |- _ => pose proof (held_countTopic _ _ _ _ _ _ _ H) as Hh
  | H : after _ _ _ _ = Some _ |- _ => pose proof (held_after _ _ _ _ _ _ H) as Hh
  | H : turn ?n ?k = _ |- _ => pose proof (held_turn n k) as Hh; rewrite H in Hh; cbn in Hh
  | H : forget ?h ?k = _ |- _ => pose proof (held_forget h k) as Hh; rewrite H in Hh; cbn in Hh
  | H : keepHandle ?h ?ch ?k = _ |- _ => pose proof (held_keepHandle h ch k) as Hh; rewrite H in Hh; cbn in Hh
  | H : connection _ ?m ?i ?k = _ |- _ => pose proof (held_connection m i k) as Hh; rewrite H in Hh; cbn in Hh
  | H : sweepSubs ?b ?k = _ |- _ => pose proof (held_sweep b k) as Hh; rewrite H in Hh; cbn in Hh
  | H : leaveConn _ ?k = _ |- _ => pose proof (held_leave k) as Hh; rewrite H in Hh; cbn in Hh
  | H : stopTimer ?k = _ |- _ => pose proof (held_stop k) as Hh; rewrite H in Hh; cbn in Hh
  end.

Lemma perform_passes g t k k' next ns :
  performKit opts g t k = Some (k', next, ns) → follows t = true ∨ (∃ id, t = TCancel id) → passes t k k' next ns.
Proof.
  intros E Hok. destruct t; cases_of E; try (plain; fail); known; try (plain; rewrite ?answer_with, ?nothing_with by done; weigh; lia).
  - plain. unfold heldIn, queued, newAttempt. cbn. rewrite total_app, total_cons, total_nil. cbn. lia.
  - destruct f as [fn|[a|h tp w|ch]|a]; plain.
  - plain. unfold unclaim. rewrite held_attempts; [lia|]. intros a'. by destruct (am_settled a').
  - plain. unfold unclaimSub. rewrite held_waits; [lia|]. intros w'. by destruct (sw_settled w').
  - plain. rewrite held_attempts; [lia|done].
  - plain. rewrite held_attempts; [lia|done].
  - plain. unfold clearSent. rewrite held_attempts; [lia|done].
  - plain. unfold clearSent. rewrite held_attempts; [lia|done].
  - match goal with H : posted_ k = Some ?o |- _ => pose proof (held_queue o (postJob j o) k H) as Hh end.
    unfold postJob in *. destruct (qu_closed _); [|done]. plain.
  - match goal with H : posted_ k = Some ?o |- _ => pose proof (held_queue o (postJob j o) k H) as Hh end.
    unfold postJob in *. destruct (qu_closed _); [done|]. cbn [qu_jobs] in Hh. rewrite total_app, total_cons, total_nil in Hh. plain.
  - destruct f; simplify_eq/=; plain.
  - destruct Hok as [Hok|[id ?]]; [|done]. destruct n; try done; plain.
  - match goal with H : posted_ k = Some ?o, H' : swapJobs ?o = (_, ?o') |- _ => pose proof (held_queue o o' k H) as Hh end.
    plain. rewrite total_fmap. change (total (λ j, withTask (TPolled j)) l) with (total (λ j, its (jobDone j)) l).
    unfold swapJobs in *. destruct (qu_closed _); simplify_eq/=; rewrite ?total_nil in *; lia.
  - match goal with H : posted_ k = Some ?o |- _ => pose proof (held_queue o (closeQueue o) k H) as Hh end. cbn [closeQueue qu_jobs] in Hh.
    rewrite total_nil in Hh. plain; rewrite total_fmap.
    + change (total (λ j, its (spentOn (NDropped j))) (qu_jobs q0)) with (total (λ j, its (jobDone j)) (qu_jobs q0)). lia.
    + apply total_zero. intros j _. apply its_none.
Qed.

(** Every callback is somewhere, or was called. *)
Record counted k (ts : list Task) (log : list Notice) : Prop := {
  cd_asked : total asked log = (heldIn k + total withTask ts + total spent log)%nat;
  cd_tasks : Forall (task_ok log) ts }.

Lemma counted_kept good : kept good counted.
Proof.
  constructor.
  - intros st ts ts' log Hp []. constructor; by rewrite <- Hp.
  - intros t st ts log ns [Ha Ht] E. change (entersKit t st log = Some ns) in E.
    pose proof (enters_joins _ _ _ _ E) as [_ Hok _]. constructor.
    2: { constructor; [by apply task_ok_more|]. eapply List.Forall_impl; [|exact Ht]. intros. by apply task_ok_more. }
    rewrite !total_app, total_cons, Ha.
    assert (total asked ns = withTask t + total spent ns)%nat; [|lia].
    assert (∀ done, total asked (asks done) = its done + total spent (asks done))%nat as Hd.
    { intros [p|]; cbn [asks]; weigh; lia. }
    destruct t; try done; cbn [entersKit] in E; try (simplify_eq; by first [apply Hd|apply (Hd None)]);
      destruct (_ : bool) in E; simplify_eq; try by apply (Hd None); weigh; done.
  - intros g t st ts log st' next ns [Ha Ht] _ E. change (performKit opts g t st = Some (st', next, ns)) in E.
    apply Forall_cons_1 in Ht as [Hok Ht]. destruct (perform_passes g t st st' next ns E) as [Hh Hn].
    { destruct Hok as [|(id & -> & _)]; [by left|right; by exists id]. }
    constructor.
    + rewrite !total_app, Hn, Ha, total_cons. lia.
    + apply Forall_app. split; [by eapply perform_tasks_ok|]. eapply List.Forall_impl; [|exact Ht]. intros. by apply task_ok_more.
Qed.
End One.

(** ** At rest *)

(** A settled attempt has given its callback away. *)
Record given k : Prop := {
  gn_attempts : Forall (λ a, am_settled a = true → am_done a = None) (attempts_ k);
  gn_waits : Forall (λ w, sw_settled w = true → sw_done w = None) (waits_ k) }.

Lemma given_core k k' : core k' = core k → given k → given k'.
Proof. intros [= _ _ E1 E2 _] [H1 H2]. constructor; by rewrite ?E1, ?E2. Qed.
Lemma given_attempts f i k :
  (∀ a, (am_settled a = true → am_done a = None) → am_settled (f a) = true → am_done (f a) = None) →
  given k → given (set_attempts (KitRuntime.alter f i (attempts_ k)) k).
Proof. intros Hf [H1 H2]. constructor; [|done]. cbn. apply Forall_alter; [done|]. intros x _. apply Hf. Qed.
Lemma given_waits f i k :
  (∀ w, (sw_settled w = true → sw_done w = None) → sw_settled (f w) = true → sw_done (f w) = None) →
  given k → given (set_waits (KitRuntime.alter f i (waits_ k)) k).
Proof. intros Hf [H1 H2]. constructor; [done|]. cbn. apply Forall_alter; [done|]. intros x _. apply Hf. Qed.

Lemma given_takeAttempt i b k : given k → given (takeAttempt i b k).1.
Proof. intros H. unfold takeAttempt. destruct (attempts_ k !! i); [|done]. destruct (_ || _); [done|]. by apply given_attempts. Qed.
Lemma given_takeSub i b k : given k → given (takeSub i b k).1.
Proof. intros H. unfold takeSub. destruct (waits_ k !! i); [|done]. destruct (_ || _); [done|]. by apply given_waits. Qed.
Lemma given_claimSend i k : given k → given (claimSend i k).1.
Proof. intros H. unfold claimSend. destruct (attempts_ k !! i) as [a|]; [|done]. destruct (am_settled a); [done|]. by apply given_attempts. Qed.
Lemma given_claimSub i k : given k → given (claimSub i k).1.
Proof. intros H. unfold claimSub. destruct (waits_ k !! i) as [a|]; [|done]. destruct (sw_settled a); [done|]. by apply given_waits. Qed.
Lemma given_countTopic topic done k k' h w first : countTopic topic done k = Some (k', h, w, first) → given k → given k'.
Proof.
  unfold countTopic. destruct (_ && _); [done|]. intros [= <- <- <- <-] [H1 H2]. constructor; [done|]. cbn.
  apply Forall_app. split; [done|]. by constructor.
Qed.
Lemma given_after now delay f k id k' : after now delay f k = Some (id, k') → given k → given k'.
Proof. unfold after. destruct (stopping_ _); [done|]. intros [= _ <-]. by intros []. Qed.
Lemma given_turn now k : given k → given (turn now k).1.
Proof.
  unfold turn. destruct (stopping_ _); [done|]. destruct (due_ _) as [|[next id] due]; [done|]. destruct (_ <? _); [done|]. by intros [].
Qed.

Lemma perform_given g t k k' next ns : performKit opts g t k = Some (k', next, ns) → given k → given k'.
Proof.
  intros E H. destruct t; cases_of E; try done; try (destruct H; constructor; done);
    try (match goal with
    | Hx : takeAttempt ?i ?b ?k = _ |- _ => pose proof (given_takeAttempt i b k) as Hh
    | Hx : takeSub ?i ?b ?k = _ |- _ => pose proof (given_takeSub i b k) as Hh
    | Hx : claimSend ?i ?k = _ |- _ => pose proof (given_claimSend i k) as Hh
    | Hx : claimSub ?i ?k = _ |- _ => pose proof (given_claimSub i k) as Hh
    | Hx : turn ?n ?k = _ |- _ => pose proof (given_turn n k) as Hh
    | Hx : forget ?h ?k = _ |- _ => pose proof (given_core k _ (forget_core h k)) as Hh
    | Hx : keepHandle ?h ?ch ?k = _ |- _ => pose proof (given_core k _ (keepHandle_core h ch k)) as Hh
    | Hx : connection _ ?m ?i ?k = _ |- _ => pose proof (given_core k _ (connection_core opts m i k)) as Hh
    end; match goal with Hx : _ = (_, _) |- _ => rewrite Hx in Hh end; by apply Hh).
  all: try (eapply given_countTopic; [eassumption|done]); try (eapply given_after; [eassumption|done]).
  all: try (match goal with Hx : _ = (_, _) |- _ => injection Hx as <- end; destruct H; constructor; done).
  - destruct H. constructor; [|done]. cbn. apply Forall_app. split; [done|]. by constructor.
  - apply given_attempts; [|done]. intros a' Ha. by destruct (am_settled a') eqn:E; cbn; rewrite ?E; auto.
  - apply given_waits; [|done]. intros w' Hw. by destruct (sw_settled w') eqn:E; cbn; rewrite ?E; auto.
  - by apply given_attempts.
  - by apply given_attempts.
  - by apply given_attempts.
  - by apply given_attempts.
Qed.

Lemma given_kept good : kept good (λ k _ _, given k).
Proof. constructor; try done. intros g t st ts log st' next ns H _ E. by eapply (perform_given g t st st'). Qed.
Lemma new_given now dispatcher : given (newKit opts now dispatcher).
Proof. constructor; constructor. Qed.

(** Nothing is left to do: no task, no function on the timer unless the kit is closed, nothing with
    the dispatcher, which was not closed, and the connection has answered everything. *)
Record atRest (s : Work (Kit F) Task Notice) : Prop := {
  rs_tasks : left_to_do s = [];
  rs_timer : fns_ (timer (wk_state s)) = [] ∨ closed_ (wk_state s) = true;
  rs_queue : queued (wk_state s) = [];
  rs_drops : ∀ j, NDropped j ∉ wk_log s;
  rs_calls : ∀ a, number (isAnswerOf a) (wk_log s) = number (isCallOf a) (wk_log s);
  rs_subs : ∀ w, number (isSubAnswerOf w) (wk_log s) = number (isSubOf w) (wk_log s) }.

Lemma timer_empty k ts log : tended k ts log → ts = [] → fns_ (timer k) = [] ∨ closed_ k = true → fns_ (timer k) = [].
Proof.
  intros H -> [|Hc]; [done|]. destruct (td_stops _ _ _ H Hc) as [Hs|Hs]; [by apply (to_stopped _ _ (td_timer _ _ _ H))|by apply not_elem_of_nil in Hs].
Qed.

(** Nobody is left waiting. *)
Lemma rest_settled s x :
  tended (wk_state s) (left_to_do s) (wk_log s) → atRest s → openUnsent x (wk_state s) = 0%nat ∧ openSent x (wk_state s) = 0%nat.
Proof.
  intros H [Ht Hf Hq Hd Hc Hs]. pose proof (timer_empty _ _ _ H Ht Hf) as Hf'. split.
  - pose proof (td_unsent _ _ _ H x) as Hu. rewrite Ht in Hu. unfold parked in Hu. rewrite Hf', Hq, !total_nil in Hu.
    rewrite (total_zero (drops x)) in Hu; [lia|]. intros n Hn. destruct n; try apply mine_none. by destruct (Hd j).
  - destruct (td_sent _ _ _ H x) as [|Hx]; [done|]. rewrite Ht, total_nil in Hx.
    destruct x as [a|w]; [destruct (calls_number a (wk_log s)) as [E1 E2]; rewrite E1, E2, Hc in Hx; lia|
      destruct (subs_number w (wk_log s)) as [E1 E2]; rewrite E1, E2, Hs in Hx; lia].
Qed.

Lemma settled_holds_none q k :
  given k → (∀ x, openUnsent x k = 0%nat ∧ openSent x k = 0%nat) → queued k = [] → heldIn q k = 0%nat.
Proof.
  intros [H1 H2] Hx Hq. unfold heldIn. rewrite Hq, total_nil, !total_zero; [done|..].
  - intros w (i & Hi)%list_elem_of_lookup. rewrite list.Forall_lookup in H2. rewrite (H2 _ _ Hi); [apply its_none|].
    destruct (Hx (Sub i)) as [Hu Hs]. unfold openUnsent, openSent, flags in *. rewrite Hi in *. cbn in *. by destruct (sw_settled w), (sw_sent w).
  - intros a (i & Hi)%list_elem_of_lookup. rewrite list.Forall_lookup in H1. rewrite (H1 _ _ Hi); [apply its_none|].
    destruct (Hx (Att i)) as [Hu Hs]. unfold openUnsent, openSent, flags in *. rewrite Hi in *. cbn in *. by destruct (am_settled a), (am_sent a).
Qed.

Definition isAsk (q : Z) (n : Notice) : bool := match n with NAsked p => p =? q | _ => false end.
Definition isCallback (q : Z) (n : Notice) : bool := match n with NDone p _ => p =? q | _ => false end.

Lemma its_eqb q p : its q (Some p) = tally (p =? q).
Proof. unfold its. f_equal. case_bool_decide; symmetry; rewrite ?Z.eqb_eq, ?Z.eqb_neq; congruence. Qed.
Lemma asked_number q log : total (asked q) log = number (isAsk q) log.
Proof. apply total_number. intros n. unfold asked. destruct n; cbn; try apply its_none. apply its_eqb. Qed.
Lemma spent_number q log :
  (number (isCallback q) log ≤ total (spent q) log ∧ ((∀ j, NDropped j ∉ log) → total (spent q) log = number (isCallback q) log))%nat.
Proof.
  induction log as [|n log [IH1 IH2]]; [done|]. rewrite number_cons, total_cons.
  assert (∀ m, its q m = 0 ∨ its q m = 1)%nat as Hi by (intros m; unfold its; case_bool_decide; auto).
  destruct n; cbn; unfold spent at 1 3; cbn; rewrite ?its_none, ?its_eqb; try (split; [lia|]; intros H; rewrite IH2; [done|set_solver]).
  - split; [destruct (_ =? _); cbn; lia|]. intros H. rewrite IH2 by set_solver. by destruct (_ =? _).
  - split; [lia|]. intros H. exfalso. apply (H j). by left.
Qed.

Lemma new_counted now dispatcher q : counted q (newKit opts now dispatcher) [] [].
Proof. constructor; [|constructor]. unfold heldIn, queued. by destruct dispatcher. Qed.

(** C26. a callback given to [call] or [subscribe] is called at most once, whatever the threads, the
    timer, [close] and the connection do; and when the runtime is at rest (nothing is left for its
    threads, its timer and its dispatcher, which was not closed before, and the connection has
    answered what it was asked), exactly once, also in a kit that was closed meanwhile. *)
Theorem kit_answers_once now dispatcher s q :
  reaches (λ _ : Given F, True) (newKit opts now dispatcher) s →
  (number (isCallback q) (wk_log s) ≤ number (isAsk q) (wk_log s))%nat ∧
  (atRest s → number (isCallback q) (wk_log s) = number (isAsk q) (wk_log s)).
Proof.
  intros Hr.
  pose proof (tasks_invariant _ _ _ s (tended_kept opts (λ _, True)) (new_tended opts now dispatcher) Hr) as Ht.
  pose proof (tasks_invariant _ _ _ s (counted_kept q (λ _, True)) (new_counted now dispatcher q) Hr) as [Hc _].
  pose proof (tasks_invariant _ _ _ s (given_kept (λ _, True)) (new_given now dispatcher) Hr) as Hg.
  rewrite asked_number in Hc. pose proof (spent_number q (wk_log s)) as [Hs1 Hs2]. split; [lia|]. intros H.
  rewrite (settled_holds_none q (wk_state s) Hg), (rs_tasks _ H), total_nil, Hs2 in Hc; [lia|by apply rs_drops..|by intros x; apply rest_settled|by apply rs_queue].
Qed.
End Callbacks.
