(* ===== verification/KitResends.v ===== *)
(** * When the kit sends a call again

    A call is sent once, and once more for each answer that says that is safe: the gateway did not
    run it, or it has an action id and its outcome is not known ([kit_resends_safe]). *)

From S2P Require Import Prelude Bytes Core Json Endpoint ExecWire KitProtocol Tasks KitRuntime KitCalls.

Open Scope Z_scope.

#[local] Arguments chars : simpl never.

(** Whether a call may be sent again after an answer: [Busy] and [RateLimited] say it did not run; a
    hub drops a second run of an action id it has a receipt for. *)
Definition safeAgain (hasActionId : bool) (r : ExecReply) : bool :=
  match er_status r with
  | Busy | RateLimited => true
  | DeadlineExceeded | Unavailable | Moved => hasActionId
  | AppError => hasActionId && bool_decide (replyCode (replyFrom r) = chars "unavailable")
  | _ => false
  end.
Definition asksAgain (a : nat) (hasActionId : bool) (n : Notice) : bool :=
  match n with NAnswered b r => (b =? a)%nat && safeAgain hasActionId r | _ => false end.

Definition pacedSend (p : Paced) : option nat := match p with PSend a => Some a | _ => None end.
Definition fnSend (f : TimerFn) : option nat := match f with FPaced p => pacedSend p | FRetry a => Some a | FUser _ => None end.
Definition jobSend (j : Job) : option nat := match j with JTimer f => fnSend f | JDone _ _ => None end.
(** What a task will send, if nothing keeps it from that. *)
Definition toSend (t : Task) : option nat :=
  match t with
  | TSend a | THold _ a | TAgain a | TRetry a _ => Some a
  | TPaced p | TTake p | TRunPaced p | TConnect p | TClaim p | TRecheck p | TWire p => pacedSend p
  | TQueue _ f => fnSend f
  | TDeliver j | TRun j | TPolled j => jobSend j
  | _ => None
  end.
Definition notAnswer (t : Task) : bool := match t with TAnswered _ _ => false | _ => true end.
Definition sentOf (n : Notice) : option nat := match n with NCall a _ => Some a | _ => None end.

Section Resends.
Context {F : Type} `{!Dbl F}.
Variable opts : KitRuntimeOptions.
#[local] Hint Extern 0 (Worker (Kit F) _ _ _) => exact (kitWorker opts) : typeclass_instances.
Implicit Types k : Kit F.

Lemma verdict_safe draw r m v :
  verdict opts draw r m = Some v → v ≠ VSettle → safeAgain (am_hasActionId m) r = true ∧ am_attempt m < retries_ opts.
Proof.
  unfold verdict, safeAgain. destruct (_ || _) eqn:E; [by intros [= <-]|]. apply orb_false_iff in E as [_ E]. apply Z.leb_gt in E.
  destruct (bool_decide (er_status r = AppError)) eqn:Ea.
  - apply bool_decide_eq_true in Ea. rewrite Ea. destruct (_ && _) eqn:Ec; [done|by intros [= <-]].
  - apply bool_decide_eq_false in Ea. destruct (bool_decide _ && _) eqn:Eb.
    { apply andb_prop in Eb as [Eb _]. apply bool_decide_eq_true in Eb. by rewrite Eb. }
    destruct (_ || _) eqn:Ed; [|by intros [= <-]]. intros _ _. split; [|done].
    apply orb_prop in Ed as [Ed|Ed]; [|apply andb_prop in Ed as [-> Ed]]; by destruct (er_status r).
Qed.

Section One.
Variable a : nat.

Definition its (o : option nat) : nat := tally (bool_decide (o = Some a)).
Lemma its_nobody : its None = 0%nat.
Proof. done. Qed.

(** With the timer or the dispatcher, to be sent. *)
Definition waits k : nat := total (λ e, its (fnSend e.2)) (fns_ (timer k)) + total (λ j, its (jobSend j)) (queued k).
Definition due (t : Task) : nat := its (toSend t).
Definition went (n : Notice) : nat := its (sentOf n).
(** How often it may have been sent. *)
Definition allowed k : nat := match attempts_ k !! a with Some m => 1 + Z.to_nat (am_attempt m) | None => 0 end.

Definition flows (t : Task) k k' (next : list Task) (ns : list Notice) : Prop :=
  (waits k' + total due next + total went ns + allowed k ≤ waits k + due t + allowed k')%nat.

Ltac weigh := repeat first [rewrite total_app | rewrite total_cons | rewrite total_nil];
  unfold due, went; cbn [toSend sentOf jobSend fnSend pacedSend]; rewrite ?its_nobody.

(** *** Operations *)

(** Nothing here has changed. *)
Definition even k k' : Prop := timer k' = timer k ∧ posted_ k' = posted_ k ∧ allowed k' = allowed k.
Lemma flows_even t k k' next ns : even k k' → (total due next + total went ns ≤ due t)%nat → flows t k k' next ns.
Proof. intros (Et & Ep & Ea) H. unfold flows, waits, queued. rewrite Et, Ep, Ea. lia. Qed.

Lemma allowed_alter f i k :
  (∀ m, am_attempt (f m) = am_attempt m) → allowed (set_attempts (KitRuntime.alter f i (attempts_ k)) k) = allowed k.
Proof.
  intros H. unfold allowed, KitRuntime.alter. cbn. destruct (decide (a = i)) as [->|Hi]; [|by rewrite list_lookup_alter_ne by done].
  rewrite list_lookup_alter_eq. destruct (attempts_ k !! i); cbn; [by rewrite H|done].
Qed.
Lemma allowed_more i k :
  Forall (λ m, 0 ≤ am_attempt m) (attempts_ k) → is_Some (attempts_ k !! i) →
  allowed (set_attempts (KitRuntime.alter oneMore i (attempts_ k)) k) = (allowed k + tally (bool_decide (a = i)))%nat.
Proof.
  intros H [m Hi]. unfold allowed, KitRuntime.alter. cbn. case_bool_decide as E.
  - subst. rewrite list_lookup_alter_eq, Hi. cbn. rewrite list.Forall_lookup in H. specialize (H _ _ Hi). lia.
  - rewrite list_lookup_alter_ne by done. cbn. lia.
Qed.
Lemma even_core k k' : core k' = core k → even k k'.
Proof. intros [= _ E1 E2 _ E3]. split; [done|]. split; [done|]. unfold allowed. by rewrite E2. Qed.
Lemma even_alter f i k :
  (∀ m, am_attempt (f m) = am_attempt m) → even k (set_attempts (KitRuntime.alter f i (attempts_ k)) k).
Proof. intros H. split; [done|]. split; [done|]. by apply allowed_alter. Qed.
Lemma even_takeAttempt i b k : even k (takeAttempt i b k).1.
Proof. unfold takeAttempt. destruct (attempts_ k !! i); [|done]. destruct (_ || _); [done|]. by apply even_alter. Qed.
Lemma even_takeSub i b k : even k (takeSub i b k).1.
Proof. unfold takeSub. destruct (waits_ k !! i); [|done]. by destruct (_ || _). Qed.
Lemma even_claimSend i k : even k (claimSend i k).1.
Proof. unfold claimSend. destruct (attempts_ k !! i) as [m|]; [|done]. destruct (am_settled m); [done|]. by apply even_alter. Qed.
Lemma even_claimSub i k : even k (claimSub i k).1.
Proof. unfold claimSub. destruct (waits_ k !! i) as [m|]; [|done]. by destruct (sw_settled m). Qed.
Lemma even_countTopic topic done k k' h w first : countTopic topic done k = Some (k', h, w, first) → even k k'.
Proof. unfold countTopic. destruct (_ && _); [done|]. by intros [= <- <- <- <-]. Qed.
Lemma allowed_new m k : (allowed k + tally (bool_decide (a = length (attempts_ k))) ≤ allowed (set_attempts (attempts_ k ++ [m]) k))%nat.
Proof.
  unfold allowed. cbn. case_bool_decide as E.
  - subst. rewrite lookup_ge_None_2, lookup_app_r, Nat.sub_diag by lia. cbn. lia.
  - destruct (attempts_ k !! a) as [m'|] eqn:Ea; cbn; [|lia]. erewrite lookup_app_l_Some by done. lia.
Qed.

Lemma waits_after log now delay f k id k' :
  timer_ok log k → after now delay f k = Some (id, k') → waits k' = (waits k + its (fnSend f))%nat ∧ allowed k' = allowed k.
Proof.
  intros H E. destruct (after_ok log now delay f k id k' [] H E) as (_ & Hp & Ea & Ew & Eq); [by left|].
  unfold waits, queued, allowed. rewrite Hp, Eq, Ea, total_cons. cbn. lia.
Qed.
Lemma waits_cancel id k : (waits (cancelTimer id k) ≤ waits k)%nat.
Proof.
  unfold waits, queued, cancelTimer. cbn. pose proof (total_erase (λ e, its (fnSend e.2)) id (fns_ (timer k))) as H.
  cbn in H. destruct (look id (fns_ (timer k))); lia.
Qed.
Lemma waits_turn now k :
  let '(k', f) := turn now k in (waits k' + its (f ≫= fnSend) = waits k)%nat ∧ allowed k' = allowed k.
Proof.
  assert (waits k + its (None ≫= fnSend) = waits k)%nat as Hn by (cbn; rewrite its_nobody; lia).
  unfold turn. destruct (stopping_ _); [done|]. destruct (due_ _) as [|[next id] due]; [done|]. destruct (_ <? _); [done|]. clear Hn.
  unfold waits, queued, allowed. cbn. pose proof (total_erase (λ e, its (fnSend e.2)) id (fns_ (timer k))) as H.
  destruct (look id (fns_ (timer k))); cbn in *; rewrite ?its_nobody; (split; [lia|done]).
Qed.
Lemma waits_queue o o' k : posted_ k = Some o →
  (waits (set_posted (Some o') k) + total (λ j, its (jobSend j)) (qu_jobs o) = waits k + total (λ j, its (jobSend j)) (qu_jobs o'))%nat.
Proof. intros E. unfold waits, queued. cbn. rewrite E. lia. Qed.

Lemma none_due {A} (f : A → Task) l : (∀ y, toSend (f y) = None) → total due (f <$> l) = 0%nat.
Proof. intros H. rewrite total_fmap. apply total_zero. intros y _. unfold due. by rewrite H. Qed.
Lemma answer_due direct r done : total due (answer direct r done) = 0%nat.
Proof. destruct done as [q|]; [|done]. by destruct direct. Qed.

(** What the operation left. *)
Ltac unchanged :=
  try match goal with
  | H : takeAttempt ?i ?b ?k = _ |- _ => pose proof (even_takeAttempt i b k) as Hh; rewrite H in Hh
  | H : takeSub ?i ?b ?k = _ |- _ => pose proof (even_takeSub i b k) as Hh; rewrite H in Hh
  | H : claimSend ?i ?k = _ |- _ => pose proof (even_claimSend i k) as Hh; rewrite H in Hh
  | H : claimSub ?i ?k = _ |- _ => pose proof (even_claimSub i k) as Hh; rewrite H in Hh
  | H : countTopic _ _ _ = Some _ |- _ => pose proof (even_countTopic _ _ _ _ _ _ _ H) as Hh
  | H : forget ?h ?k = _ |- _ => pose proof (even_core k _ (forget_core h k)) as Hh; rewrite H in Hh
  | H : keepHandle ?h ?ch ?k = _ |- _ => pose proof (even_core k _ (keepHandle_core h ch k)) as Hh; rewrite H in Hh
  | H : connection _ ?m ?i ?k = _ |- _ => pose proof (even_core k _ (connection_core opts m i k)) as Hh; rewrite H in Hh
  | H : sweepSubs _ _ = (_, _) |- _ => injection H as <-
  | H : leaveConn _ _ = (_, _) |- _ => injection H as <-
  end.

Lemma perform_flows log g t k k' next ns :
  performKit opts g t k = Some (k', next, ns) → timer_ok log k → follows t = true ∨ (∃ id, t = TCancel id) →
  Forall (λ m, 0 ≤ am_attempt m) (attempts_ k) → flows t k k' next ns.
Proof.
  intros E Hto Hok Ha. destruct t; cases_of E; unchanged;
    try (apply flows_even; [done|]; rewrite ?answer_due; weigh; rewrite ?none_due by done; cbn; lia).
  - unfold flows. pose proof (allowed_new (newAttempt (gv_id g) nodeType key method args options done) k). weigh. unfold its in *.
    change (waits (set_attempts _ k)) with (waits k). rewrite (bool_decide_ext _ (a = length (attempts_ k))) by naive_solver congruence. lia.
  - edestruct waits_after as [Hw Hl]; [done|eassumption|]. unfold flows. weigh. cbn [fnSend] in Hw. rewrite its_nobody in Hw. lia.
  - pose proof (waits_cancel id k). unfold flows. weigh. change (allowed (cancelTimer id k)) with (allowed k). lia.
  - pose proof (waits_turn (gv_now g) k) as H. destruct (turn (gv_now g) k). simplify_eq/=. unfold flows. weigh. lia.
  - pose proof (waits_turn (gv_now g) k) as H. destruct (turn (gv_now g) k). simplify_eq/=. unfold flows. weigh. lia.
  - unfold flows, waits, queued, allowed. weigh. cbn. lia.
  - match goal with H : stopTimer _ = _ |- _ => injection H as <- <- end. unfold flows. rewrite total_cons, total_app, none_due by done. weigh.
    unfold waits, queued, allowed. cbn. rewrite ?total_nil. lia.
  - edestruct waits_after as [Hw Hl]; [done|eassumption|]. unfold flows. weigh. lia.
  - destruct f as [fn|[b|h tp w|ch]|b]; (apply flows_even; [done|cbn [dropOf]; weigh; lia]).
  - apply flows_even; [|weigh; lia]. apply even_alter. intros m. by destruct (am_settled m).
  - unfold flows. rewrite allowed_more by eauto. weigh. unfold its. change (waits (set_attempts _ k)) with (waits k).
    rewrite (bool_decide_ext (Some a0 = Some a) (a = a0)) by naive_solver congruence. lia.
  - unfold flows. rewrite allowed_more by eauto. weigh. unfold its. change (waits (set_attempts _ k)) with (waits k).
    rewrite (bool_decide_ext (Some a0 = Some a) (a = a0)) by naive_solver congruence. lia.
  - apply flows_even; [|weigh; lia]. by apply even_alter.
  - apply flows_even; [|weigh; lia]. by apply even_alter.
  - match goal with H : posted_ k = Some ?o |- _ => pose proof (waits_queue o (postJob j o) k H) as Hh end.
    unfold postJob in *. destruct (qu_closed _); [|done]. unfold flows. weigh. change (allowed (set_posted _ k)) with (allowed k). lia.
  - match goal with H : posted_ k = Some ?o |- _ => pose proof (waits_queue o (postJob j o) k H) as Hh end.
    unfold postJob in *. destruct (qu_closed _); [done|]. cbn [qu_jobs] in Hh. rewrite total_app, total_cons, total_nil in Hh.
    unfold flows. weigh. change (allowed (set_posted _ k)) with (allowed k). lia.
  - destruct f; simplify_eq/=; (apply flows_even; [done|weigh; cbn; lia]).
  - destruct Hok as [Hok|[id ?]]; [|done]. destruct n; try done; (apply flows_even; [done|weigh; cbn; lia]).
  - match goal with H : posted_ k = Some ?o, H' : swapJobs ?o = (_, ?o') |- _ => pose proof (waits_queue o o' k H) as Hh end.
    unfold flows. weigh. rewrite total_fmap. change (total (λ j, due (TPolled j)) l) with (total (λ j, its (jobSend j)) l).
    change (allowed (set_posted _ k)) with (allowed k).
    unfold swapJobs in *. destruct (qu_closed _); simplify_eq/=; rewrite ?total_nil in *; lia.
  - match goal with H : posted_ k = Some ?o |- _ => pose proof (waits_queue o (closeQueue o) k H) as Hh end. cbn [closeQueue qu_jobs] in Hh.
    rewrite total_nil in Hh. unfold flows. weigh. rewrite total_fmap, (total_zero (λ j, went (NDropped j))) by done.
    change (allowed (set_posted _ k)) with (allowed k). lia.
Qed.
End One.

(** ** Attempts *)

(** What an attempt is, apart from how far it is. *)
Definition key (m : Attempt) : HubCall * bool * Z := (am_call m, am_hasActionId m, am_attempt m).
Definition keys k := key <$> attempts_ k.

Lemma keys_alter f i k : (∀ m, key (f m) = key m) → keys (set_attempts (KitRuntime.alter f i (attempts_ k)) k) = keys k.
Proof.
  intros H. unfold keys, KitRuntime.alter. cbn. apply list_eq. intros j. rewrite !list_lookup_fmap.
  destruct (decide (i = j)) as [->|Hj]; [|by rewrite list_lookup_alter_ne]. rewrite list_lookup_alter_eq. destruct (attempts_ k !! j); cbn; by rewrite ?H.
Qed.
Lemma keys_core k k' : core k' = core k → keys k' = keys k.
Proof. intros [= _ _ E _ _]. unfold keys. by rewrite E. Qed.
Lemma keys_takeAttempt i b k : keys (takeAttempt i b k).1 = keys k.
Proof. unfold takeAttempt. destruct (attempts_ k !! i); [|done]. destruct (_ || _); [done|]. by apply keys_alter. Qed.
Lemma keys_takeSub i b k : keys (takeSub i b k).1 = keys k.
Proof. unfold takeSub. destruct (waits_ k !! i); [|done]. by destruct (_ || _). Qed.
Lemma keys_claimSend i k : keys (claimSend i k).1 = keys k.
Proof. unfold claimSend. destruct (attempts_ k !! i) as [m|]; [|done]. destruct (am_settled m); [done|]. by apply keys_alter. Qed.
Lemma keys_claimSub i k : keys (claimSub i k).1 = keys k.
Proof. unfold claimSub. destruct (waits_ k !! i) as [m|]; [|done]. by destruct (sw_settled m). Qed.
Lemma keys_countTopic topic done k k' h w first : countTopic topic done k = Some (k', h, w, first) → keys k' = keys k.
Proof. unfold countTopic. destruct (_ && _); [done|]. by intros [= <- <- <- <-]. Qed.
Lemma keys_after now delay f k id k' : after now delay f k = Some (id, k') → keys k' = keys k.
Proof. unfold after. destruct (stopping_ _); [done|]. by intros [= _ <-]. Qed.
Lemma keys_turn now k : keys (turn now k).1 = keys k.
Proof. unfold turn. destruct (stopping_ _); [done|]. destruct (due_ _) as [|[next id] due]; [done|]. by destruct (_ <? _). Qed.

(** A new attempt, or one more that is safe. *)
Inductive advances (t : Task) k k' : Prop :=
| adv_none : keys k' = keys k → advances t k k'
| adv_new m : attempts_ k' = attempts_ k ++ [m] → am_attempt m = 0 → advances t k k'
| adv_more i r m :
    t = TAnswered i r → attempts_ k !! i = Some m → safeAgain (am_hasActionId m) r = true → am_attempt m < retries_ opts →
    attempts_ k' = base.alter oneMore i (attempts_ k) → advances t k k'.

Lemma perform_advances g t k k' next ns : performKit opts g t k = Some (k', next, ns) → advances t k k'.
Proof.
  intros E. destruct t; cases_of E; try (by apply adv_none);
    try (match goal with
    | Hx : takeAttempt ?i ?b ?k = _ |- _ => pose proof (keys_takeAttempt i b k) as Hh
    | Hx : takeSub ?i ?b ?k = _ |- _ => pose proof (keys_takeSub i b k) as Hh
    | Hx : claimSend ?i ?k = _ |- _ => pose proof (keys_claimSend i k) as Hh
    | Hx : claimSub ?i ?k = _ |- _ => pose proof (keys_claimSub i k) as Hh
    | Hx : turn ?n ?k = _ |- _ => pose proof (keys_turn n k) as Hh
    | Hx : forget ?h ?k = _ |- _ => pose proof (keys_core k _ (forget_core h k)) as Hh
    | Hx : keepHandle ?h ?ch ?k = _ |- _ => pose proof (keys_core k _ (keepHandle_core h ch k)) as Hh
    | Hx : connection _ ?m ?i ?k = _ |- _ => pose proof (keys_core k _ (connection_core opts m i k)) as Hh
    end; match goal with Hx : _ = (_, _) |- _ => rewrite Hx in Hh end; by apply adv_none);
    try (apply adv_none; by first [eapply keys_countTopic; eassumption | eapply keys_after; eassumption]);
    try (match goal with Hx : _ = (_, _) |- _ => injection Hx as <- end; by apply adv_none);
    try (by apply adv_none, keys_alter).
  - by eapply adv_new.
  - apply adv_none, keys_alter. intros m. by destruct (am_settled m).
  - edestruct verdict_safe; [eassumption|done|]. by eapply adv_more.
  - edestruct verdict_safe; [eassumption|done|]. by eapply adv_more.
Qed.

(** What is sent is the attempt's call. *)
Definition says k (n : Notice) : Prop :=
  match n with NAnswered _ _ => False | NCall i c => am_call <$> attempts_ k !! i = Some c | _ => True end.
Lemma perform_says g t k k' next ns :
  performKit opts g t k = Some (k', next, ns) → follows t = true ∨ (∃ id, t = TCancel id) → Forall (says k) ns.
Proof.
  intros E Hok. destruct t; cases_of E; try (repeat constructor; fail).
  - repeat constructor. cbn. match goal with H : attempts_ _ !! _ = _ |- _ => by rewrite H end.
  - destruct f; simplify_eq/=; repeat constructor.
  - destruct Hok as [Hok|[id ?]]; [|done]. destruct n; try done; repeat constructor.
  - apply list.Forall_forall. by intros n (j & -> & _)%list_elem_of_fmap.
Qed.

(** ** The invariant *)

Definition pendingAgain (a : nat) (hasActionId : bool) (t : Task) : bool :=
  match t with TAnswered b r => (b =? a)%nat && safeAgain hasActionId r | _ => false end.

Record resends k (ts : list Task) (log : list Notice) : Prop := {
  re_timer : timer_ok log k;
  re_tasks : Forall (task_ok log) ts;
  re_flow : ∀ a, (waits a k + total (due a) ts + total (went a) log ≤ allowed a k)%nat;
  re_attempts : ∀ a m, attempts_ k !! a = Some m →
    0 ≤ am_attempt m ≤ retries_ opts ∧
    (Z.to_nat (am_attempt m) + number (pendingAgain a (am_hasActionId m)) ts ≤ number (asksAgain a (am_hasActionId m)) log)%nat;
  re_answered : ∀ a r, TAnswered a r ∈ ts ∨ NAnswered a r ∈ log → is_Some (attempts_ k !! a);
  re_calls : ∀ a c, NCall a c ∈ log → am_call <$> attempts_ k !! a = Some c }.

(** What a task that is no answer does to the counts. *)
Lemma inner_pending a b ts : Forall (λ t, inner t = true) ts → number (pendingAgain a b) ts = 0%nat.
Proof. induction 1 as [|t ts Ht]; [done|]. rewrite number_cons. by destruct t. Qed.
Lemma says_asks k a b ns : Forall (says k) ns → number (asksAgain a b) ns = 0%nat.
Proof. induction 1 as [|n ns Hn]; [done|]. rewrite number_cons. by destruct n. Qed.

Lemma no_pending a b ts : (∀ r, TAnswered a r ∉ ts) → number (pendingAgain a b) ts = 0%nat.
Proof.
  induction ts as [|t ts IH]; [done|]. intros H. rewrite number_cons, IH by set_solver. destruct t; try done. cbn.
  destruct (_ =? _)%nat eqn:E; [|done]. apply Nat.eqb_eq in E as ->. exfalso. apply (H r). by left.
Qed.

Lemma keys_lookup k k' a m :
  keys k' = keys k → attempts_ k !! a = Some m → ∃ m', attempts_ k' !! a = Some m' ∧ key m' = key m.
Proof.
  intros E Hm. assert (keys k' !! a = Some (key m)) as H by (rewrite E; unfold keys; by rewrite list_lookup_fmap, Hm).
  unfold keys in H. apply list_lookup_fmap_Some in H as (m' & -> & ?). eauto.
Qed.
(** An attempt stays what it is. *)
Lemma attempts_stay t k k' a m :
  advances t k k' → attempts_ k !! a = Some m → ∃ m', attempts_ k' !! a = Some m' ∧ am_call m' = am_call m.
Proof.
  intros H Hm. destruct H as [E|m0 E _|i r m0 _ Hi _ _ E].
  - destruct (keys_lookup k k' a m E Hm) as (m' & ? & [= ? ? ?]). eauto.
  - exists m. rewrite E. by erewrite lookup_app_l_Some.
  - rewrite E. destruct (decide (a = i)) as [->|Hn]; [rewrite list_lookup_alter_eq, Hm; by eexists|rewrite list_lookup_alter_ne by done; eauto].
Qed.
Lemma attempts_before t k k' a m' :
  advances t k k' → attempts_ k' !! a = Some m' →
  (attempts_ k !! a = None ∧ am_attempt m' = 0) ∨
  ∃ m, attempts_ k !! a = Some m ∧ am_hasActionId m' = am_hasActionId m ∧
    (am_attempt m' = am_attempt m ∨
     ∃ r, t = TAnswered a r ∧ safeAgain (am_hasActionId m) r = true ∧ am_attempt m < retries_ opts ∧ am_attempt m' = am_attempt m + 1).
Proof.
  intros H Hm. destruct H as [E|m0 E H0|i r m0 -> Hi Hs Hl E].
  - destruct (keys_lookup k' k a m' (eq_sym E) Hm) as (m & ? & [= ? ? ?]). right. exists m. auto.
  - rewrite E in Hm. apply lookup_app_Some in Hm as [Hm|[Hg Hm]]; [right; eauto|left].
    rewrite lookup_ge_None_2 by done. apply list_lookup_singleton_Some in Hm as [_ <-]. done.
  - right. rewrite E in Hm. destruct (decide (a = i)) as [->|Hn].
    + rewrite list_lookup_alter_eq, Hi in Hm. injection Hm as <-. exists m0. split; [done|]. split; [done|]. right. eauto.
    + rewrite list_lookup_alter_ne in Hm by done. eauto.
Qed.

Lemma perform_resends g t k k' next ns ts log :
  performKit opts g t k = Some (k', next, ns) → resends k (t :: ts) log → resends k' (next ++ ts) (log ++ ns).
Proof.
  intros E H. pose proof H as [Ht Hts Hf Ha Han Hc]. apply Forall_cons_1 in Hts as [Hok Hts].
  assert (follows t = true ∨ ∃ id, t = TCancel id) as Hfol by (destruct Hok as [|(id & -> & _)]; eauto).
  pose proof (perform_advances g t k k' next ns E) as Hadv. pose proof (perform_says g t k k' next ns E Hfol) as Hsays.
  pose proof (perform_leaves opts g t k k' next ns E) as Hin. constructor.
  - by eapply perform_timer_ok.
  - apply Forall_app. split; [by eapply perform_tasks_ok|]. eapply List.Forall_impl; [|exact Hts]. intros. by apply task_ok_more.
  - intros a. pose proof (Hf a) as H1. rewrite total_cons in H1. rewrite !total_app.
    assert (flows a t k k' next ns) as H2; [|unfold flows in H2; lia]. eapply perform_flows; try done.
    apply list.Forall_forall. intros m (i & Hi)%list_elem_of_lookup. by destruct (Ha _ _ Hi) as [[? _] _].
  - intros a m' Hm. rewrite !number_app, (inner_pending a _ _ Hin), (says_asks k a _ _ Hsays). destruct (attempts_before _ _ _ _ _ Hadv Hm) as [[Hn H0]|(m & Hm0 & -> & Hd)].
    + rewrite H0. split; [unfold retries_; lia|]. assert (number (pendingAgain a (am_hasActionId m')) ts = 0%nat) as ->; [|cbn; lia].
      apply no_pending. intros r Hr. destruct (Han a r) as [m Hx]; [left; by right|congruence].
    + pose proof (Ha _ _ Hm0) as [Hr Hp]. rewrite number_cons in Hp. destruct Hd as [->|(r & -> & Hs & Hl & ->)]; [split; [done|lia]|].
      cbn in Hp. rewrite Nat.eqb_refl, Hs in Hp. cbn in Hp. split; lia.
  - intros a r Hin'. assert (TAnswered a r ∈ t :: ts ∨ NAnswered a r ∈ log) as Hold.
    { destruct Hin' as [[Hi|Hi]%elem_of_app|[Hi|Hi]%elem_of_app]; [|left; by right|by right|].
      - rewrite list.Forall_forall in Hin. by apply Hin in Hi.
      - rewrite list.Forall_forall in Hsays. by apply Hsays in Hi. }
    destruct (Han _ _ Hold) as [m Hm]. destruct (attempts_stay _ _ _ _ _ Hadv Hm) as (m' & -> & _). eauto.
  - intros a c Hi. assert (am_call <$> attempts_ k !! a = Some c) as Hold.
    { apply elem_of_app in Hi as [Hi|Hi]; [auto|]. rewrite list.Forall_forall in Hsays. by apply Hsays in Hi. }
    apply fmap_Some in Hold as (m & Hm & ->). destruct (attempts_stay _ _ _ _ _ Hadv Hm) as (m' & -> & <-). done.
Qed.

Lemma went_calls a log : total (went a) log = number (isCallOf a) log.
Proof.
  apply total_number. intros n. unfold went, its. destruct n; try done. cbn. f_equal. case_bool_decide; symmetry;
    rewrite ?Nat.eqb_eq, ?Nat.eqb_neq; congruence.
Qed.

(** A method that is entered; an answer is of a call that was sent. *)
Lemma enters_notes t k log ns : entersKit t k log = Some ns →
  toSend t = None ∧ ((∃ a r, t = TAnswered a r ∧ ns = [NAnswered a r] ∧ (0 < number (isCallOf a) log)%nat) ∨
  (∀ a r, t ≠ TAnswered a r) ∧ Forall (λ n, match n with NAsked _ | NSubAnswered _ _ | NTurn => True | _ => False end) ns).
Proof.
  intros E. split; [by destruct t|].
  destruct (decide (notAnswer t = true)) as [Hn|Hn]; [right|left].
  - split; [by intros a r ->|]. destruct t; try done; cbn [entersKit] in E; repeat (destruct (_ : bool) in E); simplify_eq;
      try (destruct done); repeat constructor.
  - destruct t; try done. cbn [entersKit] in E. destruct (_ <? _)%nat eqn:El in E; simplify_eq. apply Nat.ltb_lt in El.
    do 2 eexists. split; [done|]. split; [done|lia].
Qed.

Lemma enters_resends t k ts log ns : entersKit t k log = Some ns → resends k ts log → resends k (t :: ts) (log ++ ns).
Proof.
  intros E [Ht Hts Hf Ha Han Hc]. destruct (enters_joins _ _ _ _ E) as [Hq Hok _]. destruct (enters_notes _ _ _ _ E) as [Hd Hns].
  assert (∀ a c, NCall a c ∉ ns) as Hnc.
  { intros a c Hi. destruct Hns as [(a' & r & _ & -> & _)|[_ Hns]]; [set_solver|]. rewrite list.Forall_forall in Hns. by apply Hns in Hi. }
  assert (∀ a b, (number (pendingAgain a b) [t] ≤ number (asksAgain a b) ns)%nat) as Hp.
  { intros a b. rewrite number_cons, number_nil. destruct Hns as [(a' & r & -> & -> & _)|[Hn _]]; [rewrite number_cons; cbn; lia|].
    destruct t; cbn; try lia. by destruct (Hn a0 r). }
  assert (∀ a r, TAnswered a r = t ∨ NAnswered a r ∈ ns → is_Some (attempts_ k !! a)) as Hans.
  { intros a r H. assert (0 < number (isCallOf a) log)%nat as Hlt.
    { destruct Hns as [(a' & r' & -> & -> & Hlt)|[Hn Hns]]; [assert (a = a') as -> by set_solver; done|].
      destruct H as [<-|H]; [by destruct (Hn a r)|]. rewrite list.Forall_forall in Hns. by apply Hns in H. }
    rewrite <- went_calls in Hlt. pose proof (Hf a). unfold allowed in *. destruct (attempts_ k !! a); [eauto|lia]. }
  constructor.
  - by apply (timer_ok_same log ns k).
  - constructor; [by apply task_ok_more|]. eapply List.Forall_impl; [|exact Hts]. intros. by apply task_ok_more.
  - intros a. pose proof (Hf a). rewrite total_cons, total_app, (total_zero (went a) ns); [unfold due at 1; rewrite Hd, its_nobody; lia|]. intros n Hn. destruct n; try done. by destruct (Hnc a0 c).
  - intros a m Hm. destruct (Ha a m Hm) as [? ?]. split; [done|]. pose proof (Hp a (am_hasActionId m)) as H1.
    rewrite number_cons, number_nil in H1. rewrite number_cons, number_app. lia.
  - intros a r [[Hi|Hi]%elem_of_cons|[Hi|Hi]%elem_of_app]; eauto.
  - intros a c [Hi|Hi]%elem_of_app; [auto|]. by destruct (Hnc a c).
Qed.

Lemma resends_kept good : kept good resends.
Proof.
  constructor.
  - intros st ts ts' log Hp []. constructor; try done.
    + by rewrite <- Hp.
    + intros a. by rewrite <- Hp.
    + intros a m Hm. rewrite <- Hp. auto.
    + intros a r. rewrite <- Hp. apply re_answered0.
  - intros t st ts log ns H E. by apply (enters_resends t st ts log ns).
  - intros g t st ts log st' next ns H _ E. by apply (perform_resends g t st st' next ns ts log).
Qed.
Lemma new_resends now dispatcher : resends (newKit opts now dispatcher) [] [].
Proof.
  constructor; try (by constructor); try (intros a; by destruct dispatcher); try (intros; set_solver).
  apply (td_timer _ _ _ (new_tended opts now dispatcher)).
Qed.


(** C27. the kit sends a call once, and once more only after an answer that makes that safe: the
    gateway did not run it, or an action id was asked for (a hub keeps a receipt of it) and the
    outcome is not known; at most [retries] times, and always the same call with the same
    arguments. So a call without an action id is sent again only after [Busy] and [RateLimited].
    (Arguments that cannot carry the id: [KitRuntimeRuns.RuntimeFaults].) *)
Theorem kit_resends_safe now dispatcher s a m :
  reaches (λ _ : Given F, True) (newKit opts now dispatcher) s → attempts_ (wk_state s) !! a = Some m →
  (number (isCallOf a) (wk_log s) ≤ 1 + number (asksAgain a (am_hasActionId m)) (wk_log s))%nat ∧
  Z.of_nat (number (isCallOf a) (wk_log s)) ≤ 1 + retries_ opts ∧
  ∀ c, NCall a c ∈ wk_log s → c = am_call m.
Proof.
  intros Hr Hm. pose proof (tasks_invariant _ _ _ s (resends_kept (λ _, True)) (new_resends now dispatcher) Hr) as H.
  pose proof (re_flow _ _ _ H a) as Hf. destruct (re_attempts _ _ _ H a m Hm) as [Ha Hp].
  unfold allowed in Hf. rewrite Hm in Hf. rewrite went_calls in Hf. split; [lia|]. split; [lia|].
  intros c Hc%(re_calls _ _ _ H). rewrite Hm in Hc. by injection Hc.
Qed.
End Resends.
