(* ===== verification/KitTopics.v ===== *)
(** * The kit's subscriptions

    [counts_] has the topics somebody holds a handle of, each with the number of its handles, and at
    most as many as a connection may hold ([kit_topics_counted]). *)

From S2P Require Import Prelude Bytes Core Json Endpoint ExecWire KitProtocol Tasks KitRuntime KitCalls.

Open Scope Z_scope.

#[local] Arguments chars : simpl never.
#[local] Opaque kKitSubscriptionsMax.

Definition holdsTopic (key : bytes) (e : Z * Handle) : bool := bool_decide (ha_topicKey e.2 = key).

(** ** What the operations do *)

Lemma holds_cons key h v l :
  number (holdsTopic key) ((h, v) :: l) = ((if decide (key = ha_topicKey v) then 1 else 0) + number (holdsTopic key) l)%nat.
Proof. rewrite number_cons. unfold holdsTopic at 1. cbn. case_decide; case_bool_decide; congruence. Qed.

(** The counts, whatever order the handles are in. *)
Definition counts_handles (counts : list (bytes * Z)) (handles : list (Z * Handle)) : Prop :=
  ∀ key, look key counts = match number (holdsTopic key) handles with O => None | n => Some (Z.of_nat n) end.
Lemma counts_Permutation counts l l' : l ≡ₚ l' → counts_handles counts l → counts_handles counts l'.
Proof. intros Hp H key. by rewrite <- Hp. Qed.

(** One more handle of a topic, and one less. *)
Lemma counts_more counts handles h v :
  let key := ha_topicKey v in
  counts_handles counts handles →
  counts_handles (match look key counts with Some _ => change key (λ n, n + 1) counts | None => emplace less key 1 counts end) ((h, v) :: handles).
Proof.
  intros key H key'. rewrite holds_cons. fold key. destruct (look key counts) as [c|] eqn:E.
  - rewrite look_change, (H key'). case_decide as Ek; [|done]. subst key'. rewrite H in E. destruct (number _ handles); [done|]. cbn. f_equal. lia.
  - rewrite look_emplace, (H key') by done. case_decide as Ek; [|done]. subst key'. rewrite H in E. by destruct (number _ handles).
Qed.
Lemma counts_less counts handles h v :
  let key := ha_topicKey v in
  let n := default 0 (look key counts) - 1 in
  NoDup counts.*1 → counts_handles counts ((h, v) :: handles) →
  is_Some (look key counts) ∧ counts_handles (if n <=? 0 then erase key counts else change key (λ n, n - 1) counts) handles.
Proof.
  intros key n Hd H. pose proof (H key) as Hk. rewrite holds_cons, decide_True in Hk by done. cbn in Hk. split; [by rewrite Hk|].
  intros key'. pose proof (H key') as Hk'. rewrite holds_cons in Hk'. fold key in Hk'. unfold n. rewrite Hk. cbn.
  destruct (number (holdsTopic key) handles) as [|m] eqn:Em; (destruct (_ <=? 0) eqn:Eb; [apply Z.leb_le in Eb|apply Z.leb_gt in Eb]); try lia.
  - rewrite look_erase by done. case_decide; [subst; by rewrite Em|done].
  - rewrite look_change. case_decide; [subst; rewrite Hk', Em; cbn; f_equal; lia|done].
Qed.

Record subs_ok (s : Subs) : Prop := {
  so_counts : counts_handles (counts_ s) (handles_ s);
  so_topics : NoDup (counts_ s).*1;
  so_max : (length (counts_ s) ≤ kKitSubscriptionsMax)%nat;
  so_handles : NoDup (handles_ s).*1;
  so_next : Forall (λ h, h ≤ nextHandle_ s) (handles_ s).*1 }.

Lemma emplace_NoDup {K V} `{EqDecision K} lt (key : K) (v : V) l :
  look key l = None → NoDup l.*1 → NoDup (emplace lt key v l).*1.
Proof.
  intros H Hn. rewrite (emplace_Permutation lt key v l H). cbn. apply NoDup_cons_2; [|done]. by apply look_None.
Qed.

Section Topics.
Context {F : Type} `{!Dbl F}.
Variable opts : KitRuntimeOptions.
#[local] Hint Extern 0 (Worker (Kit F) _ _ _) => exact (kitWorker opts) : typeclass_instances.
Implicit Types k : Kit F.

Lemma countTopic_ok topic done k k' h w first :
  countTopic topic done k = Some (k', h, w, first) → subs_ok (subs k) → subs_ok (subs k').
Proof.
  unfold countTopic. destruct (_ && _) eqn:Ec; [done|]. intros [= <- _ _ _] []. cbn.
  set (key := topicKeyOf topic) in *. set (v := mkHandle key 0 (length (waits_ k))). set (h' := nextHandle_ (subs k) + 1).
  assert (look h' (handles_ (subs k)) = None) as Hf.
  { apply look_None. intros Hin. rewrite list.Forall_forall in so_next0. apply so_next0 in Hin. lia. }
  constructor; cbn.
  - eapply counts_Permutation; [symmetry; by apply emplace_Permutation|]. by apply (counts_more _ _ h' v).
  - destruct (look key _) as [c|] eqn:E; [by rewrite change_keys|by apply emplace_NoDup].
  - destruct (look key _) as [c|] eqn:E; [by rewrite <- (length_fmap fst), change_keys, length_fmap|].
    rewrite bool_decide_eq_true_2 in Ec by done. rewrite andb_true_l in Ec. apply Nat.leb_gt in Ec.
    rewrite emplace_Permutation by done. rewrite length_cons. lia.
  - by apply emplace_NoDup.
  - rewrite emplace_Permutation by done. cbn. constructor; [done|]. eapply List.Forall_impl; [|done]. cbn. lia.
Qed.

Lemma forgets_ok h k : subs_ok (subs k) → subs_ok (subs (forget h k).1).
Proof.
  unfold forget. intros H. destruct (look h (handles_ (subs k))) as [v|] eqn:E; [|done]. cbn. destruct H.
  assert (counts_handles (counts_ (subs k)) ((h, v) :: erase h (handles_ (subs k)))) as Hc.
  { eapply counts_Permutation; [|done]. by apply erase_Permutation. }
  destruct (counts_less _ _ h v so_topics0 Hc) as [Hs Hl]. rewrite (bool_decide_eq_true_2 _ Hs). cbn [andb].
  constructor; cbn; [done|..].
  - destruct (_ <=? 0); [by apply erase_NoDup|by rewrite change_keys].
  - destruct (_ <=? 0); [|by rewrite <- (length_fmap fst), change_keys, length_fmap].
    destruct Hs as [c Hs]. pose proof (erase_length _ _ _ Hs). lia.
  - by apply erase_NoDup.
  - apply list.Forall_forall. intros h' (e & -> & Hin%erase_sub)%list_elem_of_fmap. rewrite list.Forall_forall in so_next0.
    apply so_next0, list_elem_of_fmap. eauto.
Qed.

Lemma keepHandle_ok h ch k : subs_ok (subs k) → subs_ok (subs (keepHandle h ch k).1).
Proof.
  unfold keepHandle. intros H. destruct (look h (handles_ (subs k))) as [v|] eqn:E; [|done]. destruct (closed_ k); [done|]. cbn. destruct H.
  constructor; cbn; rewrite ?change_keys; try done. intros key. rewrite (so_counts0 key).
  rewrite (change_Permutation _ _ _ _ E), (erase_Permutation _ _ _ E) at 1. by rewrite !holds_cons.
Qed.

Lemma connection_subs made ids k : subs (connection opts made ids k).1.1 = subs k.
Proof. unfold connection. destruct (_ || _); [done|]. destruct (conn_ _); [done|]. by destruct (_ || _). Qed.
Lemma takeAttempt_subs i b k : subs (takeAttempt i b k).1 = subs k.
Proof. unfold takeAttempt. destruct (attempts_ k !! i); [|done]. by destruct (_ || _). Qed.
Lemma takeSub_subs i b k : subs (takeSub i b k).1 = subs k.
Proof. unfold takeSub. destruct (waits_ k !! i); [|done]. by destruct (_ || _). Qed.
Lemma claimSend_subs i k : subs (claimSend i k).1 = subs k.
Proof. unfold claimSend. destruct (attempts_ k !! i) as [m|]; [|done]. by destruct (am_settled m). Qed.
Lemma claimSub_subs i k : subs (claimSub i k).1 = subs k.
Proof. unfold claimSub. destruct (waits_ k !! i) as [m|]; [|done]. by destruct (sw_settled m). Qed.
Lemma after_subs now delay f k id k' : after now delay f k = Some (id, k') → subs k' = subs k.
Proof. unfold after. destruct (stopping_ _); [done|]. by intros [= _ <-]. Qed.
Lemma turn_subs now k : subs (turn now k).1 = subs k.
Proof. unfold turn. destruct (stopping_ _); [done|]. destruct (due_ _) as [|[next id] due]; [done|]. by destruct (_ <? _). Qed.

Lemma no_subs_ok n : subs_ok (mkSubs [] [] [] n).
Proof. constructor; try done; by constructor || apply Nat.le_0_l. Qed.

Lemma perform_subs g t k k' next ns : performKit opts g t k = Some (k', next, ns) → subs_ok (subs k) → subs_ok (subs k').
Proof.
  intros E H. destruct t; cases_of E; try done;
    try (match goal with
    | Hx : takeAttempt ?i ?b ?k = _ |- _ => pose proof (takeAttempt_subs i b k) as Hh
    | Hx : takeSub ?i ?b ?k = _ |- _ => pose proof (takeSub_subs i b k) as Hh
    | Hx : claimSend ?i ?k = _ |- _ => pose proof (claimSend_subs i k) as Hh
    | Hx : claimSub ?i ?k = _ |- _ => pose proof (claimSub_subs i k) as Hh
    | Hx : turn ?n ?k = _ |- _ => pose proof (turn_subs n k) as Hh
    | Hx : forget ?h ?k = _ |- _ => pose proof (forgets_ok h k H) as Hh
    | Hx : keepHandle ?h ?ch ?k = _ |- _ => pose proof (keepHandle_ok h ch k H) as Hh
    | Hx : connection _ ?m ?i ?k = _ |- _ => pose proof (connection_subs m i k) as Hh
    end; match goal with Hx : _ = (_, _) |- _ => rewrite Hx in Hh end; cbn in Hh; by rewrite ?Hh).
  all: try (by eapply countTopic_ok); try (match goal with Hx : after _ _ _ _ = Some _ |- _ => by rewrite (after_subs _ _ _ _ _ _ Hx) end).
  all: try (destruct H; constructor; done).
  all: match goal with Hx : _ = (_, _) |- _ => injection Hx as <- end; first [exact H | apply no_subs_ok].
Qed.

Lemma topics_kept good : kept good (λ k _ _, subs_ok (subs k)).
Proof. constructor; try done. intros g t st ts log st' next ns H _ E. by apply (perform_subs g t st st' next ns). Qed.

(** C29. in every reachable runtime, the number kept for a topic is the number of its handles, and a
    topic without a handle has none; and there are never more topics than a connection may hold. *)
Theorem kit_topics_counted now dispatcher s topic :
  reaches (λ _ : Given F, True) (newKit opts now dispatcher) s →
  let sub := subs (wk_state s) in
  look (topicKeyOf topic) (counts_ sub) =
    match number (holdsTopic (topicKeyOf topic)) (handles_ sub) with O => None | n => Some (Z.of_nat n) end ∧
  NoDup (counts_ sub).*1 ∧ (length (counts_ sub) ≤ kKitSubscriptionsMax)%nat.
Proof.
  intros Hr. pose proof (tasks_invariant _ _ (newKit opts now dispatcher) s (topics_kept (λ _, True)) (no_subs_ok 0) Hr) as []. auto.
Qed.
End Topics.
