(* ===== verification/KitBudget.v ===== *)
(** * The kit's budget

    The token bucket of [takeOrWait] and [hold], with exact arithmetic in place of [double]: how many
    tokens it gives in a stretch of time, and that a wait is long enough ([kit_paces]). The
    definitions of [KitRuntime.v] take the arithmetic as a parameter ([Dbl]); what is shown here is
    shown for rationals only, so up to the rounding of the [double]s of [runtime.cpp]. *)

From Stdlib Require Import QArith Qminmax Lqa.
From S2P Require Import Prelude Bytes Tasks KitRuntime.

Open Scope Z_scope.

(** Rationals, which do not round, in place of [double]. *)
#[export] Instance Q_dbl : Dbl Q :=
  {| d_int := inject_Z; d_add := Qplus; d_sub := Qminus; d_mul := Qmult; d_div := Qdiv; d_min := Qmin;
     d_le := Qle_bool; d_trunc := λ q, Z.quot (Qnum q) (QDen q) |}.

(** What the runtime does with its budget, with the times of the clock. *)
Inductive BudgetOp := OTake (now : Z) | OHold (now ms : Z).
Definition opTime (op : BudgetOp) : Z := match op with OTake now | OHold now _ => now end.

Section Budget.
Variable opts : KitRuntimeOptions.
Implicit Types b : Budget Q.

(** The tokens taken, and what is left. *)
Fixpoint spend (ops : list BudgetOp) (b : Budget Q) : nat * Budget Q :=
  match ops with
  | [] => (O, b)
  | OTake now :: ops =>
      let '(wait, b) := takeOrWait opts now b in
      let '(n, b) := spend ops b in ((tally (wait =? 0)%Z + n)%nat, b)
  | OHold now ms :: ops => spend ops (hold now ms b)
  end.

(** The clock does not go back. *)
Fixpoint rising (from : Z) (ops : list BudgetOp) (upto : Z) : Prop :=
  match ops with [] => from ≤ upto | op :: ops => from ≤ opTime op ∧ rising (opTime op) ops upto end.

Definition cap : Q := inject_Z (capacity_ opts).
(** Tokens for nanoseconds. *)
Definition rate : Q := (cap / (inject_Z perMs * inject_Z (windowMs_ opts)))%Q.

Lemma cap_ge : (1 <= cap)%Q.
Proof. unfold cap, capacity_. change 1%Q with (inject_Z 1). rewrite <- Zle_Qle. lia. Qed.
Lemma window_pos : (0 < inject_Z (windowMs_ opts))%Q.
Proof. unfold windowMs_. change 0%Q with (inject_Z 0). rewrite <- Zlt_Qlt. lia. Qed.
Lemma perMs_pos : (0 < inject_Z perMs)%Q.
Proof. done. Qed.
Lemma rate_pos : (0 < rate)%Q.
Proof.
  pose proof cap_ge. apply Qlt_shift_div_l; [apply Qmult_lt_0_compat; [apply perMs_pos|apply window_pos]|]. lra.
Qed.

(** The tokens there are at a time. *)
Lemma refilled_le now b : (refilled opts now b <= tokens_ b + inject_Z (now - last_ b) * rate)%Q.
Proof.
  unfold refilled. cbn [d_min d_int d_add d_div d_mul Q_dbl]. eapply Qle_trans; [apply Q.le_min_r|].
  apply Qplus_le_r. unfold rate, cap. apply Qle_lteq. right. field. pose proof window_pos.
  split; [lra|]. pose proof perMs_pos. lra.
Qed.

(** What a bucket has. *)
Definition budget_ok (b : Budget Q) : Prop := (0 <= tokens_ b <= cap)%Q.

Lemma elapsed_pos now b : last_ b ≤ now → (0 <= inject_Z (now - last_ b) * rate)%Q.
Proof.
  intros H. apply Qmult_le_0_compat; [change 0%Q with (inject_Z 0); rewrite <- Zle_Qle; lia|]. apply Qlt_le_weak, rate_pos.
Qed.
Lemma refilled_eq now b :
  (refilled opts now b == Qmin cap (tokens_ b + inject_Z (now - last_ b) * rate))%Q.
Proof.
  unfold refilled. cbn [d_min d_int d_add d_div d_mul Q_dbl]. unfold cap, rate.
  assert (inject_Z (now - last_ b) / inject_Z perMs * inject_Z (capacity_ opts) / inject_Z (windowMs_ opts) ==
    inject_Z (now - last_ b) * (inject_Z (capacity_ opts) / (inject_Z perMs * inject_Z (windowMs_ opts))))%Q as ->; [|done].
  pose proof window_pos. pose proof perMs_pos. field. split; lra.
Qed.

(** The tokens at a time are at most as many as there were, and what has come in. *)
Lemma refilled_later t now b : t ≤ now → (refilled opts now b <= refilled opts t b + inject_Z (now - t) * rate)%Q.
Proof.
  intros H. rewrite !refilled_eq. pose proof rate_pos as Hr.
  assert (0 <= inject_Z (now - t) * rate)%Q as H0.
  { apply Qmult_le_0_compat; [change 0%Q with (inject_Z 0); rewrite <- Zle_Qle; lia|lra]. }
  assert (inject_Z (now - last_ b) * rate == inject_Z (t - last_ b) * rate + inject_Z (now - t) * rate)%Q as He.
  { rewrite <- Qmult_plus_distr_l, <- inject_Z_plus. do 2 f_equiv. lia. }
  destruct (Q.min_spec cap (tokens_ b + inject_Z (t - last_ b) * rate)) as [[_ ->]|[_ ->]].
  - eapply Qle_trans; [apply Q.le_min_l|lra].
  - eapply Qle_trans; [apply Q.le_min_r|lra].
Qed.
Lemma refilled_now now b : last_ b = now → (tokens_ b <= cap)%Q → (refilled opts now b == tokens_ b)%Q.
Proof.
  intros <- H. rewrite refilled_eq, Z.sub_diag. change (inject_Z 0) with 0%Q. rewrite Qmult_0_l, Qplus_0_r. by apply Q.min_r.
Qed.

Lemma not_taken w : w ≠ 0 → (inject_Z (Z.of_nat (tally (w =? 0)%Z)) == 0)%Q.
Proof. by intros ->%Z.eqb_neq. Qed.

Lemma takeOrWait_bounds now b : budget_ok b → last_ b ≤ now →
  let '(wait, b') := takeOrWait opts now b in
  budget_ok b' ∧ last_ b' ≤ now ∧ (refilled opts now b' + inject_Z (Z.of_nat (tally (wait =? 0))) <= refilled opts now b)%Q.
Proof.
  intros Hb Hn. pose proof (elapsed_pos now b Hn) as He. pose proof cap_ge. unfold takeOrWait. destruct (now <? blockedUntil_ b) eqn:Ebl.
  { split; [done|]. split; [done|]. rewrite not_taken by lia. lra. }
  assert (0 <= refilled opts now b <= cap)%Q as Hf.
  { unfold budget_ok in *. rewrite refilled_eq. split; [apply Q.min_glb; lra|apply Q.le_min_l]. }
  cbn [d_le d_int d_sub Q_dbl]. destruct (Qle_bool (inject_Z 1) (refilled opts now b)) eqn:Ele; cbn [tokens_ last_ fst snd].
  - apply Qle_bool_iff in Ele. change (Z.of_nat (tally (0 =? 0))) with 1. change (inject_Z 1) with 1%Q in *.
    unfold budget_ok. cbn [tokens_ last_]. split; [lra|]. split; [lia|]. rewrite refilled_now by (done || cbn [tokens_]; lra). cbn [tokens_]. lra.
  - rewrite not_taken by lia. unfold budget_ok. cbn [tokens_ last_]. split; [lra|]. split; [lia|].
    rewrite refilled_now by (done || cbn [tokens_]; lra). cbn [tokens_]. lra.
Qed.

Lemma hold_bounds now ms b : budget_ok b → last_ b ≤ now →
  budget_ok (hold now ms b) ∧ (refilled opts now (hold now ms b) <= refilled opts now b)%Q.
Proof.
  intros Hb Hn. pose proof cap_ge. unfold budget_ok, hold in *. cbn [tokens_ d_int Q_dbl]. change (inject_Z 0) with 0%Q. split; [lra|].
  rewrite !refilled_eq. cbn [tokens_ last_ d_int Q_dbl]. change (inject_Z 0) with 0%Q. apply Q.min_le_compat_l. lra.
Qed.

Lemma between from t upto : from ≤ t → (inject_Z (upto - from) * rate == inject_Z (t - from) * rate + inject_Z (upto - t) * rate)%Q.
Proof. intros H. rewrite <- Qmult_plus_distr_l, <- inject_Z_plus. do 2 f_equiv. lia. Qed.
Lemma refilled_pos now b : budget_ok b → last_ b ≤ now → (0 <= refilled opts now b)%Q.
Proof. intros Hb Hn. pose proof (elapsed_pos now b Hn). pose proof cap_ge. unfold budget_ok in Hb. rewrite refilled_eq. apply Q.min_glb; lra. Qed.
Lemma time_pos from upto : from ≤ upto → (0 <= inject_Z (upto - from) * rate)%Q.
Proof.
  intros H. pose proof rate_pos. apply Qmult_le_0_compat; [change 0%Q with (inject_Z 0); rewrite <- Zle_Qle; lia|lra].
Qed.

Lemma spend_bounds ops from upto b : budget_ok b → last_ b ≤ from → rising from ops upto →
  budget_ok (spend ops b).2 ∧ last_ (spend ops b).2 ≤ upto ∧
  (inject_Z (Z.of_nat (spend ops b).1) <= refilled opts from b + inject_Z (upto - from) * rate)%Q.
Proof.
  revert from b. induction ops as [|op ops IH]; intros from b Hb Hl Hr; cbn [rising] in Hr.
  - cbn [spend fst snd]. split; [done|]. split; [lia|]. pose proof (refilled_pos from b Hb Hl). pose proof (time_pos from upto Hr).
    change (inject_Z (Z.of_nat 0)) with 0%Q. lra.
  - destruct Hr as [Ht Hr]. pose proof (refilled_later from (opTime op) b Ht). rewrite (between from (opTime op) upto Ht).
    destruct op as [now|now ms]; cbn [spend opTime] in *.
    + pose proof (takeOrWait_bounds now b Hb ltac:(lia)) as Hw. destruct (takeOrWait opts now b) as [wait b1]. destruct Hw as (Hb1 & Hl1 & Hw).
      destruct (IH now b1 Hb1 Hl1 Hr) as (H1 & H2 & H3). destruct (spend ops b1) as [n b2]. cbn [fst snd] in *. split; [done|]. split; [done|].
      rewrite Nat2Z.inj_add, inject_Z_plus. lra.
    + destruct (hold_bounds now ms b Hb ltac:(lia)) as [Hb1 Hw]. destruct (IH now (hold now ms b) Hb1 ltac:(cbn; lia) Hr) as (H1 & H2 & H3).
      split; [done|]. split; [done|]. lra.
Qed.

(** The next whole number is not below. *)
Lemma trunc_next (x : Q) : (0 <= x)%Q → (x <= inject_Z (d_trunc x + 1))%Q.
Proof.
  destruct x as [n d]. unfold Qle. cbn. rewrite !Z.mul_1_r. intros H. rewrite Z.quot_div_nonneg by lia.
  pose proof (Z.div_mod n (Z.pos d) ltac:(lia)). pose proof (Z.mod_pos_bound n (Z.pos d) ltac:(lia)). nia.
Qed.

(** How long a wait is. *)
Lemma wait_enough now b : budget_ok b → last_ b ≤ now → blockedUntil_ b ≤ now →
  let '(wait, b') := takeOrWait opts now b in wait ≠ 0 → (takeOrWait opts (now + wait * perMs) b').1 = 0.
Proof.
  intros Hb Hn Hl. unfold takeOrWait at 1. rewrite (proj2 (Z.ltb_ge _ _) Hl). pose proof (refilled_pos now b Hb Hn) as Hp. pose proof cap_ge as Hc.
  cbn [d_le d_int d_sub d_mul d_div Q_dbl]. destruct (Qle_bool (inject_Z 1) (refilled opts now b)) eqn:Ele; [done|].
  set (r := refilled opts now b) in *. set (x := ((inject_Z 1 - r) * inject_Z (windowMs_ opts) / inject_Z (capacity_ opts))%Q).
  set (w := Z.max 1 (d_trunc x + 1)). intros _. unfold takeOrWait. cbn [blockedUntil_ last_ tokens_].
  assert (perMs = 1000000) as Em by done. rewrite (proj2 (Z.ltb_ge _ _)) by lia.
  assert (1 <= refilled opts (now + w * perMs) (mkBudget r now (blockedUntil_ b)))%Q as H1.
  { rewrite refilled_eq. cbn [tokens_ last_]. apply Q.min_glb; [done|]. replace (now + w * perMs - now) with (w * perMs) by lia.
    assert (inject_Z (w * perMs) * rate == inject_Z w * (cap / inject_Z (windowMs_ opts)))%Q as ->.
    { rewrite inject_Z_mult. unfold rate. pose proof window_pos. pose proof perMs_pos. field. split; lra. }
    assert (x * (cap / inject_Z (windowMs_ opts)) == 1 - r)%Q as Hx.
    { unfold x, cap in *. change (inject_Z 1) with 1%Q in *. pose proof window_pos. field. split; lra. }
    assert (0 < cap / inject_Z (windowMs_ opts))%Q as Hq by (apply Qlt_shift_div_l; [apply window_pos|lra]).
    assert (r < 1)%Q as Hr by (apply Qnot_le_lt; rewrite <- Qle_bool_iff; change (inject_Z 1) with 1%Q in *; by rewrite Ele).
    assert (0 <= x)%Q as Hx0.
    { apply Qle_shift_div_l; [unfold cap in *; lra|]. rewrite Qmult_0_l. pose proof window_pos. apply Qmult_le_0_compat; change (inject_Z 1) with 1%Q; lra. }
    assert (x <= inject_Z w)%Q as Hw.
    { eapply Qle_trans; [by apply trunc_next|]. rewrite <- Zle_Qle. lia. }
    pose proof (Qmult_le_compat_r _ _ _ Hw (Qlt_le_weak _ _ Hq)). lra. }
  by assert (d_le (d_int 1) (refilled opts (now + w * perMs) (mkBudget r now (blockedUntil_ b))) = true) as -> by (by apply Qle_bool_iff).
Qed.

(** In whole numbers. *)
Lemma rate_tokens n t :
  (inject_Z n <= cap + inject_Z t * rate)%Q → n * (windowMs_ opts * perMs) ≤ capacity_ opts * (windowMs_ opts * perMs + t).
Proof.
  intros H. rewrite Zle_Qle. pose proof window_pos as Hw. pose proof perMs_pos as Hp.
  assert (0 < inject_Z (windowMs_ opts * perMs))%Q as Hwp by (rewrite inject_Z_mult; by apply Qmult_lt_0_compat).
  pose proof (Qmult_le_compat_r _ _ _ H (Qlt_le_weak _ _ Hwp)) as H'. clear H. rename H' into H.
  rewrite (inject_Z_mult n), (inject_Z_mult (capacity_ opts)), inject_Z_plus. eapply Qle_trans; [exact H|]. unfold rate, cap. rewrite inject_Z_mult.
  apply Qle_lteq. right. field. split; lra.
Qed.

Lemma new_ok now : budget_ok (newBudget opts now).
Proof. pose proof cap_ge. unfold budget_ok, newBudget. cbn [tokens_ d_int Q_dbl]. fold cap. lra. Qed.

(** C28. with exact rational arithmetic in place of the code's [double]s (what their rounding adds or
    takes is not counted): a token bucket that started at any time and did anything since then
    gives, in the time from [from] to [upto], at most a whole budget of tokens and what comes in in
    that time; while a hold of the gateway lasts it gives none; and when it has none to give, and
    no hold lasts, the wait it answers is enough, if nobody else takes the token. *)
Theorem kit_paces before ops start from upto :
  rising start before from → rising from ops upto →
  let b := (spend before (newBudget opts start)).2 in
  Z.of_nat (spend ops b).1 * (windowMs_ opts * perMs) ≤ capacity_ opts * (windowMs_ opts * perMs + (upto - from)) ∧
  (from < blockedUntil_ b → (takeOrWait opts from b).1 ≠ 0) ∧
  (blockedUntil_ b ≤ from → let '(wait, b') := takeOrWait opts from b in wait ≠ 0 → (takeOrWait opts (from + wait * perMs) b').1 = 0).
Proof.
  intros H1 H2 b. destruct (spend_bounds before start from (newBudget opts start) (new_ok start) ltac:(done) H1) as (Hb & Hl & _).
  split; [|split; [|by apply wait_enough]].
  - destruct (spend_bounds ops from upto b Hb Hl H2) as (_ & _ & Hs). apply rate_tokens. eapply Qle_trans; [exact Hs|].
    rewrite refilled_eq. pose proof (Q.le_min_l cap (tokens_ b + inject_Z (from - last_ b) * rate)). lra.
  - intros Hlt. unfold takeOrWait. rewrite (proj2 (Z.ltb_lt _ _) Hlt). cbn [fst]. lia.
Qed.
End Budget.
