(* ===== verification/KitEnds.v ===== *)
(** * The kit's methods end

    A thread of the runtime ends what it does by moves of its own, except that [close] waits for
    the timer thread, which then ends its turn by moves of its own ([kit_threads_end]). *)

From S2P Require Import Prelude Bytes Core Json Endpoint ExecWire KitProtocol Tasks KitRuntime KitCalls KitResends.

Open Scope Z_scope.

#[local] Arguments chars : simpl never.

Definition jobRank (j : Job) : nat := match j with JDone _ _ => 0 | JTimer _ => 11 end.
(** How far a task is from the end of its method. *)
Definition rank (t : Task) : nat :=
  match t with
  | TTold _ | TConnUnsub _ | TDropPending _ | TAfter _ _ | TCancel _ | TOnReconnect | TOnAccessEnded | TRemoveListener _ | TCloseDispatcher | TTurned => 0
  | TRun j => jobRank j
  | TDeliver j | TPolled j => 1 + jobRank j
  | TKeep _ _ | TReconnected _ | TNotifyEnded _ => 1
  | TFailUnsent _ | TFailSub _ | TSettle _ _ _ | TSettleSub _ _ _ | TWire _ | TEnded _ => 2
  | TDrop _ | TUnclaim _ | TNoConn _ | TSubAnswered _ _ | TSweep _ _ _ => 3
  | TQueue _ _ | TRecheck _ | TLeaveConn => 4
  | TClaim _ | TJoin => 5
  | TConnect _ | TStopTimer => 6
  | TRunPaced _ | TClose => 7
  | TTake _ => 8
  | TPaced _ => 9
  | TSend _ | TCount _ _ | TPushUnsub _ => 10
  | TAgain _ | TRetry _ _ | TCall _ _ _ _ _ _ | TSubscribe _ _ | TUnsubPick _ _ => 11
  | THold _ _ | TUnsubConn _ _ => 12
  | TAnswered _ _ | TTurn | TPoll | TUnsubscribe _ => 13
  end.

(** Only calls and subscriptions go to the connection this way, and no task tells of a turn. *)
Definition sane (t : Task) : bool :=
  match t with TTold n => negb (isTurn n || isTurned n) | TConnect p | TNoConn p | TClaim p | TRecheck p | TUnclaim p | TWire p => match p with PUnsub _ => false | _ => true end | _ => true end.

Section Ends.
Context {F : Type} `{!Dbl F}.
Variable opts : KitRuntimeOptions.
#[local] Hint Extern 0 (Worker (Kit F) _ _ _) => exact (kitWorker opts) : typeclass_instances.
Implicit Types k : Kit F.

Definition below (n : nat) (t : Task) : Prop := (rank t < n)%nat ∧ sane t = true.

Lemma below_all {A} n (f : A → Task) l : (∀ y, below n (f y)) → Forall (below n) (f <$> l).
Proof. intros H. apply list.Forall_forall. intros t (y & -> & _)%list_elem_of_fmap. apply H. Qed.
Lemma answer_below n direct r done : (2 ≤ n)%nat → Forall (below n) (answer direct r done).
Proof. intros H. destruct done as [q|]; [|constructor]. destruct direct; repeat constructor; cbn; lia. Qed.

Lemma perform_below g t k k' next ns :
  performKit opts g t k = Some (k', next, ns) → sane t = true → Forall (below (rank t)) next.
Proof.
  intros E Hs. destruct t; cases_of E; try (repeat constructor; cbn; first [lia|done]; fail);
    repeat first [apply answer_below; cbn; lia | apply below_all; intros ?; split; [cbn; lia|done] | apply Forall_app; split
      | constructor; [split; [cbn; lia|done]|] | constructor].
  - destruct f as [fn|[a|h tp w|ch]|a]; repeat constructor; cbn; lia.
  - destruct f; simplify_eq/=; repeat constructor; cbn; lia.
  - apply below_all. intros j. split; [destruct j; cbn; lia|done].
Qed.

(** A task that is not stuck. *)
Lemma verdict_some draw r m : ko_retries opts ≤ 64 → is_Some (verdict opts draw r m).
Proof.
  intros H. unfold verdict. destruct (_ || _) eqn:E; [eauto|]. apply orb_false_iff in E as [_ E]. apply Z.leb_gt in E.
  unfold retryDelay. rewrite (proj2 (Z.ltb_lt _ _)) by (unfold retries_ in E; lia). cbn. repeat case_match; eauto.
Qed.
Lemma perform_some g t k :
  ko_retries opts ≤ 64 → sane t = true → (∀ a r, t = TAnswered a r → is_Some (attempts_ k !! a)) → (t = TJoin → turning (timer k) = false) → is_Some (performKit opts g t k).
Proof.
  intros Hr Hs Ha Hj. destruct t; cbn [performKit]; try (eexists; reflexivity).
  all: try (destruct p; try done; cbn [performKit]).
  all: try (repeat match goal with |- is_Some (match ?y with _ => _ end) => destruct y end; eexists; reflexivity).
  { rewrite Hj by done. eexists; reflexivity. }
  destruct (Ha a r eq_refl) as [m ->]. cbn [mbind option_bind]. destruct (closed_ k); [eexists; reflexivity|].
  destruct (verdict_some (gv_draw g) r m Hr) as [v ->]. destruct v; eexists; reflexivity.
Qed.

(** ** The turn of the timer thread, and who waits for its end *)

Definition inTurn (t : Task) : bool := match t with TTurn | TTurned => true | _ => false end.
Definition closing (t : Task) : bool := match t with TClose | TStopTimer | TJoin => true | _ => false end.
Definition like (t t' : Task) : Prop := implb (inTurn t') (inTurn t) && implb (closing t') (closing t) = true.

Lemma answer_like t direct r done : Forall (like t) (answer direct r done).
Proof. unfold like. destruct done as [q|]; [|constructor]. destruct direct; repeat constructor. Qed.
Lemma like_all {A} t (f : A → Task) l : (∀ y, like t (f y)) → Forall (like t) (f <$> l).
Proof. intros H. apply list.Forall_forall. intros t' (y & -> & _)%list_elem_of_fmap. apply H. Qed.

Lemma perform_like g t k k' next ns : performKit opts g t k = Some (k', next, ns) → Forall (like t) next.
Proof.
  intros E. destruct t; cases_of E; try (repeat constructor; fail);
    repeat first [apply answer_like | apply like_all; intros ?; done | apply Forall_app; split | constructor; [done|] | constructor].
  - by destruct f as [fn|[a|h tp w|ch]|a]; repeat constructor.
  - destruct f; simplify_eq/=; repeat constructor.
Qed.

Lemma perform_turning g t k k' next ns :
  performKit opts g t k = Some (k', next, ns) → inTurn t = false → turning (timer k') = turning (timer k).
Proof.
  intros E Ht. destruct (timerTask t) eqn:Et; [|destruct (closes t) eqn:Ec].
  - destruct t; try done; cases_of E; try done;
      try match goal with H : after _ _ _ _ = Some _ |- _ => unfold after in H; destruct (stopping_ _); [done|]; by injection H as <- <- end.
    match goal with H : stopTimer _ = _ |- _ => by injection H as <- <- end.
  - destruct t; try done. by cases_of E.
  - by assert (still k' = still k) as [= _ ->] by (by eapply perform_still).
Qed.

Definition saneView k (ts : list Task) (log : list Notice) : Prop := Forall (λ t, sane t = true) ts.
Lemma sane_kept good : kept good saneView.
Proof.
  unfold saneView. constructor.
  - intros st ts ts' log Hp H. by rewrite <- Hp.
  - intros t st ts log ns H E. constructor; [|done]. change (entersKit t st log = Some ns) in E. by destruct t.
  - intros g t st ts log st' next ns H _ E. apply Forall_cons_1 in H as [Ht H]. apply Forall_app. split; [|done].
    eapply List.Forall_impl; [|by eapply (perform_below g t st st')]. by intros t' [_ ?].
Qed.

Definition unturned (n : Notice) : Prop := isTurn n = false ∧ isTurned n = false.
Lemma number_turnless ns : Forall unturned ns → number isTurn ns = 0%nat ∧ number isTurned ns = 0%nat.
Proof. induction 1 as [|n ns [H1 H2] _ [IH1 IH2]]; [done|]. by rewrite !number_cons, H1, H2, IH1, IH2. Qed.

Lemma perform_unturned g t k k' next ns :
  performKit opts g t k = Some (k', next, ns) → sane t = true → inTurn t = false → Forall unturned ns.
Proof.
  intros E Hs Ht. destruct t; try done; cases_of E; try (repeat constructor; fail).
  - destruct f; simplify_eq/=; repeat constructor.
  - constructor; [|constructor]. apply negb_true_iff, orb_false_iff in Hs. exact Hs.
  - apply list.Forall_forall. by intros n (j & -> & _)%list_elem_of_fmap.
Qed.
Lemma number_like t ts : Forall (like t) ts → inTurn t = false → number inTurn ts = 0%nat.
Proof.
  intros H Ht. induction H as [|t' ts' Hl _ IH]; [done|]. rewrite number_cons, IH. unfold like in Hl. rewrite Ht in Hl.
  by destruct (inTurn t').
Qed.

(** The worker is outside its mutex only in its turn, and it takes one turn at a time. *)
Record turns k (ts : list Task) (log : list Notice) : Prop := {
  tu_sane : saneView k ts log;
  tu_log : (number isTurn log = number isTurned log + number inTurn ts)%nat;
  tu_one : (number inTurn ts ≤ 1)%nat;
  tu_turning : turning (timer k) = true → TTurned ∈ ts }.

Lemma enters_kitTurn t k log ns :
  entersKit t k log = Some ns →
  t = TTurn ∧ ns = [NTurn] ∧ number isTurn log = number isTurned log ∨ inTurn t = false ∧ Forall unturned ns.
Proof.
  intros E. destruct (inTurn t) eqn:Ht.
  - left. destruct t; try done. cbn in E. destruct (_ && _) eqn:Ec; [|done]. apply andb_true_iff in Ec as [_ Ec]. apply Nat.eqb_eq in Ec. by simplify_eq.
  - right. split; [done|]. destruct t; try done; cbn [entersKit] in E; repeat (destruct (_ : bool) in E); simplify_eq; try (destruct done); repeat constructor.
Qed.

Lemma number_turned ts : TTurned ∈ ts → (1 ≤ number inTurn ts)%nat.
Proof. intros (l1 & l2 & ->)%list_elem_of_split. rewrite number_app, number_cons. cbn. lia. Qed.
Lemma turn_turning now k :
  let '(k', f) := turn now k in turning (timer k') = match f with Some _ => true | None => turning (timer k) end.
Proof.
  unfold turn. destruct (stopping_ _); [done|]. destruct (due_ _) as [|[next id] due]; [done|]. destruct (_ <? _); [done|]. cbv zeta.
  cbn [timer set_timer turning]. by destruct (look id (fns_ (timer k))).
Qed.

Lemma turns_kept good : kept good turns.
Proof.
  constructor.
  - intros k ts ts' log Hp [Hs Hl H1 Ht]. constructor; [by eapply (kept_order _ _ (sane_kept good))|by rewrite <- Hp..|]. intros ?. rewrite <- Hp. auto.
  - intros t k ts log ns [Hs Hl H1 Ht] E. pose proof (kept_enter _ _ (sane_kept good) _ _ _ _ _ Hs E) as Hs'.
    apply enters_kitTurn in E as [(-> & -> & En)|[En [E1 E2]%number_turnless]]; constructor; rewrite ?number_app, ?number_cons; cbn [inTurn].
    all: rewrite ?E1, ?E2, ?En, ?number_cons, ?number_nil; cbn [isTurn isTurned]; try done; try lia; intros ?; right; auto.
  - intros g t k ts log k' next ns [Hs Hl H1 Ht] Hg E. pose proof (kept_perform _ _ (sane_kept good) _ _ _ _ _ _ _ _ Hs Hg E) as Hs'.
    change (performKit opts g t k = Some (k', next, ns)) in E. rewrite number_cons in *. destruct (inTurn t) eqn:Hi.
    + assert (number inTurn ts = 0%nat) as H0 by lia. destruct t; try done; cbn [performKit] in E.
      * pose proof (turn_turning (gv_now g) k) as Hf. destruct (turn (gv_now g) k) as [k1 [f|]]; simplify_eq;
          (constructor; [done|rewrite ?number_app, ?number_cons, ?number_nil, ?H0 in *; cbn [inTurn isTurn isTurned] in *; lia..|]).
        -- intros _. right. by left.
        -- rewrite Hf. intros [|Hin%number_turned]%Ht%elem_of_cons; [done|lia].
      * simplify_eq. by constructor; [done|rewrite ?number_app, ?number_cons, ?number_nil, ?H0 in *; cbn [inTurn isTurn isTurned] in *; lia..|].
    + apply Forall_cons_1 in Hs as [Ht' _]. pose proof (perform_like _ _ _ _ _ _ E) as Hk. pose proof (number_like _ _ Hk Hi) as Hn.
      destruct (number_turnless _ (perform_unturned _ _ _ _ _ _ E Ht' Hi)) as [E1 E2].
      constructor; [done|rewrite !number_app, E1, E2, Hn; lia|rewrite !number_app, Hn; lia|]. rewrite (perform_turning _ _ _ _ _ _ E Hi).
      intros [<-|Hin]%Ht%elem_of_cons; [done|]. apply elem_of_app. by right.
Qed.

(** ** Running a thread *)

Section Reached.
Variables (now : Z) (dispatcher : bool).
Hypothesis few : ko_retries opts ≤ 64.

Definition reachable (s : Work (Kit F) Task Notice) : Prop := reaches (λ _ : Given F, True) (newKit opts now dispatcher) s.

Lemma reachable_next x s s' : reachable s → step x s = Some s' → reachable s'.
Proof.
  intros (xs & Hx & E) Es. exists (xs ++ [x]). split; [apply Forall_app; split; [done|]; repeat constructor; by destruct x|].
  rewrite run_app, E. cbn. by rewrite Es.
Qed.

(** What lets a thread go on: it does not close the runtime, or no turn is in progress and it begins none. *)
Definition able k (ts : list Task) : Prop :=
  Forall (λ t, closing t = false) ts ∨ turning (timer k) = false ∧ Forall (λ t, inTurn t = false) ts.

Definition apart (ts : list Task) : Prop := Forall (λ t, closing t = false) ts ∨ Forall (λ t, inTurn t = false) ts.

Lemma like_closing t next : Forall (like t) next → closing t = false → Forall (λ t, closing t = false) next.
Proof.
  intros Hl Ht. eapply List.Forall_impl; [|exact Hl]. unfold like. intros t'. rewrite Ht. by destruct (closing t'), (inTurn t'), (inTurn t).
Qed.
Lemma like_inTurn t next : Forall (like t) next → inTurn t = false → Forall (λ t, inTurn t = false) next.
Proof. intros Hl Ht. eapply List.Forall_impl; [|exact Hl]. unfold like. intros t'. rewrite Ht. by destruct (inTurn t'). Qed.

Lemma step_apart x (s s' : Work (Kit F) Task Notice) : step x s = Some s' → Forall apart (wk_threads s) → Forall apart (wk_threads s').
Proof.
  intros E H. destruct x as [t|i g]; cbn [step] in E.
  - apply bind_Some in E as (ns & _ & [= <-]). apply Forall_app. split; [done|]. constructor; [|done].
    destruct (closing t) eqn:Ec; [right|left]; (constructor; [|done]); [by destruct t|done].
  - destruct (wk_threads s !! i) as [[|t rest]|] eqn:Hi; try done. apply bind_Some in E as ([[k' next] ns] & E & [= <-]).
    change (performKit opts g t (wk_state s) = Some (k', next, ns)) in E. apply Forall_insert; [done|].
    apply perform_like in E. pose proof (Forall_lookup_1 _ _ _ _ H Hi) as [[Ht Hr]%Forall_cons_1|[Ht Hr]%Forall_cons_1].
    + left. apply Forall_app. split; [by eapply like_closing|done].
    + right. apply Forall_app. split; [by eapply like_inTurn|done].
Qed.
Lemma reachable_apart s : reachable s → Forall apart (wk_threads s).
Proof.
  intros (xs & _ & E). revert E. assert (∀ s0 : Work (Kit F) Task Notice, Forall apart (wk_threads s0) → run xs s0 = Some s → Forall apart (wk_threads s)) as Hx.
  { induction xs as [|x xs IH]; intros s0 H0; cbn [run]; [by intros [= <-]|].
    intros (s1 & E & Hr)%bind_Some. eapply IH; [|exact Hr]. by eapply step_apart. }
  apply Hx. apply Forall_nil_2.
Qed.

Lemma able_next g t rest k k' next ns :
  performKit opts g t k = Some (k', next, ns) → able k (t :: rest) → able k' (next ++ rest).
Proof.
  intros E Ha. pose proof (perform_like _ _ _ _ _ _ E) as Hl.
  destruct Ha as [[Ht Hr]%Forall_cons_1|[Hk [Ht Hr]%Forall_cons_1]].
  - left. apply Forall_app. split; [by eapply like_closing|done].
  - right. split; [by rewrite (perform_turning _ _ _ _ _ _ E Ht)|]. apply Forall_app. split; [by eapply like_inTurn|done].
Qed.

(** The first task of a thread is performed. *)
Lemma thread_step s i t rest g :
  reachable s → wk_threads s !! i = Some (t :: rest) → able (wk_state s) (t :: rest) →
  ∃ next s', step (SPerform i g) s = Some s' ∧ wk_threads s' = <[i := next ++ rest]> (wk_threads s) ∧ Forall (below (rank t)) next ∧
    able (wk_state s') (next ++ rest).
Proof.
  intros Hr Hi Ha. assert (t ∈ left_to_do s) as Hin.
  { destruct (concat_replaced (wk_threads s) i (t :: rest) [] Hi) as (others & Hp & _). unfold left_to_do. rewrite Hp. set_solver. }
  pose proof (tasks_invariant _ _ _ s (sane_kept (λ _, True)) (Forall_nil_2 _) Hr) as Hs. unfold saneView in Hs. rewrite list.Forall_forall in Hs.
  pose proof (tasks_invariant _ _ _ s (resends_kept opts (λ _, True)) (new_resends opts now dispatcher) Hr) as Hre.
  destruct (perform_some g t (wk_state s) few (Hs _ Hin)) as [[[k' next] ns] E].
  { intros a r ->. apply (re_answered _ _ _ _ Hre a r). by left. }
  { intros ->. by destruct Ha as [[? _]%Forall_cons_1|[? _]]. }
  exists next, (mkWork k' (<[i := next ++ rest]> (wk_threads s)) (wk_log s ++ ns)). split_and!.
  - unfold step. rewrite Hi. cbn [perform kitWorker]. by rewrite E.
  - done.
  - by eapply perform_below; [|apply Hs].
  - by eapply able_next.
Qed.

(** What a thread has to do before [rest], it does. *)
Lemma thread_runs g n : ∀ ts s i rest,
  Forall (λ t, rank t < n)%nat ts → reachable s → wk_threads s !! i = Some (ts ++ rest) → able (wk_state s) (ts ++ rest) →
  ∃ m s', run (replicate m (SPerform i g)) s = Some s' ∧ reachable s' ∧ wk_threads s' = <[i := rest]> (wk_threads s) ∧ able (wk_state s') rest.
Proof.
  induction n as [|n IH]; intros ts; induction ts as [|t ts IHts]; intros s i rest Hts Hr Hi Ha.
  - exists 0%nat, s. split_and!; [done|done| |done]. symmetry. by apply list_insert_id.
  - apply Forall_cons_1 in Hts as [Ht _]. lia.
  - exists 0%nat, s. split_and!; [done|done| |done]. symmetry. by apply list_insert_id.
  - apply Forall_cons_1 in Hts as [Ht Hts]. destruct (thread_step s i t (ts ++ rest) g Hr Hi Ha) as (next & s1 & E1 & Hw1 & Hb & Ha1).
    pose proof (reachable_next _ _ _ Hr E1) as Hr1. pose proof (lookup_lt_Some _ _ _ Hi) as Hlt.
    destruct (IH next s1 i (ts ++ rest)) as (m2 & s2 & E2 & Hr2 & Hw2 & Ha2).
    { eapply List.Forall_impl; [|exact Hb]. intros t' [? _]. lia. }
    { done. }
    { rewrite Hw1. by apply list_lookup_insert_eq. }
    { done. }
    destruct (IHts s2 i rest Hts Hr2) as (m3 & s3 & E3 & Hr3 & Hw3 & Ha3).
    { rewrite Hw2, Hw1, list_insert_insert_eq. by apply list_lookup_insert_eq. }
    { done. }
    exists (S (m2 + m3)), s3. split; [|split; [done|split; [|done]]].
    + cbn [replicate run]. rewrite E1. cbn. by rewrite replicate_add, run_app, E2.
    + by rewrite Hw3, Hw2, Hw1, !list_insert_insert_eq.
Qed.

(** A whole thread. *)
Lemma thread_ends g s i ts :
  reachable s → wk_threads s !! i = Some ts → able (wk_state s) ts →
  ∃ m s', run (replicate m (SPerform i g)) s = Some s' ∧ reachable s' ∧ wk_threads s' = <[i := []]> (wk_threads s).
Proof.
  intros Hr Hi Ha. destruct (thread_runs g 14 ts s i []) as (m & s' & E & Hr' & Hw & _); rewrite ?app_nil_r; try done; [|eauto].
  apply list.Forall_forall. intros t _. destruct t; cbn; try lia; destruct j; cbn; lia.
Qed.

Lemma reachable_turns s : reachable s → turns (wk_state s) (left_to_do s) (wk_log s).
Proof.
  intros Hr. apply (tasks_invariant _ _ (newKit opts now dispatcher) s (turns_kept (λ _, True))); [|exact Hr].
  constructor; rewrite ?number_nil; [apply Forall_nil_2|done|lia|done].
Qed.

(** The turn in progress is over when its thread is through. *)
Lemma turn_over s s' j tj :
  reachable s → wk_threads s !! j = Some tj → TTurned ∈ tj → reachable s' → wk_threads s' = <[j := []]> (wk_threads s) →
  turning (timer (wk_state s')) = false.
Proof.
  intros Hr Hj Hin Hr' Hw. pose proof (tu_one _ _ _ (reachable_turns _ Hr)) as H1. pose proof (tu_turning _ _ _ (reachable_turns _ Hr')) as Ht.
  destruct (turning (timer (wk_state s'))); [|done]. specialize (Ht eq_refl). apply number_turned in Ht, Hin. unfold left_to_do in *.
  destruct (concat_replaced _ _ _ [] Hj) as (others & E1 & E2). rewrite Hw, E2 in Ht. rewrite E1, number_app in H1. cbn in Ht. lia.
Qed.
End Reached.

(** C30. a runtime that resends at most 64 times has no thread that runs on, and none that is stuck
    but for its mutexes: from every reachable state, whatever the clock and the draws are, a thread
    reaches the end of what it does by moves of its own, while the other threads stay where they
    are, if it does not close the runtime, or does while the timer thread is in no turn; and when
    it is in one, so that [close] waits in [stopTimer]'s join, the thread of that turn does not
    close the runtime itself, and reaches the end by moves of its own, when the turn is over.
    (Callbacks are taken to return, and each task holds its mutex alone and lets it go: the
    callback that [subscribe] calls while it holds [smu_], when it refuses a topic too many, must
    not call the runtime. A [close] that a callback on the timer thread calls does not join.) *)
Theorem kit_threads_end now dispatcher s i ts g :
  ko_retries opts ≤ 64 → reaches (λ _ : Given F, True) (newKit opts now dispatcher) s → wk_threads s !! i = Some ts →
  (Forall (λ t, closing t = false) ts ∨ turning (timer (wk_state s)) = false →
   ∃ m s', run (replicate m (SPerform i g)) s = Some s' ∧ wk_threads s' = <[i := []]> (wk_threads s)) ∧
  (turning (timer (wk_state s)) = true → ∃ j tj, wk_threads s !! j = Some tj ∧ TTurned ∈ tj ∧ Forall (λ t, closing t = false) tj ∧
   ∃ m s', run (replicate m (SPerform j g)) s = Some s' ∧ wk_threads s' = <[j := []]> (wk_threads s) ∧ turning (timer (wk_state s')) = false).
Proof.
  intros Hf Hr Hi. pose proof (reachable_apart now dispatcher s Hr) as Hx. split.
  - intros Hc. destruct (thread_ends now dispatcher Hf g s i ts Hr Hi) as (m & s' & E & _ & Hw); [|by exists m, s'].
    destruct Hc as [Hc|Hc]; [by left|]. pose proof (Forall_lookup_1 _ _ _ _ Hx Hi) as [?|?]; [by left|by right].
  - intros Ht. pose proof (tu_turning _ _ _ (reachable_turns now dispatcher s Hr) Ht) as Hin.
    apply list_elem_of_In, in_concat in Hin as (tj & Hj%list_elem_of_In & Hin%list_elem_of_In). apply list_elem_of_lookup in Hj as [j Hj].
    assert (Forall (λ t, closing t = false) tj) as Hc.
    { pose proof (Forall_lookup_1 _ _ _ _ Hx Hj) as [?|Hn]; [done|]. rewrite list.Forall_forall in Hn. by apply Hn in Hin. }
    destruct (thread_ends now dispatcher Hf g s j tj Hr Hj) as (m & s' & E & Hr' & Hw); [by left|].
    exists j, tj. split_and!; [done..|]. exists m, s'. split_and!; [done..|]. by eapply (turn_over now dispatcher s s').
Qed.
End Ends.
