(* ===== verification/KitRuntimeRuns.v ===== *)
(** * Runs of the kit's runtime

    The witnesses of its theorems, with exact arithmetic for [double], and runs that show what the
    code does where its comments say otherwise. *)

From Stdlib Require Import QArith.
From S2P Require Import Prelude Bytes Core Json Endpoint ExecWire KitProtocol Tasks KitRuntime KitCalls KitCallbacks KitResends KitTopics KitBudget KitEnds.

Open Scope Z_scope.

#[local] Arguments chars : simpl never.

Module RuntimeDemo.
Definition opts : KitRuntimeOptions := mkKitOptions false true 100 10000 2.
(** A connection is given. *)
Definition given_conn : KitRuntimeOptions := mkKitOptions true false 100 10000 2.

Definition at_ms (ms : Z) : Given Q := mkGiven (ms * perMs) (1 # 2) (1, 2) true (7, 8) 9.
(** [n] tasks of thread [i]. *)
Definition go (i n : nat) (ms : Z) : list (Step Task (Given Q)) := repeat (SPerform i (at_ms ms)) n.

Definition call (method : string) (args : JVal) (action : bool) (q : Z) : Task :=
  TCall (chars "Hub") (chars "k") (chars method) args (mkCallOptions action [] 0) (Some q).
Definition limited : ExecReply := mkExecReply Busy (chars "rate limited: retry in 500 ms").
Definition topic : Topic := mkTopic (chars "Hub") (chars "k") (chars "t").

(** A call is sent, the gateway says it is too much, and after the wait it is sent again and answered. *)
Definition sent : list (Step Task (Given Q)) := SEnter (call "m" VNull false 5) :: go 0 9 1.
Definition held : list (Step Task (Given Q)) := sent ++ SEnter (TAnswered 0 limited) :: go 1 7 2.
Definition sentAgain : list (Step Task (Given Q)) := held ++ SEnter TTurn :: go 2 11 502.
Definition answered : list (Step Task (Given Q)) := sentAgain ++ SEnter (TAnswered 0 (mkExecReply ExecOk [])) :: go 3 3 610.

(** Two handles of a topic. *)
Definition subscribed : list (Step Task (Given Q)) :=
  SEnter (TSubscribe topic (Some 5)) :: go 0 10 1 ++ SEnter (TSubscribe topic (Some 6)) :: go 1 8 1.

(** A call is under way, another one waits in its thread. *)
Definition halfway : list (Step Task (Given Q)) := sent ++ SEnter (call "n" VNull true 6) :: go 1 3 2.

(** The timer's time has come and its thread is to send the call again, when the runtime is closed:
    [close] waits for it. *)
Definition joining : list (Step Task (Given Q)) := held ++ SEnter TTurn :: go 2 1 502 ++ SEnter TClose :: go 3 2 503.

Section System.
Variable o : KitRuntimeOptions.
#[local] Hint Extern 0 (Worker (Kit Q) _ _ _) => exact (kitWorker o) : typeclass_instances.
Definition start : Work (Kit Q) Task Notice := fresh (newKit o 0 false).
Definition after (xs : list (Step Task (Given Q))) : Work (Kit Q) Task Notice := default start (run xs start).
Lemma kit_reached xs : run xs start = Some (after xs) → reaches (λ _ : Given Q, True) (newKit o 0 false) (after xs).
Proof. intros E. exists xs. split; [|exact E]. apply Forall_true. by intros []. Qed.
End System.
End RuntimeDemo.

Section Witnesses.
Import RuntimeDemo.
#[local] Hint Extern 0 (Worker (Kit Q) _ _ _) => exact (kitWorker opts) : typeclass_instances.

(** The log of a run. *)
Ltac its_log xs :=
  let l := eval vm_compute in (wk_log (after opts xs)) in
  replace (wk_log (after opts xs)) with l by (by vm_compute).

Lemma demo_rests : atRest (after opts answered).
Proof.
  constructor; [by vm_compute|left; by vm_compute|by vm_compute|its_log answered; intros ?; set_solver|..].
  - intros a. its_log answered. by destruct a.
  - intros w. its_log answered. done.
Qed.

Lemma kit_answers_once_witness :
  let log := wk_log (after opts answered) in
  number (isAsk 5) log = 1%nat ∧ (number (isCallback 5) log ≤ number (isAsk 5) log)%nat ∧ number (isCallback 5) log = number (isAsk 5) log.
Proof.
  cbv zeta. split; [by vm_compute|].
  destruct (kit_answers_once opts 0 false (after opts answered) 5 (kit_reached opts answered ltac:(by vm_compute))) as [H1 H2].
  split; [exact H1|]. apply H2. exact demo_rests.
Defined.

Lemma kit_resends_safe_witness :
  let s := after opts answered in
  ∃ m, attempts_ (wk_state s) !! 0%nat = Some m ∧ am_hasActionId m = false ∧ number (isCallOf 0) (wk_log s) = 2%nat ∧
    (2 ≤ 1 + number (asksAgain 0 false) (wk_log s))%nat ∧ 2 ≤ 1 + retries_ opts.
Proof.
  cbv zeta. set (s := after opts answered). assert (∃ m, attempts_ (wk_state s) !! 0%nat = Some m ∧ am_hasActionId m = false) as (m & Hm & Ha).
  { subst s. eexists. split; [by vm_compute|done]. }
  assert (number (isCallOf 0) (wk_log s) = 2%nat) as E by by vm_compute.
  destruct (kit_resends_safe opts 0 false s 0 m (kit_reached opts answered ltac:(by vm_compute)) Hm) as (H1 & H2 & _).
  exists m. rewrite E, ?Ha in *. by split_and!.
Defined.

Lemma kit_topics_counted_witness :
  let sub := subs (wk_state (after opts subscribed)) in
  number (holdsTopic (topicKeyOf topic)) (handles_ sub) = 2%nat ∧ look (topicKeyOf topic) (counts_ sub) = Some 2.
Proof.
  cbv zeta. assert (number (holdsTopic (topicKeyOf topic)) (handles_ (subs (wk_state (after opts subscribed)))) = 2%nat) as E by by vm_compute.
  split; [exact E|].
  destruct (kit_topics_counted opts 0 false (after opts subscribed) topic (kit_reached opts subscribed ltac:(by vm_compute))) as [H _].
  cbv zeta in H. rewrite H, E. done.
Defined.

Lemma kit_threads_end_witness :
  let s := after opts joining in let s' := after opts (joining ++ go 2 8 504) in
  step (SPerform 3 (at_ms 504)) s = None ∧
  (∃ j tj m s1, wk_threads s !! j = Some tj ∧ TTurned ∈ tj ∧ run (replicate m (SPerform j (at_ms 504))) s = Some s1 ∧ turning (timer (wk_state s1)) = false) ∧
  wk_threads s' !! 3%nat = wk_threads s !! 3%nat ∧
  ∃ m s2, run (replicate m (SPerform 3 (at_ms 504))) s' = Some s2 ∧ wk_threads s2 !! 3%nat = Some [].
Proof.
  cbv zeta. split; [by vm_compute|]. split; [|split; [by vm_compute|]].
  - destruct (kit_threads_end opts 0 false (after opts joining) 3 [TJoin; TLeaveConn] (at_ms 504)) as [_ H].
    + done.
    + apply kit_reached. by vm_compute.
    + by vm_compute.
    + destruct H as (j & tj & Hj & Hin & _ & m & s1 & E & _ & Ht); [by vm_compute|]. exists j, tj, m, s1. by split_and!.
  - destruct (kit_threads_end opts 0 false (after opts (joining ++ go 2 8 504)) 3 [TJoin; TLeaveConn] (at_ms 504)) as [H _].
    + done.
    + apply kit_reached. by vm_compute.
    + by vm_compute.
    + destruct H as (m & s2 & E & Hw); [right; by vm_compute|]. exists m, s2. split; [exact E|]. rewrite Hw. by vm_compute.
Defined.

(** A hundred tokens at once, and one each time another has come in. *)
Definition burst : list BudgetOp := repeat (OTake 0) 100.
Definition stream : list BudgetOp := (λ i, OTake (Z.of_nat i * 100 * perMs)) <$> seq 1 100.

Lemma kit_paces_witness :
  let b := (spend opts burst (newBudget opts 0)).2 in
  (spend opts stream b).1 = 100%nat ∧ 100 * (10000 * perMs) ≤ 100 * (10000 * perMs + 10000 * perMs) ∧
  (takeOrWait opts 0 b).1 = 101 ∧ (takeOrWait opts (101 * perMs) (takeOrWait opts 0 b).2).1 = 0 ∧
  (takeOrWait opts (499 * perMs) (hold 0 500 b)).1 ≠ 0.
Proof.
  assert (rising 0 burst 0) as H1 by (vm_compute; repeat split; intros [=]).
  assert (rising 0 stream (10000 * perMs)) as H2 by (vm_compute; repeat split; intros [=]).
  assert (rising 0 (burst ++ [OHold 0 500]) (499 * perMs)) as H3 by (vm_compute; repeat split; intros [=]).
  assert (rising (499 * perMs) [] (499 * perMs)) as H4 by (vm_compute; intros [=]).
  destruct (kit_paces opts burst stream 0 0 (10000 * perMs) H1 H2) as (Hn & _ & Hw).
  destruct (kit_paces opts (burst ++ [OHold 0 500]) [] 0 (499 * perMs) (499 * perMs) H3 H4) as (_ & Hh & _).
  cbv zeta. split; [by vm_compute|]. split; [exact Hn|]. split; [by vm_compute|]. split; [|by apply Hh].
  specialize (Hw ltac:(by vm_compute)). assert ((takeOrWait opts 0 (spend opts burst (newBudget opts 0)).2).1 = 101) as E by by vm_compute.
  destruct (takeOrWait opts 0 (spend opts burst (newBudget opts 0)).2) as [wait b]. cbn [fst snd] in *. subst wait. by apply Hw.
Defined.
End Witnesses.

(** ** What the code does where its comments say otherwise *)

Module RuntimeFaults.
Import RuntimeDemo.

(** Two hundred tokens in ten seconds, from a budget of a hundred in ten seconds; the gateway takes
    a hundred and twenty. *)
Example budget_doubles :
  rising 0 (burst ++ stream) (10000 * perMs) ∧ (spend opts (burst ++ stream) (newBudget opts 0)).1 = 200%nat.
Proof. split; [vm_compute; repeat split; intros [=]|by vm_compute]. Qed.

(** Arguments that cannot carry an action id: the call is sent again after a deadline all the same,
    and nothing tells the hub that it is the same one. *)
Definition unlabelled : list (Step Task (Given Q)) :=
  SEnter (call "give" (VStr (chars "sword")) true 5) :: go 0 9 1 ++
  SEnter (TAnswered 0 (mkExecReply DeadlineExceeded [])) :: go 1 3 2 ++ SEnter TTurn :: go 2 12 102.
Example unlabelled_call_is_resent :
  List.filter (isCallOf 0) (wk_log (after opts unlabelled)) =
  repeat (NCall 0 (mkHubCall (chars "Hub") (chars "k") (chars "give") (VStr (chars "sword")) 0)) 2.
Proof. by vm_compute. Qed.

(** The last handle of a topic is given back while the kit closes: [unsubscribe] has left [handles_]
    and not reached [pendingUnsubs_] when [close] sweeps both, and the given connection, which stays
    open, keeps the subscription. *)
Definition leaking : list (Step Task (Given Q)) :=
  SEnter (TSubscribe topic (Some 5)) :: go 0 10 1 ++
  SEnter (TUnsubscribe 1) :: go 1 3 2 ++ SEnter TClose :: go 2 7 3 ++ go 1 3 4.
Example unsubscribe_is_lost :
  let s := after given_conn leaking in
  left_to_do s = [] ∧ closed_ (wk_state s) = true ∧ handles_ (subs (wk_state s)) = [] ∧
  number (isSubOf 0) (wk_log s) = 1%nat ∧ number (λ n, match n with NUnsubscribe _ => true | _ => false end) (wk_log s) = 0%nat.
Proof. cbv zeta. split_and!; by vm_compute. Qed.
End RuntimeFaults.
