(* ===== verification/Mirror.v ===== *)
(** * Hub topics mirrored on the client

    [include/crowdy/kit/mirror.hpp] and [src/kit/mirror.cpp]: [TopicMirror] with its two shapes
    [HubState] and [CollectionMirror], and [WritableKitStore]. A method runs as a list of tasks: a
    critical section of [mu], a call to the runtime, or a call of a listener or callback, each one
    atomic; between any two of them every other thread may run. What the runtime answers (handles,
    replies, pushes, reconnects) comes from outside: [src/kit/runtime.cpp] is not part of this file.
    A [KitCallback] is a caller's, by a number, or the closure of [start] that goes on with
    [finishStart]; the callers of [start] are told apart from those of [resync] and [refresh]. Ids of 64 bits are unbounded; a listener map is the list of its ids, which only
    grow. *)

From stdpp Require Import sorting.
From S2P Require Import Prelude Bytes Core Json ExecWire KitProtocol.

Open Scope Z_scope.

Inductive Shape := Snapshots | Collection.
Inductive KitCallback := Caller (id : Z) | Starting (id : Z) | FinishStart.

#[global] Instance KitCallback_eq_dec : EqDecision KitCallback.
Proof. solve_decision. Defined.

(** A listener is called, or a handle is given back to the runtime. *)
Inductive Told :=
| ToldChange (listener : Z)
| ToldEvent (listener : Z) (body : View) (header : KitHeader)
| ToldChanged (listener : Z) (changed : KitChanged) (header : KitHeader)
| Unsubscribe (handle : Z)
| RemoveListener (id : Z).

(** What happens outside, in order. *)
Inductive Notice :=
| NTold (x : Told)
| NReply (done : KitCallback) (reply : KitReply)
| NCall (** the runtime is called with method [snapshot]; the [read] of a [PrivateState] is called *)
| NSubscribe (handle : Z)
| NListen (id : Z)
| NAsked (done : KitCallback)
| NGot (reply : KitReply) (** the reply to a call *)
| NGotSubscribed (reply : KitReply).

(** ** Starting and stopping *)

(** The members [starting], [started], [startWaiters], [subHandle] and [reconnectId], which both
    classes have. *)
Record Starter := mkStarter {
  starting : bool; started : bool; startWaiters : list KitCallback; subHandle : Z; reconnectId : Z }.

Definition newStarter : Starter := mkStarter false false [] 0 0.

(** The first critical section of [start]: whether the mirror had started, and whether this call
    is the one that goes on. *)
Definition beginStart (done : option KitCallback) (st : Starter) : bool * bool * Starter :=
  if started st then (true, false, st) else
  let waiters := startWaiters st ++ option_list done in
  if starting st then (false, false, mkStarter true false waiters (subHandle st) (reconnectId st))
  else (false, true, mkStarter true false waiters (subHandle st) (reconnectId st)).

(** The last one. *)
Definition keepHandles (reconnect handle : Z) (st : Starter) : Starter :=
  mkStarter (starting st) (started st) (startWaiters st) handle reconnect.

(** [finishStart]'s: the handles to give back, the callbacks to call. *)
Definition endStart (good : bool) (st : Starter) : Z * Z * list KitCallback * Starter :=
  if good then (0, 0, startWaiters st, mkStarter false true [] (subHandle st) (reconnectId st))
  else (subHandle st, reconnectId st, startWaiters st, mkStarter false false [] 0 0).

(** [stop]'s. *)
Definition endStop (st : Starter) : Z * Z * Starter :=
  (subHandle st, reconnectId st, mkStarter false false (startWaiters st) 0 0).

(** ** What a mirror holds *)

Record Held := mkHeld {
  state : View; members : gmap Z KitContainer; hasState : bool; epoch : Z; seq_ : Z }.

Definition newHeld : Held := mkHeld None ∅ false (-1) 0.

Record Effects := mkEffects {
  ef_changed : bool; ef_resync : bool;
  ef_events : list (View * KitHeader); ef_changeds : list (KitChanged * KitHeader) }.

Definition noEffects : Effects := mkEffects false false [] [].
Definition withChanged (e : Effects) : Effects := mkEffects true (ef_resync e) (ef_events e) (ef_changeds e).
Definition withResync (e : Effects) : Effects := mkEffects (ef_changed e) true (ef_events e) (ef_changeds e).
Definition withEvent (x : View * KitHeader) (e : Effects) : Effects :=
  mkEffects (ef_changed e) (ef_resync e) (ef_events e ++ [x]) (ef_changeds e).
Definition withChangedMessage (x : KitChanged * KitHeader) (e : Effects) : Effects :=
  mkEffects (ef_changed e) (ef_resync e) (ef_events e) (ef_changeds e ++ [x]).

Section Text.
Context `{JsonText}.

(** [props], or an empty object. *)
Definition propsOf (props : View) : View := if isObject props then props else parseJson (chars "{}").

(** One container of a snapshot. *)
Definition takeMember (c : View) (ms : gmap Z KitContainer) : option (gmap Z KitContainer) :=
  if asBool (field c (chars "removed")) false || negb (isNumber (field c (chars "id"))) then Some ms else
  id ← asInt64 (field c (chars "id")) 0;
  Some (<[id := mkContainer id (asString (field c (chars "type_name")) []) (propsOf (field c (chars "props")))]> ms).

Fixpoint takeMembers (cs : list View) (ms : gmap Z KitContainer) : option (gmap Z KitContainer) :=
  match cs with
  | [] => Some ms
  | c :: cs => ms ← takeMember c ms; takeMembers cs ms
  end.

Definition takeSnapshot (shape : Shape) (body : View) (h : Held) : option Held :=
  match shape with
  | Snapshots => Some (mkHeld body (members h) true (epoch h) (seq_ h))
  | Collection =>
      ms ← takeMembers (visited (field body (chars "containers"))) ∅;
      Some (mkHeld (state h) ms true (epoch h) (seq_ h))
  end.

Definition withMembers (ms : gmap Z KitContainer) (h : Held) : Held :=
  mkHeld (state h) ms (hasState h) (epoch h) (seq_ h).
Definition at_position (e s : Z) (h : Held) : Held := mkHeld (state h) (members h) (hasState h) e s.

Definition takeDelta (shape : Shape) (body : View) (h : Held) : option (bool * Held) :=
  if negb (match shape with Collection => true | Snapshots => false end) ||
     negb (isNumber (field body (chars "id"))) then Some (false, h) else
  id ← asInt64 (field body (chars "id")) 0;
  if asBool (field body (chars "removed")) false then Some (true, withMembers (delete id (members h)) h) else
  let given := asString (field body (chars "type_name")) [] in
  let typeName :=
    if bool_decide (given = []) then
      match members h !! id with Some held => kc_typeName held | None => given end
    else given in
  Some (true, withMembers (<[id := mkContainer id typeName (propsOf (field body (chars "props")))]> (members h)) h).

(** [apply]. *)
Definition applyMessage (shape : Shape) (m : KitMessage) (h : Held) (e : Effects) : option (Held * Effects) :=
  let hd := m_header m in
  if negb (h_epoch hd =? epoch h) then
    match h_kind hd with
    | Snapshot => h ← takeSnapshot shape (m_body m) (at_position (h_epoch hd) (h_seq hd) h); Some (h, withChanged e)
    | _ => Some (h, withResync e)
    end
  else if h_seq hd <=? seq_ h then Some (h, e) else
  let gap := negb (h_seq hd =? seq_ h + 1) in
  let h := at_position (epoch h) (h_seq hd) h in
  let more e := if gap && (match shape with Collection => true | Snapshots => false end) then withResync e else e in
  match h_kind hd with
  | Snapshot => h ← takeSnapshot shape (m_body m) h; Some (h, withChanged e)
  | Delta =>
      if gap || negb (hasState h) then Some (h, withResync e) else
      '(taken, h) ← takeDelta shape (m_body m) h;
      Some (h, if (taken : bool) then withChanged e else withResync e)
  | Changed =>
      Some (h, more (match kitChanged (m_body m) with Some c => withChangedMessage (c, hd) e | None => e end))
  | Event => Some (h, more (withEvent (m_body m, hd) e))
  end.

Fixpoint applyAll (shape : Shape) (ms : list KitMessage) (h : Held) (e : Effects) : option (Held * Effects) :=
  match ms with
  | [] => Some (h, e)
  | m :: ms => '(h, e) ← applyMessage shape m h e; applyAll shape ms h e
  end.
End Text.

(** [std::stable_sort] by [seq]. *)
Fixpoint insertBySeq (m : KitMessage) (l : list KitMessage) : list KitMessage :=
  match l with
  | [] => [m]
  | x :: l => if h_seq (m_header m) <=? h_seq (m_header x) then m :: x :: l else x :: insertBySeq m l
  end.
Definition sortBySeq (l : list KitMessage) : list KitMessage := foldr insertBySeq [] l.

(** ** TopicMirror *)

Record Mirror := mkMirror {
  mi_nodeType : bytes; mi_shape : Shape; mi_held : Held;
  syncing : bool; buffering : bool; buffer : list KitMessage; syncWaiters : list KitCallback;
  mi_starter : Starter;
  changeListeners : list Z; eventListeners : list Z; changedListeners : list Z; mi_nextId : Z }.

Definition newMirror (nodeType : bytes) (shape : Shape) : Mirror :=
  mkMirror nodeType shape newHeld false false [] [] newStarter [] [] [] 0.

Definition set_held (h : Held) (m : Mirror) : Mirror :=
  mkMirror (mi_nodeType m) (mi_shape m) h (syncing m) (buffering m) (buffer m) (syncWaiters m) (mi_starter m)
    (changeListeners m) (eventListeners m) (changedListeners m) (mi_nextId m).
Definition set_sync (syncing buffering : bool) (buffer : list KitMessage) (waiters : list KitCallback) (m : Mirror) : Mirror :=
  mkMirror (mi_nodeType m) (mi_shape m) (mi_held m) syncing buffering buffer waiters (mi_starter m)
    (changeListeners m) (eventListeners m) (changedListeners m) (mi_nextId m).
Definition set_starter (st : Starter) (m : Mirror) : Mirror :=
  mkMirror (mi_nodeType m) (mi_shape m) (mi_held m) (syncing m) (buffering m) (buffer m) (syncWaiters m) st
    (changeListeners m) (eventListeners m) (changedListeners m) (mi_nextId m).
Definition set_listeners (change event changed : list Z) (next : Z) (m : Mirror) : Mirror :=
  mkMirror (mi_nodeType m) (mi_shape m) (mi_held m) (syncing m) (buffering m) (buffer m) (syncWaiters m) (mi_starter m)
    change event changed next.

(** What a thread still has to do, in order. *)
Inductive Task :=
| TPush (value : View)
| TRun (e : Effects)
| TTell (x : Told)
| TResync (done : option KitCallback)
| TCall
| TSynced (reply : KitReply)
| TStart (done : option KitCallback)
| TListen
| TSubscribe (reconnect : Z)
| TKeep (reconnect handle : Z)
| TSubscribed (reply : KitReply)
| TAnswer (done : KitCallback) (reply : KitReply)
| TFinish (reply : KitReply)
| TStop
| TAddListener (kind : KitMessageKind)
| TRemoveListener (id : Z).

(** What a task does: the state after it, what its thread does next, what was called. *)
Record Done := mkDone { dn_mirror : Mirror; dn_next : list Task; dn_notices : list Notice }.

Definition giveBack (handle reconnect : Z) : list Task :=
  (if handle =? 0 then [] else [TTell (Unsubscribe handle)]) ++
  (if reconnect =? 0 then [] else [TTell (RemoveListener reconnect)]).

Section Methods.
Context `{JsonText}.

Definition onPush (value : View) (m : Mirror) : option Done :=
  split ← splitKitMessage value;
  match split with
  | None => Some (mkDone m [] [])
  | Some msg =>
      if buffering m
      then Some (mkDone (set_sync (syncing m) true (buffer m ++ [msg]) (syncWaiters m) m) [] [])
      else
        '(h, e) ← applyMessage (mi_shape m) msg (mi_held m) noEffects;
        Some (mkDone (set_held h m) [TRun e] [])
  end.

(** [run]: the listeners are copied, then called, one after the other. *)
Definition run (e : Effects) (m : Mirror) : Done :=
  let changes := if ef_changed e then changeListeners m else [] in
  let events := eventListeners m in
  let changeds := changedListeners m in
  mkDone m
    (((λ l, TTell (ToldChange l)) <$> changes) ++
     ('(body, header) ← ef_events e; (λ l, TTell (ToldEvent l body header)) <$> events) ++
     ('(changed, header) ← ef_changeds e; (λ l, TTell (ToldChanged l changed header)) <$> changeds) ++
     (if ef_resync e then [TResync None] else [])) [].

Definition resync (done : option KitCallback) (m : Mirror) : Done :=
  let waiters := syncWaiters m ++ option_list done in
  if syncing m then mkDone (set_sync true (buffering m) (buffer m) waiters m) [] []
  else mkDone (set_sync true true [] waiters m) [TCall] [].

Definition notAMessage : bytes := chars " answered snapshot with something other than a kit message".

(** What the reply carries, and the reply the callbacks get. *)
Definition readSnapshot (reply : KitReply) (m : Mirror) : option (option KitMessage * KitReply) :=
  if replyOk reply then
    value ← fromMsgpack writeJson (kr_payload reply);
    msg ← splitKitMessage value;
    Some (match msg with
          | Some msg => (Some msg, reply)
          | None => (None, refused (chars "bad_request") (mi_nodeType m ++ notAMessage))
          end)
  else Some (None, reply).

Definition synced (reply : KitReply) (m : Mirror) : option Done :=
  '(msg, reply) ← readSnapshot reply m;
  let answers := (λ w, TAnswer w reply) <$> syncWaiters m in
  match msg with
  | Some msg =>
      h ← takeSnapshot (mi_shape m) (m_body msg) (at_position (h_epoch (m_header msg)) (h_seq (m_header msg)) (mi_held m));
      '(h, e) ← applyAll (mi_shape m) (sortBySeq (buffer m)) h noEffects;
      Some (mkDone (set_sync false false [] [] (set_held h m)) (TRun (withChanged e) :: answers) [])
  | None => Some (mkDone (set_sync false false [] [] m) (TRun noEffects :: answers) [])
  end.

Definition okReply : KitReply := mkReply ExecOk (toMsgpack None) None.

Definition start (done : option KitCallback) (m : Mirror) : Done :=
  let '(had, go, st) := beginStart done (mi_starter m) in
  if (had : bool) then mkDone m ((λ w, TAnswer w okReply) <$> option_list done) []
  else mkDone (set_starter st m) (if (go : bool) then [TListen] else []) [].

(** The closure given to [subscribe]. *)
Definition subscribed (reply : KitReply) : list Task :=
  if replyOk reply then [TResync (Some FinishStart)] else [TFinish reply].

Definition finishStart (reply : KitReply) (m : Mirror) : Done :=
  let '(handle, reconnect, waiters, st) := endStart (replyOk reply) (mi_starter m) in
  mkDone (set_starter st m) (giveBack handle reconnect ++ ((λ w, TAnswer w reply) <$> waiters)) [].

Definition stop (m : Mirror) : Done :=
  let '(handle, reconnect, st) := endStop (mi_starter m) in
  mkDone (set_starter st m) (giveBack handle reconnect) [].

(** [subscribe], [onChanged] and [onEvent] of the class. *)
Definition addListener (kind : KitMessageKind) (m : Mirror) : Mirror :=
  let id := mi_nextId m + 1 in
  match kind with
  | Event => set_listeners (changeListeners m) (eventListeners m ++ [id]) (changedListeners m) id m
  | Changed => set_listeners (changeListeners m) (eventListeners m) (changedListeners m ++ [id]) id m
  | _ => set_listeners (changeListeners m ++ [id]) (eventListeners m) (changedListeners m) id m
  end.

Definition removeListener (id : Z) (m : Mirror) : Mirror :=
  let without := List.filter (λ l, negb (l =? id)) in
  set_listeners (without (changeListeners m)) (without (eventListeners m)) (without (changedListeners m)) (mi_nextId m) m.

(** A callback is called. *)
Definition answer (done : KitCallback) (reply : KitReply) (m : Mirror) : Done :=
  match done with
  | FinishStart => mkDone m [TFinish reply] []
  | _ => mkDone m [] [NReply done reply]
  end.

(** [given] is the handle the runtime returns, where it is asked for one. *)
Definition perform (given : Z) (t : Task) (m : Mirror) : option Done :=
  match t with
  | TPush value => onPush value m
  | TRun e => Some (run e m)
  | TTell x => Some (mkDone m [] [NTold x])
  | TResync done => Some (resync done m)
  | TCall => Some (mkDone m [] [NCall])
  | TSynced reply => synced reply m
  | TStart done => Some (start done m)
  | TListen => Some (mkDone m [TSubscribe given] [NListen given])
  | TSubscribe reconnect => Some (mkDone m [TKeep reconnect given] [NSubscribe given])
  | TKeep reconnect handle => Some (mkDone (set_starter (keepHandles reconnect handle (mi_starter m)) m) [] [])
  | TSubscribed reply => Some (mkDone m (subscribed reply) [])
  | TAnswer done reply => Some (answer done reply m)
  | TFinish reply => Some (finishStart reply m)
  | TStop => Some (stop m)
  | TAddListener kind => Some (mkDone (addListener kind m) [] [])
  | TRemoveListener id => Some (mkDone (removeListener id m) [] [])
  end.
End Methods.

(** [position], [get], [member], [size] and [list]. *)
Definition position (m : Mirror) : Z * Z := (epoch (mi_held m), seq_ (mi_held m)).
Definition get (m : Mirror) : View := state (mi_held m).
Definition memberOf (id : Z) (m : Mirror) : option KitContainer := members (mi_held m) !! id.
Definition sizeOfMirror (m : Mirror) : nat := size (members (mi_held m)).
Definition listOf (typeName : bytes) (m : Mirror) : list KitContainer :=
  List.filter (λ c, bool_decide (typeName = []) || bool_decide (kc_typeName c = typeName))
    (omap (λ id, members (mi_held m) !! id) (merge_sort Z.le (base.elements (dom (members (mi_held m)))))).

(** ** WritableKitStore *)

Section KitStore.
Context {T : Type}.

Record KitStore := mkKitStore { ks_value : T; ks_listeners : list Z; ks_next : Z }.

Definition newKitStore (initial : T) : KitStore := mkKitStore initial [] 0.
Definition kitStoreSubscribe (s : KitStore) : Z * KitStore :=
  (ks_next s + 1, mkKitStore (ks_value s) (ks_listeners s ++ [ks_next s + 1]) (ks_next s + 1)).
Definition kitStoreRemoveListener (id : Z) (s : KitStore) : KitStore :=
  mkKitStore (ks_value s) (List.filter (λ l, negb (l =? id)) (ks_listeners s)) (ks_next s).

(** [set]: the new value is stored and the listeners copied; then [get] reads the value all of
    them are called with. *)
Definition kitStoreSet (value : T) (s : KitStore) : list Z * KitStore :=
  (ks_listeners s, mkKitStore value (ks_listeners s) (ks_next s)).
Definition kitStoreCalls (copies : list Z) (s : KitStore) : list (Z * T) := (λ l, (l, ks_value s)) <$> copies.
End KitStore.
Arguments KitStore : clear implicits.
