(* ===== verification/PrivateState.v ===== *)
(** * State only its player may read

    [PrivateState] of [include/crowdy/kit/mirror.hpp] and [src/kit/mirror.cpp], as tasks like those of
    [Mirror.v]: the value is read with a call the application gives ([TRead]), one read at a time. *)

From S2P Require Import Prelude Bytes Core Json ExecWire KitProtocol Mirror.

Open Scope Z_scope.

Record PrivateCore := mkPrivate {
  whats : list bytes; pv_value : View; reading : bool; again : bool; pv_waiters : list KitCallback;
  pv_starter : Starter; pv_listeners : list Z; pv_nextId : Z }.

Definition newPrivate (whats : list bytes) : PrivateCore := mkPrivate whats None false false [] newStarter [] 0.

Definition set_reading (reading again : bool) (waiters : list KitCallback) (p : PrivateCore) : PrivateCore :=
  mkPrivate (whats p) (pv_value p) reading again waiters (pv_starter p) (pv_listeners p) (pv_nextId p).
Definition set_value (value : View) (p : PrivateCore) : PrivateCore :=
  mkPrivate (whats p) value (reading p) (again p) (pv_waiters p) (pv_starter p) (pv_listeners p) (pv_nextId p).
Definition set_pv_starter (st : Starter) (p : PrivateCore) : PrivateCore :=
  mkPrivate (whats p) (pv_value p) (reading p) (again p) (pv_waiters p) st (pv_listeners p) (pv_nextId p).
Definition set_pv_listeners (listeners : list Z) (next : Z) (p : PrivateCore) : PrivateCore :=
  mkPrivate (whats p) (pv_value p) (reading p) (again p) (pv_waiters p) (pv_starter p) listeners next.

Inductive Task :=
| TPush (value : View)
| TMe (who : list bytes)
| TTell (x : Told)
| TRefresh (done : option KitCallback)
| TReadOnce
| TRead
| TReadDone (reply : KitReply)
| TStart (done : option KitCallback)
| TListen
| TSubscribe (reconnect : Z)
| TKeep (reconnect handle : Z)
| TSubscribed (reply : KitReply)
| TAnswer (done : KitCallback) (reply : KitReply)
| TFinish (reply : KitReply)
| TStop
| TAddListener
| TRemoveListener (id : Z).

Record Done := mkDone { dn_private : PrivateCore; dn_next : list Task; dn_notices : list Notice }.

Definition giveBack (handle reconnect : Z) : list Task :=
  (if handle =? 0 then [] else [TTell (Unsubscribe handle)]) ++
  (if reconnect =? 0 then [] else [TTell (RemoveListener reconnect)]).

Section Methods.
Context `{JsonText}.

Definition refresh (done : option KitCallback) (p : PrivateCore) : Done :=
  let waiters := pv_waiters p ++ option_list done in
  if reading p then mkDone (set_reading true true waiters p) [] []
  else mkDone (set_reading true (again p) waiters p) [TReadOnce] [].

Definition readOnce (p : PrivateCore) : Done := mkDone (set_reading (reading p) false (pv_waiters p) p) [TRead] [].

Definition readDone (reply : KitReply) (p : PrivateCore) : option Done :=
  if again p then Some (mkDone p [TReadOnce] []) else
  let p' := set_reading false false [] p in
  let answers := (λ w, TAnswer w reply) <$> pv_waiters p in
  if replyOk reply then
    value ← fromMsgpack writeJson (kr_payload reply);
    Some (mkDone (set_value value p') (((λ l, TTell (ToldChange l)) <$> pv_listeners p) ++ answers) [])
  else Some (mkDone p' answers []).

(** A [changed] message about this value, before the player's id is asked for. *)
Definition onPush (value : View) (p : PrivateCore) : option Done :=
  split ← splitKitMessage value;
  Some (match split with
        | Some msg =>
            if bool_decide (h_kind (m_header msg) = Changed) then
              match kitChanged (m_body msg) with
              | Some c => if bool_decide (ch_what c ∈ whats p) then mkDone p [TMe (ch_who c)] [] else mkDone p [] []
              | None => mkDone p [] []
              end
            else mkDone p [] []
        | None => mkDone p [] []
        end).

Definition concerns (me : bytes) (who : list bytes) : bool := bool_decide (me = []) || bool_decide (me ∈ who).

Definition start (done : option KitCallback) (p : PrivateCore) : Done :=
  let '(had, go, st) := beginStart done (pv_starter p) in
  if (had : bool) then mkDone p ((λ w, TAnswer w (mkReply ExecOk (toMsgpack (pv_value p)) None)) <$> option_list done) []
  else mkDone (set_pv_starter st p) (if (go : bool) then [TListen] else []) [].

Definition subscribed (reply : KitReply) : list Task :=
  if replyOk reply then [TRefresh (Some FinishStart)] else [TFinish reply].

Definition finishStart (reply : KitReply) (p : PrivateCore) : Done :=
  let '(handle, reconnect, waiters, st) := endStart (replyOk reply) (pv_starter p) in
  mkDone (set_pv_starter st p) (giveBack handle reconnect ++ ((λ w, TAnswer w reply) <$> waiters)) [].

Definition stop (p : PrivateCore) : Done :=
  let '(handle, reconnect, st) := endStop (pv_starter p) in
  mkDone (set_pv_starter st p) (giveBack handle reconnect) [].

Definition addListener (p : PrivateCore) : PrivateCore :=
  set_pv_listeners (pv_listeners p ++ [pv_nextId p + 1]) (pv_nextId p + 1) p.
Definition removeListener (id : Z) (p : PrivateCore) : PrivateCore :=
  set_pv_listeners (List.filter (λ l, negb (l =? id)) (pv_listeners p)) (pv_nextId p) p.

Definition answer (done : KitCallback) (reply : KitReply) (p : PrivateCore) : Done :=
  match done with
  | FinishStart => mkDone p [TFinish reply] []
  | _ => mkDone p [] [NReply done reply]
  end.

(** [me] is the player's id, where the runtime is asked for it. *)
Definition perform (given : Z) (me : bytes) (t : Task) (p : PrivateCore) : option Done :=
  match t with
  | TPush value => onPush value p
  | TMe who => Some (mkDone p (if concerns me who then [TRefresh None] else []) [])
  | TTell x => Some (mkDone p [] [NTold x])
  | TRefresh done => Some (refresh done p)
  | TReadOnce => Some (readOnce p)
  | TRead => Some (mkDone p [] [NCall])
  | TReadDone reply => readDone reply p
  | TStart done => Some (start done p)
  | TListen => Some (mkDone p [TSubscribe given] [NListen given])
  | TSubscribe reconnect => Some (mkDone p [TKeep reconnect given] [NSubscribe given])
  | TKeep reconnect handle => Some (mkDone (set_pv_starter (keepHandles reconnect handle (pv_starter p)) p) [] [])
  | TSubscribed reply => Some (mkDone p (subscribed reply) [])
  | TAnswer done reply => Some (answer done reply p)
  | TFinish reply => Some (finishStart reply p)
  | TStop => Some (stop p)
  | TAddListener => Some (mkDone (addListener p) [] [])
  | TRemoveListener id => Some (mkDone (removeListener id p) [] [])
  end.
End Methods.
