(* ===== verification/KitThreads.v ===== *)
(** * Threads of tasks

    What [Mirror.v] leaves open: who runs the tasks. A system is a state shared by threads, each a
    list of tasks, with the calls and subscriptions the runtime has not answered yet and the log of
    what was called. A move enters a method on a new thread, answers a call or a subscription (each
    once, at any time), or performs the first task of some thread; so every interleaving is a
    sequence of moves. Sequences are executable; [threads_invariant] is the rule for invariants,
    which sees the tasks left up to their order. *)

From S2P Require Import Prelude Bytes Core Json KitProtocol Mirror PrivateState.

Local Open Scope nat_scope.

(** A class of the kit, by what a task of it does. [G] is what the runtime returns to a task. *)
Class Machine (St Tk G : Type) := {
  perform_ : G → Tk → St → option (St * list Tk * list Notice);
  entry_ : Tk → bool (** a task a method starts with *);
  onReply : KitReply → Tk;
  onSubscribed : KitReply → Tk;
  askedBy : Tk → option KitCallback }.

Inductive Move {Tk G : Type} :=
| MEnter (t : Tk) | MReply (reply : KitReply) | MSubscribed (reply : KitReply) | MPerform (thread : nat) (given : G).
Arguments Move : clear implicits.

Definition isCall (n : Notice) : bool := match n with NCall => true | _ => false end.
Definition isSubscribe (n : Notice) : bool := match n with NSubscribe _ => true | _ => false end.
Definition count {A} (p : A → bool) (l : list A) : nat := length (List.filter p l).

Section Threads.
Context {St Tk G : Type} `{!Machine St Tk G}.

Record System := mkSystem {
  sy_state : St; sy_threads : list (list Tk); sy_calls : nat; sy_subscriptions : nat; sy_log : list Notice }.

Definition spawn (t : Tk) (ns : list Notice) (s : System) : System :=
  mkSystem (sy_state s) (sy_threads s ++ [[t]]) (sy_calls s) (sy_subscriptions s) (sy_log s ++ ns).

Definition move (mv : Move Tk G) (s : System) : option System :=
  match mv with
  | MEnter t => if entry_ t then Some (spawn t (NAsked <$> option_list (askedBy t)) s) else None
  | MReply reply =>
      match sy_calls s with
      | O => None
      | S n =>
          Some (spawn (onReply reply) [NGot reply] (mkSystem (sy_state s) (sy_threads s) n (sy_subscriptions s) (sy_log s)))
      end
  | MSubscribed reply =>
      match sy_subscriptions s with
      | O => None
      | S n =>
          Some (spawn (onSubscribed reply) [NGotSubscribed reply]
                  (mkSystem (sy_state s) (sy_threads s) (sy_calls s) n (sy_log s)))
      end
  | MPerform i given =>
      match sy_threads s !! i with
      | Some (t :: rest) =>
          '(st, next, ns) ← perform_ given t (sy_state s);
          Some (mkSystem st (<[i := next ++ rest]> (sy_threads s)) (sy_calls s + count isCall ns)
                  (sy_subscriptions s + count isSubscribe ns) (sy_log s ++ ns))
      | _ => None
      end
  end.

Definition moves (mvs : list (Move Tk G)) (s : System) : option System := foldl (λ s mv, s ← s; move mv s) (Some s) mvs.

Definition tasks (s : System) : list Tk := concat (sy_threads s).

(** What can be reached when the moves from outside are [allowed]. *)
Inductive reachable (allowed : Move Tk G → Prop) (st : St) : System → Prop :=
| reachable_start : reachable allowed st (mkSystem st [] 0 0 [])
| reachable_move mv s s' : reachable allowed st s → allowed mv → move mv s = Some s' → reachable allowed st s'.

Lemma reachable_run allowed st mvs s s' :
  reachable allowed st s → Forall allowed mvs → moves mvs s = Some s' → reachable allowed st s'.
Proof.
  unfold moves. intros Hs Hall. revert s Hs. induction Hall as [|mv mvs Hmv _ IH]; intros s Hs; cbn [foldl].
  - by intros [= <-].
  - destruct (s ← Some s; move mv s) as [s1|] eqn:E.
    + cbn in E. apply IH. by eapply reachable_move.
    + intros Hn. exfalso. clear -Hn. induction mvs as [|? mvs IH]; [done|]. by apply IH.
Qed.

(** ** The rule for invariants *)

Lemma concat_replace (threads : list (list Tk)) i ts next :
  threads !! i = Some ts → ∃ others, concat threads ≡ₚ ts ++ others ∧ concat (<[i := next]> threads) ≡ₚ next ++ others.
Proof.
  intros Hi. exists (concat (take i threads) ++ concat (drop (S i) threads)).
  assert (concat threads = concat (take i threads) ++ ts ++ concat (drop (S i) threads)) as ->.
  { rewrite <- (take_drop_middle threads i ts Hi) at 1. by rewrite concat_app. }
  rewrite insert_take_drop by (by eapply lookup_lt_Some). rewrite concat_app. cbn [concat].
  split; solve_Permutation.
Qed.

(** The view an invariant has of a system: the state, the tasks left in any order, the unanswered
    calls and subscriptions, the log. *)
Definition Invariant := St → list Tk → nat → nat → list Notice → Prop.

Definition keeps (allowed : Move Tk G → Prop) (I : Invariant) : Prop :=
  (∀ t st ts c u log, I st ts c u log → allowed (MEnter t) → entry_ t = true →
     I st (t :: ts) c u (log ++ (NAsked <$> option_list (askedBy t)))) ∧
  (∀ r st ts c u log, I st ts (S c) u log → allowed (MReply r) →
     I st (onReply r :: ts) c u (log ++ [NGot r])) ∧
  (∀ r st ts c u log, I st ts c (S u) log → allowed (MSubscribed r) →
     I st (onSubscribed r :: ts) c u (log ++ [NGotSubscribed r])) ∧
  (∀ i g t st ts c u log st' next ns, I st (t :: ts) c u log → allowed (MPerform i g) →
     perform_ g t st = Some (st', next, ns) →
     I st' (next ++ ts) (c + count isCall ns)%nat (u + count isSubscribe ns)%nat (log ++ ns)).

Definition up_to_order (I : Invariant) : Prop := ∀ st ts ts' c u log, ts ≡ₚ ts' → I st ts c u log → I st ts' c u log.

Lemma threads_invariant allowed I st s :
  up_to_order I → keeps allowed I → I st [] 0 0 [] → reachable allowed st s →
  I (sy_state s) (tasks s) (sy_calls s) (sy_subscriptions s) (sy_log s).
Proof.
  intros Hp (Henter & Hreply & Hsub & Hperform) H0 Hr. induction Hr as [|mv s s' Hr IH Hmv E]; [done|].
  assert (∀ t ns st' c u log, tasks (spawn t ns (mkSystem st' (sy_threads s) c u log)) ≡ₚ t :: tasks s) as Hspawn.
  { intros. unfold tasks, spawn. cbn [sy_threads]. rewrite concat_app. cbn. rewrite Permutation_app_comm. done. }
  destruct mv as [t|r|r|i g]; cbn [move] in E.
  - destruct (entry_ t) eqn:Ht; simplify_eq. destruct s as [st' threads c u log].
    eapply Hp; [symmetry; apply (Hspawn t)|]. by apply Henter.
  - destruct (sy_calls s) as [|c] eqn:Hc; simplify_eq.
    eapply Hp; [symmetry; apply Hspawn|]. by apply Hreply.
  - destruct (sy_subscriptions s) as [|u] eqn:Hu; simplify_eq.
    eapply Hp; [symmetry; apply Hspawn|]. by apply Hsub.
  - destruct (sy_threads s !! i) as [[|t rest]|] eqn:Hi; try done.
    apply bind_Some in E as ([[st' next] ns] & E & [= <-]).
    destruct (concat_replace _ _ _ (next ++ rest) Hi) as (others & H1 & H2). unfold tasks in *.
    cbn [sy_state sy_threads sy_calls sy_subscriptions sy_log].
    eapply Hp; [symmetry; exact H2|]. rewrite <- app_assoc.
    eapply Hperform; [|exact Hmv|exact E]. eapply Hp; [exact H1|exact IH].
Qed.
End Threads.
Arguments System : clear implicits.

(** A machine is found by its state. *)
#[export] Hint Mode Machine ! - - : typeclass_instances.

Lemma count_cons {A} (p : A → bool) x l : count p (x :: l) = (if p x then 1 else 0) + count p l.
Proof. unfold count. cbn. by destruct (p x). Qed.
Lemma count_app {A} (p : A → bool) l l' : count p (l ++ l') = count p l + count p l'.
Proof. induction l as [|x l IH]; [done|]. cbn [app]. rewrite !count_cons, IH. lia. Qed.
#[export] Instance count_Permutation {A} (p : A → bool) : Proper ((≡ₚ) ==> eq) (count p).
Proof. induction 1; rewrite ?count_cons; lia. Qed.
Lemma count_none {A} (p : A → bool) l : Forall (λ x, p x = false) l → count p l = 0.
Proof. induction 1 as [|x l Hx _ IH]; [done|]. by rewrite count_cons, Hx, IH. Qed.

#[export] Instance mirrorMachine `{JsonText} : Machine Mirror Mirror.Task Z := {|
  perform_ g t m := d ← Mirror.perform g t m; Some (dn_mirror d, Mirror.dn_next d, Mirror.dn_notices d);
  entry_ t := match t with
              | Mirror.TResync (None | Some (Caller _)) | Mirror.TStart (None | Some (Starting _))
              | Mirror.TPush _ | Mirror.TStop | Mirror.TAddListener _ | Mirror.TRemoveListener _ => true
              | _ => false
              end;
  onReply := Mirror.TSynced;
  onSubscribed := Mirror.TSubscribed;
  askedBy t := match t with Mirror.TResync done | Mirror.TStart done => done | _ => None end |}.

#[export] Instance privateMachine `{JsonText} : Machine PrivateCore PrivateState.Task (Z * bytes) := {|
  perform_ g t p := d ← PrivateState.perform g.1 g.2 t p; Some (dn_private d, PrivateState.dn_next d, PrivateState.dn_notices d);
  entry_ t := match t with
              | PrivateState.TRefresh (None | Some (Caller _)) | PrivateState.TStart (None | Some (Starting _))
              | PrivateState.TPush _ | PrivateState.TStop
              | PrivateState.TAddListener | PrivateState.TRemoveListener _ => true
              | _ => false
              end;
  onReply := PrivateState.TReadDone;
  onSubscribed := PrivateState.TSubscribed;
  askedBy t := match t with PrivateState.TRefresh done | PrivateState.TStart done => done | _ => None end |}.

(** A task of a [snapshot] call. *)
Definition isSync (t : Mirror.Task) : bool := match t with Mirror.TCall | Mirror.TSynced _ => true | _ => false end.
