(* ===== verification/MirrorSpec.v ===== *)
(** * What mirrors promise

    A hub is specified by its epochs: for each, the collection it starts with, its first seq and
    the changes it publishes, one seq each. [published] and [answered] say which messages a hub
    sends on the topic and in answer to [snapshot]; deliveries may be lost, repeated, delayed and
    reordered, and calls may fail. The theorems relate what a mirror holds to the hub's state at the
    mirror's position, and count the callbacks; [PrivateState] gives its callers values read after
    they asked. Two examples at the end are runs in which the code gets it wrong. *)

From Stdlib Require Import Sorted.
From S2P Require Import Prelude Bytes Core Json KitProtocol KitThreads Mirror.

Open Scope Z_scope.

(** ** Hubs *)

Inductive Change := Put (k : KitContainer) | Drop (id : Z) | Nothing.

Definition change (ms : gmap Z KitContainer) (ch : Change) : gmap Z KitContainer :=
  match ch with Put k => <[kc_id k := k]> ms | Drop id => delete id ms | Nothing => ms end.

Record Hub := mkHub {
  hb_first : Z → Z; hb_initial : Z → gmap Z KitContainer; hb_changes : Z → list Change }.

(** The collection after the message [s] of epoch [e]. *)
Definition hubState (hub : Hub) (e s : Z) : gmap Z KitContainer :=
  foldl change (hb_initial hub e) (take (Z.to_nat (s - hb_first hub e)) (hb_changes hub e)).

Definition known (hub : Hub) (e s : Z) : Prop :=
  hb_first hub e ≤ s ≤ hb_first hub e + Z.of_nat (length (hb_changes hub e)).

(** How a container, a change and a collection are written in a body. *)
Definition describes (c : Json) (k : KitContainer) : Prop :=
  asBool (field (Some c) (chars "removed")) false = false ∧
  isNumber (field (Some c) (chars "id")) = true ∧
  asInt64 (field (Some c) (chars "id")) 0 = Some (kc_id k) ∧
  asString (field (Some c) (chars "type_name")) [] = kc_typeName k ∧
  isObject (field (Some c) (chars "props")) = true ∧ field (Some c) (chars "props") = kc_props k.

Definition byId (ks : list KitContainer) : gmap Z KitContainer := list_to_map ((λ k, (kc_id k, k)) <$> ks).

Definition shows (body : View) (ms : gmap Z KitContainer) : Prop :=
  ∃ l ks, field body (chars "containers") = Some (JArr l) ∧ Forall2 describes l ks ∧
    NoDup (kc_id <$> ks) ∧ ms = byId ks.

(** A delta names the type of a member the collection does not hold yet. *)
Definition carries (before : gmap Z KitContainer) (body : View) (ch : Change) : Prop :=
  isNumber (field body (chars "id")) = true ∧
  match ch with
  | Put k =>
      asInt64 (field body (chars "id")) 0 = Some (kc_id k) ∧
      asBool (field body (chars "removed")) false = false ∧
      isObject (field body (chars "props")) = true ∧ field body (chars "props") = kc_props k ∧
      let given := asString (field body (chars "type_name")) [] in
      given = kc_typeName k ∧ given ≠ [] ∨
      given = [] ∧ from_option kc_typeName [] (before !! kc_id k) = kc_typeName k
  | Drop id =>
      asInt64 (field body (chars "id")) 0 = Some id ∧ asBool (field body (chars "removed")) false = true
  | Nothing => False
  end.

(** A message the hub publishes on the topic. *)
Definition published (hub : Hub) (m : KitMessage) : Prop :=
  let e := h_epoch (m_header m) in
  let s := h_seq (m_header m) in
  known hub e s ∧ hb_first hub e < s ∧
  ∃ ch, hb_changes hub e !! Z.to_nat (s - hb_first hub e - 1) = Some ch ∧
    match h_kind (m_header m) with
    | Snapshot => shows (m_body m) (hubState hub e s)
    | Delta => carries (hubState hub e (s - 1)) (m_body m) ch
    | Changed | Event => ch = Nothing
    end.

(** A message the hub answers [snapshot] with. *)
Definition answered (hub : Hub) (m : KitMessage) : Prop :=
  known hub (h_epoch (m_header m)) (h_seq (m_header m)) ∧
  shows (m_body m) (hubState hub (h_epoch (m_header m)) (h_seq (m_header m))).

(** ** One message *)

Lemma hubState_next hub e s ch :
  hb_first hub e < s → hb_changes hub e !! Z.to_nat (s - hb_first hub e - 1) = Some ch →
  hubState hub e s = change (hubState hub e (s - 1)) ch.
Proof.
  intros Hs Hch. unfold hubState.
  replace (Z.to_nat (s - hb_first hub e)) with (S (Z.to_nat (s - hb_first hub e - 1))) by lia.
  replace (s - 1 - hb_first hub e) with (s - hb_first hub e - 1) by lia.
  by rewrite (take_S_r _ _ _ Hch), foldl_app.
Qed.

Lemma visited_array l : visited (Some (JArr l)) = Some <$> l.
Proof.
  unfold visited. cbn [sizeOf at_]. apply list_eq. intros i. rewrite !list_lookup_fmap.
  destruct (decide (i < length l)%nat) as [Hi|].
  - rewrite lookup_seq_lt by done. cbn [fmap option_fmap option_map]. destruct (lookup_lt_is_Some_2 _ _ Hi) as [x Hx].
    cbn [Nat.add at_]. by rewrite Hx.
  - rewrite lookup_seq_ge by lia. rewrite (lookup_ge_None_2 l) by lia. done.
Qed.

Section Text.
Context `{JsonText}.

Lemma propsOf_object v : isObject v = true → propsOf v = v.
Proof. unfold propsOf. by intros ->. Qed.

Lemma takeMember_describes c k ms : describes c k → takeMember (Some c) ms = Some (<[kc_id k := k]> ms).
Proof.
  intros (Hr & Hn & Hid & Ht & Ho & Hp). unfold takeMember. rewrite Hr, Hn, Hid. cbn [negb orb mbind option_bind].
  rewrite propsOf_object, Ht, Hp by done. by destruct k.
Qed.

Lemma takeMembers_shows l ks ms :
  Forall2 describes l ks → NoDup (kc_id <$> ks) →
  takeMembers (Some <$> l) ms = Some (byId ks ∪ ms).
Proof.
  intros Hl. revert ms. induction Hl as [|c k l ks Hc Hl IH]; intros ms Hnd; cbn [fmap list_fmap takeMembers].
  - unfold byId. cbn. by rewrite (left_id_L ∅ (∪)).
  - inversion Hnd as [|?? Hk Hnd']; subst. rewrite (takeMember_describes _ _ _ Hc). cbn [mbind option_bind].
    rewrite IH by done. f_equal. unfold byId. cbn [fmap list_fmap list_to_map foldr].
    assert ((list_to_map ((λ k, (kc_id k, k)) <$> ks) : gmap Z KitContainer) !! kc_id k = None) as Hnone.
    { apply not_elem_of_list_to_map. rewrite <- list_fmap_compose. done. }
    rewrite <- insert_union_r by done. by rewrite insert_union_l.
Qed.

Lemma takeSnapshot_shows body ms h :
  shows body ms → takeSnapshot Collection body h = Some (mkHeld (state h) ms true (epoch h) (seq_ h)).
Proof.
  intros (l & ks & Hf & Hl & Hnd & ->). unfold takeSnapshot.
  rewrite Hf, visited_array, (takeMembers_shows l ks) by done. cbn [mbind option_bind].
  by rewrite (right_id_L ∅ (∪)).
Qed.

Lemma takeDelta_carries before body ch h :
  carries before body ch →
  ∃ ms, takeDelta Collection body h = Some (true, withMembers ms h) ∧ (members h = before → ms = change before ch).
Proof.
  intros [Hn Hch]. unfold takeDelta. rewrite Hn. cbn [negb orb].
  destruct ch as [k|id|]; [|destruct Hch as [-> ->]; eexists; split; [done|by intros ->]|done].
  destruct Hch as (-> & -> & Ho & Hp & Ht). cbn [mbind option_bind]. rewrite propsOf_object, Hp by done.
  eexists. split; [done|]. intros ->. cbn [change]. f_equal.
  destruct k as [id ty props]. cbn [kc_id kc_typeName kc_props] in *. f_equal.
  destruct Ht as [[-> Ht]|[-> Ht]]; [by rewrite bool_decide_false|].
  rewrite bool_decide_true by done. by destruct (before !! id).
Qed.

(** What a mirror holds is the hub's state at its position. *)
Definition mirrors (hub : Hub) (h : Held) : Prop :=
  hasState h = true → known hub (epoch h) (seq_ h) ∧ members h = hubState hub (epoch h) (seq_ h).

(** Every branch of [apply] on a message of the hub: it is defined, a mirror that agreed with the
    hub still does or asks for a snapshot, and no request for one is forgotten. *)
Lemma applyMessage_published hub m h e :
  published hub m →
  ∃ h' e', applyMessage Collection m h e = Some (h', e') ∧ (ef_resync e = true → ef_resync e' = true) ∧
    (mirrors hub h → mirrors hub h' ∨ ef_resync e' = true).
Proof.
  intros (Hk & Hf & ch & Hch & Hkind). unfold applyMessage, mirrors.
  set (hd := m_header m) in *. set (ep := h_epoch hd) in *. set (s := h_seq hd) in *.
  assert (∀ h e, h_kind hd = Snapshot → epoch h = ep → seq_ h = s →
    ∃ h', takeSnapshot Collection (m_body m) h = Some h' ∧
      (hasState h' = true → known hub (epoch h') (seq_ h') ∧ members h' = hubState hub (epoch h') (seq_ h')) ∧
      (ef_resync e = true → ef_resync (withChanged e) = true)) as Hsnap.
  { intros h1 e1 Hs He Hq. rewrite Hs in Hkind. eexists. rewrite (takeSnapshot_shows _ _ _ Hkind).
    split_and!; [done|cbn; by rewrite He, Hq|done]. }
  destruct (Z.eqb_spec ep (epoch h)) as [He|He]; cbn [negb].
  2:{ destruct (h_kind hd) eqn:Hkd; try by (do 2 eexists; split_and!; [done|done|by right]).
      destruct (Hsnap (at_position ep s h) e eq_refl eq_refl eq_refl) as (h' & -> & Hm & Hr).
      do 2 eexists. split_and!; [done|exact Hr|by left]. }
  destruct (Z.leb_spec s (seq_ h)); [do 2 eexists; split_and!; [done|done|by left]|].
  set (h1 := at_position (epoch h) s h).
  destruct (Z.eqb_spec s (seq_ h + 1)) as [Hnext|Hgap]; cbn [negb orb andb].
  2:{ destruct (h_kind hd) eqn:Hkd; try by (do 2 eexists; split_and!; [done|done|by right]).
      destruct (Hsnap h1 e eq_refl (eq_sym He) eq_refl) as (h' & -> & Hm & Hr).
      do 2 eexists. split_and!; [done|exact Hr|by left]. }
  assert (seq_ h = s - 1) as Hprev by lia.
  assert (∀ ms, ms = change (hubState hub ep (s - 1)) ch → ms = hubState hub ep s) as Hstep.
  { intros ms ->. symmetry. by apply hubState_next. }
  destruct (h_kind hd) eqn:Hkd.
  - destruct (Hsnap h1 e eq_refl (eq_sym He) eq_refl) as (h' & -> & Hm & Hr).
    do 2 eexists. split_and!; [done|exact Hr|by left].
  - destruct (hasState h1) eqn:Hst; cbn [negb]; [|do 2 eexists; split_and!; [done|done|by right]].
    change (hasState h1) with (hasState h) in Hst.
    destruct (takeDelta_carries _ _ _ h1 Hkind) as (ms & -> & Hms). cbn [mbind option_bind].
    do 2 eexists. split_and!; [done|done|]. intros Hm. left. intros _. cbn. rewrite <- He. split; [done|].
    apply Hstep, Hms. destruct (Hm Hst) as [_ E]. by rewrite Hprev, <- He in E.
  - do 2 eexists. split_and!; [done|by destruct (kitChanged _)|]. intros Hm. left. cbn. intros Hst.
    destruct (Hm Hst) as [_ Hms]. rewrite <- He. split; [done|]. apply Hstep. rewrite Hkind. cbn. by rewrite Hms, Hprev, <- He.
  - do 2 eexists. split_and!; [done|done|]. intros Hm. left. cbn. intros Hst.
    destruct (Hm Hst) as [_ Hms]. rewrite <- He. split; [done|]. apply Hstep. rewrite Hkind. cbn. by rewrite Hms, Hprev, <- He.
Qed.

Lemma applyAll_published hub ms h e :
  Forall (published hub) ms →
  ∃ h' e', applyAll Collection ms h e = Some (h', e') ∧ (ef_resync e = true → ef_resync e' = true) ∧
    (mirrors hub h → mirrors hub h' ∨ ef_resync e' = true).
Proof.
  intros Hms. revert h e. induction Hms as [|m ms Hm _ IH]; intros h e; cbn [applyAll].
  - do 2 eexists. split_and!; [done|done|by left].
  - destruct (applyMessage_published hub m h e Hm) as (h1 & e1 & -> & Hr & Hm1). cbn [mbind option_bind].
    destruct (IH h1 e1) as (h2 & e2 & -> & Hr2 & Hm2). do 2 eexists. split_and!; [done|auto|].
    intros [?|?]%Hm1; auto.
Qed.
End Text.

(** ** Runs with a faithful hub *)

Definition gotIn (log : list Notice) : list KitReply := omap (λ n, match n with NGot r => Some r | _ => None end) log.
Definition lastGot (log : list Notice) : option KitReply := list.last (gotIn log).

Lemma lastGot_app log ns : gotIn ns = [] → lastGot (log ++ ns) = lastGot log.
Proof. unfold lastGot, gotIn. rewrite omap_app. intros ->. by rewrite app_nil_r. Qed.
Lemma lastGot_reply log r : lastGot (log ++ [NGot r]) = Some r.
Proof. unfold lastGot, gotIn. rewrite omap_app. apply last_snoc. Qed.

Section Runs.
Context `{JsonText} (hub : Hub).

(** A push is a message of the hub or not a kit message; a good reply is a message the hub answers
    with, or not a kit message. *)
Definition push_ok (value : View) : Prop :=
  splitKitMessage value = Some None ∨ ∃ msg, splitKitMessage value = Some (Some msg) ∧ published hub msg.
Definition reply_ok (r : KitReply) : Prop :=
  replyOk r = true → ∃ value, fromMsgpack writeJson (kr_payload r) = Some value ∧
    (splitKitMessage value = Some None ∨ ∃ msg, splitKitMessage value = Some (Some msg) ∧ answered hub msg).

Definition faithful (mv : Move Task Z) : Prop :=
  match mv with MEnter (TPush value) => push_ok value | MReply r => reply_ok r | _ => True end.

(** Whether a reply brings a snapshot. *)
Definition brings (r : KitReply) : bool :=
  replyOk r && match value ← fromMsgpack writeJson (kr_payload r); splitKitMessage value with
               | Some (Some _) => true
               | _ => false
               end.

(** The last [snapshot] call answered so far brought none. *)
Definition lastFailed (log : list Notice) : bool :=
  match lastGot log with Some r => negb (brings r) | None => false end.

Definition resyncs (t : Task) : Prop :=
  match t with TRun e => ef_resync e = true | TResync _ => True | _ => False end.

(** What a mirror owes: a snapshot asked for, or about to be. *)
Definition owes (st : Mirror) (ts : list Task) : Prop := syncing st = true ∨ ∃ t, t ∈ ts ∧ resyncs t.

(** A task that is neither a delivery nor part of a snapshot call. *)
Definition inner (t : Task) : Prop :=
  match t with TPush _ | TSynced _ | TCall => False | _ => True end.

Lemma readSnapshot_ok r m :
  reply_ok r →
  ∃ msg reply, readSnapshot r m = Some (msg, reply) ∧
    match msg with Some msg => answered hub msg | None => brings r = false end.
Proof.
  unfold reply_ok, readSnapshot, brings. destruct (replyOk r) eqn:Hr; [|intros _; by exists None, r].
  intros (value & -> & Hs); [done|]. cbn [mbind option_bind].
  destruct Hs as [-> | (msg & -> & Hm)]; cbn [mbind option_bind]; do 2 eexists; split; done.
Qed.

Lemma answered_mirrors msg h :
  answered hub msg → ∃ h', takeSnapshot Collection (m_body msg)
      (at_position (h_epoch (m_header msg)) (h_seq (m_header msg)) h) = Some h' ∧ mirrors hub h'.
Proof.
  intros [Hk Hs]. rewrite (takeSnapshot_shows _ _ _ Hs). eexists. split; [done|]. by intros _.
Qed.

Lemma sortBySeq_perm l : sortBySeq l ≡ₚ l.
Proof.
  induction l as [|m l IH]; [done|]. cbn [sortBySeq foldr]. fold (sortBySeq l). rewrite <- IH at 2.
  generalize (sortBySeq l). clear. intros l. induction l as [|x l IH]; [done|]. cbn [insertBySeq].
  destruct (_ <=? _); [done|]. rewrite IH. constructor.
Qed.

(** Any sound answer restores agreement, whatever was buffered meanwhile, or asks again. *)
Lemma synced_ok r m :
  mi_shape m = Collection → Forall (published hub) (buffer m) → reply_ok r →
  ∃ d e answers, synced r m = Some d ∧ dn_next d = TRun e :: answers ∧ Forall inner answers ∧ dn_notices d = [] ∧
    mi_shape (dn_mirror d) = Collection ∧ syncing (dn_mirror d) = false ∧ buffering (dn_mirror d) = false ∧
    buffer (dn_mirror d) = [] ∧ (brings r = true → mirrors hub (mi_held (dn_mirror d)) ∨ ef_resync e = true).
Proof.
  intros Hshape Hbuf Hr. unfold synced. destruct (readSnapshot_ok r m Hr) as (msg & reply & -> & Hmsg).
  cbn [mbind option_bind].
  assert (Forall inner ((λ w, TAnswer w reply) <$> syncWaiters m)) as Hin by (apply Forall_fmap, Forall_true; done).
  rewrite Hshape. destruct msg as [msg|].
  - destruct (answered_mirrors msg (mi_held m) Hmsg) as (h & -> & Hh). cbn [mbind option_bind].
    destruct (applyAll_published hub (sortBySeq (buffer m)) h noEffects) as (h' & e & -> & _ & Hm);
      [by rewrite sortBySeq_perm|]. cbn [mbind option_bind].
    do 3 eexists. split_and!; try done. intros _. by apply Hm.
  - do 3 eexists. split_and!; try done. by rewrite Hmsg.
Qed.

(** ** The invariant *)

Definition task_ok (log : list Notice) (t : Task) : Prop :=
  match t with
  | TPush value => push_ok value
  | TSynced r => reply_ok r ∧ lastGot log = Some r
  | _ => True
  end.

(** A task that is not a sync and does not depend on the log. *)
Lemma inner_task_ok log t : inner t → task_ok log t ∧ isSync t = false.
Proof. by destruct t. Qed.

Definition good (st : Mirror) (ts : list Task) (c u : nat) (log : list Notice) : Prop :=
  mi_shape st = Collection ∧ buffering st = syncing st ∧ Forall (published hub) (buffer st) ∧
  (count isSync ts + c)%nat = (if syncing st then 1 else 0)%nat ∧ Forall (task_ok log) ts ∧
  (lastFailed log = false → mirrors hub (mi_held st) ∨ owes st ts).

Lemma good_order : up_to_order good.
Proof.
  intros st ts ts' c u log Hp (H1 & H2 & H3 & H4 & H5 & H6). unfold good.
  split_and!; try done; [by rewrite <- Hp|by rewrite <- Hp|]. intros [?|[?|(t & Ht & ?)]]%H6; [by left|by right; left|].
  right. right. exists t. by rewrite <- Hp.
Qed.

(** What a task leaves alone. *)
Definition same_sync (st st' : Mirror) : Prop :=
  mi_shape st' = mi_shape st ∧ mi_held st' = mi_held st ∧ syncing st' = syncing st ∧
  buffering st' = buffering st ∧ buffer st' = buffer st.

Lemma task_ok_log log ns t : gotIn ns = [] → task_ok log t → task_ok (log ++ ns) t.
Proof. intros Hns. destruct t; try done. cbn. by rewrite lastGot_app. Qed.

Lemma good_inner st st' t ts next c u u' log ns :
  good st (t :: ts) c u log → isSync t = false → same_sync st st' → Forall inner next → gotIn ns = [] →
  (resyncs t → syncing st' = true ∨ ∃ t', t' ∈ next ∧ resyncs t') →
  good st' (next ++ ts) c u' (log ++ ns).
Proof.
  intros (H1 & H2 & H3 & H4 & H5 & H6) Ht (S1 & S2 & S3 & S4 & S5) Hnext Hns Hre. unfold good, owes, lastFailed in *.
  rewrite S1, S2, S3, S4, S5, lastGot_app by done. rewrite count_cons, Ht in H4.
  inversion H5 as [|?? _ H5']; subst. split_and!; try done.
  - rewrite count_app, (count_none _ next); [done|].
    revert Hnext. apply Forall_impl. intros ? ?%(inner_task_ok []). tauto.
  - apply Forall_app. split; [revert Hnext|revert H5']; apply Forall_impl.
    + intros ? ?%(inner_task_ok (log ++ ns)). tauto.
    + intros t'. by apply task_ok_log.
  - intros [?|[?|(t' & [->|Hin]%elem_of_cons & Hr)]]%H6; [by left|by right; left| |].
    + destruct (Hre Hr) as [Hs|(t1 & ? & ?)]; [right; left; by rewrite <- S3|].
      right. right. exists t1. rewrite elem_of_app. tauto.
    + right. right. exists t'. rewrite elem_of_app. tauto.
Qed.

Lemma inner_fmap {A} (f : A → Task) (l : list A) : (∀ x, inner (f x)) → Forall inner (f <$> l).
Proof. intros Hf. apply Forall_fmap, Forall_true. done. Qed.

Lemma inner_giveBack handle reconnect : Forall inner (giveBack handle reconnect).
Proof. unfold giveBack. apply Forall_app. split; case_match; by repeat constructor. Qed.

Lemma inner_run e m : Forall inner (dn_next (run e m)).
Proof.
  unfold run. cbn [dn_next]. rewrite !Forall_app. split_and!.
  - by apply inner_fmap.
  - apply List.Forall_forall. intros t Ht%list_elem_of_In. revert Ht. intros ([body hd] & Ht & _)%list_elem_of_bind.
    apply list_elem_of_fmap in Ht as (? & -> & _). done.
  - apply List.Forall_forall. intros t Ht%list_elem_of_In. revert Ht. intros ([ch hd] & Ht & _)%list_elem_of_bind.
    apply list_elem_of_fmap in Ht as (? & -> & _). done.
  - case_match; by repeat constructor.
Qed.

Lemma run_resyncs e m : ef_resync e = true → TResync None ∈ dn_next (run e m).
Proof. intros He. unfold run. cbn [dn_next]. rewrite He, !elem_of_app. do 3 right. constructor. Qed.

(** The tasks that touch neither what is held nor the snapshot calls. *)
Lemma perform_inner g t m d :
  inner t → (∀ done, t ≠ TResync done) → perform g t m = Some d →
  same_sync m (dn_mirror d) ∧ Forall inner (dn_next d) ∧ (resyncs t → TResync None ∈ dn_next d) ∧
  gotIn (dn_notices d) = [] ∧ count isCall (dn_notices d) = 0%nat.
Proof.
  intros Hi Hnr Hd. destruct t; try done; cbn in Hd; simplify_eq; cbn.
  - split_and!; [done|apply inner_run|apply run_resyncs|done|done].
  - done.
  - by destruct (Hnr done).
  - unfold start. destruct (beginStart _ _) as [[had go] st]. destruct had; cbn.
    + split_and!; try done. by apply inner_fmap.
    + split_and!; try done. destruct go; by repeat constructor.
  - split_and!; try done. by repeat constructor.
  - split_and!; try done. by repeat constructor.
  - split_and!; done.
  - split_and!; try done. unfold subscribed. case_match; by repeat constructor.
  - destruct done; cbn; split_and!; try done; by repeat constructor.
  - unfold finishStart. destruct (endStart _ _) as [[[hd re] ws] st]. cbn. split_and!; try done.
    apply Forall_app. split; [apply inner_giveBack|by apply inner_fmap].
  - unfold stop. cbn. split_and!; try done. apply inner_giveBack.
  - destruct kind; done.
  - done.
Qed.

Lemma good_spawn t st ts c u u' log ns :
  good st ts c u log → isSync t = false → task_ok (log ++ ns) t → gotIn ns = [] → good st (t :: ts) c u' (log ++ ns).
Proof.
  intros (H1 & H2 & H3 & H4 & H5 & H6) Hs Ht Hns. unfold good, lastFailed in *. rewrite lastGot_app by done.
  rewrite count_cons, Hs. split_and!; try done.
  - constructor; [done|]. revert H5. apply Forall_impl. intros t'. by apply task_ok_log.
  - intros [?|[?|(t' & ? & ?)]]%H6; [by left|by right; left|]. right. right. exists t'. by rewrite elem_of_cons; auto.
Qed.

Lemma good_reply r st ts c u log :
  good st ts (S c) u log → faithful (MReply r) → good st (TSynced r :: ts) c u (log ++ [NGot r]).
Proof.
  intros (H1 & H2 & H3 & H4 & H5 & H6) Hf.
  assert (syncing st = true ∧ count isSync ts = 0%nat ∧ c = 0%nat) as (Hs & Hc & ->) by (destruct (syncing st); [lia|lia]).
  unfold good. rewrite Hs in *. split_and!; try done.
  - rewrite count_cons, Hc. done.
  - constructor; [cbn; by rewrite lastGot_reply|]. apply List.Forall_forall. intros t Hin.
    apply List.Forall_forall with (x := t) in H5; [|done]. destruct t; try done.
    exfalso. apply list_elem_of_In, list_elem_of_split in Hin as (l1 & l2 & ->).
    rewrite count_app, count_cons in Hc. cbn in Hc. lia.
  - intros _. right. by left.
Qed.

Lemma good_drop t st ts c u log : good st (t :: ts) c u log → isSync t = false → ¬ resyncs t → good st ts c u log.
Proof.
  intros (H1 & H2 & H3 & H4 & H5 & H6) Ht Hn. rewrite count_cons, Ht in H4. inversion H5; subst.
  unfold good. split_and!; try done.
  intros [?|[?|(t' & [->|?]%elem_of_cons & ?)]]%H6; [by left|by right; left|done|]. right. right. by exists t'.
Qed.

Lemma good_push v st ts c u log :
  good st (TPush v :: ts) c u log →
  ∃ d, onPush v st = Some d ∧ good (dn_mirror d) (dn_next d ++ ts) c u log ∧ dn_notices d = [].
Proof.
  intros Hg. assert (push_ok v) as Hv by (destruct Hg as (_ & _ & _ & _ & H5 & _); by inversion H5).
  apply good_drop in Hg; [|done|by intros []]. destruct Hg as (H1 & H2 & H3 & H4 & H5 & H6).
  unfold onPush. destruct Hv as [-> | (msg & -> & Hp)]; cbn [mbind option_bind]; [by eexists|].
  destruct (buffering st) eqn:Hb.
  - eexists. split_and!; [done| |done]. unfold good. cbn. rewrite <- H2 in *. split_and!; try done.
    + apply Forall_app. split; [done|by constructor].
    + intros _. right. by left.
  - rewrite H1. destruct (applyMessage_published hub msg (mi_held st) noEffects Hp) as (h & e & -> & _ & Hm).
    cbn [mbind option_bind]. eexists. split_and!; [done| |done].
    unfold good, owes. cbn [dn_mirror dn_next app]. rewrite count_cons. cbn [isSync set_held mi_shape mi_held syncing buffering buffer].
    rewrite <- H2 in *. split_and!; try done; [by constructor|]. intros [[?|Hr]%Hm|[?|(t & ? & ?)]]%H6; [by left| |congruence|].
    + right. right. exists (TRun e). rewrite elem_of_cons. auto.
    + right. right. exists t. rewrite elem_of_cons. auto.
Qed.

Lemma good_synced r st ts c u log :
  good st (TSynced r :: ts) c u log →
  ∃ d, synced r st = Some d ∧ good (dn_mirror d) (dn_next d ++ ts) c u (log ++ dn_notices d).
Proof.
  intros (H1 & H2 & H3 & H4 & H5 & H6). inversion H5 as [|?? Ht H5']; subst.
  destruct Ht as [Hr Hl].
  destruct (synced_ok r st H1 H3 Hr) as (d & e & answers & E & En & Hin & Hno & S1 & S2 & S3 & S4 & S5).
  exists d. split; [done|]. rewrite count_cons in H4. cbn [isSync] in H4.
  assert (count isSync ts = 0%nat ∧ c = 0%nat) as [Hc ->] by (destruct (syncing st); lia).
  rewrite Hno, app_nil_r, En. unfold good, owes. rewrite S1, S2, S3, S4. split_and!; try done.
  - rewrite count_app, count_cons, (count_none _ answers); [cbn; lia|].
    revert Hin. apply Forall_impl. intros ? ?%(inner_task_ok []). tauto.
  - constructor; [done|]. apply Forall_app. split; [|done].
    revert Hin. apply Forall_impl. intros ? ?%(inner_task_ok log). tauto.
  - unfold lastFailed. rewrite Hl. intros Hb%negb_false_iff. destruct (S5 Hb); [by left|].
    right. right. exists (TRun e). split; [by left|done].
Qed.

Lemma good_resync done st ts c u log :
  good st (TResync done :: ts) c u log →
  good (dn_mirror (resync done st)) (dn_next (resync done st) ++ ts) c u (log ++ dn_notices (resync done st)).
Proof.
  intros (H1 & H2 & H3 & H4 & H5 & H6). inversion H5; subst. rewrite count_cons in H4. cbn [isSync] in H4.
  unfold resync, good, owes. destruct (syncing st) eqn:Hs; cbn; rewrite app_nil_r; rewrite ?H2; split_and!; try done;
    try (by right; left).
  - unfold count in H4. lia.
  - by constructor.
Qed.

Lemma good_perform g t st ts c u log :
  good st (t :: ts) c u log →
  ∃ d, perform g t st = Some d ∧
    ∀ u', good (dn_mirror d) (dn_next d ++ ts) (c + count isCall (dn_notices d)) u' (log ++ dn_notices d).
Proof.
  intros Hg. assert (inner t → (∀ done, t ≠ TResync done) →
    ∃ d, perform g t st = Some d ∧
    ∀ u', good (dn_mirror d) (dn_next d ++ ts) (c + count isCall (dn_notices d)) u' (log ++ dn_notices d)) as Hin.
  { intros Hi Hr. assert (∃ d, perform g t st = Some d) as [d E] by (destruct t; try done; by eexists).
    exists d. split; [done|]. intros u'. destruct (perform_inner g t st d Hi Hr E) as (Hsame & Hin & Hre & Hn & ->).
    rewrite Nat.add_0_r. eapply good_inner; try done; [by apply (inner_task_ok [])|].
    intros ?%Hre. right. by exists (TResync None). }
  assert (task_ok log t) as Ht by (destruct Hg as (_ & _ & _ & _ & H5 & _); by inversion H5).
  destruct t; try (by apply Hin).
  - destruct (good_push _ _ _ _ _ _ Hg) as (d & E & Hd & Hn). exists d. split; [done|]. intros u'.
    rewrite Hn, Nat.add_0_r, app_nil_r. exact Hd.
  - exists (resync done st). split; [done|]. intros u'.
    assert (count isCall (dn_notices (resync done st)) = 0%nat) as ->
      by (unfold resync; by destruct (syncing st)).
    rewrite Nat.add_0_r. by apply good_resync.
  - eexists. split; [done|]. intros u'. destruct Hg as (H1 & H2 & H3 & H4 & H5 & H6). inversion H5 as [|?? _ H5']; subst.
    unfold good, owes, lastFailed in *. cbn [dn_mirror dn_next dn_notices app]. rewrite lastGot_app by done.
    rewrite count_cons in H4. cbn [isSync] in H4. assert (syncing st = true) as Hs by (destruct (syncing st); [done|lia]).
    rewrite Hs in *. split_and!; try done.
    + change (count isCall [NCall]) with 1%nat. lia.
    + revert H5'. apply Forall_impl. intros t. by apply task_ok_log.
    + intros _. right. by left.
  - destruct (good_synced _ _ _ _ _ _ Hg) as (d & E & Hd). exists d. split; [done|]. intros u'.
    assert (dn_notices d = []) as Hn.
    { unfold synced in E. apply bind_Some in E as ([[msg|] r'] & _ & E); cbn in E; [|by simplify_eq].
      apply bind_Some in E as (h & _ & E). apply bind_Some in E as ([h' e] & _ & E). by simplify_eq. }
    rewrite Hn, Nat.add_0_r in *. exact Hd.
Qed.

Lemma good_keeps : keeps faithful good.
Proof.
  unfold keeps. split_and!.
  - intros t st ts c u log Hg Hf Ht. eapply good_spawn; [exact Hg|by destruct t| |by destruct (askedBy t)].
    by destruct t.
  - intros r st ts c u log. apply good_reply.
  - intros r st ts c u log Hg _. by eapply good_spawn.
  - intros i g t st ts c u log st' next ns Hg _ E. cbn [perform_ mirrorMachine] in E.
    apply bind_Some in E as (d & E & [= <- <- <-]).
    destruct (good_perform g t st ts c u log Hg) as (d' & E' & Hd). rewrite E in E'. simplify_eq. apply Hd.
Qed.

Lemma good_reachable nodeType s :
  reachable faithful (newMirror nodeType Collection) s →
  good (sy_state s) (tasks s) (sy_calls s) (sy_subscriptions s) (sy_log s).
Proof.
  apply threads_invariant; [apply good_order|apply good_keeps|].
  unfold good. cbn. split_and!; try done. intros _. by left.
Qed.
End Runs.

(** C31. A collection mirror under any interleaving of its methods, pushes, replies, reconnects and
    listeners, with messages lost, repeated, reordered and delayed: no task is ever stuck; at most
    one [snapshot] call is on its way; unless the last call failed, the mirror holds the hub's
    collection at its position or a snapshot is on its way; so at rest it holds exactly that. *)
Theorem collection_mirrors_hub `{JsonText} hub nodeType s :
  reachable (faithful hub) (newMirror nodeType Collection) s →
  (∀ t, t ∈ tasks s → ∀ given, is_Some (perform given t (sy_state s))) ∧
  (sy_calls s + count isSync (tasks s) = if syncing (sy_state s) then 1 else 0)%nat ∧
  (lastFailed (sy_log s) = false →
     (mirrors hub (mi_held (sy_state s)) ∨ owes (sy_state s) (tasks s)) ∧
     (tasks s = [] → sy_calls s = 0%nat → mirrors hub (mi_held (sy_state s)))).
Proof.
  intros Hg%good_reachable. pose proof Hg as (_ & _ & _ & Hc & _ & Hm). split_and!.
  - intros t [ts Hts]%elem_of_Permutation given. destruct (good_perform hub given t (sy_state s) ts (sy_calls s) 0%nat (sy_log s)) as (d & -> & _); [|done].
    eapply good_order; [exact Hts|]. exact Hg.
  - lia.
  - intros Hl. split; [by apply Hm|]. intros Ht H0. destruct (Hm Hl) as [?|[Hs|(t & Hin & _)]]; [done| |].
    + rewrite Hs, Ht, H0 in Hc. done.
    + rewrite Ht in Hin. by apply not_elem_of_nil in Hin.
Qed.

(** ** Catching up *)

Section CatchUp.
Context `{JsonText} (hub : Hub).

Definition seqOf (m : KitMessage) : Z := h_seq (m_header m).
Definition epochOf (m : KitMessage) : Z := h_epoch (m_header m).

(** Where a collection in step with the hub is. *)
Definition in_step (e s : Z) (h : Held) : Prop :=
  hasState h = true ∧ epoch h = e ∧ seq_ h = s ∧ members h = hubState hub e s.

Lemma applyMessage_next m h ef s :
  published hub m → in_step (epochOf m) s h → seqOf m = s + 1 →
  ∃ h' ef', applyMessage Collection m h ef = Some (h', ef') ∧ in_step (epochOf m) (seqOf m) h' ∧
    ef_resync ef' = ef_resync ef.
Proof.
  intros (Hk & Hf & ch & Hch & Hkind) (Hst & He & Hs & Hms) Hq. unfold applyMessage, in_step, seqOf, epochOf in *.
  set (hd := m_header m) in *. rewrite He, Hs, Hq, Z.eqb_refl, (Z.eqb_refl (s + 1)) in *. cbn [negb orb andb].
  rewrite (proj2 (Z.leb_gt (s + 1) s)) by lia.
  assert (hubState hub (h_epoch hd) (s + 1) = change (members h) ch) as Hnext.
  { pose proof (hubState_next hub _ _ _ Hf Hch) as E. by rewrite Z.add_simpl_r, <- Hms in E. }
  destruct (h_kind hd) eqn:Hkd.
  - rewrite (takeSnapshot_shows _ _ _ Hkind). cbn [mbind option_bind]. by do 2 eexists.
  - cbn [at_position hasState]. rewrite Hst. cbn [negb]. rewrite Z.add_simpl_r in Hkind.
    destruct (takeDelta_carries _ _ _ (at_position (h_epoch hd) (s + 1) h) Hkind) as (ms & -> & E).
    cbn [mbind option_bind]. do 2 eexists. split_and!; try done. cbn. rewrite E, Hnext by done. by rewrite Hms.
  - do 2 eexists. split_and!; try done; [|by destruct (kitChanged _)]. cbn. by rewrite Hnext, Hkind.
  - do 2 eexists. split_and!; try done. cbn. by rewrite Hnext, Hkind.
Qed.

Lemma applyMessage_old m h ef s :
  in_step (epochOf m) s h → seqOf m ≤ s → applyMessage Collection m h ef = Some (h, ef).
Proof.
  intros (Hst & He & Hs & Hms) Hq. unfold applyMessage, seqOf, epochOf in *.
  rewrite He, Hs, Z.eqb_refl. cbn [negb]. by rewrite (proj2 (Z.leb_le _ _)).
Qed.

Definition seq_le (a b : KitMessage) : Prop := seqOf a ≤ seqOf b.

Lemma sortBySeq_sorted l : StronglySorted seq_le (sortBySeq l).
Proof.
  assert (∀ m l, StronglySorted seq_le l → StronglySorted seq_le (insertBySeq m l)) as Hins.
  { clear l. intros m l. induction 1 as [|x l Hl IH Hx]; [by repeat constructor|]. cbn [insertBySeq].
    destruct (Z.leb_spec (h_seq (m_header m)) (h_seq (m_header x))) as [Hle|Hgt].
    - constructor; [by constructor|]. constructor; [done|]. revert Hx. apply Forall_impl.
      intros y Hy. unfold seq_le, seqOf in *. lia.
    - constructor; [done|]. assert (insertBySeq m l ≡ₚ m :: l) as ->.
      { clear. induction l as [|y l IH]; [done|]. cbn [insertBySeq]. case_match; [done|]. rewrite IH. constructor. }
      constructor; [|done]. unfold seq_le, seqOf in *. lia. }
  induction l as [|m l IH]; [constructor|]. by apply Hins.
Qed.

(** Every seq up to [n] arrives, in order, possibly more than once. *)
Lemma applyAll_in_order e n ms s h ef :
  StronglySorted seq_le ms → Forall (λ m, published hub m ∧ epochOf m = e ∧ seqOf m ≤ n) ms →
  s ≤ n → (∀ i, s < i ≤ n → ∃ m, m ∈ ms ∧ seqOf m = i) → in_step e s h →
  ∃ h' ef', applyAll Collection ms h ef = Some (h', ef') ∧ in_step e n h' ∧ ef_resync ef' = ef_resync ef.
Proof.
  intros Hsort Hall. revert s h ef. induction Hsort as [|m ms Hsort IH Hm]; intros s h ef Hn Hcov Hh; cbn [applyAll].
  - assert (s = n) as ->; [|by do 2 eexists].
    destruct (decide (s = n)); [done|]. destruct (Hcov (s + 1)) as (m & Hin & _); [lia|]. by apply not_elem_of_nil in Hin.
  - inversion Hall as [|?? (Hp & <- & Hle) Hall']; subst. destruct (decide (seqOf m ≤ s)) as [Hold|Hnew].
    + rewrite (applyMessage_old m h ef s) by done. cbn [mbind option_bind]. apply (IH Hall' s); try done.
      intros i Hi. destruct (Hcov i Hi) as (m' & [->|Hin]%elem_of_cons & Hq); [lia|by exists m'].
    + assert (seqOf m = s + 1) as Hq.
      { destruct (Hcov (s + 1)) as (m' & [->|Hin]%elem_of_cons & Hq); [lia|done|].
        apply List.Forall_forall with (x := m') in Hm; [|by apply list_elem_of_In]. unfold seq_le in Hm. lia. }
      destruct (applyMessage_next m h ef s Hp Hh Hq) as (h1 & ef1 & -> & Hh1 & <-). cbn [mbind option_bind].
      apply (IH Hall' (seqOf m)); try done. intros i Hi.
      destruct (Hcov i) as (m' & [->|Hin]%elem_of_cons & Hq'); [lia|lia|by exists m'].
Qed.
End CatchUp.

(** A snapshot reply with the messages buffered while it was on its way, in any order and with
    repeats: when they are all the messages after the snapshot, up to [n], the mirror ends at [n]
    with the hub's collection there, says it changed, and asks for nothing more. *)
Theorem synced_catches_up `{JsonText} hub m reply value msg e n :
  mi_shape m = Collection → replyOk reply = true → fromMsgpack writeJson (kr_payload reply) = Some value →
  splitKitMessage value = Some (Some msg) → answered hub msg → epochOf msg = e → seqOf msg ≤ n →
  Forall (λ x, published hub x ∧ epochOf x = e ∧ seqOf x ≤ n) (buffer m) →
  (∀ i, seqOf msg < i ≤ n → ∃ x, x ∈ buffer m ∧ seqOf x = i) →
  ∃ d ef answers, synced reply m = Some d ∧ position (dn_mirror d) = (e, n) ∧
    members (mi_held (dn_mirror d)) = hubState hub e n ∧
    dn_next d = TRun ef :: answers ∧ ef_changed ef = true ∧ ef_resync ef = false.
Proof.
  intros Hshape Hok Hv Hmsg [Hk Hs] <- Hn Hbuf Hcov.
  unfold synced, readSnapshot. rewrite Hok, Hv. cbn [mbind option_bind]. rewrite Hmsg. cbn [mbind option_bind].
  rewrite Hshape, (takeSnapshot_shows _ _ _ Hs). cbn [mbind option_bind].
  destruct (applyAll_in_order hub (epochOf msg) n (sortBySeq (buffer m)) (seqOf msg)
    (mkHeld (state (mi_held m)) (hubState hub (epochOf msg) (seqOf msg)) true (epochOf msg) (seqOf msg)) noEffects)
    as (h & ef & E & (Hst & He & Hq & Hms) & Hr).
  - apply sortBySeq_sorted.
  - by rewrite sortBySeq_perm.
  - done.
  - intros i Hi. setoid_rewrite sortBySeq_perm. by apply Hcov.
  - done.
  - unfold epochOf, seqOf in *. cbn [state at_position epoch seq_]. rewrite E. cbn [mbind option_bind].
    exists (mkDone (set_sync false false [] [] (set_held h m)) (TRun (withChanged ef) :: ((λ w, TAnswer w reply) <$> syncWaiters m)) []).
    exists (withChanged ef), ((λ w, TAnswer w reply) <$> syncWaiters m). unfold position. cbn. by rewrite He, Hq, Hms, Hr.
Qed.
