(* ===== verification/MirrorCalls.v ===== *)
(** * Every callback of a mirror is called once

    The callbacks given to [start] and [resync] of a [TopicMirror], through every interleaving:
    each is called at most once, and once nothing is left to run or to answer, exactly once. The
    runtime may answer anything; the hub is not needed. *)

From S2P Require Import Prelude Bytes Core Json KitProtocol KitThreads Mirror.

Local Open Scope nat_scope.

Definition external (d : KitCallback) : bool := match d with FinishStart => false | _ => true end.
Definition isFinish (d : KitCallback) : bool := negb (external d).

Definition askedIn (log : list Notice) : list KitCallback :=
  omap (λ n, match n with NAsked d => Some d | _ => None end) log.
Definition repliedIn (log : list Notice) : list KitCallback :=
  omap (λ n, match n with NReply d _ => Some d | _ => None end) log.

(** The callbacks given from outside, of a list. *)
Definition outside (l : list KitCallback) : list KitCallback := List.filter external l.

Lemma outside_app l l' : outside (l ++ l') = outside l ++ outside l'.
Proof. apply filter_app. Qed.
#[export] Instance outside_Permutation : Proper ((≡ₚ) ==> (≡ₚ)) outside.
Proof.
  unfold outside. induction 1; cbn; repeat case_match; try done; [by constructor|by constructor|by etrans].
Qed.

(** ** TopicMirror *)

Section Topic.
Context `{JsonText}.

(** The callbacks a task will call or hand on. *)
Definition heldBy (t : Task) : list KitCallback :=
  match t with TResync (Some d) | TStart (Some d) | TAnswer d _ => [d] | _ => [] end.

Definition own (st : Mirror) : list KitCallback := syncWaiters st ++ startWaiters (mi_starter st).

(** The callbacks still to be called. *)
Definition waiting (st : Mirror) (ts : list Task) : list KitCallback := outside (own st ++ (ts ≫= heldBy)).

(** A task on the way from [start] to [finishStart]. *)
Definition chained (t : Task) : bool :=
  match t with
  | TListen | TSubscribe _ | TSubscribed _ | TFinish _ | TResync (Some FinishStart) | TAnswer FinishStart _ => true
  | _ => false
  end.

Definition onTheWay (st : Mirror) (ts : list Task) (u : nat) : nat :=
  count chained ts + u + count isFinish (syncWaiters st).

Definition needsStart (st : Starter) : Prop := starting st = true ∨ startWaiters st ≠ [].

Definition accounted (st : Mirror) (ts : list Task) (c u : nat) (log : list Notice) : Prop :=
  askedIn log ≡ₚ repliedIn log ++ waiting st ts ∧
  count isSync ts + c = (if syncing st then 1 else 0) ∧
  (syncing st = false → syncWaiters st = []) ∧
  (needsStart (mi_starter st) → 1 ≤ onTheWay st ts u).

Lemma accounted_order : up_to_order accounted.
Proof.
  intros st ts ts' c u log Hp (H1 & H2 & H3 & H4). unfold accounted, waiting, onTheWay in *. by rewrite <- Hp.
Qed.

Lemma answers_held r l : ((λ w, TAnswer w r) <$> l) ≫= heldBy = l.
Proof. induction l as [|d l IH]; [done|]. cbn. by rewrite IH. Qed.
Lemma answers_chained r l : count chained ((λ w, TAnswer w r) <$> l) = count isFinish l.
Proof. induction l as [|d l IH]; [done|]. cbn [fmap list_fmap]. rewrite !count_cons, IH. by destruct d. Qed.
Lemma answers_sync r l : count isSync ((λ w, TAnswer w r) <$> l) = 0.
Proof. induction l as [|d l IH]; [done|]. cbn [fmap list_fmap]. by rewrite count_cons, IH. Qed.

Lemma bind_nil {A B} (f : A → list B) l : (∀ x, x ∈ l → f x = []) → l ≫= f = [].
Proof. induction l as [|x l IH]; [done|]. intros Hf. cbn. rewrite (Hf x), IH by set_solver. done. Qed.

(** Tasks that hold no callback, start nothing and call nothing. *)
Definition idle (t : Task) : Prop := heldBy t = [] ∧ chained t = false ∧ isSync t = false.

Lemma idle_all l : Forall idle l → l ≫= heldBy = [] ∧ count chained l = 0 ∧ count isSync l = 0.
Proof.
  intros Hl. rewrite List.Forall_forall in Hl. split_and!.
  - apply bind_nil. intros t Ht. by apply Hl, list_elem_of_In.
  - apply count_none, List.Forall_forall. intros t Ht. by apply Hl.
  - apply count_none, List.Forall_forall. intros t Ht. by apply Hl.
Qed.

Lemma idle_giveBack handle reconnect : Forall idle (giveBack handle reconnect).
Proof. unfold giveBack. apply Forall_app. split; case_match; by repeat constructor. Qed.

Lemma idle_run e m : Forall idle (dn_next (run e m)).
Proof.
  unfold run. cbn [dn_next]. apply List.Forall_forall. intros t Ht%list_elem_of_In. revert Ht.
  rewrite !elem_of_app. intros [Ht|[Ht|[Ht|Ht]]].
  - by apply list_elem_of_fmap in Ht as (? & -> & _).
  - apply list_elem_of_bind in Ht as ([] & (? & -> & _)%list_elem_of_fmap & _). done.
  - apply list_elem_of_bind in Ht as ([] & (? & -> & _)%list_elem_of_fmap & _). done.
  - destruct (ef_resync e); [by apply list_elem_of_singleton in Ht as ->|by apply not_elem_of_nil in Ht].
Qed.

Lemma waiting_app st ts ts' : waiting st (ts ++ ts') ≡ₚ waiting st ts ++ outside (ts' ≫= heldBy).
Proof. unfold waiting. by rewrite bind_app, app_assoc, outside_app. Qed.

(** What one task does to the account: where it leaves the mirror's callbacks, the snapshot call
    and the start. *)
Definition settles (st : Mirror) (t : Task) (d : Done) : Prop :=
  askedIn (dn_notices d) = [] ∧
  outside (own st ++ heldBy t) ≡ₚ repliedIn (dn_notices d) ++ waiting (dn_mirror d) (dn_next d) ∧
  ((if isSync t then syncing st = true else True) →
   count isSync (dn_next d) + count isCall (dn_notices d) + (if syncing st then 1 else 0) =
     (if isSync t then 1 else 0) + (if syncing (dn_mirror d) then 1 else 0)) ∧
  ((syncing st = false → syncWaiters st = []) → syncing (dn_mirror d) = false → syncWaiters (dn_mirror d) = []) ∧
  (needsStart (mi_starter (dn_mirror d)) →
     1 ≤ count chained (dn_next d) ∨
     needsStart (mi_starter st) ∧
     (if chained t then 1 else 0) + count isFinish (syncWaiters st) ≤
       count chained (dn_next d) + count isSubscribe (dn_notices d) + count isFinish (syncWaiters (dn_mirror d))).

(** Tasks that only touch what is held or the listeners. *)
Lemma settles_idle st st' t next ns :
  own st' = own st → syncWaiters st' = syncWaiters st → starting (mi_starter st') = starting (mi_starter st) →
  startWaiters (mi_starter st') = startWaiters (mi_starter st) → syncing st' = syncing st → idle t → Forall idle next →
  askedIn ns = [] → repliedIn ns = [] → count isCall ns = 0 → settles st t (mkDone st' next ns).
Proof.
  intros Ho Hw Hst Hsw Hs (Ht1 & Ht2 & Ht3) (Hn1 & Hn2 & Hn3)%idle_all Ha Hr Hc.
  unfold settles, waiting, needsStart. cbn [dn_mirror dn_next dn_notices].
  rewrite Ha, Hr, Hc, Ho, Hst, Hsw, Hs, Hw, Ht1, Ht2, Ht3, Hn1, Hn2, Hn3. split_and!; try done.
  intros. right. split; [done|]. lia.
Qed.

Lemma settles_push v st d : onPush v st = Some d → settles st (TPush v) d.
Proof.
  unfold onPush. intros ([msg|] & _ & E)%bind_Some; [|by simplify_eq; apply settles_idle].
  destruct (buffering st); [by simplify_eq; apply settles_idle|].
  apply bind_Some in E as ([h e] & _ & [= <-]). apply settles_idle; try done. by repeat constructor.
Qed.

Lemma settles_resync done st : settles st (TResync done) (resync done st).
Proof.
  unfold settles, resync, waiting, own. destruct (syncing st) eqn:Hs; cbn [dn_mirror dn_next dn_notices set_sync syncing syncWaiters mi_starter].
  - split_and!; try done.
    + cbn. rewrite !outside_app. destruct done; cbn; solve_Permutation.
    + intros Hn. right. split; [done|]. destruct done as [d|]; cbn; rewrite ?count_app, ?count_cons; [|lia].
      destruct d; cbn; lia.
  - split_and!; try done.
    + cbn. rewrite !outside_app. destruct done; cbn; solve_Permutation.
    + intros Hn. right. split; [done|]. destruct done as [d|]; cbn; rewrite ?count_app, ?count_cons; [|lia].
      destruct d; cbn; lia.
Qed.

Lemma settles_synced r st d : synced r st = Some d → settles st (TSynced r) d.
Proof.
  intros E. assert (∃ e h r', dn_mirror d = set_sync false false [] [] (set_held h st) ∧
    dn_next d = TRun e :: ((λ w, TAnswer w r') <$> syncWaiters st) ∧ dn_notices d = []) as (e & h & r' & E1 & E2 & E3).
  { unfold synced in E. apply bind_Some in E as ([[msg|] r'] & _ & E); cbn in E; [|simplify_eq; by exists noEffects, (mi_held st), r'].
    apply bind_Some in E as (h & _ & E). apply bind_Some in E as ([h' e] & _ & E). simplify_eq. by exists (withChanged e), h', r'. }
  unfold settles, waiting, own. rewrite E1, E2, E3. cbn [set_sync set_held syncing syncWaiters mi_starter].
  rewrite !count_cons, answers_chained, answers_sync. split_and!; try done.
  - change (TRun e :: ?l) with ([TRun e] ++ l). rewrite bind_app, answers_held. cbn. rewrite !outside_app. cbn. solve_Permutation.
  - cbn. intros ->. done.
  - intros Hn. right. split; [done|]. cbn. lia.
Qed.

Lemma settles_start done st : settles st (TStart done) (start done st).
Proof.
  unfold settles, start, beginStart, waiting, own.
  destruct (started (mi_starter st)); [|destruct (starting (mi_starter st)) eqn:Hs]; cbn [dn_mirror dn_next dn_notices set_starter syncing syncWaiters mi_starter startWaiters].
  - rewrite answers_held, answers_sync, answers_chained. split_and!; try done.
    intros Hn. right. split; [done|]. cbn. lia.
  - split_and!; try done.
    + cbn. rewrite !outside_app. destruct done; cbn; solve_Permutation.
    + intros _. right. split; [by left|]. cbn. lia.
  - split_and!; try done.
    + cbn. rewrite !outside_app. destruct done; cbn; solve_Permutation.
    + intros _. left. done.
Qed.

Lemma settles_finish r st : settles st (TFinish r) (finishStart r st).
Proof.
  unfold settles, finishStart, endStart, waiting, own.
  assert (∀ h re, (giveBack h re ++ ((λ w, TAnswer w r) <$> startWaiters (mi_starter st))) ≫= heldBy = startWaiters (mi_starter st) ∧
    count isSync (giveBack h re ++ ((λ w, TAnswer w r) <$> startWaiters (mi_starter st))) = 0) as Hg.
  { intros h re. destruct (idle_all _ (idle_giveBack h re)) as (G1 & _ & G3).
    by rewrite bind_app, G1, answers_held, count_app, G3, answers_sync. }
  destruct (replyOk r); cbn [dn_mirror dn_next dn_notices set_starter syncing syncWaiters mi_starter startWaiters];
    edestruct Hg as [Hg1 Hg2]; rewrite Hg1, Hg2; split_and!; try done; try (by intros [?|?]);
    cbn; rewrite !app_nil_r; done.
Qed.

Lemma settles_stop st : settles st TStop (stop st).
Proof.
  unfold settles, stop, endStop, waiting, own.
  destruct (idle_all _ (idle_giveBack (subHandle (mi_starter st)) (reconnectId (mi_starter st)))) as (G1 & G2 & G3).
  cbn [dn_mirror dn_next dn_notices set_starter syncing syncWaiters mi_starter startWaiters]. rewrite G1, G2, G3.
  split_and!; try done. intros [?|Hn]; [done|]. right. split; [by right|]. cbn. lia.
Qed.

Lemma perform_settles g t st d : perform g t st = Some d → settles st t d.
Proof.
  intros E. destruct t; cbn in E; simplify_eq.
  - by apply settles_push.
  - pose proof (idle_run e st) as Hi. change (run e st) with (mkDone st (dn_next (run e st)) []). by apply settles_idle.
  - by apply settles_idle.
  - apply settles_resync.
  - unfold settles. cbn. split_and!; try done. intros. right. split; [done|lia].
  - by apply settles_synced.
  - apply settles_start.
  - unfold settles. cbn. split_and!; try done. intros. by left.
  - unfold settles. cbn. split_and!; try done. intros. right. split; [done|]. cbn. lia.
  - by apply settles_idle.
  - unfold settles, subscribed, waiting. cbn [dn_mirror dn_next dn_notices]. rewrite !outside_app.
    destruct (replyOk reply); cbn; split_and!; try done; intros; by left.
  - destruct done; cbn; unfold settles, waiting, own; cbn; rewrite ?outside_app; cbn; split_and!; try done;
      try solve_Permutation; intros; (by left) || (right; split; [done|lia]).
  - apply settles_finish.
  - apply settles_stop.
  - by destruct kind; apply settles_idle.
  - by apply settles_idle.
Qed.

Lemma accounted_spawn t st ts c c' u u' log ns :
  accounted st ts c u log → (if isSync t then 1 else 0) + c' = c → askedIn ns = outside (heldBy t) → repliedIn ns = [] →
  u ≤ (if chained t then 1 else 0) + u' → accounted st (t :: ts) c' u' (log ++ ns).
Proof.
  intros (H1 & H2 & H3 & H4) Ht Ha Hr Hu. unfold accounted, onTheWay, askedIn, repliedIn in *.
  rewrite !omap_app, Ha, Hr, !count_cons. split_and!; try done.
  - rewrite app_nil_r, H1. change (t :: ts) with ([t] ++ ts). unfold waiting.
    rewrite bind_app, !outside_app. cbn. rewrite app_nil_r. solve_Permutation.
  - lia.
  - intros Hn%H4. lia.
Qed.

Lemma accounted_perform g t st ts c u log d :
  accounted st (t :: ts) c u log → perform g t st = Some d →
  accounted (dn_mirror d) (dn_next d ++ ts) (c + count isCall (dn_notices d)) (u + count isSubscribe (dn_notices d))
    (log ++ dn_notices d).
Proof.
  intros (H1 & H2 & H3 & H4) (S1 & S2 & S3 & S4 & S5)%perform_settles.
  rewrite count_cons in H2. unfold accounted, onTheWay in *. rewrite count_cons in H4.
  assert (askedIn (log ++ dn_notices d) = askedIn log) as -> by (unfold askedIn in *; by rewrite omap_app, S1, app_nil_r).
  assert (repliedIn (log ++ dn_notices d) = repliedIn log ++ repliedIn (dn_notices d)) as -> by apply omap_app.
  split_and!.
  - rewrite H1, waiting_app, <- app_assoc. f_equiv. rewrite app_assoc, <- S2. unfold waiting.
    change (t :: ts) with ([t] ++ ts). rewrite bind_app, !outside_app. cbn. rewrite app_nil_r. solve_Permutation.
  - rewrite count_app. assert (if isSync t then syncing st = true else True) as Hs by (destruct (isSync t), (syncing st); lia || done).
    specialize (S3 Hs). destruct (isSync t), (syncing st), (syncing (dn_mirror d)); lia || done.
  - by apply S4.
  - rewrite count_app. intros [?|[Hn ?]]%S5; [lia|]. specialize (H4 Hn). lia.
Qed.

Lemma accounted_keeps : keeps (λ _, True) accounted.
Proof.
  unfold keeps. split_and!.
  - intros t st ts c u log Ha _ Ht.
    eapply accounted_spawn; [exact Ha|by destruct t| | |lia];
      destruct t as [| | |[[]|]| | |[[]|]| | | | | | | | |]; done.
  - intros r st ts c u log Ha _. by eapply accounted_spawn.
  - intros r st ts c u log Ha _. by eapply accounted_spawn.
  - intros i g t st ts c u log st' next ns Ha _ E. cbn [perform_ mirrorMachine] in E.
    apply bind_Some in E as (d & E & [= <- <- <-]). by eapply accounted_perform.
Qed.
End Topic.

(** C32. Every callback given to [start] or [resync] is called at most once, whatever the threads, the
    runtime and the hub do; with no task left to run, no call and no subscription unanswered, each
    has been called exactly once. *)
Theorem mirror_callbacks_once `{JsonText} nodeType shape s :
  reachable (λ _, True) (newMirror nodeType shape) s →
  askedIn (sy_log s) ≡ₚ repliedIn (sy_log s) ++ waiting (sy_state s) (tasks s) ∧
  (tasks s = [] → sy_calls s = 0 → sy_subscriptions s = 0 → askedIn (sy_log s) ≡ₚ repliedIn (sy_log s)).
Proof.
  intros Hr. assert (accounted (sy_state s) (tasks s) (sy_calls s) (sy_subscriptions s) (sy_log s)) as (H1 & H2 & H3 & H4).
  { eapply threads_invariant; [apply accounted_order|apply accounted_keeps| |exact Hr].
    unfold accounted. cbn. split_and!; try done. by intros [?|?]. }
  split; [done|]. intros Ht Hc Hu. rewrite Ht, Hc in H2. rewrite H1.
  assert (syncWaiters (sy_state s) = []) as Hw by (apply H3; destruct (syncing _); done).
  unfold onTheWay in H4. rewrite Ht, Hu, Hw in H4. unfold waiting, own. rewrite Ht, Hw.
  assert (startWaiters (mi_starter (sy_state s)) = []) as ->.
  { destruct (startWaiters _) eqn:E; [done|]. assert (1 ≤ 0)%nat; [|lia]. apply H4. right. by rewrite E. }
  by rewrite app_nil_r.
Qed.
