(* ===== verification/PrivateSpec.v ===== *)
(** * Private state is read after it is asked for

    [PrivateState] reads one value at a time and shares a read among the callers that wait for it.
    Through every interleaving, a caller of [refresh] is answered with a read that was called after
    it asked. *)

From S2P Require Import Prelude Bytes Core Json KitProtocol KitThreads Mirror PrivateState.

Local Open Scope nat_scope.

Definition isGot (n : Notice) : bool := match n with NGot _ => true | _ => false end.
(** No read is called or answered in it. *)
Definition calm (l : list Notice) : Prop := Forall (λ n, isCall n = false ∧ isGot n = false) l.

(** [w] asked, then the read was called that nothing answered yet. *)
Definition asked_read (w : Z) (log : list Notice) : Prop :=
  ∃ l1 l2, log = l1 ++ NCall :: l2 ∧ NAsked (Caller w) ∈ l1 ∧ calm l2.
(** [w] asked, then a read was called, and [r] is its answer. *)
Definition fresh_reply (w : Z) (r : KitReply) (log : list Notice) : Prop :=
  ∃ l1 l2 l3, log = l1 ++ NCall :: l2 ++ NGot r :: l3 ∧ NAsked (Caller w) ∈ l1 ∧ calm l2.

Lemma asked_read_app w log ns : calm ns → asked_read w log → asked_read w (log ++ ns).
Proof.
  intros Hns (l1 & l2 & -> & Hw & Hl). exists l1, (l2 ++ ns). split_and!; [by rewrite <- app_assoc|done|].
  by apply Forall_app.
Qed.
Lemma fresh_reply_app w r log ns : fresh_reply w r log → fresh_reply w r (log ++ ns).
Proof.
  intros (l1 & l2 & l3 & -> & Hw & Hl). exists l1, l2, (l3 ++ ns). split_and!; [|done|done].
  by rewrite <- !app_assoc, <- !app_comm_cons, <- !app_assoc.
Qed.
Lemma asked_read_got w r log : asked_read w log → fresh_reply w r (log ++ [NGot r]).
Proof. intros (l1 & l2 & -> & Hw & Hl). exists l1, l2, []. by rewrite <- app_assoc. Qed.
Lemma asked_read_call w log : NAsked (Caller w) ∈ log → asked_read w (log ++ [NCall]).
Proof. intros Hw. exists log, []. split_and!; [done|done|constructor]. Qed.

Section Reads.
Context `{JsonText}.

Definition isRead (t : Task) : bool := match t with TReadOnce | TRead | TReadDone _ => true | _ => false end.

Lemma no_readDone r ts : count isRead ts = 0 → TReadDone r ∉ ts.
Proof. intros Hc (l1 & l2 & ->)%list_elem_of_split. rewrite count_app, count_cons in Hc. cbn in Hc. lia. Qed.

(** What a task relies on; [w] is a caller of [refresh]. *)
Definition task_fresh (log : list Notice) (t : Task) : Prop :=
  match t with
  | TRefresh (Some (Caller w)) => NAsked (Caller w) ∈ log
  | TAnswer (Caller w) r => fresh_reply w r log
  | TStart (Some (Starting _)) | TStart None => True
  | TStart (Some _) => False
  | _ => True
  end.

Definition isStarting (d : KitCallback) : Prop := match d with Starting _ => True | _ => False end.

(** What holds for the callers that wait, by how far the read on the way is. *)
Definition read_stage (p : PrivateCore) (ts : list Task) (c : nat) (log : list Notice) (w : Z) : Prop :=
  NAsked (Caller w) ∈ log ∧
  (again p = false → (c = 1 → asked_read w log) ∧ ∀ r, TReadDone r ∈ ts → fresh_reply w r log).

Definition fresh (p : PrivateCore) (ts : list Task) (c u : nat) (log : list Notice) : Prop :=
  count isRead ts + c = (if reading p then 1 else 0) ∧
  Forall (task_fresh log) ts ∧ Forall isStarting (startWaiters (pv_starter p)) ∧
  (reading p = false → pv_waiters p = []) ∧
  (∀ w, Caller w ∈ pv_waiters p → read_stage p ts c log w) ∧
  (∀ l w r l', log = l ++ NReply (Caller w) r :: l' → fresh_reply w r l).

Lemma fresh_order : up_to_order fresh.
Proof.
  intros p ts ts' c u log Hp (H1 & H2 & H3 & H5 & H6 & H7). unfold fresh, read_stage in *.
  split_and!; try done; [by rewrite <- Hp|by rewrite <- Hp|]. intros w Hw. destruct (H6 w Hw) as [Ha Hs].
  split; [done|]. intros E. destruct (Hs E) as [Hs1 Hs2]. split; [done|]. intros r. rewrite <- Hp. apply Hs2.
Qed.

Lemma task_fresh_app log ns t : task_fresh log t → task_fresh (log ++ ns) t.
Proof.
  destruct t as [| | |[[]|]| | | |[[]|]| | | | |[] | | | |]; try done; cbn; [set_solver|apply fresh_reply_app].
Qed.

(** The replies logged so far stay fresh when fresh ones are added. *)
Lemma replies_app log ns :
  (∀ w r, NReply (Caller w) r ∈ ns → fresh_reply w r log) →
  (∀ l w r l', log = l ++ NReply (Caller w) r :: l' → fresh_reply w r l) →
  ∀ l w r l', log ++ ns = l ++ NReply (Caller w) r :: l' → fresh_reply w r l.
Proof.
  intros Hns Hlog l w r l' E. apply app_eq_inv in E as [(k & -> & E)|(k & -> & E)].
  - destruct k as [|n k]; cbn in E; simplify_eq.
    + rewrite app_nil_r in Hns. apply Hns. by left.
    + by eapply Hlog.
  - apply fresh_reply_app, Hns. rewrite E. apply elem_of_app. right. by left.
Qed.

(** Tasks that touch neither the reads nor the callbacks that wait, and log no read. *)
Lemma fresh_step p p' t ts next c u u' log ns :
  fresh p (t :: ts) c u log → isRead t = false → Forall (λ t, isRead t = false ∧ task_fresh log t) next →
  reading p' = reading p → again p' = again p → pv_waiters p' = pv_waiters p →
  Forall isStarting (startWaiters (pv_starter p')) → calm ns →
  (∀ w r, NReply (Caller w) r ∈ ns → fresh_reply w r log) →
  fresh p' (next ++ ts) (c + count isCall ns) u' (log ++ ns).
Proof.
  intros (H1 & H2 & H3 & H5 & H6 & H7) Ht Hnext Er Ea Ew Hst Hns Hrep.
  assert (count isCall ns = 0) as -> by (apply count_none; revert Hns; apply Forall_impl; tauto). rewrite Nat.add_0_r.
  rewrite count_cons, Ht in H1. inversion H2 as [|?? _ H2']; subst.
  unfold fresh, read_stage in *. rewrite Er, Ea, Ew. split_and!; try done.
  - rewrite count_app, (count_none _ next); [done|]. revert Hnext. apply Forall_impl. tauto.
  - apply Forall_app. split; [revert Hnext|revert H2']; apply Forall_impl.
    + intros t' [_ Hf]. by apply task_fresh_app.
    + intros t'. apply task_fresh_app.
  - intros w Hw. destruct (H6 w Hw) as [Ha Hs]. split; [set_solver|]. intros E. destruct (Hs E) as [Hs1 Hs2]. split.
    + intros Hc. by apply asked_read_app, Hs1.
    + intros r [Hin|Hin]%elem_of_app; [|apply fresh_reply_app, Hs2; by right].
      rewrite List.Forall_forall in Hnext. apply list_elem_of_In, Hnext in Hin as [? _]. done.
  - by apply replies_app.
Qed.

(** Tasks that come from outside or hand nothing on. *)
Lemma fresh_spawn t p ts c u u' log ns :
  fresh p ts c u log → isRead t = false → task_fresh (log ++ ns) t → calm ns → (∀ w r, NReply (Caller w) r ∉ ns) →
  fresh p (t :: ts) c u' (log ++ ns).
Proof.
  intros (H1 & H2 & H3 & H5 & H6 & H7) Ht Hf Hns Hrep. unfold fresh, read_stage in *. rewrite count_cons, Ht.
  split_and!; try done.
  - constructor; [done|]. revert H2. apply Forall_impl. intros t'. apply task_fresh_app.
  - intros w Hw. destruct (H6 w Hw) as [Ha Hs]. split; [set_solver|]. intros E. destruct (Hs E) as [Hs1 Hs2]. split.
    + intros Hc. by apply asked_read_app, Hs1.
    + intros r [<-|Hin]%elem_of_cons; [done|]. by apply fresh_reply_app, Hs2.
  - apply replies_app; [|done]. intros w r Hin. by destruct (Hrep w r).
Qed.

Lemma fresh_got r p ts c u log : fresh p ts (S c) u log → fresh p (TReadDone r :: ts) c u (log ++ [NGot r]).
Proof.
  intros (H1 & H2 & H3 & H5 & H6 & H7).
  assert (reading p = true ∧ c = 0 ∧ count isRead ts = 0) as (Hr & -> & Hc) by (destruct (reading p); lia).
  unfold fresh, read_stage in *. rewrite count_cons, Hc, Hr in *. split_and!; try done.
  - constructor; [done|]. revert H2. apply Forall_impl. intros t'. apply task_fresh_app.
  - intros w Hw. destruct (H6 w Hw) as [Ha Hs]. split; [set_solver|]. intros E. destruct (Hs E) as [Hs1 _].
    split; [done|]. intros r' [[= ->]|Hin]%elem_of_cons; [by apply asked_read_got, Hs1|].
    apply no_readDone in Hin; [done|lia].
  - apply replies_app; [|done]. intros w r' Hin. by apply list_elem_of_singleton in Hin.
Qed.

Lemma fresh_called p ts c u log : fresh p (TRead :: ts) c u log → fresh p ts (c + 1) u (log ++ [NCall]).
Proof.
  intros (H1 & H2 & H3 & H5 & H6 & H7). rewrite count_cons in H1. cbn [isRead] in H1.
  assert (reading p = true ∧ c = 0 ∧ count isRead ts = 0) as (Hr & -> & Hc) by (destruct (reading p); lia).
  inversion H2 as [|?? _ H2']; subst. unfold fresh, read_stage in *. rewrite Hc, Hr in *. split_and!; try done.
  - revert H2'. apply Forall_impl. intros t'. apply task_fresh_app.
  - intros w Hw. destruct (H6 w Hw) as [Ha Hs]. split; [set_solver|]. intros E. split; [intros _; by apply asked_read_call|].
    intros r Hin. apply no_readDone in Hin; [done|lia].
  - apply replies_app; [|done]. intros w r' Hin. by apply list_elem_of_singleton in Hin.
Qed.

Lemma fresh_readOnce p ts c u log :
  fresh p (TReadOnce :: ts) c u log → fresh (set_reading (reading p) false (pv_waiters p) p) (TRead :: ts) c u log.
Proof.
  intros (H1 & H2 & H3 & H5 & H6 & H7). rewrite count_cons in H1. cbn [isRead] in H1.
  assert (reading p = true ∧ c = 0 ∧ count isRead ts = 0) as (Hr & -> & Hc) by (destruct (reading p); lia).
  inversion H2 as [|?? _ H2']; subst. unfold fresh, read_stage in *. cbn. rewrite Hr in *. split_and!; try done.
  - by constructor.
  - intros w Hw. destruct (H6 w Hw) as [Ha _]. split; [done|]. intros _. split; [done|].
    intros r [?|Hin]%elem_of_cons; [done|].
    apply no_readDone in Hin; [done|lia].
Qed.

Lemma fresh_refresh done p ts c u log :
  fresh p (TRefresh done :: ts) c u log →
  fresh (dn_private (refresh done p)) (dn_next (refresh done p) ++ ts) c u log.
Proof.
  intros (H1 & H2 & H3 & H5 & H6 & H7). rewrite count_cons in H1. cbn [isRead] in H1.
  inversion H2 as [|?? Hd H2']; subst.
  assert (∀ w, Caller w ∈ pv_waiters p ++ option_list done → NAsked (Caller w) ∈ log) as Hin.
  { intros w [Hw'|Hw']%elem_of_app; [by apply H6|]. destruct done as [d|]; [|by apply not_elem_of_nil in Hw'].
    apply list_elem_of_singleton in Hw' as <-. done. }
  unfold refresh. destruct (reading p) eqn:Hr; cbn [dn_private dn_next]; unfold fresh, read_stage; cbn; split_and!; try done.
  - intros w Hw'. split; [by apply Hin|done].
  - unfold count in H1. lia.
  - by constructor.
  - intros w Hw'. split; [by apply Hin|]. intros _. split; [intros; lia|].
    intros r [?|Hr']%elem_of_cons; [done|].
    exfalso. apply list_elem_of_split in Hr' as (l1 & l2 & ->). rewrite count_app, count_cons in H1. cbn in H1. lia.
Qed.

Lemma fresh_readDone r p ts c u log d :
  fresh p (TReadDone r :: ts) c u log → readDone r p = Some d →
  fresh (dn_private d) (dn_next d ++ ts) c u log ∧ dn_notices d = [].
Proof.
  intros Hf E. pose proof Hf as (H1 & H2 & H3 & H5 & H6 & H7). rewrite count_cons in H1. cbn [isRead] in H1.
  assert (reading p = true ∧ c = 0 ∧ count isRead ts = 0) as (Hr & -> & Hc) by (destruct (reading p); lia).
  inversion H2 as [|?? _ H2']; subst. unfold readDone in E. destruct (again p) eqn:Ha; simplify_eq; cbn [dn_private dn_next dn_notices].
  { split; [|done]. unfold fresh, read_stage in *. cbn [app]. rewrite count_cons, Hr, Hc, Ha. split_and!; try done; [by constructor|].
    intros w Hw. split; [by apply H6|done]. }
  assert (∃ told v, dn_private d = set_value v (set_reading false false [] p) ∧
    dn_next d = ((λ x, TTell x) <$> told) ++ ((λ w, TAnswer w r) <$> pv_waiters p) ∧ dn_notices d = []) as (told & v & E1 & E2 & E3).
  { destruct (replyOk r); [|simplify_eq; by exists [], (pv_value p)].
    apply bind_Some in E as (v & _ & [= <-]). exists (ToldChange <$> pv_listeners p), v. by rewrite <- list_fmap_compose. }
  rewrite E1, E2, E3. split; [|done]. unfold fresh, read_stage. cbn. split_and!; try done.
  - rewrite !count_app, Hc, (count_none _ (_ <$> told)), (count_none _ (_ <$> pv_waiters p)); [done| |];
      apply Forall_fmap, Forall_true; done.
  - rewrite <- app_assoc. apply Forall_app. split; [by apply Forall_fmap, Forall_true|]. apply Forall_app. split; [|done].
    apply Forall_fmap, List.Forall_forall. intros [w|w|] Hw; try done; cbn.
    apply list_elem_of_In in Hw. destruct (H6 w Hw) as [_ Hs]. apply (Hs Ha). by left.
  - intros w Hw. by apply not_elem_of_nil in Hw.
Qed.

Lemma startWaiters_begin done st :
  Forall isStarting (startWaiters st) → (∀ d, done = Some d → isStarting d) →
  Forall isStarting (startWaiters (beginStart done st).2).
Proof.
  intros Hst Hd. unfold beginStart. destruct (started st); [done|].
  assert (Forall isStarting (startWaiters st ++ option_list done)).
  { apply Forall_app. split; [done|]. destruct done; [|done]. constructor; [by apply Hd|done]. }
  by destruct (starting st).
Qed.

Lemma answers_fresh log r l : Forall isStarting l → Forall (λ t, isRead t = false ∧ task_fresh log t) ((λ w, TAnswer w r) <$> l).
Proof. intros Hl. apply Forall_fmap. revert Hl. apply Forall_impl. by intros []. Qed.

Ltac quiet_step :=
  eapply fresh_step; try done;
  try (by repeat constructor); try (by intros ?? ?%not_elem_of_nil); try (by intros ?? ?%list_elem_of_singleton).

Lemma fresh_start done p ts c u u' log :
  fresh p (TStart done :: ts) c u log →
  fresh (dn_private (start done p)) (dn_next (start done p) ++ ts) (c + count isCall (dn_notices (start done p))) u'
    (log ++ dn_notices (start done p)).
Proof.
  intros Hf. pose proof Hf as (_ & H2 & H3 & _). inversion H2 as [|?? Ht _]; subst. unfold start.
  pose proof (startWaiters_begin done _ H3) as Hb.
  destruct (beginStart done (pv_starter p)) as [[had go] st]. cbn [snd] in Hb.
  assert (∀ d, done = Some d → isStarting d) as Hd by (intros d ->; by destruct d).
  destruct had; cbn [dn_private dn_next dn_notices].
  - quiet_step. apply answers_fresh. destruct done; [|done]. by constructor; [apply Hd|].
  - quiet_step; [|by apply Hb]. destruct go; by repeat constructor.
Qed.

Lemma giveBack_fresh log h re : Forall (λ t, isRead t = false ∧ task_fresh log t) (giveBack h re).
Proof. unfold giveBack. apply Forall_app. split; case_match; by repeat constructor. Qed.

Lemma fresh_finish r p ts c u u' log :
  fresh p (TFinish r :: ts) c u log →
  fresh (dn_private (finishStart r p)) (dn_next (finishStart r p) ++ ts) (c + count isCall (dn_notices (finishStart r p))) u'
    (log ++ dn_notices (finishStart r p)).
Proof.
  intros Hf. pose proof Hf as (_ & _ & H3 & _). unfold finishStart, endStart.
  destruct (replyOk r); cbn [dn_private dn_next dn_notices]; quiet_step;
    (apply Forall_app; split; [apply giveBack_fresh|by apply answers_fresh]).
Qed.

Lemma fresh_perform g me t p ts c u log d :
  fresh p (t :: ts) c u log → perform g me t p = Some d →
  ∀ u', fresh (dn_private d) (dn_next d ++ ts) (c + count isCall (dn_notices d)) u' (log ++ dn_notices d).
Proof.
  intros Hf E u'. pose proof Hf as (_ & H2 & H3 & _). inversion H2 as [|?? Ht _]; subst.
  destruct t; cbn in E; simplify_eq; try by quiet_step.
  - assert (∃ next, d = mkDone p next [] ∧ (next = [] ∨ ∃ who, next = [TMe who])) as (next & -> & Hn).
    { unfold onPush in E. apply bind_Some in E as (msg & _ & [= <-]). repeat case_match; eexists; split; eauto. }
    quiet_step. destruct Hn as [-> | [who ->]]; by repeat constructor.
  - quiet_step. cbn. case_match; by repeat constructor.
  - assert (dn_notices (refresh done p) = []) as -> by (unfold refresh; by destruct (reading p)).
    rewrite Nat.add_0_r, app_nil_r. by apply fresh_refresh with (u := u').
  - rewrite Nat.add_0_r, app_nil_r. by apply (fresh_readOnce _ _ _ u).
  - by apply (fresh_called _ _ _ u).
  - destruct (fresh_readDone _ _ _ _ u' _ _ Hf E) as [? ->]. by rewrite Nat.add_0_r, app_nil_r.
  - by eapply fresh_start.
  - quiet_step. cbn. unfold subscribed. case_match; by repeat constructor.
  - destruct done as [w|w|]; cbn [answer dn_private dn_next dn_notices]; quiet_step.
    by intros w' r' [= -> ->]%list_elem_of_singleton.
  - by eapply fresh_finish.
  - unfold stop, endStop. cbn [dn_private dn_next dn_notices]. quiet_step. apply giveBack_fresh.
Qed.

Lemma fresh_keeps : keeps (λ _, True) fresh.
Proof.
  unfold keeps. split_and!.
  - intros t st ts c u log Hf _ Ht. eapply fresh_spawn; [exact Hf|by destruct t| | |].
    + destruct t as [| | |[[]|]| | | |[[]|]| | | | | | | | |]; try done. cbn. apply elem_of_app. right. by left.
    + apply Forall_fmap, Forall_true. done.
    + by intros w r (? & ? & _)%list_elem_of_fmap.
  - intros r st ts c u log Hf _. by apply fresh_got.
  - intros r st ts c u log Hf _. eapply fresh_spawn; [exact Hf|done|done|by repeat constructor|].
    by intros w r' ?%list_elem_of_singleton.
  - intros i [g me] t st ts c u log st' next ns Hf _ E. cbn [perform_ privateMachine] in E.
    apply bind_Some in E as (d & E & [= <- <- <-]). by eapply fresh_perform.
Qed.
End Reads.

(** C33. At most one read is on its way, and a caller of [refresh] is answered with the reply of a read
    that was called after it asked, whatever the threads, the pushes and the reads do. *)
Theorem private_reads_fresh `{JsonText} whats s :
  reachable (λ _, True) (newPrivate whats) s →
  sy_calls s + count isRead (tasks s) = (if reading (sy_state s) then 1 else 0) ∧
  (reading (sy_state s) = false → pv_waiters (sy_state s) = []) ∧
  ∀ before w reply later, sy_log s = before ++ NReply (Caller w) reply :: later → fresh_reply w reply before.
Proof.
  intros Hr. assert (fresh (sy_state s) (tasks s) (sy_calls s) (sy_subscriptions s) (sy_log s)) as (H1 & _ & _ & H5 & _ & H7).
  { eapply threads_invariant; [apply fresh_order|apply fresh_keeps| |exact Hr].
    unfold fresh. cbn. split_and!; try done; [by intros ? ?%not_elem_of_nil|]. by intros [] *. }
  split_and!; [lia|done|done].
Qed.
