(* ===== verification/KitRuns.v ===== *)
(** * Runs of the kit's mirrors

    A hub with one epoch and runs of a mirror against it: the theorems of [MirrorSpec.v],
    [MirrorCalls.v], [PrivateSpec.v] and [KitProtocol.v] at concrete inputs, and two runs in which
    the code gets it wrong. JSON text is read and written by the reference reader of [Json.v]. *)

From S2P Require Import Prelude Bytes Core Json ExecWire KitProtocol KitThreads PrivateState PrivateSpec Mirror MirrorSpec MirrorCalls.

Open Scope Z_scope.

Module KitDemo.

Fixpoint jsonOf (v : JVal) : Json :=
  match v with
  | VNull => JNull | VBool b => JBool b | VInt i => if 0 <=? i then JUint i else JSint i
  | VDouble bits => JReal bits | VStr s => JStr s
  | VArr l => JArr (jsonOf <$> l) | VObj l => JObj ((λ m, (m.1, jsonOf m.2)) <$> l)
  end.
Fixpoint valOf (v : Json) : JVal :=
  match v with
  | JNull => VNull | JBool b => VBool b | JUint i | JSint i => VInt i
  | JReal bits => VDouble bits | JStr s => VStr s
  | JArr l => VArr (valOf <$> l) | JObj l => VObj ((λ m, (m.1, valOf m.2)) <$> l)
  end.

#[export] Instance demoText : JsonText := {|
  parseJson text := match readText 400 text with Some (v, []) => Some (jsonOf v) | _ => None end;
  writeJson v := Some (dump (λ _, []) (valOf v));
  formatDouble _ := [] |}.

(** ** The hub *)

Definition props (hp : Z) : Json := JObj [(chars "hp", JUint hp)].
Definition mob (id hp : Z) : KitContainer := mkContainer id (chars "mob") (Some (props hp)).

Definition hub : Hub :=
  mkHub (λ _, 0) (λ _, ∅) (λ e, if e =? 5 then [Put (mob 7 3); Put (mob 8 9); Drop 7; Put (mob 9 1); Put (mob 8 2)] else []).

Definition header (s : Z) (kind : bytes) : list (bytes * Json) :=
  [(chars "v", JUint 1); (chars "epoch", JUint 5); (chars "seq", JUint s); (chars "kind", JStr kind)].
Definition container (k : KitContainer) : Json :=
  JObj [(chars "id", JUint (kc_id k)); (chars "type_name", JStr (kc_typeName k)); (chars "props", default JNull (kc_props k))].
Definition put (s : Z) (k : KitContainer) : View :=
  Some (JObj (header s (chars "delta") ++ match container k with JObj l => l | _ => [] end)).
Definition snapshot (s : Z) (ks : list KitContainer) : View :=
  Some (JObj (header s (chars "snapshot") ++ [(chars "containers", JArr (container <$> ks))])).

Definition good_answer (v : View) : KitReply := mkReply ExecOk (toMsgpack v) None.
Definition failure : KitReply := mkReply Unavailable [] None.
Definition did (n : nat) (thread : nat) : list (Move Task Z) := replicate n (MPerform thread 4).

Definition begin_ : System Mirror Task := mkSystem (newMirror (chars "area") Collection) [] 0 0 [].

(** [start]; while the first snapshot is on its way, messages 2 and 1 arrive, in that order. *)
Definition started_run : list (Move Task Z) :=
  [MEnter (TStart (Some (Starting 1)))] ++ did 4 0 ++ [MSubscribed (good_answer None)] ++ did 3 1 ++
  [MEnter (TPush (put 2 (mob 8 9)))] ++ did 1 2 ++ [MEnter (TPush (put 1 (mob 7 3)))] ++ did 1 3 ++
  [MReply (good_answer (snapshot 0 []))] ++ did 5 4.

(** Message 3 is lost; 4 makes the mirror ask again. *)
Definition gap_run : list (Move Task Z) :=
  started_run ++ [MEnter (TPush (put 4 (mob 9 1)))] ++ did 4 5.
Definition whole_run : list (Move Task Z) :=
  gap_run ++ [MReply (good_answer (snapshot 4 [mob 8 9; mob 9 1]))] ++ did 2 6.

Definition after (run : list (Move Task Z)) : System Mirror Task := default begin_ (moves run begin_).


Lemma shows_containers body ks :
  field body (chars "containers") = Some (JArr (container <$> ks)) →
  Forall2 describes (container <$> ks) ks → NoDup (kc_id <$> ks) → shows body (byId ks).
Proof. intros Hf Hks Hnd. by exists (container <$> ks), ks. Qed.

Ltac is_snapshot ks :=
  intros _; eexists; split; [vm_compute; reflexivity|]; right; eexists; split; [vm_compute; reflexivity|];
  split; [unfold known; cbn; lia|];
  match goal with |- shows _ ?st => replace st with (byId ks) by (vm_compute; reflexivity) end;
  apply shows_containers; [reflexivity|repeat constructor|apply (bool_decide_unpack _); vm_compute; exact I].

Lemma answer0 : reply_ok hub (good_answer (snapshot 0 [])).
Proof. is_snapshot (@nil KitContainer). Qed.
Lemma answer4 : reply_ok hub (good_answer (snapshot 4 [mob 8 9; mob 9 1])).
Proof. is_snapshot [mob 8 9; mob 9 1]. Qed.
Lemma failed : reply_ok hub failure.
Proof. done. Qed.

Ltac is_put :=
  right; eexists; split; [vm_compute; reflexivity|];
  unfold published, known; split; [cbn; lia|]; split; [cbn; lia|];
  eexists; split; [reflexivity|]; cbn; repeat split; left; done.

Lemma put1 : push_ok hub (put 1 (mob 7 3)). Proof. is_put. Qed.
Lemma put2 : push_ok hub (put 2 (mob 8 9)). Proof. is_put. Qed.
Lemma put4 : push_ok hub (put 4 (mob 9 1)). Proof. is_put. Qed.
Lemma put5 : push_ok hub (put 5 (mob 8 2)). Proof. is_put. Qed.

(** The moves of a run, each by its reason. *)
Lemma did_faithful n i : Forall (faithful hub) (did n i).
Proof. by apply Forall_replicate. Qed.

Lemma started_faithful : Forall (faithful hub) started_run.
Proof.
  unfold started_run. repeat (apply Forall_app; split); try apply did_faithful; (constructor; [|done]); try done.
  - apply put2. - apply put1. - apply answer0.
Qed.
Lemma gap_faithful : Forall (faithful hub) gap_run.
Proof.
  apply Forall_app; split; [apply started_faithful|]. apply Forall_app; split; [|apply did_faithful].
  constructor; [apply put4|done].
Qed.
Lemma whole_faithful : Forall (faithful hub) whole_run.
Proof.
  apply Forall_app; split; [apply gap_faithful|]. apply Forall_app; split; [|apply did_faithful].
  constructor; [apply answer4|done].
Qed.

Lemma reached run : Forall (faithful hub) run → is_Some (moves run begin_) →
  reachable (faithful hub) (newMirror (chars "area") Collection) (after run).
Proof.
  intros Hf [s E]. unfold after. rewrite E. eapply reachable_run; [|exact Hf|exact E]. constructor.
Qed.
End KitDemo.
Import KitDemo.

Lemma collection_mirrors_hub_witness :
  Forall (faithful hub) whole_run ∧ is_Some (moves whole_run begin_) ∧
  position (sy_state (after whole_run)) = (5, 4) ∧ mirrors hub (mi_held (sy_state (after whole_run))).
Proof.
  split; [apply whole_faithful|]. split; [vm_compute; by eexists|]. split; [vm_compute; reflexivity|].
  apply (collection_mirrors_hub hub (chars "area") (after whole_run)).
  - apply reached; [apply whole_faithful|vm_compute; by eexists].
  - vm_compute. reflexivity.
  - vm_compute. reflexivity.
  - vm_compute. reflexivity.
Defined.

(** Messages 2 and 1 are buffered, in that order, when the snapshot of seq 0 arrives. *)
Definition waitingMirror : Mirror := sy_state (after (take 14 started_run)).

Lemma synced_catches_up_witness :
  seqOf <$> buffer waitingMirror = [2; 1] ∧
  ∃ d ef answers, synced (good_answer (snapshot 0 [])) waitingMirror = Some d ∧ position (dn_mirror d) = (5, 2) ∧
    members (mi_held (dn_mirror d)) = hubState hub 5 2 ∧
    dn_next d = TRun ef :: answers ∧ ef_changed ef = true ∧ ef_resync ef = false.
Proof.
  split; [vm_compute; reflexivity|].
  destruct answer0 as (value & Hv & [Hn|(msg & Hm & Ha)]); [reflexivity|vm_compute in Hv; injection Hv as <-; vm_compute in Hn; discriminate|].
  assert (epochOf msg = 5 ∧ seqOf msg = 0) as [He Hs].
  { vm_compute in Hv. injection Hv as <-. vm_compute in Hm. injection Hm as <-. split; reflexivity. }
  apply (synced_catches_up hub waitingMirror (good_answer (snapshot 0 [])) value msg 5 2); try done.
  - lia.
  - destruct put2 as [Hn|(m2 & Hm2 & Hp2)]; [vm_compute in Hn; discriminate|].
    destruct put1 as [Hn|(m1 & Hm1 & Hp1)]; [vm_compute in Hn; discriminate|].
    assert (buffer waitingMirror = [m2; m1]) as ->.
    { vm_compute in Hm2, Hm1. injection Hm2 as <-. injection Hm1 as <-. vm_compute. reflexivity. }
    vm_compute in Hm2, Hm1. injection Hm2 as <-. injection Hm1 as <-.
    constructor; [|constructor; [|constructor]]; (split; [exact Hp2 || exact Hp1|split; [reflexivity|vm_compute; congruence]]).
  - intros i Hi. assert (i = 1 ∨ i = 2) as [-> | ->] by lia;
      [exists (default (mkMessage (mkHeader 0 0 0 Event) None) (buffer waitingMirror !! 1%nat))
      |exists (default (mkMessage (mkHeader 0 0 0 Event) None) (buffer waitingMirror !! 0%nat))];
      (split; [|vm_compute; reflexivity]); apply list_elem_of_lookup; [exists 1%nat|exists 0%nat]; vm_compute; reflexivity.
Defined.

Lemma mirror_callbacks_once_witness :
  askedIn (sy_log (after whole_run)) = [Starting 1] ∧
  askedIn (sy_log (after whole_run)) ≡ₚ repliedIn (sy_log (after whole_run)).
Proof.
  split; [vm_compute; reflexivity|].
  apply (mirror_callbacks_once (chars "area") Collection (after whole_run)); [|vm_compute; reflexivity..].
  unfold after. destruct (moves whole_run begin_) as [s|] eqn:E; [|constructor].
  eapply reachable_run; [|by apply Forall_true|exact E]. constructor.
Defined.

(** Two callers of [refresh]; the second asks while the first read is on its way. *)
Definition private_run : list (Move PrivateState.Task (Z * bytes)) :=
  [MEnter (PrivateState.TRefresh (Some (Caller 1))); MPerform 0 (0, []); MPerform 0 (0, []); MPerform 0 (0, []);
   MEnter (PrivateState.TRefresh (Some (Caller 2))); MPerform 1 (0, []);
   MReply failure; MPerform 2 (0, []); MPerform 2 (0, []); MPerform 2 (0, []);
   MReply (good_answer (Some (JUint 6))); MPerform 3 (0, []); MPerform 3 (0, []); MPerform 3 (0, [])].
Definition private_begin : System PrivateCore PrivateState.Task := mkSystem (newPrivate [chars "hand"]) [] 0 0 [].
Definition private_end : System PrivateCore PrivateState.Task := default private_begin (moves private_run private_begin).

Lemma private_reads_fresh_witness :
  sy_log private_end =
    [NAsked (Caller 1); NCall; NAsked (Caller 2); NGot failure; NCall; NGot (good_answer (Some (JUint 6)))] ++
    NReply (Caller 1) (good_answer (Some (JUint 6))) :: [NReply (Caller 2) (good_answer (Some (JUint 6)))] ∧
  fresh_reply 1 (good_answer (Some (JUint 6)))
    [NAsked (Caller 1); NCall; NAsked (Caller 2); NGot failure; NCall; NGot (good_answer (Some (JUint 6)))].
Proof.
  split; [vm_compute; reflexivity|].
  apply (private_reads_fresh [chars "hand"] private_end) with (later := [NReply (Caller 2) (good_answer (Some (JUint 6)))]);
    [|vm_compute; reflexivity].
  unfold private_end. destruct (moves private_run private_begin) as [s|] eqn:E; [|constructor].
  eapply reachable_run; [|by apply Forall_true|exact E]. constructor.
Defined.

Lemma shard_partition_witness :
  shardCentre (-7) 20 16 = Some (-8, 24) ∧ shardKey (-7) 20 16 = Some (chars "-8,24") ∧ in_shard 16 (-8) 24 (-7) 20.
Proof.
  split; [reflexivity|]. split; [reflexivity|]. apply (shard_partition (-7) 20 16 (-8) 24). reflexivity.
Defined.

(** ** Where the code gets it wrong *)

(** A gap, a [snapshot] call that fails, then the next message. *)
Definition lost_run : list (Move Task Z) :=
  gap_run ++ [MReply failure] ++ did 2 6 ++ [MEnter (TPush (put 5 (mob 8 2)))] ++ did 2 7.

Lemma lost_faithful : Forall (faithful hub) lost_run.
Proof.
  unfold lost_run. apply Forall_app; split; [apply gap_faithful|].
  repeat (apply Forall_app; split); try apply did_faithful; (constructor; [|done]); [apply failed|apply put5].
Qed.

(** [apply] moves [seq] past a gap before the mirror has asked again. When that call fails the
    gap is forgotten: the next message is applied to a collection that misses two changes, nothing
    is left to run, no call is made, and the mirror says it is at the hub's last message. *)
Example failed_resync_forgets_the_gap :
  Forall (faithful hub) lost_run ∧ is_Some (moves lost_run begin_) ∧
  let s := after lost_run in
  tasks s = [] ∧ sy_calls s = 0%nat ∧ count isCall (sy_log s) = 2%nat ∧ position (sy_state s) = (5, 5) ∧
  memberOf 7 (sy_state s) = Some (mob 7 3) ∧ hubState hub 5 5 !! 7 = None ∧
  memberOf 9 (sy_state s) = None ∧ hubState hub 5 5 !! 9 = Some (mob 9 1).
Proof.
  split; [apply lost_faithful|]. split; [vm_compute; by eexists|]. vm_compute. done.
Qed.

(** [stop] between the gateway's answer to the subscription and the first snapshot, then [start]. *)
Definition stopped_run : list (Move Task Z) :=
  [MEnter (TStart (Some (Starting 1)))] ++ did 4 0 ++ [MSubscribed (good_answer None)] ++ did 3 1 ++
  [MEnter TStop] ++ did 3 2 ++ [MReply (good_answer (snapshot 0 []))] ++ did 5 3 ++
  [MEnter (TStart (Some (Starting 2)))] ++ did 2 4.

(** [finishStart] sets [started] although the mirror was stopped meanwhile and gave its
    subscription back: the second [start] answers [Ok] and subscribes to nothing. *)
Example stopped_mirror_starts :
  is_Some (moves stopped_run begin_) ∧
  let s := after stopped_run in
  tasks s = [] ∧ sy_calls s = 0%nat ∧ sy_subscriptions s = 0%nat ∧
  started (mi_starter (sy_state s)) = true ∧ subHandle (mi_starter (sy_state s)) = 0 ∧
  NTold (Unsubscribe 4) ∈ sy_log s ∧ count isSubscribe (sy_log s) = 1%nat ∧
  NReply (Starting 2) okReply ∈ sy_log s.
Proof.
  split; [vm_compute; by eexists|]. cbv zeta. split_and!; try (vm_compute; reflexivity).
  - apply list_elem_of_In. vm_compute. tauto.
  - apply list_elem_of_In. vm_compute. tauto.
Qed.
